(* ===== verification/_CoqProject ===== *)
-Q . S2P
Prelude.v
BTree.v
Commons.v
Sharding.v
Overlay.v
WriteSet.v
Claims.v
TxnState.v
Coordinator.v
Request.v
Ids.v
TopicClaims.v
TopicLog.v
TopicService.v
TopicPayload.v
TopicRouting.v
Scalars.v
RowFilter.v
LiveReplay.v
LiveFlow.v
LiveResume.v
LiveNotify.v
LiveFanout.v
LiveClient.v
Protocol.v
RaftCommands.v
RaftData.v
Storage.v
RaftLog.v
RaftStore.v
RaftNode.v
VersionMerge.v
OverlayExec.v
StreamMemory.v
StreamTable.v
StreamFile.v
RowValue.v
RowCodec.v
RowSafety.v
