(* ===== verification/Prelude.v ===== *)
(** * KalamDB: a verification development of the server core

    KalamDB is an SQL database in Rust (backend/crates) with per-user, shared and stream tables,
    explicit transactions, Raft replication, live queries and durable pub/sub topics.  This library
    models the parts of the server that keep state of their own, as functions and step relations
    one can run, and proves what makes them correct.

    ** The parts and how they interact

    A request that opens a transaction ([Request]) drives the transaction coordinator
    ([Coordinator]) through a trait.  The coordinator keeps one handle ([TxnState]) and one write
    set ([WriteSet]) per transaction, claims primary keys ([Claims]) so that two transactions do not
    insert the same key, binds each transaction to one Raft group ([Sharding]) and pins a read
    snapshot from the commit-sequence tracker ([TxnState]).  Statements inside the transaction read
    through the overlay of its staged writes ([Overlay], [OverlayExec]).

    A commit, like every single write, becomes one entry of a Raft group: a command
    ([RaftCommands]) in a binary format ([Protocol]).  Consensus is a library; the group's storage
    ([RaftStore]) serves it from a cache over the durable log of the node ([RaftLog]), which lies in
    a key-value backend ([Storage]), and hands committed entries to the state machine of the group
    ([RaftData]), which executes them through an applier and gives their rows versions ([Ids]).
    [RaftNode] composes the storage, the database and the log-IO thread into one step relation.

    Rows are read by merging hot rows with cold ones and keeping the latest visible version
    ([VersionMerge]).  A stored row is bytes ([RowValue], [RowCodec], [RowSafety]), written with one
    version of the table's schema and read with another.  Stream tables have a log of their own, in memory ([StreamMemory]) or in files
    ([StreamFile]), behind one table store ([StreamTable]).

    A change that was applied goes two more ways.  Live queries: the changes of a commit are grouped
    ([LiveFanout]), filtered and turned into notifications ([LiveNotify], [RowFilter], [Scalars]),
    kept for resuming clients ([LiveReplay], [LiveResume]) and delivered after the snapshot of the
    subscription ([LiveFlow]); the Rust SDK keeps the rows an application sees ([LiveClient]).
    Topics: the change is routed to the topics that subscribe to it ([TopicRouting]) with a payload
    and a key ([TopicPayload]), appended to a partition ([TopicLog]), and leased, fetched and
    acknowledged by consumer groups ([TopicService]) through the claims of the group ([TopicClaims]).

    ** Files, modules and sources (under src/backend/crates unless said otherwise)

    Foundations
    - [Prelude]: results, machine integers, strings as byte sequences, decimal text, shared lemmas
      and tactics.
    - [BTree]: total orders (class [Ordered]) and [BTreeMap] as a sorted association list.
    - [Commons]: identifiers and enums of kalamdb-commons/src/models.
    - [Scalars]: DataFusion's [ScalarValue] and kalamdb-commons/src/conversions/scalar/numeric.rs,
      with binary64 arithmetic.
    - [Ids] (modules [Snowflake], [BigEndian], [Version]): kalamdb-commons/src/ids (snowflake.rs,
      seq_id.rs, version_id.rs, version_domain.rs) and
      kalamdb-raft/src/commands/data_response.rs.

    Transactions
    - [Sharding]: kalamdb-sharding/src (group_id.rs, lib.rs).
    - [Overlay], [WriteSet], [Claims], [TxnState]: kalamdb-transactions/src (overlay.rs;
      write_set.rs and staged_mutation.rs; pk_claims.rs; commit_sequence.rs, owner.rs, binding.rs,
      handle.rs, metrics.rs).
    - [Coordinator]: kalamdb-core/src/transactions (coordinator.rs, overlay_view.rs,
      commit_result.rs).
    - [Request]: kalamdb-transactions/src/request.rs and
      kalamdb-core/src/sql/executor/request_transaction_state.rs; the class
      [RequestTransactionCoordinator] is the trait between the two, [RequestCoordinatorLaws] what
      the request relies on, and the coordinator is the instance.

    - [OverlayExec]: kalamdb-transactions/src/overlay_exec.rs: merging the overlay into the scanned
      rows of a statement.

    Topics
    - [TopicClaims]: [ClaimState] of kalamdb-publisher/src/service.rs.
    - [TopicLog]: kalamdb-publisher/src/partition.rs, the critical sections of
      service/publish.rs, service/retention.rs, the reads of service/consume.rs, and
      kalamdb-tables/src/topics.
    - [TopicService]: service/consume.rs and kalamdb-system/src/providers/topic_offsets.
    - [TopicPayload]: kalamdb-publisher/src/payload.rs and [row_to_json_map] of
      kalamdb-commons/src/conversions/arrow/json.rs; the class [PayloadEnv] is what it takes from
      libraries.
    - [TopicRouting]: kalamdb-publisher/src/routing.rs, the routing loops of service/publish.rs,
      and kalamdb-system/src/providers/topics/models.

    Live queries
    - [RowFilter]: kalamdb-row-filter/src: compiling a WHERE expression and evaluating it on a row.
    - [LiveReplay], [LiveFlow], [LiveResume], [LiveNotify], [LiveFanout]: kalamdb-live/src
      (replay_log.rs; models/connection.rs; manager/queries_manager.rs; notification.rs; fanout.rs).
    - [LiveClient]: src/link/link-common/src (seq_tracking.rs and subscription).

    Replication and storage
    - [Protocol]: kalamdb-serialization/src (protocol.rs, object/envelope.rs, stream_frame.rs); the
      class [Codec] is what a writer and a reader owe each other.
    - [RaftCommands]: kalamdb-raft/src/commands and codec/command_codec.rs.
    - [RaftData]: kalamdb-raft/src/state_machine (user_data.rs, shared_data.rs, pending_buffer.rs,
      meta_coordinator.rs, trait_def.rs), over the class [DataCommand] of the two machines.
    - [Storage]: kalamdb-store/src (storage_trait.rs, write_coalesce.rs, test_utils.rs, persist.rs);
      the trait is the class [StorageBackend] with its [BackendLaws].
    - [RaftLog]: kalamdb-store/src/raft_storage.rs.
    - [RaftStore]: kalamdb-raft/src/storage (raft_store.rs, log_io.rs) over the class
      [KalamStateMachine].
    - [RaftNode]: the node as a transition system; the data machines are instances of its
      [StateMachineLaws].

    Tables
    - [RowValue]: kalamdb-serialization/src/row (value.rs, array.rs, scalar.rs, the types of
      schema.rs): tagged column values and the reader with its budgets.
    - [RowCodec]: kalamdb-serialization/src/row (schema.rs, encode.rs, decode.rs,
      fixed_value_encoding.rs, metadata.rs): rows in both formats, their layouts, projections.
    - [RowSafety]: the same decoders on bytes that no encoder wrote.
    - [VersionMerge]: kalamdb-commons/src/conversions/pk_bucket.rs,
      kalamdb-datafusion-sources/src/exec.rs and kalamdb-tables/src/utils/base/hot_scan.rs.
    - [StreamMemory], [StreamFile]: kalamdb-streams/src (memory_store.rs and record.rs;
      file_store.rs and time_bucket.rs).
    - [StreamTable]: kalamdb-tables/src/stream_tables/stream_table_store.rs over the class
      [StreamBackend], whose laws both logs keep.

    Rust structs are records with the source's fields, enums are inductive types, maps are [gmap]s
    (a [DashMap] is one atomic map per access) or [BTree] maps where their order is seen, integers
    are [Z] with wrap-around or saturation written out, fallible functions return [Result].  Code
    that runs under one lock is one function on the state; where the source releases a lock or
    awaits in the middle, the model has a boundary there: the phases of [Claims.acquire_step],
    [commit_seal] and [commit_finish] of the coordinator, the interference points of [TopicService],
    the worker and connection steps of [LiveFlow], the log-IO thread of [RaftNode].

    ** What the theorems show

    - Transactions: the overlay and the write set keep their derived structures in step with the
      staged mutations; the scan of a statement in a
      transaction returns, per key, the committed row with the staged mutations executed on it; rolling back to a
      savepoint restores the state before it; merging overlays does not depend on the order in
      which the maps are iterated.
    - Coordination: an owner has at most one open transaction; what a commit sends are the
      transaction's own mutations, in order, for one group; closed transactions are refused;
      timeouts hit exactly the expired ones; a request never leaves a transaction open; primary
      keys are claimed exclusively under any interleaving.
    - Identifiers: snowflake ids strictly increase over single calls and batches at any clock
      readings that fit their field, and batches equal single calls; row versions pack, order and encode faithfully; routing stays within the
      configured groups.
    - Topics: the in-memory tail answers what the store would, while retention passes succeed; publishing assigns fresh
      consecutive offsets; retention drops the oldest messages until its limits hold; no offset is
      delivered twice within its lease or after it was acknowledged; the route cache holds exactly
      the parsable routes of the cached topics; a batch appends what its rows published one by one
      append.
    - Live queries: filters agree with a three-valued SQL semantics of the expression where NULL is
      not negated, integers stay below 2^53 and texts have no line feed; the notifications of a
      subscription turn its old view into the new one; snapshot and live changes join without a gap
      or a repetition under every interleaving in which no change of a resume is refused; a resume the log accepts is complete when
      the noted snapshots were; the rows of the SDK follow the filtered table, revocations excepted.
    - Replication: packed commands and records are read back, and nothing else is accepted; the durable log implements one abstract log per group whatever the
      groups interleave; a node in cluster mode serves exactly the log openraft built, over appends,
      truncation, purges, snapshots and restarts, and what was appended becomes durable (single-node
      mode defers this until apply); applying an entry writes exactly what it wrote and its record in
      one batch; an entry is executed at most once, and exactly once unless its versions are refused; a snapshot restores the machine; cache trimming terminates.
    - Stored rows: a row within the decoder's budgets reads back under a later schema, in either format, with widened types,
      defaults and dropped columns; selected columns and projections agree with the whole row; any
      bytes are an error or a row of the table's types, bounded by the decoder's budgets; live rows
      of moderate size never exceed these.
    - Tables: a scan returns the latest visible version of each key and fails rather than truncate;
      flushing rows to cold storage does not change a full scan; a decoded row has its columns' types; a
      stream table behaves as a map from keys to rows, and both stream logs answer alike, for gets and
      scans that are not cut short; a torn file is
      read up to its last whole frame; expiry removes exactly the records whose period has ended; the writer cache is
      bounded and loses nothing.
    - Defects that the models exhibit, each as a theorem, among them: a lost wake-up of a claim
      waiter, three coordinator interleavings around the await of a commit, colliding numeric group
      ids, a fetch loop that spins at a hole in the offsets, a window stranded by a failed fetch,
      offsets and byte counters restarted after a restart, the unstable partition of a row without a
      key, a revoked row that stays at the client, a scan narrowed by an index that returns stale
      rows, a limited scan of a stream file that returns deleted rows, live rows of the new format
      that count as deleted, a failed retention pass that leaves deleted messages in the tail, hard
      deletes that filtered subscriptions are not told of.

    ** Bounds and fuel

    Loops with a decreasing measure are structural or run on fuel that is shown or is evidently
    enough: the window search of a group needs one pass more than there are claims
    ([window_skip_total]); the chunk and byte loops of retention remove at least one entry per
    round; decimal text of a [u64] has at most 20 digits; the chunked id allocator needs one round
    per requested id; trimming the log cache removes one entry per round and is shown to end
    ([trim_terminates]); splitting a stream file needs at most one round per byte; skipping a nested
    value has as many levels as [enter_nested] admits.  The group fetch
    loop may really not terminate: its result says when the fuel ran out, one theorem gives fuel
    that is enough and another shows that none is.  Counters the source saturates or wraps are
    modelled so; theorems that need them not to reach the limit say so as hypotheses.

    ** What is a parameter

    Hashing ([DefaultHasher] is unspecified), the size of a DataFusion scalar and its [Display], the
    encoded size of a message, the answer of the replicated apply, the acceptance of staged
    publishes, UUID parsing, storage results and clock readings, the conversion of one scalar to
    JSON, the serde_json serializer, FlexBuffers and MessagePack ([Serde]), Unicode case conversion,
    the regex size limit, the iteration order of a [HashMap], openraft's membership, the tokio
    channel, the conversion of an Arrow value to a scalar ([ArrowScalars]), the calendar of chrono, the encoding of a stream row, and the parser of a route filter.

    ** Not modelled

    Library code and the glue around it: SQL parsing and planning (sqlparser, DataFusion),
    consensus (openraft) with its network and group manager, RocksDB and the object stores, Parquet
    and Arrow buffers, HTTP, WebSocket and PostgreSQL servers, password hashing and tokens, the
    procedure runtime, vector indexes.  Of the program's own logic: deleting a whole topic with its
    stored data, registering live subscriptions, the metadata state machine, row-level security
    policies, role permissions, background jobs, the manifest of cold storage,
    Arrow batches built from stored rows, and storage schemas derived from the catalog.  Failures of the
    file system under the stream logs and poisoned locks are left out. *)

From Stdlib Require Import ZArith Lia Ascii Sorting.Sorted.
From stdpp Require Import base strings gmap fin_maps pretty list.

Open Scope Z_scope.

(** ** Results: Rust's [Result<A, E>] *)

Inductive Result (E A : Type) : Type :=
| Ok (a : A)
| Err (e : E).

Arguments Ok {E A} a.
Arguments Err {E A} e.

Declare Scope kalam_scope.
Delimit Scope kalam_scope with kalam.

Definition result_bind {E A B} (r : Result E A) (k : A -> Result E B) : Result E B :=
  match r with Ok a => k a | Err e => Err e end.

Definition is_ok {E A} (r : Result E A) : bool :=
  match r with Ok _ => true | Err _ => false end.

Definition map_err {E F A} (f : E -> F) (r : Result E A) : Result F A :=
  match r with Ok a => Ok a | Err e => Err (f e) end.

Notation "'let?' x ':=' r 'in' k" := (result_bind r (fun x => k))
  (at level 10, x pattern, r at level 200, k at level 200) : kalam_scope.

(** ** Machine integers

    [u64], [usize] (64-bit targets) and [i64] are [Z] with the wrap written out.  Plain [+] in
    Rust is [wrapping] in the release profile (the workspace sets no overflow-checks). *)

Definition u64_modulus : Z := 2 ^ 64.
Definition u64_max : Z := 2 ^ 64 - 1.
Definition i64_max : Z := 2 ^ 63 - 1.
Definition u32_max : Z := 2 ^ 32 - 1.

Definition is_u64 (x : Z) : Prop := 0 <= x <= u64_max.

Definition wrap64 (x : Z) : Z := x mod u64_modulus.
Definition u64_add (a b : Z) : Z := wrap64 (a + b).
Definition u64_sub (a b : Z) : Z := wrap64 (a - b).
Definition saturating_add (a b : Z) : Z := Z.min u64_max (a + b).
Definition saturating_sub (a b : Z) : Z := Z.max 0 (a - b).
Definition checked_add (a b : Z) : option Z :=
  if a + b <=? u64_max then Some (a + b) else None.

(** [x as i64] for a [u64] value. *)
Definition u64_as_i64 (x : Z) : Z := if x <=? i64_max then x else x - u64_modulus.
(** [x as u64] for an [i64] value. *)
Definition i64_as_u64 (x : Z) : Z := wrap64 x.

(** ** Lists and vectors *)

(** [iter().rposition(p)]: the last index whose element satisfies [p]. *)
Fixpoint rposition {A} (p : A -> bool) (l : list A) : option nat :=
  match l with
  | [] => None
  | x :: rest =>
      match rposition p rest with
      | Some i => Some (S i)
      | None => if p x then Some 0%nat else None
      end
  end.

(** [iter().position(p)]: the first index whose element satisfies [p]. *)
Fixpoint position {A} (p : A -> bool) (l : list A) : option nat :=
  match l with
  | [] => None
  | x :: rest => if p x then Some 0%nat else S <$> position p rest
  end.

(** [sort_by]: the stable sort of a slice, for a total preorder given as a boolean. *)
Fixpoint insert_by {A} (le : A -> A -> bool) (x : A) (l : list A) : list A :=
  match l with
  | [] => [x]
  | y :: rest => if le x y then x :: l else y :: insert_by le x rest
  end.

Definition sort_by {A} (le : A -> A -> bool) (l : list A) : list A := foldr (insert_by le) [] l.

(** [iter().min()] and [iter().max()] over integers. *)
Fixpoint list_min (l : list Z) : option Z :=
  match l with
  | [] => None
  | x :: rest => Some (match list_min rest with Some m => Z.min x m | None => x end)
  end.

Fixpoint list_max (l : list Z) : option Z :=
  match l with
  | [] => None
  | x :: rest => Some (match list_max rest with Some m => Z.max x m | None => x end)
  end.

(** ** Strings

    A Rust [String]/[&str] is its UTF-8 byte sequence, held as [string] (one [ascii] per byte). *)

Definition byte_of (a : ascii) : Z := Z.of_N (N_of_ascii a).
Definition ascii_of_byte (b : Z) : ascii := ascii_of_N (Z.to_N b).

Definition bytes_of_string (s : string) : list Z :=
  byte_of <$> String.list_ascii_of_string s.
Definition string_of_bytes (l : list Z) : string :=
  String.string_of_list_ascii (ascii_of_byte <$> l).

(** [s.len()]: length in bytes. *)
Definition str_len (s : string) : Z := Z.of_nat (String.length s).

Definition ascii_lowercase_byte (b : Z) : Z :=
  if (65 <=? b) && (b <=? 90) then b + 32 else b.

(** [s.to_ascii_lowercase()]. *)
Definition to_ascii_lowercase (s : string) : string :=
  string_of_bytes (ascii_lowercase_byte <$> bytes_of_string s).

(** UTF-8 encodings of the characters with the Unicode property White_Space, which is what
    [str::trim] removes. *)
Definition whitespace_encodings : list (list Z) :=
  [[9]; [10]; [11]; [12]; [13]; [32];
   [194; 133]; [194; 160]; [225; 154; 128];
   [226; 128; 128]; [226; 128; 129]; [226; 128; 130]; [226; 128; 131]; [226; 128; 132];
   [226; 128; 133]; [226; 128; 134]; [226; 128; 135]; [226; 128; 136]; [226; 128; 137];
   [226; 128; 138]; [226; 128; 168]; [226; 128; 169]; [226; 128; 175];
   [226; 129; 159]; [227; 128; 128]].

(** [strip_prefix pre l]: what follows [pre] in [l], if [l] starts with it. *)
Fixpoint strip_prefix (pre l : list Z) : option (list Z) :=
  match pre, l with
  | [], _ => Some l
  | p :: pre', x :: l' => if p =? x then strip_prefix pre' l' else None
  | _ :: _, [] => None
  end.

Fixpoint strip_any (pres : list (list Z)) (l : list Z) : option (list Z) :=
  match pres with
  | [] => None
  | p :: rest => match strip_prefix p l with Some l' => Some l' | None => strip_any rest l end
  end.

(** Each round removes at least one byte, so the length of the input is enough fuel. *)
Fixpoint trim_leading (pres : list (list Z)) (fuel : nat) (l : list Z) : list Z :=
  match fuel with
  | O => l
  | S fuel' =>
      match strip_any pres l with Some l' => trim_leading pres fuel' l' | None => l end
  end.

Definition trim_start_bytes (l : list Z) : list Z :=
  trim_leading whitespace_encodings (length l) l.
Definition trim_end_bytes (l : list Z) : list Z :=
  reverse (trim_leading (reverse <$> whitespace_encodings) (length l) (reverse l)).

(** [s.trim()]. *)
Definition trim (s : string) : string :=
  string_of_bytes (trim_end_bytes (trim_start_bytes (bytes_of_string s))).

(** Decimal text: [n.to_string()] for an unsigned integer (20 digits hold every [u64]), zero
    padding as in [{:02}], and [str::parse] for an unsigned type whose maximum is [max]. *)
Fixpoint dec_digits (fuel : nat) (n : Z) : list Z :=
  match fuel with
  | O => []
  | S fuel' => if n <? 10 then [48 + n] else dec_digits fuel' (n / 10) ++ [48 + n mod 10]
  end.

Definition decimal (n : Z) : list Z := dec_digits 20 n.

Definition zero_padded (width : nat) (n : Z) : list Z :=
  replicate (width - length (decimal n)) 48 ++ decimal n.

Definition is_ascii_digit (b : Z) : bool := (48 <=? b) && (b <=? 57).

Fixpoint parse_digits (max acc : Z) (l : list Z) : option Z :=
  match l with
  | [] => Some acc
  | b :: rest =>
      if is_ascii_digit b then
        if acc * 10 <=? max then
          if acc * 10 + (b - 48) <=? max then parse_digits max (acc * 10 + (b - 48)) rest
          else None
        else None
      else None
  end.

Definition parse_unsigned (max : Z) (l : list Z) : option Z :=
  match l with
  | [] => None
  | [43] | [45] => None
  | 43 :: rest => parse_digits max 0 rest
  | _ => parse_digits max 0 l
  end.

(** [i.to_string()] for a signed integer, and [str::parse] for a signed type with maximum [max]. *)
Definition int_text (i : Z) : string :=
  string_of_bytes (if i <? 0 then 45 :: decimal (- i) else decimal i).

Definition parse_signed (max : Z) (l : list Z) : option Z :=
  match l with
  | [] => None
  | 45 :: d :: ds => Z.opp <$> parse_digits (max + 1) 0 (d :: ds)
  | 43 :: d :: ds => parse_digits max 0 (d :: ds)
  | l => parse_digits max 0 l
  end.

(** ** Shared lemmas *)

Lemma wrap64_small x : 0 <= x < u64_modulus -> wrap64 x = x.
Proof. apply Z.mod_small. Qed.

Lemma wrap64_range x : 0 <= wrap64 x < u64_modulus.
Proof. apply Z.mod_pos_bound. reflexivity. Qed.

Lemma u64_add_small a b : 0 <= a + b <= u64_max -> u64_add a b = a + b.
Proof. intros H. apply wrap64_small. unfold u64_modulus, u64_max in *. lia. Qed.

Lemma saturating_add_small a b : a + b <= u64_max -> saturating_add a b = a + b.
Proof. unfold saturating_add. lia. Qed.

Lemma Ok_inj {E A} (a b : A) : @Ok E A a = Ok b -> a = b.
Proof. congruence. Qed.

Lemma result_bind_ok {E A B} (r : Result E A) (k : A -> Result E B) b :
  result_bind r k = Ok b <-> exists a, r = Ok a /\ k a = Ok b.
Proof.
  destruct r as [a|e]; simpl; split; try naive_solver.
Qed.

Lemma map_err_ok {E F A} (f : E -> F) (r : Result E A) a : map_err f r = Ok a <-> r = Ok a.
Proof. destruct r; cbn; split; congruence. Qed.

Lemma rposition_Some {A} (p : A -> bool) l i :
  rposition p l = Some i ->
  (exists x, l !! i = Some x /\ p x = true) /\
  (forall j y, (i < j)%nat -> l !! j = Some y -> p y = false).
Proof.
  revert i. induction l as [|x l IH]; intros i; simpl; [done|].
  destruct (rposition p l) as [k|] eqn:E.
  - intros [= <-]. destruct (IH k eq_refl) as [[y [Hy Hp]] Hlast]. split; [eauto|].
    intros [|j] z Hj; [lia|]. simpl. apply Hlast. lia.
  - destruct (p x) eqn:Hp; [|done]. intros [= <-]. split; [eauto|].
    intros [|j] z Hj; [lia|]. simpl. intros Hz.
    clear IH. revert j z Hz Hj. induction l as [|y l IHl]; intros j z Hz Hj; [done|].
    simpl in E. destruct (rposition p l) eqn:E'; [done|].
    destruct (p y) eqn:Hy; [done|]. destruct j as [|j]; simpl in Hz; [congruence|].
    eapply (IHl eq_refl j); [done|lia].
Qed.

Lemma rposition_None {A} (p : A -> bool) l :
  rposition p l = None <-> Forall (fun x => p x = false) l.
Proof.
  induction l as [|x l IH]; simpl; [split; auto|].
  rewrite Forall_cons. destruct (rposition p l); [split; [done|]|].
  - intros [_ H]. by apply IH in H.
  - destruct (p x); naive_solver.
Qed.

Lemma list_min_spec l m :
  list_min l = Some m <-> m ∈ l /\ (forall x, x ∈ l -> m <= x).
Proof.
  revert m. induction l as [|x l IH]; intros m; simpl.
  - split; [done|]. intros [H _]. by apply elem_of_nil in H.
  - destruct (list_min l) as [k|] eqn:E.
    + destruct (proj1 (IH k) eq_refl) as [Hk Hle]. split.
      * intros [= <-]. split.
        -- destruct (Z.min_spec x k) as [[_ ->]|[_ ->]]; set_solver.
        -- intros y [->|Hy]%elem_of_cons; [lia|]. specialize (Hle y Hy). lia.
      * intros [Hm Hall]. f_equal. pose proof (Hall x ltac:(set_solver)).
        pose proof (Hall k ltac:(set_solver)).
        apply elem_of_cons in Hm as [->|Hm]; [lia|]. specialize (Hle m Hm). lia.
    + assert (l = []) as ->.
      { destruct l as [|y l']; [done|]. simpl in E. by destruct (list_min l'). }
      rewrite list_elem_of_singleton. split.
      * intros [= <-]. split; [done|]. intros y ->%list_elem_of_singleton. lia.
      * intros [-> _]. done.
Qed.

Lemma list_min_None l : list_min l = None <-> l = [].
Proof. destruct l; simpl; split; by intros. Qed.

Lemma list_max_spec l m :
  list_max l = Some m -> m ∈ l /\ (forall x, x ∈ l -> x <= m).
Proof.
  revert m. induction l as [|x l IH]; intros m; simpl; [done|].
  destruct (list_max l) as [k|] eqn:E; intros [= <-].
  - destruct (IH k eq_refl) as [Hk Hle]. split.
    + destruct (Z.max_spec x k) as [[_ ->]|[_ ->]]; set_solver.
    + intros y [->|Hy]%elem_of_cons; [lia|]. specialize (Hle y Hy). lia.
  - assert (l = []) as ->.
    { destruct l as [|y l']; [done|]. simpl in E. by destruct (list_max l'). }
    split; [set_solver|]. intros y ->%list_elem_of_singleton. lia.
Qed.

(** Value of a digit string read from the left, starting from [acc]. *)
Definition dec_value (acc : Z) (l : list Z) : Z := foldl (fun a b => a * 10 + (b - 48)) acc l.

Lemma dec_value_app acc l1 l2 : dec_value acc (l1 ++ l2) = dec_value (dec_value acc l1) l2.
Proof. apply foldl_app. Qed.

Lemma dec_digits_value fuel n :
  0 <= n < 10 ^ Z.of_nat fuel ->
  Forall (fun b => is_ascii_digit b = true) (dec_digits fuel n) /\
  dec_value 0 (dec_digits fuel n) = n /\ ((0 < fuel)%nat -> dec_digits fuel n ≠ []).
Proof.
  revert n. induction fuel as [|fuel IH]; intros n Hn.
  { simpl in Hn. split_and!; [constructor|unfold dec_value; simpl; lia|lia]. }
  rewrite Nat2Z.inj_succ, Z.pow_succ_r in Hn by lia. simpl.
  destruct (n <? 10) eqn:E.
  - apply Z.ltb_lt in E. split_and!; [|unfold dec_value; simpl; lia|done].
    constructor; [|constructor]. unfold is_ascii_digit. apply andb_true_iff. lia.
  - destruct (IH (n / 10)) as (Hd & Hv & _).
    { split; [apply Z.div_pos; lia|]. apply Z.div_lt_upper_bound; lia. }
    pose proof (Z.mod_pos_bound n 10 ltac:(lia)) as Hm.
    pose proof (Z.div_mod n 10 ltac:(lia)) as Hdm.
    split_and!.
    + apply Forall_app. split; [done|]. constructor; [|constructor].
      unfold is_ascii_digit. apply andb_true_iff. lia.
    + rewrite dec_value_app, Hv. unfold dec_value. simpl. lia.
    + by destruct (dec_digits fuel (n / 10)).
Qed.

Lemma dec_value_ge acc l :
  0 <= acc -> Forall (fun b => is_ascii_digit b = true) l -> acc <= dec_value acc l.
Proof.
  revert acc. induction l as [|b l IH]; intros acc Hacc Hl; [done|].
  apply Forall_cons in Hl as [Hb Hl]. unfold is_ascii_digit in Hb.
  apply andb_true_iff in Hb as [Hb1 Hb2]. apply Z.leb_le in Hb1, Hb2.
  change (dec_value acc (b :: l)) with (dec_value (acc * 10 + (b - 48)) l).
  etransitivity; [|apply IH; [lia|done]]. lia.
Qed.

Lemma parse_digits_value max acc l :
  0 <= acc -> Forall (fun b => is_ascii_digit b = true) l -> dec_value acc l <= max ->
  parse_digits max acc l = Some (dec_value acc l).
Proof.
  revert acc. induction l as [|b l IH]; intros acc Hacc Hl Hmax; [done|].
  apply Forall_cons in Hl as [Hb Hl]. simpl. rewrite Hb.
  assert (0 <= b - 48).
  { unfold is_ascii_digit in Hb. apply andb_true_iff in Hb as [Hb1 _]. apply Z.leb_le in Hb1. lia. }
  change (dec_value acc (b :: l)) with (dec_value (acc * 10 + (b - 48)) l) in *.
  pose proof (dec_value_ge (acc * 10 + (b - 48)) l ltac:(lia) Hl).
  rewrite !Zle_imp_le_bool by lia. apply IH; [lia|done|done].
Qed.

Lemma dec_value_zeros n : dec_value 0 (replicate n 48) = 0.
Proof. induction n; [done|]. simpl. done. Qed.

(** A non-empty string of digits parses to its value, unless it exceeds the maximum. *)
Lemma parse_unsigned_digits max l :
  l <> [] -> Forall (fun b => is_ascii_digit b = true) l -> dec_value 0 l <= max ->
  parse_unsigned max l = Some (dec_value 0 l).
Proof.
  intros Hne Hl Hmax. pose proof (parse_digits_value max 0 l ltac:(lia) Hl Hmax) as Hp.
  destruct l as [|b l]; [done|]. apply Forall_cons in Hl as [Hb _]. unfold is_ascii_digit in Hb.
  apply andb_true_iff in Hb as [Hb1 Hb2]. apply Z.leb_le in Hb1, Hb2.
  assert (b = 48 \/ b = 49 \/ b = 50 \/ b = 51 \/ b = 52 \/ b = 53 \/ b = 54 \/ b = 55 \/
          b = 56 \/ b = 57) as Hb by lia.
  destruct_or! Hb; subst b; by destruct l.
Qed.

Lemma zero_padded_digits width n :
  0 <= n <= u64_max ->
  Forall (fun b => is_ascii_digit b = true) (zero_padded width n) /\
  dec_value 0 (zero_padded width n) = n /\ zero_padded width n <> [].
Proof.
  intros Hn. unfold zero_padded, decimal.
  destruct (dec_digits_value 20 n) as (Hd & Hv & Hne);
    [split; [lia|]; apply Z.le_lt_trans with u64_max; [lia|reflexivity]|].
  split_and!.
  - apply Forall_app. split; [by apply Forall_replicate|done].
  - by rewrite dec_value_app, dec_value_zeros.
  - intros [_ E]%app_eq_nil. by apply Hne; [lia|].
Qed.

(** Printing an unsigned integer, zero padded, and parsing it back. *)
Lemma parse_zero_padded max width n :
  0 <= n <= max -> max <= u64_max -> parse_unsigned max (zero_padded width n) = Some n.
Proof.
  intros Hn Hmax. destruct (zero_padded_digits width n) as (Hd & Hv & Hne); [lia|].
  by rewrite parse_unsigned_digits, Hv by (done || lia).
Qed.

Lemma byte_of_ascii b : 0 <= b < 256 -> byte_of (ascii_of_byte b) = b.
Proof.
  intros Hb. unfold byte_of, ascii_of_byte. rewrite N_ascii_embedding by lia. lia.
Qed.

Lemma bytes_string_bytes l :
  Forall (fun b => 0 <= b < 256) l -> bytes_of_string (string_of_bytes l) = l.
Proof.
  intros Hl. unfold bytes_of_string, string_of_bytes.
  rewrite String.list_ascii_of_string_of_list_ascii.
  induction Hl as [|b l Hb _ IH]; [done|]. simpl.
  f_equal; [by apply byte_of_ascii|exact IH].
Qed.

Lemma decimal_bytes n : Forall (fun b => is_ascii_digit b = true) (decimal n) ->
  Forall (fun b => 0 <= b < 256) (decimal n).
Proof.
  intros H. eapply Forall_impl; [exact H|]. intros b. unfold is_ascii_digit.
  rewrite andb_true_iff, !Z.leb_le. lia.
Qed.

(** The text of a signed integer parses back to it. *)
Lemma parse_signed_text max i :
  0 <= max < 2 ^ 63 -> - (max + 1) <= i <= max -> parse_signed max (bytes_of_string (int_text i)) = Some i.
Proof.
  intros Hmax Hi. unfold parse_signed, int_text.
  destruct (dec_digits_value 20 (Z.abs i)) as (Hd & Hv & Hne).
  { split; [lia|]. apply Z.le_lt_trans with (2 ^ 63); [lia|reflexivity]. }
  specialize (Hne ltac:(lia)). fold (decimal (Z.abs i)) in *.
  pose proof (decimal_bytes _ Hd) as Hb.
  destruct (Z.ltb_spec i 0) as [Hneg|Hpos].
  - rewrite Z.abs_neq in * by lia. rewrite bytes_string_bytes by (constructor; [lia|done]).
    assert (parse_digits (max + 1) 0 (decimal (- i)) = Some (- i)) as Hp
      by (rewrite parse_digits_value by (done || lia); by rewrite Hv).
    destruct (decimal (- i)) as [|d ds]; [done|]. rewrite Hp. cbn. f_equal. lia.
  - rewrite Z.abs_eq in * by lia. rewrite bytes_string_bytes by done.
    assert (parse_digits max 0 (decimal i) = Some i) as Hp
      by (rewrite parse_digits_value by (done || lia); by rewrite Hv).
    destruct (decimal i) as [|d ds]; [done|]. apply Forall_cons in Hd as [Hdig _].
    unfold is_ascii_digit in Hdig. apply andb_true_iff in Hdig as [Hlo%Z.leb_le Hhi%Z.leb_le].
    assert (d = 48 \/ d = 49 \/ d = 50 \/ d = 51 \/ d = 52 \/ d = 53 \/ d = 54 \/ d = 55 \/
            d = 56 \/ d = 57) as Hcases by lia.
    destruct_or! Hcases; subst d; exact Hp.
Qed.

Lemma bytes_of_string_app s1 s2 :
  bytes_of_string (s1 +:+ s2) = bytes_of_string s1 ++ bytes_of_string s2.
Proof.
  unfold bytes_of_string. rewrite <-fmap_app. f_equal.
  induction s1 as [|c s1 IH]; [done|]. simpl. by rewrite IH.
Qed.

Lemma bytes_of_string_inj s1 s2 : bytes_of_string s1 = bytes_of_string s2 -> s1 = s2.
Proof.
  unfold bytes_of_string. revert s2. induction s1 as [|c1 s1 IH]; intros [|c2 s2]; try done.
  simpl. intros H. injection H as Hc Hs. f_equal; [|by apply IH].
  unfold byte_of in Hc. apply N2Z.inj in Hc. rewrite <-(ascii_N_embedding c1), Hc.
  apply ascii_N_embedding.
Qed.

Lemma strip_prefix_app pre l : strip_prefix pre (pre ++ l) = Some l.
Proof. induction pre as [|b pre IH]; simpl; [done|]. by rewrite Z.eqb_refl. Qed.

Lemma digit_byte b : is_ascii_digit b = true -> 48 <= b <= 57.
Proof. unfold is_ascii_digit. rewrite andb_true_iff, !Z.leb_le. done. Qed.

Lemma zero_padded_bytes width n :
  0 <= n <= u64_max -> Forall (fun b => 0 <= b < 256) (zero_padded width n).
Proof.
  intros Hn. destruct (zero_padded_digits width n Hn) as (Hd & _ & _).
  eapply Forall_impl; [exact Hd|]. intros b Hb%digit_byte. lia.
Qed.

(** [or] of bit fields that do not overlap is addition. *)
Lemma lor_field a b n : 0 <= n -> 0 <= b < 2 ^ n -> Z.lor (a * 2 ^ n) b = a * 2 ^ n + b.
Proof.
  intros Hn Hb. rewrite <-Z.add_lor_land.
  assert (Z.land (a * 2 ^ n) b = 0) as ->; [|lia].
  apply Z.bits_inj_0. intros m. rewrite Z.land_spec.
  destruct (Z.lt_ge_cases m n) as [Hm|Hm]; [by rewrite Z.mul_pow2_bits_low by lia|].
  rewrite <-(Z.mod_small b (2 ^ n)) by lia.
  rewrite Z.mod_pow2_bits_high by lia. apply andb_false_r.
Qed.

Lemma u64_as_i64_small x : x <= i64_max -> u64_as_i64 x = x.
Proof. intros H. unfold u64_as_i64. by rewrite (proj2 (Z.leb_le _ _)). Qed.

(** ** Automation *)

Create HintDb kalam discriminated.

Create Rewrite HintDb kalam_len.
#[export] Hint Rewrite @length_app @length_fmap @length_insert @length_take : kalam_len.
#[export] Hint Resolve wrap64_range : kalam.

Lemma insert_by_perm {A} (le : A -> A -> bool) x l : insert_by le x l ≡ₚ x :: l.
Proof.
  induction l as [|y l IH]; [done|]. cbn [insert_by]. destruct (le x y); [done|].
  rewrite IH. apply Permutation_swap.
Qed.

Lemma sort_by_perm {A} (le : A -> A -> bool) l : sort_by le l ≡ₚ l.
Proof.
  induction l as [|x l IH]; [done|]. unfold sort_by in *. cbn [foldr].
  by rewrite insert_by_perm, IH.
Qed.

Lemma insert_by_sorted {A} (le : A -> A -> bool) x l :
  (forall a b, le a b = false -> le b a = true) ->
  (forall a b c, le a b = true -> le b c = true -> le a c = true) ->
  StronglySorted (fun a b => le a b = true) l ->
  StronglySorted (fun a b => le a b = true) (insert_by le x l).
Proof.
  intros Htot Htr. induction l as [|y l IH]; intros Hl; cbn [insert_by]; [by repeat constructor|].
  apply StronglySorted_inv in Hl as [Hl Hy]. destruct (le x y) eqn:Hxy.
  - constructor; [by constructor|]. constructor; [done|]. eapply Forall_impl; [exact Hy|].
    intros z. by apply Htr.
  - constructor; [by apply IH|]. rewrite insert_by_perm. constructor; [|done]. by apply Htot.
Qed.

Lemma sort_by_sorted {A} (le : A -> A -> bool) l :
  (forall a b, le a b = false -> le b a = true) ->
  (forall a b c, le a b = true -> le b c = true -> le a c = true) ->
  StronglySorted (fun a b => le a b = true) (sort_by le l).
Proof.
  intros Htot Htr. induction l as [|x l IH]; [constructor|]. by apply insert_by_sorted.
Qed.

(** A list that is in order already is left as it is. *)
Lemma sort_by_id {A} (le : A -> A -> bool) l :
  StronglySorted (fun a b => le a b = true) l -> sort_by le l = l.
Proof.
  induction l as [|x l IH]; [done|]. intros [Hl Hx]%StronglySorted_inv.
  unfold sort_by in *. cbn [foldr]. rewrite IH by done.
  destruct l as [|y l]; [done|]. cbn [insert_by]. apply Forall_cons in Hx as [-> _]. done.
Qed.

Lemma if_ext_bool {A} (a b : bool) (x y : A) :
  (a = true <-> b = true) -> (if a then x else y) = (if b then x else y).
Proof. destruct a, b; naive_solver. Qed.

Lemma filter_all {A} (P : A -> Prop) `{forall x, Decision (P x)} (l : list A) :
  (forall x, x ∈ l -> P x) -> filter P l = l.
Proof.
  intros Hl. induction l as [|x l IH]; [done|].
  rewrite filter_cons_True by (apply Hl; set_solver). f_equal. apply IH. set_solver.
Qed.

Lemma filter_ext_in {A} (P Q : A -> Prop) `{forall x, Decision (P x), forall x, Decision (Q x)} (l : list A) :
  (forall x, x ∈ l -> P x <-> Q x) -> filter P l = filter Q l.
Proof.
  induction l as [|x l IH]; intros He; [done|]. rewrite !filter_cons.
  rewrite IH by (intros y Hy; apply He; apply elem_of_cons; by right).
  specialize (He x ltac:(apply elem_of_cons; by left)). do 2 case_decide; naive_solver.
Qed.

Lemma filter_none {A} (P : A -> Prop) `{forall x, Decision (P x)} (l : list A) :
  (forall x, x ∈ l -> ~ P x) -> filter P l = [].
Proof.
  intros Hl. induction l as [|x l IH]; [done|].
  rewrite filter_cons_False by (apply Hl; set_solver). apply IH. set_solver.
Qed.

(** Case-split every [if]/[match] of the goal or of hypothesis [H] and clean up. *)
Ltac branches := repeat (case_match; simplify_eq/=; try done).

(** Turn boolean integer comparisons into propositions. *)
Ltac zbool :=
  repeat match goal with
    | H : (_ && _) = true |- _ => apply andb_true_iff in H as [? ?]
    | H : (_ || _) = false |- _ => apply orb_false_iff in H as [? ?]
    | H : (_ =? _) = true |- _ => apply Z.eqb_eq in H
    | H : (_ =? _) = false |- _ => apply Z.eqb_neq in H
    | H : (_ <? _) = true |- _ => apply Z.ltb_lt in H
    | H : (_ <? _) = false |- _ => apply Z.ltb_ge in H
    | H : (_ <=? _) = true |- _ => apply Z.leb_le in H
    | H : (_ <=? _) = false |- _ => apply Z.leb_gt in H
    end.
