(* ===== verification/BTree.v ===== *)
(** * BTree: total orders and ordered maps

    [str::cmp], the lexicographic order of tuples and [std::collections::BTreeMap] as the sorted
    association list its iterators yield.  [Ordered cmp] are the laws of a total comparison; the
    lemmas on maps are proved from them. *)

From Stdlib Require Import ZArith Lia Sorted.
From stdpp Require Import base strings list sets.
From S2P Require Import Prelude.

Open Scope Z_scope.

(** [str::cmp]: byte by byte. *)
Fixpoint bytes_compare (a b : list Z) : comparison :=
  match a, b with
  | [], [] => Eq
  | [], _ => Lt
  | _, [] => Gt
  | x :: a', y :: b' => match x ?= y with Eq => bytes_compare a' b' | c => c end
  end.

Definition str_compare (a b : string) : comparison :=
  bytes_compare (bytes_of_string a) (bytes_of_string b).

(** The order of tuples. *)
Definition lex_compare {A B} (ca : A -> A -> comparison) (cb : B -> B -> comparison) (x y : A * B) : comparison :=
  match ca x.1 y.1 with Eq => cb x.2 y.2 | c => c end.

Class Ordered {K : Type} (cmp : K -> K -> comparison) : Prop := {
  cmp_eq : forall a b, cmp a b = Eq <-> a = b;
  cmp_opp : forall a b, cmp b a = CompOpp (cmp a b);
  cmp_trans : forall a b c, cmp a b = Lt -> cmp b c = Lt -> cmp a c = Lt
}.

#[export] Instance Z_ordered : Ordered Z.compare.
Proof.
  split; [apply Z.compare_eq_iff|apply Z.compare_antisym|].
  intros a b c. rewrite !Z.compare_lt_iff. lia.
Qed.

#[export] Instance bytes_ordered : Ordered bytes_compare.
Proof.
  split.
  - induction a as [|x a IH]; intros [|y b]; cbn [bytes_compare]; [done..|].
    destruct (Z.compare_spec x y) as [->|Hlt|Hgt].
    + rewrite IH. naive_solver.
    + split; [done|]. intros [= -> _]. lia.
    + split; [done|]. intros [= -> _]. lia.
  - induction a as [|x a IH]; intros [|y b]; cbn [bytes_compare]; [done..|].
    rewrite (Z.compare_antisym x y). destruct (x ?= y); [apply IH|done..].
  - induction a as [|x a IH]; intros [|y b] [|z c]; cbn [bytes_compare]; [done..|].
    destruct (Z.compare_spec x y) as [->|Hxy|Hxy]; [|intros _|done].
    + destruct (y ?= z); [apply IH|done..].
    + destruct (Z.compare_spec y z) as [->|Hyz|Hyz]; [|intros _|done].
      * by rewrite (proj2 (Z.compare_lt_iff x z)) by lia.
      * by rewrite (proj2 (Z.compare_lt_iff x z)) by lia.
Qed.

#[export] Instance str_ordered : Ordered str_compare.
Proof.
  unfold str_compare. split.
  - intros a b. rewrite cmp_eq. split; [apply bytes_of_string_inj|by intros ->].
  - intros a b. apply cmp_opp.
  - intros a b c. apply cmp_trans.
Qed.

#[export] Instance lex_ordered {A B} (ca : A -> A -> comparison) (cb : B -> B -> comparison) :
  Ordered ca -> Ordered cb -> Ordered (lex_compare ca cb).
Proof.
  intros Ha Hb. unfold lex_compare. split.
  - intros [a1 b1] [a2 b2]. cbn. pose proof (cmp_eq a1 a2) as He. destruct (ca a1 a2).
    + rewrite cmp_eq. naive_solver.
    + split; [done|]. intros [= -> _]. by destruct (proj2 He eq_refl).
    + split; [done|]. intros [= -> _]. by destruct (proj2 He eq_refl).
  - intros [a1 b1] [a2 b2]. cbn. rewrite (cmp_opp a1 a2). destruct (ca a1 a2); cbn; [apply cmp_opp|done..].
  - intros [a1 b1] [a2 b2] [a3 b3]. cbn. destruct (ca a1 a2) eqn:E12; [| |done].
    + apply cmp_eq in E12 as ->. destruct (ca a2 a3); [apply cmp_trans|done..].
    + intros _. destruct (ca a2 a3) eqn:E23; [|intros _|done].
      * apply cmp_eq in E23 as ->. by rewrite E12.
      * by rewrite (cmp_trans _ _ _ E12 E23).
Qed.

Section BTree.
Context {K V : Type} (cmp : K -> K -> comparison).

Definition by_key (a b : K * V) : Prop := cmp a.1 b.1 = Lt.

(** [BTreeMap::insert]. *)
Fixpoint bt_insert (k : K) (v : V) (l : list (K * V)) : list (K * V) :=
  match l with
  | [] => [(k, v)]
  | (k', v') :: l' =>
      match cmp k k' with
      | Lt => (k, v) :: l
      | Eq => (k, v) :: l'
      | Gt => (k', v') :: bt_insert k v l'
      end
  end.

(** [BTreeMap::get]. *)
Fixpoint bt_get (k : K) (l : list (K * V)) : option V :=
  match l with
  | [] => None
  | (k', v') :: l' => match cmp k k' with Eq => Some v' | _ => bt_get k l' end
  end.

Definition key_neqb (k : K) (e : K * V) : bool := match cmp e.1 k with Eq => false | _ => true end.

(** [BTreeMap::remove]. *)
Definition bt_remove (k : K) (l : list (K * V)) : list (K * V) := filter (fun e => key_neqb k e) l.

(** [BTreeMap::range(lo..=hi)]. *)
Definition in_range (lo hi : K) (e : K * V) : bool :=
  match cmp lo e.1, cmp e.1 hi with
  | Gt, _ | _, Gt => false
  | _, _ => true
  end.

Definition bt_range (lo hi : K) (l : list (K * V)) : list (K * V) := filter (fun e => in_range lo hi e) l.

End BTree.

Section BTreeFacts.
Context {K V : Type} {cmp : K -> K -> comparison} `{Hord : !Ordered cmp}.
Implicit Types (l : list (K * V)) (e : K * V).

Lemma cmp_refl a : cmp a a = Eq.
Proof. by apply cmp_eq. Qed.

Lemma key_neqb_spec k e : key_neqb cmp k e = true <-> e.1 <> k.
Proof.
  unfold key_neqb. rewrite <-(cmp_eq e.1 k). destruct (cmp e.1 k); split; try done; by intros [].
Qed.

Lemma by_key_trans (a b c : K * V) : by_key cmp a b -> by_key cmp b c -> by_key cmp a c.
Proof. apply cmp_trans. Qed.

Lemma sorted_keys_nodup l : StronglySorted (by_key cmp) l -> NoDup l.*1.
Proof.
  induction 1 as [|[k v] l Hl IH Hk]; [constructor|]. cbn. constructor; [|done].
  intros (e & He & Hin)%list_elem_of_fmap. rewrite Forall_forall in Hk. specialize (Hk _ Hin).
  unfold by_key in Hk. cbn in Hk. rewrite <-He in Hk. by rewrite cmp_refl in Hk.
Qed.

Lemma bt_insert_elem k v l e :
  StronglySorted (by_key cmp) l -> e ∈ bt_insert cmp k v l <-> e = (k, v) \/ (e.1 <> k /\ e ∈ l).
Proof.
  induction l as [|[k' v'] l IH]; intros Hs; cbn [bt_insert]; [set_solver|].
  pose proof Hs as [Hl Hk]%StronglySorted_inv. rewrite Forall_forall in Hk.
  destruct (cmp k k') eqn:E.
  - apply cmp_eq in E as ->. rewrite !elem_of_cons. split; [|naive_solver].
    intros [->|Hin]; [by left|]. right. split; [|by right]. intros Heq. specialize (Hk _ Hin).
    unfold by_key in Hk. cbn in Hk. by rewrite Heq, cmp_refl in Hk.
  - rewrite !elem_of_cons. split; [|naive_solver]. intros [->|[->|Hin]]; [by left|right..].
    + cbn. split; [intros ->; by rewrite cmp_refl in E|by left].
    + split; [|by right]. intros Heq. specialize (Hk _ Hin). unfold by_key in Hk. cbn in Hk.
      rewrite Heq, (cmp_opp k k'), E in Hk. done.
  - rewrite !elem_of_cons, IH by done. split; [|naive_solver].
    intros [->|[->|[? ?]]]; [right|by left|right; naive_solver]. cbn.
    split; [intros ->; by rewrite cmp_refl in E|by left].
Qed.

Lemma bt_insert_sorted k v l : StronglySorted (by_key cmp) l -> StronglySorted (by_key cmp) (bt_insert cmp k v l).
Proof.
  induction l as [|[k' v'] l IH]; intros Hs; cbn [bt_insert]; [by repeat constructor|].
  pose proof Hs as [Hl Hk]%StronglySorted_inv. destruct (cmp k k') eqn:E.
  - apply cmp_eq in E as ->. by constructor.
  - constructor; [done|]. constructor; [done|]. eapply Forall_impl; [exact Hk|]. intros e He. by eapply cmp_trans.
  - constructor; [by apply IH|]. apply Forall_forall. intros e [->|[_ He]]%bt_insert_elem; [|rewrite Forall_forall in Hk; auto|done].
    unfold by_key. cbn. by rewrite (cmp_opp k k'), E.
Qed.

Lemma bt_get_elem k v l : StronglySorted (by_key cmp) l -> bt_get cmp k l = Some v <-> (k, v) ∈ l.
Proof.
  induction l as [|[k' v'] l IH]; intros Hs; cbn [bt_get]; [set_solver|].
  pose proof Hs as [Hl Hk]%StronglySorted_inv. rewrite Forall_forall in Hk. rewrite elem_of_cons.
  destruct (cmp k k') eqn:E.
  - apply cmp_eq in E as ->. split; [by intros [= ->]; left|]. intros [[= ->]|Hin]; [done|].
    specialize (Hk _ Hin). unfold by_key in Hk. cbn in Hk. by rewrite cmp_refl in Hk.
  - rewrite IH by done. split; [by right|]. intros [[= -> ->]|?]; [by rewrite cmp_refl in E|done].
  - rewrite IH by done. split; [by right|]. intros [[= -> ->]|?]; [by rewrite cmp_refl in E|done].
Qed.

Lemma bt_get_none k l : StronglySorted (by_key cmp) l -> bt_get cmp k l = None <-> k ∉ l.*1.
Proof.
  intros Hs. split.
  - intros Hn ([k' v] & -> & Hin)%list_elem_of_fmap. cbn in Hn. apply bt_get_elem in Hin; [congruence|done].
  - intros Hk. destruct (bt_get cmp k l) as [v|] eqn:E; [|done]. apply bt_get_elem in E; [|done].
    destruct Hk. apply list_elem_of_fmap. by exists (k, v).
Qed.

(** Two ordered maps with the same entries are the same list. *)
Lemma sorted_unique l1 l2 :
  StronglySorted (by_key cmp) l1 -> StronglySorted (by_key cmp) l2 -> (forall e, e ∈ l1 <-> e ∈ l2) -> l1 = l2.
Proof.
  revert l2. induction l1 as [|a l1 IH]; intros [|b l2] H1 H2 Heq; [done|set_solver..|].
  apply StronglySorted_inv in H1 as [H1 Ha]. apply StronglySorted_inv in H2 as [H2 Hb].
  rewrite Forall_forall in Ha, Hb.
  assert (forall x y : K * V, by_key cmp x y -> ~ by_key cmp y x) as Hasym.
  { intros x y. unfold by_key. rewrite (cmp_opp x.1 y.1). destruct (cmp x.1 y.1); done. }
  assert (forall x : K * V, ~ by_key cmp x x) as Hirr by (intros x; unfold by_key; by rewrite cmp_refl).
  assert (a = b) as ->.
  { assert (a = b \/ a ∈ l2) as [?|Ha2] by (apply elem_of_cons, Heq; by left); [done|].
    assert (b = a \/ b ∈ l1) as [?|Hb1] by (apply elem_of_cons, Heq; by left); [done|].
    destruct (Hasym a b); auto. }
  f_equal. apply IH; [done..|]. intros e. specialize (Heq e). rewrite !elem_of_cons in Heq.
  split; intros He.
  - destruct (proj1 Heq) as [->|]; [by right|by destruct (Hirr b); auto|done].
  - destruct (proj2 Heq) as [->|]; [by right|by destruct (Hirr b); auto|done].
Qed.

Lemma sorted_filter (P : K * V -> Prop) `{forall e, Decision (P e)} l :
  StronglySorted (by_key cmp) l -> StronglySorted (by_key cmp) (filter P l).
Proof.
  induction 1 as [|e l Hl IH He]; [constructor|]. rewrite filter_cons. case_decide; [|done].
  constructor; [done|]. rewrite Forall_forall in He |- *. intros x [_ Hx]%list_elem_of_filter. auto.
Qed.

(** Inserting replaces the entry of the key. *)
Lemma bt_insert_perm k v l : StronglySorted (by_key cmp) l -> bt_insert cmp k v l ≡ₚ (k, v) :: bt_remove cmp k l.
Proof.
  intros Hs. unfold bt_remove.
  apply NoDup_Permutation.
  - eapply NoDup_fmap_1, sorted_keys_nodup, bt_insert_sorted, Hs.
  - constructor.
    + intros [Hk _]%list_elem_of_filter. apply Is_true_true, key_neqb_spec in Hk. done.
    + apply NoDup_filter. eapply NoDup_fmap_1, sorted_keys_nodup, Hs.
  - intros e. rewrite bt_insert_elem, elem_of_cons, list_elem_of_filter by done.
    rewrite Is_true_true, key_neqb_spec. done.
Qed.

Lemma bt_remove_absent k l : k ∉ l.*1 -> bt_remove cmp k l = l.
Proof.
  intros Hk. apply filter_all. intros e He. apply Is_true_true, key_neqb_spec. intros <-.
  destruct Hk. apply list_elem_of_fmap. by exists e.
Qed.

Lemma bt_remove_present k v l :
  StronglySorted (by_key cmp) l -> bt_get cmp k l = Some v -> l ≡ₚ (k, v) :: bt_remove cmp k l.
Proof.
  intros Hs Hget. pose proof Hget as Hin%bt_get_elem; [|done]. apply NoDup_Permutation.
  - eapply NoDup_fmap_1, sorted_keys_nodup, Hs.
  - constructor.
    + intros [Hk _]%list_elem_of_filter. apply Is_true_true, key_neqb_spec in Hk. done.
    + apply NoDup_filter. eapply NoDup_fmap_1, sorted_keys_nodup, Hs.
  - intros [k' v']. unfold bt_remove. rewrite elem_of_cons, list_elem_of_filter, Is_true_true, key_neqb_spec. cbn.
    split; [|intros [[= -> ->]|[_ ?]]; done]. intros Hin'. destruct (cmp k' k) eqn:E.
    + apply cmp_eq in E as ->. apply bt_get_elem in Hin'; [|done]. left. congruence.
    + right. split; [|done]. intros ->. by rewrite cmp_refl in E.
    + right. split; [|done]. intros ->. by rewrite cmp_refl in E.
Qed.

(** Removing several keys. *)
Lemma bt_remove_keys `{!EqDecision K} ks l : foldl (fun l k => bt_remove cmp k l) l ks = filter (fun e => e.1 ∉ ks) l.
Proof.
  revert l. induction ks as [|k ks IH]; intros l; cbn [foldl].
  - symmetry. apply filter_all. set_solver.
  - rewrite IH. unfold bt_remove. rewrite list_filter_filter. apply list_filter_iff. intros e.
    rewrite Is_true_true, key_neqb_spec, not_elem_of_cons. tauto.
Qed.

End BTreeFacts.

Arguments by_key {K V} cmp a b /.
