(* ===== verification/Commons.v ===== *)
(** * Commons: identifiers and enums shared by every component

    Models of kalamdb-commons: [TableId], [TableType], [TransactionState], [TransactionOrigin],
    [OperationKind], and the identifier newtypes ([UserId], [TransactionId], [NodeId]), with the
    decidable equality and countability the map-based components need. *)

From Stdlib Require Import ZArith Lia.
From stdpp Require Import base countable strings gmap fin_maps list.
From S2P Require Import Prelude.

Open Scope Z_scope.

(** Newtypes over [String] and [u64] in the source. *)
Abbreviation UserId := string (only parsing).
Abbreviation TransactionId := string (only parsing).
Abbreviation NodeId := Z (only parsing).
Abbreviation Instant := Z (only parsing).

Record TableId := mkTableId { namespace_id : string; table_name : string }.

#[export] Instance TableId_eq_dec : EqDecision TableId.
Proof. solve_decision. Defined.

#[export] Instance TableId_countable : Countable TableId.
Proof.
  refine (inj_countable' (fun t => (namespace_id t, table_name t))
            (fun p => mkTableId p.1 p.2) _).
  by intros [].
Defined.

(** [TableId::full_name]: ["ns.table"]. *)
Definition full_name (t : TableId) : string :=
  (namespace_id t +:+ "." +:+ table_name t)%string.

Inductive TableType := User | Shared | Stream | System.

#[export] Instance TableType_eq_dec : EqDecision TableType.
Proof. solve_decision. Defined.

#[export] Instance TableType_countable : Countable TableType.
Proof.
  refine (inj_countable'
    (fun t => match t with User => 0 | Shared => 1 | Stream => 2 | System => 3 end)
    (fun z => if decide (z = 0) then User else if decide (z = 1) then Shared
              else if decide (z = 2) then Stream else System) _).
  by intros [].
Defined.

Inductive TransactionState :=
| OpenRead | OpenWrite | Committing | Committed | RollingBack | RolledBack | TimedOut | Aborted.

#[export] Instance TransactionState_eq_dec : EqDecision TransactionState.
Proof. solve_decision. Defined.

Definition is_open (s : TransactionState) : bool :=
  match s with OpenRead | OpenWrite => true | _ => false end.

Definition is_terminal (s : TransactionState) : bool :=
  match s with Committed | RolledBack | TimedOut | Aborted => true | _ => false end.

Inductive TransactionOrigin := PgRpc | PgWire | SqlBatch | Internal.

#[export] Instance TransactionOrigin_eq_dec : EqDecision TransactionOrigin.
Proof. solve_decision. Defined.

Definition origin_as_str (o : TransactionOrigin) : string :=
  match o with
  | PgRpc => "PgRpc" | PgWire => "PgWire" | SqlBatch => "SqlBatch" | Internal => "Internal"
  end.

Inductive OperationKind := Insert | Update | Delete.

#[export] Instance OperationKind_eq_dec : EqDecision OperationKind.
Proof. solve_decision. Defined.

Lemma open_not_terminal s : is_open s = true -> is_terminal s = false.
Proof. by destruct s. Qed.

#[export] Hint Resolve open_not_terminal : kalam.
