(* ===== verification/Sharding.v ===== *)
(** * Sharding: Raft group identifiers and the shard router

    Model of kalamdb-sharding: [GroupId] with its numeric, textual and storage-prefix forms
    (group_id.rs), and [ShardRouter] (lib.rs), which maps users, tables and shared-table metadata
    to groups.  Rust's [DefaultHasher] leaves its algorithm unspecified, so hashing is the
    section's [hash_str] and [hash_table]: any functions into [u64]. *)

From Stdlib Require Import ZArith Lia.
From stdpp Require Import base countable strings gmap fin_maps list.
From S2P Require Import Prelude Commons.

Open Scope Z_scope.

Inductive GroupId :=
| Meta
| DataUserShard (id : Z)
| DataSharedShard (id : Z).

#[export] Instance GroupId_eq_dec : EqDecision GroupId.
Proof. solve_decision. Defined.

#[export] Instance GroupId_countable : Countable GroupId.
Proof.
  refine (inj_countable'
    (fun g => match g with Meta => (0, 0) | DataUserShard i => (1, i)
                         | DataSharedShard i => (2, i) end)
    (fun p => if decide (p.1 = 0) then Meta
              else if decide (p.1 = 1) then DataUserShard p.2 else DataSharedShard p.2) _).
  by intros [].
Defined.

Definition is_metadata (g : GroupId) : bool := match g with Meta => true | _ => false end.

Definition is_data (g : GroupId) : bool :=
  match g with DataUserShard _ | DataSharedShard _ => true | Meta => false end.

Definition partition_prefix (g : GroupId) : string :=
  match g with
  | Meta => "raft_meta"
  | DataUserShard id => "raft_data_user_" +:+ string_of_bytes (zero_padded 2 id)
  | DataSharedShard id => "raft_data_shared_" +:+ string_of_bytes (zero_padded 2 id)
  end.

Definition key_prefix (g : GroupId) : string :=
  match g with
  | Meta => "meta"
  | DataUserShard n => "u:" +:+ string_of_bytes (zero_padded 5 n)
  | DataSharedShard n => "s:" +:+ string_of_bytes (zero_padded 5 n)
  end.

Definition as_u64 (g : GroupId) : Z :=
  match g with Meta => 10 | DataUserShard id => 100 + id | DataSharedShard id => 200 + id end.

Definition from_u64 (id : Z) : option GroupId :=
  if id =? 10 then Some Meta
  else if (100 <=? id) && (id <=? 199) then Some (DataUserShard (id - 100))
  else if 200 <=? id then
    if id - 200 <=? u32_max then Some (DataSharedShard (id - 200)) else None
  else None.

Definition all_metadata : list GroupId := [Meta].
Definition all_user_shards (num_shards : Z) : list GroupId :=
  DataUserShard <$> seqZ 0 num_shards.
Definition all_shared_shards (num_shards : Z) : list GroupId :=
  DataSharedShard <$> seqZ 0 num_shards.
Definition all_groups (num_user_shards num_shared_shards : Z) : list GroupId :=
  all_metadata ++ all_user_shards num_user_shards ++ all_shared_shards num_shared_shards.

(** [Display for GroupId]. *)
Definition to_string (g : GroupId) : string :=
  match g with
  | Meta => "meta"
  | DataUserShard id => "data:user:" +:+ string_of_bytes (zero_padded 2 id)
  | DataSharedShard id => "data:shared:" +:+ string_of_bytes (zero_padded 2 id)
  end.

Inductive GroupIdParseError :=
| InvalidUserShardId | InvalidSharedShardId | UnknownGroupIdFormat (s : string).

(** [FromStr for GroupId]. *)
Definition from_str (s : string) : Result GroupIdParseError GroupId :=
  if decide (s = "meta") then Ok Meta
  else
    match strip_prefix (bytes_of_string "data:user:") (bytes_of_string s) with
    | Some id_str =>
        match parse_unsigned u32_max id_str with
        | Some id => Ok (DataUserShard id)
        | None => Err InvalidUserShardId
        end
    | None =>
        match strip_prefix (bytes_of_string "data:shared:") (bytes_of_string s) with
        | Some id_str =>
            match parse_unsigned u32_max id_str with
            | Some id => Ok (DataSharedShard id)
            | None => Err InvalidSharedShardId
            end
        | None => Err (UnknownGroupIdFormat s)
        end
    end.

Inductive ShardKind := KindUser | KindShared | KindStream.

Record Shard := mkShard { shard_kind : ShardKind; shard_id : Z }.

Definition folder_name (s : Shard) : string := "shard_" +:+ string_of_bytes (decimal (shard_id s)).

Record ShardRouter := mkRouter { num_user_shards : Z; num_shared_shards : Z }.

Definition default_config : ShardRouter := mkRouter 32 1.

(** [from_optional_cluster_config]; the cluster config is read for its two shard counts. *)
Definition from_optional_cluster_config (config : option (Z * Z)) : ShardRouter :=
  match config with Some (u, s) => mkRouter u s | None => default_config end.

(** The part of a [TableDefinition] the router reads: its id, its type, and the shard id of
    [TableOptions::Shared] when the options are of that variant. *)
Record TableDefinition := mkTableDefinition {
  td_table_id : TableId;
  td_table_type : TableType;
  td_shared_shard_id : option Z
}.

Inductive SharedOwnerError :=
| NotASharedTable (t : TableId)
| InvalidSharedOwner (shard : Z) (t : TableId).

(** [shared_group_id]: read the placement from metadata. *)
Definition shared_group_id (r : ShardRouter) (table : TableDefinition) :
    Result SharedOwnerError GroupId :=
  match td_shared_shard_id table with
  | None => Err (NotASharedTable (td_table_id table))
  | Some shard =>
      if negb (bool_decide (td_table_type table = Shared)) || (num_shared_shards r <=? shard)
      then Err (InvalidSharedOwner shard (td_table_id table))
      else Ok (DataSharedShard shard)
  end.

Section Router.
Context (hash_str : string -> Z) (hash_table : string -> string -> Z).

Definition hash_to_shard (key : string) (num_shards : Z) : Z := hash_str key mod num_shards.

Definition hash_table_to_shard (t : TableId) (num_shards : Z) : Z :=
  hash_table (namespace_id t) (table_name t) mod num_shards.

Definition route_user (r : ShardRouter) (user : UserId) : Shard :=
  mkShard KindUser (hash_to_shard user (Z.max (num_user_shards r) 1)).

Definition user_group_id (r : ShardRouter) (user : UserId) : GroupId :=
  DataUserShard (shard_id (route_user r user)).

Definition route_stream_user (r : ShardRouter) (user : UserId) : Shard :=
  mkShard KindStream (hash_to_shard user (Z.max (num_user_shards r) 1)).

Definition route_table (r : ShardRouter) (t : TableId) : Shard :=
  mkShard KindUser (hash_table_to_shard t (Z.max (num_user_shards r) 1)).

Definition table_group_id (r : ShardRouter) (t : TableId) : GroupId :=
  DataUserShard (shard_id (route_table r t)).

Definition place_shared_table (r : ShardRouter) (t : TableId) : Z :=
  hash_to_shard (namespace_id t) (Z.max (num_shared_shards r) 1).

(** ** Lemmas *)

Lemma hash_to_shard_range key n : 0 < n -> 0 <= hash_to_shard key n < n.
Proof. apply Z.mod_pos_bound. Qed.

Lemma elem_of_all_groups u s g :
  g ∈ all_groups u s <->
  match g with
  | Meta => True
  | DataUserShard i => 0 <= i < u
  | DataSharedShard i => 0 <= i < s
  end.
Proof using Type.
  clear. unfold all_groups, all_metadata, all_user_shards, all_shared_shards.
  rewrite !elem_of_app, list_elem_of_singleton, !list_elem_of_fmap.
  setoid_rewrite elem_of_seqZ. destruct g as [|i|i]; split; try naive_solver lia.
Qed.

(** ** Properties *)

(** Routing stays inside the configured groups: a user's group and a table's group are among
    [all_groups], the shared shard chosen for a new table is accepted again when its metadata is
    resolved, and all tables of one namespace are placed in the same shared group. *)
Theorem routes_to_configured_groups r user t t' :
  0 < num_user_shards r -> 0 < num_shared_shards r -> namespace_id t = namespace_id t' ->
  user_group_id r user ∈ all_groups (num_user_shards r) (num_shared_shards r) /\
  table_group_id r t ∈ all_groups (num_user_shards r) (num_shared_shards r) /\
  place_shared_table r t = place_shared_table r t' /\
  shared_group_id r (mkTableDefinition t Shared (Some (place_shared_table r t))) =
    Ok (DataSharedShard (place_shared_table r t)) /\
  DataSharedShard (place_shared_table r t) ∈
    all_groups (num_user_shards r) (num_shared_shards r).
Proof.
  intros Hu Hs Hns. rewrite !elem_of_all_groups. unfold place_shared_table. rewrite Hns.
  pose proof (hash_to_shard_range user (Z.max (num_user_shards r) 1) ltac:(lia)).
  pose proof (hash_to_shard_range (namespace_id t') (Z.max (num_shared_shards r) 1) ltac:(lia)).
  pose proof (Z.mod_pos_bound (hash_table (namespace_id t) (table_name t))
                (Z.max (num_user_shards r) 1) ltac:(lia)).
  split_and!; try done; try (simpl; unfold hash_table_to_shard; lia).
  unfold shared_group_id. simpl.
  by rewrite (proj2 (Z.leb_gt _ _)) by lia.
Qed.

End Router.

Lemma group_to_string_bytes_user id :
  0 <= id <= u32_max ->
  bytes_of_string (to_string (DataUserShard id)) =
  bytes_of_string "data:user:" ++ zero_padded 2 id.
Proof.
  intros Hid. unfold to_string. rewrite bytes_of_string_app. f_equal.
  apply bytes_string_bytes, zero_padded_bytes. unfold u32_max, u64_max in *. lia.
Qed.

Lemma group_to_string_bytes_shared id :
  0 <= id <= u32_max ->
  bytes_of_string (to_string (DataSharedShard id)) =
  bytes_of_string "data:shared:" ++ zero_padded 2 id.
Proof.
  intros Hid. unfold to_string. rewrite bytes_of_string_app. f_equal.
  apply bytes_string_bytes, zero_padded_bytes. unfold u32_max, u64_max in *. lia.
Qed.

(** The shard number of a group is a [u32]. *)
Definition group_ok (g : GroupId) : Prop :=
  match g with Meta => True | DataUserShard i | DataSharedShard i => 0 <= i <= u32_max end.

(** Parsing the displayed form of a group id gives the group back, for every [u32] shard
    number (also those wider than the two padded digits). *)
Theorem group_id_display_roundtrip g : group_ok g -> from_str (to_string g) = Ok g.
Proof.
  intros Hg. destruct g as [|id|id]; [done| |]; unfold from_str;
    (rewrite decide_False by (intros E; discriminate E)).
  - rewrite (group_to_string_bytes_user id Hg), strip_prefix_app.
    by rewrite parse_zero_padded by (simpl in Hg; unfold u32_max, u64_max in *; lia).
  - rewrite (group_to_string_bytes_shared id Hg), strip_prefix_app.
    assert (strip_prefix (bytes_of_string "data:user:")
              (bytes_of_string "data:shared:" ++ zero_padded 2 id) = None) as -> by done.
    by rewrite parse_zero_padded by (simpl in Hg; unfold u32_max, u64_max in *; lia).
Qed.

(** In a configuration of at most 100 user shards the numeric id identifies the group:
    [from_u64] inverts [as_u64] on every configured group. *)
Theorem group_id_u64_roundtrip u s g :
  0 <= u <= 100 -> 0 <= s <= u32_max -> g ∈ all_groups u s -> from_u64 (as_u64 g) = Some g.
Proof.
  intros Hu Hs Hg. apply elem_of_all_groups in Hg. unfold from_u64, as_u64.
  destruct g as [|id|id]; [done| |].
  - rewrite (proj2 (Z.eqb_neq _ _)) by lia. rewrite !(proj2 (Z.leb_le _ _)) by lia.
    simpl. do 2 f_equal. lia.
  - rewrite (proj2 (Z.eqb_neq _ _)) by lia. rewrite (proj2 (Z.leb_le 100 _)) by lia.
    rewrite (proj2 (Z.leb_gt _ 199)) by lia. simpl. rewrite !(proj2 (Z.leb_le _ _)) by lia.
    do 2 f_equal. lia.
Qed.

(** With more than 100 user shards, which configuration validation accepts, two configured
    groups share a numeric id: user shard 100 and shared shard 0 are both 200. *)
Theorem group_id_u64_collision u s :
  100 < u -> 0 < s ->
  DataUserShard 100 ∈ all_groups u s /\ DataSharedShard 0 ∈ all_groups u s /\
  as_u64 (DataUserShard 100) = as_u64 (DataSharedShard 0) /\
  from_u64 (as_u64 (DataUserShard 100)) ≠ Some (DataUserShard 100).
Proof. intros Hu Hs. rewrite !elem_of_all_groups. by split_and!. Qed.

(** ** Witnesses *)

Lemma routes_to_configured_groups_witness :
  user_group_id (fun s => str_len s * 7) (mkRouter 32 4) "alice" = DataUserShard 3 /\
  user_group_id (fun s => str_len s * 7) (mkRouter 32 4) "alice" ∈ all_groups 32 4.
Proof.
  split; [reflexivity|].
  apply (routes_to_configured_groups (fun s => str_len s * 7) (fun a b => str_len a)
           (mkRouter 32 4) "alice" (mkTableId "app" "a") (mkTableId "app" "b"));
    reflexivity.
Defined.

Lemma group_id_display_roundtrip_witness :
  to_string (DataUserShard 4294967295) = "data:user:4294967295" /\
  from_str "data:user:4294967295" = Ok (DataUserShard 4294967295).
Proof.
  split; [vm_compute; reflexivity|].
  apply (group_id_display_roundtrip (DataUserShard 4294967295)).
  split; [lia|reflexivity || (vm_compute; discriminate)].
Defined.

Lemma group_id_u64_roundtrip_witness : from_u64 (as_u64 (DataSharedShard 3)) = Some (DataSharedShard 3).
Proof.
  apply (group_id_u64_roundtrip 100 4 (DataSharedShard 3)); [lia|unfold u32_max; lia|].
  apply elem_of_all_groups. lia.
Defined.

Lemma group_id_u64_collision_witness : DataUserShard 100 ∈ all_groups 128 4.
Proof. apply (group_id_u64_collision 128 4); lia. Defined.
