(* ===== verification/Overlay.v ===== *)
(** * Overlay: the transaction-local view of staged writes

    Model of kalamdb-transactions/src/overlay.rs.  [TransactionOverlay] keeps, per table and per
    scoped primary key, the one entry a reader inside the transaction sees, and three key sets
    that classify those entries.  [apply_entry] folds one staged mutation into the view.

    The maps of the source are [Arc<HashMap<..>>] with copy-on-write ([Arc::make_mut]), so a
    clone never observes a later write: they are plain values here.  Column values
    (DataFusion's [ScalarValue]) are never inspected by this component: they are the type
    parameter [Value]. *)

From Stdlib Require Import ZArith Lia.
From stdpp Require Import base countable strings gmap fin_maps list.
From S2P Require Import Prelude Commons.

Open Scope Z_scope.

Record ScopedPkKey := mkScopedPkKey { spk_user_id : option UserId; spk_primary_key : string }.

#[export] Instance ScopedPkKey_eq_dec : EqDecision ScopedPkKey.
Proof. solve_decision. Defined.

#[export] Instance ScopedPkKey_countable : Countable ScopedPkKey.
Proof.
  refine (inj_countable' (fun k => (spk_user_id k, spk_primary_key k))
            (fun p => mkScopedPkKey p.1 p.2) _).
  by intros [].
Defined.

Section Overlay.
Context {Value : Type}.

(** [Row]: column name to value. *)
Abbreviation Row := (gmap string Value).

Record TransactionOverlayEntry := mkOverlayEntry {
  oe_transaction_id : TransactionId;
  oe_mutation_order : Z;
  oe_table_id : TableId;
  oe_table_type : TableType;
  oe_user_id : option UserId;
  oe_operation_kind : OperationKind;
  oe_primary_key : string;
  oe_payload : Row;
  oe_tombstone : bool
}.

Definition is_deleted (e : TransactionOverlayEntry) : bool :=
  oe_tombstone e || bool_decide (oe_operation_kind e = Delete).

(** [ScopedPkKey::for_entry]. *)
Definition for_entry (e : TransactionOverlayEntry) : ScopedPkKey :=
  mkScopedPkKey
    (match oe_table_type e with
     | User | Stream => oe_user_id e
     | Shared | System => None
     end)
    (oe_primary_key e).

Record TransactionOverlay := mkOverlay {
  ov_transaction_id : TransactionId;
  entries_by_table : gmap TableId (gmap ScopedPkKey TransactionOverlayEntry);
  inserted_keys : gmap TableId (gset ScopedPkKey);
  deleted_keys : gmap TableId (gset ScopedPkKey);
  updated_keys : gmap TableId (gset ScopedPkKey);
  updated_columns : gmap TableId (gset string)
}.

Definition overlay_new (tx : TransactionId) : TransactionOverlay :=
  mkOverlay tx ∅ ∅ ∅ ∅ ∅.

(** [latest_visible_entry_for_scope]. *)
Definition latest_visible_entry_for_scope (ov : TransactionOverlay) (t : TableId)
    (user : option UserId) (pk : string) : option TransactionOverlayEntry :=
  entries ← entries_by_table ov !! t; entries !! mkScopedPkKey user pk.

Definition latest_visible_entry (ov : TransactionOverlay) (t : TableId) (pk : string) :
    option TransactionOverlayEntry :=
  latest_visible_entry_for_scope ov t None pk.

Definition set_payload_kind (e : TransactionOverlayEntry) (payload : Row)
    (kind : OperationKind) : TransactionOverlayEntry :=
  mkOverlayEntry (oe_transaction_id e) (oe_mutation_order e) (oe_table_id e) (oe_table_type e)
    (oe_user_id e) kind (oe_primary_key e) payload (oe_tombstone e).

(** The body of [merge_visible_entry] once the current entry of the key is known. *)
Definition merge_entry (current : option TransactionOverlayEntry)
    (next : TransactionOverlayEntry) : TransactionOverlayEntry :=
  if is_deleted next then next
  else
    match current with
    | None => next
    | Some cur =>
        if is_deleted cur then next
        else
          match oe_operation_kind next with
          | Update =>
              set_payload_kind next (oe_payload next ∪ oe_payload cur)
                (match oe_operation_kind cur with Insert => Insert | _ => Update end)
          | _ => next
          end
    end.

Definition merge_visible_entry (ov : TransactionOverlay) (t : TableId) (k : ScopedPkKey)
    (next : TransactionOverlayEntry) : TransactionOverlayEntry :=
  merge_entry (entries ← entries_by_table ov !! t; entries !! k) next.

(** One iteration of the loop of [clear_key_membership]. *)
Definition remove_member (t : TableId) (k : ScopedPkKey)
    (m : gmap TableId (gset ScopedPkKey)) : gmap TableId (gset ScopedPkKey) :=
  match m !! t with
  | None => m
  | Some keys =>
      let keys' := keys ∖ {[ k ]} in
      if decide (keys' = ∅) then delete t m else <[ t := keys' ]> m
  end.

Definition clear_key_membership (ov : TransactionOverlay) (t : TableId) (k : ScopedPkKey) :
    TransactionOverlay :=
  mkOverlay (ov_transaction_id ov) (entries_by_table ov)
    (remove_member t k (inserted_keys ov))
    (remove_member t k (deleted_keys ov))
    (remove_member t k (updated_keys ov))
    (updated_columns ov).

(** [map.entry(t).or_default().insert(k)] on a set-valued map. *)
Definition add_member (t : TableId) (k : ScopedPkKey) (m : gmap TableId (gset ScopedPkKey)) :
    gmap TableId (gset ScopedPkKey) :=
  <[ t := {[ k ]} ∪ default ∅ (m !! t) ]> m.

Definition apply_entry (ov : TransactionOverlay) (entry : TransactionOverlayEntry) :
    TransactionOverlay :=
  let t := oe_table_id entry in
  let k := for_entry entry in
  let effective := merge_visible_entry ov t k entry in
  let deleted := is_deleted effective in
  let kind := oe_operation_kind effective in
  let columns :=
    if bool_decide (kind = Update) && negb deleted
    then <[ t := dom (oe_payload effective) ∪ default ∅ (updated_columns ov !! t) ]>
           (updated_columns ov)
    else updated_columns ov in
  let entries :=
    <[ t := <[ k := effective ]> (default ∅ (entries_by_table ov !! t)) ]>
      (entries_by_table ov) in
  let ov1 :=
    clear_key_membership
      (mkOverlay (ov_transaction_id ov) entries (inserted_keys ov) (deleted_keys ov)
         (updated_keys ov) columns) t k in
  let add_deleted :=
    mkOverlay (ov_transaction_id ov1) (entries_by_table ov1) (inserted_keys ov1)
      (add_member t k (deleted_keys ov1)) (updated_keys ov1) (updated_columns ov1) in
  if deleted then add_deleted
  else
    match kind with
    | Insert =>
        mkOverlay (ov_transaction_id ov1) (entries_by_table ov1)
          (add_member t k (inserted_keys ov1)) (deleted_keys ov1) (updated_keys ov1)
          (updated_columns ov1)
    | Update =>
        mkOverlay (ov_transaction_id ov1) (entries_by_table ov1) (inserted_keys ov1)
          (deleted_keys ov1) (add_member t k (updated_keys ov1)) (updated_columns ov1)
    | Delete => add_deleted
    end.

Definition table_rows (ov : TransactionOverlay) : list TransactionOverlayEntry :=
  tp ← map_to_list (entries_by_table ov); (map_to_list (tp.2 : gmap ScopedPkKey _)).*2.

(** [merge_from]: every entry of [other] is applied, in the order the hash maps yield them. *)
Definition merge_from (ov other : TransactionOverlay) : TransactionOverlay :=
  foldl apply_entry ov (table_rows other).

Definition table_entries (ov : TransactionOverlay) (t : TableId) :
    option (gmap ScopedPkKey TransactionOverlayEntry) :=
  entries_by_table ov !! t.

(** Copy the binding of [t], if there is one, into an empty map. *)
Definition restrict_to {A} (m : gmap TableId A) (t : TableId) : gmap TableId A :=
  match m !! t with Some v => {[ t := v ]} | None => ∅ end.

Definition table_overlay (ov : TransactionOverlay) (t : TableId) : option TransactionOverlay :=
  entries ← entries_by_table ov !! t;
  Some (mkOverlay (ov_transaction_id ov) {[ t := entries ]}
          (restrict_to (inserted_keys ov) t) (restrict_to (deleted_keys ov) t)
          (restrict_to (updated_keys ov) t) (restrict_to (updated_columns ov) t)).

Definition column_was_updated (ov : TransactionOverlay) (t : TableId) (column : string) : bool :=
  match updated_columns ov !! t with
  | Some columns => bool_decide (column ∈ columns)
  | None => false
  end.

(** ** Abstract view and well-formedness *)

Definition entry_at (ov : TransactionOverlay) (t : TableId) (k : ScopedPkKey) :
    option TransactionOverlayEntry :=
  entries ← entries_by_table ov !! t; entries !! k.

Inductive KeyClass := KInserted | KUpdated | KDeleted.

#[local] Instance KeyClass_eq_dec : EqDecision KeyClass.
Proof using Value. solve_decision. Defined.

Definition entry_class (e : TransactionOverlayEntry) : KeyClass :=
  if is_deleted e then KDeleted
  else match oe_operation_kind e with
       | Insert => KInserted | Update => KUpdated | Delete => KDeleted
       end.

Definition class_keys (ov : TransactionOverlay) (c : KeyClass) :
    gmap TableId (gset ScopedPkKey) :=
  match c with
  | KInserted => inserted_keys ov | KUpdated => updated_keys ov | KDeleted => deleted_keys ov
  end.

(** Every entry sits under its own table and key; each key set holds exactly the keys whose
    visible entry is of that class; no empty set or table is left behind. *)
Record overlay_wf (ov : TransactionOverlay) : Prop := {
  wf_placed t k e : entry_at ov t k = Some e -> oe_table_id e = t /\ for_entry e = k;
  wf_classes c t k :
    k ∈ default ∅ (class_keys ov c !! t) <->
    exists e, entry_at ov t k = Some e /\ entry_class e = c;
  wf_nonempty c t s : class_keys ov c !! t = Some s -> s ≠ ∅;
  wf_tables t m : entries_by_table ov !! t = Some m -> m ≠ ∅
}.

(** The visible entry of one key after a sequence of staged entries. *)
Definition fold_key (t : TableId) (k : ScopedPkKey) (start : option TransactionOverlayEntry)
    (es : list TransactionOverlayEntry) : option TransactionOverlayEntry :=
  foldl (fun cur e =>
           if decide (oe_table_id e = t /\ for_entry e = k) then Some (merge_entry cur e) else cur)
    start es.

(** ** Lemmas *)

Lemma merge_entry_place cur e :
  oe_table_id (merge_entry cur e) = oe_table_id e /\
  for_entry (merge_entry cur e) = for_entry e.
Proof. unfold merge_entry. branches; by destruct e. Qed.

Lemma entry_at_apply ov e t k :
  entry_at (apply_entry ov e) t k =
  if decide (oe_table_id e = t /\ for_entry e = k)
  then Some (merge_entry (entry_at ov t k) e) else entry_at ov t k.
Proof.
  assert (entries_by_table (apply_entry ov e) =
    <[ oe_table_id e := <[ for_entry e :=
         merge_visible_entry ov (oe_table_id e) (for_entry e) e ]>
         (default ∅ (entries_by_table ov !! oe_table_id e)) ]> (entries_by_table ov)) as E.
  { unfold apply_entry. branches. }
  unfold entry_at at 1. rewrite E, lookup_insert.
  destruct (decide (oe_table_id e = t)) as [<-|Ht]; simpl.
  - rewrite lookup_insert. destruct (decide (for_entry e = k)) as [<-|Hk].
    + rewrite decide_True by done. done.
    + rewrite decide_False by naive_solver. unfold entry_at.
      destruct (entries_by_table ov !! oe_table_id e); simpl; [done|].
      by rewrite lookup_empty.
  - rewrite decide_False by naive_solver. done.
Qed.

Lemma remove_member_elem t k m t' k' :
  k' ∈ default ∅ (remove_member t k m !! t') <->
  k' ∈ default ∅ (m !! t') /\ ~ (t = t' /\ k = k').
Proof.
  unfold remove_member. destruct (m !! t) as [keys|] eqn:E.
  - case_decide as Hempty.
    + rewrite lookup_delete. case_decide as Ht; simpl.
      * subst t'. rewrite E; simpl. set_solver.
      * naive_solver.
    + rewrite lookup_insert. case_decide as Ht; simpl.
      * subst t'. rewrite E; simpl. set_solver.
      * naive_solver.
  - split; [|naive_solver]. intros H. split; [done|]. intros [-> _].
    rewrite E in H; simpl in H. set_solver.
Qed.

Lemma remove_member_nonempty t k m :
  (forall t s, m !! t = Some s -> s ≠ ∅) ->
  forall t' s, remove_member t k m !! t' = Some s -> s ≠ ∅.
Proof.
  intros Hm t' s. unfold remove_member. destruct (m !! t) as [keys|] eqn:E; [|apply Hm].
  case_decide as Hempty.
  - rewrite lookup_delete_Some. intros [_ H]. by eapply Hm.
  - rewrite lookup_insert_Some. intros [[_ <-]|[_ H]]; [done|by eapply Hm].
Qed.

Lemma add_member_elem t k m t' k' :
  k' ∈ default ∅ (add_member t k m !! t') <->
  (t = t' /\ k = k') \/ k' ∈ default ∅ (m !! t').
Proof.
  unfold add_member. rewrite lookup_insert. case_decide as Ht; simpl.
  - subst t'. set_solver.
  - naive_solver.
Qed.

Lemma add_member_nonempty t k m :
  (forall t s, m !! t = Some s -> s ≠ ∅) ->
  forall t' s, add_member t k m !! t' = Some s -> s ≠ ∅.
Proof.
  intros Hm t' s. unfold add_member. rewrite lookup_insert_Some.
  intros [[_ <-]|[_ H]]; [set_solver|by eapply Hm].
Qed.

Lemma class_keys_apply ov e c :
  let t := oe_table_id e in
  let k := for_entry e in
  class_keys (apply_entry ov e) c =
  if decide (entry_class (merge_entry (entry_at ov t k) e) = c)
  then add_member t k (remove_member t k (class_keys ov c))
  else remove_member t k (class_keys ov c).
Proof.
  intros t k. unfold apply_entry.
  change (merge_visible_entry ov (oe_table_id e) (for_entry e) e)
    with (merge_entry (entry_at ov t k) e).
  generalize (merge_entry (entry_at ov t k) e) as eff. intros eff. unfold entry_class.
  destruct (is_deleted eff); [by destruct c; case_decide|].
  by destruct (oe_operation_kind eff), c; case_decide.
Qed.

Lemma overlay_new_wf tx : overlay_wf (overlay_new tx).
Proof.
  split.
  - intros t k e. unfold entry_at. simpl. by rewrite lookup_empty.
  - intros c t k. unfold entry_at. destruct c; simpl; rewrite !lookup_empty; simpl; set_solver.
  - intros c t s. destruct c; simpl; by rewrite lookup_empty.
  - intros t m. simpl. by rewrite lookup_empty.
Qed.

Lemma apply_entry_wf_classes ov e c t k :
  overlay_wf ov ->
  k ∈ default ∅ (class_keys (apply_entry ov e) c !! t) <->
  exists e', entry_at (apply_entry ov e) t k = Some e' /\ entry_class e' = c.
Proof.
  intros Hwf. rewrite class_keys_apply, entry_at_apply.
  destruct (decide (oe_table_id e = t /\ for_entry e = k)) as [[<- <-]|Hne].
  - case_decide as Hc.
    + rewrite add_member_elem. naive_solver.
    + rewrite remove_member_elem. naive_solver.
  - rewrite <-(wf_classes ov Hwf c t k). case_decide as Hc.
    + rewrite add_member_elem, remove_member_elem. naive_solver.
    + rewrite remove_member_elem. naive_solver.
Qed.

Lemma apply_entry_wf ov e : overlay_wf ov -> overlay_wf (apply_entry ov e).
Proof.
  intros Hwf. split.
  - intros t k e'. rewrite entry_at_apply.
    destruct (decide (oe_table_id e = t /\ for_entry e = k)) as [[<- <-]|Hne].
    + intros [= <-]. apply merge_entry_place.
    + apply (wf_placed ov Hwf).
  - intros c t k. by apply apply_entry_wf_classes.
  - intros c t s. rewrite class_keys_apply. case_decide.
    + apply add_member_nonempty, remove_member_nonempty, (wf_nonempty ov Hwf).
    + apply remove_member_nonempty, (wf_nonempty ov Hwf).
  - intros t m.
    assert (exists v, entries_by_table (apply_entry ov e) =
      <[ oe_table_id e := <[ for_entry e := v ]>
         (default ∅ (entries_by_table ov !! oe_table_id e)) ]> (entries_by_table ov)) as [v ->].
    { eexists. unfold apply_entry. branches. }
    rewrite lookup_insert_Some. intros [[_ <-]|[_ H]].
    + apply insert_non_empty.
    + by eapply (wf_tables ov Hwf).
Qed.

Lemma foldl_apply_wf ov es : overlay_wf ov -> overlay_wf (foldl apply_entry ov es).
Proof. revert ov. induction es; simpl; auto using apply_entry_wf. Qed.

Lemma entry_at_foldl ov es t k :
  entry_at (foldl apply_entry ov es) t k = fold_key t k (entry_at ov t k) es.
Proof.
  revert ov. induction es as [|e es IH]; intros ov; simpl; [done|].
  rewrite IH, entry_at_apply. done.
Qed.

Definition place (e : TransactionOverlayEntry) : TableId * ScopedPkKey :=
  (oe_table_id e, for_entry e).

Lemma merge_entry_None e : merge_entry None e = e.
Proof. unfold merge_entry. by destruct (is_deleted e). Qed.

Lemma fold_key_app t k cur l1 l2 :
  fold_key t k cur (l1 ++ l2) = fold_key t k (fold_key t k cur l1) l2.
Proof. apply foldl_app. Qed.

Lemma fold_key_none t k cur l :
  (forall e, e ∈ l -> place e ≠ (t, k)) -> fold_key t k cur l = cur.
Proof.
  revert cur. induction l as [|e l IH]; intros cur Hl; simpl; [done|].
  rewrite decide_False; [apply IH; set_solver|].
  intros [H1 H2]. apply (Hl e); [set_solver|]. unfold place. congruence.
Qed.

(** Entries at pairwise distinct places do not interact: the fold just looks the place up. *)
Lemma fold_key_distinct t k l e :
  NoDup (place <$> l) ->
  fold_key t k None l = Some e <-> e ∈ l /\ place e = (t, k).
Proof.
  induction l as [|e' l IH]; simpl.
  { intros _. split; [done|]. intros [H _]. by apply elem_of_nil in H. }
  intros [Hni Hnd]%NoDup_cons.
  case_decide as Hp.
  - destruct Hp as [Ht Hk]. rewrite merge_entry_None, fold_key_none.
    + split.
      * intros [= <-]. split; [set_solver|]. unfold place. congruence.
      * intros [[->|Hin]%elem_of_cons Hpl]; [done|].
        exfalso. apply Hni. apply list_elem_of_fmap. exists e. split; [|done].
        unfold place in *. congruence.
    + intros e'' Hin Hpl. apply Hni. apply list_elem_of_fmap. exists e''. split; [|done].
      unfold place in *. congruence.
  - rewrite IH by done. split; [set_solver|].
    intros [[->|Hin]%elem_of_cons Hpl]; [|done]. unfold place in Hpl. naive_solver.
Qed.

Lemma elem_of_table_rows ov e :
  e ∈ table_rows ov <-> exists t k, entry_at ov t k = Some e.
Proof.
  unfold table_rows. rewrite list_elem_of_bind. split.
  - intros [[t m] [He Hm]]. simpl in *. apply elem_of_map_to_list in Hm.
    apply list_elem_of_fmap in He as [[k e'] [-> He]]. apply elem_of_map_to_list in He.
    exists t, k. unfold entry_at. by rewrite Hm.
  - intros [t [k He]]. unfold entry_at in He.
    destruct (entries_by_table ov !! t) as [m|] eqn:Hm; simpl in He; [|done].
    exists (t, m). simpl. split; [|by apply elem_of_map_to_list].
    apply list_elem_of_fmap. exists (k, e). split; [done|by apply elem_of_map_to_list].
Qed.

Lemma table_rows_places_NoDup ov : overlay_wf ov -> NoDup (place <$> table_rows ov).
Proof.
  intros Hwf. unfold table_rows.
  assert (forall t (m : gmap ScopedPkKey TransactionOverlayEntry),
             entries_by_table ov !! t = Some m ->
             place <$> (map_to_list m).*2 = (fun k => (t, k)) <$> (map_to_list m).*1) as Hrow.
  { intros t m Hm. rewrite <-!list_fmap_compose. apply list_fmap_ext.
    intros i [k e] Hi. simpl. apply list_elem_of_lookup_2, elem_of_map_to_list in Hi.
    destruct (wf_placed ov Hwf t k e) as [<- <-]; [|done].
    unfold entry_at. by rewrite Hm. }
  assert (forall l, NoDup l.*1 ->
            (forall t m, (t, m) ∈ l -> entries_by_table ov !! t = Some m) ->
            NoDup (place <$> (tp ← l; (map_to_list (tp.2 : gmap ScopedPkKey _)).*2))) as Hgen.
  { induction l as [|[t m] l IH]; simpl; intros Hnd Hl; [constructor|].
    apply NoDup_cons in Hnd as [Hni Hnd].
    rewrite fmap_app. apply NoDup_app. split_and!.
    - rewrite (Hrow t m) by set_solver.
      apply NoDup_fmap_2; [intros ?? [=]; done|]. apply NoDup_fst_map_to_list.
    - rewrite (Hrow t m) by set_solver. intros [t' k] [k' [[= -> ->] _]]%list_elem_of_fmap.
      intros [e [He Hin]]%list_elem_of_fmap. apply Hni.
      apply list_elem_of_bind in Hin as [[t' m'] [Hin Htm]]. simpl in Hin.
      assert (place e ∈ place <$> (map_to_list m').*2) as Hpl
        by (apply list_elem_of_fmap; eauto).
      rewrite (Hrow t' m') in Hpl by set_solver.
      apply list_elem_of_fmap in Hpl as [k'' [Hpl _]].
      apply list_elem_of_fmap. exists (t', m'). split; [|done]. simpl. congruence.
    - apply IH; [done|]. set_solver. }
  apply Hgen; [apply NoDup_fst_map_to_list|].
  intros t m H. by apply elem_of_map_to_list in H.
Qed.

(** Applying the rows of a well-formed overlay to an empty one, in any order, rebuilds it. *)
Lemma rebuild_any_order ov tx l t k :
  overlay_wf ov -> l ≡ₚ table_rows ov ->
  entry_at (foldl apply_entry (overlay_new tx) l) t k = entry_at ov t k.
Proof.
  intros Hwf Hp. rewrite entry_at_foldl.
  change (entry_at (overlay_new tx) t k) with
    ((∅ : gmap TableId (gmap ScopedPkKey TransactionOverlayEntry)) !! t
       ≫= fun entries => entries !! k).
  rewrite lookup_empty. simpl.
  assert (NoDup (place <$> l)) as Hnd.
  { rewrite Hp. by apply table_rows_places_NoDup. }
  apply option_eq. intros e. rewrite fold_key_distinct by done.
  rewrite Hp, elem_of_table_rows. split.
  - intros [[t' [k' He]] Hpl]. destruct (wf_placed ov Hwf _ _ _ He) as [<- <-].
    unfold place in Hpl. by simplify_eq.
  - intros He. split; [eauto|]. destruct (wf_placed ov Hwf _ _ _ He) as [<- <-]. done.
Qed.

(** Starting from an entry instead of from nothing only changes what the place's own entry is
    merged into. *)
Lemma fold_key_distinct_start t k cur l :
  NoDup (place <$> l) ->
  fold_key t k cur l =
  match fold_key t k None l with
  | Some e => Some (merge_entry cur e)
  | None => cur
  end.
Proof.
  revert cur. induction l as [|e l IH]; intros cur; simpl; [done|].
  intros [Hni Hnd]%NoDup_cons. case_decide as Hp; [|by apply IH].
  rewrite merge_entry_None, !fold_key_none; [done| |];
    intros e' Hin Hpl; apply Hni, list_elem_of_fmap; exists e'; unfold place in *;
    destruct Hp; split; congruence.
Qed.

Lemma fold_key_table_rows ov t k :
  overlay_wf ov -> fold_key t k None (table_rows ov) = entry_at ov t k.
Proof.
  intros Hwf. pose proof (rebuild_any_order ov "" (table_rows ov) t k Hwf ltac:(done)) as H.
  rewrite entry_at_foldl in H. rewrite <-H. f_equal.
Qed.

Lemma entry_at_merge_from ov other t k :
  overlay_wf other ->
  entry_at (merge_from ov other) t k =
  match entry_at other t k with
  | Some e => Some (merge_entry (entry_at ov t k) e)
  | None => entry_at ov t k
  end.
Proof.
  intros Hwf. unfold merge_from. rewrite entry_at_foldl.
  rewrite fold_key_distinct_start by by apply table_rows_places_NoDup.
  by rewrite fold_key_table_rows.
Qed.

Lemma updated_columns_apply ov e t c :
  let eff := merge_entry (entry_at ov (oe_table_id e) (for_entry e)) e in
  column_was_updated (apply_entry ov e) t c =
  column_was_updated ov t c ||
  bool_decide (oe_table_id e = t /\ entry_class eff = KUpdated /\ c ∈ dom (oe_payload eff)).
Proof.
  intros eff.
  assert (updated_columns (apply_entry ov e) =
    if bool_decide (oe_operation_kind eff = Update) && negb (is_deleted eff)
    then <[ oe_table_id e := dom (oe_payload eff) ∪
              default ∅ (updated_columns ov !! oe_table_id e) ]> (updated_columns ov)
    else updated_columns ov) as E.
  { unfold apply_entry. fold (entry_at ov (oe_table_id e) (for_entry e)).
    change (merge_visible_entry ov (oe_table_id e) (for_entry e) e) with eff.
    destruct (is_deleted eff); [done|]. by destruct (oe_operation_kind eff). }
  unfold column_was_updated. rewrite E. unfold entry_class.
  destruct (is_deleted eff); rewrite ?andb_false_r; simpl.
  { rewrite (bool_decide_false (_ /\ _)) by naive_solver. by rewrite orb_false_r. }
  rewrite andb_true_r. destruct (oe_operation_kind eff); simpl;
    [rewrite (bool_decide_false (_ /\ _)) by naive_solver; by rewrite orb_false_r| |
     rewrite (bool_decide_false (_ /\ _)) by naive_solver; by rewrite orb_false_r].
  rewrite lookup_insert. destruct (decide (oe_table_id e = t)) as [<-|Ht].
  - apply eq_bool_prop_intro. rewrite orb_True.
    destruct (updated_columns ov !! oe_table_id e) as [cs|]; simpl;
      rewrite !bool_decide_spec; set_solver.
  - rewrite (bool_decide_false (_ /\ _)) by naive_solver. by rewrite orb_false_r.
Qed.

(** Every column of a visible update is recorded as updated. *)
Definition columns_complete (ov : TransactionOverlay) : Prop :=
  forall t k e c, entry_at ov t k = Some e -> entry_class e = KUpdated ->
    c ∈ dom (oe_payload e) -> column_was_updated ov t c = true.

Lemma apply_entry_columns ov e : columns_complete ov -> columns_complete (apply_entry ov e).
Proof.
  intros Hov t k e' c. rewrite entry_at_apply, updated_columns_apply.
  case_decide as Hp.
  - destruct Hp as [<- <-]. intros [= <-] Hc Hd.
    rewrite (bool_decide_true (_ /\ _)) by done. apply orb_true_r.
  - intros He Hc Hd. by rewrite (Hov t k e' c).
Qed.

Lemma foldl_apply_columns ov es :
  columns_complete ov -> columns_complete (foldl apply_entry ov es).
Proof. revert ov. induction es; simpl; auto using apply_entry_columns. Qed.

Lemma restrict_to_lookup {A} (m : gmap TableId A) t t' :
  restrict_to m t !! t' = if decide (t' = t) then m !! t else None.
Proof.
  unfold restrict_to. case_decide as Ht; [subst t'|]; destruct (m !! t) eqn:E.
  - by rewrite lookup_singleton_eq.
  - by rewrite lookup_empty.
  - by rewrite lookup_singleton_ne.
  - by rewrite lookup_empty.
Qed.

Lemma table_overlay_entry_at ov t ov' t' k :
  table_overlay ov t = Some ov' ->
  entry_at ov' t' k = if decide (t' = t) then entry_at ov t k else None.
Proof.
  unfold table_overlay, entry_at. destruct (entries_by_table ov !! t) as [es|] eqn:E; [|done].
  simpl. intros [= <-]. simpl. case_decide as Ht.
  - subst t'. by rewrite lookup_singleton_eq.
  - by rewrite lookup_singleton_ne.
Qed.

Lemma table_overlay_class_keys ov t ov' c :
  table_overlay ov t = Some ov' -> class_keys ov' c = restrict_to (class_keys ov c) t.
Proof.
  unfold table_overlay. destruct (entries_by_table ov !! t); [|done]. simpl.
  intros [= <-]. by destruct c.
Qed.

Lemma table_overlay_wf ov t ov' : overlay_wf ov -> table_overlay ov t = Some ov' -> overlay_wf ov'.
Proof.
  intros Hwf Ht. split.
  - intros t' k e. rewrite (table_overlay_entry_at _ _ _ _ _ Ht). case_decide; [|done].
    subst t'. apply (wf_placed ov Hwf).
  - intros c t' k. rewrite (table_overlay_class_keys _ _ _ _ Ht), restrict_to_lookup.
    rewrite (table_overlay_entry_at _ _ _ _ _ Ht). case_decide.
    + subst t'. apply (wf_classes ov Hwf).
    + simpl. set_solver.
  - intros c t' s'. rewrite (table_overlay_class_keys _ _ _ _ Ht), restrict_to_lookup.
    case_decide; [|done]. apply (wf_nonempty ov Hwf).
  - intros t' m. unfold table_overlay in Ht.
    destruct (entries_by_table ov !! t) as [es|] eqn:E; [|done]. simpl in Ht.
    injection Ht as <-. simpl. intros [<- <-]%lookup_singleton_Some. by eapply (wf_tables ov Hwf).
Qed.

(** ** Properties *)

(** For every sequence of staged entries, the overlay files each visible entry under its own
    table and scoped key, and [inserted_keys], [updated_keys] and [deleted_keys] are exactly the
    keys whose visible entry is an insert, an update, or a deletion: each key is in one of the
    three sets, and no emptied set or table is left behind. *)
Theorem overlay_key_sets_classify tx es : overlay_wf (foldl apply_entry (overlay_new tx) es).
Proof. apply foldl_apply_wf, overlay_new_wf. Qed.

(** After any sequence of staged entries, a column of a row whose visible entry is an update
    is reported by [column_was_updated]: an index seek that trusts the committed index on a
    column not reported cannot miss a staged update of it. *)
Theorem overlay_updated_columns_sound tx es t k e c :
  entry_at (foldl apply_entry (overlay_new tx) es) t k = Some e ->
  is_deleted e = false -> oe_operation_kind e = Update -> c ∈ dom (oe_payload e) ->
  column_was_updated (foldl apply_entry (overlay_new tx) es) t c = true.
Proof.
  intros He Hd Hk Hc. eapply foldl_apply_columns; [|exact He| |exact Hc].
  - intros t' k' e' c'. unfold entry_at. simpl. by rewrite lookup_empty.
  - unfold entry_class. by rewrite Hd, Hk.
Qed.

(** [merge_from] does not depend on the order in which the hash maps of the other overlay
    are iterated: applying its rows in any order gives the same visible entry for every key, the
    other overlay's entry merged over the present one. *)
Theorem merge_from_any_order ov other l t k :
  overlay_wf other -> l ≡ₚ table_rows other ->
  entry_at (foldl apply_entry ov l) t k = entry_at (merge_from ov other) t k /\
  entry_at (merge_from ov other) t k =
    match entry_at other t k with
    | Some e => Some (merge_entry (entry_at ov t k) e)
    | None => entry_at ov t k
    end.
Proof.
  intros Hwf Hl. split; [|by apply entry_at_merge_from].
  rewrite entry_at_merge_from, entry_at_foldl, fold_key_distinct_start by
    (try done; rewrite Hl; by apply table_rows_places_NoDup).
  pose proof (rebuild_any_order other "" l t k Hwf Hl) as H. rewrite entry_at_foldl in H.
  change (entry_at (overlay_new "") t k) with (None : option TransactionOverlayEntry) in H.
  by rewrite H.
Qed.

(** [table_overlay] is the restriction of the overlay to one table: same visible entries and
    same updated columns for that table, nothing for any other, and still well formed. *)
Theorem table_overlay_restricts ov t ov' :
  overlay_wf ov -> table_overlay ov t = Some ov' ->
  overlay_wf ov' /\
  (forall t' k, entry_at ov' t' k = if decide (t' = t) then entry_at ov t k else None) /\
  (forall c, column_was_updated ov' t c = column_was_updated ov t c).
Proof.
  intros Hwf Ht. split_and!.
  - by eapply table_overlay_wf.
  - intros t' k. by apply table_overlay_entry_at.
  - intros c. unfold table_overlay in Ht. destruct (entries_by_table ov !! t); [|done].
    simpl in Ht. injection Ht as <-. unfold column_was_updated. simpl.
    by rewrite restrict_to_lookup, decide_True.
Qed.

End Overlay.

Arguments TransactionOverlayEntry : clear implicits.
Arguments TransactionOverlay : clear implicits.

(** ** Witnesses *)

Definition w_table : TableId := mkTableId "app" "items".
Definition w_entry (order : Z) (kind : OperationKind) (pk : string) (payload : gmap string Z) :
    TransactionOverlayEntry Z :=
  mkOverlayEntry "tx" order w_table Shared None kind pk payload false.
Definition w_entries : list (TransactionOverlayEntry Z) :=
  [w_entry 0 Update "1" {[ "name" := 7 ]}; w_entry 1 Insert "2" {[ "id" := 2 ]}].

Lemma overlay_updated_columns_sound_witness :
  column_was_updated (foldl apply_entry (overlay_new "tx") w_entries) w_table "name" = true.
Proof.
  apply (overlay_updated_columns_sound "tx" w_entries w_table (mkScopedPkKey None "1")
           (w_entry 0 Update "1" {[ "name" := 7 ]}) "name").
  - reflexivity.
  - reflexivity.
  - reflexivity.
  - apply elem_of_dom. eexists. reflexivity.
Defined.

Lemma merge_from_any_order_witness :
  let other := foldl apply_entry (overlay_new "tx") w_entries in
  entry_at (merge_from (overlay_new "tx") other) w_table (mkScopedPkKey None "2") =
  Some (w_entry 1 Insert "2" {[ "id" := 2 ]}).
Proof.
  intros other.
  destruct (merge_from_any_order (overlay_new "tx") other (table_rows other) w_table
              (mkScopedPkKey None "2")) as [_ H].
  - apply foldl_apply_wf, overlay_new_wf.
  - reflexivity.
  - rewrite H. reflexivity.
Defined.

Lemma table_overlay_restricts_witness :
  match table_overlay (foldl apply_entry (overlay_new "tx") w_entries) w_table with
  | Some ov' =>
      entry_at ov' w_table (mkScopedPkKey None "2") = Some (w_entry 1 Insert "2" {[ "id" := 2 ]})
  | None => False
  end.
Proof.
  destruct (table_overlay _ _) as [ov'|] eqn:E.
  - destruct (table_overlay_restricts _ _ _ (foldl_apply_wf _ _ (overlay_new_wf _)) E)
      as [_ [H _]].
    rewrite H. vm_compute. reflexivity.
  - vm_compute in E. discriminate.
Defined.
