(* ===== verification/WriteSet.v ===== *)
(** * WriteSet: the staged writes of one transaction, with savepoints

    Model of kalamdb-transactions/src/write_set.rs and staged_mutation.rs.  A
    [TransactionWriteSet] keeps the ordered list of staged mutations and three structures
    derived from it: the index of the latest mutation per scoped key, one overlay per table,
    and the buffered byte count.  Savepoints record a prefix of the list; rolling back
    truncates the list and rebuilds the derived structures.

    The section's [scalar_size] stands for [approximate_scalar_value_size_bytes], which sizes a
    DataFusion [ScalarValue]. *)

From Stdlib Require Import ZArith Lia.
From stdpp Require Import base countable strings gmap fin_maps list.
From S2P Require Import Prelude Commons Overlay.

Open Scope Z_scope.

Section WriteSet.
Context {Value : Type} (scalar_size : Value -> Z).

Record StagedMutation := mkMutation {
  sm_transaction_id : TransactionId;
  sm_mutation_order : Z;
  sm_table_id : TableId;
  sm_table_type : TableType;
  sm_user_id : option UserId;
  sm_operation_kind : OperationKind;
  sm_primary_key : string;
  sm_payload : gmap string Value;
  sm_tombstone : bool
}.

(** [StagedMutation::new]: the order is assigned when the mutation is staged. *)
Definition mutation_new (tx : TransactionId) (t : TableId) (tt : TableType)
    (user : option UserId) (kind : OperationKind) (pk : string) (payload : gmap string Value)
    (tombstone : bool) : StagedMutation :=
  mkMutation tx 0 t tt user kind pk payload tombstone.

Definition approximate_row_size_bytes (row : gmap string Value) : Z :=
  map_fold (fun column value acc => str_len column + scalar_size value + acc) 0 row.

Definition approximate_size_bytes (m : StagedMutation) : Z :=
  wrap64 (str_len (sm_primary_key m)
          + str_len (full_name (sm_table_id m))
          + match sm_user_id m with Some u => str_len u | None => 0 end
          + approximate_row_size_bytes (sm_payload m)
          + 8).

Definition overlay_entry (m : StagedMutation) : TransactionOverlayEntry Value :=
  mkOverlayEntry (sm_transaction_id m) (sm_mutation_order m) (sm_table_id m) (sm_table_type m)
    (sm_user_id m) (sm_operation_kind m) (sm_primary_key m) (sm_payload m) (sm_tombstone m).

Definition with_order (m : StagedMutation) (order : Z) : StagedMutation :=
  mkMutation (sm_transaction_id m) order (sm_table_id m) (sm_table_type m) (sm_user_id m)
    (sm_operation_kind m) (sm_primary_key m) (sm_payload m) (sm_tombstone m).

(** [build_insert_staged_mutations].  [pk_text] renders a primary-key value: the
    [try_pk_bucket_key(..).to_string()] of kalamdb-commons or DataFusion's [to_string]. *)
Inductive StagedInsertBuildError := MissingPrimaryKey (column_name : string).

Fixpoint build_insert_staged_mutations (pk_text : Value -> string) (tx : TransactionId)
    (t : TableId) (tt : TableType) (user : option UserId) (pk_column : string)
    (rows : list (gmap string Value)) : Result StagedInsertBuildError (list StagedMutation) :=
  match rows with
  | [] => Ok []
  | row :: rest =>
      match row !! pk_column with
      | None => Err (MissingPrimaryKey pk_column)
      | Some pk =>
          match build_insert_staged_mutations pk_text tx t tt user pk_column rest with
          | Ok ms => Ok (mutation_new tx t tt user Insert (pk_text pk) row false :: ms)
          | Err e => Err e
          end
      end
  end.

Record SavepointEntry := mkSavepoint {
  sp_name : string;
  sp_mutation_count : nat;
  sp_next_order : Z
}.

Record TransactionWriteSet := mkWriteSet {
  ws_transaction_id : TransactionId;
  next_mutation_order : Z;
  ordered_mutations : list StagedMutation;
  latest_by_table_key : gmap TableId (gmap ScopedPkKey nat);
  overlay_cache : gmap TableId (TransactionOverlay Value);
  buffer_bytes : Z;
  savepoint_marks : list Z;
  savepoints : list SavepointEntry
}.

Definition write_set_new (tx : TransactionId) : TransactionWriteSet :=
  mkWriteSet tx 0 [] ∅ ∅ 0 [] [].

(** The key of [latest_by_table_key]: scope and primary key as staged. *)
Definition scoped_table_key (m : StagedMutation) : ScopedPkKey :=
  mkScopedPkKey (sm_user_id m) (sm_primary_key m).

(** [latest_by_table_key.entry(t).or_default().insert(key, index)]. *)
Definition index_mutation (idx : gmap TableId (gmap ScopedPkKey nat)) (m : StagedMutation)
    (i : nat) : gmap TableId (gmap ScopedPkKey nat) :=
  <[ sm_table_id m := <[ scoped_table_key m := i ]> (default ∅ (idx !! sm_table_id m)) ]> idx.

(** [overlay_cache.entry(t).or_insert_with(new).apply_entry(m.overlay_entry())]. *)
Definition cache_mutation (tx : TransactionId) (cache : gmap TableId (TransactionOverlay Value))
    (m : StagedMutation) : gmap TableId (TransactionOverlay Value) :=
  <[ sm_table_id m :=
       apply_entry (default (overlay_new tx) (cache !! sm_table_id m)) (overlay_entry m) ]> cache.

Definition stage_with_estimated_size (ws : TransactionWriteSet) (mutation : StagedMutation)
    (estimated_bytes : Z) : TransactionWriteSet * Z :=
  let order := next_mutation_order ws in
  let m := with_order mutation order in
  let i := length (ordered_mutations ws) in
  (mkWriteSet (ws_transaction_id ws) (u64_add order 1)
     (ordered_mutations ws ++ [m])
     (index_mutation (latest_by_table_key ws) m i)
     (cache_mutation (ws_transaction_id ws) (overlay_cache ws) m)
     (u64_add (buffer_bytes ws) estimated_bytes)
     (savepoint_marks ws) (savepoints ws),
   order).

Definition stage (ws : TransactionWriteSet) (mutation : StagedMutation) :
    TransactionWriteSet * Z :=
  stage_with_estimated_size ws mutation (approximate_size_bytes mutation).

Definition affected_rows (ws : TransactionWriteSet) : nat := length (ordered_mutations ws).

Definition latest_mutation_for_scope (ws : TransactionWriteSet) (t : TableId)
    (user : option UserId) (pk : string) : option StagedMutation :=
  keys ← latest_by_table_key ws !! t;
  i ← (keys : gmap ScopedPkKey nat) !! mkScopedPkKey user pk;
  ordered_mutations ws !! i.

Definition latest_mutation (ws : TransactionWriteSet) (t : TableId) (pk : string) :
    option StagedMutation :=
  latest_mutation_for_scope ws t None pk.

Definition overlay_for_table (ws : TransactionWriteSet) (t : TableId) :
    option (TransactionOverlay Value) :=
  overlay_cache ws !! t.

Definition merged_overlay (ws : TransactionWriteSet) : TransactionOverlay Value :=
  foldl merge_from (overlay_new (ws_transaction_id ws)) (map_to_list (overlay_cache ws)).*2.

Definition normalize (name : string) : string := to_ascii_lowercase (trim name).

Definition push_savepoint (ws : TransactionWriteSet) (name : string) : TransactionWriteSet :=
  let entry :=
    mkSavepoint (normalize name) (length (ordered_mutations ws)) (next_mutation_order ws) in
  mkWriteSet (ws_transaction_id ws) (next_mutation_order ws) (ordered_mutations ws)
    (latest_by_table_key ws) (overlay_cache ws) (buffer_bytes ws)
    (savepoint_marks ws ++ [sp_next_order entry]) (savepoints ws ++ [entry]).

Definition set_savepoints (ws : TransactionWriteSet) (marks : list Z)
    (sps : list SavepointEntry) : TransactionWriteSet :=
  mkWriteSet (ws_transaction_id ws) (next_mutation_order ws) (ordered_mutations ws)
    (latest_by_table_key ws) (overlay_cache ws) (buffer_bytes ws) marks sps.

Definition find_savepoint (ws : TransactionWriteSet) (name : string) : option nat :=
  rposition (fun sp => bool_decide (sp_name sp = normalize name)) (savepoints ws).

Definition release_savepoint (ws : TransactionWriteSet) (name : string) :
    TransactionWriteSet * bool :=
  match find_savepoint ws name with
  | None => (ws, false)
  | Some pos =>
      (set_savepoints ws (take pos (savepoint_marks ws)) (take pos (savepoints ws)), true)
  end.

(** One iteration of the rebuild loop of [truncate_mutations], for the mutation at [i]. *)
Definition rebuild_one (ws : TransactionWriteSet) (i : nat) (m : StagedMutation) :
    TransactionWriteSet :=
  mkWriteSet (ws_transaction_id ws) (next_mutation_order ws) (ordered_mutations ws)
    (index_mutation (latest_by_table_key ws) m i)
    (cache_mutation (ws_transaction_id ws) (overlay_cache ws) m)
    (u64_add (buffer_bytes ws) (approximate_size_bytes m))
    (savepoint_marks ws) (savepoints ws).

Fixpoint rebuild_from (ws : TransactionWriteSet) (i : nat) (ms : list StagedMutation) :
    TransactionWriteSet :=
  match ms with
  | [] => ws
  | m :: rest => rebuild_from (rebuild_one ws i m) (S i) rest
  end.

Definition truncate_mutations (ws : TransactionWriteSet) (target_len : nat) (next_order : Z) :
    TransactionWriteSet :=
  let kept := take target_len (ordered_mutations ws) in
  rebuild_from
    (mkWriteSet (ws_transaction_id ws) next_order kept ∅ ∅ 0 (savepoint_marks ws)
       (savepoints ws))
    0 kept.

Definition rollback_to_savepoint (ws : TransactionWriteSet) (name : string) :
    TransactionWriteSet * option (nat * Z) :=
  match find_savepoint ws name with
  | None => (ws, None)
  | Some pos =>
      match savepoints ws !! pos with
      | None => (ws, None)
      | Some target =>
          let ws1 := set_savepoints ws (take (S pos) (savepoint_marks ws))
                       (take (S pos) (savepoints ws)) in
          let ws2 := truncate_mutations ws1 (sp_mutation_count target) (sp_next_order target) in
          (ws2, Some (length (ordered_mutations ws2), buffer_bytes ws2))
      end
  end.

(** ** Sequences of operations and the invariant *)

Inductive WriteSetOp :=
| OpStage (m : StagedMutation)
| OpPush (name : string)
| OpRelease (name : string)
| OpRollback (name : string).

Definition ws_step (ws : TransactionWriteSet) (op : WriteSetOp) : TransactionWriteSet :=
  match op with
  | OpStage m => (stage ws m).1
  | OpPush name => push_savepoint ws name
  | OpRelease name => (release_savepoint ws name).1
  | OpRollback name => (rollback_to_savepoint ws name).1
  end.

Definition ws_run (ws : TransactionWriteSet) (ops : list WriteSetOp) : TransactionWriteSet :=
  foldl ws_step ws ops.

(** A savepoint of a write set with [n] mutations: a prefix length and its order. *)
Definition savepoint_ok (n : nat) (sp : SavepointEntry) : Prop :=
  (sp_mutation_count sp <= n)%nat /\ sp_next_order sp = wrap64 (Z.of_nat (sp_mutation_count sp)).

(** Later savepoints record longer prefixes. *)
Definition nested (sps : list SavepointEntry) : Prop :=
  forall i j a b, (i <= j)%nat -> sps !! i = Some a -> sps !! j = Some b ->
    (sp_mutation_count a <= sp_mutation_count b)%nat.

(** The derived structures are those a rebuild from the list produces, orders are positions,
    marks mirror savepoints, and savepoints are nested prefixes. *)
Record ws_inv (ws : TransactionWriteSet) : Prop := {
  inv_derived :
    truncate_mutations ws (length (ordered_mutations ws)) (next_mutation_order ws) = ws;
  inv_next : next_mutation_order ws = wrap64 (Z.of_nat (length (ordered_mutations ws)));
  inv_orders i m :
    ordered_mutations ws !! i = Some m -> sm_mutation_order m = wrap64 (Z.of_nat i);
  inv_marks : savepoint_marks ws = sp_next_order <$> savepoints ws;
  inv_savepoints : Forall (savepoint_ok (length (ordered_mutations ws))) (savepoints ws);
  inv_nested : nested (savepoints ws)
}.

(** ** Lemmas on the rebuild loop *)

Lemma rebuild_from_app ws i ms1 ms2 :
  rebuild_from ws i (ms1 ++ ms2) =
  rebuild_from (rebuild_from ws i ms1) (i + length ms1) ms2.
Proof.
  revert ws i. induction ms1 as [|m ms1 IH]; intros ws i; simpl.
  - by rewrite Nat.add_0_r.
  - rewrite IH. f_equal. lia.
Qed.

(** The rebuild touches only the derived structures, and those depend only on the
    transaction id, the start values and the list. *)
Lemma rebuild_from_frame tx n1 o1 l c b m1 s1 n2 o2 m2 s2 i ms :
  rebuild_from (mkWriteSet tx n1 o1 l c b m1 s1) i ms =
  let r := rebuild_from (mkWriteSet tx n2 o2 l c b m2 s2) i ms in
  mkWriteSet tx n1 o1 (latest_by_table_key r) (overlay_cache r) (buffer_bytes r) m1 s1.
Proof.
  revert l c b i. induction ms as [|m ms IH]; intros l c b i; simpl; [done|]. apply IH.
Qed.

Lemma truncate_frame ws n o :
  let r := truncate_mutations ws n o in
  ws_transaction_id r = ws_transaction_id ws /\
  next_mutation_order r = o /\
  ordered_mutations r = take n (ordered_mutations ws) /\
  savepoint_marks r = savepoint_marks ws /\ savepoints r = savepoints ws.
Proof.
  unfold truncate_mutations.
  rewrite (rebuild_from_frame _ _ _ _ _ _ _ _ o [] [] []). by simpl.
Qed.

Lemma size_with_order m o : approximate_size_bytes (with_order m o) = approximate_size_bytes m.
Proof. by destruct m. Qed.

(** Truncation forgets everything but the kept prefix. *)
Lemma truncate_ext ws ws' n n' o :
  ws_transaction_id ws = ws_transaction_id ws' ->
  take n (ordered_mutations ws) = take n' (ordered_mutations ws') ->
  savepoint_marks ws = savepoint_marks ws' -> savepoints ws = savepoints ws' ->
  truncate_mutations ws n o = truncate_mutations ws' n' o.
Proof. unfold truncate_mutations. by intros -> -> -> ->. Qed.

Lemma truncate_set_savepoints ws n o marks sps :
  truncate_mutations (set_savepoints ws marks sps) n o =
  set_savepoints (truncate_mutations ws n o) marks sps.
Proof.
  unfold truncate_mutations. simpl.
  rewrite (rebuild_from_frame _ _ _ _ _ _ _ _ o
             (take n (ordered_mutations ws)) (savepoint_marks ws) (savepoints ws)).
  rewrite (rebuild_from_frame _ _ _ _ _ _ (savepoint_marks ws) (savepoints ws) o
             (take n (ordered_mutations ws)) (savepoint_marks ws) (savepoints ws)).
  done.
Qed.

Lemma write_set_new_inv tx : ws_inv (write_set_new tx).
Proof. by split. Qed.

Lemma stage_derived ws m :
  ws_inv ws ->
  let r := (stage ws m).1 in
  truncate_mutations r (length (ordered_mutations r)) (next_mutation_order r) = r.
Proof.
  intros Hws r. pose proof (inv_derived ws Hws) as E.
  unfold truncate_mutations in E. rewrite firstn_all in E.
  unfold truncate_mutations. rewrite firstn_all. subst r. simpl.
  rewrite rebuild_from_app. simpl.
  rewrite (rebuild_from_frame _ _ _ _ _ _ _ _ (next_mutation_order ws) (ordered_mutations ws)
             (savepoint_marks ws) (savepoints ws)).
  rewrite E. unfold rebuild_one. simpl. by rewrite size_with_order.
Qed.

Lemma wrap64_succ n : u64_add (wrap64 (Z.of_nat n)) 1 = wrap64 (Z.of_nat (S n)).
Proof.
  unfold u64_add, wrap64. rewrite Zplus_mod_idemp_l. f_equal. lia.
Qed.

Lemma savepoint_ok_mono n n' sp : (n <= n')%nat -> savepoint_ok n sp -> savepoint_ok n' sp.
Proof. unfold savepoint_ok. intros ? [??]. split; [lia|done]. Qed.

Lemma stage_inv ws m : ws_inv ws -> ws_inv (stage ws m).1.
Proof.
  intros Hws. split.
  - by apply stage_derived.
  - simpl. rewrite length_app, (inv_next ws Hws), wrap64_succ. simpl. do 2 f_equal. lia.
  - simpl. intros i m' [H|[H1 H2]]%lookup_app_Some; [by apply (inv_orders ws Hws)|].
    apply list_lookup_singleton_Some in H2 as [Hi <-]. simpl.
    rewrite (inv_next ws Hws). do 2 f_equal. lia.
  - apply (inv_marks ws Hws).
  - simpl. eapply Forall_impl; [apply (inv_savepoints ws Hws)|].
    intros sp. apply savepoint_ok_mono. rewrite length_app. lia.
  - apply (inv_nested ws Hws).
Qed.

Lemma nested_take n sps : nested sps -> nested (take n sps).
Proof.
  intros H i j a b Hij Ha Hb. apply lookup_take_Some in Ha as [Ha _], Hb as [Hb _].
  by eapply (H i j).
Qed.

Lemma nested_snoc n sps sp :
  nested sps -> Forall (savepoint_ok n) sps -> sp_mutation_count sp = n -> nested (sps ++ [sp]).
Proof.
  intros Hn Hall Hsp i j a b Hij Ha Hb. rewrite lookup_snoc_Some in Ha, Hb.
  destruct Ha as [[Hi Ha]|[Hi <-]], Hb as [[Hj Hb]|[Hj <-]].
  - by eapply (Hn i j).
  - rewrite Forall_lookup in Hall. destruct (Hall _ _ Ha). lia.
  - lia.
  - lia.
Qed.

(** Changing the savepoint stack keeps the derived structures. *)
Lemma set_savepoints_inv ws sps :
  ws_inv ws -> Forall (savepoint_ok (length (ordered_mutations ws))) sps ->
  nested sps ->
  ws_inv (set_savepoints ws (sp_next_order <$> sps) sps).
Proof.
  intros Hws Hsps Hnest. split; simpl; try done.
  - rewrite truncate_set_savepoints. by rewrite (inv_derived ws Hws).
  - apply (inv_next ws Hws).
  - apply (inv_orders ws Hws).
Qed.

Lemma push_savepoint_set ws name :
  ws_inv ws ->
  push_savepoint ws name =
  let sps := savepoints ws ++
    [mkSavepoint (normalize name) (length (ordered_mutations ws)) (next_mutation_order ws)] in
  set_savepoints ws (sp_next_order <$> sps) sps.
Proof.
  intros Hws. unfold push_savepoint, set_savepoints. simpl.
  by rewrite fmap_app, (inv_marks ws Hws).
Qed.

Lemma push_savepoint_inv ws name : ws_inv ws -> ws_inv (push_savepoint ws name).
Proof.
  intros Hws. rewrite push_savepoint_set by done. apply set_savepoints_inv; [done| |].
  - apply Forall_app. split; [apply (inv_savepoints ws Hws)|].
    constructor; [|constructor]. split; simpl; [lia|apply (inv_next ws Hws)].
  - eapply nested_snoc; [apply (inv_nested ws Hws)|apply (inv_savepoints ws Hws)|done].
Qed.

Lemma take_savepoints_inv ws n :
  ws_inv ws ->
  ws_inv (set_savepoints ws (take n (savepoint_marks ws)) (take n (savepoints ws))).
Proof.
  intros Hws. rewrite (inv_marks ws Hws), <-fmap_take. apply set_savepoints_inv; [done| |].
  - apply Forall_take, (inv_savepoints ws Hws).
  - apply nested_take, (inv_nested ws Hws).
Qed.

Lemma release_savepoint_inv ws name : ws_inv ws -> ws_inv (release_savepoint ws name).1.
Proof.
  intros Hws. unfold release_savepoint. destruct (find_savepoint ws name); simpl; [|done].
  by apply take_savepoints_inv.
Qed.

Lemma truncate_mutations_inv ws n :
  ws_inv ws -> (n <= length (ordered_mutations ws))%nat ->
  Forall (savepoint_ok n) (savepoints ws) ->
  ws_inv (truncate_mutations ws n (wrap64 (Z.of_nat n))).
Proof.
  intros Hws Hn Hsps.
  destruct (truncate_frame ws n (wrap64 (Z.of_nat n))) as (Htx & Hnext & Hm & Hmarks & Hs).
  assert (length (ordered_mutations (truncate_mutations ws n (wrap64 (Z.of_nat n)))) = n)
    as Hlen by (rewrite Hm, length_take; lia).
  split.
  - rewrite Hlen, Hnext. apply truncate_ext; [done| |done|done].
    rewrite Hm. by rewrite take_take, Nat.min_id.
  - by rewrite Hnext, Hlen.
  - rewrite Hm. intros i m H. apply lookup_take_Some in H as [H _].
    by apply (inv_orders ws Hws).
  - rewrite Hmarks, Hs. apply (inv_marks ws Hws).
  - by rewrite Hlen, Hs.
  - rewrite Hs. apply (inv_nested ws Hws).
Qed.

Lemma rollback_to_savepoint_inv ws name : ws_inv ws -> ws_inv (rollback_to_savepoint ws name).1.
Proof.
  intros Hws. unfold rollback_to_savepoint.
  destruct (find_savepoint ws name) as [pos|]; simpl; [|done].
  destruct (savepoints ws !! pos) as [target|] eqn:Ht; simpl; [|done].
  pose proof (inv_savepoints ws Hws) as Hall. rewrite Forall_lookup in Hall.
  destruct (Hall _ _ Ht) as [Hle ->].
  apply truncate_mutations_inv; [by apply take_savepoints_inv|done|]. simpl.
  rewrite Forall_lookup. intros i sp [Hsp Hi]%lookup_take_Some.
  split; [|apply (Hall _ _ Hsp)]. eapply (inv_nested ws Hws i pos); [lia|done|done].
Qed.

Lemma ws_step_inv ws op : ws_inv ws -> ws_inv (ws_step ws op).
Proof.
  destruct op; [apply stage_inv|apply push_savepoint_inv|apply release_savepoint_inv
    |apply rollback_to_savepoint_inv].
Qed.

Lemma ws_run_inv ws ops : ws_inv ws -> ws_inv (ws_run ws ops).
Proof. unfold ws_run. revert ws. induction ops; simpl; auto using ws_step_inv. Qed.

(** ** Rolling back to a savepoint *)

(** An operation that leaves the savepoints of [outer] and the one called [name] alone: it may
    stage, push and drop its own savepoints, and roll back to [name] itself. *)
Definition inner_op (outer : list SavepointEntry) (name : string) (op : WriteSetOp) : Prop :=
  match op with
  | OpStage _ => True
  | OpPush n => normalize n ≠ normalize name
  | OpRelease n => normalize n ≠ normalize name /\ normalize n ∉ sp_name <$> outer
  | OpRollback n => normalize n ∉ sp_name <$> outer
  end.

(** What holds of a write set reached from [push_savepoint ws name] by inner operations. *)
Record inside (ws : TransactionWriteSet) (name : string) (cur : TransactionWriteSet) : Prop := {
  in_tx : ws_transaction_id cur = ws_transaction_id ws;
  in_prefix : exists extra, ordered_mutations cur = ordered_mutations ws ++ extra;
  in_savepoints : exists inner,
    savepoints cur = savepoints (push_savepoint ws name) ++ inner /\
    Forall (fun sp => sp_name sp ≠ normalize name) inner
}.

Lemma rposition_app_r {A} (p : A -> bool) l1 l2 :
  rposition p (l1 ++ l2) =
  match rposition p l2 with
  | Some i => Some (length l1 + i)%nat
  | None => rposition p l1
  end.
Proof.
  induction l1 as [|x l1 IH]; simpl; [by destruct (rposition p l2)|].
  rewrite IH. by destruct (rposition p l2).
Qed.

Lemma find_inside ws name cur :
  inside ws name cur -> find_savepoint cur name = Some (length (savepoints ws)).
Proof.
  intros [_ _ [inner [Hs Hi]]]. unfold find_savepoint. rewrite Hs, rposition_app_r.
  assert (rposition (fun sp => bool_decide (sp_name sp = normalize name)) inner = None) as ->.
  { apply rposition_None. eapply Forall_impl; [exact Hi|]. simpl. intros sp H.
    by apply bool_decide_false. }
  unfold push_savepoint. simpl. rewrite rposition_app_r. simpl.
  rewrite bool_decide_true by done. f_equal. lia.
Qed.

Lemma push_inside ws name : inside ws name (push_savepoint ws name).
Proof. split; [done|exists []; by rewrite app_nil_r|exists []; by rewrite app_nil_r]. Qed.

(** A name that occurs neither outside nor as [name] is found among the inner savepoints. *)
Lemma find_inner ws name cur n pos inner :
  savepoints cur = savepoints (push_savepoint ws name) ++ inner ->
  normalize n ≠ normalize name -> normalize n ∉ sp_name <$> savepoints ws ->
  find_savepoint cur n = Some pos ->
  (length (savepoints (push_savepoint ws name)) <= pos)%nat.
Proof.
  intros Hs Hn Hout. unfold find_savepoint. rewrite Hs, rposition_app_r.
  destruct (rposition _ inner) as [i|].
  { intros H. apply (inj Some) in H. lia. }
  intros H. exfalso. apply rposition_Some in H as [[sp [Hl Hp]] _].
  apply bool_decide_eq_true in Hp. unfold push_savepoint in Hl. simpl in Hl.
  apply lookup_snoc_Some in Hl as [[_ Hl]|[_ <-]]; [|by simpl in Hp].
  apply Hout. rewrite <-Hp. apply list_elem_of_fmap. exists sp. split; [done|].
  by eapply list_elem_of_lookup_2.
Qed.

Lemma prefix_take (l k e : list StagedMutation) n :
  l = k ++ e -> (length k <= n)%nat -> exists e', take n l = k ++ e'.
Proof.
  intros -> Hn. exists (take (n - length k) e). rewrite take_app.
  by rewrite take_ge by lia.
Qed.

Lemma inside_take_savepoints ws name cur n marks :
  inside ws name cur -> (length (savepoints (push_savepoint ws name)) <= n)%nat ->
  inside ws name (set_savepoints cur marks (take n (savepoints cur))).
Proof.
  intros [Htx Hp [inner [Hs Hi]]] Hn. split; simpl; [done|done|].
  exists (take (n - length (savepoints (push_savepoint ws name))) inner). split.
  - rewrite Hs, take_app. by rewrite (take_ge (savepoints _)) by lia.
  - by apply Forall_take.
Qed.

Lemma inside_truncate ws name cur n o :
  inside ws name cur -> (length (ordered_mutations ws) <= n)%nat ->
  inside ws name (truncate_mutations cur n o).
Proof.
  intros [Htx [e He] Hs] Hn. destruct (truncate_frame cur n o) as (Ht & _ & Hm & _ & Hsp).
  split.
  - by rewrite Ht.
  - rewrite Hm. by eapply prefix_take.
  - by rewrite Hsp.
Qed.

(** The savepoint pushed last outside records the length of the outer list, and the savepoints
    are nested, so every inner target keeps the outer prefix. *)
Lemma inner_target_count ws name cur pos target :
  ws_inv cur -> inside ws name cur ->
  (length (savepoints ws) <= pos)%nat -> savepoints cur !! pos = Some target ->
  (length (ordered_mutations ws) <= sp_mutation_count target)%nat.
Proof.
  intros Hinv [_ _ [inner [Hs _]]] Hpos Ht.
  apply (inv_nested cur Hinv (length (savepoints ws)) pos
           (mkSavepoint (normalize name) (length (ordered_mutations ws))
              (next_mutation_order ws)) target Hpos); [|done].
  rewrite Hs. unfold push_savepoint. simpl. rewrite <-app_assoc. simpl.
  by rewrite list_lookup_middle.
Qed.

Lemma inside_rollback ws name cur pos target :
  ws_inv cur -> inside ws name cur ->
  (length (savepoints ws) <= pos)%nat -> savepoints cur !! pos = Some target ->
  inside ws name
    (truncate_mutations
       (set_savepoints cur (take (S pos) (savepoint_marks cur)) (take (S pos) (savepoints cur)))
       (sp_mutation_count target) (sp_next_order target)).
Proof.
  intros Hinv Hin Hpos Ht. apply inside_truncate.
  - apply inside_take_savepoints; [done|]. unfold push_savepoint. simpl.
    rewrite length_app. simpl. lia.
  - by eapply inner_target_count.
Qed.

Lemma inside_step ws name cur op :
  ws_inv cur -> inside ws name cur -> inner_op (savepoints ws) name op ->
  inside ws name (ws_step cur op).
Proof.
  intros Hinv Hin Hop. destruct op as [m|n|n|n]; simpl in Hop; unfold ws_step.
  - destruct Hin as [Htx [e He] Hs]. split; [done| |done]. simpl. rewrite He.
    eexists. by rewrite <-app_assoc.
  - destruct Hin as [Htx Hp [inner [Hs Hi]]]. split; [done|done|].
    exists (inner ++ [mkSavepoint (normalize n) (length (ordered_mutations cur))
                        (next_mutation_order cur)]).
    split; [unfold push_savepoint at 1; simpl; by rewrite Hs, <-app_assoc|].
    apply Forall_app. split; [done|]. by constructor.
  - destruct Hop as [Hn Ho]. unfold release_savepoint.
    destruct (find_savepoint cur n) as [pos|] eqn:Hf; simpl; [|done].
    apply inside_take_savepoints; [done|]. destruct Hin as [_ _ [inner [Hs _]]].
    by eapply find_inner.
  - unfold rollback_to_savepoint.
    destruct (find_savepoint cur n) as [pos|] eqn:Hf; simpl; [|done].
    destruct (savepoints cur !! pos) as [target|] eqn:Ht; simpl; [|done].
    apply inside_rollback; [done|done| |done].
    destruct (decide (normalize n = normalize name)) as [E|E].
    + pose proof (find_inside _ _ _ Hin) as Hf'. unfold find_savepoint in Hf, Hf'.
      rewrite E in Hf. rewrite Hf in Hf'. injection Hf' as ->. lia.
    + destruct Hin as [_ _ [inner [Hs _]]].
      pose proof (find_inner ws name cur n pos inner Hs E Hop Hf) as H.
      unfold push_savepoint in H. simpl in H. rewrite length_app in H. lia.
Qed.

Lemma inside_run ws name cur ops :
  ws_inv cur -> inside ws name cur -> Forall (inner_op (savepoints ws) name) ops ->
  inside ws name (ws_run cur ops).
Proof.
  unfold ws_run. revert cur. induction ops as [|op ops IH]; intros cur Hinv Hin; [done|].
  intros [Hop Hops]%Forall_cons. simpl.
  apply IH; [by apply ws_step_inv|by apply inside_step|done].
Qed.

Lemma rollback_inside ws name cur :
  ws_inv ws -> ws_inv cur -> inside ws name cur ->
  rollback_to_savepoint cur name =
  (push_savepoint ws name, Some (length (ordered_mutations ws), buffer_bytes ws)).
Proof.
  intros Hws Hcur Hin. unfold rollback_to_savepoint.
  rewrite (find_inside _ _ _ Hin).
  destruct Hin as [Htx [e He] [inner [Hs _]]].
  set (sp := mkSavepoint (normalize name) (length (ordered_mutations ws))
               (next_mutation_order ws)).
  assert (savepoints cur = savepoints ws ++ sp :: inner) as Hs'.
  { rewrite Hs. unfold push_savepoint. simpl. by rewrite <-app_assoc. }
  assert (take (S (length (savepoints ws))) (savepoints cur) = savepoints ws ++ [sp]) as Htk.
  { rewrite Hs', take_app. rewrite take_ge by lia.
    by replace (S (length (savepoints ws)) - length (savepoints ws))%nat with 1%nat by lia. }
  assert (savepoints cur !! length (savepoints ws) = Some sp) as ->.
  { by rewrite Hs', list_lookup_middle. }
  assert (truncate_mutations
    (set_savepoints cur (take (S (length (savepoints ws))) (savepoint_marks cur))
       (take (S (length (savepoints ws))) (savepoints cur)))
    (sp_mutation_count sp) (sp_next_order sp) = push_savepoint ws name) as ->.
  { rewrite <-(inv_derived (push_savepoint ws name)) by by apply push_savepoint_inv.
    apply truncate_ext; simpl.
    - done.
    - rewrite He, take_app_length. by rewrite firstn_all.
    - rewrite (inv_marks cur Hcur), <-fmap_take, Htk, fmap_app, (inv_marks ws Hws). done.
    - done. }
  done.
Qed.

(** ** The derived structures as functions of the mutation list *)

(** The mutation is of table [t] and staged under the scope and key [k]. *)
Definition staged_at (t : TableId) (k : ScopedPkKey) (m : StagedMutation) : bool :=
  bool_decide (sm_table_id m = t /\ scoped_table_key m = k).

Definition index_at (idx : gmap TableId (gmap ScopedPkKey nat)) (t : TableId)
    (k : ScopedPkKey) : option nat :=
  keys ← idx !! t; (keys : gmap ScopedPkKey nat) !! k.

Lemma index_at_index_mutation idx m i t k :
  index_at (index_mutation idx m i) t k =
  if staged_at t k m then Some i else index_at idx t k.
Proof.
  unfold index_at, index_mutation, staged_at. rewrite lookup_insert.
  destruct (decide (sm_table_id m = t)) as [<-|Ht]; simpl.
  - rewrite lookup_insert. destruct (decide (scoped_table_key m = k)) as [<-|Hk].
    + by rewrite bool_decide_true.
    + rewrite bool_decide_false by naive_solver.
      destruct (idx !! sm_table_id m); simpl; [done|]. by rewrite lookup_empty.
  - by rewrite bool_decide_false by naive_solver.
Qed.

Lemma index_at_rebuild ws i ms t k :
  index_at (latest_by_table_key (rebuild_from ws i ms)) t k =
  match rposition (staged_at t k) ms with
  | Some j => Some (i + j)%nat
  | None => index_at (latest_by_table_key ws) t k
  end.
Proof.
  revert ws i. induction ms as [|m ms IH]; intros ws i; simpl; [done|].
  rewrite IH. simpl. rewrite index_at_index_mutation.
  destruct (rposition (staged_at t k) ms) as [j|]; [f_equal; lia|].
  destruct (staged_at t k m); [|done]. f_equal. lia.
Qed.

Lemma cache_rebuild ws i ms t :
  overlay_cache (rebuild_from ws i ms) !! t =
  match filter (fun m => sm_table_id m = t) ms with
  | [] => overlay_cache ws !! t
  | own => Some (foldl apply_entry
                   (default (overlay_new (ws_transaction_id ws)) (overlay_cache ws !! t))
                   (overlay_entry <$> own))
  end.
Proof.
  revert ws i. induction ms as [|m ms IH]; intros ws i; simpl; [done|].
  rewrite IH. simpl. rewrite filter_cons. unfold cache_mutation. rewrite lookup_insert.
  destruct (decide (sm_table_id m = t)) as [<-|Ht]; [|done].
  by destruct (filter _ ms).
Qed.

(** The reference for [latest_mutation_for_scope]: scan the list for the last match. *)
Definition last_staged (ms : list StagedMutation) (t : TableId) (k : ScopedPkKey) :
    option StagedMutation :=
  last (filter (fun m => staged_at t k m = true) ms).

Lemma last_filter_rposition {A} (p : A -> bool) l :
  last (filter (fun x => p x = true) l) = (rposition p l ≫= fun i => l !! i).
Proof.
  induction l as [|x l IH] using rev_ind; [done|].
  rewrite filter_app, rposition_app_r. destruct (p x) eqn:E.
  - rewrite filter_cons_True, filter_nil, last_snoc by done. simpl. rewrite E. simpl.
    by rewrite Nat.add_0_r, list_lookup_middle.
  - rewrite filter_cons_False, filter_nil, app_nil_r, IH by congruence. simpl. rewrite E.
    destruct (rposition p l) as [i|] eqn:R; simpl; [|done].
    apply rposition_Some in R as [[y [Hy _]] _]. symmetry.
    by rewrite lookup_app_l by by eapply lookup_lt_Some.
Qed.

Lemma latest_mutation_last ws t user pk :
  ws_inv ws ->
  latest_mutation_for_scope ws t user pk =
  last_staged (ordered_mutations ws) t (mkScopedPkKey user pk).
Proof.
  intros Hws. unfold last_staged. rewrite last_filter_rposition.
  transitivity (index_at (latest_by_table_key ws) t (mkScopedPkKey user pk)
                  ≫= fun i => ordered_mutations ws !! i).
  { unfold latest_mutation_for_scope, index_at.
    by destruct (latest_by_table_key ws !! t). }
  f_equal. rewrite <-(inv_derived ws Hws) at 1. unfold truncate_mutations.
  rewrite firstn_all, index_at_rebuild. simpl.
  destruct (rposition _ _); [done|]. unfold index_at. by rewrite lookup_empty.
Qed.

Lemma overlay_cache_spec ws t :
  ws_inv ws ->
  overlay_for_table ws t =
  match filter (fun m => sm_table_id m = t) (ordered_mutations ws) with
  | [] => None
  | own => Some (foldl apply_entry (overlay_new (ws_transaction_id ws)) (overlay_entry <$> own))
  end.
Proof.
  intros Hws. unfold overlay_for_table. rewrite <-(inv_derived ws Hws) at 1.
  unfold truncate_mutations. rewrite firstn_all, cache_rebuild. simpl. by rewrite lookup_empty.
Qed.

Lemma fold_key_own_table t k cur ms :
  fold_key t k cur (overlay_entry <$> filter (fun m => sm_table_id m = t) ms) =
  fold_key t k cur (overlay_entry <$> ms).
Proof.
  revert cur. induction ms as [|m ms IH]; intros cur; simpl; [done|].
  rewrite filter_cons. destruct (decide (sm_table_id m = t)) as [Ht|Ht]; simpl; [apply IH|].
  rewrite IH. rewrite decide_False; [done|]. by intros [? _].
Qed.

Lemma cached_overlay_wf ws t ov : ws_inv ws -> overlay_for_table ws t = Some ov -> overlay_wf ov.
Proof.
  intros Hws. rewrite overlay_cache_spec by done.
  destruct (filter _ _); [done|]. intros [= <-]. apply foldl_apply_wf, apply_entry_wf, overlay_new_wf.
Qed.

Lemma entry_at_new tx t k : entry_at (overlay_new (Value:=Value) tx) t k = None.
Proof. unfold entry_at. simpl. by rewrite lookup_empty. Qed.

Lemma entry_at_cached ws t' ov t k :
  ws_inv ws -> overlay_for_table ws t' = Some ov ->
  entry_at ov t k =
  if decide (t = t') then fold_key t k None (overlay_entry <$> ordered_mutations ws) else None.
Proof.
  intros Hws. rewrite overlay_cache_spec by done.
  destruct (filter (fun m => sm_table_id m = t') _) as [|m own] eqn:E; [done|].
  rewrite <-E. intros [= <-]. rewrite entry_at_foldl, entry_at_new.
  destruct (decide (t = t')) as [->|Ht]; [by rewrite fold_key_own_table|].
  apply fold_key_none. intros e [m' [-> Hm]]%list_elem_of_fmap Hp.
  apply list_elem_of_filter in Hm as [Hm _]. apply Ht. unfold place in Hp. simpl in Hp.
  congruence.
Qed.

Lemma entry_at_merged_list ws t k l ov :
  ws_inv ws -> NoDup l.*1 ->
  (forall t' o, (t', o) ∈ l -> overlay_for_table ws t' = Some o) ->
  entry_at (foldl merge_from ov l.*2) t k =
  match (if decide (t ∈ l.*1)
         then fold_key t k None (overlay_entry <$> ordered_mutations ws) else None) with
  | Some e => Some (merge_entry (entry_at ov t k) e)
  | None => entry_at ov t k
  end.
Proof.
  intros Hws. revert ov. induction l as [|[t' o] l IH]; intros ov; simpl.
  { intros _ _. by destruct (decide (t ∈ [])) as [?%elem_of_nil|]. }
  intros [Hni Hnd]%NoDup_cons Hl. rewrite IH by (try done; set_solver).
  assert (overlay_for_table ws t' = Some o) as Ho by set_solver.
  rewrite entry_at_merge_from by by eapply cached_overlay_wf.
  rewrite (entry_at_cached ws t' o) by done.
  destruct (decide (t = t')) as [->|Ht].
  - rewrite decide_False by done. rewrite decide_True by set_solver.
    by destruct (fold_key _ _ _ _).
  - destruct (decide (t ∈ l.*1)).
    + by rewrite decide_True by set_solver.
    + by rewrite decide_False by set_solver.
Qed.

Lemma entry_at_merged ws t k :
  ws_inv ws ->
  entry_at (merged_overlay ws) t k =
  fold_key t k None (overlay_entry <$> ordered_mutations ws).
Proof.
  intros Hws. unfold merged_overlay.
  rewrite (entry_at_merged_list ws); [|done|apply NoDup_fst_map_to_list|
    intros t' o H; by apply elem_of_map_to_list in H].
  rewrite entry_at_new. destruct (decide _) as [Hin|Hnin].
  - destruct (fold_key _ _ _ _); [|done]. by rewrite merge_entry_None.
  - pose proof (overlay_cache_spec ws t Hws) as H. unfold overlay_for_table in H.
    assert (overlay_cache ws !! t = None) as Hn.
    { destruct (overlay_cache ws !! t) as [o|] eqn:E; [|done]. exfalso. apply Hnin.
      apply list_elem_of_fmap. exists (t, o). split; [done|]. by apply elem_of_map_to_list. }
    rewrite Hn in H. rewrite <-fold_key_own_table.
    by destruct (filter _ _).
Qed.

(** Orders of the staged list, with no wrap while it has fewer than [2^64] elements. *)
Lemma orders_small ws i m :
  ws_inv ws -> Z.of_nat (length (ordered_mutations ws)) <= u64_max ->
  ordered_mutations ws !! i = Some m -> sm_mutation_order m = Z.of_nat i.
Proof.
  intros Hws Hlen Hi. rewrite (inv_orders ws Hws i m Hi). apply wrap64_small.
  apply lookup_lt_Some in Hi. unfold u64_max, u64_modulus in *. lia.
Qed.

Lemma build_insert_spec pk_text tx t tt user pk_column rows :
  match build_insert_staged_mutations pk_text tx t tt user pk_column rows with
  | Ok ms =>
      Forall2 (fun row m => exists pk, row !! pk_column = Some pk /\
                 m = mutation_new tx t tt user Insert (pk_text pk) row false) rows ms
  | Err e =>
      e = MissingPrimaryKey pk_column /\ exists row, row ∈ rows /\ row !! pk_column = None
  end.
Proof.
  induction rows as [|row rows IH]; simpl; [constructor|].
  destruct (row !! pk_column) as [pk|] eqn:E; [|split; [done|]; exists row; set_solver].
  destruct (build_insert_staged_mutations _ _ _ _ _ _ rows) as [ms|e].
  - constructor; [eauto|done].
  - destruct IH as [-> [r [Hr Hn]]]. split; [done|]. exists r. set_solver.
Qed.

(** ** Buffered bytes *)

Definition total_size (ms : list StagedMutation) : Z :=
  foldr (fun m acc => approximate_size_bytes m + acc) 0 ms.

Lemma approximate_size_nonneg m : 0 <= approximate_size_bytes m.
Proof. unfold approximate_size_bytes. apply wrap64_range. Qed.

Lemma total_size_nonneg ms : 0 <= total_size ms.
Proof.
  induction ms as [|m ms IH]; simpl; [lia|]. pose proof (approximate_size_nonneg m). lia.
Qed.

Lemma total_size_app ms1 ms2 : total_size (ms1 ++ ms2) = total_size ms1 + total_size ms2.
Proof. induction ms1 as [|m ms1 IH]; simpl; [done|]. lia. Qed.

Lemma total_size_take n ms : total_size (take n ms) <= total_size ms.
Proof.
  rewrite <-(take_drop n ms) at 2. rewrite total_size_app.
  pose proof (total_size_nonneg (drop n ms)). lia.
Qed.

Lemma rebuild_buffer ws i ms :
  buffer_bytes (rebuild_from ws i ms) =
  if decide (ms = []) then buffer_bytes ws else wrap64 (buffer_bytes ws + total_size ms).
Proof.
  revert ws i. induction ms as [|m ms IH]; intros ws i; simpl; [done|].
  rewrite IH. simpl. unfold u64_add, wrap64. destruct (decide (ms = [])) as [->|].
  - simpl. f_equal. lia.
  - rewrite Zplus_mod_idemp_l. f_equal. lia.
Qed.

(** The byte count is the sum of the mutations' sizes, while that sum fits a [usize]. *)
Lemma buffer_total ws :
  ws_inv ws -> total_size (ordered_mutations ws) <= u64_max ->
  buffer_bytes ws = total_size (ordered_mutations ws).
Proof.
  intros Hws Hmax. rewrite <-(inv_derived ws Hws) at 1. unfold truncate_mutations.
  rewrite firstn_all, rebuild_buffer. simpl.
  destruct (decide _) as [E|_]; [by rewrite E|]. apply wrap64_small.
  pose proof (total_size_nonneg (ordered_mutations ws)). unfold u64_max, u64_modulus in *. lia.
Qed.

(** ** Properties *)

(** C34. Over every sequence of stage, savepoint, release and rollback operations, the write set
    stays consistent: the key index, the per-table overlays and the byte count are what a
    rebuild from the ordered list gives, each mutation's order is its position, savepoint marks
    mirror the savepoints, and savepoints are nested prefixes of the list. *)
Theorem write_set_invariant tx ops : ws_inv (ws_run (write_set_new tx) ops).
Proof. apply ws_run_inv, write_set_new_inv. Qed.

(** C25. Rolling back to a savepoint restores the write set exactly as it was when the savepoint
    was pushed (list, next order, index, overlays, byte count, savepoint stack with the
    savepoint itself kept), whatever was staged, pushed, released or rolled back since, as long
    as nothing released or rolled back an outer savepoint or reused the name; it reports the
    restored row and byte counts. *)
Theorem rollback_to_savepoint_restores tx before name ops :
  let ws := ws_run (write_set_new tx) before in
  Forall (inner_op (savepoints ws) name) ops ->
  rollback_to_savepoint (ws_run (push_savepoint ws name) ops) name =
  (push_savepoint ws name, Some (affected_rows ws, buffer_bytes ws)).
Proof.
  intros ws Hops. assert (ws_inv ws) as Hws by apply ws_run_inv, write_set_new_inv.
  pose proof (push_savepoint_inv ws name Hws) as Hp.
  apply rollback_inside; [done|by apply ws_run_inv|].
  apply inside_run; [done|apply push_inside|done].
Qed.

(** The indexed lookup of the latest mutation of a key returns what a scan of the ordered
    list from the end finds, in every reachable write set (also after rollbacks). *)
Theorem latest_mutation_is_last_staged tx ops t user pk :
  let ws := ws_run (write_set_new tx) ops in
  latest_mutation_for_scope ws t user pk =
  last_staged (ordered_mutations ws) t (mkScopedPkKey user pk).
Proof. intros ws. apply latest_mutation_last, ws_run_inv, write_set_new_inv. Qed.

(** [build_insert_staged_mutations] either fails because some row lacks the primary-key
    column, or yields one insert per row, in order, keyed by the text of the row's key. *)
Theorem build_insert_one_per_row pk_text tx t tt user pk_column rows ms :
  build_insert_staged_mutations pk_text tx t tt user pk_column rows = Ok ms <->
  Forall2 (fun row m => exists pk, row !! pk_column = Some pk /\
             m = mutation_new tx t tt user Insert (pk_text pk) row false) rows ms.
Proof.
  pose proof (build_insert_spec pk_text tx t tt user pk_column rows) as H.
  split; [by intros E; rewrite E in H|].
  intros Hms. destruct (build_insert_staged_mutations _ _ _ _ _ _ rows) as [ms'|e].
  - f_equal. revert ms' H. induction Hms as [|row m rows ms [pk [Hpk ->]] Hms IH]; intros ms' H;
      inversion H as [|?? ms2 ? [pk' [Hpk' ->]] ?]; subst; [done|].
    rewrite Hpk in Hpk'. injection Hpk' as <-. f_equal. by apply IH.
  - destruct H as [-> [row [Hin Hn]]]. apply list_elem_of_lookup in Hin as [i Hi].
    destruct (Forall2_lookup_l _ _ _ _ _ Hms Hi) as [m [_ [pk [Hpk _]]]]. congruence.
Qed.

End WriteSet.

Arguments StagedMutation : clear implicits.
Arguments TransactionWriteSet : clear implicits.
Arguments WriteSetOp : clear implicits.

(** ** Witnesses *)

Definition w_mutation (kind : OperationKind) (pk : string) (payload : gmap string Z) :
    StagedMutation Z :=
  mutation_new "tx" w_table Shared None kind pk payload false.

Definition w_before : list (WriteSetOp Z) :=
  [OpStage (w_mutation Insert "1" {[ "id" := 1 ]}); OpPush "outer"].
Definition w_inner : list (WriteSetOp Z) :=
  [OpStage (w_mutation Delete "1" ∅); OpPush "inner"; OpRelease "inner"; OpRollback " SP";
   OpStage (w_mutation Insert "2" ∅)].

Lemma rollback_to_savepoint_restores_witness :
  let ws := ws_run (fun _ => 16) (write_set_new "tx") w_before in
  rollback_to_savepoint (fun _ => 16) (ws_run (fun _ => 16) (push_savepoint ws "sp") w_inner)
    "sp" = (push_savepoint ws "sp", Some (1%nat, 36)).
Proof.
  intros ws. etransitivity.
  - apply (rollback_to_savepoint_restores (fun _ => 16) "tx" w_before "sp" w_inner).
    repeat constructor; vm_compute; intros H; try discriminate;
      repeat (apply elem_of_cons in H as [H|H]; [discriminate|]); by apply elem_of_nil in H.
  - reflexivity.
Defined.
