(* ===== verification/Claims.v ===== *)
(** * Claims: process-local primary-key claims of transactions

    Model of kalamdb-transactions/src/pk_claims.rs as a concurrent machine.  The shared state is
    the mutex-protected map of claims; every claim owns a [Notify], here a number drawn from a
    counter ([Arc::new(Notify::new())] is a fresh object).  A caller of [acquire] is a task whose
    phases are the points where another task can run: the locked section at the loop head, the
    gap between leaving it and [enable], the re-check, and the wait.  One event of the machine is
    one atomic section.  [Notify::notify_waiters] wakes the tasks that are registered with that
    [Notify] at the time of the call and leaves no permit behind. *)

From Stdlib Require Import ZArith Lia.
From stdpp Require Import base countable strings gmap fin_maps list.
From S2P Require Import Prelude Commons.

Record ClaimKey := mkClaimKey { ck_table_id : TableId; ck_primary_key : string }.

#[export] Instance ClaimKey_eq_dec : EqDecision ClaimKey.
Proof. solve_decision. Defined.

#[export] Instance ClaimKey_countable : Countable ClaimKey.
Proof.
  refine (inj_countable' (fun k => (ck_table_id k, ck_primary_key k))
            (fun p => mkClaimKey p.1 p.2) _).
  by intros [].
Defined.

Record Claim := mkClaim { claim_owner : TransactionId; claim_notify : nat }.

(** Where a task that called [acquire] is. *)
Inductive AcquirePhase :=
| LoopHead                          (* about to lock the map *)
| HasNotify (n : nat)               (* left the lock with a clone of the claim's [Notify] *)
| Registered (n : nat) (woken : bool) (* [enable]d, about to re-check *)
| Waiting (n : nat) (woken : bool)  (* in [notified.await] *)
| Returned.

Record AcquireTask := mkTask {
  task_key : ClaimKey;
  task_owner : TransactionId;
  task_phase : AcquirePhase
}.

Record ClaimsState := mkClaims {
  claims : gmap ClaimKey Claim;
  next_notify : nat;
  tasks : list AcquireTask
}.

Definition claims_default : ClaimsState := mkClaims ∅ 0 [].

Definition set_phase (t : AcquireTask) (p : AcquirePhase) : AcquireTask :=
  mkTask (task_key t) (task_owner t) p.

(** [claim.notify.notify_waiters()]. *)
Definition notify_task (n : nat) (t : AcquireTask) : AcquireTask :=
  match task_phase t with
  | Registered m w => if decide (m = n) then set_phase t (Registered m true) else t
  | Waiting m w => if decide (m = n) then set_phase t (Waiting m true) else t
  | _ => t
  end.

(** The locked section at the loop head of [acquire]. *)
Definition acquire_locked (s : ClaimsState) (i : nat) (t : AcquireTask) : ClaimsState :=
  match claims s !! task_key t with
  | Some c =>
      if decide (claim_owner c = task_owner t)
      then mkClaims (claims s) (next_notify s) (<[ i := set_phase t Returned ]> (tasks s))
      else mkClaims (claims s) (next_notify s)
             (<[ i := set_phase t (HasNotify (claim_notify c)) ]> (tasks s))
  | None =>
      mkClaims (<[ task_key t := mkClaim (task_owner t) (next_notify s) ]> (claims s))
        (S (next_notify s)) (<[ i := set_phase t Returned ]> (tasks s))
  end.

(** The re-check after [enable]: [claims.get(&key).is_some_and(|c| c.owner != owner)]. *)
Definition still_blocked (s : ClaimsState) (t : AcquireTask) : bool :=
  match claims s !! task_key t with
  | Some c => negb (bool_decide (claim_owner c = task_owner t))
  | None => false
  end.

(** One atomic section of the task at index [i]; [None] when it cannot run. *)
Definition acquire_step (s : ClaimsState) (i : nat) : option ClaimsState :=
  t ← tasks s !! i;
  let put p := Some (mkClaims (claims s) (next_notify s) (<[ i := set_phase t p ]> (tasks s))) in
  match task_phase t with
  | LoopHead => Some (acquire_locked s i t)
  | HasNotify n => put (Registered n false)
  | Registered n w => put (if still_blocked s t then Waiting n w else LoopHead)
  | Waiting n w => if w then put LoopHead else None
  | Returned => None
  end.

Definition release_key (s : ClaimsState) (k : ClaimKey) (owner : TransactionId) : ClaimsState :=
  match claims s !! k with
  | Some c =>
      if decide (claim_owner c = owner)
      then mkClaims (delete k (claims s)) (next_notify s)
             (notify_task (claim_notify c) <$> tasks s)
      else s
  | None => s
  end.

(** [release_owner]: [retain] visits every claim, notifying those it drops. *)
Definition release_owner (s : ClaimsState) (owner : TransactionId) : ClaimsState :=
  mkClaims (filter (fun kc : ClaimKey * Claim => claim_owner kc.2 ≠ owner) (claims s))
    (next_notify s)
    (foldr (fun kc ts => notify_task (claim_notify (kc : ClaimKey * Claim).2) <$> ts) (tasks s)
       (map_to_list (filter (fun kc : ClaimKey * Claim => claim_owner kc.2 = owner) (claims s)))).

Inductive ClaimEvent :=
| EvCall (k : ClaimKey) (owner : TransactionId) (* a task calls [acquire] *)
| EvStep (i : nat)
| EvReleaseKey (k : ClaimKey) (owner : TransactionId)
| EvReleaseOwner (owner : TransactionId).

Definition claim_step (s : ClaimsState) (e : ClaimEvent) : option ClaimsState :=
  match e with
  | EvCall k o => Some (mkClaims (claims s) (next_notify s) (tasks s ++ [mkTask k o LoopHead]))
  | EvStep i => acquire_step s i
  | EvReleaseKey k o => Some (release_key s k o)
  | EvReleaseOwner o => Some (release_owner s o)
  end.

Fixpoint claim_run (s : ClaimsState) (es : list ClaimEvent) : option ClaimsState :=
  match es with
  | [] => Some s
  | e :: rest => s' ← claim_step s e; claim_run s' rest
  end.

(** ** Lemmas *)

(** Events that release [k] on behalf of [o]. *)
Definition releases (k : ClaimKey) (o : TransactionId) (e : ClaimEvent) : Prop :=
  match e with
  | EvReleaseKey k' o' => k' = k /\ o' = o
  | EvReleaseOwner o' => o' = o
  | _ => False
  end.

Lemma claim_step_keeps s e s' k c :
  claim_step s e = Some s' -> claims s !! k = Some c -> ~ releases k (claim_owner c) e ->
  claims s' !! k = Some c.
Proof.
  intros Hs Hk Hrel. destruct e as [k' o|i|k' o|o]; simpl in *.
  - by simplify_eq/=.
  - unfold acquire_step in Hs. destruct (tasks s !! i) as [t|]; [|done]. simpl in Hs.
    destruct (task_phase t); simplify_eq/=; [|done|done|by case_match; simplify_eq/=].
    unfold acquire_locked. destruct (claims s !! task_key t) as [c'|] eqn:E.
    + by case_decide.
    + simpl. rewrite lookup_insert_ne; [done|]. congruence.
  - simplify_eq/=. unfold release_key. destruct (claims s !! k') as [c'|] eqn:E; [|done].
    case_decide; [|done]. simpl. rewrite lookup_delete_ne; [done|]. intros ->. simplify_eq.
    naive_solver.
  - simplify_eq/=. apply map_lookup_filter_Some. split; [done|]. simpl. naive_solver.
Qed.

Lemma claim_run_keeps s es s' k c :
  claim_run s es = Some s' -> claims s !! k = Some c ->
  Forall (fun e => ~ releases k (claim_owner c) e) es -> claims s' !! k = Some c.
Proof.
  revert s. induction es as [|e es IH]; intros s; simpl.
  - by intros [= <-] Hk _.
  - destruct (claim_step s e) as [s1|] eqn:E; [|done]. simpl.
    intros Hr Hk [He Hes]%Forall_cons. eapply IH; [done| |done].
    by eapply claim_step_keeps.
Qed.

(** The [acquire] call at index [i] returns exactly in the locked section that finds or makes
    its owner the holder. *)
Lemma returned_holds s i s' t :
  acquire_step s i = Some s' -> tasks s' !! i = Some t -> task_phase t = Returned ->
  exists n, claims s' !! task_key t = Some (mkClaim (task_owner t) n).
Proof.
  unfold acquire_step. destruct (tasks s !! i) as [t0|] eqn:Hi; [|done]. simpl.
  assert (forall p, (<[ i := set_phase t0 p ]> (tasks s)) !! i = Some (set_phase t0 p)) as Hins.
  { intros p. apply list_lookup_insert_eq. by eapply lookup_lt_Some. }
  destruct (task_phase t0) as [|n|n w|n w|] eqn:Hp; intros Hs Ht Hret; simplify_eq/=;
    try (rewrite Hins in Ht; simplify_eq/=; by destruct (still_blocked s t0)).
  - unfold acquire_locked in *. destruct (claims s !! task_key t0) as [c|] eqn:Hc.
    + case_decide as Ho; simpl in *; rewrite Hins in Ht; simplify_eq/=.
      exists (claim_notify c). rewrite Hc. destruct c; simpl in *. by subst.
    + simpl in *. rewrite Hins in Ht. simplify_eq/=. exists (next_notify s).
      by rewrite lookup_insert_eq.
  - destruct w; simplify_eq/=. rewrite Hins in Ht. by simplify_eq/=.
Qed.

(** No claim holds the [Notify] [n] and none will: new claims draw fresh numbers. *)
Definition orphaned (n : nat) (s : ClaimsState) : Prop :=
  (n < next_notify s)%nat /\ forall k c, claims s !! k = Some c -> claim_notify c ≠ n.

Lemma notify_task_other n m t k o w :
  n ≠ m -> t = mkTask k o (Waiting m w) -> notify_task n t = t.
Proof. intros Hn ->. unfold notify_task. simpl. by rewrite decide_False by done. Qed.

Lemma orphaned_step n s e s' :
  orphaned n s -> claim_step s e = Some s' -> orphaned n s'.
Proof.
  intros [Hlt Hno] Hs. destruct e as [k o|i|k o|o]; simpl in Hs; simplify_eq/=; [done| | |].
  - unfold acquire_step in Hs. destruct (tasks s !! i) as [t|]; [|done]. simpl in Hs.
    destruct (task_phase t); simplify_eq/=; [|done|done|by case_match; simplify_eq/=].
    unfold acquire_locked. destruct (claims s !! task_key t) as [c'|] eqn:E.
    + by case_decide.
    + split; simpl; [lia|]. intros k c [[_ <-]|[_ Hk]]%lookup_insert_Some; simpl; [lia|].
      by eapply Hno.
  - unfold release_key. destruct (claims s !! k) as [c'|] eqn:E; [|done].
    case_decide; [|done]. split; simpl; [done|]. intros k' c [_ Hk]%lookup_delete_Some.
    by eapply Hno.
  - split; simpl; [done|]. intros k c [Hk _]%map_lookup_filter_Some. by eapply Hno.
Qed.

Lemma foldr_notify_waiting (i : nat) n t k o w l (ts : list AcquireTask) :
  t = mkTask k o (Waiting n w) -> ts !! i = Some t ->
  (forall kc, kc ∈ l -> claim_notify (kc : ClaimKey * Claim).2 ≠ n) ->
  foldr (fun kc ts => notify_task (claim_notify (kc : ClaimKey * Claim).2) <$> ts) ts l !! i =
  Some t.
Proof.
  intros Ht Hi. induction l as [|kc l IH]; intros Hl; simpl; [done|].
  rewrite list_lookup_fmap, IH by set_solver. simpl. f_equal.
  eapply notify_task_other; [|done]. apply Hl. set_solver.
Qed.

(** A task waiting on an orphaned [Notify] is never woken. *)
Lemma orphaned_waits n i t k o s e s' :
  orphaned n s -> t = mkTask k o (Waiting n false) -> tasks s !! i = Some t ->
  claim_step s e = Some s' -> tasks s' !! i = Some t.
Proof.
  intros [Hlt Hno] Ht Hi Hs.
  destruct e as [k' o'|j|k' o'|o']; simpl in Hs; simplify_eq/=.
  - rewrite lookup_app_l; [done|]. by eapply lookup_lt_Some.
  - unfold acquire_step in Hs. destruct (decide (j = i)) as [->|Hj].
    { rewrite Hi in Hs. by simpl in Hs. }
    destruct (tasks s !! j) as [t'|] eqn:Hj'; [|done]. simpl in Hs.
    assert (forall p, (<[ j := set_phase t' p ]> (tasks s)) !! i =
                      Some (mkTask k o (Waiting n false))) as Hput.
    { intros p. by rewrite list_lookup_insert_ne. }
    destruct (task_phase t'); simplify_eq/=; try apply Hput.
    + unfold acquire_locked. repeat case_match; simpl; apply Hput.
    + case_match; simplify_eq/=. apply Hput.
  - unfold release_key. destruct (claims s !! k') as [c|] eqn:E; [|done].
    case_decide; [|done]. simpl. rewrite list_lookup_fmap, Hi. simpl. f_equal.
    eapply notify_task_other; [|done]. by eapply Hno.
  - eapply foldr_notify_waiting; [done|done|].
    intros [k' c] [Hk _]%elem_of_map_to_list%map_lookup_filter_Some. by eapply Hno.
Qed.

Lemma orphaned_waits_run n i t k o s es s' :
  orphaned n s -> t = mkTask k o (Waiting n false) -> tasks s !! i = Some t ->
  claim_run s es = Some s' -> tasks s' !! i = Some t.
Proof.
  revert s. induction es as [|e es IH]; intros s Hor Ht Hi; simpl; [by intros [= <-]|].
  destruct (claim_step s e) as [s1|] eqn:E; [|done]. simpl.
  apply IH; [by eapply orphaned_step|done|by eapply orphaned_waits].
Qed.

(** ** Properties *)

(** C26. Claims are exclusive: when an [acquire] call returns, its transaction holds the key, and
    the key stays with that transaction over any further events of any tasks until the
    transaction itself releases the key or ends. *)
Theorem acquire_exclusive s i s1 t es s2 :
  acquire_step s i = Some s1 -> tasks s1 !! i = Some t -> task_phase t = Returned ->
  claim_run s1 es = Some s2 ->
  Forall (fun e => ~ releases (task_key t) (task_owner t) e) es ->
  exists n, claims s2 !! task_key t = Some (mkClaim (task_owner t) n).
Proof.
  intros Hs Ht Hret Hrun Hrel. destruct (returned_holds _ _ _ _ Hs Ht Hret) as [n Hn].
  exists n. by eapply claim_run_keeps.
Qed.

(** A waiter is served: when the transaction that holds a key ends, a task waiting on that
    claim's [Notify] is woken, and its next two sections make it the holder and return. *)
Theorem release_serves_waiter s k c i o w :
  claims s !! k = Some c -> tasks s !! i = Some (mkTask k o (Waiting (claim_notify c) w)) ->
  exists s1 s2,
    acquire_step (release_key s k (claim_owner c)) i = Some s1 /\
    acquire_step s1 i = Some s2 /\
    claims s2 !! k = Some (mkClaim o (next_notify s)) /\
    tasks s2 !! i = Some (mkTask k o Returned).
Proof.
  intros Hk Hi. unfold release_key. rewrite Hk, decide_True by done.
  set (s0 := mkClaims _ _ _).
  assert (tasks s0 !! i = Some (mkTask k o (Waiting (claim_notify c) true))) as H0.
  { simpl. rewrite list_lookup_fmap, Hi. simpl. unfold notify_task. simpl.
    by rewrite decide_True. }
  pose proof (lookup_lt_Some _ _ _ H0) as Hlt.
  eexists. eexists. split; [|split].
  - unfold acquire_step. rewrite H0. simpl. reflexivity.
  - unfold acquire_step. cbn [tasks]. rewrite list_lookup_insert_eq by done. simpl. reflexivity.
  - unfold acquire_locked. cbn [claims task_key set_phase]. rewrite lookup_delete_eq.
    cbn [claims tasks]. rewrite lookup_insert_eq.
    by rewrite list_lookup_insert_eq by by rewrite length_insert.
Qed.

Definition race_key : ClaimKey := mkClaimKey (mkTableId "app" "items") "1".

(** T1 takes the key; T2 finds it taken and leaves the lock with T1's [Notify]; T1 ends; T3 takes
    the key; T2 registers with T1's [Notify], re-checks and waits; T3 ends. *)
Definition race_events : list ClaimEvent :=
  [EvCall race_key "T1"; EvStep 0; EvCall race_key "T2"; EvStep 1; EvReleaseOwner "T1";
   EvCall race_key "T3"; EvStep 2; EvStep 1; EvStep 1; EvReleaseOwner "T3"].

(** A wake-up can be lost: the re-check of [acquire] compares owners, not [Notify] objects, so
    when the claim changes hands between leaving the lock and registering, the task waits on a
    [Notify] no claim holds.  In the state this reaches the key is free, and no continuation ever
    wakes the task. *)
Theorem acquire_lost_wakeup :
  exists s, claim_run claims_default race_events = Some s /\ claims s = ∅ /\
  forall es s', claim_run s es = Some s' ->
    tasks s' !! 1%nat = Some (mkTask race_key "T2" (Waiting 0 false)).
Proof.
  destruct (claim_run claims_default race_events) as [s|] eqn:E; [|vm_compute in E; discriminate].
  exists s. split; [done|].
  assert (claims s = ∅ /\ next_notify s = 2%nat /\
          tasks s !! 1%nat = Some (mkTask race_key "T2" (Waiting 0 false))) as (Hc & Hn & Ht).
  { vm_compute in E. injection E as <-. split_and!; reflexivity. }
  split; [done|]. intros es s' Hrun.
  eapply (orphaned_waits_run 0); [|done|exact Ht|exact Hrun].
  split; [lia|]. intros k c. rewrite Hc. by rewrite lookup_empty.
Qed.

(** ** Witnesses *)

Lemma acquire_exclusive_witness :
  exists s, claim_run claims_default
    [EvCall race_key "T1"; EvStep 0; EvCall race_key "T2"; EvStep 1; EvStep 1; EvStep 1;
     EvReleaseOwner "T2"] = Some s /\
  exists n, claims s !! race_key = Some (mkClaim "T1" n).
Proof.
  eexists. split; [reflexivity|].
  eapply (acquire_exclusive
           (mkClaims ∅ 0 [mkTask race_key "T1" LoopHead]) 0 _ (mkTask race_key "T1" Returned)
           [EvCall race_key "T2"; EvStep 1; EvStep 1; EvStep 1; EvReleaseOwner "T2"]).
  - reflexivity.
  - reflexivity.
  - reflexivity.
  - reflexivity.
  - repeat constructor; intros H; simpl in H; try done; by destruct H.
Defined.

Lemma release_serves_waiter_witness :
  exists s s1 s2, claims s !! race_key = Some (mkClaim "T1" 0) /\
    acquire_step (release_key s race_key "T1") 1 = Some s1 /\ acquire_step s1 1 = Some s2 /\
    claims s2 !! race_key = Some (mkClaim "T2" 1).
Proof.
  set (s := mkClaims {[ race_key := mkClaim "T1" 0 ]} 1
              [mkTask race_key "T1" Returned; mkTask race_key "T2" (Waiting 0 false)]).
  destruct (release_serves_waiter s race_key (mkClaim "T1" 0) 1 "T2" false)
    as (s1 & s2 & H1 & H2 & H3 & _).
  - reflexivity.
  - reflexivity.
  - exists s, s1, s2. by split_and!.
Defined.
