(* ===== verification/TxnState.v ===== *)
(** * TxnState: per-transaction and per-group state shared by the transaction engine

    Models of kalamdb-transactions: the commit-sequence tracker (commit_sequence.rs), the owner
    key and its parser (owner.rs), the Raft binding (binding.rs), the transaction handle
    (handle.rs) and the observability projection (metrics.rs). *)

From Stdlib Require Import ZArith Lia.
From stdpp Require Import base countable strings gmap fin_maps list.
From S2P Require Import Prelude Commons Sharding.

Open Scope Z_scope.

(** ** Commit sequence tracker *)

Definition SNAPSHOT_UNSET : Z := u64_max.

Record CommitSequenceTracker := mkTracker {
  frontiers : gmap GroupId Z;
  local_alloc : Z;
  durable_high_watermark : Z
}.

Definition tracker_new (watermark : Z) : CommitSequenceTracker := mkTracker ∅ watermark watermark.

Definition frontier (t : CommitSequenceTracker) (g : GroupId) : Z := default 0 (frontiers t !! g).

Definition current_committed (t : CommitSequenceTracker) : Z :=
  default (durable_high_watermark t) (list_max (map_to_list (frontiers t)).*2).

Definition observe_committed (t : CommitSequenceTracker) (g : GroupId) (log_index : Z) :
    CommitSequenceTracker :=
  if log_index =? 0 then t
  else
    let entry := default 0 (frontiers t !! g) in
    mkTracker (<[ g := if entry <? log_index then log_index else entry ]> (frontiers t))
      (local_alloc t) (durable_high_watermark t).

(** [pin_snapshot]: the new content of the cell and the returned index. *)
Definition pin_snapshot (t : CommitSequenceTracker) (g : GroupId) (cell : Z) : Z * Z :=
  let f := frontier t g in
  if cell =? SNAPSHOT_UNSET then (f, f) else (cell, cell).

Definition allocate_next (t : CommitSequenceTracker) : CommitSequenceTracker * Z :=
  (mkTracker (frontiers t) (u64_add (local_alloc t) 1) (durable_high_watermark t),
   u64_add (local_alloc t) 1).

(** ** Owner keys *)

Inductive ExecutionOwnerKey :=
| PgSession (backend_pid config_hash : Z)
| BackendSessionUuid (session_uuid : Z)
| SqlRequest (request_nonce : Z)
| InternalOwner (source_nonce : Z).

#[export] Instance ExecutionOwnerKey_eq_dec : EqDecision ExecutionOwnerKey.
Proof. solve_decision. Defined.

#[export] Instance ExecutionOwnerKey_countable : Countable ExecutionOwnerKey.
Proof.
  refine (inj_countable'
    (fun k => match k with
              | PgSession p h => (0, p, h) | BackendSessionUuid u => (1, u, 0)
              | SqlRequest n => (2, n, 0) | InternalOwner n => (3, n, 0) end)
    (fun t => let '(tag, a, b) := t in
              if decide (tag = 0) then PgSession a b
              else if decide (tag = 1) then BackendSessionUuid a
              else if decide (tag = 2) then SqlRequest a else InternalOwner a) _).
  by intros [].
Defined.

Inductive OwnerParseReason :=
| MissingBackendPid | BackendPidNotNumeric | ConfigHashNotHex | NotPgOrUuid.

Record TransactionOwnerParseError :=
  InvalidPgSessionId { err_session_id : string; err_reason : OwnerParseReason }.

Definition parse_u32_decimal (value : list Z) (session_id : string) :
    Result TransactionOwnerParseError Z :=
  match value with
  | [] => Err (InvalidPgSessionId session_id MissingBackendPid)
  | _ =>
      match parse_digits u32_max 0 value with
      | Some n => Ok n
      | None => Err (InvalidPgSessionId session_id BackendPidNotNumeric)
      end
  end.

Definition hex_digit (b : Z) : option Z :=
  if (48 <=? b) && (b <=? 57) then Some (b - 48)
  else if (97 <=? b) && (b <=? 102) then Some (b - 97 + 10)
  else if (65 <=? b) && (b <=? 70) then Some (b - 65 + 10)
  else None.

Fixpoint parse_hex_from (acc : Z) (value : list Z) : option Z :=
  match value with
  | [] => Some acc
  | b :: rest =>
      d ← hex_digit b;
      if acc * 16 <=? u64_max then
        if acc * 16 + d <=? u64_max then parse_hex_from (acc * 16 + d) rest else None
      else None
  end.

Definition parse_u64_hex (value : list Z) (session_id : string) :
    Result TransactionOwnerParseError Z :=
  match value with
  | [] => Ok 0
  | _ =>
      match parse_hex_from 0 value with
      | Some n => Ok n
      | None => Err (InvalidPgSessionId session_id ConfigHashNotHex)
      end
  end.

(** [from_pg_session_id]; [uuid_parse] stands for [Uuid::parse_str] of the uuid crate. *)
Definition from_pg_session_id (uuid_parse : string -> option Z) (session_id : string) :
    Result TransactionOwnerParseError ExecutionOwnerKey :=
  match strip_prefix (bytes_of_string "pg-") (bytes_of_string session_id) with
  | None =>
      match uuid_parse session_id with
      | Some u => Ok (BackendSessionUuid u)
      | None => Err (InvalidPgSessionId session_id NotPgOrUuid)
      end
  | Some rest =>
      match position (fun b => b =? 45) rest with
      | None =>
          result_bind (parse_u32_decimal rest session_id) (fun pid => Ok (PgSession pid 0))
      | Some i =>
          result_bind (parse_u32_decimal (take i rest) session_id) (fun pid =>
          result_bind (parse_u64_hex (drop (S i) rest) session_id) (fun h =>
          Ok (PgSession pid h)))
      end
  end.

(** [{:x}]: lowercase hexadecimal without padding; 16 digits hold every [u64]. *)
Definition hex_char (d : Z) : Z := if d <? 10 then 48 + d else 97 + (d - 10).

Fixpoint hex_digits (fuel : nat) (n : Z) : list Z :=
  match fuel with
  | O => []
  | S fuel' => if n <? 16 then [hex_char n] else hex_digits fuel' (n / 16) ++ [hex_char (n mod 16)]
  end.

(** The session id the pg extension sends: [format!("pg-{}-{:x}", backend_pid, config_hash)]. *)
Definition pg_session_id (backend_pid config_hash : Z) : string :=
  string_of_bytes (bytes_of_string "pg-" ++ decimal backend_pid ++ [45] ++
                   hex_digits 16 config_hash).

(** ** Raft binding and transaction handle *)

Inductive TransactionRaftBinding :=
| LocalSingleNode
| UnboundCluster
| BoundCluster (group_id : GroupId) (leader_node_id : NodeId).

#[export] Instance TransactionRaftBinding_eq_dec : EqDecision TransactionRaftBinding.
Proof. solve_decision. Defined.

Record TransactionHandle := mkHandle {
  h_transaction_id : TransactionId;
  h_owner_key : ExecutionOwnerKey;
  h_owner_id : string;
  h_origin : TransactionOrigin;
  h_state : TransactionState;
  h_raft_binding : TransactionRaftBinding;
  h_snapshot_log_index : Z;
  h_started_at : Instant;
  h_last_activity_at : Instant;
  h_write_count : nat;
  h_write_bytes : Z;
  h_touched_tables : gset TableId;
  h_has_write_set : bool
}.

Definition handle_new (tx : TransactionId) (owner_key : ExecutionOwnerKey) (owner_id : string)
    (origin : TransactionOrigin) (binding : TransactionRaftBinding) (now : Instant) :
    TransactionHandle :=
  mkHandle tx owner_key owner_id origin OpenRead binding SNAPSHOT_UNSET now now 0 0 ∅ false.

Definition snapshot_commit_seq (h : TransactionHandle) : option Z :=
  if h_snapshot_log_index h =? SNAPSHOT_UNSET then None else Some (h_snapshot_log_index h).

Definition touch (now : Instant) (h : TransactionHandle) : TransactionHandle :=
  mkHandle (h_transaction_id h) (h_owner_key h) (h_owner_id h) (h_origin h) (h_state h)
    (h_raft_binding h) (h_snapshot_log_index h) (h_started_at h) now (h_write_count h)
    (h_write_bytes h) (h_touched_tables h) (h_has_write_set h).

Definition record_staged_write_batch (now : Instant) (tables : gset TableId) (write_count : nat)
    (write_bytes : Z) (h : TransactionHandle) : TransactionHandle :=
  mkHandle (h_transaction_id h) (h_owner_key h) (h_owner_id h) (h_origin h) OpenWrite
    (h_raft_binding h) (h_snapshot_log_index h) (h_started_at h) now write_count write_bytes
    (tables ∪ h_touched_tables h) true.

Definition record_staged_write (now : Instant) (t : TableId) (write_count : nat)
    (write_bytes : Z) (h : TransactionHandle) : TransactionHandle :=
  mkHandle (h_transaction_id h) (h_owner_key h) (h_owner_id h) (h_origin h) OpenWrite
    (h_raft_binding h) (h_snapshot_log_index h) (h_started_at h) now write_count write_bytes
    ({[ t ]} ∪ h_touched_tables h) true.

Definition mark_state (now : Instant) (s : TransactionState) (h : TransactionHandle) :
    TransactionHandle :=
  mkHandle (h_transaction_id h) (h_owner_key h) (h_owner_id h) (h_origin h) s
    (h_raft_binding h) (h_snapshot_log_index h) (h_started_at h) now (h_write_count h)
    (h_write_bytes h) (h_touched_tables h) (h_has_write_set h).

(** Field assignments the coordinator makes on a handle. *)
Definition set_binding (b : TransactionRaftBinding) (h : TransactionHandle) : TransactionHandle :=
  mkHandle (h_transaction_id h) (h_owner_key h) (h_owner_id h) (h_origin h) (h_state h)
    b (h_snapshot_log_index h) (h_started_at h) (h_last_activity_at h) (h_write_count h)
    (h_write_bytes h) (h_touched_tables h) (h_has_write_set h).

Definition set_snapshot (cell : Z) (h : TransactionHandle) : TransactionHandle :=
  mkHandle (h_transaction_id h) (h_owner_key h) (h_owner_id h) (h_origin h) (h_state h)
    (h_raft_binding h) cell (h_started_at h) (h_last_activity_at h) (h_write_count h)
    (h_write_bytes h) (h_touched_tables h) (h_has_write_set h).

Definition set_writes (count : nat) (bytes : Z) (has : bool) (h : TransactionHandle) :
    TransactionHandle :=
  mkHandle (h_transaction_id h) (h_owner_key h) (h_owner_id h) (h_origin h) (h_state h)
    (h_raft_binding h) (h_snapshot_log_index h) (h_started_at h) (h_last_activity_at h) count
    bytes (h_touched_tables h) has.

Record ActiveTransactionMetric := mkMetric {
  m_transaction_id : TransactionId;
  m_owner_id : string;
  m_state : TransactionState;
  m_age_ms : Z;
  m_idle_ms : Z;
  m_write_count : nat;
  m_write_bytes : Z;
  m_touched_tables_count : nat;
  m_snapshot_commit_seq : Z;
  m_origin : TransactionOrigin
}.

(** ** Lemmas *)

Lemma frontier_observe t g i g' :
  0 <= frontier t g' -> 0 <= i ->
  frontier (observe_committed t g i) g' =
  if decide (g = g') then Z.max (frontier t g') i else frontier t g'.
Proof.
  intros Hf Hi. unfold observe_committed, frontier in *. destruct (i =? 0) eqn:E0; zbool.
  - case_decide; [|done]. subst. lia.
  - simpl. rewrite lookup_insert. case_decide as Hg; [|done]. simpl. subst g'.
    destruct (_ <? i) eqn:E; zbool; lia.
Qed.

(** The largest index observed for [g], [0] when none was. *)
Definition max_observed (g : GroupId) (obs : list (GroupId * Z)) : Z :=
  default 0 (list_max (filter (fun p : GroupId * Z => p.1 = g) obs).*2).

Definition observe_all (t : CommitSequenceTracker) (obs : list (GroupId * Z)) :
    CommitSequenceTracker :=
  foldl (fun t p => observe_committed t p.1 p.2) t obs.

Lemma frontier_observe_all t obs g :
  0 <= frontier t g -> Forall (fun p : GroupId * Z => 0 <= p.2) obs ->
  frontier (observe_all t obs) g = Z.max (frontier t g) (max_observed g obs).
Proof.
  revert t. induction obs as [|[g' i] obs IH]; intros t Ht Hall.
  { unfold max_observed. simpl. lia. }
  apply Forall_cons in Hall as [Hi Hall]. simpl in Hi.
  assert (0 <= frontier (observe_committed t g' i) g) as Hge.
  { rewrite frontier_observe by done. case_decide; lia. }
  change (observe_all t ((g', i) :: obs)) with (observe_all (observe_committed t g' i) obs).
  rewrite IH by done. rewrite frontier_observe by done. unfold max_observed.
  rewrite filter_cons. simpl. destruct (decide (g' = g)) as [->|Hg]; [|done]. simpl.
  destruct (list_max _) as [m|] eqn:Em; simpl; [lia|]. lia.
Qed.

Lemma hex_digit_char d : 0 <= d < 16 -> hex_digit (hex_char d) = Some d.
Proof.
  intros Hd. unfold hex_char, hex_digit. destruct (d <? 10) eqn:E; zbool.
  - rewrite (proj2 (Z.leb_le 48 _)), (proj2 (Z.leb_le _ 57)) by lia. simpl. f_equal. lia.
  - rewrite (proj2 (Z.leb_le 48 _)), (proj2 (Z.leb_gt _ 57)) by lia. simpl.
    rewrite (proj2 (Z.leb_le 97 _)), (proj2 (Z.leb_le _ 102)) by lia. simpl. f_equal. lia.
Qed.

Lemma parse_hex_app acc l1 l2 :
  parse_hex_from acc (l1 ++ l2) = (parse_hex_from acc l1 ≫= fun a => parse_hex_from a l2).
Proof.
  revert acc. induction l1 as [|b l1 IH]; intros acc; simpl; [done|].
  destruct (hex_digit b); simpl; [|done]. do 2 (case_match; [|done]). apply IH.
Qed.

Lemma parse_hex_digits fuel n :
  0 <= n < 16 ^ Z.of_nat fuel -> n <= u64_max ->
  parse_hex_from 0 (hex_digits fuel n) = Some n /\ ((0 < fuel)%nat -> hex_digits fuel n ≠ []).
Proof.
  revert n. induction fuel as [|fuel IH]; intros n Hn Hmax.
  { simpl in Hn. split; [simpl; f_equal; lia|lia]. }
  rewrite Nat2Z.inj_succ, Z.pow_succ_r in Hn by lia. simpl.
  destruct (n <? 16) eqn:E; zbool.
  - split; [|done]. simpl. rewrite hex_digit_char by lia. simpl.
    rewrite (proj2 (Z.leb_le n _)) by lia. done.
  - pose proof (Z.mod_pos_bound n 16 ltac:(lia)). pose proof (Z.div_mod n 16 ltac:(lia)).
    destruct (IH (n / 16)) as [Hp _].
    { split; [apply Z.div_pos; lia|]. apply Z.div_lt_upper_bound; lia. }
    { lia. }
    split; [|by destruct (hex_digits fuel (n / 16))].
    rewrite parse_hex_app, Hp. simpl. rewrite hex_digit_char by lia. simpl.
    rewrite !(proj2 (Z.leb_le _ _)) by lia. f_equal. lia.
Qed.

Lemma hex_digits_bytes fuel n : 0 <= n -> Forall (fun b => 0 <= b < 256) (hex_digits fuel n).
Proof.
  revert n. induction fuel as [|fuel IH]; intros n Hn; simpl; [constructor|].
  destruct (n <? 16) eqn:E; zbool.
  - constructor; [|constructor]. unfold hex_char. case_match; zbool; lia.
  - pose proof (Z.mod_pos_bound n 16 ltac:(lia)). apply Forall_app. split.
    + apply IH. apply Z.div_pos; lia.
    + constructor; [|constructor]. unfold hex_char. case_match; zbool; lia.
Qed.

Lemma decimal_digits n :
  0 <= n <= u64_max ->
  Forall (fun b => is_ascii_digit b = true) (decimal n) /\ dec_value 0 (decimal n) = n /\
  decimal n ≠ [].
Proof.
  intros Hn. unfold decimal. destruct (dec_digits_value 20 n) as (Hd & Hv & Hne).
  { split; [lia|]. apply Z.le_lt_trans with u64_max; [lia|reflexivity]. }
  split_and!; [done|done|apply Hne; lia].
Qed.

Lemma position_app_none {A} (p : A -> bool) l x rest :
  Forall (fun y => p y = false) l -> p x = true ->
  position p (l ++ x :: rest) = Some (length l).
Proof.
  intros Hl Hx. induction Hl as [|y l Hy Hl IH]; simpl; [by rewrite Hx|].
  by rewrite Hy, IH.
Qed.

Lemma parse_u64_hex_digits h sid :
  0 <= h <= u64_max -> parse_u64_hex (hex_digits 16 h) sid = Ok h.
Proof.
  intros Hh. destruct (parse_hex_digits 16 h) as [Hhex Hne].
  { split; [lia|]. apply Z.le_lt_trans with u64_max; [lia|reflexivity]. } { lia. }
  specialize (Hne ltac:(lia)). unfold parse_u64_hex. rewrite Hhex.
  by destruct (hex_digits 16 h).
Qed.

Lemma parse_u32_decimal_digits pid sid :
  0 <= pid <= u32_max -> parse_u32_decimal (decimal pid) sid = Ok pid.
Proof.
  intros Hpid.
  destruct (decimal_digits pid) as (Hd & Hv & Hne); [unfold u32_max, u64_max in *; lia|].
  unfold parse_u32_decimal. rewrite parse_digits_value, Hv by (try done; lia).
  by destruct (decimal pid).
Qed.

(** ** Properties *)

(** A group's frontier is the largest log index observed for that group since start: it never
    moves back, an index of [0] never counts, and observations of other groups do not affect it,
    in whatever order they arrive. *)
Theorem frontier_is_max_observed watermark obs g :
  Forall (fun p : GroupId * Z => 0 <= p.2) obs ->
  frontier (observe_all (tracker_new watermark) obs) g = max_observed g obs.
Proof.
  intros Hobs. assert (frontier (tracker_new watermark) g = 0) as H0.
  { unfold frontier. simpl. by rewrite lookup_empty. }
  rewrite frontier_observe_all by (try done; lia). rewrite H0.
  unfold max_observed. destruct (list_max _) as [m|] eqn:E; simpl; [|done].
  apply list_max_spec in E as [Hin _]. apply list_elem_of_fmap in Hin as [p [-> Hp]].
  apply list_elem_of_filter in Hp as [_ Hp]. rewrite Forall_forall in Hobs.
  specialize (Hobs p Hp). lia.
Qed.

(** Snapshots are repeatable: once a transaction's cell is pinned, later pins (for any group,
    after any later commits) return the pinned index and leave the cell alone.  A frontier is a
    log index below [u64::MAX], the value that marks an unset cell. *)
Theorem pin_snapshot_first_wins t g cell t' g' :
  frontier t g < SNAPSHOT_UNSET ->
  let pinned := pin_snapshot t g cell in
  pin_snapshot t' g' pinned.1 = (pinned.1, pinned.2) /\
  (cell = SNAPSHOT_UNSET -> pinned.2 = frontier t g).
Proof.
  intros Hf pinned. unfold pinned, pin_snapshot. destruct (cell =? SNAPSHOT_UNSET) eqn:E; zbool.
  - simpl. rewrite (proj2 (Z.eqb_neq _ _)) by lia. done.
  - simpl. rewrite (proj2 (Z.eqb_neq _ _)) by done. done.
Qed.

(** The session id the pg extension builds from its backend pid and configuration hash is
    parsed back to exactly that pid and hash, for every [u32] pid and [u64] hash. *)
Theorem pg_session_id_roundtrip uuid_parse pid h :
  0 <= pid <= u32_max -> 0 <= h <= u64_max ->
  from_pg_session_id uuid_parse (pg_session_id pid h) = Ok (PgSession pid h).
Proof.
  intros Hpid Hh.
  destruct (decimal_digits pid) as (Hd & Hv & Hne); [unfold u32_max, u64_max in *; lia|].
  unfold from_pg_session_id, pg_session_id. rewrite bytes_string_bytes.
  2:{ repeat (apply Forall_app; split).
      - change (bytes_of_string "pg-") with [112; 103; 45]. repeat constructor; lia.
      - eapply Forall_impl; [exact Hd|]. intros b Hb. unfold is_ascii_digit in Hb. zbool. lia.
      - repeat constructor; lia.
      - apply hex_digits_bytes. lia. }
  rewrite strip_prefix_app.
  change ([45] ++ hex_digits 16 h) with (45 :: hex_digits 16 h).
  assert (Forall (fun b => (b =? 45) = false) (decimal pid)) as Hno.
  { eapply Forall_impl; [exact Hd|]. intros b Hb. unfold is_ascii_digit in Hb. zbool.
    apply Z.eqb_neq. lia. }
  rewrite (position_app_none _ _ 45 (hex_digits 16 h)) by done.
  rewrite take_app_length, parse_u32_decimal_digits by done.
  rewrite drop_app, drop_ge by lia.
  replace (S (length (decimal pid)) - length (decimal pid))%nat with 1%nat by lia.
  change ([] ++ drop 1 (45 :: hex_digits 16 h)) with (hex_digits 16 h).
  by rewrite parse_u64_hex_digits.
Qed.

(** ** Witnesses *)

Lemma frontier_is_max_observed_witness :
  frontier (observe_all (tracker_new 5)
              [(DataUserShard 1, 7); (DataSharedShard 0, 90); (DataUserShard 1, 3)])
    (DataUserShard 1) = 7.
Proof.
  rewrite (frontier_is_max_observed 5).
  - reflexivity.
  - repeat constructor; simpl; lia.
Defined.

Lemma pin_snapshot_first_wins_witness :
  pin_snapshot (observe_all (tracker_new 0) [(Meta, 9)]) Meta 4 = (4, 4) /\
  frontier (observe_all (tracker_new 0) [(Meta, 4)]) Meta = 4.
Proof.
  split; [|reflexivity].
  apply (pin_snapshot_first_wins (observe_all (tracker_new 0) [(Meta, 4)]) Meta SNAPSHOT_UNSET
           (observe_all (tracker_new 0) [(Meta, 9)]) Meta).
  reflexivity.
Defined.

Lemma pg_session_id_roundtrip_witness :
  pg_session_id 1234 48879 = "pg-1234-beef" /\
  from_pg_session_id (fun _ => None) "pg-1234-beef" = Ok (PgSession 1234 48879).
Proof.
  split; [vm_compute; reflexivity|].
  apply (pg_session_id_roundtrip (fun _ => None) 1234 48879); unfold u32_max, u64_max; lia.
Defined.
