(* ===== verification/Coordinator.v ===== *)
(** * Coordinator: the in-memory coordinator of explicit transactions

    Model of kalamdb-core/src/transactions/coordinator.rs (with overlay_view.rs and
    commit_result.rs).  The coordinator's three concurrent maps, the commit-sequence tracker, the
    process-wide primary-key claims and the topic publishes staged by procedures are one state;
    each method is a function from that state to a new state and a result.

    [commit] awaits the replicated apply between two runs of coordinator code, and other methods
    may run during the await.  It is therefore two definitions, [commit_seal] (up to the await)
    and [commit_finish] (from the apply's answer on), and [commit] is their composition.

    Parameters: [scalar_size] sizes a DataFusion scalar, [hash_str] is the hash behind the shard
    router, [publish_ok] tells whether the topic publisher accepts a staged publish, and the
    answer of the replicated apply is an argument of [commit_finish].  Error values carry what the
    source formats into its messages. *)

From Stdlib Require Import ZArith Lia.
From stdpp Require Import base countable strings gmap fin_maps list.
From S2P Require Import Prelude Commons Sharding Overlay WriteSet Claims TxnState.

Open Scope Z_scope.

Inductive KalamDbError :=
| TransactionNotFound (tx : TransactionId)
| NotFoundDuringCommit (tx : TransactionId)
| NotFoundDuringRollback (tx : TransactionId)
| OwnerHasActiveTransaction (owner_id : string)
| StateError (tx : TransactionId) (state : TransactionState) (action : string)
| StreamTablesUnsupported
| SystemTablesUnsupported
| TransactionMismatch (expected got : TransactionId)
| BufferLimitExceeded (tx : TransactionId) (limit : Z)
| LeaderChanged (tx : TransactionId) (group : GroupId) (prior : NodeId) (now : option NodeId)
| NotLeader
| BoundToOtherGroup (tx : TransactionId) (bound : GroupId) (t : TableId) (group : GroupId)
| UserIdRequired (t : TableId)
| UnknownSharedTable (t : TableId)
| SharedOwner (e : SharedOwnerError)
| SavepointDoesNotExist (name : string)
| CommitFailed (tx : TransactionId)
| MissingCommitSeq (tx : TransactionId)
| FlushFailed
| DdlNotAllowed (tx : TransactionId).

Record StagedTopicPublish := mkPublish {
  pub_topic_id : string;
  pub_payload : list Z;
  pub_user_id : option UserId
}.

(** [DataResponse] of the replicated apply (kalamdb-raft data_response.rs). *)
Record TransactionApplyResult := mkApplyResult {
  ar_rows_affected : Z;
  ar_log_index : Z;
  ar_notifications_sent : Z;
  ar_manifest_updates : Z;
  ar_publisher_events : Z
}.

Inductive DataResponse :=
| RespOk
| RespRowsAffected (n : Z)
| RespTransactionCommitted (r : TransactionApplyResult)
| RespSubscribed (subscription_id : string)
| RespError (message : string).

Definition committed_commit_seq (r : DataResponse) : option Z :=
  match r with RespTransactionCommitted r => Some (ar_log_index r) | _ => None end.

Definition committed_side_effect_counts (r : DataResponse) : option (Z * Z * Z) :=
  match r with
  | RespTransactionCommitted r =>
      Some (ar_notifications_sent r, ar_manifest_updates r, ar_publisher_events r)
  | _ => None
  end.

Record TransactionCommitResult := mkCommitResult {
  cr_transaction_id : TransactionId;
  cr_affected_rows : nat;
  cr_committed_commit_seq : option Z;
  cr_side_effects : Z * Z * Z
}.

(** What a call reads of its surroundings: the time, and the leaders Raft reports. *)
Record Env := mkEnv { now : Instant; raft_leader : GroupId -> option NodeId }.

Section Coordinator.
Context {Value : Type} (scalar_size : Value -> Z) (hash_str : string -> Z)
        (publish_ok : StagedTopicPublish -> bool).

(** Server configuration, schema registry and own node id: [app_context]. *)
Record AppContext := mkApp {
  cluster : option (Z * Z);
  node_id : NodeId;
  schema : TableId -> option TableDefinition;
  max_transaction_buffer_bytes : Z;
  transaction_timeout_secs : Z
}.

Context (app : AppContext).

Record TransactionCoordinator := mkCoordinator {
  active_by_owner : gmap ExecutionOwnerKey TransactionId;
  active_by_id : gmap TransactionId TransactionHandle;
  write_sets : gmap TransactionId (TransactionWriteSet Value);
  commit_sequence_tracker : CommitSequenceTracker;
  pk_claims : ClaimsState;
  staged_publishes : gmap TransactionId (list StagedTopicPublish);
  published : list StagedTopicPublish
}.

Definition coordinator_new (t : CommitSequenceTracker) : TransactionCoordinator :=
  mkCoordinator ∅ ∅ ∅ t claims_default ∅ [].

Definition set_owners (f : gmap ExecutionOwnerKey TransactionId -> gmap ExecutionOwnerKey TransactionId)
    (c : TransactionCoordinator) : TransactionCoordinator :=
  mkCoordinator (f (active_by_owner c)) (active_by_id c) (write_sets c)
    (commit_sequence_tracker c) (pk_claims c) (staged_publishes c) (published c).

Definition set_handles (f : gmap TransactionId TransactionHandle -> gmap TransactionId TransactionHandle)
    (c : TransactionCoordinator) : TransactionCoordinator :=
  mkCoordinator (active_by_owner c) (f (active_by_id c)) (write_sets c)
    (commit_sequence_tracker c) (pk_claims c) (staged_publishes c) (published c).

Definition set_write_sets
    (f : gmap TransactionId (TransactionWriteSet Value) -> gmap TransactionId (TransactionWriteSet Value))
    (c : TransactionCoordinator) : TransactionCoordinator :=
  mkCoordinator (active_by_owner c) (active_by_id c) (f (write_sets c))
    (commit_sequence_tracker c) (pk_claims c) (staged_publishes c) (published c).

Definition set_tracker (f : CommitSequenceTracker -> CommitSequenceTracker)
    (c : TransactionCoordinator) : TransactionCoordinator :=
  mkCoordinator (active_by_owner c) (active_by_id c) (write_sets c)
    (f (commit_sequence_tracker c)) (pk_claims c) (staged_publishes c) (published c).

Definition release_primary_key_claims (tx : TransactionId) (c : TransactionCoordinator) :
    TransactionCoordinator :=
  mkCoordinator (active_by_owner c) (active_by_id c) (write_sets c)
    (commit_sequence_tracker c) (release_owner (pk_claims c) tx) (staged_publishes c)
    (published c).

(** [FunctionRuntimeState::stage]: a procedure stages a topic publish. *)
Definition stage_publish (tx : TransactionId) (p : StagedTopicPublish)
    (c : TransactionCoordinator) : TransactionCoordinator :=
  mkCoordinator (active_by_owner c) (active_by_id c) (write_sets c)
    (commit_sequence_tracker c) (pk_claims c)
    (<[ tx := default [] (staged_publishes c !! tx) ++ [p] ]> (staged_publishes c)) (published c).

Definition drop_staged_publishes (tx : TransactionId) (c : TransactionCoordinator) :
    TransactionCoordinator :=
  mkCoordinator (active_by_owner c) (active_by_id c) (write_sets c)
    (commit_sequence_tracker c) (pk_claims c) (delete tx (staged_publishes c)) (published c).

(** The loop of [flush_staged_publishes]: publish in order, stop at the first refusal. *)
Fixpoint publish_all (log : list StagedTopicPublish) (ps : list StagedTopicPublish) :
    list StagedTopicPublish * Result KalamDbError unit :=
  match ps with
  | [] => (log, Ok tt)
  | p :: rest => if publish_ok p then publish_all (log ++ [p]) rest else (log, Err FlushFailed)
  end.

Definition flush_staged_publishes (tx : TransactionId) (c : TransactionCoordinator) :
    TransactionCoordinator * Result KalamDbError unit :=
  let staged := default [] (staged_publishes c !! tx) in
  let c1 := drop_staged_publishes tx c in
  let '(log, r) := publish_all (published c) staged in
  (mkCoordinator (active_by_owner c1) (active_by_id c1) (write_sets c1)
     (commit_sequence_tracker c1) (pk_claims c1) (staged_publishes c1) log, r).

Definition initial_raft_binding : TransactionRaftBinding :=
  match cluster app with Some _ => UnboundCluster | None => LocalSingleNode end.

(** [AppContext::shared_group_id]. *)
Definition app_shared_group_id (t : TableId) : Result KalamDbError GroupId :=
  match schema app t with
  | None => Err (UnknownSharedTable t)
  | Some def =>
      map_err SharedOwner (shared_group_id (from_optional_cluster_config (cluster app)) def)
  end.

Definition resolve_group_id (t : TableId) (ty : TableType) (user : option UserId) :
    Result KalamDbError (option GroupId) :=
  match ty with
  | User =>
      match user with
      | None => Err (UserIdRequired t)
      | Some u => Ok (Some (user_group_id hash_str (from_optional_cluster_config (cluster app)) u))
      end
  | Shared => result_bind (app_shared_group_id t) (fun g => Ok (Some g))
  | Stream => Err StreamTablesUnsupported
  | System => Ok None
  end.

Definition current_leader_for_group (env : Env) (g : GroupId) : option NodeId :=
  match cluster app with
  | None => Some (node_id app)
  | Some _ => raft_leader env g
  end.

(** [begin]; [tx] is the fresh UUID. *)
Definition begin (env : Env) (tx : TransactionId) (owner_key : ExecutionOwnerKey)
    (owner_id : string) (origin : TransactionOrigin) (c : TransactionCoordinator) :
    TransactionCoordinator * Result KalamDbError TransactionId :=
  let handle := handle_new tx owner_key owner_id origin initial_raft_binding (now env) in
  match active_by_owner c !! owner_key with
  | Some existing =>
      let existing_is_open :=
        match active_by_id c !! existing with Some h => is_open (h_state h) | None => false end in
      if existing_is_open then (c, Err (OwnerHasActiveTransaction owner_id))
      else
        let c1 := release_primary_key_claims existing c in
        let c2 := set_write_sets (delete existing) (set_handles (delete existing) c1) in
        (set_owners (insert owner_key tx) (set_handles (insert tx handle) c2), Ok tx)
  | None => (set_owners (insert owner_key tx) (set_handles (insert tx handle) c), Ok tx)
  end.

(** The binding step of [validate_table_access], on the handle. *)
Definition bind_group (env : Env) (tx : TransactionId) (t : TableId) (g : GroupId)
    (h : TransactionHandle) : Result KalamDbError TransactionHandle :=
  match h_raft_binding h with
  | LocalSingleNode => Ok h
  | UnboundCluster =>
      match current_leader_for_group env g with
      | Some leader => Ok (set_binding (BoundCluster g leader) h)
      | None => Err NotLeader
      end
  | BoundCluster bound _ =>
      if decide (bound = g) then Ok h else Err (BoundToOtherGroup tx bound t g)
  end.

(** The second [resolve_group_id] of the source repeats the first with the same arguments. *)
Definition validate_table_access (env : Env) (tx : TransactionId) (t : TableId) (ty : TableType)
    (user : option UserId) (c : TransactionCoordinator) :
    TransactionCoordinator * Result KalamDbError unit :=
  match active_by_id c !! tx with
  | None => (c, Err (TransactionNotFound tx))
  | Some h =>
      if negb (is_open (h_state h)) then (c, Err (StateError tx (h_state h) "access"))
      else
        match resolve_group_id t ty user with
        | Err e => (c, Err e)
        | Ok None => (set_handles (insert tx (touch (now env) h)) c, Ok tt)
        | Ok (Some g) =>
            match bind_group env tx t g h with
            | Err e => (c, Err e)
            | Ok h1 =>
                let cell :=
                  (pin_snapshot (commit_sequence_tracker c) g (h_snapshot_log_index h1)).1 in
                (set_handles (insert tx (touch (now env) (set_snapshot cell h1))) c, Ok tt)
            end
        end
  end.

Definition mark_transaction_aborted (env : Env) (tx : TransactionId)
    (c : TransactionCoordinator) : TransactionCoordinator :=
  match active_by_id c !! tx with
  | Some h => set_handles (insert tx (mark_state (now env) Aborted h)) c
  | None => c
  end.

(** [ensure_bound_leadership_is_current]: the handle afterwards, and the error if any. *)
Definition ensure_bound_leadership_is_current (env : Env) (tx : TransactionId)
    (h : TransactionHandle) : TransactionHandle * Result KalamDbError unit :=
  match h_raft_binding h with
  | BoundCluster g leader =>
      let current := current_leader_for_group env g in
      if decide (current = Some leader) then (h, Ok tt)
      else (mark_state (now env) Aborted h, Err (LeaderChanged tx g leader current))
  | _ => (h, Ok tt)
  end.

(** The checks of [stage] on the mutation itself, shared with [stage_batch]. *)
Definition check_mutation (tx : TransactionId) (m : StagedMutation Value) :
    Result KalamDbError unit :=
  if decide (sm_table_type m = Stream) then Err StreamTablesUnsupported
  else if decide (sm_table_type m = System) then Err SystemTablesUnsupported
  else if decide (sm_transaction_id m = tx) then Ok tt
  else Err (TransactionMismatch tx (sm_transaction_id m)).

(** [write_sets.entry(tx).or_insert_with(new)]. *)
Definition write_set_entry (c : TransactionCoordinator) (tx : TransactionId) :
    TransactionWriteSet Value :=
  default (write_set_new tx) (write_sets c !! tx).

(** What [stage] and [stage_batch] do once the mutations passed their checks: the state and
    leadership guards, the buffer limit, and the staging itself.  [record] updates the handle
    with the new row and byte counts. *)
Definition stage_checked (env : Env) (tx : TransactionId) (ms : list (StagedMutation Value * Z))
    (total : Z) (record : nat -> Z -> TransactionHandle -> TransactionHandle)
    (c : TransactionCoordinator) : TransactionCoordinator * Result KalamDbError unit :=
  match active_by_id c !! tx with
  | None => (c, Err (TransactionNotFound tx))
  | Some h =>
      if negb (is_open (h_state h)) then (c, Err (StateError tx (h_state h) "stage writes in"))
      else
        let '(h1, led) := ensure_bound_leadership_is_current env tx h in
        match led with
        | Err e =>
            (mark_transaction_aborted env tx (set_handles (insert tx h1) c), Err e)
        | Ok _ =>
            let limit := max_transaction_buffer_bytes app in
            if limit <? saturating_add (h_write_bytes h1) total then
              let c1 := set_handles (insert tx (mark_state (now env) Aborted h1)) c in
              (release_primary_key_claims tx (set_write_sets (delete tx) c1),
               Err (BufferLimitExceeded tx limit))
            else
              let ws := foldl (fun ws p => (stage_with_estimated_size ws p.1 p.2).1)
                          (write_set_entry c tx) ms in
              (set_handles (insert tx (record (affected_rows ws) (buffer_bytes ws) h1))
                 (set_write_sets (insert tx ws) c), Ok tt)
        end
  end.

Definition stage_mutation (env : Env) (tx : TransactionId) (m : StagedMutation Value)
    (c : TransactionCoordinator) : TransactionCoordinator * Result KalamDbError unit :=
  match check_mutation tx m with
  | Err e => (c, Err e)
  | Ok _ =>
      let estimated := approximate_size_bytes scalar_size m in
      let '(c1, r) :=
        validate_table_access env tx (sm_table_id m) (sm_table_type m) (sm_user_id m) c in
      match r with
      | Err e => (c1, Err e)
      | Ok _ =>
          stage_checked env tx [(m, estimated)] estimated
            (record_staged_write (now env) (sm_table_id m)) c1
      end
  end.

(** The validation loop of [stage_batch]: targets seen, tables touched, total size. *)
Fixpoint validate_batch (env : Env) (tx : TransactionId) (ms : list (StagedMutation Value))
    (targets : gset (TableId * TableType * option UserId)) (touched : gset TableId) (total : Z)
    (c : TransactionCoordinator) :
    TransactionCoordinator * Result KalamDbError (gset TableId * Z) :=
  match ms with
  | [] => (c, Ok (touched, total))
  | m :: rest =>
      match check_mutation tx m with
      | Err e => (c, Err e)
      | Ok _ =>
          let total1 := saturating_add total (approximate_size_bytes scalar_size m) in
          let touched1 := {[ sm_table_id m ]} ∪ touched in
          let target := (sm_table_id m, sm_table_type m, sm_user_id m) in
          if decide (target ∈ targets) then validate_batch env tx rest targets touched1 total1 c
          else
            let '(c1, r) :=
              validate_table_access env tx (sm_table_id m) (sm_table_type m) (sm_user_id m) c in
            match r with
            | Err e => (c1, Err e)
            | Ok _ => validate_batch env tx rest ({[ target ]} ∪ targets) touched1 total1 c1
            end
      end
  end.

Definition stage_batch (env : Env) (tx : TransactionId) (ms : list (StagedMutation Value))
    (c : TransactionCoordinator) : TransactionCoordinator * Result KalamDbError unit :=
  match ms with
  | [] => (c, Ok tt)
  | _ =>
      let '(c1, r) := validate_batch env tx ms ∅ ∅ 0 c in
      match r with
      | Err e => (c1, Err e)
      | Ok (touched, total) =>
          stage_checked env tx ((fun m => (m, approximate_size_bytes scalar_size m)) <$> ms)
            total (record_staged_write_batch (now env) touched) c1
      end
  end.

(** ** Commit *)

Inductive SealOutcome :=
| SealDone (r : Result KalamDbError TransactionCommitResult)
| SealPending (owner_key : ExecutionOwnerKey) (affected : nat)
    (mutations : list (StagedMutation Value)).

(** A transaction with nothing staged: forget it and flush its staged publishes. *)
Definition commit_empty (tx : TransactionId) (owner : ExecutionOwnerKey)
    (c : TransactionCoordinator) :
    TransactionCoordinator * Result KalamDbError TransactionCommitResult :=
  let c1 := set_owners (delete owner) c in
  match active_by_id c1 !! tx with
  | None => (drop_staged_publishes tx c1, Err (NotFoundDuringCommit tx))
  | Some _ =>
      let c2 := release_primary_key_claims tx (set_handles (delete tx) c1) in
      let '(c3, r) := flush_staged_publishes tx c2 in
      (c3, result_bind r (fun _ => Ok (mkCommitResult tx 0 None (0, 0, 0))))
  end.

Definition commit_seal (env : Env) (tx : TransactionId) (c : TransactionCoordinator) :
    TransactionCoordinator * SealOutcome :=
  match active_by_id c !! tx with
  | None => (c, SealDone (Err (TransactionNotFound tx)))
  | Some h =>
      if negb (is_open (h_state h)) then (c, SealDone (Err (StateError tx (h_state h) "commit")))
      else
        let '(h1, led) := ensure_bound_leadership_is_current env tx h in
        match led with
        | Err e =>
            (mark_transaction_aborted env tx (set_handles (insert tx h1) c), SealDone (Err e))
        | Ok _ =>
            let owner := h_owner_key h1 in
            let c1 := set_handles (insert tx (mark_state (now env) Committing h1)) c in
            let ws := write_sets c1 !! tx in
            let c2 := set_write_sets (delete tx) c1 in
            match ws with
            | Some ws =>
                match ordered_mutations ws with
                | [] => let '(c3, r) := commit_empty tx owner c2 in (c3, SealDone r)
                | ms => (c2, SealPending owner (affected_rows ws) ms)
                end
            | None => let '(c3, r) := commit_empty tx owner c2 in (c3, SealDone r)
            end
        end
  end.

(** From the answer of [applier().commit_transaction] on; [None] is its error. *)
Definition commit_finish (tx : TransactionId) (owner : ExecutionOwnerKey) (affected : nat)
    (response : option DataResponse) (c : TransactionCoordinator) :
    TransactionCoordinator * Result KalamDbError TransactionCommitResult :=
  match response with
  | None =>
      let c1 := set_handles (delete tx) (set_owners (delete owner) c) in
      (drop_staged_publishes tx (release_primary_key_claims tx c1), Err (CommitFailed tx))
  | Some resp =>
      let c1 := release_primary_key_claims tx c in
      match committed_commit_seq resp with
      | None => (c1, Err (MissingCommitSeq tx))
      | Some seq =>
          let counts := default (0, 0, 0) (committed_side_effect_counts resp) in
          let c2 := set_owners (delete owner) c1 in
          match active_by_id c2 !! tx with
          | None => (c2, Err (NotFoundDuringCommit tx))
          | Some h =>
              let c3 := set_handles (delete tx) c2 in
              let c4 := match h_raft_binding h with
                        | BoundCluster g _ => set_tracker (fun t => observe_committed t g seq) c3
                        | _ => c3
                        end in
              let '(c5, r) := flush_staged_publishes tx c4 in
              (c5, result_bind r (fun _ => Ok (mkCommitResult tx affected (Some seq) counts)))
          end
      end
  end.

(** [commit] run without interruption, with [apply] answering for the replicated apply. *)
Definition commit (env : Env)
    (apply : TransactionId -> list (StagedMutation Value) -> option DataResponse)
    (tx : TransactionId) (c : TransactionCoordinator) :
    TransactionCoordinator * Result KalamDbError TransactionCommitResult :=
  match commit_seal env tx c with
  | (c1, SealDone r) => (c1, r)
  | (c1, SealPending owner affected ms) => commit_finish tx owner affected (apply tx ms) c1
  end.

(** Everything [rollback] removes. *)
Definition forget_transaction (tx : TransactionId) (owner : ExecutionOwnerKey)
    (c : TransactionCoordinator) : TransactionCoordinator :=
  set_handles (delete tx)
    (set_owners (delete owner)
       (drop_staged_publishes tx
          (release_primary_key_claims tx (set_write_sets (delete tx) c)))).

Definition rollback (env : Env) (tx : TransactionId) (c : TransactionCoordinator) :
    TransactionCoordinator * Result KalamDbError unit :=
  match active_by_id c !! tx with
  | None => (c, Err (TransactionNotFound tx))
  | Some h =>
      match h_state h with
      | TimedOut | Aborted | RolledBack => (forget_transaction tx (h_owner_key h) c, Ok tt)
      | Committed => (c, Err (StateError tx (h_state h) "rollback"))
      | _ =>
          let c1 := set_handles (insert tx (mark_state (now env) RollingBack h)) c in
          let c2 := forget_transaction tx (h_owner_key h) c1 in
          match active_by_id c1 !! tx with
          | None => (c2, Err (NotFoundDuringRollback tx))
          | Some _ => (c2, Ok tt)
          end
      end
  end.

Definition get_overlay (c : TransactionCoordinator) (tx : TransactionId) :
    option (TransactionOverlay Value) :=
  merged_overlay <$> write_sets c !! tx.

Definition get_table_overlay (c : TransactionCoordinator) (tx : TransactionId) (t : TableId) :
    option (TransactionOverlay Value) :=
  ws ← write_sets c !! tx; overlay_for_table ws t.

(** [CoordinatorOverlayView::overlay]. *)
Definition view_overlay (c : TransactionCoordinator) (tx : TransactionId) :
    TransactionOverlay Value :=
  default (overlay_new tx) (get_overlay c tx).

Definition get_handle (c : TransactionCoordinator) (tx : TransactionId) :
    option TransactionHandle := active_by_id c !! tx.

Definition active_for_owner (c : TransactionCoordinator) (o : ExecutionOwnerKey) :
    option TransactionId := active_by_owner c !! o.

Definition shared_snapshot_is_frontier (env : Env) (tx : TransactionId) (t : TableId)
    (c : TransactionCoordinator) : TransactionCoordinator * Result KalamDbError bool :=
  let '(c1, r) := validate_table_access env tx t Shared None c in
  match r with
  | Err e => (c1, Err e)
  | Ok _ =>
      match get_handle c1 tx ≫= snapshot_commit_seq with
      | None => (c1, Ok false)
      | Some pinned =>
          (c1, result_bind (app_shared_group_id t) (fun g =>
                 Ok (frontier (commit_sequence_tracker c1) g =? pinned)))
      end
  end.

Definition shared_group_frontier (t : TableId) (c : TransactionCoordinator) :
    Result KalamDbError Z :=
  result_bind (app_shared_group_id t) (fun g => Ok (frontier (commit_sequence_tracker c) g)).

Definition reject_ddl_in_transaction (tx : TransactionId) (c : TransactionCoordinator) :
    Result KalamDbError unit :=
  match active_by_id c !! tx with
  | Some h =>
      match h_state h with
      | Committed | RolledBack => Ok tt
      | _ => Err (DdlNotAllowed tx)
      end
  | None => Ok tt
  end.

(** Savepoints: the handle is checked and touched, then the write set is changed. *)
Definition savepoint (env : Env) (tx : TransactionId) (name : string)
    (c : TransactionCoordinator) : TransactionCoordinator * Result KalamDbError unit :=
  match active_by_id c !! tx with
  | None => (c, Err (TransactionNotFound tx))
  | Some h =>
      if negb (is_open (h_state h)) then (c, Err (StateError tx (h_state h) "savepoint"))
      else
        let c1 := set_handles (insert tx (touch (now env) h)) c in
        (set_write_sets (insert tx (push_savepoint (write_set_entry c1 tx) name)) c1, Ok tt)
  end.

Definition coordinator_release_savepoint (env : Env) (tx : TransactionId) (name : string)
    (c : TransactionCoordinator) : TransactionCoordinator * Result KalamDbError unit :=
  match active_by_id c !! tx with
  | None => (c, Err (TransactionNotFound tx))
  | Some h =>
      if negb (is_open (h_state h)) then (c, Err (StateError tx (h_state h) "release savepoint"))
      else
        let c1 := set_handles (insert tx (touch (now env) h)) c in
        match write_sets c1 !! tx with
        | None => (c1, Err (SavepointDoesNotExist (trim name)))
        | Some ws =>
            let '(ws1, released) := release_savepoint ws name in
            let c2 := set_write_sets (insert tx ws1) c1 in
            (c2, if released then Ok tt else Err (SavepointDoesNotExist (trim name)))
        end
  end.

Definition coordinator_rollback_to_savepoint (env : Env) (tx : TransactionId) (name : string)
    (c : TransactionCoordinator) : TransactionCoordinator * Result KalamDbError unit :=
  match active_by_id c !! tx with
  | None => (c, Err (TransactionNotFound tx))
  | Some h =>
      match h_state h with
      | OpenRead | OpenWrite | Aborted =>
          match write_sets c !! tx with
          | None => (c, Err (SavepointDoesNotExist (trim name)))
          | Some ws =>
              match rollback_to_savepoint scalar_size ws name with
              | (_, None) => (c, Err (SavepointDoesNotExist (trim name)))
              | (ws1, Some (count, bytes)) =>
                  let open := if (0 <? Z.of_nat count) then OpenWrite else OpenRead in
                  let h1 := mark_state (now env) open
                              (set_writes count bytes (0 <? Z.of_nat count) h) in
                  (set_handles (insert tx h1) (set_write_sets (insert tx ws1) c), Ok tt)
              end
          end
      | s => (c, Err (StateError tx s "rollback to savepoint"))
      end
  end.

(** ** Timeouts.  Times are nanoseconds; [duration_since] saturates at zero. *)

Definition duration_since (later earlier : Instant) : Z := Z.max 0 (later - earlier).

Definition timeout_duration : Z := Z.max (transaction_timeout_secs app) 1 * 1000000000.

(** [timeout_sweep_interval], in seconds. *)
Definition timeout_sweep_interval (timeout : Z) : Z :=
  let timeout_secs := Z.max (timeout / 1000000000) 1 in
  Z.min (Z.max (timeout_secs / 2) 1) 5.

Definition expired (env : Env) (h : TransactionHandle) : bool :=
  is_open (h_state h) && (timeout_duration <=? duration_since (now env) (h_last_activity_at h)).

Definition timeout_transaction (env : Env) (tx : TransactionId) (c : TransactionCoordinator) :
    TransactionCoordinator :=
  match active_by_id c !! tx with
  | None => c
  | Some h =>
      if negb (is_open (h_state h)) then c
      else
        release_primary_key_claims tx
          (set_write_sets (delete tx)
             (set_handles (insert tx (mark_state (now env) TimedOut h)) c))
  end.

Definition sweep_timed_out_transactions (env : Env) (c : TransactionCoordinator) :
    TransactionCoordinator :=
  let expired_transactions :=
    h_transaction_id <$>
      filter (fun h => expired env h = true) (map_to_list (active_by_id c)).*2 in
  foldl (fun c tx => timeout_transaction env tx c) c expired_transactions.

(** ** Observability *)

Definition metric_of (env : Env) (h : TransactionHandle) : ActiveTransactionMetric :=
  mkMetric (h_transaction_id h) (h_owner_id h) (h_state h)
    (wrap64 (duration_since (now env) (h_started_at h) / 1000000))
    (wrap64 (duration_since (now env) (h_last_activity_at h) / 1000000))
    (h_write_count h) (h_write_bytes h) (size (h_touched_tables h))
    (default 0 (snapshot_commit_seq h)) (h_origin h).

(** Order of [active_metrics]: origin label, then transaction id, as byte strings. *)
Definition string_leb (a b : string) : bool :=
  match String.compare a b with Gt => false | _ => true end.

Definition metric_leb (a b : ActiveTransactionMetric) : bool :=
  if decide (origin_as_str (m_origin a) = origin_as_str (m_origin b))
  then string_leb (m_transaction_id a) (m_transaction_id b)
  else string_leb (origin_as_str (m_origin a)) (origin_as_str (m_origin b)).

Fixpoint insert_metric (m : ActiveTransactionMetric) (l : list ActiveTransactionMetric) :
    list ActiveTransactionMetric :=
  match l with
  | [] => [m]
  | m' :: rest => if metric_leb m m' then m :: l else m' :: insert_metric m rest
  end.

Definition active_metrics (env : Env) (c : TransactionCoordinator) :
    list ActiveTransactionMetric :=
  foldr insert_metric []
    (metric_of env <$>
       filter (fun h => is_terminal (h_state h) = false) (map_to_list (active_by_id c)).*2).

(** ** The invariant

    [sm_in_binding] says where a staged mutation may live: in the bound Raft group of a cluster
    transaction, anywhere on a single node, nowhere while the transaction is still unbound. *)

Definition sm_in_binding (b : TransactionRaftBinding) (m : StagedMutation Value) : Prop :=
  match b with
  | LocalSingleNode => True
  | UnboundCluster => False
  | BoundCluster g _ =>
      resolve_group_id (sm_table_id m) (sm_table_type m) (sm_user_id m) = Ok (Some g)
  end.

Definition mutation_ok (tx : TransactionId) (b : TransactionRaftBinding)
    (m : StagedMutation Value) : Prop :=
  sm_transaction_id m = tx /\ (sm_table_type m = User \/ sm_table_type m = Shared) /\
  sm_in_binding b m.

Record ws_ok (tx : TransactionId) (h : TransactionHandle) (ws : TransactionWriteSet Value) :
    Prop := {
  wo_inv : ws_inv scalar_size ws;
  wo_tx : ws_transaction_id ws = tx;
  wo_limit : total_size scalar_size (ordered_mutations ws) <= max_transaction_buffer_bytes app;
  wo_bytes : h_write_bytes h = buffer_bytes ws;
  wo_count : h_write_count h = affected_rows ws;
  wo_mutations : Forall (mutation_ok tx (h_raft_binding h)) (ordered_mutations ws)
}.

(** The three maps agree: owners and handles are in bijection, every write set belongs to a
    handle that describes it, and an open transaction without a write set has written nothing. *)
Record maps_inv (owners : gmap ExecutionOwnerKey TransactionId)
    (handles : gmap TransactionId TransactionHandle)
    (wss : gmap TransactionId (TransactionWriteSet Value)) : Prop := {
  mi_handle tx h :
    handles !! tx = Some h -> h_transaction_id h = tx /\ owners !! h_owner_key h = Some tx;
  mi_mode tx h :
    handles !! tx = Some h ->
    (h_raft_binding h = LocalSingleNode <-> cluster app = None) /\ h_state h ≠ Committed;
  mi_owner o tx :
    owners !! o = Some tx -> exists h, handles !! tx = Some h /\ h_owner_key h = o;
  mi_write_set tx ws :
    wss !! tx = Some ws -> exists h, handles !! tx = Some h /\ ws_ok tx h ws;
  mi_unwritten tx h :
    handles !! tx = Some h -> wss !! tx = None -> is_open (h_state h) = true ->
    h_write_bytes h = 0 /\ h_write_count h = 0%nat
}.

Definition coord_inv (c : TransactionCoordinator) : Prop :=
  maps_inv (active_by_owner c) (active_by_id c) (write_sets c).

(** Same transaction and owner, both or neither on a single node, and not newly committed. *)
Definition same_ids (h h' : TransactionHandle) : Prop :=
  h_transaction_id h' = h_transaction_id h /\ h_owner_key h' = h_owner_key h /\
  (h_raft_binding h' = LocalSingleNode <-> h_raft_binding h = LocalSingleNode) /\
  (h_state h' = Committed -> h_state h = Committed).

Lemma maps_handle_upd owners handles wss tx h h' :
  maps_inv owners handles wss -> handles !! tx = Some h -> same_ids h h' ->
  (forall ws, wss !! tx = Some ws -> ws_ok tx h' ws) ->
  (wss !! tx = None -> is_open (h_state h') = true ->
     h_write_bytes h' = 0 /\ h_write_count h' = 0%nat) ->
  maps_inv owners (<[ tx := h' ]> handles) wss.
Proof.
  intros Hinv Htx (Hid & Hown & Hmode & Hcom) Hws Hun. split.
  - intros tx' h'' [[<- <-]|[Hne Hh]]%lookup_insert_Some.
    + rewrite Hid, Hown. by apply (mi_handle _ _ _ Hinv).
    + by apply (mi_handle _ _ _ Hinv).
  - intros tx' h'' [[<- <-]|[Hne Hh]]%lookup_insert_Some; [|by apply (mi_mode _ _ _ Hinv tx')].
    rewrite Hmode. destruct (mi_mode _ _ _ Hinv tx h Htx). naive_solver.
  - intros o tx' Ho. destruct (mi_owner _ _ _ Hinv o tx' Ho) as [h0 [Hh0 Ho0]].
    destruct (decide (tx' = tx)) as [->|Hne].
    + exists h'. rewrite lookup_insert_eq. split; [done|]. congruence.
    + exists h0. by rewrite lookup_insert_ne.
  - intros tx' ws Hw. destruct (mi_write_set _ _ _ Hinv tx' ws Hw) as [h0 [Hh0 Hok]].
    destruct (decide (tx' = tx)) as [->|Hne].
    + exists h'. rewrite lookup_insert_eq. split; [done|]. by apply Hws.
    + exists h0. by rewrite lookup_insert_ne.
  - intros tx' h'' [[<- <-]|[Hne Hh]]%lookup_insert_Some; [done|].
    by apply (mi_unwritten _ _ _ Hinv tx').
Qed.

Lemma maps_ws_upd owners handles wss tx h ws :
  maps_inv owners handles wss -> handles !! tx = Some h -> ws_ok tx h ws ->
  maps_inv owners handles (<[ tx := ws ]> wss).
Proof.
  intros Hinv Htx Hok. split.
  - apply (mi_handle _ _ _ Hinv).
  - apply (mi_mode _ _ _ Hinv).
  - apply (mi_owner _ _ _ Hinv).
  - intros tx' ws' [[<- <-]|[Hne Hw]]%lookup_insert_Some; [eauto|].
    by apply (mi_write_set _ _ _ Hinv).
  - intros tx' h' Hh [Hw Hne]%lookup_insert_None. by apply (mi_unwritten _ _ _ Hinv tx').
Qed.

(** Replacing a handle together with the write set it describes. *)
Lemma maps_both_upd owners handles wss tx h h' ws :
  maps_inv owners handles wss -> handles !! tx = Some h -> same_ids h h' -> ws_ok tx h' ws ->
  maps_inv owners (<[ tx := h' ]> handles) (<[ tx := ws ]> wss).
Proof.
  intros Hinv Htx (Hid & Hown & Hmode & Hcom) Hok. split.
  - intros tx' h'' [[<- <-]|[Hne Hh]]%lookup_insert_Some.
    + rewrite Hid, Hown. by apply (mi_handle _ _ _ Hinv).
    + by apply (mi_handle _ _ _ Hinv).
  - intros tx' h'' [[<- <-]|[Hne Hh]]%lookup_insert_Some; [|by apply (mi_mode _ _ _ Hinv tx')].
    rewrite Hmode. destruct (mi_mode _ _ _ Hinv tx h Htx). naive_solver.
  - intros o tx' Ho. destruct (mi_owner _ _ _ Hinv o tx' Ho) as [h0 [Hh0 Ho0]].
    destruct (decide (tx' = tx)) as [->|Hne].
    + exists h'. rewrite lookup_insert_eq. split; [done|]. congruence.
    + exists h0. by rewrite lookup_insert_ne.
  - intros tx' ws' [[<- <-]|[Hne Hw]]%lookup_insert_Some.
    + exists h'. by rewrite lookup_insert_eq.
    + rewrite lookup_insert_ne by done. by apply (mi_write_set _ _ _ Hinv).
  - intros tx' h'' [[<- <-]|[Hne Hh]]%lookup_insert_Some [Hw Hne']%lookup_insert_None; [done|].
    by apply (mi_unwritten _ _ _ Hinv tx').
Qed.

Lemma maps_ws_drop owners handles wss tx h :
  maps_inv owners handles wss -> handles !! tx = Some h -> is_open (h_state h) = false ->
  maps_inv owners handles (delete tx wss).
Proof.
  intros Hinv Htx Hop. split.
  - apply (mi_handle _ _ _ Hinv).
  - apply (mi_mode _ _ _ Hinv).
  - apply (mi_owner _ _ _ Hinv).
  - intros tx' ws' [_ Hw]%lookup_delete_Some. by apply (mi_write_set _ _ _ Hinv).
  - intros tx' h' Hh [->|Hw]%lookup_delete_None Ho; [congruence|].
    by apply (mi_unwritten _ _ _ Hinv tx').
Qed.

Lemma maps_forget owners handles wss tx h :
  maps_inv owners handles wss -> handles !! tx = Some h ->
  maps_inv (delete (h_owner_key h) owners) (delete tx handles) (delete tx wss).
Proof.
  intros Hinv Htx. destruct (mi_handle _ _ _ Hinv tx h Htx) as [_ Hown]. split.
  - intros tx' h' [Hne Hh]%lookup_delete_Some.
    destruct (mi_handle _ _ _ Hinv tx' h' Hh) as [Hid Ho]. split; [done|].
    rewrite lookup_delete_ne; [done|]. intros E. rewrite E in Hown. congruence.
  - intros tx' h' [Hne Hh]%lookup_delete_Some. by apply (mi_mode _ _ _ Hinv tx').
  - intros o tx' [Hne Ho]%lookup_delete_Some.
    destruct (mi_owner _ _ _ Hinv o tx' Ho) as [h' [Hh' <-]]. exists h'.
    rewrite lookup_delete_ne; [done|]. intros ->. congruence.
  - intros tx' ws [Hne Hw]%lookup_delete_Some.
    destruct (mi_write_set _ _ _ Hinv tx' ws Hw) as [h' [Hh' Hok]]. exists h'.
    by rewrite lookup_delete_ne.
  - intros tx' h' [Hne Hh]%lookup_delete_Some Hw. rewrite lookup_delete_ne in Hw by done.
    by apply (mi_unwritten _ _ _ Hinv tx').
Qed.

Lemma maps_add owners handles wss tx h :
  maps_inv owners handles wss -> handles !! tx = None -> owners !! h_owner_key h = None ->
  h_transaction_id h = tx -> h_write_bytes h = 0 -> h_write_count h = 0%nat ->
  (h_raft_binding h = LocalSingleNode <-> cluster app = None) -> h_state h = OpenRead ->
  maps_inv (<[ h_owner_key h := tx ]> owners) (<[ tx := h ]> handles) wss.
Proof.
  intros Hinv Htx Hown Hid Hb Hc Hmode Hst. split.
  - intros tx' h' [[<- <-]|[Hne Hh]]%lookup_insert_Some.
    + by rewrite lookup_insert_eq.
    + destruct (mi_handle _ _ _ Hinv tx' h' Hh) as [Hid' Ho']. split; [done|].
      rewrite lookup_insert_ne; [done|]. congruence.
  - intros tx' h' [[<- <-]|[Hne Hh]]%lookup_insert_Some; [by rewrite Hst|].
    by apply (mi_mode _ _ _ Hinv tx').
  - intros o tx' [[<- <-]|[Hne Ho]]%lookup_insert_Some.
    + exists h. by rewrite lookup_insert_eq.
    + destruct (mi_owner _ _ _ Hinv o tx' Ho) as [h' [Hh' Ho']]. exists h'.
      rewrite lookup_insert_ne; [done|]. congruence.
  - intros tx' ws Hw. destruct (mi_write_set _ _ _ Hinv tx' ws Hw) as [h' [Hh' Hok]].
    exists h'. rewrite lookup_insert_ne; [done|]. congruence.
  - intros tx' h' [[<- <-]|[Hne Hh]]%lookup_insert_Some; [done|].
    by apply (mi_unwritten _ _ _ Hinv tx').
Qed.

Lemma coordinator_new_inv t : coord_inv (coordinator_new t).
Proof.
  split; simpl.
  - intros tx h. by rewrite lookup_empty.
  - intros tx h. by rewrite lookup_empty.
  - intros o tx. by rewrite lookup_empty.
  - intros tx ws. by rewrite lookup_empty.
  - intros tx h. by rewrite lookup_empty.
Qed.

(** ** Every method preserves the invariant *)

(** The configured limit is below [usize::MAX], the value saturating sums stop at. *)
Context (Hlimit : 0 <= max_transaction_buffer_bytes app < u64_max).

Lemma ws_ok_frame tx h h' ws :
  ws_ok tx h ws -> h_raft_binding h' = h_raft_binding h -> h_write_bytes h' = h_write_bytes h ->
  h_write_count h' = h_write_count h -> ws_ok tx h' ws.
Proof. intros [???? ? Hm] Hb Hw Hc. split; try done; congruence. Qed.

(** An unbound transaction has staged nothing, so binding it cannot misplace a mutation. *)
Lemma ws_ok_bind tx h h' ws :
  ws_ok tx h ws -> h_raft_binding h = UnboundCluster -> h_write_bytes h' = h_write_bytes h ->
  h_write_count h' = h_write_count h -> ws_ok tx h' ws.
Proof.
  intros [???? ? Hm] Hb Hw Hc. rewrite Hb in Hm.
  assert (ordered_mutations ws = []) as E.
  { destruct (ordered_mutations ws); [done|]. by apply Forall_cons in Hm as [[_ [_ []]] _]. }
  split; try done; try congruence. by rewrite E.
Qed.

(** A handle update that keeps identity and counts, and keeps the binding or makes a first one. *)
Definition benign (h h' : TransactionHandle) : Prop :=
  same_ids h h' /\ h_write_bytes h' = h_write_bytes h /\ h_write_count h' = h_write_count h /\
  (h_raft_binding h' = h_raft_binding h \/ h_raft_binding h = UnboundCluster) /\
  (is_open (h_state h') = true -> is_open (h_state h) = true).

Lemma maps_benign owners handles wss tx h h' :
  maps_inv owners handles wss -> handles !! tx = Some h -> benign h h' ->
  maps_inv owners (<[ tx := h' ]> handles) wss.
Proof.
  intros Hinv Htx (Hids & Hb & Hc & Hbind & Hop). eapply maps_handle_upd; [done|done|done| |].
  - intros ws Hw. destruct (mi_write_set _ _ _ Hinv tx ws Hw) as [h0 [Hh0 Hok]].
    rewrite Htx in Hh0. injection Hh0 as <-.
    destruct Hbind; [by eapply ws_ok_frame|by eapply ws_ok_bind].
  - intros Hw Ho. rewrite Hb, Hc. apply (mi_unwritten _ _ _ Hinv tx); auto.
Qed.

Lemma benign_mark_closed env s h :
  is_open s = false -> s ≠ Committed -> benign h (mark_state (now env) s h).
Proof. intros Hs Hc. repeat split; auto; simpl; [done|by rewrite Hs]. Qed.

Lemma benign_touch env h : benign h (touch (now env) h).
Proof. repeat split; auto. Qed.

(** What an accepted access establishes of the binding. *)
Definition access_in_binding (b : TransactionRaftBinding) (t : TableId) (ty : TableType)
    (user : option UserId) : Prop :=
  match b with
  | LocalSingleNode => True
  | UnboundCluster => ty = System
  | BoundCluster g _ => ty = System \/ resolve_group_id t ty user = Ok (Some g)
  end.

Lemma validate_ok env tx t ty user c c' :
  validate_table_access env tx t ty user c = (c', Ok tt) ->
  exists h h', active_by_id c !! tx = Some h /\ c' = set_handles (insert tx h') c /\
    benign h h' /\ access_in_binding (h_raft_binding h') t ty user.
Proof.
  unfold validate_table_access. destruct (active_by_id c !! tx) as [h|] eqn:Hh; [|done].
  destruct (is_open (h_state h)) eqn:Ho; simpl; [|done].
  destruct (resolve_group_id t ty user) as [[g|]|e] eqn:Hg; simpl; [| |done].
  - unfold bind_group. destruct (h_raft_binding h) as [| |bound l] eqn:Hb; simpl.
    + intros [= <-]. exists h. eexists. split_and!; [done|done| |by simpl; rewrite Hb].
      repeat split; auto.
    + destruct (current_leader_for_group env g) as [l|]; simpl; [|done].
      intros [= <-]. exists h. eexists. split_and!; [done|done| |by right].
      repeat split; auto; simpl; congruence.
    + destruct (decide (bound = g)) as [->|]; simpl; [|done].
      intros [= <-]. exists h. eexists. split_and!; [done|done| |by simpl; rewrite Hb; right].
      repeat split; auto.
  - assert (ty = System) as ->.
    { destruct ty, user; simpl in Hg; try done;
        by destruct (app_shared_group_id t). }
    intros [= <-]. exists h. eexists. split_and!; [done|done|apply benign_touch|].
    simpl. destruct (h_raft_binding h); simpl; auto.
Qed.

Lemma validate_err env tx t ty user c c' e :
  validate_table_access env tx t ty user c = (c', Err e) -> c' = c.
Proof.
  unfold validate_table_access. destruct (active_by_id c !! tx) as [h|]; [|naive_solver].
  destruct (is_open (h_state h)); simpl; [|naive_solver].
  destruct (resolve_group_id t ty user) as [[g|]|]; [|naive_solver|naive_solver].
  destruct (bind_group env tx t g h); naive_solver.
Qed.

Lemma validate_inv env tx t ty user c :
  coord_inv c -> coord_inv (validate_table_access env tx t ty user c).1.
Proof.
  intros Hinv. destruct (validate_table_access env tx t ty user c) as [c' [[]|e]] eqn:E; simpl.
  - apply validate_ok in E as (h & h' & Hh & -> & Hbe & _). by eapply maps_benign.
  - by apply validate_err in E as ->.
Qed.

Lemma check_mutation_ok tx m :
  check_mutation tx m = Ok tt ->
  sm_transaction_id m = tx /\ (sm_table_type m = User \/ sm_table_type m = Shared).
Proof. unfold check_mutation. repeat case_decide; try done. destruct (sm_table_type m); naive_solver. Qed.

Lemma access_mutation_ok tx b m :
  check_mutation tx m = Ok tt ->
  access_in_binding b (sm_table_id m) (sm_table_type m) (sm_user_id m) -> mutation_ok tx b m.
Proof.
  intros [Htx Hty]%check_mutation_ok Hacc. split_and!; [done|done|].
  destruct b; simpl in *; [done| |]; destruct Hty as [Hty|Hty]; rewrite Hty in *; naive_solver.
Qed.

Definition targets_in (b : TransactionRaftBinding)
    (targets : gset (TableId * TableType * option UserId)) : Prop :=
  forall t ty user, (t, ty, user) ∈ targets ->
    (ty = User \/ ty = Shared) /\ access_in_binding b t ty user.

Lemma targets_in_benign h h' targets :
  benign h h' -> targets_in (h_raft_binding h) targets -> targets_in (h_raft_binding h') targets.
Proof.
  intros (_ & _ & _ & [->|Hb] & _) Ht; [done|]. rewrite Hb in Ht.
  intros t ty user Hin. destruct (Ht t ty user Hin) as [[-> | ->] E]; simpl in E; done.
Qed.

(** The validation loop of a batch only touches the handle, and leaves every mutation of the
    batch inside the transaction's binding. *)
Lemma validate_batch_ok env tx ms targets touched total c c' touched' total' :
  validate_batch env tx ms targets touched total c = (c', Ok (touched', total')) ->
  coord_inv c -> 0 <= total <= u64_max ->
  (forall h, active_by_id c !! tx = Some h -> targets_in (h_raft_binding h) targets) ->
  coord_inv c' /\ total' = Z.min u64_max (total + total_size scalar_size ms) /\
  (forall h', active_by_id c' !! tx = Some h' ->
     targets_in (h_raft_binding h') targets /\
     Forall (mutation_ok tx (h_raft_binding h')) ms).
Proof.
  revert targets touched total c. induction ms as [|m ms IH];
    intros targets touched total c; simpl.
  { intros [= <- <- <-] Hinv Ht Hh. split_and!; [done|lia|]. intros h' Hh'. split; [auto|done]. }
  destruct (check_mutation tx m) as [[]|e] eqn:Hck; [|done].
  pose proof (approximate_size_nonneg scalar_size m) as Hsz.
  pose proof (total_size_nonneg scalar_size ms) as Htot.
  destruct (decide ((sm_table_id m, sm_table_type m, sm_user_id m) ∈ targets)) as [Hin|Hnin].
  - intros Hv Hinv Ht Hh. eapply IH in Hv as (Hinv' & -> & Hall);
      [|done|unfold saturating_add; lia|done].
    split_and!; [done|unfold saturating_add; lia|]. intros h' Hh'.
    destruct (Hall h' Hh') as [Htg Hms]. split; [done|]. constructor; [|done].
    apply access_mutation_ok; [done|]. by apply Htg.
  - destruct (validate_table_access _ _ _ _ _ c) as [c1 [[]|e]] eqn:E; [|done].
    intros Hv Hinv Ht Hh. apply validate_ok in E as (h & h1 & Hh0 & -> & Hbe & Hacc).
    assert (coord_inv (set_handles (insert tx h1) c)) as Hinv1 by by eapply maps_benign.
    assert (targets_in (h_raft_binding h1)
              ({[ (sm_table_id m, sm_table_type m, sm_user_id m) ]} ∪ targets)) as Htg1.
    { intros t ty user [Hx|Hx]%elem_of_union.
      - apply elem_of_singleton in Hx. simplify_eq. split; [|done].
        by apply check_mutation_ok in Hck as [_ ?].
      - by eapply targets_in_benign; [|apply Hh|]. }
    eapply IH in Hv as (Hinv' & -> & Hall);
      [|done|unfold saturating_add; lia|simpl; rewrite lookup_insert_eq; naive_solver].
    split_and!; [done|unfold saturating_add; lia|]. intros h' Hh'.
    destruct (Hall h' Hh') as [Htg Hms]. split.
    + intros t ty user Hx. apply Htg. set_solver.
    + constructor; [|done]. apply access_mutation_ok; [done|]. apply Htg. set_solver.
Qed.

Lemma validate_batch_inv env tx ms targets touched total c :
  coord_inv c -> coord_inv (validate_batch env tx ms targets touched total c).1.
Proof.
  revert targets touched total c. induction ms as [|m ms IH];
    intros targets touched total c Hinv; simpl; [done|].
  destruct (check_mutation tx m); [|done]. case_decide; [by apply IH|].
  pose proof (validate_inv env tx (sm_table_id m) (sm_table_type m) (sm_user_id m) c Hinv) as H1.
  destruct (validate_table_access _ _ _ _ _ c) as [c1 [[]|e]]; [by apply IH|done].
Qed.

Lemma mutation_ok_order tx b m o : mutation_ok tx b m -> mutation_ok tx b (with_order m o).
Proof. by destruct m. Qed.

Lemma stage_all_ok tx b ws ms :
  ws_inv scalar_size ws -> ws_transaction_id ws = tx ->
  Forall (mutation_ok tx b) (ordered_mutations ws) -> Forall (mutation_ok tx b) ms ->
  let ws' := foldl (fun ws p => (stage_with_estimated_size ws p.1 p.2).1) ws
               ((fun m => (m, approximate_size_bytes scalar_size m)) <$> ms) in
  ws_inv scalar_size ws' /\ ws_transaction_id ws' = tx /\
  Forall (mutation_ok tx b) (ordered_mutations ws') /\
  total_size scalar_size (ordered_mutations ws') =
    total_size scalar_size (ordered_mutations ws) + total_size scalar_size ms.
Proof.
  revert ws. induction ms as [|m ms IH]; intros ws Hws Htx Hold Hms; simpl.
  { split_and!; [done|done|done|lia]. }
  apply Forall_cons in Hms as [Hm Hms].
  destruct (IH (stage scalar_size ws m).1) as (H1 & H2 & H3 & H4); try done.
  - by apply stage_inv.
  - simpl. apply Forall_app. split; [done|]. constructor; [|done]. by apply mutation_ok_order.
  - split_and!; [done|done|done|]. etransitivity; [exact H4|]. simpl.
    rewrite total_size_app. simpl. rewrite size_with_order. lia.
Qed.

(** The write set a stage starts from describes the handle, also when it is a fresh one. *)
Lemma write_set_entry_ok c tx h :
  coord_inv c -> active_by_id c !! tx = Some h -> is_open (h_state h) = true ->
  ws_ok tx h (write_set_entry c tx).
Proof.
  intros Hinv Hh Ho. unfold write_set_entry.
  destruct (write_sets c !! tx) as [ws|] eqn:Hw; simpl.
  - destruct (mi_write_set _ _ _ Hinv tx ws Hw) as [h0 [Hh0 Hok]]. congruence.
  - destruct (mi_unwritten _ _ _ Hinv tx h Hh Hw Ho) as [Hb Hc].
    split; simpl; [apply write_set_new_inv|done|lia|done|done|constructor].
Qed.

Lemma ensure_leadership_cases env tx h :
  let '(h1, r) := ensure_bound_leadership_is_current env tx h in
  (r = Ok tt /\ h1 = h) \/ (exists e, r = Err e /\ h1 = mark_state (now env) Aborted h).
Proof.
  unfold ensure_bound_leadership_is_current. destruct (h_raft_binding h); eauto.
  case_decide; eauto.
Qed.

Lemma abort_inv env tx c : coord_inv c -> coord_inv (mark_transaction_aborted env tx c).
Proof.
  intros Hinv. unfold mark_transaction_aborted.
  destruct (active_by_id c !! tx) as [h|] eqn:Hh; [|done].
  eapply maps_benign; [done|done|by apply benign_mark_closed].
Qed.

(** Closing a transaction and dropping its write set. *)
Lemma close_inv env s tx c h :
  coord_inv c -> active_by_id c !! tx = Some h -> is_open s = false -> s ≠ Committed ->
  coord_inv (set_write_sets (delete tx)
               (set_handles (insert tx (mark_state (now env) s h)) c)).
Proof.
  intros Hinv Hh Hs Hc. unfold coord_inv. simpl. eapply maps_ws_drop.
  - eapply maps_benign; [done|done|by apply benign_mark_closed].
  - apply lookup_insert_eq.
  - done.
Qed.

Lemma stage_checked_inv env tx ms total record c :
  coord_inv c ->
  (forall h, active_by_id c !! tx = Some h -> Forall (mutation_ok tx (h_raft_binding h)) ms) ->
  total = Z.min u64_max (total_size scalar_size ms) ->
  (forall n b h, same_ids h (record n b h) /\ h_raft_binding (record n b h) = h_raft_binding h /\
     h_write_bytes (record n b h) = b /\ h_write_count (record n b h) = n) ->
  coord_inv (stage_checked env tx
               ((fun m => (m, approximate_size_bytes scalar_size m)) <$> ms) total record c).1.
Proof.
  intros Hinv Hms Htotal Hrec. unfold stage_checked.
  destruct (active_by_id c !! tx) as [h|] eqn:Hh; [|done].
  destruct (is_open (h_state h)) eqn:Ho; simpl; [|done].
  pose proof (ensure_leadership_cases env tx h) as Hled.
  destruct (ensure_bound_leadership_is_current env tx h) as [h1 led].
  destruct Hled as [[-> ->]|[e [-> ->]]]; simpl.
  2:{ apply abort_inv. eapply maps_benign; [done|done|by apply benign_mark_closed]. }
  pose proof (write_set_entry_ok c tx h Hinv Hh Ho) as Hentry.
  destruct (_ <? saturating_add (h_write_bytes h) total) eqn:Hlim; simpl.
  { by apply (close_inv env Aborted tx c h). }
  destruct Hentry as [Hwi Hwt Hwl Hwb Hwc Hwm].
  pose proof (total_size_nonneg scalar_size (ordered_mutations (write_set_entry c tx))).
  pose proof (total_size_nonneg scalar_size ms).
  destruct (stage_all_ok tx (h_raft_binding h) (write_set_entry c tx) ms)
    as (H1 & H2 & H3 & H4); [done|done|done|by apply Hms|].
  set (ws := foldl _ _ _) in *.
  assert (total_size scalar_size (ordered_mutations ws) <= max_transaction_buffer_bytes app).
  { zbool. rewrite Hwb, (buffer_total scalar_size) in Hlim by (try done; lia).
    unfold saturating_add in Hlim. lia. }
  destruct (Hrec (affected_rows ws) (buffer_bytes ws) h) as (Hids & Hbind & Hbytes & Hcount).
  set (h2 := record _ _ _) in *.
  assert (ws_ok tx h2 ws) as Hok.
  { split; try done. by rewrite Hbind. }
  unfold coord_inv. simpl. by eapply maps_both_upd.
Qed.

Lemma stage_mutation_inv env tx m c : coord_inv c -> coord_inv (stage_mutation env tx m c).1.
Proof.
  intros Hinv. unfold stage_mutation.
  destruct (check_mutation tx m) as [[]|e] eqn:Hck; [|done].
  pose proof (validate_inv env tx (sm_table_id m) (sm_table_type m) (sm_user_id m) c Hinv) as H1.
  destruct (validate_table_access _ _ _ _ _ c) as [c1 [[]|e]] eqn:E; [|done]. simpl in H1.
  apply (stage_checked_inv env tx [m]); [done| | |].
  - apply validate_ok in E as (h & h1 & Hh & -> & Hbe & Hacc). simpl.
    intros h2. rewrite lookup_insert_eq. intros [= <-]. constructor; [|done].
    by apply access_mutation_ok.
  - pose proof (wrap64_range (str_len (sm_primary_key m) + str_len (full_name (sm_table_id m))
      + match sm_user_id m with Some u => str_len u | None => 0 end
      + approximate_row_size_bytes scalar_size (sm_payload m) + 8)) as Hr.
    fold (approximate_size_bytes scalar_size m) in Hr.
    simpl. unfold u64_max, u64_modulus in *. lia.
  - intros n b h. by repeat split.
Qed.

Lemma stage_batch_inv env tx ms c : coord_inv c -> coord_inv (stage_batch env tx ms c).1.
Proof.
  intros Hinv. unfold stage_batch. destruct ms as [|m ms']; [done|].
  set (ms := m :: ms').
  pose proof (validate_batch_inv env tx ms ∅ ∅ 0 c Hinv) as H1.
  destruct (validate_batch env tx ms ∅ ∅ 0 c) as [c1 [[touched total]|e]] eqn:E; [|done].
  apply validate_batch_ok in E as (Hinv1 & -> & Hall);
    [|done|unfold u64_max; lia|intros h _ t ty user; set_solver].
  apply stage_checked_inv; [done| |by rewrite Z.add_0_l|].
  - intros h Hh. by apply Hall.
  - intros n b h. by repeat split.
Qed.

(** Forgetting a transaction whose write set is already gone. *)
Lemma maps_forget_no_ws owners handles wss tx h :
  maps_inv owners handles wss -> handles !! tx = Some h -> wss !! tx = None ->
  maps_inv (delete (h_owner_key h) owners) (delete tx handles) wss.
Proof. intros Hinv Hh Hw. rewrite <-(delete_id wss tx Hw). by apply maps_forget. Qed.

Lemma commit_empty_inv tx c h :
  coord_inv c -> active_by_id c !! tx = Some h -> write_sets c !! tx = None ->
  coord_inv (commit_empty tx (h_owner_key h) c).1.
Proof.
  intros Hinv Hh Hw. unfold commit_empty. simpl. rewrite Hh.
  unfold flush_staged_publishes. simpl. destruct (publish_all _ _) as [log r].
  by apply maps_forget_no_ws.
Qed.

(** What sealing leaves: either the commit is decided, or the transaction is in [Committing] with
    no write set, and the mutations handed on are those of its write set. *)
Lemma commit_seal_spec env tx c c' out :
  coord_inv c -> commit_seal env tx c = (c', out) ->
  coord_inv c' /\
  match out with
  | SealDone _ => True
  | SealPending owner affected ms =>
      exists h ws, active_by_id c !! tx = Some h /\ is_open (h_state h) = true /\
        write_sets c !! tx = Some ws /\ owner = h_owner_key h /\
        affected = affected_rows ws /\ ms = ordered_mutations ws /\
        active_by_id c' !! tx = Some (mark_state (now env) Committing h) /\
        write_sets c' !! tx = None
  end.
Proof.
  intros Hinv. unfold commit_seal.
  destruct (active_by_id c !! tx) as [h|] eqn:Hh; [|by intros [= <- <-]].
  destruct (is_open (h_state h)) eqn:Ho; simpl; [|by intros [= <- <-]].
  pose proof (ensure_leadership_cases env tx h) as Hled.
  destruct (ensure_bound_leadership_is_current env tx h) as [h1 led].
  destruct Hled as [[-> ->]|[e [-> ->]]]; simpl.
  2:{ intros [= <- <-]. split; [|done]. apply abort_inv.
      eapply maps_benign; [done|done|by apply benign_mark_closed]. }
  assert (Committing ≠ Committed) as Hnc by done.
  pose proof (close_inv env Committing tx c h Hinv Hh eq_refl Hnc) as Hinv1.
  set (c1 := set_write_sets (delete tx) _) in *.
  assert (active_by_id c1 !! tx = Some (mark_state (now env) Committing h)) as Hh1
    by apply lookup_insert_eq.
  assert (write_sets c1 !! tx = None) as Hw1 by apply lookup_delete_eq.
  assert (coord_inv (commit_empty tx (h_owner_key h) c1).1) as Hempty
    by by apply (commit_empty_inv tx c1 (mark_state (now env) Committing h)).
  destruct (write_sets c !! tx) as [ws|] eqn:Hw; [destruct (ordered_mutations ws) eqn:Hms|].
  - destruct (commit_empty _ _ c1) as [c3 r]. by intros [= <- <-].
  - intros [= <- <-]. split; [done|]. exists h, ws. by split_and!.
  - destruct (commit_empty _ _ c1) as [c3 r]. by intros [= <- <-].
Qed.

Lemma commit_finish_inv tx affected resp c h :
  coord_inv c -> active_by_id c !! tx = Some h -> write_sets c !! tx = None ->
  coord_inv (commit_finish tx (h_owner_key h) affected resp c).1.
Proof.
  intros Hinv Hh Hw. unfold commit_finish. destruct resp as [resp|]; simpl.
  2:{ by apply maps_forget_no_ws. }
  destruct (committed_commit_seq resp) as [seq|]; simpl; [|done].
  rewrite Hh. unfold flush_staged_publishes.
  destruct (h_raft_binding h); simpl; destruct (publish_all _ _) as [log r];
    by apply maps_forget_no_ws.
Qed.

Lemma commit_inv env apply tx c : coord_inv c -> coord_inv (commit env apply tx c).1.
Proof.
  intros Hinv. unfold commit. destruct (commit_seal env tx c) as [c1 out] eqn:E.
  destruct (commit_seal_spec env tx c c1 out Hinv E) as [Hinv1 Hout].
  destruct out as [r|owner affected ms]; [done|].
  destruct Hout as (h & ws & _ & _ & _ & -> & _ & _ & Hh1 & Hw1).
  by apply (commit_finish_inv tx affected (apply tx ms) c1 (mark_state (now env) Committing h)).
Qed.

Lemma forget_inv tx c h :
  coord_inv c -> active_by_id c !! tx = Some h ->
  coord_inv (forget_transaction tx (h_owner_key h) c).
Proof. intros Hinv Hh. unfold coord_inv. simpl. by apply maps_forget. Qed.

Lemma rollback_inv env tx c : coord_inv c -> coord_inv (rollback env tx c).1.
Proof.
  intros Hinv. unfold rollback. destruct (active_by_id c !! tx) as [h|] eqn:Hh; [|done].
  assert (coord_inv (forget_transaction tx (h_owner_key h)
            (set_handles (insert tx (mark_state (now env) RollingBack h)) c))) as Hf.
  { apply (forget_inv tx _ (mark_state (now env) RollingBack h)).
    - eapply maps_benign; [done|done|by apply benign_mark_closed].
    - apply lookup_insert_eq. }
  destruct (h_state h); simpl; try (by apply forget_inv); try done;
    by rewrite lookup_insert_eq.
Qed.

Lemma initial_binding_mode : initial_raft_binding = LocalSingleNode <-> cluster app = None.
Proof. unfold initial_raft_binding. by destruct (cluster app). Qed.

Lemma begin_inv env tx owner owner_id origin c :
  coord_inv c -> active_by_id c !! tx = None ->
  coord_inv (begin env tx owner owner_id origin c).1.
Proof.
  intros Hinv Hfresh. unfold begin.
  set (h := handle_new _ _ _ _ _ _).
  destruct (active_by_owner c !! owner) as [existing|] eqn:Ho.
  - destruct (mi_owner _ _ _ Hinv owner existing Ho) as [h0 [Hh0 Hk]]. rewrite Hh0.
    destruct (is_open (h_state h0)); simpl; [done|].
    pose proof (maps_forget _ _ _ existing h0 Hinv Hh0) as Hf. rewrite Hk in Hf.
    unfold coord_inv. simpl.
    assert (forall m : gmap ExecutionOwnerKey TransactionId,
              <[ owner := tx ]> m = <[ owner := tx ]> (delete owner m)) as ->.
    { intros m. by rewrite insert_delete_eq. }
    apply (maps_add _ _ _ tx h); try done; try apply initial_binding_mode.
    + by apply lookup_delete_None; right.
    + apply lookup_delete_eq.
  - apply (maps_add _ _ _ tx h); try done. apply initial_binding_mode.
Qed.

Lemma savepoint_inv env tx name c : coord_inv c -> coord_inv (savepoint env tx name c).1.
Proof.
  intros Hinv. unfold savepoint. destruct (active_by_id c !! tx) as [h|] eqn:Hh; [|done].
  destruct (is_open (h_state h)) eqn:Ho; simpl; [|done]. unfold coord_inv. simpl.
  destruct (write_set_entry_ok c tx h Hinv Hh Ho). unfold write_set_entry in *. simpl.
  eapply maps_both_upd; [done|exact Hh|done|].
  split; try done. by apply push_savepoint_inv.
Qed.

Lemma release_savepoint_coord_inv env tx name c :
  coord_inv c -> coord_inv (coordinator_release_savepoint env tx name c).1.
Proof.
  intros Hinv. unfold coordinator_release_savepoint.
  destruct (active_by_id c !! tx) as [h|] eqn:Hh; [|done].
  destruct (is_open (h_state h)) eqn:Ho; simpl; [|done].
  destruct (write_sets c !! tx) as [ws|] eqn:Hw; simpl.
  - destruct (mi_write_set _ _ _ Hinv tx ws Hw) as [h0 [Hh0 Hok]].
    rewrite Hh in Hh0. injection Hh0 as <-. destruct Hok as [H1 H2 H3 H4 H5 H6].
    pose proof (release_savepoint_inv scalar_size ws name H1) as Hr.
    assert (ws_ok tx (touch (now env) h) (release_savepoint ws name).1) as Hok.
    { unfold release_savepoint in *. destruct (find_savepoint ws name); by split. }
    destruct (release_savepoint ws name) as [ws1 b]. simpl in *. unfold coord_inv. simpl.
    by eapply maps_both_upd.
  - eapply maps_benign; [done|done|apply benign_touch].
Qed.

Lemma rollback_to_savepoint_result ws name ws1 n b :
  rollback_to_savepoint scalar_size ws name = (ws1, Some (n, b)) ->
  (exists k, ordered_mutations ws1 = take k (ordered_mutations ws)) /\
  n = affected_rows ws1 /\ b = buffer_bytes ws1 /\
  ws_transaction_id ws1 = ws_transaction_id ws.
Proof.
  unfold rollback_to_savepoint. destruct (find_savepoint ws name) as [pos|]; [|done].
  destruct (savepoints ws !! pos) as [target|]; [|done]. intros [= <- <- <-].
  set (ws' := set_savepoints _ _ _).
  destruct (truncate_frame scalar_size ws' (sp_mutation_count target) (sp_next_order target))
    as (Htx & _ & Hm & _). split_and!; [|done|done|done]. eauto.
Qed.

Lemma rollback_to_savepoint_coord_inv env tx name c :
  coord_inv c -> coord_inv (coordinator_rollback_to_savepoint env tx name c).1.
Proof.
  intros Hinv. unfold coordinator_rollback_to_savepoint.
  destruct (active_by_id c !! tx) as [h|] eqn:Hh; [|done].
  assert (coord_inv (match write_sets c !! tx with
     | None => (c, Err (SavepointDoesNotExist (trim name)))
     | Some ws =>
         match rollback_to_savepoint scalar_size ws name with
         | (_, None) => (c, Err (SavepointDoesNotExist (trim name)))
         | (ws1, Some (count, bytes)) =>
             let open := if (0 <? Z.of_nat count) then OpenWrite else OpenRead in
             let h1 := mark_state (now env) open
                         (set_writes count bytes (0 <? Z.of_nat count) h) in
             (set_handles (insert tx h1) (set_write_sets (insert tx ws1) c), Ok tt)
         end
     end).1) as Hgo.
  { destruct (write_sets c !! tx) as [ws|] eqn:Hw; [|done].
    destruct (mi_write_set _ _ _ Hinv tx ws Hw) as [h0 [Hh0 Hok]].
    rewrite Hh in Hh0. injection Hh0 as <-. destruct Hok as [H1 H2 H3 H4 H5 H6].
    pose proof (rollback_to_savepoint_inv scalar_size ws name H1) as Hr.
    destruct (rollback_to_savepoint scalar_size ws name) as [ws1 [[n b]|]] eqn:E; [|done].
    apply rollback_to_savepoint_result in E as ([k Hk] & Hn & Hb & Htx).
    unfold coord_inv. simpl.
    eapply maps_both_upd; [done|exact Hh|repeat split; auto; simpl; by case_match|].
    split; simpl.
    - done.
    - congruence.
    - rewrite Hk. pose proof (total_size_take scalar_size k (ordered_mutations ws)). lia.
    - done.
    - done.
    - rewrite Hk. by apply Forall_take. }
  by destruct (h_state h).
Qed.

Lemma timeout_inv env tx c : coord_inv c -> coord_inv (timeout_transaction env tx c).
Proof.
  intros Hinv. unfold timeout_transaction.
  destruct (active_by_id c !! tx) as [h|] eqn:Hh; [|done].
  destruct (is_open (h_state h)); simpl; [|done]. by apply (close_inv env TimedOut tx c h).
Qed.

Lemma sweep_inv env c : coord_inv c -> coord_inv (sweep_timed_out_transactions env c).
Proof.
  intros Hinv. unfold sweep_timed_out_transactions. generalize (h_transaction_id <$>
    filter (fun h => expired env h = true) (map_to_list (active_by_id c)).*2). intros l.
  revert c Hinv. induction l as [|tx l IH]; simpl; intros c Hinv; [done|].
  apply IH. by apply timeout_inv.
Qed.

(** ** Sequences of calls *)

Inductive CoordOp :=
| CBegin (tx : TransactionId) (owner : ExecutionOwnerKey) (owner_id : string)
    (origin : TransactionOrigin)
| CStage (tx : TransactionId) (m : StagedMutation Value)
| CStageBatch (tx : TransactionId) (ms : list (StagedMutation Value))
| CCommit (apply : TransactionId -> list (StagedMutation Value) -> option DataResponse)
    (tx : TransactionId)
| CRollback (tx : TransactionId)
| CAccess (tx : TransactionId) (t : TableId) (ty : TableType) (user : option UserId)
| CSavepoint (tx : TransactionId) (name : string)
| CReleaseSavepoint (tx : TransactionId) (name : string)
| CRollbackToSavepoint (tx : TransactionId) (name : string)
| CAbort (tx : TransactionId)
| CStagePublish (tx : TransactionId) (p : StagedTopicPublish)
| CSweep.

Definition coord_step (c : TransactionCoordinator) (e : Env * CoordOp) : TransactionCoordinator :=
  let env := e.1 in
  match e.2 with
  | CBegin tx owner owner_id origin => (begin env tx owner owner_id origin c).1
  | CStage tx m => (stage_mutation env tx m c).1
  | CStageBatch tx ms => (stage_batch env tx ms c).1
  | CCommit apply tx => (commit env apply tx c).1
  | CRollback tx => (rollback env tx c).1
  | CAccess tx t ty user => (validate_table_access env tx t ty user c).1
  | CSavepoint tx name => (savepoint env tx name c).1
  | CReleaseSavepoint tx name => (coordinator_release_savepoint env tx name c).1
  | CRollbackToSavepoint tx name => (coordinator_rollback_to_savepoint env tx name c).1
  | CAbort tx => mark_transaction_aborted env tx c
  | CStagePublish tx p => stage_publish tx p c
  | CSweep => sweep_timed_out_transactions env c
  end.

(** States reached by complete calls; a new transaction's UUID is not in use. *)
Inductive reachable (t : CommitSequenceTracker) : TransactionCoordinator -> Prop :=
| reach_new : reachable t (coordinator_new t)
| reach_step c e :
    reachable t c ->
    match e.2 with CBegin tx _ _ _ => active_by_id c !! tx = None | _ => True end ->
    reachable t (coord_step c e).

Lemma reachable_inv t c : reachable t c -> coord_inv c.
Proof.
  induction 1 as [|c [env op] Hr IH Hop]; [apply coordinator_new_inv|].
  destruct op; simpl in *.
  - by apply begin_inv.
  - by apply stage_mutation_inv.
  - by apply stage_batch_inv.
  - by apply commit_inv.
  - by apply rollback_inv.
  - by apply validate_inv.
  - by apply savepoint_inv.
  - by apply release_savepoint_coord_inv.
  - by apply rollback_to_savepoint_coord_inv.
  - by apply abort_inv.
  - exact IH.
  - by apply sweep_inv.
Qed.

Definition coord_run (c : TransactionCoordinator) (es : list (Env * CoordOp)) :
    TransactionCoordinator := foldl coord_step c es.

Fixpoint fresh_begins (c : TransactionCoordinator) (es : list (Env * CoordOp)) : bool :=
  match es with
  | [] => true
  | e :: rest =>
      match e.2 with
      | CBegin tx _ _ _ => bool_decide (active_by_id c !! tx = None)
      | _ => true
      end && fresh_begins (coord_step c e) rest
  end.

Lemma reachable_run t c es :
  reachable t c -> fresh_begins c es = true -> reachable t (coord_run c es).
Proof.
  revert c. induction es as [|e es IH]; intros c Hr; simpl; [done|].
  intros [Hf Hrest]%andb_true_iff. apply IH; [|done]. apply reach_step; [done|].
  destruct (e.2); try done. by apply bool_decide_eq_true in Hf.
Qed.

(** ** The sweep, transaction by transaction *)

Lemma timeout_other env tx tx' c :
  tx ≠ tx' ->
  active_by_id (timeout_transaction env tx c) !! tx' = active_by_id c !! tx' /\
  write_sets (timeout_transaction env tx c) !! tx' = write_sets c !! tx'.
Proof.
  intros Hne. unfold timeout_transaction. destruct (active_by_id c !! tx); [|done].
  case_match; simpl; [done|]. by rewrite lookup_insert_ne, lookup_delete_ne.
Qed.

Lemma timeout_all_other env l tx c :
  tx ∉ l ->
  let c' := foldl (fun c tx => timeout_transaction env tx c) c l in
  active_by_id c' !! tx = active_by_id c !! tx /\ write_sets c' !! tx = write_sets c !! tx.
Proof.
  revert c. induction l as [|tx' l IH]; intros c Hni; simpl; [done|].
  destruct (IH (timeout_transaction env tx' c)) as [H1 H2]; [set_solver|].
  destruct (timeout_other env tx' tx c) as [H3 H4]; [set_solver|].
  simpl in *. by rewrite H1, H2.
Qed.

Lemma timeout_all_in env l tx c h :
  NoDup l -> tx ∈ l -> active_by_id c !! tx = Some h -> is_open (h_state h) = true ->
  let c' := foldl (fun c tx => timeout_transaction env tx c) c l in
  active_by_id c' !! tx = Some (mark_state (now env) TimedOut h) /\ write_sets c' !! tx = None.
Proof.
  revert c. induction l as [|tx' l IH]; intros c; [set_solver|].
  intros [Hni Hnd]%NoDup_cons Hin Hh Ho. simpl.
  destruct (decide (tx' = tx)) as [->|Hne].
  - destruct (timeout_all_other env l tx (timeout_transaction env tx c) Hni) as [H1 H2].
    simpl in *. rewrite H1, H2. unfold timeout_transaction. rewrite Hh, Ho. simpl.
    by rewrite lookup_insert_eq, lookup_delete_eq.
  - apply IH; [done|set_solver| |done].
    by rewrite (proj1 (timeout_other env tx' tx c Hne)).
Qed.

Lemma expired_list_spec env c tx h :
  coord_inv c -> active_by_id c !! tx = Some h ->
  let l := h_transaction_id <$>
             filter (fun h => expired env h = true) (map_to_list (active_by_id c)).*2 in
  NoDup l /\ (tx ∈ l <-> expired env h = true).
Proof.
  intros Hinv Hh l. split.
  - unfold l. apply NoDup_fmap_2_strong.
    + intros h1 h2 H1 H2 E.
      apply list_elem_of_filter in H1 as [_ H1], H2 as [_ H2].
      apply list_elem_of_fmap in H1 as [[t1 k1] [-> H1]], H2 as [[t2 k2] [-> H2]].
      apply elem_of_map_to_list in H1, H2. simpl in *.
      destruct (mi_handle _ _ _ Hinv _ _ H1), (mi_handle _ _ _ Hinv _ _ H2). congruence.
    + apply NoDup_filter. apply NoDup_fmap_2_strong; [|apply NoDup_map_to_list].
      intros [t1 k1] [t2 k2] H1 H2. simpl. intros ->.
      apply elem_of_map_to_list in H1, H2.
      destruct (mi_handle _ _ _ Hinv _ _ H1), (mi_handle _ _ _ Hinv _ _ H2). congruence.
  - unfold l. rewrite list_elem_of_fmap. split.
    + intros [h' [-> H']]. apply list_elem_of_filter in H' as [He H'].
      apply list_elem_of_fmap in H' as [[t1 k1] [-> H1]]. apply elem_of_map_to_list in H1.
      simpl in *. destruct (mi_handle _ _ _ Hinv _ _ H1) as [E _]. rewrite E in Hh. congruence.
    + intros He. exists h. destruct (mi_handle _ _ _ Hinv _ _ Hh) as [E _]. split; [done|].
      apply list_elem_of_filter. split; [done|]. apply list_elem_of_fmap. exists (tx, h).
      split; [done|]. by apply elem_of_map_to_list.
Qed.

(** ** Properties *)

(** C29. Among completed calls an owner has at most one transaction, and looking the owner up finds
    it: two handles with the same owner key are the same transaction. *)
Theorem one_transaction_per_owner t c tx1 tx2 h1 h2 :
  reachable t c -> get_handle c tx1 = Some h1 -> get_handle c tx2 = Some h2 ->
  h_owner_key h1 = h_owner_key h2 ->
  tx1 = tx2 /\ active_for_owner c (h_owner_key h1) = Some tx1.
Proof.
  intros Hr%reachable_inv H1 H2 E. destruct (mi_handle _ _ _ Hr _ _ H1) as [_ O1].
  destruct (mi_handle _ _ _ Hr _ _ H2) as [_ O2]. rewrite <-E in O2.
  unfold active_for_owner. split; congruence.
Qed.

(** C2. What a commit sends to the replicated apply: the transaction was open; the mutations are
    its own, of user or shared tables only, in staging order, and within the buffer limit; and in
    a cluster they all belong to the one Raft group the transaction is bound to, so one log entry
    can carry them. *)
Theorem commit_sends_one_group t c env tx c' owner affected ms :
  reachable t c -> commit_seal env tx c = (c', SealPending owner affected ms) ->
  affected = length ms /\
  total_size scalar_size ms <= max_transaction_buffer_bytes app /\
  Forall (fun m => sm_transaction_id m = tx /\
            (sm_table_type m = User \/ sm_table_type m = Shared)) ms /\
  (forall i m, ms !! i = Some m -> sm_mutation_order m = wrap64 (Z.of_nat i)) /\
  (cluster app ≠ None -> exists g,
     Forall (fun m => resolve_group_id (sm_table_id m) (sm_table_type m) (sm_user_id m) =
                      Ok (Some g)) ms).
Proof.
  intros Hr%reachable_inv Hseal.
  destruct (commit_seal_spec env tx c c' _ Hr Hseal) as [_ (h & ws & Hh & _ & Hw & _ & -> & -> & _)].
  destruct (mi_write_set _ _ _ Hr tx ws Hw) as [h0 [Hh0 Hok]].
  rewrite Hh in Hh0. injection Hh0 as <-. destruct Hok as [Hwi _ Hlim _ _ Hms].
  split_and!; [done|done| | |].
  - eapply Forall_impl; [exact Hms|]. by intros m (? & ? & _).
  - apply (inv_orders scalar_size ws Hwi).
  - intros Hcl. destruct (mi_mode _ _ _ Hr tx h Hh) as [Hmode _].
    destruct (h_raft_binding h) as [| |g l] eqn:Hb.
    + destruct Hcl. by apply Hmode.
    + exists Meta. eapply Forall_impl; [exact Hms|]. by intros m (_ & _ & []).
    + exists g. eapply Forall_impl; [exact Hms|]. by intros m (_ & _ & ?).
Qed.

(** A transaction that is no longer open (committing, aborted, timed out) is refused by every
    call that would read, stage or commit for it, and the refusal changes nothing: none of its
    writes reaches the replicated apply. *)
Theorem closed_transaction_refused c env apply tx h m name ty user :
  get_handle c tx = Some h -> is_open (h_state h) = false ->
  commit env apply tx c = (c, Err (StateError tx (h_state h) "commit")) /\
  (exists e, stage_mutation env tx m c = (c, Err e)) /\
  validate_table_access env tx (sm_table_id m) ty user c =
    (c, Err (StateError tx (h_state h) "access")) /\
  savepoint env tx name c = (c, Err (StateError tx (h_state h) "savepoint")).
Proof.
  unfold get_handle. intros Hh Ho.
  assert (forall t ty u, validate_table_access env tx t ty u c =
            (c, Err (StateError tx (h_state h) "access"))) as Hv.
  { intros. unfold validate_table_access. by rewrite Hh, Ho. }
  split_and!.
  - unfold commit, commit_seal. by rewrite Hh, Ho.
  - unfold stage_mutation. destruct (check_mutation tx m); [|eauto]. rewrite Hv. eauto.
  - apply Hv.
  - unfold savepoint. by rewrite Hh, Ho.
Qed.

(** Rolling back a known transaction succeeds and forgets it completely: no handle, owner
    entry, write set, staged publish or primary-key claim of it remains, and the handles and
    write sets of other transactions are untouched. *)
Theorem rollback_forgets c env tx h :
  get_handle c tx = Some h -> h_state h ≠ Committed ->
  let c' := (rollback env tx c).1 in
  (rollback env tx c).2 = Ok tt /\
  get_handle c' tx = None /\ active_for_owner c' (h_owner_key h) = None /\
  write_sets c' !! tx = None /\ staged_publishes c' !! tx = None /\
  (forall k cl, claims (pk_claims c') !! k = Some cl -> claim_owner cl ≠ tx) /\
  (forall tx', tx' ≠ tx -> get_handle c' tx' = get_handle c tx' /\
                          write_sets c' !! tx' = write_sets c !! tx').
Proof.
  intros Hh Hst c'. unfold get_handle in *.
  assert (exists hs, rollback env tx c =
            (forget_transaction tx (h_owner_key h) (set_handles hs c), Ok tt) /\
            (forall tx', tx' ≠ tx -> hs (active_by_id c) !! tx' = active_by_id c !! tx'))
    as [hs [Hrb Hoth]].
  { unfold rollback. rewrite Hh. destruct (h_state h); try done;
      first [exists id; split; [by destruct c|done]
            |exists (insert tx (mark_state (now env) RollingBack h)); simpl;
             rewrite lookup_insert_eq; split; [done|];
             intros; by rewrite lookup_insert_ne]. }
  unfold c'. rewrite Hrb. unfold active_for_owner. simpl. split_and!; try done;
    try apply lookup_delete_eq.
  - intros k cl [_ Hcl]%map_lookup_filter_Some. done.
  - intros tx' Hne. rewrite !lookup_delete_ne by done. by rewrite Hoth.
Qed.

(** One sweep times out exactly the open transactions that have been idle for the timeout:
    those become [TimedOut] and lose their write set; every other transaction keeps its handle and
    its write set. *)
Theorem sweep_times_out_exactly t c env tx h :
  reachable t c -> get_handle c tx = Some h ->
  let c' := sweep_timed_out_transactions env c in
  get_handle c' tx =
    (if expired env h then Some (mark_state (now env) TimedOut h) else Some h) /\
  write_sets c' !! tx = if expired env h then None else write_sets c !! tx.
Proof.
  intros Hr%reachable_inv Hh. unfold get_handle in *.
  destruct (expired_list_spec env c tx h Hr Hh) as [Hnd Hin].
  unfold sweep_timed_out_transactions. set (l := h_transaction_id <$> _) in *.
  destruct (expired env h) eqn:He.
  - apply timeout_all_in; [done|by apply Hin|done|].
    unfold expired in He. by apply andb_true_iff in He as [? _].
  - rewrite <-Hh. apply timeout_all_other. intros Hl. by apply Hin in Hl.
Qed.

Lemma publish_all_ok log ps :
  Forall (fun p => publish_ok p = true) ps -> publish_all log ps = (log ++ ps, Ok tt).
Proof.
  revert log. induction ps as [|p ps IH]; intros log Hps; simpl; [by rewrite app_nil_r|].
  apply Forall_cons in Hps as [-> Hps]. rewrite IH by done. by rewrite <-app_assoc.
Qed.

Lemma publish_all_fail log ps1 p ps2 :
  Forall (fun p => publish_ok p = true) ps1 -> publish_ok p = false ->
  publish_all log (ps1 ++ p :: ps2) = (log ++ ps1, Err FlushFailed).
Proof.
  revert log. induction ps1 as [|q ps1 IH]; intros log Hps Hp; simpl.
  - by rewrite Hp, app_nil_r.
  - apply Forall_cons in Hps as [-> Hps]. rewrite IH by done. by rewrite <-app_assoc.
Qed.

(** C37. When the seal, the replicated apply and the finish of [commit] follow each other with
    nothing in between, the apply reports the commit and the publisher accepts every staged publish,
    [commit] succeeds: it reports the rows and the log index, the publishes are sent in the order they were
    staged, the frontier of the bound group covers the commit, and the transaction and its owner entry
    are gone. *)
Theorem commit_completes t c env apply tx c1 owner affected ms r h :
  reachable t c -> commit_seal env tx c = (c1, SealPending owner affected ms) ->
  get_handle c tx = Some h -> apply tx ms = Some (RespTransactionCommitted r) ->
  Forall (fun p => publish_ok p = true) (default [] (staged_publishes c1 !! tx)) ->
  0 <= ar_log_index r -> (forall g, 0 <= frontier (commit_sequence_tracker c1) g) ->
  let c' := (commit env apply tx c).1 in
  (commit env apply tx c).2 =
    Ok (mkCommitResult tx affected (Some (ar_log_index r))
          (ar_notifications_sent r, ar_manifest_updates r, ar_publisher_events r)) /\
  published c' = published c1 ++ default [] (staged_publishes c1 !! tx) /\
  get_handle c' tx = None /\ active_for_owner c' owner = None /\
  (forall g l, h_raft_binding h = BoundCluster g l ->
     ar_log_index r <= frontier (commit_sequence_tracker c') g).
Proof.
  intros Hr%reachable_inv Hseal Hh Hap Hpub Hidx Hfr. unfold commit. rewrite Hseal, Hap.
  destruct (commit_seal_spec env tx c c1 _ Hr Hseal)
    as [_ (h' & ws & Hh' & _ & _ & -> & _ & _ & Hh1 & _)].
  unfold get_handle in Hh. rewrite Hh in Hh'. injection Hh' as <-.
  unfold commit_finish. simpl. rewrite Hh1. simpl.
  unfold flush_staged_publishes, get_handle, active_for_owner.
  destruct (h_raft_binding h) as [| |g l] eqn:Hb; simpl; rewrite publish_all_ok by done; simpl;
    rewrite !lookup_delete_eq; split_and!; try done.
  intros g' l' [= <- <-]. rewrite frontier_observe, decide_True by done. lia.
Qed.

(** C39. If the publisher refuses a staged publish, [commit] reports failure although the replicated
    apply has committed the transaction: the publishes before the refused one are sent, the rest
    are dropped, and the transaction is gone. *)
Theorem commit_reports_failure_after_apply tx owner affected r c h ps1 p ps2 :
  get_handle c tx = Some h -> staged_publishes c !! tx = Some (ps1 ++ p :: ps2) ->
  Forall (fun p => publish_ok p = true) ps1 -> publish_ok p = false ->
  let '(c', res) := commit_finish tx owner affected (Some (RespTransactionCommitted r)) c in
  res = Err FlushFailed /\ published c' = published c ++ ps1 /\
  staged_publishes c' !! tx = None /\ get_handle c' tx = None.
Proof.
  unfold get_handle. intros Hh Hst Hps Hp. unfold commit_finish. simpl. rewrite Hh.
  unfold flush_staged_publishes.
  destruct (h_raft_binding h); simpl; rewrite Hst; simpl; rewrite publish_all_fail by done;
    simpl; by rewrite !lookup_delete_eq.
Qed.

(** A rollback that arrives while the commit is in flight is accepted and reports success; when
    the replicated apply then commits the transaction, [commit] reports that the transaction was
    not found.  Both clients are told that nothing was committed. *)
Theorem rollback_accepted_while_committing env env' tx c c1 owner affected ms r :
  commit_seal env tx c = (c1, SealPending owner affected ms) -> coord_inv c ->
  exists c2, rollback env' tx c1 = (c2, Ok tt) /\
  (commit_finish tx owner affected (Some (RespTransactionCommitted r)) c2).2 =
    Err (NotFoundDuringCommit tx).
Proof.
  intros Hseal Hinv.
  destruct (commit_seal_spec env tx c c1 _ Hinv Hseal) as [_ (h & ws & _ & _ & _ & -> & _ & _ & Hh1 & _)].
  unfold rollback. rewrite Hh1. simpl. rewrite lookup_insert_eq. eexists. split; [reflexivity|].
  unfold commit_finish. simpl. by rewrite lookup_delete_eq.
Qed.

End Coordinator.

Arguments TransactionCoordinator : clear implicits.
Arguments CoordOp : clear implicits.

(** ** A concrete cluster *)

Definition w_app : AppContext :=
  mkApp (Some (32, 4)) 1
    (fun t => if decide (t = w_table) then Some (mkTableDefinition t Shared (Some 2)) else None)
    1000 60.
Definition w_size : Z -> Z := fun _ => 16.
Definition w_hash : string -> Z := str_len.
Definition w_env (time : Z) : Env := mkEnv time (fun _ => Some 1).
Definition w_owner : ExecutionOwnerKey := PgSession 7 0.
Definition w_publish (n : Z) : StagedTopicPublish := mkPublish "app.events" [n] None.
Definition w_publish_ok (p : StagedTopicPublish) : bool := bool_decide (pub_payload p ≠ [13]).
Definition w_insert (pk : string) : StagedMutation Z := w_mutation Insert pk {[ "id" := 1 ]}.
Definition w_applied : DataResponse := RespTransactionCommitted (mkApplyResult 1 42 1 1 1).
Definition w_start : TransactionCoordinator Z := coordinator_new (tracker_new 0).

Definition w_ops : list (Env * CoordOp Z) :=
  [(w_env 1, CBegin "tx" w_owner "pg-7" PgRpc); (w_env 2, CStage "tx" (w_insert "1"));
   (w_env 3, CStageBatch "tx" [w_insert "2"; w_insert "3"]); (w_env 4, CSavepoint "tx" "a");
   (w_env 5, CStage "tx" (w_insert "4")); (w_env 6, CRollbackToSavepoint "tx" "a");
   (w_env 7, CStagePublish "tx" (w_publish 1)); (w_env 8, CStagePublish "tx" (w_publish 2))].

Definition w_state : TransactionCoordinator Z :=
  coord_run w_size w_hash w_publish_ok w_app w_start w_ops.

Lemma w_limit : 0 <= max_transaction_buffer_bytes w_app < u64_max.
Proof. by split. Qed.

Lemma w_reachable : reachable w_size w_hash w_publish_ok w_app (tracker_new 0) w_state.
Proof. apply reachable_run; [constructor|vm_compute; reflexivity]. Qed.

(** A commit in flight for [tx] while the same owner begins [tx2]. *)
Definition w_sealed : TransactionCoordinator Z :=
  (commit_seal w_publish_ok w_app (w_env 10) "tx" w_state).1.
Definition w_second : TransactionCoordinator Z :=
  (begin w_app (w_env 11) "tx2" w_owner "pg-7" PgRpc w_sealed).1.
Definition w_finished : TransactionCoordinator Z * Result KalamDbError TransactionCommitResult :=
  commit_finish w_publish_ok "tx" w_owner 3 (Some w_applied) w_second.

(** A commit that completes after its owner began a new transaction reports that the committed
    transaction was not found and removes the owner entry of the new one: the new transaction is
    still open but no longer found by its owner, and the owner can open a third one beside it. *)
Theorem begin_during_commit_breaks_ownership :
  (begin w_app (w_env 11) "tx2" w_owner "pg-7" PgRpc w_sealed).2 = Ok "tx2" /\
  w_finished.2 = Err (NotFoundDuringCommit "tx") /\
  active_for_owner w_finished.1 w_owner = None /\
  h_state <$> get_handle w_finished.1 "tx2" = Some OpenRead /\
  let c := (begin w_app (w_env 12) "tx3" w_owner "pg-7" PgRpc w_finished.1).1 in
  h_owner_key <$> get_handle c "tx2" = Some w_owner /\
  h_state <$> get_handle c "tx2" = Some OpenRead /\
  h_owner_key <$> get_handle c "tx3" = Some w_owner /\
  h_state <$> get_handle c "tx3" = Some OpenRead.
Proof. vm_compute. split_and!; reflexivity. Qed.

(** ** Witnesses *)

Lemma one_transaction_per_owner_witness : active_for_owner w_state w_owner = Some "tx".
Proof.
  destruct (get_handle w_state "tx") as [h|] eqn:Hh; [|vm_compute in Hh; discriminate].
  assert (h_owner_key h = w_owner) as <- by (vm_compute in Hh; injection Hh as <-; reflexivity).
  apply (one_transaction_per_owner w_size w_hash w_publish_ok w_app w_limit (tracker_new 0)
           w_state "tx" "tx" h h w_reachable Hh Hh eq_refl).
Defined.

Lemma commit_sends_one_group_witness :
  exists c' owner ms,
    commit_seal w_publish_ok w_app (w_env 10) "tx" w_state = (c', SealPending owner 3 ms) /\
    length ms = 3%nat.
Proof.
  destruct (commit_seal w_publish_ok w_app (w_env 10) "tx" w_state) as [c' out] eqn:E.
  destruct out as [r|owner affected ms]; [vm_compute in E; discriminate|].
  destruct (commit_sends_one_group w_size w_hash w_publish_ok w_app w_limit (tracker_new 0)
              w_state (w_env 10) "tx" c' owner affected ms w_reachable E) as (Hlen & _).
  assert (length ms = 3%nat) as Hms by (vm_compute in E; injection E as <- <- <- <-; reflexivity).
  exists c', owner, ms. rewrite Hlen, Hms. split; reflexivity.
Defined.

Lemma closed_transaction_refused_witness :
  let c := sweep_timed_out_transactions w_app (w_env 100000000000) w_state in
  (commit w_publish_ok w_app (w_env 10) (fun _ _ => None) "tx" c).2 =
    Err (StateError "tx" TimedOut "commit").
Proof.
  intros c. destruct (get_handle c "tx") as [h|] eqn:Hh; [|vm_compute in Hh; discriminate].
  assert (h_state h = TimedOut) as Hs by (vm_compute in Hh; injection Hh as <-; reflexivity).
  destruct (closed_transaction_refused w_size w_hash w_publish_ok w_app c (w_env 10)
              (fun _ _ => None) "tx" h (w_insert "1") "a" Shared None Hh) as [-> _].
  - by rewrite Hs.
  - by rewrite Hs.
Defined.

Lemma rollback_forgets_witness :
  (rollback (w_env 10) "tx" w_state).2 = Ok tt /\
  get_handle (rollback (w_env 10) "tx" w_state).1 "tx" = None.
Proof.
  destruct (get_handle w_state "tx") as [h|] eqn:Hh; [|vm_compute in Hh; discriminate].
  destruct (rollback_forgets w_state (w_env 10) "tx" h Hh) as (H1 & H2 & _).
  - vm_compute in Hh. injection Hh as <-. discriminate.
  - split; assumption.
Defined.

Lemma sweep_times_out_exactly_witness :
  h_state <$> get_handle (sweep_timed_out_transactions w_app (w_env 100000000000) w_state) "tx" =
  Some TimedOut.
Proof.
  destruct (get_handle w_state "tx") as [h|] eqn:Hh; [|vm_compute in Hh; discriminate].
  destruct (sweep_times_out_exactly w_size w_hash w_publish_ok w_app w_limit (tracker_new 0)
              w_state (w_env 100000000000) "tx" h w_reachable Hh) as [-> _].
  assert (expired w_app (w_env 100000000000) h = true) as ->
    by (vm_compute in Hh; injection Hh as <-; vm_compute; reflexivity).
  reflexivity.
Defined.

Lemma commit_completes_witness :
  published (commit w_publish_ok w_app (w_env 10) (fun _ _ => Some w_applied) "tx" w_state).1 =
  [w_publish 1; w_publish 2].
Proof.
  destruct (commit_seal w_publish_ok w_app (w_env 10) "tx" w_state) as [c1 out] eqn:E.
  destruct out as [r|owner affected ms]; [vm_compute in E; discriminate|].
  destruct (get_handle w_state "tx") as [h|] eqn:Hh; [|vm_compute in Hh; discriminate].
  assert (default [] (staged_publishes c1 !! "tx") = [w_publish 1; w_publish 2] /\
          published c1 = [] /\ frontiers (commit_sequence_tracker c1) = ∅) as (Hp & Hl & Hf).
  { vm_compute in E. injection E as <- _ _ _. split_and!; vm_compute; reflexivity. }
  destruct (commit_completes w_size w_hash w_publish_ok w_app w_limit (tracker_new 0) w_state
              (w_env 10) (fun _ _ => Some w_applied) "tx" c1 owner affected ms
              (mkApplyResult 1 42 1 1 1) h w_reachable E Hh eq_refl) as (_ & -> & _).
  - rewrite Hp. repeat constructor.
  - simpl. lia.
  - intros g. unfold frontier. rewrite Hf, lookup_empty. simpl. lia.
  - rewrite Hp, Hl. reflexivity.
Defined.

Lemma commit_reports_failure_after_apply_witness :
  let c := stage_publish "tx" (w_publish 9) (stage_publish "tx" (w_publish 13) w_state) in
  (commit_finish w_publish_ok "tx" w_owner 3 (Some w_applied) c).2 = Err FlushFailed.
Proof.
  intros c. destruct (get_handle c "tx") as [h|] eqn:Hh; [|vm_compute in Hh; discriminate].
  pose proof (commit_reports_failure_after_apply w_publish_ok "tx" w_owner 3
    (mkApplyResult 1 42 1 1 1) c h [w_publish 1; w_publish 2] (w_publish 13) [w_publish 9] Hh)
    as H.
  unfold w_applied. destruct (commit_finish _ _ _ _ _ c) as [c' res].
  apply H; [vm_compute; reflexivity|repeat constructor|reflexivity].
Defined.

Lemma rollback_accepted_while_committing_witness :
  exists c2, rollback (w_env 11) "tx" w_sealed = (c2, Ok tt).
Proof.
  unfold w_sealed.
  destruct (commit_seal w_publish_ok w_app (w_env 10) "tx" w_state) as [c1 out] eqn:E.
  destruct out as [r|owner affected ms]; [vm_compute in E; discriminate|].
  destruct (rollback_accepted_while_committing w_size w_hash w_publish_ok w_app (w_env 10)
              (w_env 11) "tx" w_state c1 owner affected ms (mkApplyResult 1 42 1 1 1) E)
    as [c2 [H _]].
  - eapply reachable_inv; [exact w_limit|exact w_reachable].
  - exists c2. exact H.
Defined.
