(* ===== verification/Request.v ===== *)
(** * Request: explicit transactions inside one SQL request

    Model of kalamdb-transactions/src/request.rs and of the implementation of its trait in
    kalamdb-core/src/sql/executor/request_transaction_state.rs.

    [RequestTransactionCoordinator] is the source's trait, as a class over the coordinator's
    state; [RequestCoordinatorLaws] is what a request relies on.  The request's functions are
    proved against the laws, and [Coordinator] discharges them. *)

From Stdlib Require Import ZArith Lia.
From stdpp Require Import base countable strings gmap fin_maps list infinite.
From S2P Require Import Prelude Commons Sharding Overlay WriteSet Claims TxnState Coordinator.

Open Scope Z_scope.

Class RequestTransactionCoordinator (S E : Type) := {
  rc_active_for_owner : S -> ExecutionOwnerKey -> option TransactionId;
  rc_begin_sql_request : ExecutionOwnerKey -> string -> S -> S * Result E TransactionId;
  rc_commit_request_transaction : TransactionId -> S -> S * Result E TransactionId;
  rc_rollback_request_transaction : TransactionId -> S -> S * Result E unit
}.

(** What a request relies on, for the states a coordinator can be in. *)
Class RequestCoordinatorLaws (S E : Type) `{RequestTransactionCoordinator S E} := {
  rc_inv : S -> Prop;
  rc_begin_ok o id s s' tx :
    rc_inv s -> rc_begin_sql_request o id s = (s', Ok tx) ->
    rc_inv s' /\ rc_active_for_owner s' o = Some tx;
  rc_begin_err o id s s' e :
    rc_inv s -> rc_begin_sql_request o id s = (s', Err e) -> s' = s;
  rc_commit_ok o tx s s' tx' :
    rc_inv s -> rc_active_for_owner s o = Some tx ->
    rc_commit_request_transaction tx s = (s', Ok tx') ->
    rc_inv s' /\ tx' = tx /\ rc_active_for_owner s' o = None;
  rc_commit_inv tx s : rc_inv s -> rc_inv (rc_commit_request_transaction tx s).1;
  rc_rollback_total o tx s :
    rc_inv s -> rc_active_for_owner s o = Some tx ->
    exists s', rc_rollback_request_transaction tx s = (s', Ok tt) /\
      rc_inv s' /\ rc_active_for_owner s' o = None
}.

Inductive RequestTransactionError (E : Type) :=
| AlreadyActive (owner_id : string) (tx : TransactionId)
| NoActiveTransaction (operation : string)
| RequestCompletedOpen
| CoordinatorError (e : E).
Arguments AlreadyActive {E}.
Arguments NoActiveTransaction {E}.
Arguments RequestCompletedOpen {E}.
Arguments CoordinatorError {E}.

Record RequestTransactionState := mkRequestState {
  rs_owner_key : ExecutionOwnerKey;
  rs_request_id : string;
  rs_active_transaction_id : option TransactionId
}.

Section Request.
(** [hash] is Rust's [DefaultHasher] on the request id. *)
Context {S E : Type} `{RequestCoordinatorLaws S E} (hash : string -> Z).

Definition owner_key_for_request_id (request_id : string) : ExecutionOwnerKey :=
  SqlRequest (hash request_id).

Definition from_request_id (request_id : option string) : option RequestTransactionState :=
  (fun id => mkRequestState (owner_key_for_request_id id) id None) <$> request_id.

Definition request_is_active (r : RequestTransactionState) : bool :=
  match rs_active_transaction_id r with Some _ => true | None => false end.

Definition owner_id_string (r : RequestTransactionState) : string :=
  "sql-req-" +:+ rs_request_id r.

Definition set_active (a : option TransactionId) (r : RequestTransactionState) :
    RequestTransactionState :=
  mkRequestState (rs_owner_key r) (rs_request_id r) a.

Definition sync (s : S) (r : RequestTransactionState) : RequestTransactionState :=
  set_active (rc_active_for_owner s (rs_owner_key r)) r.

Definition request_begin (s : S) (r : RequestTransactionState) :
    S * RequestTransactionState * Result (RequestTransactionError E) TransactionId :=
  match rs_active_transaction_id r with
  | Some tx => (s, r, Err (AlreadyActive (owner_id_string r) tx))
  | None =>
      let '(s1, res) := rc_begin_sql_request (rs_owner_key r) (owner_id_string r) s in
      match res with
      | Ok tx => (s1, set_active (Some tx) r, Ok tx)
      | Err e => (s1, r, Err (CoordinatorError e))
      end
  end.

Definition request_commit (s : S) (r : RequestTransactionState) :
    S * RequestTransactionState * Result (RequestTransactionError E) TransactionId :=
  match rs_active_transaction_id r with
  | None => (s, r, Err (NoActiveTransaction "COMMIT"))
  | Some tx =>
      let '(s1, res) := rc_commit_request_transaction tx s in
      match res with
      | Ok committed => (s1, set_active None r, Ok committed)
      | Err e => (s1, r, Err (CoordinatorError e))
      end
  end.

Definition request_rollback (s : S) (r : RequestTransactionState) :
    S * RequestTransactionState * Result (RequestTransactionError E) TransactionId :=
  match rs_active_transaction_id r with
  | None => (s, r, Err (NoActiveTransaction "ROLLBACK"))
  | Some tx =>
      let '(s1, res) := rc_rollback_request_transaction tx s in
      match res with
      | Ok _ => (s1, set_active None r, Ok tx)
      | Err e => (s1, r, Err (CoordinatorError e))
      end
  end.

Definition rollback_if_active (s : S) (r : RequestTransactionState) :
    S * RequestTransactionState * Result (RequestTransactionError E) (option TransactionId) :=
  if negb (request_is_active r) then (s, r, Ok None)
  else
    let '(s1, r1, res) := request_rollback s r in
    (s1, r1, result_bind res (fun tx => Ok (Some tx))).

(** [RequestTransactionBatchGuard] holds the state of a request that has an id. *)
Definition guard_from_request_id (request_id : option string) (s : S) :
    option RequestTransactionState :=
  sync s <$> from_request_id request_id.

Definition guard_is_active (g : option RequestTransactionState) : bool :=
  match g with Some r => request_is_active r | None => false end.

Definition guard_sync (s : S) (g : option RequestTransactionState) :
    option RequestTransactionState := sync s <$> g.

Definition guard_rollback_if_active (s : S) (g : option RequestTransactionState) :
    S * option RequestTransactionState *
    Result (RequestTransactionError E) (option TransactionId) :=
  match g with
  | Some r => let '(s1, r1, res) := rollback_if_active s r in (s1, Some r1, res)
  | None => (s, None, Ok None)
  end.

Definition ensure_closed (s : S) (g : option RequestTransactionState) :
    S * option RequestTransactionState * Result (RequestTransactionError E) unit :=
  if negb (guard_is_active g) then (s, g, Ok tt)
  else
    let '(s1, g1, res) := guard_rollback_if_active s g in
    (s1, g1, result_bind res (fun _ => Err RequestCompletedOpen)).

(** The request's view of its transaction agrees with the coordinator. *)
Definition in_sync (s : S) (r : RequestTransactionState) : Prop :=
  rs_active_transaction_id r = rc_active_for_owner s (rs_owner_key r).

(** The guard of a SQL batch leaves no transaction open: synchronised with the coordinator at
    the end of the request, [ensure_closed] succeeds exactly when the owner has no transaction, and
    otherwise rolls it back, reports that the request was completed open, and afterwards the owner
    has none. *)
Theorem ensure_closed_leaves_none_open s request_id :
  rc_inv s ->
  let o := owner_key_for_request_id request_id in
  let '(s', g', res) := ensure_closed s (guard_from_request_id (Some request_id) s) in
  rc_active_for_owner s' o = None /\ guard_is_active g' = false /\ rc_inv s' /\
  res = (if bool_decide (rc_active_for_owner s o = None) then Ok tt
         else Err RequestCompletedOpen).
Proof.
  intros Hs o. unfold ensure_closed, guard_from_request_id, guard_rollback_if_active,
    rollback_if_active, request_rollback, guard_is_active, request_is_active. simpl.
  fold o. destruct (rc_active_for_owner s o) as [tx|] eqn:Ha; simpl.
  - destruct (rc_rollback_total o tx s Hs Ha) as (s' & -> & Hs' & Hn). simpl.
    by rewrite Hn.
  - by rewrite Ha.
Qed.

(** BEGIN, then COMMIT or ROLLBACK, of a request in sync with the coordinator keeps it in sync:
    after a successful BEGIN the coordinator and the request agree on the new transaction, after a
    successful COMMIT or ROLLBACK both have none. *)
Theorem request_stays_in_sync s r s' r' tx :
  rc_inv s -> in_sync s r ->
  (request_begin s r = (s', r', Ok tx) ->
     in_sync s' r' /\ rs_active_transaction_id r' = Some tx) /\
  (request_commit s r = (s', r', Ok tx) ->
     in_sync s' r' /\ rs_active_transaction_id r' = None) /\
  (request_rollback s r = (s', r', Ok tx) ->
     in_sync s' r' /\ rs_active_transaction_id r' = None).
Proof.
  intros Hs Hsync. unfold in_sync in *. split_and!.
  - unfold request_begin. destruct (rs_active_transaction_id r); [done|].
    destruct (rc_begin_sql_request _ _ s) as [s1 [tx1|e]] eqn:Hb; [|done].
    intros [= <- <- <-]. destruct (rc_begin_ok _ _ _ _ _ Hs Hb) as [_ Ha]. simpl.
    by rewrite Ha.
  - unfold request_commit. destruct (rs_active_transaction_id r) as [tx0|] eqn:Hr; [|done].
    destruct (rc_commit_request_transaction tx0 s) as [s1 [tx1|e]] eqn:Hb; [|done].
    intros [= <- <- <-]. symmetry in Hsync.
    destruct (rc_commit_ok _ _ _ _ _ Hs Hsync Hb) as (_ & _ & Ha). simpl. by rewrite Ha.
  - unfold request_rollback. destruct (rs_active_transaction_id r) as [tx0|] eqn:Hr; [|done].
    symmetry in Hsync. destruct (rc_rollback_total _ _ _ Hs Hsync) as (s1 & -> & _ & Ha).
    intros [= <- <- <-]. simpl. by rewrite Ha.
Qed.

End Request.

(** ** The coordinator implements the interface *)

Section Implementation.
Context {Value : Type} (scalar_size : Value -> Z) (hash_str : string -> Z)
        (publish_ok : StagedTopicPublish -> bool) (app : AppContext) (env : Env)
        (apply : TransactionId -> list (StagedMutation Value) -> option DataResponse).

(** [AppContextRequestTransactionCoordinator]; the UUID of a new transaction is one not in use. *)
#[local] Instance app_context_coordinator :
    RequestTransactionCoordinator (TransactionCoordinator Value) KalamDbError := {
  rc_active_for_owner := active_for_owner;
  rc_begin_sql_request o id c :=
    begin app env (fresh (dom (active_by_id c) : gset string)) o id SqlBatch c;
  rc_commit_request_transaction tx c :=
    let '(c1, res) := commit publish_ok app env apply tx c in
    (c1, result_bind res (fun r => Ok (cr_transaction_id r)));
  rc_rollback_request_transaction tx c := rollback env tx c
}.

Lemma fresh_unused (c : TransactionCoordinator Value) :
  active_by_id c !! fresh (dom (active_by_id c) : gset string) = None.
Proof. apply not_elem_of_dom, (is_fresh (dom (active_by_id c) : gset string)). Qed.

Lemma begin_outcome tx o id (c : TransactionCoordinator Value) :
  let '(c', res) := begin app env tx o id SqlBatch c in
  (res = Ok tx /\ active_for_owner c' o = Some tx) \/ (exists e, res = Err e /\ c' = c).
Proof.
  unfold begin, active_for_owner. destruct (active_by_owner c !! o) as [existing|].
  - destruct (match active_by_id c !! existing with Some h => is_open (h_state h) | None => false end);
      [eauto|]. left. simpl. by rewrite lookup_insert_eq.
  - left. simpl. by rewrite lookup_insert_eq.
Qed.

Lemma flush_active tx (c : TransactionCoordinator Value) :
  active_by_owner (flush_staged_publishes publish_ok tx c).1 = active_by_owner c.
Proof. unfold flush_staged_publishes. by destruct (publish_all _ _ _). Qed.

Lemma commit_empty_outcome tx owner (c c' : TransactionCoordinator Value) r :
  commit_empty publish_ok tx owner c = (c', Ok r) ->
  cr_transaction_id r = tx /\ active_by_owner c' !! owner = None.
Proof.
  unfold commit_empty. simpl. destruct (active_by_id c !! tx) as [h|]; [|done].
  pose proof (flush_active tx (release_primary_key_claims tx
    (set_handles (delete tx) (set_owners (delete owner) c)))) as Hf.
  destruct (flush_staged_publishes publish_ok tx _) as [c3 [[]|e]]; simpl in *; [|done].
  intros [= <- <-]. rewrite Hf. split; [done|apply lookup_delete_eq].
Qed.

Lemma commit_finish_outcome tx owner n resp (c c' : TransactionCoordinator Value) r :
  commit_finish publish_ok tx owner n resp c = (c', Ok r) ->
  cr_transaction_id r = tx /\ active_by_owner c' !! owner = None.
Proof.
  unfold commit_finish. destruct resp as [resp|]; [|done].
  destruct (committed_commit_seq resp) as [seq|]; [|done]. simpl.
  destruct (active_by_id c !! tx) as [h|]; [|done].
  set (c4 := match h_raft_binding h with BoundCluster _ _ => _ | _ => _ end).
  assert (active_by_owner c4 = delete owner (active_by_owner c)) as H4
    by (unfold c4; by destruct (h_raft_binding h)).
  pose proof (flush_active tx c4) as Hf.
  destruct (flush_staged_publishes publish_ok tx c4) as [c5 [[]|e]]; simpl in *; [|done].
  intros [= <- <-]. rewrite Hf, H4. split; [done|apply lookup_delete_eq].
Qed.

(** A successful commit is of the handle's owner. *)
Lemma commit_outcome tx (c c' : TransactionCoordinator Value) r h :
  active_by_id c !! tx = Some h ->
  commit publish_ok app env apply tx c = (c', Ok r) ->
  cr_transaction_id r = tx /\ active_by_owner c' !! h_owner_key h = None.
Proof.
  intros Hh. unfold commit, commit_seal. rewrite Hh.
  destruct (is_open (h_state h)); simpl; [|done].
  pose proof (ensure_leadership_cases app env tx h) as Hled.
  destruct (ensure_bound_leadership_is_current app env tx h) as [h1 led].
  destruct Hled as [[-> ->]|[e [-> ->]]]; [|done]. simpl.
  destruct (write_sets c !! tx) as [ws|]; [destruct (ordered_mutations ws) eqn:Hm|].
  - destruct (commit_empty _ _ _ _) as [c3 res] eqn:Hc. intros [= <- ->].
    by apply commit_empty_outcome in Hc.
  - apply commit_finish_outcome.
  - destruct (commit_empty _ _ _ _) as [c3 res] eqn:Hc. intros [= <- ->].
    by apply commit_empty_outcome in Hc.
Qed.

#[local] Program Instance app_context_coordinator_laws :
    RequestCoordinatorLaws (TransactionCoordinator Value) KalamDbError := {
  rc_inv := coord_inv scalar_size hash_str app
}.
Next Obligation.
  intros o id s s' tx Hs Hb. simpl in Hb.
  pose proof (begin_inv scalar_size hash_str app env _ o id SqlBatch s Hs (fresh_unused s)) as Hi.
  pose proof (begin_outcome (fresh (dom (active_by_id s) : gset string)) o id s) as Ho.
  rewrite Hb in Hi, Ho. simpl in Hi. split; [done|]. naive_solver.
Qed.
Next Obligation.
  intros o id s s' e Hs Hb. simpl in Hb.
  pose proof (begin_outcome (fresh (dom (active_by_id s) : gset string)) o id s) as Ho.
  rewrite Hb in Ho. naive_solver.
Qed.
Next Obligation.
  intros o tx s s' tx' Hs Ha Hc. simpl in Hc.
  pose proof (commit_inv scalar_size hash_str publish_ok app env apply tx s Hs) as Hi.
  destruct (commit publish_ok app env apply tx s) as [c1 [r|e]] eqn:E; simpl in Hc; [|done].
  injection Hc as <- <-. simpl in Hi. split; [done|].
  destruct (mi_owner _ _ _ _ _ _ Hs o tx Ha) as [h [Hh <-]].
  by eapply commit_outcome.
Qed.
Next Obligation.
  intros tx s Hs. simpl.
  pose proof (commit_inv scalar_size hash_str publish_ok app env apply tx s Hs) as Hi.
  by destruct (commit publish_ok app env apply tx s).
Qed.
Next Obligation.
  intros o tx s Hs Ha. simpl.
  destruct (mi_owner _ _ _ _ _ _ Hs o tx Ha) as [h [Hh <-]].
  destruct (mi_mode _ _ _ _ _ _ Hs tx h Hh) as [_ Hst].
  pose proof (rollback_inv scalar_size hash_str app env tx s Hs) as Hi.
  assert (exists c', rollback env tx s = (c', Ok tt) /\
            active_by_owner c' !! h_owner_key h = None) as (c' & Hr & Hn).
  { unfold rollback. rewrite Hh. destruct (h_state h); try done; simpl;
      rewrite ?lookup_insert_eq; eexists; (split; [reflexivity|]); apply lookup_delete_eq. }
  rewrite Hr in Hi. eauto.
Qed.

End Implementation.

(** ** Witnesses *)

Definition w_apply : TransactionId -> list (StagedMutation Z) -> option DataResponse :=
  fun _ _ => Some w_applied.

(** The coordinator of a server on which request ["r1"] has begun a transaction. *)
Definition w_request_state : TransactionCoordinator Z :=
  (begin w_app (w_env 1) "t1" (SqlRequest (str_len "r1")) "sql-req-r1" SqlBatch w_start).1.

Lemma w_request_inv : coord_inv w_size w_hash w_app w_request_state.
Proof. apply begin_inv; [apply coordinator_new_inv|reflexivity]. Qed.

Lemma ensure_closed_leaves_none_open_witness :
  let '(s', _, res) :=
    ensure_closed (H := app_context_coordinator w_publish_ok w_app (w_env 2) w_apply)
      w_request_state
      (guard_from_request_id (H := app_context_coordinator w_publish_ok w_app (w_env 2) w_apply)
         str_len (Some "r1") w_request_state) in
  active_for_owner s' (SqlRequest 2) = None /\ res = Err RequestCompletedOpen.
Proof.
  pose proof (@ensure_closed_leaves_none_open _ _ _
    (app_context_coordinator_laws w_size w_hash w_publish_ok w_app (w_env 2) w_apply) str_len
    w_request_state "r1" w_request_inv) as H.
  destruct (ensure_closed _ _) as [[s' g'] res]. destruct H as (H1 & _ & _ & ->).
  split; [exact H1|reflexivity].
Defined.

Lemma request_stays_in_sync_witness :
  let I := app_context_coordinator w_publish_ok w_app (w_env 2) w_apply in
  let '(s', r', _) :=
    request_rollback (H := I) w_request_state
      (mkRequestState (SqlRequest 2) "r1" (Some "t1")) in
  in_sync (H := I) s' r'.
Proof.
  intros I.
  destruct (request_rollback (H := I) w_request_state
              (mkRequestState (SqlRequest 2) "r1" (Some "t1"))) as [[s' r'] res] eqn:E.
  assert (res = Ok "t1") as -> by (vm_compute in E; injection E as _ _ <-; reflexivity).
  apply (@request_stays_in_sync _ _ _
    (app_context_coordinator_laws w_size w_hash w_publish_ok w_app (w_env 2) w_apply)
    w_request_state (mkRequestState (SqlRequest 2) "r1" (Some "t1")) s' r' "t1" w_request_inv).
  - reflexivity.
  - exact E.
Defined.
