(* ===== verification/Ids.v ===== *)
(** * Ids: Snowflake ids and row versions

    Models of kalamdb-commons/src/ids: the Snowflake generator (snowflake.rs), [SeqId]
    (seq_id.rs), [VersionId]/[RaftVersionId] with entry bounds and frontiers (version_id.rs), and
    the assignment of versions to the rows of a Raft entry (kalamdb-raft data_response.rs).

    The generator's mutex makes one call one atomic step on [GeneratorState]; the wall clock is an
    argument ([None] is a clock before the Unix epoch, which the source reports as an error). *)

From Stdlib Require Import ZArith Lia Sorting.Sorted.
From stdpp Require Import base countable strings gmap fin_maps list.
From S2P Require Import Prelude Commons.

Open Scope Z_scope.

(** ** Snowflake generator *)

Module Snowflake.

Record SnowflakeGenerator := mkGenerator { worker_bits : Z; epoch : Z }.

Record GeneratorState := mkGenState {
  last_timestamp : Z;
  last_observed_timestamp : Z;
  sequence : Z
}.

Definition DEFAULT_EPOCH : Z := 1704067200000.
Definition MAX_WORKER_ID : Z := 1023.
Definition MAX_SEQUENCE : Z := 4095.
Definition MAX_BACKWARD_DRIFT_MS : Z := 50.

Inductive SnowflakeError :=
| ClockUnavailable
| ClockMovedBackwards (drift_ms : Z)
| TimestampOverflow
| BeforeEpoch (timestamp_ms epoch : Z).

(** [with_epoch]; [None] is the panic on a worker id above the maximum. *)
Definition with_epoch (worker_id epoch : Z) : option (SnowflakeGenerator * GeneratorState) :=
  if worker_id <=? MAX_WORKER_ID
  then Some (mkGenerator (wrap64 (Z.shiftl worker_id 12)) epoch, mkGenState 0 0 0)
  else None.

Definition compose_id (g : SnowflakeGenerator) (timestamp seq : Z) : Z :=
  u64_as_i64
    (Z.lor (Z.lor (wrap64 (Z.shiftl (u64_sub timestamp (epoch g)) 22)) (worker_bits g)) seq).

Definition reconcile_timestamp (st : GeneratorState) (clock : option Z) :
    GeneratorState * Result SnowflakeError Z :=
  match clock with
  | None => (st, Err ClockUnavailable)
  | Some timestamp =>
      if (0 <? last_observed_timestamp st) && (timestamp <? last_observed_timestamp st) then
        let drift := last_observed_timestamp st - timestamp in
        if MAX_BACKWARD_DRIFT_MS <? drift then (st, Err (ClockMovedBackwards drift))
        else (st, Ok (Z.max timestamp (last_timestamp st)))
      else
        let st1 := if last_observed_timestamp st <? timestamp
                   then mkGenState (last_timestamp st) timestamp (sequence st) else st in
        (st1, Ok (Z.max timestamp (last_timestamp st1)))
  end.

Definition next_logical_millis (last : Z) : Result SnowflakeError Z :=
  match checked_add last 1 with Some t => Ok t | None => Err TimestampOverflow end.

Definition next_id (g : SnowflakeGenerator) (st : GeneratorState) (clock : option Z) :
    GeneratorState * Result SnowflakeError Z :=
  let '(st1, r) := reconcile_timestamp st clock in
  match r with
  | Err e => (st1, Err e)
  | Ok timestamp =>
      if timestamp =? last_timestamp st1 then
        let seq := Z.land (sequence st1 + 1) MAX_SEQUENCE in
        let st2 := mkGenState (last_timestamp st1) (last_observed_timestamp st1) seq in
        if seq =? 0 then
          match next_logical_millis (last_timestamp st1) with
          | Err e => (st2, Err e)
          | Ok t => (mkGenState t (last_observed_timestamp st1) 0, Ok (compose_id g t 0))
          end
        else (mkGenState timestamp (last_observed_timestamp st1) seq,
              Ok (compose_id g timestamp seq))
      else (mkGenState timestamp (last_observed_timestamp st1) 0, Ok (compose_id g timestamp 0))
  end.

(** [append_chunk_ids]: ids counted up from the first one. *)
Fixpoint append_chunk_ids (id : Z) (chunk_len : nat) : list Z :=
  match chunk_len with
  | O => []
  | S n => id :: append_chunk_ids (id + 1) n
  end.

(** One iteration of the loop of [next_ids_mapped] for [remaining] ids. *)
Definition next_chunk (g : SnowflakeGenerator) (st : GeneratorState) (clock : option Z)
    (remaining : Z) : GeneratorState * Result SnowflakeError (list Z) :=
  let '(st1, r) := reconcile_timestamp st clock in
  match r with
  | Err e => (st1, Err e)
  | Ok timestamp =>
      let emit t start len seq :=
        (mkGenState t (last_observed_timestamp st1) seq,
         Ok (append_chunk_ids (compose_id g t start) (Z.to_nat len))) in
      if timestamp =? last_timestamp st1 then
        if sequence st1 =? MAX_SEQUENCE then
          match next_logical_millis (last_timestamp st1) with
          | Err e => (st1, Err e)
          | Ok t => let len := Z.min remaining (MAX_SEQUENCE + 1) in emit t 0 len (len - 1)
          end
        else
          let len := Z.min remaining (MAX_SEQUENCE - sequence st1) in
          emit timestamp (sequence st1 + 1) len (sequence st1 + len)
      else
        let len := Z.min remaining (MAX_SEQUENCE + 1) in emit timestamp 0 len (len - 1)
  end.

(** The loop; every iteration emits at least one id, so [count] rounds are enough. *)
Fixpoint next_ids_loop (fuel : nat) (g : SnowflakeGenerator) (st : GeneratorState)
    (clocks : nat -> option Z) (remaining : Z) :
    GeneratorState * Result SnowflakeError (list Z) :=
  match fuel with
  | O => (st, Ok [])
  | S fuel' =>
      if remaining <=? 0 then (st, Ok [])
      else
        let '(st1, r) := next_chunk g st (clocks 0%nat) remaining in
        match r with
        | Err e => (st1, Err e)
        | Ok ids =>
            let '(st2, r2) :=
              next_ids_loop fuel' g st1 (fun i => clocks (S i))
                (remaining - Z.of_nat (length ids)) in
            (st2, result_bind r2 (fun rest => Ok (ids ++ rest)))
        end
  end.

(** [next_ids]: [next_ids_mapped] with the identity. *)
Definition next_ids (g : SnowflakeGenerator) (st : GeneratorState) (clocks : nat -> option Z)
    (count : nat) : GeneratorState * Result SnowflakeError (list Z) :=
  next_ids_loop count g st clocks (Z.of_nat count).

Definition max_id_for_timestamp_with_epoch (timestamp_ms epoch : Z) : Result SnowflakeError Z :=
  if timestamp_ms <? epoch then Err (BeforeEpoch timestamp_ms epoch)
  else Ok (u64_as_i64
             (Z.lor (Z.lor (wrap64 (Z.shiftl (timestamp_ms - epoch) 22))
                           (Z.shiftl MAX_WORKER_ID 12)) MAX_SEQUENCE)).

Definition extract_timestamp (g : SnowflakeGenerator) (id : Z) : Z :=
  u64_add (Z.shiftr (i64_as_u64 id) 22) (epoch g).

Definition extract_worker_id (id : Z) : Z := Z.land (Z.shiftr (i64_as_u64 id) 12) 1023.

Definition extract_sequence (id : Z) : Z := Z.land (i64_as_u64 id) 4095.

(** *** Lemmas *)

(** A generator made by [with_epoch] and a time its 41-bit field can hold. *)
Definition gen_ok (g : SnowflakeGenerator) : Prop :=
  exists w, 0 <= w <= MAX_WORKER_ID /\ worker_bits g = w * 2 ^ 12 /\ 0 <= epoch g <= u64_max.

Definition time_ok (g : SnowflakeGenerator) (t : Z) : Prop :=
  epoch g <= t < epoch g + 2 ^ 41 /\ t < u64_max.

Lemma compose_value g t s :
  gen_ok g -> time_ok g t -> 0 <= s <= MAX_SEQUENCE ->
  compose_id g t s = (t - epoch g) * 2 ^ 22 + worker_bits g + s.
Proof.
  intros (w & Hw & Hwb & He) [Ht Htu] Hs. unfold compose_id, u64_sub, MAX_WORKER_ID, MAX_SEQUENCE in *.
  rewrite (wrap64_small (t - epoch g)) by (unfold u64_modulus, u64_max in *; lia).
  rewrite Z.shiftl_mul_pow2 by lia.
  rewrite wrap64_small by (unfold u64_modulus; lia).
  rewrite Hwb. rewrite lor_field by lia.
  replace ((t - epoch g) * 2 ^ 22 + w * 2 ^ 12) with (((t - epoch g) * 2 ^ 10 + w) * 2 ^ 12) by lia.
  rewrite lor_field by lia. apply u64_as_i64_small. unfold i64_max. lia.
Qed.

(** A position counts milliseconds and sequence numbers together. *)
Definition pos (t s : Z) : Z := t * 4096 + s.
Definition compose_pos (g : SnowflakeGenerator) (p : Z) : Z :=
  compose_id g (p / 4096) (p mod 4096).

Lemma pos_split t s : 0 <= s <= MAX_SEQUENCE -> pos t s / 4096 = t /\ pos t s mod 4096 = s.
Proof.
  intros Hs. unfold pos, MAX_SEQUENCE in *. split.
  - rewrite Z.div_add_l by lia. rewrite (Z.div_small s) by lia. lia.
  - rewrite Z.add_comm, Z.mod_add by lia. apply Z.mod_small. lia.
Qed.

Lemma compose_pos_eq g t s :
  0 <= s <= MAX_SEQUENCE -> compose_pos g (pos t s) = compose_id g t s.
Proof. intros Hs. unfold compose_pos. by destruct (pos_split t s Hs) as [-> ->]. Qed.

Definition st_ok (st : GeneratorState) : Prop :=
  0 <= sequence st <= MAX_SEQUENCE /\ 0 <= last_timestamp st.

Definition st_pos (st : GeneratorState) : Z := pos (last_timestamp st) (sequence st).

(** The next position a generator takes when the clock reads [c]. *)
Definition next_pos (st : GeneratorState) (c : Z) : Z :=
  if last_timestamp st <? c then pos c 0 else st_pos st + 1.

Definition obs_after (st : GeneratorState) (c : Z) : Z :=
  if last_observed_timestamp st <? c then c else last_observed_timestamp st.

(** The clock is read as current or at most the tolerated drift behind. *)
Definition clock_ok (st : GeneratorState) (c : Z) : bool :=
  negb ((0 <? last_observed_timestamp st) && (c <? last_observed_timestamp st) &&
        (MAX_BACKWARD_DRIFT_MS <? last_observed_timestamp st - c)).

Lemma reconcile_cases st c :
  reconcile_timestamp st (Some c) =
  if clock_ok st c
  then (mkGenState (last_timestamp st) (obs_after st c) (sequence st),
        Ok (Z.max c (last_timestamp st)))
  else (st, Err (ClockMovedBackwards (last_observed_timestamp st - c))).
Proof.
  unfold reconcile_timestamp, clock_ok, obs_after. destruct st as [lt lo sq]. simpl.
  destruct ((0 <? lo) && (c <? lo)) eqn:E; simpl.
  - destruct (_ <? lo - c); simpl; [done|]. zbool. by rewrite (proj2 (Z.ltb_ge _ _)) by lia.
  - by destruct (lo <? c).
Qed.

(** Reading the same clock again is accepted, and changes nothing more. *)
Lemma clock_ok_again st c t s :
  clock_ok st c = true ->
  clock_ok (mkGenState t (obs_after st c) s) c = true /\
  obs_after (mkGenState t (obs_after st c) s) c = obs_after st c.
Proof.
  unfold clock_ok, obs_after. simpl. intros H.
  destruct (last_observed_timestamp st <? c) eqn:E; simpl.
  - rewrite Z.ltb_irrefl. by rewrite andb_false_r.
  - split; [done|]. by rewrite E.
Qed.

Lemma seq_increment s : 0 <= s <= MAX_SEQUENCE ->
  Z.land (s + 1) MAX_SEQUENCE = if s =? MAX_SEQUENCE then 0 else s + 1.
Proof.
  intros Hs. unfold MAX_SEQUENCE in *. change 4095 with (Z.ones 12) at 1.
  rewrite Z.land_ones by lia. destruct (s =? 4095) eqn:E; zbool.
  - subst. reflexivity.
  - apply Z.mod_small. lia.
Qed.

Definition state_at (p o : Z) : GeneratorState := mkGenState (p / 4096) o (p mod 4096).

Lemma state_at_pos t s o : 0 <= s <= MAX_SEQUENCE -> state_at (pos t s) o = mkGenState t o s.
Proof. intros Hs. unfold state_at. by destruct (pos_split t s Hs) as [-> ->]. Qed.

Lemma state_at_ok p o : 0 <= p -> st_ok (state_at p o) /\ st_pos (state_at p o) = p.
Proof.
  intros Hp. unfold st_ok, st_pos, state_at, pos, MAX_SEQUENCE. simpl.
  pose proof (Z.mod_pos_bound p 4096 ltac:(lia)). pose proof (Z.div_pos p 4096 Hp ltac:(lia)).
  pose proof (Z.div_mod p 4096 ltac:(lia)). lia.
Qed.

(** One call: it refuses a clock that went too far back and changes nothing, or it takes the next
    position. *)
Lemma next_id_exact g st c :
  st_ok st -> 0 <= c -> Z.max c (last_timestamp st) < u64_max -> clock_ok st c = true ->
  next_id g st (Some c) =
  (state_at (next_pos st c) (obs_after st c), Ok (compose_pos g (next_pos st c))).
Proof.
  intros [Hs Hl] Hc Hmax Hclk. unfold next_id. rewrite reconcile_cases, Hclk. simpl.
  rewrite seq_increment by done. unfold next_pos, st_pos.
  destruct (_ =? last_timestamp st) eqn:Et; zbool.
  - rewrite (proj2 (Z.ltb_ge _ c)) by lia. destruct (sequence st =? MAX_SEQUENCE) eqn:Em; zbool.
    + simpl. unfold next_logical_millis, checked_add.
      rewrite (proj2 (Z.leb_le _ _)) by (unfold u64_max in *; lia).
      replace (pos (last_timestamp st) (sequence st) + 1) with (pos (last_timestamp st + 1) 0)
        by (unfold pos, MAX_SEQUENCE in *; lia).
      by rewrite compose_pos_eq, state_at_pos by (unfold MAX_SEQUENCE; lia).
    + rewrite (proj2 (Z.eqb_neq _ _)) by lia.
      replace (pos (last_timestamp st) (sequence st) + 1)
        with (pos (last_timestamp st) (sequence st + 1)) by (unfold pos; lia).
      by rewrite compose_pos_eq, state_at_pos, Et by lia.
  - rewrite (proj2 (Z.ltb_lt _ c)) by lia. replace (Z.max c (last_timestamp st)) with c by lia.
    by rewrite compose_pos_eq, state_at_pos by (unfold MAX_SEQUENCE; lia).
Qed.

Lemma next_id_refused g st c :
  clock_ok st c = false ->
  next_id g st (Some c) = (st, Err (ClockMovedBackwards (last_observed_timestamp st - c))).
Proof. intros H. unfold next_id. by rewrite reconcile_cases, H. Qed.

Lemma next_pos_bounds st c :
  st_ok st -> 0 <= c ->
  st_pos st < next_pos st c /\
  Z.max c (last_timestamp st) <= next_pos st c / 4096 <= Z.max c (last_timestamp st) + 1.
Proof.
  intros [Hs Hl] Hc. unfold next_pos, st_pos, pos, MAX_SEQUENCE in *.
  destruct (_ <? c) eqn:E; zbool.
  - rewrite Z.add_0_r, Z.div_mul by lia. lia.
  - pose proof (Z.div_mod (last_timestamp st * 4096 + sequence st + 1) 4096 ltac:(lia)).
    pose proof (Z.mod_pos_bound (last_timestamp st * 4096 + sequence st + 1) 4096 ltac:(lia)).
    lia.
Qed.

Lemma compose_pos_mono g p q :
  gen_ok g -> time_ok g (p / 4096) -> time_ok g (q / 4096) -> p < q ->
  compose_pos g p < compose_pos g q.
Proof.
  intros Hg Hp Hq Hpq. unfold compose_pos.
  pose proof (Z.mod_pos_bound p 4096 ltac:(lia)). pose proof (Z.mod_pos_bound q 4096 ltac:(lia)).
  pose proof (Z.div_mod p 4096 ltac:(lia)). pose proof (Z.div_mod q 4096 ltac:(lia)).
  rewrite !compose_value by (try done; unfold MAX_SEQUENCE; lia).
  pose proof (Z.div_le_mono p q 4096 ltac:(lia) ltac:(lia)).
  destruct (decide (p / 4096 = q / 4096)) as [E|E]; [rewrite E in *; lia|]. lia.
Qed.

(** Every time up to [b] can be written into an id. *)
Definition bound_ok (g : SnowflakeGenerator) (b : Z) : Prop :=
  b < epoch g + 2 ^ 41 /\ b < u64_max.

(** *** Batches *)

(** [n] single calls at one clock reading, stopping at the first error. *)
Fixpoint singles (g : SnowflakeGenerator) (st : GeneratorState) (c : Z) (n : nat) :
    GeneratorState * Result SnowflakeError (list Z) :=
  match n with
  | O => (st, Ok [])
  | S n' =>
      match next_id g st (Some c) with
      | (st1, Err e) => (st1, Err e)
      | (st1, Ok id) =>
          let '(st2, r) := singles g st1 c n' in (st2, result_bind r (fun rest => Ok (id :: rest)))
      end
  end.

Definition run_ids (g : SnowflakeGenerator) (p : Z) (n : nat) : list Z :=
  compose_pos g <$> seqZ p (Z.of_nat n).

Lemma run_ids_S g p n : run_ids g p (S n) = compose_pos g p :: run_ids g (p + 1) n.
Proof.
  unfold run_ids. rewrite seqZ_cons by lia. simpl. do 3 f_equal; lia.
Qed.

Lemma run_ids_app g p n m : run_ids g p (n + m) = run_ids g p n ++ run_ids g (p + Z.of_nat n) m.
Proof.
  unfold run_ids. rewrite Nat2Z.inj_add, seqZ_app by lia. by rewrite fmap_app.
Qed.

(** Once the clock has been read, the next position at the same reading is the successor. *)
Lemma next_pos_after st c p o :
  st_ok st -> 0 <= c -> next_pos st c <= p -> next_pos (state_at p o) c = p + 1.
Proof.
  intros Hst Hc Hp. destruct (next_pos_bounds st c Hst Hc) as [Hlt Htime].
  assert (0 <= p) as Hnn by (destruct Hst; unfold st_pos, pos in Hlt; lia).
  destruct (state_at_ok p o Hnn) as [_ Hpos]. unfold next_pos. rewrite Hpos. simpl.
  pose proof (Z.div_le_mono _ _ 4096 ltac:(lia) Hp).
  by rewrite (proj2 (Z.ltb_ge _ _)) by lia.
Qed.

Lemma singles_spec g st c n :
  st_ok st -> 0 <= c -> Z.max c (last_timestamp st) + Z.of_nat n < u64_max ->
  clock_ok st c = true ->
  singles g st c (S n) =
  (state_at (next_pos st c + Z.of_nat n) (obs_after st c), Ok (run_ids g (next_pos st c) (S n))).
Proof.
  revert st. induction n as [|n IH]; intros st Hst Hc Hmax Hclk.
  { simpl singles. rewrite next_id_exact by (try done; lia). rewrite Z.add_0_r. done. }
  destruct (next_pos_bounds st c Hst Hc) as [Hlt Htime].
  assert (0 <= next_pos st c) as Hnn by (destruct Hst; unfold st_pos, pos in Hlt; lia).
  destruct (state_at_ok (next_pos st c) (obs_after st c) Hnn) as [Hok _].
  destruct (clock_ok_again st c (next_pos st c / 4096) (next_pos st c mod 4096) Hclk) as [Hc2 Ho2].
  change (mkGenState (next_pos st c / 4096) (obs_after st c) (next_pos st c mod 4096))
    with (state_at (next_pos st c) (obs_after st c)) in Hc2, Ho2.
  change (singles g st c (S (S n))) with
    (match next_id g st (Some c) with
     | (st1, Err e) => (st1, Err e)
     | (st1, Ok id) => let '(st2, r) := singles g st1 c (S n) in
                       (st2, result_bind r (fun rest => Ok (id :: rest)))
     end).
  rewrite next_id_exact by (try done; lia).
  rewrite IH; [|done|done|simpl; lia|done].
  rewrite (next_pos_after st) by (try done; lia). rewrite Ho2. simpl result_bind.
  rewrite (run_ids_S g (next_pos st c) (S n)). do 2 f_equal. lia.
Qed.

Lemma append_chunk_run g t s n :
  gen_ok g -> time_ok g t -> 0 <= s -> s + Z.of_nat n <= MAX_SEQUENCE + 1 ->
  append_chunk_ids (compose_id g t s) n = run_ids g (pos t s) n.
Proof.
  intros Hg Ht. revert s. induction n as [|n IH]; intros s Hs Hn; [done|].
  rewrite run_ids_S. simpl. rewrite compose_pos_eq by lia. f_equal.
  replace (pos t s + 1) with (pos t (s + 1)) by (unfold pos; lia).
  destruct n as [|n]; [done|].
  rewrite <-IH by lia. f_equal. rewrite !compose_value by (try done; lia). lia.
Qed.

(** One chunk is a run of at least one id from the next position. *)
Lemma next_chunk_run g st c r :
  gen_ok g -> st_ok st -> epoch g <= c -> bound_ok g (Z.max c (last_timestamp st) + 1) ->
  clock_ok st c = true -> 0 < r ->
  exists n, (0 < n)%nat /\ Z.of_nat n <= r /\
    next_chunk g st (Some c) r =
    (state_at (next_pos st c + (Z.of_nat n - 1)) (obs_after st c),
     Ok (run_ids g (next_pos st c) n)).
Proof.
  intros Hg [Hs Hl] He Hbd Hclk Hr. pose proof Hg as (w & _ & _ & Hep).
  unfold bound_ok in Hbd.
  assert (forall t start len, time_ok g t -> 0 <= start -> 0 < len ->
            start + len <= MAX_SEQUENCE + 1 ->
            (mkGenState t (obs_after st c) (start + len - 1),
             Ok (append_chunk_ids (compose_id g t start) (Z.to_nat len)))
            = (state_at (pos t start + (Z.of_nat (Z.to_nat len) - 1)) (obs_after st c),
               Ok (E:=SnowflakeError) (run_ids g (pos t start) (Z.to_nat len)))) as Hemit.
  { intros t start len Ht Hst Hlen Hsum. rewrite append_chunk_run by (try done; lia).
    replace (pos t start + (Z.of_nat (Z.to_nat len) - 1)) with (pos t (start + len - 1))
      by (unfold pos; lia).
    by rewrite state_at_pos by lia. }
  unfold next_chunk. rewrite reconcile_cases, Hclk. simpl. unfold next_pos, st_pos.
  destruct (_ =? last_timestamp st) eqn:Et; zbool.
  - rewrite (proj2 (Z.ltb_ge _ c)) by lia. destruct (sequence st =? MAX_SEQUENCE) eqn:Em; zbool.
    + unfold next_logical_millis, checked_add. rewrite (proj2 (Z.leb_le _ _)) by lia.
      replace (pos (last_timestamp st) (sequence st) + 1) with (pos (last_timestamp st + 1) 0)
        by (unfold pos, MAX_SEQUENCE in *; lia).
      exists (Z.to_nat (Z.min r (MAX_SEQUENCE + 1))). split_and!; [unfold MAX_SEQUENCE in *; lia
        |unfold MAX_SEQUENCE in *; lia|].
      rewrite <-Hemit; [|unfold time_ok; lia|lia|unfold MAX_SEQUENCE; lia|lia]. do 2 f_equal.
    + replace (pos (last_timestamp st) (sequence st) + 1)
        with (pos (last_timestamp st) (sequence st + 1)) by (unfold pos; lia).
      exists (Z.to_nat (Z.min r (MAX_SEQUENCE - sequence st))). split_and!; [lia|lia|].
      rewrite <-Hemit; [|unfold time_ok; lia|lia|lia|lia]. rewrite Et. do 2 f_equal. lia.
  - rewrite (proj2 (Z.ltb_lt _ c)) by lia. replace (Z.max c (last_timestamp st)) with c by lia.
    exists (Z.to_nat (Z.min r (MAX_SEQUENCE + 1))). split_and!; [unfold MAX_SEQUENCE in *; lia
      |unfold MAX_SEQUENCE in *; lia|].
    rewrite <-Hemit; [|unfold time_ok; lia|lia|unfold MAX_SEQUENCE; lia|lia]. do 2 f_equal.
Qed.

(** What part of a run does: the generator moves forward and the ids it gave are sorted, each at a
    position it moved over. *)
Record good_run (g : SnowflakeGenerator) (st st' : GeneratorState) (ids : list Z) : Prop := mkGoodRun {
  gr_ok : st_ok st';
  gr_pos : st_pos st <= st_pos st';
  gr_sorted : StronglySorted Z.lt ids;
  gr_at : Forall (fun id => exists p, st_pos st < p <= st_pos st' /\ time_ok g (p / 4096) /\
                              id = compose_pos g p) ids
}.

Lemma good_run_nil g st : st_ok st -> good_run g st st [].
Proof. intros H. split; [done|lia|constructor|constructor]. Qed.

Lemma good_run_forget g st st' ids : good_run g st st' ids -> good_run g st st' [].
Proof. intros []. split; [done|done|constructor|constructor]. Qed.

Lemma ascending_app (xs ys : list Z) :
  StronglySorted Z.lt xs -> StronglySorted Z.lt ys -> (forall x y, x ∈ xs -> y ∈ ys -> x < y) ->
  StronglySorted Z.lt (xs ++ ys).
Proof.
  intros Hx Hy. induction Hx as [|x xs Hx IH Hall]; intros Hxy; [done|]. cbn. constructor.
  - apply IH. intros a b Ha Hb. apply Hxy; [by apply elem_of_cons; right|done].
  - apply Forall_app. split; [done|]. apply Forall_forall. intros y Hy'.
    apply Hxy; [by apply elem_of_cons; left|done].
Qed.

Lemma good_run_app g a b c xs ys :
  gen_ok g -> good_run g a b xs -> good_run g b c ys -> good_run g a c (xs ++ ys).
Proof.
  intros Hg [Ho1 Hp1 Hs1 Ha1] [Ho2 Hp2 Hs2 Ha2]. split; [done|lia| |].
  - apply ascending_app; try done. intros x y Hx Hy. rewrite Forall_forall in Ha1, Ha2.
    destruct (Ha1 x Hx) as (p & Hp & Ht & ->). destruct (Ha2 y Hy) as (q & Hq & Ht' & ->).
    apply compose_pos_mono; [done..|lia].
  - apply Forall_app. split; (eapply Forall_impl; [eassumption|]); cbn;
      intros id (p & Hp & Ht & ->); exists p; split_and!; lia || done.
Qed.

(** A run of ids from the next position. *)
Lemma run_ids_good g st c k b :
  gen_ok g -> st_ok st -> (0 < k)%nat -> epoch g <= c <= b -> last_timestamp st <= b ->
  bound_ok g (b + Z.of_nat k) ->
  let st1 := state_at (next_pos st c + (Z.of_nat k - 1)) (obs_after st c) in
  good_run g st st1 (run_ids g (next_pos st c) k) /\ last_timestamp st1 <= b + Z.of_nat k.
Proof.
  intros Hg Hst Hk Hc Hl Hbd st1. pose proof Hg as (w & _ & _ & Hep).
  destruct (next_pos_bounds st c Hst ltac:(lia)) as [Hlt Htime].
  assert (0 <= next_pos st c) as Hnn by (destruct Hst; unfold st_pos, pos in Hlt; lia).
  destruct (state_at_ok (next_pos st c + (Z.of_nat k - 1)) (obs_after st c) ltac:(lia)) as [Hok Hpos].
  fold st1 in Hok, Hpos.
  assert (forall p, next_pos st c <= p <= next_pos st c + (Z.of_nat k - 1) ->
            epoch g <= p / 4096 <= b + Z.of_nat k) as Htm.
  { intros p Hp. pose proof (Z.div_mod (next_pos st c) 4096 ltac:(lia)).
    pose proof (Z.mod_pos_bound (next_pos st c) 4096 ltac:(lia)). split.
    - pose proof (Z.div_le_mono (next_pos st c) p 4096 ltac:(lia) ltac:(lia)). lia.
    - apply Z.lt_succ_r. apply Z.div_lt_upper_bound; lia. }
  split; [|cbn; apply Htm; lia]. unfold bound_ok in Hbd. split; [done|lia| |].
  - assert (forall n p, (forall q, p <= q < p + Z.of_nat n -> epoch g <= q / 4096 <= b + Z.of_nat k) ->
              StronglySorted Z.lt (run_ids g p n)) as Hrun; [|apply Hrun; intros q Hq; apply Htm; lia].
    induction n as [|n IH]; intros p Hp; [constructor|]. rewrite run_ids_S. constructor.
    + apply IH. intros q Hq. apply Hp. lia.
    + apply Forall_forall. intros id (q & -> & Hq%elem_of_seqZ)%list_elem_of_fmap.
      pose proof (Hp p ltac:(lia)). pose proof (Hp q ltac:(lia)).
      apply compose_pos_mono; [done|unfold time_ok; lia|unfold time_ok; lia|lia].
  - apply Forall_forall. intros id (q & -> & Hq%elem_of_seqZ)%list_elem_of_fmap. exists q.
    pose proof (Htm q ltac:(lia)). split_and!; [lia|rewrite Hpos; lia|unfold time_ok; lia..|done].
Qed.

(** The ids a call returned; a refused call returns none. *)
Definition returned (r : Result SnowflakeError (list Z)) : list Z :=
  match r with Ok ids => ids | Err _ => [] end.

Lemma next_id_good g st clock b :
  gen_ok g -> st_ok st -> last_timestamp st <= b -> bound_ok g (b + 1) ->
  (forall c, clock = Some c -> epoch g <= c <= b) ->
  let '(st', r) := next_id g st clock in
  good_run g st st' (returned (result_bind r (fun id => Ok [id]))) /\ last_timestamp st' <= b + 1.
Proof.
  intros Hg Hst Hl Hbd Hc. destruct clock as [c|]; [|split; [by apply good_run_nil|lia]].
  specialize (Hc c eq_refl). pose proof Hg as (w & _ & _ & Hep).
  destruct (clock_ok st c) eqn:Hclk; [|rewrite next_id_refused by done; split; [by apply good_run_nil|lia]].
  rewrite next_id_exact by (try done; unfold bound_ok in *; lia).
  destruct (run_ids_good g st c 1 b) as [Hrun Hlast]; try done; [lia|].
  cbn [Z.of_nat] in *. rewrite Z.add_0_r in *. exact (conj Hrun Hlast).
Qed.

Lemma next_ids_loop_good g fuel st clocks r b :
  gen_ok g -> st_ok st -> last_timestamp st <= b -> 0 <= r -> bound_ok g (b + r) ->
  (forall i c, clocks i = Some c -> epoch g <= c <= b) ->
  let '(st', res) := next_ids_loop fuel g st clocks r in
  good_run g st st' (returned res) /\ last_timestamp st' <= b + r.
Proof.
  intros Hg. revert st clocks r b. induction fuel as [|fuel IH]; intros st clocks r b Hst Hl Hr Hbd Hc;
    [split; [by apply good_run_nil|lia]|].
  cbn [next_ids_loop]. destruct (Z.leb_spec r 0); [split; [by apply good_run_nil|lia]|].
  destruct (clocks 0%nat) as [c|] eqn:Hc0; [|split; [by apply good_run_nil|lia]].
  pose proof (Hc _ _ Hc0) as Hcb. destruct (clock_ok st c) eqn:Hclk.
  2: { unfold next_chunk. rewrite reconcile_cases, Hclk. split; [by apply good_run_nil|lia]. }
  destruct (next_chunk_run g st c r) as (k & Hk0 & Hk & ->);
    [done|done|lia|unfold bound_ok in *; lia|done|lia|].
  destruct (run_ids_good g st c k b) as [Hrun Hlast]; [done|done|lia|done|done|unfold bound_ok in *; lia|].
  set (st1 := state_at _ _) in *.
  assert (length (run_ids g (next_pos st c) k) = k) as ->
    by (unfold run_ids; rewrite length_fmap, length_seqZ; lia).
  specialize (IH st1 (fun i => clocks (S i)) (r - Z.of_nat k) (b + Z.of_nat k)).
  destruct (next_ids_loop fuel g st1 _ _) as [st2 res].
  destruct IH as [Hrest Hlast2]; [by destruct Hrun|done|lia|by replace (b + Z.of_nat k + (r - Z.of_nat k)) with (b + r) by lia| |].
  { intros i c' Hi. specialize (Hc _ _ Hi). lia. }
  split; [|lia]. destruct res as [rest|]; cbn [result_bind returned] in *.
  - by eapply good_run_app.
  - change (@nil Z) with ((@nil Z) ++ []). eapply good_run_app; [done|by eapply good_run_forget|done].
Qed.

(** A sequence of calls, each with the clock it reads: [next_id], or [next_ids], which reads it once
    per round. *)
Inductive IdCall := OneId (clock : option Z) | ManyIds (clocks : nat -> option Z) (count : nat).

Definition run_call (g : SnowflakeGenerator) (st : GeneratorState) (call : IdCall) : GeneratorState * list Z :=
  match call with
  | OneId clock => let '(st', r) := next_id g st clock in (st', returned (result_bind r (fun id => Ok [id])))
  | ManyIds clocks count => let '(st', r) := next_ids g st clocks count in (st', returned r)
  end.

Fixpoint issued (g : SnowflakeGenerator) (st : GeneratorState) (calls : list IdCall) : list Z :=
  match calls with
  | [] => []
  | call :: rest => let '(st', ids) := run_call g st call in ids ++ issued g st' rest
  end.

Definition requested (call : IdCall) : Z :=
  match call with OneId _ => 1 | ManyIds _ count => Z.of_nat count end.

Definition reads (call : IdCall) (c : Z) : Prop :=
  match call with OneId clock => clock = Some c | ManyIds clocks _ => exists i, clocks i = Some c end.

Definition total_requested (calls : list IdCall) : Z := foldr (fun call n => requested call + n) 0 calls.

Lemma total_requested_nonneg calls : 0 <= total_requested calls.
Proof.
  induction calls as [|call calls IH]; cbn; [lia|]. assert (0 <= requested call) by (destruct call; cbn; lia).
  unfold total_requested in IH. lia.
Qed.

Lemma issued_good g st calls b :
  gen_ok g -> st_ok st -> last_timestamp st <= b -> bound_ok g (b + total_requested calls) ->
  (forall call c, call ∈ calls -> reads call c -> epoch g <= c <= b) ->
  exists st', good_run g st st' (issued g st calls).
Proof.
  intros Hg. revert st b. induction calls as [|call calls IH]; intros st b Hst Hl Hbd Hc.
  { exists st. by apply good_run_nil. }
  cbn [issued]. pose proof (total_requested_nonneg calls) as Ht.
  change (total_requested (call :: calls)) with (requested call + total_requested calls) in Hbd.
  assert (let '(st', ids) := run_call g st call in
          good_run g st st' ids /\ last_timestamp st' <= b + requested call) as Hstep.
  { pose proof (Hc call) as Hcall. destruct call as [clock|clocks count]; cbn [run_call requested reads] in *.
    - pose proof (next_id_good g st clock b Hg Hst Hl) as H. destruct (next_id g st clock) as [st' r].
      apply H; [unfold bound_ok in *; lia|]. intros c Hr. apply Hcall; [by apply elem_of_cons; left|done].
    - unfold next_ids. pose proof (next_ids_loop_good g count st clocks (Z.of_nat count) b Hg Hst Hl) as H.
      destruct (next_ids_loop count g st clocks (Z.of_nat count)) as [st' r].
      apply H; [lia|unfold bound_ok in *; lia|]. intros i c Hr.
      apply Hcall; [by apply elem_of_cons; left|by exists i]. }
  destruct (run_call g st call) as [st1 ids]. destruct Hstep as [Hrun Hl1].
  destruct (IH st1 (b + requested call)) as [st' Hrest].
  - by destruct Hrun.
  - done.
  - by rewrite <-Z.add_assoc.
  - intros call' c Hin Hr. pose proof (Hc call' c ltac:(by apply elem_of_cons; right) Hr).
    assert (0 <= requested call) by (destruct call; cbn; lia). lia.
  - exists st'. by eapply good_run_app.
Qed.

Lemma next_ids_loop_spec fuel g st c n :
  gen_ok g -> st_ok st -> epoch g <= c -> clock_ok st c = true ->
  bound_ok g (Z.max c (last_timestamp st) + 1 + Z.of_nat n) -> (n < fuel)%nat ->
  next_ids_loop fuel g st (fun _ => Some c) (Z.of_nat (S n)) =
  (state_at (next_pos st c + Z.of_nat n) (obs_after st c), Ok (run_ids g (next_pos st c) (S n))).
Proof.
  intros Hg. revert st n. induction fuel as [|fuel IH]; intros st n Hst He Hclk Hbd Hf; [lia|].
  pose proof Hg as (w & _ & _ & Hep).
  destruct (next_chunk_run g st c (Z.of_nat (S n))) as (k & Hk0 & Hk & Hchunk);
    [done|done|done|unfold bound_ok in *; lia|done|lia|].
  cbn [next_ids_loop]. rewrite (proj2 (Z.leb_gt _ 0)) by lia. rewrite Hchunk.
  assert (length (run_ids g (next_pos st c) k) = k) as Hlen
    by (unfold run_ids; rewrite length_fmap, length_seqZ; lia).
  rewrite Hlen.
  destruct (decide (k = S n)) as [->|Hne].
  { replace (Z.of_nat (S n) - Z.of_nat (S n)) with 0 by lia. destruct fuel; simpl;
      rewrite app_nil_r; do 2 f_equal; lia. }
  destruct (next_pos_bounds st c Hst ltac:(lia)) as [Hlt Htime].
  assert (0 <= next_pos st c) as Hnn by (destruct Hst; unfold st_pos, pos in Hlt; lia).
  set (st1 := state_at (next_pos st c + (Z.of_nat k - 1)) (obs_after st c)).
  destruct (state_at_ok (next_pos st c + (Z.of_nat k - 1)) (obs_after st c) ltac:(lia))
    as [Hok1 _]. fold st1 in Hok1.
  destruct (clock_ok_again st c ((next_pos st c + (Z.of_nat k - 1)) / 4096)
              ((next_pos st c + (Z.of_nat k - 1)) mod 4096) Hclk) as [Hc2 Ho2].
  fold (state_at (next_pos st c + (Z.of_nat k - 1)) (obs_after st c)) in Hc2, Ho2.
  fold st1 in Hc2, Ho2.
  replace (Z.of_nat (S n) - Z.of_nat k) with (Z.of_nat (S (n - k))) by lia.
  assert (last_timestamp st1 <= Z.max c (last_timestamp st) + 1 + (Z.of_nat k - 1)) as Hlast.
  { simpl. pose proof (Z.div_mod (next_pos st c) 4096 ltac:(lia)).
    pose proof (Z.mod_pos_bound (next_pos st c) 4096 ltac:(lia)).
    apply Z.lt_succ_r. apply Z.div_lt_upper_bound; lia. }
  rewrite (IH st1 (n - k)%nat);
    [|done|done|done|unfold bound_ok in *; lia|lia].
  unfold st1. rewrite (next_pos_after st) by (try done; lia). fold st1. rewrite Ho2. simpl.
  replace (next_pos st c + (Z.of_nat k - 1) + 1) with (next_pos st c + Z.of_nat k) by lia.
  replace (S n) with (k + S (n - k))%nat by lia. rewrite run_ids_app. do 2 f_equal. lia.
Qed.

Lemma max_id_value e ts :
  0 <= e <= u64_max -> e <= ts < e + 2 ^ 41 ->
  max_id_for_timestamp_with_epoch ts e = Ok ((ts - e) * 2 ^ 22 + 2 ^ 22 - 1).
Proof.
  intros He Ht. unfold max_id_for_timestamp_with_epoch. rewrite (proj2 (Z.ltb_ge _ _)) by lia.
  rewrite Z.shiftl_mul_pow2 by lia. rewrite wrap64_small by (unfold u64_modulus; lia).
  change (Z.shiftl MAX_WORKER_ID 12) with 4190208. change MAX_SEQUENCE with 4095.
  rewrite lor_field by lia.
  replace ((ts - e) * 2 ^ 22 + 4190208) with (((ts - e) * 2 ^ 10 + 1023) * 2 ^ 12) by lia.
  rewrite lor_field by lia. f_equal. rewrite u64_as_i64_small by (unfold i64_max; lia). lia.
Qed.

(** *** Properties *)

(** C31. The ids of one generator are strictly increasing, so no id is issued twice: over any
    sequence of single calls and batches, at any clock readings (repeated, jumping forward, drifting
    back, failing) that are not before the epoch and not above a bound [b] with [b] plus the number
    of ids requested inside the 41-bit field of the timestamp. *)
Theorem snowflake_ids_strictly_increase g st calls b :
  gen_ok g -> st_ok st -> last_timestamp st <= b -> bound_ok g (b + total_requested calls) ->
  (forall call c, call ∈ calls -> reads call c -> epoch g <= c <= b) ->
  StronglySorted Z.lt (issued g st calls).
Proof. intros Hg Hst Hl Hb Hc. destruct (issued_good g st calls b Hg Hst Hl Hb Hc) as [st' []]. done. Qed.

(** Generating a batch under one lock gives the same ids and the same generator state as that
    many single calls at the same clock reading, including the refusal of a clock that moved back
    too far; the loop emits exactly the requested number. *)
Theorem snowflake_batch_equals_singles g st c count :
  gen_ok g -> st_ok st -> epoch g <= c ->
  bound_ok g (Z.max c (last_timestamp st) + 1 + Z.of_nat count) ->
  next_ids g st (fun _ => Some c) count = singles g st c count.
Proof.
  intros Hg Hst He Hbd. pose proof Hg as (w & _ & _ & Hep). unfold next_ids.
  destruct count as [|n]; [done|]. destruct (clock_ok st c) eqn:Hclk.
  - rewrite next_ids_loop_spec by (try done; unfold bound_ok in *; lia).
    by rewrite singles_spec by (try done; unfold bound_ok in *; lia).
  - cbn [next_ids_loop singles]. rewrite (proj2 (Z.leb_gt _ 0)) by lia.
    unfold next_chunk. rewrite next_id_refused by done. by rewrite reconcile_cases, Hclk.
Qed.

(** An id decodes to the time, worker and sequence number it was composed from, and
    [max_id_for_timestamp] is a sharp bound: an id is at most the bound of a time exactly when it
    was made at or before that time. *)
Theorem snowflake_decodes w e t s ts :
  0 <= w <= MAX_WORKER_ID -> 0 <= e -> e <= t < e + 2 ^ 41 -> t < u64_max ->
  0 <= s <= MAX_SEQUENCE -> e <= ts < e + 2 ^ 41 ->
  let g := mkGenerator (wrap64 (Z.shiftl w 12)) e in
  let id := compose_id g t s in
  extract_timestamp g id = t /\ extract_worker_id id = w /\ extract_sequence id = s /\
  exists m, max_id_for_timestamp_with_epoch ts e = Ok m /\ (id <= m <-> t <= ts).
Proof.
  intros Hw He Ht Htu Hs Hts g id.
  assert (wrap64 (Z.shiftl w 12) = w * 2 ^ 12) as Hwb.
  { rewrite Z.shiftl_mul_pow2 by lia. apply wrap64_small. unfold u64_modulus, MAX_WORKER_ID in *. lia. }
  assert (id = ((t - e) * 2 ^ 10 + w) * 2 ^ 12 + s) as Hid.
  { unfold id. rewrite compose_value; [simpl; rewrite Hwb; lia| |split; simpl; lia|done].
    exists w. split_and!; simpl; try done; lia. }
  assert (i64_as_u64 id = id) as Hu.
  { unfold i64_as_u64. apply wrap64_small. unfold u64_modulus, MAX_WORKER_ID, MAX_SEQUENCE in *. lia. }
  unfold extract_timestamp, extract_worker_id, extract_sequence. rewrite Hu.
  rewrite !Z.shiftr_div_pow2 by lia.
  change 1023 with (Z.ones 10). change 4095 with (Z.ones 12). rewrite !Z.land_ones by lia.
  unfold MAX_WORKER_ID, MAX_SEQUENCE in *.
  assert (id / 2 ^ 12 = (t - e) * 2 ^ 10 + w) as H12.
  { rewrite Hid, Z.div_add_l by lia. rewrite (Z.div_small s) by lia. lia. }
  split_and!.
  - replace (2 ^ 22) with (2 ^ 12 * 2 ^ 10) by reflexivity.
    rewrite <-Z.div_div, H12, Z.div_add_l by lia. rewrite (Z.div_small w) by lia. simpl.
    rewrite u64_add_small by (unfold u64_max in *; lia). lia.
  - rewrite H12, Z.add_comm, Z.mod_add by lia. apply Z.mod_small. lia.
  - rewrite Hid, Z.add_comm, Z.mod_add by lia. apply Z.mod_small. lia.
  - eexists. split; [apply max_id_value; unfold u64_max in *; lia|]. rewrite Hid. split; lia.
Qed.

(** *** Witnesses *)

Definition w_gen : SnowflakeGenerator := mkGenerator (wrap64 (Z.shiftl 7 12)) DEFAULT_EPOCH.
Definition w_gen_start : GeneratorState := mkGenState 0 0 0.

Lemma w_gen_ok : gen_ok w_gen.
Proof. exists 7. split_and!; vm_compute; try discriminate; reflexivity. Qed.

Lemma snowflake_ids_strictly_increase_witness :
  StronglySorted Z.lt
    (issued w_gen w_gen_start
       [OneId (Some 1704067200100); ManyIds (fun _ => Some 1704067200100) 3; OneId None;
        OneId (Some 1704067200090); OneId (Some 1704067200200)]).
Proof.
  apply (snowflake_ids_strictly_increase _ _ _ 1704067200200).
  - exact w_gen_ok.
  - vm_compute. repeat split; discriminate.
  - vm_compute. discriminate.
  - split; vm_compute; reflexivity.
  - intros call0 c. revert call0.
    assert (forall x : Z, Some x = Some c -> DEFAULT_EPOCH <= x <= 1704067200200 ->
              epoch w_gen <= c <= 1704067200200) as Hread by (intros x [= <-] H; exact H).
    intros call Hin Hc. unfold DEFAULT_EPOCH in Hread.
    repeat (apply elem_of_cons in Hin as [->|Hin]; [cbn in Hc|]); [..|by apply elem_of_nil in Hin];
      lazymatch type of Hc with ex _ => destruct Hc as [i Hc] | _ => idtac end; try discriminate Hc; apply (Hread _ Hc); lia.
Defined.

Lemma snowflake_batch_equals_singles_witness :
  next_ids w_gen (mkGenState 1704067200100 1704067200100 4094) (fun _ => Some 1704067200100) 3 =
  singles w_gen (mkGenState 1704067200100 1704067200100 4094) 1704067200100 3.
Proof.
  apply snowflake_batch_equals_singles.
  - exact w_gen_ok.
  - vm_compute. repeat split; discriminate.
  - vm_compute. discriminate.
  - split; vm_compute; reflexivity.
Defined.

Lemma snowflake_decodes_witness :
  extract_worker_id (compose_id w_gen 1704067200100 5) = 7 /\
  extract_sequence (compose_id w_gen 1704067200100 5) = 5.
Proof.
  destruct (snowflake_decodes 7 DEFAULT_EPOCH 1704067200100 5 1704067200200)
    as (_ & H1 & H2 & _).
  1-6: vm_compute; first [split; congruence | congruence | reflexivity].
  split; [exact H1|exact H2].
Defined.

End Snowflake.

(** ** Big-endian bytes *)

Module BigEndian.

(** [to_be_bytes] of an [n]-byte unsigned integer: most significant byte first. *)
Fixpoint be_bytes (n : nat) (x : Z) : list Z :=
  match n with
  | O => []
  | S n' => x / 256 ^ Z.of_nat n' :: be_bytes n' (x mod 256 ^ Z.of_nat n')
  end.

(** [from_be_bytes]. *)
Definition from_be (l : list Z) : Z := foldl (fun acc b => acc * 256 + b) 0 l.

(** Byte-wise lexicographic order, the order of keys in the store. *)
Fixpoint bytes_ltb (l1 l2 : list Z) : bool :=
  match l1, l2 with
  | [], [] => false
  | [], _ :: _ => true
  | _ :: _, [] => false
  | a :: r1, b :: r2 => (a <? b) || ((a =? b) && bytes_ltb r1 r2)
  end.

Lemma be_bytes_length n x : length (be_bytes n x) = n.
Proof. revert x. induction n; intros x; simpl; auto. Qed.

Lemma be_bytes_range n x :
  0 <= x < 256 ^ Z.of_nat n -> Forall (fun b => 0 <= b < 256) (be_bytes n x).
Proof.
  revert x. induction n as [|n IH]; intros x Hx; simpl; [constructor|].
  rewrite Nat2Z.inj_succ, Z.pow_succ_r in Hx by lia. constructor.
  - split; [apply Z.div_pos; lia|]. apply Z.div_lt_upper_bound; lia.
  - apply IH. apply Z.mod_pos_bound. lia.
Qed.

Lemma from_be_acc acc l :
  foldl (fun acc b => acc * 256 + b) acc l = acc * 256 ^ Z.of_nat (length l) + from_be l.
Proof.
  unfold from_be. revert acc. induction l as [|b l IH]; intros acc; cbn [foldl length].
  - simpl. lia.
  - rewrite IH, (IH (0 * 256 + b)). rewrite Nat2Z.inj_succ, Z.pow_succ_r by lia. lia.
Qed.

Lemma from_be_bytes n x : 0 <= x < 256 ^ Z.of_nat n -> from_be (be_bytes n x) = x.
Proof.
  revert x. induction n as [|n IH]; intros x Hx; [simpl in *; unfold from_be; simpl; lia|].
  cbn [be_bytes]. unfold from_be. cbn [foldl]. rewrite from_be_acc, be_bytes_length.
  rewrite IH by (apply Z.mod_pos_bound; lia).
  pose proof (Z.div_mod x (256 ^ Z.of_nat n) ltac:(lia)). lia.
Qed.

Lemma be_bytes_order n x y :
  0 <= x < 256 ^ Z.of_nat n -> 0 <= y < 256 ^ Z.of_nat n ->
  bytes_ltb (be_bytes n x) (be_bytes n y) = (x <? y).
Proof.
  revert x y. induction n as [|n IH]; intros x y Hx Hy.
  { simpl in *. symmetry. apply Z.ltb_ge. lia. }
  cbn [be_bytes bytes_ltb]. set (k := 256 ^ Z.of_nat n) in *.
  assert (0 < k) as Hk by (unfold k; lia).
  rewrite IH by (apply Z.mod_pos_bound; done).
  pose proof (Z.div_mod x k ltac:(lia)). pose proof (Z.div_mod y k ltac:(lia)).
  pose proof (Z.mod_pos_bound x k Hk). pose proof (Z.mod_pos_bound y k Hk).
  destruct (x / k <? y / k) eqn:E1; zbool; simpl.
  - symmetry. apply Z.ltb_lt. nia.
  - destruct (x / k =? y / k) eqn:E2; zbool; simpl.
    + rewrite E2 in *. destruct (x mod k <? y mod k) eqn:E3; zbool; symmetry.
      * apply Z.ltb_lt. lia.
      * apply Z.ltb_ge. lia.
    + symmetry. apply Z.ltb_ge. nia.
Qed.

End BigEndian.

(** ** Row versions *)

Module Version.
Import BigEndian.

Definition ORDINAL_BITS : Z := 16.
Definition MAX_LOG_INDEX : Z := Z.shiftr i64_max ORDINAL_BITS.
Definition MAX_ORDINAL : Z := 65535.
Definition MAX_ROW_SLOTS_PER_ENTRY : Z := MAX_ORDINAL + 1.

(** [VersionId] and [RaftVersionId] wrap a [u64]. *)
Abbreviation VersionId := Z (only parsing).
Abbreviation RaftVersionId := Z (only parsing).

Inductive VersionError :=
| LogIndexOutOfRange | OrdinalOutOfRange | TooManySlots (slots : Z) | EmptyVersion
| SignedOverflow | InvalidDecimal | DomainMismatch | FrontierMismatch.

Definition try_from_raw (value : Z) : Result VersionError VersionId :=
  if value =? 0 then Err EmptyVersion
  else if i64_max <? value then Err SignedOverflow
  else Ok value.

Definition try_from_i64 (value : Z) : Result VersionError VersionId :=
  if value <? 0 then Err EmptyVersion else try_from_raw value.

Definition empty_snapshot : VersionId := 0.

Definition to_decimal_string (v : VersionId) : list Z := decimal v.

Definition from_decimal_str (s : list Z) : Result VersionError VersionId :=
  match parse_unsigned u64_max s with
  | None => Err InvalidDecimal
  | Some parsed => try_from_raw parsed
  end.

Definition version_to_be_bytes (v : VersionId) : list Z := be_bytes 8 v.

Inductive KeyError := InvalidKeyLength (len : Z) | InvalidVersion (e : VersionError).

(** [VersionId::from_bytes] with [try_from_be_bytes]. *)
Definition from_bytes (bytes : list Z) : Result KeyError VersionId :=
  if decide (length bytes = 8%nat) then map_err InvalidVersion (try_from_raw (from_be bytes))
  else Err (InvalidKeyLength (Z.of_nat (length bytes))).

Definition try_new (log_index ordinal : Z) : Result VersionError RaftVersionId :=
  if (log_index =? 0) || (MAX_LOG_INDEX <? log_index) then Err LogIndexOutOfRange
  else if MAX_ORDINAL <? ordinal then Err OrdinalOutOfRange
  else Ok (Z.lor (wrap64 (Z.shiftl log_index ORDINAL_BITS)) ordinal).

Definition log_index (v : RaftVersionId) : Z := Z.shiftr v ORDINAL_BITS.
Definition ordinal (v : RaftVersionId) : Z := Z.land v 65535.

Record VersionDomain := mkDomain {
  history_incarnation : string;
  domain_table_id : TableId;
  scope_id : Z;
  partition_id : option Z
}.

#[export] Instance VersionDomain_eq_dec : EqDecision VersionDomain.
Proof. solve_decision. Defined.

Definition same_domain_cmp (ld : VersionDomain) (l : VersionId) (rd : VersionDomain)
    (r : VersionId) : Result VersionError comparison :=
  if decide (ld = rd) then Ok (l ?= r) else Err DomainMismatch.

Definition check_entry_slot_count (slots : Z) : Result VersionError unit :=
  if MAX_ROW_SLOTS_PER_ENTRY <? slots then Err (TooManySlots slots) else Ok tt.

(** [EntryVersionBound]: [0] is the empty view. *)
Definition bound_from_log_index (log_index : Z) : Result VersionError Z :=
  if log_index =? 0 then Ok 0
  else if MAX_LOG_INDEX <? log_index then Err LogIndexOutOfRange
  else Ok (Z.lor (wrap64 (Z.shiftl log_index ORDINAL_BITS)) 65535).

Definition bound_includes (b : Z) (v : RaftVersionId) : bool :=
  if b =? 0 then false else v <=? b.

Inductive MaterializedFrontier :=
| FrontierEmpty | FrontierRaft (log_index : Z) | FrontierLocal (through : VersionId).

Definition frontier_raft (log_index : Z) : Result VersionError MaterializedFrontier :=
  if log_index =? 0 then Ok FrontierEmpty
  else if MAX_LOG_INDEX <? log_index then Err LogIndexOutOfRange
  else Ok (FrontierRaft log_index).

Definition includes_raft (f : MaterializedFrontier) (v : RaftVersionId) :
    Result VersionError bool :=
  match f with
  | FrontierEmpty => Ok false
  | FrontierRaft i => Ok (log_index v <=? i)
  | FrontierLocal _ => Err FrontierMismatch
  end.

Definition includes_local (f : MaterializedFrontier) (v : VersionId) :
    Result VersionError bool :=
  match f with
  | FrontierEmpty => Ok false
  | FrontierLocal through => Ok (v <=? through)
  | FrontierRaft _ => Err FrontierMismatch
  end.

(** The loop of [assign_entry_versions] over the remaining ordinals. *)
Fixpoint assign_from (log_index : Z) (ordinals : list Z) : Result VersionError (list VersionId) :=
  match ordinals with
  | [] => Ok []
  | o :: rest =>
      result_bind (try_new log_index o) (fun v =>
      result_bind (assign_from log_index rest) (fun vs => Ok (v :: vs)))
  end.

Definition assign_entry_versions (entry_log_index : Z) (slot_count : nat) :
    Result VersionError (list VersionId) :=
  result_bind (check_entry_slot_count (Z.of_nat slot_count)) (fun _ =>
  assign_from entry_log_index (seqZ 0 (Z.of_nat slot_count))).

(** [SeqId]: an [i64], stored as its two's complement, big-endian. *)
Definition seq_to_bytes (id : Z) : list Z := be_bytes 8 (i64_as_u64 id).

Definition seq_from_bytes (bytes : list Z) : Result KeyError Z :=
  if decide (length bytes = 8%nat) then Ok (u64_as_i64 (from_be bytes))
  else Err (InvalidKeyLength (Z.of_nat (length bytes))).

Definition age_seconds (timestamp_millis now_millis : Z) : Z :=
  saturating_sub now_millis timestamp_millis / 1000.

(** *** Lemmas *)

Definition raft_ok (i o : Z) : Prop := 1 <= i <= MAX_LOG_INDEX /\ 0 <= o <= MAX_ORDINAL.

Lemma max_log_index_value : MAX_LOG_INDEX = 2 ^ 47 - 1.
Proof. reflexivity. Qed.

Lemma try_new_value i o : raft_ok i o -> try_new i o = Ok (i * 2 ^ 16 + o).
Proof.
  intros [Hi Ho]. rewrite max_log_index_value in Hi. unfold try_new, MAX_ORDINAL in *.
  rewrite max_log_index_value.
  rewrite (proj2 (Z.eqb_neq _ _)), !(proj2 (Z.ltb_ge _ _)) by lia. simpl orb. cbv iota.
  unfold ORDINAL_BITS. rewrite Z.shiftl_mul_pow2 by lia.
  rewrite wrap64_small by (unfold u64_modulus; lia). by rewrite lor_field by lia.
Qed.

Lemma unpack i o : raft_ok i o -> log_index (i * 2 ^ 16 + o) = i /\ ordinal (i * 2 ^ 16 + o) = o.
Proof.
  intros [Hi Ho]. unfold log_index, ordinal, ORDINAL_BITS, MAX_ORDINAL in *. split.
  - rewrite Z.shiftr_div_pow2, Z.div_add_l by lia. rewrite (Z.div_small o) by lia. lia.
  - change 65535 with (Z.ones 16). rewrite Z.land_ones, Z.add_comm, Z.mod_add by lia.
    apply Z.mod_small. lia.
Qed.

Lemma bound_value n :
  1 <= n <= MAX_LOG_INDEX -> bound_from_log_index n = Ok (n * 2 ^ 16 + 65535).
Proof.
  intros Hn. rewrite max_log_index_value in Hn. unfold bound_from_log_index.
  rewrite max_log_index_value. rewrite (proj2 (Z.eqb_neq _ _)), (proj2 (Z.ltb_ge _ _)) by lia.
  unfold ORDINAL_BITS. rewrite Z.shiftl_mul_pow2 by lia.
  rewrite wrap64_small by (unfold u64_modulus; lia). by rewrite lor_field by lia.
Qed.

Lemma assign_from_ok i os :
  1 <= i <= MAX_LOG_INDEX -> Forall (fun o => 0 <= o <= MAX_ORDINAL) os ->
  assign_from i os = Ok ((fun o => i * 2 ^ 16 + o) <$> os).
Proof.
  intros Hi Hos. induction Hos as [|o os Ho _ IH]; [done|]. cbn [assign_from].
  rewrite try_new_value by done. cbn [result_bind]. by rewrite IH.
Qed.

(** *** Properties *)

(** A Raft row version packs log index and ordinal without loss: it is a positive signed
    BIGINT, unpacks to its parts, and versions compare as (log index, ordinal) pairs. *)
Theorem raft_version_pack_order i o i' o' :
  raft_ok i o -> raft_ok i' o' ->
  exists v v', try_new i o = Ok v /\ try_new i' o' = Ok v' /\
    log_index v = i /\ ordinal v = o /\ 0 < v <= i64_max /\ try_from_raw v = Ok v /\
    (v < v' <-> i < i' \/ (i = i' /\ o < o')).
Proof.
  intros H H'. destruct (unpack i o H) as [H1 H2].
  exists (i * 2 ^ 16 + o), (i' * 2 ^ 16 + o').
  destruct H as [Hi Ho], H' as [Hi' Ho']. rewrite !try_new_value by (split; done).
  rewrite max_log_index_value in *. unfold MAX_ORDINAL in *.
  split_and!; try done; try (unfold i64_max; lia).
  unfold try_from_raw. rewrite (proj2 (Z.eqb_neq _ _)) by lia.
  by rewrite (proj2 (Z.ltb_ge _ _)) by (unfold i64_max; lia).
Qed.

(** Snapshot visibility by packed bound and by log index agree: the inclusive bound of a log
    index includes a row version exactly when the version's entry is at or before that index,
    which is what the materialized frontier answers; log index [0] is the empty view in both. *)
Theorem entry_bound_matches_frontier n i o :
  0 <= n <= MAX_LOG_INDEX -> raft_ok i o ->
  exists v b f, try_new i o = Ok v /\ bound_from_log_index n = Ok b /\ frontier_raft n = Ok f /\
    includes_raft f v = Ok (bound_includes b v) /\ bound_includes b v = (i <=? n).
Proof.
  intros Hn H. destruct (unpack i o H) as [H1 _]. pose proof H as [Hi Ho].
  rewrite try_new_value by done. rewrite max_log_index_value in *. unfold MAX_ORDINAL in *.
  destruct (decide (n = 0)) as [->|Hn0].
  { exists (i * 2 ^ 16 + o), 0, FrontierEmpty. split_and!; try done.
    simpl. symmetry. apply Z.leb_gt. lia. }
  assert (bound_includes (n * 2 ^ 16 + 65535) (i * 2 ^ 16 + o) = (i <=? n)) as Hb.
  { unfold bound_includes. rewrite (proj2 (Z.eqb_neq _ _)) by lia.
    destruct (i <=? n) eqn:E; zbool; [apply Z.leb_le; lia|apply Z.leb_gt; lia]. }
  exists (i * 2 ^ 16 + o), (n * 2 ^ 16 + 65535), (FrontierRaft n).
  rewrite bound_value by (rewrite max_log_index_value; lia).
  unfold frontier_raft. rewrite max_log_index_value.
  rewrite (proj2 (Z.eqb_neq _ _)), (proj2 (Z.ltb_ge _ _)) by lia.
  simpl includes_raft. rewrite H1, Hb. by split_and!.
Qed.

(** The rows of one Raft entry get distinct increasing versions that all carry the entry's log
    index; the assignment succeeds for every valid log index and up to 65,536 rows, and refuses
    more. *)
Theorem assign_entry_versions_spec i n :
  1 <= i <= MAX_LOG_INDEX ->
  if Z.of_nat n <=? MAX_ROW_SLOTS_PER_ENTRY then
    exists vs, assign_entry_versions i n = Ok vs /\ length vs = n /\
      StronglySorted Z.lt vs /\ Forall (fun v => log_index v = i) vs
  else assign_entry_versions i n = Err (TooManySlots (Z.of_nat n)).
Proof.
  intros Hi. unfold assign_entry_versions, check_entry_slot_count, MAX_ROW_SLOTS_PER_ENTRY.
  destruct (_ <=? _) eqn:E; zbool.
  2:{ by rewrite (proj2 (Z.ltb_lt _ _)) by lia. }
  rewrite (proj2 (Z.ltb_ge _ _)) by lia. cbn [result_bind].
  assert (Forall (fun o => 0 <= o <= MAX_ORDINAL) (seqZ 0 (Z.of_nat n))) as Hos.
  { apply Forall_forall. intros o Ho%elem_of_seqZ. lia. }
  rewrite assign_from_ok by done. eexists. split; [reflexivity|]. split_and!.
  - rewrite length_fmap, length_seqZ. lia.
  - clear E Hos. generalize 0 as m. induction n as [|n IH]; intros m; [constructor|].
    rewrite seqZ_cons by lia. rewrite fmap_cons.
    replace (Z.pred (Z.of_nat (S n))) with (Z.of_nat n) by lia. constructor; [apply IH|].
    apply Forall_forall. intros v [o [-> Ho]]%list_elem_of_fmap. apply elem_of_seqZ in Ho. lia.
  - apply Forall_forall. intros v [o [-> Ho]]%list_elem_of_fmap. rewrite Forall_forall in Hos.
    by apply unpack; split; [|apply Hos].
Qed.

(** The storage key of a version keeps its order and can be read back: keys compare byte by
    byte exactly as the versions compare, and decoding an encoded version returns it. *)
Theorem version_key_order_roundtrip v v' :
  0 < v <= i64_max -> 0 < v' <= i64_max ->
  bytes_ltb (version_to_be_bytes v) (version_to_be_bytes v') = (v <? v') /\
  from_bytes (version_to_be_bytes v) = Ok v.
Proof.
  intros Hv Hv'. unfold version_to_be_bytes. split.
  - apply be_bytes_order; unfold i64_max in *; simpl; lia.
  - unfold from_bytes. rewrite be_bytes_length, decide_True by done.
    rewrite from_be_bytes by (unfold i64_max in *; simpl; lia). unfold try_from_raw.
    rewrite (proj2 (Z.eqb_neq _ _)) by lia. by rewrite (proj2 (Z.ltb_ge _ _)) by lia.
Qed.

(** *** Witnesses *)

Lemma raft_version_pack_order_witness :
  exists v v', try_new 5 1 = Ok v /\ try_new 6 0 = Ok v' /\ v < v'.
Proof.
  destruct (raft_version_pack_order 5 1 6 0) as (v & v' & H1 & H2 & _ & _ & _ & _ & H3);
    [vm_compute; repeat split; discriminate|vm_compute; repeat split; discriminate|].
  exists v, v'. split; [exact H1|]. split; [exact H2|]. apply H3. left. reflexivity.
Defined.

Lemma entry_bound_matches_frontier_witness :
  exists v b, try_new 5 65535 = Ok v /\ bound_from_log_index 5 = Ok b /\
    bound_includes b v = true.
Proof.
  destruct (entry_bound_matches_frontier 5 5 65535) as (v & b & f & H1 & H2 & _ & _ & H3);
    [vm_compute; split; discriminate|vm_compute; repeat split; discriminate|].
  exists v, b. split; [exact H1|]. split; [exact H2|]. exact H3.
Defined.

Lemma assign_entry_versions_spec_witness :
  exists vs, assign_entry_versions 9 3 = Ok vs /\ length vs = 3%nat.
Proof.
  pose proof (assign_entry_versions_spec 9 3) as H. destruct H as (vs & H1 & H2 & _).
  - vm_compute. split; discriminate.
  - exists vs. split; assumption.
Defined.

Lemma version_key_order_roundtrip_witness :
  bytes_ltb (version_to_be_bytes 255) (version_to_be_bytes 256) = true.
Proof.
  destruct (version_key_order_roundtrip 255 256) as [H _];
    [vm_compute; split; congruence|vm_compute; split; congruence|].
  exact H.
Defined.

End Version.
