(* ===== verification/TopicClaims.v ===== *)
(** * TopicClaims: the claims a consumer group holds on a topic partition

    Model of [ClaimState] and [PendingClaim] in kalamdb-publisher/src/service.rs.  A group hands
    out offset windows of a partition to its consumers: a window is reserved while the storage
    scan runs ([in_flight]), becomes a lease when messages are delivered, and is released by an
    acknowledgement or by the visibility timeout.  [shrink_pending] only returns memory and has
    no effect on the state modelled here.

    The theorem shows that the window offered next is free of every claim, that nothing between
    the cursor and the window is unclaimed, and that the search loop ends. *)

From Stdlib Require Import ZArith Lia.
From stdpp Require Import base countable strings gmap fin_maps list.
From S2P Require Import Prelude Commons.

Open Scope Z_scope.

Record PendingClaim := mkClaim {
  reservation_id : Z;
  claim_start : Z;
  end_exclusive : Z;
  claimed_at : Instant;
  in_flight : bool
}.

Record ClaimState := mkClaimState {
  cursor : Z;
  pending : list PendingClaim;
  next_reservation_id : Z;
  last_acked : option Z
}.

Definition MAX_PENDING_CLAIMS : Z := 32.

Definition claim_state_new (c : Z) : ClaimState := mkClaimState c [] 1 None.

Definition set_cursor (st : ClaimState) (c : Z) : ClaimState :=
  mkClaimState c (pending st) (next_reservation_id st) (last_acked st).

(** [now.duration_since(claimed_at)] is zero when [claimed_at] is later. *)
Definition is_stale (now timeout : Z) (c : PendingClaim) : bool :=
  negb (in_flight c) && (timeout <? saturating_sub now (claimed_at c)).

Definition expire_stale_claims (st : ClaimState) (now timeout : Z) : ClaimState :=
  let earliest_expired :=
    list_min (claim_start <$> filter (fun c => is_stale now timeout c = true) (pending st)) in
  let kept := filter (fun c => is_stale now timeout c = false) (pending st) in
  let cursor' := match earliest_expired with
                 | Some reset_to => if reset_to <? cursor st then reset_to else cursor st
                 | None => cursor st
                 end in
  mkClaimState cursor' kept (next_reservation_id st) (last_acked st).

(** What [ack_up_to] does to one claim: [None] drops it. *)
Definition ack_claim (next : Z) (c : PendingClaim) : option PendingClaim :=
  if in_flight c then Some c
  else if end_exclusive c <=? next then None
  else Some (if claim_start c <? next
             then mkClaim (reservation_id c) next (end_exclusive c) (claimed_at c) (in_flight c)
             else c).

Definition ack_up_to (st : ClaimState) (acked : Z) : ClaimState :=
  let next := saturating_add acked 1 in
  mkClaimState (if cursor st <? next then next else cursor st)
    (omap (ack_claim next) (pending st)) (next_reservation_id st)
    (Some (match last_acked st with Some previous => Z.max previous acked | None => acked end)).

(** [offset.map(|o| o.saturating_add(1)).unwrap_or(0)]. *)
Definition after_acked (o : option Z) : Z :=
  match o with Some a => saturating_add a 1 | None => 0 end.

Definition deliver_from (st : ClaimState) (durable_last_acked : option Z) : Z :=
  Z.max (after_acked (last_acked st)) (after_acked durable_last_acked).

Definition push_claim (st : ClaimState) (start stop at_ : Z) (flight : bool) : ClaimState :=
  mkClaimState (cursor st)
    (pending st ++ [mkClaim (next_reservation_id st) start stop at_ flight])
    (saturating_add (next_reservation_id st) 1) (last_acked st).

Definition reserve_window (st : ClaimState) (fetch_start available_limit now : Z) :
    Z * ClaimState :=
  (next_reservation_id st,
   push_claim st fetch_start (saturating_add fetch_start available_limit) now true).

Definition advance_cursor_for_contiguous_claim (st : ClaimState) (start stop : Z) : ClaimState :=
  if start <=? cursor st then set_cursor st (Z.max (cursor st) stop) else st.

(** The first claim with the reservation id becomes a lease on [[start, stop)]. *)
Fixpoint settle_claim (rid start stop now : Z) (l : list PendingClaim) :
    option (list PendingClaim) :=
  match l with
  | [] => None
  | c :: rest =>
      if reservation_id c =? rid
      then Some (mkClaim (reservation_id c) start stop now false :: rest)
      else cons c <$> settle_claim rid start stop now rest
  end.

Definition finalize_reservation (st : ClaimState) (rid start stop now : Z) : ClaimState :=
  match settle_claim rid start stop now (pending st) with
  | None => st
  | Some p =>
      advance_cursor_for_contiguous_claim
        (mkClaimState (cursor st) p (next_reservation_id st) (last_acked st)) start stop
  end.

Definition register_delivered_claim (st : ClaimState) (start stop now : Z) : ClaimState :=
  advance_cursor_for_contiguous_claim (push_claim st start stop now false) start stop.

Definition overlaps_pending (st : ClaimState) (start stop : Z) : bool :=
  existsb (fun c => (claim_start c <? stop) && (start <? end_exclusive c)) (pending st).

Definition cancel_reservation (st : ClaimState) (rid : Z) : ClaimState :=
  mkClaimState (cursor st) (filter (fun c => reservation_id c ≠ rid) (pending st))
    (next_reservation_id st) (last_acked st).

Definition has_reservation (st : ClaimState) (rid : Z) : bool :=
  existsb (fun c => reservation_id c =? rid) (pending st).

(** [start <= o < end_exclusive]. *)
Definition covers (c : PendingClaim) (o : Z) : bool :=
  (claim_start c <=? o) && (o <? end_exclusive c).

(** One pass of the [for] loop: the position reached and whether it moved. *)
Definition window_pass (l : list PendingClaim) (next : Z) : Z * bool :=
  foldl (fun '(n, advanced) c => if covers c n then (end_exclusive c, true) else (n, advanced))
    (next, false) l.

(** The outer [loop]; every pass that moves leaves one more claim behind, so one pass more than
    there are claims is enough fuel ([window_skip_total]). *)
Fixpoint window_skip (fuel : nat) (l : list PendingClaim) (next : Z) : option Z :=
  match fuel with
  | O => None
  | S fuel' =>
      let '(n, advanced) := window_pass l next in
      if advanced then window_skip fuel' l n else Some n
  end.

Definition next_available_window (st : ClaimState) (requested_limit : Z) : Z * Z :=
  if MAX_PENDING_CLAIMS <=? Z.of_nat (length (pending st)) then (cursor st, 0)
  else
    let next := default (cursor st)
                  (window_skip (S (length (pending st))) (pending st) (cursor st)) in
    let next_pending_start :=
      list_min (claim_start <$> filter (fun c => next < claim_start c) (pending st)) in
    let available_offsets := match next_pending_start with
                             | Some s => saturating_sub s next
                             | None => u64_max
                             end in
    (next, Z.min requested_limit available_offsets).

(** ** The search loop *)

Lemma covers_spec c o : covers c o = true <-> claim_start c <= o < end_exclusive c.
Proof. unfold covers. rewrite andb_true_iff, Z.leb_le, Z.ltb_lt. lia. Qed.

Lemma covers_false c o : covers c o = false <-> ~ (claim_start c <= o < end_exclusive c).
Proof. rewrite <-covers_spec. by destruct (covers c o). Qed.

(** A pass moves forward over claimed offsets only, and stops only outside every claim. *)
Lemma window_pass_spec l next0 a0 :
  exists n a,
    foldl (fun '(n, advanced) c => if covers c n then (end_exclusive c, true) else (n, advanced))
      (next0, a0) l = (n, a) /\
    next0 <= n /\
    (forall o, next0 <= o < n -> exists c, c ∈ l /\ covers c o = true) /\
    (a = false -> a0 = false /\ n = next0 /\ forall c, c ∈ l -> covers c n = false) /\
    (a = true -> a0 = true \/ exists c, c ∈ l /\ next0 < end_exclusive c <= n).
Proof.
  revert next0 a0. induction l as [|c l IH]; intros next0 a0.
  { exists next0, a0. simpl. split_and!; try done; try lia; [|naive_solver].
    intros ->. split_and!; try done. intros c Hc. by apply elem_of_nil in Hc. }
  simpl. destruct (covers c next0) eqn:Ec.
  - apply covers_spec in Ec.
    destruct (IH (end_exclusive c) true) as (n & a & -> & Hle & Hcov & Hf & Ht).
    exists n, a. split_and!; [done|lia| | |].
    + intros o Ho. destruct (Z.lt_ge_cases o (end_exclusive c)).
      * exists c. split; [set_solver|]. apply covers_spec. lia.
      * destruct (Hcov o) as (d & ? & ?); [lia|]. exists d. set_solver.
    + intros Ha. by destruct (Hf Ha).
    + intros _. right. exists c. split; [set_solver|]. lia.
  - destruct (IH next0 a0) as (n & a & -> & Hle & Hcov & Hf & Ht).
    exists n, a. split_and!; [done|lia| | |].
    + intros o Ho. destruct (Hcov o Ho) as (d & ? & ?). exists d. set_solver.
    + intros Ha. destruct (Hf Ha) as (? & -> & Hn). split_and!; try done.
      intros d [->|Hd]%elem_of_cons; [done|]. by apply Hn.
    + intros Ha. destruct (Ht Ha) as [?|(d & ? & ?)]; [by left|right; exists d].
      split; [set_solver|lia].
Qed.

(** Claims whose end is still ahead of [next]. *)
Definition ahead (l : list PendingClaim) (next : Z) : list PendingClaim :=
  filter (fun c => next < end_exclusive c) l.

Lemma ahead_shrinks l a b :
  a <= b -> (length (ahead l b) <= length (ahead l a))%nat /\
  ((exists c, c ∈ l /\ a < end_exclusive c <= b) -> (length (ahead l b) < length (ahead l a))%nat).
Proof.
  intros Hab. unfold ahead. induction l as [|c l [IH1 IH2]].
  { split; [done|]. intros (c & Hc & _). by apply elem_of_nil in Hc. }
  rewrite !filter_cons. split.
  - repeat case_decide; simpl; lia.
  - intros (d & [->|Hd]%elem_of_cons & Hr).
    + rewrite decide_False by lia. rewrite decide_True by lia. simpl. lia.
    + specialize (IH2 (ex_intro _ d (conj Hd Hr))). repeat case_decide; simpl; lia.
Qed.

Lemma window_skip_total fuel l next :
  (length (ahead l next) < fuel)%nat ->
  exists n, window_skip fuel l next = Some n /\ next <= n /\
    (forall o, next <= o < n -> exists c, c ∈ l /\ covers c o = true) /\
    (forall c, c ∈ l -> covers c n = false).
Proof.
  revert next. induction fuel as [|fuel IH]; intros next Hf; [lia|]. simpl.
  unfold window_pass.
  destruct (window_pass_spec l next false) as (n & a & -> & Hle & Hcov & Hfa & Htr).
  destruct a.
  - destruct (Htr eq_refl) as [?|Hc]; [done|].
    destruct (ahead_shrinks l next n Hle) as [_ Hlt]. specialize (Hlt Hc).
    destruct (IH n ltac:(lia)) as (m & Hm & Hnm & Hcov' & Hfree).
    exists m. split_and!; [done|lia| |done].
    intros o Ho. destruct (Z.lt_ge_cases o n); [apply Hcov; lia|apply Hcov'; lia].
  - destruct (Hfa eq_refl) as (_ & -> & Hfree). exists next. split_and!; [done|lia| |done].
    intros o Ho. lia.
Qed.

(** The window as the search loop leaves it. *)
Lemma next_available_window_eq st limit s l :
  next_available_window st limit = (s, l) -> 0 < l ->
  window_skip (S (length (pending st))) (pending st) (cursor st) = Some s /\
  l <= limit /\
  (forall c, c ∈ pending st -> s < claim_start c -> s + l <= claim_start c) /\
  (l < limit -> l < u64_max -> exists c, c ∈ pending st /\ claim_start c = s + l).
Proof.
  unfold next_available_window. destruct (_ <=? _); [intros [= <- <-]; lia|].
  destruct (window_skip_total (S (length (pending st))) (pending st) (cursor st))
    as (n & -> & _ & _ & _).
  { unfold ahead. pose proof (length_filter (fun c => cursor st < end_exclusive c) (pending st)).
    lia. }
  simpl. set (ls := claim_start <$> _). intros [= -> <-] Hl.
  destruct (list_min ls) as [m|] eqn:E; unfold saturating_sub in *.
  - apply list_min_spec in E as [Hin Hmin]. unfold ls in *.
    apply list_elem_of_fmap in Hin as (c & -> & [Hc1 Hc2]%list_elem_of_filter).
    split_and!; [done|lia| |].
    + intros d Hd Hs. enough (claim_start c <= claim_start d) by lia. apply Hmin.
      apply list_elem_of_fmap. exists d. split; [done|]. by apply list_elem_of_filter.
    + intros Hlt _. exists c. split; [done|]. lia.
  - apply list_min_None in E. unfold ls in E. apply fmap_nil_inv in E.
    split_and!; [done|lia| |lia].
    intros c Hc Hs. exfalso. apply (elem_of_nil c). rewrite <-E. by apply list_elem_of_filter.
Qed.

(** The offset window a consumer is offered next is free: no pending claim holds any offset
    of it, the offsets between the cursor and the window are all held by pending claims (so
    nothing unclaimed is jumped over), and a window shorter than requested ends where a pending
    claim starts.  With a positive limit and fewer than 32 pending claims the search ends with a
    non-empty window. *)
Theorem next_window_is_free st limit :
  0 < limit -> Z.of_nat (length (pending st)) < MAX_PENDING_CLAIMS ->
  exists s l, next_available_window st limit = (s, l) /\ 0 < l <= limit /\ cursor st <= s /\
    (forall o c, s <= o < s + l -> c ∈ pending st -> covers c o = false) /\
    (forall o, cursor st <= o < s -> exists c, c ∈ pending st /\ covers c o = true) /\
    (l < Z.min limit u64_max -> exists c, c ∈ pending st /\ claim_start c = s + l).
Proof.
  intros Hlim Hlen.
  destruct (next_available_window st limit) as [s l] eqn:E. exists s, l.
  assert (0 < l) as Hl.
  { revert E. unfold next_available_window.
    rewrite (proj2 (Z.leb_gt _ _)) by done. intros [= Hs <-].
    rewrite Hs. destruct (list_min _) as [m|] eqn:Em; [|unfold u64_max; lia].
    apply list_min_spec in Em as [Hin _].
    apply list_elem_of_fmap in Hin as (c & -> & [Hc _]%list_elem_of_filter).
    unfold saturating_sub. lia. }
  destruct (next_available_window_eq st limit s l E Hl) as (Hskip & Hle & Hnext & Hmax).
  destruct (window_skip_total (S (length (pending st))) (pending st) (cursor st))
    as (n & Hn & Hcur & Hcov & Hfree).
  { unfold ahead. pose proof (length_filter (fun c => cursor st < end_exclusive c) (pending st)).
    lia. }
  assert (n = s) as -> by congruence.
  split; [done|]. split; [done|]. split; [done|]. split_and!; [|done|].
  - intros o c Ho Hc. apply covers_false. intros Hco. specialize (Hnext c Hc).
    specialize (Hfree c Hc). apply covers_false in Hfree. lia.
  - intros Hlt. apply Hmax; lia.
Qed.

(** Two leases and a reservation in flight: the window sits between them. *)
Definition w_claims : ClaimState :=
  mkClaimState 10
    [mkClaim 1 15 20 100 false; mkClaim 2 10 15 100 false; mkClaim 3 26 30 120 true] 4 (Some 9).

Lemma next_window_is_free_witness :
  next_available_window w_claims 100 = (20, 6) /\
  forall c, c ∈ pending w_claims -> covers c 22 = false.
Proof.
  split; [reflexivity|].
  destruct (next_window_is_free w_claims 100 ltac:(lia) eq_refl)
    as (s & l & E & _ & _ & Hfree & _).
  vm_compute in E. injection E as <- <-. intros c Hc. apply (Hfree 22 c); [lia|exact Hc].
Defined.
