(* ===== verification/TopicLog.v ===== *)
(** * TopicLog: one partition of a topic

    Model of kalamdb-publisher/src/partition.rs ([PartitionTail], [PartitionWriteState]), of the
    partition-local part of kalamdb-publisher/src/service/{publish,retention}.rs, and of
    kalamdb-tables/src/topics/topic_message_store.rs.

    The backend keeps the messages of a partition ordered by offset (keys are
    order-preserving encodings of (topic, partition, offset)) and the retention index ordered by
    (timestamp, offset); both are lists in that order here, and a backend batch applies both
    changes at once or fails.  Storage results and wall-clock readings come from an environment:
    the n-th access of a run succeeds or fails as [io_ok n] says and the n-th reading is
    [clock n].  Errors keep the state reached so far, as the code does.

    The theorems show that the in-memory tail answers exactly what the store would, that offsets
    are assigned consecutively and published messages stay readable, that retention drops the
    oldest messages until the limits hold, and two defects after a restart: the byte counter
    ignores what the store already holds, and a partition emptied by retention starts again at
    offset zero. *)

From Stdlib Require Import ZArith Lia Sorting.Sorted.
From stdpp Require Import base countable strings gmap fin_maps list.
From S2P Require Import Prelude Commons.

Open Scope Z_scope.

(** ** Runs: state, errors, storage results and clock readings *)

Inductive TopicError :=
| StorageFailed                                       (** CommonError::Internal *)
| ZeroBatchSize
| PartitionOutOfRange (partition_id partitions : Z)
| OffsetOutOfRange (requested earliest latest_next : Z)
| TopicNotFound
| PayloadFailed.

Record Env := mkEnv { io_ok : nat -> bool; clock : nat -> Z }.

(** A computation: from the tick counter and the state to an outcome, a state and a counter. *)
Definition M (S A : Type) : Type := nat -> S -> Result TopicError A * S * nat.

Definition mret {S A} (a : A) : M S A := fun n s => (Ok a, s, n).
Definition mfail {S A} (e : TopicError) : M S A := fun n s => (Err e, s, n).
Definition mbind {S A B} (m : M S A) (k : A -> M S B) : M S B :=
  fun n s => match m n s with
             | (Ok a, s', n') => k a n' s'
             | (Err e, s', n') => (Err e, s', n')
             end.
Definition gets {S A} (f : S -> A) : M S A := fun n s => (Ok (f s), s, n).
Definition modify {S} (f : S -> S) : M S unit := fun n s => (Ok tt, f s, n).

Notation "'let!' x ':=' m 'in' k" := (mbind m (fun x => k))
  (at level 10, x pattern, m at level 200, k at level 200) : kalam_scope.
Notation "'do!' m 'in' k" := (mbind m (fun _ => k))
  (at level 10, m at level 200, k at level 200) : kalam_scope.
Open Scope kalam_scope.

Definition storage_read {S A} (env : Env) (f : S -> A) : M S A :=
  fun n s => (if io_ok env n then Ok (f s) else Err StorageFailed, s, Datatypes.S n).
Definition storage_write {S} (env : Env) (f : S -> S) : M S unit :=
  fun n s => if io_ok env n then (Ok tt, f s, Datatypes.S n)
             else (Err StorageFailed, s, Datatypes.S n).
Definition read_clock {S} (env : Env) : M S Z := fun n s => (Ok (clock env n), s, Datatypes.S n).

(** ** Messages and the retention index *)

Inductive TopicOp := OpInsert | OpUpdate | OpDelete.

#[export] Instance TopicOp_eq_dec : EqDecision TopicOp.
Proof. solve_decision. Defined.

Abbreviation TopicId := string (only parsing).

Record TopicPartitionKey := mkTP { tp_topic_id : TopicId; tp_partition_id : Z }.

#[export] Instance TopicPartitionKey_eq_dec : EqDecision TopicPartitionKey.
Proof. solve_decision. Defined.

#[export] Instance TopicPartitionKey_countable : Countable TopicPartitionKey.
Proof.
  refine (inj_countable' (fun t => (tp_topic_id t, tp_partition_id t))
            (fun p => mkTP p.1 p.2) _).
  by intros [].
Defined.

Record TopicMessage := mkMessage {
  tm_topic_id : TopicId;
  tm_partition_id : Z;
  tm_offset : Z;
  tm_payload : list Z;
  tm_key : option string;
  tm_timestamp_ms : Z;
  tm_user_id : option UserId;
  tm_op : TopicOp
}.

Record TopicRetentionIndexEntry := mkRetention {
  re_timestamp_ms : Z;
  re_offset : Z;
  re_message_bytes : Z
}.

Definition retention_entry_new (m : TopicMessage) (message_bytes : Z) : TopicRetentionIndexEntry :=
  mkRetention (tm_timestamp_ms m) (tm_offset m) message_bytes.

Record TopicRetentionDeletionStats := mkStats { messages_deleted : Z; bytes_freed : Z }.

(** ** The in-memory tail *)

Definition TAIL_MAX_MESSAGES : Z := 1024.
Definition TAIL_MAX_BYTES : Z := 1024 * 1024.

Record PartitionTail := mkTail {
  tail_start : Z;
  tail_end : Z;
  tail_bytes : Z;
  tail_messages : list TopicMessage
}.

Definition tail_default : PartitionTail := mkTail 0 0 0 [].

Definition payload_len (m : TopicMessage) : Z := Z.of_nat (length (tm_payload m)).

(** The [while] loop of [trim_capacity]. *)
Fixpoint pop_over_capacity (start bytes : Z) (ms : list TopicMessage) :
    Z * Z * list TopicMessage :=
  match ms with
  | [] => (start, bytes, [])
  | dropped :: rest =>
      if (TAIL_MAX_MESSAGES <? Z.of_nat (length ms)) || (TAIL_MAX_BYTES <? bytes)
      then pop_over_capacity (saturating_add (tm_offset dropped) 1)
             (saturating_sub bytes (payload_len dropped)) rest
      else (start, bytes, ms)
  end.

Definition trim_capacity (t : PartitionTail) : PartitionTail :=
  let '(start, bytes, ms) := pop_over_capacity (tail_start t) (tail_bytes t) (tail_messages t) in
  match ms with
  | [] => mkTail start start 0 []
  | _ => mkTail start (tail_end t) bytes ms
  end.

Definition tail_append (t : PartitionTail) (m : TopicMessage) : PartitionTail :=
  let t := if negb (match tail_messages t with [] => true | _ => false end)
              && negb (tm_offset m =? tail_end t)
           then tail_default else t in
  match tail_messages t with
  | [] => trim_capacity (mkTail (tm_offset m) (saturating_add (tm_offset m) 1) (payload_len m) [m])
  | ms => trim_capacity (mkTail (tail_start t) (saturating_add (tm_offset m) 1)
                           (saturating_add (tail_bytes t) (payload_len m)) (ms ++ [m]))
  end.

Definition append_messages (t : PartitionTail) (ms : list TopicMessage) : PartitionTail :=
  foldl tail_append t ms.

(** The [while let] loop of [trim_below]. *)
Fixpoint pop_below (earliest start bytes : Z) (ms : list TopicMessage) :
    Z * Z * list TopicMessage :=
  match ms with
  | [] => (start, bytes, [])
  | front :: rest =>
      if earliest <=? tm_offset front then (start, bytes, ms)
      else pop_below earliest (saturating_add (tm_offset front) 1)
             (saturating_sub bytes (payload_len front)) rest
  end.

Definition trim_below (t : PartitionTail) (earliest : Z) : PartitionTail :=
  let '(start, bytes, ms) :=
    pop_below earliest (tail_start t) (tail_bytes t) (tail_messages t) in
  match ms with
  | [] => mkTail earliest earliest 0 []
  | _ => mkTail start (tail_end t) bytes ms
  end.

Definition tail_fetch (t : PartitionTail) (offset limit : Z) : option (list TopicMessage) :=
  match tail_messages t with
  | [] => None
  | ms =>
      if offset =? tail_end t then Some []
      else if (offset <? tail_start t) || (tail_end t <? offset) then None
      else if limit =? 0 then Some []
      else Some (take (Z.to_nat limit)
                   (drop (Z.to_nat (saturating_sub offset (tail_start t))) ms))
  end.

(** ** Offsets and byte counters *)

Record PartitionWriteState := mkWrite {
  next_offset : option Z;
  retained_bytes : option Z;
  log_start : Z
}.

Definition write_default : PartitionWriteState := mkWrite None None 0.

Definition allocate (w : PartitionWriteState) (count : Z) : Z * PartitionWriteState :=
  let start := default 0 (next_offset w) in
  (start, mkWrite (Some (saturating_add start count)) (retained_bytes w) (log_start w)).

Definition seed (w : PartitionWriteState) (next : Z) : PartitionWriteState :=
  mkWrite (Some next) (retained_bytes w) (log_start w).

Definition set_retained_bytes (w : PartitionWriteState) (b : Z) : PartitionWriteState :=
  mkWrite (next_offset w) (Some b) (log_start w).

Definition add_retained_bytes (w : PartitionWriteState) (b : Z) : PartitionWriteState :=
  if b =? 0 then w
  else set_retained_bytes w (saturating_add (default 0 (retained_bytes w)) b).

Definition subtract_retained_bytes (w : PartitionWriteState) (b : Z) : PartitionWriteState :=
  if b =? 0 then w
  else match retained_bytes w with
       | Some current => set_retained_bytes w (saturating_sub current b)
       | None => set_retained_bytes w 0
       end.

Definition set_log_start (w : PartitionWriteState) (o : Z) : PartitionWriteState :=
  if log_start w <? o then mkWrite (next_offset w) (retained_bytes w) o else w.

(** ** The message store, restricted to one partition *)

Fixpoint log_put (m : TopicMessage) (l : list TopicMessage) : list TopicMessage :=
  match l with
  | [] => [m]
  | x :: rest =>
      if tm_offset m <? tm_offset x then m :: l
      else if tm_offset m =? tm_offset x then m :: rest
      else x :: log_put m rest
  end.

Definition entry_ltb (a b : TopicRetentionIndexEntry) : bool :=
  (re_timestamp_ms a <? re_timestamp_ms b)
  || ((re_timestamp_ms a =? re_timestamp_ms b) && (re_offset a <? re_offset b)).

Definition same_entry_key (a b : TopicRetentionIndexEntry) : bool :=
  (re_timestamp_ms a =? re_timestamp_ms b) && (re_offset a =? re_offset b).

Fixpoint index_put (e : TopicRetentionIndexEntry) (l : list TopicRetentionIndexEntry) :
    list TopicRetentionIndexEntry :=
  match l with
  | [] => [e]
  | x :: rest =>
      if entry_ltb e x then e :: l
      else if same_entry_key e x then e :: rest
      else x :: index_put e rest
  end.

(** [fetch_messages]: a scan of the partition from [offset], at most [limit] messages. *)
Definition store_fetch_messages (l : list TopicMessage) (offset limit : Z) : list TopicMessage :=
  take (Z.to_nat limit) (filter (fun m => offset <= tm_offset m) l).

Definition store_latest_offset (l : list TopicMessage) : option Z := tm_offset <$> last l.

Definition store_earliest_offset (l : list TopicMessage) : option Z :=
  tm_offset <$> head (store_fetch_messages l 0 1).

Definition index_bytes (l : list TopicRetentionIndexEntry) : Z :=
  foldr (fun e acc => re_message_bytes e + acc) 0 l.

(** [take_while(|entry| entry.timestamp_ms < cutoff)]. *)
Fixpoint take_older (cutoff : Z) (l : list TopicRetentionIndexEntry) :
    list TopicRetentionIndexEntry :=
  match l with
  | [] => []
  | e :: rest => if re_timestamp_ms e <? cutoff then e :: take_older cutoff rest else []
  end.

(** ** A partition: durable part and runtime *)

Record Partition := mkPartition {
  p_write : PartitionWriteState;
  p_tail : PartitionTail;
  p_log : list TopicMessage;
  p_index : list TopicRetentionIndexEntry
}.

Definition partition_new : Partition := mkPartition write_default tail_default [] [].

Definition upd_write (f : PartitionWriteState -> PartitionWriteState) (p : Partition) : Partition :=
  mkPartition (f (p_write p)) (p_tail p) (p_log p) (p_index p).
Definition upd_tail (f : PartitionTail -> PartitionTail) (p : Partition) : Partition :=
  mkPartition (p_write p) (f (p_tail p)) (p_log p) (p_index p).

Section Operations.

(** Length of the encoded message ([encode_entity]), and the environment of the run. *)
Context (encoded_len : TopicMessage -> Z) (env : Env).

(** One atomic backend batch: the message and its retention entry. *)
Definition put_one (m : TopicMessage) (p : Partition) : Partition :=
  mkPartition (p_write p) (p_tail p) (log_put m (p_log p))
    (index_put (retention_entry_new m (encoded_len m)) (p_index p)).

Definition allocate_m (count : Z) : M Partition Z :=
  fun n p => let '(start, w) := allocate (p_write p) count in
             (Ok start, upd_write (fun _ => w) p, n).

Definition put_message_with_retention_index (m : TopicMessage) : M Partition Z :=
  do! storage_write env (put_one m) in mret (encoded_len m).

(** The critical section of [publish_message] and [publish_typed] under the write lock. *)
Definition publish_one (k : TopicPartitionKey) (payload : list Z) (key : option string)
    (user : option UserId) (op : TopicOp) : M Partition Z :=
  let! offset := allocate_m 1 in
  let! timestamp_ms := read_clock env in
  let m := mkMessage (tp_topic_id k) (tp_partition_id k) offset payload key timestamp_ms user op in
  let! message_bytes := put_message_with_retention_index m in
  do! modify (upd_write (fun w => add_retained_bytes w message_bytes)) in
  do! modify (upd_tail (fun t => tail_append t m)) in
  mret offset.

(** [batch_put_raw_with_retention]: one batch for every message, and their total size. *)
Definition batch_put_raw_with_retention (ms : list TopicMessage) : M Partition Z :=
  do! storage_write env (fun p => foldl (fun p m => put_one m p) p ms) in
  mret (foldl (fun acc m => u64_add acc (encoded_len m)) 0 ms).

Fixpoint number_messages (k : TopicPartitionKey) (ts offset : Z) (user : option UserId)
    (op : TopicOp) (encoded : list (list Z * option string)) : list TopicMessage :=
  match encoded with
  | [] => []
  | (payload, key) :: rest =>
      mkMessage (tp_topic_id k) (tp_partition_id k) offset payload key ts user op
        :: number_messages k ts (u64_add offset 1) user op rest
  end.

(** The critical section of [publish_batch] for the rows of one partition. *)
Definition publish_group (k : TopicPartitionKey) (ts : Z)
    (pre_encoded : list (list Z * option string)) (user : option UserId) (op : TopicOp) :
    M Partition Z :=
  let! start_offset := allocate_m (Z.of_nat (length pre_encoded)) in
  let messages := number_messages k ts start_offset user op pre_encoded in
  let! message_bytes := batch_put_raw_with_retention messages in
  do! modify (upd_write (fun w => add_retained_bytes w message_bytes)) in
  do! modify (upd_tail (fun t => append_messages t messages)) in
  mret (Z.of_nat (length pre_encoded)).

(** *** Retention *)

Definition remove_entries (es : list TopicRetentionIndexEntry) (p : Partition) : Partition :=
  mkPartition (p_write p) (p_tail p)
    (filter (fun m => existsb (fun e => re_offset e =? tm_offset m) es = false) (p_log p))
    (filter (fun x => existsb (fun e => same_entry_key e x) es = false) (p_index p)).

Definition delete_retention_entries (es : list TopicRetentionIndexEntry) :
    M Partition TopicRetentionDeletionStats :=
  do! storage_write env (remove_entries es) in
  mret (mkStats (Z.of_nat (length es)) (foldl (fun acc e => u64_add acc (re_message_bytes e)) 0 es)).

Definition RETENTION_CHUNK : nat := 512.

(** The chunk loop; each round removes at least one entry of [rest], so its length is enough
    fuel. *)
Fixpoint delete_chunks (fuel : nat) (rest : list TopicRetentionIndexEntry)
    (stats : TopicRetentionDeletionStats) : M Partition TopicRetentionDeletionStats :=
  match fuel, rest with
  | S fuel', _ :: _ =>
      let! deleted := delete_retention_entries (take RETENTION_CHUNK rest) in
      if messages_deleted deleted =? 0 then mret stats
      else
        do! modify (upd_write (fun w => subtract_retained_bytes w (bytes_freed deleted))) in
        delete_chunks fuel' (drop RETENTION_CHUNK rest)
          (mkStats (u64_add (messages_deleted stats) (messages_deleted deleted))
                   (u64_add (bytes_freed stats) (bytes_freed deleted)))
  | _, _ => mret stats
  end.

Definition delete_retention_batch (es : list TopicRetentionIndexEntry)
    (stats : TopicRetentionDeletionStats) : M Partition TopicRetentionDeletionStats :=
  delete_chunks (length es) es stats.

Definition load_retained_bytes : M Partition Z :=
  let! known := gets (fun p => retained_bytes (p_write p)) in
  match known with
  | Some bytes => mret bytes
  | None =>
      let! bytes := storage_read env (fun p => wrap64 (index_bytes (p_index p))) in
      do! modify (upd_write (fun w => set_retained_bytes w bytes)) in
      mret bytes
  end.

(** The scan runs without the write lock, which is taken again to store its result. *)
Definition retained_bytes_without_blocking_publish : M Partition Z :=
  let! known := gets (fun p => retained_bytes (p_write p)) in
  match known with
  | Some _ => load_retained_bytes
  | None =>
      let! bytes := storage_read env (fun p => wrap64 (index_bytes (p_index p))) in
      do! modify (upd_write (fun w => match retained_bytes w with
                                      | None => set_retained_bytes w bytes
                                      | Some _ => w
                                      end)) in
      gets (fun p => default bytes (retained_bytes (p_write p)))
  end.

(** The [for] loop that selects entries until the rest fits. *)
Fixpoint select_entries (retained max_bytes selected_bytes : Z)
    (es : list TopicRetentionIndexEntry) : list TopicRetentionIndexEntry :=
  match es with
  | [] => []
  | e :: rest =>
      let selected := saturating_add selected_bytes (re_message_bytes e) in
      e :: (if saturating_sub retained selected <=? max_bytes then []
            else select_entries retained max_bytes selected rest)
  end.

(** The byte loop; every round that continues deletes at least one message, so [batch_size]
    rounds are enough. *)
Fixpoint byte_retention (fuel : nat) (max_bytes batch_size : Z)
    (stats : TopicRetentionDeletionStats) : M Partition TopicRetentionDeletionStats :=
  match fuel with
  | O => mret stats
  | S fuel' =>
      if messages_deleted stats <? batch_size then
        let! retained := retained_bytes_without_blocking_publish in
        if retained <=? max_bytes then mret stats
        else
          let remaining := batch_size - messages_deleted stats in
          let! entries := storage_read env (fun p => take (Z.to_nat remaining) (p_index p)) in
          match entries with
          | [] => do! modify (upd_write (fun w => set_retained_bytes w 0)) in mret stats
          | _ =>
              let! stats' := delete_retention_batch (select_entries retained max_bytes 0 entries)
                               stats in
              if messages_deleted stats' =? messages_deleted stats then mret stats'
              else byte_retention fuel' max_bytes batch_size stats'
          end
      else mret stats
  end.

Definition enforce_retention (partition_id partitions : Z) (cutoff max_bytes : option Z)
    (batch_size : Z) : M Partition TopicRetentionDeletionStats :=
  if batch_size =? 0 then mfail ZeroBatchSize
  else if partitions <=? partition_id then mfail (PartitionOutOfRange partition_id partitions)
  else
    let! stats :=
      match cutoff with
      | None => mret (mkStats 0 0)
      | Some c =>
          let! entries :=
            storage_read env (fun p => take_older c (take (Z.to_nat batch_size) (p_index p))) in
          delete_retention_batch entries (mkStats 0 0)
      end in
    let! stats :=
      match max_bytes with
      | None => mret stats
      | Some b => byte_retention (Z.to_nat batch_size) (Z.max b 0) batch_size stats
      end in
    if 0 <? messages_deleted stats then
      let! earliest := storage_read env (fun p => store_earliest_offset (p_log p)) in
      let! start := gets (fun p => match earliest with
                                   | Some o => o
                                   | None => default 0 (next_offset (p_write p))
                                   end) in
      do! modify (upd_write (fun w => set_log_start w start)) in
      do! modify (upd_tail (fun t => trim_below t start)) in
      mret stats
    else mret stats.

(** A restart keeps the durable part. *)
Definition restart (p : Partition) : Partition :=
  mkPartition write_default tail_default (p_log p) (p_index p).

(** What [restore_offset_counters] does with the answer of the store: a failed read is logged
    and otherwise treated as an empty partition. *)
Definition restore_from (latest : Result TopicError (option Z)) (p : Partition) : Partition :=
  match latest with
  | Ok (Some last_offset) => upd_write (fun w => seed w (u64_add last_offset 1)) p
  | Ok None => p
  | Err _ => p
  end.

Definition restore_offset_counters (p : Partition) : Partition :=
  restore_from (Ok (store_latest_offset (p_log p))) p.

(** *** Reads *)

Definition latest_offset : M Partition (option Z) :=
  let! next := gets (fun p => next_offset (p_write p)) in
  match next with
  | Some n => mret (if n =? 0 then None else Some (n - 1))
  | None => storage_read env (fun p => store_latest_offset (p_log p))
  end.

Definition earliest_available_offset : M Partition Z :=
  let! earliest := storage_read env (fun p => store_earliest_offset (p_log p)) in
  match earliest with
  | Some o => mret o
  | None => gets (fun p => log_start (p_write p))
  end.

Definition log_high_watermark (earliest : Z) : M Partition Z :=
  let! latest := latest_offset in
  mret (match latest with Some l => saturating_add l 1 | None => earliest end).

Definition load_messages (offset limit : Z) : M Partition (list TopicMessage) :=
  let! cached := gets (fun p => tail_fetch (p_tail p) offset limit) in
  match cached with
  | Some messages => mret messages
  | None => storage_read env (fun p => store_fetch_messages (p_log p) offset limit)
  end.

Definition fetch_messages (offset limit : Z) : M Partition (list TopicMessage) :=
  if limit =? 0 then mret []
  else
    let! cached := gets (fun p => tail_fetch (p_tail p) offset limit) in
    match cached with
    | Some messages => mret messages
    | None =>
        let! earliest := earliest_available_offset in
        if offset <? earliest then
          let! latest := latest_offset in
          mfail (OffsetOutOfRange offset earliest
                   (match latest with Some l => u64_add l 1 | None => 0 end))
        else storage_read env (fun p => store_fetch_messages (p_log p) offset limit)
    end.

End Operations.

(** ** The tail against the log *)

Abbreviation by_offset := (fun a b => tm_offset a < tm_offset b).

(** Offsets [s], [s+1], ... *)
Fixpoint consecutive (s : Z) (ms : list TopicMessage) : Prop :=
  match ms with
  | [] => True
  | m :: rest => tm_offset m = s /\ consecutive (s + 1) rest
  end.

Definition payload_bytes (ms : list TopicMessage) : Z :=
  foldr (fun m acc => payload_len m + acc) 0 ms.

(** Lengths of Rust vectors never exceed [isize::MAX]. *)
Definition payload_ok (m : TopicMessage) : Prop := payload_len m <= i64_max.

(** A cached tail: a gap-free suffix of the log, within its capacity. *)
Definition tail_ok (log : list TopicMessage) (t : PartitionTail) : Prop :=
  tail_messages t = [] \/
  (tail_messages t = filter (fun m => tail_start t <= tm_offset m) log /\
   consecutive (tail_start t) (tail_messages t) /\
   tail_end t = tail_start t + Z.of_nat (length (tail_messages t)) /\
   tail_bytes t = payload_bytes (tail_messages t) /\
   Z.of_nat (length (tail_messages t)) <= TAIL_MAX_MESSAGES /\ tail_bytes t <= TAIL_MAX_BYTES).

Lemma payload_bytes_app l1 l2 : payload_bytes (l1 ++ l2) = payload_bytes l1 + payload_bytes l2.
Proof. induction l1; simpl; unfold payload_bytes in *; simpl; lia. Qed.

Lemma payload_bytes_nonneg l : 0 <= payload_bytes l.
Proof. induction l as [|m l IH]; simpl; unfold payload_bytes, payload_len in *; simpl; lia. Qed.

Lemma consecutive_app s l1 l2 :
  consecutive s (l1 ++ l2) <-> consecutive s l1 /\ consecutive (s + Z.of_nat (length l1)) l2.
Proof.
  revert s. induction l1 as [|m l1 IH]; intros s; cbn [app consecutive length].
  - replace (s + Z.of_nat 0) with s by lia. tauto.
  - rewrite IH. replace (s + 1 + Z.of_nat (length l1)) with (s + Z.of_nat (S (length l1))) by lia.
    tauto.
Qed.

Lemma consecutive_range s l m :
  consecutive s l -> m ∈ l -> s <= tm_offset m < s + Z.of_nat (length l).
Proof.
  revert s. induction l as [|x l IH]; intros s Hc Hm; [by apply elem_of_nil in Hm|].
  destruct Hc as [Hx Hc]. cbn [length]. apply elem_of_cons in Hm as [->|Hm]; [lia|].
  specialize (IH (s + 1) Hc Hm). lia.
Qed.

Lemma filter_ge_all s (l : list TopicMessage) :
  (forall m, m ∈ l -> s <= tm_offset m) -> filter (fun m => s <= tm_offset m) l = l.
Proof.
  intros H. induction l as [|m l IH]; [done|].
  rewrite filter_cons_True by (apply H; set_solver). f_equal. apply IH. set_solver.
Qed.

Lemma filter_ge_none s (l : list TopicMessage) :
  (forall m, m ∈ l -> tm_offset m < s) -> filter (fun m => s <= tm_offset m) l = [].
Proof.
  intros H. induction l as [|m l IH]; [done|].
  rewrite filter_cons_False; [apply IH; set_solver|]. specialize (H m ltac:(set_solver)). lia.
Qed.

(** Filtering a suffix from a later start. *)
Lemma filter_ge_mono s s' (l : list TopicMessage) :
  s <= s' -> filter (fun m => s' <= tm_offset m) (filter (fun m => s <= tm_offset m) l) =
             filter (fun m => s' <= tm_offset m) l.
Proof.
  intros H. rewrite list_filter_filter. apply list_filter_iff. intros m. lia.
Qed.

(** A consecutive run from [s], filtered from [s + i], is the run without its first [i]. *)
Lemma consecutive_filter_drop s l i :
  consecutive s l -> filter (fun m => s + Z.of_nat i <= tm_offset m) l = drop i l.
Proof.
  revert s l. induction i as [|i IH]; intros s l Hc.
  { apply filter_ge_all. intros m Hm. pose proof (consecutive_range s l m Hc Hm). lia. }
  destruct l as [|x l]; [done|]. destruct Hc as [Hx Hc]. cbn [drop].
  rewrite filter_cons_False by lia. rewrite <-(IH (s + 1) l Hc).
  apply list_filter_iff. intros m. lia.
Qed.

(** Popping over-capacity messages keeps a suffix. *)
Lemma pop_over_capacity_spec s b ms s' b' ms' :
  consecutive s ms -> b = payload_bytes ms -> 0 <= s ->
  s + Z.of_nat (length ms) <= u64_max ->
  pop_over_capacity s b ms = (s', b', ms') ->
  exists i, ms' = drop i ms /\ (i <= length ms)%nat /\ s' = s + Z.of_nat i /\
    b' = payload_bytes ms' /\ consecutive s' ms' /\
    (ms' ≠ [] -> Z.of_nat (length ms') <= TAIL_MAX_MESSAGES /\ b' <= TAIL_MAX_BYTES).
Proof.
  revert s b. induction ms as [|m ms IH]; intros s b Hc -> Hs Hmax; cbn [pop_over_capacity].
  { intros [= <- <- <-]. exists 0%nat. simpl. split_and!; try done; lia. }
  destruct Hc as [Hm Hc]. cbn [length] in Hmax.
  destruct (_ || _) eqn:E.
  - intros Hp. apply IH in Hp as (i & -> & Hi & -> & Hb & Hc' & Hcap).
    + exists (S i). cbn [length drop]. split_and!; try done; [lia|].
      rewrite saturating_add_small by lia. lia.
    + rewrite saturating_add_small by lia. by rewrite Hm.
    + unfold saturating_sub, payload_bytes. cbn [foldr]. fold (payload_bytes ms).
      pose proof (payload_bytes_nonneg ms). unfold payload_len in *. lia.
    + rewrite saturating_add_small by lia. lia.
    + rewrite saturating_add_small by lia. lia.
  - zbool. intros [= <- <- <-]. exists 0%nat. rewrite Z.add_0_r. cbn [drop length] in *.
    split_and!; try done; lia.
Qed.

Lemma trim_capacity_ok log t :
  tail_messages t = filter (fun m => tail_start t <= tm_offset m) log ->
  consecutive (tail_start t) (tail_messages t) ->
  tail_end t = tail_start t + Z.of_nat (length (tail_messages t)) ->
  tail_bytes t = payload_bytes (tail_messages t) -> 0 <= tail_start t -> tail_end t <= u64_max ->
  tail_ok log (trim_capacity t).
Proof.
  intros Hm Hc He Hb Hs Hmax. unfold trim_capacity.
  destruct (pop_over_capacity _ _ _) as [[s' b'] ms'] eqn:E.
  apply pop_over_capacity_spec in E as (i & Hms & Hi & -> & Hb' & Hc' & Hcap);
    [|done|done|done|lia].
  destruct ms' as [|x ms']; [by left|]. right. cbn [tail_messages tail_start tail_end tail_bytes].
  split_and!; [|done| |done| |].
  - rewrite Hms, <-(consecutive_filter_drop (tail_start t)) by done. rewrite Hm at 1.
    rewrite filter_ge_mono by lia. done.
  - rewrite He, Hms, length_drop. lia.
  - by apply Hcap.
  - by apply Hcap.
Qed.

Lemma tail_append_ok log t m :
  tail_ok log t -> (forall x, x ∈ log -> 0 <= tm_offset x < tm_offset m) -> 0 <= tm_offset m ->
  tm_offset m < u64_max -> payload_ok m -> tail_ok (log ++ [m]) (tail_append t m).
Proof.
  intros Ht Hlog H0 Hmax Hp. unfold tail_append.
  assert (tail_ok (log ++ [m])
    (trim_capacity (mkTail (tm_offset m) (saturating_add (tm_offset m) 1) (payload_len m) [m])))
    as Hsingle.
  { rewrite saturating_add_small by lia.
    apply trim_capacity_ok; cbn [tail_messages tail_start tail_end tail_bytes length];
      [ |done|lia|unfold payload_bytes; cbn [foldr]; lia|lia|lia].
    rewrite filter_app, filter_ge_none; [|intros x Hx; specialize (Hlog x Hx); lia].
    rewrite filter_ge_all; [done|]. intros x ->%list_elem_of_singleton. lia. }
  destruct (tail_messages t) as [|x0 ms] eqn:Ems; [cbn [negb andb]; by rewrite Ems|].
  cbn [negb andb]. destruct (tm_offset m =? tail_end t) eqn:Ee; cbn [negb]; [|exact Hsingle].
  rewrite Ems. apply Z.eqb_eq in Ee.
  destruct Ht as [?|(Hm & Hc & He & Hb & Hlen & Hcap)]; [congruence|]. rewrite Ems in *.
  assert (0 <= tail_start t) as Hs.
  { assert (x0 ∈ filter (fun m => tail_start t <= tm_offset m) log) as Hx
      by (rewrite <-Hm; set_solver).
    apply list_elem_of_filter in Hx as [_ Hx]. specialize (Hlog x0 Hx).
    destruct Hc as [<- _]. lia. }
  assert (saturating_add (tail_bytes t) (payload_len m) = payload_bytes ((x0 :: ms) ++ [m])) as Hby.
  { rewrite payload_bytes_app. unfold payload_bytes at 2. cbn [foldr]. rewrite <-Hb.
    rewrite saturating_add_small; [lia|].
    unfold payload_ok, i64_max, u64_max, TAIL_MAX_BYTES in *. lia. }
  apply trim_capacity_ok; cbn [tail_messages tail_start tail_end tail_bytes];
    [ | | | exact Hby | exact Hs |].
  - rewrite filter_app, <-Hm. rewrite filter_ge_all; [done|].
    intros x ->%list_elem_of_singleton. lia.
  - apply consecutive_app. split; [done|]. simpl length in *. split; [lia|done].
  - rewrite saturating_add_small, length_app by lia. simpl length in *. lia.
  - rewrite saturating_add_small; lia.
Qed.

Lemma append_messages_ok log t ms s :
  tail_ok log t -> consecutive s ms -> 0 <= s -> s + Z.of_nat (length ms) <= u64_max ->
  (forall x, x ∈ log -> 0 <= tm_offset x < s) -> Forall payload_ok ms ->
  tail_ok (log ++ ms) (append_messages t ms).
Proof.
  revert log t s. induction ms as [|m ms IH]; intros log t s Ht Hc H0 Hmax Hlog Hp.
  { by rewrite app_nil_r. }
  destruct Hc as [Hm Hc]. apply Forall_cons in Hp as [Hp1 Hp2]. cbn [length] in Hmax.
  unfold append_messages. cbn [foldl]. rewrite cons_middle, app_assoc.
  apply (IH (log ++ [m]) (tail_append t m) (s + 1)); try done; try lia.
  - apply tail_append_ok; try done; try lia. intros x Hx. specialize (Hlog x Hx). lia.
  - intros x [Hx| ->%list_elem_of_singleton]%elem_of_app; [specialize (Hlog x Hx)|]; lia.
Qed.

(** A hit in the tail is what the store would return. *)
Lemma tail_fetch_store log t o lim r :
  tail_ok log t -> 0 <= lim -> tail_fetch t o lim = Some r -> r = store_fetch_messages log o lim.
Proof.
  intros Ht Hlim. unfold tail_fetch, store_fetch_messages.
  destruct (tail_messages t) as [|x0 ms] eqn:Ems; [done|].
  destruct Ht as [?|(Hm & Hc & He & Hb & Hlen & Hcap)]; [congruence|]. rewrite Ems in *.
  destruct (o =? tail_end t) eqn:Eo.
  - zbool. intros [= <-].
    assert (filter (fun m => o <= tm_offset m) log = []) as ->; [|by rewrite take_nil].
    rewrite <-(filter_ge_mono (tail_start t)), <-Hm by lia. apply filter_ge_none.
    intros m Hin. pose proof (consecutive_range _ _ m Hc Hin). lia.
  - destruct (_ || _) eqn:E; [done|]. zbool. unfold saturating_sub.
    assert (drop (Z.to_nat (o - tail_start t)) (x0 :: ms) =
            filter (fun m => o <= tm_offset m) log) as Hd.
    { rewrite <-(consecutive_filter_drop (tail_start t)) by done.
      rewrite Hm, filter_ge_mono by lia. apply list_filter_iff. intros m. lia. }
    rewrite Z.max_r by lia. rewrite Hd. destruct (lim =? 0) eqn:El; [|by intros [= <-]].
    zbool. subst lim. intros [= <-]. done.
Qed.

(** ** Invariant of a partition *)

Section Invariant.

Context (encoded_len : TopicMessage -> Z) (env : Env).

Definition entry_of (m : TopicMessage) : TopicRetentionIndexEntry :=
  retention_entry_new m (encoded_len m).

Definition next_of (p : Partition) : Z := default 0 (next_offset (p_write p)).

(** Log and index in step: offsets strictly increase, timestamps never decrease. *)
Definition log_ok (p : Partition) : Prop :=
  StronglySorted by_offset (p_log p) /\
  StronglySorted (fun a b => tm_timestamp_ms a <= tm_timestamp_ms b) (p_log p) /\
  p_index p = entry_of <$> p_log p.

Definition part_ok (latest_ts : Z) (p : Partition) : Prop :=
  log_ok p /\ 0 <= next_of p <= u64_max /\
  (forall m, m ∈ p_log p -> 0 <= tm_offset m < next_of p) /\
  (forall m, m ∈ p_log p -> tm_timestamp_ms m <= latest_ts) /\
  tail_ok (p_log p) (p_tail p).

(** The byte counter agrees with the index. *)
Definition counter_exact (p : Partition) : Prop :=
  (forall e, e ∈ p_index p -> 0 <= re_message_bytes e) /\ index_bytes (p_index p) <= u64_max /\
  default 0 (retained_bytes (p_write p)) = index_bytes (p_index p).

Lemma sorted_app {A} (R : A -> A -> Prop) l1 l2 :
  StronglySorted R (l1 ++ l2) <->
  StronglySorted R l1 /\ StronglySorted R l2 /\ forall x y, x ∈ l1 -> y ∈ l2 -> R x y.
Proof.
  induction l1 as [|a l1 IH]; cbn [app].
  - split; [|tauto]. intros H. split_and!; [constructor|done|]. set_solver.
  - split.
    + intros H. apply StronglySorted_inv in H as [Hs Hf]. apply IH in Hs as (H1 & H2 & H3).
      rewrite Forall_app, !Forall_forall in Hf. destruct Hf as [Hf1 Hf2].
      split_and!; [constructor; [done|by apply Forall_forall]|done|].
      intros x y [->|Hx]%elem_of_cons Hy; auto.
    + intros (H1 & H2 & H3). apply StronglySorted_inv in H1 as [H1 Hf]. constructor.
      * apply IH. split_and!; try done. intros x y Hx Hy. apply H3; set_solver.
      * rewrite Forall_app. split; [done|]. apply Forall_forall. intros y Hy. apply H3; set_solver.
Qed.

Lemma sorted_drop {A} (R : A -> A -> Prop) k l : StronglySorted R l -> StronglySorted R (drop k l).
Proof. rewrite <-(take_drop k l) at 1. by intros (_ & ? & _)%sorted_app. Qed.

Lemma sorted_length a b (l : list TopicMessage) :
  StronglySorted by_offset l -> (forall m, m ∈ l -> a <= tm_offset m < b) -> a <= b ->
  Z.of_nat (length l) <= b - a.
Proof.
  revert a. induction l as [|x l IH]; intros a Hs Hr Hab; cbn [length]; [lia|].
  apply StronglySorted_inv in Hs as [Hs Hf]. rewrite Forall_forall in Hf.
  pose proof (Hr x ltac:(set_solver)).
  enough (Z.of_nat (length l) <= b - (tm_offset x + 1)) by lia.
  apply IH; [done| |lia]. intros m Hm. pose proof (Hf m Hm). pose proof (Hr m ltac:(set_solver)).
  lia.
Qed.

Lemma consecutive_sorted s l : consecutive s l -> StronglySorted by_offset l.
Proof.
  revert s. induction l as [|m l IH]; intros s Hc; [constructor|]. destruct Hc as [Hm Hc].
  constructor; [by eapply IH|]. apply Forall_forall. intros x Hx.
  pose proof (consecutive_range _ _ x Hc Hx). lia.
Qed.

(** *** Writing at the end *)

Lemma log_put_end m l : (forall x, x ∈ l -> tm_offset x < tm_offset m) -> log_put m l = l ++ [m].
Proof.
  induction l as [|x l IH]; intros H; [done|]. cbn [log_put app].
  pose proof (H x ltac:(set_solver)). rewrite (proj2 (Z.ltb_ge _ _)), (proj2 (Z.eqb_neq _ _)) by lia.
  f_equal. apply IH. set_solver.
Qed.

Lemma index_put_end e l :
  (forall x, x ∈ l -> re_timestamp_ms x <= re_timestamp_ms e /\ re_offset x < re_offset e) ->
  index_put e l = l ++ [e].
Proof.
  induction l as [|x l IH]; intros H; [done|]. cbn [index_put app].
  destruct (H x ltac:(set_solver)) as [H1 H2].
  assert (entry_ltb e x = false) as ->.
  { unfold entry_ltb. apply orb_false_iff. split; [lia|]. apply andb_false_iff. right. lia. }
  assert (same_entry_key e x = false) as ->.
  { unfold same_entry_key. apply andb_false_iff. right. lia. }
  f_equal. apply IH. set_solver.
Qed.

(** Messages that may be appended to [p] at timestamp [ts]. *)
Definition appendable (p : Partition) (ts : Z) (ms : list TopicMessage) : Prop :=
  (forall m, m ∈ ms -> tm_timestamp_ms m = ts) /\ StronglySorted by_offset ms /\
  (forall x m, x ∈ p_log p -> m ∈ ms -> tm_offset x < tm_offset m).

Definition appended (p : Partition) (ms : list TopicMessage) : Partition :=
  mkPartition (p_write p) (p_tail p) (p_log p ++ ms) (p_index p ++ (entry_of <$> ms)).

Lemma put_all p ts ms :
  p_index p = entry_of <$> p_log p -> (forall m, m ∈ p_log p -> tm_timestamp_ms m <= ts) ->
  appendable p ts ms -> foldl (fun p m => put_one encoded_len m p) p ms = appended p ms.
Proof.
  revert p. induction ms as [|m ms IH]; intros p Hi Ht (Hts & Hs & Ho).
  { destruct p. unfold appended. simpl. by rewrite !app_nil_r. }
  apply StronglySorted_inv in Hs as [Hs Hf]. rewrite Forall_forall in Hf. cbn [foldl].
  assert (put_one encoded_len m p = appended p [m]) as ->.
  { unfold put_one, appended. rewrite log_put_end by (intros x Hx; apply Ho; set_solver).
    f_equal. cbn [fmap list_fmap]. apply index_put_end. intros x Hx. rewrite Hi in Hx.
    apply list_elem_of_fmap in Hx as (y & -> & Hy). unfold entry_of, retention_entry_new. simpl.
    specialize (Ht y Hy). rewrite (Hts m ltac:(set_solver)). split; [done|apply Ho; set_solver]. }
  rewrite IH.
  - unfold appended. simpl. by rewrite <-!app_assoc.
  - simpl. by rewrite Hi, fmap_app.
  - simpl. intros x [Hx| ->%list_elem_of_singleton]%elem_of_app; [by apply Ht|].
    rewrite (Hts m); [lia|set_solver].
  - split_and!; [set_solver|done|]. simpl.
    intros x y [Hx| ->%list_elem_of_singleton]%elem_of_app Hy; [apply Ho; set_solver|by apply Hf].
Qed.

Lemma index_bytes_app l1 l2 : index_bytes (l1 ++ l2) = index_bytes l1 + index_bytes l2.
Proof. induction l1; unfold index_bytes in *; cbn [app foldr]; lia. Qed.

(** A write of [ms], with the offsets up to [next] assigned, the tail extended. *)
Lemma appended_ok ts ts' p ms next w' :
  part_ok ts p -> ts <= ts' -> appendable p ts' ms -> consecutive (next_of p) ms ->
  Forall payload_ok ms -> next = next_of p + Z.of_nat (length ms) -> next <= u64_max ->
  next_offset w' = Some next ->
  part_ok ts' (mkPartition w' (append_messages (p_tail p) ms) (p_log p ++ ms)
                 (p_index p ++ (entry_of <$> ms))).
Proof.
  intros ((Hs & Ht & Hi) & Hn & Ho & Hts & Htl) Hle (Hm & Hms & Hlt) Hc Hpay -> Hmax Hw.
  unfold part_ok, log_ok. cbn [p_log p_index p_tail].
  assert (forall t l i, next_of (mkPartition w' t l i) = next_of p + Z.of_nat (length ms)) as ->
    by (intros; unfold next_of at 1; simpl; by rewrite Hw).
  pose proof (fun m => consecutive_range _ _ m Hc) as Hr. split_and!; try lia.
  - apply sorted_app. by split_and!.
  - apply sorted_app. split_and!; [done| |].
    + clear -Hm. induction ms as [|m ms IH]; constructor; [apply IH; set_solver|].
      apply Forall_forall. intros x Hx. rewrite !Hm by set_solver. lia.
    + intros x y Hx Hy. rewrite (Hm y Hy). specialize (Hts x Hx). lia.
  - by rewrite Hi, fmap_app.
  - intros m [Hx|Hx]%elem_of_app; [specialize (Ho m Hx)|specialize (Hr m Hx)]; lia.
  - intros m [Hx|Hx]%elem_of_app; [specialize (Hts m Hx)|specialize (Hm m Hx)]; lia.
  - eapply append_messages_ok; [done|exact Hc|lia|lia|done|done].
Qed.

Lemma part_ok_next ts ts' p w' :
  part_ok ts p -> ts <= ts' -> next_of p <= default 0 (next_offset w') <= u64_max ->
  part_ok ts' (upd_write (fun _ => w') p).
Proof.
  intros (Hl & Hn & Ho & Ht & Htl) Hle Hw. unfold part_ok, next_of in *. simpl.
  split_and!; try done; try lia.
  - intros m Hm. specialize (Ho m Hm). lia.
  - intros m Hm. specialize (Ht m Hm). lia.
Qed.

(** *** Publishing *)

Lemma allocate_m_eq count n p :
  0 <= next_of p -> next_of p + count <= u64_max ->
  allocate_m count n p =
  (Ok (next_of p), upd_write (fun w => mkWrite (Some (next_of p + count)) (retained_bytes w)
                                         (log_start w)) p, n).
Proof.
  intros H0 H. unfold allocate_m, allocate. fold (next_of p).
  by rewrite saturating_add_small by lia.
Qed.

Lemma number_messages_consecutive k ts s user op enc :
  0 <= s -> s + Z.of_nat (length enc) <= u64_max ->
  consecutive s (number_messages k ts s user op enc) /\
  (forall m, m ∈ number_messages k ts s user op enc ->
     tm_timestamp_ms m = ts /\ (exists e, e ∈ enc /\ tm_payload m = e.1 /\ tm_key m = e.2)) /\
  length (number_messages k ts s user op enc) = length enc /\
  (tm_payload <$> number_messages k ts s user op enc) = (fst <$> enc).
Proof.
  revert s. induction enc as [|[pl key] enc IH]; intros s H0 Hm; cbn [number_messages length] in *.
  { split_and!; try done. intros m Hin. by apply elem_of_nil in Hin. }
  rewrite u64_add_small by lia.
  destruct (IH (s + 1) ltac:(lia) ltac:(lia)) as (Hc & Hx & Hlen & Hp). split_and!.
  - by split.
  - intros m [->|Hin]%elem_of_cons; [split; [done|]; exists (pl, key); set_solver|].
    destruct (Hx m Hin) as (? & e & ? & ? & ?). split; [done|]. exists e. set_solver.
  - lia.
  - cbn [fmap list_fmap]. f_equal. exact Hp.
Qed.

Lemma consecutive_appendable ts p ts' ms :
  part_ok ts p -> consecutive (next_of p) ms ->
  (forall m, m ∈ ms -> tm_timestamp_ms m = ts') -> appendable p ts' ms.
Proof.
  intros (_ & _ & Ho & _) Hc Ht. split_and!; [done|by eapply consecutive_sorted|].
  intros x m Hx Hm. pose proof (consecutive_range _ _ m Hc Hm). specialize (Ho x Hx). lia.
Qed.

(** The partition after a successful write of [ms] that adds [b] bytes. *)
Definition published (p : Partition) (ms : list TopicMessage) (b : Z) : Partition :=
  mkPartition
    (add_retained_bytes (mkWrite (Some (next_of p + Z.of_nat (length ms)))
                           (retained_bytes (p_write p)) (log_start (p_write p))) b)
    (append_messages (p_tail p) ms) (p_log p ++ ms) (p_index p ++ (entry_of <$> ms)).

Lemma published_ok ts ts' p ms b :
  part_ok ts p -> ts <= ts' -> consecutive (next_of p) ms ->
  (forall m, m ∈ ms -> tm_timestamp_ms m = ts') -> Forall payload_ok ms ->
  next_of p + Z.of_nat (length ms) <= u64_max -> part_ok ts' (published p ms b).
Proof.
  intros Hp Hle Hc Ht Hpay Hmax. unfold published.
  eapply appended_ok; [done|done|by eapply consecutive_appendable|done|done|done|done|].
  unfold add_retained_bytes. by destruct (b =? 0).
Qed.

(** [publish_one] either fails, leaving a hole in the offsets, or appends the message. *)
Lemma publish_one_cases ts k pl key user op n p :
  part_ok ts p -> next_of p + 1 <= u64_max -> ts <= clock env n ->
  let m := mkMessage (tp_topic_id k) (tp_partition_id k) (next_of p) pl key (clock env n) user op in
  publish_one encoded_len env k pl key user op n p =
  if io_ok env (S n) then (Ok (next_of p), published p [m] (encoded_len m), S (S n))
  else (Err StorageFailed,
        upd_write (fun w => mkWrite (Some (next_of p + 1)) (retained_bytes w) (log_start w)) p,
        S (S n)).
Proof.
  intros Hp Hmax Ht m. pose proof Hp as ((_ & _ & Hi) & Hn & Ho & Hts & _).
  unfold publish_one, mbind at 1. rewrite allocate_m_eq by lia. cbn [mbind read_clock].
  unfold put_message_with_retention_index, storage_write, mbind, read_clock.
  destruct (io_ok env (S n)); [|done]. cbn [mret modify]. fold m.
  assert (consecutive (next_of p) [m]) as Hc by done.
  pose proof (put_all (upd_write (fun w => mkWrite (Some (next_of p + 1)) (retained_bytes w)
                (log_start w)) p) (clock env n) [m] Hi) as Hput.
  cbn [foldl] in Hput. rewrite Hput; [done| |].
  - simpl. intros x Hx. specialize (Hts x Hx). lia.
  - eapply consecutive_appendable in Hc; [exact Hc|exact Hp|]. by intros ? ->%list_elem_of_singleton.
Qed.

(** [publish_group] assigns one run of offsets to the whole group, or fails as a whole. *)
Lemma publish_group_cases ts k ts' enc user op n p :
  part_ok ts p -> next_of p + Z.of_nat (length enc) <= u64_max -> ts <= ts' ->
  let ms := number_messages k ts' (next_of p) user op enc in
  publish_group encoded_len env k ts' enc user op n p =
  if io_ok env n
  then (Ok (Z.of_nat (length enc)),
        published p ms (foldl (fun acc m => u64_add acc (encoded_len m)) 0 ms), S n)
  else (Err StorageFailed,
        upd_write (fun w => mkWrite (Some (next_of p + Z.of_nat (length enc))) (retained_bytes w)
                     (log_start w)) p, S n).
Proof.
  intros Hp Hmax Ht ms. pose proof Hp as ((_ & _ & Hi) & Hn & Ho & Hts & _).
  destruct (number_messages_consecutive k ts' (next_of p) user op enc ltac:(lia) Hmax)
    as (Hc & Hm & Hlen & _). fold ms in Hc, Hm, Hlen.
  unfold publish_group, mbind at 1. rewrite allocate_m_eq by lia.
  unfold batch_put_raw_with_retention, storage_write, mbind. fold ms.
  destruct (io_ok env n); [|done]. cbn [mret modify].
  rewrite (put_all _ ts').
  - unfold published. by rewrite Hlen.
  - exact Hi.
  - simpl. intros x Hx. specialize (Hts x Hx). lia.
  - eapply consecutive_appendable in Hc; [exact Hc|exact Hp|]. intros m Hin. by apply Hm.
Qed.

(** *** Retention *)

(** [p'] is [p] without its [k] oldest messages, tail and offsets untouched. *)
Definition dropped (k : nat) (p p' : Partition) : Prop :=
  p_log p' = drop k (p_log p) /\ p_index p' = drop k (p_index p) /\ p_tail p' = p_tail p /\
  next_offset (p_write p') = next_offset (p_write p) /\
  (counter_exact p -> counter_exact p').

Lemma dropped_refl p : dropped 0 p p.
Proof. by split_and!. Qed.

Lemma dropped_trans j k p q r : dropped j p q -> dropped k q r -> dropped (j + k) p r.
Proof.
  intros (H1 & H2 & H3 & H4 & H5) (G1 & G2 & G3 & G4 & G5).
  unfold dropped. rewrite G1, G2, G3, G4, H1, H2, H3, H4, !drop_drop.
  split_and!; try done. auto.
Qed.

Lemma dropped_log_ok k p p' : log_ok p -> dropped k p p' -> log_ok p'.
Proof.
  intros (Hs & Ht & Hi) (H1 & H2 & _). unfold log_ok. rewrite H1, H2, Hi, fmap_drop.
  split_and!; [by apply sorted_drop|by apply sorted_drop|done].
Qed.

Lemma existsb_true {A} (f : A -> bool) l : existsb f l = true <-> exists x, x ∈ l /\ f x = true.
Proof. rewrite existsb_exists. setoid_rewrite list_elem_of_In. done. Qed.

Lemma existsb_false {A} (f : A -> bool) l : existsb f l = false <-> forall x, x ∈ l -> f x = false.
Proof.
  rewrite <-not_true_iff_false, existsb_true. split.
  - intros H x Hx. destruct (f x) eqn:E; [|done]. exfalso. eauto.
  - intros H (x & Hx & E). by rewrite (H x Hx) in E.
Qed.

(** Keeping what a predicate rejects on the first [j] elements and accepts on the rest. *)
Lemma filter_suffix {A} (P : A -> Prop) `{forall x, Decision (P x)} j l :
  (forall x, x ∈ take j l -> ~ P x) -> (forall x, x ∈ drop j l -> P x) -> filter P l = drop j l.
Proof.
  intros H1 H2. rewrite <-(take_drop j l) at 1. rewrite filter_app.
  assert (forall l' : list A, (forall x, x ∈ l' -> ~ P x) -> filter P l' = []) as Hn.
  { intros l' Hl. induction l' as [|x l' IH]; [done|].
    rewrite filter_cons_False by (apply Hl; set_solver). apply IH. set_solver. }
  assert (forall l' : list A, (forall x, x ∈ l' -> P x) -> filter P l' = l') as Ha.
  { intros l' Hl. induction l' as [|x l' IH]; [done|].
    rewrite filter_cons_True by (apply Hl; set_solver). f_equal. apply IH. set_solver. }
  by rewrite Hn, Ha.
Qed.

(** Entries of the first [j] messages are exactly those of no later message. *)
Lemma take_drop_offsets p j x y :
  log_ok p -> x ∈ take j (p_log p) -> y ∈ drop j (p_log p) -> tm_offset x < tm_offset y.
Proof.
  intros (Hs & _ & _). rewrite <-(take_drop j (p_log p)) in Hs.
  apply sorted_app in Hs as (_ & _ & Hs). auto.
Qed.

Lemma remove_prefix p j :
  log_ok p -> remove_entries (take j (p_index p)) p =
  mkPartition (p_write p) (p_tail p) (drop j (p_log p)) (drop j (p_index p)).
Proof.
  intros Hok. pose proof Hok as (_ & _ & Hi). unfold remove_entries. f_equal.
  - apply filter_suffix; intros x Hx.
    + rewrite not_false_iff_true, existsb_true. exists (entry_of x). split; [|apply Z.eqb_refl].
      rewrite Hi, <-fmap_take. by apply list_elem_of_fmap_2.
    + apply existsb_false. intros e He. rewrite Hi, <-fmap_take in He.
      apply list_elem_of_fmap in He as (y & -> & Hy). simpl.
      pose proof (take_drop_offsets p j y x Hok Hy Hx). lia.
  - apply filter_suffix; rewrite Hi, ?fmap_drop, <-?fmap_take; intros e He.
    + rewrite not_false_iff_true, existsb_true. exists e. split; [done|].
      unfold same_entry_key. by rewrite !Z.eqb_refl.
    + apply existsb_false. intros e' He'. rewrite <-fmap_drop in He.
      apply list_elem_of_fmap in He as (y & -> & Hy).
      apply list_elem_of_fmap in He' as (x & -> & Hx).
      pose proof (take_drop_offsets p j x y Hok Hx Hy). unfold same_entry_key. simpl.
      apply andb_false_iff. right. lia.
Qed.

Lemma index_bytes_nonneg l : (forall e, e ∈ l -> 0 <= re_message_bytes e) -> 0 <= index_bytes l.
Proof.
  induction l as [|e l IH]; intros H; unfold index_bytes in *; cbn [foldr]; [lia|].
  pose proof (H e ltac:(set_solver)). specialize (IH ltac:(set_solver)). lia.
Qed.

(** The freed bytes are the sum over the deleted entries. *)
Lemma freed_sum es acc :
  (forall e, e ∈ es -> 0 <= re_message_bytes e) -> 0 <= acc -> acc + index_bytes es <= u64_max ->
  foldl (fun acc e => u64_add acc (re_message_bytes e)) acc es = acc + index_bytes es.
Proof.
  revert acc. induction es as [|e es IH]; intros acc H H0 Hm; unfold index_bytes in *;
    cbn [foldl foldr] in *; [lia|].
  pose proof (H e ltac:(set_solver)).
  pose proof (index_bytes_nonneg es ltac:(set_solver)) as Hn. unfold index_bytes in Hn.
  rewrite u64_add_small, IH; [lia|set_solver|lia|lia|lia].
Qed.

(** Deleting a prefix of the index keeps the byte counter exact. *)
Lemma delete_prefix_dropped p j :
  log_ok p ->
  dropped j p (upd_write (fun w => subtract_retained_bytes w
      (foldl (fun acc e => u64_add acc (re_message_bytes e)) 0 (take j (p_index p))))
    (remove_entries (take j (p_index p)) p)).
Proof.
  intros Hok. rewrite remove_prefix by done.
  unfold dropped, upd_write, subtract_retained_bytes, counter_exact.
  cbn [p_log p_index p_tail p_write]. split_and!; try done; [by case_match; [|case_match]|].
  intros (Hnn & Hmax & Heq).
  pose proof (take_drop j (p_index p)) as Htd.
  assert (index_bytes (p_index p) = index_bytes (take j (p_index p)) +
                                    index_bytes (drop j (p_index p))) as Hsum
    by (by rewrite <-index_bytes_app, Htd).
  assert (forall e, e ∈ take j (p_index p) -> 0 <= re_message_bytes e) as Hn1.
  { intros e He. apply Hnn. rewrite <-Htd. set_solver. }
  assert (forall e, e ∈ drop j (p_index p) -> 0 <= re_message_bytes e) as Hn2.
  { intros e He. apply Hnn. rewrite <-Htd. set_solver. }
  pose proof (index_bytes_nonneg _ Hn1). pose proof (index_bytes_nonneg _ Hn2).
  rewrite freed_sum by (done || lia). rewrite Z.add_0_l. split_and!; [done|lia|].
  destruct (index_bytes (take j (p_index p)) =? 0) eqn:E; zbool; [lia|].
  destruct (retained_bytes (p_write p)); unfold set_retained_bytes, saturating_sub in *;
    simpl in *; lia.
Qed.

(** The chunk loop deletes exactly the given prefix of the index. *)
Lemma delete_chunks_spec fuel j p stats n st' p' n' :
  log_ok p -> (j <= length (p_index p))%nat -> (j <= fuel)%nat ->
  0 <= messages_deleted stats ->
  messages_deleted stats + Z.of_nat (length (p_index p)) <= u64_max ->
  delete_chunks env fuel (take j (p_index p)) stats n p = (Ok st', p', n') ->
  dropped j p p' /\ messages_deleted st' = messages_deleted stats + Z.of_nat j.
Proof.
  revert j p stats n. induction fuel as [|fuel IH]; intros j p stats n Hok Hj Hf H0 Hmax.
  { assert (j = 0%nat) as -> by lia. cbn [take]. destruct (p_index p); intros [= <- <- <-];
      (split; [apply dropped_refl|simpl; lia]). }
  destruct (decide (j = 0%nat)) as [->|Hj0].
  { cbn [take delete_chunks]. intros [= <- <- <-]. split; [apply dropped_refl|simpl; lia]. }
  assert (delete_chunks env (S fuel) (take j (p_index p)) stats n p =
    (let! deleted := delete_retention_entries env (take RETENTION_CHUNK (take j (p_index p))) in
     if messages_deleted deleted =? 0 then mret stats
     else do! modify (upd_write (fun w => subtract_retained_bytes w (bytes_freed deleted))) in
       delete_chunks env fuel (drop RETENTION_CHUNK (take j (p_index p)))
          (mkStats (u64_add (messages_deleted stats) (messages_deleted deleted))
                   (u64_add (bytes_freed stats) (bytes_freed deleted)))) n p) as ->.
  { destruct (take j (p_index p)) eqn:E; [|done].
    apply (f_equal length) in E. rewrite length_take in E. simpl in E. lia. }
  rewrite take_take. set (c := (RETENTION_CHUNK `min` j)%nat).
  assert (0 < c <= j)%nat as Hc by (unfold c, RETENTION_CHUNK; lia).
  unfold delete_retention_entries, storage_write, mbind. destruct (io_ok env n); [|done].
  cbn [mret messages_deleted bytes_freed modify]. rewrite length_take, Nat.min_l by lia.
  rewrite (proj2 (Z.eqb_neq _ _)) by lia.
  pose proof (delete_prefix_dropped p c Hok) as Hd.
  set (q := upd_write _ _) in *.
  rewrite skipn_firstn_comm. replace (j - RETENTION_CHUNK)%nat with (j - c)%nat by (unfold c; lia).
  intros Hrec. rewrite u64_add_small in Hrec by lia.
  assert (drop RETENTION_CHUNK (p_index p) = drop c (p_index p) \/ j = c) as Hdrop.
  { unfold c. destruct (decide (RETENTION_CHUNK <= j)%nat); [left; f_equal; lia|right; lia]. }
  assert (take (j - c) (drop RETENTION_CHUNK (p_index p)) = take (j - c) (p_index q)) as Htk.
  { destruct Hd as (_ & Hqi & _). rewrite Hqi.
    destruct Hdrop as [-> |Hjc]; [done|]. by replace (j - c)%nat with 0%nat by lia. }
  rewrite Htk in Hrec.
  assert (length (p_index q) = (length (p_index p) - c)%nat) as Hlen.
  { destruct Hd as (_ & -> & _). apply length_drop. }
  apply IH in Hrec as [Hd2 Hm]; cbn [messages_deleted] in *.
  - split; [|lia]. replace j with (c + (j - c))%nat by lia. by eapply dropped_trans.
  - by eapply dropped_log_ok.
  - lia.
  - lia.
  - lia.
  - lia.
Qed.

Lemma take_older_prefix c l :
  exists j, take_older c l = take j l /\ (j <= length l)%nat /\
    (forall e, l !! j = Some e -> c <= re_timestamp_ms e).
Proof.
  induction l as [|e l (j & Hj & Hl & Hn)]; [by exists 0%nat|]. cbn [take_older].
  destruct (re_timestamp_ms e <? c) eqn:E; zbool.
  - exists (S j). cbn [take length]. rewrite Hj. split_and!; [done|lia|]. exact Hn.
  - exists 0%nat. split_and!; [done|lia|]. intros e' [= <-]. done.
Qed.

Lemma select_entries_prefix r mb sel l :
  exists j, select_entries r mb sel l = take j l /\ (j <= length l)%nat /\
    (l ≠ [] -> (0 < j)%nat).
Proof.
  revert sel. induction l as [|e l IH]; intros sel; [by exists 0%nat|]. cbn [select_entries].
  destruct (_ <=? _); [exists 1%nat; cbn [take length]; rewrite take_0; split_and!; [done|lia|lia]|].
  destruct (IH (saturating_add sel (re_message_bytes e))) as (j & -> & Hj & _).
  exists (S j). cbn [take length]. split_and!; [done|lia|lia].
Qed.

Lemma delete_batch_spec j p stats n st' p' n' :
  log_ok p -> (j <= length (p_index p))%nat -> 0 <= messages_deleted stats ->
  messages_deleted stats + Z.of_nat (length (p_index p)) <= u64_max ->
  delete_retention_batch env (take j (p_index p)) stats n p = (Ok st', p', n') ->
  dropped j p p' /\ messages_deleted st' = messages_deleted stats + Z.of_nat j.
Proof.
  intros Hok Hj H0 Hmax. unfold delete_retention_batch. apply delete_chunks_spec; try done.
  rewrite length_take. lia.
Qed.

Lemma retained_bytes_spec n p r p' n' :
  retained_bytes_without_blocking_publish env n p = (Ok r, p', n') ->
  dropped 0 p p' /\ (counter_exact p -> r = index_bytes (p_index p)).
Proof.
  unfold retained_bytes_without_blocking_publish, load_retained_bytes, mbind, gets, storage_read,
    modify, mret.
  destruct (retained_bytes (p_write p)) as [b|] eqn:E.
  - rewrite E. intros [= <- <- <-]. split; [apply dropped_refl|]. intros (_ & _ & H).
    by rewrite E in H.
  - destruct (io_ok env n); [|done]. intros [= <- <- <-]. cbn [upd_write p_write]. rewrite E.
    assert (counter_exact p -> wrap64 (index_bytes (p_index p)) = index_bytes (p_index p)) as Hw.
    { intros (_ & _ & H). rewrite E in H. simpl in H. rewrite <-H. done. }
    split; [|exact Hw]. split; [done|split; [done|split; [done|split]]]; [by cbn; rewrite E|].
    intros He. specialize (Hw He). destruct He as (H1 & H2 & _).
    split; [exact H1|]. split; [exact H2|]. cbn. rewrite E. exact Hw.
Qed.

(** The byte loop deletes the oldest messages until the rest fits or the batch is used up. *)
Lemma byte_retention_spec fuel mb batch p stats n st' p' n' :
  log_ok p -> 0 <= messages_deleted stats <= batch -> 0 <= mb ->
  messages_deleted stats + Z.of_nat (length (p_index p)) <= u64_max ->
  batch - messages_deleted stats <= Z.of_nat fuel ->
  byte_retention env fuel mb batch stats n p = (Ok st', p', n') ->
  exists k, dropped k p p' /\ (k <= length (p_index p))%nat /\
    messages_deleted st' = messages_deleted stats + Z.of_nat k /\ messages_deleted st' <= batch /\
    (counter_exact p -> messages_deleted st' = batch \/ index_bytes (p_index p') <= mb).
Proof.
  revert p stats n. induction fuel as [|fuel IH]; intros p stats n Hok Hd Hmb Hmax Hf;
    cbn [byte_retention].
  { intros [= <- <- <-]. exists 0%nat. split_and!; try lia. apply dropped_refl. }
  destruct (_ <? batch) eqn:Eb; zbool; cycle 1.
  { intros [= <- <- <-]. exists 0%nat. split_and!; try lia. apply dropped_refl. }
  unfold mbind at 1.
  destruct (retained_bytes_without_blocking_publish env n p) as [[[r|e] q] n1] eqn:El; [|done].
  apply retained_bytes_spec in El as [Hdq Hr]. pose proof (dropped_log_ok _ _ _ Hok Hdq) as Hokq.
  pose proof Hdq as (_ & Hqi & _ & _ & Hex). rewrite drop_0 in Hqi.
  destruct (r <=? mb) eqn:Er; zbool.
  { intros [= <- <- <-]. exists 0%nat. split_and!; try lia; [done|]. intros He. right.
    rewrite Hqi, <-Hr; done. }
  unfold mbind at 1, storage_read. destruct (io_ok env n1); [|done].
  set (rem := Z.to_nat (batch - messages_deleted stats)).
  destruct (take rem (p_index q)) as [|e0 es] eqn:Et.
  { intros [= <- <- <-]. 
    assert (p_index q = []) as Hnil.
    { destruct (p_index q); [done|]. destruct rem eqn:Erem; [unfold rem in Erem; lia|done]. }
    exists 0%nat.
    split_and!; try lia.
    - split_and!; try apply Hdq. intros He. unfold counter_exact. simpl. rewrite Hnil.
      split_and!; [set_solver|done|done].
    - intros _. right. simpl. rewrite Hnil. simpl. lia. }
  rewrite <-Et. destruct (select_entries_prefix r mb 0 (take rem (p_index q)))
    as (j & Hsel & Hj & Hj0). rewrite length_take in Hj.
  rewrite Hsel, take_take, Nat.min_l by lia. unfold mbind at 1.
  destruct (delete_retention_batch env _ stats (S n1) q) as [[[st1|e] q1] n2] eqn:Edel; [|done].
  apply delete_batch_spec in Edel as [Hd1 Hm1]; [|done|lia|lia|rewrite Hqi; lia].
  specialize (Hj0 ltac:(by rewrite Et)).
  rewrite (proj2 (Z.eqb_neq _ _)) by lia. intros Hrec.
  assert (length (p_index q1) = (length (p_index q) - j)%nat) as Hlen.
  { destruct Hd1 as (_ & -> & _). apply length_drop. }
  rewrite Hqi in Hlen, Hj.
  apply IH in Hrec as (k & Hk & Hkl & Hmk & Hle & Hdone); try lia;
    [|by eapply dropped_log_ok].
  exists (j + k)%nat. split_and!; try lia.
  - eapply (dropped_trans j k p q1); [|done]. by eapply (dropped_trans 0 j p q).
  - intros He. apply Hdone. by apply Hd1, Hex.
Qed.

(** *** Trimming the tail after retention *)

Lemma pop_below_spec e s b ms s' b' ms' :
  consecutive s ms -> b = payload_bytes ms -> 0 <= s -> s + Z.of_nat (length ms) <= u64_max ->
  pop_below e s b ms = (s', b', ms') ->
  exists i, ms' = drop i ms /\ (i <= length ms)%nat /\ s' = s + Z.of_nat i /\
    b' = payload_bytes ms' /\ consecutive s' ms' /\ (ms' ≠ [] -> e <= s').
Proof.
  revert s b. induction ms as [|m ms IH]; intros s b Hc -> Hs Hmax; cbn [pop_below].
  { intros [= <- <- <-]. exists 0%nat. rewrite Z.add_0_r. by split_and!. }
  destruct Hc as [Hm Hc]. cbn [length] in Hmax. destruct (e <=? _) eqn:E; zbool.
  - intros [= <- <- <-]. exists 0%nat. rewrite Z.add_0_r. split_and!; try done; lia.
  - rewrite saturating_add_small by lia. intros Hp.
    apply IH in Hp as (i & -> & Hi & -> & Hb & Hc' & He).
    + exists (S i). cbn [length drop]. split_and!; try done; lia.
    + by rewrite Hm.
    + unfold saturating_sub, payload_bytes. cbn [foldr]. fold (payload_bytes ms).
      pose proof (payload_bytes_nonneg ms). unfold payload_len in *. lia.
    + lia.
    + lia.
Qed.

Lemma trim_below_ok log t e :
  tail_ok log t -> (forall m, m ∈ log -> 0 <= tm_offset m < u64_max) ->
  tail_ok (filter (fun m => e <= tm_offset m) log) (trim_below t e).
Proof.
  intros [Hnil|(Hm & Hc & He & Hb & Hlen & Hcap)] Hr; unfold trim_below.
  { rewrite Hnil. simpl. by left. }
  destruct (tail_messages t) as [|x0 ms0] eqn:Ems; [simpl; by left|]. rewrite <-Ems in *.
  assert (0 <= tail_start t /\ tail_start t + Z.of_nat (length (tail_messages t)) <= u64_max)
    as [Hs Hmax].
  { assert (forall m, m ∈ tail_messages t -> 0 <= tm_offset m < u64_max) as Hin.
    { intros m. rewrite Hm. intros [_ Hx]%list_elem_of_filter. auto. }
    rewrite Ems in *. destruct Hc as [Hx0 Hc].
    pose proof (Hin x0 ltac:(set_solver)). split; [lia|].
    destruct (last (x0 :: ms0)) as [l|] eqn:El; [|by apply last_None in El].
    apply last_Some in El as (pre & El). rewrite El in *.
    assert (consecutive (tail_start t) (pre ++ [l])) as Hc2 by (rewrite <-El; by split).
    apply consecutive_app in Hc2 as [_ [Hl _]].
    pose proof (Hin l ltac:(set_solver)). rewrite length_app. simpl. lia. }
  destruct (pop_below e (tail_start t) (tail_bytes t) (tail_messages t)) as [[s' b'] ms'] eqn:E.
  apply pop_below_spec in E as (i & Hms & Hi & -> & Hb' & Hc' & Hge); [|done|done|done|done].
  destruct ms' as [|y ms']; [by left|]. right. cbn [tail_messages tail_start tail_end tail_bytes].
  assert (Z.of_nat (length (y :: ms')) = Z.of_nat (length (tail_messages t)) - Z.of_nat i) as Hl
    by (rewrite Hms, length_drop; lia).
  split_and!; [|done|lia|done|lia|].
  - rewrite filter_ge_mono by (by apply Hge).
    rewrite Hms, <-(consecutive_filter_drop (tail_start t)) by done. rewrite Hm at 1.
    by rewrite filter_ge_mono by lia.
  - rewrite Hb', Hms. rewrite Hb, <-(take_drop i (tail_messages t)), payload_bytes_app in Hcap.
    rewrite <-(take_drop i (tail_messages t)) in Hb.
    pose proof (payload_bytes_nonneg (take i (tail_messages t))). lia.
Qed.

(** The age pass: entries older than the cutoff among the first [batch]. *)
Lemma age_pass_spec c batch ts n p st p' n' :
  part_ok ts p -> 0 < batch ->
  mbind (storage_read env (fun p => take_older c (take (Z.to_nat batch) (p_index p))))
    (fun es => delete_retention_batch env es (mkStats 0 0)) n p = (Ok st, p', n') ->
  exists k, dropped k p p' /\ (k <= length (p_index p))%nat /\ messages_deleted st = Z.of_nat k /\
    Z.of_nat k <= batch /\ (Z.of_nat k = batch \/ forall m, m ∈ p_log p' -> c <= tm_timestamp_ms m).
Proof.
  intros (Hok & Hn & Ho & _) Hb. unfold mbind, storage_read. destruct (io_ok env n); [|done].
  destruct (take_older_prefix c (take (Z.to_nat batch) (p_index p))) as (j & -> & Hj & Hnext).
  rewrite length_take in Hj. rewrite take_take, Nat.min_l by lia. intros Hdel.
  pose proof Hok as (Hs & Hts & Hi).
  assert (Z.of_nat (length (p_index p)) <= u64_max) as Hlen.
  { rewrite Hi, length_fmap. etransitivity; [apply (sorted_length 0 (next_of p)); done || lia|lia]. }
  apply delete_batch_spec in Hdel as [Hd Hm]; [|done|lia|done|done]. exists j.
  cbn [messages_deleted] in Hm. split_and!; [done|lia|lia|lia|].
  destruct (decide (Z.of_nat j = batch)) as [?|Hne]; [by left|right].
  destruct Hd as (Hl & _). rewrite Hl. intros m Hin.
  destruct (drop j (p_log p)) as [|x rest] eqn:Edrop; [by apply elem_of_nil in Hin|].
  assert (c <= tm_timestamp_ms x) as Hx.
  { apply (Hnext (entry_of x)). rewrite lookup_take_lt by lia. rewrite Hi, list_lookup_fmap.
    rewrite <-(Nat.add_0_r j), <-lookup_drop, Edrop. done. }
  apply (sorted_drop _ j) in Hts. rewrite Edrop in Hts.
  apply StronglySorted_inv in Hts as [_ Hf]. rewrite Forall_forall in Hf.
  apply elem_of_cons in Hin as [->|Hin]; [done|]. specialize (Hf m Hin). lia.
Qed.

(** The remaining log is what lies at or after the new start. *)
Lemma drop_is_filter k p e :
  log_ok p -> (forall m, m ∈ drop k (p_log p) -> e <= tm_offset m) ->
  (forall m, m ∈ take k (p_log p) -> tm_offset m < e) ->
  drop k (p_log p) = filter (fun m => e <= tm_offset m) (p_log p).
Proof.
  intros Hok H1 H2. symmetry. apply filter_suffix; intros x Hx; [|by apply H1].
  specialize (H2 x Hx). lia.
Qed.

Lemma store_earliest_head l :
  (forall m, m ∈ l -> 0 <= tm_offset m) -> store_earliest_offset l = tm_offset <$> head l.
Proof.
  intros H. unfold store_earliest_offset, store_fetch_messages. rewrite filter_ge_all by done.
  by destruct l.
Qed.

(** After deletions, adjusting the start of the log and of the tail restores the invariant. *)
Lemma settle_tail ts k p p' :
  part_ok ts p -> dropped k p p' ->
  let start := default (next_of p') (store_earliest_offset (p_log p')) in
  part_ok ts (upd_tail (fun t => trim_below t start) (upd_write (fun w => set_log_start w start) p')).
Proof.
  intros (Hok & Hn & Ho & Ht & Htl) Hd. pose proof (dropped_log_ok _ _ _ Hok Hd) as Hok'.
  destruct Hd as (Hl & Hi & Htail & Hnext & _).
  assert (next_of p' = next_of p) as Hnx by (unfold next_of; by rewrite Hnext).
  pose proof (take_drop k (p_log p)) as Htd.
  assert (forall m, m ∈ p_log p' -> m ∈ p_log p) as Hsub.
  { intros m Hm. rewrite <-Htd. rewrite Hl in Hm. set_solver. }
  intros start. unfold part_ok, upd_tail, upd_write. cbn [p_log p_index p_tail p_write].
  assert (forall w t l i, next_of (mkPartition (set_log_start w start) t l i) =
                          next_of (mkPartition w t l i)) as Hw.
  { intros. unfold next_of, set_log_start. simpl. by destruct (_ <? _). }
  rewrite Hw. change (next_of (mkPartition (p_write p') _ _ _)) with (next_of p').
  rewrite Hnx. split_and!; try lia; try apply Hok'.
  - intros m Hm. by apply Ho, Hsub.
  - intros m Hm. by apply Ht, Hsub.
  - rewrite Htail, Hl, (drop_is_filter k p start Hok).
    + apply trim_below_ok; [done|]. intros m Hm. specialize (Ho m Hm). lia.
    + intros m Hm. unfold start. rewrite store_earliest_head, Hl.
      * destruct (drop k (p_log p)) as [|x rest] eqn:E; [by apply elem_of_nil in Hm|]. simpl.
        destruct Hok' as (Hs & _). rewrite Hl in Hs. apply StronglySorted_inv in Hs as [_ Hf].
        rewrite Forall_forall in Hf. apply elem_of_cons in Hm as [->|Hm]; [lia|].
        specialize (Hf m Hm). simpl in Hf. lia.
      * intros x Hx. specialize (Ho x (Hsub x Hx)). lia.
    + intros m Hm. unfold start. rewrite store_earliest_head, Hl.
      * destruct (drop k (p_log p)) as [|x rest] eqn:E; simpl.
        -- rewrite Hnx. assert (m ∈ p_log p) as Hin by (rewrite <-Htd; set_solver).
           specialize (Ho m Hin). lia.
        -- apply (take_drop_offsets p k m x Hok Hm). rewrite E. set_solver.
      * intros x Hx. specialize (Ho x (Hsub x Hx)). lia.
Qed.

(** What a completed retention pass does. *)
Definition retention_result (cutoff max_bytes : option Z) (batch : Z) (p p' : Partition)
    (deleted : Z) : Prop :=
  exists k, p_log p' = drop k (p_log p) /\ p_index p' = drop k (p_index p) /\
    deleted = Z.of_nat k /\ deleted <= batch /\ (counter_exact p -> counter_exact p') /\
    (forall c, cutoff = Some c ->
       deleted = batch \/ forall m, m ∈ p_log p' -> c <= tm_timestamp_ms m) /\
    (forall b, max_bytes = Some b -> counter_exact p ->
       deleted = batch \/ index_bytes (p_index p') <= Z.max b 0).

Lemma enforce_retention_spec ts pid parts cutoff mb batch n p st p' n' :
  part_ok ts p -> 0 <= batch ->
  enforce_retention env pid parts cutoff mb batch n p = (Ok st, p', n') ->
  part_ok ts p' /\ retention_result cutoff mb batch p p' (messages_deleted st).
Proof.
  intros Hp Hb0. unfold enforce_retention.
  destruct (batch =? 0) eqn:Eb; [done|]. zbool. destruct (_ <=? pid); [done|].
  pose proof Hp as (Hok & Hn & Ho & Ht & Htl). pose proof Hok as (Hs & Hts & Hi).
  assert (Z.of_nat (length (p_index p)) <= u64_max) as Hlen.
  { rewrite Hi, length_fmap. etransitivity; [apply (sorted_length 0 (next_of p)); done || lia|lia]. }
  (* age pass *)
  set (age := match cutoff with Some _ => _ | None => _ end). unfold mbind at 1.
  destruct (age n p) as [[[st1|e] q] n1] eqn:Eage; [|done].
  assert (exists k, dropped k p q /\ (k <= length (p_index p))%nat /\
    messages_deleted st1 = Z.of_nat k /\ Z.of_nat k <= batch /\
    forall c, cutoff = Some c ->
      Z.of_nat k = batch \/ forall m, m ∈ p_log q -> c <= tm_timestamp_ms m)
    as (k1 & Hd1 & Hk1 & Hm1 & Hle1 & Hage).
  { unfold age in Eage. destruct cutoff as [c|].
    - eapply age_pass_spec in Eage as (k & H1 & H2 & H3 & H4 & H5); [|done|lia].
      exists k. split_and!; try done. intros ? [= <-]. done.
    - injection Eage as <- <- <-. exists 0%nat. split_and!; try done; try lia. }
  pose proof (dropped_log_ok _ _ _ Hok Hd1) as Hokq.
  assert (length (p_index q) = (length (p_index p) - k1)%nat) as Hlq
    by (destruct Hd1 as (_ & -> & _); apply length_drop).
  (* byte pass *)
  set (byte := match mb with Some _ => _ | None => _ end). unfold mbind at 1.
  destruct (byte n1 q) as [[[st2|e] r] n2] eqn:Ebyte; [|done].
  assert (exists k, dropped k q r /\ messages_deleted st2 = Z.of_nat k1 + Z.of_nat k /\
    messages_deleted st2 <= batch /\
    forall b, mb = Some b -> counter_exact q ->
      messages_deleted st2 = batch \/ index_bytes (p_index r) <= Z.max b 0)
    as (k2 & Hd2 & Hm2 & Hle2 & Hbyte).
  { unfold byte in Ebyte. destruct mb as [b|].
    - eapply byte_retention_spec in Ebyte as (k & H1 & H2 & H3 & H4 & H5); [|done|lia..].
      exists k. split_and!; try done; [lia|]. intros ? [= <-]. done.
    - injection Ebyte as <- <- <-. exists 0%nat. split_and!; try done; cbn [messages_deleted] in *; lia. }
  pose proof (dropped_trans _ _ _ _ _ Hd1 Hd2) as Hd.
  assert (forall w t, retention_result cutoff mb batch p
            (mkPartition (set_log_start (p_write r) w) t (p_log r) (p_index r))
            (messages_deleted st2)) as Hres.
  { intros w t. destruct Hd as (Hl & Hix & _ & _ & Hex). exists (k1 + k2)%nat.
    cbn [p_log p_index]. split_and!; try done; [lia| | |].
    - intros He. specialize (Hex He). unfold counter_exact, set_log_start in *. simpl.
      by destruct (_ <? _).
    - intros c Hc. destruct (Hage c Hc) as [?|Hall]; [left; lia|right]. intros m Hm. apply Hall.
      destruct Hd2 as (Hl2 & _). rewrite Hl2 in Hm. rewrite <-(take_drop k2 (p_log q)). set_solver.
    - intros b Hb He. apply Hbyte; [done|]. by apply Hd1. }
  destruct (0 <? messages_deleted st2) eqn:E0; zbool.
  - unfold mbind, storage_read, gets, modify, mret. destruct (io_ok env n2); [|done].
    intros [= <- <- <-]. split; [|apply Hres].
    pose proof (settle_tail ts _ _ _ Hp Hd) as Hset. cbn zeta in Hset.
    unfold default, from_option, next_of in *. destruct (store_earliest_offset (p_log r)); exact Hset.
  - intros [= <- <- <-]. specialize (Hres 0 (p_tail r)).
    assert (k1 = 0%nat /\ k2 = 0%nat) as [-> ->] by lia.
    destruct Hd as (Hl & Hix & Htail & Hnext & Hex). cbn [Nat.add drop] in Hl, Hix. split.
    + unfold part_ok, log_ok, next_of in *. rewrite Hl, Hix, Htail, Hnext. done.
    + destruct Hres as (k & Hres). exists k. cbn [p_log p_index] in Hres.
      destruct Hres as (R1 & R2 & R3 & R4 & R5 & R6 & R7). by split_and!.
Qed.

(** *** Restart *)

Lemma sorted_last l x m :
  StronglySorted by_offset l -> last l = Some x -> m ∈ l -> tm_offset m <= tm_offset x.
Proof.
  intros Hs (pre & ->)%last_Some [Hm| ->%list_elem_of_singleton]%elem_of_app; [|lia].
  apply sorted_app in Hs as (_ & _ & Hs). specialize (Hs m x Hm ltac:(set_solver)). simpl in Hs. lia.
Qed.

Lemma restart_ok ts p : part_ok ts p -> part_ok ts (restore_offset_counters (restart p)).
Proof.
  intros (Hok & Hn & Ho & Ht & _). unfold restore_offset_counters, restore_from, store_latest_offset, restart.
  cbn [p_log]. destruct (last (p_log p)) as [x|] eqn:El; cbn [fmap option_fmap option_map].
  - assert (x ∈ p_log p) as Hx by (apply last_Some in El as (pre & ->); set_solver).
    pose proof (Ho x Hx). rewrite u64_add_small by lia.
    unfold part_ok, next_of. cbn. split_and!; try apply Hok; try lia; [|done|by left].
    intros m Hm. pose proof (sorted_last _ _ m (proj1 Hok) El Hm). specialize (Ho m Hm). lia.
  - apply last_None in El. unfold part_ok, log_ok, next_of. cbn. rewrite El.
    assert (log_ok p) as (_ & _ & Hix) by exact Hok. rewrite El in Hix.
    split_and!; try lia; try apply SSorted_nil; [done|by intros m Hm%elem_of_nil..|by left].
Qed.

(** *** States a partition can reach *)

(** Publishes may fail and the server may restart at any time, with no operation in progress.  A
    retention pass is one step and succeeds: one that fails after it deleted messages leaves the
    tail as it was, see [failed_retention_serves_deleted].  Offsets stay below [u64::MAX]; payload
    lengths are those of a Rust [Vec]. *)
Inductive reachable : nat -> Partition -> Prop :=
| reach_new n : reachable n partition_new
| reach_publish n p k pl key user op r p' n' :
    reachable n p -> next_of p + 1 <= u64_max -> Z.of_nat (length pl) <= i64_max ->
    publish_one encoded_len env k pl key user op n p = (r, p', n') -> reachable n' p'
| reach_batch n p k enc user op r p' n' :
    reachable n p -> next_of p + Z.of_nat (length enc) <= u64_max ->
    Forall (fun e => Z.of_nat (length e.1) <= i64_max) enc ->
    publish_group encoded_len env k (clock env n) enc user op (S n) p = (r, p', n') ->
    reachable n' p'
| reach_retention n p pid parts cutoff mb batch st p' n' :
    reachable n p -> 0 <= batch -> (n <= n')%nat ->
    enforce_retention env pid parts cutoff mb batch n p = (Ok st, p', n') -> reachable n' p'
| reach_restart n p :
    reachable n p -> reachable n (restore_offset_counters (restart p)).

Definition clock_monotone : Prop := forall i j, (i <= j)%nat -> clock env i <= clock env j.

Lemma part_ok_weaken ts ts' p : part_ok ts p -> ts <= ts' -> part_ok ts' p.
Proof.
  intros (? & ? & ? & Ht & ?) Hle. split_and!; try apply H; try apply H0; try done.
  intros m Hm. specialize (Ht m Hm). lia.
Qed.

Lemma reachable_ok n p : clock_monotone -> reachable n p -> part_ok (clock env n) p.
Proof.
  intros Hclk. induction 1 as [n|n p k pl key user op r p' n' _ IH Hmax Hpl Hrun
    |n p k enc user op r p' n' _ IH Hmax Hpl Hrun|n p pid parts cutoff mb batch st p' n' _ IH Hb Hnn Hrun
    |n p _ IH].
  - unfold part_ok, log_ok, next_of. cbn.
    split_and!; try done; try apply SSorted_nil; [by intros m Hm%elem_of_nil..|by left].
  - rewrite (publish_one_cases (clock env n)) in Hrun by (done || lia). cbn zeta in Hrun.
    destruct (io_ok env (S n)); injection Hrun as <- <- <-.
    + eapply part_ok_weaken; [|apply (Hclk n); lia].
      apply (published_ok (clock env n)); try done; [by intros ? ->%list_elem_of_singleton|].
      by constructor.
    + eapply (part_ok_next (clock env n) _ p); [done|apply Hclk; lia|cbn].
      destruct IH as (_ & ? & _). lia.
  - assert (part_ok (clock env n) p /\ 0 <= next_of p) as [_ Hn0]
      by (split; [done|]; destruct IH as (_ & ? & _); lia).
    rewrite (publish_group_cases (clock env n)) in Hrun by (done || lia). cbn zeta in Hrun.
    destruct (number_messages_consecutive k (clock env n) (next_of p) user op enc Hn0 Hmax)
      as (Hc & Hm & Hlen & _).
    destruct (io_ok env (S n)); injection Hrun as <- <- <-.
    + eapply part_ok_weaken; [|apply (Hclk n); lia].
      apply (published_ok (clock env n)); try done; [intros m Hin; by apply Hm| |by rewrite Hlen].
      apply Forall_forall. intros m (_ & e & He & Hp & _)%Hm. rewrite Forall_forall in Hpl.
      unfold payload_ok, payload_len. rewrite Hp. by apply Hpl.
    + eapply (part_ok_next (clock env n) _ p); [done|apply Hclk; lia|cbn]. lia.
  - eapply enforce_retention_spec in Hrun as [Hok _]; [|done|done].
    eapply part_ok_weaken; [exact Hok|]. by apply Hclk.
  - by apply restart_ok.
Qed.

End Invariant.

(** ** Runs without storage failures *)

Definition healthy (env : Env) : Prop := forall n, io_ok env n = true.

(** [m] always returns a value. *)
Definition total {A} (m : M Partition A) : Prop :=
  forall n p, exists a p' n', m n p = (Ok a, p', n').

Lemma total_bind {A B} (m : M Partition A) (k : A -> M Partition B) :
  total m -> (forall a, total (k a)) -> total (mbind m k).
Proof.
  intros Hm Hk n p. unfold mbind. destruct (Hm n p) as (a & p' & n' & ->). apply Hk.
Qed.

Lemma total_ret {A} (a : A) : total (mret a).
Proof. intros n p. unfold mret. eauto. Qed.

Lemma total_gets {A} (f : Partition -> A) : total (gets f).
Proof. intros n p. unfold gets. eauto. Qed.

Lemma total_modify f : total (@modify Partition f).
Proof. intros n p. unfold modify. eauto. Qed.

Lemma total_read {A} env (f : Partition -> A) : healthy env -> total (storage_read env f).
Proof. intros H n p. unfold storage_read. rewrite H. eauto. Qed.

Lemma total_write env (f : Partition -> Partition) : healthy env -> total (storage_write env f).
Proof. intros H n p. unfold storage_write. rewrite H. eauto. Qed.

#[local] Hint Resolve total_bind total_ret total_gets total_modify total_read total_write : kalam.

Lemma total_chunks env fuel es st : healthy env -> total (delete_chunks env fuel es st).
Proof.
  intros He. revert es st. induction fuel as [|fuel IH]; intros [|e es] st; cbn [delete_chunks];
    try apply total_ret.
  apply total_bind; [unfold delete_retention_entries; auto with kalam|].
  intros d. case_match; auto with kalam.
Qed.

Lemma total_retained env : healthy env -> total (retained_bytes_without_blocking_publish env).
Proof.
  intros He. apply total_bind; [apply total_gets|]. intros [?|].
  - apply total_bind; [apply total_gets|]. intros [?|]; auto with kalam.
  - apply total_bind; [by apply total_read|]. auto with kalam.
Qed.

Lemma total_bytes env fuel mb batch st : healthy env -> total (byte_retention env fuel mb batch st).
Proof.
  intros He. revert st. induction fuel as [|fuel IH]; intros st; cbn [byte_retention];
    [apply total_ret|]. case_match; [|apply total_ret].
  apply total_bind; [by apply total_retained|].
  intros r. case_match; [apply total_ret|]. apply total_bind; [by apply total_read|].
  intros [|e es]; [auto with kalam|]. apply total_bind; [by apply total_chunks|].
  intros st'. case_match; [apply total_ret|apply IH].
Qed.

Lemma enforce_retention_total env pid parts cutoff mb batch n p :
  healthy env -> 0 < batch -> pid < parts ->
  exists st p' n', enforce_retention env pid parts cutoff mb batch n p = (Ok st, p', n').
Proof.
  intros He Hb Hp. unfold enforce_retention.
  rewrite (proj2 (Z.eqb_neq _ _)), (proj2 (Z.leb_gt _ _)) by lia.
  match goal with |- exists st p' n', ?m n p = _ => assert (total m) as Ht end; [|apply Ht].
  apply total_bind.
  { destruct cutoff; [|apply total_ret]. apply total_bind; [by apply total_read|].
    intros es. by apply total_chunks. }
  intros st. apply total_bind; [destruct mb; [by apply total_bytes|apply total_ret]|].
  intros st'. case_match; [|apply total_ret]. apply total_bind; [by apply total_read|].
  intros e. auto with kalam.
Qed.

(** ** Properties *)

(** C30. Reads are served from the in-memory tail or from the store, and do not differ: in every
    state a partition reaches by publishes and batches (which may fail), restarts and retention passes
    that succeed, one operation at a time and with a clock that does not go back, a
    [load_messages] whose store access succeeds returns exactly the stored messages from the
    requested offset, up to the limit. (A retention pass that fails midway breaks this, see
    [failed_retention_serves_deleted].) *)
Theorem load_messages_reads_the_log encoded_len env n p offset limit m :
  clock_monotone env -> reachable encoded_len env n p -> 0 <= limit -> io_ok env m = true ->
  exists m', load_messages env offset limit m p =
             (Ok (store_fetch_messages (p_log p) offset limit), p, m').
Proof.
  intros Hclk Hr Hl Hio. destruct (reachable_ok _ _ _ _ Hclk Hr) as (_ & _ & _ & _ & Ht).
  unfold load_messages, mbind, gets, mret, storage_read.
  destruct (tail_fetch (p_tail p) offset limit) as [r|] eqn:E.
  - apply (tail_fetch_store (p_log p)) in E as ->; [eauto|done|done].
  - rewrite Hio. eauto.
Qed.

(** A publish that succeeds returns an offset above every offset of the partition, stores
    the message there after everything already stored, and one that fails stores nothing and
    leaves that offset unused for ever; a batch gets one run of consecutive offsets. *)
Theorem publish_appends encoded_len env n p k payload key user op enc ts :
  clock_monotone env -> reachable encoded_len env n p ->
  next_of p + 1 + Z.of_nat (length enc) <= u64_max -> ts = clock env n ->
  (forall r p' n', publish_one encoded_len env k payload key user op n p = (r, p', n') ->
     next_of p' = next_of p + 1 /\ (forall x, x ∈ p_log p -> tm_offset x < next_of p) /\
     match r with
     | Ok o => o = next_of p /\ exists m, p_log p' = p_log p ++ [m] /\ tm_offset m = o /\
                 tm_payload m = payload /\ store_fetch_messages (p_log p') o 1 = [m]
     | Err _ => p_log p' = p_log p
     end) /\
  (forall r p' n', publish_group encoded_len env k ts enc user op n p = (r, p', n') ->
     next_of p' = next_of p + Z.of_nat (length enc) /\
     match r with
     | Ok c => c = Z.of_nat (length enc) /\ exists ms, p_log p' = p_log p ++ ms /\
                 consecutive (next_of p) ms /\ (tm_payload <$> ms) = (fst <$> enc)
     | Err _ => p_log p' = p_log p
     end).
Proof.
  intros Hclk Hr Hmax ->. pose proof (reachable_ok _ _ _ _ Hclk Hr) as Hp.
  pose proof Hp as (_ & Hn & Ho & _).
  assert (forall ms b, next_of (published encoded_len p ms b) = next_of p + Z.of_nat (length ms))
    as Hnext.
  { intros ms b. unfold next_of at 1, published, add_retained_bytes. cbn. by destruct (b =? 0). }
  split; intros r p' n' Hrun.
  - rewrite (publish_one_cases _ _ (clock env n)) in Hrun by (done || lia). cbn zeta in Hrun.
    destruct (io_ok env (S n)); injection Hrun as <- <- <-.
    + rewrite Hnext. split_and!; [done|intros x Hx; by apply Ho|done|]. eexists.
      split_and!; [done|done|done|]. unfold store_fetch_messages, published. cbn [p_log].
      rewrite filter_app, filter_ge_none by (intros x Hx; by apply Ho).
      rewrite filter_ge_all; [done|]. intros x ->%list_elem_of_singleton. cbn. lia.
    + split_and!; [done|intros x Hx; by apply Ho|done].
  - rewrite (publish_group_cases _ _ (clock env n)) in Hrun by (done || lia). cbn zeta in Hrun.
    destruct (number_messages_consecutive encoded_len k (clock env n) (next_of p) user op enc
                ltac:(lia) ltac:(lia)) as (Hc & _ & Hlen & Hpl).
    destruct (io_ok env n); injection Hrun as <- <- <-; [|done].
    rewrite Hnext, Hlen. split_and!; [done|done|]. eexists. by split_and!.
Qed.

(** Retention removes the oldest messages first and stops at its limits: with working
    storage and an exact byte counter a pass returns, drops a prefix of the log (at most
    [batch_size] messages), and unless the batch was used up nothing older than the cutoff is
    left and the retained bytes are within the limit.  The counter stays exact. *)
Theorem retention_meets_limits encoded_len env n p pid parts cutoff max_bytes batch_size :
  clock_monotone env -> healthy env -> reachable encoded_len env n p -> counter_exact p ->
  0 < batch_size -> pid < parts ->
  exists st p' n' k,
    enforce_retention env pid parts cutoff max_bytes batch_size n p = (Ok st, p', n') /\
    p_log p' = drop k (p_log p) /\ messages_deleted st = Z.of_nat k /\
    Z.of_nat k <= batch_size /\ counter_exact p' /\
    (Z.of_nat k = batch_size \/
     (forall c m, cutoff = Some c -> m ∈ p_log p' -> c <= tm_timestamp_ms m) /\
     (forall b, max_bytes = Some b -> index_bytes (p_index p') <= Z.max b 0)).
Proof.
  intros Hclk He Hr Hex Hb Hp. pose proof (reachable_ok _ _ _ _ Hclk Hr) as Hok.
  destruct (enforce_retention_total env pid parts cutoff max_bytes batch_size n p He Hb Hp)
    as (st & p' & n' & Hrun). exists st, p', n'.
  destruct (enforce_retention_spec encoded_len env _ pid parts cutoff max_bytes batch_size
              n p st p' n' Hok ltac:(lia) Hrun) as (_ & k & H1 & H2 & H3 & H4 & H5 & H6 & H7).
  exists k. split_and!; try done; [lia|auto|].
  destruct (decide (Z.of_nat k = batch_size)) as [?|Hne]; [by left|right]. split.
  - intros c m Hc. destruct (H6 c Hc); [lia|auto].
  - intros b Hmb. destruct (H7 b Hmb Hex); [lia|done].
Qed.

(** A partition emptied by retention starts again at offset 0 after a restart: the next
    offset is derived from the latest stored message only, so the next publish returns 0 however
    many offsets were assigned before, while a partition that still holds a message continues
    above it.  When reading that message fails, the next publish returns 0 as well, whatever the
    partition holds. *)
Theorem restart_after_full_retention_reuses_offsets encoded_len env n p k payload key user op :
  part_ok encoded_len (clock env n) p -> io_ok env (S n) = true ->
  (p_log p = [] ->
   exists p' n', publish_one encoded_len env k payload key user op n
                   (restore_offset_counters (restart p)) = (Ok 0, p', n')) /\
  (forall x, x ∈ p_log p -> tm_offset x < next_of (restore_offset_counters (restart p))) /\
  (forall e, exists p' n', publish_one encoded_len env k payload key user op n
                             (restore_from (Err e) (restart p)) = (Ok 0, p', n')).
Proof.
  intros Hp Hio. pose proof (restart_ok _ _ _ Hp) as (Hok & Hn & Ho & Ht & Htl). split_and!.
  - intros Hnil.
    assert (next_of (restore_offset_counters (restart p)) = 0) as Hz.
    { unfold restore_offset_counters, restore_from, store_latest_offset, restart. cbn [p_log]. by rewrite Hnil. }
    rewrite (publish_one_cases _ _ (clock env n)).
    + cbn zeta. rewrite Hio, Hz. eauto.
    + by apply restart_ok.
    + rewrite Hz. done.
    + done.
  - intros x Hx. apply Ho. revert Hx. unfold restore_offset_counters, restore_from, store_latest_offset, restart.
    cbn [p_log]. by destruct (last (p_log p)).
  - intros e. unfold publish_one, allocate_m, put_message_with_retention_index, storage_write,
      read_clock, modify, mret, mbind. cbn. rewrite Hio. eauto.
Qed.

(** After a restart the byte counter counts from zero: the first publish sets it to the size
    of that message alone, whatever the store already holds, and a byte-retention pass whose
    limit covers that message deletes nothing even when the stored bytes exceed the limit. *)
Theorem restart_forgets_retained_bytes encoded_len env n p k payload key user op b batch pid parts :
  part_ok encoded_len (clock env n) p -> healthy env -> next_of p + 2 <= u64_max ->
  0 < batch -> pid < parts ->
  exists o m p1 n1,
    publish_one encoded_len env k payload key user op n (restore_offset_counters (restart p)) =
      (Ok o, p1, n1) /\
    p_log p1 = p_log p ++ [m] /\
    (0 < encoded_len m <= b -> b <= u64_max ->
     exists n2, enforce_retention env pid parts None (Some b) batch n1 p1 =
                  (Ok (mkStats 0 0), p1, n2)).
Proof.
  intros Hp He Hmax Hb Hpid. set (q := restore_offset_counters (restart p)).
  pose proof (restart_ok _ _ _ Hp) as Hq. fold q in Hq.
  assert (p_log q = p_log p /\ retained_bytes (p_write q) = None) as [Hlq Hrq].
  { unfold q, restore_offset_counters, restore_from, store_latest_offset, restart. cbn [p_log].
    by destruct (last (p_log p)). }
  assert (next_of q <= next_of p) as Hnq.
  { destruct Hp as (_ & Hn & Ho & _).
    unfold q, restore_offset_counters, restore_from, store_latest_offset, restart, next_of. cbn [p_log].
    destruct (last (p_log p)) as [x|] eqn:El; cbn; [|unfold next_of in Hn; lia].
    assert (x ∈ p_log p) as Hx by (apply last_Some in El as (pre & ->); set_solver).
    pose proof (Ho x Hx). unfold next_of in *. rewrite u64_add_small; lia. }
  clearbody q. eexists _, _, _, _. split_and!.
  - rewrite (publish_one_cases _ _ (clock env n)); [|done|lia|done]. cbn zeta. by rewrite (He (S n)).
  - unfold published. cbn [p_log]. by rewrite Hlq.
  - intros Hlen Hbm. eexists. unfold enforce_retention.
    rewrite (proj2 (Z.eqb_neq _ _)), (proj2 (Z.leb_gt _ _)) by lia.
    unfold mbind at 1. cbn [mret]. unfold mbind at 1.
    destruct (Z.to_nat batch) as [|fuel] eqn:Ef; [lia|]. cbn [byte_retention messages_deleted].
    rewrite (proj2 (Z.ltb_lt _ _)) by lia.
    unfold mbind at 1. unfold load_retained_bytes, mbind at 1, gets, published, add_retained_bytes.
    cbn [p_write]. rewrite (proj2 (Z.eqb_neq _ _)) by lia. cbn [set_retained_bytes retained_bytes].
    cbn. rewrite Hrq. cbn. rewrite saturating_add_small by lia.
    rewrite (proj2 (Z.leb_le _ _)) by lia. done.
Qed.

(** ** Witnesses *)

(** The second storage access fails (access numbers count clock readings too); every message is
    encoded in 100 bytes. *)
Definition w_env : Env := mkEnv (fun n => negb (Nat.eqb n 3)) (fun n => 1000 + Z.of_nat n).
Definition w_ok_env : Env := mkEnv (fun _ => true) (fun n => 1000 + Z.of_nat n).
Definition w_len (_ : TopicMessage) : Z := 100.
Definition w_key : TopicPartitionKey := mkTP "orders" 0.

Definition w_publish (env : Env) (n : nat) (p : Partition) :=
  publish_one w_len env w_key [1; 2; 3] None None OpInsert n p.
Definition end_state {A} (r : Result TopicError A * Partition * nat) : Partition := r.1.2.
Definition end_tick {A} (r : Result TopicError A * Partition * nat) : nat := r.2.

(** Offsets 0 and 2 are stored, the publish of offset 1 failed. *)
Definition w_run0 := w_publish w_env 0 partition_new.
Definition w_run1 := w_publish w_env (end_tick w_run0) (end_state w_run0).
Definition w_run2 := w_publish w_env (end_tick w_run1) (end_state w_run1).

Lemma w_clock_monotone env : (forall n, clock env n = 1000 + Z.of_nat n) -> clock_monotone env.
Proof. intros H i j Hij. rewrite !H. lia. Qed.

Lemma w_reach_publish env n p :
  reachable w_len env n p -> next_of p + 1 <= u64_max ->
  reachable w_len env (end_tick (w_publish env n p)) (end_state (w_publish env n p)).
Proof.
  intros Hr Hmax. apply (reach_publish w_len env n p w_key [1; 2; 3] None None OpInsert
    ((w_publish env n p).1.1)); [done|done|done|].
  unfold end_tick, end_state. change (publish_one _ _ _ _ _ _ _ _ _) with (w_publish env n p).
  destruct (w_publish env n p) as [[r p'] n']. reflexivity.
Qed.

Lemma w_reachable2 : reachable w_len w_env (end_tick w_run2) (end_state w_run2).
Proof.
  apply w_reach_publish; [|vm_compute; discriminate]. apply w_reach_publish; [|vm_compute; discriminate]. apply w_reach_publish; [|vm_compute; discriminate].
  apply reach_new.
Qed.

Lemma load_messages_reads_the_log_witness :
  (tm_offset <$> store_fetch_messages (p_log (end_state w_run2)) 1 10) = [2] /\
  exists m', load_messages w_env 1 10 7%nat (end_state w_run2) =
             (Ok (store_fetch_messages (p_log (end_state w_run2)) 1 10), end_state w_run2, m').
Proof.
  split; [reflexivity|].
  apply (load_messages_reads_the_log w_len w_env (end_tick w_run2)); [|exact w_reachable2|lia|done].
  by apply w_clock_monotone.
Defined.

Lemma publish_appends_witness :
  exists o p' n', publish_one w_len w_env w_key [7] None None OpUpdate (end_tick w_run2)
                    (end_state w_run2) = (Ok o, p', n') /\ o = 3 /\
    (tm_offset <$> p_log p') = [0; 2; 3].
Proof.
  destruct (publish_one w_len w_env w_key [7] None None OpUpdate (end_tick w_run2)
              (end_state w_run2)) as [[[o|e] p'] n'] eqn:E; [|vm_compute in E; discriminate].
  destruct (publish_appends w_len w_env (end_tick w_run2) (end_state w_run2) w_key [7] None None
              OpUpdate [] _ (w_clock_monotone w_env (fun _ => eq_refl)) w_reachable2
              ltac:(vm_compute; discriminate) eq_refl) as [H _].
  destruct (H _ _ _ E) as (_ & _ & -> & m & Hl & Hm & _).
  exists (next_of (end_state w_run2)), p', n'. split_and!; [done|reflexivity|].
  rewrite Hl, fmap_app. cbn [fmap list_fmap]. rewrite Hm. reflexivity.
Defined.

(** Two stored messages of 100 bytes against a limit of 150. *)
Definition w_full := let r := w_publish w_ok_env 0 partition_new in
                     w_publish w_ok_env (end_tick r) (end_state r).

Lemma w_full_reachable : reachable w_len w_ok_env (end_tick w_full) (end_state w_full).
Proof. apply w_reach_publish; [|vm_compute; discriminate]. apply w_reach_publish; [|vm_compute; discriminate]. apply reach_new. Qed.

Lemma retention_meets_limits_witness :
  exists st p' n', enforce_retention w_ok_env 0 1 None (Some 150) 10 (end_tick w_full)
                     (end_state w_full) = (Ok st, p', n') /\
    messages_deleted st = 1 /\ index_bytes (p_index p') <= 150.
Proof.
  destruct (retention_meets_limits w_len w_ok_env (end_tick w_full) (end_state w_full) 0 1 None
              (Some 150) 10 (w_clock_monotone w_ok_env (fun _ => eq_refl)) (fun _ => eq_refl)
              w_full_reachable) as (st & p' & n' & k & Hrun & Hl & Hd & Hk & Hex & Hlim);
    [|lia|lia|].
  - split_and!; [|vm_compute; discriminate|reflexivity].
    intros e He. assert (Forall (fun e => 0 <= re_message_bytes e) (p_index (end_state w_full)))
      as Hf by (repeat constructor; vm_compute; discriminate).
    rewrite Forall_forall in Hf. by apply Hf.
  - exists st, p', n'. split; [done|]. vm_compute in Hrun. injection Hrun as <- <- <-.
    split; [reflexivity|]. vm_compute. discriminate.
Defined.

(** Everything deleted, then a restart. *)
Definition w_retain := enforce_retention w_ok_env 0 1 (Some 5000) None 10 (end_tick w_full)
                         (end_state w_full).
Definition w_emptied : Partition := end_state w_retain.

(** The pass deletes both messages, then fails to read the new start of the log. *)
Definition w_torn_env : Env := mkEnv (fun n => negb (Nat.eqb n (end_tick w_full + 2))) (fun n => 1000 + Z.of_nat n).
Definition w_torn := enforce_retention w_torn_env 0 1 (Some 5000) None 10 (end_tick w_full)
                       (end_state w_full).

(** A retention pass that fails after its deletions leaves the deleted messages in the tail: the
    store is empty and a read still returns them. *)
Lemma failed_retention_serves_deleted :
  w_torn.1.1 = Err StorageFailed /\ p_log (end_state w_torn) = [] /\
  exists m', load_messages w_ok_env 0 10 (end_tick w_torn) (end_state w_torn) =
             (Ok (p_log (end_state w_full)), end_state w_torn, m').
Proof. split_and!; [vm_compute; reflexivity..|]. eexists. vm_compute. reflexivity. Qed.

Lemma w_emptied_ok : part_ok w_len (clock w_ok_env (end_tick w_retain)) w_emptied.
Proof.
  apply (reachable_ok w_len w_ok_env); [by apply w_clock_monotone|].
  eapply (reach_retention w_len w_ok_env (end_tick w_full) (end_state w_full) 0 1 (Some 5000) None
            10 (mkStats 2 200) w_emptied (end_tick w_retain) w_full_reachable);
    [lia|vm_compute; lia|].
  vm_compute. reflexivity.
Qed.

Lemma restart_after_full_retention_reuses_offsets_witness :
  next_of w_emptied = 2 /\
  exists p' n', publish_one w_len w_ok_env w_key [9] None None OpInsert (end_tick w_retain)
                  (restore_offset_counters (restart w_emptied)) = (Ok 0, p', n').
Proof.
  split; [reflexivity|].
  apply (restart_after_full_retention_reuses_offsets w_len w_ok_env (end_tick w_retain) w_emptied w_key
           [9] None None OpInsert w_emptied_ok eq_refl). reflexivity.
Defined.

Lemma restart_forgets_retained_bytes_witness :
  index_bytes (p_index (end_state w_full)) = 200 /\
  exists o p1 n1 n2,
    publish_one w_len w_ok_env w_key [9] None None OpInsert (end_tick w_full)
      (restore_offset_counters (restart (end_state w_full))) = (Ok o, p1, n1) /\
    enforce_retention w_ok_env 0 1 None (Some 150) 10 n1 p1 = (Ok (mkStats 0 0), p1, n2).
Proof.
  split; [reflexivity|].
  destruct (restart_forgets_retained_bytes w_len w_ok_env (end_tick w_full) (end_state w_full) w_key
              [9] None None OpInsert 150 10 0 1) as (o & m & p1 & n1 & Hpub & _ & Hret);
    [apply reachable_ok; [by apply w_clock_monotone|exact w_full_reachable]|done|
     vm_compute; discriminate|lia|lia|].
  destruct Hret as [n2 Hn2]; [unfold w_len; lia|unfold u64_max; lia|]. by exists o, p1, n1, n2.
Defined.
