(* ===== verification/TopicService.v ===== *)
(** * TopicService: consumer groups of a topic

    Model of kalamdb-publisher/src/service/consume.rs (fetching for a group, acknowledging,
    resetting) over the claim state of [TopicClaims] and the partitions of [TopicLog], with the
    committed offsets of kalamdb-system/src/providers/topic_offsets (keyed by the composite
    string the provider builds).

    [fetch_messages_for_group] and [ack_offset] of one (topic, group, partition) run under a
    common mutex, but publishes, retention and other groups run concurrently with them.  The
    environment therefore also says what other threads do: at every point where the code touches
    shared state, [interfere] may change the service.  The fetch loop has fuel; [None] means the
    loop is still running.

    The theorems show that no offset is delivered twice within the visibility timeout and none
    at or below an acknowledged one, that the first fetch of a group returns the next stored
    messages, and two defects: a hole in the offsets makes a fetch spin for as long as a lease
    after it lasts, and a fetch that fails in storage strands its window for ever. *)

From Stdlib Require Import ZArith Lia Sorting.Sorted.
From stdpp Require Import base countable strings gmap fin_maps list.
From S2P Require Import Prelude Commons TopicClaims TopicLog.

Open Scope Z_scope.
Open Scope kalam_scope.

Abbreviation ConsumerGroupId := string (only parsing).

Record GroupPartitionKey := mkGP {
  gp_topic_id : TopicId; gp_group_id : ConsumerGroupId; gp_partition_id : Z
}.

#[export] Instance GroupPartitionKey_eq_dec : EqDecision GroupPartitionKey.
Proof. solve_decision. Defined.

#[export] Instance GroupPartitionKey_countable : Countable GroupPartitionKey.
Proof.
  refine (inj_countable' (fun k => (gp_topic_id k, gp_group_id k, gp_partition_id k))
            (fun '(t, g, p) => mkGP t g p) _).
  by intros [].
Defined.

(** ** Committed offsets *)

Record TopicOffset := mkOffset {
  to_topic_id : TopicId;
  to_group_id : ConsumerGroupId;
  to_partition_id : Z;
  last_acked_offset : Z;
  updated_at : Z
}.

(** [TopicOffset::ack]: only advances. *)
Definition offset_ack (o : TopicOffset) (offset timestamp : Z) : TopicOffset :=
  if last_acked_offset o <? offset
  then mkOffset (to_topic_id o) (to_group_id o) (to_partition_id o) offset timestamp
  else o.

(** [format!("{}:{}:{}", topic_id, group_id, partition_id)]. *)
Definition make_key (topic : TopicId) (group : ConsumerGroupId) (partition : Z) : string :=
  (topic +:+ ":" +:+ group +:+ ":" +:+ string_of_bytes (decimal partition))%string.

(** ** The service *)

Record Service := mkService {
  partitions : gmap TopicPartitionKey Partition;
  offset_store : gmap string TopicOffset;
  group_claim_state : gmap GroupPartitionKey ClaimState
}.

Definition upd_partitions f (s : Service) : Service :=
  mkService (f (partitions s)) (offset_store s) (group_claim_state s).
Definition upd_offsets f (s : Service) : Service :=
  mkService (partitions s) (f (offset_store s)) (group_claim_state s).
Definition upd_claims f (s : Service) : Service :=
  mkService (partitions s) (offset_store s) (f (group_claim_state s)).

(** A partition without runtime entry and without stored messages behaves as a new one. *)
Definition partition_of (s : Service) (k : TopicPartitionKey) : Partition :=
  default partition_new (partitions s !! k).

(** Run a partition-local operation. *)
Definition on_partition {A} (k : TopicPartitionKey) (m : M Partition A) : M Service A :=
  fun n s => let '(r, p', n') := m n (partition_of s k) in
             (r, upd_partitions (fun ps => <[k := p']> ps) s, n').

Section Consume.

(** The environment, what other threads do at each tick, and the configured timeout. *)
Context (env : Env) (interfere : nat -> Service -> Service) (visibility_timeout : Z).

(** Another thread may run here. *)
Definition yield_ : M Service unit := fun n s => (Ok tt, interfere n s, n).

(** [TopicOffsetsTableProvider::get_offset]. *)
Definition get_offset (k : GroupPartitionKey) : M Service (option TopicOffset) :=
  do! yield_ in
  storage_read env (fun s => offset_store s !!
    make_key (gp_topic_id k) (gp_group_id k) (gp_partition_id k)).

(** [TopicOffsetsTableProvider::ack_offset]. *)
Definition provider_ack_offset (k : GroupPartitionKey) (offset : Z) : M Service unit :=
  let! found := get_offset k in
  let! row :=
    match found with
    | Some row => mret row
    | None =>
        let! created := read_clock env in
        mret (mkOffset (gp_topic_id k) (gp_group_id k) (gp_partition_id k) 0 created)
    end in
  let! now := read_clock env in
  storage_write env (upd_offsets (fun m =>
    <[make_key (gp_topic_id k) (gp_group_id k) (gp_partition_id k) := offset_ack row offset now]> m)).

(** [TopicOffsetsTableProvider::reset_offset]. *)
Definition provider_reset_offset (k : GroupPartitionKey) (next : Z) : M Service unit :=
  let key := make_key (gp_topic_id k) (gp_group_id k) (gp_partition_id k) in
  if next =? 0 then storage_write env (upd_offsets (delete key))
  else
    let! now := read_clock env in
    storage_write env (upd_offsets (fun m => <[key := mkOffset (gp_topic_id k) (gp_group_id k)
                                        (gp_partition_id k) (next - 1) now]> m)).

Definition durable_last_acked (k : GroupPartitionKey) : M Service (option Z) :=
  let! row := get_offset k in mret (last_acked_offset <$> row).

Definition group_fetch_start (k : GroupPartitionKey) (start_offset : Z) : M Service Z :=
  let! acked := durable_last_acked k in
  mret (match acked with Some a => saturating_add a 1 | None => start_offset end).

Definition tp_of (k : GroupPartitionKey) : TopicPartitionKey :=
  mkTP (gp_topic_id k) (gp_partition_id k).

(** [entry(key).or_insert_with(|| ClaimState::new(start))]. *)
Definition entry_or_insert (k : GroupPartitionKey) (start : Z) : M Service unit :=
  modify (upd_claims (fun m => match m !! k with
                               | Some _ => m
                               | None => <[k := claim_state_new start]> m
                               end)).

(** Change the entry if there is one. *)
Definition modify_claim (k : GroupPartitionKey) (f : ClaimState -> ClaimState) : M Service unit :=
  modify (upd_claims (alter f k)).

Definition get_claim (k : GroupPartitionKey) : M Service (option ClaimState) :=
  gets (fun s => group_claim_state s !! k).

Definition remove_claim (k : GroupPartitionKey) : M Service unit :=
  modify (upd_claims (delete k)).

Inductive Reservation := NothingNow | TryAgain | Reserved (start limit reservation : Z).

(** No pending claim. *)
Definition no_pending (st : ClaimState) : bool :=
  match pending st with [] => true | _ => false end.

(** The first block of the loop, up to the reserved window. *)
Definition reserve_phase (k : GroupPartitionKey) (start_offset limit earliest : Z) :
    M Service Reservation :=
  let! initial_start := group_fetch_start k start_offset in
  do! entry_or_insert k initial_start in
  let! now := read_clock env in
  do! modify_claim k (fun st => expire_stale_claims st now visibility_timeout) in
  let! acked := durable_last_acked k in
  do! match acked with Some a => modify_claim k (fun st => ack_up_to st a) | None => mret tt end in
  let! entry := get_claim k in
  let st := default (claim_state_new initial_start) entry in
  let '(current_start, window_limit) := next_available_window st limit in
  if window_limit =? 0 then mret NothingNow
  else if current_start <? earliest then
    do! modify_claim k (fun st => set_cursor st earliest) in mret TryAgain
  else
    do! yield_ in
    let! high_watermark := on_partition (tp_of k) (log_high_watermark env earliest) in
    let available_limit := Z.min window_limit (saturating_sub high_watermark current_start) in
    if available_limit =? 0 then
      if earliest <? current_start then
        do! modify_claim k (fun st => set_cursor st current_start) in mret NothingNow
      else if no_pending st then do! remove_claim k in mret NothingNow
      else mret NothingNow
    else
      let! claimed_at := read_clock env in
      let '(rid, st') := reserve_window st current_start available_limit claimed_at in
      do! modify_claim k (fun _ => st') in
      mret (Reserved current_start available_limit rid).

(** [messages.is_empty()] after the scan: drop the reservation, and pin the cursor or the entry. *)
Definition nothing_loaded (k : GroupPartitionKey) (earliest fetch_start rid : Z) :
    M Service unit :=
  do! yield_ in
  let! high_watermark := on_partition (tp_of k) (log_high_watermark env earliest) in
  let pin_tail := (high_watermark <=? fetch_start) && (earliest <? fetch_start) in
  do! modify_claim k (fun st => cancel_reservation st rid) in
  if pin_tail then modify_claim k (fun st => set_cursor st fetch_start)
  else
    let! entry := get_claim k in
    match entry with
    | Some st => if no_pending st then remove_claim k else mret tt
    | None => mret tt
    end.

(** A message is held by another reservation. *)
Definition held_by_other (st : ClaimState) (rid : Z) (m : TopicMessage) : bool :=
  existsb (fun c => negb (reservation_id c =? rid) && covers c (tm_offset m)) (pending st).

Definition min_offset (ms : list TopicMessage) : option Z := list_min (tm_offset <$> ms).
Definition max_end (ms : list TopicMessage) : option Z :=
  list_max ((fun m => saturating_add (tm_offset m) 1) <$> ms).

(** What follows the scan when it found messages: filter out what is acknowledged or held,
    turn the reservation into a lease.  [None] asks for another round. *)
Definition deliver_phase (k : GroupPartitionKey) (start_offset fetch_start fetch_limit rid : Z)
    (loaded : list TopicMessage) : M Service (option (list TopicMessage)) :=
  let! acked := durable_last_acked k in
  let reserved_end := saturating_add fetch_start fetch_limit in
  let! entry := get_claim k in
  let from := match entry with
              | Some st => deliver_from st acked
              | None => after_acked acked
              end in
  let window_start := Z.max fetch_start from in
  let messages := filter (fun m => window_start <= tm_offset m < reserved_end) loaded in
  match messages with
  | [] => do! modify_claim k (fun st => cancel_reservation st rid) in mret None
  | _ =>
      let! claimed_at := read_clock env in
      let! initial_start := group_fetch_start k start_offset in
      do! entry_or_insert k (Z.max initial_start (after_acked acked)) in
      do! modify_claim k (fun st => expire_stale_claims st claimed_at visibility_timeout) in
      let! entry := get_claim k in
      let st := default (claim_state_new initial_start) entry in
      let messages := filter (fun m => deliver_from st acked <= tm_offset m /\
                                       held_by_other st rid m = false) messages in
      match messages with
      | [] => do! modify_claim k (fun st => cancel_reservation st rid) in mret None
      | _ =>
          let lo := default fetch_start (min_offset messages) in
          let hi := default fetch_start (max_end messages) in
          if has_reservation st rid then
            let! now := read_clock env in
            do! modify_claim k (fun st => finalize_reservation st rid lo hi now) in
            mret (Some messages)
          else if overlaps_pending st lo hi then mret None
          else
            do! modify_claim k (fun st => register_delivered_claim st lo hi claimed_at) in
            mret (Some messages)
      end
  end.

(** The [loop]: [None] when the fuel ran out first. *)
Fixpoint fetch_loop (fuel : nat) (k : GroupPartitionKey) (start_offset limit : Z) :
    M Service (option (list TopicMessage)) :=
  match fuel with
  | O => mret None
  | S fuel' =>
      do! yield_ in
      let! earliest := on_partition (tp_of k) (earliest_available_offset env) in
      let! reservation := reserve_phase k start_offset limit earliest in
      match reservation with
      | NothingNow => mret (Some [])
      | TryAgain => fetch_loop fuel' k start_offset limit
      | Reserved fetch_start fetch_limit rid =>
          do! yield_ in
          let! loaded := on_partition (tp_of k) (load_messages env fetch_start fetch_limit) in
          match loaded with
          | [] => do! nothing_loaded k earliest fetch_start rid in mret (Some [])
          | _ =>
              let! delivered :=
                deliver_phase k start_offset fetch_start fetch_limit rid loaded in
              match delivered with
              | Some messages => mret (Some messages)
              | None => fetch_loop fuel' k start_offset limit
              end
          end
      end
  end.

Definition fetch_messages_for_group (fuel : nat) (k : GroupPartitionKey) (start_offset limit : Z) :
    M Service (option (list TopicMessage)) :=
  if limit =? 0 then mret (Some []) else fetch_loop fuel k start_offset limit.

Definition ack_offset (k : GroupPartitionKey) (offset : Z) : M Service unit :=
  do! provider_ack_offset k offset in
  modify (upd_claims (fun m =>
    <[k := ack_up_to (default (claim_state_new (saturating_add offset 1)) (m !! k)) offset]> m)).

Definition reset_group_offset (k : GroupPartitionKey) (next : Z) : M Service unit :=
  do! provider_reset_offset k next in
  modify (upd_claims (fun m => <[k := claim_state_new next]> m)).

End Consume.

(** ** Leases, acknowledgements and stranded claims of one group

    Everything below is about one (topic, group, partition).  [leases] lists the offsets
    delivered so far with the time of their lease, [acks] the acknowledged offsets, [stranded]
    claims in flight whose fetch is over. *)

Section GroupInvariant.

Context (env : Env) (timeout : Z) (leases : list (Z * Z)) (acks : list Z)
  (stranded : list PendingClaim).

Definition pending_of (oc : option ClaimState) : list PendingClaim :=
  match oc with Some st => pending st | None => [] end.

Definition acked_by (row : option TopicOffset) (o : Z) : Prop :=
  exists r, row = Some r /\ o <= last_acked_offset r.

Definition leased_by (l : list PendingClaim) (o t : Z) : Prop :=
  exists c, c ∈ l /\ in_flight c = false /\ covers c o = true /\ t <= claimed_at c.

(** Every delivered offset is acknowledged, still leased, or its lease is over. *)
Definition leases_ok (row : option TopicOffset) (l : list PendingClaim) (n : nat) : Prop :=
  forall o t, (o, t) ∈ leases -> acked_by row o \/ leased_by l o t \/ timeout < clock env n - t.

Definition ids_ok (oc : option ClaimState) (n : nat) : Prop :=
  forall st, oc = Some st ->
    (forall c, c ∈ pending st -> reservation_id c < next_reservation_id st) /\
    1 <= next_reservation_id st <= Z.of_nat n + 1.

Definition group_inv (row : option TopicOffset) (oc : option ClaimState) (n : nat) : Prop :=
  leases_ok row (pending_of oc) n /\ (forall a, a ∈ acks -> acked_by row a) /\
  (forall c, c ∈ stranded -> in_flight c = true /\ c ∈ pending_of oc) /\ ids_ok oc n.

(** While a fetch holds reservation [rid]: only claims in flight carry that id. *)
Definition reserved_inv (rid : Z) (row : option TopicOffset) (oc : option ClaimState) (n : nat) :
    Prop :=
  group_inv row oc n /\ exists st, oc = Some st /\
    (forall c, c ∈ pending st -> reservation_id c = rid -> in_flight c = true) /\
    (forall c, c ∈ stranded -> reservation_id c ≠ rid) /\ has_reservation st rid = true.

Hypothesis Hclk : clock_monotone env.
Hypothesis Htimeout : 0 <= timeout.

Lemma group_inv_later row oc n n' : group_inv row oc n -> (n <= n')%nat -> group_inv row oc n'.
Proof.
  intros (Hl & Ha & Hs & Hi) Hn. split_and!; try done.
  - intros o t Ho. destruct (Hl o t Ho) as [?|[?|?]]; [by left|right; by left|right; right].
    pose proof (Hclk n n' Hn). lia.
  - intros st E. destruct (Hi st E) as [? ?]. split; [done|lia].
Qed.

(** Replacing the entry by one with the same ids whose claims serve the same leases. *)
Lemma group_inv_change row oc oc' n :
  group_inv row oc n ->
  (forall o t, leased_by (pending_of oc) o t ->
     acked_by row o \/ leased_by (pending_of oc') o t \/ timeout < clock env n - t) ->
  (forall c, in_flight c = true -> c ∈ pending_of oc -> c ∈ pending_of oc' ) ->
  ids_ok oc' n -> group_inv row oc' n.
Proof.
  intros (Hl & Ha & Hs & Hi) Hlease Hflight Hids. split_and!; try done.
  - intros o t Ho. destruct (Hl o t Ho) as [?|[Hle|?]]; [by left| |by right; right]. by apply Hlease.
  - intros c Hc. destruct (Hs c Hc) as [? ?]. split; [done|]. by apply Hflight.
Qed.

Lemma inv_insert row n start :
  group_inv row None n -> group_inv row (Some (claim_state_new start)) n.
Proof.
  intros H. eapply group_inv_change; [exact H|by right; left|done|].
  intros st [= <-]. simpl. split; [by intros c Hc%elem_of_nil|lia].
Qed.

Lemma inv_remove row st n : group_inv row (Some st) n -> pending st = [] -> group_inv row None n.
Proof.
  intros H Hp. eapply group_inv_change; [exact H| | |done]; simpl; rewrite Hp; [by right; left|done].
Qed.

Lemma inv_set_cursor row st n c :
  group_inv row (Some st) n -> group_inv row (Some (set_cursor st c)) n.
Proof.
  intros H. eapply group_inv_change; [exact H|by right; left|done|].
  destruct H as (_ & _ & _ & Hi). intros st' [= <-]. exact (Hi st eq_refl).
Qed.

Lemma expire_leases st now n o t :
  now <= clock env n -> leased_by (pending st) o t ->
  leased_by (pending (expire_stale_claims st now timeout)) o t \/ timeout < clock env n - t.
Proof.
  intros Hnow (c & Hc & Hf & Hcov & Ht). destruct (is_stale now timeout c) eqn:E.
  - right. unfold is_stale, saturating_sub in E. rewrite Hf in E. simpl in E. zbool.
    lia.
  - left. exists c. split_and!; try done. simpl. by apply list_elem_of_filter.
Qed.

Lemma inv_expire row st now n :
  group_inv row (Some st) n -> now <= clock env n ->
  group_inv row (Some (expire_stale_claims st now timeout)) n.
Proof.
  intros H Hnow. eapply group_inv_change; [exact H| | |].
  - intros o t Hl. right. by apply expire_leases.
  - intros c Hf Hc. simpl. apply list_elem_of_filter. split; [|done]. unfold is_stale. by rewrite Hf.
  - destruct H as (_ & _ & _ & Hi). intros st' [= <-]. destruct (Hi st eq_refl) as [H1 H2].
    split; [|exact H2]. intros c [_ Hc]%list_elem_of_filter. by apply H1.
Qed.

Lemma inv_ack row st a n :
  group_inv row (Some st) n -> acked_by row a -> group_inv row (Some (ack_up_to st a)) n.
Proof.
  intros H (r & -> & Ha). eapply group_inv_change; [exact H| | |].
  - intros o t (c & Hc & Hf & Hcov & Ht).
    destruct (Z.le_gt_cases o (last_acked_offset r)) as [?|Hgt]; [left; by exists r|right; left].
    apply covers_spec in Hcov. simpl.
    assert (saturating_add a 1 <= a + 1) as Hsat by (unfold saturating_add; lia).
    exists (if claim_start c <? saturating_add a 1
            then mkClaim (reservation_id c) (saturating_add a 1) (end_exclusive c) (claimed_at c)
                   (in_flight c) else c).
    split_and!.
    + apply list_elem_of_omap. exists c. split; [done|]. unfold ack_claim. rewrite Hf.
      by rewrite (proj2 (Z.leb_gt _ _)) by lia.
    + by case_match.
    + apply covers_spec. case_match; simpl; lia.
    + by case_match.
  - intros c Hf Hc. simpl. apply list_elem_of_omap. exists c. split; [done|]. unfold ack_claim.
    by rewrite Hf.
  - destruct H as (_ & _ & _ & Hi). intros st' [= <-]. destruct (Hi st eq_refl) as [H1 H2].
    split; [|exact H2]. simpl. intros c (d & Hd & E)%list_elem_of_omap. specialize (H1 d Hd).
    unfold ack_claim in E. destruct (in_flight d); [by injection E as <-|].
    case_match; [done|]. injection E as <-. by case_match.
Qed.

Lemma inv_reserve row st start lim now n :
  group_inv row (Some st) n -> next_reservation_id st < u64_max ->
  next_reservation_id st <= Z.of_nat n ->
  reserved_inv (next_reservation_id st) row
    (Some (push_claim st start (saturating_add start lim) now true)) n.
Proof.
  intros H Hmax Hn. pose proof H as (_ & _ & Hs & Hi). destruct (Hi st eq_refl) as [Hid Hnx].
  split; [|eexists; split; [done|]; split_and!].
  - eapply group_inv_change; [exact H| | |].
    + intros o t (c & Hc & ? & ? & ?). right; left. exists c. split_and!; try done. simpl. set_solver.
    + intros c _ Hc. simpl in *. set_solver.
    + intros st' [= <-]. cbn [push_claim pending next_reservation_id].
      rewrite (saturating_add_small (next_reservation_id st) 1) by lia. split; [|lia].
      intros c [Hc| ->%list_elem_of_singleton]%elem_of_app; [specialize (Hid c Hc)|simpl]; lia.
  - simpl. intros c [Hc| ->%list_elem_of_singleton]%elem_of_app E; [|done].
    specialize (Hid c Hc). lia.
  - intros c Hc. destruct (Hs c Hc) as [_ Hp]. specialize (Hid c Hp). lia.
  - unfold has_reservation. simpl. rewrite existsb_app. simpl. rewrite Z.eqb_refl.
    by rewrite orb_true_r.
Qed.

Lemma reserved_later rid row oc n n' :
  reserved_inv rid row oc n -> (n <= n')%nat -> reserved_inv rid row oc n'.
Proof. intros [H ?] Hn. split; [by eapply group_inv_later|done]. Qed.

Lemma reserved_expire rid row st now n :
  reserved_inv rid row (Some st) n -> now <= clock env n ->
  reserved_inv rid row (Some (expire_stale_claims st now timeout)) n.
Proof.
  intros [H (? & [= <-] & Hf & Hs & Hh)] Hnow. split; [by apply inv_expire|].
  eexists. split; [done|]. split_and!; [|done|].
  - simpl. intros c [_ Hc]%list_elem_of_filter. by apply Hf.
  - apply existsb_true in Hh as (c & Hc & E). apply existsb_true. exists c. split; [|done].
    apply list_elem_of_filter. split; [|done]. unfold is_stale. rewrite (Hf c Hc); [done|].
    by apply Z.eqb_eq.
Qed.

Lemma reserved_cancel rid row st n :
  reserved_inv rid row (Some st) n -> group_inv row (Some (cancel_reservation st rid)) n.
Proof.
  intros [(Hl & Ha & Hs & Hi) (? & [= <-] & Hf & Hst & Hh)]. split_and!; try done.
  - intros o t Ho. destruct (Hl o t Ho) as [?|[(c & Hc & Hfl & ? & ?)|?]];
      [by left|right; left|by right; right].
    exists c. split_and!; try done. simpl. apply list_elem_of_filter. split; [|done].
    intros E. by rewrite (Hf c Hc E) in Hfl.
  - intros c Hc. destruct (Hs c Hc) as [? ?]. split; [done|]. simpl.
    apply list_elem_of_filter. split; [by apply Hst|done].
  - intros st' [= <-]. destruct (Hi st eq_refl) as [H1 H2]. split; [|exact H2].
    simpl. intros c [_ Hc]%list_elem_of_filter. by apply H1.
Qed.

(** Settling the reservation: the other claims stay, a lease on the range appears. *)
Lemma settle_claim_spec rid lo hi now l :
  existsb (fun c => reservation_id c =? rid) l = true ->
  exists l', settle_claim rid lo hi now l = Some l' /\
    mkClaim rid lo hi now false ∈ l' /\
    (forall c, c ∈ l -> reservation_id c ≠ rid -> c ∈ l') /\
    (forall c, c ∈ l' -> exists d, d ∈ l /\ reservation_id d = reservation_id c).
Proof.
  induction l as [|x l IH]; simpl; [done|]. destruct (reservation_id x =? rid) eqn:E.
  - intros _. apply Z.eqb_eq in E. eexists. split; [done|]. split_and!.
    + rewrite E. set_solver.
    + intros c [->|Hc]%elem_of_cons Hne; [done|set_solver].
    + intros c [->|Hc]%elem_of_cons; [exists x|exists c]; set_solver.
  - intros (l' & -> & H1 & H2 & H3)%IH. eexists. split; [done|]. split_and!; [set_solver| |].
    + intros c [->|Hc]%elem_of_cons Hne; [set_solver|]. specialize (H2 c Hc Hne). set_solver.
    + intros c [->|Hc]%elem_of_cons; [exists x; set_solver|].
      destruct (H3 c Hc) as (d & ? & ?). exists d. set_solver.
Qed.

Lemma finalize_pending st rid lo hi now :
  has_reservation st rid = true ->
  exists l', settle_claim rid lo hi now (pending st) = Some l' /\
    pending (finalize_reservation st rid lo hi now) = l' /\
    next_reservation_id (finalize_reservation st rid lo hi now) = next_reservation_id st.
Proof.
  intros (l' & Hl & _)%(settle_claim_spec rid lo hi now). exists l'. unfold finalize_reservation.
  rewrite Hl. unfold advance_cursor_for_contiguous_claim. by case_match.
Qed.

Lemma reserved_finalize rid row st lo hi now n :
  reserved_inv rid row (Some st) n ->
  group_inv row (Some (finalize_reservation st rid lo hi now)) n /\
  mkClaim rid lo hi now false ∈ pending (finalize_reservation st rid lo hi now).
Proof.
  intros [(Hl & Ha & Hs & Hi) (? & [= <-] & Hf & Hst & Hh)].
  destruct (settle_claim_spec rid lo hi now _ Hh) as (l' & Hset & Hnew & Hkeep & Hids).
  destruct (finalize_pending st rid lo hi now Hh) as (l2 & E & Hp & Hnx).
  assert (l2 = l') as -> by congruence. rewrite Hp. split; [|done]. split_and!; try done.
  - intros o t Ho. destruct (Hl o t Ho) as [?|[(c & Hc & Hfl & ? & ?)|?]];
      [by left|right; left|by right; right].
    exists c. split_and!; try done. unfold pending_of. rewrite Hp. apply Hkeep; [done|].
    intros Eq. by rewrite (Hf c Hc Eq) in Hfl.
  - intros c Hc. destruct (Hs c Hc) as [? ?]. split; [done|]. unfold pending_of. rewrite Hp.
    apply Hkeep; [done|by apply Hst].
  - intros st' [= <-]. destruct (Hi st eq_refl) as [H1 H2]. rewrite Hp, Hnx. split; [|done].
    intros c Hc. destruct (Hids c Hc) as (d & Hd & <-). by apply H1.
Qed.

End GroupInvariant.

(** ** Reasoning about a fetch under interference *)

(** Ticks only grow. *)
Definition ticks {S A} (m : M S A) : Prop := forall n s, (n <= (m n s).2)%nat.

Lemma ticks_bind {S A B} (m : M S A) (k : A -> M S B) :
  ticks m -> (forall a, ticks (k a)) -> ticks (mbind m k).
Proof.
  intros Hm Hk n s. unfold mbind. specialize (Hm n s). destruct (m n s) as [[[a|e] s'] n']; [|done].
  simpl in Hm. specialize (Hk a n' s'). lia.
Qed.

Lemma ticks_ret {S A} (a : A) : ticks (@mret S A a).
Proof. intros n s. done. Qed.
Lemma ticks_gets {S A} (f : S -> A) : ticks (gets f).
Proof. intros n s. done. Qed.
Lemma ticks_modify {S} (f : S -> S) : ticks (modify f).
Proof. intros n s. done. Qed.
Lemma ticks_read {S A} env (f : S -> A) : ticks (storage_read env f).
Proof. intros n s. simpl. lia. Qed.
Lemma ticks_write {S} env (f : S -> S) : ticks (storage_write env f).
Proof. intros n s. unfold storage_write. case_match; simpl; lia. Qed.
Lemma ticks_clock {S} env : ticks (@read_clock S env).
Proof. intros n s. simpl. lia. Qed.

#[local] Hint Resolve ticks_ret ticks_gets ticks_modify ticks_read ticks_write ticks_clock : kalam.

Ltac ticks_tac :=
  repeat first
    [ progress auto with kalam
    | apply ticks_bind; [|intros ?]
    | case_match ].

Lemma ticks_log_reads env :
  ticks (earliest_available_offset env) /\ (forall e, ticks (log_high_watermark env e)) /\
  (forall o l, ticks (load_messages env o l)).
Proof.
  unfold earliest_available_offset, log_high_watermark, latest_offset, load_messages.
  split_and!; intros; ticks_tac.
Qed.

Section Triples.

Context (env : Env) (interfere : nat -> Service -> Service) (timeout : Z) (k : GroupPartitionKey)
  (leases : list (Z * Z)) (acks : list Z) (stranded : list PendingClaim).

Abbreviation okey := (make_key (gp_topic_id k) (gp_group_id k) (gp_partition_id k)).
Abbreviation row_of s := (offset_store s !! okey).
Abbreviation claim_of s := (group_claim_state s !! k).

(** Other threads leave this group's claims and committed offset alone: both are only written
    under its fetch lock, by [reset_group_offset] apart. *)
Definition frames : Prop :=
  forall n s, row_of (interfere n s) = row_of s /\ claim_of (interfere n s) = claim_of s.

Hypothesis Hclk : clock_monotone env.
Hypothesis Htimeout : 0 <= timeout.
Hypothesis Hframe : frames.

Definition Asrt : Type := option TopicOffset -> option ClaimState -> nat -> Prop.

Definition inv : Asrt := group_inv env timeout leases acks stranded.
Definition rinv (rid : Z) : Asrt := reserved_inv env timeout leases acks stranded rid.

(** Fewer than [2^64] reservations can have been made. *)
Definition small (n : nat) : Prop := Z.of_nat n < u64_max.

Definition triple {A} (P : Asrt) (m : M Service A) (Q : A -> Asrt) : Prop :=
  ticks m /\
  forall n s r s' n', m n s = (r, s', n') -> P (row_of s) (claim_of s) n -> small n' ->
    match r with
    | Ok a => Q a (row_of s') (claim_of s') n'
    | Err _ => inv (row_of s') (claim_of s') n'
    end.

(** Assertions that survive the passage of time and give the invariant. *)
Definition stable (P : Asrt) : Prop :=
  (forall row oc n n', P row oc n -> (n <= n')%nat -> P row oc n') /\
  (forall row oc n, P row oc n -> inv row oc n).

Lemma t_bind {A B} P Q R (m : M Service A) (f : A -> M Service B) :
  triple P m Q -> (forall a, triple (Q a) (f a) R) -> triple P (mbind m f) R.
Proof.
  intros [Tm Hm] Hf. split; [apply ticks_bind; [done|]; intros a; apply Hf|].
  intros n s r s' n' E Hp Hs. unfold mbind in E. pose proof (Tm n s) as Htm.
  destruct (m n s) as [[[a|e] s1] n1] eqn:Em; simpl in Htm.
  - assert (small n1) as Hs1.
    { destruct (Hf a) as [Tf _]. pose proof (Tf n1 s1) as Ht. rewrite E in Ht. unfold small in *.
      simpl in Ht. lia. }
    destruct (Hf a) as [_ Hf']. eapply (Hf' n1 s1); [exact E| |done].
    exact (Hm n s (Ok a) s1 n1 Em Hp Hs1).
  - injection E as <- <- <-. exact (Hm n s (Err e) s1 n1 Em Hp Hs).
Qed.

Lemma t_ret {A} (P : Asrt) (Q : A -> Asrt) a :
  (forall row oc n, P row oc n -> Q a row oc n) -> triple P (mret a) Q.
Proof. intros H. split; [apply ticks_ret|]. intros n s r s' n' [= <- <- <-] Hp _. by apply H. Qed.

Lemma t_pre {A} (P P' : Asrt) (m : M Service A) Q :
  (forall row oc n, P row oc n -> P' row oc n) -> triple P' m Q -> triple P m Q.
Proof. intros H [T Hm]. split; [done|]. intros n s r s' n' E Hp. eapply Hm; eauto. Qed.

(** A hypothesis that does not depend on the state. *)
Lemma t_pure {A} (F : Prop) (P : Asrt) (m : M Service A) Q :
  ticks m -> (F -> triple P m Q) -> triple (fun row oc n => F /\ P row oc n) m Q.
Proof.
  intros T H. split; [done|]. intros n s r s' n' E [Hf Hp]. destruct (H Hf) as [_ Hm].
  exact (Hm n s r s' n' E Hp).
Qed.

Lemma t_yield P : stable P -> triple P (yield_ interfere) (fun _ => P).
Proof.
  intros _. split; [intros n s; done|]. intros n s r s' n' [= <- <- <-] Hp _.
  destruct (Hframe n s) as [-> ->]. done.
Qed.

Lemma t_partition {A} P tp (m : M Partition A) :
  stable P -> ticks m -> triple P (on_partition tp m) (fun _ => P).
Proof.
  intros [Hl Hi] T.
  assert (forall n s, exists r p n', on_partition tp m n s =
            (r, upd_partitions (fun ps => <[tp := p]> ps) s, n') /\ (n <= n')%nat) as Hrun.
  { intros n s. unfold on_partition. specialize (T n (partition_of s tp)).
    destruct (m n (partition_of s tp)) as [[r p] n']. by exists r, p, n'. }
  split.
  - intros n s. by destruct (Hrun n s) as (r & p & n' & -> & Hn).
  - intros n s r s' n' E Hp _. destruct (Hrun n s) as (r0 & p & n0 & E' & Hn).
    rewrite E' in E. injection E as -> <- <-. cbn [upd_partitions offset_store group_claim_state].
    destruct r; [by eapply Hl|]. apply Hi. by eapply Hl.
Qed.

Lemma t_offset P :
  stable P -> triple P (durable_last_acked env interfere k)
    (fun a row oc n => a = (last_acked_offset <$> row) /\ P row oc n).
Proof.
  intros [Hl Hi]. split.
  { unfold durable_last_acked, get_offset, yield_. ticks_tac. intros n s. simpl. done. }
  intros n s r s' n' E Hp Hs. destruct (Hframe n s) as [Hr Hc]. revert E.
  unfold durable_last_acked, get_offset, mbind, yield_, storage_read, mret.
  destruct (io_ok env n); intros [= <- <- <-].
  - split; [done|]. rewrite Hr, Hc. eapply Hl; [exact Hp|lia].
  - apply Hi. rewrite Hr, Hc. eapply Hl; [exact Hp|lia].
Qed.

Lemma t_start P x :
  stable P -> triple P (group_fetch_start env interfere k x) (fun _ => P).
Proof.
  intros H. unfold group_fetch_start. eapply t_bind; [by apply t_offset|].
  intros a. apply t_ret. by intros row oc n [_ ?].
Qed.

(** A clock reading is the latest one. *)
Lemma t_clock P :
  stable P -> triple P (read_clock env)
    (fun a row oc n => (a = clock env (pred n) /\ (0 < n)%nat) /\ exists m, (m < n)%nat /\ P row oc m).
Proof.
  intros [Hl Hi]. split; [apply ticks_clock|].
  intros n s r s' n' [= <- <- <-] Hp _. split; [split; [done|lia]|]. exists n. split; [lia|done].
Qed.

Lemma t_get P :
  triple P (get_claim k) (fun e row oc n => oc = e /\ P row oc n).
Proof. split; [apply ticks_gets|]. intros n s r s' n' [= <- <- <-] Hp _. done. Qed.

Lemma t_modify_claim (P Q : Asrt) f :
  (forall row st n, small n -> P row (Some st) n -> Q row (Some (f st)) n) ->
  (forall row n, P row None n -> Q row None n) ->
  triple P (modify_claim k f) (fun _ => Q).
Proof.
  intros H1 H2. split; [apply ticks_modify|]. intros n s r s' n' [= <- <- <-] Hp Hs.
  cbn [upd_claims offset_store group_claim_state]. rewrite lookup_alter_eq.
  destruct (claim_of s) as [st|]; simpl; auto.
Qed.

Lemma t_insert (P Q : Asrt) x :
  (forall row st n, P row (Some st) n -> Q row (Some st) n) ->
  (forall row n, P row None n -> Q row (Some (claim_state_new x)) n) ->
  triple P (entry_or_insert k x) (fun _ => Q).
Proof.
  intros H1 H2. split; [apply ticks_modify|]. intros n s r s' n' [= <- <- <-] Hp _.
  cbn [upd_claims offset_store group_claim_state].
  destruct (claim_of s) as [st|] eqn:E; [rewrite E; auto|]. rewrite lookup_insert_eq. auto.
Qed.

Lemma t_remove (P Q : Asrt) :
  (forall row oc n, P row oc n -> Q row None n) -> triple P (remove_claim k) (fun _ => Q).
Proof.
  intros H. split; [apply ticks_modify|]. intros n s r s' n' [= <- <- <-] Hp _.
  cbn [upd_claims offset_store group_claim_state]. rewrite lookup_delete_eq. eauto.
Qed.

Lemma stable_inv : stable inv.
Proof. split; [|done]. intros row oc n n' H Hn. eapply group_inv_later; eauto. Qed.

Lemma stable_rinv rid : stable (rinv rid).
Proof.
  split; [|by intros row oc n [? _]]. intros row oc n n' H Hn. eapply reserved_later; eauto.
Qed.

(** An assertion about the entry only. *)
Lemma stable_and P (F : option TopicOffset -> option ClaimState -> Prop) :
  stable P -> stable (fun row oc n => F row oc /\ P row oc n).
Proof. intros [Hl Hi]. split; [|by intros row oc n [_ ?]%id; auto]. intros row oc n n' [? ?] ?. eauto. Qed.


(** The entry is there. *)
Definition with_entry (st : ClaimState) : Asrt := fun row oc n => oc = Some st /\ inv row oc n.
Definition some_entry : Asrt := fun row oc n => (exists st, oc = Some st) /\ inv row oc n.

Lemma stable_with_entry st : stable (with_entry st).
Proof. apply (stable_and inv (fun _ oc => oc = Some st)), stable_inv. Qed.

Lemma stable_some_entry : stable some_entry.
Proof. apply (stable_and inv (fun _ oc => exists st, oc = Some st)), stable_inv. Qed.

Hint Resolve stable_inv stable_rinv stable_with_entry stable_some_entry : kalam.

Lemma ticks_yield : ticks (yield_ interfere).
Proof. intros n s. done. Qed.

Lemma ticks_partition {A} tp (m : M Partition A) : ticks m -> ticks (on_partition tp m).
Proof.
  intros T n s. unfold on_partition. specialize (T n (partition_of s tp)).
  by destruct (m n (partition_of s tp)) as [[r p] n'].
Qed.

Hint Resolve ticks_yield ticks_partition : kalam.

Lemma ticks_offset x : ticks (group_fetch_start env interfere k x).
Proof. apply t_start with (P := inv). apply stable_inv. Qed.

(** The end of the first block, once the entry is known. *)
Lemma t_reserve_entry st limit earliest :
  triple (with_entry st)
    (let '(current_start, window_limit) := next_available_window st limit in
     if window_limit =? 0 then mret NothingNow
     else if current_start <? earliest then
       do! modify_claim k (fun st => set_cursor st earliest) in mret TryAgain
     else
       do! yield_ interfere in
       let! high_watermark := on_partition (tp_of k) (log_high_watermark env earliest) in
       let available_limit := Z.min window_limit (saturating_sub high_watermark current_start) in
       if available_limit =? 0 then
         if earliest <? current_start then
           do! modify_claim k (fun st => set_cursor st current_start) in mret NothingNow
         else if no_pending st then do! remove_claim k in mret NothingNow
         else mret NothingNow
       else
         let! claimed_at := read_clock env in
         let '(rid, st') := reserve_window st current_start available_limit claimed_at in
         do! modify_claim k (fun _ => st') in
         mret (Reserved current_start available_limit rid))
    (fun r => match r with Reserved _ _ rid => rinv rid | _ => inv end).
Proof.
  destruct (next_available_window st limit) as [cs wl].
  assert (forall c r, (match r with Reserved _ _ _ => False | _ => True end) ->
    triple (with_entry st) (do! modify_claim k (fun st => set_cursor st c) in mret r)
      (fun r => match r with Reserved _ _ rid => rinv rid | _ => inv end)) as Hcur.
  { intros c r Hr. eapply t_bind with (Q := fun _ => inv).
    - apply t_modify_claim; [|by intros row n [? ?]].
      intros row st' n _ [[= <-] Hi]. by apply inv_set_cursor.
    - intros _. apply t_ret. by destruct r. }
  destruct (wl =? 0); [apply t_ret; by intros row oc n [_ ?]|].
  destruct (cs <? earliest); [by apply Hcur|].
  eapply t_bind; [apply t_yield; auto with kalam|intros ?].
  eapply t_bind; [apply t_partition; [auto with kalam|apply ticks_log_reads]|intros hw]. cbn zeta.
  destruct (_ =? 0).
  - destruct (earliest <? cs); [by apply Hcur|].
    destruct (no_pending st) eqn:En; [|apply t_ret; by intros row oc n [_ ?]].
    eapply t_bind with (Q := fun _ => inv); [|intros _; by apply t_ret].
    apply t_remove. intros row oc n [-> Hi]. eapply inv_remove; [exact Hi|].
    unfold no_pending in En. by destruct (pending st).
  - eapply t_bind; [apply t_clock; auto with kalam|intros now]. unfold reserve_window.
    eapply t_bind with (Q := fun _ => rinv (next_reservation_id st));
      [|intros _; apply t_ret; done].
    apply t_modify_claim; [|by intros row n (_ & m & _ & ? & _)].
    intros row st' n Hs (_ & m & Hm & [= ->] & Hi).
    assert (next_reservation_id st <= Z.of_nat n) as Hn.
    { destruct Hi as (_ & _ & _ & Hid). destruct (Hid st eq_refl) as [_ ?]. lia. }
    apply inv_reserve; try done; [|unfold small in Hs; lia].
    eapply group_inv_later; [done..|exact Hi|lia].
Qed.

Lemma t_reserve start_offset limit earliest :
  triple inv (reserve_phase env interfere timeout k start_offset limit earliest)
    (fun r => match r with Reserved _ _ rid => rinv rid | _ => inv end).
Proof.
  unfold reserve_phase.
  eapply t_bind; [apply t_start; auto with kalam|intros init].
  eapply t_bind with (Q := fun _ => some_entry).
  { apply t_insert; [intros row st n H; split; [eauto|done]|].
    intros row n H. split; [eauto|]. by apply inv_insert. }
  intros _. eapply t_bind; [apply t_clock; auto with kalam|intros now].
  eapply t_bind with (Q := fun _ => some_entry).
  { apply t_modify_claim; [|by intros row n (_ & m & _ & [? ?] & _)].
    intros row st n _ ([-> H0] & m & Hm & _ & Hi). split; [eauto|]. apply inv_expire; try done.
    - eapply group_inv_later; [done..|exact Hi|lia].
    - apply Hclk. lia. }
  intros _. eapply t_bind; [apply t_offset; auto with kalam|intros acked].
  eapply t_bind with (Q := fun _ => some_entry).
  { destruct acked as [a|]; [|apply t_ret; by intros row oc n [_ ?]].
    apply t_modify_claim; [|by intros row n (_ & [? ?] & _)].
    intros row st n _ (Ha & _ & Hi). split; [eauto|]. apply inv_ack; try done.
    destruct row as [r|]; [|done]. injection Ha as ->. by exists r. }
  intros _. eapply t_bind; [apply t_get|intros entry].
  destruct entry as [st|].
  - eapply t_pre; [|apply (t_reserve_entry st limit earliest)]. by intros row oc n [-> [_ ?]].
  - eapply t_pre with (P' := fun row oc n => False /\ inv row oc n);
      [by intros row oc n [-> [[? ?] _]]|].
    apply t_pure; [|done]. cbn [default from_option].
    apply (t_reserve_entry (claim_state_new init) limit earliest).
Qed.

Lemma t_nothing earliest fetch_start rid :
  triple (rinv rid) (nothing_loaded env interfere k earliest fetch_start rid) (fun _ => inv).
Proof.
  unfold nothing_loaded.
  eapply t_bind; [apply t_yield; auto with kalam|intros ?].
  eapply t_bind; [apply t_partition; [auto with kalam|apply ticks_log_reads]|intros hw].
  eapply t_bind with (Q := fun _ => inv).
  { apply t_modify_claim; [|by intros row n [_ (? & ? & _)]].
    intros row st n _ H. by apply reserved_cancel. }
  intros _. destruct (_ && _).
  - apply t_modify_claim; [|done]. intros row st n _ H. by apply inv_set_cursor.
  - eapply t_bind; [apply t_get|intros [st|]]; [|apply t_ret; by intros row oc n [_ ?]].
    destruct (no_pending st) eqn:En; [|apply t_ret; by intros row oc n [_ ?]].
    apply t_remove. intros row oc n [-> Hi]. eapply inv_remove; [exact Hi|].
    unfold no_pending in En. by destruct (pending st).
Qed.

(** What a delivery owes: nothing still leased, acknowledged or stranded, and a lease of its own. *)
Definition delivered (ms : list TopicMessage) : Asrt := fun row oc n =>
  inv row oc n /\
  (forall m, m ∈ ms ->
     (forall t, (tm_offset m, t) ∈ leases -> timeout < clock env (pred n) - t) /\
     (forall a, a ∈ acks -> a < tm_offset m) /\
     (forall c, c ∈ stranded -> covers c (tm_offset m) = false) /\
     leased_by (pending_of oc) (tm_offset m) (clock env (pred n))).

(** The reservation [rid] and what was read of the committed offset. *)
Definition reserved_at (rid : Z) (acked : option Z) : Asrt := fun row oc n =>
  acked = (last_acked_offset <$> row) /\ rinv rid row oc n.

Lemma stable_reserved_at rid acked : stable (reserved_at rid acked).
Proof. apply (stable_and (rinv rid) (fun row _ => acked = (last_acked_offset <$> row))), stable_rinv. Qed.

Hint Resolve stable_reserved_at : kalam.

(** A message past the acknowledgements and outside other claims is owed to nobody. *)
Lemma free_message rid acked row st n m :
  reserved_at rid acked row (Some st) n -> tm_offset m < u64_max ->
  deliver_from st acked <= tm_offset m -> held_by_other st rid m = false ->
  (forall t, (tm_offset m, t) ∈ leases -> timeout < clock env n - t) /\
  (forall a, a ∈ acks -> a < tm_offset m) /\
  (forall c, c ∈ stranded -> covers c (tm_offset m) = false).
Proof.
  intros [Ha [(Hl & Hack & Hs & Hi) (? & [= <-] & Hf & Hst & Hh)]] Hmax Hdf Hheld.
  assert (forall a, acked_by row a -> a < tm_offset m) as Hpast.
  { intros a (r & -> & Hle). simpl in Ha. subst acked.
    unfold deliver_from, after_acked, saturating_add in Hdf. lia. }
  unfold held_by_other in Hheld. rewrite existsb_false in Hheld.
  assert (forall c, c ∈ pending st -> reservation_id c ≠ rid -> covers c (tm_offset m) = false)
    as Hcov.
  { intros c Hc Hne. specialize (Hheld c Hc). apply andb_false_iff in Hheld as [E|E]; [|done].
    apply negb_false_iff, Z.eqb_eq in E. done. }
  split_and!.
  - intros t Ht. destruct (Hl _ _ Ht) as [Hx|[(c & Hc & Hfl & Hco & _)|?]]; [|exfalso|done].
    + specialize (Hpast _ Hx). lia.
    + destruct (decide (reservation_id c = rid)) as [E|Hne].
      * by rewrite (Hf c Hc E) in Hfl.
      * by rewrite (Hcov c Hc Hne) in Hco.
  - intros a Hin. by apply Hpast, Hack.
  - intros c Hc. destruct (Hs c Hc) as [_ Hp]. apply Hcov; [exact Hp|by apply Hst].
Qed.

(** The settled range covers every delivered message. *)
Lemma settled_range_covers ms m dflt rid now :
  m ∈ ms -> tm_offset m < u64_max ->
  covers (mkClaim rid (default dflt (min_offset ms)) (default dflt (max_end ms)) now false)
    (tm_offset m) = true.
Proof.
  intros Hm Hmax. apply covers_spec. simpl. split.
  - destruct (min_offset ms) as [lo|] eqn:E; simpl.
    + apply list_min_spec in E as [_ Hmin]. apply Hmin. by apply list_elem_of_fmap_2.
    + apply list_min_None, fmap_nil_inv in E. subst. by apply elem_of_nil in Hm.
  - destruct (max_end ms) as [hi|] eqn:E; simpl.
    + apply list_max_spec in E as [_ Hmx].
      enough (saturating_add (tm_offset m) 1 <= hi) as H.
      { rewrite saturating_add_small in H by lia. lia. }
      apply Hmx. by apply (list_elem_of_fmap_2 (fun m => saturating_add (tm_offset m) 1)).
    + unfold max_end in E. destruct ms as [|x ms]; [by apply elem_of_nil in Hm|]. simpl in E.
      by destruct (list_max _).
Qed.

Lemma t_cancel {A} rid (P : Asrt) (Q : A -> Asrt) a :
  (forall row oc n, P row oc n -> rinv rid row oc n) ->
  (forall row oc n, inv row oc n -> Q a row oc n) ->
  triple P (do! modify_claim k (fun st => cancel_reservation st rid) in mret a) Q.
Proof.
  intros Hp Hq. eapply t_bind with (Q := fun _ => inv); [|intros _; by apply t_ret].
  apply t_modify_claim.
  - intros row st n _ H. by apply reserved_cancel, Hp.
  - intros row n H. by destruct (Hp _ _ _ H) as [_ (? & ? & _)].
Qed.

(** The end of the delivery: filter against the entry as it is now and settle. *)
Definition settle_code (fetch_start rid claimed_at : Z) (acked : option Z) (st : ClaimState)
    (messages : list TopicMessage) : M Service (option (list TopicMessage)) :=
  let messages := filter (fun m => deliver_from st acked <= tm_offset m /\
                                   held_by_other st rid m = false) messages in
  match messages with
  | [] => do! modify_claim k (fun st => cancel_reservation st rid) in mret None
  | _ =>
      let lo := default fetch_start (min_offset messages) in
      let hi := default fetch_start (max_end messages) in
      if has_reservation st rid then
        let! now := read_clock env in
        do! modify_claim k (fun st => finalize_reservation st rid lo hi now) in
        mret (Some messages)
      else if overlaps_pending st lo hi then mret None
      else
        do! modify_claim k (fun st => register_delivered_claim st lo hi claimed_at) in
        mret (Some messages)
  end.

Lemma ticks_settle fs rid ca acked st ms : ticks (settle_code fs rid ca acked st ms).
Proof.
  unfold settle_code. cbn zeta. destruct (filter _ ms); [ticks_tac|].
  destruct (has_reservation st rid); [ticks_tac|]. destruct (overlaps_pending _ _ _); ticks_tac.
Qed.

Lemma t_settle fs rid ca acked st ms :
  (forall m, m ∈ ms -> tm_offset m < u64_max) ->
  triple (fun row oc n => oc = Some st /\ reserved_at rid acked row oc n)
    (settle_code fs rid ca acked st ms)
    (fun r => match r with Some ms => delivered ms | None => inv end).
Proof.
  intros Hms. pose proof (ticks_settle fs rid ca acked st ms) as Ht. revert Ht.
  unfold settle_code. cbn zeta.
  set (ok := fun m => deliver_from st acked <= tm_offset m /\ held_by_other st rid m = false).
  assert (forall m, m ∈ filter ok ms -> ok m /\ tm_offset m < u64_max) as Hok.
  { intros m [? ?]%list_elem_of_filter. split; [done|]. by apply Hms. }
  fold ok. destruct (filter ok ms) as [|m0 ms'] eqn:Ef; intros Ht.
  { apply (t_cancel rid); [by intros row oc n (_ & _ & ?)|done]. }
  rewrite <-Ef in *.
  destruct (has_reservation st rid) eqn:Eh; cycle 1.
  { eapply t_pre with (P' := fun row oc n => False /\ inv row oc n); [|by apply t_pure].
    intros row oc n (-> & _ & _ & (? & [= <-] & _ & _ & ?)). congruence. }
  eapply t_bind; [apply t_clock|intros now].
  { apply (stable_and (reserved_at rid acked) (fun _ oc => oc = Some st)). auto with kalam. }
  eapply t_bind with (Q := fun _ => delivered (filter ok ms)); [|intros _; apply t_ret; done].
  apply t_modify_claim; [|by intros row n (_ & m & _ & ? & _)].
  intros row st' n _ ([-> Hn] & j & Hj & [= ->] & Hr).
  assert (rinv rid row (Some st) n) as Hrn
    by (eapply reserved_later; [done..|apply Hr|lia]).
  assert (forall lo hi now, inv row (Some (finalize_reservation st rid lo hi now)) n /\
    mkClaim rid lo hi now false ∈ pending (finalize_reservation st rid lo hi now)) as Hfinal
    by (intros; by apply reserved_finalize).
  destruct (Hfinal (default fs (min_offset (filter ok ms))) (default fs (max_end (filter ok ms)))
    (clock env (pred n))) as [Hfin Hnew].
  split; [exact Hfin|]. intros m Hm. destruct (Hok m Hm) as [[H1 H2] H3].
  destruct (free_message _ _ _ _ _ m Hr H3 H1 H2) as (F1 & F2 & F3). split_and!; try done.
  - intros t Hin. specialize (F1 t Hin). pose proof (Hclk j (pred n) ltac:(lia)). lia.
  - eexists. split; [exact Hnew|]. split_and!; [done| |done].
    by apply settled_range_covers.
Qed.

Lemma t_deliver start_offset fetch_start fetch_limit rid loaded :
  triple (rinv rid) (deliver_phase env interfere timeout k start_offset fetch_start fetch_limit rid
                       loaded)
    (fun r => match r with Some ms => delivered ms | None => inv end).
Proof.
  unfold deliver_phase.
  eapply t_bind; [apply t_offset; auto with kalam|intros acked].
  eapply t_bind; [apply t_get|intros entry]. cbn zeta.
  set (lo := Z.max fetch_start _). set (hi := saturating_add fetch_start fetch_limit).
  assert (forall m, m ∈ filter (fun m => lo <= tm_offset m < hi) loaded -> tm_offset m < u64_max)
    as Hms.
  { intros m [? _]%list_elem_of_filter. unfold hi, saturating_add in *. lia. }
  destruct (filter (fun m => lo <= tm_offset m < hi) loaded) as [|m0 ms] eqn:Ef.
  { apply (t_cancel rid); [by intros row oc n (_ & _ & ?)|done]. }
  eapply t_pre with (P' := reserved_at rid acked); [by intros row oc n (_ & ?)|].
  eapply t_bind; [apply t_clock; auto with kalam|intros claimed_at].
  eapply t_pre with (P' := fun row oc n => claimed_at <= clock env n /\ reserved_at rid acked row oc n).
  { intros row oc n ([-> Hn] & j & Hj & Ha & Hr). split; [apply Hclk; lia|]. split; [done|].
    eapply reserved_later; [done..|exact Hr|lia]. }
  assert (stable (fun row oc n => claimed_at <= clock env n /\ reserved_at rid acked row oc n)) as Hst.
  { destruct (stable_reserved_at rid acked) as [Hl Hi]. split; [|by intros row oc n [_ ?]; apply Hi].
    intros row oc n n' [? ?] Hn. split; [pose proof (Hclk n n' Hn); lia|by eapply Hl]. }
  eapply t_bind; [by apply t_start|intros init].
  eapply t_bind with
    (Q := fun _ row oc n => claimed_at <= clock env n /\ reserved_at rid acked row oc n).
  { apply t_insert; [done|]. by intros row n (_ & _ & _ & (? & ? & _)). }
  intros _. eapply t_bind with (Q := fun _ => reserved_at rid acked).
  { apply t_modify_claim; [|by intros row n (_ & _ & _ & (? & ? & _))].
    intros row st n _ (Hc & Ha & Hr). split; [done|]. by apply reserved_expire. }
  intros _. eapply t_bind; [apply t_get|intros entry'].
  destruct entry' as [st|].
  - cbn [default from_option]. exact (t_settle fetch_start rid claimed_at acked st (m0 :: ms) Hms).
  - eapply t_pre with (P' := fun row oc n => False /\ inv row oc n);
      [by intros row oc n (-> & _ & _ & (? & ? & _))|].
    apply t_pure; [|done].
    exact (ticks_settle fetch_start rid claimed_at acked (claim_state_new init) (m0 :: ms)).
Qed.

Lemma t_fetch fuel start_offset limit :
  triple inv (fetch_messages_for_group env interfere timeout fuel k start_offset limit)
    (fun r => match r with Some ms => delivered ms | None => inv end).
Proof.
  assert (forall row oc n, inv row oc n -> delivered [] row oc n) as Hnil.
  { intros row oc n H. split; [done|]. by intros m Hm%elem_of_nil. }
  unfold fetch_messages_for_group. destruct (limit =? 0); [by apply t_ret|].
  induction fuel as [|fuel IH]; cbn [fetch_loop]; [by apply t_ret|].
  eapply t_bind; [apply t_yield; auto with kalam|intros ?].
  eapply t_bind; [apply t_partition; [auto with kalam|apply ticks_log_reads]|intros earliest].
  eapply t_bind; [apply t_reserve|intros [| |fs fl rid]]; [by apply t_ret|exact IH|].
  eapply t_bind; [apply t_yield; auto with kalam|intros ?].
  eapply t_bind; [apply t_partition; [auto with kalam|apply ticks_log_reads]|intros loaded].
  destruct loaded as [|m0 ms].
  - eapply t_bind; [apply t_nothing|intros ?]. by apply t_ret.
  - eapply t_bind; [apply t_deliver|intros [ms'|]]; [by apply t_ret|exact IH].
Qed.

End Triples.

(** ** Runs of a group *)

Inductive GroupOp := Fetch (fuel : nat) (start_offset limit : Z) | Ack (offset : Z).

(** A delivery carries the time of its lease. *)
Inductive Outcome := Delivered (offsets : list Z) (at_ : Z) | Acked (offset : Z) | Quiet.

Section Runs.

Context (env : Env) (interfere : nat -> Service -> Service) (timeout : Z) (k : GroupPartitionKey).

Definition run_op (op : GroupOp) (n : nat) (s : Service) : Outcome * Service * nat :=
  match op with
  | Fetch fuel start limit =>
      let '(r, s', n') := fetch_messages_for_group env interfere timeout fuel k start limit n s in
      (match r with
       | Ok (Some ms) => Delivered (tm_offset <$> ms) (clock env (pred n'))
       | _ => Quiet
       end, s', n')
  | Ack o =>
      let '(r, s', n') := ack_offset env interfere k o n s in
      (match r with Ok _ => Acked o | Err _ => Quiet end, s', n')
  end.

Fixpoint run_group (ops : list GroupOp) (n : nat) (s : Service) : list Outcome * Service * nat :=
  match ops with
  | [] => ([], s, n)
  | op :: rest =>
      let '(out, s1, n1) := run_op op n s in
      let '(outs, s2, n2) := run_group rest n1 s1 in
      (out :: outs, s2, n2)
  end.

Abbreviation okey := (make_key (gp_topic_id k) (gp_group_id k) (gp_partition_id k)).
Abbreviation row_of s := (offset_store s !! okey).
Abbreviation claim_of s := (group_claim_state s !! k).

Hypothesis Hclk : clock_monotone env.
Hypothesis Htimeout : 0 <= timeout.
Hypothesis Hframe : frames interfere k.

Abbreviation ginv L A X s n := (group_inv env timeout L A X (row_of s) (claim_of s) n).

Lemma group_inv_new_row L A X row row' oc n :
  group_inv env timeout L A X row oc n ->
  (forall o, acked_by row o -> acked_by row' o) -> group_inv env timeout L A X row' oc n.
Proof.
  intros (Hl & Ha & Hs & Hi) Hr. split_and!; try done; [|by intros a ?; apply Hr, Ha].
  intros o t Ho. destruct (Hl o t Ho) as [?|?]; [left; by apply Hr|by right].
Qed.

(** Acknowledging: the committed offset reaches [o], or nothing changes. *)
Lemma ack_ok L A X o n s r s' n' :
  0 <= o -> ginv L A X s n -> ack_offset env interfere k o n s = (r, s', n') ->
  (n <= n')%nat /\
  match r with Ok _ => ginv L (o :: A) X s' n' | Err _ => ginv L A X s' n' end.
Proof.
  intros Ho Hinv E. destruct (Hframe n s) as [Hr Hc]. revert E.
  set (s0 := interfere n s) in *.
  (* the write of row [v] at tick [S m] *)
  assert (forall m v, (n <= m)%nat ->
    (forall x, acked_by (row_of s0) x -> x <= last_acked_offset v) -> io_ok env (S m) = true ->
    let s1 := upd_offsets (fun rows => <[okey := offset_ack v o (clock env m)]> rows) s0 in
    ginv L (o :: A) X (upd_claims (fun cs =>
      <[k := ack_up_to (default (claim_state_new (saturating_add o 1)) (cs !! k)) o]> cs) s1)
      (S (S m))) as Hwrite.
  { intros m v Hm Hv _. cbn [upd_claims upd_offsets offset_store group_claim_state].
    rewrite !lookup_insert_eq. set (v' := offset_ack v o (clock env m)).
    assert (o <= last_acked_offset v' /\ last_acked_offset v <= last_acked_offset v') as [Hov Hvv].
    { unfold v', offset_ack. case_match eqn:E; zbool; simpl; lia. }
    assert (group_inv env timeout L A X (Some v') (claim_of s0) (S (S m))) as H1.
    { eapply group_inv_new_row; [rewrite Hc; eapply group_inv_later; [done|exact Hinv|lia]|].
      rewrite <-Hr. intros x Hx. exists v'. split; [done|]. specialize (Hv x Hx). lia. }
    assert (group_inv env timeout L A X (Some v')
      (Some (default (claim_state_new (saturating_add o 1)) (claim_of s0))) (S (S m))) as H2.
    { destruct (claim_of s0); [exact H1|by apply inv_insert]. }
    apply (inv_ack env timeout L A X (Some v') _ o) in H2; [|by exists v'].
    destruct H2 as (G1 & G2 & G3 & G4). split_and!; try done.
    intros a [->|Ha]%elem_of_cons; [by exists v'|auto]. }
  assert (forall m, (n <= m)%nat -> ginv L A X s0 m) as Hkeep.
  { intros m Hm. rewrite Hr, Hc. eapply group_inv_later; [done|exact Hinv|lia]. }
  unfold ack_offset, provider_ack_offset, get_offset, mbind, yield_, storage_read, read_clock,
    storage_write, modify, mret. fold s0.
  destruct (io_ok env n); [|intros [= <- <- <-]; split; [lia|apply Hkeep; lia]].
  destruct (row_of s0) as [v|] eqn:Erow.
  - destruct (io_ok env (S (S n))) eqn:Eio; intros [= <- <- <-]; (split; [lia|]);
      [|rewrite Erow; apply Hkeep; lia].
    apply (Hwrite (S n) v); [lia| |done]. by intros x (? & [= <-] & ?).
  - destruct (io_ok env (S (S (S n)))) eqn:Eio; intros [= <- <- <-]; (split; [lia|]);
      [|rewrite Erow; apply Hkeep; lia].
    apply (Hwrite (S (S n))); [lia| |done]. by intros x (? & ? & ?).
Qed.

(** What the outcomes of a run owe to the past. *)
Definition respects (L : list (Z * Z)) (A : list Z) (X : list PendingClaim) (out : Outcome) : Prop :=
  match out with
  | Delivered os t => forall o, o ∈ os ->
      (forall t0, (o, t0) ∈ L -> timeout < t - t0) /\ (forall a, a ∈ A -> a < o) /\
      (forall c, c ∈ X -> covers c o = false)
  | _ => True
  end.

Definition new_leases (out : Outcome) : list (Z * Z) :=
  match out with Delivered os t => (fun o => (o, t)) <$> os | _ => [] end.
Definition new_acks (out : Outcome) : list Z :=
  match out with Acked o => [o] | _ => [] end.

Definition op_ok (op : GroupOp) : Prop := match op with Ack o => 0 <= o | _ => True end.

Lemma fetch_run L A X fuel st lim n s r s' n' :
  ginv L A X s n -> small n' ->
  fetch_messages_for_group env interfere timeout fuel k st lim n s = (r, s', n') ->
  match r with
  | Ok (Some ms) => delivered env timeout L A X ms (row_of s') (claim_of s') n'
  | _ => ginv L A X s' n'
  end.
Proof.
  intros Hinv Hs E.
  destruct (t_fetch env interfere timeout k L A X Hclk Htimeout Hframe fuel st lim) as [_ Ht].
  specialize (Ht n s r s' n' E Hinv Hs). by destruct r as [[ms|]|].
Qed.

Lemma run_op_ticks op n s : (n <= (run_op op n s).2)%nat.
Proof.
  destruct op as [fuel st lim|o]; simpl.
  - destruct (t_fetch env interfere timeout k [] [] [] Hclk Htimeout Hframe fuel st lim) as [T _].
    specialize (T n s). by destruct (fetch_messages_for_group _ _ _ _ _ _ _ n s) as [[r s'] n'].
  - assert (ticks (ack_offset env interfere k o)) as T.
    { unfold ack_offset, provider_ack_offset, get_offset. ticks_tac. intros ? ?. done. }
    specialize (T n s). by destruct (ack_offset _ _ _ _ n s) as [[r s'] n'].
Qed.

Lemma run_op_ok L A X op n s out s' n' :
  op_ok op -> ginv L A X s n -> small n' -> run_op op n s = (out, s', n') ->
  respects L A X out /\ ginv (new_leases out ++ L) (new_acks out ++ A) X s' n'.
Proof.
  intros Hop Hinv Hs. destruct op as [fuel st lim|o]; simpl.
  - destruct (fetch_messages_for_group env interfere timeout fuel k st lim n s) as [[r s1] n1] eqn:E.
    intros [= <- <- <-]. apply (fetch_run L A X) in E; [|done|done].
    destruct r as [[ms|]|e]; simpl; [|by split..].
    destruct E as [(Hl & Ha & Hst & Hi) Hms]. split.
    + intros o (m & -> & Hm)%list_elem_of_fmap. destruct (Hms m Hm) as (? & ? & ? & _). done.
    + split_and!; try done. intros o t [Hin|Hin]%elem_of_app; [|by apply Hl].
      apply list_elem_of_fmap in Hin as (o' & [= -> ->] & Hm).
      apply list_elem_of_fmap in Hm as (m & -> & Hm).
      destruct (Hms m Hm) as (_ & _ & _ & ?). by right; left.
  - destruct (ack_offset env interfere k o n s) as [[r s1] n1] eqn:E. intros [= <- <- <-].
    apply (ack_ok L A X) in E as [_ E]; [|done|done]. by destruct r.
Qed.

(** Every outcome respects the leases and acknowledgements before it. *)
Lemma run_group_ok L A X ops n s outs s' n' :
  Forall op_ok ops -> ginv L A X s n -> run_group ops n s = (outs, s', n') -> small n' ->
  (exists L' A', ginv L' A' X s' n') /\
  (forall j out, outs !! j = Some out -> respects L A X out) /\
  (forall (i j : nat) out out', (i < j)%nat -> outs !! i = Some out -> outs !! j = Some out' ->
     respects (new_leases out) (new_acks out) X out').
Proof.
  revert L A n s outs. induction ops as [|op ops IH]; intros L A n s outs Hops Hinv E Hs.
  { injection E as <- <- <-. split_and!; [eauto|done|done]. }
  apply Forall_cons in Hops as [Hop Hops]. cbn [run_group] in E.
  destruct (run_op op n s) as [[out s1] n1] eqn:Eop.
  destruct (run_group ops n1 s1) as [[outs' s2] n2] eqn:Eops. injection E as <- <- <-.
  assert (small n1) as Hs1.
  { clear -Eops Hs Hclk Htimeout Hframe. unfold small in *.
    enough (n1 <= n2)%nat by lia. revert n1 s1 outs' Eops.
    induction ops as [|op ops IH]; intros n1 s1 outs'; simpl; [by intros [= _ _ ->]|].
    pose proof (run_op_ticks op n1 s1) as Ht. destruct (run_op op n1 s1) as [[o1 s3] n3].
    destruct (run_group ops n3 s3) as [[o2 s4] n4] eqn:E. intros [= <- <- <-].
    specialize (IH n3 s3 o2 E). simpl in Ht. lia. }
  destruct (run_op_ok L A X op n s out s1 n1 Hop Hinv Hs1 Eop) as [Hr Hi].
  destruct (IH _ _ _ _ _ Hops Hi Eops Hs) as (Hfin & Hall & Hpair). split_and!; [done| |].
  - assert (forall x, respects (new_leases out ++ L) (new_acks out ++ A) X x -> respects L A X x)
      as Hweak.
    { intros [os t|o|]; simpl; [|done..]. intros H o Ho. destruct (H o Ho) as (H1 & H2 & H3).
      split_and!; [|set_solver|done]. intros t0 Ht0. apply H1. set_solver. }
    intros [|j] x; simpl; [by intros [= <-]|]. intros Hx. by eapply Hweak, Hall.
  - intros [|i] [|j] x y Hij; simpl; [lia| |lia|].
    + intros [= <-] Hy. specialize (Hall j y Hy). destruct y as [os t|o|]; simpl in *; [|done..].
      intros o Ho. destruct (Hall o Ho) as (H1 & H2 & H3).
      split_and!; [|set_solver|done]. intros t0 Ht0. apply H1. set_solver.
    + intros Hx Hy. eapply (Hpair i j); [lia|done|done].
Qed.

End Runs.

(** ** Fetches without interference, with working storage *)

Section Alone.

Context (env : Env) (timeout : Z) (k : GroupPartitionKey).
Hypothesis Hio : healthy env.

Abbreviation okey := (make_key (gp_topic_id k) (gp_group_id k) (gp_partition_id k)).
Abbreviation alone := (fun (_ : nat) (s : Service) => s).

(** What a fetch of the group sees of the service. *)
Definition view (s : Service) (p : Partition) (row : option TopicOffset) (oc : option ClaimState) :
    Prop :=
  partition_of s (tp_of k) = p /\ offset_store s !! okey = row /\ group_claim_state s !! k = oc.

(** [m] runs from [s] to some state seen as [v'], with result [a]. *)
Definition runs {A} (m : M Service A) (s : Service) (a : A) (v' : Service -> Prop) : Prop :=
  forall n, exists s' n', m n s = (Ok a, s', n') /\ v' s'.

Lemma runs_bind {A B} (m : M Service A) (f : A -> M Service B) s a v b v' :
  runs m s a v -> (forall s1, v s1 -> runs (f a) s1 b v') -> runs (mbind m f) s b v'.
Proof.
  intros Hm Hf n. destruct (Hm n) as (s1 & n1 & E & Hv). unfold mbind. rewrite E. by apply Hf.
Qed.

Lemma runs_ret {A} (a : A) s (v : Service -> Prop) : v s -> runs (mret a) s a v.
Proof. intros H n. exists s, n. done. Qed.

Lemma runs_yield s (v : Service -> Prop) : v s -> runs (yield_ alone) s tt v.
Proof. intros H n. exists s, n. done. Qed.

Lemma runs_get s p row oc :
  view s p row oc -> runs (get_claim k) s oc (fun s' => view s' p row oc).
Proof. intros H n. exists s, n. destruct H as (? & ? & <-). done. Qed.

Lemma runs_offset s p row oc :
  view s p row oc ->
  runs (durable_last_acked env alone k) s (last_acked_offset <$> row) (fun s' => view s' p row oc).
Proof.
  intros H n. exists s, (S n). split; [|done]. destruct H as (_ & <- & _).
  unfold durable_last_acked, get_offset, mbind, yield_, storage_read, mret. by rewrite Hio.
Qed.

Lemma runs_start s p row oc x :
  view s p row oc ->
  runs (group_fetch_start env alone k x) s
    (match row with Some r => saturating_add (last_acked_offset r) 1 | None => x end)
    (fun s' => view s' p row oc).
Proof.
  intros H. unfold group_fetch_start. eapply runs_bind; [by apply runs_offset|].
  intros s1 H1. destruct row; simpl; by apply runs_ret.
Qed.

Lemma runs_partition {A} (m : M Partition A) s p row oc a :
  view s p row oc -> (forall n, exists n', m n p = (Ok a, p, n')) ->
  runs (on_partition (tp_of k) m) s a (fun s' => view s' p row oc).
Proof.
  intros (Hp & Hr & Hc) Hm n. destruct (Hm n) as (n' & E). unfold on_partition. rewrite Hp, E.
  eexists _, _. split; [done|]. split_and!; try done. unfold partition_of. simpl.
  by rewrite lookup_insert_eq.
Qed.

Lemma runs_modify s p row st f :
  view s p row (Some st) ->
  runs (modify_claim k f) s tt (fun s' => view s' p row (Some (f st))).
Proof.
  intros (Hp & Hr & Hc) n. eexists _, _. split; [done|]. split_and!; try done. simpl.
  by rewrite lookup_alter_eq, Hc.
Qed.

Lemma runs_insert_some s p row st x :
  view s p row (Some st) -> runs (entry_or_insert k x) s tt (fun s' => view s' p row (Some st)).
Proof.
  intros (Hp & Hr & Hc) n. eexists _, _. split; [done|]. split_and!; try done. simpl.
  rewrite Hc. exact Hc.
Qed.

Lemma runs_insert_none s p row x :
  view s p row None ->
  runs (entry_or_insert k x) s tt (fun s' => view s' p row (Some (claim_state_new x))).
Proof.
  intros (Hp & Hr & Hc) n. eexists _, _. split; [done|]. split_and!; try done. simpl.
  rewrite Hc. by rewrite lookup_insert_eq.
Qed.

(** A partition that holds exactly what its log says, with its next offset assigned. *)
Definition log_view (p : Partition) (earliest hw : Z) : Prop :=
  tail_ok (p_log p) (p_tail p) /\ store_earliest_offset (p_log p) = Some earliest /\
  next_offset (p_write p) = Some hw /\ 0 < hw <= u64_max.

Lemma log_reads p e hw :
  log_view p e hw ->
  (forall n, exists n', earliest_available_offset env n p = (Ok e, p, n')) /\
  (forall x n, exists n', log_high_watermark env x n p = (Ok hw, p, n')) /\
  (forall o l n, 0 <= l -> exists n', load_messages env o l n p =
                                      (Ok (store_fetch_messages (p_log p) o l), p, n')).
Proof.
  intros (Ht & He & Hn & Hhw). split_and!.
  - intros n. unfold earliest_available_offset, mbind, storage_read, mret. rewrite Hio, He. eauto.
  - intros x n. unfold log_high_watermark, latest_offset, mbind, gets, mret. rewrite Hn.
    rewrite (proj2 (Z.eqb_neq _ _)) by lia. rewrite saturating_add_small by lia.
    replace (hw - 1 + 1) with hw by lia. eauto.
  - intros o l n Hl. unfold load_messages, mbind, gets, mret, storage_read.
    destruct (tail_fetch (p_tail p) o l) as [r|] eqn:E.
    + apply (tail_fetch_store (p_log p)) in E as ->; [eauto|done|done].
    + rewrite Hio. eauto.
Qed.

(** A reading of the clock, whatever it is. *)
Lemma runs_clock {B} (f : Z -> M Service B) s b v :
  (forall m, runs (f (clock env m)) s b v) -> runs (mbind (read_clock env) f) s b v.
Proof. intros H n. exact (H n (S n)). Qed.

Ltac unfold_default :=
  repeat match goal with |- context [default ?d (Some ?x)] => change (default d (Some x)) with x end.

(** *** A hole before a lease

    The cursor stands at [g], nothing is stored from [g] up to the lease [c], and the lease is
    still alive. *)

Section Hole.

Context (p : Partition) (row : option TopicOffset) (g e hw : Z) (c : PendingClaim).
Hypothesis Hlog : log_view p e hw.
Hypothesis Hbounds : 0 <= e <= g /\ g < claim_start c < end_exclusive c /\ end_exclusive c <= hw.
Hypothesis Hlease : in_flight c = false /\ forall m, clock env m - claimed_at c <= timeout.
Hypothesis Htime : 0 <= timeout.
Hypothesis Hrow : match row with Some r => 0 <= last_acked_offset r < g | None => True end.
Hypothesis Hhole : forall m, m ∈ p_log p -> ~ (g <= tm_offset m < claim_start c).
Hypothesis Hnext : exists m, m ∈ p_log p /\ claim_start c <= tm_offset m.

Definition at_hole (s : Service) : Prop :=
  exists id la, reservation_id c < id <= u64_max /\
    view s p row (Some (mkClaimState g [c] id la)).

Lemma hole_expire id la m :
  expire_stale_claims (mkClaimState g [c] id la) (clock env m) timeout = mkClaimState g [c] id la.
Proof.
  assert (is_stale (clock env m) timeout c = false) as E.
  { unfold is_stale, saturating_sub. destruct Hlease as [-> Hl]. specialize (Hl m). simpl. lia. }
  unfold expire_stale_claims. cbn [pending cursor next_reservation_id last_acked].
  rewrite !filter_cons, !filter_nil, E. done.
Qed.

Lemma hole_ack id la a :
  0 <= a < g -> exists la', ack_up_to (mkClaimState g [c] id la) a = mkClaimState g [c] id la'.
Proof.
  intros Ha. destruct Hlog as (_ & _ & _ & Hhw). unfold ack_up_to. cbn [pending cursor next_reservation_id].
  rewrite saturating_add_small by lia. rewrite (proj2 (Z.ltb_ge _ _)) by lia.
  cbn [omap list_omap]. unfold ack_claim. destruct Hlease as [-> _].
  rewrite (proj2 (Z.leb_gt _ _)), (proj2 (Z.ltb_ge _ _)) by lia. eauto.
Qed.

Lemma hole_window id la limit :
  0 < limit -> exists w, next_available_window (mkClaimState g [c] id la) limit = (g, w) /\
                         0 < w <= claim_start c - g.
Proof.
  intros Hl.
  destruct (next_window_is_free (mkClaimState g [c] id la) limit Hl) as
    (s & w & E & Hw & Hcur & Hfree & Hcov & _); [done|].
  cbn [cursor pending] in *. assert (s = g) as ->.
  { destruct (decide (s = g)) as [?|Hne]; [done|]. destruct (Hcov g ltac:(lia)) as (d & Hd & Hc).
    apply list_elem_of_singleton in Hd as ->. apply covers_spec in Hc. lia. }
  exists w. split; [done|]. split; [lia|].
  destruct (Z.le_gt_cases w (claim_start c - g)) as [?|Hgt]; [done|].
  specialize (Hfree (claim_start c) c ltac:(lia) ltac:(set_solver)).
  apply covers_false in Hfree. lia.
Qed.

Lemma hole_reserve s start_offset limit :
  0 < limit -> at_hole s ->
  exists w id, 0 < w <= claim_start c - g /\ reservation_id c < id <= u64_max /\
    runs (reserve_phase env (fun _ s => s) timeout k start_offset limit e) s (Reserved g w id)
      (fun s' => exists now la, view s' p row (Some (push_claim (mkClaimState g [c] id la) g
                                                      (saturating_add g w) now true))).
Proof.
  intros Hlim (id & la & Hid & Hv).
  assert (exists la', (match last_acked_offset <$> row with
            | Some a => ack_up_to (mkClaimState g [c] id la) a
            | None => mkClaimState g [c] id la end) = mkClaimState g [c] id la') as [la' Hla].
  { destruct row as [r|]; [by apply hole_ack|eauto]. }
  destruct (hole_window id la' limit Hlim) as (w & Hw & Hwb).
  destruct (log_reads p e hw Hlog) as (_ & Hhwm & _).
  assert (0 < Z.min w (saturating_sub hw g) <= claim_start c - g) as Hav
    by (unfold saturating_sub; lia).
  exists (Z.min w (saturating_sub hw g)), id. split; [done|]. split; [done|]. unfold reserve_phase.
  eapply runs_bind; [eapply runs_start; exact Hv|]. intros s1 H1. cbn beta in H1.
  eapply runs_bind; [eapply runs_insert_some; exact H1|]. intros s2 H2. cbn beta in H2.
  apply runs_clock. intros m.
  eapply runs_bind; [eapply runs_modify; exact H2|]. intros s3 H3. cbn beta in H3.
  cbn beta in H3. rewrite hole_expire in H3.
  eapply runs_bind; [eapply runs_offset; exact H3|]. intros s4 H4. cbn beta in H4.
  eapply runs_bind with (a := tt) (v := fun s' => view s' p row (Some (mkClaimState g [c] id la'))).
  { destruct row as [r|]; cbn [fmap option_fmap option_map] in *.
    - intros n. destruct (runs_modify s4 p _ _ (fun st => ack_up_to st (last_acked_offset r)) H4 n)
        as (s' & n' & E & Hv'). cbn beta in Hv'. rewrite Hla in Hv'. eauto.
    - injection Hla as ->. by apply runs_ret. }
  intros s5 H5. eapply runs_bind; [eapply runs_get; exact H5|]. intros s6 H6. cbn beta in H6.
  unfold_default. rewrite Hw. rewrite (proj2 (Z.eqb_neq _ _)), (proj2 (Z.ltb_ge _ _)) by lia.
  eapply runs_bind; [apply (runs_yield s6 (eq s6)); done|]. intros s7 <-.
  eapply runs_bind; [eapply runs_partition; [exact H6|by apply Hhwm]|]. intros s8 H8. cbn beta in H8.
  cbn zeta. rewrite (proj2 (Z.eqb_neq _ _)) by lia.
  apply runs_clock. intros m'. unfold reserve_window. cbn [next_reservation_id].
  eapply runs_bind; [eapply runs_modify; exact H8|]. intros s9 H9. cbn beta in H9. apply runs_ret. eauto.
Qed.

(** The scan finds nothing inside the window: the round ends where it began. *)
Lemma hole_deliver s id la now w start_offset :
  0 < w <= claim_start c - g -> reservation_id c < id <= u64_max ->
  view s p row (Some (push_claim (mkClaimState g [c] id la) g (saturating_add g w) now true)) ->
  runs (deliver_phase env (fun _ s => s) timeout k start_offset g w id
          (store_fetch_messages (p_log p) g w)) s None at_hole.
Proof.
  intros Hw Hid Hv. unfold deliver_phase.
  eapply runs_bind; [eapply runs_offset; exact Hv|]. intros s1 H1. cbn beta in H1.
  eapply runs_bind; [eapply runs_get; exact H1|]. intros s2 H2. cbn beta in H2. cbn zeta.
  match goal with |- runs (match ?l with [] => _ | _ => _ end) _ _ _ =>
    destruct l as [|m ms] eqn:E end; cycle 1.
  { exfalso. assert (m ∈ m :: ms) as Hm by set_solver. rewrite <-E in Hm.
    apply list_elem_of_filter in Hm as [[Hlo Hhi] Hm]. unfold store_fetch_messages in Hm.
    assert (m ∈ filter (fun m => g <= tm_offset m) (p_log p)) as Hm2.
    { rewrite <-(take_drop (Z.to_nat w)). apply elem_of_app. by left. }
    apply list_elem_of_filter in Hm2 as [? Hin]. apply (Hhole m Hin).
    unfold saturating_add in Hhi. lia. }
  eapply runs_bind; [eapply runs_modify; exact H2|]. intros s3 H3. cbn beta in H3. apply runs_ret.
  cbn beta in H3. unfold cancel_reservation, push_claim in H3.
  cbn [pending cursor next_reservation_id last_acked app] in H3.
  rewrite filter_cons_True, filter_cons_False, filter_nil in H3; [|simpl; lia|simpl; lia].
  exists (saturating_add id 1), la. split; [|done].
  unfold saturating_add. lia.
Qed.

(** Whatever the number of rounds, the loop is still running. *)
Lemma hole_spins fuel s start_offset limit :
  0 < limit -> at_hole s ->
  runs (fetch_loop env (fun _ s => s) timeout fuel k start_offset limit) s None at_hole.
Proof.
  intros Hlim. revert s. induction fuel as [|fuel IH]; intros s Hs; cbn [fetch_loop];
    [by apply runs_ret|].
  destruct (log_reads p e hw Hlog) as (Hear & _ & Hload).
  pose proof Hs as (id0 & la0 & _ & Hv).
  eapply runs_bind; [apply (runs_yield s (eq s)); done|]. intros s1 <-.
  eapply runs_bind; [eapply runs_partition; [exact Hv|by apply Hear]|]. intros s2 H2. cbn beta in H2.
  destruct (hole_reserve s2 start_offset limit Hlim) as (w & id & Hw & Hid & Hres).
  { destruct Hs as (id1 & la1 & Hid1 & Hv1). exists id0, la0. split; [|done].
    destruct Hv as (_ & _ & Hc). destruct Hv1 as (_ & _ & Hc1).
    assert (id0 = id1) as -> by congruence. done. }
  eapply runs_bind; [exact Hres|]. intros s3 (now & la & H3).
  eapply runs_bind; [apply (runs_yield s3 (eq s3)); done|]. intros s4 <-.
  eapply runs_bind; [eapply runs_partition; [exact H3|intros n; apply Hload; lia]|].
  intros s5 H5. cbn beta in H5.
  assert (store_fetch_messages (p_log p) g w ≠ []) as Hne.
  { destruct Hnext as (m & Hm & Hge). unfold store_fetch_messages.
    destruct (filter (fun m => g <= tm_offset m) (p_log p)) as [|x l] eqn:E.
    - exfalso. apply (elem_of_nil m). rewrite <-E. apply list_elem_of_filter. split; [lia|done].
    - destruct (Z.to_nat w) eqn:Ew; [lia|done]. }
  pose proof (hole_deliver s5 id la now w start_offset Hw Hid H5) as Hdel.
  destruct (store_fetch_messages (p_log p) g w) as [|m0 ms]; [done|].
  eapply runs_bind; [exact Hdel|]. intros s6 H6. by apply IH.
Qed.

End Hole.

(** *** The first fetch of a group *)

Section FirstFetch.

Context (p : Partition) (row : option TopicOffset) (e hw limit : Z).
Hypothesis Hlog : log_view p e hw.
Hypothesis Hfull : consecutive e (p_log p) /\ e + Z.of_nat (length (p_log p)) = hw /\ 0 <= e.
Hypothesis Hlimit : 0 < limit <= u64_max.
Hypothesis Hrow : match row with Some r => 0 <= last_acked_offset r | None => True end.

Abbreviation committed := (last_acked_offset <$> row).

(** A group entry without claims, at or past the committed offset. *)
Definition clean (cur : Z) (la : option Z) : ClaimState := mkClaimState cur [] 1 la.
Definition past_committed (cur : Z) : Prop :=
  match committed with Some a => a + 1 <= cur | None => True end.

Lemma fetch_slice cur w :
  e <= cur ->
  store_fetch_messages (p_log p) cur w = take (Z.to_nat w) (drop (Z.to_nat (cur - e)) (p_log p)).
Proof.
  intros Hc. destruct Hfull as (Hcon & _ & _). unfold store_fetch_messages. f_equal.
  rewrite <-(consecutive_filter_drop e) by done. apply list_filter_iff. intros m. lia.
Qed.

Lemma fetch_run_of_log cur w :
  e <= cur -> 0 <= w <= hw - cur ->
  consecutive cur (store_fetch_messages (p_log p) cur w) /\
  Z.of_nat (length (store_fetch_messages (p_log p) cur w)) = w.
Proof.
  intros Hc Hw. rewrite fetch_slice by done. destruct Hfull as (Hcon & Hlen & _).
  set (i := Z.to_nat (cur - e)).
  rewrite length_take, length_drop. split; [|lia].
  rewrite <-(take_drop i (p_log p)), consecutive_app in Hcon. destruct Hcon as [_ Hcon].
  rewrite length_take, Nat.min_l in Hcon by lia.
  rewrite <-(take_drop (Z.to_nat w) (drop i (p_log p))), consecutive_app in Hcon.
  destruct Hcon as [Hcon _]. replace cur with (e + Z.of_nat i) by lia. exact Hcon.
Qed.

(** The steps before the window is chosen. *)
Lemma clean_entry {B} s cur oc start_offset (f : Z -> M Service B) b v :
  past_committed cur -> 0 <= cur <= u64_max ->
  (oc = None /\ cur = match row with
                      | Some r => saturating_add (last_acked_offset r) 1 | None => start_offset end \/
   oc = Some (clean cur committed)) ->
  view s p row oc ->
  (forall init s', view s' p row (Some (clean cur committed)) -> runs (f init) s' b v) ->
  runs (let! initial_start := group_fetch_start env (fun _ s => s) k start_offset in
        do! entry_or_insert k initial_start in
        let! now := read_clock env in
        do! modify_claim k (fun st => expire_stale_claims st now timeout) in
        let! acked := durable_last_acked env (fun _ s => s) k in
        do! match acked with Some a => modify_claim k (fun st => ack_up_to st a)
            | None => mret tt end in
        f initial_start) s b v.
Proof.
  intros Hpast Hcur Hoc Hv Hf.
  eapply runs_bind; [eapply runs_start; exact Hv|]. intros s1 H1. cbn beta in H1.
  eapply runs_bind with (a := tt)
    (v := fun s' => exists la, (la = None \/ la = committed) /\ view s' p row (Some (clean cur la))).
  { destruct Hoc as [[-> ->]| ->]; intros n.
    - destruct (runs_insert_none s1 p row
        (match row with Some r => saturating_add (last_acked_offset r) 1 | None => start_offset end)
        H1 n) as (s' & n' & E & H). eexists _, _.
      split; [exact E|]. exists None. split; [by left|exact H].
    - destruct (runs_insert_some s1 p row _
        (match row with Some r => saturating_add (last_acked_offset r) 1 | None => start_offset end)
        H1 n) as (s' & n' & E & H). eexists _, _. split; [exact E|]. exists committed.
      split; [by right|exact H]. }
  intros s2 (la & Hla & H2). apply runs_clock. intros m.
  eapply runs_bind; [eapply runs_modify; exact H2|]. intros s3 H3. cbn beta in H3.
  change (expire_stale_claims (clean cur la) (clock env m) timeout) with (clean cur la) in H3.
  eapply runs_bind; [eapply runs_offset; exact H3|]. intros s4 H4. cbn beta in H4.
  eapply runs_bind with (a := tt) (v := fun s' => view s' p row (Some (clean cur committed)));
    [|intros s5 H5; by apply Hf].
  unfold past_committed in Hpast.
  destruct row as [r|]; cbn [fmap option_fmap option_map] in *.
  - intros n. destruct (runs_modify s4 p _ _ (fun st => ack_up_to st (last_acked_offset r)) H4 n)
      as (s' & n' & E & H). eexists _, _. split; [exact E|]. revert H.
    unfold ack_up_to, clean. cbn [cursor pending next_reservation_id last_acked].
    rewrite saturating_add_small by lia. rewrite (proj2 (Z.ltb_ge _ _)) by lia.
    assert (match la with Some previous => Z.max previous (last_acked_offset r)
            | None => last_acked_offset r end = last_acked_offset r) as ->
      by (destruct Hla as [-> | ->]; lia).
    done.
  - destruct Hla as [-> | ->]; by apply runs_ret.
Qed.

Lemma clean_window cur la : next_available_window (clean cur la) limit = (cur, limit).
Proof. unfold next_available_window. simpl. by rewrite Z.min_l by lia. Qed.

(** The entry once the window is reserved, and once it is leased. *)
Definition reserved_entry (cur w now : Z) : ClaimState :=
  mkClaimState cur [mkClaim 1 cur (saturating_add cur w) now true] 2 committed.
Definition leased_entry (cur w now : Z) : ClaimState :=
  mkClaimState (cur + w) [mkClaim 1 cur (cur + w) now false] 2 committed.

Lemma clean_reserve s cur oc start_offset :
  past_committed cur -> 0 <= cur < hw ->
  (oc = None /\ cur = match row with
                      | Some r => saturating_add (last_acked_offset r) 1 | None => start_offset end \/
   oc = Some (clean cur committed)) ->
  view s p row oc ->
  if cur <? e
  then runs (reserve_phase env (fun _ s => s) timeout k start_offset limit e) s TryAgain
         (fun s' => view s' p row (Some (clean e committed)))
  else runs (reserve_phase env (fun _ s => s) timeout k start_offset limit e) s
         (Reserved cur (Z.min limit (hw - cur)) 1)
         (fun s' => exists now, view s' p row (Some (reserved_entry cur (Z.min limit (hw - cur)) now))).
Proof.
  intros Hpast Hcur Hoc Hv. pose proof Hlog as (_ & _ & _ & Hhw).
  destruct (log_reads p e hw Hlog) as (_ & Hhwm & _).
  destruct (cur <? e) eqn:Ee; unfold reserve_phase;
    (eapply clean_entry; [done|lia|exact Hoc|exact Hv|]);
    intros init s1 H1; (eapply runs_bind; [eapply runs_get; exact H1|]); intros s2 H2; cbn beta in H2;
    unfold_default; rewrite clean_window, (proj2 (Z.eqb_neq _ _)), Ee by lia.
  - eapply runs_bind; [eapply runs_modify; exact H2|]. intros s3 H3. by apply runs_ret.
  - eapply runs_bind; [apply (runs_yield s2 (eq s2)); done|]. intros s3 <-.
    eapply runs_bind; [eapply runs_partition; [exact H2|by apply Hhwm]|].
    intros s4 H4. cbn beta in H4. cbn zeta. unfold saturating_sub. rewrite (Z.max_r 0) by lia.
    rewrite (proj2 (Z.eqb_neq _ _)) by lia.
    apply runs_clock. intros m. unfold reserve_window.
    eapply runs_bind; [eapply runs_modify; exact H4|]. intros s5 H5. cbn beta in H5.
    apply runs_ret. exists (clock env m). exact H5.
Qed.

Lemma consecutive_extremes cur ms :
  consecutive cur ms -> ms ≠ [] -> cur + Z.of_nat (length ms) <= u64_max ->
  min_offset ms = Some cur /\ max_end ms = Some (cur + Z.of_nat (length ms)).
Proof.
  intros Hc Hne Hmax. pose proof (fun m => consecutive_range cur ms m Hc) as Hr. split.
  - apply list_min_spec. destruct ms as [|m ms]; [done|]. destruct Hc as [Hm Hc]. split.
    + cbn [fmap list_fmap]. rewrite Hm. set_solver.
    + intros x (y & -> & Hy)%list_elem_of_fmap. specialize (Hr y Hy). lia.
  - destruct (max_end ms) as [h|] eqn:E.
    + f_equal. apply list_max_spec in E as [Hin Hall].
      apply list_elem_of_fmap in Hin as (y & -> & Hy). pose proof (Hr y Hy).
      destruct (last ms) as [z|] eqn:El; [|by apply last_None in El].
      apply last_Some in El as (pre & ->).
      apply consecutive_app in Hc as [_ [Hz _]].
      specialize (Hall (saturating_add (tm_offset z) 1)).
      rewrite length_app in *. cbn [length] in *.
      rewrite !saturating_add_small in * by lia.
      assert (tm_offset z + 1 <= tm_offset y + 1); [|lia]. apply Hall.
      apply list_elem_of_fmap. exists z. rewrite saturating_add_small by lia. set_solver.
    + destruct ms as [|m ms]; [done|]. unfold max_end in E. simpl in E. by destruct (list_max _).
Qed.

Lemma clean_deliver s cur now start_offset w :
  past_committed cur -> e <= cur -> 0 <= cur -> 0 < w <= hw - cur ->
  view s p row (Some (reserved_entry cur w now)) ->
  runs (deliver_phase env (fun _ s => s) timeout k start_offset cur w 1
          (store_fetch_messages (p_log p) cur w)) s
    (Some (store_fetch_messages (p_log p) cur w))
    (fun s' => exists at_, view s' p row (Some (leased_entry cur w at_))).
Proof.
  intros Hpast He H0 Hw Hv. pose proof Hlog as (_ & _ & _ & Hhw).
  destruct (fetch_run_of_log cur w He ltac:(lia)) as [Hcon Hlen].
  set (ms := store_fetch_messages (p_log p) cur w) in *.
  pose proof (fun m => consecutive_range cur ms m Hcon) as Hr.
  assert (ms ≠ []) as Hne by (intros E; rewrite E in Hlen; simpl in Hlen; lia).
  destruct (consecutive_extremes cur ms Hcon Hne ltac:(lia)) as [Hmin Hmax].
  assert (deliver_from (reserved_entry cur w now) committed <= cur) as Hdf.
  { unfold deliver_from, reserved_entry, after_acked, past_committed in *. cbn [last_acked].
    destruct committed; [rewrite saturating_add_small by lia|]; lia. }
  unfold deliver_phase.
  eapply runs_bind; [eapply runs_offset; exact Hv|]. intros s1 H1. cbn beta in H1.
  eapply runs_bind; [eapply runs_get; exact H1|]. intros s2 H2. cbn beta in H2. cbn zeta.
  rewrite (saturating_add_small cur w) by lia.
  match goal with |- runs (match ?l with [] => _ | _ => _ end) _ _ _ =>
    assert (l = ms) as Hkeep by (apply filter_all; intros m Hm; specialize (Hr m Hm); lia);
    destruct l as [|m0 ms0] eqn:E; [congruence|] end.
  rewrite Hkeep. clear E. apply runs_clock. intros m.
  eapply runs_bind; [eapply runs_start; exact H2|]. intros s3 H3. cbn beta in H3.
  eapply runs_bind; [eapply runs_insert_some; exact H3|]. intros s4 H4. cbn beta in H4.
  eapply runs_bind; [eapply runs_modify; exact H4|]. intros s5 H5. cbn beta in H5.
  change (expire_stale_claims (reserved_entry cur w now) (clock env m) timeout)
    with (reserved_entry cur w now) in H5.
  eapply runs_bind; [eapply runs_get; exact H5|]. intros s6 H6. cbn beta in H6. unfold_default.
  match goal with |- runs (match ?l with [] => _ | _ => _ end) _ _ _ =>
    assert (l = ms) as Hkeep2;
    [apply filter_all; intros x Hx; specialize (Hr x Hx); split; [lia|done]|
     destruct l as [|m1 ms1] eqn:E; [congruence|]] end.
  rewrite Hkeep2. clear E. change (has_reservation (reserved_entry cur w now) 1) with true.
  apply runs_clock. intros m'. eapply runs_bind; [eapply runs_modify; exact H6|]. intros s7 H7.
  cbn beta in H7. apply runs_ret. exists (clock env m'). revert H7. rewrite Hmin, Hmax, Hlen.
  unfold_default. unfold finalize_reservation, reserved_entry, leased_entry.
  cbn [pending settle_claim reservation_id]. rewrite Z.eqb_refl.
  unfold advance_cursor_for_contiguous_claim. cbn [cursor].
  rewrite Z.leb_refl. unfold set_cursor. cbn [cursor pending next_reservation_id last_acked].
  by rewrite Z.max_r by lia.
Qed.

(** Two rounds are enough: one may move the cursor to the start of the log. *)
Lemma first_fetch s start_offset start :
  view s p row None ->
  start = match row with
          | Some r => saturating_add (last_acked_offset r) 1 | None => start_offset end ->
  0 <= start -> Z.max start e < hw ->
  forall fuel, runs (fetch_loop env (fun _ s => s) timeout (S (S fuel)) k start_offset limit) s
    (Some (store_fetch_messages (p_log p) (Z.max start e) (Z.min limit (hw - Z.max start e))))
    (fun s' => exists at_, view s' p row
       (Some (leased_entry (Z.max start e) (Z.min limit (hw - Z.max start e)) at_))).
Proof.
  intros Hv Hstart H0 Hlt. pose proof Hlog as (_ & _ & _ & Hhw).
  destruct (log_reads p e hw Hlog) as (Hear & _ & Hload). destruct Hfull as (_ & _ & He0).
  assert (past_committed start) as Hpast.
  { unfold past_committed. destruct row as [r|]; simpl; [|done]. subst start.
    unfold saturating_add in *. lia. }
  assert (forall fuel s cur oc, past_committed cur -> e <= cur < hw ->
    (oc = None /\ cur = start \/ oc = Some (clean cur committed)) -> view s p row oc ->
    runs (fetch_loop env (fun _ s => s) timeout (S fuel) k start_offset limit) s
      (Some (store_fetch_messages (p_log p) cur (Z.min limit (hw - cur))))
      (fun s' => exists at_, view s' p row (Some (leased_entry cur (Z.min limit (hw - cur)) at_))))
    as Hround.
  { intros fuel s0 cur oc Hp Hc Hoc Hv0. cbn [fetch_loop].
    eapply runs_bind; [apply (runs_yield s0 (eq s0)); done|]. intros s1 <-.
    eapply runs_bind; [eapply runs_partition; [exact Hv0|by apply Hear]|]. intros s2 H2. cbn beta in H2.
    pose proof (clean_reserve s2 cur oc start_offset Hp ltac:(lia)) as Hres. rewrite <-Hstart in Hres.
    specialize (Hres Hoc H2). rewrite (proj2 (Z.ltb_ge _ _)) in Hres by lia.
    eapply runs_bind; [exact Hres|]. intros s3 (now & H3).
    eapply runs_bind; [apply (runs_yield s3 (eq s3)); done|]. intros s4 <-.
    eapply runs_bind; [eapply runs_partition; [exact H3|intros n; apply Hload; lia]|].
    intros s5 H5. cbn beta in H5.
    pose proof (clean_deliver s5 cur now start_offset (Z.min limit (hw - cur)) Hp ltac:(lia)
                  ltac:(lia) ltac:(lia) H5) as Hdel.
    destruct (fetch_run_of_log cur (Z.min limit (hw - cur)) ltac:(lia) ltac:(lia)) as [_ Hlen].
    destruct (store_fetch_messages (p_log p) cur (Z.min limit (hw - cur))) as [|m0 ms];
      [simpl in Hlen; lia|].
    eapply runs_bind; [exact Hdel|]. intros s6 H6. by apply runs_ret. }
  intros fuel. destruct (Z.lt_ge_cases start e) as [Hse|Hse].
  - rewrite Z.max_r by lia. cbn [fetch_loop].
    eapply runs_bind; [apply (runs_yield s (eq s)); done|]. intros s1 <-.
    eapply runs_bind; [eapply runs_partition; [exact Hv|by apply Hear]|]. intros s2 H2. cbn beta in H2.
    pose proof (clean_reserve s2 start None start_offset Hpast ltac:(lia)) as Hres.
    rewrite <-Hstart in Hres. specialize (Hres (or_introl (conj eq_refl eq_refl)) H2).
    rewrite (proj2 (Z.ltb_lt _ _)) in Hres by lia.
    eapply runs_bind; [exact Hres|]. intros s3 H3. cbn beta in H3.
    apply (Hround fuel s3 e (Some (clean e committed))); [|lia|by right|done].
    unfold past_committed in *. destruct committed; [lia|done].
  - rewrite Z.max_l by lia. apply (Hround (S fuel) s start None); [done|lia|by left|done].
Qed.

End FirstFetch.

End Alone.

(** ** Properties *)

(** C3. Consumers of a group never get the same offset twice within the visibility timeout, nor
    an offset that was acknowledged before: over any sequence of fetches and acknowledgements of
    a group that starts without claims, with any storage failures and any concurrent activity
    of publishers, retention and other groups, an offset delivered twice was leased more than
    the timeout apart, and every offset delivered after an acknowledgement lies above it. *)
Theorem no_redelivery_within_lease env interfere timeout k ops n s outs s' n' :
  clock_monotone env -> 0 <= timeout -> frames interfere k ->
  Forall op_ok ops -> group_claim_state s !! k = None ->
  run_group env interfere timeout k ops n s = (outs, s', n') -> small n' ->
  forall (i j : nat) out os t, (i < j)%nat -> outs !! i = Some out ->
    outs !! j = Some (Delivered os t) ->
    match out with
    | Delivered os0 t0 => forall o, o ∈ os0 -> o ∈ os -> timeout < t - t0
    | Acked a => forall o, o ∈ os -> a < o
    | Quiet => True
    end.
Proof.
  intros Hclk Ht Hf Hops Hnone Hrun Hs i j out os t Hij Hi Hj.
  assert (group_inv env timeout [] [] [] (offset_store s !! make_key (gp_topic_id k) (gp_group_id k)
            (gp_partition_id k)) (group_claim_state s !! k) n) as Hinv.
  { rewrite Hnone. split_and!; [by intros o t0 H%elem_of_nil|by intros a H%elem_of_nil
      |by intros c H%elem_of_nil|by intros st H]. }
  destruct (run_group_ok env interfere timeout k Hclk Ht Hf [] [] [] ops n s outs s' n' Hops Hinv
              Hrun Hs) as (_ & _ & Hpair).
  specialize (Hpair i j _ _ Hij Hi Hj). simpl in Hpair. destruct out as [os0 t0|a|]; [| |done].
  - intros o Ho Ho'. destruct (Hpair o Ho') as (H & _). apply H.
    apply (list_elem_of_fmap_2 (fun o => (o, t0))). done.
  - intros o Ho. destruct (Hpair o Ho) as (_ & H & _). apply H. simpl. set_solver.
Qed.

(** C40. A fetch that fails after reserving its window strands the window: over any sequence of
    fetches and acknowledgements of the group, with interference that leaves the claims of the
    group alone (no reset of the group, no restart, both of which drop its claims), a claim in flight
    whose fetch is over is dropped neither by the visibility timeout nor by an acknowledgement,
    and no fetch of the sequence delivers an offset inside it. *)
Theorem stranded_window_is_never_delivered env interfere timeout k ops n s st c outs s' n' :
  clock_monotone env -> 0 <= timeout -> frames interfere k -> Forall op_ok ops ->
  group_claim_state s !! k = Some st -> c ∈ pending st -> in_flight c = true ->
  (forall d, d ∈ pending st -> reservation_id d < next_reservation_id st) ->
  1 <= next_reservation_id st <= Z.of_nat n + 1 ->
  run_group env interfere timeout k ops n s = (outs, s', n') -> small n' ->
  (forall (j : nat) os t o, outs !! j = Some (Delivered os t) -> o ∈ os -> covers c o = false) /\
  exists st', group_claim_state s' !! k = Some st' /\ c ∈ pending st'.
Proof.
  intros Hclk Ht Hf Hops Hst Hc Hfl Hid Hnx Hrun Hs.
  assert (group_inv env timeout [] [] [c] (offset_store s !! make_key (gp_topic_id k) (gp_group_id k)
            (gp_partition_id k)) (group_claim_state s !! k) n) as Hinv.
  { rewrite Hst. split_and!; [by intros o t0 H%elem_of_nil|by intros a H%elem_of_nil| |].
    - intros d ->%list_elem_of_singleton. done.
    - intros st0 [= <-]. done. }
  destruct (run_group_ok env interfere timeout k Hclk Ht Hf [] [] [c] ops n s outs s' n' Hops Hinv
              Hrun Hs) as ((L' & A' & (_ & _ & Hstr & _)) & Hall & _).
  split.
  - intros j os t o Hj Ho. destruct (Hall j _ Hj o Ho) as (_ & _ & H). apply H. set_solver.
  - destruct (Hstr c ltac:(set_solver)) as [_ Hp].
    destruct (group_claim_state s' !! k) as [st'|]; [eauto|by apply elem_of_nil in Hp].
Qed.

(** A hole in the offsets stalls a group: when a publish failed and left offset [g] unused, a
    consumer holds a lease after the hole and the cursor stands at the hole, a further fetch
    reserves the hole, finds no message in it, and starts over, for as long as the lease lives.
    No number of rounds returns, and acknowledgements of the group wait for the same lock. *)
Theorem fetch_spins_at_a_hole env timeout k p row g e hw c s id la fuel n start_offset limit :
  healthy env -> 0 <= timeout -> 0 < limit -> log_view p e hw ->
  (0 <= e <= g /\ g < claim_start c < end_exclusive c /\ end_exclusive c <= hw) ->
  (in_flight c = false /\ forall m, clock env m - claimed_at c <= timeout) ->
  match row with Some r => 0 <= last_acked_offset r < g | None => True end ->
  (forall m, m ∈ p_log p -> ~ (g <= tm_offset m < claim_start c)) ->
  (exists m, m ∈ p_log p /\ claim_start c <= tm_offset m) ->
  reservation_id c < id <= u64_max -> view k s p row (Some (mkClaimState g [c] id la)) ->
  exists s' n', fetch_messages_for_group env (fun _ s => s) timeout fuel k start_offset limit n s =
                (Ok None, s', n').
Proof.
  intros He Ht Hlim Hlog Hb Hl Hr Hh Hn Hid Hv. unfold fetch_messages_for_group.
  rewrite (proj2 (Z.eqb_neq _ _)) by lia.
  destruct (hole_spins env timeout k He p row g e hw c Hlog Hb Hl Ht Hr Hh Hn fuel s start_offset
              limit Hlim) with (n := n) as (s' & n' & E & _).
  - exists id, la. by split.
  - eauto.
Qed.

(** C38. The first fetch of a group returns its backlog. Suppose every storage access succeeds, no
    other operation on the service runs between the steps of the fetch, the group has no claim state,
    and the log holds every offset from its start to the high watermark. Then within two rounds the fetch
    returns exactly the stored messages from the position of the group (the offset after the
    committed one, or the requested start, or the start of the log when that is later), as many as
    the limit and the log allow, and the entry left behind holds a lease on exactly those. *)
Theorem first_fetch_returns_the_backlog env timeout k p row e hw limit s start_offset start pos fuel n :
  healthy env -> log_view p e hw ->
  (consecutive e (p_log p) /\ e + Z.of_nat (length (p_log p)) = hw /\ 0 <= e) ->
  0 < limit <= u64_max ->
  match row with Some r => 0 <= last_acked_offset r | None => True end ->
  view k s p row None ->
  start = match row with
          | Some r => saturating_add (last_acked_offset r) 1 | None => start_offset end ->
  0 <= start -> pos = Z.max start e -> pos < hw -> (2 <= fuel)%nat ->
  let ms := take (Z.to_nat limit) (drop (Z.to_nat (pos - e)) (p_log p)) in
  exists at_ s' n',
    fetch_messages_for_group env (fun _ s => s) timeout fuel k start_offset limit n s =
      (Ok (Some ms), s', n') /\
    consecutive pos ms /\ Z.of_nat (length ms) = Z.min limit (hw - pos) /\
    group_claim_state s' !! k = Some (leased_entry row pos (Z.of_nat (length ms)) at_).
Proof.
  intros He Hlog Hfull Hlim Hrow Hv Hstart H0 -> Hlt Hfuel. cbv zeta.
  destruct fuel as [|[|fuel]]; [lia|lia|].
  destruct (first_fetch env timeout k He p row e hw limit Hlog Hfull Hlim Hrow s start_offset start
              Hv Hstart H0 Hlt fuel n) as (s' & n' & E & at_ & Hv').
  destruct (fetch_run_of_log p e hw Hfull (Z.max start e) (Z.min limit (hw - Z.max start e)))
    as [Hc Hl]; [lia|lia|].
  rewrite (fetch_slice p e hw Hfull) in E, Hc, Hl by lia.
  replace (take (Z.to_nat limit) (drop (Z.to_nat (Z.max start e - e)) (p_log p))) with
    (take (Z.to_nat (Z.min limit (hw - Z.max start e))) (drop (Z.to_nat (Z.max start e - e)) (p_log p)))
    by (destruct (Z.le_gt_cases limit (hw - Z.max start e));
        [by rewrite Z.min_l by lia|rewrite Z.min_r by lia; rewrite !take_ge; [done|rewrite length_drop; lia..]]).
  exists at_, s', n'. unfold fetch_messages_for_group. rewrite (proj2 (Z.eqb_neq _ _)) by lia.
  split_and!; [exact E|exact Hc|exact Hl|]. rewrite Hl. by destruct Hv' as (_ & _ & ->).
Qed.

(** The committed-offset key does not separate its parts: a topic name and a group name that
    contain the separator share a row with another pair. *)
Lemma make_key_collides topic mid group partition :
  make_key (topic +:+ ":" +:+ mid) group partition = make_key topic (mid +:+ ":" +:+ group) partition.
Proof.
  apply bytes_of_string_inj. unfold make_key. rewrite !bytes_of_string_app. by rewrite <-!app_assoc.
Qed.

(** ** Witnesses *)

Definition w_group : GroupPartitionKey := mkGP "orders" "billing" 0.
Definition w_service (p : Partition) (oc : option ClaimState) : Service :=
  mkService {[ tp_of w_group := p ]} ∅
    (match oc with Some st => {[ w_group := st ]} | None => ∅ end).

Lemma w_frames : frames (fun _ s => s) w_group.
Proof. by intros n s. Qed.

(** Two messages; one consumer takes one, another the rest, then both poll again. *)
Definition w_ops : list GroupOp := [Fetch 5 0 1; Fetch 5 0 10; Ack 0; Fetch 5 0 10].
Definition w_outcomes : list Outcome :=
  (run_group w_ok_env (fun _ s => s) 60000 w_group w_ops 10
     (w_service (end_state w_full) None)).1.1.

Lemma no_redelivery_within_lease_witness :
  w_outcomes = [Delivered [0] 1018; Delivered [1] 1027; Acked 0; Delivered [] 1035] /\
  forall (i j : nat) os0 t0 os t o, (i < j)%nat -> w_outcomes !! i = Some (Delivered os0 t0) ->
    w_outcomes !! j = Some (Delivered os t) -> o ∈ os0 -> o ∈ os -> 60000 < t - t0.
Proof.
  split; [vm_compute; reflexivity|]. intros i j os0 t0 os t o Hij Hi Hj Ho Ho'.
  destruct (run_group w_ok_env (fun _ s => s) 60000 w_group w_ops 10
     (w_service (end_state w_full) None)) as [[outs s'] n'] eqn:E.
  assert (w_outcomes = outs) as Ew by (unfold w_outcomes; rewrite E; reflexivity).
  rewrite Ew in Hi, Hj.
  refine (no_redelivery_within_lease w_ok_env (fun _ s => s) 60000 w_group w_ops 10
    (w_service (end_state w_full) None) outs s' n' _ _ w_frames _ _ E _ i j _ os t Hij Hi Hj
    o Ho Ho').
  - by apply w_clock_monotone.
  - lia.
  - repeat (constructor; [first [done|simpl; lia]|]); constructor.
  - vm_compute. reflexivity.
  - assert (n' = (run_group w_ok_env (fun _ s => s) 60000 w_group w_ops 10
                    (w_service (end_state w_full) None)).2) as -> by (rewrite E; reflexivity).
    vm_compute. reflexivity.
Defined.

(** A restarted partition (empty tail) whose scan fails: the sixth access. *)
Definition w_fail_env : Env := mkEnv (fun n => negb (Nat.eqb n 5)) (fun n => 1000 + Z.of_nat n).
Definition w_failed :=
  fetch_messages_for_group w_fail_env (fun _ s => s) 60000 5 w_group 0 10 0%nat
    (w_service (restore_offset_counters (restart (end_state w_full))) None).
Definition w_stranded : PendingClaim := mkClaim 1 0 2 1004 true.

Lemma stranded_window_is_never_delivered_witness :
  w_failed.1.1 = Err StorageFailed /\
  forall outs s' n', run_group w_fail_env (fun _ s => s) 60000 w_group
      [Fetch 5 0 10; Ack 1; Fetch 5 0 10] (w_failed.2) (w_failed.1.2) = (outs, s', n') ->
    forall (j : nat) os t o, outs !! j = Some (Delivered os t) -> o ∈ os -> covers w_stranded o = false.
Proof.
  split; [vm_compute; reflexivity|]. intros outs s' n' E.
  refine (proj1 (stranded_window_is_never_delivered w_fail_env (fun _ s => s) 60000 w_group
    [Fetch 5 0 10; Ack 1; Fetch 5 0 10] (w_failed.2) (w_failed.1.2)
    (mkClaimState 0 [w_stranded] 2 None) w_stranded outs s' n' _ _ w_frames _ _ _ _ _ _ E _)).
  - by apply w_clock_monotone.
  - lia.
  - repeat (constructor; [first [done|simpl; lia]|]); constructor.
  - vm_compute. reflexivity.
  - by apply list_elem_of_singleton.
  - reflexivity.
  - clear E. intros d ->%list_elem_of_singleton. simpl. lia.
  - vm_compute. split; discriminate.
  - assert (n' = (run_group w_fail_env (fun _ s => s) 60000 w_group
      [Fetch 5 0 10; Ack 1; Fetch 5 0 10] (w_failed.2) (w_failed.1.2)).2) as ->
      by (rewrite E; reflexivity).
    vm_compute. reflexivity.
Defined.

(** Offset 1 was never written; a consumer holds offset 2. *)
Definition w_still_env : Env := mkEnv (fun _ => true) (fun _ => 1000).
Definition w_lease : PendingClaim := mkClaim 1 2 3 1000 false.

Lemma w_hole_log : log_view (end_state w_run2) 0 3.
Proof.
  split_and!; [|reflexivity|reflexivity|lia|vm_compute; discriminate].
  assert (part_ok w_len (clock w_env (end_tick w_run2)) (end_state w_run2)) as (_ & _ & _ & _ & Ht);
    [|exact Ht].
  apply reachable_ok; [by apply w_clock_monotone|exact w_reachable2].
Qed.

Lemma fetch_spins_at_a_hole_witness :
  exists s' n',
    fetch_messages_for_group w_still_env (fun _ s => s) 60000 5000 w_group 0 10 0%nat
      (w_service (end_state w_run2) (Some (mkClaimState 1 [w_lease] 2 (Some 0)))) =
    (Ok None, s', n').
Proof.
  apply (fetch_spins_at_a_hole w_still_env 60000 w_group (end_state w_run2) None 1 0 3 w_lease
           _ 2 (Some 0)).
  - done.
  - lia.
  - lia.
  - exact w_hole_log.
  - simpl. lia.
  - split; [reflexivity|]. intros m. simpl. lia.
  - done.
  - assert (Forall (fun m => tm_offset m = 0 \/ tm_offset m = 2) (p_log (end_state w_run2))) as Hf
      by (repeat constructor; vm_compute; tauto).
    rewrite Forall_forall in Hf. intros m Hm. specialize (Hf m Hm). simpl. lia.
  - destruct (p_log (end_state w_run2)) as [|m0 [|m1 l]] eqn:E; [done|done|].
    exists m1. split; [set_solver|]. vm_compute in E. injection E as _ <- _. vm_compute. discriminate.
  - simpl. split; [lia|]. vm_compute. discriminate.
  - split_and!; vm_compute; reflexivity.
Defined.

Lemma first_fetch_returns_the_backlog_witness :
  exists at_ s' n',
    fetch_messages_for_group w_ok_env (fun _ s => s) 60000 2 w_group 1 10 10%nat
      (w_service (end_state w_full) None) = (Ok (Some (drop 1 (p_log (end_state w_full)))), s', n') /\
    group_claim_state s' !! w_group = Some (leased_entry None 1 1 at_).
Proof.
  assert (take (Z.to_nat 10) (drop (Z.to_nat (1 - 0)) (p_log (end_state w_full))) =
          drop 1 (p_log (end_state w_full))) as Ems by (vm_compute; reflexivity).
  rewrite <-Ems.
  destruct (first_fetch_returns_the_backlog w_ok_env 60000 w_group (end_state w_full) None 0 2 10
    (w_service (end_state w_full) None) 1 1 1 2 10) as (at_ & s' & n' & E & _ & Hl & Hg).
  - done.
  - split_and!; [|reflexivity|reflexivity|lia|vm_compute; discriminate].
    assert (part_ok w_len (clock w_ok_env (end_tick w_full)) (end_state w_full))
      as (_ & _ & _ & _ & Ht); [|exact Ht].
    apply reachable_ok; [by apply w_clock_monotone|exact w_full_reachable].
  - split; [vm_compute; repeat split|split; [reflexivity|lia]].
  - split; [lia|vm_compute; discriminate].
  - done.
  - split_and!; vm_compute; reflexivity.
  - reflexivity.
  - lia.
  - lia.
  - lia.
  - lia.
  - exists at_, s', n'. rewrite Hl in Hg. split; [exact E|exact Hg].
Defined.
