(* ===== verification/TopicPayload.v ===== *)
(** * TopicPayload: the bytes and the key a published row carries

    Model of kalamdb-publisher/src/payload.rs and of [row_to_json_map]
    (kalamdb-commons/src/conversions/arrow/json.rs).

    The map a row is converted to is a [std::collections::HashMap]: its iteration order depends on
    random hasher keys drawn when the map is created. The keys are an explicit [Seed] argument of
    the conversion, and the only thing assumed of the order is that every entry is visited once.

    [PayloadEnv] collects what the code takes from outside: the conversion of one DataFusion
    scalar, the serde_json serializer (a function of the sequence of entries it is given, for a
    [HashMap] as for a [BTreeMap]; serializing JSON values does not fail), the parse-and-inject
    fallback built on it, the standard library's [DefaultHasher] over bytes, and the UTF-8 bytes
    of a string. *)

From Stdlib Require Import ZArith Lia.
From stdpp Require Import base countable strings gmap fin_maps list sorting.
From S2P Require Import Prelude Commons.

Open Scope Z_scope.

(** serde_json's [Value]; a number is kept as its text. *)
#[warnings="-register-all"]
Inductive JsonValue :=
| JsonNull
| JsonBool (b : bool)
| JsonNumber (text : string)
| JsonString (s : string)
| JsonArray (items : list JsonValue)
| JsonObject (members : list (string * JsonValue)).

(** [KalamCellValue], a transparent wrapper of [JsonValue]. *)
Abbreviation Cell := JsonValue.
Definition cell_text (s : string) : Cell := JsonString s.
Definition cell_as_str (c : Cell) : option string :=
  match c with JsonString s => Some s | _ => None end.

Class PayloadEnv := {
  Scalar : Type;
  Seed : Type;
  scalar_value_to_json : Scalar -> option Cell;
  value_to_string : Cell -> string;
  map_to_json : list (string * Cell) -> string;
  inject_table : list Z -> string -> option (list Z);
  default_hash : list Z -> Z;
  utf8 : string -> list Z;
  hash_order : Seed -> gmap string Cell -> list (string * Cell);
  hash_order_perm : forall seed m, hash_order seed m ≡ₚ map_to_list m
}.

Inductive PayloadMode := PayloadKey | PayloadFull | PayloadDiff.

(** [Display] of a [TableId], ["ns:table"]. *)
Definition table_display (t : TableId) : string :=
  (namespace_id t +:+ ":" +:+ table_name t)%string.

Section Payload.

Context {PE : PayloadEnv}.

(** [Row]: columns by name. *)
Abbreviation Row := (gmap string Scalar).

Record PreparedRow := mkPrepared {
  key_payload : list Z;
  json_map : gmap string Cell;
  full_payload : option (list Z);
  partition_hash : Z
}.

Definition column_to_json (kv : string * Scalar) : option (string * Cell) :=
  (fun c => (kv.1, c)) <$> scalar_value_to_json kv.2.

Definition row_to_json_map (row : Row) : option (gmap string Cell) :=
  list_to_map <$> mapM column_to_json (map_to_list row).

(** [serde_json::to_vec] of the map: its entries in iteration order. *)
Definition to_vec (seed : Seed) (m : gmap string Cell) : list Z :=
  utf8 (map_to_json (hash_order seed m)).

Definition hash_key (key : list Z) : Z := default_hash key.

Definition from_row (row : Row) (seed : Seed) : option PreparedRow :=
  json ← row_to_json_map row;
  let key := to_vec seed json in
  Some (mkPrepared key json None (hash_key key)).

Definition from_row_with_table (row : Row) (t : TableId) (seed : Seed) : option PreparedRow :=
  json ← row_to_json_map row;
  let key := to_vec seed json in
  let with_table := <["_table" := cell_text (table_display t)]> json in
  Some (mkPrepared key (delete "_table" with_table) (Some (to_vec seed with_table)) (hash_key key)).

Definition extract_payload (p : PreparedRow) (mode : PayloadMode) (t : TableId) : option (list Z) :=
  match mode with
  | PayloadKey => Some (key_payload p)
  | PayloadFull | PayloadDiff =>
      match full_payload p with
      | Some full => Some full
      | None => inject_table (key_payload p) (table_display t)
      end
  end.

Definition entry_le (a b : string * Cell) : Prop := String.leb a.1 b.1 = true.

#[local] Instance entry_le_dec : RelDecision entry_le.
Proof. intros a b. unfold entry_le. apply _. Defined.

(** Iteration of a [BTreeMap]: ascending keys. *)
Definition btree_order (m : gmap string Cell) : list (string * Cell) :=
  merge_sort entry_le (map_to_list m).

Definition cell_key (c : Cell) : string := default (value_to_string c) (cell_as_str c).

(** The loop that collects the key columns; [None] when a column is missing. *)
Fixpoint collect_key (json : gmap string Cell) (columns : list string) (acc : gmap string Cell) :
    option (gmap string Cell) :=
  match columns with
  | [] => Some acc
  | c :: rest => v ← json !! c; collect_key json rest (<[c := v]> acc)
  end.

Definition extract_primary_key (json : gmap string Cell) (columns : list string) :
    option (option string) :=
  match columns with
  | [] => Some None
  | [c] => v ← json !! c; Some (Some (cell_key v))
  | _ => km ← collect_key json columns ∅; Some (Some (map_to_json (btree_order km)))
  end.

Definition extract_key (p : PreparedRow) (columns : list string) : option (option string) :=
  extract_primary_key (json_map p) columns.

Definition hash_row (p : PreparedRow) : Z := partition_hash p.

(** ** What a payload is *)

(** The members a payload of a row should have. *)
Definition payload_members (mode : PayloadMode) (t : TableId) (json : gmap string Cell) :
    gmap string Cell :=
  match mode with
  | PayloadKey => json
  | PayloadFull | PayloadDiff => <["_table" := cell_text (table_display t)]> json
  end.

(** Both forms of preparation, as [prepare_row] chooses between them. *)
Definition prepare (full : bool) (t : TableId) (row : Row) (seed : Seed) : option PreparedRow :=
  if full then from_row_with_table row t seed else from_row row seed.

(** The payload is the serialized row in the order of the map that was built for it. *)
Lemma prepared_payload full t row seed p mode json :
  prepare full t row seed = Some p -> row_to_json_map row = Some json ->
  (mode = PayloadKey \/ full = true) ->
  extract_payload p mode t = Some (to_vec seed (payload_members mode t json)).
Proof.
  intros Hp Hj Hm. unfold prepare, from_row, from_row_with_table in Hp. rewrite Hj in Hp.
  destruct full; injection Hp as <-; [by destruct mode|]. destruct Hm as [->|?]; done.
Qed.

(** Preparation fails for a row that does not convert, whatever the seed, and the key does not
    depend on the seed. *)
Lemma prepare_seed full t row seed seed' p :
  prepare full t row seed = Some p ->
  exists p' json, prepare full t row seed' = Some p' /\ row_to_json_map row = Some json /\
    json_map p' = json_map p.
Proof.
  unfold prepare, from_row, from_row_with_table.
  destruct (row_to_json_map row) as [json|]; [|by destruct full].
  intros Hp. destruct full; injection Hp as <-; eexists _, json; (split; [done|split; done]).
Qed.

Lemma prepare_hash full t row seed p json :
  prepare full t row seed = Some p -> row_to_json_map row = Some json ->
  partition_hash p = hash_key (to_vec seed json).
Proof.
  unfold prepare, from_row, from_row_with_table. intros Hp Hj. rewrite Hj in Hp.
  by destruct full; injection Hp as <-.
Qed.

Lemma extract_key_some columns p key :
  columns ≠ [] -> extract_key p columns = Some key -> exists k, key = Some k.
Proof.
  intros Hne. unfold extract_key, extract_primary_key.
  destruct columns as [|c [|c' columns]]; [done| |].
  - destruct (json_map p !! c); [|done]. intros [= <-]. eauto.
  - destruct (collect_key _ _ _); [|done]. intros [= <-]. eauto.
Qed.

End Payload.
