(* ===== verification/TopicRouting.v ===== *)
(** * TopicRouting: which topics receive a table change, and publishing it

    Model of kalamdb-publisher/src/routing.rs (the route cache) and of the routing loops of
    service/publish.rs ([publish_message], [publish_batch], [publish_typed]) around the critical
    sections of [TopicLog].

    Parameters: a compiled filter, its parser and its evaluation (kalamdb-row-filter), the lookup
    of primary-key columns, the iteration order of the [HashMap] of partition groups, and the
    [PayloadEnv] of [TopicPayload]. A published row is paired with the hasher keys of the map
    [row_to_json_map] will build for it.

    The theorems show that the cache holds, for every table, exactly the parsable routes of the
    cached topics; that for tables with a primary key a batch appends to every partition what
    publishing its rows one by one appends, in row order when every topic has one matching route;
    and that without a primary key the partition of a row depends on the hasher keys. *)

From Stdlib Require Import ZArith Lia Sorting.Sorted.
From stdpp Require Import base countable strings pretty gmap fin_maps list.
From S2P Require Import Prelude Commons TopicClaims TopicLog TopicService TopicPayload.

Open Scope Z_scope.
Open Scope kalam_scope.

Record TopicRoute := mkTopicRoute {
  tr_table_id : TableId;
  tr_op : TopicOp;
  tr_payload_mode : PayloadMode;
  tr_filter_expr : option string;
  tr_partition_key_expr : option string
}.

Record Topic := mkTopic {
  t_topic_id : TopicId;
  t_name : string;
  t_alias : option string;
  t_created_at : Z;
  t_updated_at : Z;
  t_retention_seconds : option Z;
  t_retention_max_bytes : option Z;
  t_partitions : Z;
  t_routes : list TopicRoute
}.

Section Cache.

Context {Filter : Type} (parse_where_clause : string -> option Filter).

(** A route of a cached topic: the topic, the index of the route, its compiled filter. *)
Record RouteEntry := mkRouteEntry {
  re_topic : Topic;
  route_index : nat;
  compiled_filter : option Filter
}.

Definition topic_id_of (e : RouteEntry) : TopicId := t_topic_id (re_topic e).
Definition topic_partitions (e : RouteEntry) : Z := t_partitions (re_topic e).
(** [&self.topic.routes[self.route_index]]; entries are only built for indices in range. *)
Definition route (e : RouteEntry) : option TopicRoute := t_routes (re_topic e) !! route_index e.

Record RouteCache := mkCache {
  table_routes : gmap TableId (list RouteEntry);
  topics : gmap TopicId Topic
}.

Definition cache_new : RouteCache := mkCache ∅ ∅.

Definition has_topics_for_table (c : RouteCache) (t : TableId) : bool :=
  match table_routes c !! t with Some _ => true | None => false end.

Definition route_has_op (op : TopicOp) (e : RouteEntry) : bool :=
  match route e with Some r => bool_decide (tr_op r = op) | None => false end.

Definition has_topics_for_table_op (c : RouteCache) (t : TableId) (op : TopicOp) : bool :=
  match table_routes c !! t with Some routes => existsb (route_has_op op) routes | None => false end.

Definition topic_exists (c : RouteCache) (id : TopicId) : bool :=
  match topics c !! id with Some _ => true | None => false end.

Definition get_topic (c : RouteCache) (id : TopicId) : option Topic := topics c !! id.

Definition get_topic_ids_for_table (c : RouteCache) (t : TableId) : list TopicId :=
  match table_routes c !! t with Some routes => topic_id_of <$> routes | None => [] end.

Definition get_matching_routes (c : RouteCache) (t : TableId) (op : TopicOp) : list RouteEntry :=
  match table_routes c !! t with
  | Some routes => filter (fun e => route_has_op op e = true) routes
  | None => []
  end.

(** A route whose filter does not parse is left out. *)
Definition build_route_entry (topic : Topic) (i : nat) : option RouteEntry :=
  match t_routes topic !! i with
  | None => None
  | Some r =>
      match tr_filter_expr r with
      | None => Some (mkRouteEntry topic i None)
      | Some expr =>
          match parse_where_clause expr with
          | Some f => Some (mkRouteEntry topic i (Some f))
          | None => None
          end
      end
  end.

(** One round of the loop of [add_topic]. *)
Definition add_route (topic : Topic) (m : gmap TableId (list RouteEntry)) (i : nat) :
    gmap TableId (list RouteEntry) :=
  match build_route_entry topic i, t_routes topic !! i with
  | Some e, Some r => <[tr_table_id r := default [] (m !! tr_table_id r) ++ [e]]> m
  | _, _ => m
  end.

Definition add_topic (c : RouteCache) (topic : Topic) : RouteCache :=
  mkCache (foldl (add_route topic) (table_routes c) (seq 0 (length (t_routes topic))))
    (<[t_topic_id topic := topic]> (topics c)).

(** One round of the loop of [remove_topic]. *)
Definition drop_routes (id : TopicId) (m : gmap TableId (list RouteEntry)) (r : TopicRoute) :
    gmap TableId (list RouteEntry) :=
  alter (filter (fun e => topic_id_of e ≠ id)) (tr_table_id r) m.

Definition remove_topic (c : RouteCache) (id : TopicId) : RouteCache :=
  let '(routes, ts) :=
    match topics c !! id with
    | Some topic => (foldl (drop_routes id) (table_routes c) (t_routes topic), delete id (topics c))
    | None => (table_routes c, topics c)
    end in
  mkCache (filter (fun kv => kv.2 ≠ []) routes) ts.

Definition update_topic (c : RouteCache) (topic : Topic) : RouteCache :=
  add_topic (remove_topic c (t_topic_id topic)) topic.

Definition clear (c : RouteCache) : RouteCache := cache_new.

Definition refresh (c : RouteCache) (ts : list Topic) : RouteCache :=
  foldl add_topic (clear c) ts.

Definition topic_count (c : RouteCache) : nat := size (topics c).
Definition table_route_count (c : RouteCache) : nat := size (table_routes c).
Definition total_routes (c : RouteCache) : nat :=
  foldr (fun kv n => (length kv.2 + n)%nat) 0%nat (map_to_list (table_routes c)).

(** ** What the cache should hold *)

Definition routes_of (c : RouteCache) (t : TableId) : list RouteEntry :=
  default [] (table_routes c !! t).

(** The entry of route [i] when it reads table [t]. *)
Definition entry_for (topic : Topic) (t : TableId) (i : nat) : option RouteEntry :=
  match build_route_entry topic i, t_routes topic !! i with
  | Some e, Some r => if decide (tr_table_id r = t) then Some e else None
  | _, _ => None
  end.

(** The entries a topic contributes to a table, in the order of its routes. *)
Definition entries_of (topic : Topic) (t : TableId) : list RouteEntry :=
  omap (entry_for topic t) (seq 0 (length (t_routes topic))).

(** Every topic contributes exactly its entries, a table without routes has no key. *)
Definition cache_ok (c : RouteCache) : Prop :=
  (forall id tp, topics c !! id = Some tp -> t_topic_id tp = id) /\
  (forall t id, filter (fun e => topic_id_of e = id) (routes_of c t) =
     match topics c !! id with Some tp => entries_of tp t | None => [] end) /\
  (forall t l, table_routes c !! t = Some l -> l ≠ []).

Lemma build_fields topic i e :
  build_route_entry topic i = Some e -> re_topic e = topic /\ route_index e = i.
Proof. unfold build_route_entry. intros H. repeat case_match; by simplify_eq/=. Qed.

Lemma entries_of_topic topic t e : e ∈ entries_of topic t -> topic_id_of e = t_topic_id topic.
Proof.
  intros (i & _ & H)%list_elem_of_omap. unfold entry_for in H. unfold topic_id_of.
  destruct (build_route_entry topic i) as [e'|] eqn:E; [|done].
  apply build_fields in E as [E _]. repeat case_match; by simplify_eq.
Qed.

Lemma add_routes_lookup topic m ix t :
  default [] (foldl (add_route topic) m ix !! t) =
  default [] (m !! t) ++ omap (entry_for topic t) ix.
Proof.
  revert m. induction ix as [|i ix IH]; intros m; cbn [foldl]; [by rewrite app_nil_r|].
  rewrite IH. change (omap (entry_for topic t) (i :: ix)) with
    (match entry_for topic t i with
     | Some e => e :: omap (entry_for topic t) ix
     | None => omap (entry_for topic t) ix
     end).
  unfold add_route, entry_for at 2.
  destruct (build_route_entry topic i) as [e|]; [|done].
  destruct (t_routes topic !! i) as [r|]; [|done].
  destruct (decide (tr_table_id r = t)) as [<-|Hne].
  - rewrite lookup_insert_eq. simpl. by rewrite <-app_assoc.
  - by rewrite lookup_insert_ne.
Qed.

Lemma add_routes_nonempty topic m ix t l :
  (forall l, m !! t = Some l -> l ≠ []) -> foldl (add_route topic) m ix !! t = Some l -> l ≠ [].
Proof.
  revert m. induction ix as [|i ix IH]; intros m Hm; cbn [foldl]; [apply Hm|]. apply IH.
  intros l'. unfold add_route. destruct (build_route_entry topic i) as [e|]; [|apply Hm].
  destruct (t_routes topic !! i) as [r|]; [|apply Hm].
  destruct (decide (tr_table_id r = t)) as [<-|Hne].
  - rewrite lookup_insert_eq. intros [= <-]. by destruct (default [] (m !! tr_table_id r)).
  - rewrite lookup_insert_ne by done. apply Hm.
Qed.

(** Adding a topic whose id is not cached. *)
Lemma add_topic_ok c topic :
  cache_ok c -> topics c !! t_topic_id topic = None -> cache_ok (add_topic c topic).
Proof.
  intros (Hid & Hr & Hne) Hnew. split_and!.
  - simpl. intros id tp [[<- <-]|[_ H]]%lookup_insert_Some; [done|by apply Hid].
  - intros t id. unfold routes_of. simpl. rewrite add_routes_lookup, filter_app.
    change (omap (entry_for topic t) (seq 0 (length (t_routes topic)))) with (entries_of topic t).
    fold (routes_of c t). rewrite Hr. destruct (decide (t_topic_id topic = id)) as [<-|Hd].
    + rewrite lookup_insert_eq, Hnew. simpl. apply filter_all. intros e He.
      by eapply entries_of_topic.
    + rewrite lookup_insert_ne by done. rewrite filter_none; [by rewrite app_nil_r|].
      intros e He%entries_of_topic. congruence.
  - simpl. intros t l. apply add_routes_nonempty. intros l'. apply Hne.
Qed.

(** Removing: the entries of the topic disappear, all others stay. *)
Lemma drop_routes_lookup id rs m t :
  foldl (drop_routes id) m rs !! t =
  (if existsb (fun r => bool_decide (tr_table_id r = t)) rs
   then filter (fun e => topic_id_of e ≠ id) <$> m !! t else m !! t).
Proof.
  revert m. induction rs as [|r rs IH]; intros m; cbn [foldl existsb]; [done|].
  rewrite IH. unfold drop_routes. destruct (decide (tr_table_id r = t)) as [<-|Hne].
  - rewrite bool_decide_true by done. simpl. rewrite lookup_alter_eq.
    destruct (existsb _ rs); [|done]. destruct (m !! tr_table_id r) as [l|]; [|done]. simpl.
    f_equal. rewrite list_filter_filter. apply list_filter_iff. tauto.
  - rewrite bool_decide_false by done. simpl. by rewrite lookup_alter_ne.
Qed.

Lemma entries_of_table topic t :
  existsb (fun r => bool_decide (tr_table_id r = t)) (t_routes topic) = false ->
  entries_of topic t = [].
Proof.
  intros Hn. unfold entries_of. destruct (omap _ _) as [|e l] eqn:E; [done|exfalso].
  assert (e ∈ omap (entry_for topic t) (seq 0 (length (t_routes topic)))) as He
    by (rewrite E; set_solver).
  apply list_elem_of_omap in He as (i & _ & H). unfold entry_for in H.
  destruct (build_route_entry topic i); [|done]. destruct (t_routes topic !! i) as [r0|] eqn:Er; [|done].
  rewrite existsb_false in Hn. specialize (Hn r0 (list_elem_of_lookup_2 _ _ _ Er)).
  apply bool_decide_eq_false in Hn. by case_decide.
Qed.

Lemma remove_topic_routes c id t :
  cache_ok c -> routes_of (remove_topic c id) t = filter (fun e => topic_id_of e ≠ id) (routes_of c t).
Proof.
  intros (Hid & Hr & Hne). unfold remove_topic, routes_of.
  assert (forall (m : gmap TableId (list RouteEntry)),
    default [] (filter (fun kv => kv.2 ≠ []) m !! t) = default [] (m !! t)) as Hretain.
  { intros m. destruct (m !! t) as [l|] eqn:E; rewrite map_lookup_filter, E; simpl; [|done].
    case_guard as Hl; [done|]. simpl. by destruct l. }
  assert (filter (fun e => topic_id_of e = id) (routes_of c t) = [] ->
    filter (fun e => topic_id_of e ≠ id) (routes_of c t) = routes_of c t) as Hkeep.
  { intros Hnil. apply filter_all. intros e He E. apply (elem_of_nil e). rewrite <-Hnil.
    by apply list_elem_of_filter. }
  specialize (Hr t id). unfold routes_of in *.
  destruct (topics c !! id) as [tp|] eqn:Et; simpl; rewrite Hretain; [|by rewrite Hkeep].
  rewrite drop_routes_lookup. destruct (existsb _ _) eqn:Ex.
  - by destruct (table_routes c !! t).
  - rewrite entries_of_table in Hr by done. by rewrite Hkeep.
Qed.

Lemma remove_topic_ok c id : cache_ok c -> cache_ok (remove_topic c id).
Proof.
  intros Hok. pose proof Hok as (Hid & Hr & Hne).
  assert (topics (remove_topic c id) = delete id (topics c)) as Ht.
  { unfold remove_topic. destruct (topics c !! id) eqn:E; simpl; [done|]. by rewrite delete_id. }
  split_and!.
  - rewrite Ht. intros id' tp [_ H]%lookup_delete_Some. by apply Hid.
  - intros t id'. rewrite remove_topic_routes, Ht by done. rewrite list_filter_filter.
    destruct (decide (id' = id)) as [->|Hd].
    + rewrite lookup_delete_eq. apply filter_none. tauto.
    + rewrite lookup_delete_ne by done. rewrite <-Hr. apply list_filter_iff. intros e. naive_solver.
  - intros t l. unfold remove_topic. destruct (topics c !! id); simpl;
      intros [_ H]%map_lookup_filter_Some; exact H.
Qed.

Lemma cache_new_ok : cache_ok cache_new.
Proof. split_and!; intros; by rewrite ?lookup_empty in *. Qed.

Lemma update_topic_ok c topic : cache_ok c -> cache_ok (update_topic c topic).
Proof.
  intros Hok. apply add_topic_ok; [by apply remove_topic_ok|]. unfold remove_topic.
  destruct (topics c !! t_topic_id topic) eqn:E; simpl; [apply lookup_delete_eq|done].
Qed.

Lemma refresh_ok c ts : NoDup (t_topic_id <$> ts) -> cache_ok (refresh c ts).
Proof.
  unfold refresh, clear. intros Hnd.
  assert (forall tp, tp ∈ ts -> topics cache_new !! t_topic_id tp = None) as Hfresh
    by (intros tp _; apply lookup_empty).
  pose proof cache_new_ok as Hok. revert Hok Hfresh. generalize cache_new.
  induction ts as [|tp ts IH]; intros c0 Hok Hfresh; [done|]. cbn [foldl].
  apply NoDup_cons in Hnd as [Hx Hnd]. apply IH; [done|apply add_topic_ok; set_solver|].
  intros tp' Hin. simpl. rewrite lookup_insert_ne; [set_solver|]. intros E. apply Hx. rewrite E.
  by apply list_elem_of_fmap_2.
Qed.

(** The caches the registry builds: topics are added under fresh ids, or through [update_topic]. *)
Inductive cache_reach : RouteCache -> Prop :=
| cr_new : cache_reach cache_new
| cr_refresh c ts : cache_reach c -> NoDup (t_topic_id <$> ts) -> cache_reach (refresh c ts)
| cr_add c tp : cache_reach c -> topic_exists c (t_topic_id tp) = false ->
    cache_reach (add_topic c tp)
| cr_update c tp : cache_reach c -> cache_reach (update_topic c tp)
| cr_remove c id : cache_reach c -> cache_reach (remove_topic c id)
| cr_clear c : cache_reach c -> cache_reach (clear c).

Lemma cache_reach_ok c : cache_reach c -> cache_ok c.
Proof.
  induction 1; [apply cache_new_ok|by apply refresh_ok| |by apply update_topic_ok|
    by apply remove_topic_ok|apply cache_new_ok].
  apply add_topic_ok; [done|]. unfold topic_exists in *. by destruct (topics c !! t_topic_id tp).
Qed.

Lemma matching_routes_filter c t op :
  get_matching_routes c t op = filter (fun e => route_has_op op e = true) (routes_of c t).
Proof. unfold get_matching_routes, routes_of. by destruct (table_routes c !! t). Qed.

Lemma elem_of_entries e topic t :
  e ∈ entries_of topic t <->
  exists i r, build_route_entry topic i = Some e /\ t_routes topic !! i = Some r /\ tr_table_id r = t.
Proof.
  unfold entries_of. rewrite list_elem_of_omap. split.
  - intros (i & _ & H). unfold entry_for in H. exists i.
    destruct (build_route_entry topic i) as [e'|]; [|done].
    destruct (t_routes topic !! i) as [r|]; [|done].
    case_decide; simplify_eq. eauto.
  - intros (i & r & Hb & Hr & Ht). exists i. split.
    + apply elem_of_seq. apply lookup_lt_Some in Hr. lia.
    + unfold entry_for. by rewrite Hb, Hr, decide_True.
Qed.

Lemma elem_of_routes c t e :
  cache_ok c ->
  e ∈ routes_of c t <-> exists tp, topics c !! topic_id_of e = Some tp /\ e ∈ entries_of tp t.
Proof.
  intros (Hid & Hr & _). transitivity (e ∈ filter (fun e' => topic_id_of e' = topic_id_of e) (routes_of c t)).
  { rewrite list_elem_of_filter. naive_solver. }
  rewrite Hr. destruct (topics c !! topic_id_of e) as [tp|]; [naive_solver|].
  rewrite elem_of_nil. naive_solver.
Qed.

(** The route cache is exact. Whatever sequence of refreshes, additions, updates and
    removals of topics built it, a route is returned for a table and an operation exactly when a
    cached topic has it, it reads that table, is on that operation, and its filter parses; the
    routes of one topic come in the order the topic lists them; and the quick tests for a table
    and for a table with an operation agree with the routes. *)
Theorem route_cache_exact c t op :
  cache_reach c ->
  (forall e, e ∈ get_matching_routes c t op <->
     exists tp i r, topics c !! t_topic_id tp = Some tp /\ build_route_entry tp i = Some e /\
       t_routes tp !! i = Some r /\ tr_table_id r = t /\ tr_op r = op) /\
  (forall id, filter (fun e => topic_id_of e = id) (get_matching_routes c t op) =
     match get_topic c id with
     | Some tp => filter (fun e => route_has_op op e = true) (entries_of tp t)
     | None => []
     end) /\
  (has_topics_for_table_op c t op = true <-> get_matching_routes c t op ≠ []) /\
  (has_topics_for_table c t = true <-> get_topic_ids_for_table c t ≠ []).
Proof.
  intros Hok%cache_reach_ok. pose proof Hok as (Hid & Hr & Hne). split_and!.
  - intros e. rewrite matching_routes_filter, list_elem_of_filter, elem_of_routes by done. split.
    + intros (Hop & tp & Htp & He). pose proof (Hid _ _ Htp) as Hi.
      apply elem_of_entries in He as (i & r & Hb & Hlr & Ht).
      exists tp, i, r. rewrite Hi. split_and!; try done.
      apply build_fields in Hb as [Htop Hix].
      unfold route_has_op, route in Hop. rewrite Htop, Hix, Hlr in Hop.
      by apply bool_decide_eq_true in Hop.
    + intros (tp & i & r & Htp & Hb & Hlr & Ht & Ho).
      destruct (build_fields _ _ _ Hb) as [He Hi].
      unfold route_has_op, route, topic_id_of. rewrite Hi, He, Hlr, bool_decide_true by done.
      split; [done|]. exists tp. split; [done|]. apply elem_of_entries. eauto.
  - intros id. unfold get_topic. transitivity
      (filter (fun e => route_has_op op e = true) (filter (fun e => topic_id_of e = id) (routes_of c t))).
    + rewrite matching_routes_filter, !list_filter_filter. apply list_filter_iff. tauto.
    + rewrite Hr. by destruct (topics c !! id).
  - unfold has_topics_for_table_op, get_matching_routes.
    destruct (table_routes c !! t) as [l|]; [|done].
    induction l as [|e l IH]; [done|]. cbn [existsb].
    destruct (route_has_op op e) eqn:E; [by rewrite filter_cons_True|].
    by rewrite filter_cons_False by congruence.
  - unfold has_topics_for_table, get_topic_ids_for_table.
    destruct (table_routes c !! t) as [l|] eqn:E; [|done].
    specialize (Hne _ _ E). by destruct l.
Qed.

End Cache.

Arguments RouteEntry Filter : clear implicits.
Arguments RouteCache Filter : clear implicits.

(** ** Publishing *)

Section Publish.

Context {Filter : Type} {PE : PayloadEnv} (matches : Filter -> gmap string Scalar -> option bool)
  (primary_key_columns : TableId -> option (list string))
  (iteration_order : gmap Z (list nat) -> list (Z * list nat))
  (encoded_len : TopicMessage -> Z) (env : Env).

(** A row, and the hasher keys of the map it will be converted to. *)
Abbreviation Row := (gmap string Scalar * Seed)%type.
Abbreviation Prepared := PreparedRow.
Abbreviation RouteEntry := (RouteEntry Filter).
Abbreviation RouteCache := (RouteCache Filter).

(** A failing filter evaluation is logged and the route skipped. *)
Definition route_matches_row (e : RouteEntry) (row : Row) : bool :=
  match compiled_filter e with
  | None => true
  | Some f => match matches f row.1 with Some b => b | None => false end
  end.

Definition needs_full_payload (matching : list RouteEntry) : bool :=
  existsb (fun e => match route e with
                    | Some r => match tr_payload_mode r with
                                | PayloadFull | PayloadDiff => true
                                | PayloadKey => false
                                end
                    | None => false
                    end) matching.

Definition prepare_row (row : Row) (t : TableId) (matching : list RouteEntry) : option Prepared :=
  prepare (needs_full_payload matching) t row.1 row.2.

Definition lift {A} (o : option A) : M Service A :=
  match o with Some a => mret a | None => mfail PayloadFailed end.

Definition payload_of (e : RouteEntry) (prep : Prepared) (t : TableId) : option (list Z) :=
  match route e with Some r => extract_payload prep (tr_payload_mode r) t | None => None end.

(** [hash % topic_partitions as u64]; the remainder is defined for topics with at least one
    partition only (the code panics otherwise). *)
Definition partition_for (e : RouteEntry) (prep : Prepared) (key : option string) : Z :=
  (match key with Some k => hash_key (utf8 k) | None => hash_row prep end) mod topic_partitions e.

(** The loop of [publish_message] over the matching routes. *)
Fixpoint publish_routes (t : TableId) (op : TopicOp) (row : Row) (prep : Prepared)
    (key : option string) (user : option UserId) (matching : list RouteEntry) (total : Z) :
    M Service Z :=
  match matching with
  | [] => mret total
  | e :: rest =>
      if route_matches_row e row then
        let! payload := lift (payload_of e prep t) in
        let k := mkTP (topic_id_of e) (partition_for e prep key) in
        do! on_partition k (publish_one encoded_len env k payload key user op) in
        publish_routes t op row prep key user rest (total + 1)
      else publish_routes t op row prep key user rest total
  end.

Definition publish_message (c : RouteCache) (t : TableId) (op : TopicOp) (row : Row)
    (user : option UserId) : M Service Z :=
  match get_matching_routes c t op with
  | [] => mret 0
  | matching =>
      let! columns := lift (primary_key_columns t) in
      let! prep := lift (prepare_row row t matching) in
      let! key := lift (extract_key prep columns) in
      publish_routes t op row prep key user matching 0
  end.

(** A row of a batch with its prepared form and its key. *)
Abbreviation Item := (Row * Prepared * option string)%type.

Definition partition_of_item (e : RouteEntry) (it : Item) : option Z :=
  let '(row, prep, key) := it in
  if route_matches_row e row then Some (partition_for e prep key) else None.

(** [partition_groups]: row indices by partition, in row order. *)
Definition group_row (e : RouteEntry) (m : gmap Z (list nat)) (ix : nat * Item) :
    gmap Z (list nat) :=
  match partition_of_item e ix.2 with
  | Some pid => <[pid := default [] (m !! pid) ++ [ix.1]]> m
  | None => m
  end.

Definition partition_groups (e : RouteEntry) (items : list Item) : gmap Z (list nat) :=
  foldl (group_row e) ∅ (zip (seq 0 (length items)) items).

(** The payload and key of one row of a group. *)
Definition encode_row (e : RouteEntry) (t : TableId) (items : list Item) (i : nat) :
    option (list Z * option string) :=
  match items !! i with
  | Some (_, prep, key) => (fun payload => (payload, key)) <$> payload_of e prep t
  | None => None
  end.

Fixpoint publish_groups (e : RouteEntry) (t : TableId) (op : TopicOp) (items : list Item)
    (user : option UserId) (ts : Z) (groups : list (Z * list nat)) (total : Z) : M Service Z :=
  match groups with
  | [] => mret total
  | (pid, indices) :: rest =>
      let! pre_encoded := lift (mapM (encode_row e t items) indices) in
      let k := mkTP (topic_id_of e) pid in
      do! on_partition k (publish_group encoded_len env k ts pre_encoded user op) in
      publish_groups e t op items user ts rest (total + Z.of_nat (length indices))
  end.

Fixpoint publish_entries (t : TableId) (op : TopicOp) (items : list Item) (user : option UserId)
    (ts : Z) (matching : list RouteEntry) (total : Z) : M Service Z :=
  match matching with
  | [] => mret total
  | e :: rest =>
      let! total' := publish_groups e t op items user ts
                       (iteration_order (partition_groups e items)) total in
      publish_entries t op items user ts rest total'
  end.

Definition publish_batch (c : RouteCache) (t : TableId) (op : TopicOp) (rows : list Row)
    (user : option UserId) : M Service Z :=
  match rows with
  | [] => mret 0
  | _ =>
      match get_matching_routes c t op with
      | [] => mret 0
      | matching =>
          let! columns := lift (primary_key_columns t) in
          let! prepared := lift (mapM (fun row => prepare_row row t matching) rows) in
          let! keys := lift (mapM (fun prep => extract_key prep columns) prepared) in
          let! ts := read_clock env in
          publish_entries t op (zip (zip rows prepared) keys) user ts matching 0
      end
  end.

(** [publish_typed]: partition 0 of an existing topic. *)
Definition publish_typed (c : RouteCache) (topic : TopicId) (payload : list Z)
    (user : option UserId) : M Service Z :=
  if topic_exists c topic then
    let k := mkTP topic 0 in
    on_partition k (publish_one encoded_len env k payload None user OpInsert)
  else mfail TopicNotFound.

(** Rows published one after the other. *)
Fixpoint publish_each (c : RouteCache) (t : TableId) (op : TopicOp) (rows : list Row)
    (user : option UserId) (total : Z) : M Service Z :=
  match rows with
  | [] => mret total
  | row :: rest =>
      let! n := publish_message c t op row user in
      publish_each c t op rest user (total + n)
  end.

(** ** What a partition should receive *)

Context (t : TableId) (op : TopicOp) (user : option UserId).

(** What a reader of the log sees of a message, its offset and time aside. *)
Abbreviation Content := (list Z * option string * option UserId * TopicOp)%type.

Definition content (m : TopicMessage) : Content :=
  (tm_payload m, tm_key m, tm_user_id m, tm_op m).

Definition contents (s : Service) (k : TopicPartitionKey) : list Content :=
  content <$> p_log (partition_of s k).

(** What route [e] sends for a row, and where. *)
Definition sent (e : RouteEntry) (it : Item) : option Content :=
  let '(row, prep, key) := it in
  if route_matches_row e row then (fun payload => (payload, key, user, op)) <$> payload_of e prep t
  else None.

Definition destination (e : RouteEntry) (it : Item) : TopicPartitionKey :=
  let '(_, prep, key) := it in mkTP (topic_id_of e) (partition_for e prep key).

Definition routed (k : TopicPartitionKey) (e : RouteEntry) (it : Item) : option Content :=
  if decide (destination e it = k) then sent e it else None.

(** Every row a route selects has a payload, of a length that is a [usize]. *)
Definition sendable (e : RouteEntry) (it : Item) : Prop :=
  let '(row, prep, key) := it in
  route_matches_row e row = true ->
  exists payload, payload_of e prep t = Some payload /\ Z.of_nat (length payload) <= i64_max.

(** All that [matching] sends for [items], row by row and route by route. *)
Definition row_major {A} (f : RouteEntry -> Item -> option A) (matching : list RouteEntry)
    (items : list Item) : list A := items ≫= (fun it => omap (fun e => f e it) matching).
Definition entry_major {A} (f : RouteEntry -> Item -> option A) (matching : list RouteEntry)
    (items : list Item) : list A := matching ≫= (fun e => omap (f e) items).

Definition service_ok (ts : Z) (s : Service) : Prop :=
  forall k, part_ok encoded_len ts (partition_of s k).

(** There are offsets left for [new]. *)
Definition fits (s : Service) (new : TopicPartitionKey -> list Content) : Prop :=
  forall k, next_of (partition_of s k) + Z.of_nat (length (new k)) <= u64_max.

(** [s'] is [s] with [new k] appended to every partition [k]. *)
Definition extends (s s' : Service) (new : TopicPartitionKey -> list Content) : Prop :=
  forall k, contents s' k = contents s k ++ new k /\
    next_of (partition_of s' k) = next_of (partition_of s k) + Z.of_nat (length (new k)).

(** From any state with room, [m] returns a result in [Q] and appends [new]; [clk n] bounds the
    timestamps stored up to tick [n]. *)
Definition appends {A} (clk : nat -> Z) (m : M Service A) (Q : A -> Prop)
    (new : TopicPartitionKey -> list Content) : Prop :=
  forall n s, service_ok (clk n) s -> fits s new ->
    exists a s' n', m n s = (Ok a, s', n') /\ Q a /\ (n <= n')%nat /\ service_ok (clk n') s' /\
      extends s s' new.

Lemma appends_ret {A} (clk : nat -> Z) (a : A) (Q : A -> Prop) :
  Q a -> appends clk (mret a) Q (fun _ => []).
Proof.
  intros HQ n s Hs _. exists a, s, n. split_and!; try done. intros k. rewrite app_nil_r. simpl.
  split; [done|lia].
Qed.

Lemma appends_bind {A B} (clk : nat -> Z) (m : M Service A) (f : A -> M Service B) Q1 Q2 new1 new2 :
  appends clk m Q1 new1 -> (forall a, Q1 a -> appends clk (f a) Q2 new2) ->
  appends clk (mbind m f) Q2 (fun k => new1 k ++ new2 k).
Proof.
  intros Hm Hf n s Hs Hfit.
  assert (fits s new1) as Hfit1.
  { intros k. specialize (Hfit k). simpl in Hfit. rewrite length_app in Hfit. lia. }
  destruct (Hm n s Hs Hfit1) as (a & s1 & n1 & E1 & Ha & Hn1 & Hs1 & Hx1).
  assert (fits s1 new2) as Hfit2.
  { intros k. specialize (Hfit k). simpl in Hfit. rewrite length_app in Hfit.
    destruct (Hx1 k) as [_ ->]. lia. }
  destruct (Hf a Ha n1 s1 Hs1 Hfit2) as (b & s2 & n2 & E2 & Hb & Hn2 & Hs2 & Hx2).
  exists b, s2, n2. unfold mbind. rewrite E1. split_and!; [done|done|lia|done|].
  intros k. destruct (Hx1 k) as [P1 N1]. destruct (Hx2 k) as [P2 N2].
  rewrite P2, P1, N2, N1, length_app, app_assoc. split; [done|lia].
Qed.

Lemma appends_lift {A B} (clk : nat -> Z) (o : option A) (a : A) (f : A -> M Service B) Q new :
  o = Some a -> appends clk (f a) Q new -> appends clk (mbind (lift o) f) Q new.
Proof. intros -> Hf n s Hs Hfit. exact (Hf n s Hs Hfit). Qed.

Lemma appends_ext {A} (clk : nat -> Z) (m : M Service A) Q Q' new new' :
  appends clk m Q new -> (forall k, new k = new' k) -> (forall a, Q a -> Q' a) ->
  appends clk m Q' new'.
Proof.
  intros Hm He HQ n s Hs Hfit. destruct (Hm n s Hs) as (a & s' & n' & ? & ? & ? & ? & Hx).
  { intros k. rewrite He. apply Hfit. }
  exists a, s', n'. split_and!; try done; [by apply HQ|]. intros k. rewrite <-He. apply Hx.
Qed.

Lemma partition_of_update s k p k' :
  partition_of (upd_partitions (fun ps => <[k := p]> ps) s) k' =
  if decide (k' = k) then p else partition_of s k'.
Proof.
  unfold partition_of. simpl. case_decide as E; [subst; by rewrite lookup_insert_eq|].
  by rewrite lookup_insert_ne.
Qed.

(** A partition-local write of [ms]. *)
Lemma appends_published (clk : nat -> Z) (k : TopicPartitionKey) n n' s ms b ts :
  service_ok (clk n) s -> clk n <= ts <= clk n' ->
  consecutive (next_of (partition_of s k)) ms -> (forall m, m ∈ ms -> tm_timestamp_ms m = ts) ->
  Forall payload_ok ms ->
  next_of (partition_of s k) + Z.of_nat (length ms) <= u64_max ->
  let s' := upd_partitions (fun ps => <[k := published encoded_len (partition_of s k) ms b]> ps) s in
  service_ok (clk n') s' /\
  extends s s' (fun k' => if decide (k' = k) then content <$> ms else []).
Proof.
  intros Hs Hts Hc Hm Hp Hmax s'. unfold s'. split; intros k'.
  - rewrite partition_of_update. case_decide; [|eapply part_ok_weaken; [apply Hs|lia]].
    eapply part_ok_weaken; [apply (published_ok encoded_len (clk n) ts); try done; lia|lia].
  - unfold contents. rewrite partition_of_update. case_decide as E; [subst k'|].
    + unfold published at 1. cbn [p_log]. rewrite fmap_app, length_fmap. split; [done|].
      unfold next_of at 1, published, add_retained_bytes. cbn. by destruct (b =? 0).
    + rewrite app_nil_r. simpl. split; [done|lia].
Qed.

Hypothesis Hio : healthy env.
Hypothesis Hclk : clock_monotone env.

Lemma appends_one k payload key :
  Z.of_nat (length payload) <= i64_max ->
  appends (clock env) (on_partition k (publish_one encoded_len env k payload key user op))
    (fun _ => True) (fun k' => if decide (k' = k) then [(payload, key, user, op)] else []).
Proof.
  intros Hlen n s Hs Hfit.
  specialize (Hfit k). cbv beta in Hfit. rewrite decide_True in Hfit by done. cbn [length] in Hfit.
  pose proof (Hs k) as Hp. set (m := mkMessage (tp_topic_id k) (tp_partition_id k)
    (next_of (partition_of s k)) payload key (clock env n) user op).
  destruct (appends_published (clock env) k n (S (S n)) s [m] (encoded_len m) (clock env n))
    as [Hs' Hx]; try done.
  { split; [lia|apply Hclk; lia]. }
  { by intros x ->%list_elem_of_singleton. }
  { by constructor. }
  eexists (next_of (partition_of s k)), _, (S (S n)). split_and!; [|done|lia|exact Hs'|exact Hx].
  unfold on_partition. rewrite (publish_one_cases encoded_len env (clock env n)); [|done|lia|done].
  cbn zeta. by rewrite Hio.
Qed.

Lemma number_messages_content k ts o enc :
  content <$> number_messages k ts o user op enc = (fun pk => (pk.1, pk.2, user, op)) <$> enc.
Proof. revert o. induction enc as [|[pl key] enc IH]; intros o; [done|]. cbn. by rewrite IH. Qed.

Lemma appends_group k ts enc :
  Forall (fun pk => Z.of_nat (length pk.1) <= i64_max) enc ->
  appends (fun _ => ts) (on_partition k (publish_group encoded_len env k ts enc user op))
    (fun _ => True)
    (fun k' => if decide (k' = k) then (fun pk => (pk.1, pk.2, user, op)) <$> enc else []).
Proof.
  intros Hlen n s Hs Hfit.
  specialize (Hfit k). cbv beta in Hfit. rewrite decide_True in Hfit by done. rewrite length_fmap in Hfit.
  pose proof (Hs k) as Hp. assert (0 <= next_of (partition_of s k)) as H0
    by (destruct Hp as (_ & ? & _); lia).
  destruct (number_messages_consecutive encoded_len k ts _ user op enc H0 Hfit) as (Hc & Hm & Hl & _).
  set (ms := number_messages k ts (next_of (partition_of s k)) user op enc) in *.
  destruct (appends_published (fun _ => ts) k n (S n) s ms
    (foldl (fun acc m => u64_add acc (encoded_len m)) 0 ms) ts) as [Hs' Hx]; try done.
  { intros m Hin. by apply Hm. }
  { apply Forall_forall. intros m (_ & pk & Hin & Hpl & _)%Hm. rewrite Forall_forall in Hlen.
    unfold payload_ok, payload_len. rewrite Hpl. by apply Hlen. }
  { by rewrite Hl. }
  eexists (Z.of_nat (length enc)), _, (S n). split_and!; [|done|lia|exact Hs'|].
  - unfold on_partition. rewrite (publish_group_cases encoded_len env ts); [|done|done|lia].
    cbn zeta. rewrite Hio. reflexivity.
  - intros k'. destruct (Hx k') as [P N]. rewrite <-(number_messages_content k ts
      (next_of (partition_of s k))). fold ms. by split.
Qed.

(** *** Row by row *)

Lemma sent_sendable e row prep key :
  sendable e (row, prep, key) -> route_matches_row e row = true ->
  exists payload, payload_of e prep t = Some payload /\ Z.of_nat (length payload) <= i64_max /\
    sent e (row, prep, key) = Some (payload, key, user, op).
Proof.
  intros H Hm. destruct (H Hm) as (pl & E & Hl). exists pl. unfold sent. rewrite Hm, E. eauto.
Qed.

Lemma appends_routes row prep key matching total :
  Forall (fun e => sendable e (row, prep, key)) matching ->
  appends (clock env) (publish_routes t op row prep key user matching total)
    (fun r => r = total + Z.of_nat (length (omap (fun e => sent e (row, prep, key)) matching)))
    (fun k => omap (fun e => routed k e (row, prep, key)) matching).
Proof.
  revert total. induction matching as [|e matching IH]; intros total Hs.
  { apply appends_ret. simpl. lia. }
  apply Forall_cons in Hs as [He Hs]. cbn [publish_routes].
  destruct (route_matches_row e row) eqn:Em.
  - destruct (sent_sendable _ _ _ _ He Em) as (pl & Epl & Hlen & Esent).
    eapply appends_ext; [eapply appends_lift; [exact Epl|];
      eapply appends_bind; [by apply appends_one|intros _ _; by apply IH]| |].
    + intros k. cbn [omap list_omap]. unfold routed at 2. rewrite Esent. simpl.
      destruct (decide (k = _)) as [->|Hne]; [by rewrite decide_True|].
      rewrite decide_False by congruence. done.
    + intros r ->. cbn [omap list_omap]. rewrite Esent. cbn [length]. lia.
  - eapply appends_ext; [by apply IH| |].
    + intros k. cbn [omap list_omap]. unfold routed at 2, sent. rewrite Em.
      by destruct (decide _).
    + intros r ->. cbn [omap list_omap]. unfold sent at 2. by rewrite Em.
Qed.

(** A row with its prepared form and its key, when both exist. *)
Definition item_of (columns : list string) (matching : list RouteEntry) (row : Row) : option Item :=
  prep ← prepare_row row t matching; key ← extract_key prep columns; Some (row, prep, key).

Lemma appends_each c columns rows items total :
  primary_key_columns t = Some columns ->
  mapM (item_of columns (get_matching_routes c t op)) rows = Some items ->
  Forall (fun it => Forall (fun e => sendable e it) (get_matching_routes c t op)) items ->
  appends (clock env) (publish_each c t op rows user total)
    (fun r => r = total + Z.of_nat (length (row_major sent (get_matching_routes c t op) items)))
    (fun k => row_major (routed k) (get_matching_routes c t op) items).
Proof.
  intros Hpk Hit%mapM_Some_1 Hs. revert total Hs.
  induction Hit as [|row it rows items E _ IH]; intros total Hs; cbn [publish_each].
  { apply appends_ret. simpl. lia. }
  apply Forall_cons in Hs as [He Hs]. unfold item_of in E.
  destruct (prepare_row row t _) as [prep|] eqn:Eprep; [|done]. simpl in E.
  destruct (extract_key prep columns) as [key|] eqn:Ekey; [|done]. injection E as <-.
  unfold publish_message. set (matching := get_matching_routes c t op) in *.
  change (fun k => row_major (routed k) matching ((row, prep, key) :: items)) with
    (fun k => omap (fun e => routed k e (row, prep, key)) matching ++
              row_major (routed k) matching items).
  apply (appends_bind _ _ _ (fun r => r = Z.of_nat (length
    (omap (fun e => sent e (row, prep, key)) matching)))).
  - pose proof (appends_routes row prep key matching 0 He) as Hr.
    destruct matching as [|e matching'] eqn:Em; [by apply appends_ret|].
    eapply appends_lift; [exact Hpk|]. eapply appends_lift; [exact Eprep|].
    eapply appends_lift; [exact Ekey|]. exact Hr.
  - intros r ->. eapply appends_ext; [by apply IH|done|]. intros r ->.
    change (row_major sent matching ((row, prep, key) :: items)) with
      (omap (fun e => sent e (row, prep, key)) matching ++ row_major sent matching items).
    rewrite length_app. lia.
Qed.

(** *** Group by group *)

Lemma appends_groups e items ts groups total :
  Forall (fun g => Forall (fun i => exists it pl, items !! i = Some it /\
     sent e it = Some (pl, it.2, user, op) /\ encode_row e t items i = Some (pl, it.2) /\
     Z.of_nat (length pl) <= i64_max) g.2) groups ->
  appends (fun _ => ts) (publish_groups e t op items user ts groups total)
    (fun r => r = total + Z.of_nat (length (groups ≫= snd)))
    (fun k => groups ≫= fun g => if decide (k = mkTP (topic_id_of e) g.1)
                                 then omap (fun i => items !! i ≫= sent e) g.2 else []).
Proof.
  revert total. induction groups as [|[pid ixs] groups IH]; intros total Hg; cbn [publish_groups].
  { apply appends_ret. simpl. lia. }
  apply Forall_cons in Hg as [Hi Hg]. simpl in Hi.
  assert (exists enc, mapM (encode_row e t items) ixs = Some enc /\
    Forall (fun pk => Z.of_nat (length pk.1) <= i64_max) enc /\
    (fun pk => (pk.1, pk.2, user, op)) <$> enc = omap (fun i => items !! i ≫= sent e) ixs)
    as (enc & Eenc & Hlen & Hc).
  { clear IH Hg. induction Hi as [|i ixs (it & pl & Eit & Es & Ee & Hl) _ (enc & E & Hlen & Hc)].
    - by exists [].
    - exists ((pl, it.2) :: enc). cbn [mapM omap list_omap fmap list_fmap].
      rewrite Ee, Eit. simpl. rewrite E, Es. simpl. split_and!; [done|by constructor|].
      f_equal. exact Hc. }
  eapply appends_ext; [eapply appends_lift; [exact Eenc|];
    eapply appends_bind; [by apply appends_group|intros _ _; by apply IH]| |].
  - intros k. rewrite bind_cons. simpl. by rewrite Hc.
  - intros r ->. rewrite bind_cons, length_app. simpl. lia.
Qed.

(** *** The groups of one route *)

Definition numbered (items : list Item) : list (nat * Item) := zip (seq 0 (length items)) items.

Lemma numbered_spec items :
  Forall2 (fun ix it => ix.2 = it /\ items !! ix.1 = Some it) (numbered items) items.
Proof.
  unfold numbered. cut (forall pre l : list Item, Forall2 (fun ix it => ix.2 = it /\ (pre ++ l) !! ix.1 = Some it)
    (zip (seq (length pre) (length l)) l) l); [intros H; exact (H [] items)|].
  intros pre l. revert pre. induction l as [|it l IH]; intros pre; [constructor|].
  simpl. constructor.
  - simpl. split; [done|]. by rewrite list_lookup_middle.
  - specialize (IH (pre ++ [it])). rewrite length_app, Nat.add_comm, <-app_assoc in IH. exact IH.
Qed.

(** The index of a row that [e] sends to partition [pid]. *)
Definition in_group (e : RouteEntry) (pid : Z) (ix : nat * Item) : option nat :=
  if decide (partition_of_item e ix.2 = Some pid) then Some ix.1 else None.

Lemma group_rows_lookup e l m pid :
  default [] (foldl (group_row e) m l !! pid) = default [] (m !! pid) ++ omap (in_group e pid) l.
Proof.
  revert m. induction l as [|ix l IH]; intros m; cbn [foldl]; [by rewrite app_nil_r|].
  rewrite IH. cbn [omap list_omap]. unfold group_row, in_group at 2.
  destruct (partition_of_item e ix.2) as [q|]; [|done].
  destruct (decide (q = pid)) as [->|Hne].
  - rewrite lookup_insert_eq, decide_True by done. simpl. by rewrite <-app_assoc.
  - rewrite lookup_insert_ne by done. rewrite decide_False by congruence. done.
Qed.

Lemma group_rows_length e l m :
  length (map_to_list (foldl (group_row e) m l) ≫= snd) =
  (length (map_to_list m ≫= snd) + length (omap (fun ix => partition_of_item e ix.2) l))%nat.
Proof.
  revert m. induction l as [|ix l IH]; intros m; cbn [foldl]; [simpl; lia|].
  rewrite IH. cbn [omap list_omap]. unfold group_row.
  destruct (partition_of_item e ix.2) as [q|]; [|done]. cbn [length].
  rewrite <-insert_delete_eq, map_to_list_insert by apply lookup_delete_eq.
  rewrite bind_cons, length_app. simpl. rewrite length_app. simpl.
  destruct (m !! q) as [ixs|] eqn:E; simpl.
  - rewrite <-(map_to_list_delete m q ixs) by done. rewrite bind_cons, length_app. simpl. lia.
  - rewrite delete_id by done. lia.
Qed.

Lemma bind_groups {A} (gs : list (Z * list nat)) (F : list nat -> list A) topic k :
  NoDup gs.*1 -> F [] = [] ->
  (gs ≫= fun g => if decide (k = mkTP topic g.1) then F g.2 else []) =
  if decide (tp_topic_id k = topic)
  then F (default [] ((list_to_map gs : gmap Z (list nat)) !! tp_partition_id k)) else [].
Proof.
  intros Hnd HF. induction gs as [|[pid ixs] gs IH].
  { simpl. rewrite lookup_empty. simpl. by destruct (decide _). }
  apply NoDup_cons in Hnd as [Hx Hnd]. rewrite bind_cons, IH by done. simpl.
  destruct k as [kt kp]. simpl in *. destruct (decide (kt = topic)) as [->|Hne].
  - destruct (decide (kp = pid)) as [->|Hp].
    + rewrite decide_True, lookup_insert_eq by done.
      rewrite (not_elem_of_list_to_map_1 gs pid) by done. simpl. by rewrite HF, app_nil_r.
    + rewrite decide_False by congruence. by rewrite lookup_insert_ne.
  - by rewrite decide_False by congruence.
Qed.

(** [HashMap] iteration visits every entry once, in some order. *)
Hypothesis Hiter : forall m, iteration_order m ≡ₚ map_to_list m.

Lemma in_group_sent e items pid ix it :
  ix.2 = it /\ items !! ix.1 = Some it -> sendable e it -> partition_of_item e it = Some pid ->
  exists it pl, items !! ix.1 = Some it /\ sent e it = Some (pl, it.2, user, op) /\
    encode_row e t items ix.1 = Some (pl, it.2) /\ Z.of_nat (length pl) <= i64_max.
Proof.
  intros [Hx Hit] Hs Hp. destruct it as [[row prep] key]. unfold partition_of_item in Hp.
  destruct (route_matches_row e row) eqn:Em; [|done].
  destruct (sent_sendable _ _ _ _ Hs Em) as (pl & Epl & Hl & Es).
  exists (row, prep, key), pl. split_and!; try done. unfold encode_row. by rewrite Hit, Epl.
Qed.

Lemma sent_partition e it : sendable e it -> is_Some (sent e it) <-> is_Some (partition_of_item e it).
Proof.
  intros Hs. destruct it as [[row prep] key]. unfold sent, partition_of_item.
  destruct (route_matches_row e row) eqn:Em; [|by rewrite !is_Some_alt].
  destruct (Hs Em) as (pl & -> & _). split; eauto.
Qed.

Lemma group_contents e items k :
  Forall (sendable e) items -> tp_topic_id k = topic_id_of e ->
  omap (fun i => items !! i ≫= sent e) (omap (in_group e (tp_partition_id k)) (numbered items)) =
  omap (routed k e) items.
Proof.
  intros Hs Hk. transitivity (omap (fun ix => in_group e (tp_partition_id k) ix ≫=
    fun i => items !! i ≫= sent e) (numbered items)).
  { generalize (numbered items). intros l. induction l as [|ix l IH]; [done|].
    cbn [omap list_omap]. destruct (in_group _ _ ix) as [i|]; simpl; [|exact IH].
    destruct (items !! i ≫= sent e); [f_equal|]; exact IH. }
  apply list_omap_ext. eapply Forall2_impl; [apply numbered_spec|]. intros ix it [<- Hit].
  unfold in_group, routed. destruct ix as [i [[row prep] key]]. simpl in *.
  destruct (route_matches_row e row) eqn:Em.
  - destruct k as [kt kp]. simpl in *. subst kt. destruct (decide (partition_for e prep key = kp)) as [<-|Hne].
    + rewrite !decide_True by done. simpl. rewrite Hit. simpl. by rewrite Em.
    + rewrite !decide_False by congruence. done.
  - rewrite decide_False by done. by destruct (decide _).
Qed.

Lemma appends_entry e items ts total :
  Forall (sendable e) items ->
  appends (fun _ => ts)
    (publish_groups e t op items user ts (iteration_order (partition_groups e items)) total)
    (fun r => r = total + Z.of_nat (length (omap (sent e) items)))
    (fun k => omap (routed k e) items).
Proof.
  intros Hs. set (m := partition_groups e items).
  assert (forall g, g ∈ iteration_order m -> m !! g.1 = Some g.2) as Hg.
  { intros [pid ixs]. rewrite Hiter. by intros ?%elem_of_map_to_list. }
  assert (forall pid, default [] (m !! pid) = omap (in_group e pid) (numbered items)) as Hm.
  { intros pid. unfold m, partition_groups. rewrite group_rows_lookup, lookup_empty. done. }
  eapply appends_ext; [apply appends_groups| |].
  - apply Forall_forall. intros g Hin%Hg. apply Forall_forall. intros i Hi.
    specialize (Hm g.1). rewrite Hin in Hm. simpl in Hm. rewrite Hm in Hi.
    apply list_elem_of_omap in Hi as (ix & Hix & E). unfold in_group in E. case_decide; [|done].
    injection E as <-. apply list_elem_of_lookup in Hix as (j & Hj).
    destruct (Forall2_lookup_l _ _ _ _ _ (numbered_spec items) Hj) as (it & Eit & Hx & Hl).
    eapply in_group_sent; [done| |by rewrite <-Hx].
    rewrite Forall_forall in Hs. apply Hs. by eapply list_elem_of_lookup_2.
  - intros k. etransitivity; [apply (bind_groups _ (omap (fun i => items !! i ≫= sent e)));
      [rewrite Hiter; apply NoDup_fst_map_to_list|done]|].
    rewrite <-(list_to_map_flip m (iteration_order m)) by (symmetry; apply Hiter). rewrite Hm. case_decide as E.
    + by apply group_contents.
    + symmetry. apply elem_of_nil_inv. intros x (it & _ & Hr)%list_elem_of_omap.
      unfold routed in Hr. case_decide as Ed; [|done]. destruct it as [[row prep] key].
      by rewrite <-Ed in E.
  - intros r ->. do 2 f_equal. rewrite Hiter. unfold m, partition_groups.
    rewrite group_rows_length, map_to_list_empty. simpl.
    transitivity (length (omap (partition_of_item e) items)).
    + f_equal. apply list_omap_ext. eapply Forall2_impl; [apply numbered_spec|].
      by intros ix it [<- _].
    + clear -Hs. induction Hs as [|it items Hi _ IH]; [done|]. cbn [omap list_omap].
      apply sent_partition in Hi. destruct (sent e it), (partition_of_item e it); simpl; [lia| | |done].
      * destruct (proj1 Hi) as [? ?]; [eauto|done].
      * destruct (proj2 Hi) as [? ?]; [eauto|done].
Qed.

Lemma appends_entries matching items ts total :
  Forall (fun e => Forall (sendable e) items) matching ->
  appends (fun _ => ts) (publish_entries t op items user ts matching total)
    (fun r => r = total + Z.of_nat (length (entry_major sent matching items)))
    (fun k => entry_major (routed k) matching items).
Proof.
  intros Hs. revert total. induction Hs as [|e matching He _ IH]; intros total; cbn [publish_entries].
  { apply appends_ret. simpl. lia. }
  eapply appends_ext; [eapply appends_bind; [by apply appends_entry|intros r ->; apply IH]| |].
  - intros k. done.
  - intros r ->. change (entry_major sent (e :: matching) items) with
      (omap (sent e) items ++ entry_major sent matching items). rewrite length_app. lia.
Qed.

Lemma items_parts columns matching rows items :
  mapM (item_of columns matching) rows = Some items ->
  exists preps keys, mapM (fun row => prepare_row row t matching) rows = Some preps /\
    mapM (fun prep => extract_key prep columns) preps = Some keys /\
    zip (zip rows preps) keys = items.
Proof.
  intros H%mapM_Some_1. induction H as [|row it rows items E _ (preps & keys & Ep & Ek & Ez)].
  { by exists [], []. }
  unfold item_of in E. destruct (prepare_row row t matching) as [prep|] eqn:E1; [|done]. simpl in E.
  destruct (extract_key prep columns) as [key|] eqn:E2; [|done]. injection E as <-.
  exists (prep :: preps), (key :: keys). simpl. rewrite E1, Ep, E2. simpl. by rewrite Ek, <-Ez.
Qed.

Lemma entry_major_nil {A} (f : RouteEntry -> Item -> option A) matching :
  entry_major f matching [] = [].
Proof. by induction matching. Qed.

Lemma appends_batch c columns rows items :
  primary_key_columns t = Some columns ->
  mapM (item_of columns (get_matching_routes c t op)) rows = Some items ->
  Forall (fun it => Forall (fun e => sendable e it) (get_matching_routes c t op)) items ->
  appends (clock env) (publish_batch c t op rows user)
    (fun r => r = Z.of_nat (length (entry_major sent (get_matching_routes c t op) items)))
    (fun k => entry_major (routed k) (get_matching_routes c t op) items).
Proof.
  intros Hpk Hit Hs. destruct (items_parts _ _ _ _ Hit) as (preps & keys & Ep & Ek & Ez).
  unfold publish_batch. destruct rows as [|row rows].
  { injection Hit as <-. eapply appends_ext; [by apply (appends_ret _ 0 (fun r => r = 0))| |].
    - intros k. by rewrite entry_major_nil.
    - intros r ->. by rewrite entry_major_nil. }
  destruct (get_matching_routes c t op) as [|e0 matching0] eqn:Em; [by apply appends_ret|].
  rewrite <-Em in *. clear e0 matching0 Em. set (matching := get_matching_routes c t op) in *.
  eapply appends_lift; [exact Hpk|]. eapply appends_lift; [exact Ep|].
  eapply appends_lift; [exact Ek|]. rewrite Ez. intros n s Hok Hfit.
  destruct (appends_entries matching items (clock env n) 0) with (n := S n) (s := s)
    as (r & s' & n' & E & Hr & Hn & Hok' & Hx); [|done|done|].
  { apply Forall_forall. intros e He. eapply Forall_impl; [exact Hs|]. intros it Hall.
    rewrite Forall_forall in Hall. by apply Hall. }
  exists r, s', n'. split_and!; [exact E|lia|lia| |exact Hx].
  intros k. eapply part_ok_weaken; [apply Hok'|]. apply Hclk. lia.
Qed.

(** *** The two orders *)

Lemma row_major_cons {A} (f : RouteEntry -> Item -> option A) e matching items :
  row_major f (e :: matching) items ≡ₚ omap (f e) items ++ row_major f matching items.
Proof.
  induction items as [|it items IH]; [done|].
  change (row_major f (e :: matching) (it :: items)) with
    (omap (fun e => f e it) (e :: matching) ++ row_major f (e :: matching) items).
  change (row_major f matching (it :: items)) with
    (omap (fun e => f e it) matching ++ row_major f matching items).
  rewrite IH. cbn [omap list_omap]. destruct (f e it) as [a|]; simpl; [constructor|]; solve_Permutation.
Qed.

Lemma majors_permutation {A} (f : RouteEntry -> Item -> option A) matching items :
  row_major f matching items ≡ₚ entry_major f matching items.
Proof.
  induction matching as [|e matching IH].
  - induction items as [|it items IHi]; [done|]. exact IHi.
  - by rewrite row_major_cons, IH.
Qed.

Lemma row_major_length {A} (f : RouteEntry -> Item -> option A) matching items :
  (length (row_major f matching items) <= length items * length matching)%nat.
Proof.
  assert (forall it, (length (omap (fun e => f e it) matching) <= length matching)%nat) as Hm.
  { intros it. induction matching as [|e matching IH]; [done|]. cbn [omap list_omap length].
    destruct (f e it); [apply le_n_S, IH|]. etransitivity; [exact IH|lia]. }
  induction items as [|it items IH]; [simpl; lia|].
  change (row_major f matching (it :: items)) with
    (omap (fun e => f e it) matching ++ row_major f matching items).
  rewrite length_app. specialize (Hm it). cbn [length]. lia.
Qed.

Lemma row_major_skip {A} (f : RouteEntry -> Item -> option A) e matching items :
  (forall it, f e it = None) -> row_major f (e :: matching) items = row_major f matching items.
Proof.
  intros He. unfold row_major. apply list_bind_ext; [|done]. intros it. cbn [omap list_omap].
  by rewrite He.
Qed.

Lemma row_major_none {A} (f : RouteEntry -> Item -> option A) matching items :
  (forall e it, e ∈ matching -> f e it = None) -> row_major f matching items = [].
Proof.
  induction matching as [|e matching IH]; intros Hf.
  - induction items as [|it items IHi]; [done|exact IHi].
  - rewrite row_major_skip by (intros; apply Hf; left). apply IH. intros e' it He. apply Hf. by right.
Qed.

Lemma routed_topic k e it : tp_topic_id k ≠ topic_id_of e -> routed k e it = None.
Proof.
  intros Hne. unfold routed. case_decide as E; [|done]. destruct it as [[row prep] key].
  by rewrite <-E in Hne.
Qed.

(** With one route per topic both orders agree on every partition. *)
Lemma majors_equal k matching items :
  NoDup (topic_id_of <$> matching) ->
  row_major (routed k) matching items = entry_major (routed k) matching items.
Proof.
  intros Hnd. induction matching as [|e matching IH].
  { induction items as [|it items IHi]; [done|exact IHi]. }
  apply NoDup_cons in Hnd as [Hx Hnd].
  change (entry_major (routed k) (e :: matching) items) with
    (omap (routed k e) items ++ entry_major (routed k) matching items).
  rewrite <-IH by done. destruct (decide (tp_topic_id k = topic_id_of e)) as [E|Hne].
  - assert (forall e' it, e' ∈ matching -> routed k e' it = None) as Hnone.
    { intros e' it He'. apply routed_topic. rewrite E. intros Heq. apply Hx. rewrite Heq.
      by apply list_elem_of_fmap_2. }
    rewrite (row_major_none _ matching) by done. rewrite app_nil_r.
    clear IH Hx Hnd. induction items as [|it items IHi]; [done|].
    change (row_major (routed k) (e :: matching) (it :: items)) with
      (omap (fun e => routed k e it) (e :: matching) ++ row_major (routed k) (e :: matching) items).
    rewrite IHi. cbn [omap list_omap].
    assert (omap (fun e' => routed k e' it) matching = []) as Hz.
    { apply elem_of_nil_inv. intros x (e' & He' & Hr)%list_elem_of_omap. by rewrite Hnone in Hr. }
    destruct (routed k e it); simpl in *; by rewrite Hz.
  - rewrite row_major_skip by (intros; by apply routed_topic).
    assert (omap (routed k e) items = []) as ->; [|done].
    apply elem_of_nil_inv. intros x (it & _ & Hr)%list_elem_of_omap. by rewrite routed_topic in Hr.
Qed.


(** *** The same rows in maps with other hasher keys *)

(** Equal but for the order of the members of the payload. *)
Definition same_content (a b : Content) : Prop :=
  let '(pl1, key1, user1, op1) := a in
  let '(pl2, key2, user2, op2) := b in
  key1 = key2 /\ user1 = user2 /\ op1 = op2 /\
  exists l1 l2, l1 ≡ₚ l2 /\ pl1 = utf8 (map_to_json l1) /\ pl2 = utf8 (map_to_json l2).

(** Two preparations of one row that has a key. *)
Definition same_item (matching : list RouteEntry) (a b : Item) : Prop :=
  exists row seed1 seed2 prep1 prep2 key,
    a = (row, seed1, prep1, Some key) /\ b = (row, seed2, prep2, Some key) /\
    prepare_row (row, seed1) t matching = Some prep1 /\
    prepare_row (row, seed2) t matching = Some prep2.

(** A row converts or fails whatever the hasher keys, and its key does not depend on them. *)
Lemma items_reseed columns matching rows1 rows2 items :
  columns ≠ [] -> Forall2 (fun a b => a.1 = b.1) rows1 rows2 ->
  mapM (item_of columns matching) rows1 = Some items ->
  exists items2, mapM (item_of columns matching) rows2 = Some items2 /\
    Forall2 (same_item matching) items items2.
Proof.
  intros Hne Hr H%mapM_Some_1. revert rows2 Hr.
  induction H as [|[row seed1] it rows1 items E _ IH]; intros rows2 Hr.
  { apply Forall2_nil_inv_l in Hr as ->. by exists []. }
  apply Forall2_cons_inv_l in Hr as ([row' seed2] & rows2' & Heq & Hr & ->). simpl in Heq. subst row'.
  destruct (IH _ Hr) as (items2 & E2 & H2). unfold item_of in E.
  destruct (prepare_row (row, seed1) t matching) as [p1|] eqn:Ep1; [|done]. cbn in E.
  destruct (extract_key p1 columns) as [key|] eqn:Ek1; [|done]. injection E as <-.
  destruct (prepare_seed _ _ _ _ seed2 _ Ep1) as (p2 & json & Ep2 & _ & Hj).
  assert (prepare_row (row, seed2) t matching = Some p2) as Ep2' by exact Ep2.
  assert (extract_key p2 columns = Some key) as Ek2 by (unfold extract_key in *; by rewrite Hj).
  destruct (extract_key_some _ _ _ Hne Ek1) as [k ->].
  exists ((row, seed2, p2, Some k) :: items2). split.
  - apply mapM_Some_2. constructor; [|by apply mapM_Some_1].
    unfold item_of. rewrite Ep2'. cbn. by rewrite Ek2.
  - constructor; [|done]. exists row, seed1, seed2, p1, p2, k. done.
Qed.

Lemma matching_route (c : RouteCache) (e : RouteEntry) : e ∈ get_matching_routes c t op -> exists r, route e = Some r.
Proof.
  rewrite matching_routes_filter, list_elem_of_filter. intros [Hop _]. unfold route_has_op in Hop.
  destruct (route e) as [r|]; [by exists r|done].
Qed.

(** The payload of a matching route is the serialized row; the fallback is never taken. *)
Lemma matching_payload (matching : list RouteEntry) (e : RouteEntry) r row seed prep json :
  e ∈ matching -> route e = Some r -> prepare_row (row, seed) t matching = Some prep ->
  row_to_json_map row = Some json ->
  payload_of e prep t = Some (to_vec seed (payload_members (tr_payload_mode r) t json)).
Proof.
  intros He Hr Hp Hj. unfold payload_of. rewrite Hr.
  eapply prepared_payload; [exact Hp|exact Hj|].
  destruct (tr_payload_mode r) eqn:Em; [by left|right|right];
    (apply existsb_exists; exists e; split; [by apply list_elem_of_In|by rewrite Hr, Em]).
Qed.

Lemma sent_same matching e a b :
  e ∈ matching -> (exists r, route e = Some r) -> same_item matching a b ->
  option_Forall2 same_content (sent e a) (sent e b) /\ destination e a = destination e b.
Proof.
  intros He [r Hr] (row & seed1 & seed2 & p1 & p2 & key & -> & -> & E1 & E2). split; [|done].
  unfold sent. change (route_matches_row e (row, seed2)) with (route_matches_row e (row, seed1)).
  destruct (route_matches_row e (row, seed1)); [|constructor].
  destruct (prepare_seed _ _ _ _ seed2 _ E1) as (_ & json & _ & Hj & _).
  rewrite (matching_payload matching e r row seed1 p1 json) by done.
  rewrite (matching_payload matching e r row seed2 p2 json) by done.
  constructor. split_and!; try done. eexists _, _. split; [|done].
  by rewrite !hash_order_perm.
Qed.

Lemma routed_same matching k e a b :
  e ∈ matching -> (exists r, route e = Some r) -> same_item matching a b ->
  option_Forall2 same_content (routed k e a) (routed k e b).
Proof.
  intros He Hr Hs. destruct (sent_same matching e a b He Hr Hs) as [Hsent Hd].
  unfold routed. rewrite Hd. case_decide; [done|constructor].
Qed.

Lemma row_major_same {A} (R : A -> A -> Prop) (f : RouteEntry -> Item -> option A) matching l1 l2 :
  Forall2 (fun a b => forall e, e ∈ matching -> option_Forall2 R (f e a) (f e b)) l1 l2 ->
  Forall2 R (row_major f matching l1) (row_major f matching l2).
Proof.
  induction 1 as [|a b l1 l2 Hab _ IH]; [constructor|].
  change (row_major f matching (a :: l1)) with (omap (fun e => f e a) matching ++ row_major f matching l1).
  change (row_major f matching (b :: l2)) with (omap (fun e => f e b) matching ++ row_major f matching l2).
  apply Forall2_app; [|done]. clear IH. induction matching as [|e matching IH]; [constructor|].
  cbn [omap list_omap]. destruct (Hab e ltac:(left)) as [x y Hxy|].
  - constructor; [done|]. apply IH. intros e' He'. apply Hab. by right.
  - apply IH. intros e' He'. apply Hab. by right.
Qed.

Lemma written_to_matching s k matching items :
  Forall (fun e => 0 < topic_partitions e) matching ->
  contents s k ++ entry_major (routed k) matching items ≠ contents s k ->
  exists e, e ∈ matching /\ tp_topic_id k = topic_id_of e /\
    0 <= tp_partition_id k < topic_partitions e.
Proof.
  intros Hpos Hne.
  destruct (entry_major (routed k) matching items) as [|x l] eqn:E; [by rewrite app_nil_r in Hne|].
  assert (x ∈ entry_major (routed k) matching items) as Hin by (rewrite E; left).
  unfold entry_major in Hin.
  apply list_elem_of_bind in Hin as (e & (it & _ & Hr)%list_elem_of_omap & He).
  exists e. split; [done|]. unfold routed in Hr. case_decide as Ed; [|done].
  destruct it as [[row prep] key]. rewrite <-Ed. simpl. split; [done|].
  rewrite Forall_forall in Hpos. apply Z.mod_pos_bound. by apply Hpos.
Qed.

(** Every payload of the row has a length that is a [usize]. *)
Definition small_row (row : gmap string Scalar) : Prop :=
  forall seed mode json, row_to_json_map row = Some json ->
    Z.of_nat (length (to_vec seed (payload_members mode t json))) <= i64_max.

Lemma items_sendable c columns rows items :
  mapM (item_of columns (get_matching_routes c t op)) rows = Some items ->
  Forall (fun row => small_row row.1) rows ->
  Forall (fun it => Forall (fun e => sendable e it) (get_matching_routes c t op)) items.
Proof.
  intros H%mapM_Some_1 Hs. induction H as [|[row seed] it rows items E _ IH]; [constructor|].
  apply Forall_cons in Hs as [Hsm Hs]. constructor; [|by apply IH]. apply Forall_forall. intros e He.
  unfold item_of in E. destruct (prepare_row _ t _) as [prep|] eqn:Ep; [|done]. cbn in E.
  destruct (extract_key prep columns) as [key|]; [|done]. injection E as <-. intros _.
  destruct (matching_route c e He) as [r Hr].
  destruct (prepare_seed _ _ _ _ seed _ Ep) as (_ & json & _ & Hj & _).
  eexists. split; [by eapply matching_payload|]. by apply Hsm.
Qed.

(** A batch publishes what its rows published one by one publish, for a table with a primary
    key: whatever the hasher keys of the maps the rows are converted to, both runs succeed with
    the same count, every partition advances by the same offsets, and a message is only written
    to a partition of a topic with a matching route, in the range of the topic's partitions. With
    one matching route per topic, every partition receives in both runs the same messages in the
    order of the rows: equal keys, users and operations, and payloads with the same members. *)
Theorem batch_publishes_like_singles c columns rows1 rows2 items n s :
  primary_key_columns t = Some columns -> columns ≠ [] ->
  Forall2 (fun a b => a.1 = b.1) rows1 rows2 ->
  mapM (item_of columns (get_matching_routes c t op)) rows1 = Some items ->
  Forall (fun row => small_row row.1) rows1 ->
  Forall (fun e => 0 < topic_partitions e) (get_matching_routes c t op) ->
  (forall k, reachable encoded_len env n (partition_of s k)) ->
  fits s (fun k => row_major (routed k) (get_matching_routes c t op) items) ->
  exists total s1 n1 s2 n2,
    publish_batch c t op rows1 user n s = (Ok total, s1, n1) /\
    publish_each c t op rows2 user 0 n s = (Ok total, s2, n2) /\
    total = Z.of_nat (length (row_major sent (get_matching_routes c t op) items)) /\
    (forall k, next_of (partition_of s1 k) = next_of (partition_of s2 k)) /\
    (forall k, contents s1 k ≠ contents s k -> exists e, e ∈ get_matching_routes c t op /\
       tp_topic_id k = topic_id_of e /\ 0 <= tp_partition_id k < topic_partitions e) /\
    (NoDup (topic_id_of <$> get_matching_routes c t op) -> forall k, exists new1 new2,
       contents s1 k = contents s k ++ new1 /\ contents s2 k = contents s k ++ new2 /\
       new1 = row_major (routed k) (get_matching_routes c t op) items /\
       Forall2 same_content new1 new2).
Proof.
  intros Hpk Hne Hrows Hit Hsmall Hpos Hreach Hfit.
  destruct (items_reseed _ _ _ _ _ Hne Hrows Hit) as (items2 & Hit2 & Hsame).
  pose proof (items_sendable _ _ _ _ Hit Hsmall) as Hs1.
  assert (Forall (fun row => small_row row.1) rows2) as Hsmall2.
  { clear -Hrows Hsmall. induction Hrows as [|a b rows1 rows2 Hab _ IH]; [constructor|].
    apply Forall_cons in Hsmall as [? ?]. constructor; [by rewrite <-Hab|auto]. }
  pose proof (items_sendable _ _ _ _ Hit2 Hsmall2) as Hs2.
  pose proof (matching_route c) as Hroute.
  set (matching := get_matching_routes c t op) in *.
  assert (service_ok (clock env n) s) as Hok by (intros k; by apply reachable_ok).
  assert (forall k, Forall2 same_content (row_major (routed k) matching items)
                                         (row_major (routed k) matching items2)) as Hrouted.
  { intros k. apply row_major_same. eapply Forall2_impl; [exact Hsame|].
    intros a b Hab e He. eapply routed_same; eauto. }
  assert (Forall2 same_content (row_major sent matching items) (row_major sent matching items2)) as Hsent.
  { apply row_major_same. eapply Forall2_impl; [exact Hsame|].
    intros a b Hab e He. eapply sent_same; eauto. }
  assert (forall k, length (entry_major (routed k) matching items) =
                    length (row_major (routed k) matching items)) as Hlen
    by (intros k; by rewrite majors_permutation).
  destruct (appends_each c columns rows2 items2 0 Hpk Hit2 Hs2 n s Hok)
    as (r2 & s2 & n2 & E2 & -> & _ & _ & Hx2).
  { intros k. fold matching. rewrite <-(Forall2_length _ _ _ (Hrouted k)). apply Hfit. }
  destruct (appends_batch c columns rows1 items Hpk Hit Hs1 n s Hok)
    as (r1 & s1 & n1 & E1 & -> & _ & _ & Hx1).
  { intros k. fold matching. rewrite Hlen. apply Hfit. }
  fold matching in E1, E2, Hx1, Hx2. rewrite <-(majors_permutation sent matching items) in E1.
  rewrite <-(Forall2_length _ _ _ Hsent) in E2.
  eexists _, s1, n1, s2, n2. split_and!; [exact E1|exact E2|done| | |].
  - intros k. destruct (Hx1 k) as [_ ->]. destruct (Hx2 k) as [_ ->].
    by rewrite Hlen, <-(Forall2_length _ _ _ (Hrouted k)).
  - intros k. destruct (Hx1 k) as [-> _]. by apply written_to_matching.
  - intros Hnd k. destruct (Hx1 k) as [-> _]. destruct (Hx2 k) as [-> _].
    rewrite <-majors_equal by done. eauto 10.
Qed.

Lemma row_major_two {A} (f : RouteEntry -> Item -> option A) e a b :
  row_major f [e] [a; b] = option_list (f e a) ++ option_list (f e b).
Proof. unfold row_major. cbn. by destruct (f e a), (f e b). Qed.

(** Without a primary key the partition of a row is not a function of the row: it is hashed
    through the serialized [HashMap], so when the orders two hasher keys give the row hash to
    different partitions, publishing the row twice puts its two messages into two partitions. *)
Theorem keyless_row_changes_partition c e r row json seed1 seed2 n s :
  primary_key_columns t = Some [] -> get_matching_routes c t op = [e] -> compiled_filter e = None ->
  route e = Some r -> row_to_json_map row = Some json -> small_row row ->
  default_hash (to_vec seed1 json) mod topic_partitions e ≠
  default_hash (to_vec seed2 json) mod topic_partitions e ->
  (forall k, reachable encoded_len env n (partition_of s k)) ->
  (forall k, next_of (partition_of s k) + 2 <= u64_max) ->
  exists s' n' pid1 pid2, pid1 ≠ pid2 /\
    publish_each c t op [(row, seed1); (row, seed2)] user 0 n s = (Ok 2, s', n') /\
    forall pid, pid = pid1 \/ pid = pid2 ->
      length (contents s' (mkTP (topic_id_of e) pid)) =
      S (length (contents s (mkTP (topic_id_of e) pid))).
Proof.
  intros Hpk Hm Hf Hr Hj Hsm Hne Hreach Hroom.
  assert (forall seed, exists prep, prepare_row (row, seed) t [e] = Some prep /\
    partition_hash prep = default_hash (to_vec seed json) /\
    payload_of e prep t = Some (to_vec seed (payload_members (tr_payload_mode r) t json))) as Hprep.
  { intros seed. destruct (prepare_row (row, seed) t [e]) as [prep|] eqn:E.
    - exists prep. split; [done|]. split; [eapply prepare_hash; [exact E|done]|].
      eapply matching_payload; [left|done|exact E|done].
    - unfold prepare_row, prepare, from_row, from_row_with_table in E.
      destruct (needs_full_payload [e]); cbn in E; by rewrite Hj in E. }
  destruct (Hprep seed1) as (p1 & E1 & Hh1 & Hp1). destruct (Hprep seed2) as (p2 & E2 & Hh2 & Hp2).
  set (items := [(row, seed1, p1, None); (row, seed2, p2, None)] : list Item).
  assert (mapM (item_of [] (get_matching_routes c t op)) [(row, seed1); (row, seed2)] = Some items) as Hit.
  { rewrite Hm. apply mapM_Some_2. unfold item_of. repeat constructor; [by rewrite E1|by rewrite E2]. }
  assert (Forall (fun x => small_row x.1) [(row, seed1); (row, seed2)]) as Hsmall by (by repeat constructor).
  destruct (appends_each c [] _ items 0 Hpk Hit (items_sendable _ _ _ _ Hit Hsmall) n s)
    as (r2 & s2 & n2 & E & -> & _ & _ & Hx).
  { intros k. by apply reachable_ok. }
  { intros k. specialize (Hroom k). pose proof (row_major_length (routed k)
      (get_matching_routes c t op) items). rewrite Hm in *. simpl in *. lia. }
  rewrite Hm in E, Hx.
  assert (forall seed p, payload_of e p t = Some (to_vec seed (payload_members (tr_payload_mode r) t json)) ->
    exists x, sent e (row, seed, p, None) = Some x) as Hsent.
  { intros seed p Hp. unfold sent, route_matches_row. rewrite Hf, Hp. by eexists. }
  destruct (Hsent _ _ Hp1) as [x1 Hx1]. destruct (Hsent _ _ Hp2) as [x2 Hx2].
  assert (partition_for e p1 None ≠ partition_for e p2 None) as Hpid
    by (unfold partition_for, hash_row; by rewrite Hh1, Hh2).
  exists s2, n2, (partition_for e p1 None), (partition_for e p2 None). split_and!; [done| |].
  - rewrite E. do 3 f_equal. unfold items. by rewrite row_major_two, Hx1, Hx2.
  - intros pid Hor. destruct (Hx (mkTP (topic_id_of e) pid)) as [-> _]. rewrite length_app.
    unfold items. rewrite row_major_two. unfold routed. rewrite Hx1, Hx2.
    cbn [destination]. destruct Hor as [-> | ->]; [rewrite decide_True by done; rewrite decide_False by congruence|
      rewrite decide_False by congruence; rewrite decide_True by done]; cbn; lia.
Qed.

End Publish.

(** ** Witnesses *)

Definition w_parse (s : string) : option string :=
  if String.eqb s "a >" then None else Some s.
Definition w_orders : TableId := mkTableId "app" "orders".
Definition w_topic (id : TopicId) (routes : list TopicRoute) : Topic :=
  mkTopic id id None 0 0 None None 2 routes.
Definition w_route (op : TopicOp) (filter : option string) : TopicRoute :=
  mkTopicRoute w_orders op PayloadFull filter None.

Definition w_topic_a := w_topic "a" [w_route OpInsert (Some "odd"); w_route OpInsert (Some "a >")].
Definition w_topic_b := w_topic "b" [w_route OpInsert None; w_route OpDelete None].

(** Two topics are loaded, one is replaced, a third comes and goes. *)
Definition w_cache : RouteCache string :=
  remove_topic (add_topic w_parse
    (update_topic w_parse
       (refresh w_parse cache_new [w_topic "a" [w_route OpUpdate None]; w_topic_b]) w_topic_a)
    (w_topic "c" [w_route OpInsert None])) "c".

Lemma w_cache_reach : cache_reach w_parse w_cache.
Proof.
  apply cr_remove, cr_add; [apply cr_update, cr_refresh; [apply cr_new|]|reflexivity].
  apply NoDup_cons. split; [|apply NoDup_singleton]. rewrite list_elem_of_singleton. discriminate.
Qed.

Definition w_entry_a : RouteEntry string := mkRouteEntry w_topic_a 0 (Some "odd").
Definition w_entry_b : RouteEntry string := mkRouteEntry w_topic_b 0 None.

Lemma w_matching : get_matching_routes w_cache w_orders OpInsert = [w_entry_b; w_entry_a].
Proof. vm_compute. reflexivity. Qed.

Lemma route_cache_exact_witness :
  (w_entry_a ∈ get_matching_routes w_cache w_orders OpInsert <->
   exists tp i r, topics w_cache !! t_topic_id tp = Some tp /\
     build_route_entry w_parse tp i = Some w_entry_a /\
     t_routes tp !! i = Some r /\ tr_table_id r = w_orders /\ tr_op r = OpInsert) /\
  get_matching_routes w_cache w_orders OpInsert = [w_entry_b; w_entry_a].
Proof.
  split; [|exact w_matching].
  exact (proj1 (route_cache_exact w_parse w_cache w_orders OpInsert w_cache_reach) w_entry_a).
Defined.

(** Cells are numbers, the hasher keys choose between two orders, the first byte is the hash. *)
Definition w_bytes (s : string) : list Z := Z.of_N ∘ Ascii.N_of_ascii <$> String.list_ascii_of_string s.
Definition w_serialize (l : list (string * Cell)) : string :=
  foldr (fun kv acc => (kv.1 +:+ match kv.2 with JsonNumber s | JsonString s => s | _ => "" end +:+ acc)%string)
    "" l.
Definition w_order (reversed : bool) (m : gmap string Cell) : list (string * Cell) :=
  if reversed then rev (map_to_list m) else map_to_list m.

Lemma w_order_perm seed m : w_order seed m ≡ₚ map_to_list m.
Proof. destruct seed; [symmetry; apply Permutation_rev|done]. Qed.

#[local] Instance w_payloads : PayloadEnv := {
  Scalar := Z;
  Seed := bool;
  scalar_value_to_json := fun z => Some (JsonNumber (pretty z));
  value_to_string := fun c => match c with JsonNumber s => s | _ => "" end;
  map_to_json := w_serialize;
  inject_table := fun _ _ => None;
  default_hash := fun bytes => default 0 (head bytes);
  utf8 := w_bytes;
  hash_order := w_order;
  hash_order_perm := w_order_perm
}.

Definition w_row (id num : Z) : gmap string Scalar := <["id" := id]> {["num" := num]}.
Definition w_odd (_ : string) (row : gmap string Scalar) : option bool :=
  Z.odd <$> (row : gmap string Z) !! "num".
Definition w_rows (seed : Seed) : list (gmap string Scalar * Seed) :=
  [(w_row 1 1, seed); (w_row 2 2, seed); (w_row 3 5, seed)].
Definition w_items : list (gmap string Scalar * Seed * PreparedRow * option string) :=
  default [] (mapM (item_of w_orders ["id"] [w_entry_b; w_entry_a]) (w_rows false)).
Definition w_key_columns (columns : list string) (_ : TableId) : option (list string) := Some columns.

Ltac small_row := let E := fresh in intros seed mode json E; vm_compute in E; injection E as <-;
  destruct seed, mode; vm_compute; discriminate.

Lemma w_small : Forall (fun row => small_row w_orders row.1) (w_rows false).
Proof. repeat constructor; small_row. Qed.

Lemma batch_publishes_like_singles_witness :
  exists total s1 n1 s2 n2,
    publish_batch w_odd (w_key_columns ["id"%string]) map_to_list w_len w_ok_env w_cache w_orders OpInsert
      (w_rows false) None 0%nat (mkService ∅ ∅ ∅) = (Ok total, s1, n1) /\
    publish_each w_odd (w_key_columns ["id"%string]) w_len w_ok_env w_cache w_orders OpInsert
      (w_rows true) None 0 0%nat (mkService ∅ ∅ ∅) = (Ok total, s2, n2) /\ total = 5 /\
    forall k, Forall2 same_content (contents s1 k) (contents s2 k).
Proof.
  destruct (batch_publishes_like_singles w_odd (w_key_columns ["id"%string]) map_to_list w_len w_ok_env
    w_orders OpInsert None) with (c := w_cache) (columns := ["id"%string])
    (rows1 := w_rows false) (rows2 := w_rows true) (items := w_items) (n := 0%nat) (s := mkService ∅ ∅ ∅)
    as (total & s1 & n1 & s2 & n2 & E1 & E2 & Et & _ & _ & Heq).
  - done.
  - intros i j Hij. simpl. lia.
  - done.
  - done.
  - done.
  - repeat constructor.
  - rewrite w_matching. vm_compute. reflexivity.
  - exact w_small.
  - rewrite w_matching. repeat constructor.
  - intros k. unfold partition_of. simpl. rewrite lookup_empty. apply TopicLog.reach_new.
  - intros k. unfold partition_of. simpl partitions. rewrite lookup_empty, w_matching.
    transitivity (0 + 6); [|done]. apply Z.add_le_mono; [done|]. apply (Nat2Z.inj_le _ 6).
    etransitivity; [apply row_major_length|]. vm_compute. lia.
  - exists total, s1, n1, s2, n2. split_and!; [exact E1|exact E2| |].
    + rewrite Et, w_matching. vm_compute. reflexivity.
    + intros k. destruct (Heq ltac:(rewrite w_matching; apply NoDup_cons; split;
        [rewrite list_elem_of_singleton; discriminate|apply NoDup_singleton]) k)
        as (new1 & new2 & -> & -> & _ & H2). apply Forall2_app; [|exact H2].
      unfold contents, partition_of. simpl. rewrite lookup_empty. constructor.
Defined.

Definition w_cache1 : RouteCache string := add_topic w_parse cache_new w_topic_b.

Lemma keyless_row_changes_partition_witness :
  exists s' n' pid1 pid2, pid1 ≠ pid2 /\
    publish_each w_odd (w_key_columns []) w_len w_ok_env w_cache1 w_orders OpInsert
      [(w_row 1 1, false); (w_row 1 1, true)] None 0 0%nat (mkService ∅ ∅ ∅) = (Ok 2, s', n') /\
    forall pid, pid = pid1 \/ pid = pid2 -> length (contents s' (mkTP "b" pid)) = 1%nat.
Proof.
  apply (keyless_row_changes_partition w_odd (w_key_columns []) w_len w_ok_env w_orders OpInsert
    None) with (c := w_cache1) (e := w_entry_b) (r := w_route OpInsert None)
    (json := <["id" := JsonNumber "1"]> {["num" := JsonNumber "1"]}).
  - done.
  - intros i j Hij. simpl. lia.
  - done.
  - vm_compute. reflexivity.
  - done.
  - done.
  - vm_compute. reflexivity.
  - exact (Forall_inv w_small).
  - vm_compute. discriminate.
  - intros k. unfold partition_of. simpl. rewrite lookup_empty. apply TopicLog.reach_new.
  - intros k. unfold partition_of. simpl. rewrite lookup_empty. done.
Defined.
