(* ===== verification/Scalars.v ===== *)
(** * Scalars: cell values and their numeric view

    Model of DataFusion's [ScalarValue] as the code uses it, and of
    kalamdb-commons/src/conversions/scalar/numeric.rs.

    [f64] is the IEEE-754 binary64 arithmetic of the Standard Library ([SpecFloat]: 53 bits of
    precision, exponents up to 1024, rounding to nearest even); all NaNs are one value.  The
    theorems give the range in which integers survive the conversion to [f64]: comparisons of
    integers up to 2^53 through [f64] are exact. *)

From Stdlib Require Import ZArith Lia SpecFloat.
From stdpp Require Import base strings list.
From S2P Require Import Prelude.

Open Scope Z_scope.

(** ** binary64 *)

Definition f64 : Type := spec_float.
Definition prec64 : Z := 53.
Definition emax64 : Z := 1024.

#[export] Instance spec_float_eq_dec : EqDecision spec_float.
Proof. solve_decision. Defined.

(** [z as f64], rounded to nearest even. *)
Definition f64_of_int (z : Z) : f64 := binary_normalize prec64 emax64 z 0 false.

(** [f as f64] of an [f32]: the same value with a wider mantissa. *)
Definition f64_of_f32 (f : spec_float) : f64 :=
  match f with
  | S754_finite s m e => binary_normalize prec64 emax64 (cond_Zopp s (Zpos m)) e s
  | _ => f
  end.

Definition f64_sub (a b : f64) : f64 := SFsub prec64 emax64 a b.
Definition f64_abs (a : f64) : f64 := SFabs a.
Definition f64_lt (a b : f64) : bool := SFltb a b.
Definition f64_le (a b : f64) : bool := SFleb a b.
Definition f64_gt (a b : f64) : bool := SFltb b a.
Definition f64_ge (a b : f64) : bool := SFleb b a.

(** [f64::EPSILON], 2^-52. *)
Definition EPSILON : f64 := S754_finite false (2 ^ 52) (-104).

(** ** Cell values *)

(** The variants the code distinguishes; every other variant is [Other] with its name and its
    value, if any. *)
Inductive ScalarValue :=
| Null
| Boolean (v : option bool)
| Float32 (v : option spec_float)
| Float64 (v : option f64)
| Int8 (v : option Z)
| Int16 (v : option Z)
| Int32 (v : option Z)
| Int64 (v : option Z)
| UInt8 (v : option Z)
| UInt16 (v : option Z)
| UInt32 (v : option Z)
| UInt64 (v : option Z)
| Utf8 (v : option string)
| LargeUtf8 (v : option string)
| Other (variant : string) (v : option string).

(** [PartialEq]: the same variant with the same value. *)
#[export] Instance ScalarValue_eq_dec : EqDecision ScalarValue.
Proof. solve_decision. Defined.

Definition no_value {A} (v : option A) : bool := match v with Some _ => false | None => true end.

Definition is_null (v : ScalarValue) : bool :=
  match v with
  | Null => true
  | Boolean v => no_value v
  | Float32 v | Float64 v => no_value v
  | Int8 v | Int16 v | Int32 v | Int64 v | UInt8 v | UInt16 v | UInt32 v | UInt64 v => no_value v
  | Utf8 v | LargeUtf8 v | Other _ v => no_value v
  end.

Definition scalar_to_f64 (v : ScalarValue) : option f64 :=
  match v with
  | Float64 (Some f) => Some f
  | Float32 (Some f) => Some (f64_of_f32 f)
  | Int64 (Some i) | Int32 (Some i) | Int16 (Some i) | Int8 (Some i) => Some (f64_of_int i)
  | UInt64 (Some u) | UInt32 (Some u) | UInt16 (Some u) | UInt8 (Some u) => Some (f64_of_int u)
  | _ => None
  end.

Definition as_f64 (v : ScalarValue) : option f64 := scalar_to_f64 v.

Definition scalar_to_i64 (v : ScalarValue) : option Z :=
  match v with
  | Int64 (Some i) | Int32 (Some i) | Int16 (Some i) | Int8 (Some i) => Some i
  | UInt64 (Some u) => Some (u64_as_i64 u)
  | UInt32 (Some u) | UInt16 (Some u) | UInt8 (Some u) => Some u
  | _ => None
  end.

(** ** Integers below 2^53 are exact *)

Definition safe_int (z : Z) : Prop := Z.abs z < 2 ^ 53.

Lemma digits2_log2 m : Zpos (digits2_pos m) = Z.log2 (Zpos m) + 1.
Proof.
  induction m as [m IH|m IH|]; [| |done]; cbn [digits2_pos]; rewrite Pos2Z.inj_succ, IH.
  - change (Z.pos m~1) with (2 * Zpos m + 1). rewrite Z.log2_succ_double by lia. lia.
  - change (Z.pos m~0) with (2 * Zpos m). rewrite Z.log2_double by lia. lia.
Qed.

Lemma iter_xO m p : Zpos (Pos.iter xO m p) = Zpos m * 2 ^ Zpos p.
Proof.
  induction p as [|p IH] using Pos.peano_ind; [change (2 ^ 1) with 2; simpl; lia|].
  rewrite Pos.iter_succ. change (Z.pos (Pos.iter xO m p)~0) with (2 * Z.pos (Pos.iter xO m p)).
  rewrite IH, Pos2Z.inj_succ, Z.pow_succ_r by lia. lia.
Qed.

(** Aligning to a smaller exponent keeps the value. *)
Lemma shl_align_spec m e e' :
  exists m', shl_align m e e' = (m', Z.min e e') /\ Zpos m' = Zpos m * 2 ^ (e - Z.min e e').
Proof.
  unfold shl_align. destruct (e' - e) as [|p|p] eqn:E.
  - exists m. rewrite Z.min_l by lia. rewrite Z.sub_diag. split; [done|lia].
  - exists m. rewrite Z.min_l by lia. rewrite Z.sub_diag. split; [done|lia].
  - exists (Pos.iter xO m p). rewrite Z.min_r by lia. split; [done|]. rewrite iter_xO.
    do 2 f_equal. lia.
Qed.

Lemma shr_1_m r : 0 <= shr_m r -> shr_m (shr_1 r) = shr_m r / 2.
Proof.
  destruct r as [[|m|m] rb sb]; cbn; [done| |lia]. intros _.
  destruct m; cbn; try done.
  - change (Z.pos m~1) with (2 * Zpos m + 1). apply (Z.div_unique _ _ _ 1); lia.
  - change (Z.pos m~0) with (2 * Zpos m). rewrite Z.mul_comm, Z.div_mul by lia. done.
Qed.

Lemma iter_shr_m p r :
  0 <= shr_m r ->
  shr_m (SpecFloat.iter_pos shr_1 p r) = shr_m r / 2 ^ Zpos p /\ 0 <= shr_m (SpecFloat.iter_pos shr_1 p r).
Proof.
  revert r. induction p as [p IH|p IH|]; intros r Hr; cbn [SpecFloat.iter_pos].
  - assert (0 <= shr_m (shr_1 r)) as H1 by (rewrite shr_1_m by done; apply Z.div_pos; lia).
    destruct (IH _ H1) as [E1 P1]. destruct (IH _ P1) as [E2 P2]. split; [|done].
    rewrite E2, E1, shr_1_m, !Z.div_div by lia. f_equal.
    change (Z.pos p~1) with (2 * Z.pos p + 1). rewrite Z.pow_add_r, Z.mul_comm, Z.pow_twice_r by lia.
    lia.
  - destruct (IH _ Hr) as [E1 P1]. destruct (IH _ P1) as [E2 P2]. split; [|done].
    rewrite E2, E1, !Z.div_div by lia. f_equal.
    change (Z.pos p~0) with (2 * Z.pos p). by rewrite Z.pow_twice_r.
  - rewrite shr_1_m by done. split; [done|]. apply Z.div_pos; lia.
Qed.

Lemma shr_spec r e n :
  0 <= shr_m r -> 0 <= n ->
  exists r', shr r e n = (r', e + n) /\ shr_m r' = shr_m r / 2 ^ n /\ (n = 0 -> r' = r).
Proof.
  intros Hr Hn. unfold shr. destruct n as [|p|p]; [| |lia].
  - exists r. by rewrite Z.add_0_r, Z.pow_0_r, Z.div_1_r.
  - eexists. split; [done|]. split; [by apply iter_shr_m|done].
Qed.

Lemma fexp64 d : 0 <= d -> fexp prec64 emax64 d = d - 53.
Proof. unfold fexp, SpecFloat.emin, prec64, emax64. lia. Qed.

Lemma Zdigits2_pos m : 0 < m -> Zdigits2 m = Z.log2 m + 1.
Proof. destruct m as [|m|m]; [lia| |lia]. intros _. apply digits2_log2. Qed.

(** Rounding a mantissa of at least 53 bits to one of exactly 53. *)
Lemma shr_fexp_spec m e :
  0 < m -> 0 <= Z.log2 m + e -> 52 <= Z.log2 m ->
  exists r, shr_fexp prec64 emax64 m e loc_Exact = (r, Z.log2 m + e - 52) /\
    shr_m r = m / 2 ^ (Z.log2 m - 52) /\
    (Z.log2 m = 52 -> loc_of_shr_record r = loc_Exact).
Proof.
  intros Hm Hl H52. unfold shr_fexp. rewrite Zdigits2_pos, fexp64 by lia.
  replace (Z.log2 m + 1 + e - 53 - e) with (Z.log2 m - 52) by lia.
  destruct (shr_spec (shr_record_of_loc m loc_Exact) e (Z.log2 m - 52)) as (r & E & Hr & H0);
    [simpl; lia|lia|].
  exists r. rewrite E. split_and!; [f_equal; lia|done|].
  intros H. by rewrite H0 by lia.
Qed.

(** The mantissa before rounding has 53 bits. *)
Lemma div_log2 m : 52 <= Z.log2 m -> 2 ^ 52 <= m / 2 ^ (Z.log2 m - 52) < 2 ^ 53.
Proof.
  intros H. assert (0 < m) as Hm.
  { destruct (Z.le_gt_cases m 0) as [Hn|]; [rewrite Z.log2_nonpos in H by done; lia|done]. }
  destruct (Z.log2_spec m Hm) as [Hlo Hhi].
  replace (Z.log2 m) with (52 + (Z.log2 m - 52)) in Hlo, Hhi by lia.
  rewrite <-Z.add_succ_l, !Z.pow_add_r in * by lia. change (Z.succ 52) with 53 in Hhi.
  assert (0 < 2 ^ (Z.log2 m - 52)) by (apply Z.pow_pos_nonneg; lia).
  split; [apply Z.div_le_lower_bound; lia|apply Z.div_lt_upper_bound; lia].
Qed.

Lemma round_even_cases m l : round_nearest_even m l = m \/ round_nearest_even m l = m + 1.
Proof. destruct l as [|[]]; simpl; try destruct (Z.even m); auto. Qed.

Lemma binary_round_aux_spec s m e :
  0 < m -> 52 <= Z.log2 m -> 0 <= Z.log2 m + e <= 60 ->
  exists M E, binary_round_aux prec64 emax64 s m e loc_Exact = S754_finite s M E /\ -52 <= E /\
    (Z.log2 m = 52 -> E = e /\ Zpos M = m).
Proof.
  intros Hm H52 Hl. destruct (shr_fexp_spec m e) as (r & E1 & Hr & Hex); [done|lia|done|].
  unfold binary_round_aux. rewrite E1, Hr. pose proof (div_log2 m H52) as Hq.
  set (q := m / 2 ^ (Z.log2 m - 52)) in *.
  set (M := round_nearest_even q (loc_of_shr_record r)).
  assert (2 ^ 52 <= M <= 2 ^ 53) as HM by (destruct (round_even_cases q (loc_of_shr_record r)); lia).
  assert (52 <= Z.log2 M <= 53) as HlM.
  { rewrite <-(Z.log2_pow2 52), <-(Z.log2_pow2 53) by lia. split; apply Z.log2_le_mono; lia. }
  destruct (shr_fexp_spec M (Z.log2 m + e - 52)) as (r2 & E2 & Hr2 & _); [lia|lia|lia|].
  rewrite E2, Hr2. pose proof (div_log2 M ltac:(lia)) as HM2.
  destruct (M / 2 ^ (Z.log2 M - 52)) as [|Mp|] eqn:EM; [lia| |lia].
  destruct (Z.leb_spec (Z.log2 M + (Z.log2 m + e - 52) - 52) (emax64 - prec64)) as [_|Hbig];
    [|unfold emax64, prec64 in Hbig; lia].
  eexists Mp, _. split_and!; [done|lia|]. intros Heq.
  assert (M = m) as HMm.
  { unfold M. rewrite (Hex Heq). simpl. unfold q. by rewrite Heq, Z.sub_diag, Z.div_1_r. }
  rewrite HMm, Heq in *. split; [lia|]. by rewrite <-EM, Z.sub_diag, Z.div_1_r.
Qed.

Lemma binary_round_spec s m e :
  0 <= Z.log2 (Zpos m) + e <= 60 ->
  exists M E, binary_round prec64 emax64 s m e = S754_finite s M E /\ -52 <= E /\
    (Z.log2 (Zpos m) <= 52 -> E = Z.log2 (Zpos m) + e - 52 /\
       Zpos M = Zpos m * 2 ^ (52 - Z.log2 (Zpos m))).
Proof.
  intros Hl. unfold binary_round. rewrite digits2_log2, fexp64 by lia.
  destruct (shl_align_spec m e (Z.log2 (Zpos m) + 1 + e - 53)) as (m' & -> & Hm').
  set (e' := Z.min e (Z.log2 (Zpos m) + 1 + e - 53)) in *.
  assert (Z.log2 (Zpos m') = Z.log2 (Zpos m) + (e - e')) as Hlog
    by (rewrite Hm', Z.log2_mul_pow2 by lia; lia).
  destruct (binary_round_aux_spec s (Zpos m') e') as (M & E & Hr & HE & Hex); [lia|lia|lia|].
  exists M, E. split_and!; [done|done|]. intros H52.
  destruct Hex as [-> ->]; [lia|]. split; [lia|]. rewrite Hm'. do 2 f_equal. lia.
Qed.

Lemma f64_of_int_spec z :
  safe_int z -> z ≠ 0 ->
  exists M, f64_of_int z = S754_finite (z <? 0) M (Z.log2 (Z.abs z) - 52) /\
    Zpos M = Z.abs z * 2 ^ (52 - Z.log2 (Z.abs z)) /\ 0 <= Z.log2 (Z.abs z) <= 52.
Proof.
  intros Hs Hz. unfold safe_int in Hs.
  assert (0 <= Z.log2 (Z.abs z) <= 52) as Hl.
  { split; [apply Z.log2_nonneg|]. apply Z.lt_succ_r. apply Z.log2_lt_pow2; [lia|done]. }
  unfold f64_of_int, binary_normalize. destruct z as [|m|m]; [done| |];
    [change (Z.abs (Z.pos m)) with (Z.pos m) in *|change (Z.abs (Z.neg m)) with (Z.pos m) in *].
  - destruct (binary_round_spec false m 0) as (M & E & Hr & _ & Hex); [lia|].
    destruct Hex as [-> HM]; [lia|]. exists M. rewrite Hr, Z.add_0_r. done.
  - destruct (binary_round_spec true m 0) as (M & E & Hr & _ & Hex); [lia|].
    destruct Hex as [-> HM]; [lia|]. exists M. rewrite Hr, Z.add_0_r. done.
Qed.

(** Mantissa and exponent of two positive integers compare like the integers. *)
Lemma normal_compare a b Ma Mb :
  0 < a -> 0 < b -> Z.log2 a <= 52 -> Z.log2 b <= 52 ->
  Zpos Ma = a * 2 ^ (52 - Z.log2 a) -> Zpos Mb = b * 2 ^ (52 - Z.log2 b) ->
  match (Z.log2 a - 52 ?= Z.log2 b - 52) with
  | Eq => Pos.compare_cont Eq Ma Mb
  | c => c
  end = (a ?= b).
Proof.
  intros Ha Hb Hla Hlb HMa HMb.
  destruct (Z.compare_spec (Z.log2 a - 52) (Z.log2 b - 52)) as [H|H|H].
  - change (Pos.compare_cont Eq Ma Mb) with (Zpos Ma ?= Zpos Mb). rewrite HMa, HMb.
    replace (Z.log2 b) with (Z.log2 a) by lia.
    assert (0 < 2 ^ (52 - Z.log2 a)) by (apply Z.pow_pos_nonneg; lia).
    symmetry. destruct (Z.compare_spec a b) as [->|?|?].
    + by rewrite Z.compare_refl.
    + symmetry. apply Z.compare_lt_iff. by apply Z.mul_lt_mono_pos_r.
    + symmetry. apply Z.compare_gt_iff. by apply Z.mul_lt_mono_pos_r.
  - symmetry. apply Z.compare_lt_iff. apply Z.log2_lt_cancel. lia.
  - symmetry. apply Z.compare_gt_iff. apply Z.log2_lt_cancel. lia.
Qed.

Lemma compare_abs_opp a b : a < 0 -> b < 0 -> (a ?= b) = CompOpp (Z.abs a ?= Z.abs b).
Proof. intros Ha Hb. rewrite !Z.abs_neq by lia. rewrite <-Z.compare_opp, Z.compare_antisym. done. Qed.

(** Order is exact on safe integers. *)
Lemma f64_compare_safe a b :
  safe_int a -> safe_int b -> SFcompare (f64_of_int a) (f64_of_int b) = Some (a ?= b).
Proof.
  intros Ha Hb. destruct (Z.eq_dec a 0) as [->|Hna], (Z.eq_dec b 0) as [->|Hnb]; [done| | |].
  - destruct (f64_of_int_spec b Hb Hnb) as (M & -> & _). cbn.
    destruct (Z.ltb_spec b 0); destruct b; try lia; done.
  - destruct (f64_of_int_spec a Ha Hna) as (M & -> & _). cbn.
    destruct (Z.ltb_spec a 0); destruct a; try lia; done.
  - destruct (f64_of_int_spec a Ha Hna) as (Ma & -> & HMa & Hla).
    destruct (f64_of_int_spec b Hb Hnb) as (Mb & -> & HMb & Hlb). cbn [SFcompare].
    pose proof (normal_compare (Z.abs a) (Z.abs b) Ma Mb ltac:(lia) ltac:(lia) ltac:(lia) ltac:(lia) HMa HMb) as Hc.
    f_equal. destruct (Z.ltb_spec a 0), (Z.ltb_spec b 0).
    + rewrite (compare_abs_opp a b), <-Hc by done.
      by destruct (Z.log2 (Z.abs a) - 52 ?= Z.log2 (Z.abs b) - 52).
    + symmetry. apply Z.compare_lt_iff. lia.
    + symmetry. apply Z.compare_gt_iff. lia.
    + rewrite !Z.abs_eq in * by lia. rewrite <-Hc. by destruct (Z.log2 a - 52 ?= Z.log2 b - 52).
Qed.

Lemma not_below_epsilon s M E : -52 <= E -> f64_lt (f64_abs (S754_finite s M E)) EPSILON = false.
Proof.
  intros HE. unfold f64_lt, f64_abs, SFltb, EPSILON. cbn [SFabs SFcompare].
  destruct (Z.compare_spec E (-104)); [lia|lia|done].
Qed.

(** The mantissas of two integers on a common exponent subtract like the integers. *)
Lemma aligned_mantissa z M ez :
  safe_int z -> z ≠ 0 -> Zpos M = Z.abs z * 2 ^ (52 - Z.log2 (Z.abs z)) ->
  ez <= Z.log2 (Z.abs z) - 52 -> Z.log2 (Z.abs z) <= 52 ->
  cond_Zopp (z <? 0) (Zpos (fst (shl_align M (Z.log2 (Z.abs z) - 52) ez))) = z * 2 ^ (- ez).
Proof.
  intros Hs Hz HM Hez Hl. destruct (shl_align_spec M (Z.log2 (Z.abs z) - 52) ez) as (M' & -> & HM').
  cbn [fst]. rewrite Z.min_r in HM' by lia. rewrite HM, <-Z.mul_assoc, <-Z.pow_add_r in HM' by lia.
  replace (52 - Z.log2 (Z.abs z) + (Z.log2 (Z.abs z) - 52 - ez)) with (- ez) in HM' by lia.
  unfold cond_Zopp. rewrite HM'. destruct (Z.ltb_spec z 0).
  - rewrite Z.abs_neq by lia. lia.
  - by rewrite Z.abs_eq.
Qed.

(** [(a - b).abs() < EPSILON] is equality on safe integers. *)
Lemma f64_near_safe a b :
  safe_int a -> safe_int b ->
  f64_lt (f64_abs (f64_sub (f64_of_int a) (f64_of_int b))) EPSILON = (a =? b).
Proof.
  intros Ha Hb. destruct (Z.eq_dec a 0) as [->|Hna], (Z.eq_dec b 0) as [->|Hnb]; [done| | |].
  - destruct (f64_of_int_spec b Hb Hnb) as (M & -> & _ & Hl). change (f64_of_int 0) with (S754_zero false).
    cbn [f64_sub SFsub]. rewrite not_below_epsilon by lia. symmetry. apply Z.eqb_neq. lia.
  - destruct (f64_of_int_spec a Ha Hna) as (M & -> & _ & Hl). change (f64_of_int 0) with (S754_zero false).
    cbn [f64_sub SFsub]. rewrite not_below_epsilon by lia. symmetry. by apply Z.eqb_neq.
  - destruct (f64_of_int_spec a Ha Hna) as (Ma & -> & HMa & Hla).
    destruct (f64_of_int_spec b Hb Hnb) as (Mb & -> & HMb & Hlb).
    unfold f64_sub, SFsub. set (ez := Z.min (Z.log2 (Z.abs a) - 52) (Z.log2 (Z.abs b) - 52)).
    cbv zeta. rewrite !aligned_mantissa by (done || lia). rewrite <-Z.mul_sub_distr_r.
    destruct (Z.eqb_spec a b) as [->|Hne]; [by rewrite Z.sub_diag|].
    assert (0 <= Z.log2 (Z.abs (a - b)) <= 54) as Hd.
    { split; [apply Z.log2_nonneg|]. apply Z.lt_succ_r. apply Z.log2_lt_pow2; [lia|].
      unfold safe_int in *. change (2 ^ Z.succ 54) with (4 * 2 ^ 53). lia. }
    assert (0 < 2 ^ (- ez)) by (apply Z.pow_pos_nonneg; lia).
    assert (Z.log2 (Z.abs ((a - b) * 2 ^ (- ez))) = Z.log2 (Z.abs (a - b)) - ez) as Hlog.
    { rewrite Z.abs_mul, (Z.abs_eq (2 ^ _)), Z.log2_mul_pow2 by lia. lia. }
    unfold binary_normalize. destruct ((a - b) * 2 ^ (- ez)) as [|m|m] eqn:Em; [lia| |];
      [change (Z.abs (Z.pos m)) with (Z.pos m) in Hlog|change (Z.abs (Z.neg m)) with (Z.pos m) in Hlog].
    + destruct (binary_round_spec false m ez) as (M & E & -> & HE & _); [lia|]. by apply not_below_epsilon.
    + destruct (binary_round_spec true m ez) as (M & E & -> & HE & _); [lia|]. by apply not_below_epsilon.
Qed.

Lemma f64_order_safe a b :
  safe_int a -> safe_int b ->
  f64_lt (f64_of_int a) (f64_of_int b) = (a <? b) /\ f64_le (f64_of_int a) (f64_of_int b) = (a <=? b).
Proof.
  intros Ha Hb. unfold f64_lt, f64_le, SFltb, SFleb. rewrite f64_compare_safe by done.
  unfold Z.ltb, Z.leb. by destruct (a ?= b).
Qed.
