(* ===== verification/RowFilter.v ===== *)
(** * RowFilter: row-local WHERE predicates

    Model of kalamdb-row-filter/src (value.rs, comparison.rs, like.rs, predicate.rs, filter.rs):
    compiling a parsed WHERE expression and evaluating it on one row, as live-query fan-out and
    topic routes do.

    The expression type has the constructors of sqlparser's AST that the compiler looks at; every
    other one is [EOther].  Error values keep their kind, not their message text.  A LIKE pattern
    is compiled to the sequence of pieces the source appends to a regular expression between [^]
    and [$]; [match_pieces] is what the regex crate documents for these pieces: [.] matches any
    character but the line feed.

    Parameters: Unicode case conversion and simple case folding, parsing of a float literal, and
    the size limit of the regex crate.

    The reference is [sql]: a three-valued semantics of the parsed expression itself, on integers,
    texts and booleans, that uses neither the compiled form nor the comparison and LIKE functions of
    the code.  The theorems relate compilation and evaluation to it, LIKE to the SQL relation
    [sql_like], give the bounds of compiled predicates and the range in which integer comparisons
    are exact. *)

From Stdlib Require Import ZArith Lia.
From stdpp Require Import base strings gmap list.
From S2P Require Import Prelude Scalars.

Open Scope Z_scope.
Open Scope kalam_scope.

(** ** The parsed expression *)

Inductive Value :=
| SingleQuotedString (s : string)
| DoubleQuotedString (s : string)
| Number (s : string)
| VBoolean (b : bool)
| VNull
| VOther.

Inductive BinaryOperator := OpEq | OpNotEq | OpLt | OpGt | OpLtEq | OpGtEq | OpAnd | OpOr | OpOther.

#[warnings="-register-all"]
Inductive Expr :=
| ENested (e : Expr)
| ENot (e : Expr)
| EUnaryOther (e : Expr)
| EBinary (l : Expr) (op : BinaryOperator) (r : Expr)
| EBetween (e : Expr) (negated : bool) (low high : Expr)
| EInList (e : Expr) (list : list Expr) (negated : bool)
| EIsNull (e : Expr)
| EIsNotNull (e : Expr)
| EIsTrue (e : Expr)
| EIsNotTrue (e : Expr)
| EIsFalse (e : Expr)
| EIsNotFalse (e : Expr)
| ELike (negated any : bool) (e pattern : Expr) (escape : option Value)
| EILike (negated any : bool) (e pattern : Expr) (escape : option Value)
| EIdentifier (name : string)
| ECompoundIdentifier (parts : list string)
| EValue (v : Value)
| ESubquery
| EOther.

Inductive RowFilterError :=
| ParseError
| InvalidSyntax
| UnsupportedSubquery
| UnsupportedExpression
| UnsupportedOperator
| InvalidOperation.

Abbreviation FilterResult := (Result RowFilterError).
Abbreviation Row := (gmap string ScalarValue).

(** ** Characters of a UTF-8 string *)

(** [str::chars] on the bytes of a valid UTF-8 string. *)
Fixpoint decode_utf8 (l : list Z) : list Z :=
  match l with
  | [] => []
  | b :: rest =>
      if b <? 128 then b :: decode_utf8 rest
      else if b <? 224 then
        match rest with
        | b1 :: rest1 => ((b - 192) * 64 + (b1 - 128)) :: decode_utf8 rest1
        | _ => [b]
        end
      else if b <? 240 then
        match rest with
        | b1 :: b2 :: rest2 =>
            ((b - 224) * 4096 + (b1 - 128) * 64 + (b2 - 128)) :: decode_utf8 rest2
        | _ => [b]
        end
      else
        match rest with
        | b1 :: b2 :: b3 :: rest3 =>
            ((b - 240) * 262144 + (b1 - 128) * 4096 + (b2 - 128) * 64 + (b3 - 128))
              :: decode_utf8 rest3
        | _ => [b]
        end
  end.

Definition chars (s : string) : list Z := decode_utf8 (bytes_of_string s).

(** [str::parse::<i64>]: an optional sign and decimal digits in range. *)
Definition parse_i64 (s : string) : option Z := parse_signed i64_max (bytes_of_string s).

(** ** LIKE patterns *)

(** A piece appended to the regular expression: [.*], [.], or an escaped character. *)
Inductive RegexPiece := AnySequence | AnyChar | Literal (c : Z).

Record Regex := mkRegex { pieces : list RegexPiece; case_insensitive : bool }.

Definition percent : Z := 37.
Definition underscore : Z := 95.
Definition line_feed : Z := 10.

(** The loop of [build_like_regex_pattern]; [None] for a dangling escape character. *)
Fixpoint like_pieces (escape_char : option Z) (escaped : bool) (pattern : list Z) :
    option (list RegexPiece) :=
  match pattern with
  | [] => if escaped then None else Some []
  | ch :: rest =>
      if escaped then cons (Literal ch) <$> like_pieces escape_char false rest
      else if bool_decide (Some ch = escape_char) then like_pieces escape_char true rest
      else if ch =? percent then cons AnySequence <$> like_pieces escape_char false rest
      else if ch =? underscore then cons AnyChar <$> like_pieces escape_char false rest
      else cons (Literal ch) <$> like_pieces escape_char false rest
  end.

Definition build_like_regex_pattern (pattern : list Z) (escape_char : option Z) :
    FilterResult (list RegexPiece) :=
  match like_pieces escape_char false pattern with
  | Some ps => Ok ps
  | None => Err InvalidOperation
  end.

Definition parse_like_escape_char (escape : option Value) : FilterResult (option Z) :=
  match escape with
  | None => Ok None
  | Some (SingleQuotedString s) | Some (DoubleQuotedString s) =>
      match chars s with
      | [] => Err InvalidOperation
      | [c] => Ok (Some c)
      | _ => Err InvalidOperation
      end
  | Some _ => Err UnsupportedExpression
  end.

Section Filter.

Context (to_lowercase to_uppercase : string -> string) (parse_f64 : string -> option f64)
  (case_fold : Z -> Z) (within_size_limit : Regex -> bool).

Definition char_eq (ci : bool) (a b : Z) : bool :=
  if ci then case_fold a =? case_fold b else a =? b.

(** [Regex::is_match] of [^...$]: the pieces match the whole text. *)
Fixpoint match_pieces (ci : bool) (ps : list RegexPiece) (text : list Z) : bool :=
  match ps with
  | [] => match text with [] => true | _ => false end
  | Literal c :: rest =>
      match text with x :: text' => char_eq ci c x && match_pieces ci rest text' | [] => false end
  | AnyChar :: rest =>
      match text with
      | x :: text' => negb (x =? line_feed) && match_pieces ci rest text'
      | [] => false
      end
  | AnySequence :: rest =>
      (fix star (text : list Z) : bool :=
         match_pieces ci rest text ||
         match text with x :: text' => negb (x =? line_feed) && star text' | [] => false end) text
  end.

Definition is_match (r : Regex) (text : string) : bool :=
  match_pieces (case_insensitive r) (pieces r) (chars text).

Definition compile_like_regex (pattern : string) (escape_char : option Z) (ci : bool) :
    FilterResult Regex :=
  let? ps := build_like_regex_pattern (chars pattern) escape_char in
  let r := mkRegex ps ci in
  if within_size_limit r then Ok r else Err InvalidOperation.

(** ** Values *)

Record ColumnRef := mkColumn { c_name : string; lower_name : string; upper_name : string }.

Definition column_new (name : string) : ColumnRef :=
  mkColumn name (to_lowercase name) (to_uppercase name).

Definition lookup_column (c : ColumnRef) (row : Row) : option ScalarValue :=
  match row !! c_name c with
  | Some v => Some v
  | None => match row !! lower_name c with
            | Some v => Some v
            | None => row !! upper_name c
            end
  end.

Inductive ValueExpr := Column (c : ColumnRef) | LiteralValue (v : ScalarValue).

Definition scalar_as_str (v : ScalarValue) : option string :=
  match v with
  | Utf8 (Some s) | LargeUtf8 (Some s) => Some s
  | _ => None
  end.

Definition scalar_from_value (v : Value) : FilterResult ScalarValue :=
  match v with
  | SingleQuotedString s | DoubleQuotedString s => Ok (Utf8 (Some s))
  | Number s =>
      match parse_i64 s with
      | Some i => Ok (Int64 (Some i))
      | None => match parse_f64 s with
                | Some f => Ok (Float64 (Some f))
                | None => Err InvalidOperation
                end
      end
  | VBoolean b => Ok (Boolean (Some b))
  | VNull => Ok Null
  | VOther => Err UnsupportedExpression
  end.

Fixpoint compile_value (e : Expr) : FilterResult ValueExpr :=
  match e with
  | ENested inner => compile_value inner
  | EIdentifier name => Ok (Column (column_new name))
  | ECompoundIdentifier parts =>
      match last parts with
      | Some name => Ok (Column (column_new name))
      | None => Err InvalidOperation
      end
  | EValue v => let? s := scalar_from_value v in Ok (LiteralValue s)
  | _ => Err UnsupportedExpression
  end.

Definition eval_value (v : ValueExpr) (row : Row) : ScalarValue :=
  match v with
  | Column c => default Null (lookup_column c row)
  | LiteralValue s => s
  end.

Definition literal_string (v : ValueExpr) : option string :=
  match v with LiteralValue s => scalar_as_str s | Column _ => None end.

(** ** Comparisons *)

Inductive ComparisonOp := CEq | CNotEq | CLt | CGt | CLtEq | CGtEq.

Definition from_binary_operator (op : BinaryOperator) : FilterResult ComparisonOp :=
  match op with
  | OpEq => Ok CEq
  | OpNotEq => Ok CNotEq
  | OpLt => Ok CLt
  | OpGt => Ok CGt
  | OpLtEq => Ok CLtEq
  | OpGtEq => Ok CGtEq
  | _ => Err UnsupportedOperator
  end.

Definition scalars_equal (l r : ScalarValue) : bool :=
  if bool_decide (l = r) then true
  else match scalar_as_str l, scalar_as_str r with
       | Some a, Some b => bool_decide (a = b)
       | _, _ =>
           match as_f64 l, as_f64 r with
           | Some a, Some b => f64_lt (f64_abs (f64_sub a b)) EPSILON
           | _, _ => false
           end
       end.

Definition compare_numeric (l r : ScalarValue) (compare : f64 -> f64 -> bool) : FilterResult bool :=
  match as_f64 l with
  | None => Err InvalidOperation
  | Some a => match as_f64 r with
              | None => Err InvalidOperation
              | Some b => Ok (compare a b)
              end
  end.

Definition compare_scalars (l : ScalarValue) (op : ComparisonOp) (r : ScalarValue) :
    FilterResult bool :=
  if is_null l || is_null r then Ok false
  else match op with
       | CEq => Ok (scalars_equal l r)
       | CNotEq => Ok (negb (scalars_equal l r))
       | CLt => compare_numeric l r f64_lt
       | CGt => compare_numeric l r f64_gt
       | CLtEq => compare_numeric l r f64_le
       | CGtEq => compare_numeric l r f64_ge
       end.

(** ** Predicates *)

Record LikePredicate := mkLike {
  like_value : ValueExpr;
  like_pattern : ValueExpr;
  literal_regex : option Regex;
  like_negated : bool;
  escape_char : option Z;
  like_ci : bool
}.

Inductive CompiledPredicate := mkCompiled (predicate : Predicate) (complexity : Z)
with Predicate :=
| PBool (v : ValueExpr)
| PNot (p : CompiledPredicate)
| PAnd (l r : CompiledPredicate)
| POr (l r : CompiledPredicate)
| PComparison (l : ValueExpr) (op : ComparisonOp) (r : ValueExpr)
| PBetween (value low high : ValueExpr) (negated : bool)
| PInList (value : ValueExpr) (items : list ValueExpr) (negated : bool)
| PIsNull (value : ValueExpr) (negated : bool)
| PIsTrue (value : ValueExpr) (negated : bool)
| PIsFalse (value : ValueExpr) (negated : bool)
| PLike (like : LikePredicate).

Definition predicate_of (c : CompiledPredicate) : Predicate := let 'mkCompiled p _ := c in p.
Definition complexity (c : CompiledPredicate) : Z := let 'mkCompiled _ n := c in n.

Definition MAX_FILTER_DEPTH : nat := 64.
Definition MAX_IN_LIST_VALUES : nat := 1024.

Definition compile_like (value pattern : Expr) (negated any : bool) (escape : option Value)
    (ci : bool) : FilterResult LikePredicate :=
  if any then Err UnsupportedExpression
  else
    let? v := compile_value value in
    let? p := compile_value pattern in
    let? esc := parse_like_escape_char escape in
    let? regex := match literal_string p with
                  | Some literal => let? r := compile_like_regex literal esc ci in Ok (Some r)
                  | None => Ok None
                  end in
    Ok (mkLike v p regex negated esc ci).

Fixpoint compile_values (es : list Expr) : FilterResult (list ValueExpr) :=
  match es with
  | [] => Ok []
  | e :: rest => let? v := compile_value e in let? vs := compile_values rest in Ok (v :: vs)
  end.

Fixpoint compile_at (e : Expr) (depth : nat) : FilterResult CompiledPredicate :=
  if (MAX_FILTER_DEPTH <? depth)%nat then Err InvalidOperation
  else match e with
  | ENested inner => compile_at inner (S depth)
  | ENot inner =>
      let? p := compile_at inner (S depth) in
      Ok (mkCompiled (PNot p) (complexity p + 1))
  | EUnaryOther _ => Err UnsupportedOperator
  | EBinary le OpAnd re =>
      let? l := compile_at le (S depth) in
      let? r := compile_at re (S depth) in
      Ok (mkCompiled (PAnd l r) (complexity l + complexity r + 1))
  | EBinary le OpOr re =>
      let? l := compile_at le (S depth) in
      let? r := compile_at re (S depth) in
      Ok (mkCompiled (POr l r) (complexity l + complexity r + 1))
  | EBinary le op re =>
      let? l := compile_value le in
      let? o := from_binary_operator op in
      let? r := compile_value re in
      Ok (mkCompiled (PComparison l o r) 1)
  | EBetween e negated low high =>
      let? v := compile_value e in
      let? lo := compile_value low in
      let? hi := compile_value high in
      Ok (mkCompiled (PBetween v lo hi negated) 1)
  | EInList e list negated =>
      if (MAX_IN_LIST_VALUES <? length list)%nat then Err InvalidOperation
      else
        let? v := compile_value e in
        let? vs := compile_values list in
        Ok (mkCompiled (PInList v vs negated) (Z.of_nat (length list) + 1))
  | EIsNull e => let? v := compile_value e in Ok (mkCompiled (PIsNull v false) 1)
  | EIsNotNull e => let? v := compile_value e in Ok (mkCompiled (PIsNull v true) 1)
  | EIsTrue e => let? v := compile_value e in Ok (mkCompiled (PIsTrue v false) 1)
  | EIsNotTrue e => let? v := compile_value e in Ok (mkCompiled (PIsTrue v true) 1)
  | EIsFalse e => let? v := compile_value e in Ok (mkCompiled (PIsFalse v false) 1)
  | EIsNotFalse e => let? v := compile_value e in Ok (mkCompiled (PIsFalse v true) 1)
  | ELike negated any e pattern escape =>
      let? l := compile_like e pattern negated any escape false in Ok (mkCompiled (PLike l) 1)
  | EILike negated any e pattern escape =>
      let? l := compile_like e pattern negated any escape true in Ok (mkCompiled (PLike l) 1)
  | EIdentifier _ | ECompoundIdentifier _ | EValue _ =>
      let? v := compile_value e in Ok (mkCompiled (PBool v) 1)
  | ESubquery => Err UnsupportedSubquery
  | EOther => Err UnsupportedExpression
  end.

(** [CompiledPredicate::compile], [RowFilter::try_from_expr]. *)
Definition try_from_expr (e : Expr) : FilterResult CompiledPredicate := compile_at e 0.

(** ** Evaluation *)

Definition coerce_to_bool (v : ScalarValue) : FilterResult bool :=
  if is_null v then Ok false
  else match v with
       | Boolean (Some b) => Ok b
       | _ => Err InvalidOperation
       end.

Definition eval_like (l : LikePredicate) (row : Row) : FilterResult bool :=
  let value := eval_value (like_value l) row in
  if is_null value then Ok false
  else match scalar_as_str value with
       | None => Err InvalidOperation
       | Some text =>
           match literal_regex l with
           | Some regex => Ok (xorb (like_negated l) (is_match regex text))
           | None =>
               let pattern := eval_value (like_pattern l) row in
               if is_null pattern then Ok false
               else match scalar_as_str pattern with
                    | None => Err InvalidOperation
                    | Some pattern_str =>
                        let? regex := compile_like_regex pattern_str (escape_char l) (like_ci l) in
                        Ok (xorb (like_negated l) (is_match regex text))
                    end
           end
       end.

(** The loop over the items of an IN list. *)
Fixpoint any_equal (value : ScalarValue) (items : list ValueExpr) (row : Row) : FilterResult bool :=
  match items with
  | [] => Ok false
  | item :: rest =>
      let? eq := compare_scalars value CEq (eval_value item row) in
      if eq then Ok true else any_equal value rest row
  end.

Fixpoint evaluate (c : CompiledPredicate) (row : Row) : FilterResult bool :=
  match c with
  | mkCompiled p _ => evaluate_predicate p row
  end
with evaluate_predicate (p : Predicate) (row : Row) : FilterResult bool :=
  match p with
  | PBool v => coerce_to_bool (eval_value v row)
  | PNot inner => let? b := evaluate inner row in Ok (negb b)
  | PAnd l r => let? b := evaluate l row in if b then evaluate r row else Ok false
  | POr l r => let? b := evaluate l row in if b then Ok true else evaluate r row
  | PComparison l op r => compare_scalars (eval_value l row) op (eval_value r row)
  | PBetween value low high negated =>
      let v := eval_value value row in
      let? ge := compare_scalars v CGtEq (eval_value low row) in
      let? matched := if ge then compare_scalars v CLtEq (eval_value high row) else Ok false in
      Ok (xorb negated matched)
  | PInList value items negated =>
      let v := eval_value value row in
      if is_null v then Ok false
      else let? matched := any_equal v items row in Ok (xorb negated matched)
  | PIsNull value negated => Ok (xorb negated (is_null (eval_value value row)))
  | PIsTrue value negated =>
      Ok (xorb negated (bool_decide (eval_value value row = Boolean (Some true))))
  | PIsFalse value negated =>
      Ok (xorb negated (bool_decide (eval_value value row = Boolean (Some false))))
  | PLike like => eval_like like row
  end.

(** [RowFilter::matches]. *)
Definition matches (c : CompiledPredicate) (row : Row) : FilterResult bool := evaluate c row.

(** ** LIKE *)

(** SQL's LIKE: [%] stands for any sequence, [_] for any character, the escape character takes
    the next character literally. *)
Inductive sql_like (ci : bool) (esc : option Z) : list Z -> list Z -> Prop :=
| like_nil : sql_like ci esc [] []
| like_percent pat skipped text :
    Some percent ≠ esc -> sql_like ci esc pat text ->
    sql_like ci esc (percent :: pat) (skipped ++ text)
| like_underscore pat c text :
    Some underscore ≠ esc -> sql_like ci esc pat text ->
    sql_like ci esc (underscore :: pat) (c :: text)
| like_escaped e c pat x text :
    esc = Some e -> char_eq ci c x = true -> sql_like ci esc pat text ->
    sql_like ci esc (e :: c :: pat) (x :: text)
| like_char c pat x text :
    Some c ≠ esc -> c ≠ percent -> c ≠ underscore -> char_eq ci c x = true ->
    sql_like ci esc pat text -> sql_like ci esc (c :: pat) (x :: text).

Definition one_line (text : list Z) : Prop := Forall (fun c => c ≠ line_feed) text.

Lemma match_sequence ci ps text :
  match_pieces ci (AnySequence :: ps) text = true <->
  exists skipped rest, text = skipped ++ rest /\ one_line skipped /\ match_pieces ci ps rest = true.
Proof.
  induction text as [|x text IH].
  - cbn. rewrite orb_false_r. split.
    + intros H. exists [], []. by split_and!; [|constructor|].
    + intros (sk & rest & E & _ & H). symmetry in E. by apply app_nil in E as [-> ->].
  - change (match_pieces ci (AnySequence :: ps) (x :: text)) with
      (match_pieces ci ps (x :: text) ||
       (negb (x =? line_feed) && match_pieces ci (AnySequence :: ps) text)).
    rewrite orb_true_iff, andb_true_iff, negb_true_iff, Z.eqb_neq, IH. split.
    + intros [H|(Hx & sk & rest & -> & Hs & H)]; [exists [], (x :: text); by split_and!; [|constructor|]|].
      exists (x :: sk), rest. split_and!; [done|by constructor|done].
    + intros (sk & rest & E & Hs & H). destruct sk as [|y sk]; [left; by simplify_eq/=|right].
      apply Forall_cons in Hs as [Hy Hs]. injection E as -> ->. eauto 10.
Qed.
(** What remains of a pattern, after an escape character or not. *)
Definition like_rest (ci : bool) (esc : option Z) (escaped : bool) (pat text : list Z) : Prop :=
  if escaped then exists c pat' x text', pat = c :: pat' /\ text = x :: text' /\
                    char_eq ci c x = true /\ sql_like ci esc pat' text'
  else sql_like ci esc pat text.

Lemma match_literal ci c ps text :
  match_pieces ci (Literal c :: ps) text = true <->
  exists x text', text = x :: text' /\ char_eq ci c x = true /\ match_pieces ci ps text' = true.
Proof.
  destruct text as [|x text]; cbn; [naive_solver|]. rewrite andb_true_iff. naive_solver.
Qed.

Lemma match_any ci ps text :
  one_line text ->
  match_pieces ci (AnyChar :: ps) text = true <->
  exists x text', text = x :: text' /\ match_pieces ci ps text' = true.
Proof.
  intros Ho. destruct text as [|x text]; cbn; [naive_solver|].
  apply Forall_cons in Ho as [Hx _]. apply Z.eqb_neq in Hx. rewrite Hx. naive_solver.
Qed.

(** The pieces compiled from a pattern mean what SQL means. *)
Lemma like_pieces_spec ci esc escaped pat ps text :
  like_pieces esc escaped pat = Some ps -> one_line text ->
  match_pieces ci ps text = true <-> like_rest ci esc escaped pat text.
Proof.
  revert escaped ps text. induction pat as [|ch pat IH]; intros escaped ps text H Ho; cbn in H.
  { destruct escaped; [done|]. injection H as <-. destruct text; cbn; split; try done.
    - constructor.
    - inversion 1. }
  destruct escaped.
  { apply fmap_Some in H as (ps' & H & ->). rewrite match_literal. split.
    - intros (x & text' & -> & Hc & Hm). apply Forall_cons in Ho as [_ Ho].
      exists ch, pat, x, text'. split_and!; try done. by apply (IH false ps' text').
    - intros (c & pat' & x & text' & [= <- <-] & -> & Hc & Hl). apply Forall_cons in Ho as [_ Ho].
      exists x, text'. split_and!; try done. by apply (IH false ps' text'). }
  cbn [like_rest]. case_bool_decide as Hesc.
  { rewrite (IH true ps text H Ho). split.
    - intros (c & pat' & x & text' & -> & -> & Hc & Hl). by eapply like_escaped.
    - inversion 1; subst; try congruence. simplify_eq. eexists _, _, _, _. eauto. }
  destruct (Z.eqb_spec ch percent) as [->|Hp].
  { apply fmap_Some in H as (ps' & H & ->). rewrite match_sequence. split.
    - intros (sk & rest & -> & Hs & Hm). apply Forall_app in Ho as [_ Ho]. constructor; [done|].
      by apply (IH false ps' rest).
    - inversion 1; subst; try congruence. apply Forall_app in Ho as [Hs Ho].
      eexists _, _. split_and!; [done|done|]. by apply (IH false ps'). }
  destruct (Z.eqb_spec ch underscore) as [->|Hu].
  { apply fmap_Some in H as (ps' & H & ->). rewrite match_any by done. split.
    - intros (x & text' & -> & Hm). apply Forall_cons in Ho as [_ Ho]. constructor; [done|].
      by apply (IH false ps' text').
    - inversion 1; subst; try congruence. apply Forall_cons in Ho as [_ Ho].
      eexists _, _. split; [done|]. by apply (IH false ps'). }
  apply fmap_Some in H as (ps' & H & ->). rewrite match_literal. split.
  - intros (x & text' & -> & Hc & Hm). apply Forall_cons in Ho as [_ Ho].
    apply like_char; try done. by apply (IH false ps' text').
  - inversion 1; subst; try congruence. apply Forall_cons in Ho as [_ Ho].
    eexists _, _. split_and!; [done|done|]. by apply (IH false ps').
Qed.

(** A pattern is refused exactly when it ends in an escape character or exceeds the size limit. *)
Inductive dangling (esc : option Z) : list Z -> Prop :=
| dangling_end e : esc = Some e -> dangling esc [e]
| dangling_escaped e c pat : esc = Some e -> dangling esc pat -> dangling esc (e :: c :: pat)
| dangling_char c pat : Some c ≠ esc -> dangling esc pat -> dangling esc (c :: pat).

Lemma like_pieces_none esc pat :
  (like_pieces esc false pat = None <-> dangling esc pat) /\
  (like_pieces esc true pat = None <-> pat = [] \/ exists c pat', pat = c :: pat' /\ dangling esc pat').
Proof.
  induction pat as [|ch pat [IHf IHt]]; cbn.
  { split; [|naive_solver]. split; [done|inversion 1]. }
  split.
  - case_bool_decide as Hesc.
    + rewrite IHt. split.
      * intros [->|(c & pat' & -> & Hd)]; [by constructor|by constructor].
      * inversion 1; subst; try congruence; [by left|right; eauto].
    + transitivity (like_pieces esc false pat = None).
      * destruct (ch =? percent), (ch =? underscore); by rewrite fmap_None.
      * rewrite IHf. split; [by apply dangling_char|]. inversion 1; subst; congruence || done.
  - rewrite fmap_None, IHf. naive_solver.
Qed.

(** LIKE on text without line breaks is SQL's LIKE: a pattern compiles exactly when it does not
    end in a lone escape character and the expression fits the size limit, and the compiled
    expression then matches a text exactly when SQL's LIKE does, with or without case folding. *)
Theorem like_is_sql_like pattern esc ci :
  (forall r, compile_like_regex pattern esc ci = Ok r -> forall text, one_line (chars text) ->
     is_match r text = true <-> sql_like ci esc (chars pattern) (chars text)) /\
  (dangling esc (chars pattern) -> compile_like_regex pattern esc ci = Err InvalidOperation) /\
  (~ dangling esc (chars pattern) -> (forall r, within_size_limit r = true) ->
   exists r, compile_like_regex pattern esc ci = Ok r).
Proof.
  unfold compile_like_regex, build_like_regex_pattern.
  destruct (like_pieces_none esc (chars pattern)) as [Hd _].
  destruct (like_pieces esc false (chars pattern)) as [ps|] eqn:E; cbn; split_and!.
  - intros r Hr text Ho. destruct (within_size_limit _); [|done]. injection Hr as <-.
    exact (like_pieces_spec ci esc false _ _ _ E Ho).
  - intros H%Hd. done.
  - intros _ Hlim. rewrite Hlim. eauto.
  - done.
  - done.
  - intros H. destruct H. by apply Hd.
Qed.

(** A percent sign does not cross a line break: no text with a line feed matches the pattern
    [%], which in SQL matches every text. *)
Theorem percent_stops_at_line_feed ci before after :
  match_pieces ci [AnySequence] (before ++ line_feed :: after) = false /\
  build_like_regex_pattern [percent] None = Ok [AnySequence] /\
  sql_like ci None [percent] (before ++ line_feed :: after).
Proof.
  split_and!; [|done|].
  - apply not_true_iff_false. rewrite match_sequence. intros (sk & rest & E & Hs & Hm).
    destruct rest; [|done]. rewrite app_nil_r in E. subst sk.
    apply Forall_app in Hs as [_ [Hlf _]%Forall_cons]. done.
  - rewrite <-(app_nil_r (before ++ line_feed :: after)). constructor; [done|constructor].
Qed.

(** ** Bounds of compiled predicates *)

Fixpoint height (c : CompiledPredicate) : nat :=
  match c with mkCompiled p _ => height_predicate p end
with height_predicate (p : Predicate) : nat :=
  match p with
  | PNot inner => S (height inner)
  | PAnd l r | POr l r => S (Nat.max (height l) (height r))
  | _ => O
  end.

(** The number of operators and list items. *)
Fixpoint weight (c : CompiledPredicate) : Z :=
  match c with mkCompiled p _ => weight_predicate p end
with weight_predicate (p : Predicate) : Z :=
  match p with
  | PNot inner => weight inner + 1
  | PAnd l r | POr l r => weight l + weight r + 1
  | PInList _ items _ => Z.of_nat (length items) + 1
  | _ => 1
  end.

Fixpoint lists_bounded (c : CompiledPredicate) : Prop :=
  match c with mkCompiled p _ => lists_bounded_predicate p end
with lists_bounded_predicate (p : Predicate) : Prop :=
  match p with
  | PNot inner => lists_bounded inner
  | PAnd l r | POr l r => lists_bounded l /\ lists_bounded r
  | PInList _ items _ => (length items <= MAX_IN_LIST_VALUES)%nat
  | _ => True
  end.

Lemma compile_values_length es vs : compile_values es = Ok vs -> length vs = length es.
Proof.
  revert vs. induction es as [|e es IH]; cbn; intros vs H; [by injection H as <-|].
  apply result_bind_ok in H as (v & _ & H). apply result_bind_ok in H as (vs' & H1 & H2).
  injection H2 as <-. cbn. by rewrite (IH vs').
Qed.

Definition bounded_at (depth : nat) (c : CompiledPredicate) : Prop :=
  (depth + height c <= MAX_FILTER_DEPTH)%nat /\ complexity c = weight c /\ lists_bounded c.

Lemma bounded_binary depth l r mk :
  (mk = PAnd \/ mk = POr) -> bounded_at (S depth) l -> bounded_at (S depth) r ->
  bounded_at depth (mkCompiled (mk l r) (complexity l + complexity r + 1)).
Proof. intros [-> | ->] (H1 & H2 & H3) (H4 & H5 & H6); unfold bounded_at in *; cbn; split_and!; lia || done. Qed.

Ltac unbind H := repeat (let x := fresh "x" in let Hx := fresh "Hx" in
  apply result_bind_ok in H as (x & Hx & H)).

Lemma compile_at_bounds e depth c : compile_at e depth = Ok c -> bounded_at depth c.
Proof.
  revert depth c. induction e as [e IH|e IH|e IH|el IHl op er IHr|e IH neg lo IHlo hi IHhi|e IH items neg
    |e IH|e IH|e IH|e IH|e IH|e IH|neg any e IH pat IHp esc|neg any e IH pat IHp esc|s|parts|v| |];
    intros depth c H; cbn [compile_at] in H;
    (destruct (Nat.ltb_spec MAX_FILTER_DEPTH depth) as [|Hd]; [done|]); try discriminate H;
    try (unbind H; injection H as <-; unfold bounded_at; cbn; split_and!; lia || done).
  - destruct (IH _ _ H) as (H1 & H2 & H3). unfold bounded_at. split_and!; [lia|done|done].
  - unbind H. injection H as <-. destruct (IH _ _ Hx) as (H1 & H2 & H3).
    unfold bounded_at in *. cbn. split_and!; [lia|lia|done].
  - destruct op; unbind H; injection H as <-;
      try (unfold bounded_at; cbn; split_and!; lia || done);
      apply bounded_binary; eauto.
  - destruct (Nat.ltb_spec MAX_IN_LIST_VALUES (length items)) as [|Hl]; [done|]. unbind H.
    injection H as <-. rewrite <-(compile_values_length _ _ Hx0) in *.
    unfold bounded_at. cbn. split_and!; lia || done.
Qed.

(** Compiled filters are bounded: nesting is at most 64 operators deep, no IN list has more
    than 1024 items, and the complexity reported is the number of operators and list items. *)
Theorem compiled_filter_bounds e c :
  try_from_expr e = Ok c ->
  (height c <= 64)%nat /\ lists_bounded c /\ complexity c = weight c.
Proof. intros (H1 & H2 & H3)%compile_at_bounds. split_and!; [exact H1|done|done]. Qed.

(** ** Integers *)

Definition int_of (v : ScalarValue) : option Z :=
  match v with
  | Int8 v | Int16 v | Int32 v | Int64 v | UInt8 v | UInt16 v | UInt32 v | UInt64 v => v
  | _ => None
  end.

Definition int_compare (op : ComparisonOp) (a b : Z) : bool :=
  match op with
  | CEq => a =? b
  | CNotEq => negb (a =? b)
  | CLt => a <? b
  | CGt => b <? a
  | CLtEq => a <=? b
  | CGtEq => b <=? a
  end.

Lemma int_as_f64 v z : int_of v = Some z ->
  as_f64 v = Some (f64_of_int z) /\ is_null v = false /\ scalar_as_str v = None.
Proof. destruct v; cbn; intros H; by simplify_eq. Qed.

Lemma int_scalars_equal a b x y :
  int_of a = Some x -> int_of b = Some y -> safe_int x -> safe_int y ->
  scalars_equal a b = (x =? y).
Proof.
  intros Ha Hb Hx Hy. destruct (int_as_f64 _ _ Ha) as (Fa & _ & Sa).
  destruct (int_as_f64 _ _ Hb) as (Fb & _ & Sb). unfold scalars_equal.
  case_bool_decide as E; [subst b; replace y with x by congruence; symmetry; apply Z.eqb_refl|].
  rewrite Sa, Fa, Fb. by apply f64_near_safe.
Qed.

(** Comparing integers of any width is exact while their absolute values stay below 2^53,
    although the code compares them as 64-bit floats. *)
Theorem safe_integers_compare_exactly a b x y op :
  int_of a = Some x -> int_of b = Some y -> safe_int x -> safe_int y ->
  compare_scalars a op b = Ok (int_compare op x y).
Proof.
  intros Ha Hb Hx Hy. destruct (int_as_f64 _ _ Ha) as (Fa & Na & _).
  destruct (int_as_f64 _ _ Hb) as (Fb & Nb & _).
  destruct (f64_order_safe x y Hx Hy) as [Hlt Hle]. destruct (f64_order_safe y x Hy Hx) as [Hgt Hge].
  unfold compare_scalars, compare_numeric. rewrite Na, Nb, Fa, Fb. cbn [orb].
  destruct op; cbn [int_compare]; rewrite ?(int_scalars_equal a b x y) by done; try done.
  - by rewrite Hlt.
  - unfold f64_gt. unfold f64_lt in Hgt. by rewrite Hgt.
  - by rewrite Hle.
  - unfold f64_ge. unfold f64_le in Hge. by rewrite Hge.
Qed.

(** ** SQL's reading of the expression

    A reference semantics of the source expression, written without the compiled form: values are
    integers, texts and booleans, comparisons are those of the integers and of equal texts, LIKE is
    matched on the pattern itself, and the connectives are Kleene's.  It is defined where the
    operands have matching types. *)

Inductive truth := True3 | False3 | Unknown.

Definition of_bool (b : bool) : truth := if b then True3 else False3.
Definition not3 (a : truth) : truth :=
  match a with True3 => False3 | False3 => True3 | Unknown => Unknown end.
Definition and3 (a b : truth) : truth :=
  match a, b with
  | False3, _ | _, False3 => False3
  | True3, True3 => True3
  | _, _ => Unknown
  end.
Definition or3 (a b : truth) : truth := not3 (and3 (not3 a) (not3 b)).
Definition sign3 (negated : bool) (a : truth) : truth := if negated then not3 a else a.

Inductive SqlValue := SNull | SInt (z : Z) | SText (s : string) | SBool (b : bool).

#[export] Instance SqlValue_eq_dec : EqDecision SqlValue.
Proof using Type. solve_decision. Defined.

Definition sql_value (v : ScalarValue) : option SqlValue :=
  if is_null v then Some SNull
  else
    match v with
    | Int8 (Some z) | Int16 (Some z) | Int32 (Some z) | Int64 (Some z) => Some (SInt z)
    | UInt8 (Some z) | UInt16 (Some z) | UInt32 (Some z) | UInt64 (Some z) => Some (SInt z)
    | Utf8 (Some s) | LargeUtf8 (Some s) => Some (SText s)
    | Boolean (Some b) => Some (SBool b)
    | _ => None
    end.

Definition sql_literal (v : Value) : option SqlValue :=
  match v with
  | SingleQuotedString s | DoubleQuotedString s => Some (SText s)
  | Number s => SInt <$> parse_i64 s
  | VBoolean b => Some (SBool b)
  | VNull => Some SNull
  | VOther => None
  end.

(** A column that the row does not have is NULL. *)
Definition sql_column (row : Row) (name : string) : option SqlValue :=
  match row !! name with Some v => sql_value v | None => Some SNull end.

Fixpoint sql_operand (row : Row) (e : Expr) : option SqlValue :=
  match e with
  | ENested inner => sql_operand row inner
  | EIdentifier name => sql_column row name
  | ECompoundIdentifier parts => last parts ≫= sql_column row
  | EValue v => sql_literal v
  | _ => None
  end.

Definition sql_operator (op : BinaryOperator) : option ComparisonOp :=
  match op with
  | OpEq => Some CEq | OpNotEq => Some CNotEq | OpLt => Some CLt
  | OpGt => Some CGt | OpLtEq => Some CLtEq | OpGtEq => Some CGtEq
  | _ => None
  end.

Definition sql_equality (op : ComparisonOp) (same : bool) : option truth :=
  match op with CEq => Some (of_bool same) | CNotEq => Some (of_bool (negb same)) | _ => None end.

Definition sql_compare (op : ComparisonOp) (a b : SqlValue) : option truth :=
  match a, b with
  | SNull, _ | _, SNull => Some Unknown
  | SInt x, SInt y => Some (of_bool (int_compare op x y))
  | SText x, SText y => sql_equality op (bool_decide (x = y))
  | SBool x, SBool y => sql_equality op (bool_decide (x = y))
  | _, _ => None
  end.

(** LIKE on the pattern: [%] takes any number of characters, [_] one, the escape character makes the
    next one literal. *)
Fixpoint suffixes (l : list Z) : list (list Z) :=
  l :: match l with [] => [] | _ :: rest => suffixes rest end.

Fixpoint like_match (ci : bool) (esc : option Z) (pat text : list Z) {struct pat} : bool :=
  match pat with
  | [] => bool_decide (text = [])
  | ch :: pat' =>
      if bool_decide (Some ch = esc) then
        match pat', text with
        | c :: pat'', x :: text' => char_eq ci c x && like_match ci esc pat'' text'
        | _, _ => false
        end
      else if ch =? percent then existsb (like_match ci esc pat') (suffixes text)
      else
        match text with
        | x :: text' => ((ch =? underscore) || char_eq ci ch x) && like_match ci esc pat' text'
        | [] => false
        end
  end.

Definition sql_escape (escape : option Value) : option (option Z) :=
  match escape with
  | None => Some None
  | Some (SingleQuotedString s) | Some (DoubleQuotedString s) =>
      match chars s with [c] => Some (Some c) | _ => None end
  | Some _ => None
  end.

(** The pattern is a literal. *)
Fixpoint literal_text (e : Expr) : option string :=
  match e with
  | ENested inner => literal_text inner
  | EValue (SingleQuotedString s) | EValue (DoubleQuotedString s) => Some s
  | _ => None
  end.

Definition sql_like3 (row : Row) (ci negated : bool) (e pattern : Expr) (escape : option Value) : option truth :=
  v ← sql_operand row e; p ← literal_text pattern; esc ← sql_escape escape;
  match v with
  | SNull => Some Unknown
  | SText s => Some (sign3 negated (of_bool (like_match ci esc (chars p) (chars s))))
  | _ => None
  end.

Definition sql_in (row : Row) (v : SqlValue) (items : list Expr) : option truth :=
  foldr (fun item acc => x ← sql_operand row item ≫= sql_compare CEq v; y ← acc; Some (or3 x y)) (Some False3) items.

Definition sql_bool (v : SqlValue) : option truth :=
  match v with SBool b => Some (of_bool b) | SNull => Some Unknown | _ => None end.

(** [IS TRUE] and [IS FALSE] are never unknown. *)
Definition sql_is (expected : bool) (v : SqlValue) : option truth :=
  match v with SBool b => Some (of_bool (eqb b expected)) | SNull => Some False3 | _ => None end.

Fixpoint sql (row : Row) (e : Expr) : option truth :=
  match e with
  | ENested inner => sql row inner
  | ENot inner => not3 <$> sql row inner
  | EBinary l OpAnd r => x ← sql row l; y ← sql row r; Some (and3 x y)
  | EBinary l OpOr r => x ← sql row l; y ← sql row r; Some (or3 x y)
  | EBinary l op r => o ← sql_operator op; x ← sql_operand row l; y ← sql_operand row r; sql_compare o x y
  | EBetween e negated low high =>
      v ← sql_operand row e; lo ← sql_operand row low; hi ← sql_operand row high;
      x ← sql_compare CGtEq v lo; y ← sql_compare CLtEq v hi; Some (sign3 negated (and3 x y))
  | EInList e items negated => v ← sql_operand row e; sign3 negated <$> sql_in row v items
  | EIsNull e => v ← sql_operand row e; Some (of_bool (bool_decide (v = SNull)))
  | EIsNotNull e => v ← sql_operand row e; Some (of_bool (negb (bool_decide (v = SNull))))
  | EIsTrue e => sql_operand row e ≫= sql_is true
  | EIsNotTrue e => not3 <$> (sql_operand row e ≫= sql_is true)
  | EIsFalse e => sql_operand row e ≫= sql_is false
  | EIsNotFalse e => not3 <$> (sql_operand row e ≫= sql_is false)
  | ELike negated _ e pattern escape => sql_like3 row false negated e pattern escape
  | EILike negated _ e pattern escape => sql_like3 row true negated e pattern escape
  | EIdentifier _ | ECompoundIdentifier _ | EValue _ => sql_operand row e ≫= sql_bool
  | _ => None
  end.

(** ** The conditions of the agreement *)

(** No NOT, NOT BETWEEN or NOT IN. *)
Fixpoint negation_free (e : Expr) : bool :=
  match e with
  | ENested inner => negation_free inner
  | ENot _ => false
  | EBinary l OpAnd r | EBinary l OpOr r => negation_free l && negation_free r
  | EBetween _ negated _ _ | EInList _ _ negated => negb negated
  | _ => true
  end.

(** The operands of an expression, and those a NULL of which makes it unknown. *)
Fixpoint expr_operands (e : Expr) : list Expr :=
  match e with
  | ENested inner | ENot inner => expr_operands inner
  | EBinary l OpAnd r | EBinary l OpOr r => expr_operands l ++ expr_operands r
  | EBinary l _ r => [l; r]
  | EBetween e _ low high => [e; low; high]
  | EInList e items _ => e :: items
  | EIsNull v | EIsNotNull v | EIsTrue v | EIsNotTrue v | EIsFalse v | EIsNotFalse v => [v]
  | ELike _ _ v _ _ | EILike _ _ v _ _ => [v]
  | EIdentifier _ | ECompoundIdentifier _ | EValue _ => [e]
  | _ => []
  end.

Fixpoint nullable_operands (e : Expr) : list Expr :=
  match e with
  | ENested inner | ENot inner => nullable_operands inner
  | EBinary l OpAnd r | EBinary l OpOr r => nullable_operands l ++ nullable_operands r
  | EIsNull _ | EIsNotNull _ | EIsTrue _ | EIsNotTrue _ | EIsFalse _ | EIsNotFalse _ => []
  | _ => expr_operands e
  end.

Fixpoint like_operands (e : Expr) : list Expr :=
  match e with
  | ENested inner | ENot inner => like_operands inner
  | EBinary l OpAnd r | EBinary l OpOr r => like_operands l ++ like_operands r
  | ELike _ _ v _ _ | EILike _ _ v _ _ => [v]
  | _ => []
  end.

Fixpoint operand_column (e : Expr) : option string :=
  match e with
  | ENested inner => operand_column inner
  | EIdentifier name => Some name
  | ECompoundIdentifier parts => last parts
  | _ => None
  end.

(** The column is found under its own name, or under no other case of it either; integers lie
    strictly between -2^53 and 2^53. *)
Definition operand_ok (row : Row) (e : Expr) : Prop :=
  (forall name, operand_column e = Some name ->
     is_Some (row !! name) \/ row !! to_lowercase name = None /\ row !! to_uppercase name = None) /\
  forall z, sql_operand row e = Some (SInt z) -> safe_int z.

(** The text of a LIKE has no line feed. *)
Definition like_text_ok (row : Row) (e : Expr) : Prop :=
  forall s, sql_operand row e = Some (SText s) -> one_line (chars s).

(** ** Agreement *)

Lemma suffixes_spec s l : In s (suffixes l) <-> exists before, l = before ++ s.
Proof.
  revert s. induction l as [|x l IH]; intros s; cbn [suffixes In].
  - split; [intros [<-|[]]; by exists []|]. intros (b & E). symmetry in E. apply app_nil in E as [_ ->]. by left.
  - rewrite IH. split.
    + intros [<-|(b & ->)]; [by exists []|by exists (x :: b)].
    + intros ([|y b] & E); [by left|right]. injection E as -> ->. by exists b.
Qed.

(** The matcher decides SQL's LIKE. *)
Lemma like_match_spec ci esc pat text : like_match ci esc pat text = true <-> sql_like ci esc pat text.
Proof.
  remember (length pat) as n eqn:Hn. revert pat text Hn.
  induction (lt_wf n) as [n _ IH]; intros pat text ->.
  assert (forall p t, (length p < length pat)%nat -> like_match ci esc p t = true <-> sql_like ci esc p t) as IH'
    by (intros p t Hp; by apply (IH (length p))).
  clear IH. destruct pat as [|ch pat]; cbn [like_match].
  { rewrite bool_decide_eq_true. split; [intros ->; constructor|by inversion 1]. }
  case_bool_decide as Hesc.
  { destruct pat as [|c pat]; [split; [done|inversion 1; subst; congruence]|].
    destruct text as [|x text]; [split; [done|inversion 1; subst; congruence]|].
    rewrite andb_true_iff, IH' by (cbn; lia). split.
    - intros [Hc Hl]. by apply like_escaped.
    - inversion 1; subst; try congruence. done. }
  destruct (Z.eqb_spec ch percent) as [->|Hp].
  { rewrite existsb_exists. split.
    - intros (s & (b & ->)%suffixes_spec & Hs). constructor; [done|]. by apply IH'; [cbn; lia|].
    - inversion 1; subst; try congruence. eexists. split; [apply suffixes_spec; by eexists|].
      apply IH'; [cbn; lia|done]. }
  destruct text as [|x text]; [split; [done|inversion 1; subst; congruence]|].
  rewrite andb_true_iff, IH' by (cbn; lia). destruct (Z.eqb_spec ch underscore) as [->|Hu]; cbn [orb].
  - split; [intros [_ Hl]; by constructor|]. inversion 1; subst; try congruence. done.
  - split; [intros [Hc Hl]; by apply like_char|]. inversion 1; subst; try congruence. done.
Qed.

Ltac scalar_cases v :=
  unfold sql_value; destruct v; cbn;
  try match goal with |- context[no_value ?o] => destruct o end.

Lemma sql_value_null v : sql_value v = Some SNull <-> is_null v = true.
Proof. scalar_cases v; cbn; split; done. Qed.

Lemma sql_value_int v z : sql_value v = Some (SInt z) -> int_of v = Some z.
Proof. scalar_cases v; cbn; try done; intros H; by simplify_eq. Qed.

Lemma sql_value_text v s : sql_value v = Some (SText s) -> scalar_as_str v = Some s /\ is_null v = false.
Proof. scalar_cases v; cbn; try done; intros H; by simplify_eq. Qed.

Lemma sql_value_bool v b : sql_value v = Some (SBool b) -> v = Boolean (Some b).
Proof. scalar_cases v; cbn; try done; intros H; by simplify_eq. Qed.

Lemma sql_value_not_null v x : sql_value v = Some x -> x ≠ SNull -> is_null v = false.
Proof. intros H Hx. apply not_true_iff_false. intros E%sql_value_null. congruence. Qed.

(** A compiled operand evaluates to SQL's value of the operand. *)
Lemma operand_value row e v x :
  compile_value e = Ok v -> sql_operand row e = Some x -> operand_ok row e ->
  sql_value (eval_value v row) = Some x.
Proof.
  assert (forall name y, sql_column row name = Some y ->
    is_Some (row !! name) \/ row !! to_lowercase name = None /\ row !! to_uppercase name = None ->
    sql_value (eval_value (Column (column_new name)) row) = Some y) as Hcol.
  { intros name y. unfold sql_column, eval_value, lookup_column. cbn. intros Hy [[w E]|[E1 E2]].
    - rewrite E in *. done.
    - destruct (row !! name); [done|]. rewrite E1, E2. done. }
  unfold operand_ok. intros Hc Hs [Hok _]. revert Hc Hs Hok.
  induction e as [e IH| | | | | | | | | | | | | |name|parts|l| |]; cbn; try done.
  - intros [= <-] Hs Hok. auto.
  - destruct (last parts) as [name|]; [|done]. intros [= <-] Hs Hok. auto.
  - intros (s & Hl & [= <-])%result_bind_ok Hs _. cbn. destruct l; cbn in *; simplify_eq; try done.
    destruct (parse_i64 s0); cbn in Hs; simplify_eq. done.
Qed.

(** A result agrees with a truth value: the filter passes exactly when it is true, and is the truth
    value itself when [clean] holds. *)
Definition agrees (clean : Prop) (r : FilterResult bool) (t : truth) : Prop :=
  exists b, r = Ok b /\ (b = true <-> t = True3) /\ (clean -> t = of_bool b).

Lemma agrees_exact clean b : agrees clean (Ok b) (of_bool b).
Proof. exists b. split_and!; [done| |done]. by destruct b. Qed.

Lemma agrees_unknown (clean : Prop) : ~ clean -> agrees clean (Ok false) Unknown.
Proof. intros H. by exists false. Qed.

Lemma agrees_weaken (P Q : Prop) r t : (Q -> P) -> agrees P r t -> agrees Q r t.
Proof. intros H (b & ? & ? & Hc). exists b. auto. Qed.

Lemma compare_null l op r : is_null l || is_null r = true -> compare_scalars l op r = Ok false.
Proof. unfold compare_scalars. by intros ->. Qed.

Lemma compare_equality a b op same t :
  is_null a = false -> is_null b = false -> scalars_equal a b = same -> sql_equality op same = Some t ->
  exists r, compare_scalars a op b = Ok r /\ t = of_bool r.
Proof. unfold compare_scalars. intros -> -> <- Ht. destruct op; cbn in *; simplify_eq; eauto. Qed.

(** The comparison of the code is SQL's. *)
Lemma compare_agrees a b x y op t :
  sql_value a = Some x -> sql_value b = Some y ->
  (forall z, x = SInt z -> safe_int z) -> (forall z, y = SInt z -> safe_int z) ->
  sql_compare op x y = Some t ->
  agrees (x ≠ SNull /\ y ≠ SNull) (compare_scalars a op b) t.
Proof.
  intros Ha Hb Hx Hy Ht.
  destruct (decide (x = SNull \/ y = SNull)) as [Hn|Hn].
  { rewrite compare_null by (destruct Hn as [-> | ->];
      [apply sql_value_null in Ha; by rewrite Ha|apply sql_value_null in Hb; by rewrite Hb, orb_true_r]).
    assert (t = Unknown) as -> by (destruct Hn as [-> | ->]; [|destruct x]; cbn in Ht; by simplify_eq).
    apply agrees_unknown. naive_solver. }
  assert (x ≠ SNull /\ y ≠ SNull) as [Nx Ny] by tauto.
  pose proof (sql_value_not_null _ _ Ha Nx) as Na. pose proof (sql_value_not_null _ _ Hb Ny) as Nb.
  destruct x as [|zx|sx|bx], y as [|zy|sy|yb]; cbn in Ht; try done.
  - injection Ht as <-. rewrite (safe_integers_compare_exactly a b zx zy) by eauto using sql_value_int.
    apply agrees_exact.
  - destruct (sql_value_text _ _ Ha) as [Sa _]. destruct (sql_value_text _ _ Hb) as [Sb _].
    destruct (compare_equality a b op (bool_decide (sx = sy)) t) as (r & -> & ->); try done;
      [|apply agrees_exact].
    unfold scalars_equal. rewrite Sa, Sb. destruct (decide (a = b)) as [->|E].
    + rewrite !bool_decide_eq_true_2; [done|congruence|done].
    + by rewrite (bool_decide_eq_false_2 (a = b)).
  - apply sql_value_bool in Ha as ->. apply sql_value_bool in Hb as ->.
    destruct (compare_equality (Boolean (Some bx)) (Boolean (Some yb)) op (bool_decide (bx = yb)) t)
      as (r & -> & ->); try done; [|apply agrees_exact].
    unfold scalars_equal. cbn. by destruct bx, yb.
Qed.

(** The operand is not NULL. *)
Definition known_operand (row : Row) (e : Expr) : Prop := sql_operand row e ≠ Some SNull.

Lemma operand_agrees row e v x :
  compile_value e = Ok v -> sql_operand row e = Some x -> operand_ok row e ->
  sql_value (eval_value v row) = Some x /\ (forall z, x = SInt z -> safe_int z) /\
  (known_operand row e -> x ≠ SNull).
Proof.
  intros Hc Hs Hok. split_and!; [by eapply operand_value| |].
  - intros z ->. by apply Hok.
  - intros Hn ->. done.
Qed.

Lemma in_agrees row e v x items vs t :
  compile_value e = Ok v -> sql_operand row e = Some x -> operand_ok row e -> Forall (operand_ok row) items ->
  compile_values items = Ok vs -> sql_in row x items = Some t ->
  agrees (known_operand row e /\ Forall (known_operand row) items) (any_equal (eval_value v row) vs row) t.
Proof.
  intros Hc Hs Hok. destruct (operand_agrees _ _ _ _ Hc Hs Hok) as (Hv & Hz & Hn).
  revert vs t. induction items as [|i items IH]; intros vs t Hoks Hvs Ht.
  { injection Hvs as <-. injection Ht as <-. apply (agrees_exact _ false). }
  apply Forall_cons in Hoks as [Hi Hoks]. cbn in Hvs, Ht.
  apply result_bind_ok in Hvs as (w & Hw & Hvs). apply result_bind_ok in Hvs as (ws & Hws & [= <-]).
  apply bind_Some in Ht as (a & Ha & Ht). apply bind_Some in Ht as (u & Hu & [= <-]).
  apply bind_Some in Ha as (y & Hy & Ha).
  destruct (operand_agrees _ _ _ _ Hw Hy Hi) as (Hv2 & Hz2 & Hn2).
  destruct (compare_agrees _ _ _ _ _ _ Hv Hv2 Hz Hz2 Ha) as (b & Hb & Hbt & Hbc).
  destruct (IH _ _ Hoks Hws Hu) as (b2 & Hb2 & Hbt2 & Hbc2). cbn. rewrite Hb. cbn.
  destruct b.
  - exists true. assert (a = True3) as -> by tauto. split_and!; [done|done|done].
  - exists b2. split_and!; [done| |].
    + rewrite Hbt2. destruct a, u; naive_solver.
    + rewrite Forall_cons. intros (Hx & Hy' & Hr). rewrite Hbc by auto. rewrite Hbc2 by auto. by destruct b2.
Qed.

Lemma literal_text_value pattern p :
  literal_text pattern = Some p -> compile_value pattern = Ok (LiteralValue (Utf8 (Some p))).
Proof.
  induction pattern as [e IH| | | | | | | | | | | | | | | |v| |]; cbn; try done.
  destruct v; cbn; try done; intros [= ->]; done.
Qed.

Lemma sql_escape_char escape esc : sql_escape escape = Some esc -> parse_like_escape_char escape = Ok esc.
Proof.
  unfold sql_escape, parse_like_escape_char. destruct escape as [[s|s| | | |]|]; try done;
    [destruct (chars s) as [|c [|]]; try done..|]; by intros [= <-].
Qed.

Lemma like_agrees row ci negated any e pattern escape l t :
  compile_like e pattern negated any escape ci = Ok l ->
  sql_like3 row ci negated e pattern escape = Some t -> operand_ok row e -> like_text_ok row e ->
  agrees (known_operand row e) (eval_like l row) t.
Proof.
  unfold compile_like, sql_like3. destruct any; [done|]. intros Hl Ht Hok Htext.
  apply bind_Some in Ht as (x & Hx & Ht). apply bind_Some in Ht as (p & Hp & Ht).
  apply bind_Some in Ht as (esc & He & Ht). apply result_bind_ok in Hl as (v & Hv & Hl).
  rewrite (literal_text_value _ _ Hp), (sql_escape_char _ _ He) in Hl. cbn [result_bind literal_string scalar_as_str] in Hl.
  apply result_bind_ok in Hl as (r & Hr & [= <-]). apply result_bind_ok in Hr as (regex & Hr & [= <-]).
  destruct (operand_agrees _ _ _ _ Hv Hx Hok) as (Hval & _ & Hn). unfold eval_like. cbn [like_value literal_regex like_negated].
  destruct x as [|z|s|b]; try done.
  - apply sql_value_null in Hval. rewrite Hval. injection Ht as <-. apply agrees_unknown. intros H. by apply Hn.
  - destruct (sql_value_text _ _ Hval) as [-> ->]. injection Ht as <-.
    destruct (like_is_sql_like p esc ci) as (Hm & _ & _). specialize (Hm _ Hr s (Htext s Hx)).
    rewrite <-like_match_spec in Hm. apply eq_true_iff_eq in Hm. rewrite <-Hm.
    replace (sign3 negated (of_bool (is_match regex s))) with (of_bool (xorb negated (is_match regex s)))
      by (by destruct negated, (is_match regex s)).
    apply agrees_exact.
Qed.

Lemma between_agrees row e lo hi v vl vh x xl xh a b negated :
  compile_value e = Ok v -> compile_value lo = Ok vl -> compile_value hi = Ok vh ->
  sql_operand row e = Some x -> sql_operand row lo = Some xl -> sql_operand row hi = Some xh ->
  Forall (operand_ok row) [e; lo; hi] ->
  sql_compare CGtEq x xl = Some a -> sql_compare CLtEq x xh = Some b -> 
  exists m, evaluate_predicate (PBetween v vl vh negated) row = Ok (xorb negated m) /\
    (m = true <-> and3 a b = True3) /\ (Forall (known_operand row) [e; lo; hi] -> and3 a b = of_bool m).
Proof.
  intros Hv Hl Hh Hx Hxl Hxh [He [Hol [Hoh _]%Forall_cons]%Forall_cons]%Forall_cons Ha Hb.
  destruct (operand_agrees _ _ _ _ Hv Hx He) as (H1 & Z1 & N1).
  destruct (operand_agrees _ _ _ _ Hl Hxl Hol) as (H2 & Z2 & N2).
  destruct (operand_agrees _ _ _ _ Hh Hxh Hoh) as (H3 & Z3 & N3).
  destruct (compare_agrees _ _ _ _ _ _ H1 H2 Z1 Z2 Ha) as (ge & Hge & Tge & Cge).
  destruct (compare_agrees _ _ _ _ _ _ H1 H3 Z1 Z3 Hb) as (le & Hle & Tle & Cle).
  cbn [evaluate_predicate]. cbv zeta. rewrite Hge. cbn [result_bind]. exists (ge && le).
  split_and!.
  - destruct ge; [rewrite Hle|]; done.
  - rewrite andb_true_iff, Tge, Tle. destruct a, b; naive_solver.
  - intros [Se [Sl [Sh _]%Forall_cons]%Forall_cons]%Forall_cons.
    rewrite Cge, Cle by auto. by destruct ge, le.
Qed.

(** What a compiled expression does on a row. *)
Definition filter_agrees (row : Row) (e : Expr) (r : FilterResult bool) (t : truth) : Prop :=
  exists b, r = Ok b /\ (negation_free e = true -> b = true <-> t = True3) /\
    (Forall (known_operand row) (nullable_operands e) -> t = of_bool b).

Lemma agrees_filter row e r t clean :
  agrees clean r t -> (Forall (known_operand row) (nullable_operands e) -> clean) -> filter_agrees row e r t.
Proof. intros (b & Hr & Ht & Hc) H. exists b. auto. Qed.

Lemma comparison_agrees row l op r o c t :
  sql_operator op = Some o ->
  (let? vl := compile_value l in let? o := from_binary_operator op in let? vr := compile_value r in
   Ok (mkCompiled (PComparison vl o vr) 1)) = Ok c ->
  (x ← sql_operand row l; y ← sql_operand row r; sql_compare o x y) = Some t ->
  Forall (operand_ok row) [l; r] ->
  agrees (Forall (known_operand row) [l; r]) (evaluate c row) t.
Proof.
  intros Ho Hc Ht [Hl [Hr _]%Forall_cons]%Forall_cons.
  assert (from_binary_operator op = Ok o) as Hop by (destruct op; cbn in *; by simplify_eq).
  apply result_bind_ok in Hc as (vl & Hvl & Hc). rewrite Hop in Hc. cbn [result_bind] in Hc.
  apply result_bind_ok in Hc as (vr & Hvr & [= <-]).
  apply bind_Some in Ht as (x & Hx & Ht). apply bind_Some in Ht as (y & Hy & Ht).
  destruct (operand_agrees _ _ _ _ Hvl Hx Hl) as (H1 & Z1 & N1).
  destruct (operand_agrees _ _ _ _ Hvr Hy Hr) as (H2 & Z2 & N2).
  eapply agrees_weaken; [|exact (compare_agrees _ _ _ _ _ _ H1 H2 Z1 Z2 Ht)].
  intros [Sl [Sr _]%Forall_cons]%Forall_cons. auto.
Qed.

(** The connectives keep the agreement. *)
Lemma and_agrees row el er l r a b :
  filter_agrees row el (evaluate l row) a -> filter_agrees row er (evaluate r row) b ->
  filter_agrees row (EBinary el OpAnd er)
    (let? x := evaluate l row in if x then evaluate r row else Ok false) (and3 a b).
Proof.
  intros (x & Hx & Tx & Cx) (y & Hy & Ty & Cy). rewrite Hx, Hy. exists (x && y). cbn.
  rewrite andb_true_iff, Forall_app. split_and!; [by destruct x| |].
  - intros [Nl Nr]. rewrite andb_true_iff, (Tx Nl), (Ty Nr). destruct a, b; naive_solver.
  - intros [Kl Kr]. rewrite (Cx Kl), (Cy Kr). by destruct x, y.
Qed.

Lemma or_agrees row el er l r a b :
  filter_agrees row el (evaluate l row) a -> filter_agrees row er (evaluate r row) b ->
  filter_agrees row (EBinary el OpOr er)
    (let? x := evaluate l row in if x then Ok true else evaluate r row) (or3 a b).
Proof.
  intros (x & Hx & Tx & Cx) (y & Hy & Ty & Cy). rewrite Hx, Hy. exists (x || y). cbn.
  rewrite andb_true_iff, Forall_app. split_and!; [by destruct x| |].
  - intros [Nl Nr]. rewrite orb_true_iff, (Tx Nl), (Ty Nr). destruct a, b; naive_solver.
  - intros [Kl Kr]. rewrite (Cx Kl), (Cy Kr). by destruct x, y.
Qed.

(** A result under a negation mark. *)
Lemma signed_agrees row e r m t negated :
  r = Ok (xorb negated m) -> (m = true <-> t = True3) ->
  (Forall (known_operand row) (nullable_operands e) -> t = of_bool m) -> (negation_free e = true -> negated = false) ->
  filter_agrees row e r (sign3 negated t).
Proof.
  intros Hr Ht Hc Hn. exists (xorb negated m). split_and!; [done| |].
  - intros ->%Hn. by rewrite xorb_false_l.
  - intros ->%Hc. by destruct negated, m.
Qed.

Lemma in_list_agrees row e items negated v vs x t :
  compile_value e = Ok v -> compile_values items = Ok vs -> sql_operand row e = Some x ->
  Forall (operand_ok row) (e :: items) -> sql_in row x items = Some t ->
  filter_agrees row (EInList e items negated)
    (evaluate_predicate (PInList v vs negated) row) (sign3 negated t).
Proof.
  intros Hv Hvs Hx [He Hi]%Forall_cons Ht.
  destruct (in_agrees _ _ _ _ _ _ _ Hv Hx He Hi Hvs Ht) as (m & Hm & Tm & Cm).
  destruct (operand_agrees _ _ _ _ Hv Hx He) as (H1 & _ & N1). cbn [evaluate_predicate]. cbv zeta.
  destruct (is_null (eval_value v row)) eqn:E.
  - apply sql_value_null in E. assert (x = SNull) as -> by congruence.
    exists false. split_and!; [done| |].
    + cbn. intros Hn%negb_true_iff. subst negated. cbn. split; [done|]. clear -Ht. revert t Ht.
      induction items as [|i items IH]; cbn; intros t Ht; [by simplify_eq|].
      apply bind_Some in Ht as (a & Ha & Ht). apply bind_Some in Ha as (y & _ & Ha). injection Ha as <-.
      apply bind_Some in Ht as (u & Hu & [= <-]). specialize (IH u Hu). by destruct u.
    + cbn. intros [Ke _]%Forall_cons. by destruct (N1 Ke).
  - rewrite Hm. cbn [result_bind]. eapply signed_agrees; [done|done| |].
    + cbn. intros [Ke Ki]%Forall_cons. auto.
    + cbn. apply negb_true_iff.
Qed.

Lemma is_bool_agrees row e v t expected :
  compile_value e = Ok v -> (sql_operand row e ≫= sql_is expected) = Some t -> operand_ok row e ->
  t = of_bool (bool_decide (eval_value v row = Boolean (Some expected))).
Proof.
  intros Hv (x & Hx & Ht)%bind_Some Hok. destruct (operand_agrees _ _ _ _ Hv Hx Hok) as (H1 & _ & _).
  destruct x as [|z|s|b]; cbn in Ht; simplify_eq.
  - rewrite bool_decide_eq_false_2; [done|]. intros E. by rewrite E in H1.
  - apply sql_value_bool in H1. rewrite H1. by destruct b, expected.
Qed.

Lemma is_null_agrees row e v x :
  compile_value e = Ok v -> sql_operand row e = Some x -> operand_ok row e ->
  bool_decide (x = SNull) = is_null (eval_value v row).
Proof.
  intros Hv Hx Hok. destruct (operand_agrees _ _ _ _ Hv Hx Hok) as (H1 & _ & _).
  apply eq_true_iff_eq. rewrite bool_decide_eq_true, <-sql_value_null, H1. naive_solver.
Qed.

Lemma bool_agrees row e v t :
  compile_value e = Ok v -> (sql_operand row e ≫= sql_bool) = Some t -> operand_ok row e ->
  agrees (known_operand row e) (coerce_to_bool (eval_value v row)) t.
Proof.
  intros Hv (x & Hx & Ht)%bind_Some Hok. destruct (operand_agrees _ _ _ _ Hv Hx Hok) as (H1 & _ & N).
  unfold coerce_to_bool. destruct x as [|z|s|b]; cbn in Ht; simplify_eq.
  - apply sql_value_null in H1. rewrite H1. apply agrees_unknown. intros H. by apply N.
  - apply sql_value_bool in H1. rewrite H1. apply agrees_exact.
Qed.

Lemma exact_filter row e b : filter_agrees row e (Ok b) (of_bool b).
Proof. eapply agrees_filter; [apply (agrees_exact True)|done]. Qed.

Lemma not_of_bool b : not3 (of_bool b) = of_bool (negb b).
Proof. by destruct b. Qed.

Ltac unbind_some H := repeat (let x := fresh "y" in let Hx := fresh "Hy" in
  apply bind_Some in H as (x & Hx & H)).

Lemma binary_agrees row el op er c t :
  op ≠ OpAnd -> op ≠ OpOr ->
  (let? vl := compile_value el in let? o := from_binary_operator op in let? vr := compile_value er in
   Ok (mkCompiled (PComparison vl o vr) 1)) = Ok c ->
  (o ← sql_operator op; x ← sql_operand row el; y ← sql_operand row er; sql_compare o x y) = Some t ->
  Forall (operand_ok row) [el; er] ->
  filter_agrees row (EBinary el op er) (evaluate c row) t.
Proof.
  intros Ha Hor Hc (o & Ho & Ht)%bind_Some Hok.
  eapply agrees_filter; [exact (comparison_agrees _ _ _ _ _ _ _ Ho Hc Ht Hok)|]. by destruct op.
Qed.

(** The leaves. *)
Lemma leaf_agrees row e v t :
  compile_value e = Ok v -> (sql_operand row e ≫= sql_bool) = Some t -> Forall (operand_ok row) [e] ->
  nullable_operands e = [e] -> filter_agrees row e (evaluate (mkCompiled (PBool v) 1) row) t.
Proof.
  intros Hv Ht [Hok _]%Forall_cons Hn. eapply agrees_filter; [by apply (bool_agrees row e v t)|].
  rewrite Hn. by intros [? _]%Forall_cons.
Qed.

Lemma like_leaf_agrees row ci negated any e pattern escape l t le :
  compile_like e pattern negated any escape ci = Ok l ->
  sql_like3 row ci negated e pattern escape = Some t -> Forall (operand_ok row) [e] ->
  Forall (like_text_ok row) [e] -> nullable_operands le = [e] ->
  filter_agrees row le (evaluate (mkCompiled (PLike l) 1) row) t.
Proof.
  intros Hl Ht [Hok _]%Forall_cons [Htext _]%Forall_cons Hn.
  eapply agrees_filter; [by eapply (like_agrees row)|]. rewrite Hn. by intros [? _]%Forall_cons.
Qed.

Lemma compile_at_agrees row e depth c t :
  compile_at e depth = Ok c -> sql row e = Some t -> Forall (operand_ok row) (expr_operands e) ->
  Forall (like_text_ok row) (like_operands e) -> filter_agrees row e (evaluate c row) t.
Proof.
  revert depth c t. induction e as [e IH|e IH|e IH|el IHl op er IHr|e IH neg lo IHlo hi IHhi|e IH items neg
    |e IH|e IH|e IH|e IH|e IH|e IH|neg any e IH pat IHp esc|neg any e IH pat IHp esc|s|parts|v| |];
    intros depth c t Hc Ht Hok Hlk; cbn [compile_at] in Hc; cbn [sql] in Ht; cbn [expr_operands] in Hok;
    (destruct (MAX_FILTER_DEPTH <? depth)%nat; [done|]); try discriminate.
  - by apply (IH (S depth)).
  - unbind Hc. injection Hc as <-. apply fmap_Some in Ht as (u & Hu & ->).
    destruct (IH _ _ _ Hx Hu Hok Hlk) as (b & Hb & _ & Cb). exists (negb b). cbn. rewrite Hb.
    split_and!; [done|done|]. intros ->%Cb. apply not_of_bool.
  - destruct op; try (apply (binary_agrees row el _ er c t); done); unbind Hc; injection Hc as <-; unbind_some Ht;
      injection Ht as <-; apply Forall_app in Hok as [? ?]; apply Forall_app in Hlk as [? ?];
      [apply and_agrees|apply or_agrees]; eauto.
  - unbind Hc. injection Hc as <-. unbind_some Ht. injection Ht as <-. destruct (between_agrees row e lo hi x x0 x1 y y0 y1 y2 y3 neg)
      as (m & Hm & Tm & Cm); try done. eapply signed_agrees; [exact Hm|done|done|]. cbn. apply negb_true_iff.
  - destruct (_ <? _)%nat; [done|]. unbind Hc. injection Hc as <-.
    apply bind_Some in Ht as (y & Hy & Ht). apply fmap_Some in Ht as (u & Hu & ->). by eapply in_list_agrees.
  - unbind Hc. injection Hc as <-. unbind_some Ht. injection Ht as <-. apply Forall_cons in Hok as [Hok _].
    rewrite (is_null_agrees _ _ _ _ Hx Hy Hok). apply exact_filter.
  - unbind Hc. injection Hc as <-. unbind_some Ht. injection Ht as <-. apply Forall_cons in Hok as [Hok _].
    rewrite (is_null_agrees _ _ _ _ Hx Hy Hok). cbn. apply exact_filter.
  - unbind Hc. injection Hc as <-. apply Forall_cons in Hok as [Hok _].
    rewrite (is_bool_agrees _ _ _ _ _ Hx Ht Hok). apply exact_filter.
  - unbind Hc. injection Hc as <-. apply Forall_cons in Hok as [Hok _]. apply fmap_Some in Ht as (u & Hu & ->).
    rewrite (is_bool_agrees _ _ _ _ _ Hx Hu Hok), not_of_bool. apply exact_filter.
  - unbind Hc. injection Hc as <-. apply Forall_cons in Hok as [Hok _].
    rewrite (is_bool_agrees _ _ _ _ _ Hx Ht Hok). apply exact_filter.
  - unbind Hc. injection Hc as <-. apply Forall_cons in Hok as [Hok _]. apply fmap_Some in Ht as (u & Hu & ->).
    rewrite (is_bool_agrees _ _ _ _ _ Hx Hu Hok), not_of_bool. apply exact_filter.
  - unbind Hc. injection Hc as <-. by eapply like_leaf_agrees.
  - unbind Hc. injection Hc as <-. by eapply like_leaf_agrees.
  - apply result_bind_ok in Hc as (x & Hx & [= <-]). by eapply leaf_agrees.
  - apply result_bind_ok in Hc as (x & Hx & [= <-]). by eapply leaf_agrees.
  - apply result_bind_ok in Hc as (x & Hx & [= <-]). by eapply leaf_agrees.
Qed.

(** C33. Filters agree with SQL where NULL is not negated. For an expression that compiles and that
    SQL gives a truth value on a row (operands of matching types: integers in any order, texts and
    booleans for equality, LIKE with a literal pattern), whose columns are found under their own
    name, whose integers lie strictly between -2^53 and 2^53 and whose LIKE texts have no line feed,
    evaluation succeeds; without NOT, NOT BETWEEN and NOT IN the row passes exactly when SQL makes
    the expression true; and when no operand is NULL the result is SQL's truth value for every
    expression. *)
Theorem filter_agrees_with_sql row e c t :
  try_from_expr e = Ok c -> sql row e = Some t ->
  Forall (operand_ok row) (expr_operands e) -> Forall (like_text_ok row) (like_operands e) ->
  exists b, matches c row = Ok b /\
    (negation_free e = true -> b = true <-> t = True3) /\
    (Forall (known_operand row) (nullable_operands e) -> t = of_bool b).
Proof. apply compile_at_agrees. Qed.

(** NULL under a negation passes the filter although SQL rejects the row: for every column that is
    NULL in the row or that the row does not have, [NOT (column = literal)] and
    [column NOT BETWEEN a AND b] compile and evaluate to true, while SQL leaves both unknown. *)
Theorem negated_null_passes row name lit lo hi :
  sql_column row name = Some SNull -> operand_ok row (EIdentifier name) ->
  let neq := ENot (EBinary (EIdentifier name) OpEq (EValue (SingleQuotedString lit))) in
  let not_between := EBetween (EIdentifier name) true (EValue (SingleQuotedString lo))
                       (EValue (SingleQuotedString hi)) in
  Forall (fun e => sql row e = Some Unknown /\
            exists c, try_from_expr e = Ok c /\ matches c row = Ok true) [neq; not_between].
Proof.
  intros Hs Hok. pose proof (operand_value row (EIdentifier name) _ _ eq_refl Hs Hok) as Hn.
  apply sql_value_null in Hn. cbn [eval_value] in Hn.
  repeat constructor; cbn [sql sql_operator sql_operand]; rewrite ?Hs; try done;
    eexists; (split; [reflexivity|]); cbn; unfold compare_scalars; by rewrite Hn.
Qed.

End Filter.

(** Larger integers are confused: two 64-bit integers that differ by one are equal, and neither
    is smaller, from 2^53 on, so a filter on the identifier of one row lets its neighbour pass. *)
Theorem large_integers_are_confused :
  compare_scalars (Int64 (Some (2 ^ 53))) CEq (Int64 (Some (2 ^ 53 + 1))) = Ok true /\
  compare_scalars (Int64 (Some (2 ^ 53))) CLt (Int64 (Some (2 ^ 53 + 1))) = Ok false /\
  compare_scalars (Int64 (Some 1234567890123456789)) CEq (Int64 (Some 1234567890123456790)) = Ok true /\
  compare_scalars (Int64 (Some 1234567890123456789)) CNotEq (Int64 (Some 1234567890123456790)) = Ok false.
Proof. vm_compute. done. Qed.

(** ** Witnesses *)

Definition w_compile (e : Expr) : FilterResult CompiledPredicate :=
  try_from_expr (fun s => s) (fun s => s) (fun _ => None) (fun _ => true) e.

(** [status IN ('open', 'new') AND NOT (priority < 5)] *)
Definition w_expr : Expr :=
  EBinary (EInList (EIdentifier "status") [EValue (SingleQuotedString "open");
                                           EValue (SingleQuotedString "new")] false)
    OpAnd (ENot (EBinary (EIdentifier "priority") OpLt (EValue (Number "5")))).

Definition w_filter_row : Row := <["status" := Utf8 (Some "new")]> {["priority" := Int32 (Some 7)]}.

Definition w_compiled : CompiledPredicate :=
  match w_compile w_expr with Ok c => c | Err _ => mkCompiled (PBool (LiteralValue Null)) 0 end.

Lemma filter_agrees_with_sql_witness :
  exists b, matches (fun c => c) (fun _ => true) w_compiled w_filter_row = Ok b /\ True3 = of_bool b.
Proof.
  destruct (filter_agrees_with_sql (fun s => s) (fun s => s) (fun _ => None) (fun c => c) (fun _ => true)
    w_filter_row w_expr w_compiled True3) as (b & Hb & _ & Ht).
  - vm_compute. reflexivity.
  - vm_compute. reflexivity.
  - cbn [expr_operands w_expr app]. repeat (apply Forall_cons; split); [..|constructor];
      (split; [intros name [= <-]; left; eexists; vm_compute; reflexivity
              |intros z H; vm_compute in H; simplify_eq; vm_compute; reflexivity]).
  - constructor.
  - exists b. split; [exact Hb|]. apply Ht. cbn [nullable_operands expr_operands w_expr app].
    repeat (apply Forall_cons; split); [..|constructor]; intros H; vm_compute in H; discriminate H.
Defined.

Lemma negated_null_passes_witness :
  sql (fun c => c) w_filter_row (ENot (EBinary (EIdentifier "archived") OpEq (EValue (SingleQuotedString "yes")))) = Some Unknown.
Proof.
  assert (Forall _ _) as H by (apply (negated_null_passes (fun s => s) (fun s => s) (fun _ => None) (fun c => c)
    (fun _ => true) w_filter_row "archived" "yes" "a" "b"); [vm_compute; reflexivity|];
    split; [intros name [= <-]; right; by split|intros z H; vm_compute in H; discriminate H]).
  apply Forall_cons in H as [[H _] _]. exact H.
Defined.

Lemma compiled_filter_bounds_witness : (height w_compiled <= 64)%nat /\ complexity w_compiled = 6.
Proof.
  assert (w_compile w_expr = Ok w_compiled) as H by (vm_compute; reflexivity).
  destruct (compiled_filter_bounds _ _ _ _ _ _ H) as (H1 & _ & H2).
  split; [exact H1|]. rewrite H2. reflexivity.
Defined.

Lemma safe_integers_compare_exactly_witness :
  compare_scalars (Int64 (Some 9007199254740991)) CGt (UInt32 (Some 4294967295)) = Ok true.
Proof.
  apply (safe_integers_compare_exactly (Int64 (Some 9007199254740991)) (UInt32 (Some 4294967295))
    9007199254740991 4294967295 CGt); reflexivity.
Defined.
