(* ===== verification/LiveReplay.v ===== *)
(** * LiveReplay: the bounded change log behind live-query resume

    Model of kalamdb-live/src/replay_log.rs, and of [ChangeNotification] of
    kalamdb-commons/src/websocket.rs.

    The log lives behind one mutex, so every operation is one function on [ReplayState].  A
    notification is recorded when the change has been applied; a subscription first binds the
    scope (which starts tracking), then computes its snapshot boundary and notes it.

    The theorems say when a resume cursor the log accepts is really complete, bound the memory of
    the log, and show that the boundary of a filtered snapshot makes the log accept cursors it
    does not cover. *)

From Stdlib Require Import ZArith Lia Sorting.Sorted.
From stdpp Require Import base countable functions strings gmap list fin_maps.
From S2P Require Import Prelude Commons Ids Scalars.

Open Scope Z_scope.

Inductive ChangeType := ChangeInsert | ChangeUpdate | ChangeDelete.

Record ChangeNotification := mkChange {
  change_type : ChangeType;
  ch_table_id : TableId;
  row_data : gmap string ScalarValue;
  old_data : option (gmap string ScalarValue);
  row_id : option string;
  pk_columns : list string;
  actor_user_id : option UserId
}.

(** [SystemColumnNames::VERSION]. *)
Definition VERSION : string := "_version".

(** [version_of], also [extract_seq] of notification.rs and the observation of fanout.rs. *)
Definition version_of (n : ChangeNotification) : option Z :=
  match row_data n !! VERSION with
  | Some (Int64 (Some v)) => match Version.try_from_i64 v with Ok i => Some i | Err _ => None end
  | Some (UInt64 (Some v)) =>
      match Version.try_from_i64 (u64_as_i64 v) with Ok i => Some i | Err _ => None end
  | _ => None
  end.

(** 16,384 changes per scope. *)
Definition MAX_EVENTS_PER_SCOPE : nat := (2 ^ 14)%nat.
Definition MAX_SCOPES : nat := 64.

Record ScopeKey := mkScope { sk_user_id : option UserId; sk_table_id : TableId }.

#[export] Instance ScopeKey_eq_dec : EqDecision ScopeKey.
Proof. solve_decision. Defined.

#[export] Instance ScopeKey_countable : Countable ScopeKey.
Proof.
  refine (inj_countable' (fun k => (sk_user_id k, sk_table_id k)) (fun p => mkScope p.1 p.2) _).
  by intros [].
Defined.

Record ReplayEvent := mkEvent { version : Z; notification : ChangeNotification }.

Record ScopeLog := mkLog {
  domain : option Version.VersionDomain;
  covered_from : option Z;
  discarded : bool;
  log_empty_snapshot : bool;
  events : list ReplayEvent
}.

(** ** One scope *)

Definition scope_new : ScopeLog := mkLog None None false false [].

Definition note_snapshot_log (l : ScopeLog) (snapshot : Z) : ScopeLog :=
  if discarded l then l
  else mkLog (domain l)
         (Some (match covered_from l with Some existing => Z.min existing snapshot | None => snapshot end))
         (discarded l) false (events l).

Definition note_empty_log (l : ScopeLog) : ScopeLog :=
  if discarded l then l else mkLog (domain l) (covered_from l) (discarded l) true (events l).

Definition covers_log (l : ScopeLog) (from : Z) : bool :=
  match covered_from l with Some floor => floor <=? from | None => false end.

Definition invalidate (l : ScopeLog) : ScopeLog := mkLog (domain l) None true false [].

(** The eviction loop of [push]; it runs while the log is over its limit. *)
Fixpoint drop_front (fuel : nat) (l : ScopeLog) : ScopeLog :=
  match fuel with
  | O => l
  | S fuel' =>
      if (MAX_EVENTS_PER_SCOPE <? length (events l))%nat then
        match events l with
        | dropped :: rest =>
            drop_front fuel' (mkLog (domain l) (Some (version dropped)) true false rest)
        | [] => l
        end
      else l
  end.

Definition push (l : ScopeLog) (v : Z) (n : ChangeNotification) : ScopeLog :=
  let floor := match covered_from l with
               | None => if log_empty_snapshot l && negb (discarded l) then Some v else None
               | Some f => Some f
               end in
  let l' := mkLog (domain l) floor (discarded l) (log_empty_snapshot l)
              (events l ++ [mkEvent v n]) in
  drop_front (length (events l')) l'.

Definition changes_after_log (l : ScopeLog) (from : Z) : list ChangeNotification :=
  notification <$> filter (fun e => from < version e) (events l).

(** ** All scopes *)

Record ReplayState := mkReplay { scopes : gmap ScopeKey ScopeLog; lru : list ScopeKey }.

Definition replay_new : ReplayState := mkReplay ∅ [].

(** Move a key to the end of the recency list. *)
Definition touch_scope (s : ReplayState) (k : ScopeKey) : ReplayState :=
  match position (fun existing => bool_decide (existing = k)) (lru s) with
  | Some i => mkReplay (scopes s) (take i (lru s) ++ drop (S i) (lru s) ++ [k])
  | None => s
  end.

(** The eviction loop of [begin_scope]. *)
Fixpoint evict (fuel : nat) (s : ReplayState) : ReplayState :=
  match fuel with
  | O => s
  | S fuel' =>
      if (MAX_SCOPES <=? size (scopes s))%nat then
        match lru s with
        | evicted :: rest => evict fuel' (mkReplay (delete evicted (scopes s)) rest)
        | [] => s
        end
      else s
  end.

Definition begin_scope (s : ReplayState) (k : ScopeKey) : ReplayState :=
  match scopes s !! k with
  | Some _ => touch_scope s k
  | None =>
      let s' := evict (length (lru s)) s in
      mkReplay (<[k := scope_new]> (scopes s')) (lru s' ++ [k])
  end.

#[local] Existing Instance Version.VersionDomain_eq_dec.

Definition update_scope (s : ReplayState) (k : ScopeKey) (f : ScopeLog -> ScopeLog) : ReplayState :=
  mkReplay (alter f k (scopes s)) (lru s).

Definition bind_domain (s : ReplayState) (k : ScopeKey) (d : option Version.VersionDomain) :
    ReplayState :=
  update_scope (begin_scope s k) k
    (fun l => if decide (domain l = d) then l else mkLog d None false false []).

Inductive ResumeCursor := Replay | Snapshot | Expired.

Definition classify_cursor (s : ReplayState) (k : ScopeKey) (from : Z) : ResumeCursor :=
  match scopes s !! k with
  | None => Expired
  | Some l =>
      if covers_log l from then Replay
      else if discarded l || match covered_from l with None => true | Some _ => false end
      then Expired
      else Snapshot
  end.

Definition tracking (s : ReplayState) (k : ScopeKey) : bool :=
  match scopes s !! k with Some _ => true | None => false end.

Definition note_snapshot (s : ReplayState) (k : ScopeKey) (snapshot : Z) : ReplayState :=
  update_scope (begin_scope s k) k (fun l => note_snapshot_log l snapshot).

Definition note_empty (s : ReplayState) (k : ScopeKey) : ReplayState :=
  update_scope (begin_scope s k) k note_empty_log.

Definition record (s : ReplayState) (k : ScopeKey) (n : ChangeNotification) : ReplayState :=
  match scopes s !! k with
  | None => s
  | Some _ =>
      match version_of n with
      | None => update_scope s k invalidate
      | Some v => touch_scope (update_scope s k (fun l => push l v n)) k
      end
  end.

Definition covers_cursor (s : ReplayState) (k : ScopeKey) (from : Z) : bool :=
  match scopes s !! k with Some l => covers_log l from | None => false end.

Definition changes_after (s : ReplayState) (k : ScopeKey) (from : Z) :
    option (list ChangeNotification) :=
  match scopes s !! k with
  | None => None
  | Some l => if covers_log l from then Some (changes_after_log l from) else None
  end.

(** ** Completeness of one scope *)

(** The versioned changes applied so far, oldest first. *)
Abbreviation History := (list ReplayEvent).

Definition increasing (h : History) : Prop := StronglySorted (fun a b => version a < version b) h.

Definition newer (from : Z) (h : History) : History := filter (fun e => from < version e) h.

(** What the log should hold for a history: its newest part, which contains everything after the
    floor. *)
Definition scope_log_ok (h : History) (l : ScopeLog) : Prop :=
  (exists missed, h = missed ++ events l /\
     forall floor, covered_from l = Some floor -> Forall (fun e => version e <= floor) missed) /\
  (length (events l) <= MAX_EVENTS_PER_SCOPE)%nat.

Lemma newer_split floor missed l :
  Forall (fun e => version e <= floor) missed -> newer floor (missed ++ l) = newer floor l.
Proof.
  intros H. unfold newer. rewrite filter_app. rewrite (filter_none _ missed); [done|].
  intros e He. rewrite Forall_forall in H. specialize (H e He). lia.
Qed.

Lemma log_ok_complete h l from :
  scope_log_ok h l -> covers_log l from = true -> newer from h = newer from (events l).
Proof.
  intros [(missed & Hh & Hf) _] Hc. unfold covers_log in Hc.
  destruct (covered_from l) as [floor|]; [|done]. apply Z.leb_le in Hc. rewrite Hh.
  apply newer_split. specialize (Hf floor eq_refl). eapply Forall_impl; [exact Hf|].
  simpl. intros e He. lia.
Qed.

Lemma increasing_app_le h1 e h2 :
  increasing (h1 ++ e :: h2) -> Forall (fun x => version x <= version e) (h1 ++ [e]).
Proof.
  intros H. apply Forall_app. split; [|by repeat constructor].
  apply Forall_forall. intros x Hx.
  induction h1 as [|y h1 IH]; [by apply elem_of_nil in Hx|].
  cbn in H. apply StronglySorted_inv in H as [H Hy].
  apply elem_of_cons in Hx as [->|Hx]; [|by apply IH].
  rewrite Forall_forall in Hy. assert (version y < version e); [apply Hy; set_solver|lia].
Qed.

Lemma drop_front_ok fuel h l :
  increasing h ->
  (exists missed, h = missed ++ events l /\
     forall floor, covered_from l = Some floor -> Forall (fun e => version e <= floor) missed) ->
  (length (events l) <= fuel + MAX_EVENTS_PER_SCOPE)%nat ->
  scope_log_ok h (drop_front fuel l).
Proof.
  intros Hinc. revert l. induction fuel as [|fuel IH]; intros l (missed & Hh & Hf) Hlen; cbn [drop_front].
  { split; [eauto|lia]. }
  destruct (Nat.ltb_spec MAX_EVENTS_PER_SCOPE (length (events l))) as [Hlt|Hle].
  - destruct (events l) as [|d rest] eqn:E; [cbn [length] in Hlt; lia|].
    apply (IH (mkLog (domain l) (Some (version d)) true false rest)); cbn [events covered_from].
    + exists (missed ++ [d]). rewrite <-app_assoc. split; [done|]. intros floor [= <-].
      rewrite Hh in Hinc. by eapply increasing_app_le.
    + cbn [length] in Hlen. lia.
  - split; [eauto|done].
Qed.

(** Recording the next change keeps the log complete. *)
Lemma push_ok h l v n :
  scope_log_ok h l -> increasing (h ++ [mkEvent v n]) ->
  scope_log_ok (h ++ [mkEvent v n]) (push l v n).
Proof.
  intros [(missed & Hh & Hf) Hlen] Hinc. unfold push. cbv zeta.
  set (l' := mkLog _ _ _ _ _).
  apply drop_front_ok; [done| |lia].
  exists missed. cbn [l' events covered_from]. split; [by rewrite Hh, app_assoc|].
  intros floor E. destruct (covered_from l) as [f|]; [injection E as <-; by apply Hf|].
  destruct (_ && _); [|done]. injection E as <-.
  apply increasing_app_le in Hinc. rewrite Hh in Hinc.
  apply Forall_app in Hinc as [Hinc _]. apply Forall_app in Hinc as [Hinc _]. exact Hinc.
Qed.

Lemma log_ok_new h d : increasing h -> scope_log_ok h (mkLog d None false false []).
Proof. split; cbn [events length]; [|lia]. exists h. by rewrite app_nil_r. Qed.

Lemma invalidate_ok h l : scope_log_ok h (invalidate l).
Proof. split; cbn [events invalidate length]; [|lia]. exists h. by rewrite app_nil_r. Qed.

Lemma note_empty_ok h l : scope_log_ok h l -> scope_log_ok h (note_empty_log l).
Proof. unfold note_empty_log. by destruct (discarded l). Qed.

(** The boundary a snapshot may note: no change it does not contain is missing from the log. *)
Definition boundary_ok (h : History) (l : ScopeLog) (boundary : Z) : Prop :=
  forall missed, h = missed ++ events l -> Forall (fun e => version e <= boundary) missed.

Lemma snapshot_boundary h l boundary seen later :
  h = seen ++ later -> Forall (fun e => version e <= boundary) seen -> later `suffix_of` events l ->
  boundary_ok h l boundary.
Proof.
  intros -> Hs [pre He] missed Hm. rewrite He, app_assoc in Hm. apply app_inj_2 in Hm as [-> _]; [|done].
  by apply Forall_app in Hs as [? _].
Qed.

Lemma note_snapshot_ok h l boundary :
  scope_log_ok h l -> boundary_ok h l boundary -> scope_log_ok h (note_snapshot_log l boundary).
Proof.
  intros [(missed & Hh & Hf) Hlen] Hb. unfold note_snapshot_log.
  destruct (discarded l); [by split; [eauto|]|]. split; [|done]. exists missed. split; [done|].
  intros floor [= <-]. destruct (covered_from l) as [f|]; [|by apply Hb].
  destruct (Z.min_spec f boundary) as [[_ ->]|[_ ->]]; [by apply Hf|by apply Hb].
Qed.

(** ** The recency list *)

Lemma position_elem {A} (p : A -> bool) l i :
  position p l = Some i -> exists x, l !! i = Some x /\ p x = true.
Proof.
  revert i. induction l as [|y l IH]; intros i; [done|]. cbn [position].
  destruct (p y) eqn:E; [intros [= <-]; by exists y|].
  destruct (position p l) as [j|]; [|done]. cbn. intros [= <-]. by apply IH.
Qed.

Lemma touch_scopes s k : scopes (touch_scope s k) = scopes s.
Proof. unfold touch_scope. by destruct (position _ _). Qed.

Lemma touch_lru s k : lru (touch_scope s k) ≡ₚ lru s.
Proof.
  unfold touch_scope. destruct (position _ _) as [i|] eqn:E; [|done]. cbn [lru].
  apply position_elem in E as (x & Hx & Hk). apply bool_decide_eq_true in Hk as ->.
  rewrite <-(take_drop_middle _ _ _ Hx) at 3. rewrite (app_assoc _ _ [k]).
  rewrite <-(Permutation_middle (take i (lru s))). by rewrite <-Permutation_cons_append.
Qed.

(** What bounds the memory of the log, whatever its callers do. *)
Record bounded (s : ReplayState) : Prop := {
  bounded_nodup : NoDup (lru s);
  bounded_keys : forall k, k ∈ lru s <-> is_Some (scopes s !! k);
  bounded_scopes : (size (scopes s) <= MAX_SCOPES)%nat;
  bounded_events : forall k l, scopes s !! k = Some l ->
    (length (events l) <= MAX_EVENTS_PER_SCOPE)%nat
}.

Lemma bounded_new : bounded replay_new.
Proof.
  split; cbn; [constructor| |rewrite map_size_empty; unfold MAX_SCOPES; lia|done].
  intros k. rewrite lookup_empty. split; [by intros ?%elem_of_nil|by intros []].
Qed.

Lemma bounded_touch s k : bounded s -> bounded (touch_scope s k).
Proof.
  intros [Hn Hk Hs He]. pose proof (touch_lru s k) as Hp.
  split; rewrite ?touch_scopes; [by rewrite Hp|intros j; by rewrite Hp|done|done].
Qed.

Lemma bounded_update s k f :
  (forall l, scopes s !! k = Some l -> (length (events l) <= MAX_EVENTS_PER_SCOPE)%nat ->
     (length (events (f l)) <= MAX_EVENTS_PER_SCOPE)%nat) ->
  bounded s -> bounded (update_scope s k f).
Proof.
  intros Hf [Hn Hk Hs He]. unfold update_scope. split; cbn [scopes lru]; [done| | |].
  - intros j. rewrite Hk. destruct (decide (j = k)) as [->|Hd];
      [rewrite lookup_alter_eq|rewrite lookup_alter_ne by done; done].
    destruct (scopes s !! k); cbn; split; intros [? ?]; by eauto.
  - by rewrite <-(size_dom (D := gset ScopeKey)), dom_alter_L, size_dom.
  - intros j l. destruct (decide (j = k)) as [->|Hd].
    + rewrite lookup_alter_eq. destruct (scopes s !! k) as [l0|] eqn:E; [|done].
      cbn. intros [= <-]. eauto.
    + rewrite lookup_alter_ne by done. apply He.
Qed.

Lemma bounded_no_keys s : bounded s -> lru s = [] -> size (scopes s) = 0%nat.
Proof.
  intros Hb E. apply map_size_empty_iff, map_empty. intros k.
  destruct (scopes s !! k) as [l|] eqn:Hl; [|done].
  assert (k ∈ lru s) as Hin by (apply (bounded_keys _ Hb); by eauto).
  rewrite E in Hin. by apply elem_of_nil in Hin.
Qed.

(** The eviction loop: what stays is a suffix of the recency list, and there is room for one. *)
Lemma evict_spec fuel s :
  (length (lru s) <= fuel)%nat -> bounded s ->
  bounded (evict fuel s) /\ (size (scopes (evict fuel s)) < MAX_SCOPES)%nat /\
  (forall k l, scopes (evict fuel s) !! k = Some l -> scopes s !! k = Some l).
Proof.
  revert s. induction fuel as [|fuel IH]; intros s Hlen Hb; cbn [evict].
  { assert (lru s = []) as E by (apply nil_length_inv; lia).
    split; [done|]. split; [|done]. rewrite bounded_no_keys by done. unfold MAX_SCOPES. lia. }
  destruct (Nat.leb_spec MAX_SCOPES (size (scopes s))) as [Hfull|Hroom]; [|done].
  destruct (lru s) as [|k rest] eqn:E.
  { rewrite (bounded_no_keys _ Hb E) in Hfull. unfold MAX_SCOPES in Hfull. lia. }
  destruct Hb as [Hn Hk Hs He]. rewrite E in Hn, Hk. apply NoDup_cons in Hn as [Hnk Hn].
  destruct (IH (mkReplay (delete k (scopes s)) rest)) as (Hb' & Hsz & Hsub).
  - cbn [lru length] in *. lia.
  - split; cbn [lru scopes]; [done| | |].
    + intros j. destruct (decide (j = k)) as [->|Hd].
      * rewrite lookup_delete_eq. split; [done|by intros []].
      * rewrite lookup_delete_ne, <-Hk by done. set_solver.
    + rewrite map_size_delete. case_match; cbn; lia.
    + intros j l [_ Hj]%lookup_delete_Some. by eapply He.
  - split; [done|]. split; [done|]. intros j l Hj%Hsub. cbn in Hj.
    by apply lookup_delete_Some in Hj as [_ Hj].
Qed.

(** [begin_scope]: the scope is there, new when it was not; other scopes are kept or evicted. *)
Lemma begin_spec s k :
  bounded s ->
  bounded (begin_scope s k) /\
  scopes (begin_scope s k) !! k = Some (default scope_new (scopes s !! k)) /\
  (forall j l, j <> k -> scopes (begin_scope s k) !! j = Some l -> scopes s !! j = Some l).
Proof.
  intros Hb. unfold begin_scope. destruct (scopes s !! k) as [l|] eqn:E.
  { rewrite touch_scopes. split; [by apply bounded_touch|]. by rewrite E. }
  destruct (evict_spec (length (lru s)) s) as (Hb' & Hroom & Hsub); [done|done|].
  set (s' := evict _ s) in *. cbv zeta. destruct Hb' as [Hn Hk Hs He].
  assert (scopes s' !! k = None) as Hnone.
  { destruct (scopes s' !! k) as [l|] eqn:E'; [|done]. apply Hsub in E'. congruence. }
  split; [|split; cbn [scopes]].
  - split; cbn [scopes lru].
    + apply NoDup_app. split; [done|]. split; [|apply NoDup_singleton].
      intros j Hj ->%list_elem_of_singleton. apply Hk in Hj as [? Hj]. congruence.
    + intros j. rewrite elem_of_app, list_elem_of_singleton, Hk.
      destruct (decide (j = k)) as [->|Hd];
        [rewrite lookup_insert_eq; naive_solver|rewrite lookup_insert_ne by done; naive_solver].
    + rewrite map_size_insert, Hnone. lia.
    + intros j l [[<- <-]|[_ Hj]]%lookup_insert_Some; [cbn; lia|by eapply He].
  - by rewrite lookup_insert_eq.
  - intros j l Hd. rewrite lookup_insert_ne by done. apply Hsub.
Qed.

Lemma drop_front_length fuel l :
  (length (events l) <= fuel + MAX_EVENTS_PER_SCOPE)%nat ->
  (length (events (drop_front fuel l)) <= MAX_EVENTS_PER_SCOPE)%nat.
Proof.
  revert l. induction fuel as [|fuel IH]; intros l Hl; cbn [drop_front]; [lia|].
  destruct (Nat.ltb_spec MAX_EVENTS_PER_SCOPE (length (events l))) as [Hlt|Hle]; [|done].
  destruct (events l) as [|d rest] eqn:E; [cbn [length] in Hlt; lia|].
  apply IH. cbn [events length] in *. lia.
Qed.

Lemma push_domain l v n : domain (push l v n) = domain l.
Proof.
  unfold push. cbv zeta. set (l' := mkLog _ _ _ _ _). change (domain l) with (domain l').
  generalize (length (events l')). intros fuel. generalize l'. clear.
  induction fuel as [|fuel IH]; intros l; cbn [drop_front]; [done|].
  destruct (_ <? _)%nat; [|done]. destruct (events l); [done|]. by rewrite IH.
Qed.

Lemma push_length l v n : (length (events (push l v n)) <= MAX_EVENTS_PER_SCOPE)%nat.
Proof. apply drop_front_length. lia. Qed.

(** Every operation of the log keeps its memory bounded. *)
Lemma bounded_bind s k d : bounded s -> bounded (bind_domain s k d).
Proof.
  intros Hb. apply bounded_update; [|by apply begin_spec].
  intros l _ Hl. destruct (decide _); [done|cbn [events length]; lia].
Qed.

Lemma bounded_note_snapshot s k b : bounded s -> bounded (note_snapshot s k b).
Proof.
  intros Hb. apply bounded_update; [|by apply begin_spec].
  intros l _ Hl. unfold note_snapshot_log. by destruct (discarded l).
Qed.

Lemma bounded_note_empty s k : bounded s -> bounded (note_empty s k).
Proof.
  intros Hb. apply bounded_update; [|by apply begin_spec].
  intros l _ Hl. unfold note_empty_log. by destruct (discarded l).
Qed.

Lemma bounded_record s k n : bounded s -> bounded (record s k n).
Proof.
  intros Hb. unfold record. destruct (scopes s !! k); [|done]. destruct (version_of n).
  - apply bounded_touch, bounded_update; [|done]. intros. apply push_length.
  - apply bounded_update; [|done]. intros. cbn [events invalidate length]. lia.
Qed.

(** ** The log beside the changes that were applied *)

(** The state of the log, with what it is a cache of: per scope, the changes applied to the
    current incarnation of the table (oldest first) and the version domain of that incarnation. *)
Record World := mkWorld {
  replay : ReplayState;
  hist : ScopeKey -> History;
  cur : ScopeKey -> option Version.VersionDomain
}.

(** Calls of the log by the notifier ([W_record]) and by subscriptions, and the recreation of a
    table, which starts a new version domain.  A snapshot has read the table when [seen] was applied;
    the boundary it notes is at least the version of each of these changes, which the maximum version of an
    unfiltered snapshot is, and the changes applied [later], before it noted the boundary, are in
    the log, because the scope was tracked when the snapshot was read.  The code does not enforce the
    first condition: a filtered snapshot notes less, see [filtered_snapshot_loses_changes]. *)
Inductive wstep : World -> World -> Prop :=
| W_record w k n v :
    version_of n = Some v -> increasing (hist w k ++ [mkEvent v n]) ->
    wstep w (mkWorld (record (replay w) k n) (<[k := hist w k ++ [mkEvent v n]]> (hist w)) (cur w))
| W_unversioned w k n :
    version_of n = None -> wstep w (mkWorld (record (replay w) k n) (hist w) (cur w))
| W_bind w k : wstep w (mkWorld (bind_domain (replay w) k (cur w k)) (hist w) (cur w))
| W_snapshot w k boundary seen later :
    hist w k = seen ++ later -> Forall (fun e => version e <= boundary) seen ->
    (forall l, scopes (begin_scope (replay w) k) !! k = Some l -> domain l = cur w k ->
       later `suffix_of` events l) ->
    wstep w (mkWorld (note_snapshot (replay w) k boundary) (hist w) (cur w))
| W_empty w k : wstep w (mkWorld (note_empty (replay w) k) (hist w) (cur w))
| W_recreate w k d :
    (forall l, scopes (replay w) !! k = Some l -> domain l <> d) ->
    wstep w (mkWorld (replay w) (<[k := []]> (hist w)) (<[k := d]> (cur w))).

Definition world_new (d : ScopeKey -> option Version.VersionDomain) : World :=
  mkWorld replay_new (fun _ => []) d.

Definition log_reachable (w : World) : Prop := exists d, rtc wstep (world_new d) w.

Record world_ok (w : World) : Prop := {
  ok_bounded : bounded (replay w);
  ok_increasing : forall k, increasing (hist w k);
  ok_logs : forall k l, scopes (replay w) !! k = Some l -> domain l = cur w k -> scope_log_ok (hist w k) l
}.

(** The logs after an update of one scope that was begun first. *)
Lemma begun_logs_ok w k f :
  world_ok w ->
  (forall l, scopes (begin_scope (replay w) k) !! k = Some l -> domain (f l) = cur w k ->
     (domain l = cur w k -> scope_log_ok (hist w k) l) -> scope_log_ok (hist w k) (f l)) ->
  forall j l, scopes (update_scope (begin_scope (replay w) k) k f) !! j = Some l ->
    domain l = cur w j -> scope_log_ok (hist w j) l.
Proof.
  intros [Hb Hi Hl] Hf j l. destruct (begin_spec (replay w) k Hb) as (_ & Hk & Ho).
  cbn [update_scope scopes]. destruct (decide (j = k)) as [->|Hd].
  - rewrite lookup_alter_eq, Hk. cbn. intros [= <-] Hdom. apply Hf; [done|done|].
    intros Hdom'. destruct (scopes (replay w) !! k) as [l0|] eqn:E; cbn in *; [by apply Hl|].
    by apply log_ok_new.
  - rewrite lookup_alter_ne by done. intros Hj%Ho; [|done]. by apply Hl.
Qed.

Lemma record_logs_ok w k n v :
  world_ok w -> version_of n = Some v -> increasing (hist w k ++ [mkEvent v n]) ->
  forall j l, scopes (record (replay w) k n) !! j = Some l -> domain l = cur w j ->
    scope_log_ok (<[k := hist w k ++ [mkEvent v n]]> (hist w) j) l.
Proof.
  intros [Hb Hi Hl] Hv Hinc j l. unfold record. rewrite Hv.
  destruct (scopes (replay w) !! k) as [l0|] eqn:E.
  - rewrite touch_scopes. cbn [update_scope scopes]. destruct (decide (j = k)) as [->|Hd].
    + rewrite lookup_alter_eq, E, fn_lookup_insert. cbn [fmap option_fmap option_map]. intros [= <-].
      intros Hdom. assert (domain (push l0 v n) = domain l0) as Hpd by apply push_domain.
      rewrite Hpd in Hdom. apply push_ok; [by apply Hl|done].
    + rewrite lookup_alter_ne, fn_lookup_insert_ne by done. apply Hl.
  - intros Hj. assert (j <> k) by (intros ->; congruence). rewrite fn_lookup_insert_ne by done. by apply Hl.
Qed.

Lemma wstep_ok w w' : world_ok w -> wstep w w' -> world_ok w'.
Proof.
  intros Hw Hs. destruct Hs as [w k n v Hv Hinc|w k n Hv|w k|w k b seen later Hh Hseen Hlater|w k|w k d Hd];
    split; cbn [replay hist cur].
  all: try (by apply bounded_record, Hw); try (by apply bounded_bind, Hw);
    try (by apply bounded_note_snapshot, Hw); try (by apply bounded_note_empty, Hw);
    try (intros; by apply Hw).
  - intros j. destruct (decide (j = k)) as [->|Hjk];
      [by rewrite fn_lookup_insert|rewrite fn_lookup_insert_ne by done; apply Hw].
  - by apply record_logs_ok.
  - intros j l. unfold record. rewrite Hv. destruct (scopes (replay w) !! k) as [l0|] eqn:E;
      [|intros; by apply Hw].
    cbn [update_scope scopes]. destruct (decide (j = k)) as [->|Hjk].
    + rewrite lookup_alter_eq, E. cbn. intros [= <-] _. apply invalidate_ok.
    + rewrite lookup_alter_ne by done. intros; by apply Hw.
  - apply begun_logs_ok; [done|]. intros l Hl Hdom Hok. cbn beta in *.
    destruct (decide (domain l = cur w k)); [by apply Hok|]. apply log_ok_new, Hw.
  - apply begun_logs_ok; [done|]. intros l Hl Hdom Hok.
    assert (domain (note_snapshot_log l b) = domain l) as E
      by (unfold note_snapshot_log; by destruct (discarded l)).
    rewrite E in Hdom. apply note_snapshot_ok; [by apply Hok|]. eapply snapshot_boundary; eauto.
  - apply begun_logs_ok; [done|]. intros l Hl Hdom Hok. apply note_empty_ok, Hok.
    unfold note_empty_log in Hdom. by destruct (discarded l).
  - intros j. destruct (decide (j = k)) as [->|Hjk];
      [rewrite fn_lookup_insert; constructor|rewrite fn_lookup_insert_ne by done; apply Hw].
  - intros j l Hj. destruct (decide (j = k)) as [->|Hjk];
      [rewrite !fn_lookup_insert|rewrite !fn_lookup_insert_ne by done].
    + intros Hdom. by destruct (Hd l Hj).
    + by apply Hw.
Qed.

Lemma log_reachable_ok w : log_reachable w -> world_ok w.
Proof.
  intros [d Hr]. assert (world_ok (world_new d)) as H0.
  { split; cbn; [apply bounded_new|intros; constructor|]. intros k l. by rewrite lookup_empty. }
  revert H0. induction Hr as [|w1 w2 w3 Hs _ IH]; [done|]. intros Hw.
  apply IH. by eapply wstep_ok.
Qed.

Lemma changes_after_ok s k l h from :
  scopes s !! k = Some l -> scope_log_ok h l -> covers_log l from = true ->
  changes_after s k from = Some (notification <$> newer from h).
Proof.
  intros Hl Hok Hc. unfold changes_after. rewrite Hl, Hc. f_equal. unfold changes_after_log.
  f_equal. symmetry. by apply log_ok_complete.
Qed.

(** A subscription that has bound its scope finds a complete log for the current incarnation. *)
Lemma bound_scope w k :
  world_ok w -> exists l, scopes (bind_domain (replay w) k (cur w k)) !! k = Some l /\
    domain l = cur w k /\ scope_log_ok (hist w k) l.
Proof.
  intros Hw. pose proof (wstep_ok _ _ Hw (W_bind w k)) as [_ _ Hl]. cbn [replay hist cur] in Hl.
  destruct (begin_spec (replay w) k (ok_bounded _ Hw)) as (_ & Hk & _).
  unfold bind_domain in *. cbn [update_scope scopes] in *.
  specialize (Hl k). rewrite lookup_alter_eq, Hk in *. cbn [fmap option_fmap option_map] in *.
  eexists. split; [done|]. assert (forall l, domain (if decide (domain l = cur w k) then l
    else mkLog (cur w k) None false false []) = cur w k) as Hd by (intros l; by destruct (decide (domain l = cur w k))).
  split; [apply Hd|]. apply Hl; [done|apply Hd].
Qed.


(** What the callers of the log can do to it, with no assumption on them. *)
Inductive log_op :=
| OpBind (k : ScopeKey) (d : option Version.VersionDomain)
| OpSnapshot (k : ScopeKey) (boundary : Z)
| OpEmpty (k : ScopeKey)
| OpRecord (k : ScopeKey) (n : ChangeNotification).

Definition run_log_op (s : ReplayState) (o : log_op) : ReplayState :=
  match o with
  | OpBind k d => bind_domain s k d
  | OpSnapshot k b => note_snapshot s k b
  | OpEmpty k => note_empty s k
  | OpRecord k n => record s k n
  end.

(** The memory of the log is bounded: whatever sequence of calls it serves, it tracks at most
    64 scopes of at most 16,384 changes each, and its recency list names every tracked scope
    exactly once (so the oldest scope can always be evicted). *)
Theorem replay_memory_bounded ops :
  let s := foldl run_log_op replay_new ops in
  (size (scopes s) <= 64)%nat /\
  (forall k l, scopes s !! k = Some l -> (length (events l) <= 2 ^ 14)%nat) /\
  NoDup (lru s) /\ (forall k, k ∈ lru s <-> is_Some (scopes s !! k)).
Proof.
  cbv zeta. assert (bounded (foldl run_log_op replay_new ops)) as [H1 H2 H3 H4].
  { pose proof bounded_new as H0. revert H0. generalize replay_new.
    induction ops as [|o ops IH]; intros s Hs; [done|]. cbn [foldl]. apply IH.
    destruct o; [by apply bounded_bind|by apply bounded_note_snapshot|
                 by apply bounded_note_empty|by apply bounded_record]. }
  done.
Qed.

(** A recreated table never inherits an earlier buffer: binding a scope to another version
    domain expires every cursor, the ones the log covered a moment ago included. *)
Theorem new_domain_expires_cursors s k l d from :
  scopes s !! k = Some l -> domain l <> d ->
  classify_cursor (bind_domain s k d) k from = Expired /\
  changes_after (bind_domain s k d) k from = None.
Proof.
  intros Hl Hd. unfold classify_cursor, changes_after, bind_domain, begin_scope. rewrite Hl.
  cbn [update_scope scopes]. rewrite touch_scopes, lookup_alter_eq, Hl.
  cbn [fmap option_fmap option_map]. by rewrite decide_False.
Qed.

(** The boundary of a filtered snapshot makes the log accept cursors it does not cover.  The
    boundary a subscription notes is the maximum version of the rows {i its own query} returns, so
    it can lie below changes that were applied before the scope was tracked; the log is shared by
    all subscriptions of the table and takes the minimum.  From then on every cursor above that
    boundary is classified [Replay], and the changes before tracking are silently left out. *)
Theorem filtered_snapshot_loses_changes w k l missed e boundary from :
  scopes (replay w) !! k = Some l -> discarded l = false -> hist w k = missed ++ events l ->
  e ∈ missed -> boundary <= from < version e ->
  let s := note_snapshot (replay w) k boundary in
  classify_cursor s k from = Replay /\
  exists out, changes_after s k from = Some out /\
    (length out < length (newer from (hist w k)))%nat.
Proof.
  intros Hl Hd Hh He [Hb Hv]. cbv zeta. unfold classify_cursor, changes_after, note_snapshot, begin_scope.
  rewrite Hl. cbn [update_scope scopes]. rewrite touch_scopes, lookup_alter_eq, Hl.
  cbn [fmap option_fmap option_map]. unfold note_snapshot_log. rewrite Hd.
  assert (forall b f ev, b <= from -> covers_log (mkLog (domain l) (Some b) f false ev) from = true)
    as Hc by (intros; unfold covers_log; cbn; by apply Z.leb_le).
  assert (match covered_from l with Some f => Z.min f boundary | None => boundary end <= from) as Hm
    by (destruct (covered_from l); lia).
  rewrite Hc by done. split; [done|]. eexists. split; [done|].
  unfold changes_after_log, newer. rewrite length_fmap, Hh, filter_app, length_app.
  cbn [events]. assert (e ∈ filter (fun e => from < version e) missed) as Hin
    by (apply list_elem_of_filter; split; [lia|done]).
  destruct (filter _ missed); [by apply elem_of_nil in Hin|]. cbn [length]. lia.
Qed.

(** ** Witnesses *)

Module LiveReplayWitness.

Definition t0 : TableId := mkTableId "app" "notes".
Definition k0 : ScopeKey := mkScope None t0.
Definition d0 : Version.VersionDomain := Version.mkDomain "h1" t0 1 None.
Definition d1 : Version.VersionDomain := Version.mkDomain "h2" t0 1 None.
Definition chg (v : Z) : ChangeNotification :=
  mkChange ChangeInsert t0 {[ VERSION := Int64 (Some v) ]} None None ["id"] None.

(** Change 5 is applied before anyone subscribes; a subscription binds the scope and notes its
    boundary; changes 6 and 7 follow. *)
Definition w0 : World := world_new (fun _ => Some d0).
Definition w1 : World :=
  mkWorld (record (replay w0) k0 (chg 5)) (<[k0 := hist w0 k0 ++ [mkEvent 5 (chg 5)]]> (hist w0)) (cur w0).
Definition w2 : World := mkWorld (bind_domain (replay w1) k0 (cur w1 k0)) (hist w1) (cur w1).
Definition w3 : World := mkWorld (note_snapshot (replay w2) k0 5) (hist w2) (cur w2).
Definition w4 : World :=
  mkWorld (record (replay w3) k0 (chg 6)) (<[k0 := hist w3 k0 ++ [mkEvent 6 (chg 6)]]> (hist w3)) (cur w3).

Lemma hist_w1 : hist w1 k0 = [mkEvent 5 (chg 5)].
Proof. vm_compute. reflexivity. Qed.

Lemma hist_w4 : hist w4 k0 = [mkEvent 5 (chg 5); mkEvent 6 (chg 6)].
Proof. vm_compute. reflexivity. Qed.

Lemma w2_reachable : log_reachable w2.
Proof.
  exists (fun _ => Some d0). eapply rtc_l.
  { apply (W_record w0 k0 (chg 5) 5); [vm_compute; reflexivity|repeat constructor]. }
  eapply rtc_l; [apply (W_bind w1 k0)|]. apply rtc_refl.
Qed.

Lemma w4_reachable : log_reachable w4.
Proof.
  destruct w2_reachable as [d Hr]. exists d. etrans; [exact Hr|].
  eapply rtc_l.
  { apply (W_snapshot w2 k0 5 (hist w2 k0) []); [by rewrite app_nil_r| |by intros; apply suffix_nil].
    change (hist w2 k0) with (hist w1 k0). rewrite hist_w1. repeat constructor; cbn; lia. }
  eapply rtc_l; [|apply rtc_refl].
  apply (W_record w3 k0 (chg 6) 6); [vm_compute; reflexivity|].
  change (hist w3 k0) with (hist w1 k0). rewrite hist_w1.
  by repeat (constructor; [|repeat constructor; cbn; lia]); repeat constructor.
Qed.


Lemma new_domain_expires_cursors_witness :
  classify_cursor (replay w4) k0 5 = Replay /\
  classify_cursor (bind_domain (replay w4) k0 (Some d1)) k0 5 = Expired.
Proof.
  split; [vm_compute; reflexivity|].
  eapply (fun l H1 H2 => proj1 (new_domain_expires_cursors (replay w4) k0 l (Some d1) 5 H1 H2));
    [vm_compute; reflexivity|]. vm_compute. intros [=].
Defined.

(** A subscription whose query returns no row above version 3 notes 3 as its boundary. *)
Lemma filtered_snapshot_loses_changes_witness :
  log_reachable w2 /\ classify_cursor (note_snapshot (replay w2) k0 3) k0 4 = Replay /\
  exists out, changes_after (note_snapshot (replay w2) k0 3) k0 4 = Some out /\
    (length out < 1)%nat.
Proof.
  split; [exact w2_reachable|].
  change 1%nat with (length (newer 4 [mkEvent 5 (chg 5)])). rewrite <-hist_w1.
  change (hist w1 k0) with (hist w2 k0).
  refine (filtered_snapshot_loses_changes w2 k0 (mkLog (Some d0) None false false [])
    [mkEvent 5 (chg 5)] (mkEvent 5 (chg 5)) 3 4 _ _ _ _ _).
  - vm_compute. reflexivity.
  - reflexivity.
  - change (hist w2 k0) with (hist w1 k0). by rewrite hist_w1.
  - by apply list_elem_of_singleton.
  - cbn. lia.
Defined.

End LiveReplayWitness.
