(* ===== verification/LiveFlow.v ===== *)
(** * LiveFlow: hand-over from snapshot to live changes

    Model of kalamdb-live/src/models/connection.rs ([SubscriptionFlowControl], [Gate],
    [SubscriptionRuntimeMetadata], [complete_initial_load]) and of the delivery functions
    [signal_lapse] and [try_deliver] of kalamdb-live/src/notification.rs.

    Two threads work on one subscription: the worker that dispatches the changes of the table, and
    the connection, which sets the snapshot boundary, replays changes on a resume and finally hands
    the catch-up buffer over.  Each load of an atomic, each section under the gate mutex and each
    channel send is one step; the loop of [finish] holds the mutex between its sends.  The channel
    is tokio's: a parameter of the model with the one law that a closed channel stays closed. *)

From Stdlib Require Import ZArith Lia Sorting.Sorted.
From stdpp Require Import base list relations strings.
From S2P Require Import Prelude.

Open Scope Z_scope.

Definition MAX_SUBSCRIPTIONS_PER_CONNECTION : nat := 100.
Definition NOTIFICATION_CHANNEL_CAPACITY : nat := (2 ^ 13)%nat.
Definition EVENT_CHANNEL_CAPACITY : nat := (MAX_SUBSCRIPTIONS_PER_CONNECTION + 8)%nat.
Definition MAX_BUFFERED_NOTIFICATIONS_PER_SUBSCRIPTION : nat := (2 ^ 10)%nat.

Inductive Accept := Stored | Covered | Sent | Closed | Failed.

Inductive Phase := PHASE_CATCHUP | PHASE_LIVE | PHASE_FAILED.

#[export] Instance Phase_eq_dec : EqDecision Phase.
Proof. solve_decision. Defined.

(** [Result<(), TrySendError<_>>]. *)
Inductive Sending := SendOk | SendFull | SendClosed.

(** tokio's bounded channel, as a sender sees it.  [try_send] fails with [Closed] exactly when the
    receiver is gone, and the receiver never comes back. *)
Class NotificationChannel (W : Type) := {
  Chan : Type;
  try_send : Chan -> W -> Sending * Chan;
  chan_closed : Chan -> bool;
  try_send_closed : forall c w r c', try_send c w = (r, c') ->
    (r = SendClosed <-> chan_closed c = true) /\ chan_closed c' = chan_closed c
}.

(** ** Delivery metadata of a subscription *)

Record RuntimeMetadata := mkMeta {
  last_update_ms : Z;
  changes : Z;
  delivery_gapped : bool
}.

Definition meta_new (created_at_ms : Z) : RuntimeMetadata := mkMeta created_at_ms 0 false.

(** The compare-exchange succeeds once. *)
Definition claim_gap (m : RuntimeMetadata) : bool * RuntimeMetadata :=
  if delivery_gapped m then (false, m) else (true, mkMeta (last_update_ms m) (changes m) true).

Definition is_gapped (m : RuntimeMetadata) : bool := delivery_gapped m.

Definition record_delivery_at (m : RuntimeMetadata) (epoch_millis : Z) : RuntimeMetadata :=
  mkMeta (u64_as_i64 epoch_millis) (u64_as_i64 (wrap64 (changes m + 1))) (delivery_gapped m).

(** ** Flow control *)

Section Flow.
Context {W : Type} `{NC : NotificationChannel W}.

Record BufferedNotification := mkBuffered { seq : option Z; b_notification : W }.

Record Gate := mkGate { snapshot_end : option Z; pending : list BufferedNotification }.

Record FlowControl := mkFlow { phase : Phase; gate : Gate }.

Definition flow_new : FlowControl := mkFlow PHASE_CATCHUP (mkGate None []).

Definition store_phase (f : FlowControl) (p : Phase) : FlowControl := mkFlow p (gate f).

(** [item.seq.is_none_or(|version| version.as_i64() > end)]. *)
Definition after_end (end_ : Z) (i : BufferedNotification) : bool :=
  match seq i with None => true | Some v => end_ <? v end.

Definition set_snapshot_end_seq (f : FlowControl) (snapshot_end_seq : option Z) : FlowControl :=
  mkFlow (phase f)
    (mkGate snapshot_end_seq
       (match snapshot_end_seq with
        | Some e => filter (fun i => after_end e i) (pending (gate f))
        | None => pending (gate f)
        end)).

(** Some stored change already carries this version. *)
Definition has_seq (l : list BufferedNotification) (s : option Z) : bool :=
  match s with
  | Some v => existsb (fun i => bool_decide (seq i = Some v)) l
  | None => false
  end.

Definition queue_change (g : Gate) (w : W) (s : option Z) : Accept * Gate :=
  if match snapshot_end g, s with Some e, Some v => v <=? e | _, _ => false end then (Covered, g)
  else if has_seq (pending g) s then (Stored, g)
  else if (MAX_BUFFERED_NOTIFICATIONS_PER_SUBSCRIPTION <=? length (pending g))%nat then
    (Failed, mkGate (snapshot_end g) [])
  else (Stored, mkGate (snapshot_end g) (pending g ++ [mkBuffered s w])).

Definition send_live (f : FlowControl) (w : W) (tx : Chan) : Accept * FlowControl * Chan :=
  match try_send tx w with
  | (SendOk, tx') => (Sent, f, tx')
  | (SendFull, tx') => (Failed, store_phase f PHASE_FAILED, tx')
  | (SendClosed, tx') => (Closed, f, tx')
  end.

(** [accept] from its first load on; [loaded] is the phase that load returned, [f] the state when
    the thread goes on (and holds the mutex, unless it saw a final phase). *)
Definition accept_loaded (loaded : Phase) (f : FlowControl) (w : W) (s : option Z) (tx : Chan) :
    Accept * FlowControl * Chan :=
  match loaded with
  | PHASE_FAILED => (Failed, f, tx)
  | PHASE_LIVE => send_live f w tx
  | PHASE_CATCHUP =>
      match phase f with
      | PHASE_FAILED => (Failed, f, tx)
      | PHASE_LIVE => send_live f w tx
      | PHASE_CATCHUP =>
          let '(result, g) := queue_change (gate f) w s in
          match result with
          | Failed => (result, mkFlow PHASE_FAILED g, tx)
          | _ => (result, mkFlow (phase f) g, tx)
          end
      end
  end.

Definition accept (f : FlowControl) (w : W) (s : option Z) (tx : Chan) : Accept * FlowControl * Chan :=
  accept_loaded (phase f) f w s tx.

(** The comparison of [take_pending]: by version, changes without a version last. *)
Definition seq_le (a b : BufferedNotification) : bool :=
  match seq a, seq b with
  | Some x, Some y => x <=? y
  | Some _, None => true
  | None, Some _ => false
  | None, None => true
  end.

(** The stable sort of [take_pending]. *)
Definition take_pending (l : list BufferedNotification) : list BufferedNotification :=
  sort_by seq_le l.

(** One turn of the loop of [finish]. *)
Inductive Turn := NextTurn (sent : nat) | Returned (r : Result unit nat).

Definition finish_turn (f : FlowControl) (tx : Chan) (item : BufferedNotification) (sent : nat) :
    Turn * FlowControl * Chan :=
  let '(result, f', tx') := send_live f (b_notification item) tx in
  match result with
  | Sent => (NextTurn (S sent), f', tx')
  | Failed => (Returned (Err tt), f', tx')
  | Closed => (Returned (Ok sent), store_phase f' PHASE_FAILED, tx')
  | Stored | Covered => (NextTurn sent, f', tx')
  end.

Fixpoint finish_loop (f : FlowControl) (tx : Chan) (items : list BufferedNotification) (sent : nat) :
    Result unit nat * FlowControl * Chan :=
  match items with
  | [] => (Ok sent, store_phase f PHASE_LIVE, tx)
  | item :: rest =>
      match finish_turn f tx item sent with
      | (NextTurn sent', f', tx') => finish_loop f' tx' rest sent'
      | (Returned r, f', tx') => (r, f', tx')
      end
  end.

Definition drain (f : FlowControl) : FlowControl :=
  mkFlow (phase f) (mkGate (snapshot_end (gate f)) []).

Definition finish (f : FlowControl) (tx : Chan) : Result unit nat * FlowControl * Chan :=
  match phase f with
  | PHASE_FAILED => (Err tt, f, tx)
  | _ => finish_loop (drain f) tx (take_pending (pending (gate f))) 0
  end.

Definition mark_initial_complete (f : FlowControl) : FlowControl := store_phase (drain f) PHASE_LIVE.

Definition flow_is_gapped (f : FlowControl) : bool := bool_decide (phase f = PHASE_FAILED).

Definition buffer_notification (f : FlowControl) (w : W) (s : option Z) : FlowControl :=
  let '(result, g) := queue_change (gate f) w s in
  match result with Failed => mkFlow PHASE_FAILED g | _ => mkFlow (phase f) g end.

Definition drain_buffered_notifications (f : FlowControl) : list BufferedNotification * FlowControl :=
  (take_pending (pending (gate f)), drain f).

Definition release_buffer (f : FlowControl) : FlowControl := drain f.

(** ** Delivery to one subscription *)

(** What a [SubscriptionHandle] shares with the subscription: flow control, metadata, both
    channels.  [lapses] counts the [SubscriptionLapsed] events given to the event channel. *)
Record Delivery := mkDelivery {
  flow_control : option FlowControl;
  runtime_metadata : RuntimeMetadata;
  notification_tx : Chan;
  lapses : nat
}.

Definition signal_lapse (h : Delivery) : Delivery :=
  let '(claimed, m) := claim_gap (runtime_metadata h) in
  if claimed then mkDelivery (flow_control h) m (notification_tx h) (S (lapses h)) else h.

(** What [try_deliver] does with the answer of [accept]. *)
Definition after_accept (h : Delivery) (result : Accept) (now : Z) : bool * Delivery :=
  match result with
  | Stored | Covered => (false, h)
  | Sent => (true, mkDelivery (flow_control h) (record_delivery_at (runtime_metadata h) now)
                     (notification_tx h) (lapses h))
  | Closed => (false, h)
  | Failed => (false, signal_lapse h)
  end.

Definition try_deliver (h : Delivery) (w : W) (s : option Z) (now : Z) : bool * Delivery :=
  if is_gapped (runtime_metadata h) then (false, h)
  else match flow_control h with
       | Some f =>
           let '(result, f', tx') := accept f w s (notification_tx h) in
           after_accept (mkDelivery (Some f') (runtime_metadata h) tx' (lapses h)) result now
       | None =>
           let '(r, tx') := try_send (notification_tx h) w in
           let h' := mkDelivery None (runtime_metadata h) tx' (lapses h) in
           match r with
           | SendOk => (true, mkDelivery None (record_delivery_at (runtime_metadata h) now) tx' (lapses h))
           | SendClosed => (false, h')
           | SendFull => (false, signal_lapse h')
           end
       end.

Definition complete_initial_load (h : Delivery) (now : Z) : nat * Delivery :=
  match flow_control h with
  | None => (0%nat, h)
  | Some f =>
      let '(r, f', tx') := finish f (notification_tx h) in
      match r with
      | Ok sent =>
          (sent, mkDelivery (Some f')
                   (Nat.iter sent (fun m => record_delivery_at m now) (runtime_metadata h)) tx' (lapses h))
      | Err _ => (0%nat, signal_lapse (mkDelivery (Some f') (runtime_metadata h) tx' (lapses h)))
      end
  end.

(** ** What the catch-up buffer should hold *)

(** Above the boundary; a change without a version always is. *)
Definition above (b : option Z) (i : BufferedNotification) : bool :=
  match b with Some e => after_end e i | None => true end.

Definition add_new (acc : list BufferedNotification) (i : BufferedNotification) :
    list BufferedNotification :=
  if has_seq acc (seq i) then acc else acc ++ [i].

(** Of the changes offered, in order: those above the boundary, the first of each version. *)
Definition catchup_spec (b : option Z) (offered : list BufferedNotification) :
    list BufferedNotification :=
  foldl add_new [] (filter (fun i => above b i) offered).

Lemma has_seq_spec l v : has_seq l (Some v) = true <-> exists i, i ∈ l /\ seq i = Some v.
Proof.
  cbn [has_seq]. rewrite existsb_exists. split.
  - intros (i & Hi & Hs%bool_decide_eq_true). exists i. split; [by apply list_elem_of_In|done].
  - intros (i & Hi%list_elem_of_In & Hs). exists i. split; [done|]. by apply bool_decide_eq_true.
Qed.

Lemma above_seq b i j : seq i = seq j -> above b i = above b j.
Proof. intros H. unfold above, after_end. by rewrite H. Qed.

Lemma has_seq_filter b l i :
  above b i = true -> has_seq (filter (fun j => above b j) l) (seq i) = has_seq l (seq i).
Proof.
  intros Ha. destruct (seq i) as [v|] eqn:Hs; [|done]. apply eq_true_iff_eq.
  rewrite !has_seq_spec. split; intros (j & Hj & Hv); exists j; (split; [|done]).
  - by apply list_elem_of_filter in Hj as [_ Hj].
  - apply list_elem_of_filter. split; [|done]. rewrite (above_seq b j i) by congruence.
    by rewrite Ha.
Qed.

Lemma filter_above_one b i :
  filter (fun j => above b j) [i] = if above b i then [i] else [].
Proof.
  destruct (above b i) eqn:Ha;
    [rewrite filter_cons_True by (cbv beta; by rewrite Ha)|
     rewrite filter_cons_False by (cbv beta; rewrite Ha; by intros [])]; done.
Qed.

(** Raising the boundary over a buffer drops what it now covers, nothing else. *)
Lemma add_new_filter b acc i :
  filter (fun j => above b j) (add_new acc i) =
  if above b i then add_new (filter (fun j => above b j) acc) i else filter (fun j => above b j) acc.
Proof.
  unfold add_new. destruct (above b i) eqn:Ha.
  - rewrite has_seq_filter by done. destruct (has_seq acc (seq i)); [done|].
    by rewrite filter_app, filter_above_one, Ha.
  - destruct (has_seq acc (seq i)); [done|].
    by rewrite filter_app, filter_above_one, Ha, app_nil_r.
Qed.

Lemma catchup_spec_filter b l :
  filter (fun j => above b j) (catchup_spec None l) = catchup_spec b l.
Proof.
  unfold catchup_spec. rewrite (filter_all (fun i => above None i)) by done.
  induction l as [|i l IH] using rev_ind; [done|].
  rewrite foldl_app. cbn [foldl]. rewrite add_new_filter, IH, filter_app, filter_above_one.
  destruct (above b i); [by rewrite foldl_app|by rewrite app_nil_r].
Qed.

Lemma catchup_spec_snoc b l i :
  catchup_spec b (l ++ [i]) =
  if above b i then add_new (catchup_spec b l) i else catchup_spec b l.
Proof.
  unfold catchup_spec. rewrite filter_app, filter_above_one.
  destruct (above b i); [by rewrite foldl_app|by rewrite app_nil_r].
Qed.

(** [queue_change] keeps the buffer equal to its specification. *)
Lemma queue_change_spec b l w s r g :
  queue_change (mkGate b (catchup_spec b l)) w s = (r, g) ->
  snapshot_end g = b /\
  ((r = Stored \/ r = Covered) /\ pending g = catchup_spec b (l ++ [mkBuffered s w]) \/
   r = Failed /\ pending g = []).
Proof.
  unfold queue_change. cbn [snapshot_end pending]. rewrite catchup_spec_snoc.
  assert (above b (mkBuffered s w) =
    negb match b, s with Some e, Some v => v <=? e | _, _ => false end) as ->.
  { destruct b as [e|], s as [v|]; cbn; [|done..]. by rewrite Z.leb_antisym, negb_involutive. }
  destruct (match b, s with Some e, Some v => v <=? e | _, _ => false end); cbn [negb].
  { intros [= <- <-]. naive_solver. }
  unfold add_new. cbn [seq]. destruct (has_seq (catchup_spec b l) s).
  { intros [= <- <-]. naive_solver. }
  destruct (_ <=? _)%nat; intros [= <- <-]; naive_solver.
Qed.

Lemma queue_change_length g w s r g' :
  (length (pending g) <= MAX_BUFFERED_NOTIFICATIONS_PER_SUBSCRIPTION)%nat ->
  queue_change g w s = (r, g') ->
  (length (pending g') <= MAX_BUFFERED_NOTIFICATIONS_PER_SUBSCRIPTION)%nat.
Proof.
  intros Hl. unfold queue_change. destruct (match snapshot_end g, s with Some e, Some v => _ | _, _ => _ end);
    [by intros [= <- <-]|].
  destruct (has_seq _ _); [by intros [= <- <-]|].
  destruct (Nat.leb_spec MAX_BUFFERED_NOTIFICATIONS_PER_SUBSCRIPTION (length (pending g)));
    intros [= <- <-]; cbn [pending length]; [lia|]. rewrite length_app. cbn [length]. lia.
Qed.

(** ** The order of the hand-over *)

Lemma take_pending_perm l : take_pending l ≡ₚ l.
Proof. apply sort_by_perm. Qed.

Lemma seq_le_total a b : seq_le a b = false -> seq_le b a = true.
Proof. unfold seq_le. destruct (seq a), (seq b); try done. rewrite Z.leb_gt, Z.leb_le. lia. Qed.

Lemma seq_le_trans a b c : seq_le a b = true -> seq_le b c = true -> seq_le a c = true.
Proof. unfold seq_le. destruct (seq a), (seq b), (seq c); try done. rewrite !Z.leb_le. lia. Qed.

Definition in_order (l : list BufferedNotification) : Prop :=
  StronglySorted (fun a b => seq_le a b = true) l.

Lemma take_pending_order l : in_order (take_pending l).
Proof. apply sort_by_sorted; [apply seq_le_total|apply seq_le_trans]. Qed.

(** A buffer that is in order already is handed over as it is. *)
Lemma take_pending_sorted l : in_order l -> take_pending l = l.
Proof. apply sort_by_id. Qed.

(** ** Interleaving of the worker and the connection *)

Inductive Thread := Worker | Connection.

(** Where a thread is in [try_deliver] or [complete_initial_load]. *)
Inductive Pc :=
| Idle
| Checked (i : BufferedNotification)
| Loaded (p : Phase) (i : BufferedNotification)
| Finishing (rest : list BufferedNotification) (sent : nat)
| Lapsing.

(** The subscription and its two threads.  The last five components record what happened:
    [caught] are the changes that went through the catch-up gate, [lives] those handed to the
    channel afterwards, [dropped] those refused because delivery had failed or lapsed, [sent] what
    the channel took, all oldest first; [resume_skipped] says that a change of a resume was refused
    because the subscription had lapsed. *)
Record St := mkSt {
  fc : FlowControl;
  md : RuntimeMetadata;
  tx : Chan;
  events : nat;
  worker : Pc;
  conn : Pc;
  handed : bool;
  caught : list BufferedNotification;
  lives : list BufferedNotification;
  dropped : list BufferedNotification;
  sent : list BufferedNotification;
  resume_skipped : bool
}.

Definition st_new (created_at_ms : Z) (c : Chan) : St :=
  mkSt flow_new (meta_new created_at_ms) c 0 Idle Idle false [] [] [] [] false.

Definition pc (s : St) (t : Thread) : Pc := match t with Worker => worker s | Connection => conn s end.

Definition set_pc (s : St) (t : Thread) (p : Pc) : St :=
  mkSt (fc s) (md s) (tx s) (events s)
    (match t with Worker => p | Connection => worker s end)
    (match t with Worker => conn s | Connection => p end)
    (handed s) (caught s) (lives s) (dropped s) (sent s) (resume_skipped s).

Definition delivery (s : St) : Delivery := mkDelivery (Some (fc s)) (md s) (tx s) (events s).

(** The state after a function on [Delivery]. *)
Definition put (s : St) (d : Delivery) : St :=
  mkSt (default (fc s) (flow_control d)) (runtime_metadata d) (notification_tx d) (lapses d)
    (worker s) (conn s) (handed s) (caught s) (lives s) (dropped s) (sent s) (resume_skipped s).

(** The outcome of one offered change. *)
Definition note (s : St) (r : Accept) (i : BufferedNotification) : St :=
  let keep c l d n := mkSt (fc s) (md s) (tx s) (events s) (worker s) (conn s) (handed s) c l d n
                        (resume_skipped s) in
  match r with
  | Stored | Covered => keep (caught s ++ [i]) (lives s) (dropped s) (sent s)
  | Sent => keep (caught s) (lives s ++ [i]) (dropped s) (sent s ++ [i])
  | Closed => keep (caught s) (lives s ++ [i]) (dropped s) (sent s)
  | Failed => keep (caught s) (lives s) (dropped s ++ [i]) (sent s)
  end.

(** A change refused by the gap check of [try_deliver]. *)
Definition refuse (s : St) (t : Thread) (i : BufferedNotification) : St :=
  mkSt (fc s) (md s) (tx s) (events s) (worker s) (conn s) (handed s) (caught s) (lives s)
    (match t with Worker => dropped s ++ [i] | Connection => dropped s end) (sent s)
    (match t with Worker => resume_skipped s | Connection => true end).

(** The accept step of [try_deliver], with the phase it has loaded. *)
Definition accept_step (s : St) (t : Thread) (p : Phase) (i : BufferedNotification) (now : Z) : St :=
  let '(r, f, c) := accept_loaded p (fc s) (b_notification i) (seq i) (tx s) in
  set_pc (note (put s (after_accept (mkDelivery (Some f) (md s) c (events s)) r now).2) r i) t Idle.

Definition locked (s : St) : bool := match conn s with Finishing _ _ => true | _ => false end.

Definition with_handed (s : St) (f : FlowControl) (p : Pc) : St :=
  mkSt f (md s) (tx s) (events s) (worker s) p true (caught s) (lives s) (dropped s) (sent s)
    (resume_skipped s).

(** One turn of [finish]; the channel may be used by others between two turns. *)
Definition turn_step (s : St) (i : BufferedNotification) (rest : list BufferedNotification)
    (n : nat) : St :=
  let '(t, f, c) := finish_turn (fc s) (tx s) i n in
  let took n' := mkSt f (md s) c (events s) (worker s) (Finishing rest n') (handed s) (caught s)
                   (lives s) (dropped s) (sent s ++ [i]) (resume_skipped s) in
  match t with
  | NextTurn n' => took n'
  | Returned (Ok _) =>
      mkSt f (md s) c (events s) (worker s) Idle (handed s) (caught s) (lives s) (dropped s) (sent s)
        (resume_skipped s)
  | Returned (Err _) =>
      mkSt f (md s) c (events s) (worker s) Lapsing (handed s) (caught s) (lives s) (dropped s)
        (sent s) (resume_skipped s)
  end.

Inductive fstep : St -> St -> Prop :=
| F_refuse s t i :
    pc s t = Idle -> (t = Connection -> handed s = false) -> is_gapped (md s) = true ->
    fstep s (refuse s t i)
| F_check s t i :
    pc s t = Idle -> (t = Connection -> handed s = false) -> is_gapped (md s) = false ->
    fstep s (set_pc s t (Checked i))
| F_load s t i : pc s t = Checked i -> fstep s (set_pc s t (Loaded (phase (fc s)) i))
| F_accept s t p i now :
    pc s t = Loaded p i -> (p = PHASE_CATCHUP -> locked s = false) ->
    fstep s (accept_step s t p i now)
| F_boundary s b :
    conn s = Idle -> handed s = false -> snapshot_end (gate (fc s)) = None ->
    fstep s (put s (mkDelivery (Some (set_snapshot_end_seq (fc s) b)) (md s) (tx s) (events s)))
| F_finish s :
    conn s = Idle ->
    fstep s (match phase (fc s) with
             | PHASE_FAILED => with_handed s (fc s) Lapsing
             | _ => with_handed s (drain (fc s)) (Finishing (take_pending (pending (gate (fc s)))) 0)
             end)
| F_turn s i rest n : conn s = Finishing (i :: rest) n -> fstep s (turn_step s i rest n)
| F_finished s n m : conn s = Finishing [] n -> delivery_gapped m = delivery_gapped (md s) ->
    fstep s (set_pc (put s (mkDelivery (Some (store_phase (fc s) PHASE_LIVE)) m (tx s) (events s)))
               Connection Idle)
| F_lapse_conn s :
    conn s = Lapsing -> fstep s (set_pc (put s (signal_lapse (delivery s))) Connection Idle)
| F_lapse_scope s : fstep s (put s (signal_lapse (delivery s)))
| F_channel s c :
    (chan_closed (tx s) = true -> chan_closed c = true) ->
    fstep s (put s (mkDelivery (Some (fc s)) (md s) c (events s))).

Definition flow_reachable (s : St) : Prop :=
  exists created_at_ms c, rtc fstep (st_new created_at_ms c) s.

(** ** The invariant *)

(** The changes the hand-over should deliver, in order. *)
Definition prefix_part (s : St) : list BufferedNotification :=
  take_pending (catchup_spec (snapshot_end (gate (fc s))) (caught s)).

Definition not_finishing (p : Pc) : Prop := match p with Finishing _ _ => False | _ => True end.
Definition loaded_live (p : Pc) : Prop := match p with Loaded PHASE_LIVE _ => True | _ => False end.
Definition loaded_final (p : Pc) : Prop :=
  match p with Loaded PHASE_LIVE _ | Loaded PHASE_FAILED _ => True | _ => False end.
Definition rests (p : Pc) : Prop :=
  match p with Idle | Lapsing => True | Finishing [] _ => True | _ => False end.
Definition offering (p : Pc) : Prop := match p with Checked _ | Loaded _ _ => True | _ => False end.

(** Nothing of the worker is under way once it has dropped a change. *)
Definition worker_stopped (s : St) : Prop :=
  dropped s <> [] -> worker s = Idle /\ is_gapped (md s) = true.

(** Catching up; handing over; live; failed; live or failed with the worker stopped. *)
Inductive mode (s : St) : Prop :=
| M_open : handed s = false -> phase (fc s) = PHASE_CATCHUP ->
    pending (gate (fc s)) = catchup_spec (snapshot_end (gate (fc s))) (caught s) ->
    sent s = [] -> lives s = [] -> not_finishing (conn s) ->
    ~ loaded_final (worker s) -> ~ loaded_final (conn s) -> worker_stopped s -> mode s
| M_handing rest n : handed s = true -> conn s = Finishing rest n -> phase (fc s) = PHASE_CATCHUP ->
    pending (gate (fc s)) = [] -> prefix_part s = sent s ++ rest -> lives s = [] ->
    ~ loaded_live (worker s) -> worker_stopped s -> mode s
| M_live : handed s = true -> phase (fc s) = PHASE_LIVE -> pending (gate (fc s)) = [] ->
    sent s = prefix_part s ++ lives s -> rests (conn s) -> worker_stopped s -> mode s
| M_dead : phase (fc s) = PHASE_FAILED -> not_finishing (conn s) ->
    sent s `prefix_of` prefix_part s ++ lives s -> (handed s = false -> sent s = []) ->
    ~ loaded_live (worker s) -> mode s
| M_gone : handed s = true -> phase (fc s) <> PHASE_CATCHUP -> pending (gate (fc s)) = [] ->
    rests (conn s) -> sent s `prefix_of` prefix_part s ++ lives s ->
    chan_closed (tx s) = true \/ (is_gapped (md s) = true /\ worker s = Idle) -> mode s.

Record flow_ok (s : St) : Prop := {
  ok_events : events s = if is_gapped (md s) then 1%nat else 0%nat;
  ok_dropped : dropped s <> [] -> is_gapped (md s) = true;
  ok_pending : (length (pending (gate (fc s))) <= MAX_BUFFERED_NOTIFICATIONS_PER_SUBSCRIPTION)%nat;
  ok_conn : offering (conn s) -> handed s = false;
  ok_loaded : ~ loaded_live (conn s);
  ok_unhanded : handed s = false -> phase (fc s) <> PHASE_LIVE /\ not_finishing (conn s);
  ok_worker : worker s = Idle \/ offering (worker s);
  ok_mode : resume_skipped s = false -> mode s
}.

Ltac mode_cases H :=
  destruct H as
    [H1 H2 H3 H4 H5 H6 H7 H8 H9|rest' n' H1 H2 H3 H4 H5 H6 H7 H8|H1 H2 H3 H4 H5 H6|H1 H2 H3 H4 H5|
     H1 H2 H3 H4 H5 H6].

Ltac st_simpl :=
  cbn [fc md tx events worker conn handed caught lives dropped sent resume_skipped put set_pc note
       refuse with_handed pc flow_control runtime_metadata notification_tx lapses default
       delivery from_option id fst snd phase gate store_phase drain
       snapshot_end pending] in *.

Lemma signal_lapse_spec h :
  flow_control (signal_lapse h) = flow_control h /\ notification_tx (signal_lapse h) = notification_tx h /\
  is_gapped (runtime_metadata (signal_lapse h)) = true /\
  lapses (signal_lapse h) = (if is_gapped (runtime_metadata h) then lapses h else S (lapses h)).
Proof.
  unfold signal_lapse, claim_gap, is_gapped.
  by destruct (delivery_gapped (runtime_metadata h)) eqn:E; cbn.
Qed.

(** Reporting a lapse keeps the invariant. *)
Lemma lapse_ok s : flow_ok s -> flow_ok (put s (signal_lapse (delivery s))).
Proof.
  intros [He Hd Hp Hc Hl Hu Hw Hm].
  destruct (signal_lapse_spec (delivery s)) as (Hf & Ht & Hg & Hn).
  unfold put. rewrite Hf, Ht, Hn. cbn [delivery flow_control notification_tx runtime_metadata lapses
    default from_option id] in *.
  split; cbn [fc md tx events worker conn handed caught lives dropped sent resume_skipped]; try done.
  - rewrite Hg, He. by destruct (is_gapped (md s)).
  - intros Hs. mode_cases (Hm Hs).
    + apply M_open; try done. intros Hne. split; [by apply H9|done].
    + eapply M_handing; try done. intros Hne. split; [by apply H8|done].
    + apply M_live; try done. intros Hne. split; [by apply H6|done].
    + by apply M_dead.
    + apply M_gone; try done. destruct H6 as [H6|[_ H6]]; [by left|by right].
Qed.

Lemma refuse_ok s t i :
  pc s t = Idle -> is_gapped (md s) = true -> flow_ok s -> flow_ok (refuse s t i).
Proof.
  intros Hpc Hg [He Hd Hp Hc Hl Hu Hw Hm]. split; st_simpl; try done.
  intros Hs. destruct t; [|done]. cbn [pc] in Hpc. mode_cases (Hm Hs).
  - by apply M_open.
  - by eapply M_handing.
  - by apply M_live.
  - by apply M_dead.
  - by apply M_gone.
Qed.

Lemma check_ok s t i :
  pc s t = Idle -> (t = Connection -> handed s = false) -> is_gapped (md s) = false ->
  flow_ok s -> flow_ok (set_pc s t (Checked i)).
Proof.
  intros Hpc Hh Hg [He Hd Hp Hc Hl Hu Hw Hm].
  assert (dropped s = []) as Hnil.
  { destruct (dropped s); [done|]. rewrite Hd in Hg by done. done. }
  assert (forall s', dropped s' = [] -> worker_stopped s') as Hstop by (intros s' E1 E2; congruence).
  destruct t; cbn [pc] in Hpc; split; st_simpl; try done; try (by right); try (by intros []);
    try (intros; by apply Hh); try (intros; split; [by apply Hu|done]).
  all: intros Hs; mode_cases (Hm Hs); rewrite ?Hpc in *; try done;
    try (apply M_open; by auto || by intros []);
    try (apply (M_handing _ rest' n'); by auto || by intros []);
    try (apply M_live; by auto); try (apply M_dead; by auto || by intros []).
  - apply M_gone; try done. destruct H6 as [H6|[H6 _]]; [by left|congruence].
  - by rewrite Hh in H1.
  - by rewrite Hh in H1.
Qed.

Lemma loaded_live_final p : loaded_live p -> loaded_final p.
Proof. by destruct p as [| |[] ?| |]. Qed.

Lemma stopped_busy s : worker_stopped s -> worker s <> Idle -> dropped s = [].
Proof. intros H Hw. destruct (dropped s) eqn:E; [done|]. destruct H; [by rewrite E|done]. Qed.

Lemma nothing_dropped s : dropped s = [] -> worker_stopped s.
Proof. intros E H. by rewrite E in H. Qed.

Lemma load_ok s t i :
  pc s t = Checked i -> flow_ok s -> flow_ok (set_pc s t (Loaded (phase (fc s)) i)).
Proof.
  intros Hpc [He Hd Hp Hc Hl Hu Hw Hm].
  assert (t = Connection -> handed s = false) as Hh.
  { intros ->. apply Hc. cbn [pc] in Hpc. by rewrite Hpc. }
  destruct t; cbn [pc] in Hpc; split; st_simpl; try done; try (by right);
    try (intros; by apply Hh); try (intros; split; [by apply Hu|done]).
  - intros Hs. assert (worker_stopped s -> dropped s = []) as Hk
      by (intros; apply stopped_busy; [done|by rewrite Hpc]).
    mode_cases (Hm Hs).
    + apply M_open; st_simpl; try done; [by rewrite H2; intros []|by apply nothing_dropped, Hk].
    + eapply M_handing; st_simpl; try done; [by rewrite H3; intros []|by apply nothing_dropped, Hk].
    + apply M_live; st_simpl; try done. by apply nothing_dropped, Hk.
    + apply M_dead; st_simpl; try done. rewrite H1. by intros [].
    + apply M_gone; st_simpl; try done. destruct H6 as [H6|[_ H6]]; [by left|congruence].
  - destruct (Hu (Hh eq_refl)) as [Hph _]. destruct (phase (fc s)); cbn; tauto.
  - intros Hs. specialize (Hh eq_refl). mode_cases (Hm Hs); rewrite ?Hpc in *; try congruence.
    + apply M_open; st_simpl; try done. by rewrite H2; intros [].
    + by apply M_dead.
Qed.

Lemma set_boundary_ok s b :
  handed s = false -> snapshot_end (gate (fc s)) = None -> flow_ok s ->
  flow_ok (put s (mkDelivery (Some (set_snapshot_end_seq (fc s) b)) (md s) (tx s) (events s))).
Proof.
  intros Hh Hn [He Hd Hp Hc Hl Hu Hw Hm].
  split; st_simpl; try done.
  - unfold set_snapshot_end_seq. st_simpl. destruct b; [|done]. etrans; [|exact Hp].
    apply length_filter.
  - intros Hs. mode_cases (Hm Hs); try congruence.
    + rewrite Hn in H3. apply M_open; st_simpl; try done. unfold set_snapshot_end_seq. st_simpl.
      destruct b as [e|]; [|done]. rewrite H3. apply (catchup_spec_filter (Some e)).
    + apply M_dead; st_simpl; try done. rewrite H4 by done. apply prefix_nil.
Qed.

Lemma finish_ok s :
  conn s = Idle -> flow_ok s ->
  flow_ok (match phase (fc s) with
           | PHASE_FAILED => with_handed s (fc s) Lapsing
           | _ => with_handed s (drain (fc s)) (Finishing (take_pending (pending (gate (fc s)))) 0)
           end).
Proof.
  intros Hi [He Hd Hp Hc Hl Hu Hw Hm]. destruct (phase (fc s)) eqn:Hph.
  all: split; st_simpl; try done; try (by intros []); try (cbn [length]; lia).
  all: intros Hs; mode_cases (Hm Hs); try congruence.
  - eapply M_handing; try done; [|by intros ?%loaded_live_final]. unfold prefix_part. st_simpl.
    by rewrite H3, H4.
  - apply M_live; st_simpl; try done. by rewrite H3.
  - apply M_gone; st_simpl; try done; by rewrite ?Hph, ?H3.
  - by apply M_dead.
  - apply M_gone; st_simpl; try done; by rewrite ?Hph.
Qed.

Lemma send_live_cases f w c r f' c' :
  send_live f w c = (r, f', c') ->
  r = Sent /\ f' = f /\ chan_closed c = false \/
  r = Failed /\ f' = store_phase f PHASE_FAILED /\ chan_closed c = false \/
  r = Closed /\ f' = f /\ chan_closed c' = true.
Proof.
  unfold send_live. destruct (try_send c w) as [[] c0] eqn:E; intros [= <- <- <-];
    apply try_send_closed in E as [[E1 E2] E3].
  - left. destruct (chan_closed c); [by discriminate E2|done].
  - right; left. destruct (chan_closed c); [by discriminate E2|done].
  - right; right. rewrite E3. auto.
Qed.

Lemma turn_ok s i rest n :
  conn s = Finishing (i :: rest) n -> flow_ok s -> flow_ok (turn_step s i rest n).
Proof.
  intros Hi [He Hd Hp Hc Hl Hu Hw Hm]. unfold turn_step, finish_turn.
  assert (handed s = true) as Hh.
  { destruct (handed s); [done|]. destruct Hu as [_ Hu]; [done|]. by rewrite Hi in Hu. }
  destruct (send_live (fc s) (b_notification i) (tx s)) as [[r f] c] eqn:E.
  apply send_live_cases in E as [(-> & -> & _)|[(-> & -> & _)|(-> & -> & Hcl)]].
  all: split; st_simpl; try done; try (by intros []); try congruence.
  all: intros Hs; mode_cases (Hm Hs); rewrite Hi in *; try done.
  - injection H2 as <- <-. eapply M_handing; try done. unfold prefix_part in *. st_simpl.
    rewrite H5. by rewrite <-app_assoc.
  - injection H2 as <- <-. apply M_dead; st_simpl; try done; [|congruence].
    unfold prefix_part in *. st_simpl. rewrite H5, H6, app_nil_r. by apply prefix_app_r.
  - injection H2 as <- <-. apply M_dead; st_simpl; try done; [|congruence].
    unfold prefix_part in *. st_simpl. rewrite H5, H6, app_nil_r. by apply prefix_app_r.
Qed.

Lemma finished_ok s n m :
  conn s = Finishing [] n -> delivery_gapped m = delivery_gapped (md s) -> flow_ok s ->
  flow_ok (set_pc (put s (mkDelivery (Some (store_phase (fc s) PHASE_LIVE)) m (tx s) (events s)))
             Connection Idle).
Proof.
  intros Hi Hg [He Hd Hp Hc Hl Hu Hw Hm].
  assert (handed s = true) as Hh.
  { destruct (handed s); [done|]. destruct Hu as [_ Hu]; [done|]. by rewrite Hi in Hu. }
  unfold is_gapped in *.
  split; st_simpl; unfold is_gapped; rewrite ?Hg; try done; try (by intros []); try congruence.
  intros Hs. assert (forall s', dropped s' = dropped s -> worker s' = worker s -> md s' = m ->
    worker_stopped s -> worker_stopped s') as Hk.
  { unfold worker_stopped, is_gapped. intros s' -> -> ->. by rewrite Hg. }
  mode_cases (Hm Hs); rewrite Hi in *; try done.
  - injection H2 as <- <-. apply M_live; st_simpl; try done; [|by apply Hk].
    unfold prefix_part in *. st_simpl. by rewrite H6, H5, !app_nil_r.
  - apply M_live; st_simpl; try done. by apply Hk.
  - apply M_gone; st_simpl; try done. unfold is_gapped in *. by rewrite Hg.
Qed.

Lemma set_conn_idle s : conn s = Lapsing -> flow_ok s -> flow_ok (set_pc s Connection Idle).
Proof.
  intros Hi [He Hd Hp Hc Hl Hu Hw Hm].
  split; st_simpl; try done; try (by intros []).
  { intros Hh. split; [by apply Hu|done]. }
  intros Hs. mode_cases (Hm Hs); rewrite Hi in *; try done.
  - by apply M_open; try done; intros [].
  - by apply M_live.
  - by apply M_dead.
  - by apply M_gone.
Qed.

Lemma channel_ok s c :
  (chan_closed (tx s) = true -> chan_closed c = true) -> flow_ok s ->
  flow_ok (put s (mkDelivery (Some (fc s)) (md s) c (events s))).
Proof.
  intros Hcl [He Hd Hp Hc Hl Hu Hw Hm]. split; st_simpl; try done. intros Hs. mode_cases (Hm Hs).
  - by apply M_open.
  - by eapply M_handing.
  - by apply M_live.
  - by apply M_dead.
  - apply M_gone; st_simpl; try done. destruct H6; [left; by apply Hcl|by right].
Qed.

(** A thread whose change is refused: the change is dropped and the lapse reported. *)
Definition fail_step (s : St) (f : FlowControl) (c : Chan) (t : Thread) (i : BufferedNotification) :
    St :=
  set_pc (note (put s (signal_lapse (mkDelivery (Some f) (md s) c (events s)))) Failed i) t Idle.

Lemma fail_step_fields s f c t i :
  let s' := fail_step s f c t i in
  fc s' = f /\ tx s' = c /\ is_gapped (md s') = true /\
  events s' = (if is_gapped (md s) then events s else S (events s)) /\
  dropped s' = dropped s ++ [i] /\ handed s' = handed s /\ caught s' = caught s /\
  lives s' = lives s /\ sent s' = sent s /\ resume_skipped s' = resume_skipped s /\
  worker s' = (if t is Worker then Idle else worker s) /\
  conn s' = (if t is Worker then conn s else Idle).
Proof.
  cbv zeta. destruct (signal_lapse_spec (mkDelivery (Some f) (md s) c (events s))) as (Hf & Ht & Hg & Hn).
  unfold fail_step. st_simpl. unfold put. rewrite Hf, Ht, Hn. st_simpl. by destruct t.
Qed.

(** The part of the invariant that does not depend on the mode. *)
Lemma fail_step_frame s f c t p i :
  pc s t = Loaded p i -> (f = fc s \/ f = store_phase (fc s) PHASE_FAILED \/
    f = mkFlow PHASE_FAILED (mkGate (snapshot_end (gate (fc s))) [])) ->
  flow_ok s -> (resume_skipped s = false -> mode (fail_step s f c t i)) ->
  flow_ok (fail_step s f c t i).
Proof.
  intros Hpc Hf [He Hd Hp Hc Hl Hu Hw Hm] Hmode.
  destruct (fail_step_fields s f c t i) as (E1 & E2 & E3 & E4 & E5 & E6 & E7 & E8 & E9 & E10 & E11 & E12).
  split.
  - rewrite E3, E4, He. by destruct (is_gapped (md s)).
  - done.
  - rewrite E1. destruct Hf as [Hf|[Hf|Hf]]; rewrite Hf; st_simpl; [done|done|cbn [length]; lia].
  - rewrite E12, E6. by destruct t.
  - rewrite E12. by destruct t; [|intros []].
  - rewrite E6, E1, E12. intros Hh%Hu. destruct Hh as [Hh Hn].
    split; [by destruct Hf as [Hf|[Hf|Hf]]; rewrite Hf|by destruct t].
  - rewrite E11. destruct t; [by left|done].
  - by rewrite E10.
Qed.

Lemma refused_ok s t p i :
  pc s t = Loaded p i -> p = PHASE_FAILED \/ p = PHASE_CATCHUP /\ phase (fc s) = PHASE_FAILED ->
  flow_ok s -> flow_ok (fail_step s (fc s) (tx s) t i).
Proof.
  intros Hpc Hp Hok. eapply fail_step_frame; [done|by left|done|].
  intros Hs. destruct Hok as [He Hd _ Hc Hl Hu Hw Hm].
  destruct (fail_step_fields s (fc s) (tx s) t i)
    as (E1 & E2 & E3 & E4 & E5 & E6 & E7 & E8 & E9 & E10 & E11 & E12).
  assert (prefix_part (fail_step s (fc s) (tx s) t i) = prefix_part s) as Epp
    by (unfold prefix_part; by rewrite E1, E7).
  assert (t = Connection -> handed s = false) as Hh.
  { intros ->. apply Hc. cbn [pc] in Hpc. by rewrite Hpc. }
  mode_cases (Hm Hs).
  - exfalso. destruct Hp as [->|[_ Hp]]; [|congruence]. destruct t; cbn [pc] in Hpc; rewrite Hpc in *;
      [exact (H7 I)|exact (H8 I)].
  - destruct t; [|by rewrite Hh in H1].
    eapply M_handing; rewrite ?E1, ?E6, ?E8, ?E9, ?E11, ?E12, ?Epp; try done; by intros [].
  - destruct t; [|by rewrite Hh in H1].
    eapply M_live; rewrite ?E1, ?E6, ?E8, ?E9, ?E11, ?E12, ?Epp; try done; by intros [].
  - eapply M_dead; rewrite ?E1, ?E6, ?E8, ?E9, ?E11, ?E12, ?Epp; try done; [by destruct t|].
    destruct t; [by intros []|done].
  - destruct t; [|by rewrite Hh in H1].
    eapply M_gone; rewrite ?E1, ?E2, ?E3, ?E6, ?E8, ?E9, ?E11, ?E12, ?Epp; try done. by right.
Qed.

(** A worker about to write to the channel finds the hand-over complete, or the channel closed. *)
Lemma sending_mode s p i :
  worker s = Loaded p i -> p = PHASE_LIVE \/ p = PHASE_CATCHUP /\ phase (fc s) = PHASE_LIVE ->
  mode s ->
  handed s = true /\ pending (gate (fc s)) = [] /\ rests (conn s) /\
  (phase (fc s) = PHASE_LIVE /\ sent s = prefix_part s ++ lives s /\ dropped s = [] \/
   chan_closed (tx s) = true /\ phase (fc s) <> PHASE_CATCHUP /\
   sent s `prefix_of` prefix_part s ++ lives s).
Proof.
  intros Hw Hp Hm.
  assert (~ loaded_live (worker s) -> p <> PHASE_LIVE) as Hnl by (rewrite Hw; by intros H ->; apply H).
  mode_cases Hm.
  - destruct Hp as [Hp|[_ Hp]]; [|congruence]. rewrite Hw, Hp in H7. by destruct (H7 I).
  - destruct Hp as [Hp|[_ Hp]]; [|congruence]. by destruct (Hnl H7).
  - split_and!; try done. left. split_and!; try done. apply stopped_busy; [done|by rewrite Hw].
  - destruct Hp as [Hp|[_ Hp]]; [|congruence]. by destruct (Hnl H5).
  - split_and!; try done. right. destruct H6 as [H6|[_ H6]]; [done|congruence].
Qed.

Lemma send_ok s i p now r f c :
  worker s = Loaded p i -> p = PHASE_LIVE \/ p = PHASE_CATCHUP /\ phase (fc s) = PHASE_LIVE ->
  send_live (fc s) (b_notification i) (tx s) = (r, f, c) -> flow_ok s ->
  flow_ok (set_pc (note (put s (after_accept (mkDelivery (Some f) (md s) c (events s)) r now).2) r i)
             Worker Idle).
Proof.
  intros Hw Hp E Hok. pose proof (sending_mode s p i Hw Hp) as Hsm.
  apply send_live_cases in E as [(-> & -> & Hcl)|[(-> & -> & Hcl)|(-> & -> & Hcl)]].
  - destruct Hok as [He Hd Hpl Hc Hl Hu Hwk Hm].
    split; st_simpl; cbn [after_accept]; st_simpl; try done; try (by left).
    intros Hs. destruct (Hsm (Hm Hs)) as (H1 & H2 & H3 & [(H4 & H5 & H6)|(H4 & _)]); [|congruence].
    apply M_live; st_simpl; try done; try (by apply nothing_dropped).
    unfold prefix_part in *. st_simpl. by rewrite H5, app_assoc.
  - cbn [after_accept snd]. fold (fail_step s (store_phase (fc s) PHASE_FAILED) c Worker i).
    eapply (fail_step_frame _ _ _ Worker); [exact Hw|by right; left|done|].
    intros Hs. destruct (Hsm (ok_mode _ Hok Hs)) as (H1 & H2 & H3 & [(H4 & H5 & H6)|(H4 & _)]);
      [|congruence].
    destruct (fail_step_fields s (store_phase (fc s) PHASE_FAILED) c Worker i)
      as (E1 & E2 & E3 & E4 & E5 & E6 & E7 & E8 & E9 & E10 & E11 & E12).
    apply M_gone; rewrite ?E1, ?E3, ?E6, ?E8, ?E9, ?E11, ?E12; try done; [|by right].
    unfold prefix_part in *. rewrite E1, E7. st_simpl. by rewrite H5.
  - destruct Hok as [He Hd Hpl Hc Hl Hu Hwk Hm].
    split; st_simpl; cbn [after_accept]; st_simpl; try done; try (by left).
    intros Hs. destruct (Hsm (Hm Hs)) as (H1 & H2 & H3 & H4).
    apply M_gone; st_simpl; try done; [|unfold prefix_part in *; st_simpl|by left].
    + destruct H4 as [(H4 & _)|(_ & H4 & _)]; [by rewrite H4|done].
    + rewrite app_assoc. apply prefix_app_r. destruct H4 as [(_ & H4 & _)|(_ & _ & H4)]; [by rewrite H4|done].
Qed.

Lemma queue_change_result g w s r g' :
  queue_change g w s = (r, g') ->
  snapshot_end g' = snapshot_end g /\ (r = Stored \/ r = Covered \/ r = Failed /\ pending g' = []).
Proof.
  unfold queue_change. destruct (match snapshot_end g, s with Some e, Some v => _ | _, _ => _ end);
    [intros [= <- <-]; by auto|].
  destruct (has_seq _ _); [intros [= <- <-]; by auto|].
  destruct (_ <=? _)%nat; intros [= <- <-]; cbn [snapshot_end pending]; by auto.
Qed.

Lemma queued_ok s t i r g :
  pc s t = Loaded PHASE_CATCHUP i -> phase (fc s) = PHASE_CATCHUP -> locked s = false ->
  queue_change (gate (fc s)) (b_notification i) (seq i) = (r, g) -> r = Stored \/ r = Covered ->
  flow_ok s ->
  flow_ok (set_pc (note (put s (mkDelivery (Some (mkFlow PHASE_CATCHUP g)) (md s) (tx s) (events s))) r i)
     t Idle).
Proof.
  intros Hpc Hph Hlock E Hr Hok. pose proof (queue_change_length _ _ _ _ _ (ok_pending _ Hok) E) as Hlen.
  pose proof (queue_change_result _ _ _ _ _ E) as [Hse _].
  destruct Hok as [He Hd Hpl Hc Hl Hu Hwk Hm]. set (s' := set_pc _ _ _).
  assert (fc s' = mkFlow PHASE_CATCHUP g /\ md s' = md s /\ tx s' = tx s /\ events s' = events s /\
    worker s' = (if t is Worker then Idle else worker s) /\
    conn s' = (if t is Worker then conn s else Idle) /\ handed s' = handed s /\
    caught s' = caught s ++ [i] /\ lives s' = lives s /\ dropped s' = dropped s /\ sent s' = sent s /\
    resume_skipped s' = resume_skipped s)
    as (E1 & E2 & E3 & E4 & E5 & E6 & E7 & E8 & E9 & E10 & E11 & E12)
    by (destruct Hr as [-> | ->]; by destruct t).
  split; rewrite ?E1, ?E2, ?E4, ?E5, ?E6, ?E7, ?E10; st_simpl; try done.
  - by destruct t.
  - by destruct t; [|intros []].
  - intros Hh. split; [done|]. destruct t; [by apply Hu|done].
  - destruct t; [by left|done].
  - rewrite E12. intros Hs. mode_cases (Hm Hs); try congruence.
    + assert (gate (fc s) = mkGate (snapshot_end (gate (fc s)))
        (catchup_spec (snapshot_end (gate (fc s))) (caught s))) as Hg
        by (rewrite <-H3; by destruct (gate (fc s))).
      rewrite Hg in E. apply queue_change_spec in E as [_ [[_ E]|[E _]]];
        [|by destruct Hr; congruence].
      apply M_open; rewrite ?E1, ?E5, ?E6, ?E7, ?E8, ?E9, ?E11; st_simpl; try done.
      * rewrite E, Hse. by destruct i.
      * by destruct t.
      * destruct t; [by intros []|done].
      * destruct t; [done|by intros []].
      * unfold worker_stopped. rewrite E2, E5, E10. intros Hne. destruct (H9 Hne) as [H10 H11].
        split; [by destruct t|done].
    + unfold locked in Hlock. by rewrite H2 in Hlock.
Qed.

Lemma overflow_ok s t i g :
  pc s t = Loaded PHASE_CATCHUP i -> phase (fc s) = PHASE_CATCHUP -> locked s = false ->
  snapshot_end g = snapshot_end (gate (fc s)) -> pending g = [] -> flow_ok s ->
  flow_ok (fail_step s (mkFlow PHASE_FAILED g) (tx s) t i).
Proof.
  intros Hpc Hph Hlock Hse Hpe Hok.
  eapply fail_step_frame; [exact Hpc| |done|].
  { right; right. rewrite <-Hse, <-Hpe. by destruct g. }
  intros Hs. destruct (fail_step_fields s (mkFlow PHASE_FAILED g) (tx s) t i)
    as (E1 & E2 & E3 & E4 & E5 & E6 & E7 & E8 & E9 & E10 & E11 & E12).
  mode_cases (ok_mode _ Hok Hs); try congruence.
  - apply M_dead; rewrite ?E1, ?E6, ?E9, ?E11, ?E12; st_simpl; try done.
    + by destruct t.
    + rewrite H4. apply prefix_nil.
    + destruct t; [by intros []|by intros ?%loaded_live_final].
  - unfold locked in Hlock. by rewrite H2 in Hlock.
Qed.

Lemma accept_ok s t p i now :
  pc s t = Loaded p i -> (p = PHASE_CATCHUP -> locked s = false) -> flow_ok s ->
  flow_ok (accept_step s t p i now).
Proof.
  intros Hpc Hlock Hok. unfold accept_step, accept_loaded.
  assert (p = PHASE_LIVE \/ p = PHASE_CATCHUP /\ phase (fc s) = PHASE_LIVE -> t = Worker) as Ht.
  { destruct t; [done|]. cbn [pc] in Hpc. intros [->|[-> Hph]]; exfalso.
    - apply (ok_loaded _ Hok). by rewrite Hpc.
    - apply (ok_unhanded _ Hok); [|done]. apply (ok_conn _ Hok). by rewrite Hpc. }
  destruct p.
  - destruct (phase (fc s)) eqn:Hph.
    + destruct (queue_change (gate (fc s)) (b_notification i) (seq i)) as [r g] eqn:E.
      pose proof (queue_change_result _ _ _ _ _ E) as [Hse [Hr|[Hr|[Hr Hpe]]]]; subst r.
      * apply queued_ok; eauto.
      * apply queued_ok; eauto.
      * apply overflow_ok; eauto.
    + destruct (send_live _ _ _) as [[r f] c] eqn:E. rewrite Ht in * by auto.
      apply (send_ok s i PHASE_CATCHUP); auto.
    + apply (refused_ok s t PHASE_CATCHUP); auto.
  - destruct (send_live _ _ _) as [[r f] c] eqn:E. rewrite Ht in * by auto.
    apply (send_ok s i PHASE_LIVE); auto.
  - apply (refused_ok s t PHASE_FAILED); auto.
Qed.

Lemma fstep_ok s s' : flow_ok s -> fstep s s' -> flow_ok s'.
Proof.
  intros Hok Hs. destruct Hs.
  - by apply refuse_ok.
  - by apply check_ok.
  - by apply load_ok.
  - by apply accept_ok.
  - by apply set_boundary_ok.
  - by apply finish_ok.
  - by apply turn_ok.
  - by eapply finished_ok.
  - apply set_conn_idle; [done|]. by apply lapse_ok.
  - by apply lapse_ok.
  - by apply channel_ok.
Qed.

Lemma flow_reachable_ok s : flow_reachable s -> flow_ok s.
Proof.
  intros (ms & c & Hr). assert (flow_ok (st_new ms c)) as H0.
  { split; cbn; try done; try (by left); try (by intros []); [lia|]. intros _.
    apply M_open; try done; by intros []. }
  revert H0. induction Hr as [|s1 s2 s3 Hs _ IH]; [done|]. intros H. apply IH. by eapply fstep_ok.
Qed.

(** ** The functions as runs of the steps *)

(** What two states share with a [Delivery], the delivery counters apart. *)
Definition agrees (s : St) (d : Delivery) : Prop :=
  flow_control d = Some (fc s) /\ notification_tx d = tx s /\ lapses d = events s /\
  is_gapped (runtime_metadata d) = is_gapped (md s).

Lemma agrees_lapse s t d :
  agrees s d -> agrees (set_pc (put s (signal_lapse (delivery s))) t Idle) (signal_lapse d).
Proof.
  intros (H1 & H2 & H3 & H4).
  destruct (signal_lapse_spec d) as (E1 & E2 & E3 & E4).
  destruct (signal_lapse_spec (delivery s)) as (F1 & F2 & F3 & F4).
  unfold agrees. st_simpl. unfold put. rewrite E1, E2, E3, E4, F1, F2, F4. st_simpl.
  rewrite H1, H2, H3, H4. by rewrite F3.
Qed.

Lemma try_deliver_steps s i now :
  worker s = Idle -> locked s = false ->
  exists s', rtc fstep s s' /\
    agrees s' (try_deliver (delivery s) (b_notification i) (seq i) now).2.
Proof.
  intros Hw Hl. unfold try_deliver. cbn [delivery runtime_metadata flow_control notification_tx lapses].
  destruct (is_gapped (md s)) eqn:Hg.
  { exists (refuse s Worker i). split; [apply rtc_once, F_refuse; [done|done|exact Hg]|done]. }
  set (s1 := set_pc s Worker (Checked i)). set (s2 := set_pc s1 Worker (Loaded (phase (fc s1)) i)).
  exists (accept_step s2 Worker (phase (fc s)) i now). split.
  - eapply rtc_l; [by apply (F_check s Worker i)|]. eapply rtc_l; [by apply (F_load s1 Worker i)|].
    apply rtc_once. by apply F_accept.
  - unfold accept_step, accept. cbn [s2 s1 set_pc fc md tx events].
    destruct (accept_loaded _ _ _ _ _) as [[r f] c]. unfold agrees.
    destruct r; cbn [after_accept snd]; st_simpl; try done.
    destruct (signal_lapse_spec (mkDelivery (Some f) (md s) c (events s))) as (E1 & _).
    rewrite E1. by st_simpl.
Qed.

Lemma finish_loop_steps items : forall n s r f c,
  conn s = Finishing items n -> finish_loop (fc s) (tx s) items n = (r, f, c) ->
  exists s', rtc fstep s s' /\ fc s' = f /\ tx s' = c /\ md s' = md s /\ events s' = events s /\
    match r with Ok _ => conn s' = Idle | Err _ => conn s' = Lapsing end.
Proof.
  induction items as [|i items IH]; intros n s r f c Hc; cbn [finish_loop].
  { intros [= <- <- <-]. eexists. split; [apply rtc_once; by apply (F_finished s n (md s))|done]. }
  destruct (finish_turn (fc s) (tx s) i n) as [[t f1] c1] eqn:E.
  assert (fstep s (turn_step s i items n)) as Hs by (by apply F_turn).
  unfold turn_step in Hs. rewrite E in Hs. destruct t as [n'|[m|[]]].
  - intros Hf. match type of Hs with fstep _ ?s2 =>
      destruct (IH n' s2 r f c eq_refl Hf) as (s' & Hr & Hrest) end.
    exists s'. split; [by eapply rtc_l|done].
  - intros [= <- <- <-]. eexists. split; [by apply rtc_once|done].
  - intros [= <- <- <-]. eexists. split; [by apply rtc_once|done].
Qed.

Lemma iter_record_gapped m now n :
  is_gapped (Nat.iter n (fun m => record_delivery_at m now) m) = is_gapped m.
Proof. induction n as [|n IH]; [done|]. cbn [Nat.iter]. exact IH. Qed.

Lemma complete_initial_load_steps s now :
  conn s = Idle ->
  exists s', rtc fstep s s' /\ agrees s' (complete_initial_load (delivery s) now).2.
Proof.
  intros Hc. unfold complete_initial_load, finish.
  cbn [delivery runtime_metadata flow_control notification_tx lapses].
  pose proof (F_finish s Hc) as Hs.
  assert (forall r f c, finish_loop (drain (fc s)) (tx s) (take_pending (pending (gate (fc s)))) 0 = (r, f, c) ->
    fstep s (with_handed s (drain (fc s)) (Finishing (take_pending (pending (gate (fc s)))) 0)) ->
    exists s', rtc fstep s s' /\ agrees s' (match r with
      | Ok sent => (sent, mkDelivery (Some f)
          (Nat.iter sent (fun m => record_delivery_at m now) (md s)) c (events s))
      | Err _ => (0%nat, signal_lapse (mkDelivery (Some f) (md s) c (events s)))
      end).2) as Hgo.
  { intros r f c Hf Hs1.
    match type of Hs1 with fstep _ ?s2 =>
      destruct (finish_loop_steps _ 0 s2 r f c eq_refl Hf) as (s' & Hr & E1 & E2 & E3 & E4 & E5) end.
    cbn [with_handed md events] in E3, E4. destruct r as [n|[]].
    - exists s'. split; [by eapply rtc_l|]. split_and!; cbn [snd flow_control notification_tx lapses
        runtime_metadata]; [congruence..|]. rewrite iter_record_gapped. congruence.
    - eexists. split; [eapply rtc_l; [exact Hs1|]; eapply rtc_r; [exact Hr|by apply F_lapse_conn]|].
      apply agrees_lapse. split_and!; cbn; congruence. }
  destruct (phase (fc s)) eqn:Hph.
  1,2: destruct (finish_loop _ _ _ _) as [[r f] c] eqn:E; by apply Hgo.
  eexists. split; [eapply rtc_l; [exact Hs|]; apply rtc_once; by apply F_lapse_conn|].
  by apply agrees_lapse.
Qed.

(** ** Theorems *)

(** C4. A subscriber sees a gap-free prefix, as long as no change of a resume was refused because
    the subscription lapsed while it was being resumed (the code loses such a change, see
    [lapse_during_resume_leaves_hole]).  Under that condition, whatever the interleaving of the worker,
    the connection, lapses and other users of the channel: what the channel has taken for the
    subscription is a prefix of the catch-up buffer in version order, followed by the later changes
    in the order they were dispatched, refused ones included; so the last version a client saw is a
    safe resume cursor. *)
Theorem delivery_is_gap_free s :
  flow_reachable s -> resume_skipped s = false ->
  sent s `prefix_of`
    take_pending (catchup_spec (snapshot_end (gate (fc s))) (caught s)) ++ lives s ++ dropped s.
Proof.
  intros Hok%flow_reachable_ok Hs. fold (prefix_part s). rewrite app_assoc. apply prefix_app_r.
  mode_cases (ok_mode _ Hok Hs).
  - rewrite H4. apply prefix_nil.
  - rewrite H5, <-app_assoc. by apply prefix_app_r.
  - by rewrite H4.
  - done.
  - done.
Qed.

(** Nothing is lost across the hand-over: a subscription that is live, has not lapsed and
    whose channel is open has been sent every change that went through the catch-up gate above the
    boundary, in version order, then every change dispatched since, and none was dropped. *)
Theorem live_delivers_everything s :
  flow_reachable s -> resume_skipped s = false ->
  phase (fc s) = PHASE_LIVE -> is_gapped (md s) = false -> chan_closed (tx s) = false ->
  sent s = take_pending (catchup_spec (snapshot_end (gate (fc s))) (caught s)) ++ lives s /\
  dropped s = [].
Proof.
  intros Hok%flow_reachable_ok Hs Hph Hg Hcl. fold (prefix_part s). split.
  - mode_cases (ok_mode _ Hok Hs); try congruence. destruct H6 as [H6|[H6 _]]; congruence.
  - destruct (dropped s) eqn:E; [done|]. assert (is_gapped (md s) = true); [|congruence].
    apply (ok_dropped _ Hok). by rewrite E.
Qed.

(** A lapse is reported once: the connection gets at most one lapse event per subscription,
    has got it when any change was dropped, and the catch-up buffer never exceeds 1,024 changes. *)
Theorem lapse_reported_once s :
  flow_reachable s ->
  (events s <= 1)%nat /\ (events s = 1%nat <-> is_gapped (md s) = true) /\
  (events s = 0%nat -> dropped s = []) /\ (length (pending (gate (fc s))) <= 2 ^ 10)%nat.
Proof.
  intros [He Hd Hp _ _ _ _ _]%flow_reachable_ok. rewrite He. destruct (is_gapped (md s)) eqn:E;
    split_and!; try done; try lia.
  intros _. destruct (dropped s); [done|]. by discriminate Hd.
Qed.

Lemma catchup_spec_in b l i : i ∈ catchup_spec b l -> i ∈ l /\ above b i = true.
Proof.
  induction l as [|j l IH] using rev_ind; [by intros ?%elem_of_nil|].
  rewrite catchup_spec_snoc. destruct (above b j) eqn:Ha; [unfold add_new; destruct (has_seq _ _)|].
  all: rewrite ?elem_of_app, ?list_elem_of_singleton; naive_solver.
Qed.

Lemma catchup_spec_complete b l i :
  i ∈ l -> above b i = true ->
  i ∈ catchup_spec b l \/ exists v j, seq i = Some v /\ j ∈ catchup_spec b l /\ seq j = Some v.
Proof.
  induction l as [|k l IH] using rev_ind; [by intros ?%elem_of_nil|].
  rewrite elem_of_app, list_elem_of_singleton, catchup_spec_snoc. intros [Hi|<-] Ha.
  - destruct (above b k); [unfold add_new; destruct (has_seq _ _)|]; rewrite ?elem_of_app;
      destruct (IH Hi Ha) as [?|(v & j & ? & ? & ?)]; auto; right; exists v, j; rewrite ?elem_of_app; auto.
  - rewrite Ha. unfold add_new. destruct (has_seq _ _) eqn:E.
    + right. destruct (seq i) as [v|] eqn:Hv; [|done]. apply has_seq_spec in E as (j & Hj & Hjv).
      by exists v, j.
    + left. rewrite elem_of_app, list_elem_of_singleton. auto.
Qed.

(** No version twice. *)
Definition distinct_seqs (l : list BufferedNotification) : Prop :=
  NoDup (omap seq l).

Lemma catchup_spec_distinct b l : distinct_seqs (catchup_spec b l).
Proof.
  unfold distinct_seqs. induction l as [|k l IH] using rev_ind; [constructor|].
  rewrite catchup_spec_snoc. destruct (above b k); [|done]. unfold add_new.
  destruct (has_seq _ _) eqn:E; [done|]. rewrite omap_app. apply NoDup_app.
  split; [done|]. cbn. destruct (seq k) as [v|] eqn:Hv; cbn; [|split; [set_solver|constructor]].
  split; [|apply NoDup_singleton]. intros x Hx ->%list_elem_of_singleton.
  apply list_elem_of_omap in Hx as (j & Hj & Hjv).
  assert (has_seq (catchup_spec b l) (Some v) = true); [|congruence]. apply has_seq_spec. eauto.
Qed.

(** The catch-up prefix is exactly what was offered above the boundary: every handed-over
    change was offered and lies above the boundary; every offered change above the boundary is
    handed over, itself or as the first change of its version; no version is handed over twice; and
    the versions ascend. *)
Theorem catchup_prefix_exact b offered :
  let out := take_pending (catchup_spec b offered) in
  (forall i, i ∈ out -> i ∈ offered /\ above b i = true) /\
  (forall i, i ∈ offered -> above b i = true ->
     i ∈ out \/ exists v j, seq i = Some v /\ j ∈ out /\ seq j = Some v) /\
  distinct_seqs out /\ in_order out.
Proof.
  cbv zeta. pose proof (take_pending_perm (catchup_spec b offered)) as Hp. split_and!.
  - intros i. rewrite Hp. apply catchup_spec_in.
  - intros i Hi Ha. destruct (catchup_spec_complete b offered i Hi Ha) as [H|(v & j & ? & ? & ?)].
    + left. by rewrite Hp.
    + right. exists v, j. by rewrite Hp.
  - unfold distinct_seqs. rewrite (omap_Permutation seq _ _ Hp). apply catchup_spec_distinct.
  - apply take_pending_order.
Qed.

(** A change inside the snapshot is delivered again once the subscription is live: the
    boundary is only consulted while catching up, so a worker that lags behind the snapshot sends
    changes the snapshot already contained. *)
Theorem covered_change_sent_when_live boundary v w pend c c' :
  v <= boundary -> try_send c w = (SendOk, c') ->
  let g := mkGate (Some boundary) pend in
  accept (mkFlow PHASE_CATCHUP g) w (Some v) c = (Covered, mkFlow PHASE_CATCHUP g, c) /\
  accept (mkFlow PHASE_LIVE g) w (Some v) c = (Sent, mkFlow PHASE_LIVE g, c').
Proof.
  intros Hv Hs. cbv zeta. unfold accept, accept_loaded, queue_change, send_live. cbn [phase gate snapshot_end].
  by rewrite (proj2 (Z.leb_le _ _)), Hs.
Qed.
End Flow.

(** ** Witnesses *)

Module LiveFlowWitness.

(** A bounded queue with a receiver that can be dropped. *)
Record fifo := mkFifo { room : nat; queue : list string; gone : bool }.

Definition fifo_send (c : fifo) (w : string) : Sending * fifo :=
  if gone c then (SendClosed, c)
  else if (length (queue c) <? room c)%nat then (SendOk, mkFifo (room c) (queue c ++ [w]) (gone c))
  else (SendFull, c).

#[local] Instance fifo_channel : NotificationChannel string.
Proof.
  refine {| Chan := fifo; try_send := fifo_send; chan_closed := gone |}.
  intros c w r c'. unfold fifo_send. destruct (gone c) eqn:E; [by intros [= <- <-]|].
  destruct (_ <? _)%nat; by intros [= <- <-].
Defined.

Definition item (v : Z) (w : string) : BufferedNotification := mkBuffered (Some v) w.
Definition c0 : fifo := mkFifo 8 [] false.
Definition s0 : St := st_new 0 c0.

(** The worker offers 7 and 6 while the snapshot loads, the connection hands over, the worker
    offers 8. *)
Definition offer (s : St) (v : Z) (w : string) : St :=
  accept_step (set_pc (set_pc s Worker (Checked (item v w))) Worker
    (Loaded (phase (fc s)) (item v w))) Worker (phase (fc s)) (item v w) 0.

Lemma offer_steps s v w :
  worker s = Idle -> is_gapped (md s) = false -> locked s = false -> rtc fstep s (offer s v w).
Proof.
  intros Hw Hg Hl. set (s1 := set_pc s Worker (Checked (item v w))).
  set (s2 := set_pc s1 Worker (Loaded (phase (fc s1)) (item v w))).
  eapply rtc_l; [by apply (F_check s Worker (item v w))|].
  eapply rtc_l; [by apply (F_load s1 Worker (item v w))|].
  apply rtc_once. apply (F_accept s2 Worker); [reflexivity|intros _; exact Hl].
Qed.

Definition s1 : St := offer (offer s0 7 "b") 6 "a".
Definition s2 : St := put s1 (mkDelivery (Some (set_snapshot_end_seq (fc s1) (Some 5))) (md s1) (tx s1) (events s1)).
Definition s3 : St := with_handed s2 (drain (fc s2)) (Finishing (take_pending (pending (gate (fc s2)))) 0).
Definition s4 : St := turn_step s3 (item 6 "a") [item 7 "b"] 0.
Definition s5 : St := turn_step s4 (item 7 "b") [] 1.
Definition s6 : St := set_pc (put s5 (mkDelivery (Some (store_phase (fc s5) PHASE_LIVE)) (md s5) (tx s5) (events s5))) Connection Idle.
Definition s7 : St := offer s6 8 "c".

(** Side conditions of the steps, by evaluation. *)
Ltac by_eval := vm_compute; reflexivity.

Lemma s7_reachable : flow_reachable s7.
Proof.
  exists 0, c0. fold s0.
  apply (transitivity (y := offer s0 7 "b")); [apply offer_steps; by_eval|].
  apply (transitivity (y := s1)); [apply offer_steps; by_eval|].
  apply (rtc_l _ s1 s2); [apply (F_boundary s1 (Some 5)); by_eval|].
  apply (rtc_l _ s2 s3).
  { assert (phase (fc s2) = PHASE_CATCHUP) as Hph by by_eval.
    assert (conn s2 = Idle) as Hi by by_eval.
    pose proof (F_finish s2 Hi) as H. rewrite Hph in H. exact H. }
  apply (rtc_l _ s3 s4); [apply (F_turn s3 (item 6 "a") [item 7 "b"] 0); by_eval|].
  apply (rtc_l _ s4 s5); [apply (F_turn s4 (item 7 "b") [] 1); by_eval|].
  apply (rtc_l _ s5 s6); [apply (F_finished s5 2 (md s5)); by_eval|].
  apply offer_steps; by_eval.
Qed.

Lemma s7_sent : sent s7 = [item 6 "a"; item 7 "b"; item 8 "c"].
Proof. by_eval. Qed.

Lemma delivery_is_gap_free_witness :
  [item 6 "a"; item 7 "b"; item 8 "c"] `prefix_of`
    take_pending (catchup_spec (snapshot_end (gate (fc s7))) (caught s7)) ++ lives s7 ++ dropped s7.
Proof. rewrite <-s7_sent. apply (delivery_is_gap_free s7 s7_reachable). by_eval. Defined.

Lemma live_delivers_everything_witness :
  [item 6 "a"; item 7 "b"; item 8 "c"] =
    take_pending (catchup_spec (snapshot_end (gate (fc s7))) (caught s7)) ++ lives s7 /\
  dropped s7 = [].
Proof. rewrite <-s7_sent. apply (live_delivers_everything s7 s7_reachable); by_eval. Defined.

Lemma lapse_reported_once_witness : (events s7 <= 1)%nat.
Proof. exact (proj1 (lapse_reported_once s7 s7_reachable)). Defined.

Lemma covered_change_sent_when_live_witness :
  accept (NC := fifo_channel) (mkFlow PHASE_CATCHUP (mkGate (Some 9) [])) "w" (Some 8) c0 =
    (Covered, mkFlow PHASE_CATCHUP (mkGate (Some 9) []), c0) /\
  accept (NC := fifo_channel) (mkFlow PHASE_LIVE (mkGate (Some 9) [])) "w" (Some 8) c0 =
    (Sent, mkFlow PHASE_LIVE (mkGate (Some 9) []), mkFifo 8 ["w"] false).
Proof.
  apply (covered_change_sent_when_live (NC := fifo_channel) 9 8 "w" [] c0 (mkFifo 8 ["w"] false)); [lia|reflexivity].
Defined.

(** A worker that has passed the gap check with change 9 and loaded the catch-up phase; the
    subscription lapses; the connection resumes from 4: change 5 is refused, the hand-over
    completes; the worker goes on. *)
Definition h1 : St := set_pc (set_pc s0 Worker (Checked (item 9 "z"))) Worker (Loaded PHASE_CATCHUP (item 9 "z")).
Definition h2 : St := put h1 (signal_lapse (delivery h1)).
Definition h3 : St := put h2 (mkDelivery (Some (set_snapshot_end_seq (fc h2) (Some 4))) (md h2) (tx h2) (events h2)).
Definition h4 : St := refuse h3 Connection (item 5 "y").
Definition h5 : St := with_handed h4 (drain (fc h4)) (Finishing [] 0).
Definition h6 : St := set_pc (put h5 (mkDelivery (Some (store_phase (fc h5) PHASE_LIVE)) (md h5) (tx h5) (events h5))) Connection Idle.
Definition h7 : St := accept_step h6 Worker PHASE_CATCHUP (item 9 "z") 0.

(** A lapse during a resume leaves a hole: there is a run in which a change of the resume
    (version 5) is refused because the worker queue overflowed at that moment, and a later change
    (version 9) is still delivered; the client is then told to resume from its last cursor, 9. *)
Theorem lapse_during_resume_leaves_hole :
  flow_reachable h3 /\ fstep h3 (refuse h3 Connection (item 5 "y")) /\
  rtc fstep (refuse h3 Connection (item 5 "y")) h7 /\ sent h7 = [item 9 "z"].
Proof.
  assert (fstep h3 h4) as H34 by (apply F_refuse; [by_eval|intros _; by_eval|by_eval]).
  split; [|split; [exact H34|split; [|by_eval]]].
  - exists 0, c0. fold s0.
    apply (rtc_l _ s0 (set_pc s0 Worker (Checked (item 9 "z"))));
      [apply F_check; [by_eval|intros _; by_eval|by_eval]|].
    apply (rtc_l _ _ h1); [apply (F_load (set_pc s0 Worker (Checked (item 9 "z"))) Worker (item 9 "z")); by_eval|].
    apply (rtc_l _ h1 h2); [apply (F_lapse_scope h1)|].
    apply rtc_once. apply (F_boundary h2 (Some 4)); by_eval.
  - change (refuse h3 Connection (item 5 "y")) with h4.
    apply (rtc_l _ h4 h5).
    { assert (phase (fc h4) = PHASE_CATCHUP) as Hph by by_eval.
      assert (conn h4 = Idle) as Hi by by_eval.
      pose proof (F_finish h4 Hi) as H. rewrite Hph in H. exact H. }
    apply (rtc_l _ h5 h6); [apply (F_finished h5 0 (md h5)); by_eval|].
    apply rtc_once. apply (F_accept h6 Worker PHASE_CATCHUP); [by_eval|intros _; by_eval].
Qed.

End LiveFlowWitness.
