(* ===== verification/LiveResume.v ===== *)
(** * LiveResume: resuming a live query from the change log

    Composition of LiveReplay and LiveFlow along [resume_from_replay] of
    kalamdb-live/src/manager/queries_manager.rs and [deliver_resume_events] of
    kalamdb-live/src/notification.rs: the cursor becomes the boundary of the subscription, the
    changes of the log are offered to its catch-up gate, the worker may offer changes of the same
    table at the same time, and the hand-over sends what the gate holds. *)

From Stdlib Require Import ZArith Lia Sorting.Sorted.
From stdpp Require Import base functions list relations sorting.
From S2P Require Import Prelude Commons Ids Scalars LiveReplay LiveFlow.

Open Scope Z_scope.

(** Recorded events carry the version of their notification. *)
Lemma hist_versions w :
  log_reachable w -> forall k, Forall (fun e => version_of (notification e) = Some (version e)) (hist w k).
Proof.
  intros [d Hr].
  assert (forall k, Forall (fun e => version_of (notification e) = Some (version e)) (hist (world_new d) k))
    as H0 by (intros; constructor).
  revert H0. induction Hr as [|w1 w2 w3 Hs _ IH]; [done|]. intros H. apply IH. clear IH.
  destruct Hs as [w k n v Hv _|w k n _|w k|w k b ? ? _ _ _|w k|w k d' _]; cbn [hist]; try exact H; intros j.
  - destruct (decide (j = k)) as [->|Hne]; [|rewrite fn_lookup_insert_ne by done; apply H].
    rewrite fn_lookup_insert. apply Forall_app. split; [apply H|]. by repeat constructor.
  - destruct (decide (j = k)) as [->|Hne]; [|rewrite fn_lookup_insert_ne by done; apply H].
    rewrite fn_lookup_insert. constructor.
Qed.

Lemma hist_increasing w k : log_reachable w -> increasing (hist w k).
Proof. intros Hw%log_reachable_ok. apply Hw. Qed.

(** Two lists in strictly ascending order with the same elements are equal. *)
Lemma ascending_unique {A} (R : relation A) (l1 l2 : list A) :
  (forall x, ~ R x x) -> (forall x y, R x y -> R y x -> False) ->
  StronglySorted R l1 -> StronglySorted R l2 -> (forall x, x ∈ l1 <-> x ∈ l2) -> l1 = l2.
Proof.
  intros Hirr Hasym. revert l2. induction l1 as [|x l1 IH]; intros [|y l2] H1 H2 Heq; [done| | |].
  - by destruct (proj1 (elem_of_nil y)); apply Heq; left.
  - by destruct (proj1 (elem_of_nil x)); apply Heq; left.
  - apply StronglySorted_inv in H1 as [H1 Hx]. apply StronglySorted_inv in H2 as [H2 Hy].
    rewrite Forall_forall in Hx, Hy.
    assert (x = y) as ->.
    { assert (x ∈ y :: l2) as Hin by (apply Heq; left). assert (y ∈ x :: l1) as Hin' by (apply Heq; left).
      apply elem_of_cons in Hin as [?|Hin]; [done|]. apply elem_of_cons in Hin' as [?|Hin']; [done|].
      exfalso. by eapply Hasym; [apply Hx|apply Hy]. }
    f_equal. apply IH; [done|done|]. intros z. split; intros Hz.
    + assert (z ∈ y :: l2) as Hin by (apply Heq; by right).
      apply elem_of_cons in Hin as [->|?]; [|done]. destruct (Hirr y). by apply Hx.
    + assert (z ∈ y :: l1) as Hin by (apply Heq; by right).
      apply elem_of_cons in Hin as [->|?]; [|done]. destruct (Hirr y). by apply Hy.
Qed.

Section Resume.
Context {W : Type} (wire : ChangeNotification -> W) (sees : ChangeNotification -> bool).

(** What the gate stores for a change. *)
Definition gate_item (e : ReplayEvent) : BufferedNotification :=
  mkBuffered (Some (version e)) (wire (notification e)).

(** The items [deliver_resume_events] offers for the notifications of the log. *)
Definition resume_item (n : ChangeNotification) : BufferedNotification :=
  mkBuffered (version_of n) (wire n).

(** Strictly ascending versions. *)
Definition seq_lt (a b : BufferedNotification (W := W)) : Prop :=
  exists x y, seq a = Some x /\ seq b = Some y /\ x < y.

Lemma gate_items_ascending h : increasing h -> StronglySorted seq_lt (gate_item <$> h).
Proof.
  induction h as [|e h IH]; [constructor|]. intros [Hh He]%StronglySorted_inv. cbn. constructor; [by apply IH|].
  apply Forall_fmap. eapply Forall_impl; [exact He|]. intros e' Hlt. by exists (version e), (version e').
Qed.

Lemma increasing_filter (P : ReplayEvent -> Prop) `{forall e, Decision (P e)} h :
  increasing h -> increasing (filter P h).
Proof.
  induction h as [|e h IH]; [done|]. intros [Hh He]%StronglySorted_inv.
  rewrite filter_cons. case_decide; [|by apply IH]. constructor; [by apply IH|].
  apply Forall_forall. intros x [_ Hx]%list_elem_of_filter. rewrite Forall_forall in He. by apply He.
Qed.

(** In order, with a version each and no version twice, is strictly ascending. *)
Lemma in_order_ascending (l : list (BufferedNotification (W := W))) :
  in_order l -> distinct_seqs l -> Forall (fun i => is_Some (seq i)) l -> StronglySorted seq_lt l.
Proof.
  unfold in_order, distinct_seqs. induction l as [|i l IH]; [constructor|].
  intros [Hl Hi]%StronglySorted_inv Hd Hs. apply Forall_cons in Hs as [[v Hv] Hs].
  cbn in Hd. rewrite Hv in Hd. apply NoDup_cons in Hd as [Hn Hd]. constructor; [by apply IH|].
  apply Forall_forall. intros j Hj. rewrite Forall_forall in Hi, Hs.
  destruct (Hs j Hj) as [u Hu]. specialize (Hi j Hj). unfold seq_le in Hi. rewrite Hv, Hu in Hi.
  apply Z.leb_le in Hi. exists v, u. split_and!; [done|done|].
  enough (v <> u) by lia. intros <-. apply Hn. apply list_elem_of_omap. by exists j.
Qed.

Lemma increasing_version_inj h e1 e2 :
  increasing h -> e1 ∈ h -> e2 ∈ h -> version e1 = version e2 -> e1 = e2.
Proof.
  induction h as [|e h IH]; [by intros _ ?%elem_of_nil|]. intros [Hh He]%StronglySorted_inv.
  rewrite Forall_forall in He. rewrite !elem_of_cons.
  intros [->|H1] [->|H2] Hv; [done| | |by apply IH].
  - specialize (He e2 H2). lia.
  - specialize (He e1 H1). lia.
Qed.

(** The gate, offered changes of one history, holds each change above the boundary once, in order. *)
Lemma gate_holds_history h from offered :
  increasing h ->
  (forall i, i ∈ offered -> i ∈ gate_item <$> h) ->
  (forall e, e ∈ newer from h -> gate_item e ∈ offered) ->
  take_pending (catchup_spec (Some from) offered) = gate_item <$> newer from h.
Proof.
  intros Hinc Hsub Hall.
  pose proof (take_pending_perm (catchup_spec (Some from) offered)) as Hperm.
  assert (forall i, i ∈ catchup_spec (Some from) offered -> exists e, i = gate_item e /\ e ∈ newer from h) as Hin.
  { intros i [Hi Ha]%catchup_spec_in. apply Hsub, list_elem_of_fmap in Hi as (e & -> & He).
    exists e. split; [done|]. apply list_elem_of_filter. split; [|done]. by apply Z.ltb_lt. }
  apply (ascending_unique seq_lt).
  - intros x (a & b & H1 & H2 & Hlt). rewrite H1 in H2. injection H2 as ->. lia.
  - intros x y (a & b & H1 & H2 & Hlt) (c & d & H3 & H4 & Hlt'). simplify_eq. lia.
  - apply in_order_ascending.
    + apply take_pending_order.
    + unfold distinct_seqs. rewrite (omap_Permutation seq _ _ Hperm). apply catchup_spec_distinct.
    + apply Forall_forall. intros i. rewrite Hperm. intros (e & -> & _)%Hin. by eexists.
  - apply gate_items_ascending, increasing_filter, Hinc.
  - intros i. rewrite Hperm. split.
    + intros (e & -> & He)%Hin. by apply list_elem_of_fmap_2.
    + intros (e & -> & He)%list_elem_of_fmap.
      assert (above (Some from) (gate_item e) = true) as Ha.
      { apply list_elem_of_filter in He as [He _]. by apply Z.ltb_lt. }
      destruct (catchup_spec_complete (Some from) offered (gate_item e) (Hall e He) Ha)
        as [H|(v & j & Hv & Hj & Hjv)]; [done|].
      destruct (Hin j Hj) as (e' & -> & He'). cbn in Hv, Hjv. simplify_eq.
      apply list_elem_of_filter in He as [_ He]. apply list_elem_of_filter in He' as [_ He'].
      assert (e = e') as -> by (by eapply increasing_version_inj). done.
Qed.

(** The part of a history the subscription sees. *)
Definition seen (h : History) : History := filter (fun e => sees (notification e)) h.

(** A resumed subscription gets what it missed, once and in order.  When the log has the changes
    after a cursor, the ones it replays to the subscription and whatever the worker offers of the
    same table in the meantime, in any interleaving, leave exactly the applied changes above the
    cursor that the subscription sees in the catch-up buffer: the hand-over sends each of them once,
    in commit order. *)
Theorem resume_hands_over_missed_changes w k from replayed offered :
  log_reachable w ->
  changes_after (bind_domain (replay w) k (cur w k)) k from = Some replayed ->
  (forall n, n ∈ replayed -> sees n = true -> resume_item n ∈ offered) ->
  (forall i, i ∈ offered -> i ∈ gate_item <$> seen (hist w k)) ->
  take_pending (catchup_spec (Some from) offered) = gate_item <$> newer from (seen (hist w k)).
Proof.
  intros Hw Hr Hre Hof.
  assert (replayed = notification <$> newer from (hist w k)) as Hrep.
  { destruct (bound_scope w k (log_reachable_ok _ Hw)) as (l & Hl & _ & Hok).
    rewrite (changes_after_ok _ _ _ _ _ Hl Hok) in Hr; [by injection Hr as <-|].
    unfold changes_after in Hr. rewrite Hl in Hr. by destruct (covers_log l from). }
  apply gate_holds_history; [by apply increasing_filter, hist_increasing|done|].
  intros e He. apply list_elem_of_filter in He as [Hlt He]. apply list_elem_of_filter in He as [Hsees He].
  pose proof (hist_versions w Hw k) as Hv. rewrite Forall_forall in Hv.
  assert (resume_item (notification e) = gate_item e) as <-.
  { unfold resume_item, gate_item. by rewrite Hv. }
  apply Hre; [|by apply Is_true_true in Hsees]. rewrite Hrep.
  by apply list_elem_of_fmap_2, list_elem_of_filter.
Qed.
End Resume.

(** ** Witness *)

Module LiveResumeWitness.
Import LiveReplayWitness.

Definition wire0 (n : ChangeNotification) : option Z := version_of n.

(** Resuming from 5 in the run of LiveReplay: change 6 is replayed, and offered by the worker too. *)
Lemma resume_hands_over_missed_changes_witness :
  take_pending (catchup_spec (Some 5) [mkBuffered (Some 6) (Some 6); mkBuffered (Some 6) (Some 6)]) =
  gate_item wire0 <$> newer 5 (seen (fun _ => true) (hist w4 k0)).
Proof.
  apply (resume_hands_over_missed_changes wire0 (fun _ => true) w4 k0 5 [chg 6]).
  - exact w4_reachable.
  - vm_compute. reflexivity.
  - intros n Hn _. apply list_elem_of_singleton in Hn as ->. vm_compute. by left.
  - intros i Hi. rewrite hist_w4. assert (i = mkBuffered (Some 6) (Some 6)) as -> by set_solver.
    vm_compute. by right; left.
Defined.

End LiveResumeWitness.
