(* ===== verification/LiveNotify.v ===== *)
(** * LiveNotify: which changes a live query sees, and as what

    Model of kalamdb-live/src/notification.rs: row visibility, the payload of a change (projection,
    update delta, identity of a revoked row) and the dispatch of one change to the subscriptions of
    a table; and of [scalar_value_to_json] of kalamdb-commons/src/conversions/arrow/json.rs.

    A row filter is the compiled predicate of RowFilter.  The row-level security evaluator of a
    subscription is whatever the binder attached to it: a function from rows to booleans.  Delivery
    (LiveFlow) appears as a state-passing function, so that the theorems about dispatch hold for any
    of its states.  [LiveEnv] collects what is not modelled: of the JSON conversion, the text of a
    finite float and the variants of [ScalarValue] outside Scalars (whose null converts to null where
    the variant converts at all); of the row filter, what it takes
    from the regex crate (case folding and the size limit, see RowFilter). *)

From Stdlib Require Import ZArith Lia Floats.SpecFloat.
From stdpp Require Import base countable strings gmap list fin_maps.
From S2P Require Import Prelude Commons Ids Scalars RowFilter TopicPayload LiveReplay.

Open Scope Z_scope.

Abbreviation Row := (gmap string ScalarValue).
Abbreviation RowData := (gmap string Cell).

Inductive LiveError := SerializationError.

Class LiveEnv := {
  float_text : f64 -> string;
  other_json : string -> option string -> option Cell;
  other_json_null : forall variant,
    other_json variant None = Some JsonNull \/ other_json variant None = None;
  case_fold : Z -> Z;
  within_size_limit : Regex -> bool
}.

Definition starts_with_underscore (s : string) : bool :=
  match bytes_of_string s with b :: _ => b =? 95 | [] => false end.

Definition eq_ignore_ascii_case (a b : string) : bool :=
  bool_decide (to_ascii_lowercase a = to_ascii_lowercase b).

(** [serde_json::Number::from_f64]. *)
Definition is_finite (f : f64) : bool :=
  match f with S754_zero _ | S754_finite _ _ _ => true | _ => false end.

Section Notify.
Context {CE : LiveEnv}.

Definition opt_cell {A} (f : A -> Cell) (v : option A) : Result LiveError Cell :=
  Ok (match v with Some x => f x | None => JsonNull end).

Definition float_cell (f : f64) : Result LiveError Cell :=
  if is_finite f then Ok (JsonNumber (float_text f)) else Err SerializationError.

Definition scalar_value_to_json (v : ScalarValue) : Result LiveError Cell :=
  match v with
  | Null => Ok JsonNull
  | Boolean b => opt_cell JsonBool b
  | Int8 i | Int16 i | Int32 i | UInt8 i | UInt16 i | UInt32 i =>
      opt_cell (fun i => JsonNumber (int_text i)) i
  | Int64 i | UInt64 i => opt_cell (fun i => JsonString (int_text i)) i
  | Float32 (Some f) => float_cell (f64_of_f32 f)
  | Float64 (Some f) => float_cell f
  | Float32 None | Float64 None => Ok JsonNull
  | Utf8 s | LargeUtf8 s => opt_cell JsonString s
  | Other variant s =>
      match other_json variant s with Some c => Ok c | None => Err SerializationError end
  end.

(** ** Projection *)

Abbreviation Projection := (option (list string)).

Definition projection_includes_column (projections : Projection) (column : string) : bool :=
  match projections with
  | None => true
  | Some proj =>
      bool_decide (column = VERSION) ||
      existsb (fun candidate => eq_ignore_ascii_case candidate column) proj
  end.

(** The loop that converts and inserts cells; it stops at the first cell that does not convert. *)
Fixpoint insert_cells (cells : list (string * ScalarValue)) (map : RowData) :
    Result LiveError RowData :=
  match cells with
  | [] => Ok map
  | (col, sv) :: rest =>
      match scalar_value_to_json sv with
      | Ok cell => insert_cells rest (<[col := cell]> map)
      | Err e => Err e
      end
  end.

Definition project_row (row : Row) (projections : Projection) : Result LiveError RowData :=
  insert_cells
    (filter (fun cell => projection_includes_column projections cell.1) (map_to_list row)) ∅.

Definition project_delete_identity (row : Row) (pk_columns : list string) : Result LiveError RowData :=
  insert_cells
    (filter (fun cell => starts_with_underscore cell.1 ||
                         existsb (fun pk => eq_ignore_ascii_case pk cell.1) pk_columns)
       (map_to_list row)) ∅.

(** The columns the second loop of [project_update_delta] looks at. *)
Definition delta_columns (new_row : Row) (pk_columns : list string) (projections : Projection) :
    list string :=
  filter (fun col => projection_includes_column projections col &&
                     negb (starts_with_underscore col || bool_decide (col ∈ pk_columns)))
    ((map_to_list new_row).*1).

(** The cells of a row for the given columns, where it has them. *)
Definition row_cells (row : Row) (columns : list string) : list (string * ScalarValue) :=
  omap (fun key => (fun sv => (key, sv)) <$> row !! key) columns.

Definition delta_new_cells (new_row : Row) (pk_columns : list string) (projections : Projection) :
    list (string * ScalarValue) :=
  row_cells new_row (VERSION :: pk_columns) ++
  filter (fun cell => negb (is_null cell.2))
    (row_cells new_row (delta_columns new_row pk_columns projections)).

(** [changed], for a cell of the old row. *)
Definition cell_changed (new_row : Row) (cell : string * ScalarValue) : bool :=
  match new_row !! cell.1 with
  | Some nv => negb (bool_decide (cell.2 = nv))
  | None => false
  end.

Definition delta_old_cells (old_row new_row : Row) (pk_columns : list string)
    (projections : Projection) : list (string * ScalarValue) :=
  row_cells old_row (VERSION :: pk_columns) ++
  filter (fun cell => cell_changed new_row cell)
    (row_cells old_row (delta_columns new_row pk_columns projections)).

Definition project_update_delta (old_row new_row : Row) (pk_columns : list string)
    (projections : Projection) : Result LiveError (RowData * RowData) :=
  match insert_cells (delta_new_cells new_row pk_columns projections) ∅ with
  | Ok new_map =>
      match insert_cells (delta_old_cells old_row new_row pk_columns projections) ∅ with
      | Ok old_map => Ok (new_map, old_map)
      | Err e => Err e
      end
  | Err e => Err e
  end.

(** ** Visibility *)

Record Handle := mkHandle {
  subscription_id : string;
  filter_expr : option CompiledPredicate;
  authorization : option (Row -> bool);
  projections : Projection
}.

Inductive VisibleChange := VInsert | VUpdate | VDelete | VRevoke.

#[export] Instance VisibleChange_eq_dec : EqDecision VisibleChange.
Proof. solve_decision. Defined.

Record SharedChangePayload := mkPayload {
  scp_change_type : ChangeType;
  rows : option (list RowData);
  old_values : option (list RowData)
}.

Record WireNotification := mkWire { wn_subscription_id : string; payload : SharedChangePayload }.

Definition build_shared_payload (change : VisibleChange) (new_row : Row) (old_row : option Row)
    (pk_columns : list string) (proj : Projection) : Result LiveError SharedChangePayload :=
  match change with
  | VInsert =>
      match project_row new_row proj with
      | Ok r => Ok (mkPayload ChangeInsert (Some [r]) None)
      | Err e => Err e
      end
  | VUpdate =>
      match project_update_delta (default new_row old_row) new_row pk_columns proj with
      | Ok (new_rd, old_rd) => Ok (mkPayload ChangeUpdate (Some [new_rd]) (Some [old_rd]))
      | Err e => Err e
      end
  | VDelete =>
      match project_row new_row proj with
      | Ok r => Ok (mkPayload ChangeDelete None (Some [r]))
      | Err e => Err e
      end
  | VRevoke =>
      match project_delete_identity new_row pk_columns with
      | Ok r => Ok (mkPayload ChangeDelete None (Some [r]))
      | Err e => Err e
      end
  end.

Definition row_is_visible (handle : Handle) (row : Row) : bool :=
  match authorization handle with
  | Some authorizes => authorizes row
  | None => true
  end &&
  match filter_expr handle with
  | Some f => match RowFilter.matches case_fold within_size_limit f row with Ok b => b | Err _ => false end
  | None => true
  end.

Definition visible_change (handle : Handle) (change_type : ChangeType) (new_row : Row)
    (old_row : option Row) : option (VisibleChange * Row * option Row) :=
  match change_type with
  | ChangeInsert => if row_is_visible handle new_row then Some (VInsert, new_row, None) else None
  | ChangeDelete => if row_is_visible handle new_row then Some (VDelete, new_row, None) else None
  | ChangeUpdate =>
      let old_row := default new_row old_row in
      match row_is_visible handle old_row, row_is_visible handle new_row with
      | false, false => None
      | false, true => Some (VInsert, new_row, None)
      | true, true => Some (VUpdate, new_row, Some old_row)
      | true, false => Some (VRevoke, old_row, None)
      end
  end.

Definition as_visible_change (change_type : ChangeType) : VisibleChange :=
  match change_type with
  | ChangeInsert => VInsert
  | ChangeUpdate => VUpdate
  | ChangeDelete => VDelete
  end.

(** ** Dispatch of one change *)

(** Delivery is a function on some state: [try_deliver] of LiveFlow on the subscription the handle
    belongs to. *)
Section Dispatch.
Context {S : Type} (deliver : S -> Handle -> WireNotification -> option Z -> Z -> bool * S).

Definition dispatch_one (s : S) (handle : Handle) (new_row : Row) (old_row : option Row)
    (change_type : ChangeType) (pk_columns : list string) (seq_value : option Z) (now : Z) :
    Result LiveError nat * S :=
  match visible_change handle change_type new_row old_row with
  | None => (Ok 0%nat, s)
  | Some (change, payload_row, payload_old_row) =>
      match build_shared_payload change payload_row payload_old_row pk_columns (projections handle) with
      | Err e => (Err e, s)
      | Ok p =>
          let '(delivered, s') := deliver s handle (mkWire (subscription_id handle) p) seq_value now in
          (Ok (if delivered then 1 else 0)%nat, s')
      end
  end.

(** The loop of the fast path: one payload for all. *)
Fixpoint deliver_all (s : S) (handles : list Handle) (p : SharedChangePayload) (seq_value : option Z)
    (now : Z) (count : nat) : nat * S :=
  match handles with
  | [] => (count, s)
  | handle :: rest =>
      let '(delivered, s') := deliver s handle (mkWire (subscription_id handle) p) seq_value now in
      deliver_all s' rest p seq_value now (if delivered then Datatypes.S count else count)
  end.

(** The payloads built so far, by projection and visible change. *)
Abbreviation PayloadCache := (gmap (Projection * nat) SharedChangePayload).

Definition change_index (c : VisibleChange) : nat :=
  match c with VInsert => 0 | VUpdate => 1 | VDelete => 2 | VRevoke => 3 end.

Fixpoint dispatch_loop (s : S) (handles : list Handle) (new_row : Row) (old_row : option Row)
    (change_type : ChangeType) (pk_columns : list string) (seq_value : option Z) (now : Z)
    (cache : PayloadCache) (count : nat) : Result LiveError nat * S :=
  match handles with
  | [] => (Ok count, s)
  | handle :: rest =>
      match visible_change handle change_type new_row old_row with
      | None => dispatch_loop s rest new_row old_row change_type pk_columns seq_value now cache count
      | Some (change, payload_row, payload_old_row) =>
          let cache_key := (projections handle, change_index change) in
          match (match cache !! cache_key with
                 | Some cached => Ok (cached, cache)
                 | None =>
                     match build_shared_payload change payload_row payload_old_row pk_columns
                             (projections handle) with
                     | Ok p => Ok (p, <[cache_key := p]> cache)
                     | Err e => Err e
                     end
                 end) with
          | Err e => (Err e, s)
          | Ok (p, cache') =>
              let '(delivered, s') :=
                deliver s handle (mkWire (subscription_id handle) p) seq_value now in
              dispatch_loop s' rest new_row old_row change_type pk_columns seq_value now cache'
                (if delivered then Datatypes.S count else count)
          end
      end
  end.

(** A subscription to every row and column. *)
Definition is_plain (handle : Handle) : bool :=
  match authorization handle, filter_expr handle, projections handle with
  | None, None, None => true
  | _, _, _ => false
  end.

Definition dispatch_chunk (s : S) (handles : list Handle) (new_row : Row) (old_row : option Row)
    (change_type : ChangeType) (pk_columns : list string) (seq_value : option Z) (now : Z) :
    Result LiveError nat * S :=
  if forallb is_plain handles then
    match build_shared_payload (as_visible_change change_type) new_row old_row pk_columns None with
    | Err e => (Err e, s)
    | Ok p => let '(count, s') := deliver_all s handles p seq_value now 0 in (Ok count, s')
    end
  else dispatch_loop s handles new_row old_row change_type pk_columns seq_value now ∅ 0.

(** Each subscription on its own, in order, until one fails. *)
Fixpoint dispatch_each (s : S) (handles : list Handle) (new_row : Row) (old_row : option Row)
    (change_type : ChangeType) (pk_columns : list string) (seq_value : option Z) (now : Z)
    (count : nat) : Result LiveError nat * S :=
  match handles with
  | [] => (Ok count, s)
  | handle :: rest =>
      match dispatch_one s handle new_row old_row change_type pk_columns seq_value now with
      | (Ok n, s') =>
          dispatch_each s' rest new_row old_row change_type pk_columns seq_value now (count + n)%nat
      | (Err e, s') => (Err e, s')
      end
  end.
End Dispatch.

(** [SHARED_NOTIFY_CHUNK_SIZE]. *)
Definition SHARED_NOTIFY_CHUNK_SIZE : nat := (2 ^ 11)%nat.

(** ** Converting cells *)

Definition cell_of (v : ScalarValue) : option Cell :=
  match scalar_value_to_json v with Ok c => Some c | Err _ => None end.

(** The cells of a row end up under their column; the others are left alone. *)
Lemma insert_cells_lookup (row : Row) cells : forall map map' c,
  Forall (fun cell => row !! cell.1 = Some cell.2) cells ->
  insert_cells cells map = Ok map' ->
  map' !! c = if bool_decide (c ∈ cells.*1) then row !! c ≫= cell_of else map !! c.
Proof.
  induction cells as [|[col sv] cells IH]; intros map map' c Hrow; cbn [insert_cells].
  { intros [= <-]. rewrite bool_decide_eq_false_2; [done|]. by intros ?%elem_of_nil. }
  apply Forall_cons in Hrow as [Hsv Hrow]. cbn in Hsv.
  destruct (scalar_value_to_json sv) as [cell|e] eqn:Ej; [|done]. intros Hm.
  rewrite (IH _ _ _ Hrow Hm). rewrite fmap_cons. cbn [fst].
  destruct (decide (c ∈ cells.*1)) as [Hin|Hin].
  { rewrite !bool_decide_eq_true_2 by set_solver. done. }
  rewrite (bool_decide_eq_false_2 (c ∈ cells.*1)) by done.
  destruct (decide (c = col)) as [->|Hne].
  - rewrite bool_decide_eq_true_2 by set_solver. rewrite lookup_insert_eq, Hsv. cbn.
    unfold cell_of. by rewrite Ej.
  - rewrite bool_decide_eq_false_2 by set_solver. by rewrite lookup_insert_ne.
Qed.

Lemma insert_cells_ok cells map :
  Forall (fun cell => is_Some (cell_of cell.2)) cells <-> is_ok (insert_cells cells map) = true.
Proof.
  revert map. induction cells as [|[col sv] cells IH]; intros map; [done|].
  rewrite Forall_cons. cbn [insert_cells snd]. unfold cell_of at 1.
  destruct (scalar_value_to_json sv) as [c|e]; cbn.
  - rewrite <-IH. split; [tauto|]. intros H. split; [by eexists|done].
  - split; [by intros [[? [=]] _]|done].
Qed.

Lemma row_cells_row (row : Row) cols : Forall (fun cell => row !! cell.1 = Some cell.2) (row_cells row cols).
Proof.
  apply Forall_forall. intros [c v] Hc. apply list_elem_of_omap in Hc as (k & _ & Hk).
  destruct (row !! k) as [w|] eqn:E; [|done]. cbn in Hk. by injection Hk as <- <-.
Qed.

Lemma row_cells_key (row : Row) cols c v : (c, v) ∈ row_cells row cols <-> c ∈ cols /\ row !! c = Some v.
Proof.
  unfold row_cells. rewrite list_elem_of_omap. split.
  - intros (k & Hk & E). destruct (row !! k) as [w|] eqn:Ew; [|done]. cbn in E.
    by injection E as <- <-.
  - intros [Hc Hv]. exists c. by rewrite Hv.
Qed.

(** What a successful conversion of cells of one row holds for a column. *)
Lemma insert_cells_row (row : Row) cells map c :
  Forall (fun cell => row !! cell.1 = Some cell.2) cells -> insert_cells cells ∅ = Ok map ->
  map !! c = match row !! c with
             | Some v => if bool_decide ((c, v) ∈ cells) then cell_of v else None
             | None => None
             end.
Proof.
  intros Hrow Hm. rewrite (insert_cells_lookup row _ _ _ c Hrow Hm), lookup_empty.
  destruct (decide (c ∈ cells.*1)) as [Hin|Hin].
  - rewrite bool_decide_eq_true_2 by done. apply list_elem_of_fmap in Hin as ([c' v] & -> & Hin).
    rewrite Forall_forall in Hrow. pose proof (Hrow _ Hin) as Hv. cbn in Hv |- *. rewrite Hv. cbn.
    by rewrite bool_decide_eq_true_2.
  - rewrite bool_decide_eq_false_2 by done. destruct (row !! c) as [v|]; [|done].
    rewrite bool_decide_eq_false_2; [done|]. intros Hc. apply Hin, list_elem_of_fmap. by exists (c, v).
Qed.

Lemma filtered_cells (P : string * ScalarValue -> Prop) (p : string * ScalarValue -> bool) cells :
  Forall P cells -> Forall P (filter (fun cell => p cell) cells).
Proof.
  rewrite !Forall_forall. intros H cell [_ Hc]%list_elem_of_filter. by apply H.
Qed.

Lemma filtered_row_cells (row : Row) (p : string * ScalarValue -> bool) :
  Forall (fun cell => row !! cell.1 = Some cell.2) (filter (fun cell => p cell) (map_to_list row)).
Proof.
  apply Forall_forall. intros [c v] [_ Hc]%list_elem_of_filter. by apply elem_of_map_to_list.
Qed.

Lemma project_row_lookup row p map c :
  project_row row p = Ok map ->
  map !! c = match row !! c with
             | Some v => if projection_includes_column p c then cell_of v else None
             | None => None
             end.
Proof.
  intros Hm. unfold project_row in Hm.
  rewrite (insert_cells_row row _ _ c (filtered_row_cells row (fun cell => projection_includes_column p cell.1)) Hm).
  destruct (row !! c) as [v|] eqn:Ev; [|done].
  destruct (projection_includes_column p c) eqn:Ep.
  - rewrite bool_decide_eq_true_2; [done|]. apply list_elem_of_filter. cbn. rewrite Ep.
    split; [done|]. by apply elem_of_map_to_list.
  - rewrite bool_decide_eq_false_2; [done|]. rewrite list_elem_of_filter. cbn. rewrite Ep. tauto.
Qed.

(** Columns a delta carries for identification: the version and the primary key. *)
Definition identity_column (pk_columns : list string) (c : string) : bool :=
  bool_decide (c ∈ VERSION :: pk_columns).

(** Columns a delta describes: selected, neither a system column nor part of the key. *)
Definition delta_column (pk_columns : list string) (p : Projection) (c : string) : bool :=
  projection_includes_column p c &&
  negb (starts_with_underscore c || bool_decide (c ∈ pk_columns)).

Lemma delta_columns_spec new_row pk p c :
  c ∈ delta_columns new_row pk p <-> delta_column pk p c = true /\ is_Some (new_row !! c).
Proof.
  unfold delta_columns. rewrite list_elem_of_filter, list_elem_of_fmap.
  fold (delta_column pk p c). rewrite Is_true_true. split; intros [H1 H2]; (split; [done|]).
  - destruct H2 as ([k v] & -> & Hk). exists v. by apply elem_of_map_to_list.
  - destruct H2 as [v Hv]. exists (c, v). split; [done|]. by apply elem_of_map_to_list.
Qed.

Lemma update_delta_lookup old_row new_row pk p new_map old_map :
  project_update_delta old_row new_row pk p = Ok (new_map, old_map) ->
  (forall c, new_map !! c =
     match new_row !! c with
     | Some v => if identity_column pk c || (delta_column pk p c && negb (is_null v)) then cell_of v else None
     | None => None
     end) /\
  (forall c, old_map !! c =
     match old_row !! c with
     | Some v => if identity_column pk c || (delta_column pk p c && cell_changed new_row (c, v))
                 then cell_of v else None
     | None => None
     end).
Proof.
  unfold project_update_delta. destruct (insert_cells (delta_new_cells _ _ _) ∅) as [m1|] eqn:E1; [|done].
  destruct (insert_cells (delta_old_cells _ _ _ _) ∅) as [m2|] eqn:E2; [|done]. intros [= <- <-].
  split; intros c.
  - rewrite (insert_cells_row new_row _ _ c) with (2 := E1).
    + destruct (new_row !! c) as [v|] eqn:Ev; [|done]. apply if_ext_bool.
      rewrite bool_decide_eq_true. unfold delta_new_cells. rewrite elem_of_app, list_elem_of_filter.
      rewrite !row_cells_key, delta_columns_spec, Ev, orb_true_iff, andb_true_iff. cbn [snd].
      unfold identity_column. rewrite bool_decide_eq_true, Is_true_true. naive_solver.
    + apply Forall_app. split; [apply row_cells_row|]. apply (filtered_cells _ (fun cell => negb (is_null cell.2))), row_cells_row.
  - rewrite (insert_cells_row old_row _ _ c) with (2 := E2).
    + destruct (old_row !! c) as [v|] eqn:Ev; [|done]. apply if_ext_bool.
      rewrite bool_decide_eq_true. unfold delta_old_cells. rewrite elem_of_app, list_elem_of_filter.
      rewrite !row_cells_key, delta_columns_spec, Ev, orb_true_iff, andb_true_iff.
      unfold identity_column. rewrite bool_decide_eq_true, Is_true_true. unfold cell_changed. cbn [fst snd].
      destruct (new_row !! c); naive_solver.
    + apply Forall_app. split; [apply row_cells_row|]. apply (filtered_cells _ (cell_changed new_row)), row_cells_row.
Qed.

(** The update payload is exact: the new part holds the version, the key and the non-null
    selected columns of the new row, nothing else; the old part holds the version, the key and
    exactly those selected columns whose value the update changed, with their old values.  Replacing
    the row a client holds by the new part therefore gives the new row, a missing column standing
    for NULL. *)
Theorem update_delta_exact old_row new_row pk p new_map old_map :
  project_update_delta old_row new_row pk p = Ok (new_map, old_map) ->
  (forall c, new_map !! c =
     match new_row !! c with
     | Some v => if identity_column pk c || (delta_column pk p c && negb (is_null v)) then cell_of v else None
     | None => None
     end) /\
  (forall c, old_map !! c =
     match old_row !! c with
     | Some v => if identity_column pk c || (delta_column pk p c && cell_changed new_row (c, v))
                 then cell_of v else None
     | None => None
     end).
Proof. apply update_delta_lookup. Qed.

(** ** Visible changes track the filtered table *)

Section View.
Context {K : Type} `{Countable K}.

(** A committed change of the row with a key, as a notification describes it: an update carries the
    row it replaces; a soft delete (user and shared tables) the tombstone, which has the fields of
    the row and system columns of its own; a hard delete (stream tables) only [delete_hard_row]. *)
Inductive RowChange :=
| RowInserted (new_row : Row)
| RowUpdated (old_row new_row : Row)
| RowDeleted (tombstone : Row).

(** [ChangeNotification::delete_hard]. *)
Definition delete_hard_row (row_id : string) : Row := {["row_id" := Utf8 (Some row_id)]}.

(** The change fits the table, and the row a delete is notified with passes the filter and the
    row-level security of the subscription exactly when the deleted row does.  A soft delete does
    that when these read no system column; a hard delete does not, see
    [hard_delete_stays_in_view]. *)
Definition row_change_ok (h : Handle) (table : gmap K Row) (k : K) (c : RowChange) : Prop :=
  match c with
  | RowInserted _ => table !! k = None
  | RowUpdated old_row _ => table !! k = Some old_row
  | RowDeleted tombstone => exists row, table !! k = Some row /\
      row_is_visible h tombstone = row_is_visible h row
  end.

Definition table_after (table : gmap K Row) (k : K) (c : RowChange) : gmap K Row :=
  match c with
  | RowInserted r | RowUpdated _ r => <[k := r]> table
  | RowDeleted _ => delete k table
  end.

Definition change_visible (h : Handle) (c : RowChange) : option (VisibleChange * Row * option Row) :=
  match c with
  | RowInserted r => visible_change h ChangeInsert r None
  | RowUpdated old_row new_row => visible_change h ChangeUpdate new_row (Some old_row)
  | RowDeleted r => visible_change h ChangeDelete r None
  end.

(** What a subscriber does with a visible change. *)
Definition view_after (view : gmap K Row) (k : K) (v : option (VisibleChange * Row * option Row)) :
    gmap K Row :=
  match v with
  | None => view
  | Some ((VInsert | VUpdate), r, _) => <[k := r]> view
  | Some ((VDelete | VRevoke), _, _) => delete k view
  end.

Definition view_of (h : Handle) (table : gmap K Row) : gmap K Row :=
  filter (fun kr => row_is_visible h kr.2) table.

Lemma view_of_lookup h table k r :
  view_of h table !! k = Some r <-> table !! k = Some r /\ row_is_visible h r = true.
Proof. unfold view_of. rewrite map_lookup_filter_Some. cbn. by rewrite Is_true_true. Qed.

Lemma view_insert_visible h table k r :
  row_is_visible h r = true -> view_of h (<[k := r]> table) = <[k := r]> (view_of h table).
Proof. intros Hv. apply map_filter_insert_True. cbn. by rewrite Hv. Qed.

Lemma view_insert_hidden h table k r :
  row_is_visible h r = false -> view_of h (<[k := r]> table) = delete k (view_of h table).
Proof.
  intros Hv. unfold view_of. rewrite map_filter_insert_False by (cbn; rewrite Hv; tauto).
  by rewrite map_filter_delete.
Qed.

(** One change. *)
Lemma view_step h table k c :
  row_change_ok h table k c ->
  view_of h (table_after table k c) = view_after (view_of h table) k (change_visible h c).
Proof.
  assert (forall r, table !! k = Some r -> row_is_visible h r = false ->
    view_of h table !! k = None) as Hhid.
  { intros r Hr Hv. destruct (view_of h table !! k) as [r'|] eqn:E; [|done].
    apply view_of_lookup in E as [E1 E2]. congruence. }
  destruct c as [r|o r|r]; cbn [row_change_ok table_after change_visible visible_change default];
    intros Hok.
  - destruct (row_is_visible h r) eqn:Hr; cbn [view_after]; [by apply view_insert_visible|].
    rewrite view_insert_hidden by done. apply delete_id.
    destruct (view_of h table !! k) as [r'|] eqn:E; [|done]. apply view_of_lookup in E as [E _]. congruence.
  - cbn [from_option id]. destruct (row_is_visible h o) eqn:Ho, (row_is_visible h r) eqn:Hr; cbn [view_after].
    + by apply view_insert_visible.
    + by apply view_insert_hidden.
    + by apply view_insert_visible.
    + rewrite view_insert_hidden by done. apply delete_id. by eapply Hhid.
  - destruct Hok as (row & Hrow & Hsame).
    unfold view_of at 1. rewrite map_filter_delete. fold (view_of h table).
    destruct (row_is_visible h r) eqn:Hr; cbn [view_after]; [done|].
    apply delete_id. eapply Hhid; [exact Hrow|congruence].
Qed.

(** A history of changes that fits the table. *)
Fixpoint history_ok (h : Handle) (table : gmap K Row) (cs : list (K * RowChange)) : Prop :=
  match cs with
  | [] => True
  | (k, c) :: rest => row_change_ok h table k c /\ history_ok h (table_after table k c) rest
  end.

Definition run_table (table : gmap K Row) (cs : list (K * RowChange)) : gmap K Row :=
  foldl (fun t kc => table_after t kc.1 kc.2) table cs.

Definition run_view (h : Handle) (view : gmap K Row) (cs : list (K * RowChange)) : gmap K Row :=
  foldl (fun v kc => view_after v kc.1 (change_visible h kc.2)) view cs.

(** C32. A live query is the filtered table, incrementally, for deletes whose notified row passes
    exactly when the deleted row does (soft deletes; not the hard deletes of stream tables, see
    [hard_delete_stays_in_view]): a subscriber that starts from the rows its row-level security and
    its filter let through, and applies the visible changes it is sent (an update that moves a row
    into view arrives as an insert, one that moves it out of view as a delete), holds exactly the
    rows of the current table that pass, after any such history of inserts, updates and deletes. *)
Theorem live_view_tracks_table h table cs :
  history_ok h table cs ->
  run_view h (view_of h table) cs = view_of h (run_table table cs).
Proof.
  revert table. induction cs as [|[k c] cs IH]; intros table; [done|].
  cbn [history_ok]. intros [Hc Hcs]. unfold run_view, run_table. cbn [foldl fst snd].
  rewrite <-view_step by done. by apply IH.
Qed.

(** A hard delete stays in view: a subscription whose filter compares a column with a literal is
    not told of the deletes of stream tables, which are notified with the row id alone, so its view
    keeps every such row. *)
Theorem hard_delete_stays_in_view h (table : gmap K Row) k row row_id c op lit n :
  filter_expr h = Some (mkCompiled (PComparison (Column c) op (LiteralValue lit)) n) ->
  lookup_column c (delete_hard_row row_id) = None -> view_of h table !! k = Some row ->
  change_visible h (RowDeleted (delete_hard_row row_id)) = None /\
  run_view h (view_of h table) [(k, RowDeleted (delete_hard_row row_id))] !! k = Some row /\
  view_of h (run_table table [(k, RowDeleted (delete_hard_row row_id))]) !! k = None.
Proof.
  intros Hf Hc Hv.
  assert (row_is_visible h (delete_hard_row row_id) = false) as Hh.
  { unfold row_is_visible. rewrite Hf. cbn. rewrite Hc. by destruct op, (authorization h) as [a|]; cbn;
      rewrite ?andb_false_r. }
  unfold run_view, run_table. cbn [foldl fst snd]. cbn [change_visible visible_change table_after].
  rewrite Hh. split_and!; [done|done|]. unfold view_of. rewrite map_filter_delete. apply lookup_delete_eq.
Qed.
End View.

(** ** Shared payloads *)

Section DispatchFacts.
Context {S : Type} (deliver : S -> Handle -> WireNotification -> option Z -> Z -> bool * S).
Context (new_row : Row) (old_row : option Row) (change_type : ChangeType) (pk_columns : list string)
  (seq_value : option Z) (now : Z).

(** Every cached payload is the one its subscribers would build. *)
Definition payload_cache_ok (cache : gmap (Projection * nat) SharedChangePayload) : Prop :=
  forall h change r o p,
    visible_change h change_type new_row old_row = Some (change, r, o) ->
    cache !! (projections h, change_index change) = Some p ->
    build_shared_payload change r o pk_columns (projections h) = Ok p.

(** The visible change determines the rows its payload is built from. *)
Lemma visible_rows h h' c r o r' o' :
  visible_change h change_type new_row old_row = Some (c, r, o) ->
  visible_change h' change_type new_row old_row = Some (c, r', o') -> r = r' /\ o = o'.
Proof.
  unfold visible_change. destruct change_type; repeat case_match; naive_solver.
Qed.

Lemma change_index_inj c c' : change_index c = change_index c' -> c = c'.
Proof. by destruct c, c'. Qed.

Lemma cache_ok_insert cache h c r o p :
  payload_cache_ok cache -> visible_change h change_type new_row old_row = Some (c, r, o) ->
  build_shared_payload c r o pk_columns (projections h) = Ok p ->
  payload_cache_ok (<[(projections h, change_index c) := p]> cache).
Proof.
  intros Hc Hv Hp h' c' r' o' p' Hv'. rewrite lookup_insert. case_decide as E; [|by apply Hc].
  injection E as E1 E2. apply change_index_inj in E2 as <-. intros [= <-].
  destruct (visible_rows _ _ _ _ _ _ _ Hv Hv') as [<- <-]. by rewrite <-E1.
Qed.

Lemma dispatch_loop_each handles : forall s cache count,
  payload_cache_ok cache ->
  dispatch_loop deliver s handles new_row old_row change_type pk_columns seq_value now cache count =
  dispatch_each deliver s handles new_row old_row change_type pk_columns seq_value now count.
Proof.
  induction handles as [|h handles IH]; intros s cache count Hc; [done|].
  cbn [dispatch_loop dispatch_each]. unfold dispatch_one.
  destruct (visible_change h change_type new_row old_row) as [[[c r] o]|] eqn:Hv.
  - destruct (cache !! (projections h, change_index c)) as [p|] eqn:Hl.
    + rewrite (Hc _ _ _ _ _ Hv Hl). destruct (deliver _ _ _ _ _) as [b s'].
      rewrite IH by done. f_equal. destruct b; lia.
    + destruct (build_shared_payload c r o pk_columns (projections h)) as [p|e] eqn:Hp; [|done].
      destruct (deliver _ _ _ _ _) as [b s']. rewrite IH by (by eapply cache_ok_insert).
      f_equal. destruct b; lia.
  - rewrite IH by done. f_equal. lia.
Qed.

Lemma plain_visible h row : is_plain h = true -> row_is_visible h row = true.
Proof.
  unfold is_plain, row_is_visible. by destruct (authorization h), (filter_expr h), (projections h).
Qed.

(** A plain subscription sees every change, with the payload of the fast path. *)
Lemma plain_dispatch h p s :
  is_plain h = true ->
  build_shared_payload (as_visible_change change_type) new_row old_row pk_columns None = p ->
  dispatch_one deliver s h new_row old_row change_type pk_columns seq_value now =
  match p with
  | Err e => (Err e, s)
  | Ok p => let '(b, s') := deliver s h (mkWire (subscription_id h) p) seq_value now in
            (Ok (if b then 1 else 0)%nat, s')
  end.
Proof.
  intros Hh Hp. assert (projections h = None) as Hproj.
  { revert Hh. unfold is_plain. by destruct (authorization h), (filter_expr h), (projections h). }
  unfold dispatch_one, visible_change. rewrite !plain_visible by done. rewrite Hproj. subst p.
  by destruct change_type.
Qed.

Lemma deliver_all_each handles p : forall s count,
  forallb is_plain handles = true ->
  build_shared_payload (as_visible_change change_type) new_row old_row pk_columns None = Ok p ->
  (let '(n, s') := deliver_all deliver s handles p seq_value now count in (Ok n, s')) =
  dispatch_each deliver s handles new_row old_row change_type pk_columns seq_value now count.
Proof.
  induction handles as [|h handles IH]; intros s count Hall Hp; [done|].
  cbn [forallb] in Hall. apply andb_true_iff in Hall as [Hh Hall].
  cbn [deliver_all dispatch_each]. rewrite (plain_dispatch h _ s Hh Hp).
  destruct (deliver _ _ _ _ _) as [b s']. rewrite IH by done. f_equal. destruct b; lia.
Qed.

Lemma dispatch_chunk_each s handles :
  handles <> [] ->
  dispatch_chunk deliver s handles new_row old_row change_type pk_columns seq_value now =
  dispatch_each deliver s handles new_row old_row change_type pk_columns seq_value now 0.
Proof.
  intros Hne. unfold dispatch_chunk. destruct (forallb is_plain handles) eqn:Hall.
  - destruct (build_shared_payload _ _ _ _ _) as [p|e] eqn:Hp.
    + by apply deliver_all_each.
    + destruct handles as [|h handles]; [done|]. cbn [forallb] in Hall.
      apply andb_true_iff in Hall as [Hh _]. cbn [dispatch_each].
      by rewrite (plain_dispatch h _ s Hh Hp).
  - apply dispatch_loop_each. intros h c r o p _. by rewrite lookup_empty.
Qed.

(** Sharing payloads changes nothing: dispatching a change to a chunk of subscriptions, with
    its fast path for plain subscriptions and its cache of payloads per projection and kind of
    change, has the same effect on every delivery state, delivers the same notifications in the same
    order and returns the same count or error as serving the subscriptions one by one. *)
Theorem dispatch_chunk_is_per_subscription s handles :
  handles <> [] ->
  dispatch_chunk deliver s handles new_row old_row change_type pk_columns seq_value now =
  dispatch_each deliver s handles new_row old_row change_type pk_columns seq_value now 0.
Proof. apply dispatch_chunk_each. Qed.

(** A change that does not convert to JSON disappears without a lapse: when a column of an
    inserted row holds a value with no JSON form (a NaN or infinite float), no subscription without
    a projection is told anything, neither the change nor that it missed one. *)
Theorem unserializable_insert_is_silent s handles c v :
  handles <> [] -> Forall (fun h => projections h = None) handles ->
  new_row !! c = Some v -> cell_of v = None -> change_type = ChangeInsert ->
  exists r, dispatch_chunk deliver s handles new_row old_row change_type pk_columns seq_value now = (r, s).
Proof.
  intros Hne Hproj Hc Hv Hct. rewrite dispatch_chunk_each by done.
  assert (exists e, build_shared_payload VInsert new_row None pk_columns None = Err e) as [e He].
  { cbn. destruct (project_row new_row None) as [m|e] eqn:E; [|eauto].
    assert (is_ok (project_row new_row None) = true) as Hok by (by rewrite E).
    apply insert_cells_ok in Hok. rewrite Forall_forall in Hok.
    assert ((c, v) ∈ filter (fun cell => projection_includes_column None cell.1) (map_to_list new_row))
      as Hin by (apply list_elem_of_filter; split; [done|by apply elem_of_map_to_list]).
    apply Hok in Hin as [x Hx]. cbn in Hx. congruence. }
  clear Hne. revert s. generalize 0%nat. induction handles as [|h handles IH]; intros n s; [by eexists|].
  apply Forall_cons in Hproj as [Hh Hproj]. cbn [dispatch_each]. unfold dispatch_one, visible_change.
  rewrite Hct. destruct (row_is_visible h new_row).
  - rewrite Hh, He. by eexists.
  - rewrite <-Hct. by apply IH.
Qed.
End DispatchFacts.
End Notify.

(** ** Witnesses *)

Module LiveNotifyWitness.

#[local] Instance live_env : LiveEnv.
Proof.
  refine {| float_text := fun _ => "0.0"; other_json := fun _ _ => None; case_fold := fun c => c;
            within_size_limit := fun _ => true |}.
  intros. by right.
Defined.

Definition policy (row : Row) : bool := bool_decide (row !! "level" = Some (Int32 (Some 1))).
Definition h0 : Handle := mkHandle "sub" None (Some policy) None.
Definition h1 : Handle := mkHandle "all" None None None.

Definition trow (id level version : Z) : Row :=
  <["id" := Int32 (Some id)]> (<["level" := Int32 (Some level)]>
    {[ VERSION := Int64 (Some version) ]}).

(** The level of row 7 goes from 1 to 2. *)
Lemma update_delta_exact_witness :
  exists n o, project_update_delta (trow 7 1 10) (trow 7 2 11) ["id"] None = Ok (n, o) /\
    n !! "level" = Some (JsonNumber "2") /\ o !! "level" = Some (JsonNumber "1").
Proof.
  destruct (project_update_delta (trow 7 1 10) (trow 7 2 11) ["id"] None) as [[n o]|e] eqn:E;
    [|vm_compute in E; discriminate E].
  exists n, o. split; [reflexivity|].
  destruct (update_delta_exact (trow 7 1 10) (trow 7 2 11) ["id"] None n o E) as [Hn Ho].
  rewrite (Hn "level"), (Ho "level"). split; vm_compute; reflexivity.
Defined.

(** Row 7 is inserted into view, moves out of it, and back in. *)
Definition hist0 : list (string * RowChange) :=
  [("7", RowInserted (trow 7 1 10)); ("7", RowUpdated (trow 7 1 10) (trow 7 2 11));
   ("7", RowUpdated (trow 7 2 11) (trow 7 1 12))].

Lemma live_view_tracks_table_witness :
  run_view h0 (view_of h0 (∅ : gmap string Row)) hist0 = view_of h0 (run_table ∅ hist0).
Proof. apply (live_view_tracks_table h0 ∅ hist0). repeat split. Defined.

(** [level = 1] on a stream table. *)
Definition level_column : ColumnRef := mkColumn "level" "level" "LEVEL".
Definition level_filter : CompiledPredicate :=
  mkCompiled (PComparison (Column level_column) CEq (LiteralValue (Int64 (Some 1)))) 1.
Definition h_level : Handle := mkHandle "filtered" (Some level_filter) None None.

Lemma hard_delete_stays_in_view_witness :
  run_view h_level (view_of h_level {["k" := trow 7 1 10]})
    [("k", RowDeleted (delete_hard_row "u:7"))] !! "k" = Some (trow 7 1 10).
Proof.
  apply (hard_delete_stays_in_view h_level {["k" := trow 7 1 10]} "k" (trow 7 1 10) "u:7" level_column CEq
           (Int64 (Some 1)) 1); vm_compute; reflexivity.
Defined.

(** Two subscriptions that share no payload; every delivery succeeds and is recorded. *)
Definition deliver0 (s : list WireNotification) (h : Handle) (w : WireNotification) (q : option Z)
    (now : Z) : bool * list WireNotification := (true, s ++ [w]).

Lemma dispatch_chunk_is_per_subscription_witness :
  dispatch_chunk deliver0 [] [h0; h1] (trow 7 1 10) None ChangeInsert [] (Some 10) 0 =
  dispatch_each deliver0 [] [h0; h1] (trow 7 1 10) None ChangeInsert [] (Some 10) 0 0.
Proof.
  apply (dispatch_chunk_is_per_subscription deliver0 (trow 7 1 10) None ChangeInsert [] (Some 10) 0 []
    [h0; h1]). discriminate.
Defined.

Definition nan_row : Row := <["score" := Float64 (Some S754_nan)]> (trow 7 1 10).

Lemma unserializable_insert_is_silent_witness :
  exists r, dispatch_chunk deliver0 [] [h0; h1] nan_row None ChangeInsert [] (Some 10) 0 = (r, []).
Proof.
  apply (unserializable_insert_is_silent deliver0 nan_row None ChangeInsert [] (Some 10) 0 [] [h0; h1]
    "score" (Float64 (Some S754_nan))); try reflexivity; [discriminate|].
  repeat constructor.
Defined.

End LiveNotifyWitness.
