(* ===== verification/LiveFanout.v ===== *)
(** * LiveFanout: the notifications a commit releases

    Model of kalamdb-live/src/fanout.rs and of [dispatch_commit_plan] of
    kalamdb-live/src/notification.rs: the changes of a committed transaction are grouped by table
    and owner, and each group is handed to the notifier in one go.  The calls of [notify_async] are
    the result; what one call does is modelled in LiveReplay (the log) and LiveNotify (dispatch).
    Two counters of a group that this code leaves at zero are left out. *)

From Stdlib Require Import ZArith Lia.
From stdpp Require Import base countable strings gmap list.
From S2P Require Import Prelude BTree Commons Ids Scalars LiveReplay.

Open Scope Z_scope.

Inductive FanoutOwnerScope := ScopeShared | ScopeUser (user_id : UserId).

#[export] Instance FanoutOwnerScope_eq_dec : EqDecision FanoutOwnerScope.
Proof. solve_decision. Defined.

Definition scope_user_id (o : FanoutOwnerScope) : option UserId :=
  match o with ScopeShared => None | ScopeUser u => Some u end.

Definition sort_key (o : FanoutOwnerScope) : string :=
  match o with ScopeShared => "shared" | ScopeUser u => ("user:" +:+ u)%string end.

Record FanoutDispatchPlan := mkDispatch {
  fd_table_id : TableId;
  owner_scope : FanoutOwnerScope;
  change_count : Z;
  seq_upper_bound : option Z;
  fd_notifications : list ChangeNotification
}.

Definition dispatch_new (t : TableId) (o : FanoutOwnerScope) : FanoutDispatchPlan :=
  mkDispatch t o 0 None [].

Definition record_change (d : FanoutDispatchPlan) : FanoutDispatchPlan :=
  mkDispatch (fd_table_id d) (owner_scope d) (change_count d + 1) (seq_upper_bound d)
    (fd_notifications d).

Definition observe_notification_seq (bound : option Z) (n : ChangeNotification) : option Z :=
  match version_of n with
  | Some seq_value =>
      match bound with
      | Some existing => if seq_value <=? existing then bound else Some seq_value
      | None => Some seq_value
      end
  | None => bound
  end.

Definition dispatch_push (d : FanoutDispatchPlan) (n : ChangeNotification) : FanoutDispatchPlan :=
  mkDispatch (fd_table_id d) (owner_scope d) (change_count d + 1)
    (observe_notification_seq (seq_upper_bound d) n) (fd_notifications d ++ [n]).

Record CommitSideEffectPlan := mkPlan {
  cp_transaction_id : TransactionId;
  cp_notifications : list FanoutDispatchPlan;
  publisher_events : Z;
  manifest_updates : Z
}.

Definition plan_new (t : TransactionId) : CommitSideEffectPlan := mkPlan t [] 0 0.

Definition same_group (t : TableId) (o : FanoutOwnerScope) (d : FanoutDispatchPlan) : bool :=
  bool_decide (fd_table_id d = t) && bool_decide (owner_scope d = o).

(** [iter_mut().find(..)] and the update of the group found; a new group goes to the end. *)
Fixpoint update_group (t : TableId) (o : FanoutOwnerScope)
    (f : FanoutDispatchPlan -> FanoutDispatchPlan) (l : list FanoutDispatchPlan) :
    list FanoutDispatchPlan :=
  match l with
  | [] => [f (dispatch_new t o)]
  | d :: rest => if same_group t o d then f d :: rest else d :: update_group t o f rest
  end.

Definition push_notification (p : CommitSideEffectPlan) (o : FanoutOwnerScope)
    (n : ChangeNotification) : CommitSideEffectPlan :=
  mkPlan (cp_transaction_id p)
    (update_group (ch_table_id n) o (fun d => dispatch_push d n) (cp_notifications p))
    (publisher_events p) (manifest_updates p).

Definition record_publisher_event (p : CommitSideEffectPlan) : CommitSideEffectPlan :=
  mkPlan (cp_transaction_id p) (cp_notifications p) (publisher_events p + 1) (manifest_updates p).

Definition record_manifest_update (p : CommitSideEffectPlan) : CommitSideEffectPlan :=
  mkPlan (cp_transaction_id p) (cp_notifications p) (publisher_events p) (manifest_updates p + 1).

Definition record_notification_group (p : CommitSideEffectPlan) (t : TableId) (o : FanoutOwnerScope) :
    CommitSideEffectPlan :=
  mkPlan (cp_transaction_id p) (update_group t o record_change (cp_notifications p))
    (publisher_events p) (manifest_updates p).

Definition plan_is_empty (p : CommitSideEffectPlan) : bool :=
  match cp_notifications p with [] => true | _ => false end &&
  (publisher_events p =? 0) && (manifest_updates p =? 0).

Record TransactionSideEffects := mkEffects {
  notifications_sent : Z;
  te_manifest_updates : Z;
  te_publisher_events : Z
}.

Definition sum_counts (l : list FanoutDispatchPlan) : Z :=
  foldr (fun d n => change_count d + n) 0 l.

Definition side_effects (p : CommitSideEffectPlan) : TransactionSideEffects :=
  mkEffects (sum_counts (cp_notifications p)) (manifest_updates p) (publisher_events p).

Definition plan_le (a b : FanoutDispatchPlan) : bool :=
  match str_compare (full_name (fd_table_id a)) (full_name (fd_table_id b)) with
  | Lt => true
  | Gt => false
  | Eq => match str_compare (sort_key (owner_scope a)) (sort_key (owner_scope b)) with
          | Gt => false
          | _ => true
          end
  end.

(** The stable sort of [sort_plans]. *)
Definition sort_plans (p : CommitSideEffectPlan) : CommitSideEffectPlan :=
  mkPlan (cp_transaction_id p) (sort_by plan_le (cp_notifications p))
    (publisher_events p) (manifest_updates p).

(** The arguments of the calls of [notify_async] that [dispatch_commit_plan] makes, in order. *)
Definition dispatch_calls (p : CommitSideEffectPlan) :
    list (option UserId * TableId * ChangeNotification) :=
  d ← cp_notifications p;
  (fun n => (scope_user_id (owner_scope d), fd_table_id d, n)) <$> fd_notifications d.

Definition dispatch_commit_plan (p : CommitSideEffectPlan) : nat := length (dispatch_calls p).

(** ** The plan of a transaction *)

Abbreviation Group := (TableId * FanoutOwnerScope)%type.

Definition group_of (d : FanoutDispatchPlan) : Group := (fd_table_id d, owner_scope d).

(** The notifications pushed for a group, in order. *)
Definition pushed (k : Group) (ops : list (FanoutOwnerScope * ChangeNotification)) :
    list ChangeNotification :=
  (filter (fun on => (ch_table_id on.2, on.1) = k) ops).*2.

Definition run_pushes (tx : TransactionId) (ops : list (FanoutOwnerScope * ChangeNotification)) :
    CommitSideEffectPlan :=
  foldl (fun p on => push_notification p on.1 on.2) (plan_new tx) ops.

Definition max_version (l : list ChangeNotification) : option Z :=
  foldl observe_notification_seq None l.

Record plan_ok (ops : list (FanoutOwnerScope * ChangeNotification)) (l : list FanoutDispatchPlan) :
    Prop := {
  po_nodup : NoDup (group_of <$> l);
  po_content : forall d, d ∈ l -> fd_notifications d = pushed (group_of d) ops /\
    change_count d = Z.of_nat (length (fd_notifications d)) /\
    seq_upper_bound d = max_version (fd_notifications d);
  po_complete : forall k, pushed k ops <> [] -> exists d, d ∈ l /\ group_of d = k
}.

Lemma same_group_spec t o d : same_group t o d = true <-> group_of d = (t, o).
Proof.
  unfold same_group, group_of. rewrite andb_true_iff, !bool_decide_eq_true. naive_solver.
Qed.

(** Updating a group that keeps its key. *)
Lemma update_group_groups t o f l :
  (forall d, group_of (f d) = group_of d) ->
  group_of <$> update_group t o f l =
  (group_of <$> l) ++ (if bool_decide ((t, o) ∈ group_of <$> l) then [] else [(t, o)]).
Proof.
  intros Hf. induction l as [|d l IH]; cbn [update_group].
  { rewrite bool_decide_eq_false_2 by (cbn; by intros ?%elem_of_nil). cbn. by rewrite Hf. }
  destruct (same_group t o d) eqn:E.
  - apply same_group_spec in E. rewrite !fmap_cons, Hf, E.
    rewrite bool_decide_eq_true_2 by set_solver. by rewrite app_nil_r.
  - rewrite !fmap_cons, IH. cbn [app]. f_equal. f_equal.
    assert (group_of d <> (t, o)) as Hd by (intros Hd%same_group_spec; congruence).
    apply if_ext_bool. rewrite !bool_decide_eq_true. set_solver.
Qed.

Lemma update_group_elem t o f l d :
  NoDup (group_of <$> l) -> (forall d, group_of (f d) = group_of d) ->
  d ∈ update_group t o f l ->
  (d ∈ l /\ group_of d <> (t, o)) \/
  (exists d0, d = f d0 /\ group_of d0 = (t, o) /\
     (d0 ∈ l \/ d0 = dispatch_new t o /\ (t, o) ∉ group_of <$> l)).
Proof.
  intros Hnd Hf. induction l as [|e l IH]; cbn [update_group].
  { intros ->%list_elem_of_singleton. right. exists (dispatch_new t o). split_and!; [done|done|].
    right. split; [done|]. by intros ?%elem_of_nil. }
  rewrite fmap_cons in *. apply NoDup_cons in Hnd as [Hne Hnd]. destruct (same_group t o e) eqn:E.
  - apply same_group_spec in E. intros [->|Hd]%elem_of_cons.
    + right. exists e. split_and!; [done|done|]. left. by left.
    + left. split; [by right|]. intros Hg. apply Hne. rewrite E, <-Hg. by apply list_elem_of_fmap_2.
  - assert (group_of e <> (t, o)) as He by (intros Hd%same_group_spec; congruence).
    intros [->|Hd]%elem_of_cons; [left; by split; [left|]|].
    destruct (IH Hnd Hd) as [[H1 H2]|(d0 & H1 & H2 & H3)]; [left; by split; [right|]|].
    right. exists d0. split_and!; [done|done|]. destruct H3 as [H3|[-> H3]]; [left; by right|].
    right. split; [done|]. rewrite elem_of_cons. intros [H4|H4]; congruence.
Qed.

Lemma pushed_snoc k ops o n :
  pushed k (ops ++ [(o, n)]) =
  pushed k ops ++ (if decide ((ch_table_id n, o) = k) then [n] else []).
Proof.
  unfold pushed. rewrite filter_app, fmap_app. f_equal. destruct (decide _) as [E|E].
  - by rewrite filter_cons_True.
  - by rewrite filter_cons_False.
Qed.

Lemma push_plan_ok ops l o n :
  plan_ok ops l ->
  plan_ok (ops ++ [(o, n)]) (update_group (ch_table_id n) o (fun d => dispatch_push d n) l).
Proof.
  intros [Hnd Hc Hk]. assert (forall d, group_of (dispatch_push d n) = group_of d) as Hf by done.
  split.
  - rewrite update_group_groups by done. case_bool_decide as E; [by rewrite app_nil_r|].
    apply NoDup_app. split; [done|]. split; [|apply NoDup_singleton].
    intros k Hk' ->%list_elem_of_singleton. done.
  - intros d Hd. apply update_group_elem in Hd as [[Hd Hg]|(d0 & -> & Hg & Hd)]; [| |done|done].
    + rewrite pushed_snoc, decide_False by congruence. rewrite app_nil_r. by apply Hc.
    + rewrite Hf, Hg, pushed_snoc, decide_True by done.
      assert (fd_notifications d0 = pushed (ch_table_id n, o) ops /\
        change_count d0 = Z.of_nat (length (fd_notifications d0)) /\
        seq_upper_bound d0 = max_version (fd_notifications d0)) as (E1 & E2 & E3).
      { destruct Hd as [Hd|[-> Hd]]; [rewrite <-Hg; by apply Hc|]. cbn. split_and!; [|done|done].
        destruct (pushed (ch_table_id n, o) ops) eqn:Ep; [done|]. exfalso. apply Hd.
        destruct (Hk (ch_table_id n, o)) as (d & Hin & <-); [by rewrite Ep|].
        by apply list_elem_of_fmap_2. }
      cbn [dispatch_push fd_notifications change_count seq_upper_bound]. split_and!.
      * by rewrite E1.
      * rewrite E2, length_app. cbn [length]. lia.
      * unfold max_version in *. by rewrite foldl_app, E3.
  - intros k Hne. rewrite pushed_snoc in Hne.
    assert (k ∈ group_of <$> update_group (ch_table_id n) o (fun d => dispatch_push d n) l) as Hin.
    { rewrite update_group_groups by done. rewrite elem_of_app.
      destruct (decide ((ch_table_id n, o) = k)) as [<-|Hd].
      - case_bool_decide; [by left|right; by left].
      - rewrite app_nil_r in Hne. destruct (Hk k Hne) as (d & Hin & <-).
        left. by apply list_elem_of_fmap_2. }
    apply list_elem_of_fmap in Hin as (d & -> & Hd). by exists d.
Qed.

Lemma run_pushes_ok tx ops : plan_ok ops (cp_notifications (run_pushes tx ops)).
Proof.
  induction ops as [|[o n] ops IH] using rev_ind.
  { split; cbn; [constructor|by intros d ?%elem_of_nil|done]. }
  unfold run_pushes in *. rewrite foldl_app. cbn [foldl fst snd push_notification cp_notifications].
  by apply push_plan_ok.
Qed.

Lemma plan_ok_perm ops l l' : l ≡ₚ l' -> plan_ok ops l -> plan_ok ops l'.
Proof.
  intros Hp [H1 H2 H3]. split.
  - by rewrite <-Hp.
  - intros d. rewrite <-Hp. apply H2.
  - intros k Hk. destruct (H3 k Hk) as (d & Hd & Hg). exists d. by rewrite <-Hp.
Qed.

Lemma scope_user_id_inj o o' : scope_user_id o = scope_user_id o' -> o = o'.
Proof. destruct o, o'; naive_solver. Qed.

(** The calls for one group among the calls of a list of groups. *)
Lemma calls_of_group l t o g :
  NoDup (group_of <$> l) ->
  (forall d, d ∈ l -> group_of d = (t, o) -> fd_notifications d = g) ->
  g = [] \/ (t, o) ∈ group_of <$> l ->
  (filter (fun c : option UserId * TableId * ChangeNotification => c.1 = (scope_user_id o, t))
     (d ← l; (fun n => (scope_user_id (owner_scope d), fd_table_id d, n)) <$> fd_notifications d)).*2 = g.
Proof.
  intros Hnd Hg Hex. induction l as [|d l IH]; [by destruct Hex as [->|?%elem_of_nil]|].
  rewrite fmap_cons in *. apply NoDup_cons in Hnd as [Hne Hnd].
  cbn [mbind list_bind]. rewrite filter_app, fmap_app.
  destruct (decide (group_of d = (t, o))) as [E|E].
  - rewrite (Hg d) in * by (done || by left). rewrite filter_all.
    + rewrite filter_none.
      { cbn. rewrite app_nil_r, <-list_fmap_compose. apply list_fmap_id. }
      intros c Hc Heq. apply list_elem_of_bind in Hc as (d' & Hc & Hd').
      apply list_elem_of_fmap in Hc as (n & -> & _). cbn in Heq. injection Heq as H1%scope_user_id_inj H2.
      apply Hne. rewrite E, <-H1, <-H2. by apply (list_elem_of_fmap_2 group_of).
    + intros c Hc. apply list_elem_of_fmap in Hc as (n & -> & _). cbn. unfold group_of in E. congruence.
  - rewrite filter_none.
    + cbn [fmap list_fmap app]. apply IH; [done|intros; apply Hg; [by right|done]|].
      destruct Hex as [->|Hin]; [by left|]. apply elem_of_cons in Hin as [Hin|Hin]; [congruence|by right].
    + intros c Hc Heq. apply list_elem_of_fmap in Hc as (n & -> & _). cbn in Heq.
      injection Heq as H1%scope_user_id_inj H2. apply E. unfold group_of. congruence.
Qed.

(** Grouping a commit loses and reorders nothing a subscriber could see: for every table and
    owner, the notifier is called with exactly the notifications pushed for them, in the order they
    were pushed, whether or not the plan was sorted; and each group's count and upper version bound
    are those of its notifications. *)
Theorem fanout_plan_is_faithful tx ops t o :
  let plan := run_pushes tx ops in
  (filter (fun c => c.1 = (scope_user_id o, t)) (dispatch_calls plan)).*2 = pushed (t, o) ops /\
  (filter (fun c => c.1 = (scope_user_id o, t)) (dispatch_calls (sort_plans plan))).*2 = pushed (t, o) ops /\
  (forall d, d ∈ cp_notifications plan -> change_count d = Z.of_nat (length (fd_notifications d)) /\
     seq_upper_bound d = max_version (fd_notifications d)).
Proof.
  cbv zeta. pose proof (run_pushes_ok tx ops) as Hok.
  assert (forall l, plan_ok ops l ->
    (filter (fun c : option UserId * TableId * ChangeNotification => c.1 = (scope_user_id o, t))
     (d ← l; (fun n => (scope_user_id (owner_scope d), fd_table_id d, n)) <$> fd_notifications d)).*2 =
    pushed (t, o) ops) as Hcalls.
  { intros l [Hnd Hc Hk]. apply calls_of_group; [done| |].
    - intros d Hd <-. by apply Hc.
    - destruct (pushed (t, o) ops) eqn:E; [by left|right].
      destruct (Hk (t, o)) as (d & Hd & <-); [by rewrite E|]. by apply list_elem_of_fmap_2. }
  split_and!.
  - by apply Hcalls.
  - apply Hcalls. eapply plan_ok_perm; [|exact Hok]. symmetry. apply sort_by_perm.
  - intros d Hd. by apply Hok.
Qed.
