(* ===== verification/LiveClient.v ===== *)
(** * LiveClient: the subscription side of the Rust SDK

    Model of link/link-common/src: [seq_tracking.rs] (versions of received rows),
    [subscription/checkpoint.rs] (progress, the filter for replayed events, buffering while the
    snapshot loads), [subscription/manager.rs] (the event queue and the acknowledged cursor),
    [subscription/live_rows_config.rs] and [subscription/live_rows_materializer.rs] (the rows an
    application sees).

    The theorems connect it with the server side of LiveNotify: the materialized rows follow the
    filtered table, and the one kind of change that gets lost on the way. *)

From Stdlib Require Import ZArith Lia.
From stdpp Require Import base countable strings gmap list fin_maps.
From S2P Require Import Prelude Commons Ids Scalars RowFilter TopicPayload LiveReplay LiveNotify.

Open Scope Z_scope.

(** ** Versions of received rows *)

(** serde_json's [PartialEq]; the members of an object are compared as a map, which for the objects
    of one serializer is their order. *)
Fixpoint json_eqb (a b : JsonValue) : bool :=
  match a, b with
  | JsonNull, JsonNull => true
  | JsonBool x, JsonBool y => Bool.eqb x y
  | JsonNumber x, JsonNumber y => bool_decide (x = y)
  | JsonString x, JsonString y => bool_decide (x = y)
  | JsonArray xs, JsonArray ys =>
      (fix go xs ys := match xs, ys with
                       | [], [] => true
                       | x :: xs', y :: ys' => json_eqb x y && go xs' ys'
                       | _, _ => false
                       end) xs ys
  | JsonObject xs, JsonObject ys =>
      (fix go xs ys := match xs, ys with
                       | [], [] => true
                       | (k, x) :: xs', (k', y) :: ys' => bool_decide (k = k') && json_eqb x y && go xs' ys'
                       | _, _ => false
                       end) xs ys
  | _, _ => false
  end.

(** [KalamCellValue::as_big_int]. *)
Definition as_big_int (c : Cell) : option Z :=
  match c with
  | JsonNumber n => parse_i64 n
  | JsonString s => parse_i64 s
  | _ => None
  end.

Definition SEQ_COLUMN : string := "_version".

Definition row_seq (row : RowData) : option Z :=
  match row !! SEQ_COLUMN ≫= as_big_int with
  | Some value => match Version.try_from_i64 value with Ok v => Some v | Err _ => None end
  | None => None
  end.

Definition extract_max_seq (rows : list RowData) : option Z :=
  match foldl (fun max row =>
           match row_seq row with
           | Some seq => Some (match max with Some prev => Z.max prev seq | None => seq end)
           | None => max
           end) None rows with
  | Some value => match Version.try_from_i64 value with Ok v => Some v | Err _ => None end
  | None => None
  end.

Definition seq_after (after : Z) (row : RowData) : bool :=
  match row_seq row with Some seq => after <? seq | None => true end.

Definition retain_rows_after (rows : list RowData) (after : Z) : list RowData :=
  filter (fun row => seq_after after row) rows.

Definition advance_seq (current : option Z) (candidate : Z) : option Z :=
  match current with
  | Some prev => if prev <? candidate then Some candidate else current
  | None => Some candidate
  end.

Definition track_rows (current : option Z) (rows : list RowData) : option Z :=
  match extract_max_seq rows with Some seq => advance_seq current seq | None => current end.

(** ** Events *)

Inductive BatchStatus := Loading | LoadingBatch | Ready.

Record BatchControl := mkBatch {
  batch_num : Z;
  has_more : bool;
  status : BatchStatus;
  last_seq_id : option Z
}.

Inductive ChangeEvent :=
| EvAck (sid : string) (total_rows : Z) (batch_control : BatchControl)
| EvInitialDataBatch (sid : string) (rows : list RowData) (batch_control : BatchControl)
| EvInsert (sid : string) (rows : list RowData)
| EvUpdate (sid : string) (rows old_rows : list RowData)
| EvDelete (sid : string) (old_rows : list RowData)
| EvError (sid code message : string)
| EvUnknown (raw : JsonValue).

Record EventProgress := mkProgress { seq_id : Z; advance_resume : bool }.

Definition batch_envelope (e : ChangeEvent) : option BatchControl :=
  match e with
  | EvAck _ _ b | EvInitialDataBatch _ _ b => Some b
  | _ => None
  end.

Definition event_progress (e : ChangeEvent) : option EventProgress :=
  match e with
  | EvInitialDataBatch _ rows b =>
      match extract_max_seq rows with
      | Some s => Some (mkProgress s false)
      | None => (fun s => mkProgress s false) <$> last_seq_id b
      end
  | EvInsert _ rows | EvUpdate _ rows _ => (fun s => mkProgress s true) <$> extract_max_seq rows
  | EvDelete _ old_rows => (fun s => mkProgress s true) <$> extract_max_seq old_rows
  | _ => None
  end.

Definition final_resume_seq (requested_from consumed_seq_id : option Z) : option Z :=
  match requested_from, consumed_seq_id with
  | Some requested, Some consumed => Some (Z.max requested consumed)
  | Some requested, None => Some requested
  | None, consumed => consumed
  end.

Definition filter_replayed_event (e : ChangeEvent) (resume_from : option Z) : option ChangeEvent :=
  match resume_from with
  | None => Some e
  | Some from =>
      match e with
      | EvInitialDataBatch sid rows b => Some (EvInitialDataBatch sid (retain_rows_after rows from) b)
      | EvInsert sid rows =>
          match retain_rows_after rows from with
          | [] => None
          | rows' => Some (EvInsert sid rows')
          end
      | EvUpdate sid rows old_rows =>
          match retain_rows_after rows from, retain_rows_after old_rows from with
          | [], [] => None
          | rows', old_rows' => Some (EvUpdate sid rows' old_rows')
          end
      | EvDelete sid old_rows =>
          match retain_rows_after old_rows from with
          | [] => None
          | old_rows' => Some (EvDelete sid old_rows')
          end
      | _ => Some e
      end
  end.

(** ** The subscription manager *)

Record Manager := mkManager {
  event_queue : list ChangeEvent;
  buffered_changes : list ChangeEvent;
  is_loading : bool;
  resume_from : option Z;
  delivered_seq_id : option Z;
  explicit_ack : bool
}.

Definition from_shared (resume : option Z) (explicit : bool) : Manager :=
  mkManager [] [] true resume resume explicit.

Definition is_ready (b : BatchControl) : bool := match status b with Ready => true | _ => false end.

Definition subscription_start_ready (e : ChangeEvent) : bool :=
  match batch_envelope e with Some b => is_ready b | None => false end.

(** [buffer_event] on the manager's state, i.e. [apply_buffering]. *)
Definition buffer_event (m : Manager) (e : ChangeEvent) : Manager :=
  match filter_replayed_event e (resume_from m) with
  | None => m
  | Some e =>
      match batch_envelope e with
      | Some b =>
          let loading := negb (is_ready b) in
          if loading
          then mkManager (event_queue m ++ [e]) (buffered_changes m) loading (resume_from m)
                 (delivered_seq_id m) (explicit_ack m)
          else mkManager (event_queue m ++ e :: buffered_changes m) [] loading (resume_from m)
                 (delivered_seq_id m) (explicit_ack m)
      | None =>
          match e with
          | EvInsert _ _ | EvUpdate _ _ _ | EvDelete _ _ =>
              if is_loading m
              then mkManager (event_queue m) (buffered_changes m ++ [e]) (is_loading m)
                     (resume_from m) (delivered_seq_id m) (explicit_ack m)
              else mkManager (event_queue m ++ [e]) (buffered_changes m) (is_loading m)
                     (resume_from m) (delivered_seq_id m) (explicit_ack m)
          | _ => mkManager (event_queue m ++ [e]) (buffered_changes m) (is_loading m) (resume_from m)
                   (delivered_seq_id m) (explicit_ack m)
          end
      end
  end.

Definition progressed (current : option Z) (e : ChangeEvent) : option Z :=
  match event_progress e with Some p => advance_seq current (seq_id p) | None => current end.

(** The first arm of [next]: an event of the queue, recorded and (in automatic mode) acknowledged. *)
Definition next_queued (m : Manager) : option ChangeEvent * Manager :=
  match event_queue m with
  | [] => (None, m)
  | e :: rest =>
      (Some e,
       mkManager rest (buffered_changes m) (is_loading m)
         (if explicit_ack m then resume_from m else progressed (resume_from m) e)
         (progressed (delivered_seq_id m) e) (explicit_ack m))
  end.

Inductive ClientError := ConfigurationError.

Definition acknowledge (m : Manager) (seq : Z) : Result ClientError Manager :=
  if negb (explicit_ack m) then Err ConfigurationError
  else if match delivered_seq_id m with Some delivered => delivered <? seq | None => true end
  then Err ConfigurationError
  else Ok (mkManager (event_queue m) (buffered_changes m) (is_loading m)
             (advance_seq (resume_from m) seq) (delivered_seq_id m) (explicit_ack m)).

(** ** Materialized rows *)

(** [normalized_key_columns]. *)
Fixpoint normalize_keys (columns : list string) (normalized : list string) : list string :=
  match columns with
  | [] => normalized
  | column :: rest =>
      let trimmed := trim column in
      if bool_decide (trimmed = EmptyString) then normalize_keys rest normalized
      else
        let c := to_ascii_lowercase trimmed in
        if bool_decide (c ∈ normalized) then normalize_keys rest normalized
        else normalize_keys rest (normalized ++ [c])
  end.

Definition normalized_key_columns (key_columns : option (list string)) : list string :=
  match normalize_keys (default [] key_columns) [] with [] => ["id"] | l => l end.

Record Materializer := mkMaterializer {
  mat_rows : list RowData;
  limit : option nat;
  key_columns : list string
}.

Definition materializer_new (lim : option nat) (keys : option (list string)) : Materializer :=
  mkMaterializer [] lim (normalized_key_columns keys).

Definition row_value_by_column (row : RowData) (column : string) : option Cell :=
  match row !! column with
  | Some c => Some c
  | None =>
      match filter (fun kv => eq_ignore_ascii_case kv.1 column) (map_to_list row) with
      | kv :: _ => Some kv.2
      | [] => None
      end
  end.

Fixpoint rows_match_on_key_columns (a b : RowData) (keys : list string) : bool :=
  match keys with
  | [] => true
  | column :: rest =>
      match row_value_by_column a column, row_value_by_column b column with
      | Some x, Some y => if json_eqb x y then rows_match_on_key_columns a b rest else false
      | _, _ => false
      end
  end.

Definition upsert_row (keys : list string) (rows : list RowData) (row : RowData) : list RowData :=
  match position (fun entry => rows_match_on_key_columns entry row keys) rows with
  | Some existing_index => <[existing_index := row]> rows
  | None => rows ++ [row]
  end.

Definition apply_limit (lim : option nat) (rows : list RowData) : list RowData :=
  match lim with Some n => drop (length rows - n) rows | None => rows end.

Definition upsert_rows (m : Materializer) (incoming : list RowData) : Materializer :=
  mkMaterializer (apply_limit (limit m) (foldl (upsert_row (key_columns m)) (mat_rows m) incoming))
    (limit m) (key_columns m).

Definition remove_rows (m : Materializer) (incoming : list RowData) : Materializer :=
  mkMaterializer
    (foldl (fun rows row =>
       filter (fun entry => negb (rows_match_on_key_columns entry row (key_columns m))) rows)
       (mat_rows m) incoming)
    (limit m) (key_columns m).

(** The old rows of an update that no new row replaces. *)
Definition stale_rows (keys : list string) (rows old_rows : list RowData) : list RowData :=
  filter (fun old => negb (existsb (fun new => rows_match_on_key_columns old new keys) rows)) old_rows.

(** [apply] on the rows. *)
Definition materialize (m : Materializer) (e : ChangeEvent) : Materializer :=
  match e with
  | EvInitialDataBatch _ rows _ =>
      mkMaterializer (apply_limit (limit m) (mat_rows m ++ rows)) (limit m) (key_columns m)
  | EvInsert _ rows => upsert_rows m rows
  | EvUpdate _ rows old_rows =>
      upsert_rows (remove_rows m (stale_rows (key_columns m) rows old_rows)) rows
  | EvDelete _ old_rows => remove_rows m old_rows
  | EvAck _ _ _ | EvError _ _ _ | EvUnknown _ => m
  end.

Definition last_seq_id_for_event (e : ChangeEvent) : option Z :=
  match e with
  | EvAck _ _ b => last_seq_id b
  | EvInitialDataBatch _ rows b =>
      match last_seq_id b with Some s => Some s | None => extract_max_seq rows end
  | EvInsert _ rows => extract_max_seq rows
  | EvUpdate _ rows old_rows =>
      match extract_max_seq rows with Some s => Some s | None => extract_max_seq old_rows end
  | EvDelete _ old_rows => extract_max_seq old_rows
  | EvError _ _ _ | EvUnknown _ => None
  end.

(** ** Keys *)

Section JsonInd.
  Variable P : JsonValue -> Prop.
  Hypothesis Hnull : P JsonNull.
  Hypothesis Hbool : forall b, P (JsonBool b).
  Hypothesis Hnum : forall s, P (JsonNumber s).
  Hypothesis Hstr : forall s, P (JsonString s).
  Hypothesis Harr : forall l, Forall P l -> P (JsonArray l).
  Hypothesis Hobj : forall l, Forall (fun kv => P kv.2) l -> P (JsonObject l).

Fixpoint json_ind' (j : JsonValue) : P j :=
  match j with
  | JsonNull => Hnull
  | JsonBool b => Hbool b
  | JsonNumber s => Hnum s
  | JsonString s => Hstr s
  | JsonArray l =>
      Harr l ((fix go l := match l return Forall P l with
                           | [] => Forall_nil_2 _
                           | x :: l' => Forall_cons_2 _ _ _ (json_ind' x) (go l')
                           end) l)
  | JsonObject l =>
      Hobj l ((fix go l := match l return Forall (fun kv => P kv.2) l with
                           | [] => Forall_nil_2 _
                           | kv :: l' => Forall_cons_2 _ _ _ (json_ind' kv.2) (go l')
                           end) l)
  end.
End JsonInd.

Lemma json_eqb_spec a : forall b, json_eqb a b = true <-> a = b.
Proof.
  induction a as [|x|x|x|l IH|l IH] using json_ind'; intros b;
    destruct b as [|y|y|y|m|m]; cbn [json_eqb]; try done.
  - rewrite Bool.eqb_true_iff. naive_solver.
  - rewrite bool_decide_eq_true. naive_solver.
  - rewrite bool_decide_eq_true. naive_solver.
  - revert m. induction l as [|x l IHl]; intros [|y m]; try done.
    apply Forall_cons in IH as [Hx IH]. rewrite andb_true_iff, Hx, (IHl IH). naive_solver.
  - revert m. induction l as [|[k x] l IHl]; intros [|[k' y] m]; try done.
    apply Forall_cons in IH as [Hx IH]. cbn in Hx.
    rewrite !andb_true_iff, bool_decide_eq_true, Hx, (IHl IH). naive_solver.
Qed.

#[export] Instance JsonValue_eq_dec : EqDecision JsonValue.
Proof.
  intros a b. destruct (json_eqb a b) eqn:E.
  - left. by apply json_eqb_spec.
  - right. intros H%json_eqb_spec. congruence.
Defined.

(** The values of the key columns, when the row has all of them. *)
Fixpoint row_key (keys : list string) (row : RowData) : option (list Cell) :=
  match keys with
  | [] => Some []
  | column :: rest =>
      match row_value_by_column row column with
      | Some c => cons c <$> row_key rest row
      | None => None
      end
  end.

Lemma rows_match_spec a b keys :
  rows_match_on_key_columns a b keys = true <->
  exists k, row_key keys a = Some k /\ row_key keys b = Some k.
Proof.
  induction keys as [|column keys IH]; cbn [rows_match_on_key_columns row_key]; [naive_solver|].
  destruct (row_value_by_column a column) as [x|]; [|naive_solver].
  destruct (row_value_by_column b column) as [y|]; [|naive_solver].
  destruct (json_eqb x y) eqn:E.
  - apply json_eqb_spec in E as ->. rewrite IH. split.
    + intros (k & -> & ->). by exists (y :: k).
    + intros (k & Ha & Hb). destruct (row_key keys a) as [ka|], (row_key keys b) as [kb|]; try done.
      cbn in Ha, Hb. exists ka. split; [done|]. congruence.
  - split; [done|]. intros (k & Ha & Hb). rewrite (proj2 (json_eqb_spec x y)) in E; [done|].
    destruct (row_key keys a), (row_key keys b); cbn in *; congruence.
Qed.

Section Rows.
Context (keys : list string).

(** The row with a key. *)
Fixpoint find_row (rows : list RowData) (k : list Cell) : option RowData :=
  match rows with
  | [] => None
  | r :: rest => if decide (row_key keys r = Some k) then Some r else find_row rest k
  end.

(** Every row has a key, and no key occurs twice. *)
Definition keyed (rows : list RowData) : Prop :=
  Forall (fun r => is_Some (row_key keys r)) rows /\ NoDup (row_key keys <$> rows).

Lemma find_row_none rows k : Some k ∉ row_key keys <$> rows -> find_row rows k = None.
Proof.
  induction rows as [|r rows IH]; [done|]. rewrite fmap_cons, not_elem_of_cons. intros [H1 H2].
  cbn [find_row]. rewrite decide_False by congruence. by apply IH.
Qed.

Lemma upsert_row_cons e rows row :
  upsert_row keys (e :: rows) row =
  if rows_match_on_key_columns e row keys then row :: rows else e :: upsert_row keys rows row.
Proof.
  unfold upsert_row. cbn [position]. destruct (rows_match_on_key_columns e row keys); [done|].
  by destruct (position _ rows).
Qed.

Lemma upsert_row_keys rows row k :
  row_key keys row = Some k ->
  row_key keys <$> upsert_row keys rows row =
  (row_key keys <$> rows) ++ (if bool_decide (Some k ∈ row_key keys <$> rows) then [] else [Some k]).
Proof.
  intros Hk. induction rows as [|e rows IH].
  { cbn. rewrite Hk. by rewrite bool_decide_eq_false_2 by (by intros ?%elem_of_nil). }
  rewrite upsert_row_cons. destruct (rows_match_on_key_columns e row keys) eqn:E.
  - apply rows_match_spec in E as (k' & He & Hk'). assert (k' = k) as -> by congruence.
    rewrite !fmap_cons, Hk, He. rewrite bool_decide_eq_true_2 by set_solver. by rewrite app_nil_r.
  - rewrite !fmap_cons, IH. cbn [app]. f_equal. f_equal. apply if_ext_bool.
    rewrite !bool_decide_eq_true. assert (row_key keys e <> Some k) as He; [|set_solver].
    intros He. assert (rows_match_on_key_columns e row keys = true); [|congruence].
    apply rows_match_spec. by exists k.
Qed.

Lemma upsert_row_keyed rows row k :
  row_key keys row = Some k -> keyed rows -> keyed (upsert_row keys rows row).
Proof.
  intros Hk [H1 H2]. split.
  - apply Forall_forall. intros r Hr.
    assert (row_key keys r ∈ row_key keys <$> upsert_row keys rows row) as Hin
      by by apply list_elem_of_fmap_2.
    rewrite (upsert_row_keys _ _ k Hk), elem_of_app in Hin. destruct Hin as [Hin|Hin].
    + apply list_elem_of_fmap in Hin as (r' & -> & Hr'). rewrite Forall_forall in H1. by apply H1.
    + case_bool_decide; [by apply elem_of_nil in Hin|]. apply list_elem_of_singleton in Hin as ->. eauto.
  - rewrite (upsert_row_keys _ _ k Hk). case_bool_decide as E; [by rewrite app_nil_r|].
    apply NoDup_app. split; [done|]. split; [|apply NoDup_singleton].
    intros x Hx ->%list_elem_of_singleton. done.
Qed.

(** An upsert sets the row of its key and no other. *)
Lemma upsert_row_find rows row k k' :
  row_key keys row = Some k -> keyed rows ->
  find_row (upsert_row keys rows row) k' = if decide (k' = k) then Some row else find_row rows k'.
Proof.
  intros Hk. induction rows as [|e rows IH]; intros [H1 H2].
  { cbn. rewrite Hk. repeat case_decide; congruence. }
  apply Forall_cons in H1 as [_ H1]. rewrite fmap_cons in H2. apply NoDup_cons in H2 as [Hn H2].
  rewrite upsert_row_cons. destruct (rows_match_on_key_columns e row keys) eqn:E.
  - apply rows_match_spec in E as (k0 & He & Hk0). assert (k0 = k) as -> by congruence.
    cbn [find_row]. rewrite Hk, He. repeat case_decide; congruence.
  - cbn [find_row]. rewrite IH by done. repeat case_decide; try congruence.
    exfalso. subst k'. assert (rows_match_on_key_columns e row keys = true); [|congruence].
    apply rows_match_spec. by exists k.
Qed.

Definition without (row : RowData) (rows : list RowData) : list RowData :=
  filter (fun entry => negb (rows_match_on_key_columns entry row keys)) rows.

Lemma without_keyed row rows : keyed rows -> keyed (without row rows).
Proof.
  intros [H1 H2]. unfold without. split.
  - apply Forall_forall. intros r [_ Hr]%list_elem_of_filter. rewrite Forall_forall in H1. by apply H1.
  - induction rows as [|e rows IH]; [constructor|].
    apply Forall_cons in H1 as [_ H1]. rewrite fmap_cons in H2. apply NoDup_cons in H2 as [Hn H2].
    rewrite filter_cons. case_decide; [|by apply IH]. rewrite fmap_cons. apply NoDup_cons.
    split; [|by apply IH]. intros Hin. apply Hn. apply list_elem_of_fmap in Hin as (r & -> & Hr).
    apply list_elem_of_filter in Hr as [_ Hr]. by apply list_elem_of_fmap_2.
Qed.

(** Removing the rows that match one takes away the row of its key and no other. *)
Lemma without_find row rows k k' :
  row_key keys row = Some k -> keyed rows ->
  find_row (without row rows) k' = if decide (k' = k) then None else find_row rows k'.
Proof.
  intros Hk. induction rows as [|e rows IH]; intros [H1 H2]; [cbn; by case_decide|].
  apply Forall_cons in H1 as [_ H1]. rewrite fmap_cons in H2. apply NoDup_cons in H2 as [Hn H2].
  unfold without in *. rewrite filter_cons.
  destruct (rows_match_on_key_columns e row keys) eqn:E.
  - apply rows_match_spec in E as (k0 & He & Hk0). assert (k0 = k) as -> by congruence.
    rewrite decide_False by (cbn; tauto). rewrite IH by done. cbn [find_row]. rewrite He.
    repeat case_decide; congruence.
  - rewrite decide_True by done. cbn [find_row]. rewrite IH by done. repeat case_decide; try congruence.
    exfalso. subst k'. assert (rows_match_on_key_columns e row keys = true); [|congruence].
    apply rows_match_spec. by exists k.
Qed.
End Rows.

(** ** Versions on the wire *)

(** The text of an [i64] parses back to it. *)
Lemma int_text_parse i : - 2 ^ 63 <= i <= i64_max -> parse_i64 (int_text i) = Some i.
Proof. intros Hi. apply parse_signed_text; unfold i64_max in *; lia. Qed.

Section EndToEnd.
Context {LE : LiveEnv}.

(** [ChangeEvent::from_server_message], for a change. *)
Definition event_of (sid : string) (p : SharedChangePayload) : ChangeEvent :=
  match scp_change_type p with
  | ChangeInsert => EvInsert sid (default [] (rows p))
  | ChangeUpdate => EvUpdate sid (default [] (rows p)) (default [] (old_values p))
  | ChangeDelete => EvDelete sid (default [] (old_values p))
  end.

(** A row as a table holds it: a version. *)
Definition has_version (row : Row) (v : Z) : Prop :=
  row !! VERSION = Some (Int64 (Some v)) /\ Version.try_from_i64 v = Ok v /\ - 2 ^ 63 <= v <= i64_max.

Lemma row_seq_version (row : Row) (m : RowData) v :
  has_version row v -> m !! VERSION = row !! VERSION ≫= cell_of -> row_seq m = Some v.
Proof.
  intros (Hr & Hv & Hrange) Hm. unfold row_seq. change SEQ_COLUMN with VERSION. rewrite Hm, Hr.
  cbn. rewrite int_text_parse by done. by rewrite Hv.
Qed.

(** Above the client's cursor. *)
Definition newer_than (cursor : option Z) (row : Row) : Prop :=
  match cursor with None => True | Some from => exists v, has_version row v /\ from < v end.

(** One row of a payload passes the replay filter. *)
Lemma retain_newer from row m rest :
  newer_than (Some from) row -> m !! VERSION = row !! VERSION ≫= cell_of ->
  retain_rows_after (m :: rest) from = m :: retain_rows_after rest from.
Proof.
  intros (v & Hv & Hlt) Hm. unfold retain_rows_after. rewrite filter_cons_True; [done|].
  unfold seq_after. rewrite (row_seq_version _ _ _ Hv Hm). apply Z.ltb_lt in Hlt. by rewrite Hlt.
Qed.

Lemma retain_older from row m v :
  has_version row v -> v <= from -> m !! VERSION = row !! VERSION ≫= cell_of ->
  retain_rows_after [m] from = [].
Proof.
  intros Hv Hle Hm. unfold retain_rows_after. rewrite filter_cons_False; [done|].
  unfold seq_after. rewrite (row_seq_version _ _ _ Hv Hm).
  destruct (Z.ltb_spec from v); [lia|by intros []].
Qed.

(** ** One client and one table *)

Context {K : Type} `{Countable K}.
Context (kcol : string) (keycell : K -> Cell).

(** The row carries its key. *)
Definition carries (row : Row) (k : K) : Prop := row !! kcol ≫= cell_of = Some (keycell k).

(** A received row shows the values of a row of the table; a missing column stands for NULL. *)
Definition shows (m : RowData) (row : Row) : Prop :=
  forall c, starts_with_underscore c = false ->
    default JsonNull (m !! c) = default JsonNull (row !! c ≫= cell_of).

Record client_sim (rows : list RowData) (view : gmap K Row) : Prop := {
  cs_keyed : keyed [kcol] rows;
  cs_rows : forall k,
    match view !! k with
    | Some row => exists m, find_row [kcol] rows [keycell k] = Some m /\ shows m row
    | None => find_row [kcol] rows [keycell k] = None
    end
}.

(** What the client does with a change of the row with key [k]: the server decides what the
    subscription sees and builds the payload, the manager filters, the materializer applies. *)
Definition client_receives (h : Handle) (sid : string) (cursor : option Z) (m : Materializer)
    (c : RowChange) : Result LiveError Materializer :=
  match change_visible h c with
  | None => Ok m
  | Some (change, row, old_row) =>
      match build_shared_payload change row old_row [kcol] (projections h) with
      | Err e => Err e
      | Ok p =>
          Ok (match filter_replayed_event (event_of sid p) cursor with
              | Some e => materialize m e
              | None => m
              end)
      end
  end.

Lemma carries_key (m : RowData) (row : Row) k :
  carries row k -> m !! kcol = row !! kcol ≫= cell_of -> row_key [kcol] m = Some [keycell k].
Proof.
  intros Hc Hm. cbn [row_key]. unfold row_value_by_column. by rewrite Hm, Hc.
Qed.

Lemma null_cell v : is_null v = true -> cell_of v = Some JsonNull \/ cell_of v = None.
Proof.
  unfold cell_of. destruct v as [| | | | | | | | | | | | | |variant o]; cbn;
    try (match goal with o : option _ |- _ => destruct o end); try done; try (by left).
  all: intros _; destruct (other_json_null variant) as [E|E]; rewrite E; auto.
Qed.

Lemma project_row_shows row m : project_row row None = Ok m -> shows m row.
Proof.
  intros Hm c _. rewrite (project_row_lookup _ _ _ c Hm). by destruct (row !! c).
Qed.

Lemma delta_shows old_row new_row n o :
  project_update_delta old_row new_row [kcol] None = Ok (n, o) -> shows n new_row.
Proof.
  intros Hd c Hc. destruct (update_delta_lookup _ _ _ _ _ _ Hd) as [Hn _]. rewrite Hn.
  destruct (new_row !! c) as [v|]; [|done]. change (Some v ≫= cell_of) with (cell_of v).
  destruct (identity_column [kcol] c) eqn:Hi; [done|]. cbn [orb].
  assert (delta_column [kcol] None c = true) as Hdc.
  { unfold delta_column, identity_column in *. cbn [projection_includes_column andb].
    apply bool_decide_eq_false in Hi. rewrite Hc. cbn [orb]. rewrite bool_decide_eq_false_2; [done|].
    set_solver. }
  rewrite Hdc. cbn [andb]. destruct (is_null v) eqn:Hnull; [|done]. cbn [negb].
  destruct (null_cell v Hnull) as [E|E]; by rewrite E.
Qed.

Hypothesis keycell_inj : forall k1 k2, keycell k1 = keycell k2 -> k1 = k2.

Lemma upsert_sim rows view k m row :
  client_sim rows view -> row_key [kcol] m = Some [keycell k] -> shows m row ->
  client_sim (upsert_row [kcol] rows m) (<[k := row]> view).
Proof.
  intros [Hk Hr] Hm Hs. split; [by eapply upsert_row_keyed|]. intros j.
  rewrite (upsert_row_find _ _ _ _ _ Hm Hk), lookup_insert.
  destruct (decide (k = j)) as [<-|Hne]; [rewrite decide_True by done; by exists m|].
  rewrite decide_False by (intros [= E]; by apply Hne, keycell_inj). apply Hr.
Qed.

Lemma remove_sim rows view k m :
  client_sim rows view -> row_key [kcol] m = Some [keycell k] ->
  client_sim (without [kcol] m rows) (delete k view).
Proof.
  intros [Hk Hr] Hm. split; [by apply without_keyed|]. intros j.
  rewrite (without_find _ _ _ _ _ Hm Hk), lookup_delete.
  destruct (decide (k = j)) as [<-|Hne]; [by rewrite decide_True|].
  rewrite decide_False by (intros [= E]; by apply Hne, keycell_inj). apply Hr.
Qed.

(** The rows a change carries bear the key, and its own row is above the cursor. *)
Definition change_carries (c : RowChange) (k : K) : Prop :=
  match c with
  | RowInserted r | RowDeleted r => carries r k
  | RowUpdated o n => carries o k /\ carries n k
  end.

Definition change_newer (cursor : option Z) (c : RowChange) : Prop :=
  match c with RowInserted r | RowDeleted r | RowUpdated _ r => newer_than cursor r end.

Lemma insert_event_kept sid m cursor row :
  newer_than cursor row -> m !! VERSION = row !! VERSION ≫= cell_of ->
  filter_replayed_event (EvInsert sid [m]) cursor = Some (EvInsert sid [m]).
Proof.
  intros Hn Hm. destruct cursor as [from|]; [|done]. cbn [filter_replayed_event].
  by rewrite (retain_newer _ _ _ _ Hn Hm).
Qed.

Lemma delete_event_kept sid m cursor row :
  newer_than cursor row -> m !! VERSION = row !! VERSION ≫= cell_of ->
  filter_replayed_event (EvDelete sid [m]) cursor = Some (EvDelete sid [m]).
Proof.
  intros Hn Hm. destruct cursor as [from|]; [|done]. cbn [filter_replayed_event].
  by rewrite (retain_newer _ _ _ _ Hn Hm).
Qed.

Lemma update_event_kept sid m o cursor row :
  newer_than cursor row -> m !! VERSION = row !! VERSION ≫= cell_of ->
  exists os, filter_replayed_event (EvUpdate sid [m] [o]) cursor = Some (EvUpdate sid [m] os) /\
    (os = [o] \/ os = []).
Proof.
  intros Hn Hm. destruct cursor as [from|]; [|exists [o]; auto]. cbn [filter_replayed_event].
  rewrite (retain_newer _ _ _ _ Hn Hm). cbn [retain_rows_after]. unfold retain_rows_after.
  rewrite filter_nil. exists (filter (fun row => seq_after from row) [o]). split; [done|].
  rewrite filter_cons. case_decide; auto.
Qed.

Lemma project_row_all row m c : project_row row None = Ok m -> m !! c = row !! c ≫= cell_of.
Proof. intros Hm. rewrite (project_row_lookup _ _ _ c Hm). by destruct (row !! c). Qed.

Lemma delta_identity old_row new_row n o c :
  project_update_delta old_row new_row [kcol] None = Ok (n, o) -> c = VERSION \/ c = kcol ->
  n !! c = new_row !! c ≫= cell_of /\ o !! c = old_row !! c ≫= cell_of.
Proof.
  intros Hd Hc. destruct (update_delta_lookup _ _ _ _ _ _ Hd) as [Hn Ho]. rewrite Hn, Ho.
  assert (identity_column [kcol] c = true) as Hi.
  { unfold identity_column. apply bool_decide_eq_true. destruct Hc as [->| ->]; set_solver. }
  rewrite Hi. cbn [orb]. by destruct (new_row !! c), (old_row !! c).
Qed.

(** The materializer after an update of a row that keeps its key. *)
Lemma update_materialized mat sid n o os k :
  key_columns mat = [kcol] -> limit mat = None ->
  row_key [kcol] n = Some [keycell k] -> row_key [kcol] o = Some [keycell k] ->
  os = [o] \/ os = [] ->
  mat_rows (materialize mat (EvUpdate sid [n] os)) = upsert_row [kcol] (mat_rows mat) n.
Proof.
  intros Hkeys Hlim Hn Ho Hos. cbn [materialize]. unfold upsert_rows. cbn [mat_rows].
  assert (stale_rows (key_columns mat) [n] os = []) as ->.
  { unfold stale_rows. rewrite Hkeys. destruct Hos as [->| ->]; [|done].
    rewrite filter_cons_False; [done|]. cbn [existsb].
    rewrite (proj2 (rows_match_spec o n [kcol])) by eauto. cbn. tauto. }
  cbn [remove_rows foldl mat_rows limit key_columns apply_limit]. by rewrite Hlim, Hkeys.
Qed.

(** What the materializer holds after one received change. *)
Lemma received_rows h sid cursor mat k c change row old_row p view :
  projections h = None -> limit mat = None -> key_columns mat = [kcol] ->
  client_sim (mat_rows mat) view -> change_carries c k -> change_newer cursor c ->
  change_visible h c = Some (change, row, old_row) -> change <> VRevoke ->
  build_shared_payload change row old_row [kcol] None = Ok p ->
  client_sim (mat_rows (match filter_replayed_event (event_of sid p) cursor with
                        | Some e => materialize mat e | None => mat end))
    (view_after view k (Some (change, row, old_row))).
Proof.
  intros Hproj Hlim Hkeys Hsim Hcar Hnew Hvis Hnr Hp.
  assert (carries row k /\ newer_than cursor row /\
    (change = VUpdate -> exists o, old_row = Some o /\ carries o k)) as (Hrow & Hrn & Hold).
  { destruct c as [r|o r|r]; cbn [change_visible change_carries change_newer visible_change default from_option id] in *;
      repeat case_match; simplify_eq; naive_solver. }
  destruct change; cbn [build_shared_payload view_after] in *; [| | |done].
  - destruct (project_row row None) as [m|] eqn:E; [|done]. injection Hp as <-. cbn [event_of scp_change_type rows default from_option id].
    rewrite (insert_event_kept _ _ _ row) by (done || by apply project_row_all).
    cbn [materialize upsert_rows mat_rows foldl]. rewrite Hlim, Hkeys. cbn [apply_limit].
    apply upsert_sim; [done| |by apply project_row_shows].
    apply (carries_key m row k Hrow). by apply project_row_all.
  - destruct (Hold eq_refl) as (o & -> & Ho). cbn [default from_option id] in Hp.
    destruct (project_update_delta o row [kcol] None) as [[nm om]|] eqn:E; [|done].
    injection Hp as <-. cbn [event_of scp_change_type rows old_values default from_option id].
    destruct (delta_identity _ _ _ _ VERSION E) as [Hv _]; [by left|].
    destruct (delta_identity _ _ _ _ kcol E) as [Hk1 Hk2]; [by right|].
    destruct (update_event_kept sid nm om cursor row Hrn Hv) as (os & -> & Hos).
    rewrite (update_materialized mat sid nm om os k Hkeys Hlim (carries_key nm row k Hrow Hk1)
      (carries_key om o k Ho Hk2) Hos).
    apply upsert_sim; [done|exact (carries_key nm row k Hrow Hk1)|by eapply delta_shows].
  - destruct (project_row row None) as [m|] eqn:E; [|done]. injection Hp as <-. cbn [event_of scp_change_type old_values default from_option id].
    rewrite (delete_event_kept _ _ _ row) by (done || by apply project_row_all).
    cbn [materialize remove_rows mat_rows foldl]. rewrite Hkeys.
    apply (remove_sim _ _ k); [done|]. apply (carries_key m row k Hrow). by apply project_row_all.
Qed.

(** One received change keeps the client in step with the table. *)
Lemma client_follows h sid cursor mat mat' table k c :
  projections h = None -> limit mat = None -> key_columns mat = [kcol] ->
  client_sim (mat_rows mat) (view_of h table) ->
  row_change_ok h table k c -> change_carries c k -> change_newer cursor c ->
  (forall r o, change_visible h c <> Some (VRevoke, r, o)) ->
  client_receives h sid cursor mat c = Ok mat' ->
  client_sim (mat_rows mat') (view_of h (table_after table k c)).
Proof.
  intros Hproj Hlim Hkeys Hsim Hok Hcar Hnew Hnr. rewrite view_step by done. unfold client_receives.
  destruct (change_visible h c) as [[[change row] old_row]|] eqn:Hv; [|by intros [= <-]].
  rewrite Hproj. destruct (build_shared_payload _ _ _ _ _) as [p|] eqn:Hp; [|done]. intros [= <-].
  eapply received_rows; try done. intros ->. by eapply Hnr.
Qed.

(** C28. The rows an application sees are the rows of its query: when the server decides what a
    subscription sees of a committed change, builds and sends the payload, and the SDK filters and
    materializes it, the materialized rows again show exactly the rows of the table that the
    subscription may see, one row per key.  This holds for a subscription to all columns,
    materialized by one key column and without a limit, and for a change that carries its key, is
    above the client's cursor and does not move a visible row out of view (in that case it is false,
    see [revoked_row_stays_on_client]); a delete is notified with a row that passes exactly when the
    deleted row does ([row_change_ok]). *)
Theorem client_follows_table h sid cursor mat mat' table k c :
  projections h = None -> limit mat = None -> key_columns mat = [kcol] ->
  client_sim (mat_rows mat) (view_of h table) ->
  row_change_ok h table k c -> change_carries c k -> change_newer cursor c ->
  (forall r o, change_visible h c <> Some (VRevoke, r, o)) ->
  client_receives h sid cursor mat c = Ok mat' ->
  client_sim (mat_rows mat') (view_of h (table_after table k c)).
Proof. apply client_follows. Qed.

Lemma identity_version row m :
  project_delete_identity row [kcol] = Ok m -> m !! VERSION = row !! VERSION ≫= cell_of.
Proof.
  intros Hm. unfold project_delete_identity in Hm.
  rewrite (insert_cells_row row _ _ VERSION (filtered_row_cells row (fun cell => starts_with_underscore cell.1 ||
    existsb (fun pk => eq_ignore_ascii_case pk cell.1) [kcol])) Hm).
  destruct (row !! VERSION) as [v|] eqn:Ev; [|done]. rewrite bool_decide_eq_true_2; [done|].
  apply list_elem_of_filter. split; [done|]. by apply elem_of_map_to_list.
Qed.

(** A row that leaves the query stays on the client.  When an update moves a visible row out of
    view, the server sends a delete that carries the version of the {i old} row; a client whose
    cursor has reached that version (it has, once it received the row) takes the event for a replay
    and drops it, so the application keeps a row its filter or its row-level security no longer
    admits. *)
Theorem revoked_row_stays_on_client h sid from mat mat' table k old_row new_row v :
  row_change_ok h table k (RowUpdated old_row new_row) ->
  row_is_visible h old_row = true -> row_is_visible h new_row = false ->
  has_version old_row v -> v <= from ->
  client_sim (mat_rows mat) (view_of h table) ->
  client_receives h sid (Some from) mat (RowUpdated old_row new_row) = Ok mat' ->
  mat' = mat /\
  view_of h (table_after table k (RowUpdated old_row new_row)) !! k = None /\
  is_Some (find_row [kcol] (mat_rows mat') [keycell k]).
Proof.
  intros Hok Ho Hn Hv Hle Hsim. unfold client_receives. cbn [change_visible visible_change default from_option id].
  rewrite Ho, Hn. cbn [build_shared_payload].
  destruct (project_delete_identity old_row [kcol]) as [m|] eqn:E; [|done].
  cbn [event_of scp_change_type old_values default from_option id filter_replayed_event].
  rewrite (retain_older _ _ _ _ Hv Hle (identity_version _ _ E)). intros [= <-].
  split; [done|]. split.
  - cbn [table_after]. rewrite view_insert_hidden by done. apply lookup_delete_eq.
  - pose proof (cs_rows _ _ Hsim k) as Hk. cbn in Hok.
    rewrite (proj2 (view_of_lookup h table k old_row)) in Hk by done. destruct Hk as (x & Hx & _). by eexists.
Qed.
End EndToEnd.

(** ** The acknowledged cursor *)

Inductive manager_op := OpReceive (e : ChangeEvent) | OpNext | OpAcknowledge (seq : Z).

Definition manager_step (m : Manager) (o : manager_op) : Manager :=
  match o with
  | OpReceive e => buffer_event m e
  | OpNext => (next_queued m).2
  | OpAcknowledge seq => match acknowledge m seq with Ok m' => m' | Err _ => m end
  end.

(** [a] is no later than [b]; no cursor is before every cursor. *)
Definition cursor_le (a b : option Z) : Prop :=
  match a, b with
  | None, _ => True
  | Some x, Some y => x <= y
  | Some _, None => False
  end.

Lemma cursor_le_trans a b c : cursor_le a b -> cursor_le b c -> cursor_le a c.
Proof. destruct a, b, c; cbn; try done; lia. Qed.

Lemma advance_seq_spec a s : advance_seq a s = Some (match a with Some x => Z.max x s | None => s end).
Proof.
  unfold advance_seq. destruct a as [x|]; [|done]. destruct (Z.ltb_spec x s); f_equal; lia.
Qed.

Lemma advance_seq_mono a b s : cursor_le a b -> cursor_le (advance_seq a s) (advance_seq b s).
Proof. rewrite !advance_seq_spec. destruct a, b; cbn; intros ?; try done; lia. Qed.

Lemma advance_seq_ge a s : cursor_le a (advance_seq a s).
Proof. rewrite advance_seq_spec. destruct a; cbn; [lia|done]. Qed.

Lemma advance_seq_le a b s : cursor_le a b -> cursor_le (Some s) b -> cursor_le (advance_seq a s) b.
Proof. rewrite advance_seq_spec. destruct a, b; cbn; intros ? ?; try done; lia. Qed.

Lemma buffer_event_cursors m e :
  resume_from (buffer_event m e) = resume_from m /\
  delivered_seq_id (buffer_event m e) = delivered_seq_id m.
Proof. unfold buffer_event. by repeat case_match. Qed.

Lemma manager_step_cursor m o :
  cursor_le (resume_from m) (delivered_seq_id m) ->
  cursor_le (resume_from (manager_step m o)) (delivered_seq_id (manager_step m o)) /\
  cursor_le (resume_from m) (resume_from (manager_step m o)).
Proof.
  assert (forall c, cursor_le c c) as Hrefl by (intros [x|]; cbn; lia || done).
  intros Hle. destruct o as [e| |seq]; cbn [manager_step].
  - destruct (buffer_event_cursors m e) as [-> ->]. auto.
  - unfold next_queued. destruct (event_queue m) as [|e rest]; [auto|]. cbn [snd resume_from delivered_seq_id].
    unfold progressed. destruct (event_progress e) as [p|], (explicit_ack m); try by auto.
    + split; [|by auto]. eapply cursor_le_trans; [exact Hle|apply advance_seq_ge].
    + split; [by apply advance_seq_mono|apply advance_seq_ge].
  - unfold acknowledge. destruct (explicit_ack m); cbn [negb]; [|by auto].
    destruct (match delivered_seq_id m with Some d => d <? seq | None => true end) eqn:E; [by auto|].
    cbn [resume_from delivered_seq_id]. split; [|apply advance_seq_ge]. apply advance_seq_le; [done|].
    destruct (delivered_seq_id m); [|done]. apply Z.ltb_ge in E. cbn. lia.
Qed.

(** The resume cursor is safe: whatever events a subscription receives, hands to the
    application and has acknowledged, its cursor never passes the last version delivered to the
    application and never moves back. *)
Theorem cursor_never_ahead resume explicit ops op :
  let m := foldl manager_step (from_shared resume explicit) ops in
  cursor_le (resume_from m) (delivered_seq_id m) /\
  cursor_le (resume_from m) (resume_from (manager_step m op)).
Proof.
  cbv zeta. assert (cursor_le (resume_from (foldl manager_step (from_shared resume explicit) ops))
    (delivered_seq_id (foldl manager_step (from_shared resume explicit) ops))) as H.
  { induction ops as [|o ops IH] using rev_ind; [destruct resume; cbn; lia || done|].
    rewrite foldl_app. cbn [foldl]. by apply manager_step_cursor. }
  split; [done|]. by apply manager_step_cursor.
Qed.

(** ** Witnesses *)

Module LiveClientWitness.

#[local] Instance live_env : LiveEnv.
Proof.
  refine {| float_text := fun _ => "0.0"; other_json := fun _ _ => None; case_fold := fun c => c;
            within_size_limit := fun _ => true |}.
  intros. by right.
Defined.

(** Subscription to the rows whose [level] is 1, as a row-level policy decides it. *)
Definition policy (row : Row) : bool := bool_decide (row !! "level" = Some (Int32 (Some 1))).
Definition h0 : Handle := mkHandle "sub" None (Some policy) None.

Definition trow (id level version : Z) : Row :=
  <["id" := Utf8 (Some (int_text id))]> (<["level" := Int32 (Some level)]>
    {[ VERSION := Int64 (Some version) ]}).

Definition key0 (s : string) : Cell := JsonString s.

Lemma key0_inj s1 s2 : key0 s1 = key0 s2 -> s1 = s2.
Proof. by intros [= ->]. Qed.

Definition table0 : gmap string Row := ∅.
Definition table1 : gmap string Row := <["7" := trow 7 1 10]> ∅.
Definition mat0 : Materializer := mkMaterializer [] None ["id"].
Definition mat1 : Materializer :=
  match client_receives "id" h0 "sub" (Some 9) mat0 (RowInserted (trow 7 1 10)) with
  | Ok m => m
  | Err _ => mat0
  end.

Lemma sim0 : client_sim "id" key0 (mat_rows mat0) (view_of h0 table0).
Proof. split; [by split; constructor|]. intros k.
  assert (view_of h0 table0 = ∅) as -> by apply map_filter_empty. by rewrite lookup_empty. Qed.

(** The version of the inserted row is above the cursor. *)
Lemma newer0 : newer_than (Some 9) (trow 7 1 10).
Proof. exists 10. split; [|lia]. split; [reflexivity|]. split; [reflexivity|]. unfold i64_max. lia. Qed.

Lemma client_follows_table_witness :
  client_sim "id" key0 (mat_rows mat1) (view_of h0 (table_after table0 "7" (RowInserted (trow 7 1 10)))).
Proof.
  apply (client_follows_table "id" key0 key0_inj h0 "sub" (Some 9) mat0 mat1 table0 "7"
    (RowInserted (trow 7 1 10))); try reflexivity.
  - exact sim0.
  - exact newer0.
  - intros r o. vm_compute. congruence.
Defined.

Lemma sim1 : client_sim "id" key0 (mat_rows mat1) (view_of h0 table1).
Proof.
  apply (client_follows "id" key0 key0_inj h0 "sub" (Some 9) mat0 mat1 table0 "7"
    (RowInserted (trow 7 1 10))); try reflexivity.
  - exact sim0.
  - exact newer0.
  - intros r o. vm_compute. congruence.
Qed.

Lemma revoked_row_stays_on_client_witness :
  mat1 = mat1 /\
  view_of h0 (table_after table1 "7" (RowUpdated (trow 7 1 10) (trow 7 2 11))) !! "7" = None /\
  is_Some (find_row ["id"] (mat_rows mat1) [key0 "7"]).
Proof.
  apply (revoked_row_stays_on_client "id" key0 h0 "sub" 10 mat1 mat1 table1 "7" (trow 7 1 10)
    (trow 7 2 11) 10); try reflexivity.
  - split; [reflexivity|]. split; [reflexivity|]. unfold i64_max. lia.
  - exact sim1.
Defined.

End LiveClientWitness.
