(* ===== verification/Protocol.v ===== *)
(** * Protocol: the binary formats of Raft entries and stored objects

    kalamdb-serialization: the object envelope (object/envelope.rs), the packed Raft commands,
    responses, log records and log ids (protocol.rs) and the frames of the stream logs
    (stream_frame.rs); the identifier checks they call (kalamdb-commons/src/models).  A reader
    works on the bytes that are left, [&bytes[pos..]] of the source; a writer returns the bytes it
    appends.  The class [Codec] states what a writer and a reader owe each other: what was written
    is read back whatever follows, and whatever is accepted is what the writer produces.

    FlexBuffers and MessagePack payloads are third-party code (class [Serde]); Unicode lower
    casing is a parameter of the identifier constructors. *)

From Stdlib Require Import ZArith Lia Ascii.
From stdpp Require Import base strings list.
From S2P Require Import Prelude Commons.

Open Scope Z_scope.
Open Scope kalam_scope.

(** ** Bytes *)

Definition is_byte (b : Z) : Prop := 0 <= b < 256.
Definition all_bytes (l : list Z) : Prop := Forall is_byte l.

(** [to_le_bytes] and [from_le_bytes] of an unsigned integer of [n] bytes. *)
Fixpoint le_bytes (n : nat) (x : Z) : list Z :=
  match n with
  | O => []
  | S n' => x mod 256 :: le_bytes n' (x / 256)
  end.

Definition from_le (l : list Z) : Z := foldr (fun b acc => b + 256 * acc) 0 l.

(** The [i64] forms: two's complement. *)
Definition i64_le_bytes (x : Z) : list Z := le_bytes 8 (i64_as_u64 x).
Definition i64_from_le (l : list Z) : Z := u64_as_i64 (from_le l).

Definition u16_max : Z := 2 ^ 16 - 1.

(** [std::str::from_utf8]: no overlong forms, no surrogates, nothing above U+10FFFF. *)
Definition continuation (b : Z) : bool := (128 <=? b) && (b <=? 191).

Definition second_of_three (b b1 : Z) : bool :=
  if b =? 224 then (160 <=? b1) && (b1 <=? 191)
  else if b =? 237 then (128 <=? b1) && (b1 <=? 159)
  else continuation b1.

Definition second_of_four (b b1 : Z) : bool :=
  if b =? 240 then (144 <=? b1) && (b1 <=? 191)
  else if b =? 244 then (128 <=? b1) && (b1 <=? 143)
  else continuation b1.

Fixpoint utf8_valid (l : list Z) : bool :=
  match l with
  | [] => true
  | b :: rest =>
      if b <? 128 then utf8_valid rest
      else if (194 <=? b) && (b <=? 223) then
        match rest with b1 :: r => continuation b1 && utf8_valid r | _ => false end
      else if (224 <=? b) && (b <=? 239) then
        match rest with
        | b1 :: b2 :: r => second_of_three b b1 && continuation b2 && utf8_valid r
        | _ => false
        end
      else if (240 <=? b) && (b <=? 244) then
        match rest with
        | b1 :: b2 :: b3 :: r =>
            second_of_four b b1 && continuation b2 && continuation b3 && utf8_valid r
        | _ => false
        end
      else false
  end.

(** ** Errors *)

Inductive ObjectKind := Generic | RowObject | ProtocolObject | StreamObject | FunctionObject.

#[export] Instance ObjectKind_eq_dec : EqDecision ObjectKind.
Proof. solve_decision. Defined.

(** [SerializationError]; a formatted message is its fixed part.  [Panicked] is not an error of
    the source but the [expect] of an identifier constructor going off. *)
Inductive SerializationError :=
| InvalidMagic
| Truncated
| UnsupportedProtocolVersion (found : Z)
| WrongObjectKind (expected found : ObjectKind)
| Encode (message : string)
| Decode (message : string)
| Panicked (message : string).

Abbreviation SerResult := (Result SerializationError).
Abbreviation Reader A := (list Z -> SerResult (A * list Z)).

(** ** Primitive readers and writers *)

Definition read_exact (n : nat) : Reader (list Z) := fun l =>
  if (n <=? length l)%nat then Ok (take n l, drop n l)
  else Err (Decode "truncated packed command").

Definition read_u8 : Reader Z := fun l =>
  match l with
  | b :: rest => Ok (b, rest)
  | [] => Err (Decode "truncated packed command")
  end.

Definition read_uint (n : nat) : Reader Z := fun l =>
  let? (slice, rest) := read_exact n l in Ok (from_le slice, rest).
Definition read_u16 : Reader Z := read_uint 2.
Definition read_u32 : Reader Z := read_uint 4.
Definition read_u64 : Reader Z := read_uint 8.

Definition read_u16_bytes : Reader (list Z) := fun l =>
  let? (len, rest) := read_u16 l in read_exact (Z.to_nat len) rest.
Definition read_u32_bytes : Reader (list Z) := fun l =>
  let? (len, rest) := read_u32 l in read_exact (Z.to_nat len) rest.

Definition read_u16_str : Reader string := fun l =>
  let? (slice, rest) := read_u16_bytes l in
  if utf8_valid slice then Ok (string_of_bytes slice, rest) else Err (Decode "packed utf8").

Definition write_u16_bytes (bytes : list Z) : SerResult (list Z) :=
  if Z.of_nat (length bytes) <=? u16_max then Ok (le_bytes 2 (Z.of_nat (length bytes)) ++ bytes)
  else Err (Encode "packed field exceeds 65535 bytes").

Definition write_u32_len (len : nat) : SerResult (list Z) :=
  if Z.of_nat len <=? u32_max then Ok (le_bytes 4 (Z.of_nat len))
  else Err (Encode "packed list exceeds u32 length").

Definition write_u32_bytes (bytes : list Z) : SerResult (list Z) :=
  let? len := write_u32_len (length bytes) in Ok (len ++ bytes).

(** [for x in items { write(buf, x)? }] and [for _ in 0..count { out.push(read(..)?) }]. *)
Fixpoint write_each {A} (w : A -> SerResult (list Z)) (items : list A) : SerResult (list Z) :=
  match items with
  | [] => Ok []
  | x :: rest => let? a := w x in let? b := write_each w rest in Ok (a ++ b)
  end.

Fixpoint read_each {A} (r : Reader A) (count : nat) : Reader (list A) := fun l =>
  match count with
  | O => Ok ([], l)
  | S n => let? (x, l1) := r l in let? (xs, l2) := read_each r n l1 in Ok (x :: xs, l2)
  end.

(** [if let Some(x) = .. { write(buf, x)? }]. *)
Definition write_some {A} (w : A -> SerResult (list Z)) (x : option A) : SerResult (list Z) :=
  match x with Some a => w a | None => Ok [] end.

(** [if flags & FLAG != 0 { Some(read(..)?) } else { None }]. *)
Definition read_some {A} (present : bool) (r : Reader A) : Reader (option A) := fun l =>
  if present then let? (x, rest) := r l in Ok (Some x, rest) else Ok (None, l).

(** ** Identifiers *)

Definition contains_byte (b : Z) (l : list Z) : bool := existsb (Z.eqb b) l.

Fixpoint contains_dotdot (l : list Z) : bool :=
  match l with
  | a :: rest =>
      (match rest with b :: _ => (a =? 46) && (b =? 46) | [] => false end) || contains_dotdot rest
  | [] => false
  end.

(** [SchemaId::validate] and [TableName::validate]. *)
Definition name_valid (l : list Z) : bool :=
  negb (match l with [] => true | _ => false end) && negb (contains_dotdot l) &&
  negb (contains_byte 47 l) && negb (contains_byte 92 l) && negb (contains_byte 0 l).

Definition ascii_alphanumeric (b : Z) : bool :=
  is_ascii_digit b || ((65 <=? b) && (b <=? 90)) || ((97 <=? b) && (b <=? 122)).

Definition USER_ID_MAX_LENGTH : Z := 128.

(** [UserId::validate_id]. *)
Definition user_id_valid (l : list Z) : bool :=
  negb (match l with [] => true | _ => false end) &&
  (Z.of_nat (length l) <=? USER_ID_MAX_LENGTH) &&
  negb (contains_dotdot l) && negb (contains_byte 47 l) && negb (contains_byte 92 l) &&
  negb (contains_byte 0 l) &&
  forallb (fun b => ascii_alphanumeric b || (b =? 95) || (b =? 45)) l.

Definition ascii_hexdigit (b : Z) : bool :=
  is_ascii_digit b || ((65 <=? b) && (b <=? 70)) || ((97 <=? b) && (b <=? 102)).

(** [validate_uuid_v7]: 36 characters, hyphens at their places, hexadecimal digits elsewhere,
    version 7, RFC 4122 variant. *)
Definition validate_uuid_v7 (l : list Z) : bool :=
  (length l =? 36)%nat &&
  forallb (fun '(i, b) => if bool_decide (i ∈ [8; 13; 18; 23]%nat) then b =? 45
                          else ascii_hexdigit b) (zip (seq 0 36) l) &&
  (match l !! 14%nat with Some b => b =? 55 | None => false end) &&
  (match l !! 19%nat with
   | Some b => existsb (Z.eqb (ascii_lowercase_byte b)) [56; 57; 97; 98]
   | None => false
   end).

Section Identifiers.

(** Unicode [str::to_lowercase]. *)
Context (to_lowercase : string -> string).

(** [TransactionId::try_new], [SchemaId::new], [TableName::new], [UserId::new]: the last three
    [expect] a valid text. *)
Definition transaction_id_try_new (id : string) : option TransactionId :=
  if validate_uuid_v7 (bytes_of_string id) then Some id else None.

Definition name_new (id : string) : SerResult string :=
  if name_valid (bytes_of_string id) then Ok (to_lowercase id) else Err (Panicked "invalid name").

Definition user_id_new (id : string) : SerResult UserId :=
  if user_id_valid (bytes_of_string id) then Ok id
  else Err (Panicked "UserId contains invalid characters").

(** ** Packed commands *)

Definition PACKED_USER_INSERT : Z := 161.
Definition PACKED_SHARED_INSERT : Z := 162.
Definition PACKED_DATA_RESPONSE : Z := 163.
Definition PACKED_USER_DELETE : Z := 164.
Definition PACKED_SHARED_DELETE : Z := 165.

Definition FLAG_HAS_TX : Z := 1.
Definition FLAG_HAS_USER : Z := 2.
Definition FLAG_HAS_PK_VALUES : Z := 4.

Definition flag_if (present : bool) (flag : Z) : Z := if present then flag else 0.
Definition has_flag (flags flag : Z) : bool := negb (Z.land flags flag =? 0).

Record PackedInsert := mkPackedInsert {
  pi_required_meta_index : Z;
  pi_transaction_id : option TransactionId;
  pi_table_id : TableId;
  pi_user_id : option UserId;
  pi_encoded_fields : list (list Z)
}.

Record PackedDelete := mkPackedDelete {
  pd_required_meta_index : Z;
  pd_transaction_id : option TransactionId;
  pd_table_id : TableId;
  pd_user_id : option UserId;
  pd_pk_values : option (list string)
}.

Definition write_str (s : string) : SerResult (list Z) := write_u16_bytes (bytes_of_string s).

(** The part the two commands share: transaction, table and user. *)
Definition write_target (tx : option TransactionId) (table : TableId) (user : option UserId) :
    SerResult (list Z) :=
  let? a := write_some write_str tx in
  let? b := write_str (namespace_id table) in
  let? c := write_str (table_name table) in
  let? d := write_some write_str user in
  Ok (a ++ b ++ c ++ d).

Definition encode_packed_insert (tag : Z) (p : PackedInsert) : SerResult (list Z) :=
  let flags := Z.lor (flag_if (bool_decide (is_Some (pi_transaction_id p))) FLAG_HAS_TX)
                 (flag_if (bool_decide (is_Some (pi_user_id p))) FLAG_HAS_USER) in
  let? target := write_target (pi_transaction_id p) (pi_table_id p) (pi_user_id p) in
  let? count := write_u32_len (length (pi_encoded_fields p)) in
  let? fields := write_each write_u32_bytes (pi_encoded_fields p) in
  Ok ([tag] ++ le_bytes 8 (pi_required_meta_index p) ++ [flags] ++ target ++ count ++ fields).

Definition read_transaction_id : Reader TransactionId := fun l =>
  let? (text, rest) := read_u16_str l in
  match transaction_id_try_new text with
  | Some id => Ok (id, rest)
  | None => Err (Decode "packed transaction id")
  end.

Definition read_user_id : Reader UserId := fun l =>
  let? (text, rest) := read_u16_str l in
  let? id := user_id_new text in Ok (id, rest).

(** Of the flags in the header, the transaction, the table and the user. *)
Definition read_target (flags : Z) :
    Reader (option TransactionId * TableId * option UserId) := fun l =>
  let? (tx, l) := read_some (has_flag flags FLAG_HAS_TX) read_transaction_id l in
  let? (ns, l) := read_u16_str l in
  let? (table, l) := read_u16_str l in
  let? ns := name_new ns in
  let? table := name_new table in
  let? (user, l) := read_some (has_flag flags FLAG_HAS_USER) read_user_id l in
  Ok ((tx, mkTableId ns table, user), l).

Definition read_tag (tag : Z) (message : string) : Reader unit := fun l =>
  match l with
  | b :: rest => if b =? tag then Ok (tt, rest) else Err (Decode message)
  | [] => Err (Decode message)
  end.

Definition unsupported (flags mask : Z) : bool := negb (Z.land flags (Z.lnot mask) =? 0).

Definition decode_packed_insert (tag : Z) (bytes : list Z) : SerResult PackedInsert :=
  let? (_, l) := read_tag tag "packed insert tag mismatch" bytes in
  let? (required_meta_index, l) := read_u64 l in
  let? (flags, l) := read_u8 l in
  if unsupported flags (Z.lor FLAG_HAS_TX FLAG_HAS_USER) then
    Err (Decode "unsupported packed insert flags")
  else
    let? ((tx, table, user), l) := read_target flags l in
    let? (row_count, l) := read_u32 l in
    if Z.of_nat (length l) / 4 <? row_count then
      Err (Decode "packed insert row count exceeds remaining payload")
    else
      let? (fields, l) := read_each read_u32_bytes (Z.to_nat row_count) l in
      match l with
      | [] => Ok (mkPackedInsert required_meta_index tx table user fields)
      | _ => Err (Decode "packed insert trailing bytes")
      end.

Definition write_pk (pk : string) : SerResult (list Z) := write_u32_bytes (bytes_of_string pk).

Definition read_pk : Reader string := fun l =>
  let? (pk_bytes, rest) := read_u32_bytes l in
  if utf8_valid pk_bytes then Ok (string_of_bytes pk_bytes, rest)
  else Err (Decode "packed delete pk utf8").

Definition write_pks (pks : list string) : SerResult (list Z) :=
  let? count := write_u32_len (length pks) in
  let? each := write_each write_pk pks in Ok (count ++ each).

Definition encode_packed_delete (tag : Z) (p : PackedDelete) : SerResult (list Z) :=
  let flags := Z.lor (Z.lor (flag_if (bool_decide (is_Some (pd_transaction_id p))) FLAG_HAS_TX)
                        (flag_if (bool_decide (is_Some (pd_user_id p))) FLAG_HAS_USER))
                 (flag_if (bool_decide (is_Some (pd_pk_values p))) FLAG_HAS_PK_VALUES) in
  let? target := write_target (pd_transaction_id p) (pd_table_id p) (pd_user_id p) in
  let? pks := write_some write_pks (pd_pk_values p) in
  Ok ([tag] ++ le_bytes 8 (pd_required_meta_index p) ++ [flags] ++ target ++ pks).

Definition read_pks : Reader (list string) := fun l =>
  let? (count, l) := read_u32 l in read_each read_pk (Z.to_nat count) l.

Definition decode_packed_delete (tag : Z) (bytes : list Z) : SerResult PackedDelete :=
  let? (_, l) := read_tag tag "packed delete tag mismatch" bytes in
  let? (required_meta_index, l) := read_u64 l in
  let? (flags, l) := read_u8 l in
  if unsupported flags (Z.lor (Z.lor FLAG_HAS_TX FLAG_HAS_USER) FLAG_HAS_PK_VALUES) then
    Err (Decode "unsupported packed delete flags")
  else
    let? ((tx, table, user), l) := read_target flags l in
    let? (pks, l) := read_some (has_flag flags FLAG_HAS_PK_VALUES) read_pks l in
    match l with
    | [] => Ok (mkPackedDelete required_meta_index tx table user pks)
    | _ => Err (Decode "packed delete trailing bytes")
    end.

End Identifiers.

(** ** Packed responses *)

Inductive PackedDataResponse :=
| PackedOk
| PackedRowsAffected (n : Z)
| PackedError (message : string).

Definition RESP_OK : Z := 0.
Definition RESP_ROWS_AFFECTED : Z := 1.
Definition RESP_ERROR : Z := 2.

Definition encode_packed_data_response (response : PackedDataResponse) : SerResult (list Z) :=
  match response with
  | PackedOk => Ok [PACKED_DATA_RESPONSE; RESP_OK]
  | PackedRowsAffected n => Ok ([PACKED_DATA_RESPONSE; RESP_ROWS_AFFECTED] ++ le_bytes 8 n)
  | PackedError message =>
      let? text := write_u16_bytes (bytes_of_string message) in
      Ok ([PACKED_DATA_RESPONSE; RESP_ERROR] ++ text)
  end.

Definition decode_packed_data_response (bytes : list Z) : SerResult PackedDataResponse :=
  match bytes with
  | tag :: kind :: rest =>
      if negb (tag =? PACKED_DATA_RESPONSE) then Err (Decode "truncated packed data response")
      else if (kind =? RESP_OK) && (length bytes =? 2)%nat then Ok PackedOk
      else if (kind =? RESP_ROWS_AFFECTED) && (length bytes =? 10)%nat then
        Ok (PackedRowsAffected (from_le (take 8 rest)))
      else if kind =? RESP_ERROR then
        let? (message, rest) := read_u16_str rest in
        match rest with
        | [] => Ok (PackedError message)
        | _ => Err (Decode "packed data response trailing bytes")
        end
      else Err (Decode "unknown packed data response")
  | _ => Err (Decode "truncated packed data response")
  end.

(** ** Log records and log ids *)

Definition RAFT_LOG_RECORD_VERSION : Z := 1.
Definition RAFT_LOG_RECORD_HEADER_LEN : nat := 1 + 8 + 8.
Definition RAFT_LOG_ID_VERSION : Z := 1.
Definition PACKED_LOG_ID_LEN : nat := 1 + 8 + 8.

Definition encode_raft_log_record_parts (index term : Z) (tagged_payload : list Z) : list Z :=
  [RAFT_LOG_RECORD_VERSION] ++ le_bytes 8 index ++ le_bytes 8 term ++ tagged_payload.

Definition encode_raft_log_record_with_tag (index term payload_tag : Z) (payload : list Z) :
    list Z :=
  [RAFT_LOG_RECORD_VERSION] ++ le_bytes 8 index ++ le_bytes 8 term ++ [payload_tag] ++ payload.

Definition raft_log_tagged_payload (record : list Z) : list Z :=
  drop RAFT_LOG_RECORD_HEADER_LEN record.

Definition decode_raft_log_record (bytes : list Z) : SerResult (Z * Z * list Z) :=
  match bytes with
  | [] => Err (Decode "truncated raft log record")
  | version :: rest =>
      if negb (version =? RAFT_LOG_RECORD_VERSION) then
        Err (Decode "unsupported raft log record version")
      else if (length bytes <? RAFT_LOG_RECORD_HEADER_LEN)%nat then
        Err (Decode "truncated raft log record")
      else Ok (from_le (take 8 rest), from_le (take 8 (drop 8 rest)), drop 16 rest)
  end.

Definition encode_packed_log_id (term index : Z) : list Z :=
  [RAFT_LOG_ID_VERSION] ++ le_bytes 8 term ++ le_bytes 8 index.

Definition decode_packed_log_id (bytes : list Z) : SerResult (Z * Z) :=
  match bytes with
  | [] => Err (Decode "truncated packed raft log id")
  | version :: rest =>
      if negb (version =? RAFT_LOG_ID_VERSION) then
        Err (Decode "unsupported packed raft log id version")
      else if negb (length bytes =? PACKED_LOG_ID_LEN)%nat then
        Err (Decode "invalid packed raft log id length")
      else Ok (from_le (take 8 rest), from_le (drop 8 rest))
  end.

(** ** The object envelope *)

Definition MAGIC : list Z := [75; 79; 66; 74].
Definition PROTOCOL_VERSION : Z := 1.
Definition HEADER_LEN : nat := 4 + 2 + 1 + 2 + 2 + 4.
Definition SUPPORTED_ROW_FLAGS : Z := 15.

Definition kind_as_u8 (k : ObjectKind) : Z :=
  match k with
  | Generic => 1 | RowObject => 2 | ProtocolObject => 3 | StreamObject => 4 | FunctionObject => 5
  end.

Definition kind_from_u8 (b : Z) : SerResult ObjectKind :=
  if b =? 1 then Ok Generic else if b =? 2 then Ok RowObject
  else if b =? 3 then Ok ProtocolObject else if b =? 4 then Ok StreamObject
  else if b =? 5 then Ok FunctionObject else Err (Decode "unknown object kind").

(** [begin_envelope] leaves the payload length open, [finish_envelope] fills it in. *)
Definition begin_envelope (kind : ObjectKind) (schema_version flags : Z) : list Z :=
  MAGIC ++ le_bytes 2 PROTOCOL_VERSION ++ [kind_as_u8 kind] ++ le_bytes 2 schema_version ++
  le_bytes 2 flags ++ [0; 0; 0; 0].

Definition finish_envelope (bytes : list Z) : SerResult (list Z) :=
  let payload_len := Z.of_nat (length bytes - HEADER_LEN) in
  if payload_len <=? u32_max then
    Ok (take (HEADER_LEN - 4) bytes ++ le_bytes 4 payload_len ++ drop HEADER_LEN bytes)
  else Err (Encode "payload exceeds u32 length").

Definition encode_envelope_with_flags (kind : ObjectKind) (schema_version flags : Z)
    (payload : list Z) : SerResult (list Z) :=
  finish_envelope (begin_envelope kind schema_version flags ++ payload).

Definition encode_envelope (kind : ObjectKind) (schema_version : Z) (payload : list Z) :
    SerResult (list Z) :=
  encode_envelope_with_flags kind schema_version 0 payload.

Record EnvelopeHeader := mkHeader {
  eh_protocol_version : Z;
  eh_object_kind : ObjectKind;
  eh_schema_version : Z;
  eh_flags : Z
}.

(** [bytes[a..b]]. *)
Definition slice (a b : nat) (l : list Z) : list Z := take (b - a) (drop a l).

Definition decode_envelope (bytes : list Z) (expected_kind : ObjectKind) :
    SerResult (EnvelopeHeader * list Z) :=
  if (length bytes <? HEADER_LEN)%nat then Err Truncated
  else if negb (bool_decide (slice 0 4 bytes = MAGIC)) then Err InvalidMagic
  else
    let protocol_version := from_le (slice 4 6 bytes) in
    if negb (protocol_version =? PROTOCOL_VERSION) then
      Err (UnsupportedProtocolVersion protocol_version)
    else
      let? kind := kind_from_u8 (from_le (slice 6 7 bytes)) in
      if decide (kind = expected_kind) then
        let schema_version := from_le (slice 7 9 bytes) in
        let flags := from_le (slice 9 11 bytes) in
        let mask := match kind with RowObject => SUPPORTED_ROW_FLAGS | _ => 0 end in
        if unsupported flags mask then Err (Decode "unsupported envelope flags")
        else
          let payload_end := (HEADER_LEN + Z.to_nat (from_le (slice 11 15 bytes)))%nat in
          if (length bytes <? payload_end)%nat then Err Truncated
          else if negb (length bytes =? payload_end)%nat then
            Err (Decode "trailing bytes after envelope payload")
          else Ok (mkHeader protocol_version kind schema_version flags, drop HEADER_LEN bytes)
      else Err (WrongObjectKind expected_kind kind).

(** ** Stream frames *)

Definition STREAM_BINARY_SCHEMA_VERSION : Z := 2.
Definition STREAM_RECORD_DELETE : Z := 0.
Definition STREAM_RECORD_PUT : Z := 1.

Inductive RawStreamRecord :=
| StreamPut (user_id : string) (version timestamp : Z) (row_payload : list Z)
| StreamDelete (user_id : string) (version timestamp : Z).

(** The frame both append functions write after their size checks: its length, the envelope
    header and the record. *)
Definition stream_frame (tag : Z) (user : list Z) (version timestamp : Z) (rest : list Z) :
    SerResult (list Z) :=
  let inner_len := (1 + 8 + 8 + 4 + length user + length rest)%nat in
  if u32_max <? Z.of_nat (length user) then Err (Encode "stream user_id exceeds u32 length")
  else if u32_max <? Z.of_nat inner_len then Err (Encode "stream payload exceeds u32 length")
  else if u32_max <? Z.of_nat (HEADER_LEN + inner_len) then
    Err (Encode "stream frame exceeds u32 length")
  else
    Ok (le_bytes 4 (Z.of_nat (HEADER_LEN + inner_len)) ++ MAGIC ++ le_bytes 2 PROTOCOL_VERSION ++
        [kind_as_u8 StreamObject] ++ le_bytes 2 STREAM_BINARY_SCHEMA_VERSION ++ le_bytes 2 0 ++
        le_bytes 4 (Z.of_nat inner_len) ++ [tag] ++ i64_le_bytes version ++
        i64_le_bytes timestamp ++ le_bytes 4 (Z.of_nat (length user)) ++ user ++ rest).

Definition append_stream_put_frame (out : list Z) (user_id : string) (version timestamp : Z)
    (row_payload : list Z) : SerResult (list Z) :=
  let? frame :=
    stream_frame STREAM_RECORD_PUT (bytes_of_string user_id) version timestamp row_payload in
  Ok (out ++ frame).

Definition append_stream_delete_frame (out : list Z) (user_id : string) (version timestamp : Z) :
    SerResult (list Z) :=
  let? frame := stream_frame STREAM_RECORD_DELETE (bytes_of_string user_id) version timestamp [] in
  Ok (out ++ frame).

Definition decode_raw_stream_record (bytes : list Z) : SerResult RawStreamRecord :=
  let? (header, payload) := decode_envelope bytes StreamObject in
  if negb (eh_schema_version header =? STREAM_BINARY_SCHEMA_VERSION) then
    Err (Decode "unsupported stream schema version")
  else if (length payload <? 21)%nat then Err (Decode "truncated binary stream record header")
  else
    let tag := from_le (slice 0 1 payload) in
    let version := i64_from_le (slice 1 9 payload) in
    let timestamp := i64_from_le (slice 9 17 payload) in
    let user_end := (21 + Z.to_nat (from_le (slice 17 21 payload)))%nat in
    if (length payload <? user_end)%nat then Err (Decode "truncated binary stream user_id")
    else
      let user_bytes := slice 21 user_end payload in
      if negb (utf8_valid user_bytes) then
        Err (Decode "invalid utf-8 in binary stream user_id")
      else
        let user_id := string_of_bytes user_bytes in
        let rest := drop user_end payload in
        if tag =? STREAM_RECORD_PUT then Ok (StreamPut user_id version timestamp rest)
        else if tag =? STREAM_RECORD_DELETE then
          match rest with
          | [] => Ok (StreamDelete user_id version timestamp)
          | _ => Err (Decode "trailing bytes in binary stream delete record")
          end
        else Err (Decode "unknown binary stream record tag").

(** ** Typed protocol objects *)

Inductive ProtocolKind :=
| MetaCommandKind | UserDataCommandKind | SharedDataCommandKind | RaftCommandKind
| MetaResponseKind | DataResponseKind | RaftResponseKind | StateMachineKind.

Definition protocol_kind_as_u16 (k : ProtocolKind) : Z :=
  match k with
  | MetaCommandKind => 1 | UserDataCommandKind => 2 | SharedDataCommandKind => 3
  | RaftCommandKind => 4 | MetaResponseKind => 5 | DataResponseKind => 6
  | RaftResponseKind => 7 | StateMachineKind => 8
  end.

(** What the payload codecs (flexbuffers, rmp_serde) do with a type. *)
Class Serde (T : Type) := {
  flexbuffers_to_vec : T -> SerResult (list Z);
  flexbuffers_from_slice : list Z -> SerResult T;
  msgpack_write_named : T -> SerResult (list Z);
  msgpack_from_slice : list Z -> SerResult T
}.

(** Their documented behaviour: what was serialized deserializes to the same value. *)
Class SerdeLaws (T : Type) `{Serde T} := {
  flexbuffers_law : forall x l, flexbuffers_to_vec x = Ok l -> flexbuffers_from_slice l = Ok x;
  msgpack_law : forall x l, msgpack_write_named x = Ok l -> msgpack_from_slice l = Ok x
}.

Definition encode_protocol {T} `{Serde T} (kind : ProtocolKind) (value : T) : SerResult (list Z) :=
  match kind with
  | StateMachineKind =>
      let? payload := msgpack_write_named value in
      finish_envelope
        (begin_envelope ProtocolObject (protocol_kind_as_u16 kind) 0 ++ payload)
  | _ =>
      let? payload := flexbuffers_to_vec value in
      encode_envelope ProtocolObject (protocol_kind_as_u16 kind) payload
  end.

Definition decode_protocol_payload {T} `{Serde T} (kind : ProtocolKind) (payload : list Z) :
    SerResult T :=
  match kind with
  | StateMachineKind => msgpack_from_slice payload
  | _ => flexbuffers_from_slice payload
  end.

Definition decode_protocol {T} `{Serde T} (bytes : list Z) (expected_kind : ProtocolKind) :
    SerResult T :=
  let? (header, payload) := decode_envelope bytes ProtocolObject in
  if negb (eh_schema_version header =? protocol_kind_as_u16 expected_kind) then
    Err (Decode "protocol kind mismatch")
  else decode_protocol_payload expected_kind payload.

(** ** Lemmas on bytes *)

Lemma le_bytes_length n x : length (le_bytes n x) = n.
Proof. revert x. induction n as [|n IH]; intros x; [done|]. cbn [le_bytes length]. by rewrite IH. Qed.

Lemma le_bytes_bytes n x : all_bytes (le_bytes n x).
Proof.
  revert x. induction n as [|n IH]; intros x; constructor; [|apply IH].
  apply Z.mod_pos_bound. lia.
Qed.

Lemma from_le_bytes n x : 0 <= x < 256 ^ Z.of_nat n -> from_le (le_bytes n x) = x.
Proof.
  revert x. induction n as [|n IH]; intros x Hx; [simpl in *; lia|].
  rewrite Nat2Z.inj_succ, Z.pow_succ_r in Hx by lia.
  cbn [le_bytes from_le foldr]. fold (from_le (le_bytes n (x / 256))).
  rewrite IH; [pose proof (Z.div_mod x 256 ltac:(lia)); lia|].
  split; [apply Z.div_pos; lia|apply Z.div_lt_upper_bound; lia].
Qed.

Lemma from_le_range l : all_bytes l -> 0 <= from_le l < 256 ^ Z.of_nat (length l).
Proof.
  induction 1 as [|b l Hb Hl IH]; [simpl; lia|].
  cbn [length from_le foldr]. fold (from_le l).
  rewrite Nat2Z.inj_succ, Z.pow_succ_r by lia. unfold is_byte in Hb. lia.
Qed.

Lemma le_from_bytes l : all_bytes l -> le_bytes (length l) (from_le l) = l.
Proof.
  induction 1 as [|b l Hb Hl IH]; [done|]. unfold is_byte in Hb.
  cbn [length from_le foldr le_bytes]. fold (from_le l).
  assert ((b + 256 * from_le l) mod 256 = b) as ->.
  { rewrite (Z.mul_comm 256), Z.mod_add by lia. apply Z.mod_small. lia. }
  assert ((b + 256 * from_le l) / 256 = from_le l) as ->; [|by rewrite IH].
  rewrite (Z.mul_comm 256), Z.div_add by lia. rewrite Z.div_small by lia. lia.
Qed.

Lemma le_from_bytes_n n l : length l = n -> all_bytes l -> le_bytes n (from_le l) = l.
Proof. intros <-. apply le_from_bytes. Qed.

Lemma all_bytes_app l1 l2 : all_bytes (l1 ++ l2) <-> all_bytes l1 /\ all_bytes l2.
Proof. apply Forall_app. Qed.

Lemma all_bytes_drop n l : all_bytes l -> all_bytes (drop n l).
Proof. apply Forall_drop. Qed.

Lemma all_bytes_take n l : all_bytes l -> all_bytes (take n l).
Proof. apply Forall_take. Qed.

Lemma bytes_of_string_bytes s : all_bytes (bytes_of_string s).
Proof.
  unfold all_bytes, bytes_of_string. apply Forall_fmap, Forall_true. intros a.
  unfold is_byte, compose, byte_of. pose proof (N_ascii_bounded a). lia.
Qed.

Lemma string_bytes_string s : string_of_bytes (bytes_of_string s) = s.
Proof. apply bytes_of_string_inj, bytes_string_bytes, bytes_of_string_bytes. Qed.

#[export] Hint Resolve le_bytes_bytes all_bytes_drop all_bytes_take bytes_of_string_bytes : kalam.

Lemma take_app_n {A} n (l1 l2 : list A) : length l1 = n -> take n (l1 ++ l2) = l1.
Proof. intros <-. apply take_app_length. Qed.

Lemma drop_app_n {A} n (l1 l2 : list A) : length l1 = n -> drop n (l1 ++ l2) = l2.
Proof. intros <-. apply drop_app_length. Qed.

(** ** What writers and readers owe each other

    [w a] is read as [f a] ([f] is the identity except where the reader normalizes), whatever
    follows; and the reader accepts nothing else. *)
Class Codec {A B} (P : A -> Prop) (f : A -> B) (w : A -> SerResult (list Z)) (r : Reader B) :
    Prop := {
  codec_reads : forall a enc rest, P a -> w a = Ok enc -> r (enc ++ rest) = Ok (f a, rest);
  codec_exact : forall l b rest, all_bytes l -> r l = Ok (b, rest) ->
    exists a enc, P a /\ w a = Ok enc /\ l = enc ++ rest /\ b = f a
}.

Lemma read_exact_app n l rest : length l = n -> read_exact n (l ++ rest) = Ok (l, rest).
Proof.
  intros Hl. unfold read_exact. rewrite length_app, (proj2 (Nat.leb_le _ _)) by lia.
  by rewrite take_app_n, drop_app_n.
Qed.

Lemma read_exact_inv n l x rest :
  read_exact n l = Ok (x, rest) -> l = x ++ rest /\ length x = n.
Proof.
  unfold read_exact. destruct (n <=? length l)%nat eqn:E; intros [= <- <-].
  apply Nat.leb_le in E. rewrite take_drop, length_take. split; [done|lia].
Qed.

Lemma read_uint_app n x rest :
  0 <= x < 256 ^ Z.of_nat n -> read_uint n (le_bytes n x ++ rest) = Ok (x, rest).
Proof.
  intros Hx. unfold read_uint. rewrite read_exact_app by apply le_bytes_length.
  cbn [result_bind]. by rewrite from_le_bytes.
Qed.

Lemma read_uint_inv n l x rest :
  all_bytes l -> read_uint n l = Ok (x, rest) ->
  l = le_bytes n x ++ rest /\ 0 <= x < 256 ^ Z.of_nat n /\ all_bytes rest.
Proof.
  intros Hl [[y r] [[Hy Hn]%read_exact_inv Hx]]%result_bind_ok.
  cbn in Hx. injection Hx as <- <-. subst l. apply all_bytes_app in Hl as [Hl Hr].
  rewrite le_from_bytes_n by done. split; [done|]. split; [|done].
  rewrite <-Hn. by apply from_le_range.
Qed.

#[export] Instance u16_bytes_codec : Codec all_bytes id write_u16_bytes read_u16_bytes.
Proof.
  constructor.
  - intros a enc rest _. unfold write_u16_bytes, read_u16_bytes, u16_max.
    destruct (_ <=? _) eqn:E; [intros <-%Ok_inj|done]. apply Z.leb_le in E.
    rewrite <-app_assoc. unfold read_u16, read_u32. rewrite read_uint_app by lia.
    cbn [result_bind]. rewrite Nat2Z.id. by apply read_exact_app.
  - intros l b rest Hl [[len r] [[-> [Hlen Hr]]%read_uint_inv [-> Hn]%read_exact_inv]]%result_bind_ok;
      [|done].
    apply all_bytes_app in Hr as [Hb Hr]. exists b, (le_bytes 2 len ++ b).
    unfold write_u16_bytes, u16_max. rewrite Hn, Z2Nat.id by lia.
    rewrite (proj2 (Z.leb_le _ _)) by lia. by rewrite app_assoc.
Qed.

#[export] Instance u32_bytes_codec : Codec all_bytes id write_u32_bytes read_u32_bytes.
Proof.
  constructor.
  - intros a enc rest _. unfold write_u32_bytes, write_u32_len, read_u32_bytes, u32_max.
    destruct (_ <=? _) eqn:E; cbn [result_bind]; [intros <-%Ok_inj|done]. apply Z.leb_le in E.
    rewrite <-app_assoc. unfold read_u16, read_u32. rewrite read_uint_app by lia.
    cbn [result_bind]. rewrite Nat2Z.id. by apply read_exact_app.
  - intros l b rest Hl [[len r] [[-> [Hlen Hr]]%read_uint_inv [-> Hn]%read_exact_inv]]%result_bind_ok;
      [|done].
    apply all_bytes_app in Hr as [Hb Hr]. exists b, (le_bytes 4 len ++ b).
    unfold write_u32_bytes, write_u32_len, u32_max. rewrite Hn, Z2Nat.id by lia.
    rewrite (proj2 (Z.leb_le _ _)) by lia. by rewrite app_assoc.
Qed.

(** A text with a length of 16 or 32 bits. *)
Definition text_ok (s : string) : Prop := utf8_valid (bytes_of_string s) = true.

Lemma text_codec (w : list Z -> SerResult (list Z)) (r : Reader (list Z)) (e : SerializationError) :
  Codec all_bytes id w r ->
  Codec text_ok id (fun s => w (bytes_of_string s))
    (fun l => let? (slice, rest) := r l in
              if utf8_valid slice then Ok (string_of_bytes slice, rest) else Err e).
Proof.
  intros [Hr Hx]. constructor.
  - intros s enc rest Hs Hw. rewrite (Hr _ _ rest (bytes_of_string_bytes s) Hw).
    cbn [result_bind id]. rewrite Hs. by rewrite string_bytes_string.
  - intros l s rest Hl [[x r'] [Hread Hs]]%result_bind_ok.
    apply Hx in Hread as (a & enc & Ha & Hw & -> & ->); [|done]. cbn [id] in Hs.
    destruct (utf8_valid a) eqn:E; [|done]. injection Hs as <- <-.
    exists (string_of_bytes a), enc. unfold text_ok. by rewrite bytes_string_bytes.
Qed.

#[export] Instance str_codec : Codec text_ok id write_str read_u16_str.
Proof. apply (text_codec write_u16_bytes read_u16_bytes), _. Qed.

#[export] Instance pk_codec : Codec text_ok id write_pk read_pk.
Proof. apply (text_codec write_u32_bytes read_u32_bytes), _. Qed.

(** Lists: the count is written separately. *)
Section Each.
Context {A B : Type} {P : A -> Prop} {f : A -> B} {w : A -> SerResult (list Z)} {r : Reader B}.
Context `{Hcodec : !Codec P f w r}.

Lemma read_each_app xs enc rest :
  Forall P xs -> write_each w xs = Ok enc ->
  read_each r (length xs) (enc ++ rest) = Ok (f <$> xs, rest).
Proof.
  intros Hxs. revert enc. induction Hxs as [|x xs Hx Hxs IH]; intros enc; cbn [write_each].
  - by intros [= <-].
  - intros [a [Ha [b [Hb <-%Ok_inj]]%result_bind_ok]]%result_bind_ok.
    cbn [length read_each]. rewrite <-app_assoc, (codec_reads x a _ Hx Ha). cbn [result_bind].
    by rewrite (IH b Hb).
Qed.

Lemma read_each_inv n l ys rest :
  all_bytes l -> read_each r n l = Ok (ys, rest) ->
  exists xs enc, Forall P xs /\ length xs = n /\ write_each w xs = Ok enc /\ l = enc ++ rest /\
    ys = f <$> xs.
Proof.
  revert l ys. induction n as [|n IH]; intros l ys Hl; cbn [read_each].
  - intros [= <- <-]. by exists [], [].
  - intros [[y l1] [Hy [[zs l2] [Hzs [= <- <-]]]%result_bind_ok]]%result_bind_ok.
    apply codec_exact in Hy as (x & enc & Hx & Hw & -> & ->); [|done].
    apply all_bytes_app in Hl as [_ Hl1].
    apply (IH _ _ Hl1) in Hzs as (xs & enc' & Hxs & Hn & Hws & -> & ->).
    exists (x :: xs), (enc ++ enc'). split_and!; [by constructor|cbn; lia| |by rewrite app_assoc|done].
    cbn [write_each]. rewrite Hw. cbn [result_bind]. by rewrite Hws.
Qed.

(** Every element takes at least [k] bytes if its encoding does. *)
Lemma write_each_length k xs enc :
  (forall x e, w x = Ok e -> (k <= length e)%nat) -> write_each w xs = Ok enc ->
  (k * length xs <= length enc)%nat.
Proof.
  intros Hk. revert enc. induction xs as [|x xs IH]; intros enc; cbn [write_each].
  - intros _. simpl. lia.
  - intros [a [Ha [b [Hb <-%Ok_inj]]%result_bind_ok]]%result_bind_ok.
    rewrite length_app. cbn [length]. specialize (Hk _ _ Ha). specialize (IH _ Hb). lia.
Qed.

End Each.

Lemma list_codec {A B} (P : A -> Prop) (f : A -> B) w r :
  Codec P f w r ->
  Codec (Forall P) (fmap f)
    (fun xs => let? count := write_u32_len (length xs) in
               let? each := write_each w xs in Ok (count ++ each))
    (fun l => let? (count, l) := read_u32 l in read_each r (Z.to_nat count) l).
Proof.
  intros Hc. constructor.
  - intros xs enc rest Hxs. unfold write_u32_len, u32_max.
    destruct (_ <=? _) eqn:E; [|done]. apply Z.leb_le in E. cbn [result_bind].
    intros [each [Heach <-%Ok_inj]]%result_bind_ok.
    rewrite <-app_assoc. unfold read_u32. rewrite read_uint_app by lia. cbn [result_bind].
    rewrite Nat2Z.id. by apply read_each_app.
  - intros l ys rest Hl [[n l1] [[-> [Hn Hl1]]%read_uint_inv Hys]]%result_bind_ok; [|done].
    apply read_each_inv in Hys as (xs & enc & Hxs & Hlen & Hw & -> & ->); [|done].
    exists xs, (le_bytes 4 n ++ enc). unfold write_u32_len, u32_max.
    rewrite Hlen, Z2Nat.id, (proj2 (Z.leb_le _ _)) by lia. cbn [result_bind].
    rewrite Hw. by rewrite app_assoc.
Qed.

#[export] Instance pks_codec : Codec (Forall text_ok) (fmap id) write_pks read_pks.
Proof. apply (list_codec text_ok id write_pk read_pk), _. Qed.

(** An optional field, present when its flag is set. *)
Definition option_all {A} (P : A -> Prop) (x : option A) : Prop :=
  match x with Some a => P a | None => True end.

Section Optional.
Context {A B : Type} {P : A -> Prop} {f : A -> B} {w : A -> SerResult (list Z)} {r : Reader B}.
Context `{Hcodec : !Codec P f w r}.

Lemma read_some_app x enc rest present :
  option_all P x -> write_some w x = Ok enc -> present = bool_decide (is_Some x) ->
  read_some present r (enc ++ rest) = Ok (f <$> x, rest).
Proof.
  intros Hx Hw ->. destruct x as [a|]; cbn in *.
  - by rewrite (codec_reads a enc rest Hx Hw).
  - by injection Hw as <-.
Qed.

Lemma read_some_inv present l y rest :
  all_bytes l -> read_some present r l = Ok (y, rest) ->
  exists x enc, option_all P x /\ write_some w x = Ok enc /\ l = enc ++ rest /\ y = f <$> x /\
    present = bool_decide (is_Some x).
Proof.
  intros Hl. unfold read_some. destruct present.
  - intros [[b l1] [Hb [= <- <-]]]%result_bind_ok.
    apply codec_exact in Hb as (a & enc & Ha & Hw & -> & ->); [|done].
    by exists (Some a), enc.
  - intros [= <- <-]. by exists None, [].
Qed.

End Optional.

Section Packed.

Context (to_lowercase : string -> string).

Definition transaction_id_ok (id : TransactionId) : Prop :=
  text_ok id /\ validate_uuid_v7 (bytes_of_string id) = true.
Definition name_ok (id : string) : Prop := text_ok id /\ name_valid (bytes_of_string id) = true.
Definition user_id_ok (id : UserId) : Prop :=
  text_ok id /\ user_id_valid (bytes_of_string id) = true.
Definition table_id_ok (t : TableId) : Prop := name_ok (namespace_id t) /\ name_ok (table_name t).

(** Names are folded to lower case when they are read. *)
Definition fold_case (t : TableId) : TableId :=
  mkTableId (to_lowercase (namespace_id t)) (to_lowercase (table_name t)).

#[export] Instance transaction_id_codec :
  Codec transaction_id_ok id write_str read_transaction_id.
Proof.
  constructor.
  - intros id enc rest [Hid Hv] Hw. unfold read_transaction_id.
    rewrite (codec_reads id enc rest Hid Hw). cbn [result_bind Datatypes.id].
    unfold transaction_id_try_new. by rewrite Hv.
  - intros l id rest Hl [[text r] [Ht Hid]]%result_bind_ok.
    apply codec_exact in Ht as (a & enc & Ha & Hw & -> & ->); [|done]. cbn [Datatypes.id] in Hid.
    unfold transaction_id_try_new in Hid. destruct (validate_uuid_v7 _) eqn:E; [|done].
    injection Hid as <- <-. by exists a, enc.
Qed.

#[export] Instance user_id_codec : Codec user_id_ok id write_str read_user_id.
Proof.
  constructor.
  - intros id enc rest [Hid Hv] Hw. unfold read_user_id.
    rewrite (codec_reads id enc rest Hid Hw). cbn [result_bind Datatypes.id].
    unfold user_id_new. by rewrite Hv.
  - intros l id rest Hl [[text r] [Ht Hid]]%result_bind_ok.
    apply codec_exact in Ht as (a & enc & Ha & Hw & -> & ->); [|done]. cbn [Datatypes.id] in Hid.
    unfold user_id_new in Hid. destruct (user_id_valid _) eqn:E; [|done].
    injection Hid as <- <-. by exists a, enc.
Qed.

Lemma name_new_ok id : name_ok id -> name_new to_lowercase id = Ok (to_lowercase id).
Proof. intros [_ Hv]. unfold name_new. by rewrite Hv. Qed.

Lemma name_new_inv id name :
  text_ok id -> name_new to_lowercase id = Ok name -> name_ok id /\ name = to_lowercase id.
Proof.
  unfold name_new, name_ok. intros Hid. destruct (name_valid _) eqn:E; [|done].
  by intros [= <-].
Qed.

Lemma read_target_app flags tx t user enc rest :
  option_all transaction_id_ok tx -> table_id_ok t -> option_all user_id_ok user ->
  has_flag flags FLAG_HAS_TX = bool_decide (is_Some tx) ->
  has_flag flags FLAG_HAS_USER = bool_decide (is_Some user) ->
  write_target tx t user = Ok enc ->
  read_target to_lowercase flags (enc ++ rest) = Ok ((tx, fold_case t, user), rest).
Proof.
  intros Htx [Hns Htable] Huser Hf1 Hf2.
  intros [a [Ha [b [Hb [c [Hc [d [Hd <-%Ok_inj]]%result_bind_ok]]%result_bind_ok]]%result_bind_ok]]
    %result_bind_ok.
  unfold read_target. rewrite <-!app_assoc.
  rewrite (read_some_app tx a _ _ Htx Ha Hf1). cbn [result_bind].
  rewrite (codec_reads _ b _ (proj1 Hns) Hb). cbn [result_bind id].
  rewrite (codec_reads _ c _ (proj1 Htable) Hc). cbn [result_bind id].
  rewrite !name_new_ok by done. cbn [result_bind].
  rewrite (read_some_app user d _ _ Huser Hd Hf2). cbn [result_bind].
  by rewrite !option_fmap_id.
Qed.

Lemma read_target_inv flags l tx t' user rest :
  all_bytes l -> read_target to_lowercase flags l = Ok ((tx, t', user), rest) ->
  exists t enc, option_all transaction_id_ok tx /\ table_id_ok t /\ option_all user_id_ok user /\
    has_flag flags FLAG_HAS_TX = bool_decide (is_Some tx) /\
    has_flag flags FLAG_HAS_USER = bool_decide (is_Some user) /\
    write_target tx t user = Ok enc /\ l = enc ++ rest /\ t' = fold_case t.
Proof.
  intros Hl [[tx' l1] [Htx H]]%result_bind_ok.
  apply read_some_inv in Htx as (tx0 & a & Htx0 & Ha & -> & -> & Hf1); [|done].
  rewrite option_fmap_id in H. apply all_bytes_app in Hl as [_ Hl].
  apply result_bind_ok in H as [[ns l2] [Hns H]].
  apply codec_exact in Hns as (ns0 & b & Hns0 & Hb & -> & ->); [|done].
  apply all_bytes_app in Hl as [_ Hl]. cbn [id] in H.
  apply result_bind_ok in H as [[tn l3] [Htn H]].
  apply codec_exact in Htn as (tn0 & c & Htn0 & Hc & -> & ->); [|done].
  apply all_bytes_app in Hl as [_ Hl]. cbn [id] in H.
  apply result_bind_ok in H as [n1 [Hn1 [n2 [Hn2 H]]%result_bind_ok]].
  apply (name_new_inv _ _ Hns0) in Hn1 as [Hok1 ->].
  apply (name_new_inv _ _ Htn0) in Hn2 as [Hok2 ->].
  apply result_bind_ok in H as [[u l4] [Hu [= <- <- <- <-]]].
  apply read_some_inv in Hu as (u0 & d & Hu0 & Hd & -> & -> & Hf2); [|done].
  rewrite option_fmap_id.
  exists (mkTableId ns0 tn0), (a ++ b ++ c ++ d). split_and!; try done.
  - unfold write_target. rewrite Ha. cbn [result_bind namespace_id table_name].
    rewrite Hb. cbn [result_bind]. rewrite Hc. cbn [result_bind]. by rewrite Hd.
  - by rewrite !app_assoc.
Qed.


(** The fields of a command are within their types. *)
Record insert_ok (p : PackedInsert) : Prop := {
  io_meta : is_u64 (pi_required_meta_index p);
  io_tx : option_all transaction_id_ok (pi_transaction_id p);
  io_table : table_id_ok (pi_table_id p);
  io_user : option_all user_id_ok (pi_user_id p);
  io_fields : Forall all_bytes (pi_encoded_fields p)
}.

Definition insert_read (p : PackedInsert) : PackedInsert :=
  mkPackedInsert (pi_required_meta_index p) (pi_transaction_id p) (fold_case (pi_table_id p))
    (pi_user_id p) (pi_encoded_fields p).

Record delete_ok (p : PackedDelete) : Prop := {
  do_meta : is_u64 (pd_required_meta_index p);
  do_tx : option_all transaction_id_ok (pd_transaction_id p);
  do_table : table_id_ok (pd_table_id p);
  do_user : option_all user_id_ok (pd_user_id p);
  do_pks : option_all (Forall text_ok) (pd_pk_values p)
}.

Definition delete_read (p : PackedDelete) : PackedDelete :=
  mkPackedDelete (pd_required_meta_index p) (pd_transaction_id p) (fold_case (pd_table_id p))
    (pd_user_id p) (pd_pk_values p).

(** Facts about one byte are checked on all of them. *)
Lemma byte_forall (p : Z -> bool) b :
  forallb p (seqZ 0 256) = true -> is_byte b -> p b = true.
Proof.
  intros H Hb. rewrite forallb_forall in H. apply H, list_elem_of_In, elem_of_seqZ.
  unfold is_byte in Hb. lia.
Qed.

Definition insert_flags (tx user : bool) : Z :=
  Z.lor (flag_if tx FLAG_HAS_TX) (flag_if user FLAG_HAS_USER).
Definition delete_flags (tx user pks : bool) : Z :=
  Z.lor (insert_flags tx user) (flag_if pks FLAG_HAS_PK_VALUES).

Lemma insert_flags_inv flags :
  is_byte flags -> unsupported flags (Z.lor FLAG_HAS_TX FLAG_HAS_USER) = false ->
  flags = insert_flags (has_flag flags FLAG_HAS_TX) (has_flag flags FLAG_HAS_USER).
Proof.
  intros Hb H. pose proof (byte_forall (fun x =>
    unsupported x (Z.lor FLAG_HAS_TX FLAG_HAS_USER) ||
    (x =? insert_flags (has_flag x FLAG_HAS_TX) (has_flag x FLAG_HAS_USER))) flags eq_refl Hb) as Hf.
  cbv beta in Hf. rewrite H in Hf. by apply Z.eqb_eq in Hf.
Qed.

Lemma delete_flags_inv flags :
  is_byte flags ->
  unsupported flags (Z.lor (Z.lor FLAG_HAS_TX FLAG_HAS_USER) FLAG_HAS_PK_VALUES) = false ->
  flags = delete_flags (has_flag flags FLAG_HAS_TX) (has_flag flags FLAG_HAS_USER)
            (has_flag flags FLAG_HAS_PK_VALUES).
Proof.
  intros Hb H. pose proof (byte_forall (fun x =>
    unsupported x (Z.lor (Z.lor FLAG_HAS_TX FLAG_HAS_USER) FLAG_HAS_PK_VALUES) ||
    (x =? delete_flags (has_flag x FLAG_HAS_TX) (has_flag x FLAG_HAS_USER)
            (has_flag x FLAG_HAS_PK_VALUES))) flags eq_refl Hb) as Hf.
  cbv beta in Hf. rewrite H in Hf. by apply Z.eqb_eq in Hf.
Qed.

(** Tag, meta index and flags. *)
Definition read_header (tag : Z) (message : string) : Reader (Z * Z) := fun bytes =>
  let? (_, l) := read_tag tag message bytes in
  let? (required_meta_index, l) := read_u64 l in
  let? (flags, l) := read_u8 l in
  Ok ((required_meta_index, flags), l).

Lemma read_header_app tag message meta flags rest :
  is_u64 meta ->
  read_header tag message ([tag] ++ le_bytes 8 meta ++ [flags] ++ rest) = Ok ((meta, flags), rest).
Proof.
  intros Hm. unfold read_header. cbn [read_tag app]. rewrite Z.eqb_refl. cbn [result_bind].
  unfold read_u64. rewrite read_uint_app; [done|]. unfold is_u64, u64_max in Hm. lia.
Qed.

Lemma read_header_inv tag message l meta flags rest :
  all_bytes l -> read_header tag message l = Ok ((meta, flags), rest) ->
  l = [tag] ++ le_bytes 8 meta ++ [flags] ++ rest /\ is_u64 meta /\ is_byte flags /\ all_bytes rest.
Proof.
  intros Hl [[[] l1] [Htag H]]%result_bind_ok. unfold read_tag in Htag.
  destruct l as [|b l]; [done|]. destruct (b =? tag) eqn:E; [|done].
  apply Z.eqb_eq in E as ->. injection Htag as <-. apply Forall_cons in Hl as [_ Hl].
  apply result_bind_ok in H as [[m l2] [Hm H]].
  apply read_uint_inv in Hm as (-> & Hm & Hl2); [|done].
  apply result_bind_ok in H as [[fl l3] [Hf [= <- <- <-]]].
  destruct l2 as [|b l2]; [done|]. injection Hf as -> <-. apply Forall_cons in Hl2 as [Hb Hl2].
  split_and!; try done. unfold is_u64, u64_max. lia.
Qed.

Lemma decode_insert_header tag bytes :
  decode_packed_insert to_lowercase tag bytes =
  let? (head, l) := read_header tag "packed insert tag mismatch" bytes in
  if unsupported head.2 (Z.lor FLAG_HAS_TX FLAG_HAS_USER) then
    Err (Decode "unsupported packed insert flags")
  else
    let? ((tx, table, user), l) := read_target to_lowercase head.2 l in
    let? (row_count, l) := read_u32 l in
    if Z.of_nat (length l) / 4 <? row_count then
      Err (Decode "packed insert row count exceeds remaining payload")
    else
      let? (fields, l) := read_each read_u32_bytes (Z.to_nat row_count) l in
      match l with
      | [] => Ok (mkPackedInsert head.1 tx table user fields)
      | _ => Err (Decode "packed insert trailing bytes")
      end.
Proof.
  unfold decode_packed_insert, read_header.
  destruct (read_tag _ _ bytes) as [[u l]|]; cbn [result_bind]; [|done].
  destruct (read_u64 l) as [[m l1]|]; cbn [result_bind]; [|done].
  by destruct (read_u8 l1) as [[fl l2]|].
Qed.

Lemma decode_delete_header tag bytes :
  decode_packed_delete to_lowercase tag bytes =
  let? (head, l) := read_header tag "packed delete tag mismatch" bytes in
  if unsupported head.2 (Z.lor (Z.lor FLAG_HAS_TX FLAG_HAS_USER) FLAG_HAS_PK_VALUES) then
    Err (Decode "unsupported packed delete flags")
  else
    let? ((tx, table, user), l) := read_target to_lowercase head.2 l in
    let? (pks, l) := read_some (has_flag head.2 FLAG_HAS_PK_VALUES) read_pks l in
    match l with
    | [] => Ok (mkPackedDelete head.1 tx table user pks)
    | _ => Err (Decode "packed delete trailing bytes")
    end.
Proof.
  unfold decode_packed_delete, read_header.
  destruct (read_tag _ _ bytes) as [[u l]|]; cbn [result_bind]; [|done].
  destruct (read_u64 l) as [[m l1]|]; cbn [result_bind]; [|done].
  by destruct (read_u8 l1) as [[fl l2]|].
Qed.

Lemma write_u32_bytes_length x e : write_u32_bytes x = Ok e -> (4 <= length e)%nat.
Proof.
  unfold write_u32_bytes, write_u32_len. destruct (_ <=? _); cbn [result_bind]; [|done].
  intros <-%Ok_inj. rewrite length_app, le_bytes_length. lia.
Qed.

Lemma decode_encoded_insert tag p bytes :
  insert_ok p -> encode_packed_insert tag p = Ok bytes ->
  decode_packed_insert to_lowercase tag bytes = Ok (insert_read p).
Proof.
  intros [Hm Htx Ht Hu Hf]. unfold encode_packed_insert.
  intros [target [Htarget [count [Hcount [fields [Hfields <-%Ok_inj]]%result_bind_ok]]%result_bind_ok]]
    %result_bind_ok.
  rewrite decode_insert_header, read_header_app by done. cbn [result_bind fst snd].
  fold (insert_flags (bool_decide (is_Some (pi_transaction_id p)))
          (bool_decide (is_Some (pi_user_id p)))).
  assert (unsupported (insert_flags (bool_decide (is_Some (pi_transaction_id p)))
            (bool_decide (is_Some (pi_user_id p)))) (Z.lor FLAG_HAS_TX FLAG_HAS_USER) = false) as ->
    by (by destruct (bool_decide _), (bool_decide _)).
  rewrite (read_target_app _ (pi_transaction_id p) (pi_table_id p) (pi_user_id p) target);
    [|done|done|done|by destruct (bool_decide _), (bool_decide _)
     |by destruct (bool_decide _), (bool_decide _)|done].
  cbn [result_bind]. unfold write_u32_len, u32_max in Hcount.
  destruct (_ <=? _) eqn:E; [|done]. apply Z.leb_le in E. apply Ok_inj in Hcount as <-.
  unfold read_u32. rewrite read_uint_app by lia. cbn [result_bind].
  rewrite (proj2 (Z.ltb_ge _ _)).
  2:{ apply Z.div_le_lower_bound; [lia|].
      pose proof (write_each_length 4 _ _ write_u32_bytes_length Hfields). lia. }
  rewrite Nat2Z.id, <-(app_nil_r fields), (read_each_app _ fields [] Hf Hfields).
  cbn [result_bind]. by rewrite list_fmap_id.
Qed.

Lemma decode_insert_inv tag bytes p :
  all_bytes bytes -> decode_packed_insert to_lowercase tag bytes = Ok p ->
  exists q, insert_ok q /\ encode_packed_insert tag q = Ok bytes /\ p = insert_read q.
Proof.
  intros Hb. rewrite decode_insert_header. intros [[[m fl] l] [Hh H]]%result_bind_ok.
  apply read_header_inv in Hh as (-> & Hm & Hfl & Hl); [|done]. cbn [fst snd] in H.
  destruct (unsupported _ _) eqn:E; [done|]. apply insert_flags_inv in E; [|done].
  apply result_bind_ok in H as [[[[tx t'] user] l1] [Ht H]].
  apply read_target_inv in Ht as (t & enc & Htx & Htok & Hu & Hf1 & Hf2 & Hw & -> & ->); [|done].
  apply all_bytes_app in Hl as [_ Hl]. rewrite Hf1, Hf2 in E.
  apply result_bind_ok in H as [[n l2] [Hn H]].
  apply read_uint_inv in Hn as (-> & Hn & Hl2); [|done].
  destruct (_ <? n); [done|].
  apply result_bind_ok in H as [[fields l3] [Hf H]]. destruct l3; [|done].
  apply Ok_inj in H as <-.
  apply read_each_inv in Hf as (xs & encs & Hxs & Hlen & Hws & -> & ->); [|done].
  rewrite list_fmap_id. exists (mkPackedInsert m tx t user xs). split; [by constructor|].
  split; [|done]. unfold encode_packed_insert. cbn [pi_transaction_id pi_table_id pi_user_id
    pi_encoded_fields pi_required_meta_index]. rewrite Hw. cbn [result_bind].
  unfold write_u32_len, u32_max. rewrite Hlen, Z2Nat.id, (proj2 (Z.leb_le _ _)) by lia.
  cbn [result_bind]. rewrite Hws. cbn [result_bind].
  fold (insert_flags (bool_decide (is_Some tx)) (bool_decide (is_Some user))).
  by rewrite <-E, app_nil_r.
Qed.

Lemma decode_encoded_delete tag p bytes :
  delete_ok p -> encode_packed_delete tag p = Ok bytes ->
  decode_packed_delete to_lowercase tag bytes = Ok (delete_read p).
Proof.
  intros [Hm Htx Ht Hu Hpk]. unfold encode_packed_delete.
  intros [target [Htarget [pks [Hpks <-%Ok_inj]]%result_bind_ok]]%result_bind_ok.
  rewrite decode_delete_header, read_header_app by done. cbn [result_bind fst snd].
  fold (insert_flags (bool_decide (is_Some (pd_transaction_id p)))
          (bool_decide (is_Some (pd_user_id p)))).
  fold (delete_flags (bool_decide (is_Some (pd_transaction_id p)))
          (bool_decide (is_Some (pd_user_id p))) (bool_decide (is_Some (pd_pk_values p)))).
  set (flags := delete_flags _ _ _).
  assert (unsupported flags (Z.lor (Z.lor FLAG_HAS_TX FLAG_HAS_USER) FLAG_HAS_PK_VALUES) = false) as ->
    by (subst flags; by destruct (bool_decide _), (bool_decide _), (bool_decide _)).
  rewrite (read_target_app _ (pd_transaction_id p) (pd_table_id p) (pd_user_id p) target);
    [|done|done|done
     |subst flags; by destruct (bool_decide _), (bool_decide _), (bool_decide _)
     |subst flags; by destruct (bool_decide _), (bool_decide _), (bool_decide _)|done].
  cbn [result_bind]. rewrite <-(app_nil_r pks).
  rewrite (read_some_app (pd_pk_values p) pks [] _ Hpk Hpks)
    by (subst flags; by destruct (bool_decide _), (bool_decide _), (bool_decide _)).
  cbn [result_bind]. unfold delete_read. do 2 f_equal.
  destruct (pd_pk_values p); [|done]. cbn. by rewrite list_fmap_id.
Qed.

Lemma decode_delete_inv tag bytes p :
  all_bytes bytes -> decode_packed_delete to_lowercase tag bytes = Ok p ->
  exists q, delete_ok q /\ encode_packed_delete tag q = Ok bytes /\ p = delete_read q.
Proof.
  intros Hb. rewrite decode_delete_header. intros [[[m fl] l] [Hh H]]%result_bind_ok.
  apply read_header_inv in Hh as (-> & Hm & Hfl & Hl); [|done]. cbn [fst snd] in H.
  destruct (unsupported _ _) eqn:E; [done|]. apply delete_flags_inv in E; [|done].
  apply result_bind_ok in H as [[[[tx t'] user] l1] [Ht H]].
  apply read_target_inv in Ht as (t & enc & Htx & Htok & Hu & Hf1 & Hf2 & Hw & -> & ->); [|done].
  apply all_bytes_app in Hl as [_ Hl].
  apply result_bind_ok in H as [[pks l2] [Hp H]].
  apply read_some_inv in Hp as (xs & encs & Hxs & Hws & -> & -> & Hf3); [|done].
  destruct l2; [|done]. apply Ok_inj in H as <-. rewrite Hf1, Hf2, Hf3 in E.
  exists (mkPackedDelete m tx t user xs). split; [by constructor|]. split.
  - unfold encode_packed_delete. cbn [pd_transaction_id pd_table_id pd_user_id pd_pk_values
      pd_required_meta_index]. rewrite Hw. cbn [result_bind]. rewrite Hws. cbn [result_bind].
    fold (insert_flags (bool_decide (is_Some tx)) (bool_decide (is_Some user))).
    fold (delete_flags (bool_decide (is_Some tx)) (bool_decide (is_Some user))
            (bool_decide (is_Some xs))).
    by rewrite <-E, app_nil_r.
  - unfold delete_read. cbn. f_equal. destruct xs; [|done]. cbn. by rewrite list_fmap_id.
Qed.

End Packed.

(** ** Responses, log records, envelopes *)

Definition response_ok (r : PackedDataResponse) : Prop :=
  match r with
  | PackedOk => True
  | PackedRowsAffected n => is_u64 n
  | PackedError message => text_ok message
  end.

Lemma decode_encoded_response r bytes :
  response_ok r -> encode_packed_data_response r = Ok bytes ->
  decode_packed_data_response bytes = Ok r.
Proof.
  destruct r as [|n|message]; cbn [response_ok encode_packed_data_response]; intros Hr.
  - by intros <-%Ok_inj.
  - intros <-%Ok_inj. unfold decode_packed_data_response. cbn [app].
    cbn [length]. rewrite le_bytes_length. cbn -[le_bytes from_le take].
    rewrite take_ge by (by rewrite le_bytes_length).
    rewrite from_le_bytes; [done|]. unfold is_u64, u64_max in Hr. lia.
  - intros [text [Ht <-%Ok_inj]]%result_bind_ok. unfold decode_packed_data_response. cbn [app].
    cbn -[read_u16_str]. rewrite <-(app_nil_r text).
    by rewrite (codec_reads message text [] Hr Ht).
Qed.

Lemma decode_response_inv bytes r :
  all_bytes bytes -> decode_packed_data_response bytes = Ok r ->
  response_ok r /\ encode_packed_data_response r = Ok bytes.
Proof.
  intros Hb. unfold decode_packed_data_response. destruct bytes as [|tag [|kind rest]]; [done..|].
  apply Forall_cons in Hb as [_ Hb]. apply Forall_cons in Hb as [_ Hb].
  destruct (tag =? _) eqn:Etag; [|done]. apply Z.eqb_eq in Etag as ->. cbn [negb].
  destruct (kind =? RESP_OK) eqn:E0; cbn [andb].
  { apply Z.eqb_eq in E0 as ->. destruct rest as [|b rest]; [by intros <-%Ok_inj|done]. }
  destruct (kind =? RESP_ROWS_AFFECTED) eqn:E1; cbn [andb].
  { apply Z.eqb_eq in E1 as ->. destruct (length _ =? 10)%nat eqn:El; [|done].
    apply Nat.eqb_eq in El. cbn [length] in El.
    intros <-%Ok_inj. rewrite take_ge by lia. cbn [response_ok encode_packed_data_response].
    pose proof (from_le_range rest Hb) as Hrange. assert (length rest = 8%nat) as Hl by lia.
    rewrite Hl in Hrange. rewrite le_from_bytes_n by done. split; [|done].
    unfold is_u64, u64_max. lia. }
  destruct (kind =? RESP_ERROR) eqn:E2; [|done]. apply Z.eqb_eq in E2 as ->.
  intros [[message l] [Hm H]]%result_bind_ok. destruct l; [|done]. apply Ok_inj in H as <-.
  apply codec_exact in Hm as (m & enc & Hok & Hw & -> & ->); [|done].
  split; [done|]. cbn [encode_packed_data_response]. rewrite app_nil_r.
  cbn [id]. unfold write_str in Hw. by rewrite Hw.
Qed.

Lemma decode_encoded_log_record index term payload :
  is_u64 index -> is_u64 term ->
  decode_raft_log_record (encode_raft_log_record_parts index term payload) =
  Ok (index, term, payload).
Proof.
  intros Hi Ht. unfold decode_raft_log_record, encode_raft_log_record_parts. cbn [app].
  change (negb (RAFT_LOG_RECORD_VERSION =? RAFT_LOG_RECORD_VERSION)) with false.
  cbn [length]. rewrite !length_app, !le_bytes_length.
  rewrite (proj2 (Nat.ltb_ge _ _)) by (unfold RAFT_LOG_RECORD_HEADER_LEN; lia).
  rewrite (take_app_n 8), (drop_app_n 8), (take_app_n 8) by apply le_bytes_length.
  rewrite app_assoc, (drop_app_n 16) by (by rewrite length_app, !le_bytes_length).
  rewrite !from_le_bytes; [done|unfold is_u64, u64_max in *; lia..].
Qed.

Lemma decode_log_record_inv bytes index term payload :
  all_bytes bytes -> decode_raft_log_record bytes = Ok (index, term, payload) ->
  is_u64 index /\ is_u64 term /\ bytes = encode_raft_log_record_parts index term payload.
Proof.
  intros Hb. unfold decode_raft_log_record. destruct bytes as [|version rest]; [done|].
  apply Forall_cons in Hb as [_ Hb].
  destruct (version =? _) eqn:E; [|done]. apply Z.eqb_eq in E as ->. cbn [negb].
  destruct (_ <? _)%nat eqn:El; [done|]. apply Nat.ltb_ge in El.
  unfold RAFT_LOG_RECORD_HEADER_LEN in El. cbn [length] in El. intros [= <- <- <-].
  assert (all_bytes (take 8 rest) /\ all_bytes (take 8 (drop 8 rest))) as [H1 H2]
    by auto with kalam.
  assert (length (take 8 rest) = 8%nat) as L1 by (rewrite length_take; lia).
  assert (length (take 8 (drop 8 rest)) = 8%nat) as L2 by (rewrite length_take, length_drop; lia).
  pose proof (from_le_range _ H1) as R1. pose proof (from_le_range _ H2) as R2.
  rewrite L1 in R1. rewrite L2 in R2. unfold is_u64, u64_max. split; [lia|]. split; [lia|].
  unfold encode_raft_log_record_parts. rewrite !le_from_bytes_n by done. cbn [app]. f_equal.
  rewrite <-(take_drop 8 rest) at 1. f_equal. rewrite <-(take_drop 8 (drop 8 rest)) at 1. f_equal.
  by rewrite drop_drop.
Qed.

Lemma decode_encoded_log_id term index :
  is_u64 term -> is_u64 index ->
  decode_packed_log_id (encode_packed_log_id term index) = Ok (term, index).
Proof.
  intros Ht Hi. unfold decode_packed_log_id, encode_packed_log_id. cbn [app].
  change (negb (RAFT_LOG_ID_VERSION =? RAFT_LOG_ID_VERSION)) with false.
  cbn [length]. rewrite !length_app, !le_bytes_length. cbn -[le_bytes from_le take drop].
  rewrite (take_app_n 8), (drop_app_n 8) by apply le_bytes_length.
  rewrite !from_le_bytes; [done|unfold is_u64, u64_max in *; lia..].
Qed.

(** A header field of the envelope, after what precedes it. *)
Lemma slice_app a b l1 l2 l3 :
  length l1 = a -> length l2 = (b - a)%nat -> slice a b (l1 ++ l2 ++ l3) = l2.
Proof. intros <- H2. unfold slice. by rewrite drop_app_length, take_app_n. Qed.

Definition envelope (kind : ObjectKind) (schema_version flags : Z) (payload : list Z) : list Z :=
  MAGIC ++ le_bytes 2 PROTOCOL_VERSION ++ [kind_as_u8 kind] ++ le_bytes 2 schema_version ++
  le_bytes 2 flags ++ le_bytes 4 (Z.of_nat (length payload)) ++ payload.

Lemma encode_envelope_bytes kind v flags payload bytes :
  encode_envelope_with_flags kind v flags payload = Ok bytes <->
  Z.of_nat (length payload) <= u32_max /\ bytes = envelope kind v flags payload.
Proof.
  unfold encode_envelope_with_flags, finish_envelope.
  set (head := MAGIC ++ le_bytes 2 PROTOCOL_VERSION ++ [kind_as_u8 kind] ++ le_bytes 2 v ++
                 le_bytes 2 flags).
  assert (begin_envelope kind v flags = head ++ [0; 0; 0; 0]) as ->
    by (unfold begin_envelope, head; by rewrite <-!app_assoc).
  assert (length head = 11%nat) as Hh
    by (unfold head; rewrite !length_app, !le_bytes_length; done).
  rewrite !length_app, Hh. cbn [length].
  replace (11 + 4 + length payload - HEADER_LEN)%nat with (length payload)
    by (unfold HEADER_LEN; lia).
  rewrite <-app_assoc, (take_app_n (HEADER_LEN - 4)) by done.
  assert (drop HEADER_LEN (head ++ [0; 0; 0; 0] ++ payload) = payload) as ->
    by (rewrite app_assoc; apply drop_app_n; by rewrite length_app, Hh).
  unfold envelope. destruct (_ <=? u32_max) eqn:E.
  - apply Z.leb_le in E. unfold head. rewrite <-!app_assoc. split.
    + intros <-%Ok_inj. done.
    + by intros [_ ->].
  - apply Z.leb_gt in E. split; [done|lia].
Qed.

Lemma kind_u8_roundtrip kind : kind_from_u8 (kind_as_u8 kind) = Ok kind.
Proof. by destruct kind. Qed.

Definition header_ok (kind : ObjectKind) (v flags : Z) : Prop :=
  0 <= v <= u16_max /\ 0 <= flags <= u16_max /\
  unsupported flags (match kind with RowObject => SUPPORTED_ROW_FLAGS | _ => 0 end) = false.

Lemma decode_envelope_of kind v flags payload :
  header_ok kind v flags -> Z.of_nat (length payload) <= u32_max ->
  decode_envelope (envelope kind v flags payload) kind =
  Ok (mkHeader PROTOCOL_VERSION kind v flags, payload).
Proof.
  intros (Hv & Hf & Hs) Hp. unfold u16_max in *. unfold u32_max in Hp.
  set (bytes := envelope kind v flags payload).
  assert (slice 0 4 bytes = MAGIC) as S0 by (by apply (slice_app 0 4 [])).
  assert (slice 4 6 bytes = le_bytes 2 PROTOCOL_VERSION) as S4 by (by apply slice_app).
  assert (slice 6 7 bytes = [kind_as_u8 kind]) as S6.
  { unfold bytes, envelope. rewrite app_assoc. apply slice_app; [|done].
    by rewrite length_app, le_bytes_length. }
  assert (slice 7 9 bytes = le_bytes 2 v) as S7.
  { unfold bytes, envelope. rewrite !app_assoc. rewrite <-app_assoc, <-!(app_assoc _ (le_bytes 2 flags)).
    rewrite <-!(app_assoc _ (le_bytes 2 v)).
    apply slice_app; [|by rewrite le_bytes_length].
    by rewrite !length_app, !le_bytes_length. }
  assert (slice 9 11 bytes = le_bytes 2 flags) as S9.
  { unfold bytes, envelope. rewrite !app_assoc. rewrite <-app_assoc, <-!(app_assoc _ (le_bytes 2 flags)).
    apply slice_app; [|by rewrite le_bytes_length].
    by rewrite !length_app, !le_bytes_length. }
  assert (slice 11 15 bytes = le_bytes 4 (Z.of_nat (length payload))) as S11.
  { unfold bytes, envelope. rewrite !app_assoc. rewrite <-app_assoc.
    apply slice_app; [|by rewrite le_bytes_length].
    by rewrite !length_app, !le_bytes_length. }
  assert (length bytes = (HEADER_LEN + length payload)%nat) as Hlen.
  { unfold bytes, envelope. rewrite !length_app, !le_bytes_length. cbn [length MAGIC]. unfold HEADER_LEN. lia. }
  unfold decode_envelope. rewrite S0, S4, S6, S7, S9, S11, Hlen.
  rewrite (proj2 (Nat.ltb_ge _ _)) by lia. rewrite bool_decide_eq_true_2 by done. cbn [negb].
  change (from_le (le_bytes 2 PROTOCOL_VERSION)) with PROTOCOL_VERSION.
  change (negb (PROTOCOL_VERSION =? PROTOCOL_VERSION)) with false. cbv zeta iota.
  replace (from_le [kind_as_u8 kind]) with (kind_as_u8 kind) by (cbn; lia).
  rewrite kind_u8_roundtrip. cbn [result_bind]. rewrite decide_True by done.
  rewrite !from_le_bytes by lia. rewrite Hs, Nat2Z.id.
  rewrite Nat.ltb_irrefl, Nat.eqb_refl. cbn [negb]. do 2 f_equal.
Qed.

Lemma drop_slice a b (l : list Z) :
  (a <= b <= length l)%nat -> drop a l = slice a b l ++ drop b l.
Proof.
  intros H. unfold slice. rewrite <-(take_drop (b - a) (drop a l)) at 1. f_equal.
  rewrite drop_drop. f_equal. lia.
Qed.

Lemma slice_le n a b (l : list Z) :
  all_bytes l -> (a <= b <= length l)%nat -> n = (b - a)%nat ->
  le_bytes n (from_le (slice a b l)) = slice a b l /\
  0 <= from_le (slice a b l) < 256 ^ Z.of_nat n.
Proof.
  intros Hl Hab ->. assert (length (slice a b l) = (b - a)%nat) as Hn
    by (unfold slice; rewrite length_take, length_drop; lia).
  assert (all_bytes (slice a b l)) as Hb by (unfold slice; auto with kalam).
  split; [by apply le_from_bytes_n|]. rewrite <-Hn. by apply from_le_range.
Qed.

Lemma kind_from_u8_inv b kind : kind_from_u8 b = Ok kind -> b = kind_as_u8 kind.
Proof.
  unfold kind_from_u8.
  repeat match goal with |- context [b =? ?k] => destruct (Z.eqb_spec b k) as [->|] end;
    by intros [= <-].
Qed.

Lemma decode_envelope_inv bytes kind header payload :
  all_bytes bytes -> decode_envelope bytes kind = Ok (header, payload) ->
  header = mkHeader PROTOCOL_VERSION kind (eh_schema_version header) (eh_flags header) /\
  header_ok kind (eh_schema_version header) (eh_flags header) /\
  Z.of_nat (length payload) <= u32_max /\
  bytes = envelope kind (eh_schema_version header) (eh_flags header) payload.
Proof.
  intros Hb. unfold decode_envelope. destruct (_ <? _)%nat eqn:El; [done|].
  apply Nat.ltb_ge in El. unfold HEADER_LEN in El.
  destruct (bool_decide _) eqn:Em; [|done]. apply bool_decide_eq_true_1 in Em. cbn [negb].
  pose proof (slice_le 2 4 6 bytes Hb ltac:(lia) eq_refl) as [S4 _].
  pose proof (slice_le 1 6 7 bytes Hb ltac:(lia) eq_refl) as [S6 R6].
  pose proof (slice_le 2 7 9 bytes Hb ltac:(lia) eq_refl) as [S7 R7].
  pose proof (slice_le 2 9 11 bytes Hb ltac:(lia) eq_refl) as [S9 R9].
  pose proof (slice_le 4 11 15 bytes Hb ltac:(lia) eq_refl) as [S11 R11].
  destruct (_ =? PROTOCOL_VERSION) eqn:Ev; [|done]. apply Z.eqb_eq in Ev. cbn [negb].
  intros [k [Hk H]]%result_bind_ok. apply kind_from_u8_inv in Hk.
  destruct (decide (k = kind)) as [->|]; [|done].
  destruct (unsupported _ _) eqn:Eu; [done|]. rewrite Ev in H.
  destruct (_ <? _)%nat eqn:E1; [done|]. destruct (_ =? _)%nat eqn:E2; [|done].
  cbn [negb] in H. apply Nat.eqb_eq in E2. injection H as <- <-.
  cbn [eh_schema_version eh_flags]. split; [done|].
  unfold header_ok, u16_max, u32_max. unfold HEADER_LEN in E2.
  assert (Z.of_nat (length (drop HEADER_LEN bytes)) = from_le (slice 11 15 bytes)) as Hlen
    by (rewrite length_drop; unfold HEADER_LEN; lia).
  split_and!; [lia..|done|lia|].
  unfold envelope. rewrite Hlen, S7, S9, S11, <-Ev, S4.
  rewrite <-Hk. replace [from_le (slice 6 7 bytes)] with (slice 6 7 bytes).
  2:{ rewrite <-S6 at 1. cbn [le_bytes]. by rewrite Z.mod_small by lia. }
  rewrite <-Em. rewrite <-(drop_0 bytes) at 1.
  rewrite (drop_slice 0 4), (drop_slice 4 6), (drop_slice 6 7), (drop_slice 7 9),
    (drop_slice 9 11), (drop_slice 11 15) by lia.
  done.
Qed.

Definition is_i64 (x : Z) : Prop := - 2 ^ 63 <= x <= i64_max.

Lemma i64_bytes_value x : is_i64 x -> i64_from_le (i64_le_bytes x) = x.
Proof.
  unfold is_i64, i64_from_le, i64_le_bytes, i64_as_u64, u64_as_i64, wrap64, i64_max, u64_modulus.
  intros Hx. rewrite from_le_bytes by (apply Z.mod_pos_bound; lia).
  destruct (Z.neg_nonneg_cases x) as [Hn|Hn].
  - replace (x mod 2 ^ 64) with (x + 2 ^ 64)
      by (apply Z.mod_unique with (-1); [left; lia|lia]).
    rewrite (proj2 (Z.leb_gt _ _)); lia.
  - rewrite Z.mod_small by lia. rewrite (proj2 (Z.leb_le _ _)); lia.
Qed.

Lemma i64_value_bytes l :
  all_bytes l -> length l = 8%nat ->
  is_i64 (i64_from_le l) /\ i64_le_bytes (i64_from_le l) = l.
Proof.
  intros Hl Hn. pose proof (from_le_range l Hl) as Hr. rewrite Hn in Hr.
  assert (i64_as_u64 (u64_as_i64 (from_le l)) = from_le l) as E.
  { unfold i64_as_u64, u64_as_i64, wrap64, i64_max, u64_modulus. destruct (_ <=? _) eqn:E.
    - apply Z.mod_small. lia.
    - symmetry. apply Z.mod_unique with (-1); [left; lia|lia]. }
  unfold i64_le_bytes, i64_from_le. rewrite E, le_from_bytes_n by done. split; [|done].
  unfold is_i64, u64_as_i64, i64_max, u64_modulus. destruct (_ <=? _) eqn:E2; zbool; lia.
Qed.

Lemma i64_le_bytes_length x : length (i64_le_bytes x) = 8%nat.
Proof. apply le_bytes_length. Qed.

(** The bytes of a stream record inside its envelope. *)
Definition stream_inner (tag : Z) (user : list Z) (version timestamp : Z) (rest : list Z) :
    list Z :=
  [tag] ++ i64_le_bytes version ++ i64_le_bytes timestamp ++
  le_bytes 4 (Z.of_nat (length user)) ++ user ++ rest.

Lemma stream_inner_length tag user version timestamp rest :
  length (stream_inner tag user version timestamp rest) = (21 + length user + length rest)%nat.
Proof.
  unfold stream_inner. rewrite !length_app, !i64_le_bytes_length, le_bytes_length.
  cbn [length]. lia.
Qed.

Lemma stream_frame_bytes tag user version timestamp rest bytes :
  Z.of_nat (length bytes) <= u32_max ->
  stream_frame tag user version timestamp rest = Ok (le_bytes 4 (Z.of_nat (length bytes)) ++ bytes) <->
  bytes = envelope StreamObject STREAM_BINARY_SCHEMA_VERSION 0
            (stream_inner tag user version timestamp rest).
Proof.
  intros Hb. set (inner := stream_inner tag user version timestamp rest).
  assert (length (envelope StreamObject STREAM_BINARY_SCHEMA_VERSION 0 inner) =
            (HEADER_LEN + length inner)%nat) as Henv.
  { unfold envelope. rewrite !length_app, !le_bytes_length. cbn [length MAGIC].
    unfold HEADER_LEN. lia. }
  pose proof (stream_inner_length tag user version timestamp rest) as Hinner.
  fold inner in Hinner. unfold stream_frame.
  replace (1 + 8 + 8 + 4 + length user + length rest)%nat with (length inner) by lia.
  assert (forall l, [tag] ++ i64_le_bytes version ++ i64_le_bytes timestamp ++
            le_bytes 4 (Z.of_nat (length user)) ++ user ++ rest = l <-> inner = l) as Hframe
    by reflexivity.
  rewrite (proj2 (Hframe _) eq_refl).
  fold (envelope StreamObject STREAM_BINARY_SCHEMA_VERSION 0 inner).
  split.
  - do 3 (case_match; [discriminate|]).
    intros Heq%Ok_inj.
    apply app_inj_1 in Heq as [_ Heq]; [done|by rewrite !le_bytes_length].
  - intros ->. rewrite Henv in Hb |- *.
    by rewrite !(proj2 (Z.ltb_ge u32_max _)) by lia.
Qed.

Definition stream_record_ok (r : RawStreamRecord) : Prop :=
  match r with
  | StreamPut user version timestamp row =>
      text_ok user /\ is_i64 version /\ is_i64 timestamp /\ all_bytes row
  | StreamDelete user version timestamp => text_ok user /\ is_i64 version /\ is_i64 timestamp
  end.

(** The frame of a record, by the append function of its kind. *)
Definition append_stream_record (out : list Z) (r : RawStreamRecord) : SerResult (list Z) :=
  match r with
  | StreamPut user version timestamp row => append_stream_put_frame out user version timestamp row
  | StreamDelete user version timestamp => append_stream_delete_frame out user version timestamp
  end.

Definition stream_parts (r : RawStreamRecord) : list Z :=
  match r with
  | StreamPut user version timestamp row =>
      stream_inner STREAM_RECORD_PUT (bytes_of_string user) version timestamp row
  | StreamDelete user version timestamp =>
      stream_inner STREAM_RECORD_DELETE (bytes_of_string user) version timestamp []
  end.

Lemma append_stream_record_bytes r bytes :
  Z.of_nat (length bytes) <= u32_max ->
  append_stream_record [] r = Ok (le_bytes 4 (Z.of_nat (length bytes)) ++ bytes) <->
  bytes = envelope StreamObject STREAM_BINARY_SCHEMA_VERSION 0 (stream_parts r).
Proof.
  intros Hb.
  assert (forall f : SerResult (list Z), (let? frame := f in Ok ([] ++ frame)) = f) as Hid
    by (by intros []).
  destruct r; cbn [append_stream_record stream_parts].
  - unfold append_stream_put_frame. rewrite Hid. by apply stream_frame_bytes.
  - unfold append_stream_delete_frame. rewrite Hid. by apply stream_frame_bytes.
Qed.

(** The fields of the fixed part. *)
Lemma stream_inner_slices tag user version timestamp rest :
  let payload := stream_inner tag user version timestamp rest in
  slice 0 1 payload = [tag] /\ slice 1 9 payload = i64_le_bytes version /\
  slice 9 17 payload = i64_le_bytes timestamp /\
  slice 17 21 payload = le_bytes 4 (Z.of_nat (length user)) /\
  slice 21 (21 + length user) payload = user /\ drop (21 + length user) payload = rest.
Proof.
  intros payload. unfold payload, stream_inner. split_and!.
  - done.
  - by apply slice_app; rewrite ?i64_le_bytes_length.
  - rewrite app_assoc. apply slice_app; [|by rewrite i64_le_bytes_length].
    by rewrite length_app, i64_le_bytes_length.
  - rewrite app_assoc, (app_assoc _ (i64_le_bytes timestamp)).
    apply slice_app; [|by rewrite le_bytes_length].
    by rewrite !length_app, !i64_le_bytes_length.
  - rewrite app_assoc, (app_assoc _ (i64_le_bytes timestamp)), (app_assoc _ (le_bytes 4 _)).
    apply slice_app; [|lia]. by rewrite !length_app, !i64_le_bytes_length, le_bytes_length.
  - rewrite app_assoc, (app_assoc _ (i64_le_bytes timestamp)), (app_assoc _ (le_bytes 4 _)),
      (app_assoc _ user).
    apply drop_app_n. rewrite !length_app, !i64_le_bytes_length, le_bytes_length. done.
Qed.

Lemma decode_stream_parts r :
  stream_record_ok r -> Z.of_nat (length (stream_parts r)) <= u32_max ->
  decode_raw_stream_record
    (envelope StreamObject STREAM_BINARY_SCHEMA_VERSION 0 (stream_parts r)) = Ok r.
Proof.
  intros Hr Hlen. unfold decode_raw_stream_record.
  rewrite decode_envelope_of; [|by split_and!|done]. cbn [result_bind eh_schema_version].
  change (negb (STREAM_BINARY_SCHEMA_VERSION =? STREAM_BINARY_SCHEMA_VERSION)) with false.
  destruct r as [user v ts row|user v ts]; cbn [stream_parts stream_record_ok] in *.
  - destruct Hr as (Hu & Hv & Hts & _). rewrite stream_inner_length in Hlen |- *.
    destruct (stream_inner_slices STREAM_RECORD_PUT (bytes_of_string user) v ts row)
      as (-> & -> & -> & -> & S & D).
    unfold u32_max in Hlen. rewrite !i64_bytes_value, !from_le_bytes by (done || lia).
    rewrite Nat2Z.id, S, D, !(proj2 (Nat.ltb_ge _ _)) by lia. rewrite Hu. cbn [negb].
    by rewrite string_bytes_string.
  - destruct Hr as (Hu & Hv & Hts). rewrite stream_inner_length in Hlen |- *.
    destruct (stream_inner_slices STREAM_RECORD_DELETE (bytes_of_string user) v ts [])
      as (-> & -> & -> & -> & S & D).
    unfold u32_max in Hlen. rewrite !i64_bytes_value, !from_le_bytes by (done || lia).
    rewrite Nat2Z.id, S, D, !(proj2 (Nat.ltb_ge _ _)) by lia. rewrite Hu. cbn [negb].
    by rewrite string_bytes_string.
Qed.

Lemma decode_stream_inv bytes r :
  all_bytes bytes -> decode_raw_stream_record bytes = Ok r ->
  stream_record_ok r /\
  bytes = envelope StreamObject STREAM_BINARY_SCHEMA_VERSION 0 (stream_parts r).
Proof.
  intros Hb [[header payload] [Henv H]]%result_bind_ok.
  apply decode_envelope_inv in Henv as (Hh & (_ & Hf & Hs) & Hp & ->); [|done].
  destruct (eh_schema_version header =? _) eqn:Ev; [|done]. apply Z.eqb_eq in Ev. cbn [negb] in H.
  assert (eh_flags header = 0) as Hf0.
  { unfold unsupported in Hs. apply negb_false_iff, Z.eqb_eq in Hs.
    by rewrite Z.land_m1_r in Hs. }
  rewrite Ev, Hf0 in *. assert (all_bytes payload) as Hpb.
  { unfold envelope in Hb. rewrite !all_bytes_app in Hb. tauto. }
  destruct (_ <? 21)%nat eqn:E1; [done|]. apply Nat.ltb_ge in E1.
  destruct (_ <? _)%nat eqn:E2; [done|]. apply Nat.ltb_ge in E2.
  set (n := Z.to_nat (from_le (slice 17 21 payload))) in *.
  set (user := slice 21 (21 + n) payload) in *.
  destruct (utf8_valid user) eqn:Eu; [|done]. cbn [negb] in H.
  pose proof (slice_le 1 0 1 payload Hpb ltac:(lia) eq_refl) as [S0 R0].
  pose proof (slice_le 4 17 21 payload Hpb ltac:(lia) eq_refl) as [S17 R17].
  assert (all_bytes user /\ length user = n) as [Hub Hun].
  { unfold user, slice. split; [auto with kalam|]. rewrite length_take, length_drop. lia. }
  assert (forall a, (a + 8 <= length payload)%nat -> is_i64 (i64_from_le (slice a (a + 8) payload)) /\
    i64_le_bytes (i64_from_le (slice a (a + 8) payload)) = slice a (a + 8) payload) as Hi.
  { intros a Ha. apply i64_value_bytes; unfold slice; [auto with kalam|].
    rewrite length_take, length_drop. lia. }
  destruct (Hi 1%nat ltac:(lia)) as [I1 B1]. destruct (Hi 9%nat ltac:(lia)) as [I9 B9].
  change (1 + 8)%nat with 9%nat in I1, B1. change (9 + 8)%nat with 17%nat in I9, B9.
  assert (stream_inner (from_le (slice 0 1 payload)) user (i64_from_le (slice 1 9 payload))
            (i64_from_le (slice 9 17 payload)) (drop (21 + n) payload) = payload) as Hparts.
  { unfold stream_inner. replace [from_le (slice 0 1 payload)] with (slice 0 1 payload).
    2:{ rewrite <-S0 at 1. cbn [le_bytes]. by rewrite Z.mod_small by lia. }
    rewrite B1, B9, Hun. unfold n at 1. rewrite Z2Nat.id by lia. rewrite S17. unfold user.
    rewrite <-(drop_0 payload) at 7. rewrite (drop_slice 0 1), (drop_slice 1 9),
      (drop_slice 9 17), (drop_slice 17 21), (drop_slice 21 (21 + n)) by lia. done. }
  assert (text_ok (string_of_bytes user)) as Hut
    by (unfold text_ok; by rewrite bytes_string_bytes).
  destruct (from_le (slice 0 1 payload) =? STREAM_RECORD_PUT) eqn:Et1.
  - apply Z.eqb_eq in Et1. apply Ok_inj in H as <-. rewrite Et1 in Hparts.
    cbn [stream_record_ok stream_parts]. rewrite bytes_string_bytes, Hparts by done.
    split; [|done]. split_and!; auto with kalam.
  - destruct (from_le (slice 0 1 payload) =? STREAM_RECORD_DELETE) eqn:Et2; [|done].
    apply Z.eqb_eq in Et2. destruct (drop (21 + n) payload) eqn:Ed; [|done].
    apply Ok_inj in H as <-. rewrite Et2 in Hparts.
    cbn [stream_record_ok stream_parts]. rewrite bytes_string_bytes, Hparts by done.
    split; [|done]. by split_and!.
Qed.

(** ** What the formats guarantee *)

(** C35. The packed INSERT and DELETE entries of the Raft log (the other commands and the responses
    are not part of this claim): decoding accepts exactly the byte strings that encoding a command with
    valid identifiers produces (no truncated, padded or otherwise different form), and gives back that
    command with the names of the table folded to lower case. *)
Theorem packed_commands_exact (to_lowercase : string -> string) (tag : Z) (bytes : list Z) :
  all_bytes bytes ->
  (forall p, decode_packed_insert to_lowercase tag bytes = Ok p <->
     exists q, insert_ok q /\ encode_packed_insert tag q = Ok bytes /\ p = insert_read to_lowercase q) /\
  (forall p, decode_packed_delete to_lowercase tag bytes = Ok p <->
     exists q, delete_ok q /\ encode_packed_delete tag q = Ok bytes /\ p = delete_read to_lowercase q).
Proof.
  intros Hb. split; intros p; split.
  - by apply decode_insert_inv.
  - intros (q & Hq & He & ->). by apply decode_encoded_insert.
  - by apply decode_delete_inv.
  - intros (q & Hq & He & ->). by apply decode_encoded_delete.
Qed.

(** The frames of a stream log: after its length prefix, decoding accepts exactly what
    appending a record with a valid user id and 64-bit version and timestamp writes, and gives
    that record back. *)
Theorem stream_frames_exact (bytes : list Z) (r : RawStreamRecord) :
  all_bytes bytes -> Z.of_nat (length bytes) <= u32_max ->
  (decode_raw_stream_record bytes = Ok r <->
   stream_record_ok r /\
   append_stream_record [] r = Ok (le_bytes 4 (Z.of_nat (length bytes)) ++ bytes)).
Proof.
  intros Hb Hlen. rewrite append_stream_record_bytes by done. split.
  - by apply decode_stream_inv.
  - intros [Hr ->]. apply decode_stream_parts; [done|].
    unfold envelope in Hlen. rewrite !length_app in Hlen. lia.
Qed.

Definition w_uuid : string := "01890a5d-ac96-774b-bcce-b302099a8057".

Definition w_insert : PackedInsert :=
  mkPackedInsert 7 (Some w_uuid) (mkTableId "app" "users") (Some "u1") [[1; 2; 3]; []].

Definition w_insert_bytes : list Z :=
  match encode_packed_insert PACKED_USER_INSERT w_insert with Ok l => l | Err _ => [] end.

Lemma all_bytes_dec (l : list Z) :
  forallb (fun b => (0 <=? b) && (b <? 256)) l = true -> all_bytes l.
Proof.
  intros H. rewrite forallb_forall in H. apply Forall_forall. intros b Hb.
  apply list_elem_of_In in Hb. specialize (H b Hb). unfold is_byte. zbool. lia.
Qed.

Lemma packed_commands_exact_witness :
  length w_insert_bytes = 79%nat /\
  decode_packed_insert to_ascii_lowercase PACKED_USER_INSERT w_insert_bytes = Ok w_insert /\
  exists q, insert_ok q /\ encode_packed_insert PACKED_USER_INSERT q = Ok w_insert_bytes /\
    w_insert = insert_read to_ascii_lowercase q.
Proof.
  split; [vm_compute; reflexivity|]. split; [vm_compute; reflexivity|].
  apply (packed_commands_exact to_ascii_lowercase PACKED_USER_INSERT w_insert_bytes);
    [apply all_bytes_dec; vm_compute; reflexivity|vm_compute; reflexivity].
Defined.

Definition w_record : RawStreamRecord := StreamPut "u1" (-5) 1234 [9; 8].
Definition w_record_bytes : list Z :=
  envelope StreamObject STREAM_BINARY_SCHEMA_VERSION 0 (stream_parts w_record).

Lemma stream_frames_exact_witness :
  decode_raw_stream_record w_record_bytes = Ok w_record /\
  append_stream_record [] w_record =
  Ok (le_bytes 4 (Z.of_nat (length w_record_bytes)) ++ w_record_bytes).
Proof.
  split; [vm_compute; reflexivity|].
  apply (stream_frames_exact w_record_bytes w_record);
    [apply all_bytes_dec; vm_compute; reflexivity|vm_compute; discriminate|vm_compute; reflexivity].
Defined.
