(* ===== verification/RaftCommands.v ===== *)
(** * RaftCommands: the entries of the data groups and their codec

    kalamdb-raft/src/commands (user_data.rs, shared_data.rs, data_response.rs, the data part of
    mod.rs), error.rs, and codec/command_codec.rs on top of [Protocol].  The payload codec of a
    type is its [Serde] instance; metadata commands are a parameter here. *)

From Stdlib Require Import ZArith Lia Ascii.
From stdpp Require Import base strings gmap list pretty.
From S2P Require Import Prelude Commons Scalars WriteSet Protocol.

Open Scope Z_scope.
Open Scope kalam_scope.

Abbreviation DataRow := (gmap string ScalarValue).
Abbreviation DataMutation := (@StagedMutation ScalarValue).

(** [RaftError].  [Coded] carries its encoded text, [Timeout] its duration as printed;
    [Unwinding] is not an error of the source but a panic on its way up. *)
Inductive RaftError :=
| NotLeader (group : string) (leader : option Z)
| GroupNotFound (m : string)
| InvalidGroup (m : string)
| NotStarted (m : string)
| ApplyFailed (m : string)
| Serialization (m : string)
| Proposal (m : string)
| Network (m : string)
| RaftStorage (m : string)
| RaftConfig (m : string)
| RaftTimeout (duration : string)
| ReplicationTimeout (group committed_log_id detail : string) (timeout_ms : Z)
| Shutdown
| InvalidState (m : string)
| Provider (m : string)
| InternalError (m : string)
| Coded (encoded : string)
| Unwinding (m : string).

Definition is_retryable (e : RaftError) : bool :=
  match e with
  | NotLeader _ _ | RaftTimeout _ | Network _ | ReplicationTimeout _ _ _ _ => true
  | _ => false
  end.

Definition leader_hint (e : RaftError) : option Z :=
  match e with NotLeader _ leader => leader | _ => None end.

(** [Display] of the errors that carry one text. *)
Definition raft_error_text (e : RaftError) : string :=
  match e with
  | NotLeader group leader =>
      "Not leader for group " +:+ group +:+ ": leader is node " +:+
      match leader with Some n => "Some(" +:+ pretty n +:+ ")" | None => "None" end
  | GroupNotFound m => "Raft group not found: " +:+ m
  | InvalidGroup m => "Invalid Raft group: " +:+ m
  | NotStarted m => "Raft group not started: " +:+ m
  | ApplyFailed m => "Failed to apply command: " +:+ m
  | Serialization m => "Serialization error: " +:+ m
  | Proposal m => "Proposal rejected: " +:+ m
  | Network m => "Network error: " +:+ m
  | RaftStorage m => "Storage error: " +:+ m
  | RaftConfig m => "Configuration error: " +:+ m
  | RaftTimeout d => "Command timed out after " +:+ d
  | ReplicationTimeout group target detail ms =>
      "Raft progress timeout for group " +:+ group +:+ ": " +:+ detail +:+ " (target=" +:+
      target +:+ ", timeout=" +:+ pretty ms +:+ "ms)"
  | Shutdown => "Raft is shutting down"
  | InvalidState m => "Invalid state: " +:+ m
  | Provider m => "Provider error: " +:+ m
  | InternalError m => "Internal error: " +:+ m
  | Coded m | Unwinding m => m
  end.

Abbreviation RaftResult := (Result RaftError).

(** [map_ser]; a panic of an identifier constructor is not an error value and keeps going. *)
Definition map_ser (e : SerializationError) : RaftError :=
  match e with
  | InvalidMagic => Serialization "invalid object magic"
  | Truncated => Serialization "truncated persisted object"
  | UnsupportedProtocolVersion _ => Serialization "unsupported protocol version"
  | WrongObjectKind _ _ => Serialization "wrong object kind"
  | Encode m => Serialization ("encode failed: " +:+ m)
  | Decode m => Serialization ("decode failed: " +:+ m)
  | Panicked m => Unwinding m
  end.

(** ** Commands *)

Inductive UserDataCommand :=
| UserInsert (required_meta_index : Z) (transaction_id : option TransactionId)
    (table_id : TableId) (user_id : UserId) (rows : list DataRow) (encoded_fields : list (list Z))
| UserUpdate (required_meta_index : Z) (transaction_id : option TransactionId)
    (table_id : TableId) (user_id : UserId) (updates : list DataRow) (filter : option string)
| UserDelete (required_meta_index : Z) (transaction_id : option TransactionId)
    (table_id : TableId) (user_id : UserId) (pk_values : option (list string)).

Definition user_required_meta_index (c : UserDataCommand) : Z :=
  match c with
  | UserInsert m _ _ _ _ _ | UserUpdate m _ _ _ _ _ | UserDelete m _ _ _ _ => m
  end.

Definition user_row_slot_count (c : UserDataCommand) : nat :=
  match c with
  | UserInsert _ _ _ _ rows encoded => Nat.max (length rows) (length encoded)
  | UserUpdate _ _ _ _ updates _ => Nat.max (length updates) 1
  | UserDelete _ _ _ _ pks =>
      match pks with Some values => Nat.max (length values) 1 | None => 1 end
  end.

Definition user_set_required_meta_index (m : Z) (c : UserDataCommand) : UserDataCommand :=
  match c with
  | UserInsert _ tx t u rows enc => UserInsert m tx t u rows enc
  | UserUpdate _ tx t u rows f => UserUpdate m tx t u rows f
  | UserDelete _ tx t u pks => UserDelete m tx t u pks
  end.

Inductive SharedDataCommand :=
| SharedInsert (required_meta_index : Z) (transaction_id : option TransactionId)
    (actor_user_id : option UserId) (table_id : TableId) (rows : list DataRow)
    (encoded_fields : list (list Z))
| SharedUpdate (required_meta_index : Z) (transaction_id : option TransactionId)
    (actor_user_id : option UserId) (table_id : TableId) (updates : list DataRow)
    (pk_values : option (list string)) (filter : option string)
| SharedDelete (required_meta_index : Z) (transaction_id : option TransactionId)
    (actor_user_id : option UserId) (table_id : TableId) (pk_values : option (list string)).

Definition shared_required_meta_index (c : SharedDataCommand) : Z :=
  match c with
  | SharedInsert m _ _ _ _ _ | SharedUpdate m _ _ _ _ _ _ | SharedDelete m _ _ _ _ => m
  end.

Definition shared_table_id (c : SharedDataCommand) : TableId :=
  match c with
  | SharedInsert _ _ _ t _ _ | SharedUpdate _ _ _ t _ _ _ | SharedDelete _ _ _ t _ => t
  end.

Definition shared_row_slot_count (c : SharedDataCommand) : nat :=
  match c with
  | SharedInsert _ _ _ _ rows encoded => Nat.max (length rows) (length encoded)
  | SharedUpdate _ _ _ _ updates pks _ =>
      match pks with
      | Some (pk :: rest) => length (pk :: rest)
      | _ => Nat.max (match updates with [] => 0 | _ => 1 end) 1
      end
  | SharedDelete _ _ _ _ pks =>
      match pks with Some values => Nat.max (length values) 1 | None => 1 end
  end.

Definition shared_set_required_meta_index (m : Z) (c : SharedDataCommand) : SharedDataCommand :=
  match c with
  | SharedInsert _ tx u t rows enc => SharedInsert m tx u t rows enc
  | SharedUpdate _ tx u t rows pks f => SharedUpdate m tx u t rows pks f
  | SharedDelete _ tx u t pks => SharedDelete m tx u t pks
  end.

(** [RaftCommand], over the metadata commands. *)
Inductive RaftCommand (MetaCommand : Type) :=
| RaftMeta (c : MetaCommand)
| RaftUserData (c : UserDataCommand)
| RaftSharedData (c : SharedDataCommand)
| RaftTransactionCommit (required_meta_index : Z) (transaction_id : TransactionId)
    (mutations : list DataMutation).
Arguments RaftMeta {_} _.
Arguments RaftUserData {_} _.
Arguments RaftSharedData {_} _.
Arguments RaftTransactionCommit {_} _ _ _.

(** ** Responses *)

Record TransactionApplyResult := mkApplied {
  ar_rows_affected : Z;
  ar_log_index : Z;
  ar_notifications_sent : Z;
  ar_manifest_updates : Z;
  ar_publisher_events : Z
}.

Inductive DataResponse :=
| DataOk
| RowsAffected (n : Z)
| TransactionCommitted (result : TransactionApplyResult)
| Subscribed (subscription_id : string)
| DataError (message : string).

Definition from_raft_error (e : RaftError) : DataResponse := DataError (raft_error_text e).

Definition response_is_ok (r : DataResponse) : bool :=
  match r with DataError _ => false | _ => true end.

Definition response_rows_affected (r : DataResponse) : Z :=
  match r with
  | RowsAffected n => n
  | TransactionCommitted result => ar_rows_affected result
  | _ => 0
  end.

Definition committed_log_index (r : DataResponse) : option Z :=
  match r with TransactionCommitted result => Some (ar_log_index result) | _ => None end.

(** ** The codec *)

Section Codec.

Context {MetaCommand : Type} (to_lowercase : string -> string).
Context `{!Serde UserDataCommand, !Serde SharedDataCommand, !Serde (RaftCommand MetaCommand),
          !Serde DataResponse}.

Definition encode_typed {T} `{Serde T} (kind : ProtocolKind) (payload : T) : RaftResult (list Z) :=
  map_err map_ser (encode_protocol kind payload).

Definition decode_typed {T} `{Serde T} (bytes : list Z) (expected_kind : ProtocolKind) :
    RaftResult T :=
  map_err map_ser (decode_protocol bytes expected_kind).

Definition encode_user_data_command (c : UserDataCommand) : RaftResult (list Z) :=
  match c with
  | UserInsert m tx t u [] encoded =>
      map_err map_ser
        (encode_packed_insert PACKED_USER_INSERT (mkPackedInsert m tx t (Some u) encoded))
  | UserDelete m tx t u pks =>
      map_err map_ser
        (encode_packed_delete PACKED_USER_DELETE (mkPackedDelete m tx t (Some u) pks))
  | _ => encode_typed UserDataCommandKind c
  end.

Definition decode_user_data_command (bytes : list Z) : RaftResult UserDataCommand :=
  if bool_decide (head bytes = Some PACKED_USER_INSERT) then
    let? p := map_err map_ser (decode_packed_insert to_lowercase PACKED_USER_INSERT bytes) in
    match pi_user_id p with
    | Some u => Ok (UserInsert (pi_required_meta_index p) (pi_transaction_id p) (pi_table_id p) u
                      [] (pi_encoded_fields p))
    | None => Err (Serialization "packed user insert missing user id")
    end
  else if bool_decide (head bytes = Some PACKED_USER_DELETE) then
    let? p := map_err map_ser (decode_packed_delete to_lowercase PACKED_USER_DELETE bytes) in
    match pd_user_id p with
    | Some u => Ok (UserDelete (pd_required_meta_index p) (pd_transaction_id p) (pd_table_id p) u
                      (pd_pk_values p))
    | None => Err (Serialization "packed user delete missing user id")
    end
  else decode_typed bytes UserDataCommandKind.

Definition encode_shared_data_command (c : SharedDataCommand) : RaftResult (list Z) :=
  match c with
  | SharedInsert m tx actor t [] encoded =>
      map_err map_ser
        (encode_packed_insert PACKED_SHARED_INSERT (mkPackedInsert m tx t actor encoded))
  | SharedDelete m tx actor t pks =>
      map_err map_ser
        (encode_packed_delete PACKED_SHARED_DELETE (mkPackedDelete m tx t actor pks))
  | _ => encode_typed SharedDataCommandKind c
  end.

Definition decode_shared_data_command (bytes : list Z) : RaftResult SharedDataCommand :=
  if bool_decide (head bytes = Some PACKED_SHARED_INSERT) then
    let? p := map_err map_ser (decode_packed_insert to_lowercase PACKED_SHARED_INSERT bytes) in
    Ok (SharedInsert (pi_required_meta_index p) (pi_transaction_id p) (pi_user_id p)
          (pi_table_id p) [] (pi_encoded_fields p))
  else if bool_decide (head bytes = Some PACKED_SHARED_DELETE) then
    let? p := map_err map_ser (decode_packed_delete to_lowercase PACKED_SHARED_DELETE bytes) in
    Ok (SharedDelete (pd_required_meta_index p) (pd_transaction_id p) (pd_user_id p)
          (pd_table_id p) (pd_pk_values p))
  else decode_typed bytes SharedDataCommandKind.

Definition encode_raft_command (c : RaftCommand MetaCommand) : RaftResult (list Z) :=
  encode_typed RaftCommandKind c.
Definition decode_raft_command (bytes : list Z) : RaftResult (RaftCommand MetaCommand) :=
  decode_typed bytes RaftCommandKind.

Definition encode_data_response (r : DataResponse) : RaftResult (list Z) :=
  match r with
  | DataOk => map_err map_ser (encode_packed_data_response PackedOk)
  | RowsAffected n => map_err map_ser (encode_packed_data_response (PackedRowsAffected n))
  | DataError message => map_err map_ser (encode_packed_data_response (PackedError message))
  | _ => encode_typed DataResponseKind r
  end.

Definition decode_data_response (bytes : list Z) : RaftResult DataResponse :=
  if bool_decide (head bytes = Some PACKED_DATA_RESPONSE) then
    let? packed := map_err map_ser (decode_packed_data_response bytes) in
    match packed with
    | PackedOk => Ok DataOk
    | PackedRowsAffected n => Ok (RowsAffected n)
    | PackedError message => Ok (DataError message)
    end
  else decode_typed bytes DataResponseKind.

End Codec.

(** ** Round trips *)

Definition rejected {A} (r : RaftResult A) : Prop := exists m, r = Err (Serialization m).

Section ProtocolLemmas.
Context {T : Type} `{HT : SerdeLaws T}.

Lemma encode_protocol_envelope kind (v : T) bytes :
  encode_protocol kind v = Ok bytes ->
  exists payload, decode_protocol_payload kind payload = Ok v /\
    Z.of_nat (length payload) <= u32_max /\
    bytes = envelope ProtocolObject (protocol_kind_as_u16 kind) 0 payload.
Proof.
  intros He. assert (exists payload, decode_protocol_payload kind payload = Ok v /\
    encode_envelope_with_flags ProtocolObject (protocol_kind_as_u16 kind) 0 payload = Ok bytes)
    as (payload & Hd & Hp).
  { destruct kind; apply result_bind_ok in He as (payload & Hp & He); exists payload;
      (split; [|exact He]); cbn [decode_protocol_payload];
      by first [apply flexbuffers_law | apply msgpack_law]. }
  apply encode_envelope_bytes in Hp as [Hlen ->]. by exists payload.
Qed.

Lemma protocol_header_ok kind : header_ok ProtocolObject (protocol_kind_as_u16 kind) 0.
Proof. destruct kind; by repeat split. Qed.

Lemma decode_encoded_protocol kind (v : T) bytes :
  encode_protocol kind v = Ok bytes -> decode_protocol bytes kind = Ok v.
Proof.
  intros (payload & Hp & Hlen & ->)%encode_protocol_envelope. unfold decode_protocol.
  rewrite decode_envelope_of by (done || apply protocol_header_ok).
  cbn [result_bind eh_schema_version]. by rewrite Z.eqb_refl.
Qed.

End ProtocolLemmas.

Lemma decode_protocol_other {T U} `{HT : SerdeLaws T} `{Serde U} kind kind' (v : T) bytes :
  encode_protocol kind v = Ok bytes -> kind <> kind' ->
  @decode_protocol U _ bytes kind' = Err (Decode "protocol kind mismatch").
Proof.
  intros (payload & Hp & Hlen & ->)%encode_protocol_envelope Hk. unfold decode_protocol.
  rewrite decode_envelope_of by (done || apply protocol_header_ok).
  cbn [result_bind eh_schema_version]. by destruct kind, kind'.
Qed.

Lemma encoded_protocol_head {T} `{HT : SerdeLaws T} kind (v : T) bytes :
  encode_protocol kind v = Ok bytes -> head bytes = Some 75.
Proof. by intros (payload & _ & _ & ->)%encode_protocol_envelope. Qed.

(** Bytes that do not start with the magic are no envelope. *)
Lemma decode_protocol_no_magic {T} `{Serde T} bytes kind b :
  head bytes = Some b -> b <> 75 -> rejected (@decode_typed T _ bytes kind).
Proof.
  intros Hb Hne. unfold decode_typed, decode_protocol, decode_envelope.
  destruct (_ <? _)%nat; [by eexists|].
  rewrite bool_decide_eq_false_2; [by eexists|].
  destruct bytes as [|x bytes]; [done|]. injection Hb as ->. unfold slice, MAGIC. cbn. congruence.
Qed.

Lemma encode_packed_insert_head tag p bytes :
  encode_packed_insert tag p = Ok bytes -> head bytes = Some tag.
Proof. by intros (? & _ & (? & _ & (? & _ & <-%Ok_inj)%result_bind_ok)%result_bind_ok)%result_bind_ok. Qed.

Lemma encode_packed_delete_head tag p bytes :
  encode_packed_delete tag p = Ok bytes -> head bytes = Some tag.
Proof. by intros (? & _ & (? & _ & <-%Ok_inj)%result_bind_ok)%result_bind_ok. Qed.

Section RoundTrips.

Context {MetaCommand : Type} (to_lowercase : string -> string).
Context `{!Serde UserDataCommand, !Serde SharedDataCommand, !Serde (RaftCommand MetaCommand),
          !Serde DataResponse}.
Context `{!SerdeLaws UserDataCommand, !SerdeLaws SharedDataCommand,
          !SerdeLaws (RaftCommand MetaCommand), !SerdeLaws DataResponse}.

(** What the types of the source guarantee of a command that is packed: identifiers went through
    their constructors, which leave the names folded. *)
Definition user_command_ok (c : UserDataCommand) : Prop :=
  match c with
  | UserInsert m tx t u [] encoded =>
      insert_ok (mkPackedInsert m tx t (Some u) encoded) /\ fold_case to_lowercase t = t
  | UserDelete m tx t u pks =>
      delete_ok (mkPackedDelete m tx t (Some u) pks) /\ fold_case to_lowercase t = t
  | _ => True
  end.

Definition shared_command_ok (c : SharedDataCommand) : Prop :=
  match c with
  | SharedInsert m tx actor t [] encoded =>
      insert_ok (mkPackedInsert m tx t actor encoded) /\ fold_case to_lowercase t = t
  | SharedDelete m tx actor t pks =>
      delete_ok (mkPackedDelete m tx t actor pks) /\ fold_case to_lowercase t = t
  | _ => True
  end.

Definition data_response_ok (r : DataResponse) : Prop :=
  match r with RowsAffected n => is_u64 n | DataError message => text_ok message | _ => True end.

(** The first byte of an encoded command. *)
Definition user_heads : list Z := [75; PACKED_USER_INSERT; PACKED_USER_DELETE].
Definition shared_heads : list Z := [75; PACKED_SHARED_INSERT; PACKED_SHARED_DELETE].

Lemma decode_user_typed bytes :
  head bytes = Some 75 ->
  decode_user_data_command to_lowercase bytes = decode_typed bytes UserDataCommandKind.
Proof. intros Hh. unfold decode_user_data_command. by rewrite Hh. Qed.

Lemma decode_shared_typed bytes :
  head bytes = Some 75 ->
  decode_shared_data_command to_lowercase bytes = decode_typed bytes SharedDataCommandKind.
Proof. intros Hh. unfold decode_shared_data_command. by rewrite Hh. Qed.

Lemma typed_roundtrip {T} `{HT : SerdeLaws T} kind (v : T) bytes :
  encode_typed kind v = Ok bytes ->
  head bytes = Some 75 /\ decode_typed bytes kind = Ok v /\
  (forall U (HU : Serde U) kind', kind <> kind' -> rejected (@decode_typed U HU bytes kind')).
Proof.
  intros He%map_err_ok. split; [by eapply encoded_protocol_head|]. split.
  - apply map_err_ok. by apply decode_encoded_protocol.
  - intros U HU kind' Hk. unfold decode_typed.
    rewrite (decode_protocol_other (U:=U) kind kind' v) by done. by eexists.
Qed.

Lemma decode_encoded_user c bytes :
  user_command_ok c -> encode_user_data_command c = Ok bytes ->
  decode_user_data_command to_lowercase bytes = Ok c /\
  rejected (decode_shared_data_command to_lowercase bytes) /\
  rejected (decode_raft_command (MetaCommand := MetaCommand) bytes).
Proof.
  intros Hc He.
  assert (encode_typed UserDataCommandKind c = Ok bytes ->
    decode_user_data_command to_lowercase bytes = Ok c /\
    rejected (decode_shared_data_command to_lowercase bytes) /\
    rejected (decode_raft_command (MetaCommand := MetaCommand) bytes)) as Htyped.
  { intros (Hh & Hd & Hr)%typed_roundtrip.
    rewrite decode_user_typed, decode_shared_typed by done. split_and!; [done| |]; by apply Hr. }
  assert (forall b, head bytes = Some b -> b ∉ shared_heads ->
    rejected (decode_shared_data_command to_lowercase bytes) /\
    rejected (decode_raft_command (MetaCommand := MetaCommand) bytes)) as Hother.
  { intros b Hh Hb. unfold shared_heads in Hb. rewrite !not_elem_of_cons in Hb.
    destruct Hb as (Hb1 & Hb2 & Hb3 & _).
    split; [|by eapply decode_protocol_no_magic].
    unfold decode_shared_data_command. rewrite Hh, !bool_decide_eq_false_2 by congruence.
    by eapply decode_protocol_no_magic. }
  destruct c as [m tx t u rows enc|m tx t u rows f|m tx t u pks];
    [destruct rows as [|row rows]|..]; cbn [encode_user_data_command user_command_ok] in *;
    try by apply Htyped.
  - destruct Hc as [Hok Hfold]. apply map_err_ok in He as He'.
    pose proof (encode_packed_insert_head _ _ _ He') as Hh. split; [|eapply Hother; [done|by apply (bool_decide_unpack _)]].
    unfold decode_user_data_command. rewrite Hh, bool_decide_eq_true_2 by done.
    rewrite (decode_encoded_insert to_lowercase _ _ _ Hok He'). cbn. by rewrite Hfold.
  - destruct Hc as [Hok Hfold]. apply map_err_ok in He as He'.
    pose proof (encode_packed_delete_head _ _ _ He') as Hh. split; [|eapply Hother; [done|by apply (bool_decide_unpack _)]].
    unfold decode_user_data_command. rewrite Hh, bool_decide_eq_false_2 by done.
    rewrite bool_decide_eq_true_2 by done.
    rewrite (decode_encoded_delete to_lowercase _ _ _ Hok He'). cbn. by rewrite Hfold.
Qed.

Lemma decode_encoded_shared c bytes :
  shared_command_ok c -> encode_shared_data_command c = Ok bytes ->
  decode_shared_data_command to_lowercase bytes = Ok c /\
  rejected (decode_user_data_command to_lowercase bytes) /\
  rejected (decode_raft_command (MetaCommand := MetaCommand) bytes).
Proof.
  intros Hc He.
  assert (encode_typed SharedDataCommandKind c = Ok bytes ->
    decode_shared_data_command to_lowercase bytes = Ok c /\
    rejected (decode_user_data_command to_lowercase bytes) /\
    rejected (decode_raft_command (MetaCommand := MetaCommand) bytes)) as Htyped.
  { intros (Hh & Hd & Hr)%typed_roundtrip.
    rewrite decode_user_typed, decode_shared_typed by done. split_and!; [done| |]; by apply Hr. }
  assert (forall b, head bytes = Some b -> b ∉ user_heads ->
    rejected (decode_user_data_command to_lowercase bytes) /\
    rejected (decode_raft_command (MetaCommand := MetaCommand) bytes)) as Hother.
  { intros b Hh Hb. unfold user_heads in Hb. rewrite !not_elem_of_cons in Hb.
    destruct Hb as (Hb1 & Hb2 & Hb3 & _).
    split; [|by eapply decode_protocol_no_magic].
    unfold decode_user_data_command. rewrite Hh, !bool_decide_eq_false_2 by congruence.
    by eapply decode_protocol_no_magic. }
  destruct c as [m tx u t rows enc|m tx u t rows pks f|m tx u t pks];
    [destruct rows as [|row rows]|..]; cbn [encode_shared_data_command shared_command_ok] in *;
    try by apply Htyped.
  - destruct Hc as [Hok Hfold]. apply map_err_ok in He as He'.
    pose proof (encode_packed_insert_head _ _ _ He') as Hh. split; [|eapply Hother; [done|by apply (bool_decide_unpack _)]].
    unfold decode_shared_data_command. rewrite Hh, bool_decide_eq_true_2 by done.
    rewrite (decode_encoded_insert to_lowercase _ _ _ Hok He'). cbn. by rewrite Hfold.
  - destruct Hc as [Hok Hfold]. apply map_err_ok in He as He'.
    pose proof (encode_packed_delete_head _ _ _ He') as Hh. split; [|eapply Hother; [done|by apply (bool_decide_unpack _)]].
    unfold decode_shared_data_command. rewrite Hh, bool_decide_eq_false_2 by done.
    rewrite bool_decide_eq_true_2 by done.
    rewrite (decode_encoded_delete to_lowercase _ _ _ Hok He'). cbn. by rewrite Hfold.
Qed.

Lemma decode_encoded_raft (c : RaftCommand MetaCommand) bytes :
  encode_raft_command c = Ok bytes ->
  decode_raft_command bytes = Ok c /\ rejected (decode_user_data_command to_lowercase bytes) /\
  rejected (decode_shared_data_command to_lowercase bytes).
Proof.
  intros (Hh & Hd & Hr)%typed_roundtrip.
  rewrite decode_user_typed, decode_shared_typed by done. split_and!; [done| |]; by apply Hr.
Qed.

Lemma decode_encoded_data_response r bytes :
  data_response_ok r -> encode_data_response r = Ok bytes -> decode_data_response bytes = Ok r.
Proof.
  intros Hr He.
  assert (forall p, response_ok p -> encode_packed_data_response p = Ok bytes ->
    decode_data_response bytes =
      Ok (match p with
          | PackedOk => DataOk | PackedRowsAffected n => RowsAffected n
          | PackedError message => DataError message
          end)) as Hpacked.
  { intros p Hp Hep. assert (head bytes = Some PACKED_DATA_RESPONSE) as Hh.
    { destruct p; cbn in Hep; [by injection Hep as <-..|].
      by apply result_bind_ok in Hep as (? & _ & <-%Ok_inj). }
    unfold decode_data_response. rewrite Hh, bool_decide_eq_true_2 by done.
    rewrite (decode_encoded_response _ _ Hp Hep). by destruct p. }
  assert (encode_typed DataResponseKind r = Ok bytes -> decode_data_response bytes = Ok r) as Htyped.
  { intros (Hh & Hd & _)%typed_roundtrip. unfold decode_data_response. by rewrite Hh. }
  destruct r as [|n|result|sid|message]; cbn [encode_data_response] in He; try by apply Htyped.
  - apply (Hpacked PackedOk); [done|by apply map_err_ok in He].
  - apply (Hpacked (PackedRowsAffected n)); [done|by apply map_err_ok in He].
  - apply (Hpacked (PackedError message)); [done|by apply map_err_ok in He].
Qed.

End RoundTrips.
