(* ===== verification/RaftData.v ===== *)
(** * RaftData: the state machines of the data groups

    kalamdb-raft/src/state_machine: pending_buffer.rs, meta_coordinator.rs, user_data.rs,
    shared_data.rs and the types of trait_def.rs.  A data group applies the entries of its log
    through an applier (the traits of applier/*.rs, implemented by the table providers); an entry
    that needs metadata the node has not applied yet waits in the pending buffer.

    The two machines differ in their commands and in what one command does; [apply] and the
    buffer handling are the same text in both files and are modelled once, over a class
    [DataCommand].  The applier works on a store of its own ([S]); the reading of the metadata
    index a call sees is an argument, twice where the code reads it twice. *)

From Stdlib Require Import ZArith Lia Ascii Sorting.Sorted.
From stdpp Require Import base strings gmap list pretty.
From S2P Require Import Prelude Commons Sharding Scalars WriteSet Ids Protocol RaftCommands.
Import Version.

Open Scope Z_scope.
Open Scope kalam_scope.

(** ** The pending buffer *)

Record PendingCommand := mkPending {
  log_index_of : Z;
  log_term_of : Z;
  required_meta_of : Z;
  command_bytes : list Z
}.

(** [BTreeMap::iter]: the entries in key order. *)
Definition btree_entries {A} (m : gmap Z A) : list (Z * A) :=
  sort_by (fun a b => a.1 <=? b.1) (map_to_list m).

(** The map behind its lock and the atomic counter beside it. *)
Record PendingBuffer := mkBuffer {
  by_required_meta : gmap Z (list PendingCommand);
  pending_count : Z
}.

Definition buffer_new : PendingBuffer := mkBuffer ∅ 0.

Definition buffer_push (m : gmap Z (list PendingCommand)) (c : PendingCommand) :
    gmap Z (list PendingCommand) :=
  <[required_meta_of c := default [] (m !! required_meta_of c) ++ [c]]> m.

Definition buffer_add (b : PendingBuffer) (c : PendingCommand) : PendingBuffer :=
  mkBuffer (buffer_push (by_required_meta b) c) (u64_add (pending_count b) 1).

Definition by_log_index (a b : PendingCommand) : bool := log_index_of a <=? log_index_of b.

Definition key_satisfied (current_meta_index : Z) (e : Z * list PendingCommand) : bool :=
  e.1 <=? current_meta_index.

Definition drain_satisfied (b : PendingBuffer) (current_meta_index : Z) :
    list PendingCommand * PendingBuffer :=
  let satisfied := filter (fun e => key_satisfied current_meta_index e)
                     (btree_entries (by_required_meta b)) in
  match satisfied with
  | [] => ([], b)
  | _ =>
      let commands := mjoin satisfied.*2 in
      (sort_by by_log_index commands,
       mkBuffer (foldr delete (by_required_meta b) satisfied.*1)
         (u64_sub (pending_count b) (Z.of_nat (length commands))))
  end.

Definition buffer_len (b : PendingBuffer) : Z := pending_count b.
Definition buffer_is_empty (b : PendingBuffer) : bool := buffer_len b =? 0.

Definition get_all (b : PendingBuffer) : list PendingCommand :=
  mjoin (btree_entries (by_required_meta b)).*2.

Definition load_from (commands : list PendingCommand) : PendingBuffer :=
  foldl buffer_add buffer_new commands.

Definition buffer_clear : PendingBuffer := mkBuffer ∅ 0.

(** ** The metadata index *)

(** [MetadataCoordinator::advance] is a [fetch_max]; it wakes the waiters when the index grew. *)
Definition advance (current new_index : Z) : Z * bool :=
  (Z.max current new_index, current <? new_index).

Definition is_satisfied (current required_meta_index : Z) : bool :=
  required_meta_index <=? current.

(** ** Results and snapshots *)

Inductive ApplyResult := Applied (data : list Z) | NoOp | ApplyError (message : string).

Record StateMachineSnapshot := mkSnapshot {
  snap_group_id : GroupId;
  snap_last_applied_index : Z;
  snap_last_applied_term : Z;
  snap_data : list Z
}.

(** [encode] and [decode] of serde_helpers.rs. *)
Definition sm_encode {T} `{Serde T} (value : T) : RaftResult (list Z) :=
  map_err map_ser (encode_protocol StateMachineKind value).
Definition sm_decode {T} `{Serde T} (bytes : list Z) : RaftResult T :=
  map_err map_ser (decode_protocol bytes StateMachineKind).

Definition version_error_text (e : VersionError) : string :=
  match e with
  | LogIndexOutOfRange => "raft log index is outside the signed range"
  | OrdinalOutOfRange => "ordinal exceeds 65535"
  | TooManySlots slots => "entry has " +:+ pretty slots +:+ " row slots; limit is 65536"
  | EmptyVersion => "committed row version must be non-zero"
  | SignedOverflow => "version does not fit a signed bigint"
  | InvalidDecimal => "version decimal is invalid"
  | DomainMismatch => "versions belong to different domains"
  | FrontierMismatch => "frontier source does not match the version source"
  end.

(** ** A data state machine

    The atomics of the source, [last_applied_tx] the value the watch channel holds, [applier] the
    registered applier, [recent] what only one of the machines keeps. *)
Record DataMachine (A X : Type) := mkMachine {
  shard : Z;
  last_applied_index : Z;
  last_applied_term : Z;
  last_applied_tx : Z;
  approximate_size : Z;
  total_operations : Z;
  applier : option A;
  pending_buffer : PendingBuffer;
  recent : X
}.
Arguments mkMachine {A X}.
Arguments shard {A X}.
Arguments last_applied_index {A X}.
Arguments last_applied_term {A X}.
Arguments last_applied_tx {A X}.
Arguments approximate_size {A X}.
Arguments total_operations {A X}.
Arguments applier {A X}.
Arguments pending_buffer {A X}.
Arguments recent {A X}.

Section Machine.
Context {A X : Type}.

Definition machine_new (n : Z) (a : option A) (x : X) : DataMachine A X :=
  mkMachine n 0 0 0 0 0 a buffer_new x.

Definition set_applier (m : DataMachine A X) (a : A) : DataMachine A X :=
  mkMachine (shard m) (last_applied_index m) (last_applied_term m) (last_applied_tx m)
    (approximate_size m) (total_operations m) (Some a) (pending_buffer m) (recent m).

Definition set_pending (m : DataMachine A X) (b : PendingBuffer) : DataMachine A X :=
  mkMachine (shard m) (last_applied_index m) (last_applied_term m) (last_applied_tx m)
    (approximate_size m) (total_operations m) (applier m) b (recent m).

(** The stores of [last_applied_index] and [last_applied_term] and [publish_last_applied]. *)
Definition store_applied (m : DataMachine A X) (index term : Z) : DataMachine A X :=
  mkMachine (shard m) index term index (approximate_size m) (total_operations m) (applier m)
    (pending_buffer m) (recent m).

(** What a successful command counts. *)
Definition count_operation (m : DataMachine A X) (rows : Z) (x : X) : DataMachine A X :=
  mkMachine (shard m) (last_applied_index m) (last_applied_term m) (last_applied_tx m)
    (u64_add (approximate_size m) rows) (u64_add (total_operations m) 1) (applier m)
    (pending_buffer m) x.

Definition mark_applied_index (m : DataMachine A X) (index term : Z) : DataMachine A X :=
  if index <=? last_applied_index m then m else store_applied m index term.

End Machine.

(** What a machine does with one kind of command: [Cmd] is [UserApplyCommand] or
    [SharedApplyCommand]. *)
Class DataCommand (Cmd A X S : Type) := {
  cmd_required_meta_index : Cmd -> Z;
  cmd_row_slot_count : Cmd -> nat;
  decode_apply_command : list Z -> RaftResult Cmd;
  apply_decoded_command :
    DataMachine A X -> S -> Cmd -> list VersionId -> RaftResult DataResponse * DataMachine A X * S
}.

Section Apply.
Context {Cmd A X S : Type} `{HC : DataCommand Cmd A X S} `{!Serde DataResponse}.

(** The loop of [drain_pending] over the drained commands. *)
Fixpoint drain_loop (m : DataMachine A X) (s : S) (drained : list PendingCommand) :
    RaftResult unit * DataMachine A X * S :=
  match drained with
  | [] => (Ok tt, m, s)
  | pending :: rest =>
      match decode_apply_command (command_bytes pending) with
      | Err e => (Err e, m, s)
      | Ok cmd =>
          match assign_entry_versions (log_index_of pending) (cmd_row_slot_count cmd) with
          | Err _ => drain_loop m s rest
          | Ok versions =>
              match apply_decoded_command m s cmd versions with
              | (Ok _, m', s') => drain_loop m' s' rest
              | (Err e, m', s') => (Err e, m', s')
              end
          end
      end
  end.

Definition drain_pending (current_meta : Z) (m : DataMachine A X) (s : S) :
    RaftResult unit * DataMachine A X * S :=
  let '(drained, b) := drain_satisfied (pending_buffer m) current_meta in
  drain_loop (set_pending m b) s drained.

(** [KalamStateMachine::apply]; [meta_check] and [meta_drain] are the two readings of the
    metadata index. *)
Definition apply (meta_check meta_drain : Z) (m : DataMachine A X) (s : S)
    (index term : Z) (command : list Z) : RaftResult ApplyResult * DataMachine A X * S :=
  if index <=? last_applied_index m then (Ok NoOp, m, s)
  else
    match decode_apply_command command with
    | Err e => (Err e, m, s)
    | Ok cmd =>
        let required_meta := cmd_required_meta_index cmd in
        if (0 <? required_meta) && (meta_check <? required_meta) then
          (Ok NoOp,
           store_applied
             (set_pending m
                (buffer_add (pending_buffer m) (mkPending index term required_meta command)))
             index term, s)
        else
          let '(r, m1, s1) :=
            if buffer_is_empty (pending_buffer m) then (Ok tt, m, s)
            else drain_pending meta_drain m s in
          match r with
          | Err e => (Err e, m1, s1)
          | Ok _ =>
              match assign_entry_versions index (cmd_row_slot_count cmd) with
              | Err e =>
                  (let? data := encode_data_response (DataError (version_error_text e)) in
                   Ok (Applied data), m1, s1)
              | Ok versions =>
                  match apply_decoded_command m1 s1 cmd versions with
                  | (Err e, m2, s2) => (Err e, m2, s2)
                  | (Ok response, m2, s2) =>
                      (let? data := encode_data_response response in Ok (Applied data),
                       store_applied m2 index term, s2)
                  end
              end
          end
    end.

End Apply.

(** ** User data *)

(** The trait [UserDataApplier] over the store of the providers. *)
Record UserDataApplier (S : Type) := mkUserApplier {
  user_insert : S -> TableId -> UserId -> list DataRow -> list (list Z) -> list VersionId ->
    RaftResult Z * S;
  user_update : S -> TableId -> UserId -> list DataRow -> option string -> list VersionId ->
    RaftResult Z * S;
  user_delete : S -> TableId -> UserId -> option (list string) -> list VersionId ->
    RaftResult Z * S;
  user_apply_transaction_batch : S -> TransactionId -> list DataMutation -> list VersionId ->
    RaftResult TransactionApplyResult * S
}.
Arguments user_insert {S}.
Arguments user_update {S}.
Arguments user_delete {S}.
Arguments user_apply_transaction_batch {S}.

Inductive UserApplyCommand :=
| UserCommand (c : UserDataCommand)
| UserTransactionCommit (required_meta_index : Z) (transaction_id : TransactionId)
    (mutations : list DataMutation).

Section UserData.

Context {MetaCommand S : Type} (to_lowercase : string -> string).
Context `{!Serde UserDataCommand, !Serde (RaftCommand MetaCommand)}.

Abbreviation UserMachine := (DataMachine (UserDataApplier S) unit).

Definition user_apply_required_meta_index (c : UserApplyCommand) : Z :=
  match c with
  | UserCommand c => user_required_meta_index c
  | UserTransactionCommit required _ _ => required
  end.

Definition user_apply_row_slot_count (c : UserApplyCommand) : nat :=
  match c with
  | UserCommand c => user_row_slot_count c
  | UserTransactionCommit _ _ mutations => length mutations
  end.

(** The end all three commands share: the applier's count, or its error as a response. *)
Definition user_finish (m : UserMachine) (r : RaftResult Z * S) (counted : Z) :
    RaftResult DataResponse * UserMachine * S :=
  match r with
  | (Ok rows_affected, s) => (Ok (RowsAffected rows_affected), count_operation m counted tt, s)
  | (Err e, s) => (Ok (from_raft_error e), m, s)
  end.

(** [UserDataStateMachine::apply_command]; without an applier nothing is persisted and the
    command affects no row. *)
Definition user_apply_command (m : UserMachine) (s : S) (c : UserDataCommand)
    (versions : list VersionId) : RaftResult DataResponse * UserMachine * S :=
  match c with
  | UserInsert _ _ table user rows encoded_fields =>
      let insert_count := match encoded_fields with [] => length rows | _ => length encoded_fields end in
      user_finish m
        (match applier m with
         | Some a => user_insert a s table user rows encoded_fields versions
         | None => (Ok 0, s)
         end) (Z.of_nat insert_count)
  | UserUpdate _ _ table user updates filter =>
      user_finish m
        (match applier m with
         | Some a => user_update a s table user updates filter versions
         | None => (Ok 0, s)
         end) 0
  | UserDelete _ _ table user pk_values =>
      user_finish m
        (match applier m with
         | Some a => user_delete a s table user pk_values versions
         | None => (Ok 0, s)
         end) 0
  end.

Definition foreign_to_user (mutation : DataMutation) : bool :=
  negb (bool_decide (sm_table_type mutation = User)) ||
  negb (bool_decide (is_Some (sm_user_id mutation))).

Definition user_apply_transaction_commit (m : UserMachine) (s : S) (tx : TransactionId)
    (mutations : list DataMutation) (versions : list VersionId) :
    RaftResult DataResponse * UserMachine * S :=
  if existsb foreign_to_user mutations then
    (Ok (DataError "TransactionCommit contained non-user mutation for user data shard"), m, s)
  else
    match applier m with
    | None => (Ok (DataError "No applier set, transaction commit not persisted"), m, s)
    | Some a =>
        match user_apply_transaction_batch a s tx mutations versions with
        | (Ok result, s') => (Ok (TransactionCommitted result), count_operation m 0 tt, s')
        | (Err e, s') => (Ok (from_raft_error e), m, s')
        end
    end.

(** A panic while decoding is not caught by the [if let]. *)
Definition user_decode_apply_command (command : list Z) : RaftResult UserApplyCommand :=
  match decode_user_data_command to_lowercase command with
  | Ok c => Ok (UserCommand c)
  | Err (Unwinding m) => Err (Unwinding m)
  | Err _ =>
      let? c := decode_raft_command (MetaCommand := MetaCommand) command in
      match c with
      | RaftTransactionCommit required tx mutations =>
          Ok (UserTransactionCommit required tx mutations)
      | _ => Err (Serialization "Unexpected raft command for user data state machine")
      end
  end.

#[export] Instance user_data_command : DataCommand UserApplyCommand (UserDataApplier S) unit S := {|
  cmd_required_meta_index := user_apply_required_meta_index;
  cmd_row_slot_count := user_apply_row_slot_count;
  decode_apply_command := user_decode_apply_command;
  apply_decoded_command m s c versions :=
    match c with
    | UserCommand c => user_apply_command m s c versions
    | UserTransactionCommit _ tx mutations =>
        user_apply_transaction_commit m s tx mutations versions
    end
|}.

Record UserDataSnapshot := mkUserSnapshot {
  us_shard : Z;
  us_total_operations : Z;
  us_pending_commands : list PendingCommand
}.

Context `{!Serde UserDataSnapshot, !Serde DataResponse}.

Definition user_apply := apply (Cmd := UserApplyCommand) (A := UserDataApplier S) (X := unit) (S := S).

Definition user_snapshot (m : UserMachine) : RaftResult StateMachineSnapshot :=
  let? data := sm_encode (mkUserSnapshot (shard m) (total_operations m)
                            (get_all (pending_buffer m))) in
  Ok (mkSnapshot (DataUserShard (shard m)) (last_applied_index m) (last_applied_term m) data).

Definition user_restore (m : UserMachine) (snapshot : StateMachineSnapshot) :
    RaftResult unit * UserMachine :=
  match sm_decode (snap_data snapshot) with
  | Err e => (Err e, m)
  | Ok data =>
      if negb (us_shard data =? shard m) then
        (Err (InvalidState "Snapshot shard doesn't match state machine shard"), m)
      else
        (Ok tt,
         mkMachine (shard m) (snap_last_applied_index snapshot) (snap_last_applied_term snapshot)
           (snap_last_applied_index snapshot) (approximate_size m) (us_total_operations data)
           (applier m) (load_from (us_pending_commands data)) (recent m))
  end.

End UserData.

(** ** Shared data *)

Record SharedDataApplier (S : Type) := mkSharedApplier {
  shared_shard_id : S -> TableId -> RaftResult Z;
  shared_insert : S -> TableId -> option UserId -> list DataRow -> list (list Z) ->
    list VersionId -> RaftResult Z * S;
  shared_update : S -> TableId -> option UserId -> list DataRow -> option (list string) ->
    option string -> list VersionId -> RaftResult Z * S;
  shared_delete : S -> TableId -> option UserId -> option (list string) -> list VersionId ->
    RaftResult Z * S;
  shared_apply_transaction_batch : S -> TransactionId -> list DataMutation -> list VersionId ->
    RaftResult TransactionApplyResult * S
}.
Arguments shared_shard_id {S}.
Arguments shared_insert {S}.
Arguments shared_update {S}.
Arguments shared_delete {S}.
Arguments shared_apply_transaction_batch {S}.

Record SharedOperation := mkOperation {
  so_table_id : TableId;
  so_operation : OperationKind;
  so_row_count : Z
}.

Inductive SharedApplyCommand :=
| SharedCommand (c : SharedDataCommand)
| SharedTransactionCommit (required_meta_index : Z) (transaction_id : TransactionId)
    (mutations : list DataMutation).

Section SharedData.

Context {MetaCommand S : Type} (to_lowercase : string -> string).
Context `{!Serde SharedDataCommand, !Serde (RaftCommand MetaCommand)}.

Abbreviation SharedMachine := (DataMachine (SharedDataApplier S) (list SharedOperation)).

Definition shared_apply_required_meta_index (c : SharedApplyCommand) : Z :=
  match c with
  | SharedCommand c => shared_required_meta_index c
  | SharedTransactionCommit required _ _ => required
  end.

Definition shared_apply_row_slot_count (c : SharedApplyCommand) : nat :=
  match c with
  | SharedCommand c => shared_row_slot_count c
  | SharedTransactionCommit _ _ mutations => length mutations
  end.

(** [record_operation]: the last hundred operations. *)
Definition record_operation (ops : list SharedOperation) (table : TableId) (kind : OperationKind)
    (row_count : Z) : list SharedOperation :=
  let ops := ops ++ [mkOperation table kind row_count] in
  if (100 <? length ops)%nat then drop 1 ops else ops.

Definition shared_finish (m : SharedMachine) (r : RaftResult Z * S) (table : TableId)
    (kind : OperationKind) (counted : Z) : RaftResult DataResponse * SharedMachine * S :=
  match r with
  | (Ok rows_affected, s) =>
      (Ok (RowsAffected rows_affected),
       count_operation m counted (record_operation (recent m) table kind rows_affected), s)
  | (Err e, s) => (Ok (from_raft_error e), m, s)
  end.

(** The ownership check at the head of [apply_command]. *)
Definition check_owner (m : SharedMachine) (s : S) (table : TableId) : RaftResult unit :=
  match applier m with
  | None => Ok tt
  | Some a =>
      let? owner := shared_shard_id a s table in
      if owner =? shard m then Ok tt
      else Err (InvalidGroup "Shared table belongs to another shard")
  end.

Definition shared_apply_command (m : SharedMachine) (s : S) (c : SharedDataCommand)
    (versions : list VersionId) : RaftResult DataResponse * SharedMachine * S :=
  match check_owner m s (shared_table_id c) with
  | Err e => (Err e, m, s)
  | Ok _ =>
      match c with
      | SharedInsert _ _ actor table rows encoded_fields =>
          let insert_count :=
            match encoded_fields with [] => length rows | _ => length encoded_fields end in
          shared_finish m
            (match applier m with
             | Some a => shared_insert a s table actor rows encoded_fields versions
             | None => (Ok 0, s)
             end) table Insert (Z.of_nat insert_count)
      | SharedUpdate _ _ actor table updates pk_values filter =>
          shared_finish m
            (match applier m with
             | Some a => shared_update a s table actor updates pk_values filter versions
             | None => (Ok 0, s)
             end) table Update 0
      | SharedDelete _ _ actor table pk_values =>
          shared_finish m
            (match applier m with
             | Some a => shared_delete a s table actor pk_values versions
             | None => (Ok 0, s)
             end) table Delete 0
      end
  end.

Fixpoint check_mutation_owners (m : SharedMachine) (a : SharedDataApplier S) (s : S)
    (mutations : list DataMutation) : RaftResult unit :=
  match mutations with
  | [] => Ok tt
  | mutation :: rest =>
      let? owner := shared_shard_id a s (sm_table_id mutation) in
      if owner =? shard m then check_mutation_owners m a s rest
      else Err (InvalidGroup "Transaction contains a non-owning shared table")
  end.

Definition foreign_to_shared (mutation : DataMutation) : bool :=
  negb (bool_decide (sm_table_type mutation = Shared)).

Definition shared_apply_transaction_commit (m : SharedMachine) (s : S) (tx : TransactionId)
    (mutations : list DataMutation) (versions : list VersionId) :
    RaftResult DataResponse * SharedMachine * S :=
  if existsb foreign_to_shared mutations then
    (Ok (DataError "TransactionCommit contained non-shared mutation for shared data shard"), m, s)
  else
    match applier m with
    | None => (Ok (DataError "No applier set, transaction commit not persisted"), m, s)
    | Some a =>
        match check_mutation_owners m a s mutations with
        | Err e => (Err e, m, s)
        | Ok _ =>
            match shared_apply_transaction_batch a s tx mutations versions with
            | (Ok result, s') =>
                (Ok (TransactionCommitted result), count_operation m 0 (recent m), s')
            | (Err e, s') => (Ok (from_raft_error e), m, s')
            end
        end
    end.

Definition shared_decode_apply_command (command : list Z) : RaftResult SharedApplyCommand :=
  match decode_shared_data_command to_lowercase command with
  | Ok c => Ok (SharedCommand c)
  | Err (Unwinding m) => Err (Unwinding m)
  | Err _ =>
      let? c := decode_raft_command (MetaCommand := MetaCommand) command in
      match c with
      | RaftTransactionCommit required tx mutations =>
          Ok (SharedTransactionCommit required tx mutations)
      | _ => Err (Serialization "Unexpected raft command for shared data state machine")
      end
  end.

#[export] Instance shared_data_command :
  DataCommand SharedApplyCommand (SharedDataApplier S) (list SharedOperation) S := {|
  cmd_required_meta_index := shared_apply_required_meta_index;
  cmd_row_slot_count := shared_apply_row_slot_count;
  decode_apply_command := shared_decode_apply_command;
  apply_decoded_command m s c versions :=
    match c with
    | SharedCommand c => shared_apply_command m s c versions
    | SharedTransactionCommit _ tx mutations =>
        shared_apply_transaction_commit m s tx mutations versions
    end
|}.

Record SharedDataSnapshot := mkSharedSnapshot {
  ss_total_operations : Z;
  ss_recent_operations : list SharedOperation;
  ss_pending_commands : list PendingCommand
}.

Context `{!Serde SharedDataSnapshot, !Serde DataResponse}.

Definition shared_apply :=
  apply (Cmd := SharedApplyCommand) (A := SharedDataApplier S) (X := list SharedOperation) (S := S).

Definition shared_snapshot (m : SharedMachine) : RaftResult StateMachineSnapshot :=
  let? data := sm_encode (mkSharedSnapshot (total_operations m) (recent m)
                            (get_all (pending_buffer m))) in
  Ok (mkSnapshot (DataSharedShard (shard m)) (last_applied_index m) (last_applied_term m) data).

Definition shared_restore (m : SharedMachine) (snapshot : StateMachineSnapshot) :
    RaftResult unit * SharedMachine :=
  if decide (snap_group_id snapshot = DataSharedShard (shard m)) then
    match sm_decode (snap_data snapshot) with
    | Err e => (Err e, m)
    | Ok data =>
        (Ok tt,
         mkMachine (shard m) (snap_last_applied_index snapshot) (snap_last_applied_term snapshot)
           (snap_last_applied_index snapshot) (approximate_size m) (ss_total_operations data)
           (applier m) (load_from (ss_pending_commands data)) (ss_recent_operations data))
    end
  else (Err (InvalidGroup "Cannot restore another shared shard's history"), m).

End SharedData.

(** ** Lemmas on the buffer *)

Definition contents (m : gmap Z (list PendingCommand)) : list PendingCommand :=
  mjoin (map_to_list m).*2.

Lemma mjoin_perm {A} (l1 l2 : list (list A)) : l1 ≡ₚ l2 -> mjoin l1 ≡ₚ mjoin l2.
Proof.
  induction 1 as [|x l1 l2 _ IH|x y l|l1 l2 l3 _ IH1 _ IH2]; cbn; [done|by rewrite IH| |by etrans].
  rewrite !app_assoc. by rewrite (Permutation_app_comm y x).
Qed.

Lemma btree_entries_perm {A} (m : gmap Z A) : btree_entries m ≡ₚ map_to_list m.
Proof. apply sort_by_perm. Qed.

Lemma get_all_contents b : get_all b ≡ₚ contents (by_required_meta b).
Proof. apply mjoin_perm. by rewrite btree_entries_perm. Qed.

Lemma contents_delete m k v :
  m !! k = Some v -> contents m ≡ₚ v ++ contents (delete k m).
Proof.
  intros Hk. unfold contents. rewrite <-(insert_delete_id m k v Hk) at 1.
  rewrite (mjoin_perm _ ((k, v) :: map_to_list (delete k m)).*2); [done|].
  apply fmap_Permutation, map_to_list_insert. apply lookup_delete_eq.
Qed.

Lemma contents_insert m k v :
  contents (<[k := v]> m) ≡ₚ v ++ contents (delete k m).
Proof.
  rewrite <-insert_delete_eq. rewrite (contents_delete _ k v) by apply lookup_insert_eq.
  by rewrite delete_insert_eq, delete_delete_eq.
Qed.

Lemma contents_push m c : contents (buffer_push m c) ≡ₚ c :: contents m.
Proof.
  unfold buffer_push. rewrite contents_insert.
  destruct (m !! required_meta_of c) as [v|] eqn:E; cbn [default].
  - rewrite (contents_delete m _ v E). rewrite <-app_assoc. cbn.
    by rewrite Permutation_middle.
  - by rewrite delete_id.
Qed.

(** Commands stand under their own requirement, and the counter is their number. *)
Record buffer_ok (b : PendingBuffer) : Prop := {
  bo_keys : forall k cs, by_required_meta b !! k = Some cs ->
    cs <> [] /\ Forall (fun c => required_meta_of c = k) cs;
  bo_count : pending_count b = Z.of_nat (length (contents (by_required_meta b)))
}.

Lemma buffer_new_ok : buffer_ok buffer_new.
Proof. constructor; [by intros k cs|done]. Qed.

Lemma buffer_add_ok b c :
  buffer_ok b -> Z.of_nat (length (contents (by_required_meta b))) < u64_max ->
  buffer_ok (buffer_add b c).
Proof.
  intros [Hk Hc] Hlen. constructor; cbn [by_required_meta pending_count buffer_add].
  - intros k cs. unfold buffer_push. destruct (decide (required_meta_of c = k)) as [<-|Hne].
    + rewrite lookup_insert_eq. intros [= <-]. split; [by destruct (default _ _)|].
      apply Forall_app. split; [|by constructor].
      destruct (by_required_meta b !! _) as [v|] eqn:E; [by apply (Hk _ _ E)|constructor].
    + rewrite lookup_insert_ne by done. apply Hk.
  - rewrite (Permutation_length (contents_push _ c)), Hc. cbn [length].
    rewrite u64_add_small; lia.
Qed.

Lemma buffer_add_all b c : get_all (buffer_add b c) ≡ₚ c :: get_all b.
Proof. rewrite !get_all_contents. apply contents_push. Qed.

(** What [drain_satisfied] takes out. *)
Lemma drain_keys m cur :
  foldr delete m (filter (fun e => key_satisfied cur e) (btree_entries m)).*1 =
  filter (fun kv => cur < kv.1) m.
Proof.
  apply map_eq. intros k.
  assert (k ∈ (filter (fun e => key_satisfied cur e) (btree_entries m)).*1 <->
    exists v, m !! k = Some v /\ k <= cur) as Hin.
  { rewrite list_elem_of_fmap. split.
    - intros ([k' v] & -> & [Hs Hin]%list_elem_of_filter).
      rewrite btree_entries_perm in Hin. apply elem_of_map_to_list in Hin.
      exists v. split; [done|]. unfold key_satisfied in Hs. cbn in Hs.
      apply Is_true_true, Z.leb_le in Hs. done.
    - intros (v & Hv & Hle). exists (k, v). split; [done|]. apply list_elem_of_filter. split.
      + apply Is_true_true. unfold key_satisfied. by apply Z.leb_le.
      + rewrite btree_entries_perm. by apply elem_of_map_to_list. }
  destruct (decide (k ∈ (filter (fun e => key_satisfied cur e) (btree_entries m)).*1)) as [H|H].
  - rewrite lookup_foldr_delete by done. apply Hin in H as (v & Hv & Hle).
    symmetry. apply map_lookup_filter_None. right. cbn. intros x Hx. lia.
  - rewrite lookup_foldr_delete_not_elem_of by done. symmetry.
    destruct (m !! k) as [v|] eqn:Hv.
    + apply map_lookup_filter_Some. split; [done|]. cbn.
      destruct (Z.lt_ge_cases cur k); [done|]. exfalso. apply H, Hin. eauto.
    + apply map_lookup_filter_None. by left.
Qed.

Lemma contents_elem m c : c ∈ contents m <-> exists k cs, m !! k = Some cs /\ c ∈ cs.
Proof.
  unfold contents. rewrite list_elem_of_join. split.
  - intros (cs & Hc & [[k cs'] [-> Hin]]%list_elem_of_fmap). apply elem_of_map_to_list in Hin.
    by exists k, cs'.
  - intros (k & cs & Hk & Hc). exists cs. split; [done|]. apply list_elem_of_fmap.
    exists (k, cs). by rewrite elem_of_map_to_list.
Qed.

(** The drained commands and the rest make up the buffer. *)
Lemma drain_partition m cur :
  mjoin (filter (fun e => key_satisfied cur e) (btree_entries m)).*2 ++
    contents (filter (fun kv => cur < kv.1) m) ≡ₚ contents m.
Proof.
  assert (map_to_list (filter (fun kv => cur < kv.1) m) ≡ₚ
            filter (fun e => ~ key_satisfied cur e) (btree_entries m)) as Hrest.
  { apply NoDup_Permutation.
    - apply NoDup_map_to_list.
    - apply NoDup_filter. rewrite btree_entries_perm. apply NoDup_map_to_list.
    - intros [k v]. rewrite elem_of_map_to_list, map_lookup_filter_Some, list_elem_of_filter.
      rewrite btree_entries_perm, elem_of_map_to_list. unfold key_satisfied. cbn.
      rewrite Is_true_true, Z.leb_le. split; intros [? ?]; split; (done || lia). }
  unfold contents at 1. rewrite (mjoin_perm _ _ (fmap_Permutation snd _ _ Hrest)).
  rewrite <-join_app, <-fmap_app. apply mjoin_perm, fmap_Permutation.
  rewrite <-(btree_entries_perm m). apply filter_app_complement.
Qed.

Lemma drain_spec b cur drained b' :
  buffer_ok b -> Z.of_nat (length (get_all b)) <= u64_max ->
  drain_satisfied b cur = (drained, b') ->
  buffer_ok b' /\ drained ++ get_all b' ≡ₚ get_all b /\
  Forall (fun c => required_meta_of c <= cur) drained /\
  Forall (fun c => cur < required_meta_of c) (get_all b') /\
  StronglySorted (fun x y => by_log_index x y = true) drained.
Proof.
  intros [Hkeys Hcount] Hlen Hdrain.
  assert (forall k cs c, by_required_meta b !! k = Some cs -> c ∈ cs -> required_meta_of c = k) as Hreq.
  { intros k cs c Hk Hc. destruct (Hkeys _ _ Hk) as [_ Hf]. rewrite Forall_forall in Hf. by apply Hf. }
  set (sat := filter (fun e => key_satisfied cur e) (btree_entries (by_required_meta b))) in *.
  set (rest := filter (fun kv => cur < kv.1) (by_required_meta b)).
  pose proof (drain_partition (by_required_meta b) cur) as Hpart. fold sat rest in Hpart.
  assert (drained = sort_by by_log_index (mjoin sat.*2) /\ by_required_meta b' = rest /\
          pending_count b' = pending_count b - Z.of_nat (length (mjoin sat.*2))) as (-> & Hb' & Hc').
  { unfold drain_satisfied in Hdrain. fold sat in Hdrain. unfold rest.
    rewrite <-drain_keys. fold sat. destruct sat as [|e sat'] eqn:Esat.
    - injection Hdrain as <- <-. split_and!; [done..|cbn; lia].
    - injection Hdrain as <- <-. split_and!; [done..|]. cbn [pending_count].
      unfold u64_sub. apply wrap64_small. rewrite Hcount.
      rewrite get_all_contents in Hlen. apply Permutation_length in Hpart.
      rewrite length_app in Hpart. unfold u64_modulus, u64_max in *. lia. }
  assert (forall k cs, rest !! k = Some cs -> by_required_meta b !! k = Some cs /\ cur < k) as Hrest.
  { intros k cs Hk. by apply map_lookup_filter_Some in Hk. }
  split_and!.
  - constructor; rewrite Hb'; [intros k cs Hk; by apply Hkeys, Hrest|].
    rewrite Hc', Hcount, <-(Permutation_length Hpart), length_app. lia.
  - rewrite sort_by_perm, !get_all_contents, Hb'. done.
  - rewrite sort_by_perm. apply Forall_forall. intros c (cs & Hc & Hin)%list_elem_of_join.
    apply list_elem_of_fmap in Hin as ([k cs'] & -> & [Hs Hin]%list_elem_of_filter).
    rewrite btree_entries_perm in Hin. apply elem_of_map_to_list in Hin.
    rewrite (Hreq _ _ _ Hin Hc). unfold key_satisfied in Hs. by apply Is_true_true, Z.leb_le in Hs.
  - apply Forall_forall. intros c Hc. rewrite get_all_contents, Hb' in Hc.
    apply contents_elem in Hc as (k & cs & [Hk Hlt]%Hrest & Hc). by rewrite (Hreq _ _ _ Hk Hc).
  - apply sort_by_sorted; unfold by_log_index; intros *; rewrite ?Z.leb_gt, ?Z.leb_le; lia.
Qed.

(** ** What one command does to the store

    [command_effect] is the part of [apply_decoded_command] the rest of the machine relies on: it
    depends on the shard, the applier and the store alone, and leaves the watermark and the buffer
    as they are. *)
Definition same_frame {A X} (m m' : DataMachine A X) : Prop :=
  shard m' = shard m /\ last_applied_index m' = last_applied_index m /\
  last_applied_term m' = last_applied_term m /\ last_applied_tx m' = last_applied_tx m /\
  applier m' = applier m /\ pending_buffer m' = pending_buffer m.

Class DataCommandLaws (Cmd A X S : Type) `{DataCommand Cmd A X S} := {
  command_effect : Z -> option A -> S -> Cmd -> list VersionId -> RaftResult DataResponse * S;
  apply_decoded_effect : forall m s c vs, exists m',
    apply_decoded_command m s c vs =
      ((command_effect (shard m) (applier m) s c vs).1, m',
       (command_effect (shard m) (applier m) s c vs).2) /\
    same_frame m m'
}.

Section Runs.
Context {Cmd A X S : Type} `{HL : DataCommandLaws Cmd A X S} `{!Serde DataResponse}.

(** An entry of the log, and what the applier gets for it: the decoded command with the versions of
    the entry's own index; nothing when the versions cannot be assigned (too many row slots). *)
Abbreviation Entry := (Z * list Z)%type.

Definition handover (e : Entry) : option (Cmd * list VersionId) :=
  match decode_apply_command e.2 with
  | Err _ => None
  | Ok cmd =>
      match assign_entry_versions e.1 (cmd_row_slot_count cmd) with
      | Err _ => None
      | Ok versions => Some (cmd, versions)
      end
  end.

(** The commands executed one after the other on the store, until one fails. *)
Fixpoint run_commands (sh : Z) (a : option A) (s : S) (cs : list (Cmd * list VersionId)) : RaftResult unit * S :=
  match cs with
  | [] => (Ok tt, s)
  | (cmd, versions) :: rest =>
      match command_effect sh a s cmd versions with
      | (Ok _, s') => run_commands sh a s' rest
      | (Err err, s') => (Err err, s')
      end
  end.

(** A decoded entry that is answered with an error instead of being executed. *)
Definition entry_refused (e : Entry) : Prop :=
  exists cmd err, decode_apply_command e.2 = Ok cmd /\ assign_entry_versions e.1 (cmd_row_slot_count cmd) = Err err.

(** The state after one entry, executed or refused. *)
Definition entry_effect (sh : Z) (a : option A) (s : S) (e : Entry) : RaftResult unit * S :=
  match decode_apply_command e.2 with
  | Err err => (Err err, s)
  | Ok cmd =>
      match assign_entry_versions e.1 (cmd_row_slot_count cmd) with
      | Err _ => (Ok tt, s)
      | Ok versions =>
          let '(r, s') := command_effect sh a s cmd versions in
          (match r with Ok _ => Ok tt | Err err => Err err end, s')
      end
  end.

Fixpoint run_effects (sh : Z) (a : option A) (s : S) (es : list Entry) : RaftResult unit * S :=
  match es with
  | [] => (Ok tt, s)
  | e :: rest =>
      match entry_effect sh a s e with
      | (Ok _, s') => run_effects sh a s' rest
      | (Err err, s') => (Err err, s')
      end
  end.

Definition entry_of (c : PendingCommand) : Entry := (log_index_of c, command_bytes c).

Definition required_of (bytes : list Z) : option Z :=
  match decode_apply_command bytes with Ok cmd => Some (cmd_required_meta_index cmd) | Err _ => None end.

(** A buffered command is one the machine decoded, under the requirement it states. *)
Definition pending_ok (c : PendingCommand) : Prop :=
  required_of (command_bytes c) = Some (required_meta_of c) /\ 0 < required_meta_of c.

Lemma run_effects_app sh a s es1 es2 s1 :
  run_effects sh a s es1 = (Ok tt, s1) ->
  run_effects sh a s (es1 ++ es2) = run_effects sh a s1 es2.
Proof.
  revert s. induction es1 as [|e es1 IH]; intros s; cbn [run_effects app]; [by intros [= <-]|].
  destruct (entry_effect sh a s e) as [[u|err] s']; [apply IH|done].
Qed.

(** Leaving the refused entries out changes nothing. *)
Lemma run_effects_commands sh a s es s' :
  run_effects sh a s es = (Ok tt, s') ->
  run_commands sh a s (omap handover es) = (Ok tt, s') /\
  Forall (fun e => handover e = None -> entry_refused e) es.
Proof.
  revert s. induction es as [|e es IH]; intros s; cbn [run_effects omap list_omap]; [by intros [= <-]|].
  unfold entry_effect. destruct (decode_apply_command e.2) as [cmd|err] eqn:Ed; [|done].
  assert (handover e = match assign_entry_versions e.1 (cmd_row_slot_count cmd) with
                       | Err _ => None | Ok versions => Some (cmd, versions) end) as Hh
    by (unfold handover; by rewrite Ed).
  destruct (assign_entry_versions e.1 (cmd_row_slot_count cmd)) as [versions|err] eqn:Ev.
  - destruct (command_effect sh a s cmd versions) as [[r|err] s1] eqn:Ec; [|done].
    intros [Hrun Href]%IH. rewrite Hh. cbn [run_commands]. rewrite Ec. split; [done|].
    constructor; [congruence|done].
  - intros [Hrun Href]%IH. rewrite Hh. split; [done|]. constructor; [|done]. intros _. by exists cmd, err.
Qed.

Lemma drain_loop_effects m s drained r m' s' :
  drain_loop m s drained = (r, m', s') ->
  run_effects (shard m) (applier m) s (entry_of <$> drained) = (r, s') /\ same_frame m m'.
Proof.
  revert m s. induction drained as [|c drained IH]; intros m s; cbn [drain_loop fmap list_fmap run_effects].
  { intros [= <- <- <-]. by repeat split. }
  unfold entry_effect. cbn [entry_of fst snd].
  destruct (decode_apply_command (command_bytes c)) as [cmd|e]; [|intros [= <- <- <-]; by repeat split].
  destruct (assign_entry_versions _ _) as [vs|e]; [|apply IH].
  destruct (apply_decoded_effect m s cmd vs) as (m1 & -> & Hf).
  destruct (command_effect (shard m) (applier m) s cmd vs) as [[resp|e] s1]; cbn [fst snd].
  - intros [He Hf']%IH. destruct Hf as (H1 & H2 & H3 & H4 & H5 & H6).
    rewrite H1, H5 in He. split; [done|].
    destruct Hf' as (G1 & G2 & G3 & G4 & G5 & G6). unfold same_frame. split_and!; congruence.
  - by intros [= <- <- <-].
Qed.

(** One call of [apply] that succeeds: the entries it hands to the applier, what it leaves
    pending, and the watermark. *)
Lemma apply_step mc md m s index term bytes r m' s' :
  buffer_ok (pending_buffer m) -> Forall pending_ok (get_all (pending_buffer m)) ->
  Z.of_nat (length (get_all (pending_buffer m))) < u64_max ->
  last_applied_index m < index ->
  apply mc md m s index term bytes = (Ok r, m', s') ->
  exists drained now,
    run_effects (shard m) (applier m) s ((entry_of <$> drained) ++ now) = (Ok tt, s') /\
    (entry_of <$> drained) ++ now ++ (entry_of <$> get_all (pending_buffer m')) ≡ₚ
      (entry_of <$> get_all (pending_buffer m)) ++ [(index, bytes)] /\
    Forall (fun c => required_meta_of c <= md) drained /\ Forall pending_ok drained /\
    (now = [] /\ drained = [] /\ (exists q, required_of bytes = Some q /\ mc < q) \/
     now = [(index, bytes)] /\ exists q, required_of bytes = Some q /\ (q <= 0 \/ q <= mc)) /\
    buffer_ok (pending_buffer m') /\ Forall pending_ok (get_all (pending_buffer m')) /\
    shard m' = shard m /\ applier m' = applier m /\
    last_applied_index m <= last_applied_index m' <= index.
Proof.
  intros Hb Hp Hlen Hidx. unfold apply. rewrite (proj2 (Z.leb_gt _ _)) by done.
  destruct (decode_apply_command bytes) as [cmd|e] eqn:Edec; [|done].
  assert (required_of bytes = Some (cmd_required_meta_index cmd)) as Hreq
    by (unfold required_of; by rewrite Edec).
  destruct (_ && _) eqn:Ewait.
  { intros [= <- <- <-]. apply andb_true_iff in Ewait as [E1 E2].
    apply Z.ltb_lt in E1, E2. exists [], [].
    cbn [fmap list_fmap app run_effects pending_buffer store_applied set_pending shard applier
      last_applied_index].
    set (c := mkPending index term (cmd_required_meta_index cmd) bytes).
    pose proof (buffer_add_all (pending_buffer m) c) as Hall.
    split_and!; try done.
    - rewrite Hall. cbn [fmap list_fmap]. by rewrite Permutation_cons_append.
    - left. split_and!; [done..|]. by exists (cmd_required_meta_index cmd).
    - apply buffer_add_ok; [done|]. by rewrite <-get_all_contents.
    - rewrite Hall. by constructor.
    - lia. }
  set (dr := if buffer_is_empty (pending_buffer m) then (Ok tt, m, s) else drain_pending md m s).
  assert (exists drained r1 m1 s1, dr = (r1, m1, s1) /\
    run_effects (shard m) (applier m) s (entry_of <$> drained) = (r1, s1) /\
    (entry_of <$> drained) ++ (entry_of <$> get_all (pending_buffer m1)) ≡ₚ
      entry_of <$> get_all (pending_buffer m) /\
    Forall (fun c => required_meta_of c <= md) drained /\ Forall pending_ok drained /\
    buffer_ok (pending_buffer m1) /\ Forall pending_ok (get_all (pending_buffer m1)) /\
    shard m1 = shard m /\ applier m1 = applier m /\
    last_applied_index m1 = last_applied_index m)
    as (drained & r1 & m1 & s1 & -> & Heff & Hperm & Hdmd & Hdok & Hb1 & Hp1 & Hs1 & Ha1 & Hl1).
  { unfold dr. destruct (buffer_is_empty _).
    - exists [], (Ok tt), m, s. by split_and!.
    - unfold drain_pending. destruct (drain_satisfied _ _) as [drained b'] eqn:Ed.
      destruct (drain_spec _ _ _ _ Hb ltac:(lia) Ed) as (Hb' & Hpm & Hmd & _ & _).
      destruct (drain_loop _ _ _) as [[r1 m1] s1] eqn:El.
      apply drain_loop_effects in El as [Heff (F1 & F2 & F3 & F4 & F5 & F6)].
      cbn [shard applier set_pending pending_buffer last_applied_index] in *.
      rewrite <-Hpm in Hp. apply Forall_app in Hp as [Hp1 Hp2].
      exists drained, r1, m1, s1. rewrite F6. split_and!; try done.
      by rewrite <-fmap_app, Hpm. }
  destruct r1 as [u|e]; [|done]. destruct u.
  assert (exists q, required_of bytes = Some q /\ (q <= 0 \/ q <= mc)) as Hnow.
  { exists (cmd_required_meta_index cmd). split; [done|].
    apply andb_false_iff in Ewait as [E|E]; apply Z.ltb_ge in E; [by left|by right]. }
  assert (forall s2, entry_effect (shard m) (applier m) s1 (index, bytes) = (Ok tt, s2) ->
    run_effects (shard m) (applier m) s ((entry_of <$> drained) ++ [(index, bytes)]) = (Ok tt, s2))
    as Happ.
  { intros s2 H2. rewrite (run_effects_app _ _ _ _ _ s1) by done. cbn. by rewrite H2. }
  unfold entry_effect in Happ. cbn [fst snd] in Happ. rewrite Edec in Happ.
  destruct (assign_entry_versions index _) as [vs|e] eqn:Evs.
  - destruct (apply_decoded_effect m1 s1 cmd vs) as (m2 & -> & Hf).
    rewrite Hs1, Ha1. destruct (command_effect _ _ _ _ _) as [[resp|e] s2]; cbn [fst snd]; [|done].
    intros [= _ <- <-].
    destruct Hf as (G1 & G2 & G3 & G4 & G5 & G6).
    exists drained, [(index, bytes)].
    cbn [pending_buffer store_applied shard applier last_applied_index]. rewrite G6.
    split_and!; try done; try congruence; try lia.
    + by apply Happ.
    + rewrite <-Hperm. rewrite <-!app_assoc. f_equiv. apply Permutation_app_comm.
    + by right.
  - intros [= _ <- <-]. exists drained, [(index, bytes)].
    split_and!; try done; try lia.
    + by apply Happ.
    + rewrite <-Hperm. rewrite <-!app_assoc. f_equiv. apply Permutation_app_comm.
    + by right.
Qed.

(** A run of the entries the log delivers, with the readings each call makes. *)
Record Input := mkInput {
  in_meta_check : Z; in_meta_drain : Z; in_index : Z; in_term : Z; in_bytes : list Z
}.

Definition input_entry (i : Input) : Entry := (in_index i, in_bytes i).

Fixpoint run_entries (m : DataMachine A X) (s : S) (inputs : list Input) :
    RaftResult unit * DataMachine A X * S :=
  match inputs with
  | [] => (Ok tt, m, s)
  | i :: rest =>
      match apply (in_meta_check i) (in_meta_drain i) m s (in_index i) (in_term i) (in_bytes i) with
      | (Ok _, m', s') => run_entries m' s' rest
      | (Err e, m', s') => (Err e, m', s')
      end
  end.

(** The order in which a run hands entries to the applier, with the metadata index under which
    it did. *)
Record executes (inputs : list Input) (order : list (Z * Entry)) : Prop := {
  ex_meta : forall q e, (q, e) ∈ order ->
    exists r, required_of e.2 = Some r /\ (r <= 0 \/ r <= q);
  ex_reading : forall q e, (q, e) ∈ order ->
    exists i, i ∈ inputs /\ (q = in_meta_check i \/ q = in_meta_drain i)
}.

Lemma run_entries_inv inputs : forall m s m' s',
  buffer_ok (pending_buffer m) -> Forall pending_ok (get_all (pending_buffer m)) ->
  Z.of_nat (length (get_all (pending_buffer m)) + length inputs) < u64_max ->
  StronglySorted Z.lt (last_applied_index m :: (in_index <$> inputs)) ->
  run_entries m s inputs = (Ok tt, m', s') ->
  exists order,
    run_effects (shard m) (applier m) s order.*2 = (Ok tt, s') /\
    order.*2 ++ (entry_of <$> get_all (pending_buffer m')) ≡ₚ
      (entry_of <$> get_all (pending_buffer m)) ++ (input_entry <$> inputs) /\
    executes inputs order /\
    (pending_buffer m = buffer_new ->
     (forall i q, i ∈ inputs -> required_of (in_bytes i) = Some q -> q <= 0 \/ q <= in_meta_check i) ->
     order.*2 = input_entry <$> inputs).
Proof.
  induction inputs as [|i inputs IH]; intros m s m' s' Hb Hp Hlen Hsort; cbn [run_entries].
  { intros [= <- <-]. exists []. split_and!; try done.
    - by rewrite app_nil_r.
    - constructor; by intros q e ?%not_elem_of_nil. }
  destruct (apply _ _ _ _ _ _ _) as [[[r|e] m1] s1] eqn:Eap; [|done].
  apply StronglySorted_inv in Hsort as [Hsort Hlt]. rewrite Forall_forall in Hlt.
  rewrite fmap_cons in Hsort, Hlt.
  eapply apply_step in Eap as (drained & now & Heff & Hperm & Hmd & Hdok & Hcase & Hb1 & Hp1 & Hs1 & Ha1 & Hl1);
    [|done|done|cbn [length] in Hlen; lia|apply Hlt; by apply elem_of_cons; left].
  intros Hrun. apply IH in Hrun as (order & Heff2 & Hperm2 & [Hm2 Hr2] & Hord2); [|done|done| |].
  2:{ apply Permutation_length in Hperm. rewrite !length_app, !length_fmap in Hperm. cbn in Hperm.
      cbn [length] in Hlen. lia. }
  2:{ apply StronglySorted_inv in Hsort as [Hs Hf]. constructor; [done|].
      eapply Forall_impl; [exact Hf|]. cbn. intros x Hx. lia. }
  exists (((fun c => (in_meta_drain i, entry_of c)) <$> drained) ++
     ((fun e => (in_meta_check i, e)) <$> now) ++ order).
  rewrite !fmap_app, <-!list_fmap_compose. unfold compose. cbn [snd].
  change ((fun c => entry_of c) <$> drained) with (entry_of <$> drained).
  rewrite list_fmap_id. split_and!.
  - rewrite app_assoc. rewrite (run_effects_app _ _ _ _ _ s1) by done. by rewrite <-Hs1, <-Ha1.
  - rewrite <-!app_assoc, Hperm2, fmap_cons. rewrite app_assoc, app_assoc.
    rewrite <-(app_assoc _ now), Hperm. by rewrite <-app_assoc.
  - constructor.
    + intros q e. rewrite !elem_of_app, !list_elem_of_fmap.
      intros [(c & [= -> ->] & Hc)|[(x & [= -> ->] & Hx)|Hd]].
      * rewrite Forall_forall in Hmd, Hdok. destruct (Hdok _ Hc) as [Hq _].
        exists (required_meta_of c). split; [done|]. right. by apply Hmd.
      * destruct Hcase as [(-> & _)|(-> & q & Hq & Hle)]; [by apply not_elem_of_nil in Hx|].
        apply list_elem_of_singleton in Hx as ->. by exists q.
      * by apply Hm2 in Hd.
    + intros q e. rewrite !elem_of_app, !list_elem_of_fmap.
      intros [(c & [= -> ->] & Hc)|[(x & [= -> ->] & Hx)|Hd]].
      * exists i. split; [by apply elem_of_cons; left|by right].
      * exists i. split; [by apply elem_of_cons; left|by left].
      * apply Hr2 in Hd as (j & Hj & Hq). exists j. split; [by apply elem_of_cons; right|done].
  - intros Hnew Hall. rewrite fmap_cons.
    rewrite Hnew in Hperm. change (entry_of <$> get_all buffer_new) with (@nil Entry) in Hperm.
    destruct Hcase as [(-> & -> & q & Hq & Hlt')|(-> & _)].
    { destruct (Hall i q ltac:(by apply elem_of_cons; left) Hq) as [H0|H0]; [|lia].
      exfalso.
      assert (entry_of <$> get_all (pending_buffer m1) ≡ₚ [(in_index i, in_bytes i)]) as Hone by done.
      symmetry in Hone. apply Permutation_singleton_l in Hone.
      destruct (get_all (pending_buffer m1)) as [|c [|]]; try done. cbn in Hone.
      injection Hone as Hi Hbytes. apply Forall_cons in Hp1 as [[Hreq Hpos] _].
      rewrite <-Hbytes in Hreq. rewrite Hq in Hreq. injection Hreq as ->. lia. }
    assert (drained = [] /\ get_all (pending_buffer m1) = []) as [-> Hempty].
    { apply Permutation_length in Hperm. rewrite !length_app, !length_fmap in Hperm. cbn in Hperm.
      destruct drained, (get_all (pending_buffer m1)); cbn in *; (done || lia). }
    cbn [fmap list_fmap app]. f_equal. apply Hord2.
    + destruct Hb1 as [Hk Hc]. destruct (pending_buffer m1) as [mm cc]. cbn in *.
      assert (contents mm = []) as Hcon.
      { apply Permutation_nil_r. rewrite <-Hempty. symmetry. apply (get_all_contents (mkBuffer mm cc)). }
      rewrite Hcon in Hc. cbn in Hc. subst cc. unfold buffer_new. f_equal.
      apply map_empty. intros k. destruct (mm !! k) as [cs|] eqn:E; [|done].
      destruct (Hk _ _ E) as [Hne _]. destruct cs as [|c cs]; [done|].
      assert (c ∈ contents mm) as Hin by (apply contents_elem; exists k, (c :: cs); split; [done|apply elem_of_cons; by left]).
      rewrite Hcon in Hin. by apply not_elem_of_nil in Hin.
    + intros j q Hj. apply Hall. by apply elem_of_cons; right.
Qed.

End Runs.

(** ** The two machines keep the laws *)

Definition effect_of {Cmd A X S} `{DataCommand Cmd A X S} (x : X) (sh : Z) (a : option A) (s : S)
    (c : Cmd) (vs : list VersionId) : RaftResult DataResponse * S :=
  let '(r, _, s') := apply_decoded_command (mkMachine sh 0 0 0 0 0 a buffer_new x) s c vs in (r, s').

Section Laws.
Context {MetaCommand S : Type} (to_lowercase : string -> string).
Context `{!Serde UserDataCommand, !Serde SharedDataCommand, !Serde (RaftCommand MetaCommand)}.

#[export] Instance user_data_laws :
  @DataCommandLaws UserApplyCommand (UserDataApplier S) unit S (user_data_command to_lowercase).
Proof.
  refine {| command_effect := @effect_of _ _ _ _ (user_data_command to_lowercase) tt |}.
  intros m s c vs. unfold effect_of, apply_decoded_command, user_data_command.
  destruct c as [c|required tx mutations].
  - unfold user_apply_command. cbn [applier].
    destruct c;
      match goal with |- context [user_finish m ?r _] => destruct r as [[n|e] s'] end;
      by eexists; split; [reflexivity|].
  - unfold user_apply_transaction_commit. cbn [applier].
    destruct (existsb _ _); [by eexists; split; [reflexivity|]|].
    destruct (applier m) as [a|]; [|by eexists; split; [reflexivity|]].
    destruct (user_apply_transaction_batch a s tx mutations vs) as [[res|e] s'];
      by eexists; split; [reflexivity|].
Defined.

#[export] Instance shared_data_laws :
  @DataCommandLaws SharedApplyCommand (SharedDataApplier S) (list SharedOperation) S
    (shared_data_command to_lowercase).
Proof.
  refine {| command_effect := @effect_of _ _ _ _ (shared_data_command to_lowercase) [] |}.
  intros m s c vs. unfold effect_of, apply_decoded_command, shared_data_command.
  destruct c as [c|required tx mutations].
  - unfold shared_apply_command.
    assert (check_owner (mkMachine (shard m) 0 0 0 0 0 (applier m) buffer_new []) s (shared_table_id c)
            = check_owner m s (shared_table_id c)) as -> by done.
    destruct (check_owner m s _); [|by eexists; split; [reflexivity|]]. cbn [applier].
    destruct c;
      match goal with |- context [shared_finish m ?r _ _ _] => destruct r as [[n|e] s'] end;
      by eexists; split; [reflexivity|].
  - unfold shared_apply_transaction_commit. cbn [applier].
    destruct (existsb _ _); [by eexists; split; [reflexivity|]|].
    destruct (applier m) as [a|]; [|by eexists; split; [reflexivity|]].
    assert (forall l, check_mutation_owners (mkMachine (shard m) 0 0 0 0 0 (Some a) buffer_new []) a s l
            = check_mutation_owners m a s l) as ->.
    { induction l as [|x l IH]; [done|]. cbn [check_mutation_owners].
      destruct (shared_shard_id _ _ _); [|done]. cbn [result_bind shard]. by rewrite IH. }
    destruct (check_mutation_owners _ _ _ _); [|by eexists; split; [reflexivity|]].
    destruct (shared_apply_transaction_batch a s tx mutations vs) as [[res|e] s'];
      by eexists; split; [reflexivity|].
Defined.

End Laws.

(** ** Snapshots *)

Lemma load_from_lookup cs k :
  by_required_meta (load_from cs) !! k =
  match filter (fun c => required_meta_of c = k) cs with [] => None | l => Some l end.
Proof.
  unfold load_from. induction cs as [|c cs IH] using rev_ind; [done|].
  rewrite foldl_snoc, filter_app. cbn [by_required_meta buffer_add].
  set (m := by_required_meta (foldl buffer_add buffer_new cs)) in *. unfold buffer_push.
  destruct (decide (required_meta_of c = k)) as [Hk|Hk].
  - rewrite Hk, lookup_insert_eq, IH. rewrite filter_cons_True by done. cbn [filter list_filter].
    by destruct (filter _ cs).
  - rewrite lookup_insert_ne, IH by done. rewrite filter_cons_False by done.
    by rewrite app_nil_r.
Qed.

Lemma load_from_count cs :
  Z.of_nat (length cs) <= u64_max -> pending_count (load_from cs) = Z.of_nat (length cs).
Proof.
  unfold load_from. induction cs as [|c cs IH] using rev_ind; [done|]. intros Hlen.
  rewrite length_app in *. cbn [length] in *. rewrite foldl_snoc. cbn [pending_count buffer_add].
  rewrite IH by lia. rewrite u64_add_small; lia.
Qed.

Lemma filter_joined (es : list (Z * list PendingCommand)) k :
  NoDup es.*1 -> Forall (fun e => Forall (fun c => required_meta_of c = e.1) e.2) es ->
  filter (fun c => required_meta_of c = k) (mjoin es.*2) =
  default [] (list_to_map (M := gmap Z (list PendingCommand)) es !! k).
Proof.
  induction es as [|[k' cs] es IH]; intros Hnd Hf; [done|].
  rewrite fmap_cons in *. apply NoDup_cons in Hnd as [Hni Hnd].
  apply Forall_cons in Hf as [Hcs Hf]. cbn [fst snd] in *.
  rewrite list_to_map_cons. change (mjoin (cs :: es.*2)) with (cs ++ mjoin es.*2).
  rewrite filter_app, IH by done. destruct (decide (k' = k)) as [->|Hne].
  - rewrite lookup_insert_eq. rewrite not_elem_of_list_to_map_1 by done. cbn [default].
    rewrite app_nil_r. apply filter_all. intros c Hc. rewrite Forall_forall in Hcs. by apply Hcs.
  - rewrite lookup_insert_ne by done. rewrite filter_none; [done|].
    intros c Hc Hk. rewrite Forall_forall in Hcs. specialize (Hcs c Hc). congruence.
Qed.

(** Saving the buffer and loading it gives the buffer back. *)
Lemma load_from_get_all b :
  buffer_ok b -> Z.of_nat (length (get_all b)) <= u64_max -> load_from (get_all b) = b.
Proof.
  intros [Hk Hc] Hlen. pose proof (load_from_count _ Hlen) as Hcount.
  destruct (load_from (get_all b)) as [m n] eqn:El. cbn in Hcount. destruct b as [bm bn].
  rewrite get_all_contents in Hcount. cbn [by_required_meta pending_count] in *.
  f_equal; [|congruence]. apply map_eq. intros k.
  replace m with (by_required_meta (load_from (get_all (mkBuffer bm bn)))) by (by rewrite El).
  rewrite load_from_lookup. unfold get_all. cbn [by_required_meta].
  assert (list_to_map (btree_entries bm) = bm) as Hmap.
  { rewrite <-(list_to_map_to_list bm) at 2. apply list_to_map_proper; [|apply btree_entries_perm].
    rewrite btree_entries_perm. apply NoDup_fst_map_to_list. }
  rewrite filter_joined.
  - rewrite Hmap. destruct (bm !! k) as [cs|] eqn:E; [|done]. cbn [default].
    destruct (Hk _ _ E) as [Hne _]. by destruct cs.
  - rewrite btree_entries_perm. apply NoDup_fst_map_to_list.
  - apply Forall_forall. intros [k' cs] Hin. rewrite btree_entries_perm in Hin.
    apply elem_of_map_to_list in Hin. by apply (Hk _ _ Hin).
Qed.

Lemma sm_roundtrip {T} `{HT : SerdeLaws T} (v : T) bytes :
  sm_encode v = Ok bytes -> sm_decode bytes = Ok v.
Proof. intros He%map_err_ok. by apply map_err_ok, decode_encoded_protocol. Qed.

(** ** What the machines guarantee *)

(** C5. In a run of log entries in index order in which no [apply] call fails, every entry is
    either still in the pending buffer or was processed exactly once: nothing is lost, repeated or
    invented.  A processed entry was handed to the applier as its decoded command with the versions
    of its own index, and the store is what executing those commands in the processing order gives;
    only an entry whose versions cannot be assigned (more than 65,536 row slots, or an index
    outside the range of versions) is not executed: it is answered with an error, or dropped with a
    warning if it had waited.  An entry is processed
    only when the metadata index it requires had been reached at that moment, and when no entry has
    to wait the order is that of the log. *)
Theorem entries_execute_once {Cmd A X S : Type} `{HL : DataCommandLaws Cmd A X S}
    `{!Serde DataResponse} (sh : Z) (a : option A) (x : X) (s : S) (inputs : list Input) m' s' :
  Z.of_nat (length inputs) < u64_max ->
  StronglySorted Z.lt (0 :: (in_index <$> inputs)) ->
  run_entries (machine_new sh a x) s inputs = (Ok tt, m', s') ->
  exists order,
    run_commands sh a s (omap handover order.*2) = (Ok tt, s') /\
    order.*2 ++ (entry_of <$> get_all (pending_buffer m')) ≡ₚ input_entry <$> inputs /\
    (forall q e, (q, e) ∈ order ->
       (handover e = None -> entry_refused e) /\
       (exists r, required_of e.2 = Some r /\ (r <= 0 \/ r <= q)) /\
       (exists i, i ∈ inputs /\ (q = in_meta_check i \/ q = in_meta_drain i))) /\
    ((forall i q, i ∈ inputs -> required_of (in_bytes i) = Some q ->
        q <= 0 \/ q <= in_meta_check i) ->
     order.*2 = input_entry <$> inputs).
Proof.
  intros Hlen Hsort Hrun.
  apply run_entries_inv in Hrun as (order & Heff & Hperm & [Hm Hr] & Hord);
    [|apply buffer_new_ok|apply Forall_nil_2|exact Hlen|done].
  apply run_effects_commands in Heff as [Hcmds Href]. rewrite Forall_forall in Href.
  exists order. split_and!; [done|done| |by apply Hord].
  intros q e He. split_and!; [|by eapply Hm|by eapply Hr].
  apply Href, list_elem_of_fmap. by exists (q, e).
Qed.

(** C36. A snapshot of a data group restores its buffer, counters and watermark: restoring into a
    fresh machine of the same shard gives the machine back, but for the size estimate. *)
Theorem data_snapshot_roundtrip {S : Type} 
    `{!Serde UserDataSnapshot, !Serde SharedDataSnapshot,
      !SerdeLaws UserDataSnapshot, !SerdeLaws SharedDataSnapshot} :
  (forall (m : DataMachine (UserDataApplier S) unit) snap,
     buffer_ok (pending_buffer m) -> Z.of_nat (length (get_all (pending_buffer m))) <= u64_max ->
     user_snapshot m = Ok snap ->
     user_restore (machine_new (shard m) (applier m) tt) snap =
       (Ok tt, mkMachine (shard m) (last_applied_index m) (last_applied_term m)
                 (last_applied_index m) 0 (total_operations m) (applier m) (pending_buffer m) tt)) /\
  (forall (m : DataMachine (SharedDataApplier S) (list SharedOperation)) snap,
     buffer_ok (pending_buffer m) -> Z.of_nat (length (get_all (pending_buffer m))) <= u64_max ->
     shared_snapshot m = Ok snap ->
     shared_restore (machine_new (shard m) (applier m) []) snap =
       (Ok tt, mkMachine (shard m) (last_applied_index m) (last_applied_term m)
                 (last_applied_index m) 0 (total_operations m) (applier m) (pending_buffer m)
                 (recent m))).
Proof.
  split; intros m snap Hb Hlen; intros (data & He & <-%Ok_inj)%result_bind_ok.
  - unfold user_restore. cbn [snap_data]. rewrite (sm_roundtrip _ _ He).
    cbn [us_shard shard machine_new us_total_operations us_pending_commands].
    rewrite Z.eqb_refl. cbn [negb]. by rewrite load_from_get_all.
  - unfold shared_restore. cbn [snap_group_id shard machine_new]. rewrite decide_True by done.
    cbn [snap_data]. rewrite (sm_roundtrip _ _ He).
    cbn [ss_total_operations ss_pending_commands ss_recent_operations].
    by rewrite load_from_get_all.
Qed.

Section SharedFailures.
Context {MetaCommand S : Type} (to_lowercase : string -> string).
Context `{!Serde SharedDataCommand, !Serde (RaftCommand MetaCommand), !Serde DataResponse}.

Lemma unresolved_table m (a : SharedDataApplier S) s c versions e :
  applier m = Some a -> shared_shard_id a s (shared_table_id c) = Err e ->
  shared_apply_command m s c versions = (Err e, m, s).
Proof.
  intros Ha He. unfold shared_apply_command, check_owner. rewrite Ha, He. done.
Qed.

End SharedFailures.

(** An entry for a shared table the node's catalog no longer knows (dropped after the entry
    was proposed, before it is applied here) makes [apply] fail, and the machine and the store
    stay as they are: the group stops at this entry, also after every restart. *)
Theorem dropped_table_stops_group {MetaCommand S : Type} (to_lowercase : string -> string)
    `{!Serde SharedDataCommand, !Serde (RaftCommand MetaCommand), !Serde DataResponse}
    (mc md : Z) (m : DataMachine (SharedDataApplier S) (list SharedOperation)) (s : S)
    (index term : Z) (bytes : list Z) (a : SharedDataApplier S) (c : SharedDataCommand)
    (e : RaftError) (versions : list VersionId) :
  applier m = Some a -> last_applied_index m < index ->
  shared_decode_apply_command to_lowercase bytes = Ok (SharedCommand c) ->
  shared_required_meta_index c <= mc -> pending_buffer m = buffer_new ->
  assign_entry_versions index (shared_row_slot_count c) = Ok versions ->
  shared_shard_id a s (shared_table_id c) = Err e ->
  shared_apply to_lowercase mc md m s index term bytes = (Err e, m, s).
Proof.
  intros Ha Hidx Hdec Hmeta Hb Hvs He. unfold shared_apply, apply.
  rewrite (proj2 (Z.leb_gt _ _)) by done.
  cbn [decode_apply_command shared_data_command]. rewrite Hdec.
  change (cmd_required_meta_index (SharedCommand c)) with (shared_required_meta_index c).
  change (cmd_row_slot_count (SharedCommand c)) with (shared_row_slot_count c).
  rewrite (proj2 (Z.ltb_ge mc _)) by lia. rewrite andb_false_r, Hb.
  cbn [buffer_is_empty buffer_len buffer_new pending_count Z.eqb]. rewrite Hvs.
  change (apply_decoded_command m s (SharedCommand c) versions)
    with (shared_apply_command m s c versions).
  by rewrite (unresolved_table m a s c versions e).
Qed.

(** A response whose error text exceeds 65,535 bytes (a primary-key violation quotes the key)
    cannot be encoded: [apply] fails although the command was processed, which stops the group. *)
Theorem long_error_stops_group {MetaCommand S : Type} (to_lowercase : string -> string)
    `{!Serde UserDataCommand, !Serde (RaftCommand MetaCommand), !Serde DataResponse}
    (mc md : Z) (m : DataMachine (UserDataApplier S) unit) (s s' : S)
    (index term meta : Z) (bytes : list Z) (a : UserDataApplier S) tx table user rows encoded
    (e : RaftError) (versions : list VersionId) :
  applier m = Some a -> last_applied_index m < index ->
  user_decode_apply_command to_lowercase bytes =
    Ok (UserCommand (UserInsert meta tx table user rows encoded)) ->
  meta <= mc -> pending_buffer m = buffer_new ->
  assign_entry_versions index (Nat.max (length rows) (length encoded)) = Ok versions ->
  user_insert a s table user rows encoded versions = (Err e, s') ->
  65535 < str_len (raft_error_text e) ->
  exists m', user_apply to_lowercase mc md m s index term bytes =
    (Err (Serialization "encode failed: packed field exceeds 65535 bytes"), m', s') /\
    last_applied_index m' = index.
Proof.
  intros Ha Hidx Hdec Hmeta Hb Hvs He Hlong. unfold user_apply, apply.
  rewrite (proj2 (Z.leb_gt _ _)) by done.
  cbn [decode_apply_command user_data_command]. rewrite Hdec.
  change (cmd_required_meta_index (UserCommand (UserInsert meta tx table user rows encoded)))
    with meta.
  change (cmd_row_slot_count (UserCommand (UserInsert meta tx table user rows encoded)))
    with (Nat.max (length rows) (length encoded)).
  rewrite (proj2 (Z.ltb_ge mc _)) by lia. rewrite andb_false_r, Hb.
  cbn [buffer_is_empty buffer_len buffer_new pending_count Z.eqb]. rewrite Hvs.
  change (apply_decoded_command m s (UserCommand (UserInsert meta tx table user rows encoded)) versions)
    with (user_apply_command m s (UserInsert meta tx table user rows encoded) versions).
  unfold user_apply_command. rewrite Ha, He. cbn [user_finish].
  assert (encode_data_response (from_raft_error e) =
    Err (Serialization "encode failed: packed field exceeds 65535 bytes")) as ->;
    [|by eexists; split; [reflexivity|]].
  unfold from_raft_error, encode_data_response, encode_packed_data_response, write_u16_bytes, u16_max.
  rewrite (proj2 (Z.leb_gt _ _)); [done|]. unfold bytes_of_string. rewrite length_fmap.
  unfold str_len in Hlong.
  enough (forall t, length (String.list_ascii_of_string t) = String.length t) as Hl by (rewrite Hl; lia).
  induction t; cbn; [done|lia].
Qed.

(** ** Concrete machines *)

Module RaftDataWitness.

(** A payload codec for one value, and none. *)
Definition serde_one {T} `{EqDecision T} (v : T) : Serde T := {|
  flexbuffers_to_vec x := if decide (x = v) then Ok [1] else Err (Encode "other value");
  flexbuffers_from_slice l := if decide (l = [1]) then Ok v else Err (Decode "other bytes");
  msgpack_write_named x := if decide (x = v) then Ok [2] else Err (Encode "other value");
  msgpack_from_slice l := if decide (l = [2]) then Ok v else Err (Decode "other bytes")
|}.

Lemma serde_one_laws {T} `{EqDecision T} (v : T) : @SerdeLaws T (serde_one v).
Proof. constructor; intros x l; cbn; destruct (decide (x = v)) as [->|]; by intros [= <-]. Qed.

Definition serde_none (T : Type) : Serde T := {|
  flexbuffers_to_vec x := Err (Encode "none");
  flexbuffers_from_slice l := Err (Decode "none");
  msgpack_write_named x := Err (Encode "none");
  msgpack_from_slice l := Err (Decode "none")
|}.

#[local] Existing Instance serde_none.

(** An applier that records the versions it is called with. *)
Definition logger : UserDataApplier (list (list Z)) := {|
  user_insert s _ _ _ enc vs := (Ok (Z.of_nat (length enc)), s ++ [vs]);
  user_update s _ _ _ _ vs := (Ok 1, s ++ [vs]);
  user_delete s _ _ _ vs := (Ok 1, s ++ [vs]);
  user_apply_transaction_batch s _ _ vs := (Err Shutdown, s ++ [vs])
|}.

Definition t0 : TableId := mkTableId "app" "notes".

Definition insert_bytes (meta : Z) : list Z :=
  match encode_user_data_command (UserInsert meta None t0 "u1" [] [[1; 2]]) with
  | Ok l => l | Err _ => []
  end.

(** The second entry needs metadata index 5, which the third call finds reached. *)
Definition inputs0 : list Input :=
  [mkInput 3 3 1 1 (insert_bytes 0); mkInput 3 3 2 1 (insert_bytes 5);
   mkInput 4 6 3 1 (insert_bytes 0)].

#[local] Existing Instance user_data_command.
#[local] Existing Instance user_data_laws.

Abbreviation user_command := (user_data_command (MetaCommand := unit) (S := list (list Z)) to_ascii_lowercase).

Definition run0 :=
  run_entries (H := user_command) (machine_new 7 (Some logger) tt) [] inputs0.

Lemma entries_execute_once_witness :
  exists m', run0 = (Ok tt, m', [[65536]; [131072]; [196608]]) /\
  exists order : list (Z * (Z * list Z)),
    run_commands (HL := user_data_laws (MetaCommand := unit) to_ascii_lowercase) 7 (Some logger) []
      (omap (handover (H := user_command)) order.*2) = (Ok tt, [[65536]; [131072]; [196608]]) /\
    order.*2 ++ (entry_of <$> get_all (pending_buffer m')) ≡ₚ input_entry <$> inputs0.
Proof.
  assert (exists m', run0 = (Ok tt, m', [[65536]; [131072]; [196608]])) as [m' Hrun]
    by (vm_compute; eexists; reflexivity).
  exists m'. split; [exact Hrun|].
  destruct (entries_execute_once
    (HL := user_data_laws (MetaCommand := unit) to_ascii_lowercase) 7 (Some logger) tt [] inputs0 m'
    [[65536]; [131072]; [196608]]) as (order & He & Hp & _);
    [vm_compute; reflexivity| |exact Hrun|by exists order].
  unfold inputs0. cbn. repeat constructor.
Defined.

Definition pending0 : PendingCommand := mkPending 4 1 9 (insert_bytes 9).

#[local] Instance PendingCommand_eq_dec : EqDecision PendingCommand.
Proof. solve_decision. Defined.
#[local] Instance UserDataSnapshot_eq_dec : EqDecision UserDataSnapshot.
Proof. solve_decision. Defined.
#[local] Instance SharedOperation_eq_dec : EqDecision SharedOperation.
Proof. solve_decision. Defined.
#[local] Instance SharedDataSnapshot_eq_dec : EqDecision SharedDataSnapshot.
Proof. solve_decision. Defined.

Definition snapshot0 : UserDataSnapshot := mkUserSnapshot 7 3 [pending0].
Definition machine0 : DataMachine (UserDataApplier (list (list Z))) unit :=
  mkMachine 7 4 1 4 3 3 (Some logger) (buffer_add buffer_new pending0) tt.

Lemma data_snapshot_roundtrip_witness :
  exists snap, user_snapshot (Serde2 := serde_one snapshot0) machine0 = Ok snap /\
  user_restore (Serde2 := serde_one snapshot0) (machine_new 7 (Some logger) tt) snap =
    (Ok tt, mkMachine 7 4 1 4 0 3 (Some logger) (buffer_add buffer_new pending0) tt).
Proof.
  assert (exists snap, user_snapshot (Serde2 := serde_one snapshot0) machine0 = Ok snap) as [snap Hs]
    by (vm_compute; eexists; reflexivity).
  exists snap. split; [exact Hs|].
  assert (Hb : buffer_ok (pending_buffer machine0))
    by (apply buffer_add_ok; [apply buffer_new_ok|vm_compute; reflexivity]).
  pose proof (@data_snapshot_roundtrip (list (list Z)) (serde_one snapshot0)
    (serde_one (mkSharedSnapshot 0 [] [])) (serde_one_laws _) (serde_one_laws _)) as [H _].
  apply (H machine0 snap Hb); [vm_compute; discriminate|exact Hs].
Defined.

(** A catalog that knows no table. *)
Definition no_tables : SharedDataApplier unit := {|
  shared_shard_id _ _ := Err (Provider "Unknown shared table");
  shared_insert s _ _ _ _ _ := (Ok 0, s);
  shared_update s _ _ _ _ _ _ := (Ok 0, s);
  shared_delete s _ _ _ _ := (Ok 0, s);
  shared_apply_transaction_batch s _ _ _ := (Err Shutdown, s)
|}.

Definition dropped_command : SharedDataCommand := SharedInsert 2 None None t0 [] [[1]].
Definition dropped_bytes : list Z :=
  match encode_shared_data_command dropped_command with Ok l => l | Err _ => [] end.

Lemma dropped_table_stops_group_witness :
  shared_apply (MetaCommand := unit) to_ascii_lowercase 8 8 (machine_new 0 (Some no_tables) []) tt 1 1
    dropped_bytes = (Err (Provider "Unknown shared table"), machine_new 0 (Some no_tables) [], tt).
Proof.
  apply (dropped_table_stops_group (MetaCommand := unit) to_ascii_lowercase 8 8
    (machine_new 0 (Some no_tables) []) tt 1 1 dropped_bytes no_tables dropped_command
    (Provider "Unknown shared table") [65536]);
    first [reflexivity|vm_compute; reflexivity|vm_compute; discriminate].
Defined.

(** A key of 70,000 characters. *)
Definition long_key : string :=
  Nat.iter (Z.to_nat 70000) (fun s => String "k" s) EmptyString.

Definition refusing : UserDataApplier unit := {|
  user_insert s _ _ _ _ _ := (Err (Provider long_key), s);
  user_update s _ _ _ _ _ := (Ok 1, s);
  user_delete s _ _ _ _ := (Ok 1, s);
  user_apply_transaction_batch s _ _ _ := (Err Shutdown, s)
|}.

Lemma long_key_length : 65535 < str_len (raft_error_text (Provider long_key)).
Proof. vm_compute. reflexivity. Qed.

Lemma long_error_stops_group_witness :
  exists m', user_apply (MetaCommand := unit) to_ascii_lowercase 0 0
    (machine_new 0 (Some refusing) tt) tt 1 1 (insert_bytes 0) =
    (Err (Serialization "encode failed: packed field exceeds 65535 bytes"), m', tt) /\
    last_applied_index m' = 1.
Proof.
  apply (long_error_stops_group (MetaCommand := unit) to_ascii_lowercase 0 0
    (machine_new 0 (Some refusing) tt) tt tt 1 1 0 (insert_bytes 0) refusing None t0 "u1" []
    [[1; 2]] (Provider long_key) [65536]);
    first [exact long_key_length|reflexivity|vm_compute; reflexivity|vm_compute; discriminate].
Defined.

End RaftDataWitness.
