(* ===== verification/Storage.v ===== *)
(** * Storage: the key-value backend and coalesced writes

    kalamdb-store/src/storage_trait.rs (the trait [StorageBackend]), write_coalesce.rs (the
    task-scoped write buffer every backend consults), test_utils.rs ([InMemoryBackend]), persist.rs
    and kalamdb-serialization/src/object/generic.rs (the object codec).

    The trait is the class [StorageBackend]; what its documentation promises is [BackendLaws], in
    terms of a view of the partitions as functions from keys to values.  RocksDB, the production
    backend, is third-party code behind the trait; the in-memory backend of the repository is an
    instance that keeps the laws. *)

From Stdlib Require Import ZArith Lia Sorting.Sorted.
From stdpp Require Import base strings gmap list.
From S2P Require Import Prelude Protocol.

Open Scope Z_scope.
Open Scope kalam_scope.

(** ** Byte strings in the order of [Vec<u8>] *)

Fixpoint bytes_leb (a b : list Z) : bool :=
  match a, b with
  | [], _ => true
  | _ :: _, [] => false
  | x :: a', y :: b' => if x <? y then true else if x =? y then bytes_leb a' b' else false
  end.

Fixpoint starts_with (l pre : list Z) {struct pre} : bool :=
  match pre, l with
  | [], _ => true
  | p :: pre', x :: l' => (p =? x) && starts_with l' pre'
  | _ :: _, [] => false
  end.

(** ** The trait *)

Inductive StorageError :=
| PartitionNotFound (m : string)
| IoError (m : string)
| StoreSerialization (m : string)
| StoreUnsupported (m : string)
| UniqueConstraintViolation (m : string)
| LockPoisoned (m : string)
| StoreOther (m : string).

Abbreviation StoreResult := (Result StorageError).

Abbreviation PartitionName := string.
Abbreviation Bytes := (list Z).

Inductive Operation :=
| Put (partition : PartitionName) (key value : Bytes)
| DeleteKey (partition : PartitionName) (key : Bytes).

Class StorageBackend (D : Type) := {
  backend_get : D -> PartitionName -> Bytes -> StoreResult (option Bytes);
  backend_put : D -> PartitionName -> Bytes -> Bytes -> StoreResult unit * D;
  backend_delete : D -> PartitionName -> Bytes -> StoreResult unit * D;
  backend_batch : D -> list Operation -> StoreResult unit * D;
  backend_scan : D -> PartitionName -> option Bytes -> option Bytes -> option nat ->
    StoreResult (list (Bytes * Bytes))
}.

(** The keys and values of every partition. *)
Abbreviation View := (PartitionName -> Bytes -> option Bytes).

Definition view_put (v : View) (p : PartitionName) (k x : Bytes) : View :=
  fun p' k' => if decide (p' = p /\ k' = k) then Some x else v p' k'.
Definition view_delete (v : View) (p : PartitionName) (k : Bytes) : View :=
  fun p' k' => if decide (p' = p /\ k' = k) then None else v p' k'.
Definition view_op (v : View) (op : Operation) : View :=
  match op with Put p k x => view_put v p k x | DeleteKey p k => view_delete v p k end.

(** What a scan from [start] under [prefix] may return. *)
Definition in_scan (prefix start : option Bytes) (k : Bytes) : bool :=
  match prefix with Some p => starts_with k p | None => true end &&
  match start with Some s => bytes_leb s k | None => true end.

(** The documented behaviour: a failed write changes nothing, a batch is all or nothing, a scan
    returns the matching keys in ascending order. *)
Class BackendLaws (D : Type) `{StorageBackend D} := {
  backend_view : D -> View;
  backend_get_law : forall d p k r, backend_get d p k = Ok r -> r = backend_view d p k;
  backend_put_law : forall d p k x r d', backend_put d p k x = (r, d') ->
    forall p' k', backend_view d' p' k' =
      (if is_ok r then view_put (backend_view d) p k x else backend_view d) p' k';
  backend_delete_law : forall d p k r d', backend_delete d p k = (r, d') ->
    forall p' k', backend_view d' p' k' =
      (if is_ok r then view_delete (backend_view d) p k else backend_view d) p' k';
  backend_batch_law : forall d ops r d', backend_batch d ops = (r, d') ->
    forall p' k', backend_view d' p' k' =
      (if is_ok r then foldl view_op (backend_view d) ops else backend_view d) p' k';
  backend_scan_law : forall d p prefix start l,
    match prefix, start with Some a, Some b => bytes_leb a b = true | _, _ => True end ->
    backend_scan d p prefix start None = Ok l ->
    StronglySorted (fun a b => bytes_leb a b = true) l.*1 /\ NoDup l.*1 /\
    forall k x, (k, x) ∈ l <-> backend_view d p k = Some x /\ in_scan prefix start k = true
}.

(** ** Coalesced writes

    A task may open a session ([with_write_coalesce]); the writes of the task are then collected
    instead of written, and reads do not see them.  [Hook] is what [defer_after_persist] defers;
    [db_ran] lists the hooks that have run. *)
Record Db (D Hook : Type) := mkDb {
  db_backend : D;
  db_session : option (list Operation * list Hook);
  db_ran : list Hook
}.
Arguments mkDb {D Hook}.
Arguments db_backend {D Hook}.
Arguments db_session {D Hook}.
Arguments db_ran {D Hook}.

Section Coalesce.
Context {D Hook : Type} `{StorageBackend D}.
Abbreviation Database := (Db D Hook).

Definition set_backend (db : Database) (d : D) : Database :=
  mkDb d (db_session db) (db_ran db).

(** [buffer_operations]: [None] when the session took them. *)
Definition buffer_operations (db : Database) (ops : list Operation) : option Database :=
  match db_session db with
  | Some (pending, hooks) => Some (mkDb (db_backend db) (Some (pending ++ ops, hooks)) (db_ran db))
  | None => None
  end.

Definition db_get (db : Database) (p : PartitionName) (k : Bytes) : StoreResult (option Bytes) :=
  backend_get (db_backend db) p k.

Definition db_scan (db : Database) (p : PartitionName) (prefix start : option Bytes)
    (limit : option nat) : StoreResult (list (Bytes * Bytes)) :=
  backend_scan (db_backend db) p prefix start limit.

Definition db_put (db : Database) (p : PartitionName) (k x : Bytes) : StoreResult unit * Database :=
  match buffer_operations db [Put p k x] with
  | Some db' => (Ok tt, db')
  | None => let '(r, d) := backend_put (db_backend db) p k x in (r, set_backend db d)
  end.

Definition db_delete (db : Database) (p : PartitionName) (k : Bytes) : StoreResult unit * Database :=
  match buffer_operations db [DeleteKey p k] with
  | Some db' => (Ok tt, db')
  | None => let '(r, d) := backend_delete (db_backend db) p k in (r, set_backend db d)
  end.

Definition db_batch (db : Database) (ops : list Operation) : StoreResult unit * Database :=
  match buffer_operations db ops with
  | Some db' => (Ok tt, db')
  | None => let '(r, d) := backend_batch (db_backend db) ops in (r, set_backend db d)
  end.

Definition defer_after_persist (db : Database) (hook : Hook) : Database :=
  match db_session db with
  | Some (pending, hooks) => mkDb (db_backend db) (Some (pending, hooks ++ [hook])) (db_ran db)
  | None => mkDb (db_backend db) None (db_ran db ++ [hook])
  end.

(** [with_write_coalesce fut]: the output of the task, what it buffered, and the database with
    the session closed.  Sessions do not nest in the code that uses them; an inner one would be
    keyed by its own number. *)
Definition with_write_coalesce {T S : Type} (db : Database)
    (fut : Database -> T * S * Database) : T * S * (list Operation * list Hook) * Database :=
  let '(value, s, db') := fut (mkDb (db_backend db) (Some ([], [])) (db_ran db)) in
  (value, s, default ([], []) (db_session db'),
   mkDb (db_backend db') (db_session db) (db_ran db')).

End Coalesce.

(** ** The in-memory backend *)

(** [HashMap<String, BTreeMap<Vec<u8>, Vec<u8>>>]. *)
Record InMemoryBackend := mkMemory { memory_data : gmap string (gmap Bytes Bytes) }.

Definition memory_new : InMemoryBackend := mkMemory ∅.

Definition memory_get (m : InMemoryBackend) (p : PartitionName) (k : Bytes) :
    StoreResult (option Bytes) :=
  Ok (match memory_data m !! p with Some map => map !! k | None => None end).

Definition memory_put (m : InMemoryBackend) (p : PartitionName) (k x : Bytes) :
    StoreResult unit * InMemoryBackend :=
  (Ok tt, mkMemory (<[p := <[k := x]> (default ∅ (memory_data m !! p))]> (memory_data m))).

Definition memory_delete (m : InMemoryBackend) (p : PartitionName) (k : Bytes) :
    StoreResult unit * InMemoryBackend :=
  (Ok tt,
   match memory_data m !! p with
   | Some map => mkMemory (<[p := delete k map]> (memory_data m))
   | None => m
   end).

(** The loop of [batch]; the puts and deletes it calls run outside a session. *)
Fixpoint memory_batch (m : InMemoryBackend) (ops : list Operation) :
    StoreResult unit * InMemoryBackend :=
  match ops with
  | [] => (Ok tt, m)
  | op :: rest =>
      let '(r, m') :=
        match op with
        | Put p k x => memory_put m p k x
        | DeleteKey p k => memory_delete m p k
        end in
      match r with Ok _ => memory_batch m' rest | Err e => (Err e, m') end
  end.

(** [BTreeMap<Vec<u8>, _>::iter]. *)
Definition bytes_entries (m : gmap Bytes Bytes) : list (Bytes * Bytes) :=
  sort_by (fun a b => bytes_leb a.1 b.1) (map_to_list m).

Definition start_bound (prefix start : option Bytes) : option Bytes :=
  match prefix, start with
  | Some p, Some s => if bytes_leb p s then Some s else Some p
  | Some p, None => Some p
  | None, Some s => Some s
  | None, None => None
  end.

(** The loop of [scan]: stop at the first key outside the prefix, or at the limit. *)
Fixpoint scan_items (prefix : option Bytes) (limit : option nat) (l : list (Bytes * Bytes)) :
    list (Bytes * Bytes) :=
  match l with
  | [] => []
  | (k, x) :: rest =>
      if match prefix with Some p => starts_with k p | None => true end then
        match limit with
        | None => (k, x) :: scan_items prefix None rest
        | Some (S (S n)) => (k, x) :: scan_items prefix (Some (S n)) rest
        | Some _ => [(k, x)]
        end
      else []
  end.

Definition memory_scan (m : InMemoryBackend) (p : PartitionName) (prefix start : option Bytes)
    (limit : option nat) : StoreResult (list (Bytes * Bytes)) :=
  Ok (match memory_data m !! p with
      | None => []
      | Some map =>
          match limit with
          | Some O => []
          | _ =>
              scan_items prefix limit
                (match start_bound prefix start with
                 | Some s => filter (fun e => bytes_leb s e.1) (bytes_entries map)
                 | None => bytes_entries map
                 end)
          end
      end).

#[export] Instance memory_backend : StorageBackend InMemoryBackend := {|
  backend_get := memory_get;
  backend_put := memory_put;
  backend_delete := memory_delete;
  backend_batch := memory_batch;
  backend_scan := memory_scan
|}.

(** ** Stored objects *)

Definition GENERIC_SCHEMA_VERSION : Z := 1.

Section Objects.
Context {T : Type} `{Serde T}.

Definition encode_object (value : T) : SerResult Bytes :=
  let? payload := flexbuffers_to_vec value in
  encode_envelope Generic GENERIC_SCHEMA_VERSION payload.

Definition decode_object (bytes : Bytes) : SerResult T :=
  let? (_, payload) := decode_envelope bytes Generic in
  flexbuffers_from_slice payload.

Definition store_error (e : SerializationError) : StorageError :=
  StoreSerialization "object serialization".

Definition encode_entity (entity : T) : StoreResult Bytes := map_err store_error (encode_object entity).
Definition decode_entity (bytes : Bytes) : StoreResult T := map_err store_error (decode_object bytes).

End Objects.

(** ** The order of byte strings *)

Lemma bytes_leb_refl a : bytes_leb a a = true.
Proof. induction a as [|x a IH]; cbn; [done|]. by rewrite Z.ltb_irrefl, Z.eqb_refl. Qed.

Lemma bytes_leb_cons x a y b :
  bytes_leb (x :: a) (y :: b) = true <-> x < y \/ x = y /\ bytes_leb a b = true.
Proof.
  cbn. destruct (Z.ltb_spec x y); [naive_solver|]. destruct (Z.eqb_spec x y); [subst|];
    (split; [|naive_solver lia]); naive_solver lia.
Qed.

Lemma bytes_leb_total a b : bytes_leb a b = false -> bytes_leb b a = true.
Proof.
  revert b. induction a as [|x a IH]; intros [|y b]; [done..|]. intros Hf. apply bytes_leb_cons.
  cbn in Hf. destruct (Z.ltb_spec x y); [done|]. destruct (Z.eqb_spec x y); [|left; lia].
  right. split; [done|]. by apply IH.
Qed.

Lemma bytes_leb_trans a b c : bytes_leb a b = true -> bytes_leb b c = true -> bytes_leb a c = true.
Proof.
  revert b c. induction a as [|x a IH]; intros [|y b] [|z c]; [done..|].
  rewrite !bytes_leb_cons. intros [H1|[-> H1]] [H2|[-> H2]]; [left; lia|left; lia|left; lia|].
  right. split; [done|]. by eapply IH.
Qed.

Lemma bytes_leb_antisymm a b : bytes_leb a b = true -> bytes_leb b a = true -> a = b.
Proof.
  revert b. induction a as [|x a IH]; intros [|y b]; [done..|].
  rewrite !bytes_leb_cons. intros [H1|[-> H1]] [H2|[H2 H3]]; [lia..|]. f_equal. by apply IH.
Qed.

Lemma bytes_leb_app_l p a b : bytes_leb (p ++ a) (p ++ b) = bytes_leb a b.
Proof. induction p as [|x p IH]; cbn; [done|]. by rewrite Z.ltb_irrefl, Z.eqb_refl. Qed.

Lemma starts_with_spec l pre : starts_with l pre = true <-> exists rest, l = pre ++ rest.
Proof.
  revert l. induction pre as [|p pre IH]; intros l; cbn.
  - split; [intros _; by exists l|done].
  - destruct l as [|x l]; cbn.
    + split; [done|]. by intros [? ?].
    + rewrite andb_true_iff, Z.eqb_eq, IH. split.
      * intros [-> [rest ->]]. by exists rest.
      * intros [rest [= -> ->]]. eauto.
Qed.

Lemma bytes_leb_prefix p a : bytes_leb p (p ++ a) = true.
Proof. rewrite <-(app_nil_r p) at 1. by rewrite bytes_leb_app_l. Qed.

(** The keys with a prefix are an interval of the order. *)
Lemma prefix_interval p a b :
  bytes_leb p a = true -> bytes_leb a b = true -> starts_with b p = true -> starts_with a p = true.
Proof.
  revert a b. induction p as [|x p IH]; intros a b; [done|].
  destruct a as [|y a]; [done|]. destruct b as [|z b]; [done|].
  rewrite !bytes_leb_cons. cbn [starts_with]. rewrite !andb_true_iff, !Z.eqb_eq.
  intros H1 H2 [-> H3]. destruct H1 as [H1|[H1 H1']], H2 as [H2|[H2 H2']]; try lia.
  split; [done|]. by eapply IH.
Qed.

(** ** The in-memory backend keeps the laws *)

Definition memory_view (m : InMemoryBackend) : View :=
  fun p k => match memory_data m !! p with Some map => map !! k | None => None end.

Lemma memory_put_view m p k x p' k' :
  memory_view (memory_put m p k x).2 p' k' = view_put (memory_view m) p k x p' k'.
Proof.
  unfold memory_view, view_put. cbn. destruct (decide (p' = p)) as [->|Hp].
  - rewrite lookup_insert_eq. destruct (decide (k' = k)) as [->|Hk].
    + by rewrite lookup_insert_eq, decide_True.
    + rewrite lookup_insert_ne, decide_False by naive_solver. by destruct (memory_data m !! p).
  - by rewrite lookup_insert_ne, decide_False by naive_solver.
Qed.

Lemma memory_delete_view m p k p' k' :
  memory_view (memory_delete m p k).2 p' k' = view_delete (memory_view m) p k p' k'.
Proof.
  unfold memory_view, view_delete, memory_delete. cbn.
  destruct (memory_data m !! p) as [map|] eqn:E; cbn.
  - destruct (decide (p' = p)) as [->|Hp].
    + rewrite lookup_insert_eq, E. destruct (decide (k' = k)) as [->|Hk].
      * by rewrite lookup_delete_eq, decide_True.
      * by rewrite lookup_delete_ne, decide_False by naive_solver.
    + by rewrite lookup_insert_ne, decide_False by naive_solver.
  - case_decide as Hd; [|done]. destruct Hd as [-> ->]. by rewrite E.
Qed.

Lemma view_op_ext v v' op : (forall p k, v p k = v' p k) -> forall p k, view_op v op p k = view_op v' op p k.
Proof. intros Hv p k. destruct op; cbn; unfold view_put, view_delete; case_decide; done. Qed.

Lemma view_ops_ext ops v v' :
  (forall p k, v p k = v' p k) -> forall p k, foldl view_op v ops p k = foldl view_op v' ops p k.
Proof. revert v v'. induction ops as [|op ops IH]; intros v v' Hv; [done|]. by apply IH, view_op_ext. Qed.

Lemma memory_batch_view ops m :
  (memory_batch m ops).1 = Ok tt /\
  forall p k, memory_view (memory_batch m ops).2 p k = foldl view_op (memory_view m) ops p k.
Proof.
  revert m. induction ops as [|op ops IH]; intros m; [done|]. cbn [memory_batch foldl].
  destruct op as [p k x|p k].
  - destruct (IH (memory_put m p k x).2) as [Hok Hv]. split; [done|]. intros p' k'.
    cbn in Hv |- *. rewrite Hv. apply view_ops_ext. apply (memory_put_view m p k x).
  - destruct (IH (memory_delete m p k).2) as [Hok Hv]. split; [done|]. intros p' k'.
    cbn in Hv |- *. rewrite Hv. apply view_ops_ext. apply (memory_delete_view m p k).
Qed.

Lemma scan_items_prefix p l :
  StronglySorted (fun a b => bytes_leb a b = true) l.*1 ->
  Forall (fun e => bytes_leb p e.1 = true) l ->
  scan_items (Some p) None l = filter (fun e => starts_with e.1 p) l.
Proof.
  induction l as [|[k x] l IH]; [done|]. rewrite fmap_cons. intros [Hs Hk]%StronglySorted_inv.
  intros [Hp Hl]%Forall_cons. cbn [fst] in *. cbn [scan_items].
  destruct (starts_with k p) eqn:E.
  - rewrite filter_cons_True by (by apply Is_true_true). f_equal. by apply IH.
  - rewrite filter_cons_False by (rewrite Is_true_true; cbn [fst]; congruence). symmetry. apply filter_none.
    intros [k' x'] Hin Hst. apply Is_true_true in Hst. cbn in Hst.
    rewrite Forall_forall in Hk. specialize (Hk k'). rewrite (prefix_interval p k k') in E; try done.
    apply Hk. apply list_elem_of_fmap. by exists (k', x').
Qed.

Lemma scan_items_all l : scan_items None None l = l.
Proof. induction l as [|[k x] l IH]; [done|]. cbn. by rewrite IH. Qed.

Lemma bytes_entries_spec m :
  StronglySorted (fun a b => bytes_leb a b = true) (bytes_entries m).*1 /\
  NoDup (bytes_entries m).*1 /\
  forall k x, (k, x) ∈ bytes_entries m <-> m !! k = Some x.
Proof.
  assert (bytes_entries m ≡ₚ map_to_list m) as Hperm by apply sort_by_perm.
  split_and!.
  - assert (StronglySorted (fun a b => bytes_leb a.1 b.1 = true) (bytes_entries m)) as Hs.
    { apply sort_by_sorted; intros *; [apply bytes_leb_total|apply bytes_leb_trans]. }
    clear Hperm. induction Hs as [|e l _ IH Hf]; [constructor|]. cbn. constructor; [done|].
    apply Forall_fmap. exact Hf.
  - rewrite (fmap_Permutation fst _ _ Hperm). apply NoDup_fst_map_to_list.
  - intros k x. by rewrite Hperm, elem_of_map_to_list.
Qed.

Lemma StronglySorted_fmap_filter {A B} (R : B -> B -> Prop) (f : A -> B) (P : A -> Prop)
    `{forall x, Decision (P x)} (l : list A) :
  StronglySorted R (f <$> l) -> StronglySorted R (f <$> filter P l).
Proof.
  induction l as [|x l IH]; [done|]. rewrite fmap_cons. intros [Hs Hf]%StronglySorted_inv.
  rewrite filter_cons. case_decide; [|by apply IH]. rewrite fmap_cons. constructor; [by apply IH|].
  rewrite Forall_fmap, Forall_forall in *. intros y [_ Hy]%list_elem_of_filter. by apply Hf.
Qed.

Lemma NoDup_fmap_filter {A B} (f : A -> B) (P : A -> Prop) `{forall x, Decision (P x)} (l : list A) :
  NoDup (f <$> l) -> NoDup (f <$> filter P l).
Proof.
  intros Hn. eapply sublist_NoDup; [exact Hn|]. apply fmap_sublist, sublist_filter.
Qed.

Lemma memory_scan_spec m p prefix start l :
  match prefix, start with Some a, Some b => bytes_leb a b = true | _, _ => True end ->
  memory_scan m p prefix start None = Ok l ->
  StronglySorted (fun a b => bytes_leb a b = true) l.*1 /\ NoDup l.*1 /\
  forall k x, (k, x) ∈ l <-> memory_view m p k = Some x /\ in_scan prefix start k = true.
Proof.
  intros Hps <-%Ok_inj. unfold memory_view.
  destruct (memory_data m !! p) as [map|]; cbn.
  2:{ split_and!; [constructor|constructor|]. intros k x. split; [by intros ?%not_elem_of_nil|]. by intros []. }
  destruct (bytes_entries_spec map) as (Hs & Hn & He).
  set (from := match start_bound prefix start with
               | Some s => filter (fun e => bytes_leb s e.1) (bytes_entries map)
               | None => bytes_entries map
               end).
  assert (StronglySorted (fun a b => bytes_leb a b = true) from.*1 /\ NoDup from.*1 /\
    forall k x, (k, x) ∈ from <-> map !! k = Some x /\
      match start_bound prefix start with Some s => bytes_leb s k = true | None => True end)
    as (Hfs & Hfn & Hfe).
  { unfold from. destruct (start_bound prefix start) as [s|]; [|naive_solver].
    split_and!; [by apply StronglySorted_fmap_filter|by apply NoDup_fmap_filter|].
    intros k x. rewrite list_elem_of_filter, He, Is_true_true. cbn. naive_solver. }
  destruct prefix as [pre|].
  - rewrite scan_items_prefix; [|done|].
    + split_and!; [by apply StronglySorted_fmap_filter|by apply NoDup_fmap_filter|].
      intros k x. rewrite list_elem_of_filter, Hfe, Is_true_true. unfold in_scan. cbn.
      destruct start as [s|]; cbn [start_bound].
      * rewrite Hps, andb_true_iff. naive_solver.
      * rewrite andb_true_r. split; [naive_solver|]. intros [Hk Hst]. split_and!; [done..|].
        apply starts_with_spec in Hst as [rest ->]. apply bytes_leb_prefix.
    + apply Forall_forall. intros [k x] [_ Hk]%Hfe. cbn [fst].
      destruct start as [s|]; cbn [start_bound] in Hk; [|done]. rewrite Hps in Hk.
      by eapply bytes_leb_trans.
  - rewrite scan_items_all. split_and!; [done..|]. intros k x. rewrite Hfe. unfold in_scan.
    destruct start as [s|]; cbn [start_bound]; naive_solver.
Qed.

#[export] Instance memory_backend_laws : BackendLaws InMemoryBackend.
Proof.
  refine {| backend_view := memory_view |}.
  - by intros d p k r <-%Ok_inj.
  - intros d p k x r d' [= <- <-] p' k'. apply memory_put_view.
  - intros d p k r d' [= <- <-] p' k'. apply (memory_delete_view d p k).
  - intros d ops r d' Hb p' k'. destruct (memory_batch_view ops d) as [Hok Hv].
    cbn in Hb. rewrite Hb in Hok, Hv. cbn in Hok, Hv. by subst r.
  - intros d p prefix start l. apply memory_scan_spec.
Defined.

(** ** Objects *)

Lemma decode_encoded_object {T} `{SerdeLaws T} (v : T) bytes :
  encode_object v = Ok bytes -> decode_object bytes = Ok v.
Proof.
  intros (payload & Hp & He)%result_bind_ok. unfold decode_object.
  apply encode_envelope_bytes in He as [Hlen ->].
  rewrite decode_envelope_of; [|repeat split; (done || (unfold GENERIC_SCHEMA_VERSION, u16_max; lia))|done].
  cbn [result_bind]. by apply flexbuffers_law.
Qed.

Lemma decode_encoded_entity {T} `{SerdeLaws T} (v : T) bytes :
  encode_entity v = Ok bytes -> decode_entity bytes = Ok v.
Proof. intros He%map_err_ok. by apply map_err_ok, decode_encoded_object. Qed.
