(* ===== verification/RaftLog.v ===== *)
(** * RaftLog: the durable Raft log of one node

    kalamdb-store/src/raft_storage.rs: all Raft groups of a node keep their log, vote, progress
    and snapshot references in one partition, under keys that start with the group.  The store of
    a group is stateless but for its key prefix, so the operations take the group and the
    database.

    The abstract specification is a log and a few cells per group; the theorem at the end says the
    operations implement it, whatever the groups interleave. *)

From Stdlib Require Import ZArith Lia Sorting.Sorted.
From stdpp Require Import base strings gmap list sorting.
From S2P Require Import Prelude Sharding Protocol Storage RaftData.

Open Scope Z_scope.
Open Scope kalam_scope.

Definition RAFT_PARTITION_NAME : string := "raft_data".

(** ** Records *)

Record RaftLogEntry := mkLogEntry { le_index : Z; le_term : Z; le_payload : Bytes }.

Definition encode_record (e : RaftLogEntry) : Bytes :=
  encode_raft_log_record_parts (le_index e) (le_term e) (le_payload e).

Definition decode_record (bytes : Bytes) : StoreResult RaftLogEntry :=
  let? (index, term, payload) := map_err store_error (decode_raft_log_record bytes) in
  Ok (mkLogEntry index term payload).

Record RaftVote := mkRaftVote { rv_term : Z; rv_voted_for : option Z; rv_committed : bool }.

Record RaftLogId := mkRaftLogId { rl_term : Z; rl_index : Z }.

Definition encode_packed (id : RaftLogId) : Bytes := encode_packed_log_id (rl_term id) (rl_index id).

Definition decode_packed (bytes : Bytes) : StoreResult RaftLogId :=
  let? (term, index) := map_err store_error (decode_packed_log_id bytes) in
  Ok (mkRaftLogId term index).

Record RaftSnapshotMeta := mkRaftSnapshotMeta {
  rm_last_log_id : option RaftLogId;
  rm_snapshot_id : string;
  rm_size_bytes : Z
}.

Inductive RaftSnapshotData := FilePath (path : string).

(** ** Keys *)

(** [append_padded_u64]: the slots are filled from the last one. *)
Fixpoint padded_digits (slots : nat) (value : Z) : Bytes :=
  match slots with
  | O => []
  | S n => padded_digits n (value / 10) ++ [48 + value mod 10]
  end.

Definition append_padded_u64 (buf : Bytes) (value : Z) : Bytes := buf ++ padded_digits 20 value.

Definition prefixed_key (prefix suffix : Bytes) : Bytes := prefix ++ suffix.

(** [RaftPartitionStore::new]. *)
Definition group_prefix (g : GroupId) : Bytes := bytes_of_string (key_prefix g) ++ [58].

Definition group_key (g : GroupId) (suffix : string) : Bytes :=
  prefixed_key (group_prefix g) (bytes_of_string suffix).

Definition log_key (g : GroupId) (index : Z) : Bytes :=
  append_padded_u64 (group_prefix g ++ bytes_of_string "log:") index.

Definition vote_key (g : GroupId) : Bytes := group_key g "meta:vote".
Definition commit_key (g : GroupId) : Bytes := group_key g "meta:commit".
Definition purge_key (g : GroupId) : Bytes := group_key g "meta:purge".
Definition snap_meta_key (g : GroupId) : Bytes := group_key g "snap:meta".
Definition snap_data_key (g : GroupId) : Bytes := group_key g "snap:data".
Definition last_applied_key (g : GroupId) : Bytes := group_key g "meta:last_applied".
Definition last_membership_key (g : GroupId) : Bytes := group_key g "meta:membership".

(** What follows and what precedes the last occurrence of [c]. *)
Fixpoint rsplit_once (c : Z) (l : Bytes) : option (Bytes * Bytes) :=
  match l with
  | [] => None
  | x :: rest =>
      match rsplit_once c rest with
      | Some (before, after) => Some (x :: before, after)
      | None => if x =? c then Some ([], rest) else None
      end
  end.

(** [rsplitn(3, ':')], its first two items, and [str::parse]. *)
Definition parse_log_index_from_key (key : Bytes) : option Z :=
  if utf8_valid key then
    match rsplit_once 58 key with
    | None => None
    | Some (rest, index) =>
        let marker := match rsplit_once 58 rest with Some (_, m) => m | None => rest end in
        if decide (marker = bytes_of_string "log") then parse_unsigned u64_max index else None
    end
  else None.

(** ** The store of a group *)

Section Store.
Context {D Hook : Type} `{StorageBackend D}.
Context `{!Serde RaftVote, !Serde RaftSnapshotMeta, !Serde RaftSnapshotData}.
Abbreviation Database := (Db D Hook).

Definition raft_get (db : Database) (key : Bytes) : StoreResult (option Bytes) :=
  db_get db RAFT_PARTITION_NAME key.
Definition raft_put (db : Database) (key value : Bytes) : StoreResult unit * Database :=
  db_put db RAFT_PARTITION_NAME key value.

Definition put_log_id (db : Database) (key : Bytes) (id : option RaftLogId) :
    StoreResult unit * Database :=
  match id with
  | Some id => raft_put db key (encode_packed id)
  | None => db_delete db RAFT_PARTITION_NAME key
  end.

Definition read_log_id (db : Database) (key : Bytes) : StoreResult (option RaftLogId) :=
  let? found := raft_get db key in
  match found with
  | Some bytes => let? id := decode_packed bytes in Ok (Some id)
  | None => Ok None
  end.

Definition append_encoded_with (g : GroupId) (db : Database) (records : list (Z * Bytes))
    (last_applied : option RaftLogId) : StoreResult unit * Database :=
  match records, last_applied with
  | [], None => (Ok tt, db)
  | _, _ =>
      db_batch db
        (((fun r => Put RAFT_PARTITION_NAME (log_key g r.1) r.2) <$> records) ++
         match last_applied with
         | Some id => [Put RAFT_PARTITION_NAME (last_applied_key g) (encode_packed id)]
         | None => []
         end)
  end.

Definition append_encoded (g : GroupId) (db : Database) (records : list (Z * Bytes)) :
    StoreResult unit * Database :=
  append_encoded_with g db records None.

Definition append_logs (g : GroupId) (db : Database) (entries : list RaftLogEntry) :
    StoreResult unit * Database :=
  match entries with
  | [] => (Ok tt, db)
  | _ => append_encoded g db ((fun e => (le_index e, encode_record e)) <$> entries)
  end.

Definition get_log (g : GroupId) (db : Database) (index : Z) : StoreResult (option RaftLogEntry) :=
  let? found := raft_get db (log_key g index) in
  match found with
  | Some bytes => let? e := decode_record bytes in Ok (Some e)
  | None => Ok None
  end.

(** The loop of [scan_logs]. *)
Fixpoint scan_loop (end_ : Z) (items : list (Bytes * Bytes)) : StoreResult (list RaftLogEntry) :=
  match items with
  | [] => Ok []
  | (key, value) :: rest =>
      match parse_log_index_from_key key with
      | None => scan_loop end_ rest
      | Some index =>
          if end_ <=? index then Ok []
          else
            let? e := decode_record value in
            let? es := scan_loop end_ rest in
            Ok (e :: es)
      end
  end.

Definition scan_logs (g : GroupId) (db : Database) (start end_ : Z) :
    StoreResult (list RaftLogEntry) :=
  if end_ <=? start then Ok []
  else
    let? items := db_scan db RAFT_PARTITION_NAME (Some (group_key g "log:"))
                    (Some (log_key g start)) None in
    scan_loop end_ items.

(** The [filter_map] of [delete_logs_before]. *)
Definition delete_below (before_index : Z) (e : Bytes * Bytes) : option Operation :=
  match parse_log_index_from_key e.1 with
  | Some index =>
      if index <? before_index then Some (DeleteKey RAFT_PARTITION_NAME e.1) else None
  | None => None
  end.

Definition delete_logs_before (g : GroupId) (db : Database) (before_index : Z) :
    StoreResult unit * Database :=
  if before_index =? 0 then (Ok tt, db)
  else
    match db_scan db RAFT_PARTITION_NAME (Some (group_key g "log:")) None None with
    | Err e => (Err e, db)
    | Ok items =>
        match omap (delete_below before_index) items with
        | [] => (Ok tt, db)
        | ops => db_batch db ops
        end
    end.

Definition delete_parsed (e : Bytes * Bytes) : option Operation :=
  match parse_log_index_from_key e.1 with
  | Some _ => Some (DeleteKey RAFT_PARTITION_NAME e.1)
  | None => None
  end.

Definition delete_logs_from (g : GroupId) (db : Database) (from_index : Z) :
    StoreResult unit * Database :=
  match db_scan db RAFT_PARTITION_NAME (Some (group_key g "log:")) (Some (log_key g from_index)) None with
  | Err e => (Err e, db)
  | Ok items =>
      match omap delete_parsed items with
      | [] => (Ok tt, db)
      | ops => db_batch db ops
      end
  end.

(** The loop of [last_log_index]: the last key that parses. *)
Definition last_log_index (g : GroupId) (db : Database) : StoreResult (option Z) :=
  let? items := db_scan db RAFT_PARTITION_NAME (Some (group_key g "log:")) None None in
  Ok (foldl (fun last e => match parse_log_index_from_key e.1 with
                           | Some index => Some index
                           | None => last
                           end) None items).

(** An object under a key. *)
Definition save_entity {T} `{Serde T} (db : Database) (key : Bytes) (value : T) :
    StoreResult unit * Database :=
  match encode_entity value with
  | Err e => (Err e, db)
  | Ok bytes => raft_put db key bytes
  end.

Definition read_entity {T} `{Serde T} (db : Database) (key : Bytes) : StoreResult (option T) :=
  let? found := raft_get db key in
  match found with
  | Some bytes => let? v := decode_entity bytes in Ok (Some v)
  | None => Ok None
  end.

Definition save_vote (g : GroupId) (db : Database) (vote : RaftVote) := save_entity db (vote_key g) vote.
Definition read_vote (g : GroupId) (db : Database) : StoreResult (option RaftVote) :=
  read_entity db (vote_key g).

Definition save_commit (g : GroupId) (db : Database) (commit : option RaftLogId) :=
  put_log_id db (commit_key g) commit.
Definition read_commit (g : GroupId) (db : Database) := read_log_id db (commit_key g).
Definition save_purge (g : GroupId) (db : Database) (purge : option RaftLogId) :=
  put_log_id db (purge_key g) purge.
Definition read_purge (g : GroupId) (db : Database) := read_log_id db (purge_key g).
Definition save_last_applied (g : GroupId) (db : Database) (last_applied : option RaftLogId) :=
  put_log_id db (last_applied_key g) last_applied.
Definition read_last_applied (g : GroupId) (db : Database) := read_log_id db (last_applied_key g).

Definition save_last_membership (g : GroupId) (db : Database) (membership : Bytes) :=
  raft_put db (last_membership_key g) membership.
Definition read_last_membership (g : GroupId) (db : Database) : StoreResult (option Bytes) :=
  raft_get db (last_membership_key g).

Definition save_snapshot_meta (g : GroupId) (db : Database) (meta : RaftSnapshotMeta) :=
  save_entity db (snap_meta_key g) meta.
Definition read_snapshot_meta (g : GroupId) (db : Database) : StoreResult (option RaftSnapshotMeta) :=
  read_entity db (snap_meta_key g).
Definition save_snapshot_data (g : GroupId) (db : Database) (data : RaftSnapshotData) :=
  save_entity db (snap_data_key g) data.
Definition read_snapshot_data (g : GroupId) (db : Database) : StoreResult (option RaftSnapshotData) :=
  read_entity db (snap_data_key g).

End Store.

(** ** Keys *)

Lemma padded_digits_spec n v :
  0 <= v < 10 ^ Z.of_nat n ->
  Forall (fun b => is_ascii_digit b = true) (padded_digits n v) /\
  length (padded_digits n v) = n /\ dec_value 0 (padded_digits n v) = v.
Proof.
  revert v. induction n as [|n IH]; intros v Hv; cbn [padded_digits].
  { cbn in Hv. split_and!; [constructor|done|unfold dec_value; cbn; lia]. }
  rewrite Nat2Z.inj_succ, Z.pow_succ_r in Hv by lia.
  pose proof (Z.mod_pos_bound v 10 ltac:(lia)) as Hm. pose proof (Z.div_mod v 10 ltac:(lia)) as Hd.
  destruct (IH (v / 10)) as (Hf & Hl & Hval).
  { split; [apply Z.div_pos; lia|]. apply Z.div_lt_upper_bound; lia. }
  split_and!.
  - apply Forall_app. split; [done|]. constructor; [|constructor].
    unfold is_ascii_digit. apply andb_true_iff. lia.
  - rewrite length_app, Hl. cbn. lia.
  - rewrite dec_value_app, Hval. unfold dec_value. cbn [foldl]. lia.
Qed.

Lemma bytes_leb_snoc a b x y :
  length a = length b ->
  bytes_leb (a ++ [x]) (b ++ [y]) = if decide (a = b) then x <=? y else bytes_leb a b.
Proof.
  revert b. induction a as [|u a IH]; intros [|w b]; try done; intros Hl.
  - cbn. destruct (Z.ltb_spec x y), (Z.leb_spec x y), (Z.eqb_spec x y); (done || lia).
  - injection Hl as Hl. cbn [app bytes_leb]. destruct (Z.ltb_spec u w).
    { rewrite decide_False; [done|]. intros [= -> ->]. lia. }
    destruct (Z.eqb_spec u w) as [->|Hne]; [|rewrite decide_False; [done|by intros [= ? ?]]].
    rewrite IH by done. destruct (decide (a = b)) as [->|Hab]; [by rewrite decide_True|].
    rewrite decide_False; [done|]. by intros [= ->].
Qed.

Lemma padded_digits_inj n v w :
  0 <= v < 10 ^ Z.of_nat n -> 0 <= w < 10 ^ Z.of_nat n ->
  padded_digits n v = padded_digits n w -> v = w.
Proof.
  intros Hv Hw E. destruct (padded_digits_spec n v Hv) as (_ & _ & <-).
  destruct (padded_digits_spec n w Hw) as (_ & _ & <-). by rewrite E.
Qed.

(** The padding makes the order of the keys that of the indices. *)
Lemma padded_digits_order n v w :
  0 <= v < 10 ^ Z.of_nat n -> 0 <= w < 10 ^ Z.of_nat n ->
  bytes_leb (padded_digits n v) (padded_digits n w) = (v <=? w).
Proof.
  revert v w. induction n as [|n IH]; intros v w Hv Hw; cbn [padded_digits].
  { cbn in Hv, Hw. symmetry. apply Z.leb_le. lia. }
  rewrite Nat2Z.inj_succ, Z.pow_succ_r in Hv, Hw by lia.
  assert (0 <= v / 10 < 10 ^ Z.of_nat n) as Hv'
    by (split; [apply Z.div_pos; lia|apply Z.div_lt_upper_bound; lia]).
  assert (0 <= w / 10 < 10 ^ Z.of_nat n) as Hw'
    by (split; [apply Z.div_pos; lia|apply Z.div_lt_upper_bound; lia]).
  pose proof (Z.div_mod v 10 ltac:(lia)). pose proof (Z.div_mod w 10 ltac:(lia)).
  pose proof (Z.mod_pos_bound v 10 ltac:(lia)). pose proof (Z.mod_pos_bound w 10 ltac:(lia)).
  rewrite bytes_leb_snoc, IH; [|done|done|].
  - destruct (decide (padded_digits n (v / 10) = padded_digits n (w / 10))) as [E|E].
    + apply padded_digits_inj in E; [|done|done].
      destruct (Z.leb_spec (48 + v mod 10) (48 + w mod 10)), (Z.leb_spec v w); (done || lia).
    + assert (v / 10 <> w / 10) by congruence.
      destruct (Z.leb_spec (v / 10) (w / 10)), (Z.leb_spec v w); (done || lia).
  - destruct (padded_digits_spec n _ Hv') as (_ & -> & _). by destruct (padded_digits_spec n _ Hw') as (_ & -> & _).
Qed.

Lemma u64_padded i : is_u64 i -> 0 <= i < 10 ^ Z.of_nat 20.
Proof. unfold is_u64, u64_max. intros Hi. split; [lia|]. eapply Z.le_lt_trans; [apply Hi|reflexivity]. Qed.

(** The suffix of a key. *)
Inductive RaftKey :=
| KLog (index : Z) | KVote | KCommit | KPurge | KApplied | KMembership | KSnapMeta | KSnapData.

Definition key_suffix (k : RaftKey) : Bytes :=
  match k with
  | KLog i => bytes_of_string "log:" ++ padded_digits 20 i
  | KVote => bytes_of_string "meta:vote"
  | KCommit => bytes_of_string "meta:commit"
  | KPurge => bytes_of_string "meta:purge"
  | KApplied => bytes_of_string "meta:last_applied"
  | KMembership => bytes_of_string "meta:membership"
  | KSnapMeta => bytes_of_string "snap:meta"
  | KSnapData => bytes_of_string "snap:data"
  end.

Definition raft_key (g : GroupId) (k : RaftKey) : Bytes := group_prefix g ++ key_suffix k.

Definition key_ok (k : RaftKey) : Prop := match k with KLog i => is_u64 i | _ => True end.

Lemma log_key_raft g i : log_key g i = raft_key g (KLog i).
Proof. unfold log_key, append_padded_u64, raft_key, key_suffix. by rewrite <-app_assoc. Qed.

Lemma key_suffix_log k : starts_with (key_suffix k) (bytes_of_string "log:") = true -> exists i, k = KLog i.
Proof. destruct k as [i| | | | | | |]; [by exists i|vm_compute; discriminate..]. Qed.

Lemma key_suffix_inj k k' : key_ok k -> key_ok k' -> key_suffix k = key_suffix k' -> k = k'.
Proof.
  intros Hk Hk' E. destruct k as [i| | | | | | |], k' as [j| | | | | | |]; try done;
    try discriminate E.
  apply app_inv_head, padded_digits_inj in E; [by f_equal|by apply u64_padded..].
Qed.

Lemma group_prefix_user n :
  0 <= n <= u32_max ->
  group_prefix (DataUserShard n) = [117; 58] ++ zero_padded 5 n ++ [58].
Proof.
  intros Hn. unfold group_prefix, key_prefix. rewrite bytes_of_string_app.
  rewrite bytes_string_bytes by (apply zero_padded_bytes; unfold u32_max, u64_max in *; lia).
  by rewrite <-app_assoc.
Qed.

Lemma group_prefix_shared n :
  0 <= n <= u32_max ->
  group_prefix (DataSharedShard n) = [115; 58] ++ zero_padded 5 n ++ [58].
Proof.
  intros Hn. unfold group_prefix, key_prefix. rewrite bytes_of_string_app.
  rewrite bytes_string_bytes by (apply zero_padded_bytes; unfold u32_max, u64_max in *; lia).
  by rewrite <-app_assoc.
Qed.

Lemma split_at_colon (a b : Bytes) x y :
  58 ∉ a -> 58 ∉ b -> a ++ 58 :: x = b ++ 58 :: y -> a = b /\ x = y.
Proof.
  revert b. induction a as [|u a IH]; intros [|w b] Ha Hb; cbn; intros E.
  - by injection E as ->.
  - injection E as <- _. exfalso. apply Hb. apply elem_of_cons. by left.
  - injection E as -> _. exfalso. apply Ha. apply elem_of_cons. by left.
  - injection E as -> E. rewrite not_elem_of_cons in Ha, Hb.
    apply IH in E as [-> ->]; [done|apply Ha|apply Hb].
Qed.

Lemma digits_no_colon l : Forall (fun b => is_ascii_digit b = true) l -> 58 ∉ l.
Proof. intros Hl Hin. rewrite Forall_forall in Hl. apply Hl in Hin. done. Qed.

Lemma zero_padded_split n m x y :
  0 <= n <= u32_max -> 0 <= m <= u32_max ->
  zero_padded 5 n ++ 58 :: x = zero_padded 5 m ++ 58 :: y -> n = m /\ x = y.
Proof.
  intros Hn Hm E. destruct (zero_padded_digits 5 n) as (Hd & Hv & _); [unfold u32_max, u64_max in *; lia|].
  destruct (zero_padded_digits 5 m) as (Hd' & Hv' & _); [unfold u32_max, u64_max in *; lia|].
  apply split_at_colon in E as [E ->]; [|by apply digits_no_colon..].
  split; [|done]. by rewrite <-Hv, E.
Qed.

Lemma group_prefix_meta : group_prefix Meta = [109; 101; 116; 97; 58].
Proof. reflexivity. Qed.

(** No group's keys are those of another. *)
Lemma group_prefix_inj g g' a b :
  group_ok g -> group_ok g' -> group_prefix g ++ a = group_prefix g' ++ b -> g = g' /\ a = b.
Proof.
  intros Hg Hg'. destruct g as [|n|n], g' as [|m|m]; cbn [group_ok] in Hg, Hg';
    rewrite ?group_prefix_meta, ?group_prefix_user, ?group_prefix_shared by done;
    rewrite <-?app_assoc; cbn [app]; intros E; try discriminate E.
  - by injection E as ->.
  - injection E as E. apply zero_padded_split in E as [-> ->]; done.
  - injection E as E. apply zero_padded_split in E as [-> ->]; done.
Qed.

Lemma raft_key_inj g g' k k' :
  group_ok g -> group_ok g' -> key_ok k -> key_ok k' ->
  raft_key g k = raft_key g' k' -> g = g' /\ k = k'.
Proof.
  intros Hg Hg' Hk Hk' [-> E]%group_prefix_inj; [|done..]. by apply key_suffix_inj in E as ->.
Qed.

Lemma rsplit_once_last c a b : c ∉ b -> rsplit_once c (a ++ c :: b) = Some (a, b).
Proof.
  intros Hb. induction a as [|x a IH]; cbn.
  - assert (rsplit_once c b = None) as ->; [|by rewrite Z.eqb_refl].
    induction b as [|y b IH]; [done|]. rewrite not_elem_of_cons in Hb. cbn. rewrite IH by apply Hb.
    rewrite (proj2 (Z.eqb_neq y c)); naive_solver.
  - by rewrite IH.
Qed.

Lemma utf8_ascii l : Forall (fun b => b < 128) l -> utf8_valid l = true.
Proof. induction 1 as [|b l Hb _ IH]; [done|]. cbn. by rewrite (proj2 (Z.ltb_lt _ _)). Qed.

Lemma group_prefix_ascii g : group_ok g -> Forall (fun b => b < 128) (group_prefix g).
Proof.
  intros Hg. destruct g as [|n|n].
  - vm_compute. repeat constructor.
  - rewrite group_prefix_user by done. repeat (apply Forall_cons; split; [lia|]).
    apply Forall_app. split; [|by repeat constructor].
    destruct (zero_padded_digits 5 n) as (Hd & _); [cbn in Hg; unfold u32_max, u64_max in *; lia|].
    eapply Forall_impl; [exact Hd|]. intros b Hb%digit_byte. lia.
  - rewrite group_prefix_shared by done. repeat (apply Forall_cons; split; [lia|]).
    apply Forall_app. split; [|by repeat constructor].
    destruct (zero_padded_digits 5 n) as (Hd & _); [cbn in Hg; unfold u32_max, u64_max in *; lia|].
    eapply Forall_impl; [exact Hd|]. intros b Hb%digit_byte. lia.
Qed.

Lemma parse_log_key g i : group_ok g -> is_u64 i -> parse_log_index_from_key (log_key g i) = Some i.
Proof.
  intros Hg Hi. destruct (padded_digits_spec 20 i (u64_padded i Hi)) as (Hd & Hl & Hv).
  unfold parse_log_index_from_key. rewrite utf8_ascii.
  2:{ unfold log_key, append_padded_u64. rewrite !Forall_app. split_and!.
      - by apply group_prefix_ascii.
      - vm_compute. repeat constructor.
      - eapply Forall_impl; [exact Hd|]. intros b Hb%digit_byte. lia. }
  assert (log_key g i = (bytes_of_string (key_prefix g) ++ 58 :: [108; 111; 103]) ++ 58 :: padded_digits 20 i) as ->.
  { unfold log_key, append_padded_u64, group_prefix. rewrite <-!app_assoc. done. }
  rewrite rsplit_once_last by by apply digits_no_colon.
  rewrite rsplit_once_last by by apply (bool_decide_unpack _).
  rewrite decide_True by done. rewrite parse_unsigned_digits; [by rewrite Hv|by destruct (padded_digits 20 i)|done|].
  rewrite Hv. apply Hi.
Qed.

Lemma log_key_order g i j :
  is_u64 i -> is_u64 j -> bytes_leb (log_key g i) (log_key g j) = (i <=? j).
Proof.
  intros Hi Hj. unfold log_key, append_padded_u64. rewrite bytes_leb_app_l.
  by apply padded_digits_order; apply u64_padded.
Qed.

(** ** Cells of a group *)

#[export] Instance RaftKey_eq_dec : EqDecision RaftKey.
Proof. solve_decision. Defined.

Definition cells (v : View) (g : GroupId) (k : RaftKey) : option Bytes :=
  v RAFT_PARTITION_NAME (raft_key g k).

(** Only log records stand under the log prefix of a group. *)
Definition logs_only (v : View) (g : GroupId) : Prop :=
  forall key x, v RAFT_PARTITION_NAME key = Some x ->
    starts_with key (group_key g "log:") = true -> exists i, is_u64 i /\ key = raft_key g (KLog i).

(** A write of a group's cells. *)
Abbreviation CellWrite := (RaftKey * option Bytes)%type.

Definition cell_op (g : GroupId) (w : CellWrite) : Operation :=
  match w.2 with
  | Some x => Put RAFT_PARTITION_NAME (raft_key g w.1) x
  | None => DeleteKey RAFT_PARTITION_NAME (raft_key g w.1)
  end.

Definition cell_set (c : RaftKey -> option Bytes) (w : CellWrite) : RaftKey -> option Bytes :=
  fun k => if decide (k = w.1) then w.2 else c k.

Lemma cells_op v g g0 w k :
  group_ok g -> group_ok g0 -> key_ok k -> key_ok w.1 ->
  cells (view_op v (cell_op g0 w)) g k =
  if decide (g = g0) then cell_set (cells v g) w k else cells v g k.
Proof.
  intros Hg Hg0 Hk Hw. destruct w as [k0 x]. unfold cells, cell_set, cell_op. cbn [fst snd] in *.
  assert (raft_key g k = raft_key g0 k0 <-> g = g0 /\ k = k0) as Hiff.
  { split; [by apply raft_key_inj|]. by intros [-> ->]. }
  destruct x as [x|]; cbn; unfold view_put, view_delete;
    (case_decide as Hd; [destruct Hd as [_ Hd]; apply Hiff in Hd as [-> ->]; by rewrite !decide_True|]);
    (case_decide; [|done]); (rewrite decide_False; [done|]); naive_solver.
Qed.

Lemma log_prefix_key g : group_key g "log:" = group_prefix g ++ bytes_of_string "log:".
Proof. done. Qed.

Lemma logs_only_op v g g0 w :
  group_ok g -> group_ok g0 -> key_ok w.1 -> logs_only v g -> logs_only (view_op v (cell_op g0 w)) g.
Proof.
  intros Hg Hg0 Hw Hl key x. destruct w as [k0 [y|]]; cbn; unfold view_put, view_delete; case_decide as Hd;
    try done; try apply Hl.
  intros _ Hs. destruct Hd as [_ ->]. apply starts_with_spec in Hs as [rest Hs].
  rewrite log_prefix_key, <-app_assoc in Hs. apply group_prefix_inj in Hs as [-> Hs]; [|done..].
  destruct (key_suffix_log k0) as [i ->]; [apply starts_with_spec; by exists rest|]. by exists i.
Qed.

Lemma cells_ops g0 ws : forall v,
  group_ok g0 -> Forall (fun w => key_ok w.1) ws ->
  forall g, group_ok g ->
  (forall k, key_ok k -> cells (foldl view_op v (cell_op g0 <$> ws)) g k =
     if decide (g = g0) then foldl cell_set (cells v g) ws k else cells v g k) /\
  (logs_only v g -> logs_only (foldl view_op v (cell_op g0 <$> ws)) g).
Proof.
  induction ws as [|w ws IH]; intros v Hg0 Hws g Hg; cbn [fmap list_fmap foldl].
  { split; [|done]. intros k Hk. by case_decide. }
  apply Forall_cons in Hws as [Hw Hws].
  destruct (IH (view_op v (cell_op g0 w)) Hg0 Hws g Hg) as [Hc Hl]. split.
  - intros k Hk. rewrite Hc by done. case_decide as Hd; [|].
    + subst g0. clear Hc Hl IH.
      assert (forall c c' k, key_ok k -> (forall k, key_ok k -> c k = c' k) ->
        foldl cell_set c ws k = foldl cell_set c' ws k) as Hext.
      { clear. induction ws as [|w ws IH]; intros c c' k Hk Hcc; cbn; [by apply Hcc|].
        apply IH; [done|]. intros k' Hk'. unfold cell_set. case_decide; [done|by apply Hcc]. }
      apply Hext; [done|]. intros k' Hk'. by rewrite cells_op, decide_True by done.
    + by rewrite cells_op, decide_False by done.
  - intros H. by apply Hl, logs_only_op.
Qed.

(** ** Writing through the database *)

Section Writes.
Context {D Hook : Type} `{HB : BackendLaws D}.
Abbreviation Database := (Db D Hook).

Abbreviation view db := (backend_view (db_backend db)).

(** [db'] is [db] after the operations: written and, if that failed, not; or taken by the open
    session. *)
Definition writes (db : Database) (ops : list Operation) (r : StoreResult unit) (db' : Database) : Prop :=
  match db_session db with
  | None =>
      db_session db' = None /\ db_ran db' = db_ran db /\
      forall p k, view db' p k = (if is_ok r then foldl view_op (view db) ops else view db) p k
  | Some (pending, hooks) =>
      r = Ok tt /\ db' = mkDb (db_backend db) (Some (pending ++ ops, hooks)) (db_ran db)
  end.

Lemma writes_nil db : writes db [] (Ok tt) db.
Proof.
  unfold writes. destruct db as [d [[pending hooks]|] ran]; cbn; [|done]. by rewrite app_nil_r.
Qed.

Lemma db_put_writes db p k x r db' : db_put db p k x = (r, db') -> writes db [Put p k x] r db'.
Proof.
  unfold db_put, buffer_operations, writes. destruct (db_session db) as [[pending hooks]|] eqn:Es.
  - by intros [= <- <-].
  - destruct (backend_put _ _ _ _) as [r' d] eqn:Ep. intros [= <- <-]. cbn. rewrite Es.
    split_and!; [done..|]. by apply (backend_put_law _ _ _ _ _ _ Ep).
Qed.

Lemma db_delete_writes db p k r db' : db_delete db p k = (r, db') -> writes db [DeleteKey p k] r db'.
Proof.
  unfold db_delete, buffer_operations, writes. destruct (db_session db) as [[pending hooks]|] eqn:Es.
  - by intros [= <- <-].
  - destruct (backend_delete _ _ _) as [r' d] eqn:Ep. intros [= <- <-]. cbn. rewrite Es.
    split_and!; [done..|]. by apply (backend_delete_law _ _ _ _ _ Ep).
Qed.

Lemma db_batch_writes db ops r db' : db_batch db ops = (r, db') -> writes db ops r db'.
Proof.
  unfold db_batch, buffer_operations, writes. destruct (db_session db) as [[pending hooks]|] eqn:Es.
  - by intros [= <- <-].
  - destruct (backend_batch _ _) as [r' d] eqn:Ep. intros [= <- <-]. cbn. rewrite Es.
    split_and!; [done..|]. by apply (backend_batch_law _ _ _ _ Ep).
Qed.

End Writes.

(** ** The abstract specification: a log and a few cells per group *)

Record GroupState := mkGroupState {
  gs_log : gmap Z (Z * Bytes);
  gs_vote : option RaftVote;
  gs_commit : option RaftLogId;
  gs_purge : option RaftLogId;
  gs_applied : option RaftLogId;
  gs_membership : option Bytes;
  gs_snap_meta : option RaftSnapshotMeta;
  gs_snap_data : option RaftSnapshotData
}.

Definition stored_entry (e : Z * (Z * Bytes)) : RaftLogEntry := mkLogEntry e.1 e.2.1 e.2.2.

(** The entries of a log with indices in a range, in order. *)
Definition log_range (m : gmap Z (Z * Bytes)) (start end_ : Z) : list (Z * (Z * Bytes)) :=
  filter (fun e => start <= e.1 < end_) (btree_entries m).

Definition log_append (m : gmap Z (Z * Bytes)) (es : list RaftLogEntry) : gmap Z (Z * Bytes) :=
  foldl (fun m e => <[le_index e := (le_term e, le_payload e)]> m) m es.

Section Rep.
Context `{!Serde RaftVote, !Serde RaftSnapshotMeta, !Serde RaftSnapshotData}.

(** A cell holds a value if its bytes decode to it. *)
Definition holds {A} (dec : Bytes -> StoreResult A) (x : option Bytes) (a : option A) : Prop :=
  match x, a with
  | None, None => True
  | Some b, Some a => dec b = Ok a
  | _, _ => False
  end.

Record group_rep (c : RaftKey -> option Bytes) (s : GroupState) : Prop := {
  gr_log : forall i, is_u64 i ->
    c (KLog i) = (fun tp => encode_raft_log_record_parts i tp.1 tp.2) <$> gs_log s !! i;
  gr_dom : forall i tp, gs_log s !! i = Some tp -> is_u64 i /\ is_u64 tp.1;
  gr_vote : holds decode_entity (c KVote) (gs_vote s);
  gr_commit : holds decode_packed (c KCommit) (gs_commit s);
  gr_purge : holds decode_packed (c KPurge) (gs_purge s);
  gr_applied : holds decode_packed (c KApplied) (gs_applied s);
  gr_membership : c KMembership = gs_membership s;
  gr_snap_meta : holds decode_entity (c KSnapMeta) (gs_snap_meta s);
  gr_snap_data : holds decode_entity (c KSnapData) (gs_snap_data s)
}.

(** The partition holds the state of every group. *)
Definition represents (v : View) (σ : GroupId -> GroupState) : Prop :=
  forall g, group_ok g -> logs_only v g /\ group_rep (cells v g) (σ g).

Lemma group_rep_ext c c' s :
  (forall k, key_ok k -> c k = c' k) -> group_rep c s -> group_rep c' s.
Proof.
  intros He []. constructor; try done; try (by rewrite <-He).
  intros i Hi. rewrite <-He by done. by apply gr_log0.
Qed.

End Rep.

(** ** Scanning the log of a group *)

Definition log_item (g : GroupId) (e : Z * (Z * Bytes)) : Bytes * Bytes :=
  (log_key g e.1, encode_raft_log_record_parts e.1 e.2.1 e.2.2).

Lemma btree_sorted {A} (m : gmap Z A) : StronglySorted (fun a b => a.1 <= b.1) (btree_entries m).
Proof.
  assert (StronglySorted (fun a b : Z * A => (a.1 <=? b.1) = true) (btree_entries m)) as Hs.
  { apply sort_by_sorted; intros *; rewrite ?Z.leb_gt, ?Z.leb_le; lia. }
  induction Hs as [|e l _ IH Hf]; [constructor|]. constructor; [done|].
  eapply Forall_impl; [exact Hf|]. intros x Hx. by apply Z.leb_le.
Qed.

Lemma btree_elem {A} (m : gmap Z A) k x : (k, x) ∈ btree_entries m <-> m !! k = Some x.
Proof. by rewrite btree_entries_perm, elem_of_map_to_list. Qed.

Lemma btree_nodup {A} (m : gmap Z A) : NoDup (btree_entries m).*1.
Proof. rewrite (fmap_Permutation fst _ _ (btree_entries_perm m)). apply NoDup_fst_map_to_list. Qed.

Lemma StronglySorted_fmap {A B} (R : B -> B -> Prop) (S : A -> A -> Prop) (f : A -> B) (l : list A) :
  (forall x y, x ∈ l -> y ∈ l -> S x y -> R (f x) (f y)) -> StronglySorted S l -> StronglySorted R (f <$> l).
Proof.
  intros Hf Hs. induction Hs as [|x l _ IH Hall]; cbn; constructor.
  - apply IH. intros y z Hy Hz. apply Hf; by apply elem_of_cons; right.
  - apply Forall_fmap, Forall_forall. intros y Hy. rewrite Forall_forall in Hall.
    apply Hf; [by apply elem_of_cons; left|by apply elem_of_cons; right|by apply Hall].
Qed.

Lemma StronglySorted_filter {A} (R : A -> A -> Prop) (P : A -> Prop) `{forall x, Decision (P x)} l :
  StronglySorted R l -> StronglySorted R (filter P l).
Proof. intros Hs. rewrite <-(list_fmap_id (filter P l)). apply StronglySorted_fmap_filter. by rewrite list_fmap_id. Qed.

Section Scan.
Context {D Hook : Type} `{HB : BackendLaws D}.
Context `{!Serde RaftVote, !Serde RaftSnapshotMeta, !Serde RaftSnapshotData}.
Abbreviation Database := (Db D Hook).
Abbreviation view db := (backend_view (db_backend db)).

(** What a scan of a group's log returns: its entries from [start] on, in index order. *)
Lemma log_scan (db : Database) g s (start : option Z) items :
  group_ok g -> match start with Some i => is_u64 i | None => True end ->
  logs_only (view db) g -> group_rep (cells (view db) g) s ->
  db_scan db RAFT_PARTITION_NAME (Some (group_key g "log:")) (log_key g <$> start) None = Ok items ->
  items = log_item g <$> filter (fun e => default 0 start <= e.1) (btree_entries (gs_log s)).
Proof.
  intros Hg Hst Hlo Hrep Hscan. destruct Hrep as [Hlog Hdom _ _ _ _ _ _ _].
  assert (forall i, log_key g i = group_key g "log:" ++ padded_digits 20 i) as Hkey by done.
  apply backend_scan_law in Hscan as (Hsorted & Hnd & Hel).
  2:{ destruct start as [i|]; cbn; [|done]. rewrite Hkey. apply bytes_leb_prefix. }
  set (es := filter (fun e => default 0 start <= e.1) (btree_entries (gs_log s))).
  assert (forall e, e ∈ es -> is_u64 e.1) as Hu.
  { intros [i tp] [_ Hin]%list_elem_of_filter. apply btree_elem, Hdom in Hin. apply Hin. }
  apply (StronglySorted_unique_strong (fun a b => bytes_leb a.1 b.1 = true)).
  - intros [k1 x1] [k2 x2] H1 H2 Hle Hge. cbn in Hle, Hge.
    assert (k1 = k2) as -> by by apply bytes_leb_antisymm.
    f_equal. apply Hel in H1 as [H1 _]. apply list_elem_of_fmap in H2 as ([i tp] & [= -> ->] & Hin).
    pose proof (Hu _ Hin) as Hi. cbn in Hi. apply list_elem_of_filter in Hin as [_ Hin]. apply btree_elem in Hin.
    rewrite log_key_raft in H1. fold (cells (view db) g (KLog i)) in H1. rewrite (Hlog i Hi), Hin in H1.
    by injection H1 as <-.
  - clear -Hsorted. induction items as [|e items IH]; [constructor|]. rewrite fmap_cons in Hsorted.
    apply StronglySorted_inv in Hsorted as [Hs Hf]. constructor; [by apply IH|].
    by rewrite Forall_fmap in Hf.
  - eapply StronglySorted_fmap; [|apply StronglySorted_filter, btree_sorted].
    intros [i tp] [j tq] Hi%Hu Hj%Hu Hle. cbn. rewrite log_key_order by done. by apply Z.leb_le.
  - apply NoDup_Permutation.
    + by apply (NoDup_fmap_1 fst).
    + apply NoDup_fmap_2_strong.
      * intros [i tp] [j tq] Hi Hj [= E _]. pose proof (Hu _ Hi) as Hi'. pose proof (Hu _ Hj) as Hj'.
        rewrite !log_key_raft in E. apply raft_key_inj in E as [_ [= E]]; [|done..]. cbn in *. subst j.
        apply list_elem_of_filter in Hi as [_ Hi]. apply list_elem_of_filter in Hj as [_ Hj].
        apply btree_elem in Hi, Hj. congruence.
      * apply NoDup_filter. eapply NoDup_fmap_1, btree_nodup.
    + intros [k x]. rewrite Hel, list_elem_of_fmap. unfold in_scan. rewrite andb_true_iff. split.
      * intros (Hv & Hpre & Hs). destruct (Hlo k x Hv Hpre) as (i & Hi & ->).
        assert (exists tp, gs_log s !! i = Some tp /\ x = encode_raft_log_record_parts i tp.1 tp.2)
          as (tp & Hin & ->).
        { fold (cells (view db) g (KLog i)) in Hv. rewrite (Hlog i Hi) in Hv.
          destruct (gs_log s !! i) as [tp|]; [|done]. injection Hv as <-. by exists tp. }
        exists (i, tp). unfold log_item. cbn [fst snd]. rewrite log_key_raft. split; [done|].
        apply list_elem_of_filter. split; [|by apply btree_elem]. cbn [fst].
        destruct start as [a|]; cbn in *; [|apply Hi].
        rewrite <-log_key_raft, log_key_order in Hs by done. by apply Z.leb_le.
      * intros ([i tp] & [= -> ->] & Hin). pose proof (Hu _ Hin) as Hi. cbn in Hi.
        apply list_elem_of_filter in Hin as [Hge Hin]. apply btree_elem in Hin. cbn in Hge. split_and!.
        -- rewrite log_key_raft. fold (cells (view db) g (KLog i)). by rewrite (Hlog i Hi), Hin.
        -- apply starts_with_spec. by exists (padded_digits 20 i).
        -- destruct start as [a|]; cbn in *; [|done]. rewrite log_key_order by done. by apply Z.leb_le.
Qed.

Lemma parse_log_item g e : group_ok g -> is_u64 e.1 -> parse_log_index_from_key (log_item g e).1 = Some e.1.
Proof. intros Hg He. by apply parse_log_key. Qed.

Lemma decode_log_item g e :
  is_u64 e.1 -> is_u64 e.2.1 -> decode_record (log_item g e).2 = Ok (stored_entry e).
Proof. intros Hi Ht. unfold decode_record, log_item. cbn [snd]. by rewrite decode_encoded_log_record. Qed.

Lemma scan_loop_entries g end_ es :
  group_ok g -> Forall (fun e => is_u64 e.1 /\ is_u64 e.2.1) es ->
  StronglySorted (fun a b => a.1 <= b.1) es ->
  scan_loop end_ (log_item g <$> es) = Ok (stored_entry <$> filter (fun e => e.1 < end_) es).
Proof.
  intros Hg. induction es as [|e es IH]; intros Hok Hs; [done|].
  apply Forall_cons in Hok as [[Hi Ht] Hok]. apply StronglySorted_inv in Hs as [Hs Hf].
  rewrite fmap_cons. cbn [scan_loop]. destruct (log_item g e) as [k x] eqn:E.
  pose proof (parse_log_item g e Hg Hi) as Hp. pose proof (decode_log_item g e Hi Ht) as Hd.
  rewrite E in Hp, Hd. cbn [fst snd] in Hp, Hd. rewrite Hp.
  destruct (Z.leb_spec end_ e.1) as [Hle|Hlt].
  - rewrite filter_cons_False by lia. rewrite filter_none; [done|].
    intros e' He'. rewrite Forall_forall in Hf. specialize (Hf e' He'). cbn in Hf. lia.
  - rewrite Hd. cbn [result_bind]. rewrite IH by done. cbn [result_bind].
    by rewrite filter_cons_True by lia.
Qed.

End Scan.

(** ** Operations and their specification *)

Inductive IdCell := CommitCell | PurgeCell | AppliedCell.

Inductive RaftOp :=
| OAppend (entries : list RaftLogEntry) (last_applied : option RaftLogId)
| OGet (index : Z)
| OScan (start end_ : Z)
| OLastIndex
| ODeleteBefore (index : Z)
| ODeleteFrom (index : Z)
| OSaveVote (vote : RaftVote)
| OReadVote
| OSaveId (cell : IdCell) (id : option RaftLogId)
| OReadId (cell : IdCell)
| OSaveMembership (bytes : Bytes)
| OReadMembership
| OSaveSnapMeta (meta : RaftSnapshotMeta)
| OReadSnapMeta
| OSaveSnapData (data : RaftSnapshotData)
| OReadSnapData.

Inductive RaftOut :=
| Done
| OutEntry (e : option RaftLogEntry)
| OutEntries (es : list RaftLogEntry)
| OutIndex (i : option Z)
| OutVote (v : option RaftVote)
| OutId (id : option RaftLogId)
| OutBytes (b : option Bytes)
| OutMeta (m : option RaftSnapshotMeta)
| OutData (d : option RaftSnapshotData).

Definition id_key (c : IdCell) : RaftKey :=
  match c with CommitCell => KCommit | PurgeCell => KPurge | AppliedCell => KApplied end.

Definition id_of (s : GroupState) (c : IdCell) : option RaftLogId :=
  match c with CommitCell => gs_commit s | PurgeCell => gs_purge s | AppliedCell => gs_applied s end.

(** What an operation does to a group and what it answers. *)
Definition spec_op (s : GroupState) (op : RaftOp) : GroupState * RaftOut :=
  let 'mkGroupState log vote commit purge applied membership meta data := s in
  match op with
  | OAppend es la =>
      (mkGroupState (log_append log es) vote commit purge
         (match la with Some id => Some id | None => applied end) membership meta data, Done)
  | OGet i => (s, OutEntry ((fun tp => stored_entry (i, tp)) <$> log !! i))
  | OScan a b => (s, OutEntries (stored_entry <$> log_range log a b))
  | OLastIndex => (s, OutIndex (fst <$> last (btree_entries log)))
  | ODeleteBefore n =>
      (mkGroupState (filter (fun e => n <= e.1) log) vote commit purge applied membership meta data, Done)
  | ODeleteFrom n =>
      (mkGroupState (filter (fun e => e.1 < n) log) vote commit purge applied membership meta data, Done)
  | OSaveVote v => (mkGroupState log (Some v) commit purge applied membership meta data, Done)
  | OReadVote => (s, OutVote vote)
  | OSaveId CommitCell id => (mkGroupState log vote id purge applied membership meta data, Done)
  | OSaveId PurgeCell id => (mkGroupState log vote commit id applied membership meta data, Done)
  | OSaveId AppliedCell id => (mkGroupState log vote commit purge id membership meta data, Done)
  | OReadId c => (s, OutId (id_of s c))
  | OSaveMembership b => (mkGroupState log vote commit purge applied (Some b) meta data, Done)
  | OReadMembership => (s, OutBytes membership)
  | OSaveSnapMeta m => (mkGroupState log vote commit purge applied membership (Some m) data, Done)
  | OReadSnapMeta => (s, OutMeta meta)
  | OSaveSnapData d => (mkGroupState log vote commit purge applied membership meta (Some d), Done)
  | OReadSnapData => (s, OutData data)
  end.

Definition id_ok (id : RaftLogId) : Prop := is_u64 (rl_term id) /\ is_u64 (rl_index id).
Definition entry_ok (e : RaftLogEntry) : Prop := is_u64 (le_index e) /\ is_u64 (le_term e).

(** Indices and terms are [u64]. *)
Definition store_op_ok (op : RaftOp) : Prop :=
  match op with
  | OAppend es la => Forall entry_ok es /\ match la with Some id => id_ok id | None => True end
  | OGet i | ODeleteBefore i | ODeleteFrom i => is_u64 i
  | OScan a b => is_u64 a /\ is_u64 b
  | OSaveId _ (Some id) => id_ok id
  | _ => True
  end.

Definition set_group (σ : GroupId -> GroupState) (g : GroupId) (s : GroupState) : GroupId -> GroupState :=
  fun g' => if decide (g' = g) then s else σ g'.

(** A sequence of operations of any groups and its answers; a failed operation has no effect. *)
Inductive spec_run : (GroupId -> GroupState) -> list (GroupId * RaftOp) ->
    list (StoreResult RaftOut) -> (GroupId -> GroupState) -> Prop :=
| spec_nil σ : spec_run σ [] [] σ
| spec_done σ g op ops rs σ' :
    spec_run (set_group σ g (spec_op (σ g) op).1) ops rs σ' ->
    spec_run σ ((g, op) :: ops) (Ok (spec_op (σ g) op).2 :: rs) σ'
| spec_failed σ g op ops e rs σ' :
    spec_run σ ops rs σ' -> spec_run σ ((g, op) :: ops) (Err e :: rs) σ'.

Section Run.
Context {D Hook : Type} `{StorageBackend D}.
Context `{!Serde RaftVote, !Serde RaftSnapshotMeta, !Serde RaftSnapshotData}.
Abbreviation Database := (Db D Hook).

Definition finish_write (r : StoreResult unit * Database) : StoreResult RaftOut * Database :=
  (let? _ := r.1 in Ok Done, r.2).
Definition finish_read {A} (db : Database) (f : A -> RaftOut) (r : StoreResult A) :
    StoreResult RaftOut * Database :=
  (let? a := r in Ok (f a), db).

Definition store_op (g : GroupId) (db : Database) (op : RaftOp) : StoreResult RaftOut * Database :=
  match op with
  | OAppend es la =>
      finish_write (append_encoded_with g db ((fun e => (le_index e, encode_record e)) <$> es) la)
  | OGet i => finish_read db OutEntry (get_log g db i)
  | OScan a b => finish_read db OutEntries (scan_logs g db a b)
  | OLastIndex => finish_read db OutIndex (last_log_index g db)
  | ODeleteBefore i => finish_write (delete_logs_before g db i)
  | ODeleteFrom i => finish_write (delete_logs_from g db i)
  | OSaveVote v => finish_write (save_vote g db v)
  | OReadVote => finish_read db OutVote (read_vote g db)
  | OSaveId CommitCell id => finish_write (save_commit g db id)
  | OSaveId PurgeCell id => finish_write (save_purge g db id)
  | OSaveId AppliedCell id => finish_write (save_last_applied g db id)
  | OReadId CommitCell => finish_read db OutId (read_commit g db)
  | OReadId PurgeCell => finish_read db OutId (read_purge g db)
  | OReadId AppliedCell => finish_read db OutId (read_last_applied g db)
  | OSaveMembership b => finish_write (save_last_membership g db b)
  | OReadMembership => finish_read db OutBytes (read_last_membership g db)
  | OSaveSnapMeta m => finish_write (save_snapshot_meta g db m)
  | OReadSnapMeta => finish_read db OutMeta (read_snapshot_meta g db)
  | OSaveSnapData d => finish_write (save_snapshot_data g db d)
  | OReadSnapData => finish_read db OutData (read_snapshot_data g db)
  end.

Fixpoint run_ops (db : Database) (ops : list (GroupId * RaftOp)) :
    list (StoreResult RaftOut) * Database :=
  match ops with
  | [] => ([], db)
  | (g, op) :: rest =>
      let '(r, db1) := store_op g db op in
      let '(rs, db2) := run_ops db1 rest in (r :: rs, db2)
  end.

End Run.

(** ** The operations implement the specification *)

Ltac group_simpl :=
  cbn [gs_log gs_vote gs_commit gs_purge gs_applied gs_membership gs_snap_meta gs_snap_data fst snd] in *.

Section Refine.
Context {D Hook : Type} `{HB : BackendLaws D}.
Context `{!Serde RaftVote, !Serde RaftSnapshotMeta, !Serde RaftSnapshotData}.
Context `{!SerdeLaws RaftVote, !SerdeLaws RaftSnapshotMeta, !SerdeLaws RaftSnapshotData}.
Abbreviation Database := (Db D Hook).
Abbreviation view db := (backend_view (db_backend db)).

Lemma logs_only_ext v v' g :
  (forall k, v RAFT_PARTITION_NAME k = v' RAFT_PARTITION_NAME k) -> logs_only v g -> logs_only v' g.
Proof. intros Hv Hl key x Hk. rewrite <-Hv in Hk. exact (Hl key x Hk). Qed.

(** Writing cells of one group. *)
Lemma represents_writes (db db' : Database) σ g ws r s' :
  represents (view db) σ -> db_session db = None -> group_ok g ->
  Forall (fun w => key_ok w.1) ws ->
  group_rep (foldl cell_set (cells (view db) g) ws) s' ->
  writes db (cell_op g <$> ws) r db' ->
  db_session db' = None /\ represents (view db') (if is_ok r then set_group σ g s' else σ).
Proof.
  intros Hrep Hs Hg Hws Hs' Hw. unfold writes in Hw. rewrite Hs in Hw. destruct Hw as (Hs2 & _ & Hv).
  split; [done|]. destruct r as [u|e]; cbn [is_ok] in *.
  - intros g' Hg'. destruct (cells_ops g ws (view db) Hg Hws g' Hg') as [Hc Hl].
    destruct (Hrep g' Hg') as [Hlo Hgr]. split.
    + eapply logs_only_ext; [|apply Hl, Hlo]. intros k. by rewrite Hv.
    + unfold set_group. case_decide as Hd.
      * subst g'. eapply group_rep_ext; [|exact Hs']. intros k Hk.
        unfold cells at 2. rewrite Hv. fold (cells (foldl view_op (view db) (cell_op g <$> ws)) g k).
        by rewrite Hc.
      * eapply group_rep_ext; [|exact Hgr]. intros k Hk. unfold cells at 2. rewrite Hv.
        fold (cells (foldl view_op (view db) (cell_op g <$> ws)) g' k).
        by rewrite Hc.
  - intros g' Hg'. destruct (Hrep g' Hg') as [Hlo Hgr]. split.
    + eapply logs_only_ext; [|done]. intros k. by rewrite Hv.
    + eapply group_rep_ext; [|done]. intros k _. unfold cells. by rewrite Hv.
Qed.

Lemma cell_set_log c i x k : cell_set c (KLog i, x) k = if decide (k = KLog i) then x else c k.
Proof. done. Qed.

Lemma decode_encoded_id id : id_ok id -> decode_packed (encode_packed id) = Ok id.
Proof.
  intros Hid. unfold decode_packed, encode_packed. rewrite decode_encoded_log_id by apply Hid.
  by destruct id.
Qed.

Lemma append_rep c s es la :
  Forall entry_ok es -> match la with Some id => id_ok id | None => True end -> group_rep c s ->
  group_rep (foldl cell_set c (((fun e => (KLog (le_index e), Some (encode_record e))) <$> es) ++
     match la with Some id => [(KApplied, Some (encode_packed id))] | None => [] end))
    (spec_op s (OAppend es la)).1.
Proof.
  intros Hes Hla. revert c s. induction Hes as [|e es [Hi Ht] _ IH]; intros c s Hrep.
  - destruct s as [log vote commit purge applied membership meta data]. destruct la as [id|]; [|exact Hrep].
    cbn [fmap list_fmap app foldl spec_op fst]. destruct Hrep. group_simpl.
    constructor; group_simpl; try assumption.
    by apply decode_encoded_id.
  - specialize (IH (cell_set c (KLog (le_index e), Some (encode_record e)))
      (spec_op s (OAppend [e] None)).1). destruct s as [log vote commit purge applied membership meta data].
    cbn [spec_op fst snd fmap list_fmap app foldl log_append] in IH |- *. apply IH. destruct Hrep. group_simpl.
    constructor; group_simpl; try assumption.
    + intros i Hi'. rewrite cell_set_log. case_decide as Hd.
      * injection Hd as ->. by rewrite lookup_insert_eq.
      * rewrite lookup_insert_ne by congruence. by apply gr_log0.
    + intros i tp. destruct (decide (le_index e = i)) as [<-|Hne].
      * rewrite lookup_insert_eq. by intros [= <-].
      * rewrite lookup_insert_ne by done. apply gr_dom0.
Qed.

Lemma delete_cells c (js : list Z) k :
  foldl cell_set c ((fun i => (KLog i, None)) <$> js) k =
  match k with KLog i => if decide (i ∈ js) then None else c k | _ => c k end.
Proof.
  revert c. induction js as [|j js IH]; intros c; cbn [fmap list_fmap foldl].
  { destruct k; [|done..]. by rewrite decide_False by apply not_elem_of_nil. }
  rewrite IH. destruct k as [i| | | | | | |]; try done. rewrite cell_set_log.
  destruct (decide (i ∈ js)) as [Hin|Hin].
  - rewrite decide_True; [done|]. apply elem_of_cons. by right.
  - destruct (decide (KLog i = KLog j)) as [[= ->]|Hne].
    + rewrite decide_True; [done|]. apply elem_of_cons. by left.
    + rewrite decide_False; [done|]. rewrite elem_of_cons. intros [->|?]; done.
Qed.

(** Deleting exactly the entries outside [P]. *)
Lemma delete_rep c s (P : Z -> Prop) `{forall i, Decision (P i)} (es : list (Z * (Z * Bytes))) s' :
  group_rep c s ->
  (forall i tp, gs_log s !! i = Some tp -> i ∈ es.*1 <-> ~ P i) ->
  s' = mkGroupState (filter (fun e => P e.1) (gs_log s)) (gs_vote s) (gs_commit s) (gs_purge s)
         (gs_applied s) (gs_membership s) (gs_snap_meta s) (gs_snap_data s) ->
  group_rep (foldl cell_set c ((fun i => (KLog i, None)) <$> es.*1)) s'.
Proof.
  intros Hrep Hes ->. destruct Hrep.
  constructor; group_simpl; rewrite ?delete_cells; try done.
  - intros i Hi. rewrite delete_cells, gr_log0 by done.
    destruct (gs_log s !! i) as [tp|] eqn:E; cbn.
    + destruct (decide (P i)) as [HP|HP].
      * rewrite decide_False by (intros Hin; by apply (Hes i tp E) in Hin).
        assert (filter (fun e => P e.1) (gs_log s) !! i = Some tp) as ->; [|done].
        by apply map_lookup_filter_Some.
      * rewrite decide_True by (by apply (Hes i tp E)).
        assert (filter (fun e => P e.1) (gs_log s) !! i = None) as ->; [|done].
        apply map_lookup_filter_None. right. intros x Hx. done.
    + assert (filter (fun e => P e.1) (gs_log s) !! i = None) as ->.
      { apply map_lookup_filter_None. by left. }
      by case_decide.
  - intros i tp [Hin _]%map_lookup_filter_Some. by apply gr_dom0.
Qed.

Lemma represents_ext v σ σ' : (forall g, σ g = σ' g) -> represents v σ -> represents v σ'.
Proof. intros He Hr g Hg. rewrite <-He. by apply Hr. Qed.

(** One operation and its answer. *)
Definition step_ok (db' : Database) (σ : GroupId -> GroupState) (g : GroupId) (op : RaftOp)
    (r : StoreResult RaftOut) : Prop :=
  db_session db' = None /\
  represents (view db') (if is_ok r then set_group σ g (spec_op (σ g) op).1 else σ) /\
  (forall out, r = Ok out -> out = (spec_op (σ g) op).2).

Lemma read_step {A} (db : Database) σ g op (f : A -> RaftOut) x :
  represents (view db) σ -> db_session db = None ->
  (spec_op (σ g) op).1 = σ g -> (forall a, x = Ok a -> f a = (spec_op (σ g) op).2) ->
  step_ok (finish_read db f x).2 σ g op (finish_read db f x).1.
Proof.
  intros Hr Hs Hsame Hx. unfold step_ok, finish_read. cbn [fst snd]. split_and!; [done| |].
  - destruct x as [a|e]; cbn [result_bind is_ok]; [|done]. eapply represents_ext; [|done].
    intros g'. unfold set_group. case_decide; [|done]. by subst g'.
  - destruct x as [a|e]; cbn [result_bind]; [|done]. intros out [= <-]. by apply Hx.
Qed.

Lemma write_step (db : Database) σ g op ws w :
  represents (view db) σ -> db_session db = None -> group_ok g -> Forall (fun w => key_ok w.1) ws ->
  group_rep (foldl cell_set (cells (view db) g) ws) (spec_op (σ g) op).1 ->
  (spec_op (σ g) op).2 = Done -> writes db (cell_op g <$> ws) w.1 w.2 ->
  step_ok (finish_write w).2 σ g op (finish_write w).1.
Proof.
  intros Hr Hs Hg Hws Hs' Hd Hw. unfold step_ok, finish_write. cbn [fst snd].
  destruct (represents_writes _ _ _ _ _ _ _ Hr Hs Hg Hws Hs' Hw) as [Hs2 Hr2].
  destruct w as [[u|e] db']; cbn [fst snd result_bind is_ok] in *; (split_and!; [done..|]); [|done].
  intros out [= <-]. done.
Qed.

Lemma raft_get_cell (db : Database) g k found :
  raft_get db (raft_key g k) = Ok found -> found = cells (view db) g k.
Proof. apply backend_get_law. Qed.

Lemma read_log_id_holds (db : Database) g k a x :
  holds decode_packed (cells (view db) g k) x -> read_log_id db (raft_key g k) = Ok a -> a = x.
Proof.
  intros Hh (found & ->%raft_get_cell & Ha)%result_bind_ok. revert Hh Ha. unfold holds.
  destruct (cells _ _ _) as [b|], x as [id|]; try done; [|by intros _ [= <-]].
  intros -> Ha. by injection Ha as <-.
Qed.

Lemma read_entity_holds {T} `{Serde T} (db : Database) g k a (x : option T) :
  holds decode_entity (cells (view db) g k) x -> read_entity db (raft_key g k) = Ok a -> a = x.
Proof.
  intros Hh (found & ->%raft_get_cell & Ha)%result_bind_ok. revert Hh Ha. unfold holds.
  destruct (cells _ _ _) as [b|], x as [v|]; try done; [|by intros _ [= <-]].
  intros -> Ha. by injection Ha as <-.
Qed.

Lemma put_log_id_step (db : Database) σ g op k id :
  represents (view db) σ -> db_session db = None -> group_ok g -> key_ok k ->
  group_rep (cell_set (cells (view db) g) (k, encode_packed <$> id)) (spec_op (σ g) op).1 ->
  (spec_op (σ g) op).2 = Done ->
  step_ok (finish_write (put_log_id db (raft_key g k) id)).2 σ g op
    (finish_write (put_log_id db (raft_key g k) id)).1.
Proof.
  intros Hr Hs Hg Hk Hs' Hd. eapply (write_step db σ g op [(k, encode_packed <$> id)]); try done.
  { by repeat constructor. }
  destruct id as [id|]; cbn [put_log_id].
  - apply (db_put_writes db RAFT_PARTITION_NAME (raft_key g k) (encode_packed id)). apply surjective_pairing.
  - apply (db_delete_writes db RAFT_PARTITION_NAME (raft_key g k)). apply surjective_pairing.
Qed.

Lemma save_entity_step {T} `{Serde T} (db : Database) σ g op k (v : T) :
  represents (view db) σ -> db_session db = None -> group_ok g -> key_ok k ->
  (forall b, encode_entity v = Ok b ->
     group_rep (cell_set (cells (view db) g) (k, Some b)) (spec_op (σ g) op).1) ->
  (spec_op (σ g) op).2 = Done ->
  step_ok (finish_write (save_entity db (raft_key g k) v)).2 σ g op
    (finish_write (save_entity db (raft_key g k) v)).1.
Proof.
  intros Hr Hs Hg Hk Hs' Hd. unfold save_entity. destruct (encode_entity v) as [b|e] eqn:Ee.
  - eapply (write_step db σ g op [(k, Some b)]); try done; [by repeat constructor|by apply Hs'|].
    apply (db_put_writes db RAFT_PARTITION_NAME (raft_key g k) b). apply surjective_pairing.
  - by split_and!.
Qed.

Lemma log_entries_ok s c : group_rep c s ->
  Forall (fun e => is_u64 e.1 /\ is_u64 e.2.1) (btree_entries (gs_log s)).
Proof.
  intros Hr. apply Forall_forall. intros [i tp] Hin%btree_elem. by apply (gr_dom _ _ Hr) in Hin.
Qed.

Lemma fold_last g (es : list (Z * (Z * Bytes))) last0 :
  group_ok g -> Forall (fun e => is_u64 e.1) es ->
  foldl (fun last e => match parse_log_index_from_key e.1 with Some i => Some i | None => last end)
    last0 (log_item g <$> es) = match last es with Some e => Some e.1 | None => last0 end.
Proof.
  intros Hg. induction es as [|e es IH] using rev_ind; intros Hok; [done|].
  apply Forall_app in Hok as [Hok He]. apply Forall_cons in He as [He _].
  rewrite fmap_app, foldl_app, last_snoc. cbn [fmap list_fmap foldl]. by rewrite parse_log_item.
Qed.

Lemma scan_logs_spec (db : Database) g s a b es :
  group_ok g -> is_u64 a -> logs_only (view db) g -> group_rep (cells (view db) g) s ->
  scan_logs g db a b = Ok es -> es = stored_entry <$> log_range (gs_log s) a b.
Proof.
  intros Hg Ha Hlo Hr. unfold scan_logs, log_range. destruct (Z.leb_spec b a) as [Hle|Hlt].
  { intros <-%Ok_inj. rewrite filter_none; [done|]. intros e _. lia. }
  intros (items & Hscan & Hloop)%result_bind_ok.
  apply (log_scan db g s (Some a)) in Hscan as ->; [|done..]. revert Hloop. cbn [default].
  pose proof (log_entries_ok _ _ Hr) as Hok. rewrite Forall_forall in Hok.
  rewrite scan_loop_entries; [|done| |apply StronglySorted_filter, btree_sorted].
  - intros <-%Ok_inj. f_equal. rewrite list_filter_filter. apply list_filter_iff. intros e. cbn. lia.
  - apply Forall_forall. intros e [_ He]%list_elem_of_filter. by apply Hok.
Qed.

Lemma last_log_index_spec (db : Database) g s r :
  group_ok g -> logs_only (view db) g -> group_rep (cells (view db) g) s ->
  last_log_index g db = Ok r -> r = fst <$> last (btree_entries (gs_log s)).
Proof.
  intros Hg Hlo Hr (items & Hscan & <-%Ok_inj)%result_bind_ok.
  apply (log_scan db g s None) in Hscan as ->; [|done..]. cbn [default].
  pose proof (log_entries_ok _ _ Hr) as Hok. rewrite Forall_forall in Hok.
  rewrite filter_all by (intros e He; by apply Hok).
  rewrite fold_last; [by destruct (last _)|done|]. apply Forall_forall. intros e He. by apply Hok.
Qed.

(** Deleting what a scan returns and a test selects. *)
Lemma delete_writes (db : Database) g (es : list (Z * (Z * Bytes))) :
  writes db (cell_op g <$> ((fun i => (KLog i, None)) <$> es.*1))
    (match (fun e => DeleteKey RAFT_PARTITION_NAME (log_key g e.1)) <$> es with
     | [] => (Ok tt, db) | ops => db_batch db ops end).1
    (match (fun e => DeleteKey RAFT_PARTITION_NAME (log_key g e.1)) <$> es with
     | [] => (Ok tt, db) | ops => db_batch db ops end).2.
Proof.
  assert ((fun e => DeleteKey RAFT_PARTITION_NAME (log_key g e.1)) <$> es =
    cell_op g <$> ((fun i => (KLog i, None)) <$> es.*1)) as Heq.
  { rewrite <-!list_fmap_compose. apply list_fmap_ext. intros i e _. unfold compose, cell_op. cbn [fst snd].
    by rewrite log_key_raft. }
  rewrite <-Heq. destruct (_ <$> es) as [|op ops]; [apply writes_nil|].
  apply db_batch_writes. apply surjective_pairing.
Qed.
Lemma omap_log_items {A} g (es : list (Z * (Z * Bytes))) (f : Bytes * Bytes -> option A)
    (P : Z * (Z * Bytes) -> Prop) `{forall e, Decision (P e)} (h : Z * (Z * Bytes) -> A) :
  (forall e, e ∈ es -> f (log_item g e) = if decide (P e) then Some (h e) else None) ->
  omap f (log_item g <$> es) = h <$> filter P es.
Proof.
  induction es as [|e es IH]; intros Hf; [done|].
  rewrite fmap_cons, filter_cons. cbn [omap list_omap]. rewrite Hf by (apply elem_of_cons; by left).
  rewrite IH; [by case_decide|]. intros e' He'. apply Hf. apply elem_of_cons. by right.
Qed.

Lemma delete_before_step (db : Database) σ g n :
  represents (view db) σ -> db_session db = None -> group_ok g -> is_u64 n ->
  step_ok (finish_write (delete_logs_before g db n)).2 σ g (ODeleteBefore n)
    (finish_write (delete_logs_before g db n)).1.
Proof.
  intros Hr Hs Hg Hn. destruct (Hr g Hg) as [Hlo Hgr]. pose proof (log_entries_ok _ _ Hgr) as Hok.
  rewrite Forall_forall in Hok.
  assert (forall es : list (Z * (Z * Bytes)), (forall i tp, gs_log (σ g) !! i = Some tp -> i ∈ es.*1 <-> ~ n <= i) ->
    group_rep (foldl cell_set (cells (view db) g) ((fun i => (KLog i, None)) <$> es.*1))
      (spec_op (σ g) (ODeleteBefore n)).1) as Hdel.
  { intros es Hes. apply (delete_rep _ (σ g) (fun i => n <= i)); [done|done|]. by destruct (σ g). }
  unfold delete_logs_before. destruct (Z.eqb_spec n 0) as [->|Hn0].
  { eapply (write_step db σ g _ []); try done.
    - apply (Hdel []). intros i tp Hin. apply (gr_dom _ _ Hgr) in Hin as [[Hi _] _].
      split; [by intros ?%not_elem_of_nil|lia].
    - by destruct (σ g).
    - apply writes_nil. }
  destruct (db_scan _ _ _ _ _) as [items|e] eqn:Escan; [|by split_and!].
  apply (log_scan db g (σ g) None) in Escan as ->; [|done..]. cbn [default].
  rewrite filter_all by (intros e He; by apply Hok).
  rewrite (omap_log_items g _ (delete_below n) (fun e => e.1 < n)
    (fun e => DeleteKey RAFT_PARTITION_NAME (log_key g e.1))).
  2:{ intros e He. unfold delete_below. rewrite parse_log_item by (done || by apply Hok).
      destruct (Z.ltb_spec e.1 n); [by rewrite decide_True|by rewrite decide_False by lia]. }
  set (es := filter (fun e => e.1 < n) (btree_entries (gs_log (σ g)))).
  eapply (write_step db σ g _ ((fun i => (KLog i, None)) <$> es.*1)); try done.
  - apply Forall_fmap, Forall_fmap, Forall_forall. intros e [_ He]%list_elem_of_filter. by apply Hok.
  - apply Hdel. intros i tp Hin. rewrite list_elem_of_fmap. split.
    + intros (e & -> & [He _]%list_elem_of_filter). lia.
    + intros Hlt. exists (i, tp). split; [done|]. apply list_elem_of_filter. cbn. split; [lia|].
      by apply btree_elem.
  - by destruct (σ g).
  - apply delete_writes.
Qed.

Lemma delete_from_step (db : Database) σ g n :
  represents (view db) σ -> db_session db = None -> group_ok g -> is_u64 n ->
  step_ok (finish_write (delete_logs_from g db n)).2 σ g (ODeleteFrom n)
    (finish_write (delete_logs_from g db n)).1.
Proof.
  intros Hr Hs Hg Hn. destruct (Hr g Hg) as [Hlo Hgr]. pose proof (log_entries_ok _ _ Hgr) as Hok.
  rewrite Forall_forall in Hok. unfold delete_logs_from.
  destruct (db_scan _ _ _ _ _) as [items|e] eqn:Escan; [|by split_and!].
  apply (log_scan db g (σ g) (Some n)) in Escan as ->; [|done..]. cbn [default].
  set (es := filter (fun e => default 0 (Some n) <= e.1) (btree_entries (gs_log (σ g)))).
  assert (forall e, e ∈ es -> n <= e.1 /\ is_u64 e.1) as Hes.
  { intros e [Hle He]%list_elem_of_filter. split; [done|]. by apply Hok. }
  rewrite (omap_log_items g _ delete_parsed (fun _ => True)
    (fun e => DeleteKey RAFT_PARTITION_NAME (log_key g e.1))).
  2:{ intros e He. unfold delete_parsed. rewrite parse_log_item by (done || by apply Hes).
      by rewrite decide_True. }
  rewrite filter_all by done.
  eapply (write_step db σ g _ ((fun i => (KLog i, None)) <$> es.*1)); try done.
  - apply Forall_fmap, Forall_fmap, Forall_forall. intros e He. by apply Hes.
  - apply (delete_rep _ (σ g) (fun i => i < n)); [done| |by destruct (σ g)].
    intros i tp Hin. rewrite list_elem_of_fmap. split.
    + intros (e & -> & [Hle _]%Hes). lia.
    + intros Hge. exists (i, tp). split; [done|]. apply list_elem_of_filter. cbn. split; [lia|].
      by apply btree_elem.
  - by destruct (σ g).
  - apply delete_writes.
Qed.

Lemma append_step (db : Database) σ g es la :
  represents (view db) σ -> db_session db = None -> group_ok g -> store_op_ok (OAppend es la) ->
  step_ok (store_op g db (OAppend es la)).2 σ g (OAppend es la) (store_op g db (OAppend es la)).1.
Proof.
  intros Hr Hs Hg [Hes Hla]. destruct (Hr g Hg) as [Hlo Hgr].
  set (ws := ((fun e => (KLog (le_index e), Some (encode_record e))) <$> es) ++
     match la with Some id => [(KApplied, Some (encode_packed id))] | None => [] end).
  eapply (write_step db σ g _ ws); try done.
  - apply Forall_app. split; [|by destruct la; repeat constructor].
    apply Forall_fmap. eapply Forall_impl; [exact Hes|]. by intros e [He _].
  - by apply append_rep.
  - by destruct (σ g).
  - assert (((fun r => Put RAFT_PARTITION_NAME (log_key g r.1) r.2) <$>
        ((fun e => (le_index e, encode_record e)) <$> es)) ++
        match la with
        | Some id => [Put RAFT_PARTITION_NAME (last_applied_key g) (encode_packed id)]
        | None => []
        end = cell_op g <$> ws) as Heq.
    { unfold ws. rewrite fmap_app, <-!list_fmap_compose. f_equal; [|by destruct la].
      apply list_fmap_ext. intros i e _. unfold compose, cell_op. cbn [fst snd]. by rewrite log_key_raft. }
    unfold append_encoded_with. rewrite Heq.
    destruct es as [|e es], la as [id|]; try (apply db_batch_writes, surjective_pairing).
    apply writes_nil.
Qed.

Lemma run_op_refines (db : Database) σ g op :
  represents (view db) σ -> db_session db = None -> group_ok g -> store_op_ok op ->
  step_ok (store_op g db op).2 σ g op (store_op g db op).1.
Proof.
  intros Hr Hs Hg Hop. pose proof (Hr g Hg) as [Hlo Hgr]. pose proof Hgr as Hgr'. destruct Hgr'.
  destruct op as [es la|i|a b| |i|i|v| |c id|c|bytes| |m| |d|]; cbn [store_op].
  - by apply append_step.
  - apply read_step; [done|done|by destruct (σ g)|].
    intros x (found & Hf & Hx)%result_bind_ok. rewrite log_key_raft in Hf. apply raft_get_cell in Hf as ->.
    rewrite gr_log0 in Hx by done. destruct (σ g) as [log ? ? ? ? ? ? ?]. group_simpl. cbn [spec_op snd].
    destruct (log !! i) as [tp|] eqn:E; cbn [fmap option_fmap option_map] in Hx |- *; [|by injection Hx as <-].
    apply gr_dom0 in E as [_ Ht]. unfold decode_record in Hx.
    rewrite decode_encoded_log_record in Hx by done. by injection Hx as <-.
  - apply read_step; [done|done|by destruct (σ g)|]. intros es Hes.
    apply (scan_logs_spec db g (σ g)) in Hes as ->; [|done|apply Hop|done|done]. by destruct (σ g).
  - apply read_step; [done|done|by destruct (σ g)|]. intros r Hx.
    apply (last_log_index_spec db g (σ g)) in Hx as ->; [|done..]. by destruct (σ g).
  - by apply delete_before_step.
  - by apply delete_from_step.
  - apply (save_entity_step db σ g (OSaveVote v) KVote v); try done; [|by destruct (σ g)]. intros b Hb.
    destruct (σ g); cbn [spec_op fst]; group_simpl. constructor; group_simpl; try assumption.
    by apply decode_encoded_entity.
  - apply read_step; [done|done|by destruct (σ g)|]. intros x Hx.
    apply (read_entity_holds db g KVote _ _ gr_vote0) in Hx as ->. by destruct (σ g).
  - assert (holds decode_packed (encode_packed <$> id) id) as Hid.
    { destruct id as [id|]; [|done]. by apply decode_encoded_id. }
    destruct c;
      [apply (put_log_id_step db σ g (OSaveId CommitCell id) KCommit id)
      |apply (put_log_id_step db σ g (OSaveId PurgeCell id) KPurge id)
      |apply (put_log_id_step db σ g (OSaveId AppliedCell id) KApplied id)];
      try done; try (by destruct (σ g));
      destruct (σ g); cbn [spec_op fst]; group_simpl; constructor; group_simpl; assumption.
  - destruct c; (apply read_step; [done|done|by destruct (σ g)|]); intros x Hx;
      [apply (read_log_id_holds db g KCommit _ _ gr_commit0) in Hx as ->
      |apply (read_log_id_holds db g KPurge _ _ gr_purge0) in Hx as ->
      |apply (read_log_id_holds db g KApplied _ _ gr_applied0) in Hx as ->]; by destruct (σ g).
  - eapply (write_step db σ g _ [(KMembership, Some bytes)]); try done; [by repeat constructor| |by destruct (σ g)|].
    + destruct (σ g); cbn [spec_op fst]; group_simpl. constructor; group_simpl; try assumption. done.
    + apply (db_put_writes db RAFT_PARTITION_NAME (raft_key g KMembership) bytes). apply surjective_pairing.
  - apply read_step; [done|done|by destruct (σ g)|]. intros x Hx.
    apply (raft_get_cell db g KMembership) in Hx as ->. rewrite gr_membership0. by destruct (σ g).
  - apply (save_entity_step db σ g (OSaveSnapMeta m) KSnapMeta m); try done; [|by destruct (σ g)]. intros b Hb.
    destruct (σ g); cbn [spec_op fst]; group_simpl. constructor; group_simpl; try assumption.
    by apply decode_encoded_entity.
  - apply read_step; [done|done|by destruct (σ g)|]. intros x Hx.
    apply (read_entity_holds db g KSnapMeta _ _ gr_snap_meta0) in Hx as ->. by destruct (σ g).
  - apply (save_entity_step db σ g (OSaveSnapData d) KSnapData d); try done; [|by destruct (σ g)]. intros b Hb.
    destruct (σ g); cbn [spec_op fst]; group_simpl. constructor; group_simpl; try assumption.
    by apply decode_encoded_entity.
  - apply read_step; [done|done|by destruct (σ g)|]. intros x Hx.
    apply (read_entity_holds db g KSnapData _ _ gr_snap_data0) in Hx as ->. by destruct (σ g).
Qed.

Lemma run_ops_refines ops : forall (db : Database) σ,
  represents (view db) σ -> db_session db = None ->
  Forall (fun x => group_ok x.1 /\ store_op_ok x.2) ops ->
  exists σ', spec_run σ ops (run_ops db ops).1 σ' /\ represents (view (run_ops db ops).2) σ'.
Proof.
  induction ops as [|[g op] ops IH]; intros db σ Hr Hs Hok; cbn [run_ops].
  { exists σ. split; [constructor|done]. }
  apply Forall_cons in Hok as [[Hg Hop] Hok]. cbn [fst snd] in *.
  destruct (run_op_refines db σ g op Hr Hs Hg Hop) as (Hs1 & Hr1 & Hout).
  destruct (store_op g db op) as [r db1] eqn:E. cbn [fst snd] in *.
  destruct (IH db1 _ Hr1 Hs1 Hok) as (σ' & Hrun & Hrep).
  destruct (run_ops db1 ops) as [rs db2]. cbn [fst snd] in *. exists σ'. split; [|done].
  destruct r as [out|e]; cbn [is_ok] in Hrun.
  - rewrite (Hout out eq_refl). by constructor.
  - by constructor.
Qed.

End Refine.

Definition empty_group : GroupState := mkGroupState ∅ None None None None None None None.

Lemma empty_represents `{!Serde RaftVote, !Serde RaftSnapshotMeta, !Serde RaftSnapshotData} (v : View) :
  (forall key, v RAFT_PARTITION_NAME key = None) -> represents v (fun _ => empty_group).
Proof.
  intros Hempty g Hg. split; [intros key x Hk; by rewrite Hempty in Hk|].
  constructor; cbn [gs_log gs_vote gs_commit gs_purge gs_applied gs_membership gs_snap_meta gs_snap_data
    empty_group]; unfold cells; rewrite ?Hempty; try done.
Qed.

(** C8. The durable Raft log implements one log and a few cells per group.  Started on an empty
    partition, every answer of any interleaving of the groups' operations (append, get, range scan,
    last index, truncation, purge, vote, progress, membership, snapshot references) is the answer
    of the specification, in which an operation changes its own group only; an operation that
    reports an error has changed nothing. *)
Theorem raft_store_refines_logs {D Hook : Type} `{BackendLaws D}
    `{!Serde RaftVote, !Serde RaftSnapshotMeta, !Serde RaftSnapshotData,
      !SerdeLaws RaftVote, !SerdeLaws RaftSnapshotMeta, !SerdeLaws RaftSnapshotData}
    (db : Db D Hook) (ops : list (GroupId * RaftOp)) :
  (forall key, backend_view (db_backend db) RAFT_PARTITION_NAME key = None) ->
  db_session db = None ->
  Forall (fun x => group_ok x.1 /\ store_op_ok x.2) ops ->
  exists σ, spec_run (fun _ => empty_group) ops (run_ops db ops).1 σ /\
    represents (backend_view (db_backend (run_ops db ops).2)) σ.
Proof.
  intros Hempty Hs Hok. apply run_ops_refines; [|done|done]. by apply empty_represents.
Qed.

(** ** A concrete run *)

Module RaftLogWitness.

#[local] Instance vote_serde : Serde RaftVote := RaftDataWitness.serde_none _.
#[local] Instance meta_serde : Serde RaftSnapshotMeta := RaftDataWitness.serde_none _.
#[local] Instance data_serde : Serde RaftSnapshotData := RaftDataWitness.serde_none _.

Lemma none_laws (T : Type) : @SerdeLaws T (RaftDataWitness.serde_none T).
Proof. by constructor. Qed.

Definition db0 : Db InMemoryBackend unit := mkDb memory_new None [].

Definition ops0 : list (GroupId * RaftOp) :=
  [(Meta, OAppend [mkLogEntry 9 1 [0]; mkLogEntry 10 1 [1; 7]; mkLogEntry 11 2 [1; 8]] None);
   (DataUserShard 5, OAppend [mkLogEntry 10 3 [1; 1]] (Some (mkRaftLogId 3 10)));
   (Meta, OSaveVote (mkRaftVote 2 (Some 1) true));
   (Meta, ODeleteBefore 10);
   (Meta, OScan 0 100);
   (Meta, ODeleteFrom 11);
   (Meta, OLastIndex);
   (DataUserShard 5, OReadId AppliedCell);
   (DataUserShard 5, OGet 10)].

Ltac solve_ok :=
  repeat match goal with
  | |- Forall _ (_ :: _) => apply Forall_cons
  | |- Forall _ [] => apply Forall_nil_2
  | |- True => exact I
  | |- is_u64 _ => cbn [le_index le_term rl_term rl_index]; unfold is_u64, u64_max; lia
  | |- group_ok _ => cbn [group_ok fst]; unfold u32_max; first [exact I | lia]
  | |- store_op_ok _ => cbn [store_op_ok snd]
  | |- entry_ok _ => unfold entry_ok
  | |- id_ok _ => unfold id_ok
  | |- _ /\ _ => split
  end.

Lemma raft_store_refines_logs_witness :
  (run_ops db0 ops0).1 =
    [Ok Done; Ok Done; Err (StoreSerialization "object serialization"); Ok Done;
     Ok (OutEntries [mkLogEntry 10 1 [1; 7]; mkLogEntry 11 2 [1; 8]]); Ok Done;
     Ok (OutIndex (Some 10)); Ok (OutId (Some (mkRaftLogId 3 10)));
     Ok (OutEntry (Some (mkLogEntry 10 3 [1; 1])))] /\
  exists σ, spec_run (fun _ => empty_group) ops0 (run_ops db0 ops0).1 σ.
Proof.
  split; [vm_compute; reflexivity|].
  destruct (@raft_store_refines_logs InMemoryBackend unit _ _ _ _ _ (none_laws _) (none_laws _)
    (none_laws _) db0 ops0) as (σ & Hrun & _); [reflexivity|reflexivity| |by exists σ].
  unfold ops0. solve_ok.
Defined.

End RaftLogWitness.
