(* ===== verification/RaftStore.v ===== *)
(** * RaftStore: the storage of a Raft group

    kalamdb-raft/src/storage/raft_store.rs (and log_io.rs): [KalamRaftStorage] serves openraft's
    storage traits from a bounded in-memory cache of recent log entries over the durable log of
    [RaftLog], runs the state machine, and writes and restores snapshots.

    [LogId], [Vote] and [Entry] are the data types of openraft's public interface; the membership
    is a parameter.  The state machine is the class [KalamStateMachine]; it works on the same
    database as the log.  A call that hands work to the log-IO thread returns the job, and running
    it is a step of its own. *)

From Stdlib Require Import ZArith Lia Ascii Sorting.Sorted.
From stdpp Require Import base strings gmap list sorting pretty.
From S2P Require Import Prelude Sharding Protocol RaftCommands RaftData Storage RaftLog.

Open Scope Z_scope.
Open Scope kalam_scope.

(** ** openraft's types *)

Record LeaderId := mkLeader { leader_term : Z; leader_node : Z }.
Record LogId := mkLogId { leader_id : LeaderId; log_index : Z }.
Record Vote := mkVote { vote_leader : LeaderId; vote_committed : bool }.

Inductive EntryPayload (Membership : Type) :=
| Blank
| NormalEntry (data : Bytes)
| MembershipEntry (m : Membership).
Arguments Blank {Membership}.
Arguments NormalEntry {Membership}.
Arguments MembershipEntry {Membership}.

Record Entry (Membership : Type) := mkEntry { entry_id : LogId; entry_payload : EntryPayload Membership }.
Arguments mkEntry {Membership}.
Arguments entry_id {Membership}.
Arguments entry_payload {Membership}.

Record StoredMembership (Membership : Type) := mkMembership {
  membership_log_id : option LogId;
  membership_of : Membership
}.
Arguments mkMembership {Membership}.
Arguments membership_log_id {Membership}.
Arguments membership_of {Membership}.

(** [Bound] of the standard library. *)
Inductive Bound := Included (x : Z) | Excluded (x : Z) | Unbounded.

(** openraft's [StorageError], by the operation it names. *)
Inductive RaftIoError :=
| WriteVoteError (e : StorageError)
| ReadLogsError (e : StorageError)
| WriteLogsError (e : StorageError)
| EncodeLogError (e : RaftError)
| WriteError (e : StorageError)
| ApplyStopped (message : string)
| ReadStateMachineError (e : RaftError)
| ReadSnapshotError (e : RaftError)
| WriteSnapshotError (m : string).
Abbreviation IoResult := (Result RaftIoError).

(** ** Log entries on disk *)

Definition RAFT_LOG_PAYLOAD_BLANK : Z := 0.
Definition RAFT_LOG_PAYLOAD_NORMAL : Z := 1.
Definition RAFT_LOG_PAYLOAD_MEMBERSHIP : Z := 2.

(** The node of the leader is not stored; [stored_log_id] makes it 0. *)
Definition stored_log_id (term index : Z) : LogId := mkLogId (mkLeader term 0) index.

Definition LOG_CACHE_SIZE : Z := 1000.
Definition LOG_CACHE_MAX_BYTES : Z := 16 * 1024 * 1024.

Record LogEntryData := mkLogData { ld_log_id : LogId; ld_payload : Bytes }.

(** ** The state machine of a group, as the storage uses it *)

Class KalamStateMachine (M Db : Type) := {
  sm_apply : M -> Db -> Z -> Z -> Bytes -> RaftResult ApplyResult * M * Db;
  sm_mark_applied_index : M -> Z -> Z -> M;
  sm_last_applied_index : M -> Z;
  sm_snapshot : M -> RaftResult StateMachineSnapshot;
  sm_restore : M -> StateMachineSnapshot -> RaftResult unit * M
}.

Record SnapshotMeta (Membership : Type) := mkSnapshotMeta {
  meta_last_log_id : option LogId;
  meta_last_membership : StoredMembership Membership;
  meta_snapshot_id : string
}.
Arguments mkSnapshotMeta {Membership}.
Arguments meta_last_log_id {Membership}.
Arguments meta_last_membership {Membership}.
Arguments meta_snapshot_id {Membership}.

Record StoredSnapshot (Membership : Type) := mkStoredSnapshot {
  stored_meta : SnapshotMeta Membership;
  stored_data : Bytes
}.
Arguments mkStoredSnapshot {Membership}.
Arguments stored_meta {Membership}.
Arguments stored_data {Membership}.

(** What a snapshot file holds. *)
Record StateMachineData (Membership : Type) := mkMachineData {
  smd_last_applied_log : option LogId;
  smd_last_membership : StoredMembership Membership;
  smd_state_applied_index : Z;
  smd_state_applied_term : Z;
  smd_state : Bytes
}.
Arguments mkMachineData {Membership}.
Arguments smd_last_applied_log {Membership}.
Arguments smd_last_membership {Membership}.
Arguments smd_state_applied_index {Membership}.
Arguments smd_state_applied_term {Membership}.
Arguments smd_state {Membership}.

(** ** Snapshot files *)

Definition group_dir_name (g : GroupId) : string :=
  match g with
  | Meta => "meta"
  | DataUserShard n => "user_" +:+ string_of_bytes (decimal n)
  | DataSharedShard n => "shared_" +:+ string_of_bytes (decimal n)
  end.

(** A character outside [a-zA-Z0-9_-] becomes an underscore; the identifiers openraft and this
    file build are ASCII, so a character is a byte. *)
Definition sanitize_byte (b : Z) : Z :=
  if ascii_alphanumeric b || (b =? 45) || (b =? 95) then b else 95.

Definition sanitize_for_filename (value : string) : string :=
  string_of_bytes (sanitize_byte <$> bytes_of_string value).

Definition group_snapshots_dir (base : string) (g : GroupId) : string :=
  base +:+ "/" +:+ group_dir_name g.

Definition snapshot_file_path (base : string) (g : GroupId) (snapshot_id : string) : string :=
  group_snapshots_dir base g +:+ "/" +:+ sanitize_for_filename snapshot_id +:+ ".bin".

(** [path.with_extension("tmp")] for the paths above. *)
Definition tmp_path (base : string) (g : GroupId) (snapshot_id : string) : string :=
  group_snapshots_dir base g +:+ "/" +:+ sanitize_for_filename snapshot_id +:+ ".tmp".

(** The file system: creating a file with contents and syncing it, renaming, reading. *)
Class FileSystem (F : Type) := {
  fs_write : F -> string -> Bytes -> Result string unit * F;
  fs_rename : F -> string -> string -> Result string unit * F;
  fs_read : F -> string -> Result string Bytes
}.

Definition write_snapshot_file {F} `{FileSystem F} (fs : F) (base : string) (g : GroupId)
    (snapshot_id : string) (data : Bytes) : Result string unit * F :=
  match fs_write fs (tmp_path base g snapshot_id) data with
  | (Err e, fs1) => (Err e, fs1)
  | (Ok _, fs1) =>
      fs_rename fs1 (tmp_path base g snapshot_id) (snapshot_file_path base g snapshot_id)
  end.

(** ** The storage *)

Record RaftStorage (Membership M : Type) := mkStorage {
  rs_group : GroupId;
  rs_persistent : bool;
  rs_flush_log_on_append : bool;
  rs_log : gmap Z LogEntryData;
  rs_log_cache_bytes : Z;
  rs_vote : option Vote;
  rs_committed : option LogId;
  rs_last_purged : option LogId;
  rs_last_log_id : option LogId;
  rs_state_machine : M;
  rs_last_applied : option LogId;
  rs_last_membership : StoredMembership Membership;
  rs_snapshot_idx : Z;
  rs_snapshots_dir : option string;
  rs_current_snapshot : option (StoredSnapshot Membership)
}.
Arguments mkStorage {Membership M}.
Arguments rs_group {Membership M}.
Arguments rs_persistent {Membership M}.
Arguments rs_flush_log_on_append {Membership M}.
Arguments rs_log {Membership M}.
Arguments rs_log_cache_bytes {Membership M}.
Arguments rs_vote {Membership M}.
Arguments rs_committed {Membership M}.
Arguments rs_last_purged {Membership M}.
Arguments rs_last_log_id {Membership M}.
Arguments rs_state_machine {Membership M}.
Arguments rs_last_applied {Membership M}.
Arguments rs_last_membership {Membership M}.
Arguments rs_snapshot_idx {Membership M}.
Arguments rs_snapshots_dir {Membership M}.
Arguments rs_current_snapshot {Membership M}.

Section Setters.
Context {Membership M : Type}.
Abbreviation Storage := (RaftStorage Membership M).

Definition set_flush_log_on_append (s : Storage) (flush : bool) : Storage :=
  mkStorage (rs_group s) (rs_persistent s) flush (rs_log s) (rs_log_cache_bytes s) (rs_vote s)
    (rs_committed s) (rs_last_purged s) (rs_last_log_id s) (rs_state_machine s) (rs_last_applied s)
    (rs_last_membership s) (rs_snapshot_idx s) (rs_snapshots_dir s) (rs_current_snapshot s).

Definition set_log (s : Storage) (log : gmap Z LogEntryData) (bytes : Z) : Storage :=
  mkStorage (rs_group s) (rs_persistent s) (rs_flush_log_on_append s) log bytes (rs_vote s)
    (rs_committed s) (rs_last_purged s) (rs_last_log_id s) (rs_state_machine s) (rs_last_applied s)
    (rs_last_membership s) (rs_snapshot_idx s) (rs_snapshots_dir s) (rs_current_snapshot s).

Definition set_vote (s : Storage) (vote : option Vote) : Storage :=
  mkStorage (rs_group s) (rs_persistent s) (rs_flush_log_on_append s) (rs_log s) (rs_log_cache_bytes s)
    vote (rs_committed s) (rs_last_purged s) (rs_last_log_id s) (rs_state_machine s) (rs_last_applied s)
    (rs_last_membership s) (rs_snapshot_idx s) (rs_snapshots_dir s) (rs_current_snapshot s).

Definition set_committed (s : Storage) (committed : option LogId) : Storage :=
  mkStorage (rs_group s) (rs_persistent s) (rs_flush_log_on_append s) (rs_log s) (rs_log_cache_bytes s)
    (rs_vote s) committed (rs_last_purged s) (rs_last_log_id s) (rs_state_machine s) (rs_last_applied s)
    (rs_last_membership s) (rs_snapshot_idx s) (rs_snapshots_dir s) (rs_current_snapshot s).

Definition set_last_purged (s : Storage) (id : option LogId) : Storage :=
  mkStorage (rs_group s) (rs_persistent s) (rs_flush_log_on_append s) (rs_log s) (rs_log_cache_bytes s)
    (rs_vote s) (rs_committed s) id (rs_last_log_id s) (rs_state_machine s) (rs_last_applied s)
    (rs_last_membership s) (rs_snapshot_idx s) (rs_snapshots_dir s) (rs_current_snapshot s).

Definition set_last_log_id (s : Storage) (id : option LogId) : Storage :=
  mkStorage (rs_group s) (rs_persistent s) (rs_flush_log_on_append s) (rs_log s) (rs_log_cache_bytes s)
    (rs_vote s) (rs_committed s) (rs_last_purged s) id (rs_state_machine s) (rs_last_applied s)
    (rs_last_membership s) (rs_snapshot_idx s) (rs_snapshots_dir s) (rs_current_snapshot s).

Definition set_machine (s : Storage) (m : M) : Storage :=
  mkStorage (rs_group s) (rs_persistent s) (rs_flush_log_on_append s) (rs_log s) (rs_log_cache_bytes s)
    (rs_vote s) (rs_committed s) (rs_last_purged s) (rs_last_log_id s) m (rs_last_applied s)
    (rs_last_membership s) (rs_snapshot_idx s) (rs_snapshots_dir s) (rs_current_snapshot s).

Definition set_last_applied (s : Storage) (id : option LogId) : Storage :=
  mkStorage (rs_group s) (rs_persistent s) (rs_flush_log_on_append s) (rs_log s) (rs_log_cache_bytes s)
    (rs_vote s) (rs_committed s) (rs_last_purged s) (rs_last_log_id s) (rs_state_machine s) id
    (rs_last_membership s) (rs_snapshot_idx s) (rs_snapshots_dir s) (rs_current_snapshot s).

Definition set_membership (s : Storage) (m : StoredMembership Membership) : Storage :=
  mkStorage (rs_group s) (rs_persistent s) (rs_flush_log_on_append s) (rs_log s) (rs_log_cache_bytes s)
    (rs_vote s) (rs_committed s) (rs_last_purged s) (rs_last_log_id s) (rs_state_machine s)
    (rs_last_applied s) m (rs_snapshot_idx s) (rs_snapshots_dir s) (rs_current_snapshot s).

Definition set_snapshot (s : Storage) (idx : Z) (snapshot : option (StoredSnapshot Membership)) : Storage :=
  mkStorage (rs_group s) (rs_persistent s) (rs_flush_log_on_append s) (rs_log s) (rs_log_cache_bytes s)
    (rs_vote s) (rs_committed s) (rs_last_purged s) (rs_last_log_id s) (rs_state_machine s)
    (rs_last_applied s) (rs_last_membership s) idx (rs_snapshots_dir s) snapshot.

End Setters.

(** ** Encoding entries *)

Section Codec.
Context {Membership : Type} `{!Serde Membership}.

Definition encode_stored_entry (e : Entry Membership) : RaftResult Bytes :=
  let index := log_index (entry_id e) in
  let term := leader_term (leader_id (entry_id e)) in
  match entry_payload e with
  | Blank => Ok (encode_raft_log_record_with_tag index term RAFT_LOG_PAYLOAD_BLANK [])
  | NormalEntry data => Ok (encode_raft_log_record_with_tag index term RAFT_LOG_PAYLOAD_NORMAL data)
  | MembershipEntry m =>
      let? encoded := sm_encode m in
      Ok (encode_raft_log_record_with_tag index term RAFT_LOG_PAYLOAD_MEMBERSHIP encoded)
  end.

Definition decode_log_payload (bytes : Bytes) : RaftResult (EntryPayload Membership) :=
  match bytes with
  | [] => Err (Serialization "empty raft log payload")
  | tag :: rest =>
      if (tag =? RAFT_LOG_PAYLOAD_BLANK) && match rest with [] => true | _ => false end then Ok Blank
      else if tag =? RAFT_LOG_PAYLOAD_NORMAL then Ok (NormalEntry rest)
      else if tag =? RAFT_LOG_PAYLOAD_MEMBERSHIP then
        let? m := sm_decode rest in Ok (MembershipEntry m)
      else Err (Serialization "unknown raft log payload tag")
  end.

Definition entry_from_payload (id : LogId) (payload : Bytes) : option (Entry Membership) :=
  match decode_log_payload payload with
  | Ok p => Some (mkEntry id p)
  | Err _ => None
  end.

End Codec.

Definition in_bounds (lo hi : Bound) (i : Z) : bool :=
  match lo with Included s => s <=? i | Excluded s => s <? i | Unbounded => true end &&
  match hi with Included e => i <=? e | Excluded e => i <? e | Unbounded => true end.

Definition cache_covers_range (log : gmap Z LogEntryData) (start end_ : Z) : bool :=
  if end_ <=? start then true
  else
    let expected := saturating_sub end_ start in
    if Z.of_nat (size log) <? expected then false
    else
      Z.of_nat (length (filter (fun e => (start <=? e.1) && (e.1 <? end_)) (btree_entries log)))
        =? expected.

(** The loop of [trim_log_cache] over the entries in key order. *)
Fixpoint trim_loop (es : list (Z * LogEntryData)) (bytes : Z) : list (Z * LogEntryData) * Z :=
  match es with
  | [] => ([], bytes)
  | (k, e) :: rest =>
      if (LOG_CACHE_SIZE <? Z.of_nat (length es)) || (LOG_CACHE_MAX_BYTES <? bytes) then
        trim_loop rest (u64_sub bytes (Z.of_nat (length (ld_payload e))))
      else (es, bytes)
  end.

Definition trim_log_cache (log : gmap Z LogEntryData) (bytes : Z) : gmap Z LogEntryData * Z :=
  let '(es, bytes') := trim_loop (btree_entries log) bytes in (list_to_map es, bytes').

(** [log.iter().next_back()]. *)
Definition cache_last_log_id (log : gmap Z LogEntryData) : option LogId :=
  (fun e => ld_log_id e.2) <$> last (btree_entries log).

(** Removing the entries a test selects, and the bytes they count. *)
Definition remove_entries (p : Z -> bool) (log : gmap Z LogEntryData) (bytes : Z) :
    gmap Z LogEntryData * Z :=
  let removed := filter (fun e => p e.1) (btree_entries log) in
  (foldr delete log removed.*1,
   u64_sub bytes (foldr (fun e n => Z.of_nat (length (ld_payload e.2)) + n) 0 removed)).

Section Storage.
Context {D Hook F M Membership : Type}.
Context `{StorageBackend D, FileSystem F, !KalamStateMachine M (Db D Hook)}.
Context `{!Serde RaftVote, !Serde RaftSnapshotMeta, !Serde RaftSnapshotData}.
Context `{!Serde Membership, !Serde (StoredMembership Membership), !Serde (StateMachineData Membership)}.
Context (default_membership : StoredMembership Membership) (leader_id_text : LeaderId -> string).
Abbreviation Storage := (RaftStorage Membership M).
Abbreviation Database := (Db D Hook).
Abbreviation Entries := (list (Entry Membership)).

Definition raft_log_id (id : LogId) : RaftLogId := mkRaftLogId (leader_term (leader_id id)) (log_index id).

(** ** Construction and recovery *)

Definition storage_new (g : GroupId) (m : M) : Storage :=
  mkStorage g false true ∅ 0 None None None None m None default_membership 0 None None.

(** The loop of [new_persistent] over the scanned entries. *)
Definition load_cache (es : list RaftLogEntry) (last : option LogId) :
    gmap Z LogEntryData * Z * option LogId :=
  foldl (fun '(log, bytes, last) e =>
    match decode_log_payload (Membership := Membership) (le_payload e) with
    | Ok _ =>
        let record := encode_record e in
        let id := stored_log_id (le_term e) (le_index e) in
        (<[le_index e := mkLogData id record]> log, u64_add bytes (Z.of_nat (length record)), Some id)
    | Err _ => (log, bytes, last)
    end) (∅, 0, last) es.

Definition recover_log (g : GroupId) (db : Database) :
    StoreResult (gmap Z LogEntryData * Z * option LogId) :=
  let? last_idx := last_log_index g db in
  match last_idx with
  | None => Ok (∅, 0, None)
  | Some last_idx =>
      let? found := get_log g db last_idx in
      let recovered := (fun e => stored_log_id (le_term e) (le_index e)) <$> found in
      let start_idx := saturating_sub last_idx (LOG_CACHE_SIZE - 1) in
      let? es := scan_logs g db start_idx (u64_add last_idx 1) in
      Ok (load_cache es recovered)
  end.

Definition io_error (e : string) : StorageError := IoError e.

(** The snapshot the store refers to, with what its file says. *)
Definition recover_snapshot (g : GroupId) (db : Database) (fs : F) :
    StoreResult (option (StoredSnapshot Membership) * option LogId * option (StoredMembership Membership)) :=
  let? meta := read_snapshot_meta g db in
  let? data := read_snapshot_data g db in
  match meta, data with
  | Some meta, Some (FilePath path) =>
      let last_log_id := (fun id => stored_log_id (rl_term id) (rl_index id)) <$> rm_last_log_id meta in
      let? bytes := map_err io_error (fs_read fs path) in
      let sm_data : option (StateMachineData Membership) :=
        match sm_decode bytes with Ok d => Some d | Err _ => None end in
      let membership :=
        match sm_data with Some d => smd_last_membership d | None => default_membership end in
      Ok (Some (mkStoredSnapshot (mkSnapshotMeta last_log_id membership (rm_snapshot_id meta)) bytes),
          sm_data ≫= smd_last_applied_log, Some membership)
  | _, _ => Ok (None, None, None)
  end.

(** The text after the last ['-'], as a number. *)
Definition snapshot_number (snapshot_id : string) : Z :=
  let bytes := bytes_of_string snapshot_id in
  let tail := match rsplit_once 45 bytes with Some (_, t) => t | None => bytes end in
  default 0 (parse_unsigned u64_max tail).

Definition option_or {A} (a b : option A) : option A := match a with Some x => Some x | None => b end.

Definition recover_committed (disk_commit last_applied : option LogId) : option LogId :=
  match disk_commit, last_applied with
  | Some commit, Some applied => if log_index applied <=? log_index commit then Some commit else Some applied
  | Some commit, None => Some commit
  | None, applied => applied
  end.

Definition recover_vote (v : RaftVote) : Vote :=
  mkVote (mkLeader (rv_term v) (default 0 (rv_voted_for v))) (rv_committed v).

Definition read_stored_id (r : StoreResult (option RaftLogId)) : StoreResult (option LogId) :=
  let? id := r in Ok ((fun id => stored_log_id (rl_term id) (rl_index id)) <$> id).

Definition new_persistent (g : GroupId) (m : M) (db : Database) (fs : F) (snapshots_dir : string) :
    StoreResult Storage :=
  let? vote := read_vote g db in
  let? last_purged := read_stored_id (read_purge g db) in
  let? persisted_last_applied := read_stored_id (read_last_applied g db) in
  let? membership_bytes := read_last_membership g db in
  let persisted_membership :=
    membership_bytes ≫= fun b => match sm_decode b with Ok m => Some m | Err _ => None end in
  let? (cache, bytes, recovered_last_log_id) := recover_log g db in
  let? (current_snapshot, snapshot_last_applied, snapshot_membership) := recover_snapshot g db fs in
  let last_applied := option_or persisted_last_applied snapshot_last_applied in
  let? disk_commit := read_stored_id (read_commit g db) in
  let committed := recover_committed disk_commit last_applied in
  let membership :=
    default default_membership (option_or persisted_membership snapshot_membership) in
  let snapshot_idx :=
    match current_snapshot with
    | Some s => snapshot_number (meta_snapshot_id (stored_meta s))
    | None => 0
    end in
  Ok (mkStorage g true true cache bytes (recover_vote <$> vote) committed last_purged
        recovered_last_log_id m last_applied membership snapshot_idx (Some snapshots_dir)
        current_snapshot).

Definition reconcile_state_machine_progress (s : Storage) : option (Z * Z) * Storage :=
  match rs_last_applied s with
  | None => (None, s)
  | Some last_applied =>
      let current := sm_last_applied_index (rs_state_machine s) in
      if log_index last_applied <=? current then (None, s)
      else
        (Some (current, log_index last_applied),
         set_machine s (sm_mark_applied_index (rs_state_machine s) (log_index last_applied)
                          (leader_term (leader_id last_applied))))
  end.

Definition restore_state_machine_from_snapshot (s : Storage) : RaftResult unit * Storage :=
  match rs_current_snapshot s with
  | None => (Ok tt, (reconcile_state_machine_progress s).2)
  | Some snapshot =>
      match sm_decode (T := StateMachineData Membership) (stored_data snapshot) with
      | Err _ => (Err (Serialization "Failed to decode snapshot"), s)
      | Ok d =>
          match sm_restore (rs_state_machine s)
                  (mkSnapshot (rs_group s) (smd_state_applied_index d) (smd_state_applied_term d)
                     (smd_state d)) with
          | (Err e, m) => (Err e, set_machine s m)
          | (Ok _, m) => (Ok tt, (reconcile_state_machine_progress (set_machine s m)).2)
          end
      end
  end.

Definition has_persisted_state (s : Storage) : bool :=
  bool_decide (is_Some (rs_vote s)) || bool_decide (is_Some (rs_last_applied s)) ||
  bool_decide (is_Some (rs_committed s)) || negb (bool_decide (rs_log s = ∅)).

(** ** Reading the log *)

Definition range_start (lo : Bound) : Z :=
  match lo with Included s => s | Excluded s => u64_add s 1 | Unbounded => 0 end.
Definition range_end (hi : Bound) : Z :=
  match hi with Included e => u64_add e 1 | Excluded e => e | Unbounded => u64_max end.

Definition get_log_entries_sync (s : Storage) (db : Database) (lo hi : Bound) : Entries :=
  let start := range_start lo in
  let end_ := range_end hi in
  if end_ <=? start then []
  else if cache_covers_range (rs_log s) start end_ || negb (rs_persistent s) then
    omap (fun e => entry_from_payload (ld_log_id e.2) (raft_log_tagged_payload (ld_payload e.2)))
      (filter (fun e => in_bounds lo hi e.1) (btree_entries (rs_log s)))
  else
    match scan_logs (rs_group s) db start end_ with
    | Ok es => omap (fun e => entry_from_payload (stored_log_id (le_term e) (le_index e)) (le_payload e)) es
    | Err _ => []
    end.

Definition persistent_last_log_id (s : Storage) (db : Database) : IoResult (option LogId) :=
  if rs_persistent s then
    let? index := map_err ReadLogsError (last_log_index (rs_group s) db) in
    match index with
    | None => Ok None
    | Some index =>
        let? e := map_err ReadLogsError (get_log (rs_group s) db index) in
        Ok ((fun e => stored_log_id (le_term e) (le_index e)) <$> e)
    end
  else Ok None.

Definition set_last_log_id_after_deletion (s : Storage) (db : Database) (cache_last : option LogId) :
    IoResult unit * Storage :=
  match (if rs_persistent s then persistent_last_log_id s db else Ok cache_last) with
  | Err e => (Err e, s)
  | Ok updated => (Ok tt, set_last_log_id s updated)
  end.

(** ** Votes and progress *)

Definition save_vote_raft (s : Storage) (db : Database) (vote : Vote) : IoResult unit * Storage * Database :=
  if rs_persistent s then
    match save_vote (rs_group s) db
            (mkRaftVote (leader_term (vote_leader vote)) (Some (leader_node (vote_leader vote)))
               (vote_committed vote)) with
    | (Err e, db') => (Err (WriteVoteError e), s, db')
    | (Ok _, db') => (Ok tt, set_vote s (Some vote), db')
    end
  else (Ok tt, set_vote s (Some vote), db).

Definition save_committed (s : Storage) (committed : option LogId) : Storage := set_committed s committed.

Definition get_log_state (s : Storage) : option LogId * option LogId :=
  (rs_last_purged s, rs_last_log_id s).

(** ** Appending *)

(** The loop of [stage_log_entries]. *)
Fixpoint stage_loop (persist_now : bool) (es : Entries) (log : gmap Z LogEntryData)
    (staged : list (Z * Bytes)) (added : Z) (newest : option LogId) :
    IoResult (list (Z * Bytes) * Z * option LogId) * gmap Z LogEntryData :=
  match es with
  | [] => (Ok (staged, added, newest), log)
  | e :: rest =>
      match encode_stored_entry e with
      | Err err => (Err (EncodeLogError err), log)
      | Ok record =>
          let index := log_index (entry_id e) in
          stage_loop persist_now rest (<[index := mkLogData (entry_id e) record]> log)
            (if persist_now then staged ++ [(index, record)] else staged)
            (u64_add added (Z.of_nat (length record))) (Some (entry_id e))
      end
  end.

Definition stage_log_entries (s : Storage) (es : Entries) : IoResult (list (Z * Bytes)) * Storage :=
  let persist_now := rs_persistent s && rs_flush_log_on_append s in
  match stage_loop persist_now es (rs_log s) [] 0 None with
  | (Err e, log) => (Err e, set_log s log (rs_log_cache_bytes s))
  | (Ok (staged, added, newest), log) =>
      let bytes := u64_add (rs_log_cache_bytes s) added in
      let '(log, bytes) := if persist_now then trim_log_cache log bytes else (log, bytes) in
      (Ok staged,
       set_last_log_id (set_log s log bytes)
         (option_or (cache_last_log_id log) (option_or newest (rs_last_log_id s))))
  end.

(** [append_entries]: the records handed to the log-IO thread ([None] when the callback is
    completed at once). *)
Definition append_entries (s : Storage) (es : Entries) : IoResult (option (list (Z * Bytes))) * Storage :=
  match stage_log_entries s es with
  | (Err e, s') => (Err e, s')
  | (Ok staged, s') =>
      if rs_flush_log_on_append s' && rs_persistent s' then
        match staged with
        | [] => (Ok None, s')
        | _ => (Ok (Some staged), s')
        end
      else (Ok None, s')
  end.

(** [run_log_io_job]: the result completes the callback. *)
Definition run_log_io_job (g : GroupId) (db : Database) (records : list (Z * Bytes)) :
    StoreResult unit * Database :=
  append_encoded g db records.

(** ** Truncating and purging *)

Definition delete_conflict_logs_since (s : Storage) (db : Database) (id : LogId) :
    IoResult unit * Storage * Database :=
  let '(r, db1) := if rs_persistent s then delete_logs_from (rs_group s) db (log_index id) else (Ok tt, db) in
  match r with
  | Err e => (Err (WriteLogsError e), s, db1)
  | Ok _ =>
      let '(log, bytes) := remove_entries (fun k => log_index id <=? k) (rs_log s) (rs_log_cache_bytes s) in
      let '(r2, s') := set_last_log_id_after_deletion (set_log s log bytes) db1 (cache_last_log_id log) in
      (r2, s', db1)
  end.

(** The part [purge_logs_upto] and [install_snapshot] share. *)
Definition purge_storage (s : Storage) (db : Database) (id : LogId) : IoResult unit * Storage * Database :=
  let '(r, db1) :=
    if rs_persistent s then
      match delete_logs_before (rs_group s) db (u64_add (log_index id) 1) with
      | (Err e, db1) => (Err (WriteLogsError e), db1)
      | (Ok _, db1) =>
          let '(r, db2) := save_purge (rs_group s) db1 (Some (raft_log_id id)) in
          (map_err WriteError r, db2)
      end
    else (Ok tt, db) in
  match r with
  | Err e => (Err e, s, db1)
  | Ok _ =>
      let '(log, bytes) := remove_entries (fun k => k <=? log_index id) (rs_log s) (rs_log_cache_bytes s) in
      let '(r2, s') :=
        set_last_log_id_after_deletion (set_last_purged (set_log s log bytes) (Some id)) db1
          (cache_last_log_id log) in
      (r2, s', db1)
  end.

Definition purge_logs_upto (s : Storage) (db : Database) (id : LogId) : IoResult unit * Storage * Database :=
  purge_storage s db id.

(** ** Applying *)

Fixpoint applied_records (log : gmap Z LogEntryData) (es : Entries) : IoResult (list (Z * Bytes)) :=
  match es with
  | [] => Ok []
  | e :: rest =>
      let index := log_index (entry_id e) in
      let? record :=
        match log !! index with
        | Some data => Ok (ld_payload data)
        | None => map_err EncodeLogError (encode_stored_entry e)
        end in
      let? records := applied_records log rest in
      Ok ((index, record) :: records)
  end.

Definition persist_applied_progress (s : Storage) (db : Database) (es : Entries) (last_applied : LogId) :
    IoResult unit * Storage * Database :=
  if negb (rs_persistent s) then (Ok tt, s, db)
  else
    let applied := raft_log_id last_applied in
    if rs_flush_log_on_append s then
      let '(r, db1) := save_last_applied (rs_group s) db (Some applied) in
      (map_err WriteError r, s, db1)
    else
      match applied_records (rs_log s) es with
      | Err e => (Err e, s, db)
      | Ok records =>
          match append_encoded_with (rs_group s) db records (Some applied) with
          | (Err e, db1) => (Err (WriteLogsError e), s, db1)
          | (Ok _, db1) =>
              let '(log, bytes) := trim_log_cache (rs_log s) (rs_log_cache_bytes s) in
              (Ok tt, set_log s log bytes, db1)
          end
      end.

Definition persist_applied_prefix (s : Storage) (db : Database) (es : Entries) (applied : nat) :
    IoResult unit * Storage * Database :=
  match last (take applied es) with
  | None => (Ok tt, s, db)
  | Some e => persist_applied_progress s db (take applied es) (entry_id e)
  end.

Definition save_membership (s : Storage) (db : Database) (m : StoredMembership Membership) : Database :=
  if rs_persistent s then
    match sm_encode m with
    | Ok encoded => (save_last_membership (rs_group s) db encoded).2
    | Err _ => db
    end
  else db.

(** The loop of [apply_entries_to_state_machine] over the entries still to apply; [results] are
    those of the entries before them. *)
Fixpoint apply_loop (all es : Entries) (s : Storage) (db : Database) (results : list Bytes) :
    IoResult (list Bytes) * Storage * Database :=
  match es with
  | [] =>
      match persist_applied_prefix s db all (length results) with
      | (Err e, s', db') => (Err e, s', db')
      | (Ok _, s', db') => (Ok results, s', db')
      end
  | e :: rest =>
      let id := entry_id e in
      let index := log_index id in
      let term := leader_term (leader_id id) in
      match entry_payload e with
      | Blank =>
          apply_loop all rest
            (set_last_applied (set_machine s (sm_mark_applied_index (rs_state_machine s) index term)) (Some id))
            db (results ++ [[]])
      | NormalEntry data =>
          let '(r, m, db1) := sm_apply (rs_state_machine s) db index term data in
          let s1 := set_machine s m in
          match r with
          | Ok (Applied response) =>
              apply_loop all rest (set_last_applied s1 (Some id)) db1 (results ++ [response])
          | Ok NoOp => apply_loop all rest (set_last_applied s1 (Some id)) db1 (results ++ [[]])
          | Ok (ApplyError _) | Err _ =>
              match persist_applied_prefix s1 db1 all (length results) with
              | (Err e, s', db') => (Err e, s', db')
              | (Ok _, s', db') => (Err (ApplyStopped "state machine apply failed"), s', db')
              end
          end
      | MembershipEntry m =>
          let membership := mkMembership (Some id) m in
          let s1 := set_membership s membership in
          let db1 := save_membership s1 db membership in
          apply_loop all rest
            (set_last_applied (set_machine s1 (sm_mark_applied_index (rs_state_machine s1) index term)) (Some id))
            db1 (results ++ [[]])
      end
  end.

Definition apply_entries_to_state_machine (s : Storage) (db : Database) (es : Entries) :
    IoResult (list Bytes) * Storage * Database :=
  apply_loop es es s db [].

(** A single entry is applied inside a write session, and what it buffered is written in one
    batch together with the progress. *)
Definition apply_to_state_machine (s : Storage) (db : Database) (es : Entries) :
    IoResult (list Bytes) * Storage * Database :=
  if (length es =? 1)%nat && rs_persistent s then
    let '(result, s', (ops, hooks), db1) :=
      with_write_coalesce db (fun db => apply_entries_to_state_machine s db es) in
    match result with
    | Err e => (Err e, s', db1)
    | Ok results =>
        let '(r, db2) := match ops with [] => (Ok tt, db1) | _ => db_batch db1 ops end in
        match r with
        | Err e => (Err (WriteError e), s', db2)
        | Ok _ => (Ok results, s', mkDb (db_backend db2) (db_session db2) (db_ran db2 ++ hooks))
        end
    end
  else apply_entries_to_state_machine s db es.

(** ** Snapshots *)

Definition snapshot_id_of (last_applied : option LogId) (idx : Z) : string :=
  match last_applied with
  | Some last =>
      leader_id_text (leader_id last) +:+ "-" +:+ string_of_bytes (decimal (log_index last)) +:+ "-" +:+
      string_of_bytes (decimal idx)
  | None => "--" +:+ string_of_bytes (decimal idx)
  end.

(** Writing the file and the two references to it; the two puts are separate. *)
Definition persist_snapshot (s : Storage) (db : Database) (fs : F) (last_log_id : option LogId)
    (snapshot_id : string) (data : Bytes) : IoResult unit * Database * F :=
  match rs_snapshots_dir s with
  | None => (Err (WriteSnapshotError "missing snapshots_dir"), db, fs)
  | Some dir =>
      match write_snapshot_file fs dir (rs_group s) snapshot_id data with
      | (Err e, fs1) => (Err (WriteSnapshotError e), db, fs1)
      | (Ok _, fs1) =>
          match save_snapshot_meta (rs_group s) db
                  (mkRaftSnapshotMeta (raft_log_id <$> last_log_id) snapshot_id
                     (Z.of_nat (length data))) with
          | (Err e, db1) => (Err (WriteSnapshotError "snapshot meta"), db1, fs1)
          | (Ok _, db1) =>
              match save_snapshot_data (rs_group s) db1
                      (FilePath (snapshot_file_path dir (rs_group s) snapshot_id)) with
              | (Err e, db2) => (Err (WriteSnapshotError "snapshot data"), db2, fs1)
              | (Ok _, db2) => (Ok tt, db2, fs1)
              end
          end
      end
  end.

Definition build_snapshot (s : Storage) (db : Database) (fs : F) :
    IoResult (SnapshotMeta Membership * Bytes) * Storage * Database * F :=
  let last_applied := rs_last_applied s in
  let last_membership := rs_last_membership s in
  match sm_snapshot (rs_state_machine s) with
  | Err e => (Err (ReadStateMachineError e), s, db, fs)
  | Ok sm =>
      match sm_encode (mkMachineData last_applied last_membership (snap_last_applied_index sm)
                         (snap_last_applied_term sm) (snap_data sm)) with
      | Err e => (Err (ReadStateMachineError e), s, db, fs)
      | Ok serialized =>
          let idx := u64_add (rs_snapshot_idx s) 1 in
          let s1 := set_snapshot s idx (rs_current_snapshot s) in
          let snapshot_id := snapshot_id_of last_applied idx in
          let meta := mkSnapshotMeta last_applied last_membership snapshot_id in
          let '(r, db1, fs1) :=
            if rs_persistent s then persist_snapshot s1 db fs last_applied snapshot_id serialized
            else (Ok tt, db, fs) in
          match r with
          | Err e => (Err e, s1, db1, fs1)
          | Ok _ =>
              (Ok (meta, serialized), set_snapshot s1 idx (Some (mkStoredSnapshot meta serialized)), db1, fs1)
          end
      end
  end.

(** What [install_snapshot] persists: the snapshot, the progress and the membership. *)
Definition persist_installed (s : Storage) (db : Database) (fs : F) (meta : SnapshotMeta Membership)
    (data : Bytes) : IoResult unit * Database * F :=
  match persist_snapshot s db fs (meta_last_log_id meta) (meta_snapshot_id meta) data with
  | (Err e, db1, fs1) => (Err e, db1, fs1)
  | (Ok _, db1, fs1) =>
      let '(r, db2) :=
        match meta_last_log_id meta with
        | Some id => save_last_applied (rs_group s) db1 (Some (raft_log_id id))
        | None => (Ok tt, db1)
        end in
      match r with
      | Err e => (Err (WriteSnapshotError "last applied"), db2, fs1)
      | Ok _ =>
          match sm_encode (meta_last_membership meta) with
          | Err _ => (Ok tt, db2, fs1)
          | Ok encoded =>
              match save_last_membership (rs_group s) db2 encoded with
              | (Err e, db3) => (Err (WriteSnapshotError "membership"), db3, fs1)
              | (Ok _, db3) => (Ok tt, db3, fs1)
              end
          end
      end
  end.

Definition install_snapshot (s : Storage) (db : Database) (fs : F) (meta : SnapshotMeta Membership)
    (data : Bytes) : IoResult unit * Storage * Database * F :=
  match sm_decode (T := StateMachineData Membership) data with
  | Err e => (Err (ReadSnapshotError e), s, db, fs)
  | Ok d =>
      match sm_restore (rs_state_machine s)
              (mkSnapshot (rs_group s) (smd_state_applied_index d) (smd_state_applied_term d) (smd_state d)) with
      | (Err e, m) => (Err (ReadSnapshotError e), set_machine s m, db, fs)
      | (Ok _, m) =>
          let s1 := set_membership (set_last_applied (set_machine s m) (meta_last_log_id meta))
                      (meta_last_membership meta) in
          let '(r, db1, fs1) :=
            if rs_persistent s then persist_installed s1 db fs meta data else (Ok tt, db, fs) in
          match r with
          | Err e => (Err e, s1, db1, fs1)
          | Ok _ =>
              let s2 := set_snapshot s1 (rs_snapshot_idx s1) (Some (mkStoredSnapshot meta data)) in
              match meta_last_log_id meta with
              | None => (Ok tt, s2, db1, fs1)
              | Some id =>
                  let '(r, s3, db2) := purge_storage s2 db1 id in (r, s3, db2, fs1)
              end
          end
      end
  end.

Definition get_current_snapshot (s : Storage) : option (SnapshotMeta Membership * Bytes) :=
  (fun x => (stored_meta x, stored_data x)) <$> rs_current_snapshot s.

End Storage.

(** ** The data state machines over the database

    The appliers write through the same database; the metadata index a call reads is kept beside
    the machine. *)
Section DataMachines.
Context {D Hook MetaCommand : Type} (to_lowercase : string -> string).
Context `{!Serde UserDataCommand, !Serde SharedDataCommand, !Serde (RaftCommand MetaCommand)}.
Context `{!Serde UserDataSnapshot, !Serde SharedDataSnapshot, !Serde DataResponse}.

Record Metered (M : Type) := mkMetered { metered_machine : M; meta_index : Z }.
Arguments mkMetered {M}.
Arguments metered_machine {M}.
Arguments meta_index {M}.

Definition lift_metered {M R S : Type} (x : R * M * S) (meta : Z) : R * Metered M * S :=
  let '(r, m, s) := x in (r, mkMetered m meta, s).

#[export] Instance user_state_machine :
  KalamStateMachine (Metered (DataMachine (UserDataApplier (Db D Hook)) unit)) (Db D Hook) := {|
  sm_apply m db index term data :=
    lift_metered
      (user_apply (MetaCommand := MetaCommand) to_lowercase (meta_index m) (meta_index m)
         (metered_machine m) db index term data) (meta_index m);
  sm_mark_applied_index m index term :=
    mkMetered (mark_applied_index (metered_machine m) index term) (meta_index m);
  sm_last_applied_index m := last_applied_index (metered_machine m);
  sm_snapshot m := user_snapshot (metered_machine m);
  sm_restore m snapshot :=
    let '(r, m') := user_restore (metered_machine m) snapshot in (r, mkMetered m' (meta_index m))
|}.

#[export] Instance shared_state_machine :
  KalamStateMachine (Metered (DataMachine (SharedDataApplier (Db D Hook)) (list SharedOperation)))
    (Db D Hook) := {|
  sm_apply m db index term data :=
    lift_metered
      (shared_apply (MetaCommand := MetaCommand) to_lowercase (meta_index m) (meta_index m)
         (metered_machine m) db index term data) (meta_index m);
  sm_mark_applied_index m index term :=
    mkMetered (mark_applied_index (metered_machine m) index term) (meta_index m);
  sm_last_applied_index m := last_applied_index (metered_machine m);
  sm_snapshot m := shared_snapshot (metered_machine m);
  sm_restore m snapshot :=
    let '(r, m') := shared_restore (metered_machine m) snapshot in (r, mkMetered m' (meta_index m))
|}.

End DataMachines.
Arguments mkMetered {M}.
Arguments metered_machine {M}.
Arguments meta_index {M}.

(** ** Entries and their records *)

Definition id_u64 (id : LogId) : Prop := is_u64 (leader_term (leader_id id)) /\ is_u64 (log_index id).

(** A log id as the store gives it back. *)
Definition forget_id (id : LogId) : LogId := stored_log_id (leader_term (leader_id id)) (log_index id).

Section Records.
Context {Membership : Type} `{HM : SerdeLaws Membership}.
Abbreviation LogEntry := (Entry Membership).

Definition forget (e : LogEntry) : LogEntry := mkEntry (forget_id (entry_id e)) (entry_payload e).

Lemma encoded_entry (e : LogEntry) r :
  encode_stored_entry e = Ok r ->
  exists p, r = encode_raft_log_record_parts (log_index (entry_id e)) (leader_term (leader_id (entry_id e))) p /\
    raft_log_tagged_payload r = p /\ decode_log_payload p = Ok (entry_payload e).
Proof.
  destruct e as [id [|data|m]]; unfold encode_stored_entry; cbn [entry_payload entry_id].
  - intros <-%Ok_inj. by exists [RAFT_LOG_PAYLOAD_BLANK].
  - intros <-%Ok_inj. by exists (RAFT_LOG_PAYLOAD_NORMAL :: data).
  - intros (b & Hb & <-%Ok_inj)%result_bind_ok. exists (RAFT_LOG_PAYLOAD_MEMBERSHIP :: b).
    split; [done|]. split; [done|]. unfold decode_log_payload. cbn [Z.eqb andb].
    apply sm_roundtrip in Hb. change (sm_decode b) with (sm_decode (T := Membership) b). rewrite Hb. done.
Qed.

(** ** What the cache and the store hold of a log *)

Abbreviation Log := (gmap Z LogEntry).

Definition log_ok (L : Log) : Prop :=
  forall i e, L !! i = Some e -> log_index (entry_id e) = i /\ id_u64 (entry_id e) /\ i < u64_max.

Definition cache_of (log : gmap Z LogEntryData) (L : Log) : Prop :=
  forall i d, log !! i = Some d ->
    exists e, L !! i = Some e /\ ld_log_id d = entry_id e /\ encode_stored_entry e = Ok (ld_payload d).

Definition store_of (slog : gmap Z (Z * Bytes)) (L : Log) : Prop :=
  forall i tp, slog !! i = Some tp ->
    exists e, L !! i = Some e /\ encode_stored_entry e = Ok (encode_raft_log_record_parts i tp.1 tp.2).

(** A stored record gives back its entry, less the leader's node. *)
Lemma stored_record (L : Log) slog i tp :
  log_ok L -> store_of slog L -> is_u64 i -> is_u64 tp.1 -> slog !! i = Some tp ->
  exists e, L !! i = Some e /\ forget_id (entry_id e) = stored_log_id tp.1 i /\
    decode_log_payload tp.2 = Ok (entry_payload e).
Proof.
  intros HL Hs Hi Ht Htp. destruct (Hs i tp Htp) as (e & He & Henc). exists e. split; [done|].
  destruct (encoded_entry e _ Henc) as (p & Hp & _ & Hdec). destruct (HL i e He) as (Hie & Hid & _).
  apply (f_equal decode_raft_log_record) in Hp.
  rewrite !decode_encoded_log_record in Hp by (done || apply Hid). injection Hp as -> -> ->. done.
Qed.

(** The entries of a range, in order. *)
Definition entries_in (L : Log) (start end_ : Z) : list LogEntry :=
  (filter (fun e => start <= e.1 < end_) (btree_entries L)).*2.

(** Reading a part [m] of the log whose items decode to the entries they stand for. *)
Lemma read_part {A} (m : gmap Z A) (L : Log) (f : Z * A -> option LogEntry) start end_ :
  (forall i a, m !! i = Some a -> start <= i < end_ ->
     exists e e', L !! i = Some e /\ f (i, a) = Some e' /\ forget e' = forget e) ->
  (forall i e, L !! i = Some e -> start <= i < end_ -> is_Some (m !! i)) ->
  forget <$> omap f (filter (fun e => start <= e.1 < end_) (btree_entries m)) =
  forget <$> entries_in L start end_.
Proof.
  intros Hf Hcover. unfold entries_in.
  assert ((filter (fun e => start <= e.1 < end_) (btree_entries m)).*1 =
          (filter (fun e => start <= e.1 < end_) (btree_entries L)).*1) as Hkeys.
  { apply (StronglySorted_unique Z.le).
    - apply StronglySorted_fmap_filter. eapply StronglySorted_fmap; [|apply btree_sorted]. naive_solver.
    - apply StronglySorted_fmap_filter. eapply StronglySorted_fmap; [|apply btree_sorted]. naive_solver.
    - apply NoDup_Permutation; [apply NoDup_fmap_filter, btree_nodup..|].
      intros i. rewrite !list_elem_of_fmap. split.
      + intros ([j a] & -> & [Hr Hin]%list_elem_of_filter). cbn in Hr. apply btree_elem in Hin.
        destruct (Hf j a Hin Hr) as (e & _ & He & _). exists (j, e). split; [done|].
        apply list_elem_of_filter. split; [done|]. by apply btree_elem.
      + intros ([j e] & -> & [Hr Hin]%list_elem_of_filter). cbn in Hr. apply btree_elem in Hin.
        destruct (Hcover j e Hin Hr) as [a Ha]. exists (j, a). split; [done|].
        apply list_elem_of_filter. split; [done|]. by apply btree_elem. }
  assert (forall x, x ∈ filter (fun e => start <= e.1 < end_) (btree_entries m) -> m !! x.1 = Some x.2 /\ start <= x.1 < end_)
    as Hm by (intros [i a] [Hr Hin]%list_elem_of_filter; by apply btree_elem in Hin).
  assert (forall x, x ∈ filter (fun e => start <= e.1 < end_) (btree_entries L) -> L !! x.1 = Some x.2)
    as HL by (intros [i a] [Hr Hin]%list_elem_of_filter; by apply btree_elem in Hin).
  revert Hkeys Hm HL. generalize (filter (fun e => start <= e.1 < end_) (btree_entries m)).
  generalize (filter (fun e => start <= e.1 < end_) (btree_entries L)). clear Hcover.
  intros l2 l1. revert l2. induction l1 as [|[i a] l1 IH]; intros [|[j e] l2] Hkeys Hm HL; try done.
  injection Hkeys as -> Hkeys. destruct (Hm (j, a)) as [Ha Hr]; [apply elem_of_cons; by left|].
  specialize (HL (j, e) ltac:(apply elem_of_cons; by left)) as He. cbn in Ha, He, Hr.
  destruct (Hf j a Ha Hr) as (e0 & e' & He0 & Hfe & Hforget).
  cbn [omap list_omap]. rewrite Hfe, !fmap_cons. cbn [snd]. f_equal; [congruence|].
  apply IH; [done|..].
  - intros x Hx. apply Hm. apply elem_of_cons. by right.
  - intros x Hx. apply HL. apply elem_of_cons. by right.
Qed.

(** Counting: the cache covers a range exactly when it holds every index of it. *)
Lemma cache_covers_all (log : gmap Z LogEntryData) start end_ :
  0 <= start -> cache_covers_range log start end_ = true ->
  forall i, start <= i < end_ -> is_Some (log !! i).
Proof.
  intros Hs Hc i Hi. unfold cache_covers_range in Hc. rewrite (proj2 (Z.leb_gt _ _)) in Hc by lia.
  unfold saturating_sub in Hc. destruct (Z.of_nat (size log) <? _); [done|]. apply Z.eqb_eq in Hc.
  set (l := (filter (fun e => (start <=? e.1) && (e.1 <? end_)) (btree_entries log)).*1).
  assert (NoDup l) as Hnd by apply NoDup_fmap_filter, btree_nodup.
  assert (forall x, x ∈ l -> x ∈ seqZ start (end_ - start)) as Hsub.
  { intros x ([j d] & -> & [Hp _]%list_elem_of_filter)%list_elem_of_fmap. apply Is_true_true in Hp. cbn in Hp.
    apply andb_true_iff in Hp as [Hp1 Hp2]. apply Z.leb_le in Hp1. apply Z.ltb_lt in Hp2.
    apply elem_of_seqZ. cbn. lia. }
  assert (l ≡ₚ seqZ start (end_ - start)) as Hperm.
  { apply submseteq_length_Permutation; [by apply NoDup_submseteq|].
    rewrite length_seqZ. unfold l. rewrite length_fmap. lia. }
  assert (i ∈ l) as Hin by (rewrite Hperm; apply elem_of_seqZ; lia).
  apply list_elem_of_fmap in Hin as ([j d] & -> & [_ Hin]%list_elem_of_filter).
  apply btree_elem in Hin. by exists d.
Qed.

End Records.

Lemma in_bounds_range lo hi i :
  (match lo with Excluded s => is_u64 s /\ s < u64_max | _ => True end) ->
  (match hi with Included e => is_u64 e /\ e < u64_max | _ => True end) ->
  is_u64 i -> (match hi with Unbounded => i < u64_max | _ => True end) ->
  in_bounds lo hi i = true <-> range_start lo <= i < range_end hi.
Proof.
  unfold in_bounds, range_start, range_end, is_u64. intros Hlo Hhi Hi Hend. rewrite andb_true_iff.
  destruct lo, hi; rewrite ?u64_add_small by lia; rewrite ?Z.leb_le, ?Z.ltb_lt; intuition lia.
Qed.

Lemma sorted_lt_nodup (l : list Z) : StronglySorted Z.lt l -> NoDup l.
Proof.
  induction 1 as [|x l _ IH Hf]; constructor; [|done]. intros Hin. rewrite Forall_forall in Hf.
  specialize (Hf x Hin). lia.
Qed.

Lemma omap_after_fmap {A B C} (f : B -> option C) (g : A -> B) (l : list A) :
  omap f (g <$> l) = omap (fun x => f (g x)) l.
Proof. induction l as [|x l IH]; [done|]. cbn. by rewrite IH. Qed.

(** Bounds that do not overflow. *)
Definition bounds_ok (lo hi : Bound) : Prop :=
  match lo with Included s => is_u64 s | Excluded s => is_u64 s /\ s < u64_max | Unbounded => True end /\
  match hi with Included e => is_u64 e /\ e < u64_max | Excluded e => is_u64 e | Unbounded => True end.

Lemma bounds_u64 lo hi : bounds_ok lo hi -> is_u64 (range_start lo) /\ is_u64 (range_end hi).
Proof.
  unfold bounds_ok, range_start, range_end, is_u64, u64_max. intros [Hlo Hhi].
  split; [destruct lo|destruct hi]; rewrite ?u64_add_small; unfold u64_max; lia.
Qed.

(** Trimming ends with a cache within both limits, or empty. *)
Lemma trim_loop_bounded es bytes :
  let r := trim_loop es bytes in
  Z.of_nat (length r.1) <= LOG_CACHE_SIZE /\ (r.1 = [] \/ r.2 <= LOG_CACHE_MAX_BYTES).
Proof.
  revert bytes. induction es as [|[k e] es IH]; intros bytes; [by split; [|left]|].
  cbn [trim_loop]. destruct (_ || _) eqn:E; [apply IH|]. cbn [fst snd].
  apply orb_false_iff in E as [E1 E2]. apply Z.ltb_ge in E1, E2. split; [done|by right].
Qed.

(** ** The loop of [trim_log_cache], iteration by iteration *)

(** [while log.len() > LOG_CACHE_SIZE || bytes > max { .. }] with a budget of iterations; [None]
    when the budget does not suffice. *)
Fixpoint trim_while (budget : nat) (log : gmap Z LogEntryData) (bytes : Z) : option (gmap Z LogEntryData * Z) :=
  if (LOG_CACHE_SIZE <? Z.of_nat (size log)) || (LOG_CACHE_MAX_BYTES <? bytes) then
    match head (btree_entries log) with
    | None => Some (log, bytes)
    | Some (first_key, entry) =>
        match budget with
        | O => None
        | S budget =>
            trim_while budget (delete first_key log) (u64_sub bytes (Z.of_nat (length (ld_payload entry))))
        end
    end
  else Some (log, bytes).

(** The entries of a map are determined by being its pairs in the order of the keys. *)
Lemma btree_unique {A} (m : gmap Z A) l :
  StronglySorted (fun a b => a.1 <= b.1) l -> l ≡ₚ map_to_list m -> btree_entries m = l.
Proof.
  intros Hs Hp. apply (StronglySorted_unique_strong (fun a b : Z * A => a.1 <= b.1)).
  - intros [i x] [j y] Hx%btree_elem Hy H1 H2. rewrite Hp in Hy. apply elem_of_map_to_list in Hy.
    cbn in *. assert (i = j) as -> by lia. congruence.
  - apply btree_sorted.
  - done.
  - by rewrite btree_entries_perm, Hp.
Qed.

Lemma btree_tail {A} (m : gmap Z A) k x rest :
  btree_entries m = (k, x) :: rest -> btree_entries (delete k m) = rest.
Proof.
  intros E. pose proof (btree_sorted m) as Hs. rewrite E in Hs. apply StronglySorted_inv in Hs as [Hs _].
  apply btree_unique; [done|]. apply (Permutation_cons_inv (a := (k, x))). rewrite <-E, btree_entries_perm.
  symmetry. apply map_to_list_delete. apply btree_elem. rewrite E. apply elem_of_cons. by left.
Qed.

Lemma btree_length {A} (m : gmap Z A) : length (btree_entries m) = size m.
Proof. by rewrite btree_entries_perm, length_map_to_list. Qed.

Lemma btree_map {A} (m : gmap Z A) : list_to_map (btree_entries m) = m.
Proof.
  rewrite (list_to_map_proper _ _ (btree_nodup m) (btree_entries_perm m)). apply list_to_map_to_list.
Qed.

Lemma trim_while_loop es : forall log bytes,
  btree_entries log = es -> trim_while (length es) log bytes = Some (list_to_map (trim_loop es bytes).1, (trim_loop es bytes).2).
Proof.
  induction es as [|[k e] es IH]; intros log bytes E.
  - cbn [length trim_while trim_loop fst snd]. rewrite E. assert (log = ∅) as ->; [|by destruct (_ || _)].
    by rewrite <-(btree_map log), E.
  - cbn [length trim_while trim_loop]. rewrite <-(btree_length log), E. cbn [length head].
    destruct (_ || _).
    + apply IH. by eapply btree_tail.
    + cbn [fst snd]. by rewrite <-E, btree_map.
Qed.

(** C11. Trimming the cache terminates and bounds it.  The loop ends after at most as many iterations
    as the cache has entries, whatever the byte counter says (it may be off, and it wraps); it
    computes [trim_log_cache], and the cache it leaves holds at most 1000 entries and either is
    empty or its counter is at most 16 MiB. *)
Theorem trim_terminates (log : gmap Z LogEntryData) (bytes : Z) :
  trim_while (size log) log bytes = Some (trim_log_cache log bytes) /\
  let (log', bytes') := trim_log_cache log bytes in
  Z.of_nat (size log') <= LOG_CACHE_SIZE /\ (log' = ∅ \/ bytes' <= LOG_CACHE_MAX_BYTES).
Proof.
  unfold trim_log_cache. pose proof (trim_while_loop _ log bytes eq_refl) as Hw.
  rewrite btree_length in Hw. rewrite Hw. pose proof (trim_loop_bounded (btree_entries log) bytes) as [Hn Hb].
  destruct (trim_loop (btree_entries log) bytes) as [es b] eqn:E. cbn [fst snd] in *. split; [done|].
  split; [|destruct Hb as [->|?]; [by left|by right]].
  eapply Z.le_trans; [apply Nat2Z.inj_le|exact Hn]. clear. induction es as [|[k e] es IH]; [done|]. cbn. rewrite map_size_insert. case_match; unfold id; lia.
Qed.
