(* ===== verification/RaftNode.v ===== *)
(** * RaftNode: a node of a Raft group

    The storage of [RaftStore] together with the database it shares with the other groups and the
    appends its log-IO thread still has to write.  [node_step] has one rule per call of openraft
    (append, truncate, purge, apply, vote, snapshots), one for the log-IO thread, one for the other
    groups and one for a restart; [node_inv] relates the cache, the durable log and the pending
    appends to the log openraft has built, and every step keeps it. *)

From Stdlib Require Import ZArith Lia Sorting.Sorted.
From stdpp Require Import base strings gmap list sorting.
From S2P Require Import Prelude Commons Ids Sharding Protocol RaftCommands RaftData Storage RaftLog RaftStore.

Open Scope Z_scope.
Open Scope kalam_scope.

Section Node.
Context {D Hook F M Membership : Type}.
Context `{HB : BackendLaws D, FileSystem F, !KalamStateMachine M (Db D Hook)}.
Context `{!Serde RaftVote, !Serde RaftSnapshotMeta, !Serde RaftSnapshotData}.
Context `{!SerdeLaws RaftVote, !SerdeLaws RaftSnapshotMeta, !SerdeLaws RaftSnapshotData}.
Context `{HM : SerdeLaws Membership, !Serde (StoredMembership Membership), !Serde (StateMachineData Membership)}.
Context (default_membership : StoredMembership Membership).
Abbreviation Storage := (RaftStorage Membership M).
Abbreviation Database := (Db D Hook).
Abbreviation LogEntry := (Entry Membership).
Abbreviation Log := (gmap Z LogEntry).
Abbreviation view db := (backend_view (db_backend db)).

(** Reading a range the cache holds, or whose entries are all durable, gives the log. *)
Lemma reads_exact (st : Storage) (db : Database) σ (L : Log) lo hi :
  represents (view db) σ -> group_ok (rs_group st) -> log_ok L -> cache_of (rs_log st) L ->
  bounds_ok lo hi ->
  (if rs_persistent st then
     store_of (gs_log (σ (rs_group st))) L /\
     is_ok (scan_logs (rs_group st) db (range_start lo) (range_end hi)) = true /\
     (cache_covers_range (rs_log st) (range_start lo) (range_end hi) = true \/
      forall i e, L !! i = Some e -> range_start lo <= i < range_end hi ->
        is_Some (gs_log (σ (rs_group st)) !! i))
   else forall i e, L !! i = Some e -> is_Some (rs_log st !! i)) ->
  forget <$> get_log_entries_sync st db lo hi =
  forget <$> entries_in L (range_start lo) (range_end hi).
Proof.
  intros Hr Hg HL Hc Hb Hmode. destruct (bounds_u64 _ _ Hb) as [Hstart Hend].
  unfold get_log_entries_sync. destruct (Z.leb_spec (range_end hi) (range_start lo)) as [Hle|Hlt].
  { unfold entries_in. rewrite filter_none; [done|]. intros x _. lia. }
  destruct (cache_covers_range (rs_log st) (range_start lo) (range_end hi) || negb (rs_persistent st)) eqn:Ecase.
  - rewrite (filter_ext_in _ (fun e => range_start lo <= e.1 < range_end hi)).
    + apply read_part.
      * intros i d Hd _. destruct (Hc i d Hd) as (e & He & Hid & Henc). exists e, e. split; [done|].
        split; [|done]. destruct (encoded_entry e _ Henc) as (p & _ & Htag & Hdec).
        cbn [snd]. unfold entry_from_payload. rewrite Htag, Hdec, Hid. by destruct e.
      * intros i e He Hi. apply orb_true_iff in Ecase as [Ecov|Enp].
        -- eapply cache_covers_all; [|exact Ecov|exact Hi]. apply Hstart.
        -- apply negb_true_iff in Enp. rewrite Enp in Hmode. by eapply Hmode.
    + intros [i d] Hin%btree_elem. destruct (Hc i d Hin) as (e & He & _).
      destruct (HL i e He) as (Hi & [_ Hu] & Hmax). rewrite Hi in Hu. rewrite Is_true_true. cbn [fst].
      apply in_bounds_range; [destruct lo; apply Hb || done|destruct hi; apply Hb || done|done|by destruct hi].
  - apply orb_false_iff in Ecase as [Ecov Ep]. apply negb_false_iff in Ep. rewrite Ep in Hmode.
    destruct Hmode as (Hstore & Hscan & Hall). rewrite Ecov in Hall. destruct Hall as [?|Hall]; [done|].
    destruct (scan_logs _ _ _ _) as [es|err] eqn:Es; [|done].
    destruct (Hr _ Hg) as [Hlo Hgr]. apply (scan_logs_spec db _ (σ (rs_group st))) in Es as ->; [|done..].
    unfold log_range. rewrite omap_after_fmap. apply read_part; [|done].
    intros i tp Htp _. destruct (gr_dom _ _ Hgr i tp Htp) as [Hi64 Ht64].
    destruct (stored_record L _ i tp HL Hstore Hi64 Ht64 Htp) as (e & He & Hid & Hdec).
    exists e, (forget e). split_and!; [done| |by destruct e].
    unfold stored_entry, entry_from_payload. cbn [fst snd le_payload le_term le_index].
    rewrite Hdec. unfold forget. by rewrite Hid.
Qed.

(** ** The cache *)

Lemma trim_loop_suffix es bytes : exists pre, es = pre ++ (trim_loop es bytes).1.
Proof.
  revert bytes. induction es as [|[k e] es IH]; intros bytes; [by exists []|]. cbn [trim_loop].
  destruct (_ || _); [|by exists []]. destruct (IH (u64_sub bytes (Z.of_nat (length (ld_payload e))))) as [pre Hpre].
  exists ((k, e) :: pre). cbn. by rewrite <-Hpre.
Qed.

Lemma trim_keeps log bytes i d : (trim_log_cache log bytes).1 !! i = Some d -> log !! i = Some d.
Proof.
  unfold trim_log_cache. destruct (trim_loop (btree_entries log) bytes) as [es b] eqn:E. cbn [fst].
  destruct (trim_loop_suffix (btree_entries log) bytes) as [pre Hpre]. rewrite E in Hpre. cbn in Hpre.
  intros Hin%elem_of_list_to_map_2. apply btree_elem. rewrite Hpre. apply elem_of_app. by right.
Qed.

Lemma remove_entries_lookup p log bytes i :
  (remove_entries p log bytes).1 !! i = if p i then None else log !! i.
Proof.
  unfold remove_entries. cbn [fst].
  assert (i ∈ (filter (fun e => p e.1) (btree_entries log)).*1 <-> p i = true /\ is_Some (log !! i)) as Hin.
  { rewrite list_elem_of_fmap. split.
    - intros ([j d] & -> & [Hp Hd]%list_elem_of_filter). apply Is_true_true in Hp. apply btree_elem in Hd.
      by split; [|exists d].
    - intros [Hp [d Hd]]. exists (i, d). split; [done|]. apply list_elem_of_filter.
      rewrite Is_true_true. split; [done|]. by apply btree_elem. }
  destruct (p i) eqn:Ep.
  - destruct (log !! i) as [d|] eqn:Ed.
    + apply lookup_foldr_delete. apply Hin. by split; [|exists d].
    + rewrite lookup_foldr_delete_not_elem_of; [done|]. rewrite Hin. intros [_ [? ?]]. done.
  - rewrite lookup_foldr_delete_not_elem_of; [done|]. rewrite Hin. by intros [? _].
Qed.

Definition log_insert (L : Log) (es : list LogEntry) : Log :=
  foldl (fun L e => <[log_index (entry_id e) := e]> L) L es.

(** Entries openraft appends: valid, ascending and after every entry of the log. *)
Definition appendable (L : Log) (es : list LogEntry) : Prop :=
  StronglySorted Z.lt ((fun e => log_index (entry_id e)) <$> es) /\
  Forall (fun e => id_u64 (entry_id e) /\ log_index (entry_id e) < u64_max /\
                   forall j, is_Some (L !! j) -> j < log_index (entry_id e)) es.

Lemma appendable_cons (L : Log) e es :
  appendable L (e :: es) -> appendable (<[log_index (entry_id e) := e]> L) es.
Proof.
  intros [Hs Hall]. rewrite fmap_cons in Hs. apply StronglySorted_inv in Hs as [Hs Hlt].
  rewrite Forall_fmap, Forall_forall in Hlt. apply Forall_cons in Hall as [_ Hall].
  rewrite Forall_forall in Hall. split; [done|]. apply Forall_forall. intros x Hx.
  destruct (Hall x Hx) as (Hid & Hmax & Hj). split_and!; [done..|].
  intros j Hl. destruct (decide (j = log_index (entry_id e))) as [->|Hne]; [by apply (Hlt x)|].
  apply Hj. by rewrite lookup_insert_ne in Hl.
Qed.
(** ** How a call changes the database *)

Definition other_partition (op : Operation) : Prop :=
  match op with Put p _ _ => p <> RAFT_PARTITION_NAME | DeleteKey p _ => p <> RAFT_PARTITION_NAME end.

(** A table write, or the progress or membership of the group. *)
Definition benign (g : GroupId) (op : Operation) : Prop :=
  other_partition op \/
  (exists id, id_ok id /\ op = Put RAFT_PARTITION_NAME (raft_key g KApplied) (encode_packed id)) \/
  (exists b, op = Put RAFT_PARTITION_NAME (raft_key g KMembership) b).

(** [db'] is [db] after operations of one kind, written or taken by the open session. *)
Definition evolves (ok : Operation -> Prop) (db db' : Database) : Prop :=
  exists ops, Forall ok ops /\
  match db_session db with
  | None => db_session db' = None /\ forall p k, view db' p k = foldl view_op (view db) ops p k
  | Some (pending, hooks) =>
      db_backend db' = db_backend db /\ exists hooks', db_session db' = Some (pending ++ ops, hooks')
  end.

Lemma evolves_refl ok db : evolves ok db db.
Proof.
  exists []. split; [constructor|]. destruct (db_session db) as [[pending hooks]|] eqn:E; [|done].
  split; [done|]. exists hooks. by rewrite app_nil_r.
Qed.

Lemma evolves_trans ok db1 db2 db3 : evolves ok db1 db2 -> evolves ok db2 db3 -> evolves ok db1 db3.
Proof.
  intros (ops1 & Hok1 & He1) (ops2 & Hok2 & He2). exists (ops1 ++ ops2). split; [by apply Forall_app|].
  destruct (db_session db1) as [[pending hooks]|] eqn:E1.
  - destruct He1 as [Hb1 [hooks1 Hs1]]. rewrite Hs1 in He2. destruct He2 as [Hb2 [hooks2 Hs2]].
    split; [congruence|]. exists hooks2. by rewrite app_assoc.
  - destruct He1 as [Hs1 Hv1]. rewrite Hs1 in He2. destruct He2 as [Hs2 Hv2]. split; [done|].
    intros p k. rewrite Hv2, foldl_app. by apply view_ops_ext.
Qed.

Lemma evolves_mono (ok ok' : Operation -> Prop) db db' :
  (forall op, ok op -> ok' op) -> evolves ok db db' -> evolves ok' db db'.
Proof. intros Hi (ops & Hok & He). exists ops. split; [|done]. by eapply Forall_impl. Qed.

Lemma writes_evolves (ok : Operation -> Prop) db ops r db' :
  Forall ok ops -> writes db ops r db' -> evolves ok db db'.
Proof.
  intros Hok Hw. unfold writes in Hw. destruct (db_session db) as [[pending hooks]|] eqn:E.
  - destruct Hw as [_ ->]. exists ops. split; [done|]. rewrite E. split; [done|]. by exists hooks.
  - destruct Hw as (Hs & _ & Hv). exists (if is_ok r then ops else []).
    split; [by destruct r|]. rewrite E. split; [done|]. intros p k. rewrite Hv. by destruct r.
Qed.

(** What the storage relies on: the machine writes its tables, never the Raft partition. *)
Class StateMachineLaws := {
  sm_ok : M -> Prop;
  sm_apply_tables : forall m db index term data r m' db',
    sm_ok m -> sm_apply m db index term data = (r, m', db') -> sm_ok m' /\ evolves other_partition db db';
  sm_mark_ok : forall m index term, sm_ok m -> sm_ok (sm_mark_applied_index m index term);
  sm_restore_ok : forall m snapshot r m', sm_ok m -> sm_restore m snapshot = (r, m') -> sm_ok m'
}.

Lemma represents_view v v' σ : (forall p k, v p k = v' p k) -> represents v σ -> represents v' σ.
Proof.
  intros Hv Hr g Hg. destruct (Hr g Hg) as [Hl Hc]. split.
  - eapply logs_only_ext; [|exact Hl]. intros k. apply Hv.
  - eapply group_rep_ext; [|exact Hc]. intros k _. apply Hv.
Qed.

Lemma benign_represents v σ g op :
  represents v σ -> group_ok g -> benign g op ->
  exists σ', represents (view_op v op) σ' /\ forall g', gs_log (σ' g') = gs_log (σ g').
Proof.
  intros Hr Hg Hop.
  assert (forall w s', op = cell_op g w -> key_ok w.1 ->
    group_rep (cell_set (cells v g) w) s' -> gs_log s' = gs_log (σ g) ->
    exists σ', represents (view_op v op) σ' /\ forall g', gs_log (σ' g') = gs_log (σ g')) as Hcell.
  { intros w s' -> Hw Hs' Hlog. exists (set_group σ g s'). split.
    - intros g' Hg'. destruct (Hr g' Hg') as [Hl Hc]. split; [by apply logs_only_op|].
      unfold set_group. destruct (decide (g' = g)) as [->|Hne].
      + eapply group_rep_ext; [|exact Hs']. intros k Hk. by rewrite cells_op, decide_True by done.
      + eapply group_rep_ext; [|exact Hc]. intros k Hk. by rewrite cells_op, decide_False by done.
    - intros g'. unfold set_group. by destruct (decide (g' = g)) as [->|]. }
  destruct (Hr g Hg) as [_ Hgr]. destruct Hop as [Hop|[(id & Hid & ->)|(b & ->)]].
  - exists σ. split; [|done]. intros g' Hg'. destruct (Hr g' Hg') as [Hl Hc].
    assert (forall k, view_op v op RAFT_PARTITION_NAME k = v RAFT_PARTITION_NAME k) as Hsame.
    { intros k. destruct op; cbn in *; unfold view_put, view_delete; by rewrite decide_False by naive_solver. }
    split; [by eapply logs_only_ext; [|exact Hl]|]. eapply group_rep_ext; [|exact Hc].
    intros k _. symmetry. apply Hsame.
  - apply (Hcell (KApplied, Some (encode_packed id))
      (mkGroupState (gs_log (σ g)) (gs_vote (σ g)) (gs_commit (σ g)) (gs_purge (σ g)) (Some id)
         (gs_membership (σ g)) (gs_snap_meta (σ g)) (gs_snap_data (σ g)))); [done|done| |done].
    destruct Hgr. constructor; group_simpl; try assumption. by apply decode_encoded_id.
  - apply (Hcell (KMembership, Some b)
      (mkGroupState (gs_log (σ g)) (gs_vote (σ g)) (gs_commit (σ g)) (gs_purge (σ g)) (gs_applied (σ g))
         (Some b) (gs_snap_meta (σ g)) (gs_snap_data (σ g)))); [done|done| |done].
    destruct Hgr. constructor; group_simpl; try assumption. done.
Qed.

Lemma benign_ops_represents ops : forall v σ g,
  represents v σ -> group_ok g -> Forall (benign g) ops ->
  exists σ', represents (foldl view_op v ops) σ' /\ forall g', gs_log (σ' g') = gs_log (σ g').
Proof.
  induction ops as [|op ops IH]; intros v σ g Hr Hg Hok; [by exists σ|].
  apply Forall_cons in Hok as [Hop Hok]. destruct (benign_represents v σ g op Hr Hg Hop) as (σ1 & Hr1 & Hl1).
  destruct (IH _ _ g Hr1 Hg Hok) as (σ2 & Hr2 & Hl2). exists σ2. split; [done|].
  intros g'. by rewrite Hl2.
Qed.

Lemma evolves_represents db db' σ g :
  represents (view db) σ -> group_ok g -> db_session db = None -> evolves (benign g) db db' ->
  db_session db' = None /\
  exists σ', represents (view db') σ' /\ forall g', gs_log (σ' g') = gs_log (σ g').
Proof.
  intros Hr Hg Hs (ops & Hok & He). rewrite Hs in He. destruct He as [Hs' Hv]. split; [done|].
  destruct (benign_ops_represents ops _ σ g Hr Hg Hok) as (σ' & Hr' & Hl). exists σ'. split; [|done].
  eapply represents_view; [|exact Hr']. intros p k. by rewrite Hv.
Qed.

(** An operation of the store that is no append, truncation or purge keeps the logs. *)
Lemma store_op_keeps_logs (db : Database) σ g op :
  represents (view db) σ -> db_session db = None -> group_ok g -> store_op_ok op ->
  gs_log (spec_op (σ g) op).1 = gs_log (σ g) ->
  db_session (store_op g db op).2 = None /\
  exists σ', represents (view (store_op g db op).2) σ' /\ forall g', gs_log (σ' g') = gs_log (σ g').
Proof.
  intros Hr Hs Hg Hop Hsame. destruct (run_op_refines db σ g op Hr Hs Hg Hop) as (Hs' & Hr' & _).
  split; [done|]. eexists. split; [exact Hr'|]. intros g'. destruct (is_ok _); [|done].
  unfold set_group. by destruct (decide (g' = g)) as [->|].
Qed.

(** ** Applying entries keeps the log *)

Context `{HSM : !StateMachineLaws}.

(** The parts of the storage [apply] leaves alone when the log is flushed on append. *)
Definition same_log (s s' : Storage) : Prop :=
  rs_group s' = rs_group s /\ rs_persistent s' = rs_persistent s /\
  rs_flush_log_on_append s' = rs_flush_log_on_append s /\ rs_log s' = rs_log s /\
  rs_last_log_id s' = rs_last_log_id s /\
  (sm_ok (rs_state_machine s) -> sm_ok (rs_state_machine s')).

Lemma same_log_trans s1 s2 s3 : same_log s1 s2 -> same_log s2 s3 -> same_log s1 s3.
Proof. unfold same_log. intros (-> & -> & -> & -> & -> & Hm). naive_solver. Qed.

Lemma raft_put_evolves g db k x r db' :
  benign g (Put RAFT_PARTITION_NAME k x) -> raft_put db k x = (r, db') -> evolves (benign g) db db'.
Proof.
  intros Hb Hw%db_put_writes. eapply writes_evolves; [|exact Hw]. constructor; [exact Hb|constructor].
Qed.

Lemma persist_prefix_evolves (s : Storage) (db : Database) es n r s' db' :
  rs_persistent s = true -> rs_flush_log_on_append s = true ->
  Forall (fun e : LogEntry => id_u64 (entry_id e)) es ->
  persist_applied_prefix s db es n = (r, s', db') -> evolves (benign (rs_group s)) db db' /\ s' = s.
Proof.
  intros Hp Hf Hes. unfold persist_applied_prefix, persist_applied_progress. rewrite Hp, Hf. cbn [negb].
  destruct (last (take n es)) as [e|] eqn:E; [|intros [= <- <- <-]; split; [apply evolves_refl|done]].
  assert (id_u64 (entry_id e)) as He.
  { apply last_Some_elem_of in E. rewrite Forall_forall in Hes. apply Hes.
    eapply elem_of_take in E as (? & ? & _). by eapply list_elem_of_lookup_2. }
  destruct (save_last_applied _ _ _) as [r1 db1] eqn:Es. intros [= <- <- <-]. split; [|done].
  eapply raft_put_evolves; [|exact Es]. right. left. eexists. split; [|reflexivity]. exact He.
Qed.

Lemma save_membership_evolves (s : Storage) (db : Database) m : evolves (benign (rs_group s)) db (save_membership s db m).
Proof.
  unfold save_membership. destruct (rs_persistent s); [|apply evolves_refl].
  destruct (sm_encode m) as [b|]; [|apply evolves_refl].
  destruct (save_last_membership (rs_group s) db b) as [r db'] eqn:E. cbn [snd].
  eapply raft_put_evolves; [|exact E]. right. right. by exists b.
Qed.

Lemma apply_loop_evolves all es : forall (s : Storage) (db : Database) results r s' db',
  rs_persistent s = true -> rs_flush_log_on_append s = true -> sm_ok (rs_state_machine s) ->
  Forall (fun e : LogEntry => id_u64 (entry_id e)) all ->
  apply_loop all es s db results = (r, s', db') ->
  evolves (benign (rs_group s)) db db' /\ same_log s s'.
Proof.
  induction es as [|e es IH]; intros s db results r s' db' Hp Hf Hm Hall; cbn [apply_loop].
  { destruct (persist_applied_prefix _ _ _ _) as [[r1 s1] db1] eqn:E.
    apply persist_prefix_evolves in E as [He ->]; [|done..].
    destruct r1; intros [= <- <- <-]; by split. }
  destruct (entry_payload e) as [|data|m].
  - intros Hrun. apply IH in Hrun as [He Hs]; [|done|done|by apply sm_mark_ok|done]. split; [exact He|].
    eapply same_log_trans; [|exact Hs]. split_and!; [done..|]. by apply sm_mark_ok.
  - destruct (sm_apply _ _ _ _ _) as [[r1 m1] db1] eqn:E.
    apply sm_apply_tables in E as [Hm1 E]; [|done]. apply (evolves_mono _ (benign (rs_group s))) in E; [|by left].
    assert (forall id res, apply_loop all es (set_last_applied (set_machine s m1) (Some id)) db1 res = (r, s', db') ->
      evolves (benign (rs_group s)) db db' /\ same_log s s') as Hgo.
    { intros id res Hrun. apply IH in Hrun as [He Hs]; [|done..]. split; [by eapply evolves_trans|].
      eapply same_log_trans; [|exact Hs]. by split_and!. }
    assert (forall x, (match persist_applied_prefix (set_machine s m1) db1 all (length results) with
       | (Err e0, s'0, db'0) => (Err e0, s'0, db'0) | (Ok _, s'0, db'0) => (Err x, s'0, db'0) end) = (r, s', db') ->
      evolves (benign (rs_group s)) db db' /\ same_log s s') as Hstop.
    { intros x. destruct (persist_applied_prefix _ _ _ _) as [[r2 s2] db2] eqn:E2.
      apply persist_prefix_evolves in E2 as [He ->]; [|done..].
      destruct r2; intros [= <- <- <-]; (split; [by eapply evolves_trans|by split_and!]). }
    destruct r1 as [[response| |msg]|err]; [apply Hgo|apply Hgo|apply Hstop|apply Hstop].
  - intros Hrun. apply IH in Hrun as [He Hs]; [|done|done|by apply sm_mark_ok|done]. split.
    + eapply evolves_trans; [|exact He]. apply (save_membership_evolves (set_membership s _)).
    + eapply same_log_trans; [|exact Hs]. split_and!; [done..|]. by apply sm_mark_ok.
Qed.

Lemma apply_evolves (s : Storage) (db : Database) es r s' db' :
  rs_persistent s = true -> rs_flush_log_on_append s = true -> sm_ok (rs_state_machine s) ->
  Forall (fun e : LogEntry => id_u64 (entry_id e)) es -> db_session db = None ->
  apply_to_state_machine s db es = (r, s', db') ->
  evolves (benign (rs_group s)) db db' /\ same_log s s'.
Proof.
  intros Hp Hf Hm Hes Hns. unfold apply_to_state_machine.
  destruct ((length es =? 1)%nat && rs_persistent s); [|by apply apply_loop_evolves].
  unfold with_write_coalesce, apply_entries_to_state_machine.
  destruct (apply_loop es es s _ []) as [[result s1] db1] eqn:E.
  apply apply_loop_evolves in E as [(ops & Hok & Hb & hooks' & Hs1) Hsame]; [|done..].
  cbn [db_backend db_session app] in Hb, Hs1. rewrite Hs1. cbn [from_option id].
  set (db2 := mkDb (db_backend db1) (db_session db) (db_ran db1)).
  assert (evolves (benign (rs_group s)) db db2) as Hdb2.
  { exists []. split; [constructor|]. rewrite Hns. cbn. split; [done|]. by rewrite Hb. }
  destruct result as [results|err]; [|intros [= <- <- <-]; by split].
  destruct (match ops with [] => (Ok tt, db2) | _ => db_batch db2 ops end) as [r2 db3] eqn:Eb.
  assert (evolves (benign (rs_group s)) db2 db3) as Hdb3.
  { destruct ops as [|op ops]; [injection Eb as <- <-; apply evolves_refl|].
    apply db_batch_writes in Eb. by eapply writes_evolves. }
  assert (evolves (benign (rs_group s)) db db3) as Hfin by by eapply evolves_trans.
  destruct r2 as [u|err]; intros [= <- <- <-]; (split; [|done]); [|done].
  destruct Hfin as (ops' & Hok' & Hfin). exists ops'. split; [done|]. rewrite Hns in *. cbn.
  exact Hfin.
Qed.


(** ** Appending *)

(** The cache holds a final part of the log. *)
Definition upward (log : gmap Z LogEntryData) (L : Log) : Prop :=
  forall i j, is_Some (log !! i) -> i <= j -> is_Some (L !! j) -> is_Some (log !! j).

(** [id] is the id of the last entry, up to the leader's node. *)
Definition last_of (L : Log) (id : option LogId) : Prop :=
  match id with
  | None => L = ∅
  | Some id =>
      exists e, L !! log_index id = Some e /\ forget_id (entry_id e) = forget_id id /\
        forall j, is_Some (L !! j) -> j <= log_index id
  end.

Definition record_of (L : Log) (r : Z * Bytes) : Prop :=
  exists e, L !! r.1 = Some e /\ encode_stored_entry e = Ok r.2.

Lemma record_of_insert (L : Log) e r :
  L !! log_index (entry_id e) = None -> record_of L r -> record_of (<[log_index (entry_id e) := e]> L) r.
Proof.
  intros Hn (x & Hx & Henc). exists x. split; [|done]. rewrite lookup_insert_ne; [done|]. congruence.
Qed.

Lemma log_ok_insert (L : Log) e :
  log_ok L -> id_u64 (entry_id e) -> log_index (entry_id e) < u64_max ->
  log_ok (<[log_index (entry_id e) := e]> L).
Proof. intros HL Hid Hmax i x [[<- <-]|[Hne Hx]]%lookup_insert_Some; [done|by apply HL]. Qed.

Lemma log_insert_keeps es : forall (L : Log),
  appendable L es -> log_ok L ->
  log_ok (log_insert L es) /\
  (forall i e, L !! i = Some e -> log_insert L es !! i = Some e) /\
  (forall i, is_Some (log_insert L es !! i) ->
     is_Some (L !! i) \/ i ∈ ((fun e => log_index (entry_id e)) <$> es)).
Proof.
  induction es as [|e es IH]; intros L Ha HL; [by split_and!; auto|].
  pose proof (appendable_cons _ _ _ Ha) as Ha'. destruct Ha as [_ [(Hid & Hmax & Hj) _]%Forall_cons].
  destruct (IH _ Ha' (log_ok_insert L e HL Hid Hmax)) as (Hok & Hkeep & Hnew).
  cbn [log_insert foldl]. change (foldl _ ?x es) with (log_insert x es). split_and!; [done|..].
  - intros i x Hx. apply Hkeep. rewrite lookup_insert_ne; [done|]. intros <-.
    specialize (Hj _ (mk_is_Some _ _ Hx)). lia.
  - intros i [Hi|Hi]%Hnew; rewrite fmap_cons, elem_of_cons; [|by right; right].
    destruct (decide (i = log_index (entry_id e))) as [->|Hne]; [by right; left|].
    rewrite lookup_insert_ne in Hi by done. by left.
Qed.

Lemma last_of_insert es : forall (L : Log) id,
  appendable L es -> last_of L id -> last_of (log_insert L es) (option_or (entry_id <$> last es) id).
Proof.
  induction es as [|e es IH]; intros L id Ha Hid; [done|].
  pose proof (appendable_cons _ _ _ Ha) as Ha'. destruct Ha as [_ [(_ & _ & Hj) _]%Forall_cons].
  cbn [log_insert foldl]. change (foldl _ ?x es) with (log_insert x es).
  specialize (IH _ (Some (entry_id e)) Ha'). rewrite last_cons. destruct (last es); apply IH.
  all: exists e; rewrite lookup_insert_eq; split_and!; [done..|]; intros j Hl.
  all: destruct (decide (j = log_index (entry_id e))) as [->|Hne]; [lia|].
  all: rewrite lookup_insert_ne in Hl by done; specialize (Hj j Hl); lia.
Qed.

(** The loop caches the entries and stages their records. *)
Lemma stage_loop_spec es : forall (L : Log) log staged added newest staged' added' newest' log',
  appendable L es -> cache_of log L -> upward log L ->
  stage_loop true es log staged added newest = (Ok (staged', added', newest'), log') ->
  cache_of log' (log_insert L es) /\ upward log' (log_insert L es) /\
  newest' = option_or (entry_id <$> last es) newest /\
  exists new, staged' = staged ++ new /\ new.*1 = (fun e => log_index (entry_id e)) <$> es /\
    (Forall (record_of L) staged -> Forall (record_of (log_insert L es)) staged').
Proof.
  induction es as [|e es IH]; intros L log staged added newest staged' added' newest' log' Ha Hc Hu Hst.
  { injection Hst as <- <- <- <-. split_and!; [done..|]. exists []. by rewrite app_nil_r. }
  pose proof (appendable_cons _ _ _ Ha) as Ha'. destruct Ha as [_ [(Hid & Hmax & Hj) _]%Forall_cons].
  cbn [stage_loop] in Hst. destruct (encode_stored_entry e) as [record|] eqn:Er; [|done].
  assert (L !! log_index (entry_id e) = None) as Hfresh.
  { apply eq_None_not_Some. intros Hl. specialize (Hj _ Hl). lia. }
  eapply IH in Hst as (Hc' & Hu' & -> & new & -> & Hnew & Hrec); [|exact Ha'|..].
  - cbn [log_insert foldl]. change (foldl _ ?x es) with (log_insert x es). split_and!; [done|done| |].
    { rewrite last_cons. by destruct (last es). }
    exists ((log_index (entry_id e), record) :: new). rewrite <-app_assoc in Hrec |- *.
    split_and!; [done|by cbn; rewrite Hnew|]. intros Hst. apply Hrec. apply Forall_app. split.
    + eapply Forall_impl; [exact Hst|]. intros r. by apply record_of_insert.
    + constructor; [|constructor]. exists e. cbn. by rewrite lookup_insert_eq.
  - intros i d [[<- <-]|[Hne Hd]]%lookup_insert_Some.
    + exists e. by rewrite lookup_insert_eq.
    + destruct (Hc i d Hd) as (x & Hx & Hrest). exists x. by rewrite lookup_insert_ne.
  - intros i j Hi Hij Hl. destruct (decide (j = log_index (entry_id e))) as [->|Hne].
    { rewrite lookup_insert_eq. by eexists. }
    rewrite lookup_insert_ne in Hl by done. rewrite lookup_insert_ne by done.
    destruct (decide (i = log_index (entry_id e))) as [->|Hne'].
    { specialize (Hj j Hl). lia. }
    rewrite lookup_insert_ne in Hi by done. by eapply Hu.
Qed.

Lemma trim_upward log bytes (L : Log) : upward log L -> upward (trim_log_cache log bytes).1 L.
Proof.
  intros Hu i j Hi Hij HL. unfold trim_log_cache in *.
  destruct (trim_loop (btree_entries log) bytes) as [es b] eqn:E. cbn [fst] in *.
  destruct (trim_loop_suffix (btree_entries log) bytes) as [pre Hpre]. rewrite E in Hpre. cbn in Hpre.
  destruct Hi as [d Hd%elem_of_list_to_map_2].
  assert ((i, d) ∈ btree_entries log) as Hd' by (rewrite Hpre; apply elem_of_app; by right).
  destruct (Hu i j) as [d' Hd2]; [by exists d; apply btree_elem|done|done|].
  apply btree_elem in Hd2. rewrite Hpre in Hd2. apply elem_of_app in Hd2 as [Hin|Hin].
  - pose proof (btree_sorted log) as Hs. rewrite Hpre in Hs.
    assert (j <= i) as Hji.
    { by apply (StronglySorted_app_1_elem_of _ _ _ (j, d') (i, d) Hs). }
    assert (j = i) as -> by lia. exists d. apply elem_of_list_to_map_1; [|done].
    pose proof (btree_nodup log) as Hnd. rewrite Hpre, fmap_app in Hnd. by apply NoDup_app in Hnd as (_ & _ & ?).
  - exists d'. apply elem_of_list_to_map_1; [|done].
    pose proof (btree_nodup log) as Hnd. rewrite Hpre, fmap_app in Hnd. by apply NoDup_app in Hnd as (_ & _ & ?).
Qed.

Lemma last_max {A} (m : gmap Z A) k x j :
  last (btree_entries m) = Some (k, x) -> is_Some (m !! j) -> m !! k = Some x /\ j <= k.
Proof.
  intros Hl [y Hy]. pose proof (last_Some_elem_of _ _ Hl) as Hin. apply btree_elem in Hin. split; [done|].
  apply btree_elem in Hy. apply last_Some in Hl as [l Hl]. pose proof (btree_sorted m) as Hs.
  rewrite Hl in Hs, Hy. apply elem_of_app in Hy as [Hy|[= -> ->]%list_elem_of_singleton]; [|lia].
  apply (StronglySorted_app_1_elem_of _ _ _ (j, y) (k, x) Hs Hy). by apply list_elem_of_singleton.
Qed.

Lemma cache_last_of log (L : Log) id :
  log_ok L -> cache_of log L -> upward log L -> cache_last_log_id log = Some id -> last_of L (Some id).
Proof.
  intros HL Hc Hu Hid. unfold cache_last_log_id in Hid.
  destruct (last (btree_entries log)) as [[k d]|] eqn:E; [|done]. injection Hid as <-.
  destruct (last_max log k d k E) as [Hd _].
  { exists d. apply btree_elem. by apply last_Some_elem_of. }
  destruct (Hc k d Hd) as (e & He & Hid & _). destruct (HL k e He) as [Hk _]. cbn [snd].
  exists e. rewrite Hid, Hk. split_and!; [done..|]. intros j Hj.
  destruct (decide (j <= k)) as [|Hgt]; [done|]. exfalso.
  destruct (Hu k j) as [d' Hd']; [by exists d|lia|done|].
  destruct (last_max log k d j E) as [_ ?]; [by exists d'|lia].
Qed.

(** Trimming after an append leaves a final part of the log and the id of its last entry. *)
Lemma trimmed_cache log bytes (L : Log) id log' bytes' :
  log_ok L -> cache_of log L -> upward log L -> last_of L id ->
  trim_log_cache log bytes = (log', bytes') ->
  cache_of log' L /\ upward log' L /\ last_of L (option_or (cache_last_log_id log') id).
Proof.
  intros HL Hc Hu Hid E.
  assert (cache_of log' L) as Hc' by (intros i d Hd; apply Hc; eapply trim_keeps; by rewrite E).
  assert (upward log' L) as Hu' by (eapply trim_upward in Hu; by rewrite E in Hu).
  split_and!; [done..|]. destruct (cache_last_log_id log') eqn:El; [by eapply cache_last_of|done].
Qed.


(** ** Flushing a job *)

Definition job_entry (L : Log) (e' : RaftLogEntry) : Prop :=
  entry_ok e' /\ exists e, L !! le_index e' = Some e /\ encode_stored_entry e = Ok (encode_record e').

Lemma job_entries (L : Log) job :
  log_ok L -> Forall (record_of L) job ->
  exists es, job = (fun e => (le_index e, encode_record e)) <$> es /\ Forall (job_entry L) es.
Proof.
  intros HL. induction job as [|[i r] job IH]; intros Hjob; [by exists []|].
  apply Forall_cons in Hjob as [(e & He & Henc) Hjob]. destruct (IH Hjob) as (es & -> & Hes).
  cbn in He, Henc. destruct (HL i e He) as (Hi & Hid & _). rewrite <-Hi in He |- *.
  destruct (encoded_entry e r Henc) as (p & -> & _).
  exists (mkLogEntry (log_index (entry_id e)) (leader_term (leader_id (entry_id e))) p :: es).
  split; [done|]. constructor; [|done]. split; [by split; apply Hid|]. by exists e.
Qed.

Lemma log_append_lookup es : forall m i tp,
  log_append m es !! i = Some tp ->
  m !! i = Some tp \/ exists e, e ∈ es /\ le_index e = i /\ tp = (le_term e, le_payload e).
Proof.
  induction es as [|e es IH]; intros m i tp Hl; [by left|]. cbn in Hl.
  apply IH in Hl as [[[<- <-]|[Hne Hl]]%lookup_insert_Some|(x & Hx & Hrest)].
  - right. exists e. split; [apply elem_of_cons; by left|done].
  - by left.
  - right. exists x. split; [apply elem_of_cons; by right|done].
Qed.

Lemma log_append_covers es : forall m i,
  is_Some (m !! i) \/ i ∈ (le_index <$> es) -> is_Some (log_append m es !! i).
Proof.
  induction es as [|e es IH]; intros m i Hi.
  { destruct Hi as [?|Hi]; [done|]. by apply elem_of_nil in Hi. }
  cbn. apply IH. destruct (decide (i = le_index e)) as [->|Hne].
  { left. rewrite lookup_insert_eq. by eexists. }
  rewrite lookup_insert_ne by done. rewrite fmap_cons, elem_of_cons in Hi. naive_solver.
Qed.

(** A job that reports success has made its entries durable. *)
Lemma job_flushed (L : Log) (db : Database) σ g job u db' :
  represents (view db) σ -> db_session db = None -> group_ok g -> log_ok L ->
  store_of (gs_log (σ g)) L -> Forall (record_of L) job ->
  run_log_io_job g db job = (Ok u, db') ->
  db_session db' = None /\
  exists σ', represents (view db') σ' /\ store_of (gs_log (σ' g)) L /\
    (forall i, is_Some (gs_log (σ g) !! i) \/ i ∈ job.*1 -> is_Some (gs_log (σ' g) !! i)) /\
    (forall i, is_Some (gs_log (σ' g) !! i) -> is_Some (gs_log (σ g) !! i) \/ i ∈ job.*1).
Proof.
  intros Hr Hs Hg HL Hstore Hjob Hrun. destruct (job_entries L job HL Hjob) as (es & -> & Hes).
  rewrite Forall_forall in Hes.
  destruct (run_op_refines db σ g (OAppend es None) Hr Hs Hg) as (Hs' & Hr' & _).
  { split; [|done]. apply Forall_forall. intros e He. by apply Hes. }
  cbn [store_op] in Hs', Hr'. unfold run_log_io_job, append_encoded in Hrun. rewrite Hrun in Hs', Hr'.
  cbn [finish_write fst snd result_bind is_ok] in Hs', Hr'. split; [done|]. eexists. split; [exact Hr'|].
  assert (gs_log (set_group σ g (spec_op (σ g) (OAppend es None)).1 g) = log_append (gs_log (σ g)) es) as ->.
  { unfold set_group. rewrite decide_True by done. by destruct (σ g). }
  split_and!.
  - intros i tp Htp. apply log_append_lookup in Htp as [Htp|(e' & He' & <- & ->)]; [by apply Hstore|].
    destruct (Hes e' He') as (_ & e & He & Henc). by exists e.
  - intros i Hi. apply log_append_covers. destruct Hi as [?|Hi]; [by left|right].
    by rewrite <-list_fmap_compose in Hi.
  - intros i [tp Htp]. apply log_append_lookup in Htp as [Htp|(e' & He' & <- & ->)]; [left; by eexists|].
    right. rewrite <-list_fmap_compose. apply list_elem_of_fmap. by exists e'.
Qed.

(** ** Deleting entries *)

(** Everything in the log is durable. *)
Definition all_durable (slog : gmap Z (Z * Bytes)) (L : Log) : Prop :=
  forall i, is_Some (L !! i) -> is_Some (slog !! i).

Lemma stored_last (db : Database) σ g (L : Log) index found :
  represents (view db) σ -> db_session db = None -> group_ok g -> log_ok L ->
  store_of (gs_log (σ g)) L -> all_durable (gs_log (σ g)) L ->
  last_log_index g db = Ok index ->
  match index with
  | None => L = ∅
  | Some index =>
      get_log g db index = Ok found ->
      last_of L ((fun e => stored_log_id (le_term e) (le_index e)) <$> found)
  end.
Proof.
  intros Hr Hs Hg HL Hstore Hall Hlast. destruct (Hr g Hg) as [Hlo Hgr].
  apply (last_log_index_spec db g (σ g)) in Hlast as ->; [|done..].
  destruct (last (btree_entries (gs_log (σ g)))) as [[k tp]|] eqn:E.
  - intros Hget. cbn [fmap option_fmap option_map fst] in *.
    destruct (last_max _ k tp k E) as [Htp _].
    { eexists. apply btree_elem. by apply last_Some_elem_of. }
    destruct (gr_dom _ _ Hgr k tp Htp) as [Hk Ht].
    destruct (run_op_refines db σ g (OGet k) Hr Hs Hg Hk) as (_ & _ & Hout). cbn [store_op] in Hout.
    rewrite Hget in Hout. specialize (Hout _ eq_refl). assert (found = Some (stored_entry (k, tp))) as ->.
    { destruct (σ g) as [slog ? ? ? ? ? ? ?]. cbn [spec_op snd gs_log] in Hout, Htp. rewrite Htp in Hout.
      by injection Hout. }
    destruct (stored_record L _ k tp HL Hstore Hk Ht Htp) as (e & He & Hid & _).
    exists e. cbn. split_and!; [done|by rewrite Hid|]. intros j Hj%Hall.
    by destruct (last_max _ k tp j E Hj).
  - apply map_empty. intros i. apply eq_None_not_Some. intros [tp Hi]%Hall.
    apply btree_elem in Hi. apply last_None in E. rewrite E in Hi. by apply elem_of_nil in Hi.
Qed.

Lemma after_deletion (s : Storage) (db : Database) σ (L : Log) cl s' :
  represents (view db) σ -> db_session db = None -> group_ok (rs_group s) -> log_ok L ->
  rs_persistent s = true ->
  store_of (gs_log (σ (rs_group s))) L -> all_durable (gs_log (σ (rs_group s))) L ->
  set_last_log_id_after_deletion s db cl = (Ok tt, s') ->
  exists id, s' = set_last_log_id s id /\ last_of L id.
Proof.
  intros Hr Hs Hg HL Hp Hstore Hall. unfold set_last_log_id_after_deletion, persistent_last_log_id.
  rewrite Hp. destruct (last_log_index (rs_group s) db) as [index|] eqn:Ei; [|done].
  cbn [map_err result_bind]. pose proof (stored_last db σ (rs_group s) L index) as Hl.
  destruct index as [index|].
  - destruct (get_log (rs_group s) db index) as [found|] eqn:Eg; [|done]. cbn [map_err result_bind].
    intros [= <-]. eexists. split; [reflexivity|]. by apply Hl.
  - intros [= <-]. exists None. split; [done|]. by apply (Hl None).
Qed.


(** Removing the entries a test selects. *)
Definition drop_log {A} (p : Z -> bool) (m : gmap Z A) : gmap Z A := filter (fun e => p e.1 = false) m.

Lemma drop_log_lookup {A} p (m : gmap Z A) i : drop_log p m !! i = if p i then None else m !! i.
Proof.
  unfold drop_log. destruct (p i) eqn:Ep.
  - apply map_lookup_filter_None. right. intros x _. cbn. by rewrite Ep.
  - destruct (m !! i) as [x|] eqn:Ex; [by apply map_lookup_filter_Some|].
    apply map_lookup_filter_None. by left.
Qed.

Lemma drop_log_Some {A} p (m : gmap Z A) i x : drop_log p m !! i = Some x <-> p i = false /\ m !! i = Some x.
Proof. rewrite drop_log_lookup. destruct (p i); naive_solver. Qed.

Lemma drop_log_is_Some {A} p (m : gmap Z A) i : is_Some (drop_log p m !! i) <-> p i = false /\ is_Some (m !! i).
Proof. rewrite drop_log_lookup. destruct (p i); [|naive_solver]. rewrite is_Some_alt. naive_solver. Qed.

Lemma log_ok_drop p (L : Log) : log_ok L -> log_ok (drop_log p L).
Proof. intros HL i e [_ He]%drop_log_Some. by apply HL. Qed.

Lemma cache_drop p (log : gmap Z LogEntryData) bytes (L : Log) :
  cache_of log L -> upward log L ->
  cache_of (remove_entries p log bytes).1 (drop_log p L) /\ upward (remove_entries p log bytes).1 (drop_log p L).
Proof.
  intros Hc Hu. split.
  - intros i d Hd. rewrite remove_entries_lookup in Hd. destruct (p i) eqn:Ep; [done|].
    destruct (Hc i d Hd) as (e & He & Hrest). exists e. split; [|done]. by apply drop_log_Some.
  - intros i j. rewrite !remove_entries_lookup, drop_log_is_Some. intros Hi Hij [Ej Hj]. rewrite Ej.
    destruct (p i); [by destruct Hi|]. by eapply Hu.
Qed.

Lemma store_drop (p : Z -> bool) (slog slog' : gmap Z (Z * Bytes)) (L : Log) :
  (forall i, slog' !! i = if p i then None else slog !! i) ->
  store_of slog L -> all_durable slog L -> store_of slog' (drop_log p L) /\ all_durable slog' (drop_log p L).
Proof.
  intros Hl Hs Ha. split.
  - intros i tp Htp. rewrite Hl in Htp. destruct (p i) eqn:Ep; [done|].
    destruct (Hs i tp Htp) as (e & He & Henc). exists e. split; [|done]. by apply drop_log_Some.
  - intros i [Ep Hi]%drop_log_is_Some. rewrite Hl, Ep. by apply Ha.
Qed.

(** ** A node: its storage, the database it shares with the other groups, and the appends the
    log-IO thread has not written yet *)

Record Node := mkNode {
  n_storage : Storage;
  n_db : Database;
  n_fs : F;
  n_jobs : list (list (Z * Bytes))
}.

Definition pending (n : Node) : list Z := (concat (n_jobs n)).*1.

(** [L] is the log of the group as openraft sees it. *)
Record node_inv (g : GroupId) (n : Node) (L : Log) : Prop := {
  ni_group : rs_group (n_storage n) = g;
  ni_persistent : rs_persistent (n_storage n) = true;
  ni_flush : rs_flush_log_on_append (n_storage n) = true;
  ni_machine : sm_ok (rs_state_machine (n_storage n));
  ni_session : db_session (n_db n) = None;
  ni_log : log_ok L;
  ni_cache : cache_of (rs_log (n_storage n)) L;
  ni_upward : upward (rs_log (n_storage n)) L;
  ni_last : last_of L (rs_last_log_id (n_storage n));
  ni_jobs : Forall (record_of L) (concat (n_jobs n));
  ni_nodup : NoDup (pending n);
  ni_store : exists σ, represents (view (n_db n)) σ /\ store_of (gs_log (σ g)) L /\
    forall i, is_Some (L !! i) -> (is_Some (gs_log (σ g) !! i) <-> i ∉ pending n)
}.

(** The database may change in any way that keeps the logs. *)
Definition keeps_logs (g : GroupId) (db db' : Database) : Prop :=
  forall σ, represents (view db) σ -> db_session db = None ->
    db_session db' = None /\
    exists σ', represents (view db') σ' /\ gs_log (σ' g) = gs_log (σ g).

Lemma keeps_logs_refl g db : keeps_logs g db db.
Proof. intros σ Hr Hs. split; [done|]. by exists σ. Qed.

Lemma keeps_logs_trans g db1 db2 db3 : keeps_logs g db1 db2 -> keeps_logs g db2 db3 -> keeps_logs g db1 db3.
Proof.
  intros H12 H23 σ Hr Hs. destruct (H12 σ Hr Hs) as (Hs2 & σ2 & Hr2 & Hl2).
  destruct (H23 σ2 Hr2 Hs2) as (Hs3 & σ3 & Hr3 & Hl3). split; [done|]. exists σ3. split; [done|congruence].
Qed.

Lemma evolves_keeps g db db' : group_ok g -> evolves (benign g) db db' -> keeps_logs g db db'.
Proof.
  intros Hg He σ Hr Hs. destruct (evolves_represents db db' σ g Hr Hg Hs He) as (Hs' & σ' & Hr' & Hl).
  split; [done|]. by exists σ'.
Qed.

Lemma op_keeps g g' (db : Database) op :
  group_ok g' -> store_op_ok op ->
  (g' <> g \/ forall s, gs_log (spec_op s op).1 = gs_log s) -> keeps_logs g db (store_op g' db op).2.
Proof.
  intros Hg Hop Hsame σ Hr Hs. destruct (run_op_refines db σ g' op Hr Hs Hg Hop) as (Hs' & Hr' & _).
  split; [done|]. eexists. split; [exact Hr'|]. destruct (is_ok _); [|done].
  unfold set_group. destruct (decide (g = g')) as [->|]; [|done]. by destruct Hsame as [?|Hsame].
Qed.

Lemma node_inv_keeps g s db fs s' db' fs' jobs (L : Log) :
  node_inv g (mkNode s db fs jobs) L -> keeps_logs g db db' -> same_log s s' ->
  node_inv g (mkNode s' db' fs' jobs) L.
Proof.
  intros [] Hk (Hsg & Hsp & Hsf & Hsl & Hsi & Hsm). cbn [n_storage n_db n_jobs] in *.
  destruct ni_store0 as (σ & Hr & Hstore & Hcov). destruct (Hk σ Hr ni_session0) as (Hs' & σ' & Hr' & Hl).
  constructor; cbn [n_storage n_db n_jobs]; rewrite ?Hsg, ?Hsp, ?Hsf, ?Hsl, ?Hsi; try assumption; [by apply Hsm|].
  exists σ'. rewrite Hl. by split_and!.
Qed.


(** ** The calls of openraft and the steps of the log-IO thread

    The log a step leaves is given with it.  A truncation, a purge and an installed snapshot come
    when no append is in flight (openraft waits for the callback of an append); a restart loses
    what the log-IO thread had not written.  The steps are those that succeed, of a group in cluster
    mode ([flush_log_on_append]); single-node mode, which defers the durability of the log until
    apply, is covered by [apply_is_atomic] only. *)
Inductive node_step (g : GroupId) (leader_text : LeaderId -> string) : Node -> Log -> Node -> Log -> Prop :=
| step_append s db fs jobs L es job s' :
    appendable L es -> append_entries s es = (Ok job, s') ->
    node_step g leader_text (mkNode s db fs jobs) L
      (mkNode s' db fs (jobs ++ option_list job)) (log_insert L es)
| step_flush s db fs job jobs L u db' :
    run_log_io_job g db job = (Ok u, db') ->
    node_step g leader_text (mkNode s db fs (job :: jobs)) L (mkNode s db' fs jobs) L
| step_truncate s db fs L id s' db' :
    is_u64 (log_index id) -> delete_conflict_logs_since s db id = (Ok tt, s', db') ->
    node_step g leader_text (mkNode s db fs []) L
      (mkNode s' db' fs []) (drop_log (fun i => log_index id <=? i) L)
| step_purge s db fs L id s' db' :
    id_u64 id -> log_index id < u64_max -> purge_logs_upto s db id = (Ok tt, s', db') ->
    node_step g leader_text (mkNode s db fs []) L
      (mkNode s' db' fs []) (drop_log (fun i => i <=? log_index id) L)
| step_apply s db fs jobs L es r s' db' :
    Forall (fun e : LogEntry => id_u64 (entry_id e)) es ->
    apply_to_state_machine s db es = (r, s', db') ->
    node_step g leader_text (mkNode s db fs jobs) L (mkNode s' db' fs jobs) L
| step_vote s db fs jobs L v r s' db' :
    save_vote_raft s db v = (r, s', db') ->
    node_step g leader_text (mkNode s db fs jobs) L (mkNode s' db' fs jobs) L
| step_committed s db fs jobs L id :
    node_step g leader_text (mkNode s db fs jobs) L (mkNode (save_committed s id) db fs jobs) L
| step_build s db fs jobs L r s' db' fs' :
    build_snapshot leader_text s db fs = (r, s', db', fs') ->
    node_step g leader_text (mkNode s db fs jobs) L (mkNode s' db' fs' jobs) L
| step_install s db fs L meta data s' db' fs' :
    match meta_last_log_id meta with Some id => id_u64 id /\ log_index id < u64_max | None => True end ->
    install_snapshot s db fs meta data = (Ok tt, s', db', fs') ->
    node_step g leader_text (mkNode s db fs []) L (mkNode s' db' fs' [])
      match meta_last_log_id meta with
      | Some id => drop_log (fun i => i <=? log_index id) L
      | None => L
      end
| step_restore s db fs jobs L r s' :
    restore_state_machine_from_snapshot s = (r, s') ->
    node_step g leader_text (mkNode s db fs jobs) L (mkNode s' db fs jobs) L
| step_other s db fs jobs L g' op :
    g' <> g -> group_ok g' -> store_op_ok op ->
    node_step g leader_text (mkNode s db fs jobs) L (mkNode s (store_op g' db op).2 fs jobs) L
| step_restart s db fs jobs L m dir s' :
    sm_ok m -> new_persistent default_membership g m db fs dir = Ok s' ->
    node_step g leader_text (mkNode s db fs jobs) L
      (mkNode s' db fs []) (forget <$> drop_log (fun i => bool_decide (i ∈ (concat jobs).*1)) L).

Lemma node_append_step g s db fs jobs L es job s' :
  node_inv g (mkNode s db fs jobs) L -> appendable L es -> append_entries s es = (Ok job, s') ->
  node_inv g (mkNode s' db fs (jobs ++ option_list job)) (log_insert L es).
Proof.
  intros [] Ha. cbn [n_storage n_db n_jobs] in *. unfold append_entries, stage_log_entries.
  rewrite ni_persistent0, ni_flush0. cbn [andb].
  destruct (stage_loop true es (rs_log s) [] 0 None) as [[[[staged added] newest]|] log] eqn:Est; [|done].
  apply (stage_loop_spec es L) in Est as (Hc & Hu & -> & new & -> & Hnew & Hrec); [|done..].
  destruct (log_insert_keeps es L Ha ni_log0) as (Hok & Hkeep & Hadd).
  destruct (trim_log_cache log _) as [log' bytes'] eqn:Etrim.
  apply (trimmed_cache log _ (log_insert L es) (option_or (entry_id <$> last es) (rs_last_log_id s)))
    in Etrim as (Hc' & Hu' & Hlast); [|done..|by apply last_of_insert].
  replace (option_or (option_or (entry_id <$> last es) None) (rs_last_log_id s))
    with (option_or (entry_id <$> last es) (rs_last_log_id s)) by (by destruct (last es)).
  cbn [fst snd app] in *. intros Hjob.
  set (s1 := set_last_log_id (set_log s log' bytes') _) in Hjob.
  assert (s' = s1 /\ concat (jobs ++ option_list job) = concat jobs ++ new) as [-> Hjobs].
  { change (rs_flush_log_on_append s1) with (rs_flush_log_on_append s) in Hjob.
    change (rs_persistent s1) with (rs_persistent s) in Hjob.
    rewrite ni_flush0, ni_persistent0 in Hjob. cbn [andb] in Hjob. rewrite concat_app.
    destruct new; injection Hjob as <- <-; cbn; by rewrite ?app_nil_r. }
  destruct Ha as [Hsorted Hes]. rewrite Forall_forall in Hes.
  assert (forall i, i ∈ new.*1 -> L !! i = None) as Hfresh.
  { intros i Hi. rewrite Hnew in Hi. apply list_elem_of_fmap in Hi as (e & -> & He).
    apply eq_None_not_Some. intros Hl. destruct (Hes e He) as (_ & _ & Hj). specialize (Hj _ Hl). lia. }
  assert (forall i, i ∈ pending (mkNode s db fs jobs) -> is_Some (L !! i)) as Hpend.
  { intros i (r & -> & Hr)%list_elem_of_fmap. rewrite Forall_forall in ni_jobs0.
    destruct (ni_jobs0 r Hr) as (e & He & _). by exists e. }
  constructor; cbn [n_storage n_db n_jobs]; try done.
  - rewrite Hjobs. apply Forall_app. split; [|by apply Hrec].
    eapply Forall_impl; [exact ni_jobs0|]. intros r (e & He & Henc). exists e. split; [by apply Hkeep|done].
  - unfold pending. cbn [n_jobs]. rewrite Hjobs, fmap_app. apply NoDup_app. split_and!; [done|..].
    + intros i Hi Hin. specialize (Hfresh i Hin). destruct (Hpend i Hi) as [? ?]. congruence.
    + rewrite Hnew. by apply sorted_lt_nodup.
  - destruct ni_store0 as (σ & Hr & Hstore & Hcov). exists σ. split_and!; [done|..].
    + intros i tp Htp. destruct (Hstore i tp Htp) as (e & He & Henc). exists e. split; [by apply Hkeep|done].
    + intros i Hi. unfold pending. cbn [n_jobs]. rewrite Hjobs, fmap_app, not_elem_of_app.
      destruct (L !! i) as [e|] eqn:El.
      * rewrite (Hcov i) by (by exists e). unfold pending. cbn [n_jobs]. split; [|by intros [? _]].
        intros Hni. split; [done|]. intros Hin%Hfresh. congruence.
      * apply Hadd in Hi as [[? ?]|Hi]; [congruence|]. rewrite <-Hnew in Hi. split; [|by intros [_ ?]].
        intros [tp Htp]. destruct (Hstore i tp Htp) as (e & He & _). congruence.
Qed.

Lemma flush_step g s db fs job jobs (L : Log) u db' :
  group_ok g -> node_inv g (mkNode s db fs (job :: jobs)) L -> run_log_io_job g db job = (Ok u, db') ->
  node_inv g (mkNode s db' fs jobs) L.
Proof.
  intros Hg [] Hrun. cbn [n_storage n_db n_jobs concat] in *. destruct ni_store0 as (σ & Hr & Hstore & Hcov).
  apply Forall_app in ni_jobs0 as [Hjob Hjobs].
  destruct (job_flushed L db σ g job u db' Hr ni_session0 Hg ni_log0 Hstore Hjob Hrun)
    as (Hs' & σ' & Hr' & Hstore' & Hadd & Honly).
  unfold pending in *. cbn [n_jobs concat] in *. rewrite fmap_app in *.
  apply NoDup_app in ni_nodup0 as (_ & Hdisj & Hnd).
  constructor; cbn [n_storage n_db n_jobs]; try done.
  exists σ'. split_and!; [done..|]. intros i Hi. specialize (Hcov i Hi). rewrite not_elem_of_app in Hcov.
  unfold pending. cbn [n_jobs]. split.
  - intros [Hd|Hin]%Honly Hp; [by apply Hcov in Hd as [_ ?]|by eapply Hdisj].
  - intros Hp. apply Hadd. destruct (decide (i ∈ job.*1)); [by right|]. left. by apply Hcov.
Qed.

(** The durable log after a deletion. *)
Lemma deleted g (db : Database) σ (op : RaftOp) (p : Z -> bool) (L : Log) :
  represents (view db) σ -> db_session db = None -> group_ok g -> store_op_ok op ->
  store_of (gs_log (σ g)) L -> all_durable (gs_log (σ g)) L ->
  (forall s i, (forall j, is_Some (gs_log s !! j) -> is_u64 j) ->
     gs_log (spec_op s op).1 !! i = if p i then None else gs_log s !! i) ->
  is_ok (store_op g db op).1 = true ->
  db_session (store_op g db op).2 = None /\
  exists σ', represents (view (store_op g db op).2) σ' /\
    store_of (gs_log (σ' g)) (drop_log p L) /\ all_durable (gs_log (σ' g)) (drop_log p L).
Proof.
  intros Hr Hs Hg Hop Hstore Hall Hspec Hok.
  destruct (run_op_refines db σ g op Hr Hs Hg Hop) as (Hs' & Hr' & _). rewrite Hok in Hr'.
  split; [done|]. eexists. split; [exact Hr'|]. eapply store_drop; [|done..]. intros i.
  unfold set_group. rewrite decide_True by done. apply Hspec. intros j [tp Htp].
  destruct (Hr g Hg) as [_ Hgr]. by apply (gr_dom _ _ Hgr) in Htp as [? _].
Qed.

Lemma filter_log_lookup {A} (P : Z * A -> Prop) `{forall x, Decision (P x)} (m : gmap Z A) i (b : bool) :
  (forall x, m !! i = Some x -> P (i, x) <-> b = false) ->
  filter P m !! i = if b then None else m !! i.
Proof.
  intros Hb. destruct (m !! i) as [x|] eqn:Ex.
  - specialize (Hb x eq_refl). destruct b.
    + apply map_lookup_filter_None. right. intros y Hy. assert (y = x) as -> by congruence. naive_solver.
    + apply map_lookup_filter_Some. naive_solver.
  - destruct b; apply map_lookup_filter_None; by left.
Qed.

(** The node after its durable log and its cache lost the same entries. *)
Lemma dropped_inv g s db' fs log bytes cl s1 s' (L : Log) p σ' :
  log_ok L -> cache_of (rs_log s) L -> upward (rs_log s) L -> group_ok g ->
  rs_group s = g -> rs_persistent s = true -> rs_flush_log_on_append s = true ->
  sm_ok (rs_state_machine s) -> db_session db' = None -> represents (view db') σ' ->
  store_of (gs_log (σ' g)) (drop_log p L) -> all_durable (gs_log (σ' g)) (drop_log p L) ->
  remove_entries p (rs_log s) (rs_log_cache_bytes s) = (log, bytes) ->
  same_log (set_log s log bytes) s1 ->
  set_last_log_id_after_deletion s1 db' cl = (Ok tt, s') ->
  node_inv g (mkNode s' db' fs []) (drop_log p L).
Proof.
  intros HL Hc Hu Hg Hgr Hp Hf Hm Hs' Hr' Hstore Hall Er (Hg1 & Hp1 & Hf1 & Hl1 & _ & Hm1) Hset.
  destruct (cache_drop p (rs_log s) (rs_log_cache_bytes s) L Hc Hu) as [Hc' Hu']. rewrite Er in Hc', Hu'.
  cbn [fst rs_group rs_persistent rs_flush_log_on_append rs_log set_log] in *. rewrite Hgr in Hg1. subst g.
  rewrite <-Hg1 in *.
  apply (after_deletion s1 db' σ' (drop_log p L)) in Hset as (id & -> & Hid);
    [|done|done|done|by apply log_ok_drop|congruence|done|done].
  constructor; cbn [n_storage n_db n_jobs set_last_log_id rs_group rs_persistent rs_flush_log_on_append
    rs_log rs_last_log_id]; rewrite ?Hl1; try congruence; try assumption; try done.
  - by apply Hm1.
  - by apply log_ok_drop.
  - constructor.
  - exists σ'. split_and!; [done..|]. intros i Hi. split; [intros _; apply not_elem_of_nil|]. by intros _; apply Hall.
Qed.


Lemma drained g s db fs (L : Log) :
  node_inv g (mkNode s db fs []) L ->
  exists σ, represents (view db) σ /\ store_of (gs_log (σ g)) L /\ all_durable (gs_log (σ g)) L.
Proof.
  intros []. destruct ni_store0 as (σ & Hr & Hs & Hc). exists σ. split_and!; [done..|].
  intros i Hi. apply Hc; [done|apply not_elem_of_nil].
Qed.

Lemma truncate_step g s db fs (L : Log) id s' db' :
  group_ok g -> node_inv g (mkNode s db fs []) L -> is_u64 (log_index id) ->
  delete_conflict_logs_since s db id = (Ok tt, s', db') ->
  node_inv g (mkNode s' db' fs []) (drop_log (fun i => log_index id <=? i) L).
Proof.
  intros Hg Hinv Hid. destruct (drained _ _ _ _ _ Hinv) as (σ & Hr & Hstore & Hall). destruct Hinv.
  cbn [n_storage n_db n_jobs] in *. unfold delete_conflict_logs_since. rewrite ni_persistent0, ni_group0.
  pose proof (deleted g db σ (ODeleteFrom (log_index id)) (fun i => log_index id <=? i) L
    Hr ni_session0 Hg Hid Hstore Hall) as Hdel. cbn [store_op] in Hdel.
  destruct (delete_logs_from g db (log_index id)) as [[u|] db1]; [|done].
  destruct Hdel as (Hs1 & σ1 & Hr1 & Hst1 & Hall1); [|done|].
  { intros [slog ? ? ? ? ? ? ?] i _. cbn. apply filter_log_lookup. intros x _. cbn. by rewrite Z.leb_gt. }
  cbn [finish_write snd] in *.
  destruct (remove_entries _ _ _) as [log bytes] eqn:Er.
  destruct (set_last_log_id_after_deletion _ _ _) as [r2 s2] eqn:Eset. intros [= -> <- <-].
  eapply dropped_inv; done.
Qed.

Lemma purge_step g s db fs (L : Log) id s' db' :
  group_ok g -> node_inv g (mkNode s db fs []) L -> id_u64 id -> log_index id < u64_max ->
  purge_storage s db id = (Ok tt, s', db') ->
  node_inv g (mkNode s' db' fs []) (drop_log (fun i => i <=? log_index id) L).
Proof.
  intros Hg Hinv Hid Hmax. destruct (drained _ _ _ _ _ Hinv) as (σ & Hr & Hstore & Hall). destruct Hinv.
  cbn [n_storage n_db n_jobs] in *. unfold purge_storage. rewrite ni_persistent0, ni_group0.
  rewrite u64_add_small by (destruct Hid as [_ Hi]; unfold is_u64 in Hi; lia).
  pose proof (deleted g db σ (ODeleteBefore (log_index id + 1)) (fun i => i <=? log_index id) L
    Hr ni_session0 Hg) as Hdel. cbn [store_op store_op_ok] in Hdel.
  destruct (delete_logs_before g db (log_index id + 1)) as [[u|] db1]; [|done].
  destruct Hdel as (Hs1 & σ1 & Hr1 & Hst1 & Hall1); [|done|done| |done|].
  { destruct Hid as [_ Hi]. unfold is_u64 in *. lia. }
  { intros [slog ? ? ? ? ? ? ?] i _. cbn. apply filter_log_lookup. intros x _. cbn. rewrite Z.leb_gt. lia. }
  cbn [finish_write snd] in *.
  destruct (op_keeps g g db1 (OSaveId PurgeCell (Some (raft_log_id id))) Hg Hid
    ltac:(right; by intros []) σ1 Hr1 Hs1) as (Hs2 & σ2 & Hr2 & Hl2). cbn [store_op] in Hs2, Hr2.
  destruct (save_purge g db1 (Some (raft_log_id id))) as [[u2|] db2]; [|done].
  cbn [finish_write snd map_err] in *. rewrite <-Hl2 in Hst1, Hall1.
  destruct (remove_entries _ _ _) as [log bytes] eqn:Er.
  destruct (set_last_log_id_after_deletion _ _ _) as [r2 s2] eqn:Eset. intros [= -> <- <-].
  by eapply (dropped_inv g s db2 fs log bytes _ (set_last_purged (set_log s log bytes) (Some id)) s2 L _ σ2).
Qed.

(** The operations that write the snapshot references, the progress or the membership. *)
Lemma finish_write_db (w : StoreResult unit * Database) : (finish_write w).2 = w.2.
Proof. done. Qed.

Lemma persist_snapshot_keeps g (s : Storage) (db : Database) fs id sid data r db' fs' :
  group_ok g -> rs_group s = g -> persist_snapshot s db fs id sid data = (r, db', fs') -> keeps_logs g db db'.
Proof.
  intros Hg <-. unfold persist_snapshot.
  destruct (rs_snapshots_dir s) as [dir|]; [|intros [= <- <- <-]; apply keeps_logs_refl].
  destruct (write_snapshot_file _ _ _ _ _) as [[u|] fs1]; [|intros [= <- <- <-]; apply keeps_logs_refl].
  set (m := mkRaftSnapshotMeta _ _ _).
  pose proof (op_keeps (rs_group s) (rs_group s) db (OSaveSnapMeta m) Hg I ltac:(right; by intros [])) as H1k.
  cbn [store_op] in H1k. rewrite finish_write_db in H1k.
  destruct (save_snapshot_meta (rs_group s) db m) as [[u1|] db1]; [|by intros [= <- <- <-]].
  set (d := FilePath _).
  pose proof (op_keeps (rs_group s) (rs_group s) db1 (OSaveSnapData d) Hg I ltac:(right; by intros [])) as H2k.
  cbn [store_op] in H2k. rewrite finish_write_db in H2k.
  destruct (save_snapshot_data (rs_group s) db1 d) as [[u2|] db2]; intros [= <- <- <-];
    by eapply keeps_logs_trans.
Qed.

Lemma build_keeps g leader_text (s : Storage) (db : Database) (fs : F) r s' db' fs' :
  group_ok g -> rs_group s = g -> build_snapshot leader_text s db fs = (r, s', db', fs') ->
  keeps_logs g db db' /\ same_log s s'.
Proof.
  intros Hg Hgr. unfold build_snapshot.
  destruct (sm_snapshot (rs_state_machine s)) as [sm|]; [|intros [= <- <- <- <-]; split; [apply keeps_logs_refl|done]].
  destruct (sm_encode _) as [bytes|]; [|intros [= <- <- <- <-]; split; [apply keeps_logs_refl|done]].
  destruct (rs_persistent s).
  - destruct (persist_snapshot _ _ _ _ _ _) as [[r1 db1] fs1] eqn:E.
    apply (persist_snapshot_keeps g) in E; [|done..].
    destruct r1; intros [= <- <- <- <-]; by split.
  - intros [= <- <- <- <-]. split; [apply keeps_logs_refl|done].
Qed.

Lemma persist_installed_keeps g (s : Storage) (db : Database) fs meta data r db' fs' :
  group_ok g -> rs_group s = g ->
  match meta_last_log_id meta with Some id => id_u64 id | None => True end ->
  persist_installed s db fs meta data = (r, db', fs') -> keeps_logs g db db'.
Proof.
  intros Hg Hgr Hid. unfold persist_installed.
  destruct (persist_snapshot _ _ _ _ _ _) as [[r1 db1] fs1] eqn:E1.
  apply (persist_snapshot_keeps g) in E1; [|done..].
  destruct r1 as [u1|]; [|by intros [= <- <- <-]].
  set (w := match meta_last_log_id meta with Some id => _ | None => _ end).
  assert (keeps_logs g db1 w.2) as Hw.
  { unfold w. destruct (meta_last_log_id meta) as [id|]; [|apply keeps_logs_refl]. rewrite Hgr.
    rewrite <-finish_write_db. apply (op_keeps g g db1 (OSaveId AppliedCell (Some (raft_log_id id)))); [done|exact Hid|].
    right. by intros []. }
  destruct w as [[u2|] db2]; [|intros [= <- <- <-]; by eapply keeps_logs_trans].
  pose proof (keeps_logs_trans _ _ _ _ E1 Hw) as H12.
  destruct (sm_encode _) as [b|]; [|by intros [= <- <- <-]].
  pose proof (op_keeps g g db2 (OSaveMembership b) Hg I ltac:(right; by intros [])) as H3k.
  cbn [store_op] in H3k. rewrite finish_write_db in H3k. rewrite Hgr.
  destruct (save_last_membership g db2 b) as [[u3|] db3]; intros [= <- <- <-];
    by eapply keeps_logs_trans.
Qed.

Lemma install_step g s db fs (L : Log) meta data s' db' fs' :
  group_ok g -> node_inv g (mkNode s db fs []) L ->
  match meta_last_log_id meta with Some id => id_u64 id /\ log_index id < u64_max | None => True end ->
  install_snapshot s db fs meta data = (Ok tt, s', db', fs') ->
  node_inv g (mkNode s' db' fs' [])
    match meta_last_log_id meta with Some id => drop_log (fun i => i <=? log_index id) L | None => L end.
Proof.
  intros Hg Hinv Hid. unfold install_snapshot. destruct (sm_decode data) as [d|]; [|done].
  destruct (sm_restore _ _) as [[u|] m] eqn:Em; [|done]. apply sm_restore_ok in Em; [|apply Hinv].
  set (s1 := set_membership _ _). rewrite (ni_persistent _ _ _ Hinv : rs_persistent s = true).
  destruct (persist_installed s1 db fs meta data) as [[r1 db1] fs1] eqn:E1.
  destruct r1 as [u1|]; [|done].
  apply (persist_installed_keeps g) in E1; [|done|by apply Hinv|by destruct (meta_last_log_id meta); [apply Hid|]].
  set (s2 := set_snapshot _ _ _).
  assert (node_inv g (mkNode s2 db1 fs1 []) L) as Hinv2 by (eapply node_inv_keeps; [exact Hinv|done|by split_and!]).
  destruct (meta_last_log_id meta) as [id|]; [|by intros [= <- <- <-]].
  destruct (purge_storage s2 db1 id) as [[r3 s3] db2] eqn:E3. intros [= -> <- <- <-].
  destruct Hid as [Hid Hmax]. by eapply purge_step.
Qed.


Lemma restore_same_log (s : Storage) r s' : restore_state_machine_from_snapshot s = (r, s') -> same_log s s'.
Proof.
  assert (forall x : Storage, same_log x (reconcile_state_machine_progress x).2) as Hrec.
  { intros x. unfold reconcile_state_machine_progress. destruct (rs_last_applied x); [|by split_and!].
    destruct (_ <=? _); [by split_and!|]. split_and!; [done..|]. apply sm_mark_ok. }
  unfold restore_state_machine_from_snapshot. destruct (rs_current_snapshot s); [|intros [= <- <-]; apply Hrec].
  destruct (sm_decode _) as [d|]; [|intros [= <- <-]; by split_and!].
  destruct (sm_restore _ _) as [ru m] eqn:Er.
  assert (same_log s (set_machine s m)) as Hm by (split_and!; [done..|]; intros Hm; by eapply sm_restore_ok).
  destruct ru; intros [= <- <-]; [|done]. eapply same_log_trans; [exact Hm|apply Hrec].
Qed.


(** ** Restarting *)

Abbreviation entry_log_id e := (stored_log_id (le_term e) (le_index e)).

Lemma load_cache_spec es id :
  Forall (fun e => is_ok (decode_log_payload (Membership := Membership) (le_payload e)) = true) es ->
  exists cache bytes,
    load_cache (Membership := Membership) es id =
      (cache, bytes, option_or ((fun e => entry_log_id e) <$> last es) id) /\
    (forall i d, cache !! i = Some d ->
       exists e, e ∈ es /\ le_index e = i /\ d = mkLogData (entry_log_id e) (encode_record e)) /\
    (forall e, e ∈ es -> is_Some (cache !! le_index e)).
Proof.
  unfold load_cache. induction es as [|e es IH] using rev_ind; intros Hok.
  { exists ∅, 0. split_and!; [done|by intros i d ?%lookup_empty_Some|by intros e ?%elem_of_nil]. }
  apply Forall_app in Hok as [Hok [He _]%Forall_cons]. destruct (IH Hok) as (cache & bytes & Heq & Hfrom & Hall).
  rewrite foldl_app, Heq. cbn [foldl]. destruct (decode_log_payload (le_payload e)); [|done].
  rewrite last_snoc. eexists _, _. split_and!; [reflexivity|..].
  - intros i d [[<- <-]|[Hne Hd]]%lookup_insert_Some.
    + exists e. split; [apply elem_of_app; right; by apply list_elem_of_singleton|done].
    + destruct (Hfrom i d Hd) as (x & Hx & Hrest). exists x. split; [apply elem_of_app; by left|done].
  - intros x Hx. destruct (decide (le_index x = le_index e)) as [->|Hne].
    { rewrite lookup_insert_eq. by eexists. }
    rewrite lookup_insert_ne by done. apply elem_of_app in Hx as [Hx| ->%list_elem_of_singleton]; [by apply Hall|done].
Qed.

Lemma last_filter {A} (P : A -> Prop) `{forall x, Decision (P x)} (l : list A) x :
  last l = Some x -> P x -> last (filter P l) = Some x.
Proof.
  intros [l' ->]%last_Some HP. rewrite filter_app, filter_cons_True, filter_nil by done. by rewrite last_snoc.
Qed.

(** What recovery loads is a final part of the durable log. *)
Lemma recovered (db : Database) σ g (L : Log) cache bytes id :
  represents (view db) σ -> db_session db = None -> group_ok g -> log_ok L ->
  (forall i e, L !! i = Some e -> forget e = e) ->
  store_of (gs_log (σ g)) L -> all_durable (gs_log (σ g)) L ->
  recover_log (Membership := Membership) g db = Ok (cache, bytes, id) ->
  cache_of cache L /\ upward cache L /\ last_of L id.
Proof.
  intros Hr Hs Hg HL Hforget Hstore Hall (index & Hidx & Hrec)%result_bind_ok.
  destruct (Hr g Hg) as [Hlo Hgr]. set (slog := gs_log (σ g)) in *.
  pose proof (stored_last db σ g L index) as Hlast.
  pose proof (last_log_index_spec db g (σ g) index Hg Hlo Hgr Hidx) as Hi.
  destruct index as [index|].
  2: { injection Hrec as <- <- <-. specialize (Hlast None Hr Hs Hg HL Hstore Hall Hidx). subst L.
       by split_and!; [intros i d ?%lookup_empty_Some|intros i j (d & Hd%lookup_empty_Some)|]. }
  apply result_bind_ok in Hrec as (found & Hget & Hrec). apply result_bind_ok in Hrec as (es & Hscan & Hload).
  injection Hload as Hload. specialize (Hlast found Hr Hs Hg HL Hstore Hall Hidx Hget).
  destruct (last (btree_entries (gs_log (σ g)))) as [[k tp]|] eqn:E; [|done]. injection Hi as ->.
  destruct (last_max _ k tp k E) as [Htp _]; [eexists; apply btree_elem; by apply last_Some_elem_of|].
  destruct (gr_dom _ _ Hgr k tp Htp) as [Hk Hterm].
  assert (k < u64_max) as Hkmax by (destruct (Hstore k tp Htp) as (e & He & _); by apply (HL k e)).
  rewrite u64_add_small in Hscan by (unfold is_u64 in Hk; lia).
  assert (is_u64 (saturating_sub k (LOG_CACHE_SIZE - 1))) as Hstart.
  { unfold is_u64, saturating_sub, LOG_CACHE_SIZE in *. lia. }
  set (start := saturating_sub k (LOG_CACHE_SIZE - 1)) in *.
  apply (scan_logs_spec db g (σ g)) in Hscan as ->; [|done..].
  assert (forall i tp', (i, tp') ∈ log_range (gs_log (σ g)) start (k + 1) <->
    slog !! i = Some tp' /\ start <= i) as Hrange.
  { intros i tp'. unfold log_range. rewrite list_elem_of_filter, btree_elem. cbn. split; [naive_solver|].
    intros [Hi Hst]. split; [|done]. destruct (last_max _ k tp i E); [by eexists|lia]. }
  destruct (load_cache_spec (stored_entry <$> log_range (gs_log (σ g)) start (k + 1))
    ((fun e => entry_log_id e) <$> found)) as (cache' & bytes' & Heq & Hfrom & Hloaded).
  { apply Forall_fmap, Forall_forall. intros [i tp'] [Hi _]%Hrange. destruct (gr_dom _ _ Hgr i tp' Hi) as [Hi64 Ht64].
    destruct (stored_record L _ i tp' HL Hstore Hi64 Ht64 Hi) as (e & _ & _ & Hdec). cbn.
    by rewrite Hdec. }
  rewrite Heq in Hload. injection Hload as <- <- <-. split_and!.
  - intros i d Hd. destruct (Hfrom i d Hd) as (e' & ([j tp'] & -> & [Hj _]%Hrange)%list_elem_of_fmap & <- & ->).
    destruct (gr_dom _ _ Hgr j tp' Hj) as [Hj64 Ht64]. destruct (Hstore j tp' Hj) as (e & He & Henc).
    destruct (stored_record L _ j tp' HL Hstore Hj64 Ht64 Hj) as (e2 & He2 & Hid & _).
    assert (e2 = e) as -> by congruence. exists e. split_and!; [done| |done]. cbn.
    rewrite <-(Hforget j e He). by rewrite <-Hid.
  - intros i j [d Hd] Hij [tp' Hj]%Hall. destruct (Hfrom i d Hd) as (e' & ([i' tp2] & -> & [_ Hst]%Hrange)%list_elem_of_fmap & <- & _).
    cbn in Hij. apply (Hloaded (stored_entry (j, tp'))). apply list_elem_of_fmap. exists (j, tp').
    split; [done|]. apply Hrange. split; [done|lia].
  - rewrite fmap_last. unfold log_range. rewrite (last_filter _ _ (k, tp) E); [|cbn; unfold start, saturating_sub, LOG_CACHE_SIZE, is_u64 in *; lia].
    destruct (stored_record L _ k tp HL Hstore Hk Hterm Htp) as (e & He & Hid & _). exists e. cbn.
    split_and!; [done|by rewrite Hid|]. intros j Hj%Hall. by destruct (last_max _ k tp j E Hj).
Qed.

Lemma restart_step g s db fs jobs (L : Log) m dir s' :
  group_ok g -> sm_ok m -> node_inv g (mkNode s db fs jobs) L ->
  new_persistent default_membership g m db fs dir = Ok s' ->
  node_inv g (mkNode s' db fs []) (forget <$> drop_log (fun i => bool_decide (i ∈ (concat jobs).*1)) L).
Proof.
  intros Hg Hm [] Hnew. cbn [n_storage n_db n_jobs] in *. destruct ni_store0 as (σ & Hr & Hstore & Hcov).
  set (L' := forget <$> _).
  assert (forall i e, L' !! i = Some e ->
    exists x, L !! i = Some x /\ e = forget x /\ i ∉ (concat jobs).*1) as HL'.
  { intros i e (x & <- & [Hp Hx]%drop_log_Some)%lookup_fmap_Some. exists x.
    by apply bool_decide_eq_false in Hp. }
  assert (log_ok L') as Hok.
  { intros i e (x & Hx & -> & _)%HL'. destruct (ni_log0 i x Hx) as (Hi & [Ht Hu] & Hmax). by split_and!. }
  assert (store_of (gs_log (σ g)) L') as Hst.
  { intros i tp Htp. destruct (Hstore i tp Htp) as (e & He & Henc). exists (forget e). split.
    - unfold L'. rewrite lookup_fmap. assert (drop_log (fun i => bool_decide (i ∈ (concat jobs).*1)) L !! i = Some e) as ->; [|done].
      apply drop_log_Some. split; [|done]. apply bool_decide_eq_false. by apply Hcov; eexists.
    - by destruct e as [? []]. }
  assert (all_durable (gs_log (σ g)) L') as Hall.
  { intros i [e (x & Hx & _ & Hni)%HL']. by apply Hcov; [exists x|]. }
  unfold new_persistent in Hnew. repeat apply result_bind_ok in Hnew as (? & ? & Hnew).
  repeat match goal with x : _ * _ |- _ => destruct x end.
  repeat apply result_bind_ok in Hnew as (? & ? & Hnew).
  repeat match goal with x : _ * _ |- _ => destruct x end.
  repeat apply result_bind_ok in Hnew as (? & ? & Hnew).
  apply Ok_inj in Hnew as <-.
  match goal with Hrec : recover_log _ _ = Ok _ |- _ => apply (recovered db σ g L') in Hrec as (Hc & Hu & Hl); [|done..| |done|done] end.
  2: { by intros i e (z0 & _ & -> & _)%HL'. }
  constructor; try done; cbn [n_storage n_db n_jobs]; [constructor|].
  exists σ. split_and!; [done..|]. intros i Hi. split; [intros _; apply not_elem_of_nil|]. intros _. by apply Hall.
Qed.

Lemma node_step_inv g leader_text n (L : Log) n' L' :
  group_ok g -> node_inv g n L -> node_step g leader_text n L n' L' -> node_inv g n' L'.
Proof.
  intros Hg Hinv Hstep.
  destruct Hstep as [s db fs jobs L es job s' Ha Hrun|s db fs job jobs L u db' Hrun|s db fs L id s' db' Hid Hrun
    |s db fs L id s' db' Hid Hmax Hrun|s db fs jobs L es r s' db' Hes Hrun|s db fs jobs L v r s' db' Hrun
    |s db fs jobs L id|s db fs jobs L r s' db' fs' Hrun|s db fs L meta data s' db' fs' Hid Hrun
    |s db fs jobs L r s' Hrun|s db fs jobs L g' op Hne Hg' Hop|s db fs jobs L m dir s' Hm Hrun].
  - by eapply node_append_step.
  - by eapply flush_step.
  - by eapply truncate_step.
  - by eapply purge_step.
  - pose proof Hinv as []. cbn [n_storage n_db] in *.
    destruct (apply_evolves s db es r s' db') as [He Hsame]; [done..|].
    eapply node_inv_keeps; [exact Hinv| |done]. rewrite ni_group0 in He. by apply evolves_keeps.
  - pose proof Hinv as []. cbn [n_storage n_db] in *. unfold save_vote_raft in Hrun.
    rewrite ni_persistent0, ni_group0 in Hrun.
    set (rv := mkRaftVote _ _ _) in Hrun.
    pose proof (op_keeps g g db (OSaveVote rv) Hg I ltac:(right; by intros [])) as Hk.
    cbn [store_op] in Hk. rewrite finish_write_db in Hk.
    destruct (save_vote g db rv) as [[u|] db1]; injection Hrun as <- <- <-;
      (eapply node_inv_keeps; [exact Hinv|exact Hk|by split_and!]).
  - eapply node_inv_keeps; [exact Hinv|apply keeps_logs_refl|by split_and!].
  - destruct (build_keeps g leader_text s db fs r s' db' fs') as [Hk Hsame]; [done|by apply Hinv|done|].
    by eapply node_inv_keeps.
  - by eapply install_step.
  - eapply node_inv_keeps; [exact Hinv|apply keeps_logs_refl|]. by eapply restore_same_log.
  - eapply node_inv_keeps; [exact Hinv| |by split_and!]. apply op_keeps; [done|done|by left].
  - by eapply restart_step.
Qed.

End Node.

(** ** The data state machines write their tables only

    [R] is any preorder the calls of the applier stay in. *)

Section Stays.
Context {Cmd A X S : Type} `{HL : DataCommandLaws Cmd A X S} `{!Serde DataResponse}.
Context (R : S -> S -> Prop) `{!PreOrder R} (ok : option A -> Prop).
Context (Heffect : forall sh a s c vs, ok a -> R s (command_effect sh a s c vs).2).

Lemma run_effects_stays sh a es : forall s, ok a -> R s (run_effects sh a s es).2.
Proof.
  induction es as [|e es IH]; intros s Ha; [reflexivity|]. cbn [run_effects].
  assert (R s (entry_effect sh a s e).2) as He.
  { unfold entry_effect. destruct (decode_apply_command e.2) as [cmd|]; [|reflexivity].
    destruct (Version.assign_entry_versions _ _) as [vs|]; [|reflexivity].
    specialize (Heffect sh a s cmd vs Ha). by destruct (command_effect sh a s cmd vs) as [[] ?]. }
  destruct (entry_effect sh a s e) as [[u|err] s']; [|done]. etrans; [exact He|by apply IH].
Qed.

Lemma drain_pending_stays meta m s r m' s' :
  ok (applier m) -> drain_pending meta m s = (r, m', s') -> R s s' /\ applier m' = applier m.
Proof.
  intros Ha. unfold drain_pending. destruct (drain_satisfied _ _) as [drained b].
  intros [Hrun Hf]%drain_loop_effects. cbn [set_pending shard applier] in Hrun. split; [|by apply Hf].
  replace s' with (run_effects (shard m) (applier m) s (entry_of <$> drained)).2 by (by rewrite Hrun).
  by apply run_effects_stays.
Qed.

Lemma apply_stays mc md m s index term bytes r m' s' :
  ok (applier m) -> apply mc md m s index term bytes = (r, m', s') -> R s s' /\ applier m' = applier m.
Proof.
  intros Ha. unfold apply. destruct (index <=? last_applied_index m); [intros [= <- <- <-]; by split|].
  destruct (decode_apply_command bytes) as [cmd|]; [|intros [= <- <- <-]; by split].
  destruct (_ && _); [intros [= <- <- <-]; by split|].
  destruct (if buffer_is_empty (pending_buffer m) then _ else _) as [[r1 m1] s1] eqn:E1.
  assert (R s s1 /\ applier m1 = applier m) as [H1 Ha1].
  { destruct (buffer_is_empty (pending_buffer m)); [injection E1 as <- <- <-; by split|].
    by apply drain_pending_stays in E1. }
  destruct r1; [|intros [= <- <- <-]; by split].
  destruct (Version.assign_entry_versions _ _) as [vs|]; [|intros [= <- <- <-]; by split].
  destruct (apply_decoded_effect m1 s1 cmd vs) as (m2 & -> & Hf).
  pose proof (Heffect (shard m1) (applier m1) s1 cmd vs) as H2. rewrite Ha1 in H2 at 1.
  destruct Hf as (_ & _ & _ & _ & Hf & _).
  destruct (command_effect _ _ _ _ _) as [[resp|err] s2]; intros [= <- <- <-];
    (split; [etrans; [exact H1|by apply H2]|cbn; congruence]).
Qed.

End Stays.

Section TableWrites.
Context {D Hook MetaCommand : Type} (to_lowercase : string -> string) `{HB : BackendLaws D}.
Context `{!Serde UserDataCommand, !Serde SharedDataCommand, !Serde (RaftCommand MetaCommand)}.
Context `{!Serde UserDataSnapshot, !Serde SharedDataSnapshot, !Serde DataResponse}.
Abbreviation Database := (Db D Hook).
Abbreviation stays := (evolves (D := D) (Hook := Hook) other_partition).

#[export] Instance evolves_preorder (ok : Operation -> Prop) : PreOrder (evolves (D := D) (Hook := Hook) ok).
Proof. split; [intros db; apply evolves_refl|]. intros db1 db2 db3. apply evolves_trans. Qed.

(** An applier writes through the database, outside the Raft partition. *)
Record user_applier_ok (a : UserDataApplier Database) : Prop := {
  user_insert_ok : forall s t u rows fields vs, stays s (user_insert a s t u rows fields vs).2;
  user_update_ok : forall s t u rows f vs, stays s (user_update a s t u rows f vs).2;
  user_delete_ok : forall s t u pks vs, stays s (user_delete a s t u pks vs).2;
  user_batch_ok : forall s tx ms vs, stays s (user_apply_transaction_batch a s tx ms vs).2
}.

Record shared_applier_ok (a : SharedDataApplier Database) : Prop := {
  shared_insert_ok : forall s t u rows fields vs, stays s (shared_insert a s t u rows fields vs).2;
  shared_update_ok : forall s t u rows pks f vs, stays s (shared_update a s t u rows pks f vs).2;
  shared_delete_ok : forall s t u pks vs, stays s (shared_delete a s t u pks vs).2;
  shared_batch_ok : forall s tx ms vs, stays s (shared_apply_transaction_batch a s tx ms vs).2
}.

Definition option_ok {A} (ok : A -> Prop) (a : option A) : Prop := match a with Some a => ok a | None => True end.

Lemma user_effect_stays sh a s (c : UserApplyCommand) vs :
  option_ok user_applier_ok a ->
  stays s (command_effect (DataCommandLaws := user_data_laws (MetaCommand := MetaCommand) to_lowercase) sh a s c vs).2.
Proof.
  intros Ha. cbn. unfold effect_of, apply_decoded_command, user_data_command.
  destruct c as [c|required tx mutations].
  - unfold user_apply_command, user_finish. cbn [applier]. destruct a as [a|]; [|by destruct c].
    destruct Ha. destruct c as [? ? t u rows fields|? ? t u rows f|? ? t u pks].
    + specialize (user_insert_ok0 s t u rows fields vs). by destruct (user_insert a s t u rows fields vs) as [[] ?].
    + specialize (user_update_ok0 s t u rows f vs). by destruct (user_update a s t u rows f vs) as [[] ?].
    + specialize (user_delete_ok0 s t u pks vs). by destruct (user_delete a s t u pks vs) as [[] ?].
  - unfold user_apply_transaction_commit. cbn [applier]. destruct (existsb _ _); [reflexivity|].
    destruct a as [a|]; [|reflexivity]. destruct Ha. specialize (user_batch_ok0 s tx mutations vs).
    by destruct (user_apply_transaction_batch a s tx mutations vs) as [[] ?].
Qed.

Lemma shared_effect_stays sh a s (c : SharedApplyCommand) vs :
  option_ok shared_applier_ok a ->
  stays s (command_effect (DataCommandLaws := shared_data_laws (MetaCommand := MetaCommand) to_lowercase) sh a s c vs).2.
Proof.
  intros Ha. cbn. unfold effect_of, apply_decoded_command, shared_data_command.
  destruct c as [c|required tx mutations].
  - unfold shared_apply_command, shared_finish. destruct (check_owner _ _ _); [|reflexivity].
    cbn [applier]. destruct a as [a|]; [|by destruct c].
    destruct Ha. destruct c as [? ? u t rows fields|? ? u t rows pks f|? ? u t pks].
    + specialize (shared_insert_ok0 s t u rows fields vs). by destruct (shared_insert a s t u rows fields vs) as [[] ?].
    + specialize (shared_update_ok0 s t u rows pks f vs). by destruct (shared_update a s t u rows pks f vs) as [[] ?].
    + specialize (shared_delete_ok0 s t u pks vs). by destruct (shared_delete a s t u pks vs) as [[] ?].
  - unfold shared_apply_transaction_commit. cbn [applier]. destruct (existsb _ _); [reflexivity|].
    destruct a as [a|]; [|reflexivity]. destruct (check_mutation_owners _ _ _ _); [|reflexivity].
    destruct Ha. specialize (shared_batch_ok0 s tx mutations vs).
    by destruct (shared_apply_transaction_batch a s tx mutations vs) as [[] ?].
Qed.

#[export] Instance user_machine_laws :
  StateMachineLaws (D := D) (Hook := Hook)
    (KalamStateMachine0 := user_state_machine (D := D) (Hook := Hook) (MetaCommand := MetaCommand) to_lowercase).
Proof.
  refine {| sm_ok := fun m => option_ok user_applier_ok (applier (metered_machine m)) |}.
  - intros m db index term data r m' db' Hm. cbn. unfold lift_metered, user_apply.
    destruct (apply _ _ _ _ _ _ _) as [[r1 m1] db1] eqn:E. intros [= <- <- <-].
    apply (apply_stays stays (option_ok user_applier_ok)) in E as [Hs Ha]; [|apply user_effect_stays|done].
    cbn. by rewrite Ha.
  - intros m index term Hm. cbn. unfold mark_applied_index. by destruct (_ <=? _).
  - intros m snapshot r m' Hm. cbn. destruct (user_restore _ _) as [r1 m1] eqn:E.
    intros [= <- <-]. cbn. revert E. unfold user_restore.
    destruct (sm_decode _) as [d|]; [|by intros [= <- <-]]. by destruct (negb _); intros [= <- <-].
Defined.

#[export] Instance shared_machine_laws :
  StateMachineLaws (D := D) (Hook := Hook)
    (KalamStateMachine0 := shared_state_machine (D := D) (Hook := Hook) (MetaCommand := MetaCommand) to_lowercase).
Proof.
  refine {| sm_ok := fun m => option_ok shared_applier_ok (applier (metered_machine m)) |}.
  - intros m db index term data r m' db' Hm. cbn. unfold lift_metered, shared_apply.
    destruct (apply _ _ _ _ _ _ _) as [[r1 m1] db1] eqn:E. intros [= <- <- <-].
    apply (apply_stays stays (option_ok shared_applier_ok)) in E as [Hs Ha]; [|apply shared_effect_stays|done].
    cbn. by rewrite Ha.
  - intros m index term Hm. cbn. unfold mark_applied_index. by destruct (_ <=? _).
  - intros m snapshot r m' Hm. cbn. destruct (shared_restore _ _) as [r1 m1] eqn:E.
    intros [= <- <-]. cbn. revert E. unfold shared_restore.
    case_decide; [|by intros [= <- <-]]. by destruct (sm_decode _); intros [= <- <-].
Defined.

End TableWrites.

(** ** Runs *)

Section Claims.
Context {D Hook F M Membership : Type}.
Context `{HB : BackendLaws D, FileSystem F, !KalamStateMachine M (Db D Hook)}.
Context `{!Serde RaftVote, !Serde RaftSnapshotMeta, !Serde RaftSnapshotData}.
Context `{!SerdeLaws RaftVote, !SerdeLaws RaftSnapshotMeta, !SerdeLaws RaftSnapshotData}.
Context `{HM : SerdeLaws Membership, !Serde (StoredMembership Membership), !Serde (StateMachineData Membership)}.
Context `{HSM : !StateMachineLaws (D := D) (Hook := Hook) (M := M)}.
Context (default_membership : StoredMembership Membership).
Abbreviation ANode := (Node (D := D) (Hook := Hook) (F := F) (M := M) (Membership := Membership)).
Abbreviation Log := (gmap Z (Entry Membership)).

Inductive node_run (g : GroupId) (leader_text : LeaderId -> string) : ANode -> Log -> ANode -> Log -> Prop :=
| run_refl n L : node_run g leader_text n L n L
| run_step n1 L1 n2 L2 n3 L3 :
    node_run g leader_text n1 L1 n2 L2 -> node_step default_membership g leader_text n2 L2 n3 L3 ->
    node_run g leader_text n1 L1 n3 L3.

Lemma node_run_inv g leader_text n L n' L' :
  group_ok g -> node_inv g n L -> node_run g leader_text n L n' L' -> node_inv g n' L'.
Proof.
  intros Hg Hinv Hrun. revert Hinv. induction Hrun as [|n1 L1 n2 L2 n3 L3 _ IH Hstep]; intros Hinv; [done|].
  eapply node_step_inv; [exact Hg|by apply IH|exact Hstep].
Qed.

Lemma node_run_trans g leader_text n1 L1 n2 L2 n3 L3 :
  node_run g leader_text n1 L1 n2 L2 -> node_run g leader_text n2 L2 n3 L3 -> node_run g leader_text n1 L1 n3 L3.
Proof.
  intros Hr1 Hr2. revert Hr1. induction Hr2 as [|? ? ? ? ? ? _ IH Hstep]; intros Hr1; [done|].
  eapply run_step; [by apply IH|exact Hstep].
Qed.

(** A node of a group in cluster mode (what [new_persistent] sets), started on a partition without
    data. *)
Definition fresh_node (g : GroupId) (n : ANode) : Prop :=
  (forall key, backend_view (db_backend (n_db n)) RAFT_PARTITION_NAME key = None) /\
  db_session (n_db n) = None /\ n_jobs n = [] /\
  exists m dir, sm_ok m /\
    new_persistent default_membership g m (n_db n) (n_fs n) dir = Ok (n_storage n).

Lemma fresh_node_inv g n : group_ok g -> fresh_node g n -> node_inv g n ∅.
Proof.
  destruct n as [s db fs jobs]. intros Hg (Hempty & Hs & Hj & m & dir & Hm & Hnew). cbn in *. subst jobs.
  assert (node_inv g (mkNode (mkStorage g true true ∅ 0 None None None None m None default_membership 0 None None)
    db fs []) (∅ : Log)) as Hinv.
  { constructor; cbn [n_storage n_db n_jobs]; try done.
    - by intros i j [? ?].
    - constructor.
    - exists (fun _ => empty_group). split_and!; [by apply empty_represents|done|by intros i [? ?]]. }
  apply (restart_step default_membership g _ _ _ _ _ m dir s) in Hinv; [|done..].
  replace (forget <$> _) with (∅ : Log) in Hinv; [done|]. unfold drop_log.
  by rewrite map_filter_empty, fmap_empty.
Qed.


(** C7. A node in cluster mode serves the log openraft has built, however it is stored.  Start a
    group that flushes appends ([flush_log_on_append]) on an empty partition and let any successful
    steps follow: appends (whose flush may still be in flight), flushes, truncations, purges, applied
    entries, votes, snapshots built and installed, operations of other groups on the same partition,
    restarts that lose the appends not yet flushed.  Then the last log id reported is that of the
    last entry of the log; and reading a range that the bounded cache covers, or in which no append
    is in flight, returns exactly the entries of the log in that range, in order (up to the node of
    the leader, which is not stored), provided the store can be scanned. *)
Theorem node_serves_log g leader_text (n0 n : ANode) (L : Log) :
  group_ok g -> fresh_node g n0 -> node_run g leader_text n0 ∅ n L ->
  last_of L (get_log_state (n_storage n)).2 /\
  forall lo hi, bounds_ok lo hi ->
    is_ok (scan_logs g (n_db n) (range_start lo) (range_end hi)) = true ->
    cache_covers_range (rs_log (n_storage n)) (range_start lo) (range_end hi) = true \/
      (forall i, i ∈ pending n -> ~ (range_start lo <= i < range_end hi)) ->
    forget <$> get_log_entries_sync (n_storage n) (n_db n) lo hi =
    forget <$> entries_in L (range_start lo) (range_end hi).
Proof.
  intros Hg Hfresh Hrun. apply (fresh_node_inv g n0 Hg) in Hfresh.
  apply (node_run_inv g leader_text n0 ∅ n L Hg Hfresh) in Hrun as Hinv. destruct Hinv.
  split; [done|]. intros lo hi Hb Hscan Hcov. destruct ni_store0 as (σ & Hr & Hstore & Hdur).
  eapply reads_exact; rewrite ?ni_group0, ?ni_persistent0; try done. split_and!; [done..|].
  destruct Hcov as [?|Hout]; [by left|right]. intros i e He Hi. apply Hdur; [by exists e|].
  intros Hp. by apply (Hout i Hp).
Qed.

Lemma entries_in_forget (L : Log) start end_ :
  forget <$> entries_in (forget <$> L) start end_ = forget <$> entries_in L start end_.
Proof.
  rewrite <-(read_part (forget <$> L) L (fun x => Some x.2)).
  - done.
  - intros i e (x & <- & Hx)%lookup_fmap_Some _. exists x, (forget x). by split_and!.
  - intros i e He _. rewrite lookup_fmap, He. by eexists.
Qed.

Lemma flush_all g leader_text jobs : forall s db fs (L : Log),
  (forall (db : Db D Hook) ops, is_ok (db_batch db ops).1 = true) ->
  exists db', node_run g leader_text (mkNode s db fs jobs) L (mkNode s db' fs []) L.
Proof.
  induction jobs as [|job jobs IH]; intros s db fs L Hok; [exists db; constructor|].
  assert (exists db1, run_log_io_job g db job = (Ok tt, db1)) as [db1 Hjob].
  { unfold run_log_io_job, append_encoded, append_encoded_with. destruct job as [|r job]; [by exists db|].
    specialize (Hok db). match goal with |- context [db_batch db ?ops] => specialize (Hok ops) end.
    destruct (db_batch _ _) as [[[]|] db1]; [by exists db1|done]. }
  destruct (IH s db1 fs L Hok) as [db' Hrun]. exists db'.
  eapply node_run_trans; [|exact Hrun]. eapply run_step; [constructor|]. by eapply step_flush.
Qed.

(** C10. In cluster mode, where an append is handed to the log-IO thread, appended entries become
    durable.  While the database accepts writes, every state such a node reaches by successful steps
    has a continuation, made of flushes only, after which no append is in flight; and a restart
    that succeeds from there recovers the whole log: the entries the restarted node reads, when the
    store can be scanned, are those of the log.  (Single-node mode defers the durability of the log
    until apply and is not covered.) *)
Theorem appends_become_durable g leader_text (n0 n : ANode) (L : Log) :
  group_ok g -> fresh_node g n0 -> node_run g leader_text n0 ∅ n L ->
  (forall (db : Db D Hook) ops, is_ok (db_batch db ops).1 = true) ->
  exists n', node_run g leader_text n L n' L /\ n_storage n' = n_storage n /\ n_jobs n' = [] /\
    forall m dir s, sm_ok m -> new_persistent default_membership g m (n_db n') (n_fs n') dir = Ok s ->
      forall lo hi, bounds_ok lo hi ->
        is_ok (scan_logs g (n_db n') (range_start lo) (range_end hi)) = true ->
        forget <$> get_log_entries_sync s (n_db n') lo hi =
        forget <$> entries_in L (range_start lo) (range_end hi).
Proof.
  intros Hg Hfresh Hrun Hok. apply (fresh_node_inv g n0 Hg) in Hfresh.
  apply (node_run_inv g leader_text n0 ∅ n L Hg Hfresh) in Hrun as Hinv. destruct n as [s db fs jobs].
  destruct (flush_all g leader_text jobs s db fs L Hok) as [db' Hflush].
  exists (mkNode s db' fs []). split_and!; [done..|]. cbn [n_db n_fs].
  apply (node_run_inv g leader_text _ _ _ _ Hg Hinv) in Hflush as Hinv'.
  intros m dir s' Hm Hnew lo hi Hb Hscan.
  apply (restart_step default_membership g s db' fs [] L m dir s') in Hinv'; [|done..].
  replace (drop_log _ L) with L in Hinv'.
  2: { apply map_eq. intros i. by rewrite drop_log_lookup. }
  destruct Hinv'. cbn [n_storage n_db n_jobs] in *. destruct ni_store0 as (σ & Hr & Hstore & Hdur).
  rewrite <-entries_in_forget. eapply reads_exact; rewrite ?ni_group0, ?ni_persistent0; try done.
  split_and!; [done..|]. right. intros i e He Hi. apply Hdur; [by exists e|apply not_elem_of_nil].
Qed.


(** ** Applying one entry *)

(** The writes of one entry: what the state machine writes when it applies the command (collected in
    a session of its own), or the membership. *)
Definition written_by (s : RaftStorage Membership M) (db : Db D Hook) (e : Entry Membership) : list Operation :=
  let id := entry_id e in
  match entry_payload e with
  | Blank => []
  | NormalEntry data =>
      let '(_, _, db') :=
        sm_apply (rs_state_machine s) (mkDb (db_backend db) (Some ([], [])) (db_ran db)) (log_index id)
          (leader_term (leader_id id)) data in
      default [] (fst <$> db_session db')
  | MembershipEntry m =>
      match sm_encode (mkMembership (Some id) m) with
      | Ok b => [Put RAFT_PARTITION_NAME (last_membership_key (rs_group s)) b]
      | Err _ => []
      end
  end.

Definition progress_write (g : GroupId) (id : LogId) : Operation :=
  Put RAFT_PARTITION_NAME (last_applied_key g) (encode_packed (raft_log_id id)).

(** The record that the entry is applied: the progress, and before it the entry itself when the log
    is not flushed on append (a single node); nothing if the entry cannot be encoded. *)
Definition recorded_by (s : RaftStorage Membership M) (e : Entry Membership) : option (list Operation) :=
  if rs_flush_log_on_append s then Some [progress_write (rs_group s) (entry_id e)]
  else
    match applied_records (rs_log s) [e] with
    | Ok records =>
        Some (((fun r => Put RAFT_PARTITION_NAME (log_key (rs_group s) r.1) r.2) <$> records) ++
              [progress_write (rs_group s) (entry_id e)])
    | Err _ => None
    end.

(** The end of the loop, in a session: the record joins what the entry buffered. *)
Lemma session_progress (s : RaftStorage Membership M) (db : Db D Hook) e results buffered hooks r s' db' :
  rs_persistent s = true -> db_session db = Some (buffered, hooks) -> length results = 1%nat ->
  apply_loop [e] [] s db results = (r, s', db') ->
  db_backend db' = db_backend db /\ rs_last_applied s' = rs_last_applied s /\
  (is_ok r = true -> exists ops, recorded_by s e = Some ops /\ db_session db' = Some (buffered ++ ops, hooks)).
Proof.
  intros Hp Hs Hlen. cbn [apply_loop]. rewrite Hlen.
  unfold persist_applied_prefix, persist_applied_progress, recorded_by. cbn [take last].
  rewrite Hp. cbn [negb]. destruct (rs_flush_log_on_append s).
  - unfold save_last_applied, put_log_id, raft_put, db_put, buffer_operations. rewrite Hs.
    intros [= <- <- <-]. split_and!; [done..|]. intros _. by eexists.
  - destruct (applied_records (rs_log s) [e]) as [records|err]; [|by intros [= <- <- <-]].
    unfold append_encoded_with, db_batch, buffer_operations. rewrite Hs.
    destruct records as [|rec records]; cbn [fmap list_fmap app];
      destruct (trim_log_cache (rs_log s) (rs_log_cache_bytes s)) as [log bytes];
      intros [= <- <- <-]; (split_and!; [done..|]); intros _; by eexists.
Qed.

(** One entry applied in a session: nothing is written, and either it fails or it has buffered its
    writes followed by its record. *)
Lemma session_entry (s : RaftStorage Membership M) (db : Db D Hook) e r s' db' :
  rs_persistent s = true -> sm_ok (rs_state_machine s) -> db_session db = Some ([], []) ->
  apply_loop [e] [e] s db [] = (r, s', db') ->
  db_backend db' = db_backend db /\
  (is_ok r = true ->
   rs_last_applied s' = Some (entry_id e) /\
   exists ops hooks, recorded_by s e = Some ops /\ db_session db' = Some (written_by s db e ++ ops, hooks)).
Proof.
  intros Hp Hm Hs. unfold written_by. rewrite <-Hs.
  replace (mkDb (db_backend db) (db_session db) (db_ran db)) with db by by destruct db.
  cbn [apply_loop]. destruct (entry_payload e) as [|data|m].
  - intros Hrun. apply (session_progress _ db e _ [] []) in Hrun as (Hb & Hl & Hok); [|done..].
    split; [done|]. intros (ops & Hr & Hs')%Hok. split; [done|]. by exists ops, [].
  - destruct (sm_apply _ _ _ _ _) as [[r1 m1] db1] eqn:E.
    apply sm_apply_tables in E as [Hm1 (ops & Hops & He)]; [|done]. rewrite Hs in He.
    destruct He as [Hb (hooks & Hs1)]. cbn [app] in Hs1. rewrite Hs1. cbn [fmap option_fmap option_map default fst].
    destruct r1 as [[response| |msg]|err]; [| |by intros [= <- <- <-]|by intros [= <- <- <-]];
      intros Hrun; apply (session_progress _ db1 e _ ops hooks) in Hrun as (Hb' & Hl & Hok); try done;
      (split; [congruence|]); intros (rec & Hr & Hs')%Hok; (split; [done|]); by exists rec, hooks.
  - set (sm := mkMembership _ _). set (s1 := set_membership s sm). set (db1 := save_membership s1 db sm).
    assert (db_session db1 = Some (match sm_encode sm with
        | Ok b => [Put RAFT_PARTITION_NAME (last_membership_key (rs_group s)) b] | Err _ => [] end, []) /\
      db_backend db1 = db_backend db) as [Hs1 Hb].
    { unfold db1, save_membership. change (rs_persistent s1) with (rs_persistent s). rewrite Hp.
      destruct (sm_encode sm) as [b|]; [|done].
      unfold save_last_membership, raft_put, db_put, buffer_operations. rewrite Hs. done. }
    intros Hrun. eapply session_progress in Hrun as (Hb' & Hl & Hok); [|done|exact Hs1|done].
    split; [congruence|]. intros (ops & Hr & Hs')%Hok. split; [done|]. by exists ops, [].
Qed.


End Claims.

(** ** A concrete node *)

Module RaftNodeWitness.

Import RaftDataWitness.

#[local] Existing Instance serde_none.
#[local] Existing Instance RaftLogWitness.none_laws.

(** Files that never fail. *)
Definition Files : Type := gmap string Bytes.
#[local] Instance files : FileSystem Files := {|
  fs_write fs p b := (Ok tt, <[p := b]> fs);
  fs_rename fs a b :=
    match fs !! a with
    | Some x => (Ok tt, <[b := x]> (delete a fs))
    | None => (Err "no such file", fs)
    end;
  fs_read fs p := match fs !! p with Some b => Ok b | None => Err "no such file" end
|}.

Definition Memory : Type := Db InMemoryBackend unit.
Definition TABLE : string := "user_app_notes".

(** An applier that stores the encoded rows under the first version. *)
Definition write_rows (db : Memory) (rows : list Bytes) (vs : list Version.VersionId) : RaftResult Z * Memory :=
  let '(r, db') := db_put db TABLE (default 0 (head vs) :: nil) (mjoin rows) in
  (match r with Ok _ => Ok (Z.of_nat (length rows)) | Err _ => Err (Provider "write") end, db').

Definition writer : UserDataApplier Memory := {|
  user_insert db _ _ _ enc vs := write_rows db enc vs;
  user_update db _ _ _ _ vs := write_rows db [] vs;
  user_delete db _ _ _ vs := write_rows db [] vs;
  user_apply_transaction_batch db _ _ _ := (Err Shutdown, db)
|}.

Lemma write_rows_ok db rows vs : evolves other_partition db (write_rows db rows vs).2.
Proof.
  unfold write_rows. destruct (db_put _ _ _ _) as [r db'] eqn:E. apply db_put_writes in E.
  eapply writes_evolves; [|exact E]. constructor; [done|constructor].
Qed.

Lemma writer_ok : user_applier_ok writer.
Proof. constructor; intros *; try apply write_rows_ok. apply evolves_refl. Qed.

#[local] Existing Instance user_state_machine.
Abbreviation Machine := (Metered (DataMachine (UserDataApplier Memory) unit)).
#[local] Instance machine : KalamStateMachine Machine Memory := user_state_machine (MetaCommand := unit) to_ascii_lowercase.
#[local] Instance machine_laws : StateMachineLaws (KalamStateMachine0 := machine) :=
  user_machine_laws (MetaCommand := unit) to_ascii_lowercase.

Definition machine0 : Machine := mkMetered (machine_new 5 (Some writer) tt) 9.
Definition group0 : GroupId := DataUserShard 5.
Definition members0 : StoredMembership unit := mkMembership None tt.
Definition db0 : Memory := mkDb memory_new None [].

Definition start (db : Memory) : RaftStorage unit Machine :=
  match new_persistent members0 group0 machine0 db (∅ : Files) "snapshots" with
  | Ok s => s
  | Err _ => storage_new members0 group0 machine0
  end.

Definition entry (term index : Z) (p : EntryPayload unit) : Entry unit := mkEntry (mkLogId (mkLeader term 2) index) p.
Definition e1 : Entry unit := entry 1 1 Blank.
Definition e2 : Entry unit := entry 1 2 (NormalEntry (insert_bytes 0)).
Definition e3 : Entry unit := entry 2 3 (NormalEntry [7]).

Abbreviation WNode := (Node (D := InMemoryBackend) (Hook := unit) (F := Files) (M := Machine) (Membership := unit)).
Definition node0 : WNode := mkNode (start db0) db0 ∅ [].

Lemma node0_fresh : fresh_node members0 group0 node0.
Proof.
  split_and!; [done..|]. exists machine0, "snapshots". split; [apply writer_ok|].
  unfold node0, start. cbn [n_db n_fs n_storage].
  assert (is_ok (new_persistent members0 group0 machine0 db0 (∅ : Files) "snapshots") = true) as Hok
    by (vm_compute; reflexivity).
  by destruct (new_persistent _ _ _ _ _ _).
Qed.

Definition no_text (_ : LeaderId) : string := "".

(** Two entries appended and flushed, a third appended and in flight. *)
Definition appended (s : RaftStorage unit Machine) (es : list (Entry unit)) : RaftStorage unit Machine :=
  (append_entries s es).2.
Definition records (s : RaftStorage unit Machine) (es : list (Entry unit)) : list (Z * Bytes) :=
  match (append_entries s es).1 with Ok (Some job) => job | _ => [] end.
Definition s1 : RaftStorage unit Machine := appended (start db0) [e1; e2].
Definition db1 : Memory := (run_log_io_job group0 db0 (records (start db0) [e1; e2])).2.
Definition node1 : WNode := mkNode (appended s1 [e3]) db1 ∅ [records s1 [e3]].
Definition log1 : gmap Z (Entry unit) := log_insert (log_insert ∅ [e1; e2]) [e3].

Ltac id_range := split; unfold is_u64, u64_max; cbn; lia.

Lemma appendable_first : appendable ∅ [e1; e2].
Proof.
  split; [repeat constructor|].
  repeat apply Forall_cons_2; try apply Forall_nil_2; (split; [id_range|split; [done|]]);
    by intros j [? ?].
Qed.

Lemma appendable_second : appendable (log_insert ∅ [e1; e2]) [e3].
Proof.
  split; [repeat constructor|]. apply Forall_cons_2; [|apply Forall_nil_2].
  split; [id_range|split; [done|]]. intros j Hj. unfold log_insert in Hj. cbn in Hj.
  rewrite !lookup_insert_is_Some, lookup_empty in Hj. cbn. destruct Hj as [<-|[_ [<-|[_ [? ?]]]]]; [lia|lia|done].
Qed.

Lemma appended_eq s es :
  is_ok (append_entries s es).1 = true -> records s es <> [] ->
  append_entries s es = (Ok (Some (records s es)), appended s es).
Proof.
  unfold records, appended. destruct (append_entries s es) as [[[job|]|] s']; [done..].
Qed.

Lemma run1 : node_run members0 group0 no_text node0 ∅ node1 log1.
Proof.
  eapply run_step; [eapply run_step; [eapply run_step; [constructor|]|]|].
  - apply (step_append members0 group0 no_text (start db0) db0 ∅ [] ∅ [e1; e2]
      (Some (records (start db0) [e1; e2])) s1); [apply appendable_first|].
    apply appended_eq; [vm_compute; reflexivity|vm_compute; discriminate].
  - apply (step_flush members0 group0 no_text s1 db0 ∅ (records (start db0) [e1; e2]) [] _ tt db1).
    vm_compute. reflexivity.
  - apply (step_append members0 group0 no_text s1 db1 ∅ [] (log_insert ∅ [e1; e2]) [e3]
      (Some (records s1 [e3])) (appended s1 [e3])); [apply appendable_second|].
    apply appended_eq; [vm_compute; reflexivity|vm_compute; discriminate].
Qed.

Lemma bounds0 : bounds_ok (Included 1) (Excluded 4).
Proof. id_range. Qed.

Lemma node_serves_log_witness :
  get_log_entries_sync (n_storage node1) (n_db node1) (Included 1) (Excluded 4) = [e1; e2; e3] /\
  forget <$> get_log_entries_sync (n_storage node1) (n_db node1) (Included 1) (Excluded 4) =
  forget <$> entries_in log1 1 4.
Proof.
  split; [vm_compute; reflexivity|].
  apply (node_serves_log members0 group0 no_text node0 node1 log1);
    [by vm_compute|apply node0_fresh|apply run1|apply bounds0|vm_compute; reflexivity|left; vm_compute; reflexivity].
Defined.

Lemma memory_writes (db : Memory) ops : is_ok (db_batch db ops).1 = true.
Proof. 
  unfold db_batch, buffer_operations. destruct (db_session db) as [[? ?]|]; [done|].
  change backend_batch with memory_batch. destruct (memory_batch_view ops (db_backend db)) as [Hok _].
  destruct (memory_batch _ _). cbn in *. by rewrite Hok.
Qed.

Lemma appends_become_durable_witness :
  exists n' : WNode, n_jobs n' = [] /\
    forall s, new_persistent members0 group0 machine0 (n_db n') (n_fs n') "snapshots" = Ok s ->
      is_ok (scan_logs group0 (n_db n') 1 4) = true ->
      forget <$> get_log_entries_sync s (n_db n') (Included 1) (Excluded 4) =
      forget <$> entries_in log1 1 4.
Proof.
  destruct (appends_become_durable members0 group0 no_text node0 node1 log1) as (n' & _ & _ & Hj & Hread);
    [by vm_compute|apply node0_fresh|apply run1|apply memory_writes|].
  exists n'. split; [exact Hj|]. intros s Hnew Hscan.
  apply (Hread machine0 "snapshots" s writer_ok Hnew (Included 1) (Excluded 4) bounds0 Hscan).
Defined.

(** The second entry inserts a row. *)
Definition applied2 : IoResult (list Bytes) * RaftStorage unit Machine * Memory :=
  apply_to_state_machine s1 db1 [e2].


(** ** A buffered command does not survive a restart

    The command of the entry needs metadata index 12; the machine has seen 9, so it buffers the
    command and the entry counts as applied.  After a restart (no snapshot was built) the progress
    says the entry is applied, the buffer is empty, and applying the entry again, with metadata far
    ahead, does nothing. *)
Definition waiting : Entry unit := entry 1 1 (NormalEntry (insert_bytes 12)).
Definition applied_waiting : IoResult (list Bytes) * RaftStorage unit Machine * Memory :=
  apply_to_state_machine (start db0) db0 [waiting].
Definition restarted : RaftStorage unit Machine :=
  (restore_state_machine_from_snapshot (start applied_waiting.2)).2.

Theorem buffered_command_lost_on_restart :
  is_ok applied_waiting.1.1 = true /\
  buffer_len (pending_buffer (metered_machine (rs_state_machine applied_waiting.1.2))) = 1 /\
  log_index <$> rs_last_applied restarted = Some 1 /\
  buffer_len (pending_buffer (metered_machine (rs_state_machine restarted))) = 0 /\
  (sm_apply (mkMetered (metered_machine (rs_state_machine restarted)) 100) applied_waiting.2 1 1
     (insert_bytes 12)).1.1 = Ok NoOp.
Proof. vm_compute. split_and!; reflexivity. Qed.

End RaftNodeWitness.
