(* ===== verification/VersionMerge.v ===== *)
(** * VersionMerge: which version of a row a scan returns

    kalamdb-commons/src/conversions/pk_bucket.rs, kalamdb-datafusion-sources/src/exec.rs and
    kalamdb-tables/src/utils/base/hot_scan.rs: rows live in hot storage (one version per primary
    key) and in cold Parquet batches (any number of versions); a scan groups both by a primary-key
    bucket and keeps, per bucket, the greatest version visible at the snapshot.

    An Arrow array is a list of cells of one type.  The order in which a [HashMap] yields its
    values is unspecified; [map_to_list] is one such order, and what is proved does not depend on
    it.  [Display] of a DataFusion scalar is a parameter, and so is the conversion of a cell of an
    Arrow array to a scalar, which DataFusion refuses for some types ([ArrowScalars]). *)

From Stdlib Require Import ZArith Lia Ascii.
From stdpp Require Import base strings gmap list.
From S2P Require Import Prelude Ids Scalars.
Import Version.

Open Scope Z_scope.
Open Scope kalam_scope.

(** ** Primary-key buckets *)

Inductive PkBucketKey :=
| PkInt (v : Z)
| PkUInt (v : Z)
| PkText (s : string)
| PkVersion (v : Z).

#[export] Instance PkBucketKey_eq_dec : EqDecision PkBucketKey.
Proof. solve_decision. Defined.
#[export] Instance PkBucketKey_countable : Countable PkBucketKey.
Proof.
  refine (inj_countable'
    (fun k => match k with
              | PkInt v => inl (inl v) | PkUInt v => inl (inr v)
              | PkText s => inr (inl s) | PkVersion v => inr (inr v)
              end)
    (fun x => match x with
              | inl (inl v) => PkInt v | inl (inr v) => PkUInt v
              | inr (inl s) => PkText s | inr (inr v) => PkVersion v
              end) _).
  by intros [].
Defined.

Definition hex_digit (n : Z) : Z := if n <? 10 then 48 + n else 87 + n.
Definition hex_byte (b : Z) : list Z := [hex_digit (Z.shiftr b 4); hex_digit (Z.land b 15)].

(** The 8-4-4-4-12 form of sixteen bytes. *)
Definition uuid_pk_text (bytes : list Z) : option string :=
  if negb (length bytes =? 16)%nat then None
  else
    let group i n := mjoin (hex_byte <$> take n (drop i bytes)) in
    Some (string_of_bytes (group 0%nat 4%nat ++ [45] ++ group 4%nat 2%nat ++ [45] ++ group 6%nat 2%nat ++ [45] ++
                           group 8%nat 2%nat ++ [45] ++ group 10%nat 6%nat)).

(** [Utf8View] and [FixedSizeBinary(16)] are variants of [Other]; the value of the second is its
    bytes. *)
Definition try_pk_bucket_key (value : ScalarValue) : option PkBucketKey :=
  match value with
  | Int8 (Some v) | Int16 (Some v) | Int32 (Some v) | Int64 (Some v) => Some (PkInt v)
  | UInt8 (Some v) | UInt16 (Some v) | UInt32 (Some v) | UInt64 (Some v) => Some (PkUInt v)
  | Boolean (Some v) => Some (PkText (if v then "true" else "false"))
  | Utf8 (Some s) | LargeUtf8 (Some s) => Some (PkText s)
  | Other variant (Some s) =>
      if String.eqb variant "Utf8View" then Some (PkText s)
      else if String.eqb variant "FixedSizeBinary(16)" then PkText <$> uuid_pk_text (bytes_of_string s)
      else None
  | _ => None
  end.

Definition Row := gmap string ScalarValue.

Section Buckets.
Context (display : ScalarValue -> string).

Definition pk_bucket_key_from_scalar (value : ScalarValue) (version : VersionId) : PkBucketKey :=
  match try_pk_bucket_key value with
  | Some (PkText EmptyString) => PkVersion version
  | Some key => key
  | None => if is_null value then PkVersion version else PkText (display value)
  end.

Definition pk_bucket_key_from_row (row : Row) (pk_name : string) (version : VersionId) : PkBucketKey :=
  match row !! pk_name with
  | Some value => pk_bucket_key_from_scalar value version
  | None => PkVersion version
  end.

End Buckets.

(** ** Arrow arrays *)

Inductive ArrowType :=
| TBoolean | TFloat32 | TFloat64
| TInt8 | TInt16 | TInt32 | TInt64 | TUInt8 | TUInt16 | TUInt32 | TUInt64
| TUtf8 | TLargeUtf8 | TOther (variant : string).

#[export] Instance ArrowType_eq_dec : EqDecision ArrowType.
Proof. solve_decision. Defined.

(** The Arrow type of a scalar; [ScalarValue::Null] has none of them. *)
Definition scalar_type (v : ScalarValue) : option ArrowType :=
  match v with
  | Null => None
  | Boolean _ => Some TBoolean
  | Float32 _ => Some TFloat32
  | Float64 _ => Some TFloat64
  | Int8 _ => Some TInt8
  | Int16 _ => Some TInt16
  | Int32 _ => Some TInt32
  | Int64 _ => Some TInt64
  | UInt8 _ => Some TUInt8
  | UInt16 _ => Some TUInt16
  | UInt32 _ => Some TUInt32
  | UInt64 _ => Some TUInt64
  | Utf8 _ => Some TUtf8
  | LargeUtf8 _ => Some TLargeUtf8
  | Other variant _ => Some (TOther variant)
  end.

(** [ScalarValue::try_from(data_type)]: the null of a type. *)
Definition null_scalar (t : ArrowType) : ScalarValue :=
  match t with
  | TBoolean => Boolean None
  | TFloat32 => Float32 None
  | TFloat64 => Float64 None
  | TInt8 => Int8 None
  | TInt16 => Int16 None
  | TInt32 => Int32 None
  | TInt64 => Int64 None
  | TUInt8 => UInt8 None
  | TUInt16 => UInt16 None
  | TUInt32 => UInt32 None
  | TUInt64 => UInt64 None
  | TUtf8 => Utf8 None
  | TLargeUtf8 => LargeUtf8 None
  | TOther variant => Other variant None
  end.

Record ArrowArray := mkArray { array_type : ArrowType; array_cells : list ScalarValue }.

(** Arrow's own invariant: the cells of an array have its type. *)
Definition array_ok (a : ArrowArray) : Prop :=
  Forall (fun c => scalar_type c = Some (array_type a)) (array_cells a).

Definition cell (a : ArrowArray) (i : nat) : ScalarValue := default (null_scalar (array_type a)) (array_cells a !! i).

Definition array_is_null (a : ArrowArray) (i : nat) : bool := is_null (cell a i).

(** The types a primary key can have: those [try_pk_bucket_key] accepts. *)
Definition pk_type_supported (t : ArrowType) : bool :=
  match t with
  | TBoolean | TInt8 | TInt16 | TInt32 | TInt64 | TUInt8 | TUInt16 | TUInt32 | TUInt64 | TUtf8 | TLargeUtf8 => true
  | TOther variant => String.eqb variant "Utf8View"
  | _ => false
  end.

(** What DataFusion promises of [ScalarValue::try_from(&DataType)] and
    [ScalarValue::try_from_array]: both fail on types they do not know; when they succeed the first
    gives the null of the type, the second the cell, and the second knows the booleans, integers and
    strings. *)
Class ArrowScalars := {
  try_from_type : ArrowType -> option ScalarValue;
  try_from_array : ArrowArray -> nat -> option ScalarValue;
  try_from_type_null t v : try_from_type t = Some v -> v = null_scalar t;
  try_from_array_cell a i v : array_ok a -> try_from_array a i = Some v -> v = cell a i;
  try_from_array_pk a i :
    array_ok a -> pk_type_supported (array_type a) = true -> try_from_array a i = Some (cell a i)
}.

(** The types [arrow_value_to_scalar] reads through a downcast of its own, with or without
    parameters in parentheses; each of the others goes to [ScalarValue::try_from_array]. *)
Definition direct_variants : list string := ["Date32"; "Date64"; "Binary"; "LargeBinary"]%string.
Definition direct_families : list string :=
  ["Timestamp("; "Time32("; "Time64("; "FixedSizeBinary("; "Decimal128("]%string.

Definition has_direct_arm (t : ArrowType) : bool :=
  match t with
  | TOther variant =>
      bool_decide (variant ∈ direct_variants) || existsb (fun family => String.prefix family variant) direct_families
  | _ => true
  end.

Definition arrow_value_to_scalar `{ArrowScalars} (a : ArrowArray) (i : nat) : option ScalarValue :=
  if array_is_null a i then Some (default Null (try_from_type (array_type a)))
  else if has_direct_arm (array_type a) then Some (cell a i)
  else try_from_array a i.

(** The typed downcasts first, then [ScalarValue::try_from_array]. *)
Definition read_pk_bucket_from_array `{ArrowScalars} (a : ArrowArray) (i : nat) : option PkBucketKey :=
  if array_is_null a i then None
  else
    match array_type a, cell a i with
    | TInt64, Int64 (Some v) | TInt32, Int32 (Some v) | TInt16, Int16 (Some v) | TInt8, Int8 (Some v) =>
        Some (PkInt v)
    | TUInt64, UInt64 (Some v) | TUInt32, UInt32 (Some v) | TUInt16, UInt16 (Some v) | TUInt8, UInt8 (Some v) =>
        Some (PkUInt v)
    | TUtf8, Utf8 (Some s) | TLargeUtf8, LargeUtf8 (Some s) => Some (PkText s)
    | _, _ => try_from_array a i ≫= try_pk_bucket_key
    end.

Definition pk_bucket_key_from_array `{ArrowScalars} (a : ArrowArray) (i : nat) (version : VersionId) : PkBucketKey :=
  match read_pk_bucket_from_array a i with
  | Some (PkText EmptyString) => PkVersion version
  | Some key => key
  | None => PkVersion version
  end.

(** ** Selecting the latest visible version *)

Definition version_ordering (candidate current : VersionId) : comparison := candidate ?= current.
Definition prefers_version (candidate current : VersionId) : bool :=
  match version_ordering candidate current with Gt => true | _ => false end.

Record VersionCandidate (P : Type) := mkCandidate {
  vc_pk_key : PkBucketKey;
  vc_version : VersionId;
  vc_deleted : bool;
  vc_payload : P
}.
Arguments mkCandidate {P}.
Arguments vc_pk_key {P}.
Arguments vc_version {P}.
Arguments vc_deleted {P}.
Arguments vc_payload {P}.

Inductive SelectedVersion (H C : Type) := SelectedHot (x : H) | SelectedCold (x : C).
Arguments SelectedHot {H C}.
Arguments SelectedCold {H C}.

Definition is_visible_at_snapshot (version : VersionId) (snapshot : option VersionId) : bool :=
  match snapshot with None => true | Some s => version <=? s end.

Section Select.
Context {P : Type}.
Abbreviation Best := (gmap PkBucketKey (VersionCandidate P)).

Definition consider_candidate (snapshot : option VersionId) (best : Best) (c : VersionCandidate P) : Best :=
  if negb (is_visible_at_snapshot (vc_version c) snapshot) then best
  else
    match best !! vc_pk_key c with
    | Some current =>
        if prefers_version (vc_version c) (vc_version current) then <[vc_pk_key c := c]> best else best
    | None => <[vc_pk_key c := c]> best
    end.

End Select.

(** The two kinds of [Candidate] of the map. *)
Definition as_hot {H C} (c : VersionCandidate H) : VersionCandidate (SelectedVersion H C) :=
  mkCandidate (vc_pk_key c) (vc_version c) (vc_deleted c) (SelectedHot (vc_payload c)).
Definition as_cold {H C} (c : VersionCandidate C) : VersionCandidate (SelectedVersion H C) :=
  mkCandidate (vc_pk_key c) (vc_version c) (vc_deleted c) (SelectedCold (vc_payload c)).

Definition select_latest_versions {H C} (hot : list (VersionCandidate H)) (cold : list (VersionCandidate C))
    (snapshot : option VersionId) (keep_deleted : bool) : list (SelectedVersion H C) :=
  let best := foldl (consider_candidate snapshot) ∅ (as_hot <$> hot) in
  let best := foldl (consider_candidate snapshot) best (as_cold <$> cold) in
  omap (fun e : PkBucketKey * VersionCandidate (SelectedVersion H C) =>
          if negb keep_deleted && vc_deleted e.2 then None else Some (vc_payload e.2))
    (map_to_list best).

(** The trait [VersionedRow]. *)
Class VersionedRow (R : Type) := {
  row_version : R -> VersionId;
  row_deleted : R -> bool;
  row_bucket : R -> string -> PkBucketKey
}.

Record RowMetadata := mkMetadata {
  md_version : VersionId;
  md_deleted : bool;
  md_pk_bucket : PkBucketKey
}.

#[export] Instance metadata_row : VersionedRow RowMetadata := {|
  row_version := md_version;
  row_deleted := md_deleted;
  row_bucket m _ := md_pk_bucket m
|}.

(** The stored row of a shared table ([SharedTableRow]). *)
Record TableRow := mkTableRow {
  tr_version : VersionId;
  tr_deleted : bool;
  tr_fields : Row
}.

Definition table_row (display : ScalarValue -> string) : VersionedRow TableRow := {|
  row_version := tr_version;
  row_deleted := tr_deleted;
  row_bucket r pk_name := pk_bucket_key_from_row display (tr_fields r) pk_name (tr_version r)
|}.

Definition version_candidate_from_row {R P} `{VersionedRow R} (pk_name : string) (row : R) (payload : P) :
    VersionCandidate P :=
  mkCandidate (row_bucket row pk_name) (row_version row) (row_deleted row) payload.

Definition count_merged_rows {R} `{VersionedRow R} (pk_name : string) (hot cold : list R)
    (snapshot : option VersionId) : nat :=
  length (select_latest_versions
    ((fun r => version_candidate_from_row pk_name r tt) <$> hot)
    ((fun r => version_candidate_from_row pk_name r tt) <$> cold) snapshot false).

Definition merge_versioned_rows {K R} `{VersionedRow R} (pk_name : string) (hot cold : list (K * R))
    (keep_deleted : bool) (snapshot : option VersionId) : list (K * R) :=
  (fun w => match w with SelectedHot row | SelectedCold row => row end) <$>
  select_latest_versions
    ((fun kr => version_candidate_from_row pk_name kr.2 kr) <$> hot)
    ((fun kr => version_candidate_from_row pk_name kr.2 kr) <$> cold) snapshot keep_deleted.

(** ** Decoding a Parquet batch *)

Definition VERSION : string := "_version".
Definition DELETED : string := "_deleted".
Definition TIMESTAMP : string := "_timestamp".

Record RecordBatch := mkBatch {
  batch_schema : list string;
  batch_columns : list ArrowArray;
  num_rows : nat
}.

Inductive MergeError := MissingVersionColumn | VersionNotInt64 | InvalidVersionCell (e : VersionError) | BuildFailed (m : string).
Abbreviation MergeResult := (Result MergeError).

Record ParquetRowData := mkParquetRow {
  pr_version : VersionId;
  pr_deleted : bool;
  pr_fields : Row
}.

Record ParquetBatchDecoder := mkDecoder {
  dec_batch : RecordBatch;
  version_array : ArrowArray;
  deleted_array : option ArrowArray;
  pk_column : option ArrowArray;
  value_column_indices : list nat
}.

Definition column_position (b : RecordBatch) (name : string) : option nat :=
  fst <$> list_find (fun n => n = name) (batch_schema b).

Definition column_named (b : RecordBatch) (name : string) : option ArrowArray :=
  column_position b name ≫= fun i => batch_columns b !! i.

Definition is_value_column (name : string) : bool :=
  negb (String.eqb name VERSION) && negb (String.eqb name DELETED) && negb (String.eqb name TIMESTAMP).

Definition value_column (b : RecordBatch) (i : nat) : bool :=
  match batch_schema b !! i with Some name => is_value_column name | None => false end.

Definition decoder_new (b : RecordBatch) (pk_name : option string) : MergeResult ParquetBatchDecoder :=
  match column_position b VERSION with
  | None => Err MissingVersionColumn
  | Some version_idx =>
      match batch_columns b !! version_idx with
      | Some versions =>
          if decide (array_type versions = TInt64) then
            Ok (mkDecoder b versions
              (column_named b DELETED ≫= fun a => if decide (array_type a = TBoolean) then Some a else None)
              (pk_name ≫= column_named b)
              (filter (fun i => value_column b i) (seq 0 (length (batch_schema b)))))
          else Err VersionNotInt64
      | None => Err VersionNotInt64
      end
  end.

(** [Int64Array::value]; the slot of a null holds 0. *)
Definition int64_value (a : ArrowArray) (i : nat) : Z :=
  match cell a i with Int64 (Some v) => v | _ => 0 end.

Definition version_at (d : ParquetBatchDecoder) (i : nat) : MergeResult VersionId :=
  map_err InvalidVersionCell (try_from_i64 (int64_value (version_array d) i)).

Definition deleted_at (d : ParquetBatchDecoder) (i : nat) : bool :=
  match deleted_array d with
  | Some a => match cell a i with Boolean (Some v) => v | _ => false end
  | None => false
  end.

(** The integer and text columns are read through their downcasts; every other column through
    [pk_bucket_key_from_array]. *)
Definition pk_bucket_at `{ArrowScalars} (d : ParquetBatchDecoder) (i : nat) (version : VersionId) : PkBucketKey :=
  match pk_column d with
  | None => PkVersion version
  | Some a =>
      match array_type a, cell a i with
      | TInt8, Int8 v | TInt16, Int16 v | TInt32, Int32 v | TInt64, Int64 v =>
          match v with Some v => PkInt v | None => PkVersion version end
      | TUInt8, UInt8 v | TUInt16, UInt16 v | TUInt32, UInt32 v | TUInt64, UInt64 v =>
          match v with Some v => PkUInt v | None => PkVersion version end
      | TUtf8, Utf8 v | TLargeUtf8, LargeUtf8 v =>
          match v with
          | Some EmptyString | None => PkVersion version
          | Some s => PkText s
          end
      | _, _ => pk_bucket_key_from_array a i version
      end
  end.

Definition metadata_at `{ArrowScalars} (d : ParquetBatchDecoder) (i : nat) : MergeResult RowMetadata :=
  let? version := version_at d i in
  Ok (mkMetadata version (deleted_at d i) (pk_bucket_at d i version)).

(** The cell of a value column, under the name of the column; a cell that does not convert is
    logged and left out of the row. *)
Definition value_at `{ArrowScalars} (d : ParquetBatchDecoder) (i c : nat) : option (string * ScalarValue) :=
  match batch_schema (dec_batch d) !! c, batch_columns (dec_batch d) !! c with
  | Some name, Some a => pair name <$> arrow_value_to_scalar a i
  | _, _ => None
  end.

Definition row_at `{ArrowScalars} (d : ParquetBatchDecoder) (i : nat) : MergeResult ParquetRowData :=
  let? metadata := metadata_at d i in
  Ok (mkParquetRow (md_version metadata) (md_deleted metadata)
        (foldl (fun (m : Row) e => <[e.1 := e.2]> m) ∅ (omap (value_at d i) (value_column_indices d)))).

Fixpoint decode_all {A} (f : nat -> MergeResult A) (rows : list nat) : MergeResult (list A) :=
  match rows with
  | [] => Ok []
  | i :: rest => let? a := f i in let? l := decode_all f rest in Ok (a :: l)
  end.

Definition parquet_batch_to_metadata `{ArrowScalars} (b : RecordBatch) (pk_name : string) : MergeResult (list RowMetadata) :=
  if (num_rows b =? 0)%nat then Ok []
  else let? d := decoder_new b (Some pk_name) in decode_all (metadata_at d) (seq 0 (num_rows b)).

Definition parquet_batch_to_rows `{ArrowScalars} (b : RecordBatch) : MergeResult (list ParquetRowData) :=
  if (num_rows b =? 0)%nat then Ok []
  else let? d := decoder_new b None in decode_all (row_at d) (seq 0 (num_rows b)).

Definition count_resolved_from_metadata `{ArrowScalars} (pk_name : string) (hot : list RowMetadata) (cold : RecordBatch)
    (snapshot : option VersionId) : MergeResult nat :=
  let? cold_metadata := parquet_batch_to_metadata cold pk_name in
  Ok (count_merged_rows pk_name hot cold_metadata snapshot).

(** A cold row whose version does not decode is left out of the candidates. *)
Definition cold_candidate `{ArrowScalars} (d : ParquetBatchDecoder) (i : nat) : option (VersionCandidate nat) :=
  match version_at d i with
  | Err _ => None
  | Ok version => Some (mkCandidate (pk_bucket_at d i version) version (deleted_at d i) i)
  end.

Fixpoint build_winners {K R} `{ArrowScalars} (d : ParquetBatchDecoder) (build : ParquetRowData -> MergeResult (K * R))
    (winners : list (SelectedVersion (K * R) nat)) : MergeResult (list (K * R)) :=
  match winners with
  | [] => Ok []
  | SelectedHot row :: rest => let? l := build_winners d build rest in Ok (row :: l)
  | SelectedCold i :: rest =>
      let? data := row_at d i in
      let? row := build data in
      let? l := build_winners d build rest in
      Ok (row :: l)
  end.

Definition resolve_latest_kvs_from_cold_batch {K R} `{ArrowScalars, VersionedRow R} (pk_name : string)
    (hot : list (K * R)) (cold : RecordBatch) (keep_deleted : bool) (snapshot : option VersionId)
    (build : ParquetRowData -> MergeResult (K * R)) : MergeResult (list (K * R)) :=
  let? d := decoder_new cold (Some pk_name) in
  build_winners d build
    (select_latest_versions
       ((fun kr => version_candidate_from_row pk_name kr.2 kr) <$> hot)
       (omap (cold_candidate d) (seq 0 (num_rows cold))) snapshot keep_deleted).

(** ** The scan of a table *)

Definition usize_max : Z := u64_max.

Definition apply_limit {T} (result : list T) (limit : option nat) : list T :=
  match limit with Some l => take l result | None => result end.

Definition UNBOUNDED_COUNT_SCAN_LIMIT : Z := 1000000.

Definition calculate_scan_limit (limit : option Z) : Z :=
  match limit with
  | Some l => Z.max (Z.min usize_max (l * 2)) 1000
  | None => 100000
  end.

Definition reject_truncated_unbounded_scan (requested_limit : option Z) (scanned_rows : Z) : Result string unit :=
  match requested_limit with
  | None =>
      if calculate_scan_limit None <=? scanned_rows then Err "hot scan stopped before the partition ended" else Ok tt
  | Some _ => Ok tt
  end.

Definition reject_truncated_count_scan (scanned_rows : Z) : Result string unit :=
  if UNBOUNDED_COUNT_SCAN_LIMIT <=? scanned_rows then Err "count scan stopped before the partition ended" else Ok tt.

(** [resolve_latest_scan_from_futures], once both futures are done. *)
Definition resolve_latest_scan {K R} `{ArrowScalars, VersionedRow R} (pk_name : string) (limit : option Z) (keep_deleted : bool)
    (snapshot : option VersionId) (hot_result : Result string (list (K * R)))
    (cold_result : Result string RecordBatch) (build : ParquetRowData -> MergeResult (K * R)) :
    Result string (list (K * R)) :=
  let? hot_rows := hot_result in
  let? cold := cold_result in
  let? rows := map_err (fun _ => "DataFusion"%string)
                 (resolve_latest_kvs_from_cold_batch pk_name hot_rows cold keep_deleted snapshot build) in
  Ok (apply_limit rows (Z.to_nat <$> limit)).

(** The first key a scan since [seq] reads. *)
Definition start_key (since_seq : option VersionId) : option VersionId :=
  since_seq ≫= fun seq =>
    match try_from_i64 (Z.min i64_max (seq + 1)) with Ok v => Some v | Err _ => None end.

(** The rows the iterator over the hot store yields, in key order (the key of a shared table is the
    version): an index seek, tried only without a lower bound, yields the rows its plan selects. *)
Definition hot_rows_yielded {R} (hot_store : list (VersionId * R)) (index_plan : option (VersionId * R -> bool))
    (since_seq : option VersionId) : list (VersionId * R) :=
  match since_seq, index_plan with
  | None, Some plan => filter (fun kr => plan kr) hot_store
  | _, _ =>
      match start_key since_seq with
      | Some k => filter (fun kr => k <=? kr.1) hot_store
      | None => hot_store
      end
  end.

(** [scan_with_version_resolution_to_kvs_result_async] of a shared table: the hot rows are cut at the
    scan limit, merged with the cold batch, and the limit is applied to the result. *)
Definition scan_with_version_resolution {R} `{ArrowScalars, VersionedRow R} (pk_name : string) (hot_store : list (VersionId * R))
    (index_plan : option (VersionId * R -> bool)) (cold : RecordBatch) (since_seq : option VersionId)
    (limit : option Z) (keep_deleted : bool) (snapshot : option VersionId)
    (build : ParquetRowData -> MergeResult (VersionId * R)) : Result string (list (VersionId * R)) :=
  let rows := take (Z.to_nat (calculate_scan_limit limit)) (hot_rows_yielded hot_store index_plan since_seq) in
  resolve_latest_scan pk_name limit keep_deleted snapshot
    (let? _ := reject_truncated_unbounded_scan limit (Z.of_nat (length rows)) in Ok rows) (Ok cold) build.

Definition compute_cold_columns (projection : option (list nat)) (schema : list string) (pk_name : string) :
    option (gset string) :=
  (fun proj => list_to_set (omap (fun i => schema !! i) proj) ∪ {[VERSION; DELETED]} ∪ {[pk_name]}) <$> projection.

Definition compute_metadata_only_cold_columns (pk_name : string) : list string := [pk_name; VERSION; DELETED].

(** ** What the selection keeps

    [contends snapshot k c]: [c] is a visible version of bucket [k].  The winner of a bucket is its
    greatest visible version, the first of them if versions repeat. *)
Definition contends {P} (snapshot : option VersionId) (k : PkBucketKey) (c : VersionCandidate P) : Prop :=
  is_visible_at_snapshot (vc_version c) snapshot = true /\ vc_pk_key c = k.

#[export] Instance contends_dec {P} snapshot k (c : VersionCandidate P) : Decision (contends snapshot k c).
Proof. unfold contends. apply _. Defined.

(** The reference: search the list for a version no other version of the bucket exceeds. *)
Definition latest_of {P} (snapshot : option VersionId) (l : list (VersionCandidate P)) (k : PkBucketKey) :
    option (VersionCandidate P) :=
  head (filter (fun c => forallb (fun x => vc_version x <=? vc_version c) (filter (contends snapshot k) l))
          (filter (contends snapshot k) l)).

Definition latest_rows {P} (snapshot : option VersionId) (keep_deleted : bool) (l : list (VersionCandidate P)) : list P :=
  omap (fun k => c ← latest_of snapshot l k; if negb keep_deleted && vc_deleted c then None else Some (vc_payload c))
    (remove_dups (vc_pk_key <$> l)).

Section Winners.
Context {P : Type}.
Abbreviation Cand := (VersionCandidate P).

Lemma prefers_version_spec a b : prefers_version a b = true <-> b < a.
Proof. unfold prefers_version, version_ordering. destruct (Z.compare_spec a b); split; intros; (done || lia). Qed.

(** The winner so far, kept while the list grows. *)
Definition improve (acc : option Cand) (c : Cand) : option Cand :=
  match acc with
  | Some current => if vc_version current <? vc_version c then Some c else acc
  | None => Some c
  end.

Lemma consider_lookup snapshot (best : gmap PkBucketKey Cand) c k :
  consider_candidate snapshot best c !! k =
  if decide (contends snapshot k c) then improve (best !! k) c else best !! k.
Proof.
  unfold consider_candidate. case_decide as Hd.
  - destruct Hd as [Hv <-]. rewrite Hv. cbn [negb]. unfold improve.
    destruct (best !! vc_pk_key c) as [current|] eqn:E; [|by rewrite lookup_insert_eq].
    destruct (prefers_version _ _) eqn:Ep.
    + apply prefers_version_spec in Ep. rewrite lookup_insert_eq, (proj2 (Z.ltb_lt _ _)) by done. done.
    + assert (~ vc_version current < vc_version c) as Hle by (rewrite <-prefers_version_spec; by rewrite Ep).
      rewrite E, (proj2 (Z.ltb_ge _ _)) by lia. done.
  - destruct (is_visible_at_snapshot _ _) eqn:Ev; [|done]. cbn [negb].
    assert (vc_pk_key c <> k) as Hne by (intros Hk; by apply Hd).
    destruct (best !! vc_pk_key c) as [current|]; [|by rewrite lookup_insert_ne].
    destruct (prefers_version _ _); [by rewrite lookup_insert_ne|done].
Qed.

Lemma foldl_consider_lookup snapshot l : forall (best : gmap PkBucketKey Cand) k,
  foldl (consider_candidate snapshot) best l !! k = foldl improve (best !! k) (filter (contends snapshot k) l).
Proof.
  induction l as [|c l IH]; intros best k; [done|]. cbn [foldl]. rewrite IH, consider_lookup, filter_cons.
  by case_decide.
Qed.

(** The fold of [improve] finds the first maximum. *)
Lemma improve_head l : forall c0,
  (forall x, x ∈ l -> vc_version x <= vc_version c0) -> foldl improve (Some c0) l = Some c0.
Proof.
  induction l as [|x l IH]; intros c0 Hle; [done|]. cbn [foldl improve].
  rewrite (proj2 (Z.ltb_ge _ _)) by (apply Hle, elem_of_cons; by left).
  apply IH. intros y Hy. apply Hle, elem_of_cons. by right.
Qed.

Lemma improve_latest (l : list Cand) :
  foldl improve None l = head (filter (fun c => forallb (fun x => vc_version x <=? vc_version c) l) l).
Proof.
  assert (forall pre rest acc,
    l = pre ++ rest ->
    (match acc with
     | None => pre = []
     | Some a => exists p1 p2, pre = p1 ++ a :: p2 /\ (forall x, x ∈ p1 -> vc_version x < vc_version a) /\
                   (forall x, x ∈ p2 -> vc_version x <= vc_version a)
     end) ->
    foldl improve acc rest = head (filter (fun c => forallb (fun x => vc_version x <=? vc_version c) l) l)) as Hgo.
  2: { by apply (Hgo [] l None). }
  intros pre rest. revert pre. induction rest as [|c rest IH]; intros pre acc Hl Hacc; cbn [foldl].
  - rewrite app_nil_r in Hl. destruct acc as [a|]; [|by subst].
    destruct Hacc as (p1 & p2 & -> & H1 & H2). subst l. rewrite filter_app, filter_none; cbn [app].
    + rewrite filter_cons_True; [done|]. apply Is_true_true. apply forallb_forall. intros x Hx%list_elem_of_In.
      apply Z.leb_le. apply elem_of_app in Hx as [Hx|Hx]; [specialize (H1 x Hx); lia|].
      apply elem_of_cons in Hx as [->|Hx]; [lia|by apply H2].
    + intros x Hx Hf. apply Is_true_true in Hf. rewrite forallb_forall in Hf.
      specialize (Hf a). rewrite Z.leb_le in Hf. specialize (H1 x Hx).
      assert (vc_version a <= vc_version x); [|lia]. apply Hf. apply list_elem_of_In, elem_of_app. right.
      apply elem_of_cons. by left.
  - apply (IH (pre ++ [c])); [by rewrite <-app_assoc|]. destruct acc as [a|]; cbn [improve].
    + destruct Hacc as (p1 & p2 & -> & H1 & H2). destruct (Z.ltb_spec (vc_version a) (vc_version c)).
      * exists (p1 ++ a :: p2), []. split; [done|]. split; [|intros x []%elem_of_nil].
        intros x [Hx|Hx]%elem_of_app; [specialize (H1 x Hx); lia|].
        apply elem_of_cons in Hx as [->|Hx]; [lia|]. specialize (H2 x Hx). lia.
      * exists p1, (p2 ++ [c]). split; [by rewrite <-app_assoc|]. split; [done|].
        intros x [Hx| ->%list_elem_of_singleton]%elem_of_app; [by apply H2|lia].
    + subst pre. exists [], []. split; [done|]. split; intros x []%elem_of_nil.
Qed.

Definition best_versions (snapshot : option VersionId) (l : list Cand) : gmap PkBucketKey Cand :=
  foldl (consider_candidate snapshot) ∅ l.

Lemma best_versions_lookup snapshot l k : best_versions snapshot l !! k = latest_of snapshot l k.
Proof.
  unfold best_versions, latest_of. rewrite foldl_consider_lookup, lookup_empty. apply improve_latest.
Qed.

Lemma latest_of_spec snapshot (l : list Cand) k c :
  latest_of snapshot l k = Some c ->
  c ∈ l /\ contends snapshot k c /\ forall x, x ∈ l -> contends snapshot k x -> vc_version x <= vc_version c.
Proof.
  unfold latest_of. intros Hh. apply head_Some_elem_of in Hh.
  apply list_elem_of_filter in Hh as [Hmax [Hc Hin]%list_elem_of_filter]. split_and!; [done..|].
  intros x Hx Hcx. apply Is_true_true in Hmax. rewrite forallb_forall in Hmax. apply Z.leb_le, Hmax.
  apply list_elem_of_In, list_elem_of_filter. done.
Qed.

Lemma latest_of_None snapshot (l : list Cand) k x :
  latest_of snapshot l k = None -> x ∈ l -> ~ contends snapshot k x.
Proof.
  unfold latest_of. rewrite <-improve_latest. intros Hn Hx Hc.
  assert (x ∈ filter (contends snapshot k) l) as Hin by by apply list_elem_of_filter.
  destruct (filter (contends snapshot k) l) as [|y l']; [by apply elem_of_nil in Hin|]. cbn [foldl improve] in Hn.
  assert (forall l (a : Cand), is_Some (foldl improve (Some a) l)) as Hs.
  { clear. induction l as [|y l IH]; intros a; [by eexists|]. cbn. destruct (_ <? _); apply IH. }
  destruct (Hs l' y) as [? ?]. congruence.
Qed.

(** What the code returns of its map. *)
Definition winners (snapshot : option VersionId) (keep_deleted : bool) (l : list Cand) : list P :=
  omap (fun e : PkBucketKey * Cand => if negb keep_deleted && vc_deleted e.2 then None else Some (vc_payload e.2))
    (map_to_list (best_versions snapshot l)).

Lemma winners_reference snapshot keep_deleted l :
  winners snapshot keep_deleted l ≡ₚ latest_rows snapshot keep_deleted l.
Proof.
  unfold winners, latest_rows.
  assert (map_to_list (best_versions snapshot l) ≡ₚ
          omap (fun k => c ← latest_of snapshot l k; Some (k, c)) (remove_dups (vc_pk_key <$> l))) as Hp.
  { apply NoDup_Permutation.
    - apply NoDup_map_to_list.
    - generalize (NoDup_remove_dups (vc_pk_key <$> l)). generalize (remove_dups (vc_pk_key <$> l)).
      intros ks. induction 1 as [|k ks Hk Hnd IH]; [constructor|]. cbn.
      destruct (latest_of snapshot l k) as [c|]; cbn; [|done]. constructor; [|done].
      intros (k' & Hk' & Heq)%list_elem_of_omap. destruct (latest_of snapshot l k'); [|done].
      injection Heq as -> ->. done.
    - intros [k c]. rewrite elem_of_map_to_list, best_versions_lookup, list_elem_of_omap. split.
      + intros Hl. exists k. rewrite Hl. split; [|done]. apply elem_of_remove_dups, list_elem_of_fmap.
        apply latest_of_spec in Hl as (Hin & [_ Hk] & _). exists c. done.
      + intros (k' & _ & Heq). destruct (latest_of snapshot l k') as [c'|] eqn:E; [|done].
        by injection Heq as -> ->. }
  rewrite Hp. clear Hp. generalize (remove_dups (vc_pk_key <$> l)). intros ks.
  induction ks as [|k ks IH]; [done|]. cbn. destruct (latest_of snapshot l k) as [c|]; cbn; [|done].
  destruct (negb keep_deleted && vc_deleted c); [done|]. by f_equiv.
Qed.

End Winners.

(** ** Payloads do not matter to the selection *)

Definition with_payload {P Q} (f : P -> Q) (c : VersionCandidate P) : VersionCandidate Q :=
  mkCandidate (vc_pk_key c) (vc_version c) (vc_deleted c) (f (vc_payload c)).

Lemma best_versions_map {P Q} (f : P -> Q) snapshot l :
  best_versions snapshot (with_payload f <$> l) = with_payload f <$> best_versions snapshot l.
Proof.
  unfold best_versions.
  assert (forall best, foldl (consider_candidate snapshot) (with_payload f <$> best) (with_payload f <$> l) =
    with_payload f <$> foldl (consider_candidate snapshot) best l) as Hgo.
  2: { specialize (Hgo ∅). by rewrite fmap_empty in Hgo. }
  induction l as [|c l IH]; intros best; [done|]. rewrite fmap_cons. cbn [foldl]. rewrite <-IH. f_equal.
  unfold consider_candidate. cbn [with_payload vc_version vc_pk_key].
  destruct (negb _); [done|]. rewrite lookup_fmap.
  destruct (best !! vc_pk_key c) as [current|]; cbn [fmap option_fmap option_map].
  - destruct (prefers_version _ _); [|done]. by rewrite fmap_insert.
  - by rewrite fmap_insert.
Qed.

Lemma winners_map {P Q} (f : P -> Q) snapshot keep_deleted l :
  winners snapshot keep_deleted (with_payload f <$> l) ≡ₚ f <$> winners snapshot keep_deleted l.
Proof.
  unfold winners. rewrite best_versions_map, map_to_list_fmap.
  induction (map_to_list (best_versions snapshot l)) as [|[k c] es IH]; [done|]. cbn.
  destruct (negb keep_deleted && vc_deleted c); [done|]. cbn. by f_equiv.
Qed.

Lemma select_winners {H C} (hot : list (VersionCandidate H)) (cold : list (VersionCandidate C)) snapshot keep_deleted :
  select_latest_versions hot cold snapshot keep_deleted =
  winners snapshot keep_deleted ((as_hot <$> hot) ++ (as_cold <$> cold)).
Proof. unfold select_latest_versions, winners, best_versions. by rewrite foldl_app. Qed.

Lemma some_permutation {A} (l l' : list A) : Some <$> l ≡ₚ Some <$> l' -> l ≡ₚ l'.
Proof.
  intros (l3 & Heq & Hp)%Permutation_map_inv. apply (inj (fmap (M := list) Some)) in Heq. subst. by symmetry.
Qed.

Lemma decoder_spec b pk_name d :
  decoder_new b pk_name = Ok d ->
  dec_batch d = b /\ value_column_indices d = filter (fun i => value_column b i) (seq 0 (length (batch_schema b))).
Proof.
  unfold decoder_new. destruct (column_position b VERSION) as [n|]; [|done].
  destruct (batch_columns b !! n); [|done]. case_decide; [|done]. by intros [= <-].
Qed.

Section Merge.
Context {K R : Type} `{ArrowScalars, VersionedRow R}.

Definition candidate (pk_name : string) (kr : K * R) : VersionCandidate (K * R) :=
  version_candidate_from_row pk_name kr.2 kr.

Lemma merge_winners pk_name hot cold keep_deleted snapshot :
  merge_versioned_rows pk_name hot cold keep_deleted snapshot ≡ₚ
  winners snapshot keep_deleted (candidate pk_name <$> (hot ++ cold)).
Proof.
  unfold merge_versioned_rows. rewrite select_winners, <-winners_map, !fmap_app, <-!list_fmap_compose. done.
Qed.

(** C6. A merged scan returns, for every primary key, its greatest version.  For all hot and cold
    rows, in whatever order the tiers yield them, the result is (up to order) that of the
    quadratic reference: per bucket the greatest version at or below the snapshot, one row per
    bucket, left out if it is a tombstone. *)
Theorem merge_returns_latest pk_name (hot cold : list (K * R)) keep_deleted snapshot :
  merge_versioned_rows pk_name hot cold keep_deleted snapshot ≡ₚ
  latest_rows snapshot keep_deleted (candidate pk_name <$> (hot ++ cold)).
Proof. rewrite merge_winners. apply winners_reference. Qed.

(** Rows of one bucket and one version are one row. *)
Definition versions_identify (pk_name : string) (rows : list (K * R)) : Prop :=
  forall x y, x ∈ rows -> y ∈ rows -> row_bucket x.2 pk_name = row_bucket y.2 pk_name ->
    row_version x.2 = row_version y.2 -> x = y.

Lemma latest_of_unique pk_name (rows rows' : list (K * R)) snapshot k c :
  versions_identify pk_name rows -> (forall x, x ∈ rows <-> x ∈ rows') ->
  latest_of snapshot (candidate pk_name <$> rows) k = Some c ->
  latest_of snapshot (candidate pk_name <$> rows') k = Some c.
Proof.
  intros Hid Heq Hl. apply latest_of_spec in Hl as (Hin & Hc & Hmax).
  destruct (latest_of snapshot (candidate pk_name <$> rows') k) as [c'|] eqn:E.
  - apply latest_of_spec in E as (Hin' & Hc' & Hmax').
    apply list_elem_of_fmap in Hin as (x & -> & Hx). apply list_elem_of_fmap in Hin' as (y & -> & Hy).
    assert (y = x) as ->; [|done]. apply Hid; [by apply Heq|done|..].
    + destruct Hc as [_ Hk], Hc' as [_ Hk']. cbn in *. congruence.
    + assert (vc_version (candidate pk_name y) <= vc_version (candidate pk_name x)).
      { apply Hmax; [|done]. apply list_elem_of_fmap. exists y. split; [done|by apply Heq]. }
      assert (vc_version (candidate pk_name x) <= vc_version (candidate pk_name y)).
      { apply Hmax'; [|done]. apply list_elem_of_fmap. exists x. split; [done|by apply Heq]. }
      cbn in *. lia.
  - exfalso. apply list_elem_of_fmap in Hin as (x & -> & Hx). eapply latest_of_None; [exact E| |exact Hc].
    apply list_elem_of_fmap. exists x. split; [done|by apply Heq].
Qed.

(** Which rows win depends only on the set of rows, when a version identifies its row. *)
Lemma winners_same_rows pk_name (rows rows' : list (K * R)) keep_deleted snapshot :
  versions_identify pk_name rows -> (forall x, x ∈ rows <-> x ∈ rows') ->
  winners snapshot keep_deleted (candidate pk_name <$> rows) =
  winners snapshot keep_deleted (candidate pk_name <$> rows').
Proof.
  intros Hid Heq. unfold winners.
  assert (best_versions snapshot (candidate pk_name <$> rows) =
          best_versions snapshot (candidate pk_name <$> rows')) as ->; [|done].
  apply map_eq. intros k. rewrite !best_versions_lookup.
  assert (versions_identify pk_name rows') as Hid'.
  { intros x y Hx Hy. apply Hid; by apply Heq. }
  destruct (latest_of snapshot (candidate pk_name <$> rows) k) as [c|] eqn:E.
  - symmetry. by apply (latest_of_unique pk_name rows).
  - symmetry. destruct (latest_of snapshot (candidate pk_name <$> rows') k) as [c|] eqn:E'; [|done].
    apply (latest_of_unique pk_name _ rows) in E'; [congruence|done|]. intros x. by rewrite Heq.
Qed.

(** A row wins if no other visible row of its bucket has its version or a greater one. *)
Lemma newest_row_wins pk_name (rows : list (K * R)) keep_deleted snapshot x :
  x ∈ rows -> is_visible_at_snapshot (row_version x.2) snapshot = true ->
  (keep_deleted = false -> row_deleted x.2 = false) ->
  (forall z, z ∈ rows -> row_bucket z.2 pk_name = row_bucket x.2 pk_name ->
     is_visible_at_snapshot (row_version z.2) snapshot = true -> z = x \/ row_version z.2 < row_version x.2) ->
  x ∈ winners snapshot keep_deleted (candidate pk_name <$> rows).
Proof.
  intros Hx Hvis Hdel Hmax. apply list_elem_of_omap.
  exists (row_bucket x.2 pk_name, candidate pk_name x). split.
  - apply elem_of_map_to_list. rewrite best_versions_lookup.
    destruct (latest_of snapshot (candidate pk_name <$> rows) (row_bucket x.2 pk_name)) as [c|] eqn:E.
    + apply latest_of_spec in E as (Hin & [Hv Hk] & Hc). apply list_elem_of_fmap in Hin as (z & -> & Hz).
      destruct (Hmax z Hz Hk Hv) as [->|Hlt]; [done|].
      assert (vc_version (candidate pk_name x) <= vc_version (candidate pk_name z)) as Hle.
      { apply Hc; [apply list_elem_of_fmap; by exists x|by split]. }
      cbn in Hle. lia.
    + exfalso. eapply latest_of_None; [exact E|apply list_elem_of_fmap; by exists x|by split].
  - cbn. destruct keep_deleted; cbn; [done|]. by rewrite Hdel.
Qed.

(** A row does not win if a newer visible row has its bucket. *)
Lemma superseded_row_loses pk_name (rows : list (K * R)) keep_deleted snapshot x y :
  y ∈ rows -> row_bucket y.2 pk_name = row_bucket x.2 pk_name ->
  is_visible_at_snapshot (row_version y.2) snapshot = true -> row_version x.2 < row_version y.2 ->
  x ∉ winners snapshot keep_deleted (candidate pk_name <$> rows).
Proof.
  intros Hy Hk Hvis Hlt ([k c] & Hin & Hw)%list_elem_of_omap. cbn in Hw.
  destruct (negb keep_deleted && vc_deleted c); [done|]. injection Hw as Hw.
  apply elem_of_map_to_list in Hin. rewrite best_versions_lookup in Hin.
  apply latest_of_spec in Hin as (Hin & [_ Hck] & Hmax). apply list_elem_of_fmap in Hin as (z & -> & Hz).
  cbn in Hw, Hck. subst z.
  assert (vc_version (candidate pk_name y) <= vc_version (candidate pk_name x)) as Hle.
  { apply Hmax; [apply list_elem_of_fmap; by exists y|]. split; [done|]. cbn. congruence. }
  cbn in Hle. lia.
Qed.

(** ** Cold rows decoded from a batch *)

(** [cold_rows] are what [build] makes of the rows of the batch, with the metadata of the batch. *)
Definition builds (pk_name : string) (d : ParquetBatchDecoder) (build : ParquetRowData -> MergeResult (K * R))
    (cold_rows : list (K * R)) : Prop :=
  forall i, (i < num_rows (dec_batch d))%nat ->
    exists data kr m, cold_rows !! i = Some kr /\ row_at d i = Ok data /\ build data = Ok kr /\
      metadata_at d i = Ok m /\
      m = mkMetadata (row_version kr.2) (row_deleted kr.2) (row_bucket kr.2 pk_name).

Definition selected_row (cold_rows : list (K * R)) (w : SelectedVersion (K * R) nat) : option (K * R) :=
  match w with SelectedHot row => Some row | SelectedCold i => cold_rows !! i end.

Lemma build_winners_spec pk_name d build cold_rows ws :
  builds pk_name d build cold_rows ->
  Forall (fun w => match w with SelectedHot _ => True | SelectedCold i => (i < num_rows (dec_batch d))%nat end) ws ->
  exists rows, build_winners d build ws = Ok rows /\ Some <$> rows = selected_row cold_rows <$> ws.
Proof.
  intros Hb. induction ws as [|w ws IH]; intros Hws; [by exists []|].
  apply Forall_cons in Hws as [Hw Hws]. destruct (IH Hws) as (rows & Hr & Heq). destruct w as [row|i].
  - exists (row :: rows). cbn [build_winners]. rewrite Hr. split; [done|]. cbn. by rewrite Heq.
  - destruct (Hb i Hw) as (data & kr & m & Hkr & Hrow & Hbuild & _). exists (kr :: rows).
    cbn [build_winners]. rewrite Hrow. cbn [result_bind]. rewrite Hbuild. cbn [result_bind]. rewrite Hr.
    split; [done|]. cbn. by rewrite Hkr, Heq.
Qed.

Lemma cold_candidates_spec pk_name d build cold_rows :
  builds pk_name d build cold_rows -> length cold_rows = num_rows (dec_batch d) ->
  with_payload (selected_row cold_rows) ∘ as_cold <$> omap (cold_candidate d) (seq 0 (num_rows (dec_batch d))) =
  with_payload Some <$> (candidate pk_name <$> cold_rows).
Proof.
  intros Hb Hlen. rewrite <-Hlen.
  assert (forall n i, (i + n = length cold_rows)%nat ->
    with_payload (selected_row cold_rows) ∘ as_cold <$> omap (cold_candidate d) (seq i n) =
    with_payload Some <$> (candidate pk_name <$> drop i cold_rows)) as Hgo.
  2: { by apply (Hgo _ 0%nat). }
  induction n as [|n IH]; intros i Hi.
  - by rewrite drop_ge by lia.
  - destruct (Hb i) as (data & kr & m & Hkr & _ & _ & Hm & ->); [lia|].
    unfold metadata_at in Hm. apply result_bind_ok in Hm as (v & Hv & Hm). injection Hm as Hver Hdel Hpk.
    rewrite (drop_S _ kr i Hkr), !fmap_cons, <-IH by lia. cbn [seq omap list_omap].
    unfold cold_candidate at 1. rewrite Hv. rewrite fmap_cons. f_equal.
    unfold with_payload, as_cold, candidate, version_candidate_from_row, compose. cbn.
    by rewrite Hkr, Hpk, Hver, Hdel.
Qed.

Lemma resolve_winners pk_name hot cold keep_deleted snapshot build d cold_rows :
  decoder_new cold (Some pk_name) = Ok d -> builds pk_name d build cold_rows ->
  length cold_rows = num_rows cold ->
  exists rows, resolve_latest_kvs_from_cold_batch pk_name hot cold keep_deleted snapshot build = Ok rows /\
    rows ≡ₚ winners snapshot keep_deleted (candidate pk_name <$> (hot ++ cold_rows)).
Proof.
  intros Hd Hb Hlen. unfold resolve_latest_kvs_from_cold_batch. rewrite Hd. cbn [result_bind]. apply decoder_spec in Hd as [Hbatch _].
  rewrite select_winners.
  set (hs := (fun kr => version_candidate_from_row pk_name kr.2 kr) <$> hot).
  set (cs := omap (cold_candidate d) (seq 0 (num_rows cold))).
  assert (Forall (fun w => match w with SelectedHot _ => True | SelectedCold i => (i < num_rows (dec_batch d))%nat end)
    (winners snapshot keep_deleted ((as_hot <$> hs) ++ (as_cold <$> cs)))) as Hws.
  { apply Forall_forall. intros w ([k c] & Hin & Hw)%list_elem_of_omap. cbn in Hw.
    destruct (negb keep_deleted && vc_deleted c); [done|]. injection Hw as <-.
    apply elem_of_map_to_list in Hin. rewrite best_versions_lookup in Hin.
    apply latest_of_spec in Hin as (Hin & _). apply elem_of_app in Hin as [Hin|Hin];
      apply list_elem_of_fmap in Hin as (x & -> & Hx); [done|]. cbn.
    unfold cs in Hx. apply list_elem_of_omap in Hx as (i & Hi & Hx). apply elem_of_seq in Hi.
    unfold cold_candidate in Hx. destruct (version_at d i); [|done]. injection Hx as <-. cbn.
    rewrite Hbatch. lia. }
  destruct (build_winners_spec pk_name d build cold_rows _ Hb Hws) as (rows' & -> & Heq).
  exists rows'. split; [done|]. apply some_permutation. rewrite Heq, <-!winners_map, !fmap_app.
  rewrite <-(list_fmap_compose as_cold). unfold cs.
  rewrite <-Hbatch, (cold_candidates_spec pk_name d build cold_rows) by (done || congruence).
  unfold hs. by rewrite <-!list_fmap_compose.
Qed.

End Merge.

Section Scan.
Context {R : Type} `{ArrowScalars, VersionedRow R}.

(** The hot rows a scan merges: those the iterator yields, cut at the scan limit. *)
Definition hot_rows_read (hot : list (VersionId * R)) (index_plan : option (VersionId * R -> bool))
    (limit : option Z) : list (VersionId * R) :=
  take (Z.to_nat (calculate_scan_limit limit)) (hot_rows_yielded hot index_plan None).

(** A scan returns the winners among the hot rows it reads and the cold rows, up to its limit. *)
Lemma scan_winners pk_name (hot : list (VersionId * R)) index_plan cold limit keep_deleted snapshot build d cold_rows :
  decoder_new cold (Some pk_name) = Ok d -> builds pk_name d build cold_rows ->
  length cold_rows = num_rows cold ->
  is_Some limit \/ Z.of_nat (length (hot_rows_read hot index_plan limit)) < 100000 ->
  exists rows, scan_with_version_resolution pk_name hot index_plan cold None limit keep_deleted snapshot build =
      Ok (apply_limit rows (Z.to_nat <$> limit)) /\
    rows ≡ₚ winners snapshot keep_deleted (candidate pk_name <$> (hot_rows_read hot index_plan limit ++ cold_rows)).
Proof.
  intros Hd Hb Hlen Hn. unfold scan_with_version_resolution. fold (hot_rows_read hot index_plan limit).
  assert (reject_truncated_unbounded_scan limit (Z.of_nat (length (hot_rows_read hot index_plan limit))) = Ok tt) as ->.
  { unfold reject_truncated_unbounded_scan. destruct limit as [l|]; [done|].
    change (calculate_scan_limit None) with 100000. destruct Hn as [[? [=]]|Hn].
    by rewrite (proj2 (Z.leb_gt _ _)) by lia. }
  unfold resolve_latest_scan. cbn [result_bind].
  destruct (resolve_winners pk_name (hot_rows_read hot index_plan limit) cold keep_deleted snapshot build d cold_rows)
    as (rows & -> & Hp); [done..|].
  cbn [map_err result_bind]. by exists rows.
Qed.

Lemma hot_rows_read_all (hot : list (VersionId * R)) :
  Z.of_nat (length hot) < 100000 -> hot_rows_read hot None None = hot.
Proof. intros Hn. unfold hot_rows_read. change (calculate_scan_limit None) with 100000. by rewrite take_ge by (cbn; lia). Qed.

(** C12. An unbounded scan of fewer than 100,000 hot rows without an index seek returns the latest
    rows: it succeeds, and its rows are those of the reference over all hot and all cold rows.  From
    100,000 hot rows on it fails instead of returning a part. *)
Theorem full_scan_returns_latest pk_name (hot : list (VersionId * R)) cold keep_deleted snapshot build d cold_rows :
  decoder_new cold (Some pk_name) = Ok d -> builds pk_name d build cold_rows ->
  length cold_rows = num_rows cold ->
  if Z.of_nat (length hot) <? 100000 then
    exists rows, scan_with_version_resolution pk_name hot None cold None None keep_deleted snapshot build = Ok rows /\
      rows ≡ₚ latest_rows snapshot keep_deleted (candidate pk_name <$> (hot ++ cold_rows))
  else is_ok (scan_with_version_resolution pk_name hot None cold None None keep_deleted snapshot build) = false.
Proof.
  intros Hd Hb Hlen. destruct (Z.ltb_spec (Z.of_nat (length hot)) 100000) as [Hlt|Hge].
  - destruct (scan_winners pk_name hot None cold None keep_deleted snapshot build d cold_rows) as (rows & -> & Hp);
      [done..|rewrite hot_rows_read_all by done; by right|].
    rewrite hot_rows_read_all in Hp by done. exists rows. split; [done|]. by rewrite <-winners_reference.
  - unfold scan_with_version_resolution, reject_truncated_unbounded_scan.
    change (hot_rows_yielded hot None None) with hot. change (calculate_scan_limit None) with 100000.
    rewrite length_take. by rewrite (proj2 (Z.leb_le _ _)) by lia.
Qed.

(** C13. Flushing does not change what a full scan returns.  Let the same rows be distributed over
    hot storage and cold batches in two ways (a row may also be in both, as during the hand-over),
    with fewer than 100,000 hot rows in each and with a version identifying its row within a bucket.
    Then the scans without index seek, limit and lower bound succeed on both and return the same
    rows up to order. *)
Theorem flush_keeps_scan pk_name (hot hot' : list (VersionId * R)) cold cold' keep_deleted snapshot build
    d d' cold_rows cold_rows' :
  decoder_new cold (Some pk_name) = Ok d -> builds pk_name d build cold_rows -> length cold_rows = num_rows cold ->
  decoder_new cold' (Some pk_name) = Ok d' -> builds pk_name d' build cold_rows' ->
  length cold_rows' = num_rows cold' ->
  Z.of_nat (length hot) < 100000 -> Z.of_nat (length hot') < 100000 ->
  versions_identify pk_name (hot ++ cold_rows) ->
  (forall x, x ∈ hot ++ cold_rows <-> x ∈ hot' ++ cold_rows') ->
  exists rows rows',
    scan_with_version_resolution pk_name hot None cold None None keep_deleted snapshot build = Ok rows /\
    scan_with_version_resolution pk_name hot' None cold' None None keep_deleted snapshot build = Ok rows' /\
    rows ≡ₚ rows'.
Proof.
  intros Hd Hb Hlen Hd' Hb' Hlen' Hn Hn' Hid Heq.
  destruct (scan_winners pk_name hot None cold None keep_deleted snapshot build d cold_rows) as (rows & E & Hp);
    [done..|rewrite hot_rows_read_all by done; by right|].
  destruct (scan_winners pk_name hot' None cold' None keep_deleted snapshot build d' cold_rows') as (rows' & E' & Hp');
    [done..|rewrite hot_rows_read_all by done; by right|].
  rewrite hot_rows_read_all in Hp, Hp' by done. exists rows, rows'. split_and!; [done..|].
  rewrite Hp, Hp'. by rewrite (winners_same_rows pk_name _ _ keep_deleted snapshot Hid Heq).
Qed.

(** C24. A scan that reads only a part of the hot rows (an index seek, a limit, or both) and all
    cold rows returns a replaced row whenever the row that replaces it is not in that part.  For
    every cold row [x] that is newest of its key among the rows read, and every visible hot row [y]
    of the same key that is newer and that only the full scan reads: the narrowed scan returns [x]
    (if its limit does not cut the result), and the full scan does not, even when [y] is a
    tombstone. *)
Theorem narrowed_scan_returns_stale_rows pk_name (hot : list (VersionId * R)) index_plan cold limit keep_deleted
    snapshot build d cold_rows x y :
  decoder_new cold (Some pk_name) = Ok d -> builds pk_name d build cold_rows -> length cold_rows = num_rows cold ->
  Z.of_nat (length hot) < 100000 ->
  let read := hot_rows_read hot index_plan limit in
  (forall l, limit = Some l ->
     (length (winners snapshot keep_deleted (candidate pk_name <$> (read ++ cold_rows))) <= Z.to_nat l)%nat) ->
  x ∈ cold_rows -> is_visible_at_snapshot (row_version x.2) snapshot = true -> row_deleted x.2 = false ->
  (forall z, z ∈ read ++ cold_rows -> row_bucket z.2 pk_name = row_bucket x.2 pk_name ->
     is_visible_at_snapshot (row_version z.2) snapshot = true -> z = x \/ row_version z.2 < row_version x.2) ->
  y ∈ hot -> row_bucket y.2 pk_name = row_bucket x.2 pk_name ->
  is_visible_at_snapshot (row_version y.2) snapshot = true -> row_version x.2 < row_version y.2 ->
  (exists rows, scan_with_version_resolution pk_name hot index_plan cold None limit keep_deleted snapshot build =
     Ok rows /\ x ∈ rows) /\
  exists rows, scan_with_version_resolution pk_name hot None cold None None keep_deleted snapshot build = Ok rows /\
    x ∉ rows.
Proof.
  intros Hd Hb Hlen Hn read Hcut Hx Hvis Hdel Hmax Hy Hk Hvy Hlt. split.
  - destruct (scan_winners pk_name hot index_plan cold limit keep_deleted snapshot build d cold_rows)
      as (rows & E & Hp); [done..| |].
    { right. eapply Z.le_lt_trans; [|exact Hn]. apply Nat2Z.inj_le. unfold hot_rows_read, hot_rows_yielded.
      rewrite length_take. destruct index_plan; [|cbn; lia]. etransitivity; [apply Nat.le_min_r|].
      apply length_filter. }
    eexists. split; [exact E|]. fold read in Hp.
    assert (apply_limit rows (Z.to_nat <$> limit) = rows) as ->.
    { destruct limit as [l|]; [|done]. cbn. apply take_ge. rewrite Hp. by apply Hcut. }
    rewrite Hp. apply newest_row_wins; [set_solver|done|done|done].
  - destruct (scan_winners pk_name hot None cold None keep_deleted snapshot build d cold_rows) as (rows & E & Hp);
      [done..|rewrite hot_rows_read_all by done; by right|].
    rewrite hot_rows_read_all in Hp by done. exists rows. split; [exact E|]. rewrite Hp.
    apply (superseded_row_loses pk_name _ _ _ x y); [set_solver|done..].
Qed.

(** The metadata of the hot rows, as the counting scan collects it. *)
Definition hot_metadata {K} (pk_name : string) (hot : list (K * R)) : list RowMetadata :=
  (fun kr => mkMetadata (row_version kr.2) (row_deleted kr.2) (row_bucket kr.2 pk_name)) <$> hot.

Lemma decode_all_metadata {K} pk_name d build (cold_rows : list (K * R)) :
  builds pk_name d build cold_rows -> length cold_rows = num_rows (dec_batch d) ->
  decode_all (metadata_at d) (seq 0 (num_rows (dec_batch d))) = Ok (hot_metadata pk_name cold_rows).
Proof.
  intros Hb Hlen. rewrite <-Hlen.
  assert (forall n i, (i + n = length cold_rows)%nat ->
    decode_all (metadata_at d) (seq i n) = Ok (hot_metadata pk_name (drop i cold_rows))) as Hgo.
  2: { by apply (Hgo _ 0%nat). }
  induction n as [|n IH]; intros i Hi; cbn [seq decode_all].
  - by rewrite drop_ge by lia.
  - destruct (Hb i) as (data & kr & m & Hkr & _ & _ & Hm & ->); [lia|]. rewrite Hm. cbn [result_bind].
    rewrite IH by lia. cbn [result_bind]. by rewrite (drop_S _ kr i Hkr).
Qed.

Lemma winners_length {P Q} snapshot keep_deleted (l : list (VersionCandidate P)) (l' : list (VersionCandidate Q)) :
  with_payload (fun _ => tt) <$> l = with_payload (fun _ => tt) <$> l' ->
  length (winners snapshot keep_deleted l) = length (winners snapshot keep_deleted l').
Proof.
  intros Heq. pose proof (winners_map (fun _ : P => tt) snapshot keep_deleted l) as H1.
  pose proof (winners_map (fun _ : Q => tt) snapshot keep_deleted l') as H2.
  apply Permutation_length in H1, H2. rewrite length_fmap in H1. rewrite length_fmap in H2. congruence.
Qed.

(** [COUNT( * )] counts what the scan returns: over the same rows the metadata-only count and the
    full resolution both succeed, and the count is the number of rows. *)
Theorem count_agrees_with_scan {K} pk_name (hot : list (K * R)) cold snapshot build d cold_rows :
  decoder_new cold (Some pk_name) = Ok d -> builds pk_name d build cold_rows ->
  length cold_rows = num_rows cold ->
  exists rows, resolve_latest_kvs_from_cold_batch pk_name hot cold false snapshot build = Ok rows /\
    count_resolved_from_metadata pk_name (hot_metadata pk_name hot) cold snapshot = Ok (length rows).
Proof.
  intros Hd Hb Hlen.
  destruct (resolve_winners pk_name hot cold false snapshot build d cold_rows) as (rows & -> & Hp); [done..|].
  exists rows. split; [done|]. rewrite Hp. pose proof (decoder_spec _ _ _ Hd) as [Hbatch _].
  assert (parquet_batch_to_metadata cold pk_name = Ok (hot_metadata pk_name cold_rows)) as Hms.
  { unfold parquet_batch_to_metadata. destruct (Nat.eqb_spec (num_rows cold) 0) as [Hz|Hn].
    - rewrite Hz in Hlen. by apply nil_length_inv in Hlen as ->.
    - rewrite Hd. cbn [result_bind]. rewrite <-Hbatch. eapply decode_all_metadata; [exact Hb|congruence]. }
  unfold count_resolved_from_metadata. rewrite Hms. cbn [result_bind]. f_equal.
  unfold count_merged_rows. rewrite select_winners. apply winners_length.
  unfold hot_metadata. rewrite !fmap_app, <-!list_fmap_compose. done.
Qed.

End Scan.

(** ** Decoded rows are well typed *)

Definition batch_ok (b : RecordBatch) : Prop := Forall array_ok (batch_columns b).

Lemma null_scalar_type t : scalar_type (null_scalar t) = Some t.
Proof. by destruct t. Qed.

Lemma cell_type a i : array_ok a -> scalar_type (cell a i) = Some (array_type a).
Proof.
  intros Ha. unfold cell. destruct (array_cells a !! i) as [c|] eqn:E; [|apply null_scalar_type].
  unfold array_ok in Ha. rewrite Forall_forall in Ha. apply Ha. by eapply list_elem_of_lookup_2.
Qed.

Lemma arrow_value_type `{ArrowScalars} a i v :
  array_ok a -> arrow_value_to_scalar a i = Some v -> v = Null \/ scalar_type v = Some (array_type a).
Proof.
  intros Ha. unfold arrow_value_to_scalar. destruct (array_is_null a i).
  - destruct (try_from_type (array_type a)) as [n|] eqn:E; cbn; intros [= <-]; [right|by left].
    apply try_from_type_null in E as ->. apply null_scalar_type.
  - destruct (has_direct_arm _); [intros [= <-]; right; by apply cell_type|].
    intros ->%try_from_array_cell; [right; by apply cell_type|done].
Qed.

(** A decoded row is well typed: every field of a row read back from a Parquet batch belongs to a
    column of the batch that is no system column, and its value has the Arrow type of that column,
    or is the untyped null (of a type DataFusion knows no null of). *)
Theorem decoded_row_well_typed `{ArrowScalars} (b : RecordBatch) pk_name d i row name v :
  batch_ok b -> decoder_new b pk_name = Ok d -> row_at d i = Ok row -> pr_fields row !! name = Some v ->
  exists c a, batch_schema b !! c = Some name /\ batch_columns b !! c = Some a /\
    is_value_column name = true /\ (v = Null \/ scalar_type v = Some (array_type a)).
Proof.
  intros Hb Hd Hrow Hv. unfold row_at in Hrow. apply result_bind_ok in Hrow as (m & _ & <-%Ok_inj).
  cbn [pr_fields] in Hv.
  apply decoder_spec in Hd as [Hbatch Hcols].
  assert (forall es (m0 : Row), foldl (fun (m : Row) e => <[e.1 := e.2]> m) m0 es !! name = Some v ->
    (name, v) ∈ es \/ m0 !! name = Some v) as Hfold.
  { induction es as [|[n x] es IH]; intros m0 Hl; [by right|]. cbn in Hl. apply IH in Hl as [Hl|Hl].
    - left. apply elem_of_cons. by right.
    - apply lookup_insert_Some in Hl as [[-> ->]|[_ Hl]]; [left; apply elem_of_cons; by left|by right]. }
  apply Hfold in Hv as [Hv|Hv]; [|done].
  apply list_elem_of_omap in Hv as (c & Hc & Hval). unfold value_at in Hval. rewrite Hbatch in Hval.
  destruct (batch_schema b !! c) as [n|] eqn:Es; [|done]. destruct (batch_columns b !! c) as [a|] eqn:Ea; [|done].
  destruct (arrow_value_to_scalar a i) as [w|] eqn:Ew; [|done].
  injection Hval as -> ->. exists c, a. rewrite Hcols in Hc. apply list_elem_of_filter in Hc as [Hc _].
  apply Is_true_true in Hc. unfold value_column in Hc. rewrite Es in Hc. split_and!; [done..|].
  apply (arrow_value_type a i); [|done]. unfold batch_ok in Hb. rewrite Forall_forall in Hb. apply Hb.
  by eapply list_elem_of_lookup_2.
Qed.

(** ** Hot and cold rows fall into the same bucket *)

(** The bucket of a cold row is the bucket the same row has in hot storage.  For every primary-key
    column of a supported type, reading the key through the typed array gives the same bucket as
    reading the decoded scalar (nulls and empty text fall back to the version in both). *)
Theorem buckets_agree `{ArrowScalars} display d a i version v :
  pk_column d = Some a -> array_ok a -> pk_type_supported (array_type a) = true ->
  arrow_value_to_scalar a i = Some v ->
  pk_bucket_at d i version = pk_bucket_key_from_scalar display v version.
Proof.
  intros Hpk Ha Ht Hv. unfold pk_bucket_at. rewrite Hpk. pose proof (cell_type a i Ha) as Hc.
  unfold pk_bucket_key_from_array, read_pk_bucket_from_array, arrow_value_to_scalar in *.
  rewrite (try_from_array_pk a i Ha Ht) in *. unfold pk_bucket_key_from_scalar.
  destruct (array_is_null a i) eqn:En.
  - injection Hv as <-. unfold array_is_null in En.
    assert (default Null (try_from_type (array_type a)) = Null \/
            default Null (try_from_type (array_type a)) = null_scalar (array_type a)) as Hn.
    { destruct (try_from_type (array_type a)) eqn:E; [right|by left]. by apply try_from_type_null in E as ->. }
    destruct (array_type a) eqn:Et; try done; destruct Hn as [-> | ->];
      by destruct (cell a i) as [| [x|] | [x|] | [x|] | [x|] | [x|] | [x|] | [x|] | [x|] | [x|] | [x|] | [x|] | [x|] | [x|] | w [x|]].
  - assert (cell a i = v) as <- by (destruct (has_direct_arm _); congruence). unfold array_is_null in En.
    destruct (array_type a) eqn:Et; try done;
      destruct (cell a i) as [| [x|] | [x|] | [x|] | [x|] | [x|] | [x|] | [x|] | [x|] | [x|] | [x|] | [x|] | [x|] | [x|] | w [x|]];
      try done; cbn in Hc |- *; try (by destruct x).
    injection Hc as ->. apply String.eqb_eq in Ht as ->. cbn. by destruct x.
Qed.

(** ** Concrete scans *)

Module VersionMergeWitness.

Definition display (_ : ScalarValue) : string := "value".
#[local] Instance rows : VersionedRow TableRow := table_row display.

(** A conversion that knows every type but one. *)
#[local] Program Instance scalars : ArrowScalars := {|
  try_from_type t := Some (null_scalar t);
  try_from_array a i := if decide (array_type a = TOther "Union") then None else Some (cell a i)
|}.
Next Obligation. by intros t v [= <-]. Qed.
Next Obligation. intros a i v _. cbn. case_decide; [done|]. by intros [= <-]. Qed.
Next Obligation. intros a i _ Ht. cbn. case_decide as Heq; [by rewrite Heq in Ht|done]. Qed.

Definition fields (id : Z) (status : string) : Row :=
  <["id" := Int64 (Some id)]> (<["status" := Utf8 (Some status)]> ∅).
Definition row (id version : Z) (deleted : bool) (status : string) : Z * TableRow :=
  (version, mkTableRow version deleted (fields id status)).

Definition build (data : ParquetRowData) : MergeResult (Z * TableRow) :=
  Ok (pr_version data, mkTableRow (pr_version data) (pr_deleted data) (pr_fields data)).

(** A batch of (id, version, deleted, status). *)
Definition batch (l : list (Z * Z * bool * string)) : RecordBatch :=
  mkBatch ["id"; "_version"; "_deleted"; "status"]
    [mkArray TInt64 ((fun x => Int64 (Some x.1.1.1)) <$> l);
     mkArray TInt64 ((fun x => Int64 (Some x.1.1.2)) <$> l);
     mkArray TBoolean ((fun x => Boolean (Some x.1.2)) <$> l);
     mkArray TUtf8 ((fun x => Utf8 (Some x.2)) <$> l)] (length l).

Definition cold0 : RecordBatch := batch [(1, 5, false, "open"); (2, 6, false, "open"); (1, 3, false, "new")].
Definition hot0 : list (Z * TableRow) := [row 1 9 false "closed"; row 3 10 true "open"].
Definition cold_rows0 : list (Z * TableRow) := [row 1 5 false "open"; row 2 6 false "open"; row 1 3 false "new"].

Definition decoder0 : ParquetBatchDecoder :=
  match decoder_new cold0 (Some "id"%string) with Ok d => d | Err _ => mkDecoder cold0 (mkArray TInt64 []) None None [] end.

Lemma decoder0_ok : decoder_new cold0 (Some "id"%string) = Ok decoder0.
Proof. vm_compute. reflexivity. Qed.

Lemma builds0 : builds "id" decoder0 build cold_rows0.
Proof.
  intros i Hi. assert (num_rows (dec_batch decoder0) = 3%nat) as Hn by (vm_compute; reflexivity).
  assert (i = 0 \/ i = 1 \/ i = 2)%nat as Hcase by lia.
  destruct Hcase as [->|[->| ->]]; eexists _, _, _; (split; [reflexivity|]); (split; [vm_compute; reflexivity|]);
    (split; [vm_compute; reflexivity|]); split; vm_compute; reflexivity.
Qed.

Lemma full_scan_returns_latest_witness :
  exists result, scan_with_version_resolution "id" hot0 None cold0 None None false None build = Ok result /\
    result ≡ₚ [row 1 9 false "closed"; row 2 6 false "open"].
Proof.
  destruct (full_scan_returns_latest "id" hot0 cold0 false None build decoder0 cold_rows0 decoder0_ok builds0 eq_refl)
    as (result & E & Hp).
  exists result. split; [exact E|]. rewrite Hp.
  assert (latest_rows None false (candidate "id" <$> (hot0 ++ cold_rows0)) =
          [row 2 6 false "open"; row 1 9 false "closed"]) as -> by (vm_compute; reflexivity).
  constructor.
Defined.

Lemma count_agrees_with_scan_witness :
  exists result, resolve_latest_kvs_from_cold_batch "id" hot0 cold0 false (Some 7) build = Ok result /\
    length result = 2%nat /\
    count_resolved_from_metadata "id" (hot_metadata "id" hot0) cold0 (Some 7) = Ok (length result).
Proof.
  destruct (count_agrees_with_scan "id" hot0 cold0 (Some 7) build decoder0 cold_rows0 decoder0_ok builds0 eq_refl)
    as (result & E & Hn).
  exists result. split; [exact E|]. split; [|exact Hn].
  assert (count_resolved_from_metadata "id" (hot_metadata "id" hot0) cold0 (Some 7) = Ok 2%nat) as H2
    by (vm_compute; reflexivity).
  rewrite H2 in Hn. by injection Hn.
Defined.

(** After the flush every row is cold; row 1's newest version may still be hot as well. *)
Definition cold1 : RecordBatch :=
  batch [(1, 5, false, "open"); (2, 6, false, "open"); (1, 3, false, "new"); (1, 9, false, "closed"); (3, 10, true, "open")].
Definition hot1 : list (Z * TableRow) := [row 1 9 false "closed"].
Definition cold_rows1 : list (Z * TableRow) := cold_rows0 ++ hot0.

Definition decoder1 : ParquetBatchDecoder :=
  match decoder_new cold1 (Some "id"%string) with Ok d => d | Err _ => mkDecoder cold1 (mkArray TInt64 []) None None [] end.

Lemma decoder1_ok : decoder_new cold1 (Some "id"%string) = Ok decoder1.
Proof. vm_compute. reflexivity. Qed.

Lemma builds1 : builds "id" decoder1 build cold_rows1.
Proof.
  intros i Hi. assert (num_rows (dec_batch decoder1) = 5%nat) as Hn by (vm_compute; reflexivity).
  assert (i = 0 \/ i = 1 \/ i = 2 \/ i = 3 \/ i = 4)%nat as Hcase by lia.
  destruct Hcase as [->|[->|[->|[->| ->]]]]; eexists _, _, _; (split; [reflexivity|]);
    (split; [vm_compute; reflexivity|]); (split; [vm_compute; reflexivity|]); split; vm_compute; reflexivity.
Qed.

Lemma flush_keeps_scan_witness :
  exists before after,
    scan_with_version_resolution "id" hot0 None cold0 None None false None build = Ok before /\
    scan_with_version_resolution "id" hot1 None cold1 None None false None build = Ok after /\ before ≡ₚ after.
Proof.
  apply (flush_keeps_scan "id" hot0 hot1 cold0 cold1 false None build decoder0 decoder1 cold_rows0 cold_rows1);
    [apply decoder0_ok|apply builds0|reflexivity|apply decoder1_ok|apply builds1|reflexivity|reflexivity|reflexivity| |].
  - intros x y Hx Hy. unfold hot0, cold_rows0 in Hx, Hy. cbn [app] in Hx, Hy.
    repeat setoid_rewrite elem_of_cons in Hx. repeat setoid_rewrite elem_of_cons in Hy.
    rewrite !elem_of_nil in Hx, Hy.
    destruct Hx as [->|[->|[->|[->|[->|[]]]]]]; destruct Hy as [->|[->|[->|[->|[->|[]]]]]]; intros _ Hv;
      first [reflexivity|cbn in Hv; discriminate].
  - intros x. unfold hot1, cold_rows1, hot0. rewrite !elem_of_app, !elem_of_cons. tauto.
Defined.

Lemma decoded_row_well_typed_witness :
  exists data, row_at decoder0 0 = Ok data /\ pr_fields data !! "status"%string = Some (Utf8 (Some "open"%string)) /\
    exists c a, batch_schema cold0 !! c = Some "status"%string /\ batch_columns cold0 !! c = Some a /\
      is_value_column "status" = true /\
      (Utf8 (Some "open"%string) = Null \/ scalar_type (Utf8 (Some "open"%string)) = Some (array_type a)).
Proof.
  destruct (row_at decoder0 0) as [data|] eqn:E; [|vm_compute in E; discriminate].
  assert (pr_fields data !! "status"%string = Some (Utf8 (Some "open"%string))) as Hf.
  { assert (Ok (E := MergeError) data = row_at decoder0 0) as Hd by (symmetry; exact E).
    vm_compute in Hd. injection Hd as ->. vm_compute. reflexivity. }
  exists data. split; [reflexivity|]. split; [exact Hf|].
  apply (decoded_row_well_typed cold0 (Some "id"%string) decoder0 0 data "status" (Utf8 (Some "open"%string)));
    [|apply decoder0_ok|exact E|exact Hf].
  unfold batch_ok. repeat constructor.
Defined.

Lemma buckets_agree_witness :
  pk_bucket_at decoder0 1 6 = PkInt 2 /\
  pk_bucket_at decoder0 1 6 = pk_bucket_key_from_scalar display (Int64 (Some 2)) 6.
Proof.
  split; [vm_compute; reflexivity|].
  apply (buckets_agree display decoder0 (mkArray TInt64 [Int64 (Some 1); Int64 (Some 2); Int64 (Some 1)]));
    [vm_compute; reflexivity|repeat constructor|reflexivity|reflexivity].
Defined.

(** ** Narrowed hot scans

    An index seek reads only the hot rows it selects, and a limited scan only the first of them, but
    the cold rows are all merged. *)
Definition is_open (kr : Z * TableRow) : bool :=
  bool_decide (tr_fields kr.2 !! "status"%string = Some (Utf8 (Some "open"%string))).

(** The open rows are asked for; row 1 was closed by a newer hot version, which the seek on the old
    value does not read. *)
Lemma narrowed_scan_returns_stale_rows_witness :
  (exists rows, scan_with_version_resolution "id" hot0 (Some is_open) cold0 None (Some 10) false None build = Ok rows /\
     row 1 5 false "open" ∈ rows) /\
  exists rows, scan_with_version_resolution "id" hot0 None cold0 None None false None build = Ok rows /\
    row 1 5 false "open" ∉ rows.
Proof.
  apply (narrowed_scan_returns_stale_rows "id" hot0 (Some is_open) cold0 (Some 10) false None build decoder0 cold_rows0
           (row 1 5 false "open") (row 1 9 false "closed"));
    [apply decoder0_ok|apply builds0|reflexivity|reflexivity| | |reflexivity|reflexivity| | |reflexivity|reflexivity|reflexivity].
  - intros l [= <-]. vm_compute. lia.
  - unfold cold_rows0. set_solver.
  - assert (hot_rows_read hot0 (Some is_open) (Some 10) ++ cold_rows0 =
            [row 3 10 true "open"; row 1 5 false "open"; row 2 6 false "open"; row 1 3 false "new"]) as ->
      by (vm_compute; reflexivity).
    intros z Hz Hk _. repeat setoid_rewrite elem_of_cons in Hz. rewrite !elem_of_nil in Hz.
    destruct Hz as [->|[->|[->|[->|[]]]]]; first [by left|right; reflexivity|vm_compute in Hk; discriminate].
  - unfold hot0. set_solver.
Defined.

(** The row a transaction with snapshot 5 has read disappears for it when another transaction
    commits a newer version: hot storage keeps one version per key. *)
Theorem updated_row_vanishes_from_snapshot :
  scan_with_version_resolution "id" [row 1 4 false "open"] None (batch []) None None false (Some 5) build =
    Ok [row 1 4 false "open"] /\
  scan_with_version_resolution "id" [row 1 9 false "closed"] None (batch []) None None false (Some 5) build = Ok [].
Proof. split; vm_compute; reflexivity. Qed.

End VersionMergeWitness.
