(* ===== verification/OverlayExec.v ===== *)
(** * OverlayExec: what a statement inside a transaction reads

    kalamdb-transactions/src/overlay_exec.rs: [TransactionOverlayExec] scans the committed rows of a
    table, lays the overlay of the transaction over them and appends the rows the transaction
    inserted.  With it the parts of kalamdb-commons/src/conversions that turn the text of a staged
    primary key back into a bucket key (scalar/string.rs, pk_bucket.rs).

    [merged_rows] is [finalize_overlay_rows] up to the rows it hands to the Arrow batch builder; the
    residual predicate and the projection of that batch are DataFusion's.  A hash map or set is
    iterated in the order of [map_to_list] and [elements]; the result does not depend on it.  The
    decimal parsers of floats are parameters: a float is never a primary key. *)

From Stdlib Require Import ZArith Lia Ascii SpecFloat.
From stdpp Require Import base strings gmap list.
From S2P Require Import Prelude Commons Scalars Overlay WriteSet VersionMerge.

Open Scope Z_scope.
Open Scope kalam_scope.


Abbreviation Row := (gmap string ScalarValue).

(** ** Primary keys as text *)

(** [Display] of a bucket key. *)
Definition pk_display (k : PkBucketKey) : string :=
  match k with
  | PkInt v | PkUInt v => int_text v
  | PkText s => s
  | PkVersion v => "_version:" +:+ int_text v
  end.

Definition hex_nibble (b : Z) : Z :=
  if (48 <=? b) && (b <=? 57) then b - 48
  else if (97 <=? b) && (b <=? 102) then b - 97 + 10
  else if (65 <=? b) && (b <=? 70) then b - 65 + 10
  else 0.

Definition is_ascii_hexdigit (b : Z) : bool :=
  (48 <=? b) && (b <=? 57) || (97 <=? b) && (b <=? 102) || (65 <=? b) && (b <=? 70).

Fixpoint hex_pairs (l : list Z) : list Z :=
  match l with
  | h :: lo :: rest => Z.lor (Z.shiftl (hex_nibble h) 4) (hex_nibble lo) :: hex_pairs rest
  | _ => []
  end.

Definition parse_uuid_bytes (value : string) : option (list Z) :=
  let hex := filter (fun b => b ≠ 45) (bytes_of_string value) in
  if negb (length hex =? 32)%nat || negb (forallb is_ascii_hexdigit hex) then None
  else Some (hex_pairs hex).

Definition parse_bool (s : string) : option bool :=
  if String.eqb s "true" then Some true else if String.eqb s "false" then Some false else None.

Section Keys.
Context (parse_f32 parse_f64 : string -> option spec_float).

Definition parse_string_as_scalar (value : string) (t : ArrowType) : option ScalarValue :=
  let bytes := bytes_of_string value in
  match t with
  | TInt64 => (fun v => Int64 (Some v)) <$> parse_signed (2 ^ 63 - 1) bytes
  | TInt32 => (fun v => Int32 (Some v)) <$> parse_signed (2 ^ 31 - 1) bytes
  | TInt16 => (fun v => Int16 (Some v)) <$> parse_signed (2 ^ 15 - 1) bytes
  | TInt8 => (fun v => Int8 (Some v)) <$> parse_signed (2 ^ 7 - 1) bytes
  | TUInt64 => (fun v => UInt64 (Some v)) <$> parse_unsigned (2 ^ 64 - 1) bytes
  | TUInt32 => (fun v => UInt32 (Some v)) <$> parse_unsigned (2 ^ 32 - 1) bytes
  | TUInt16 => (fun v => UInt16 (Some v)) <$> parse_unsigned (2 ^ 16 - 1) bytes
  | TUInt8 => (fun v => UInt8 (Some v)) <$> parse_unsigned (2 ^ 8 - 1) bytes
  | TUtf8 | TLargeUtf8 => Some (Utf8 (Some value))
  | TBoolean => (fun b => Boolean (Some b)) <$> parse_bool value
  | TFloat64 => (fun f => Float64 (Some f)) <$> parse_f64 value
  | TFloat32 => (fun f => Float32 (Some f)) <$> parse_f32 value
  | TOther variant =>
      if String.eqb variant "FixedSizeBinary(16)" then
        (fun bytes => Other variant (Some (string_of_bytes bytes))) <$> parse_uuid_bytes value
      else Some (Utf8 (Some value))
  end.

Definition try_pk_bucket_key_from_typed_string (value : string) (t : ArrowType) : option PkBucketKey :=
  parse_string_as_scalar value t ≫= try_pk_bucket_key.

(** ** Merging the overlay into the scan *)

Abbreviation Entry := (TransactionOverlayEntry ScalarValue).

Inductive OverlayError := MissingPrimaryKeyColumn | UnsupportedPrimaryKey | UnreadableCell | NoSuchField.
Abbreviation OverlayResult := (Result OverlayError).

Definition ok_or {A} (e : OverlayError) (o : option A) : OverlayResult A :=
  match o with Some a => Ok a | None => Err e end.

(** One row of [record_batch_to_rows]: the columns in order, the first unreadable cell an error. *)
Fixpoint read_cells `{ArrowScalars} (columns : list (string * ArrowArray)) (i : nat) (values : Row) : OverlayResult Row :=
  match columns with
  | [] => Ok values
  | (name, a) :: rest =>
      let? value := ok_or UnreadableCell (try_from_array a i) in
      read_cells rest i (<[name := value]> values)
  end.

Fixpoint read_rows `{ArrowScalars} (columns : list (string * ArrowArray)) (indices : list nat) : OverlayResult (list Row) :=
  match indices with
  | [] => Ok []
  | i :: rest =>
      let? row := read_cells columns i ∅ in
      let? rows := read_rows columns rest in
      Ok (row :: rows)
  end.

Definition record_batch_to_rows `{ArrowScalars} (b : RecordBatch) : OverlayResult (list Row) :=
  read_rows (zip (batch_schema b) (batch_columns b)) (seq 0 (num_rows b)).

Definition extract_primary_key (row : Row) (primary_key_column : string) : OverlayResult PkBucketKey :=
  match row !! primary_key_column with
  | None => Err MissingPrimaryKeyColumn
  | Some value => ok_or UnsupportedPrimaryKey (try_pk_bucket_key value)
  end.

(** [rows] and [row_index_by_pk]. *)
Record MergeState := mkMerge { ms_rows : list (option Row); row_index_by_pk : gmap PkBucketKey nat }.

Definition merge_scanned_row (st : MergeState) (row : Row) (k : PkBucketKey) : MergeState :=
  match row_index_by_pk st !! k with
  | Some i => mkMerge (<[i := Some row]> (ms_rows st)) (row_index_by_pk st)
  | None => mkMerge (ms_rows st ++ [Some row]) (<[k := length (ms_rows st)]> (row_index_by_pk st))
  end.

Fixpoint merge_rows_into (st : MergeState) (rows : list Row) (primary_key_column : string) : OverlayResult MergeState :=
  match rows with
  | [] => Ok st
  | row :: rest =>
      let? k := extract_primary_key row primary_key_column in
      merge_rows_into (merge_scanned_row st row k) rest primary_key_column
  end.

Definition merge_batch_into_rows `{ArrowScalars} (st : MergeState) (b : RecordBatch) (primary_key_column : string) :
    OverlayResult MergeState :=
  let? rows := record_batch_to_rows b in merge_rows_into st rows primary_key_column.

(** The batches of every partition, one after the other. *)
Fixpoint merge_batches `{ArrowScalars} (st : MergeState) (batches : list RecordBatch) (primary_key_column : string) :
    OverlayResult MergeState :=
  match batches with
  | [] => Ok st
  | b :: rest => let? st := merge_batch_into_rows st b primary_key_column in merge_batches st rest primary_key_column
  end.

Definition fill_missing_deleted_flag (row : Row) : Row :=
  match row !! DELETED with
  | Some value => if is_null value then <[DELETED := Boolean (Some false)]> row else row
  | None => <[DELETED := Boolean (Some false)]> row
  end.

Definition merge_row (base overlay : Row) : Row :=
  fill_missing_deleted_flag
    (map_fold (fun column value row => if String.eqb column VERSION then row else <[column := value]> row) base overlay).

Definition overlay_payload_without_invented_version (payload : Row) : Row :=
  fill_missing_deleted_flag (delete VERSION payload).

(** The first loop: every scanned row, with the entry of its key if there is one. *)
Definition overlay_scanned_row (entries : gmap ScopedPkKey Entry) (scope : option UserId) (rows : list (option Row))
    (ki : PkBucketKey * nat) : list (option Row) :=
  match entries !! mkScopedPkKey scope (pk_display ki.1) with
  | None => rows
  | Some entry =>
      if is_deleted entry then <[ki.2 := None]> rows
      else
        match rows !! ki.2 with
        | Some (Some row) => <[ki.2 := Some (merge_row row (oe_payload entry))]> rows
        | _ => rows
        end
  end.

(** [overlay_user_scope.is_none_or(..)]. *)
Definition in_scope (scope : option UserId) (e : Entry) : bool :=
  match scope with None => true | Some u => bool_decide (oe_user_id e = Some u) end.

(** The entries the transaction inserted into this scope, in the order of their mutations. *)
Definition inserted_entries (entries : gmap ScopedPkKey Entry) (keys : gset ScopedPkKey) (scope : option UserId) : list Entry :=
  sort_by (fun a b => oe_mutation_order a <=? oe_mutation_order b)
    (filter (fun e => in_scope scope e = true)
       (omap (fun k => entries !! k) (elements keys))).

(** The second loop. *)
Fixpoint append_inserted (pk_type : ArrowType) (st : MergeState) (inserted : list Entry) : OverlayResult MergeState :=
  match inserted with
  | [] => Ok st
  | e :: rest =>
      let? k := ok_or UnsupportedPrimaryKey (try_pk_bucket_key_from_typed_string (oe_primary_key e) pk_type) in
      append_inserted pk_type
        (if decide (is_Some (row_index_by_pk st !! k)) then st
         else mkMerge (ms_rows st ++ [Some (overlay_payload_without_invented_version (oe_payload e))])
                (<[k := length (ms_rows st)]> (row_index_by_pk st)))
        rest
  end.

Definition apply_overlay (schema : list (string * ArrowType)) (t : TableId) (primary_key_column : string)
    (overlay : option (TransactionOverlay ScalarValue)) (scope : option UserId) (st : MergeState) : OverlayResult MergeState :=
  match overlay ≫= fun ov => pair ov <$> table_entries ov t with
  | None => Ok st
  | Some (ov, entries) =>
      let rows := foldl (overlay_scanned_row entries scope) (ms_rows st) (map_to_list (row_index_by_pk st)) in
      let st := mkMerge rows (row_index_by_pk st) in
      match inserted_entries entries (default ∅ (inserted_keys ov !! t)) scope with
      | [] => Ok st
      | inserted =>
          let? field := ok_or NoSuchField (find (fun f => String.eqb f.1 primary_key_column) schema) in
          append_inserted field.2 st inserted
      end
  end.

(** [finalize_overlay_rows] up to the call of [json_rows_to_arrow_batch]. *)
Definition merged_rows (schema : list (string * ArrowType)) (t : TableId) (primary_key_column : string)
    (overlay : option (TransactionOverlay ScalarValue)) (scope : option UserId) (st : MergeState) (fetch : option nat) :
    OverlayResult (list Row) :=
  let? st := apply_overlay schema t primary_key_column overlay scope st in
  let rows := omap id (ms_rows st) in
  Ok (match fetch with Some n => take n rows | None => rows end).

(** [merge_partitions_with_overlay] up to the same call. *)
Definition transaction_scan `{ArrowScalars} (schema : list (string * ArrowType)) (t : TableId)
    (primary_key_column : string) (overlay : option (TransactionOverlay ScalarValue)) (scope : option UserId)
    (batches : list RecordBatch) (fetch : option nat) : OverlayResult (list Row) :=
  let? st := merge_batches (mkMerge [] ∅) batches primary_key_column in
  merged_rows schema t primary_key_column overlay scope st fetch.

(** ** What the statement should read *)

Definition has_key (primary_key_column : string) (k : PkBucketKey) (row : Row) : bool :=
  match extract_primary_key row primary_key_column with Ok k' => bool_decide (k' = k) | Err _ => false end.

(** The last of the scanned rows that has key [k]. *)
Definition base_row (rows : list Row) (primary_key_column : string) (k : PkBucketKey) : option Row :=
  last (filter (fun row => has_key primary_key_column k row = true) rows).

(** A row that is shown is not deleted: an absent or null [_deleted] reads false. *)
Definition shown (row : Row) : Row :=
  partial_alter (fun flag => Some (match flag with
                                   | Some value => if is_null value then Boolean (Some false) else value
                                   | None => Boolean (Some false)
                                   end)) DELETED row.

(** Executing one staged mutation on a row; [_version] is not the statement's to set. *)
Definition exec_mutation (cur : option Row) (e : Entry) : option Row :=
  if is_deleted e then None
  else
    match oe_operation_kind e with
    | Update => (fun row => shown (delete VERSION (oe_payload e) ∪ row)) <$> cur
    | _ => Some (shown (delete VERSION (oe_payload e)))
    end.

(** The row keeps the version it has in the base table; a new row has none. *)
Definition with_base_version (base : option Row) (row : Row) : Row :=
  match base ≫= fun b => b !! VERSION with
  | Some v => <[VERSION := v]> row
  | None => delete VERSION row
  end.

(** The base row after the staged mutations of its key, one after the other. *)
Definition read_after (base : option Row) (es : list Entry) : option Row :=
  match es with
  | [] => base
  | _ => with_base_version base <$> foldl exec_mutation base es
  end.

(** No UPDATE is staged for a row the transaction has deleted. *)
Fixpoint no_update_of_deleted (gone : bool) (es : list Entry) : Prop :=
  match es with
  | [] => True
  | e :: rest =>
      (gone = true -> is_deleted e = false -> oe_operation_kind e ≠ Update) /\ no_update_of_deleted (is_deleted e) rest
  end.

(** An INSERT names every column of the table, so in particular those of a row it replaces. *)
Definition covers_columns (base : option Row) (e : Entry) : Prop :=
  forall b, base = Some b -> is_deleted e = false -> oe_operation_kind e = Insert ->
    dom b ∖ {[VERSION]} ⊆ dom (oe_payload e).

(** A scan of an unscoped table reads unscoped keys, a scan for a user the keys of that user. *)
Definition scope_fits (scope : option UserId) (tt : TableType) : Prop :=
  match scope with
  | None => tt = Shared \/ tt = System
  | Some _ => tt = User \/ tt = Stream
  end.

(** The range of the integers of a type. *)
Definition in_range (v : ScalarValue) : Prop :=
  match v with
  | Int8 (Some i) => - 2 ^ 7 <= i < 2 ^ 7
  | Int16 (Some i) => - 2 ^ 15 <= i < 2 ^ 15
  | Int32 (Some i) => - 2 ^ 31 <= i < 2 ^ 31
  | Int64 (Some i) => - 2 ^ 63 <= i < 2 ^ 63
  | UInt8 (Some u) => 0 <= u < 2 ^ 8
  | UInt16 (Some u) => 0 <= u < 2 ^ 16
  | UInt32 (Some u) => 0 <= u < 2 ^ 32
  | UInt64 (Some u) => 0 <= u < 2 ^ 64
  | _ => True
  end.

(** [k] is the key of a value of type [t]. *)
Definition key_of_type (t : ArrowType) (k : PkBucketKey) : Prop :=
  exists v, scalar_type v = Some t /\ in_range v /\ try_pk_bucket_key v = Some k.

(** ** Keys and their text *)

Lemma int_text_unsigned max u :
  0 <= u <= max -> max < 2 ^ 64 -> parse_unsigned max (bytes_of_string (int_text u)) = Some u.
Proof.
  intros Hu Hmax. unfold int_text. rewrite (proj2 (Z.ltb_ge u 0)) by lia.
  destruct (dec_digits_value 20 u) as (Hd & Hv & Hne).
  { split; [lia|]. apply Z.le_lt_trans with (2 ^ 64); [lia|reflexivity]. }
  specialize (Hne ltac:(lia)). fold (decimal u) in *.
  rewrite bytes_string_bytes by by apply decimal_bytes.
  rewrite parse_unsigned_digits by (done || lia). by rewrite Hv.
Qed.

Lemma hex_pairs_byte b rest :
  0 <= b < 256 -> hex_pairs (hex_byte b ++ rest) = b :: hex_pairs rest /\
  forallb is_ascii_hexdigit (hex_byte b) = true /\ Forall (fun x => x ≠ 45 /\ 0 <= x < 256) (hex_byte b).
Proof.
  intros Hb. cbn [hex_byte app hex_pairs].
  assert (Z.lor (Z.shiftl (hex_nibble (hex_digit (Z.shiftr b 4))) 4) (hex_nibble (hex_digit (Z.land b 15))) = b /\
    forallb is_ascii_hexdigit (hex_byte b) = true /\ Forall (fun x => x ≠ 45 /\ 0 <= x < 256) (hex_byte b)) as (-> & ? & ?);
    [|done].
  assert (forallb (fun n => let b := Z.of_nat n in
    (Z.lor (Z.shiftl (hex_nibble (hex_digit (Z.shiftr b 4))) 4) (hex_nibble (hex_digit (Z.land b 15))) =? b) &&
    forallb is_ascii_hexdigit (hex_byte b) &&
    forallb (fun x => negb (x =? 45) && (0 <=? x) && (x <? 256)) (hex_byte b)) (seq 0 256) = true) as Hall
    by (vm_compute; reflexivity).
  rewrite forallb_forall in Hall. specialize (Hall (Z.to_nat b)). cbv zeta in Hall.
  rewrite Z2Nat.id in Hall by lia. rewrite !andb_true_iff, Z.eqb_eq in Hall.
  destruct Hall as [[H1 H2] H3]; [apply in_seq; lia|]. split_and!; [done..|].
  apply Forall_forall. intros x Hx. rewrite forallb_forall in H3. apply list_elem_of_In in Hx. specialize (H3 x Hx).
  rewrite !andb_true_iff, negb_true_iff, Z.eqb_neq, Z.leb_le, Z.ltb_lt in H3. lia.
Qed.

Lemma hex_text bytes :
  Forall (fun b => 0 <= b < 256) bytes ->
  hex_pairs (mjoin (hex_byte <$> bytes)) = bytes /\
  forallb is_ascii_hexdigit (mjoin (hex_byte <$> bytes)) = true /\
  Forall (fun x => x ≠ 45 /\ 0 <= x < 256) (mjoin (hex_byte <$> bytes)).
Proof.
  induction 1 as [|b bytes Hb _ (IH1 & IH2 & IH3)]; [done|].
  change (mjoin (hex_byte <$> b :: bytes)) with (hex_byte b ++ mjoin (hex_byte <$> bytes)).
  destruct (hex_pairs_byte b (mjoin (hex_byte <$> bytes)) Hb) as (-> & H2 & H3).
  rewrite IH1, forallb_app, H2, IH2, Forall_app. done.
Qed.

Lemma bytes_of_string_range s : Forall (fun b => 0 <= b < 256) (bytes_of_string s).
Proof.
  apply Forall_forall. intros b (a & -> & _)%list_elem_of_fmap. unfold byte_of.
  pose proof (N_ascii_bounded a). lia.
Qed.

Lemma uuid_text_parse bytes text :
  Forall (fun b => 0 <= b < 256) bytes -> uuid_pk_text bytes = Some text -> parse_uuid_bytes text = Some bytes.
Proof.
  intros Hb. unfold uuid_pk_text. destruct (Nat.eqb_spec (length bytes) 16) as [Hlen|]; [|done].
  cbn [negb]. cbv zeta. intros <-%(inj Some).
  pose proof (fun i n => hex_text _ (Forall_take _ n _ (Forall_drop _ i _ Hb))) as Hg.
  destruct (hex_text bytes Hb) as (Hp & Hd & Hr).
  assert (forall i n, Forall (fun x => 0 <= x < 256) (mjoin (hex_byte <$> take n (drop i bytes)))) as Hrange.
  { intros i n. destruct (Hg i n) as (_ & _ & H). eapply Forall_impl; [exact H|]. by intros x [_ ?]. }
  assert (Forall (fun x => 0 <= x < 256) [45]) as Hdash by (constructor; [lia|done]).
  unfold parse_uuid_bytes. rewrite bytes_string_bytes by (rewrite !Forall_app; split_and!; done || apply Hrange).
  rewrite !filter_app.
  assert (forall i n, filter (fun b => b ≠ 45) (mjoin (hex_byte <$> take n (drop i bytes))) =
                      mjoin (hex_byte <$> take n (drop i bytes))) as Hf.
  { intros i n. apply filter_all. destruct (Hg i n) as (_ & _ & H). rewrite Forall_forall in H. intros x Hx. by destruct (H x Hx). }
  rewrite !Hf. change (filter (fun b => b ≠ 45) [45]) with (@nil Z). cbn [app].
  assert (mjoin (hex_byte <$> take 4 (drop 0 bytes)) ++ mjoin (hex_byte <$> take 2 (drop 4 bytes)) ++
          mjoin (hex_byte <$> take 2 (drop 6 bytes)) ++ mjoin (hex_byte <$> take 2 (drop 8 bytes)) ++
          mjoin (hex_byte <$> take 6 (drop 10 bytes)) = mjoin (hex_byte <$> bytes)) as ->.
  { do 16 (destruct bytes as [|? bytes]; [done|]). destruct bytes; [done|done]. }
  rewrite Hd, Hp.
  assert (length (mjoin (hex_byte <$> bytes)) = 32%nat) as ->; [|done].
  do 16 (destruct bytes as [|? bytes]; [done|]). destruct bytes; [done|done].
Qed.

(** The text of the key of a value parses back to the key. *)
Lemma typed_string_key t k : key_of_type t k -> try_pk_bucket_key_from_typed_string (pk_display k) t = Some k.
Proof.
  intros (v & Ht & Hr & Hk). unfold try_pk_bucket_key_from_typed_string.
  destruct v as [|[b|]|[f|]|[f|]|[i|]|[i|]|[i|]|[i|]|[i|]|[i|]|[i|]|[i|]|[s|]|[s|]|w [s|]]; cbn in Ht, Hk; try done;
    injection Ht as <-; cbn [in_range] in Hr.
  1: injection Hk as <-; by destruct b.
  1-4: injection Hk as <-; cbn [pk_display parse_string_as_scalar]; by rewrite parse_signed_text by lia.
  1-4: injection Hk as <-; cbn [pk_display parse_string_as_scalar]; by rewrite int_text_unsigned by lia.
  1-2: by injection Hk as <-.
  destruct (String.eqb_spec w "Utf8View") as [->|_]; [by injection Hk as <-|].
  destruct (String.eqb_spec w "FixedSizeBinary(16)") as [->|_]; [|done].
  destruct (uuid_pk_text (bytes_of_string s)) as [text|] eqn:E; [|done]. injection Hk as <-.
  cbn [pk_display parse_string_as_scalar]. change (String.eqb "FixedSizeBinary(16)" "FixedSizeBinary(16)") with true.
  cbn iota. rewrite (uuid_text_parse _ _ (bytes_of_string_range s) E). cbn [fmap option_fmap option_map mbind option_bind].
  cbn [try_pk_bucket_key]. cbn. rewrite bytes_string_bytes by apply bytes_of_string_range. by rewrite E.
Qed.

(** ** Rows *)

Lemma shown_fill row : fill_missing_deleted_flag row = shown row.
Proof.
  unfold fill_missing_deleted_flag, shown. apply map_eq. intros c.
  destruct (decide (c = DELETED)) as [->|Hc].
  - rewrite lookup_partial_alter_eq. destruct (row !! DELETED) as [v|] eqn:E; [|by rewrite lookup_insert_eq].
    destruct (is_null v); [by rewrite lookup_insert_eq|done].
  - rewrite lookup_partial_alter_ne by done. destruct (row !! DELETED) as [v|]; [|by rewrite lookup_insert_ne].
    destruct (is_null v); [by rewrite lookup_insert_ne|done].
Qed.

Lemma merge_row_spec base overlay : merge_row base overlay = shown (delete VERSION overlay ∪ base).
Proof.
  unfold merge_row. rewrite shown_fill. f_equal.
  apply (map_fold_weak_ind (fun r m => r = delete VERSION m ∪ base)).
  - by rewrite delete_empty, (left_id_L ∅ (∪)).
  - intros c v m r Hc ->. destruct (String.eqb_spec c VERSION) as [->|Hne].
    + by rewrite delete_insert_eq, (delete_id m).
    + by rewrite delete_insert_ne, insert_union_l by done.
Qed.

Lemma shown_union p r : shown (p ∪ shown r) = shown (p ∪ r).
Proof.
  unfold shown. apply map_eq. intros c. destruct (decide (c = DELETED)) as [->|Hc].
  - rewrite !lookup_partial_alter_eq, !lookup_union, lookup_partial_alter_eq.
    destruct (p !! DELETED) as [v|]; [by destruct (r !! DELETED)|].
    destruct (r !! DELETED) as [w|] eqn:E; cbn; [|done]. by destruct (is_null w) eqn:En; rewrite ?En.
  - rewrite !lookup_partial_alter_ne by done. by rewrite !lookup_union, lookup_partial_alter_ne.
Qed.

Lemma shown_delete_version row : delete VERSION (shown row) = shown (delete VERSION row).
Proof. unfold shown. by rewrite delete_partial_alter_ne. Qed.

(** ** One key: the folded entry against the sequence of mutations *)

(** What the two loops make of a key with the given scanned row and overlay entry. *)
Definition reader_row (base : option Row) (cur : option Entry) : option Row :=
  match cur with
  | None => base
  | Some e =>
      if is_deleted e then None
      else
        match base with
        | Some b => Some (merge_row b (oe_payload e))
        | None =>
            if decide (oe_operation_kind e = Insert) then Some (overlay_payload_without_invented_version (oe_payload e))
            else None
        end
  end.

(** The sequential row and the folded entry agree but for the version. *)
Definition agrees (base : option Row) (cur : option Entry) (x : option Row) : Prop :=
  delete VERSION <$> x = delete VERSION <$> reader_row base cur /\
  match cur with Some c => covers_columns base c | None => True end.

Lemma union_covered (p b : Row) : dom b ∖ {[VERSION]} ⊆ dom p -> delete VERSION p ∪ delete VERSION b = delete VERSION p.
Proof.
  intros Hd. apply map_eq. intros c. rewrite lookup_union. destruct (decide (c = VERSION)) as [->|Hc].
  - by rewrite !lookup_delete_eq.
  - rewrite !lookup_delete_ne by done. destruct (p !! c) as [v|] eqn:E; [by destruct (b !! c)|].
    destruct (b !! c) as [w|] eqn:Eb; [|done]. exfalso. apply (not_elem_of_dom_2 p c E), Hd.
    apply elem_of_difference. split; [by apply elem_of_dom_2 in Eb|set_solver].
Qed.

Lemma delete_shown_update (p r : Row) :
  delete VERSION (shown (delete VERSION p ∪ r)) = shown (delete VERSION p ∪ delete VERSION r).
Proof. by rewrite shown_delete_version, delete_union, delete_delete_eq. Qed.

(** A staged INSERT shows its payload, whatever the base row. *)
Lemma reader_insert base e :
  is_deleted e = false -> oe_operation_kind e = Insert -> covers_columns base e ->
  delete VERSION <$> reader_row base (Some e) = Some (delete VERSION (shown (delete VERSION (oe_payload e)))).
Proof.
  intros Hd Hk Hc. unfold reader_row. rewrite Hd. destruct base as [b|]; cbn.
  - rewrite merge_row_spec, delete_shown_update, union_covered by by apply Hc.
    by rewrite shown_delete_version, delete_delete_eq.
  - rewrite decide_True by done. cbn. unfold overlay_payload_without_invented_version. by rewrite shown_fill.
Qed.

(** An UPDATE merged into a live entry shows its columns over what the entry shows. *)
Lemma reader_update base c e x :
  is_deleted c = false -> is_deleted e = false -> oe_operation_kind e = Update ->
  delete VERSION <$> x = delete VERSION <$> reader_row base (Some c) ->
  delete VERSION <$> exec_mutation x e = delete VERSION <$> reader_row base (Some (merge_entry (Some c) e)).
Proof.
  intros Hc He Hk Hx. unfold exec_mutation, merge_entry. rewrite Hc, He, Hk.
  unfold reader_row in *. rewrite Hc in Hx.
  assert (is_deleted (set_payload_kind e (oe_payload e ∪ oe_payload c)
            match oe_operation_kind c with Insert => Insert | _ => Update end) = false) as ->.
  { unfold is_deleted in *. cbn. apply orb_false_iff in He as [-> _]. by destruct (oe_operation_kind c). }
  cbn [oe_payload oe_operation_kind set_payload_kind]. destruct base as [b|].
  - destruct x as [x|]; [|done]. cbn in Hx |- *. injection Hx as Hx. f_equal.
    rewrite delete_shown_update, Hx, !merge_row_spec, delete_shown_update.
    by rewrite shown_union, delete_shown_update, delete_union, (assoc_L (∪)).
  - destruct (oe_operation_kind c) eqn:Ec.
    + rewrite !decide_True in * by done. destruct x as [x|]; [|done]. cbn in Hx |- *. injection Hx as Hx. f_equal.
      unfold overlay_payload_without_invented_version in *. rewrite !shown_fill in *.
      by rewrite delete_shown_update, Hx, shown_delete_version, shown_union, delete_union, shown_delete_version,
        delete_union, !delete_delete_eq.
    + rewrite !decide_False in * by done. destruct x; [done|]. done.
    + unfold is_deleted in Hc. rewrite Ec in Hc. by rewrite orb_true_r in Hc.
Qed.

Lemma agrees_step base cur x e :
  agrees base cur x -> covers_columns base e ->
  (forall c, cur = Some c -> is_deleted c = true -> is_deleted e = false -> oe_operation_kind e ≠ Update) ->
  agrees base (Some (merge_entry cur e)) (exec_mutation x e).
Proof.
  intros [Hx Hcur] Hcov Hlive. destruct (is_deleted e) eqn:Ed.
  { unfold agrees, exec_mutation, merge_entry. rewrite Ed. cbn. by rewrite Ed. }
  assert (merge_entry cur e = e -> oe_operation_kind e ≠ Update ->
          agrees base (Some (merge_entry cur e)) (exec_mutation x e)) as Hins.
  { intros -> Hk. assert (oe_operation_kind e = Insert) as Hi.
    { destruct (oe_operation_kind e) eqn:E; [done|done|]. unfold is_deleted in Ed. rewrite E in Ed.
      by rewrite orb_true_r in Ed. }
    split; [|done]. rewrite reader_insert by done. unfold exec_mutation. by rewrite Ed, Hi. }
  destruct cur as [c|].
  - destruct (is_deleted c) eqn:Ec.
    + apply Hins; [unfold merge_entry; by rewrite Ed, Ec|]. by apply (Hlive c).
    + destruct (decide (oe_operation_kind e = Update)) as [Hk|Hk].
      * split; [by apply reader_update|]. intros b Hb _ Hkm. unfold merge_entry in *. rewrite Ed, Ec, Hk in *.
        cbn [oe_payload oe_operation_kind set_payload_kind] in *.
        destruct (oe_operation_kind c) eqn:Ekc; try done. specialize (Hcur b Hb Ec Ekc). set_solver.
      * apply Hins; [|done]. unfold merge_entry. rewrite Ed, Ec. by destruct (oe_operation_kind e).
  - destruct (decide (oe_operation_kind e = Update)) as [Hk|Hk].
    + rewrite merge_entry_None. split; [|done]. unfold exec_mutation, reader_row in *. rewrite Ed, Hk.
      destruct base as [b|], x as [x|]; try done. cbn in *. injection Hx as Hx.
      by rewrite merge_row_spec, !delete_shown_update, Hx.
    + apply Hins; [apply merge_entry_None|done].
Qed.

Lemma merge_entry_deleted (cur : option Entry) (e : Entry) : is_deleted (merge_entry cur e) = is_deleted e.
Proof.
  unfold merge_entry. destruct (is_deleted e) eqn:Ed; [done|]. destruct cur as [c|]; [|done].
  destruct (is_deleted c); [done|]. destruct (oe_operation_kind e) eqn:Ek; [done| |done].
  unfold is_deleted in *. cbn. apply orb_false_iff in Ed as [-> _]. by destruct (oe_operation_kind c).
Qed.

Lemma agrees_fold base es cur x gone :
  agrees base cur x -> Forall (covers_columns base) es -> no_update_of_deleted gone es ->
  (forall c, cur = Some c -> is_deleted c = true -> gone = true) ->
  agrees base (foldl (fun cur e => Some (merge_entry cur e)) cur es) (foldl exec_mutation x es).
Proof.
  revert cur x gone. induction es as [|e es IH]; intros cur x gone Ha Hcov Hno Hgone; [done|].
  apply Forall_cons in Hcov as [He Hcov]. destruct Hno as [Hno Hrest]. cbn [foldl].
  apply (IH _ _ (is_deleted e)); [|done|done|].
  - apply agrees_step; [done|done|]. intros c Hc Hd. apply Hno. by apply (Hgone c).
  - intros c [= <-]. by rewrite merge_entry_deleted.
Qed.

(** The version shown is that of the base row. *)
Lemma reader_version base (e : Entry) r : reader_row base (Some e) = Some r -> r !! VERSION = (base ≫= fun b => b !! VERSION).
Proof.
  unfold reader_row. destruct (is_deleted e); [done|]. destruct base as [b|].
  - intros [= <-]. rewrite merge_row_spec. unfold shown. rewrite lookup_partial_alter_ne by done.
    by rewrite lookup_union_r by apply lookup_delete_eq.
  - case_decide; [|done]. intros [= <-]. unfold overlay_payload_without_invented_version. rewrite shown_fill.
    unfold shown. rewrite lookup_partial_alter_ne by done. apply lookup_delete_eq.
Qed.

Lemma fold_entry_some (es : list Entry) : forall cur e,
  exists c, foldl (fun cur e => Some (merge_entry cur e)) cur (e :: es) = Some c.
Proof. induction es as [|e1 es IH]; intros cur e; [by eexists|]. apply IH. Qed.

Lemma reader_read_after base es :
  Forall (covers_columns base) es -> no_update_of_deleted false es ->
  reader_row base (foldl (fun cur e => Some (merge_entry cur e)) None es) = read_after base es.
Proof.
  intros Hcov Hno. unfold read_after.
  pose proof (agrees_fold base es None base false ltac:(by split) Hcov Hno ltac:(by intros ? [=])) as [Ha _].
  destruct es as [|e0 es0]; [done|].
  assert (exists c, foldl (fun cur e => Some (merge_entry cur e)) None (e0 :: es0) = Some c) as [c Hc].
  { apply fold_entry_some. }
  rewrite Hc in *. clear Hc. generalize dependent (foldl exec_mutation base (e0 :: es0)). intros x Ha.
  destruct x as [x|], (reader_row base (Some c)) as [r|] eqn:E; try done.
  apply reader_version in E. cbn in Ha |- *. injection Ha as Ha. f_equal. unfold with_base_version.
  apply map_eq. intros n. destruct (decide (n = VERSION)) as [->|Hn].
  - rewrite E. destruct (base ≫= _); [by rewrite lookup_insert_eq|by rewrite lookup_delete_eq].
  - rewrite <-(lookup_delete_ne r VERSION n), <-Ha, lookup_delete_ne by done.
    destruct (base ≫= _); [by rewrite lookup_insert_ne|by rewrite lookup_delete_ne].
Qed.

(** ** The merge state lists its keys *)

(** Position [i] of the rows belongs to key [ks !! i] and holds [val] of it. *)
Definition lists_keys (ks : list PkBucketKey) (val : PkBucketKey -> option Row) (st : MergeState) : Prop :=
  NoDup ks /\ ms_rows st = val <$> ks /\ forall k i, row_index_by_pk st !! k = Some i <-> ks !! i = Some k.

Lemma lists_keys_ext ks val val' st :
  lists_keys ks val st -> (forall k, k ∈ ks -> val k = val' k) -> lists_keys ks val' st.
Proof.
  intros (Hnd & Hr & Hi) Heq. split_and!; [done| |done]. rewrite Hr. apply list_fmap_ext.
  intros i k Hk. apply Heq. by eapply list_elem_of_lookup_2.
Qed.

Lemma lists_keys_index ks val st k : lists_keys ks val st -> row_index_by_pk st !! k = None <-> k ∉ ks.
Proof.
  intros (_ & _ & Hi). split.
  - intros Hn (i & Hk)%list_elem_of_lookup. apply Hi in Hk. congruence.
  - intros Hn. destruct (row_index_by_pk st !! k) as [i|] eqn:E; [|done]. apply Hi in E.
    exfalso. apply Hn. by eapply list_elem_of_lookup_2.
Qed.

(** Writing the slot of one key. *)
Lemma lists_keys_write ks val rows idx k i x :
  lists_keys ks val (mkMerge rows idx) -> idx !! k = Some i ->
  lists_keys ks (fun k' => if decide (k' = k) then x else val k') (mkMerge (<[i := x]> rows) idx).
Proof.
  intros (Hnd & Hr & Hi) Hk. split_and!; [done| |done]. cbn in *. apply Hi in Hk. subst rows.
  apply list_eq. intros j. rewrite list_lookup_fmap. destruct (decide (j = i)) as [->|Hj].
  - rewrite Hk. cbn. rewrite decide_True by done. apply list_lookup_insert_eq. rewrite length_fmap.
    by eapply lookup_lt_Some.
  - rewrite list_lookup_insert_ne, list_lookup_fmap by done. destruct (ks !! j) as [k'|] eqn:Ej; [|done]. cbn.
    rewrite decide_False; [done|]. intros ->. apply Hj. by eapply NoDup_lookup.
Qed.

(** Pushing the row of a new key. *)
Lemma lists_keys_push ks val st k x :
  lists_keys ks val st -> k ∉ ks -> val k = Some x ->
  lists_keys (ks ++ [k]) val
    (mkMerge (ms_rows st ++ [Some x]) (<[k := length (ms_rows st)]> (row_index_by_pk st))).
Proof.
  intros (Hnd & Hr & Hi) Hk Hv. split_and!; cbn.
  - apply NoDup_app. split_and!; [done|set_solver|apply NoDup_singleton].
  - rewrite fmap_app, Hr. cbn. by rewrite Hv.
  - assert (length (ms_rows st) = length ks) as -> by (rewrite Hr; apply length_fmap).
    intros k' i. rewrite lookup_insert. case_decide as Heq.
    + subst k'. split.
      * intros [= <-]. by rewrite list_lookup_middle.
      * intros Hl. destruct (decide (i < length ks)%nat) as [Hlt|Hge].
        { rewrite lookup_app_l in Hl by done. exfalso. apply Hk. by eapply list_elem_of_lookup_2. }
        apply lookup_lt_Some in Hl. rewrite length_app in Hl. cbn in Hl. f_equal. lia.
    + rewrite Hi. split.
      * intros Hl. rewrite lookup_app_l; [done|]. by eapply lookup_lt_Some.
      * intros Hl. rewrite lookup_app in Hl. destruct (ks !! i) eqn:E; [done|].
        destruct (i - length ks)%nat; cbn in Hl; [congruence|done].
Qed.

(** After the scan every key holds the last row scanned for it. *)
Lemma merge_rows_into_lists rows c st st' ks seen :
  lists_keys ks (base_row seen c) st -> (forall k, k ∈ ks <-> is_Some (base_row seen c k)) ->
  merge_rows_into st rows c = Ok st' ->
  exists ks', lists_keys ks' (base_row (seen ++ rows) c) st' /\
    forall k, k ∈ ks' <-> is_Some (base_row (seen ++ rows) c k).
Proof.
  revert st ks seen. induction rows as [|row rows IH]; intros st ks seen Hl Hks; cbn [merge_rows_into].
  { intros [= <-]. rewrite app_nil_r. by exists ks. }
  intros (k & Hk & Hst)%result_bind_ok.
  assert (forall k', base_row (seen ++ [row]) c k' = if decide (k' = k) then Some row else base_row seen c k') as Hb.
  { intros k'. unfold base_row. rewrite filter_app, filter_cons.
    assert (has_key c k' row = bool_decide (k = k')) as -> by (unfold has_key; by rewrite Hk).
    destruct (decide (k' = k)) as [->|Hne].
    - rewrite decide_True by by apply bool_decide_true. rewrite filter_nil. by rewrite last_snoc.
    - rewrite decide_False by (rewrite bool_decide_false; [done|congruence]). by rewrite filter_nil, app_nil_r. }
  replace (seen ++ row :: rows) with ((seen ++ [row]) ++ rows) by by rewrite <-(assoc_L (++)).
  unfold merge_scanned_row in Hst. destruct (row_index_by_pk st !! k) as [i|] eqn:Ei.
  - eapply (IH _ ks); [| |exact Hst].
    + eapply lists_keys_ext; [eapply lists_keys_write; [|exact Ei]; destruct st; exact Hl|]. intros k' _. by rewrite Hb.
    + intros k'. rewrite Hb. case_decide as Heq; [subst k'|apply Hks].
      split; [by eexists|]. intros _. destruct Hl as (_ & _ & Hi). eapply list_elem_of_lookup_2. by apply Hi.
  - eapply (IH _ (ks ++ [k])); [| |exact Hst].
    + apply (lists_keys_index _ _ _ _ Hl) in Ei. apply lists_keys_push; [|done|by rewrite Hb, decide_True].
      eapply lists_keys_ext; [exact Hl|]. intros k' Hin. rewrite Hb, decide_False; [done|]. by intros ->.
    + intros k'. rewrite Hb, elem_of_app, list_elem_of_singleton. case_decide as Heq; [subst k'; split; eauto|].
      rewrite Hks. naive_solver.
Qed.

Lemma merge_rows_into_ok rows c st :
  Forall (fun row => is_ok (extract_primary_key row c) = true) rows -> is_ok (merge_rows_into st rows c) = true.
Proof.
  revert st. induction rows as [|row rows IH]; intros st Hr; [done|]. apply Forall_cons in Hr as [Hk Hr].
  cbn [merge_rows_into]. destruct (extract_primary_key row c); [|done]. by apply IH.
Qed.

Lemma merge_rows_into_app rows1 rows2 c st :
  merge_rows_into st (rows1 ++ rows2) c = (let? st := merge_rows_into st rows1 c in merge_rows_into st rows2 c).
Proof.
  revert st. induction rows1 as [|row rows1 IH]; intros st; [done|]. cbn [app merge_rows_into].
  destruct (extract_primary_key row c); [|done]. apply IH.
Qed.

(** The rows of all batches, in order. *)
Fixpoint scanned_rows `{ArrowScalars} (batches : list RecordBatch) : OverlayResult (list Row) :=
  match batches with
  | [] => Ok []
  | b :: rest => let? rows := record_batch_to_rows b in let? more := scanned_rows rest in Ok (rows ++ more)
  end.

Lemma merge_batches_rows `{ArrowScalars} batches c rows st :
  scanned_rows batches = Ok rows -> merge_batches st batches c = merge_rows_into st rows c.
Proof.
  revert rows st. induction batches as [|b batches IH]; intros rows st; cbn [scanned_rows merge_batches].
  { by intros [= <-]. }
  intros (rows1 & E1 & (rows2 & E2 & <-%Ok_inj)%result_bind_ok)%result_bind_ok.
  unfold merge_batch_into_rows. rewrite E1. cbn [result_bind]. rewrite merge_rows_into_app.
  destruct (merge_rows_into st rows1 c); [|done]. cbn [result_bind]. by apply IH.
Qed.

(** ** The two loops *)

(** The entry of a key laid over its scanned row. *)
Definition laid (entries : gmap ScopedPkKey Entry) (scope : option UserId) (k : PkBucketKey) (row : option Row) : option Row :=
  match entries !! mkScopedPkKey scope (pk_display k) with
  | None => row
  | Some e => if is_deleted e then None else (fun r => merge_row r (oe_payload e)) <$> row
  end.

Lemma overlay_scanned_row_lists entries scope ks val rows idx k i :
  lists_keys ks val (mkMerge rows idx) -> idx !! k = Some i ->
  lists_keys ks (fun k' => if decide (k' = k) then laid entries scope k (val k) else val k')
    (mkMerge (overlay_scanned_row entries scope rows (k, i)) idx).
Proof.
  intros Hl Hk. unfold overlay_scanned_row, laid. cbn [fst snd].
  destruct (entries !! mkScopedPkKey scope (pk_display k)) as [e|].
  - destruct (is_deleted e); [by apply lists_keys_write|].
    pose proof Hl as (_ & Hr & Hi). cbn in Hr. apply Hi in Hk as Hki.
    rewrite Hr, list_lookup_fmap, Hki. cbn [fmap option_fmap option_map]. rewrite <-Hr.
    destruct (val k) as [row|] eqn:Ev; cbn [fmap option_fmap option_map]; [by apply lists_keys_write|].
    eapply lists_keys_ext; [exact Hl|]. intros k' _. case_decide; congruence.
  - eapply lists_keys_ext; [exact Hl|]. intros k' _. case_decide; congruence.
Qed.

Lemma overlay_loop_lists entries scope ks idx l : forall val rows,
  lists_keys ks val (mkMerge rows idx) -> NoDup l.*1 -> (forall p, p ∈ l -> idx !! p.1 = Some p.2) ->
  lists_keys ks (fun k => if decide (k ∈ l.*1) then laid entries scope k (val k) else val k)
    (mkMerge (foldl (overlay_scanned_row entries scope) rows l) idx).
Proof.
  induction l as [|[k i] l IH]; intros val rows Hl Hnd Hin; cbn [foldl fmap list_fmap].
  - eapply lists_keys_ext; [exact Hl|]. intros k _. rewrite decide_False; [done|set_solver].
  - apply NoDup_cons in Hnd as [Hni Hnd].
    eapply lists_keys_ext; [apply IH; [|done|set_solver]|].
    + apply overlay_scanned_row_lists; [exact Hl|]. apply (Hin (k, i)). set_solver.
    + intros k' _. cbn [fst] in *. destruct (decide (k' = k)) as [->|Hne].
      * rewrite decide_False by done. by rewrite decide_True by set_solver.
      * destruct (decide (k' ∈ l.*1)); [rewrite decide_True by set_solver|rewrite decide_False by set_solver]; done.
Qed.

Lemma append_inserted_lists ty val inserted : forall ks st,
  lists_keys ks val st ->
  (forall e, e ∈ inserted -> exists k, try_pk_bucket_key_from_typed_string (oe_primary_key e) ty = Some k /\
     (k ∉ ks -> val k = Some (overlay_payload_without_invented_version (oe_payload e)))) ->
  exists ks' st', append_inserted ty st inserted = Ok st' /\ lists_keys ks' val st' /\ ks ⊆ ks' /\
    forall e k, e ∈ inserted -> try_pk_bucket_key_from_typed_string (oe_primary_key e) ty = Some k -> k ∈ ks'.
Proof.
  induction inserted as [|e inserted IH]; intros ks st Hl Hins; cbn [append_inserted].
  { exists ks, st. set_solver. }
  destruct (Hins e) as (k & Hk & Hv); [set_solver|]. rewrite Hk. cbn [ok_or result_bind].
  assert (exists ks1, lists_keys ks1 val (if decide (is_Some (row_index_by_pk st !! k)) then st
            else mkMerge (ms_rows st ++ [Some (overlay_payload_without_invented_version (oe_payload e))])
                   (<[k := length (ms_rows st)]> (row_index_by_pk st))) /\ ks ⊆ ks1 /\ k ∈ ks1) as (ks1 & Hl1 & Hsub & Hin).
  { case_decide as Hi.
    - exists ks. split_and!; [done..|]. destruct (decide (k ∈ ks)) as [|Hn]; [done|].
      apply (lists_keys_index _ _ _ _ Hl) in Hn. rewrite Hn in Hi. by destruct Hi.
    - rewrite <-eq_None_not_Some, (lists_keys_index _ _ _ _ Hl) in Hi. exists (ks ++ [k]).
      split_and!; [apply lists_keys_push; auto|set_solver|set_solver]. }
  destruct (IH ks1 _ Hl1) as (ks' & st' & E & Hl' & Hsub' & Hall).
  { intros e' He'. destruct (Hins e') as (k' & Hk' & Hv'); [set_solver|]. exists k'. split; [done|]. set_solver. }
  exists ks', st'. split_and!; [done..|set_solver|]. intros e' k' [->|He']%elem_of_cons Hk'; [|by eapply Hall].
  rewrite Hk in Hk'. injection Hk' as <-. set_solver.
Qed.

(** ** The visible entries of a table *)

Lemma fold_key_own (t : TableId) (k : ScopedPkKey) (es : list Entry) :
  fold_key t k None es = foldl (fun cur e => Some (merge_entry cur e)) None (filter (fun e => place e = (t, k)) es).
Proof.
  unfold fold_key. generalize (@None Entry). induction es as [|e es IH]; intros cur; [done|]. cbn [foldl].
  rewrite filter_cons. destruct (decide (place e = (t, k))) as [Hp|Hp]; unfold place in Hp.
  - rewrite decide_True by naive_solver. apply IH.
  - rewrite decide_False by naive_solver. apply IH.
Qed.

(** A visible entry has the table type, user and key text of a mutation staged for its place. *)
Lemma fold_key_source (t : TableId) (k : ScopedPkKey) (es : list Entry) cur e :
  fold_key t k cur es = Some e ->
  cur = Some e \/ exists m, m ∈ es /\ place m = (t, k) /\ oe_table_type e = oe_table_type m /\
    oe_user_id e = oe_user_id m /\ oe_primary_key e = oe_primary_key m.
Proof.
  revert cur. induction es as [|m es IH]; intros cur; [by left|]. cbn. intros Hf. apply IH in Hf as [Hf|Hf].
  - case_decide as Hp; [|by left]. right. exists m. injection Hf as <-. split_and!; [set_solver|unfold place; naive_solver|..];
      unfold merge_entry; branches; done.
  - destruct Hf as (m' & Hin & H). right. exists m'. split; [set_solver|done].
Qed.

Section Transaction.
Context `{ArrowScalars} (scalar_size : ScalarValue -> Z).
Context (tx : TransactionId) (ops : list (WriteSetOp ScalarValue)) (t : TableId) (scope : option UserId).
Context (pk_column : string) (pk_type : ArrowType).

Definition tx_writes : TransactionWriteSet ScalarValue := ws_run scalar_size (write_set_new tx) ops.

(** The mutations the transaction staged for key [k] of the table, in order. *)
Definition staged_for (k : PkBucketKey) : list Entry :=
  filter (fun e => place e = (t, mkScopedPkKey scope (pk_display k))) (overlay_entry <$> ordered_mutations tx_writes).

(** Every mutation staged for the table belongs to a scope of its table type and has the text of a
    key of the primary-key column. *)
Definition staged_well : Prop :=
  forall m, m ∈ ordered_mutations tx_writes -> sm_table_id m = t ->
    scope_fits scope (sm_table_type m) /\ exists k, key_of_type pk_type k /\ sm_primary_key m = pk_display k.

Definition entry_for (k : ScopedPkKey) : option Entry :=
  overlay_for_table tx_writes t ≫= fun ov => entry_at ov t k.

Lemma entry_for_fold k : entry_for k = fold_key t k None (overlay_entry <$> ordered_mutations tx_writes).
Proof.
  assert (ws_inv scalar_size tx_writes) as Hws by apply ws_run_inv, write_set_new_inv.
  unfold entry_for. destruct (overlay_for_table tx_writes t) as [ov|] eqn:E; cbn.
  - rewrite (entry_at_cached scalar_size tx_writes t ov) by done. by rewrite decide_True.
  - rewrite (overlay_cache_spec scalar_size) in E by done. rewrite <-fold_key_own_table.
    by destruct (filter (fun m => sm_table_id m = t) _).
Qed.

(** Where a visible entry comes from. *)
Lemma entry_for_source k e :
  staged_well -> entry_for k = Some e ->
  scope_fits scope (oe_table_type e) /\ exists pk, key_of_type pk_type pk /\ oe_primary_key e = pk_display pk.
Proof.
  intros Hw. rewrite entry_for_fold. intros [[=]|(m & Hin & Hp & -> & _ & ->)]%fold_key_source.
  apply list_elem_of_fmap in Hin as (m' & -> & Hin). apply (Hw m' Hin). unfold place in Hp. cbn in Hp. congruence.
Qed.

(** The scoped key of a visible entry of this scope. *)
Lemma entry_scope k e :
  staged_well -> entry_for k = Some e -> for_entry e = k ->
  in_scope scope e = true <-> k = mkScopedPkKey scope (oe_primary_key e).
Proof.
  intros Hw He Hf. destruct (entry_for_source k e Hw He) as [Hs _]. subst k. unfold in_scope, for_entry, scope_fits in *.
  destruct scope as [u|].
  - rewrite bool_decide_eq_true. destruct Hs as [-> | ->]; split; [intros ->; done|by intros [= ->]|intros ->; done|by intros [= ->]].
  - by destruct Hs as [-> | ->].
Qed.

Lemma entry_inserted ov k e :
  overlay_for_table tx_writes t = Some ov -> staged_well -> entry_for k = Some e ->
  e ∈ inserted_entries (default ∅ (table_entries ov t)) (default ∅ (inserted_keys ov !! t)) scope <->
  entry_class e = KInserted /\ k = mkScopedPkKey scope (oe_primary_key e).
Proof.
  intros Hov Hw He. assert (overlay_wf ov) as Hwf.
  { eapply (cached_overlay_wf scalar_size); [|exact Hov]. apply ws_run_inv, write_set_new_inv. }
  assert (forall k', default ∅ (table_entries ov t) !! k' = entry_for k') as Hent.
  { intros k'. unfold entry_for, entry_at, table_entries. rewrite Hov. cbn.
    destruct (entries_by_table ov !! t); [done|apply lookup_empty]. }
  assert (forall k' e', entry_for k' = Some e' -> for_entry e' = k') as Hplace.
  { intros k' e' He'. unfold entry_for in He'. rewrite Hov in He'. cbn in He'. by apply (wf_placed ov Hwf) in He' as [_ ?]. }
  assert (forall k', k' ∈ default ∅ (inserted_keys ov !! t) <-> exists e', entry_for k' = Some e' /\ entry_class e' = KInserted) as Hkeys.
  { intros k'. unfold entry_for. rewrite Hov. cbn. apply (wf_classes ov Hwf KInserted). }
  unfold inserted_entries. rewrite sort_by_perm, list_elem_of_filter, list_elem_of_omap. split.
  - intros (Hs & k' & Hk' & He'). rewrite Hent in He'. rewrite elem_of_elements, Hkeys in Hk'.
    destruct Hk' as (e' & He2 & Hc). rewrite He' in He2. injection He2 as <-. split; [done|].
    apply Hplace in He as <-. apply Hplace in He' as Hk2. subst k'. by apply entry_scope.
  - intros [Hc Hk]. split; [eapply entry_scope; eauto|]. exists k. rewrite Hent. split; [|done].
    rewrite elem_of_elements, Hkeys. eauto.
Qed.

Lemma inserted_class (e : Entry) : entry_class e = KInserted <-> is_deleted e = false /\ oe_operation_kind e = Insert.
Proof. unfold entry_class. destruct (is_deleted e), (oe_operation_kind e); split; (done || by intros [? ?]). Qed.

Lemma entry_for_text k e : entry_for k = Some e -> spk_primary_key k = oe_primary_key e.
Proof.
  rewrite entry_for_fold. intros [[=]|(m & _ & Hpl & _ & _ & ->)]%fold_key_source.
  unfold place, for_entry in Hpl. by injection Hpl as _ <-.
Qed.

(** What the loops leave for every key, for a scan that lists its keys. *)
Lemma apply_overlay_lists schema ks base st :
  (snd <$> find (fun f => String.eqb f.1 pk_column) schema) = Some pk_type -> staged_well ->
  lists_keys ks base st -> (forall k, k ∈ ks <-> is_Some (base k)) ->
  let val k := reader_row (base k) (entry_for (mkScopedPkKey scope (pk_display k))) in
  exists keys st', apply_overlay schema t pk_column (overlay_for_table tx_writes t) scope st = Ok st' /\
    lists_keys keys val st' /\
    forall k, is_Some (base k) \/ key_of_type pk_type k -> is_Some (val k) -> k ∈ keys.
Proof.
  intros Hty Hw Hl Hks val. unfold apply_overlay.
  assert (forall k, entry_for (mkScopedPkKey scope (pk_display k)) = None -> val k = base k) as Hnone
    by (intros k Hn; unfold val; by rewrite Hn).
  destruct (overlay_for_table tx_writes t ≫= fun ov => pair ov <$> table_entries ov t) as [[ov entries]|] eqn:E.
  2: { exists ks, st. assert (forall k, entry_for k = None) as Hn.
    { intros k. unfold entry_for, entry_at. destruct (overlay_for_table tx_writes t) as [ov|]; [|done]. cbn in *.
      unfold table_entries in E. by destruct (entries_by_table ov !! t). }
    split_and!; [done|eapply lists_keys_ext; [exact Hl|]; intros k _; by rewrite Hnone|].
    intros k _ Hv. rewrite Hnone in Hv by done. by apply Hks. }
  destruct (overlay_for_table tx_writes t) as [ov'|] eqn:Hov; [|done]. cbn in E.
  destruct (table_entries ov' t) as [entries'|] eqn:Hent; [|done]. injection E as -> ->.
  assert (forall k, entries !! k = entry_for k) as Hef.
  { intros k. unfold entry_for, entry_at. rewrite Hov. cbn. unfold table_entries in Hent. by rewrite Hent. }
  assert (lists_keys ks val (mkMerge (foldl (overlay_scanned_row entries scope) (ms_rows st)
            (map_to_list (row_index_by_pk st))) (row_index_by_pk st))) as Hl1.
  { eapply lists_keys_ext; [eapply overlay_loop_lists; [destruct st; exact Hl|apply NoDup_fst_map_to_list|]|].
    - intros [k i] Hin. by apply elem_of_map_to_list in Hin.
    - intros k Hin. cbn beta. pose proof (proj1 (Hks k) Hin) as [row Hrow]. pose proof Hl as (_ & _ & Hi).
      rewrite decide_True. 2: { apply list_elem_of_fmap. apply list_elem_of_lookup in Hin as [i Hki].
        exists (k, i). split; [done|]. apply elem_of_map_to_list. by apply Hi. }
      unfold laid, val, reader_row. rewrite Hef, Hrow. destruct (entry_for _) as [e|]; [|done].
      by destruct (is_deleted e). }
  set (inserted := inserted_entries entries (default ∅ (inserted_keys ov !! t)) scope).
  assert (forall k e, entry_for k = Some e -> e ∈ inserted <-> entry_class e = KInserted /\
            k = mkScopedPkKey scope (oe_primary_key e)) as Hinserted.
  { intros k e He. pose proof (entry_inserted ov k e Hov Hw He) as Hi. rewrite Hent in Hi. exact Hi. }
  destruct (append_inserted_lists pk_type val inserted ks _ Hl1) as (keys & st' & E & Hl' & Hsub & Hall).
  { intros e Hin. pose proof Hin as Hin0. unfold inserted, inserted_entries in Hin0.
    rewrite sort_by_perm, list_elem_of_filter, list_elem_of_omap in Hin0. destruct Hin0 as (_ & k' & _ & He).
    rewrite Hef in He. destruct (proj1 (Hinserted k' e He) Hin) as [Hc ->].
    destruct (entry_for_source _ e Hw He) as (_ & k & Hk & Htext). rewrite Htext in *. exists k.
    split; [by apply typed_string_key|]. intros Hni. unfold val. rewrite He. apply inserted_class in Hc as [Hd Hki].
    unfold reader_row. rewrite Hd. destruct (base k) eqn:Eb; [exfalso; apply Hni, Hks; by eexists|].
    by rewrite decide_True. }
  exists keys, st'. split_and!; [|done|].
  { destruct inserted as [|e0 es0]; [exact E|]. destruct (find _ schema) as [f|]; [|done]. cbn in Hty.
    injection Hty as Hty. cbn [ok_or result_bind]. by rewrite Hty. }
  intros k Hk [row Hv]. destruct (base k) as [b|] eqn:Eb.
  { apply Hsub, Hks. by rewrite Eb. }
  destruct Hk as [[? [=]]|Hk]. unfold val in Hv. rewrite Eb in Hv.
  destruct (entry_for (mkScopedPkKey scope (pk_display k))) as [e|] eqn:He; [|done].
  unfold reader_row in Hv. destruct (is_deleted e) eqn:Hd; [done|]. case_decide as Hki; [|done].
  pose proof (entry_for_text _ e He) as Hd'. cbn in Hd'.
  apply (Hall e k); [|rewrite <-Hd'; by apply typed_string_key].
  apply (Hinserted _ e He). rewrite inserted_class, Hd'. done.
Qed.

(** C1. A statement inside a transaction reads the transaction's own writes.  Its scan of a table
    succeeds and returns one row per key, and for every key the row is the one obtained by executing
    the mutations staged for the key, in order, on the committed row (or on no row): an INSERT
    gives its payload, an UPDATE sets its columns and leaves a key without a row alone, a DELETE
    removes the row; [_version] is never taken from a mutation but is that of the committed row, and
    a row that a mutation touched has a [_deleted] flag.  No key with such a row is left out (a
    fetch limit cuts the list).  Conditions: every scanned row has a usable key, the key texts were
    made from values of the key column, user tables are scanned for a user and shared ones for none,
    no UPDATE was staged for a row the transaction had deleted, and an INSERT that replaces a
    committed row names all its columns. *)
Theorem transaction_reads_own_writes schema batches rows fetch :
  scanned_rows batches = Ok rows ->
  Forall (fun row => is_ok (extract_primary_key row pk_column) = true) rows ->
  (snd <$> find (fun f => String.eqb f.1 pk_column) schema) = Some pk_type -> staged_well ->
  (forall k, no_update_of_deleted false (staged_for k)) ->
  (forall k, Forall (covers_columns (base_row rows pk_column k)) (staged_for k)) ->
  let seen k := read_after (base_row rows pk_column k) (staged_for k) in
  exists keys, NoDup keys /\
    transaction_scan schema t pk_column (overlay_for_table tx_writes t) scope batches fetch =
      Ok (match fetch with Some n => take n (omap seen keys) | None => omap seen keys end) /\
    forall k, is_Some (base_row rows pk_column k) \/ key_of_type pk_type k -> is_Some (seen k) -> k ∈ keys.
Proof.
  intros Hrows Hok Hty Hw Hno Hcov seen. unfold transaction_scan. rewrite (merge_batches_rows _ _ _ _ Hrows).
  pose proof (merge_rows_into_ok rows pk_column (mkMerge [] ∅) Hok) as Hst.
  destruct (merge_rows_into (mkMerge [] ∅) rows pk_column) as [st|] eqn:E; [|done]. cbn [result_bind].
  destruct (merge_rows_into_lists rows pk_column (mkMerge [] ∅) st [] []) as (ks & Hl & Hks); [| |exact E|].
  { split_and!; [constructor|done|]. intros k i. cbn. by rewrite lookup_empty. }
  { intros k. cbn. split; [set_solver|by intros [? [=]]]. }
  cbn [app] in Hl, Hks.
  destruct (apply_overlay_lists schema ks _ st Hty Hw Hl Hks) as (keys & st' & Ea & (Hnd & Hr & _) & Hall).
  assert (forall k, reader_row (base_row rows pk_column k) (entry_for (mkScopedPkKey scope (pk_display k))) = seen k) as Hseen.
  { intros k. unfold seen. rewrite entry_for_fold, fold_key_own. by apply reader_read_after. }
  exists keys. unfold merged_rows. rewrite Ea. cbn [result_bind]. split_and!; [done| |].
  - assert (omap id (ms_rows st') = omap seen keys) as ->; [|done]. rewrite Hr. clear -Hseen.
    induction keys as [|k keys IH]; [done|]. cbn. rewrite Hseen. destruct (seen k); cbn; by rewrite IH.
  - intros k Hk Hs. apply Hall; [done|]. by rewrite Hseen.
Qed.

End Transaction.

End Keys.

(** ** A concrete transaction *)

Module OverlayExecWitness.

#[local] Existing Instance VersionMergeWitness.scalars.

Definition no_float (_ : string) : option spec_float := None.

(** One committed row; the transaction updates it and inserts another, and both statements carry a
    version of their own. *)
Definition schema : list (string * ArrowType) := [("id", TInt64); ("_version", TInt64); ("name", TUtf8)]%string.
Definition base : RecordBatch :=
  mkBatch ["id"; "_version"; "name"]%string
    [mkArray TInt64 [Int64 (Some 1)]; mkArray TInt64 [Int64 (Some 42)]; mkArray TUtf8 [Utf8 (Some "before"%string)]] 1.
Definition items : TableId := mkTableId "app" "items".
Definition mutation (kind : OperationKind) (pk : string) (payload : gmap string ScalarValue) : StagedMutation ScalarValue :=
  mutation_new "tx" items Shared None kind pk payload false.
Definition update1 : gmap string ScalarValue :=
  <["name" := Utf8 (Some "after"%string)]> (<["_version" := Int64 (Some 99)]> ∅).
Definition insert2 : gmap string ScalarValue :=
  <["id" := Int64 (Some 2)]> (<["name" := Utf8 (Some "inserted"%string)]> (<["_version" := Int64 (Some 7)]> ∅)).
Definition statements : list (WriteSetOp ScalarValue) := [OpStage (mutation Update "1" update1); OpStage (mutation Insert "2" insert2)].
Definition size (_ : ScalarValue) : Z := 16.

Definition scanned : list (gmap string ScalarValue) :=
  [<["name" := Utf8 (Some "before"%string)]> (<["_version" := Int64 (Some 42)]> (<["id" := Int64 (Some 1)]> ∅))].

Lemma ordered : ordered_mutations (tx_writes size "tx" statements) =
  [with_order (mutation Update "1" update1) 0; with_order (mutation Insert "2" insert2) 1].
Proof. reflexivity. Qed.

Lemma live_updates (es : list (TransactionOverlayEntry ScalarValue)) :
  Forall (fun e => is_deleted e = false) es -> no_update_of_deleted false es.
Proof. induction 1 as [|e es He Hes IH]; [done|]. split; [done|]. by rewrite He. Qed.

Lemma staged_for_all (P : TransactionOverlayEntry ScalarValue -> Prop) k :
  Forall P (overlay_entry <$> ordered_mutations (tx_writes size "tx" statements)) ->
  Forall P (staged_for size "tx" statements items None k).
Proof. rewrite !Forall_forall. intros HP e [_ He]%list_elem_of_filter. by apply HP. Qed.

Lemma own_live k : Forall (fun e => is_deleted e = false) (staged_for size "tx" statements items None k).
Proof. apply staged_for_all. rewrite ordered. by repeat constructor. Qed.

Lemma own_covers k :
  Forall (covers_columns (base_row scanned "id" k)) (staged_for size "tx" statements items None k).
Proof.
  apply staged_for_all. rewrite ordered. repeat constructor; intros b Hb _ Hk; [done|].
  unfold base_row in Hb. apply last_Some_elem_of in Hb. apply list_elem_of_filter in Hb as [_ Hb].
  apply list_elem_of_singleton in Hb as ->. cbn [with_order mutation mutation_new overlay_entry oe_payload sm_payload].
  unfold insert2. rewrite !dom_insert_L. set_solver.
Qed.

Lemma staged : staged_well size "tx" statements items None TInt64.
Proof.
  intros m Hm _. rewrite ordered in Hm. rewrite !elem_of_cons, elem_of_nil in Hm.
  destruct Hm as [->|[->|[]]]; (split; [by left|]).
  - exists (PkInt 1). split; [exists (Int64 (Some 1)); split_and!; [done|cbn; lia|done]|reflexivity].
  - exists (PkInt 2). split; [exists (Int64 (Some 2)); split_and!; [done|cbn; lia|done]|reflexivity].
Qed.

Lemma transaction_reads_own_writes_witness :
  exists out, transaction_scan no_float no_float schema items "id"
      (overlay_for_table (tx_writes size "tx" statements) items) None [base] None = Ok out /\
    (exists row, row ∈ out /\ row !! "name"%string = Some (Utf8 (Some "after"%string)) /\
       row !! "_version"%string = Some (Int64 (Some 42))) /\
    exists row, row ∈ out /\ row !! "name"%string = Some (Utf8 (Some "inserted"%string)) /\ row !! "_version"%string = None.
Proof.
  destruct (transaction_reads_own_writes no_float no_float size "tx" statements items None "id" TInt64 schema [base]
              scanned None) as (keys & _ & E & Hall).
  - reflexivity.
  - by repeat constructor.
  - reflexivity.
  - apply staged.
  - intros k. apply live_updates, own_live.
  - apply own_covers.
  - eexists. split; [exact E|].
    assert (forall k row, key_of_type TInt64 k ->
      read_after (base_row scanned "id" k) (staged_for size "tx" statements items None k) = Some row ->
      row ∈ omap (fun k => read_after (base_row scanned "id" k) (staged_for size "tx" statements items None k)) keys) as Hin.
    { intros k row Hk Hrow. apply list_elem_of_omap. exists k. split; [|done]. apply Hall; [by right|by exists row]. }
    split.
    + destruct (read_after (base_row scanned "id" (PkInt 1)) (staged_for size "tx" statements items None (PkInt 1)))
        as [row|] eqn:Er; [|vm_compute in Er; discriminate]. exists row. split.
      * apply (Hin (PkInt 1)); [|exact Er]. exists (Int64 (Some 1)). split_and!; [done|cbn; lia|done].
      * vm_compute in Er. injection Er as <-. split; reflexivity.
    + destruct (read_after (base_row scanned "id" (PkInt 2)) (staged_for size "tx" statements items None (PkInt 2)))
        as [row|] eqn:Er; [|vm_compute in Er; discriminate]. exists row. split.
      * apply (Hin (PkInt 2)); [|exact Er]. exists (Int64 (Some 2)). split_and!; [done|cbn; lia|done].
      * vm_compute in Er. injection Er as <-. split; reflexivity.
Defined.

End OverlayExecWitness.
