(* ===== verification/StreamMemory.v ===== *)
(** * StreamMemory: the in-memory log of a stream table

    kalamdb-streams/src/memory_store.rs and record.rs, with the row and key types of
    kalamdb-commons.  The store is a [BTreeMap] from (user, timestamp, version bytes) to records
    and a count of records per user, which bounds what each user keeps.  The lock around the state
    is held for the whole of each operation; a poisoned lock is not modelled. *)

From Stdlib Require Import ZArith Lia Sorted.
From stdpp Require Import base strings gmap list sets.
From S2P Require Import Prelude Commons Ids Scalars BTree Protocol.
Import Version BigEndian.

Open Scope Z_scope.
Open Scope kalam_scope.

(** ** Rows, records and keys *)

Record StreamTableRowId := mkRowId { ri_user_id : UserId; ri_version : VersionId }.

#[export] Instance StreamTableRowId_eq_dec : EqDecision StreamTableRowId.
Proof. solve_decision. Defined.
#[export] Instance StreamTableRowId_countable : Countable StreamTableRowId.
Proof.
  apply (inj_countable' (fun r => (ri_user_id r, ri_version r)) (fun p => mkRowId p.1 p.2)). by intros [].
Defined.

Record StreamTableRow := mkStreamRow {
  sr_user_id : UserId;
  sr_version : VersionId;
  sr_timestamp : Z;
  sr_fields : gmap string ScalarValue
}.

Inductive StreamLogRecord :=
| LogPut (row_id : StreamTableRowId) (row : StreamTableRow)
| LogDelete (row_id : StreamTableRowId) (timestamp : Z).

Inductive StreamLogError := StreamIo (m : string) | StreamSerialization (m : string) | StreamInvalidInput (m : string).
Abbreviation StreamResult := (Result StreamLogError).

Abbreviation RowKey := (UserId * Z * list Z)%type.

Definition key_user (k : RowKey) : UserId := k.1.1.
Definition key_ts (k : RowKey) : Z := k.1.2.

(** The derived order of the key tuple. *)
Definition key_compare : RowKey -> RowKey -> comparison := lex_compare (lex_compare str_compare Z.compare) bytes_compare.

Abbreviation Entry := (RowKey * StreamLogRecord)%type.
Abbreviation by_row_key := (by_key (V := StreamLogRecord) key_compare).

Record MemoryStoreState := mkMem {
  mem_data : list Entry;
  per_user_entry_counts : gmap UserId nat
}.

Record MemoryStreamLogStore := mkMemStore {
  ms_max_rows_per_user : nat;
  ms_table_id : TableId;
  ms_state : MemoryStoreState
}.

Definition DEFAULT_MAX_ROWS_PER_USER : nat := 256.

Definition with_table_id_and_limit (t : TableId) (max_rows : nat) : MemoryStreamLogStore :=
  mkMemStore max_rows t (mkMem [] ∅).

Definition make_key_with_timestamp (row_id : StreamTableRowId) (timestamp_millis : Z) : RowKey :=
  (ri_user_id row_id, Z.max timestamp_millis 0, be_bytes 8 (ri_version row_id)).

Definition version_from_key (version_bytes : list Z) : Z := from_be version_bytes.

Definition user_range_bounds (u : UserId) : RowKey * RowKey :=
  ((u, 0, repeat 0 8), (u, u64_max, repeat 255 8)).

Definition ensure_table (own t : TableId) : StreamResult unit :=
  if decide (t = own) then Ok tt else Err (StreamInvalidInput "stream log store configured for another table").

(** ** Writing *)

Definition decrement_user_count (counts : gmap UserId nat) (u : UserId) (removed : nat) : gmap UserId nat :=
  if (removed =? 0)%nat then counts
  else match counts !! u with
       | Some count => if (count - removed =? 0)%nat then delete u counts else <[u := (count - removed)%nat]> counts
       | None => counts
       end.

Definition evict_excess_user_rows (max_rows : nat) (st : MemoryStoreState) (u : UserId) : MemoryStoreState :=
  let excess := (default 0 (per_user_entry_counts st !! u) - max_rows)%nat in
  if (excess =? 0)%nat then st
  else
    let '(lo, hi) := user_range_bounds u in
    let keys_to_remove := (take excess (bt_range key_compare lo hi (mem_data st))).*1 in
    mkMem (foldl (fun data k => bt_remove key_compare k data) (mem_data st) keys_to_remove)
      (decrement_user_count (per_user_entry_counts st) u (length keys_to_remove)).

(** Insert a record and count it when its key is new. *)
Definition insert_record (st : MemoryStoreState) (k : RowKey) (u : UserId) (r : StreamLogRecord) : MemoryStoreState :=
  let was_new := match bt_get key_compare k (mem_data st) with None => true | Some _ => false end in
  mkMem (bt_insert key_compare k r (mem_data st))
    (if was_new then <[u := (default 0 (per_user_entry_counts st !! u) + 1)%nat]> (per_user_entry_counts st)
     else per_user_entry_counts st).

Definition set_state (s : MemoryStreamLogStore) (st : MemoryStoreState) : MemoryStreamLogStore :=
  mkMemStore (ms_max_rows_per_user s) (ms_table_id s) st.

Definition mem_append_delete (s : MemoryStreamLogStore) (t : TableId) (row_id : StreamTableRowId)
    (timestamp_millis : Z) : StreamResult MemoryStreamLogStore :=
  let? _ := ensure_table (ms_table_id s) t in
  let u := ri_user_id row_id in
  let st := insert_record (ms_state s) (make_key_with_timestamp row_id timestamp_millis) u
              (LogDelete row_id timestamp_millis) in
  Ok (set_state s (evict_excess_user_rows (ms_max_rows_per_user s) st u)).

Definition put_record (st : MemoryStoreState) (p : StreamTableRowId * StreamTableRow) : MemoryStoreState :=
  insert_record st (make_key_with_timestamp p.1 (sr_timestamp p.2)) (ri_user_id p.1) (LogPut p.1 p.2).

Definition mem_append_row (s : MemoryStreamLogStore) (t : TableId) (row_id : StreamTableRowId)
    (row : StreamTableRow) : StreamResult MemoryStreamLogStore :=
  let? _ := ensure_table (ms_table_id s) t in
  Ok (set_state s (evict_excess_user_rows (ms_max_rows_per_user s) (put_record (ms_state s) (row_id, row))
                     (ri_user_id row_id))).

(** The users of the batch are collected in a hash set, each is evicted once. *)
Definition mem_append_puts (s : MemoryStreamLogStore) (t : TableId)
    (rows : list (StreamTableRowId * StreamTableRow)) : StreamResult MemoryStreamLogStore :=
  match rows with
  | [] => Ok s
  | _ =>
      let? _ := ensure_table (ms_table_id s) t in
      let st := foldl put_record (ms_state s) rows in
      let affected_users : gset UserId := list_to_set ((fun p => ri_user_id p.1) <$> rows) in
      Ok (set_state s (foldl (evict_excess_user_rows (ms_max_rows_per_user s)) st (elements affected_users)))
  end.

Definition is_recent (before_time : Z) (e : Entry) : bool := before_time <=? key_ts e.1.

(** How many records of each user [retain] drops. *)
Definition removed_per_user (before_time : Z) (data : list Entry) : gmap UserId nat :=
  foldl (fun m e => if is_recent before_time e then m
                    else <[key_user e.1 := (default 0 (m !! key_user e.1) + 1)%nat]> m) ∅ data.

Definition mem_delete_old_logs_with_count (s : MemoryStreamLogStore) (before_time : Z) : MemoryStreamLogStore * nat :=
  let st := ms_state s in
  let kept := filter (fun e => is_recent before_time e) (mem_data st) in
  let counts := foldl (fun counts ur => decrement_user_count counts ur.1 ur.2) (per_user_entry_counts st)
                  (map_to_list (removed_per_user before_time (mem_data st))) in
  (set_state s (mkMem kept counts), (length (mem_data st) - length kept)%nat).

Definition mem_clear (s : MemoryStreamLogStore) : MemoryStreamLogStore := set_state s (mkMem [] ∅).

(** ** Reading *)

Definition mem_has_logs_before (s : MemoryStreamLogStore) (before_time : Z) : bool :=
  existsb (fun e => key_ts e.1 <? before_time) (mem_data (ms_state s)).

Definition str_leb (a b : UserId) : bool := match str_compare a b with Gt => false | _ => true end.

Definition mem_list_user_ids (s : MemoryStreamLogStore) : list UserId :=
  sort_by str_leb (map_to_list (per_user_entry_counts (ms_state s))).*1.

Definition mem_len (s : MemoryStreamLogStore) : nat := length (mem_data (ms_state s)).
Definition mem_is_empty (s : MemoryStreamLogStore) : bool := (mem_len s =? 0)%nat.

Abbreviation Rows := (list (StreamTableRowId * StreamTableRow)).

(** The loop over the records of a range.  The limit is checked after a row is added. *)
Fixpoint read_range_loop (limit : nat) (deleted : gset Z) (results : Rows) (l : list (Z * StreamLogRecord)) : Rows :=
  match l with
  | [] => results
  | (version, LogPut row_id row) :: l' =>
      if decide (version ∈ deleted) then read_range_loop limit deleted results l'
      else
        let results := results ++ [(row_id, row)] in
        if (limit <=? length results)%nat then results else read_range_loop limit deleted results l'
  | (version, LogDelete _ _) :: l' =>
      read_range_loop limit ({[version]} ∪ deleted) (filter (fun p => ri_version p.1 <> version) results) l'
  end.

Definition in_time_range (u : UserId) (start_time end_time : Z) (e : Entry) : bool :=
  bool_decide (key_user e.1 = u) && (start_time <=? key_ts e.1) && (key_ts e.1 <=? end_time).

Definition versioned_entry (e : Entry) : Z * StreamLogRecord := (version_from_key e.1.2, e.2).

Definition mem_read_range_internal (s : MemoryStreamLogStore) (u : UserId) (start_time end_time : Z) (limit : nat) : Rows :=
  read_range_loop limit ∅ []
    (versioned_entry <$> filter (fun e => in_time_range u start_time end_time e) (mem_data (ms_state s))).

Fixpoint read_latest_loop (limit : nat) (deleted : gset Z) (results : Rows) (l : list (Z * StreamLogRecord)) : Rows :=
  match l with
  | [] => results
  | (version, LogPut row_id row) :: l' =>
      if decide (version ∈ deleted) then read_latest_loop limit deleted results l'
      else
        let results := results ++ [(row_id, row)] in
        if (limit <=? length results)%nat then results else read_latest_loop limit deleted results l'
  | (version, LogDelete _ _) :: l' => read_latest_loop limit ({[version]} ∪ deleted) results l'
  end.

Definition of_user (u : UserId) (e : Entry) : bool := bool_decide (key_user e.1 = u).

Definition mem_read_latest_internal (s : MemoryStreamLogStore) (u : UserId) (limit : nat) : Rows :=
  read_latest_loop limit ∅ [] (versioned_entry <$> filter (fun e => of_user u e) (reverse (mem_data (ms_state s)))).

(** The rows collected into a hash map: a later row replaces an earlier one of the same id. *)
Definition collect_rows (rows : Rows) : gmap StreamTableRowId StreamTableRow :=
  foldl (fun m p => <[p.1 := p.2]> m) ∅ rows.

Definition mem_append_rows (s : MemoryStreamLogStore) (t : TableId)
    (rows : gmap StreamTableRowId StreamTableRow) : StreamResult MemoryStreamLogStore :=
  mem_append_puts s t (map_to_list rows).

Definition mem_read_with_limit (s : MemoryStreamLogStore) (t : TableId) (u : UserId) (limit : nat) :
    StreamResult (gmap StreamTableRowId StreamTableRow) :=
  let? _ := ensure_table (ms_table_id s) t in Ok (collect_rows (mem_read_latest_internal s u limit)).

Definition mem_read_in_time_range (s : MemoryStreamLogStore) (t : TableId) (u : UserId)
    (start_time end_time : Z) (limit : nat) : StreamResult (gmap StreamTableRowId StreamTableRow) :=
  let? _ := ensure_table (ms_table_id s) t in
  Ok (collect_rows (mem_read_range_internal s u start_time end_time limit)).

(** ** The invariant *)

Definition record_id (r : StreamLogRecord) : StreamTableRowId :=
  match r with LogPut id _ | LogDelete id _ => id end.
Definition record_ts (r : StreamLogRecord) : Z :=
  match r with LogPut _ row => sr_timestamp row | LogDelete _ ts => ts end.

Definition is_i64_nonneg (x : Z) : Prop := 0 <= x <= i64_max.

(** A record as the callers of the store make it: a version and a timestamp that fit. *)
Definition record_ok (r : StreamLogRecord) : Prop := is_i64_nonneg (ri_version (record_id r)) /\ is_i64 (record_ts r).

Definition record_key (r : StreamLogRecord) : RowKey := make_key_with_timestamp (record_id r) (record_ts r).

Definition entry_ok (e : Entry) : Prop := record_ok e.2 /\ e.1 = record_key e.2.

Definition user_rows (u : UserId) (data : list Entry) : list Entry := filter (fun e => of_user u e) data.

(** The count of a user, absent when it is zero. *)
Definition nonzero (n : nat) : option nat := if (n =? 0)%nat then None else Some n.

Record mem_core (st : MemoryStoreState) : Prop := {
  mc_sorted : StronglySorted by_row_key (mem_data st);
  mc_entries : Forall entry_ok (mem_data st);
  mc_counts : forall u, per_user_entry_counts st !! u = nonzero (length (user_rows u (mem_data st)))
}.

Definition bounded (max_rows : nat) (st : MemoryStoreState) : Prop :=
  forall u, (length (user_rows u (mem_data st)) <= max_rows)%nat.

#[export] Instance key_ordered : Ordered key_compare.
Proof. unfold key_compare. apply _. Qed.

Lemma nonzero_default n : default 0%nat (nonzero n) = n.
Proof. unfold nonzero. by destruct (Nat.eqb_spec n 0) as [->|]. Qed.

Lemma of_user_spec u e : of_user u e = true <-> key_user e.1 = u.
Proof. apply bool_decide_eq_true. Qed.

Lemma user_rows_perm u l1 l2 : l1 ≡ₚ l2 -> user_rows u l1 ≡ₚ user_rows u l2.
Proof. intros H. unfold user_rows. by rewrite H. Qed.

Lemma user_rows_cons_length u e l :
  length (user_rows u (e :: l)) = ((if decide (key_user e.1 = u) then 1 else 0) + length (user_rows u l))%nat.
Proof.
  unfold user_rows. rewrite filter_cons. destruct (decide (key_user e.1 = u)) as [H|H].
  - by rewrite decide_True by (by apply Is_true_true, of_user_spec).
  - by rewrite decide_False by (by intros ?%Is_true_true%of_user_spec).
Qed.

Lemma version_key_bytes v : is_i64_nonneg v -> from_be (be_bytes 8 v) = v.
Proof.
  intros Hv. apply from_be_bytes. change (256 ^ Z.of_nat 8) with (2 ^ 64). unfold is_i64_nonneg, i64_max in Hv. lia.
Qed.

Lemma insert_record_core st r :
  mem_core st -> record_ok r -> mem_core (insert_record st (record_key r) (ri_user_id (record_id r)) r).
Proof.
  intros [Hs He Hc] Hr. unfold insert_record. split; cbn [mem_data per_user_entry_counts].
  - by apply bt_insert_sorted.
  - apply Forall_forall. intros e [->|[_ Hin]]%bt_insert_elem; [by split| |done]. by eapply Forall_forall in He.
  - intros u. set (k := record_key r). set (rest := bt_remove key_compare k (mem_data st)).
    assert (length (user_rows u (bt_insert key_compare k r (mem_data st))) =
      ((if decide (ri_user_id (record_id r) = u) then 1 else 0) + length (user_rows u rest))%nat) as ->.
    { rewrite (user_rows_perm u _ _ (bt_insert_perm k r _ Hs)). apply user_rows_cons_length. }
    destruct (bt_get key_compare k (mem_data st)) as [r'|] eqn:Hget.
    + rewrite Hc, (user_rows_perm u _ _ (bt_remove_present _ _ _ Hs Hget)). by rewrite user_rows_cons_length.
    + apply bt_get_none in Hget; [|done]. unfold rest. rewrite bt_remove_absent by done.
      destruct (decide (ri_user_id (record_id r) = u)) as [<-|Hu].
      * rewrite lookup_insert_eq, Hc, nonzero_default. unfold nonzero. by rewrite Nat.add_comm.
      * by rewrite lookup_insert_ne, Hc.
Qed.

(** ** Eviction *)

Lemma bytes_between n l : length l = n -> all_bytes l ->
  bytes_compare (repeat 0 n) l <> Gt /\ bytes_compare l (repeat 255 n) <> Gt.
Proof.
  intros <- Hl. induction Hl as [|b l Hb Hl IH]; [done|]. unfold is_byte in Hb. cbn [length repeat bytes_compare].
  split.
  - destruct (Z.compare_spec 0 b); [apply IH|done|lia].
  - destruct (Z.compare_spec b 255); [apply IH|done|lia].
Qed.

(** The range of a user's keys holds the records of the user. *)
Lemma user_range u data :
  Forall entry_ok data -> bt_range key_compare (user_range_bounds u).1 (user_range_bounds u).2 data = user_rows u data.
Proof.
  intros He. induction He as [|[k r] data [Hr Hk] He IH]; [done|]. unfold bt_range, user_rows in *. cbn in Hk.
  rewrite !filter_cons, IH. clear IH. unfold record_ok, is_i64_nonneg, is_i64 in Hr. cbn [snd] in Hr. subst k.
  assert (in_range key_compare (user_range_bounds u).1 (user_range_bounds u).2 (record_key r, r) =
          of_user u (record_key r, r)) as ->; [|done].
  unfold in_range, of_user, user_range_bounds, record_key, make_key_with_timestamp, key_compare, lex_compare, key_user.
  cbn [fst snd]. set (v := be_bytes 8 _).
  destruct (bytes_between 8 v) as [Hlo Hhi].
  { apply be_bytes_length. }
  { apply be_bytes_range. change (256 ^ Z.of_nat 8) with (2 ^ 64). unfold i64_max in Hr. lia. }
  destruct (decide (ri_user_id (record_id r) = u)) as [->|Hu].
  - rewrite bool_decide_eq_true_2 by done. rewrite !(proj2 (cmp_eq u u)) by done.
    rewrite (proj2 (Z.compare_lt_iff _ u64_max)) by (unfold i64_max, u64_max in *; lia).
    destruct (Z.compare_spec 0 (Z.max (record_ts r) 0)); [by destruct (bytes_compare _ v)|done|lia].
  - rewrite bool_decide_eq_false_2 by done.
    assert (str_compare u (ri_user_id (record_id r)) <> Eq) as Hne by (by rewrite cmp_eq).
    rewrite (cmp_opp u). destruct (str_compare u _); [done..|]. done.
Qed.

Lemma user_rows_nodup u data : StronglySorted by_row_key data -> NoDup (user_rows u data).*1.
Proof. intros Hs. by apply sorted_keys_nodup, sorted_filter. Qed.

Lemma filter_not_taken (n : nat) (l : list Entry) :
  NoDup l.*1 -> filter (fun e => e.1 ∉ (take n l).*1) l = drop n l.
Proof.
  intros Hnd. rewrite <-(take_drop n l) in Hnd at 1. rewrite fmap_app in Hnd.
  apply NoDup_app in Hnd as (_ & Hdis & _).
  set (ks := (take n l).*1) in *. rewrite <-(take_drop n l) at 1. rewrite filter_app.
  rewrite filter_none, filter_all; [done|..].
  - intros e He Hin. apply (Hdis _ Hin). by apply list_elem_of_fmap_2.
  - intros e He Hn. apply Hn. by apply list_elem_of_fmap_2.
Qed.

Lemma user_rows_other_keys u u' (ks : list RowKey) data :
  (forall k, k ∈ ks -> key_user k = u') -> u <> u' -> user_rows u (filter (fun e => e.1 ∉ ks) data) = user_rows u data.
Proof.
  intros Hks Hu. unfold user_rows. rewrite list_filter_filter. apply list_filter_iff. intros e.
  rewrite Is_true_true, of_user_spec. split; [naive_solver|]. intros <-. split; [done|].
  intros Hin. by apply Hks in Hin.
Qed.

(** Eviction drops the oldest records of the user over the limit and nothing else. *)
Lemma user_eviction_spec max_rows st u :
  mem_core st ->
  let st' := evict_excess_user_rows max_rows st u in
  mem_core st' /\
  user_rows u (mem_data st') = drop (length (user_rows u (mem_data st)) - max_rows) (user_rows u (mem_data st)) /\
  (forall u', u' <> u -> user_rows u' (mem_data st') = user_rows u' (mem_data st)).
Proof.
  intros Hcore. pose proof Hcore as [Hs He Hc]. cbn zeta. unfold evict_excess_user_rows.
  rewrite Hc, nonzero_default. set (n := length (user_rows u (mem_data st))).
  destruct (Nat.eqb_spec (n - max_rows) 0) as [->|Hn]; [by rewrite drop_0|].
  rewrite (surjective_pairing (user_range_bounds u)), user_range by done.
  set (ks := (take (n - max_rows) (user_rows u (mem_data st))).*1). rewrite bt_remove_keys.
  set (data := filter _ _).
  assert (user_rows u data = drop (n - max_rows) (user_rows u (mem_data st))) as Hu.
  { unfold data, user_rows at 1. rewrite list_filter_filter. rewrite (list_filter_iff _ (fun e => e.1 ∉ ks /\ of_user u e)) by tauto.
    rewrite <-list_filter_filter. apply filter_not_taken.
    by apply user_rows_nodup. }
  assert (forall u', u' <> u -> user_rows u' data = user_rows u' (mem_data st)) as Hother.
  { intros u' Hne. apply (user_rows_other_keys u' u); [|done]. intros k (e & -> & Hin)%list_elem_of_fmap.
    apply elem_of_take in Hin as (i & Hi%list_elem_of_lookup_2 & _).
    apply list_elem_of_filter in Hi as [Hi _]. by apply Is_true_true, of_user_spec in Hi. }
  split; [|done]. split; cbn [mem_data per_user_entry_counts].
  - by apply sorted_filter.
  - apply Forall_forall. intros e [_ Hin]%list_elem_of_filter. by eapply Forall_forall in He.
  - intros u'. unfold decrement_user_count. subst ks. rewrite length_fmap, length_take. fold n.
    rewrite Nat.min_l by lia. destruct (Nat.eqb_spec (n - max_rows) 0); [lia|]. rewrite Hc. fold n.
    unfold nonzero at 1. destruct (Nat.eqb_spec n 0); [lia|].
    destruct (decide (u' = u)) as [->|Hne].
    + rewrite Hu, length_drop. fold n. unfold nonzero.
      destruct (n - (n - max_rows) =? 0)%nat; [by rewrite lookup_delete_eq|by rewrite lookup_insert_eq].
    + rewrite Hother, <-Hc by done.
      destruct (n - (n - max_rows) =? 0)%nat; [by rewrite lookup_delete_ne|by rewrite lookup_insert_ne].
Qed.

Lemma evict_users_spec max_rows us st :
  mem_core st -> NoDup us ->
  let st' := foldl (evict_excess_user_rows max_rows) st us in
  mem_core st' /\
  (forall u, user_rows u (mem_data st') =
     if decide (u ∈ us) then drop (length (user_rows u (mem_data st)) - max_rows) (user_rows u (mem_data st))
     else user_rows u (mem_data st)).
Proof.
  intros Hcore Hnd. revert st Hcore. induction Hnd as [|u us Hu Hnd IH]; intros st Hcore; [done|].
  cbn [foldl]. destruct (user_eviction_spec max_rows st u Hcore) as (Hcore' & Hrows & Hother).
  destruct (IH _ Hcore') as [Hcore'' Hall]. split; [done|]. intros u'. rewrite Hall.
  destruct (decide (u' = u)) as [->|Hne].
  - rewrite decide_False, decide_True by set_solver. done.
  - rewrite Hother by done. destruct (decide (u' ∈ us)), (decide (u' ∈ u :: us)); set_solver.
Qed.

Lemma put_records_core rows st :
  mem_core st -> Forall (fun p => record_ok (LogPut p.1 p.2)) rows -> mem_core (foldl put_record st rows).
Proof.
  intros Hcore Hrows. revert st Hcore. induction Hrows as [|p rows Hp Hrows IH]; intros st Hcore; [done|].
  cbn [foldl]. apply IH. by apply (insert_record_core st (LogPut p.1 p.2)).
Qed.

(** Other users are not touched by an insertion. *)
Lemma insert_record_other st r u :
  mem_core st -> u <> ri_user_id (record_id r) ->
  user_rows u (mem_data (insert_record st (record_key r) (ri_user_id (record_id r)) r)) = user_rows u (mem_data st).
Proof.
  intros [Hs _ _] Hu. cbn. apply (sorted_unique (cmp := key_compare)).
  - by apply sorted_filter, bt_insert_sorted.
  - by apply sorted_filter.
  - intros e. unfold user_rows. rewrite !list_elem_of_filter, bt_insert_elem by done.
    rewrite Is_true_true, of_user_spec. split.
    + intros [He [->|[_ ?]]]; [|done]. by destruct Hu.
    + intros [He Hin]. split; [done|]. right. split; [|done]. intros Hk. rewrite Hk in He. by destruct Hu.
Qed.

Lemma put_records_other rows st u :
  mem_core st -> Forall (fun p => record_ok (LogPut p.1 p.2)) rows ->
  u ∉ ((fun p => ri_user_id p.1) <$> rows) ->
  user_rows u (mem_data (foldl put_record st rows)) = user_rows u (mem_data st).
Proof.
  intros Hcore Hrows. revert st Hcore. induction Hrows as [|p rows Hp Hrows IH]; intros st Hcore; [done|].
  cbn [foldl fmap list_fmap]. intros [Hne Hu]%not_elem_of_cons.
  rewrite IH; [|by apply (insert_record_core st (LogPut p.1 p.2))|done].
  by apply (insert_record_other st (LogPut p.1 p.2)).
Qed.

(** ** Expiry *)

Lemma removed_per_user_spec before_time data u :
  removed_per_user before_time data !! u =
  nonzero (length (filter (fun e => of_user u e && negb (is_recent before_time e)) data)).
Proof.
  unfold removed_per_user.
  assert (forall (m : gmap UserId nat) k, m !! u = nonzero k ->
    foldl (fun m e => if is_recent before_time e then m
                      else <[key_user e.1 := (default 0 (m !! key_user e.1) + 1)%nat]> m) m data !! u =
    nonzero (k + length (filter (fun e => of_user u e && negb (is_recent before_time e)) data))) as Hgo.
  2: { by apply (Hgo ∅ 0%nat). }
  induction data as [|e data IH]; intros m k Hm; cbn [foldl].
  - cbn. by rewrite Nat.add_0_r.
  - rewrite filter_cons. destruct (is_recent before_time e) eqn:Er; cbn [negb].
    + rewrite andb_false_r. cbn. by apply IH.
    + rewrite andb_true_r. destruct (decide (key_user e.1 = u)) as [Hu|Hu].
      * rewrite decide_True by (by apply Is_true_true, of_user_spec). cbn [length].
        rewrite (IH _ (S k)); [f_equal; lia|]. rewrite Hu, lookup_insert_eq, Hm, nonzero_default.
        unfold nonzero. by rewrite Nat.add_comm.
      * rewrite decide_False by (by intros ?%Is_true_true%of_user_spec). apply (IH _ k). by rewrite lookup_insert_ne.
Qed.

Lemma decrement_spec counts u n r :
  counts !! u = nonzero n -> (r <= n)%nat ->
  decrement_user_count counts u r !! u = nonzero (n - r) /\
  (forall u', u' <> u -> decrement_user_count counts u r !! u' = counts !! u').
Proof.
  intros Hc Hr. unfold decrement_user_count. destruct (Nat.eqb_spec r 0) as [->|Hr0].
  { by rewrite Nat.sub_0_r. }
  rewrite Hc. unfold nonzero. destruct (Nat.eqb_spec n 0); [lia|].
  destruct (n - r =? 0)%nat.
  - split; [apply lookup_delete_eq|]. intros. by apply lookup_delete_ne.
  - split; [apply lookup_insert_eq|]. intros. by apply lookup_insert_ne.
Qed.

Lemma decrement_all_spec (removed : list (UserId * nat)) counts (n : UserId -> nat) :
  NoDup removed.*1 -> (forall u, counts !! u = nonzero (n u)) ->
  (forall u r, (u, r) ∈ removed -> (r <= n u)%nat) ->
  forall u, foldl (fun counts ur => decrement_user_count counts ur.1 ur.2) counts removed !! u =
    nonzero (n u - default 0%nat (list_to_map (M := gmap UserId nat) removed !! u)).
Proof.
  revert counts n. induction removed as [|[u0 r0] removed IH]; intros counts n Hnd Hc Hle u; cbn [foldl].
  - cbn [list_to_map foldr]. rewrite lookup_empty. cbn. by rewrite Nat.sub_0_r.
  - apply NoDup_cons in Hnd as [Hu0 Hnd].
    destruct (decrement_spec counts u0 (n u0) r0) as [Hd Ho]; [done|apply Hle; by left|].
    rewrite (IH _ (fun u => if decide (u = u0) then (n u0 - r0)%nat else n u)); [|done|..].
    + cbn [list_to_map foldr fst snd]. destruct (decide (u = u0)) as [->|Hne].
      * rewrite lookup_insert_eq. rewrite not_elem_of_list_to_map_1 by done. cbn. by rewrite Nat.sub_0_r.
      * by rewrite lookup_insert_ne.
    + intros u'. destruct (decide (u' = u0)) as [->|Hne]; [done|]. by rewrite Ho.
    + intros u' r' Hin. destruct (decide (u' = u0)) as [->|Hne]; [|apply Hle; by right].
      destruct Hu0. apply list_elem_of_fmap. by exists (u0, r').
Qed.

Lemma delete_old_core s before_time :
  mem_core (ms_state s) -> mem_core (ms_state (mem_delete_old_logs_with_count s before_time).1).
Proof.
  intros [Hs He Hc]. unfold mem_delete_old_logs_with_count. cbn. set (data := mem_data (ms_state s)) in *.
  split; cbn [mem_data per_user_entry_counts].
  - by apply sorted_filter.
  - apply Forall_forall. intros e [_ Hin]%list_elem_of_filter. by eapply Forall_forall in He.
  - assert (forall u, length (user_rows u data) =
      (length (user_rows u (filter (fun e => is_recent before_time e) data)) +
       length (filter (fun e => of_user u e && negb (is_recent before_time e)) data))%nat) as Hsplit.
    { intros u. unfold user_rows. rewrite list_filter_filter, <-length_app. clear.
      induction data as [|e data IH]; [done|]. rewrite !filter_cons.
      rewrite length_app in IH. destruct (is_recent before_time e), (of_user u e); cbn [andb negb Is_true];
        repeat case_decide; rewrite ?length_app; cbn [length]; (tauto || lia). }
    intros u. rewrite (decrement_all_spec _ _ (fun u => length (user_rows u data))); [|apply NoDup_fst_map_to_list|done|].
    + rewrite list_to_map_to_list, removed_per_user_spec, nonzero_default. f_equal. rewrite Hsplit. lia.
    + intros u' r Hin%elem_of_map_to_list. rewrite removed_per_user_spec in Hin. rewrite Hsplit.
      pose proof (nonzero_default (length (filter (fun e => of_user u' e && negb (is_recent before_time e)) data))) as Hd.
      rewrite Hin in Hd. cbn in Hd. lia.
Qed.

(** ** Every history of operations *)

Inductive MemOp :=
| OpRow (t : TableId) (row_id : StreamTableRowId) (row : StreamTableRow)
| OpPuts (t : TableId) (rows : Rows)
| OpDelete (t : TableId) (row_id : StreamTableRowId) (timestamp : Z)
| OpExpire (before_time : Z)
| OpClear.

(** A refused operation leaves the store as it is. *)
Definition mem_step (s : MemoryStreamLogStore) (op : MemOp) : MemoryStreamLogStore :=
  let keep r := match r : StreamResult MemoryStreamLogStore with Ok s' => s' | Err _ => s end in
  match op with
  | OpRow t row_id row => keep (mem_append_row s t row_id row)
  | OpPuts t rows => keep (mem_append_puts s t rows)
  | OpDelete t row_id timestamp => keep (mem_append_delete s t row_id timestamp)
  | OpExpire before_time => (mem_delete_old_logs_with_count s before_time).1
  | OpClear => mem_clear s
  end.

Definition op_ok (op : MemOp) : Prop :=
  match op with
  | OpRow _ row_id row => record_ok (LogPut row_id row)
  | OpPuts _ rows => Forall (fun p => record_ok (LogPut p.1 p.2)) rows
  | OpDelete _ row_id timestamp => record_ok (LogDelete row_id timestamp)
  | _ => True
  end.

Record mem_ok (s : MemoryStreamLogStore) : Prop := {
  mo_core : mem_core (ms_state s);
  mo_bounded : bounded (ms_max_rows_per_user s) (ms_state s)
}.

Lemma evicted_bounded max_rows st r :
  mem_core st -> bounded max_rows st -> record_ok r ->
  let u := ri_user_id (record_id r) in
  let st' := evict_excess_user_rows max_rows (insert_record st (record_key r) u r) u in
  mem_core st' /\ bounded max_rows st'.
Proof.
  intros Hcore Hb Hr. cbn zeta. pose proof (insert_record_core st r Hcore Hr) as Hcore'.
  destruct (user_eviction_spec max_rows _ (ri_user_id (record_id r)) Hcore') as (Hc & Hu & Hother). split; [done|]. intros u'.
  destruct (decide (u' = ri_user_id (record_id r))) as [->|Hne].
  - rewrite Hu, length_drop. lia.
  - rewrite Hother, insert_record_other by done. apply Hb.
Qed.

(** What a batch leaves of a user's records. *)
Lemma append_puts_spec s t rows s' :
  mem_ok s -> Forall (fun p => record_ok (LogPut p.1 p.2)) rows -> mem_append_puts s t rows = Ok s' ->
  mem_ok s' /\
  forall u, user_rows u (mem_data (ms_state s')) =
    let inserted := user_rows u (mem_data (foldl put_record (ms_state s) rows)) in
    drop (length inserted - ms_max_rows_per_user s) inserted.
Proof.
  intros [Hcore Hb] Hrows. destruct rows as [|p rows]; cbn [mem_append_puts].
  - intros <-%Ok_inj. split; [done|]. intros u. cbn. specialize (Hb u).
    rewrite (proj2 (Nat.sub_0_le _ _)) by done. by rewrite drop_0.
  - intros (_ & _ & <-%Ok_inj)%result_bind_ok. set (all := p :: rows) in *.
    pose proof (put_records_core all _ Hcore Hrows) as Hcore'.
    destruct (evict_users_spec (ms_max_rows_per_user s) (elements (list_to_set ((fun p => ri_user_id p.1) <$> all) : gset UserId))
      _ Hcore' (NoDup_elements _)) as [Hc Hall].
    assert (forall u, user_rows u (mem_data (foldl (evict_excess_user_rows (ms_max_rows_per_user s))
        (foldl put_record (ms_state s) all) (elements (list_to_set ((fun p => ri_user_id p.1) <$> all) : gset UserId)))) =
      let inserted := user_rows u (mem_data (foldl put_record (ms_state s) all)) in
      drop (length inserted - ms_max_rows_per_user s) inserted) as Hdrop.
    { intros u. rewrite Hall. case_decide as Hin; [done|].
      rewrite elem_of_elements, elem_of_list_to_set in Hin. cbn zeta. rewrite put_records_other by done.
      specialize (Hb u). rewrite (proj2 (Nat.sub_0_le _ _)) by done. by rewrite drop_0. }
    split; [|done]. split; [done|]. intros u. cbn [set_state ms_state ms_max_rows_per_user].
    rewrite Hdrop. cbn zeta. rewrite length_drop. lia.
Qed.

Lemma filter_length_mono {A} (P Q : A -> Prop) `{forall x, Decision (P x)} `{forall x, Decision (Q x)} l :
  (length (filter P (filter Q l)) <= length (filter P l))%nat.
Proof. rewrite list_filter_filter. apply sublist_length. induction l; rewrite ?filter_cons; repeat case_decide; try constructor; naive_solver. Qed.

Lemma mem_step_ok s op : mem_ok s -> op_ok op -> mem_ok (mem_step s op).
Proof.
  intros Hok Hop. pose proof Hok as [Hcore Hb]. destruct op as [t id row|t rows|t id ts|before|]; cbn [mem_step].
  - unfold mem_append_row, ensure_table. case_decide; [|done]. cbn [result_bind].
    by destruct (evicted_bounded _ _ (LogPut id row) Hcore Hb Hop).
  - destruct (mem_append_puts s t rows) as [s'|] eqn:E; [|done]. by eapply append_puts_spec.
  - unfold mem_append_delete, ensure_table. case_decide; [|done]. cbn [result_bind].
    by destruct (evicted_bounded _ _ (LogDelete id ts) Hcore Hb Hop).
  - split; [by apply delete_old_core|]. intros u. cbn. etransitivity; [apply filter_length_mono|apply Hb].
  - split; [|intros u; cbn; lia]. split; [constructor|constructor|]. intros u. apply lookup_empty.
Qed.

Lemma mem_run_ok ops s : mem_ok s -> Forall op_ok ops -> mem_ok (foldl mem_step s ops).
Proof.
  intros Hs Hops. revert s Hs. induction Hops as [|op ops Hop Hops IH]; intros s Hs; [done|].
  cbn [foldl]. by apply IH, mem_step_ok.
Qed.

Lemma mem_init_ok t max_rows : mem_ok (with_table_id_and_limit t max_rows).
Proof.
  split; [|intros u; cbn; lia]. split; [constructor|constructor|]. intros u. apply lookup_empty.
Qed.

Lemma list_user_ids_elem s u : mem_core (ms_state s) -> u ∈ mem_list_user_ids s <-> user_rows u (mem_data (ms_state s)) <> [].
Proof.
  intros [_ _ Hc]. unfold mem_list_user_ids. rewrite sort_by_perm, list_elem_of_fmap. split.
  - intros ([u' n] & -> & Hin%elem_of_map_to_list). cbn. rewrite Hc in Hin. intros Hnil. by rewrite Hnil in Hin.
  - intros Hne. exists (u, length (user_rows u (mem_data (ms_state s)))). split; [done|].
    apply elem_of_map_to_list. rewrite Hc. unfold nonzero. by destruct (user_rows u (mem_data (ms_state s))).
Qed.

(** Every store built by appends, deletes, expiry and clearing keeps its bookkeeping exact: the
    count of a user is the number of its records and at most the limit, the records are in key order
    with one record per key, and the users listed are those with records. *)
Theorem stream_memory_invariant t max_rows ops :
  Forall op_ok ops ->
  let s := foldl mem_step (with_table_id_and_limit t max_rows) ops in
  let data := mem_data (ms_state s) in
  StronglySorted by_row_key data /\
  (forall u, per_user_entry_counts (ms_state s) !! u = nonzero (length (user_rows u data)) /\
             (length (user_rows u data) <= ms_max_rows_per_user s)%nat) /\
  (forall u, u ∈ mem_list_user_ids s <-> user_rows u data <> []).
Proof.
  intros Hops s. destruct (mem_run_ok ops _ (mem_init_ok t max_rows) Hops) as [Hcore Hb]. fold s in Hcore, Hb.
  split; [apply Hcore|]. split; [|intros u; by apply list_user_ids_elem].
  intros u. split; [apply Hcore|apply Hb].
Qed.

(** A batch of rows leaves of every user the newest records, by timestamp and version, of what
    the user had and was given: exactly the last [max_rows] of them in key order, no record of
    another user is touched, and nothing is lost while the user stays within the limit. *)
Theorem append_keeps_newest t max_rows ops rows u s' :
  Forall op_ok ops -> Forall (fun p => record_ok (LogPut p.1 p.2)) rows ->
  let s := foldl mem_step (with_table_id_and_limit t max_rows) ops in
  mem_append_puts s (ms_table_id s) rows = Ok s' ->
  let inserted := user_rows u (mem_data (foldl put_record (ms_state s) rows)) in
  user_rows u (mem_data (ms_state s')) = drop (length inserted - ms_max_rows_per_user s) inserted /\
  ((length inserted <= ms_max_rows_per_user s)%nat -> user_rows u (mem_data (ms_state s')) = inserted) /\
  (u ∉ ((fun p => ri_user_id p.1) <$> rows) -> user_rows u (mem_data (ms_state s')) = user_rows u (mem_data (ms_state s))).
Proof.
  intros Hops Hrows s Hs'. pose proof (mem_run_ok ops _ (mem_init_ok t max_rows) Hops) as Hok. fold s in Hok.
  destruct (append_puts_spec s _ rows s' Hok Hrows Hs') as [_ Hall]. cbn zeta in *. rewrite !Hall.
  assert (forall l : list Entry, (length l <= ms_max_rows_per_user s)%nat -> drop (length l - ms_max_rows_per_user s) l = l) as Hdrop
    by (intros l Hl; rewrite (proj2 (Nat.sub_0_le _ _)) by done; apply drop_0).
  split; [done|]. split; [apply Hdrop|]. intros Hu. rewrite put_records_other by (done || apply Hok). apply Hdrop, Hok.
Qed.

(** Expiry removes exactly the records before the time, reports how many, and leaves none. *)
Lemma expiry_exact s before_time :
  let r := mem_delete_old_logs_with_count s before_time in
  mem_data (ms_state r.1) = filter (fun e => is_recent before_time e) (mem_data (ms_state s)) /\
  (r.2 + mem_len r.1)%nat = mem_len s /\ mem_has_logs_before r.1 before_time = false.
Proof.
  cbn. split; [done|]. split.
  - unfold mem_len. cbn. pose proof (length_filter (fun e => is_recent before_time e) (mem_data (ms_state s))). lia.
  - unfold mem_has_logs_before. cbn. apply not_true_iff_false. rewrite existsb_exists.
    intros (e & He%list_elem_of_In & Ht). apply list_elem_of_filter in He as [He _].
    apply Is_true_true in He. unfold is_recent in He. zbool. lia.
Qed.

(** ** What a range holds *)

(** The rows a list of records puts, and the versions it deletes. *)
Definition log_puts (l : list (Z * StreamLogRecord)) : Rows :=
  omap (fun vr => match vr.2 with LogPut id row => Some (id, row) | LogDelete _ _ => None end) l.

Definition log_deletes (l : list (Z * StreamLogRecord)) : gset Z :=
  list_to_set (omap (fun vr => match vr.2 with LogPut _ _ => None | LogDelete _ _ => Some vr.1 end) l).

Definition version_in (vs : gset Z) (p : StreamTableRowId * StreamTableRow) : Prop := ri_version p.1 ∈ vs.

#[export] Instance version_in_dec vs p : Decision (version_in vs p).
Proof. unfold version_in. apply _. Defined.

(** As long as the limit is not reached, the loop returns the rows whose version is deleted nowhere
    in the range, whatever the order of the records. *)
Lemma read_range_all limit D R l :
  Forall (fun vr => vr.1 = ri_version (record_id vr.2)) l -> (length R + length (log_puts l) < limit)%nat ->
  read_range_loop limit D R l =
    filter (fun p => ~ version_in (log_deletes l) p) R ++
    filter (fun p => ~ version_in (D ∪ log_deletes l) p) (log_puts l).
Proof.
  unfold version_in. intros Hv. revert D R. induction Hv as [|[v r] l Hv Hl IH]; intros D R Hlen.
  - cbn. rewrite app_nil_r. symmetry. apply filter_all. set_solver.
  - cbn in Hv. subst v. destruct r as [id row|id ts]; cbn [read_range_loop record_id] in *.
    + change (log_puts (_ :: l)) with ((id, row) :: log_puts l) in *. cbn [length] in Hlen.
      change (log_deletes (_ :: l)) with (log_deletes l). rewrite filter_cons. cbn [fst].
      destruct (decide (ri_version id ∈ D)) as [Hin|Hin].
      * rewrite IH by (cbn; lia). rewrite decide_False by set_solver. done.
      * rewrite length_app. cbn [length]. rewrite (proj2 (Nat.leb_gt _ _)) by lia.
        rewrite IH by (rewrite length_app; cbn; lia). rewrite filter_app, <-app_assoc. f_equal.
        rewrite filter_cons. cbn [fst]. rewrite filter_nil.
        destruct (decide (ri_version id ∈ log_deletes l)) as [Hd|Hd].
        -- rewrite !decide_False by set_solver. done.
        -- rewrite !decide_True by set_solver. done.
    + change (log_puts (_ :: l)) with (log_puts l) in *.
      assert (log_deletes ((ri_version id, LogDelete id ts) :: l) = {[ri_version id]} ∪ log_deletes l) as -> by done.
      rewrite IH by (pose proof (length_filter (fun p : StreamTableRowId * StreamTableRow => ri_version p.1 <> ri_version id) R); lia).
      rewrite list_filter_filter. f_equal; apply list_filter_iff; set_solver.
Qed.

Lemma collect_rows_spec (rows : Rows) id row :
  (forall i r1 r2, (i, r1) ∈ rows -> (i, r2) ∈ rows -> r1 = r2) ->
  collect_rows rows !! id = Some row <-> (id, row) ∈ rows.
Proof.
  unfold collect_rows. induction rows as [|[i r] rows IH] using rev_ind; intros Hu; [set_solver|].
  rewrite foldl_app. cbn [foldl fst snd]. rewrite elem_of_app, list_elem_of_singleton.
  destruct (decide (i = id)) as [->|Hne].
  - rewrite lookup_insert_eq. split; [naive_solver|]. intros [Hin|[= ->]]; [|done].
    f_equal. apply (Hu id); set_solver.
  - rewrite lookup_insert_ne by done. rewrite IH; [|intros i' r1 r2 ? ?; apply (Hu i'); set_solver].
    split; [by left|]. intros [?|[= -> ->]]; [done|congruence].
Qed.

Module StreamMemoryWitness.

Definition events : TableId := mkTableId "app" "events".
Definition event (u : string) (v ts : Z) : StreamTableRowId * StreamTableRow := (mkRowId u v, mkStreamRow u v ts ∅).
Definition small : MemoryStreamLogStore := with_table_id_and_limit events 2.
Definition first_op : MemOp := OpPuts events [event "alice" 1 1000; event "bob" 2 1000].

Lemma event_ok u v ts : 0 <= v <= 100 -> 0 <= ts <= 10000 -> record_ok (LogPut (event u v ts).1 (event u v ts).2).
Proof. intros Hv Ht. split; cbn; unfold is_i64_nonneg, is_i64, i64_max; lia. Qed.

Lemma stream_memory_invariant_witness :
  let s := foldl mem_step small [first_op; OpDelete events (mkRowId "alice" 1) 1000; OpExpire 500] in
  per_user_entry_counts (ms_state s) !! "alice"%string = Some 1%nat /\
  (length (user_rows "alice" (mem_data (ms_state s))) <= 2)%nat.
Proof.
  cbn zeta.
  destruct (stream_memory_invariant events 2 [first_op; OpDelete events (mkRowId "alice" 1) 1000; OpExpire 500])
    as (_ & Hc & _).
  - repeat constructor; cbn; unfold is_i64, i64_max; lia.
  - split; [vm_compute; reflexivity|exact (proj2 (Hc "alice"%string))].
Defined.

(** Alice gets two more rows than she may keep; her oldest row goes. *)
Lemma append_keeps_newest_witness :
  exists s', mem_append_puts (foldl mem_step small [first_op]) events [event "alice" 3 3000; event "alice" 4 2000] = Ok s' /\
    (user_rows "alice" (mem_data (ms_state s'))).*2 =
      [LogPut (event "alice" 4 2000).1 (event "alice" 4 2000).2; LogPut (event "alice" 3 3000).1 (event "alice" 3 3000).2] /\
    user_rows "bob" (mem_data (ms_state s')) = user_rows "bob" (mem_data (ms_state (foldl mem_step small [first_op]))).
Proof.
  eexists. split; [vm_compute; reflexivity|]. split; [vm_compute; reflexivity|].
  apply (append_keeps_newest events 2 [first_op] [event "alice" 3 3000; event "alice" 4 2000] "bob").
  - repeat constructor; cbn; unfold is_i64, i64_max; lia.
  - repeat constructor; cbn; unfold is_i64, i64_max; lia.
  - vm_compute. reflexivity.
  - set_solver.
Defined.

End StreamMemoryWitness.
