(* ===== verification/StreamTable.v ===== *)
(** * StreamTable: the store of a stream table over its log

    kalamdb-tables/src/stream_tables/stream_table_store.rs.  [StreamBackend] is the enum
    [StreamLogStoreBackend], whose two variants are the in-memory log and the file log;
    [StreamBackendLaws] is what the table store relies on, and what is proved of the table store is
    proved from it.  The iteration order of a [HashMap] is [map_to_list]. *)

From Stdlib Require Import ZArith Lia Sorted.
From stdpp Require Import base strings gmap list sets.
From S2P Require Import Prelude Commons Ids Scalars BTree Protocol StreamMemory.
Import Version.

Open Scope Z_scope.
Open Scope kalam_scope.

Abbreviation RowMap := (gmap StreamTableRowId StreamTableRow).

(** The log behind a table.  Reading returns the log as well: the file log flushes its buffers. *)
Class StreamBackend (S : Type) := {
  sb_append_row : S -> TableId -> UserId -> StreamTableRowId -> StreamTableRow -> StreamResult S;
  sb_append_puts : S -> TableId -> UserId -> Rows -> StreamResult S;
  sb_append_delete : S -> TableId -> UserId -> StreamTableRowId -> Z -> StreamResult S;
  sb_read_in_time_range : S -> TableId -> UserId -> Z -> Z -> nat -> StreamResult (S * RowMap);
  sb_delete_old_logs_with_count : S -> Z -> StreamResult (S * nat);
  sb_has_logs_before : S -> Z -> StreamResult bool;
  sb_list_user_ids : S -> StreamResult (list UserId)
}.

Record StreamTableStore (S : Type) := mkTable { st_table_id : TableId; st_log_store : S }.
Arguments mkTable {S} st_table_id st_log_store.
Arguments st_table_id {S} s.
Arguments st_log_store {S} s.

(** [map_stream_error]. *)
Inductive StorageError := IoError (e : StreamLogError).
Abbreviation StoreResult := (Result StorageError).

Definition MAX_SCAN_LIMIT : nat := Z.to_nat 100000.

Module TableStore.
Section TableStore.
Context {S : Type} `{StreamBackend S}.
Implicit Types s : StreamTableStore S.

Definition with_log s (log : S) : StreamTableStore S := mkTable (st_table_id s) log.

Definition put s (key : StreamTableRowId) (entity : StreamTableRow) : StoreResult (StreamTableStore S) :=
  let? log := map_err IoError (sb_append_row (st_log_store s) (st_table_id s) (ri_user_id key) key entity) in
  Ok (with_log s log).

(** The rows of a batch by user; the hash map yields the users in some order. *)
Definition rows_by_user (rows : Rows) : list (UserId * Rows) :=
  (fun u => (u, filter (fun p => ri_user_id p.1 = u) rows)) <$>
    elements (list_to_set ((fun p => ri_user_id p.1) <$> rows) : gset UserId).

Fixpoint append_by_user s (groups : list (UserId * Rows)) : StoreResult (StreamTableStore S) :=
  match groups with
  | [] => Ok s
  | (u, rows) :: groups' =>
      let? log := map_err IoError (sb_append_puts (st_log_store s) (st_table_id s) u rows) in
      append_by_user (with_log s log) groups'
  end.

Definition put_batch s (rows : Rows) : StoreResult (StreamTableStore S) :=
  match rows with
  | [] => Ok s
  | [(key, entity)] => put s key entity
  | (first, _) :: _ =>
      if forallb (fun p => bool_decide (ri_user_id p.1 = ri_user_id first)) rows then
        let? log := map_err IoError (sb_append_puts (st_log_store s) (st_table_id s) (ri_user_id first) rows) in
        Ok (with_log s log)
      else append_by_user s (rows_by_user rows)
  end.

Definition read_all s (u : UserId) (start_time : Z) (limit : nat) : StoreResult (StreamTableStore S * RowMap) :=
  let? (log, rows) := map_err IoError (sb_read_in_time_range (st_log_store s) (st_table_id s) u start_time u64_max limit) in
  Ok (with_log s log, rows).

Definition get s (key : StreamTableRowId) : StoreResult (StreamTableStore S * option StreamTableRow) :=
  let? (s', rows) := read_all s (ri_user_id key) 0 MAX_SCAN_LIMIT in
  Ok (s', rows !! key).

Definition delete s (key : StreamTableRowId) : StoreResult (StreamTableStore S) :=
  let? (s', found) := get s key in
  let timestamp_millis := match found with Some row => sr_timestamp row | None => 0 end in
  let? log := map_err IoError (sb_append_delete (st_log_store s') (st_table_id s') (ri_user_id key) key timestamp_millis) in
  Ok (with_log s' log).

Definition delete_old_logs s (before_time : Z) : StoreResult (StreamTableStore S * nat) :=
  let? (log, n) := map_err IoError (sb_delete_old_logs_with_count (st_log_store s) before_time) in
  Ok (with_log s log, n).

Definition has_logs_before s (before_time : Z) : StoreResult bool :=
  map_err IoError (sb_has_logs_before (st_log_store s) before_time).

(** [Ord] of a row id: by user, then by version. *)
Definition row_id_leb (a b : StreamTableRowId * StreamTableRow) : bool :=
  match lex_compare str_compare Z.compare (ri_user_id a.1, ri_version a.1) (ri_user_id b.1, ri_version b.1) with
  | Gt => false
  | _ => true
  end.

Fixpoint scan_users s (limit : nat) (users : list UserId) (results : Rows) : StoreResult (StreamTableStore S * Rows) :=
  match users with
  | [] => Ok (s, results)
  | u :: users' =>
      let remaining := (limit - length results)%nat in
      if (remaining =? 0)%nat then Ok (s, results)
      else
        let? (s', rows) := read_all s u 0 remaining in
        scan_users s' limit users' (results ++ map_to_list rows)
  end.

Definition scan_all s (limit : option nat) : StoreResult (StreamTableStore S * Rows) :=
  let limit := default MAX_SCAN_LIMIT limit in
  if (limit =? 0)%nat then Ok (s, [])
  else
    let? users := map_err IoError (sb_list_user_ids (st_log_store s)) in
    let? (s', results) := scan_users s limit users [] in
    Ok (s', take limit (sort_by row_id_leb results)).

Definition from_seq (start_seq : option VersionId) (p : StreamTableRowId * StreamTableRow) : bool :=
  match start_seq with Some seq => seq <=? ri_version p.1 | None => true end.

Definition scan_user s (u : UserId) (start_seq : option VersionId) (limit : nat) : StoreResult (StreamTableStore S * Rows) :=
  if (limit =? 0)%nat then Ok (s, [])
  else
    let? (s', rows) := read_all s u 0 MAX_SCAN_LIMIT in
    Ok (s', sort_by row_id_leb (take limit (filter (fun p => from_seq start_seq p) (map_to_list rows)))).

(** [row_ts + ttl <= now_ms] with the timestamp cast to [u64] and the sum wrapping around. *)
Definition expired (ttl_ms : option Z) (now_ms : Z) (p : StreamTableRowId * StreamTableRow) : bool :=
  match ttl_ms with
  | Some ttl => wrap64 (wrap64 (sr_timestamp p.2) + ttl) <=? now_ms
  | None => false
  end.

(** The loop stops once [limit] rows are collected. *)
Definition scan_user_streaming s (u : UserId) (start_seq : option VersionId) (limit : nat)
    (ttl_ms : option Z) (now_ms : Z) : StoreResult (StreamTableStore S * Rows) :=
  if (limit =? 0)%nat then Ok (s, [])
  else
    let start_time := match ttl_ms with
                      | Some ttl => saturating_add (Z.max 0 (now_ms - ttl)) 1
                      | None => 0
                      end in
    let read_limit := match start_seq with Some _ => MAX_SCAN_LIMIT | None => limit end in
    let? (s', rows) := read_all s u start_time read_limit in
    Ok (s', take limit (filter (fun p => from_seq start_seq p && negb (expired ttl_ms now_ms p))
                          (sort_by row_id_leb (map_to_list rows)))).

End TableStore.
End TableStore.

(** ** What a log holds

    A history is the list of records appended.  The rows of a history are those put and not deleted. *)

Definition live_rows (h : list StreamLogRecord) : RowMap :=
  foldl (fun m r => match r with LogPut id row => <[id := row]> m | LogDelete id _ => delete id m end) ∅ h.

Definition live_of (u : UserId) (h : list StreamLogRecord) : RowMap :=
  filter (fun p => ri_user_id p.1 = u) (live_rows h).

Definition of_row (id : StreamTableRowId) (row : StreamTableRow) : Prop :=
  sr_user_id row = ri_user_id id /\ sr_version row = ri_version id.

(** Histories of a table: a row id is put once, before anything else of it, and a row that is live is
    deleted with its own timestamp. *)
Inductive history_ok : list StreamLogRecord -> Prop :=
| ho_nil : history_ok []
| ho_put h id row :
    history_ok h -> record_ok (LogPut id row) -> of_row id row -> id ∉ record_id <$> h ->
    history_ok (h ++ [LogPut id row])
| ho_delete h id ts :
    history_ok h -> record_ok (LogDelete id ts) ->
    (forall row, live_rows h !! id = Some row -> ts = sr_timestamp row) ->
    history_ok (h ++ [LogDelete id ts]).

Definition is_put_of (u : UserId) (r : StreamLogRecord) : bool :=
  match r with LogPut id _ => bool_decide (ri_user_id id = u) | LogDelete _ _ => false end.

Definition put_count (u : UserId) (h : list StreamLogRecord) : nat := length (filter (fun r => is_put_of u r) h).

(** [holds s t h]: the log of table [t] holds the history [h]; [fits h]: the history is within what
    the log keeps. *)
Class StreamBackendLaws (S : Type) `{StreamBackend S} (holds : S -> TableId -> list StreamLogRecord -> Prop)
    (fits : list StreamLogRecord -> Prop) : Prop := {
  sbl_fits_prefix : forall h r, fits (h ++ [r]) -> fits h;
  sbl_put : forall s t h id row, holds s t h -> history_ok (h ++ [LogPut id row]) -> fits (h ++ [LogPut id row]) ->
    exists s', sb_append_row s t (ri_user_id id) id row = Ok s' /\ holds s' t (h ++ [LogPut id row]);
  sbl_delete : forall s t h id ts, holds s t h -> history_ok (h ++ [LogDelete id ts]) -> fits (h ++ [LogDelete id ts]) ->
    exists s', sb_append_delete s t (ri_user_id id) id ts = Ok s' /\ holds s' t (h ++ [LogDelete id ts]);
  sbl_read : forall s t h u limit, holds s t h -> history_ok h -> (put_count u h < limit)%nat ->
    exists s', sb_read_in_time_range s t u 0 u64_max limit = Ok (s', live_of u h) /\ holds s' t h
}.

(** ** The table as a map *)

Inductive TableOp := TPut (id : StreamTableRowId) (row : StreamTableRow) | TDelete (id : StreamTableRowId).

Definition op_id (op : TableOp) : StreamTableRowId := match op with TPut id _ | TDelete id => id end.

Definition table_step {S} `{StreamBackend S} (s : StreamTableStore S) (op : TableOp) : StoreResult (StreamTableStore S) :=
  match op with TPut id row => TableStore.put s id row | TDelete id => TableStore.delete s id end.

Fixpoint table_run {S} `{StreamBackend S} (s : StreamTableStore S) (ops : list TableOp) : StoreResult (StreamTableStore S) :=
  match ops with
  | [] => Ok s
  | op :: ops' => let? s' := table_step s op in table_run s' ops'
  end.

(** The specification: a map from row ids to rows. *)
Definition spec_step (m : RowMap) (op : TableOp) : RowMap :=
  match op with TPut id row => <[id := row]> m | TDelete id => delete id m end.

(** The record an operation appends after a history. *)
Definition op_record (h : list StreamLogRecord) (op : TableOp) : StreamLogRecord :=
  match op with
  | TPut id row => LogPut id row
  | TDelete id => LogDelete id (match live_rows h !! id with Some row => sr_timestamp row | None => 0 end)
  end.

Definition table_history (ops : list TableOp) : list StreamLogRecord := foldl (fun h op => h ++ [op_record h op]) [] ops.

(** A row is put under an id that no earlier operation has used, with the version and owner of the
    id; versions and timestamps fit their types. *)
Inductive ops_ok : list TableOp -> Prop :=
| oo_nil : ops_ok []
| oo_put ops id row :
    ops_ok ops -> record_ok (LogPut id row) -> of_row id row -> id ∉ op_id <$> ops -> ops_ok (ops ++ [TPut id row])
| oo_delete ops id : ops_ok ops -> is_i64_nonneg (ri_version id) -> ops_ok (ops ++ [TDelete id]).

Lemma live_rows_snoc h r :
  live_rows (h ++ [r]) = match r with LogPut id row => <[id := row]> (live_rows h) | LogDelete id _ => delete id (live_rows h) end.
Proof. unfold live_rows. by rewrite foldl_app. Qed.

Lemma history_snoc ops op : table_history (ops ++ [op]) = table_history ops ++ [op_record (table_history ops) op].
Proof. unfold table_history. by rewrite foldl_app. Qed.

Lemma history_ids ops : record_id <$> table_history ops = op_id <$> ops.
Proof.
  induction ops as [|op ops IH] using rev_ind; [done|]. rewrite history_snoc, !fmap_app, IH. by destruct op.
Qed.

Lemma live_rows_ok h : history_ok h -> forall id row, live_rows h !! id = Some row ->
  LogPut id row ∈ h /\ record_ok (LogPut id row) /\ of_row id row.
Proof.
  induction 1 as [|h id0 row0 Hh IH Hr Ho Hid|h id0 ts Hh IH Hr Hts]; intros id row.
  - done.
  - rewrite live_rows_snoc. intros [[<- <-]|[Hne Hl]]%lookup_insert_Some; [set_solver|].
    destruct (IH _ _ Hl) as (? & ? & ?). set_solver.
  - rewrite live_rows_snoc. intros [Hne Hl]%lookup_delete_Some. destruct (IH _ _ Hl) as (? & ? & ?). set_solver.
Qed.

Lemma table_history_ok ops : ops_ok ops -> history_ok (table_history ops).
Proof.
  induction 1 as [|ops id row Hops IH Hr Ho Hid|ops id Hops IH Hv]; [constructor|..]; rewrite history_snoc.
  - constructor; [done..|]. by rewrite history_ids.
  - cbn [op_record]. constructor; [done|..].
    + split; [done|]. cbn. destruct (live_rows _ !! id) as [row|] eqn:E; [|unfold is_i64, i64_max; lia].
      by destruct (live_rows_ok _ IH _ _ E) as (_ & [_ ?] & _).
    + by intros row ->.
Qed.

Lemma live_history ops : live_rows (table_history ops) = foldl spec_step ∅ ops.
Proof.
  induction ops as [|op ops IH] using rev_ind; [done|].
  rewrite history_snoc, live_rows_snoc, foldl_app, IH. by destruct op.
Qed.

Lemma put_count_prefix u h r : (put_count u h <= put_count u (h ++ [r]))%nat.
Proof. unfold put_count. rewrite filter_app, length_app. lia. Qed.

Section Client.
Context {S : Type} `{StreamBackend S} {holds : S -> TableId -> list StreamLogRecord -> Prop}
  {fits : list StreamLogRecord -> Prop} `{!StreamBackendLaws S holds fits}.

Lemma read_all_spec (s : StreamTableStore S) h u limit :
  holds (st_log_store s) (st_table_id s) h -> history_ok h -> (put_count u h < limit)%nat ->
  exists s', TableStore.read_all s u 0 limit = Ok (s', live_of u h) /\
    holds (st_log_store s') (st_table_id s') h /\ st_table_id s' = st_table_id s.
Proof.
  intros Hh Hok Hn. destruct (sbl_read _ _ _ u limit Hh Hok Hn) as (log & Hr & Hl).
  exists (TableStore.with_log s log). unfold TableStore.read_all. by rewrite Hr.
Qed.

Lemma live_of_lookup u h id : ri_user_id id = u -> live_of u h !! id = live_rows h !! id.
Proof.
  intros Hu. unfold live_of. destruct (live_rows h !! id) as [row|] eqn:E.
  - by apply map_lookup_filter_Some.
  - apply map_lookup_filter_None. by left.
Qed.

Lemma get_spec (s : StreamTableStore S) h key :
  holds (st_log_store s) (st_table_id s) h -> history_ok h -> (put_count (ri_user_id key) h < MAX_SCAN_LIMIT)%nat ->
  exists s', TableStore.get s key = Ok (s', live_rows h !! key) /\
    holds (st_log_store s') (st_table_id s') h /\ st_table_id s' = st_table_id s.
Proof.
  intros Hh Hok Hn. destruct (read_all_spec s h _ _ Hh Hok Hn) as (s' & Hr & Hl & Ht).
  exists s'. unfold TableStore.get. rewrite Hr. cbn [result_bind]. by rewrite live_of_lookup.
Qed.

Lemma table_step_spec (s : StreamTableStore S) h op :
  holds (st_log_store s) (st_table_id s) h -> history_ok h -> history_ok (h ++ [op_record h op]) ->
  fits (h ++ [op_record h op]) -> (put_count (ri_user_id (op_id op)) h < MAX_SCAN_LIMIT)%nat ->
  exists s', table_step s op = Ok s' /\ holds (st_log_store s') (st_table_id s') (h ++ [op_record h op]).
Proof.
  intros Hh Hok Hok' Hfit Hn. destruct op as [id row|id]; cbn [table_step op_record op_id] in *.
  - destruct (sbl_put _ _ _ id row Hh Hok' Hfit) as (log & Hp & Hl). exists (TableStore.with_log s log).
    unfold TableStore.put. by rewrite Hp.
  - destruct (get_spec s h id Hh Hok Hn) as (s1 & Hg & Hh1 & Ht1).
    destruct (sbl_delete _ _ _ id _ Hh1 Hok' Hfit) as (log & Hp & Hl). exists (TableStore.with_log s1 log).
    unfold TableStore.delete. rewrite Hg. cbn [result_bind]. by rewrite Hp.
Qed.

Lemma fits_prefix h1 h2 : fits (h1 ++ h2) -> fits h1.
Proof.
  induction h2 as [|r h2 IH] using rev_ind; [by rewrite app_nil_r|].
  rewrite app_assoc. intros Hf%sbl_fits_prefix. by apply IH.
Qed.

Lemma table_run_app (s : StreamTableStore S) ops1 ops2 :
  table_run s (ops1 ++ ops2) = let? s' := table_run s ops1 in table_run s' ops2.
Proof.
  revert s. induction ops1 as [|op ops1 IH]; intros s; cbn [app table_run]; [done|].
  destruct (table_step s op); [apply IH|done].
Qed.

Lemma table_run_spec (s : StreamTableStore S) ops :
  holds (st_log_store s) (st_table_id s) [] -> ops_ok ops -> fits (table_history ops) ->
  (forall u, (put_count u (table_history ops) < MAX_SCAN_LIMIT)%nat) ->
  exists s', table_run s ops = Ok s' /\ holds (st_log_store s') (st_table_id s') (table_history ops).
Proof.
  intros Hh. induction ops as [|op ops IH] using rev_ind; intros Hok Hfit Hn.
  - by exists s.
  - assert (ops_ok ops) as Hok0.
    { inversion Hok as [Hnil|ops' id row Ho Hr Hrow Hid Heq|ops' id Ho Hv Heq].
      - by destruct ops.
      - by apply app_inj_tail in Heq as [-> _].
      - by apply app_inj_tail in Heq as [-> _]. }
    pose proof (table_history_ok _ Hok) as Hhok. rewrite history_snoc in Hfit, Hn, Hhok |- *.
    destruct IH as (s' & Hrun & Hh'); [done|by apply sbl_fits_prefix in Hfit| |].
    { intros u. specialize (Hn u). pose proof (put_count_prefix u (table_history ops) (op_record (table_history ops) op)). lia. }
    destruct (table_step_spec s' (table_history ops) op Hh' (table_history_ok _ Hok0) Hhok Hfit) as (s'' & Hs & Hl).
    { eapply Nat.le_lt_trans; [apply put_count_prefix|apply Hn]. }
    exists s''. split; [|done]. rewrite table_run_app, Hrun. cbn [result_bind table_run]. by rewrite Hs.
Qed.

(** Over any log that keeps its promises, a stream table is a map. *)
Lemma table_is_a_map (s : StreamTableStore S) ops :
  holds (st_log_store s) (st_table_id s) [] -> ops_ok ops -> fits (table_history ops) ->
  (forall u, (put_count u (table_history ops) < MAX_SCAN_LIMIT)%nat) ->
  exists s', table_run s ops = Ok s' /\
    (forall key, exists s'', TableStore.get s' key = Ok (s'', foldl spec_step ∅ ops !! key)) /\
    (forall u limit, (0 < limit)%nat -> (size (foldl spec_step ∅ ops) <= limit)%nat ->
       exists s'' rows, TableStore.scan_user s' u None limit = Ok (s'', rows) /\
         rows ≡ₚ map_to_list (filter (fun p => ri_user_id p.1 = u) (foldl spec_step ∅ ops))).
Proof.
  intros Hh Hok Hfit Hn. destruct (table_run_spec s ops Hh Hok Hfit Hn) as (s' & Hrun & Hh').
  pose proof (table_history_ok _ Hok) as Hhok. exists s'. split; [done|]. split.
  - intros key. destruct (get_spec s' _ key Hh' Hhok (Hn _)) as (s'' & Hg & _). exists s''.
    by rewrite Hg, live_history.
  - intros u limit Hlim Hsize. destruct (read_all_spec s' _ u MAX_SCAN_LIMIT Hh' Hhok (Hn u)) as (s'' & Hr & _).
    unfold TableStore.scan_user. rewrite (proj2 (Nat.eqb_neq _ _)) by lia. rewrite Hr. cbn [result_bind].
    exists s''. eexists. split; [done|]. rewrite sort_by_perm. unfold live_of. rewrite live_history.
    rewrite filter_all by done. rewrite take_ge; [done|]. rewrite length_map_to_list.
    etransitivity; [|exact Hsize]. apply map_subseteq_size, map_filter_subseteq.
Qed.

End Client.

(** ** The in-memory log keeps the promises *)

#[export] Instance memory_backend : StreamBackend MemoryStreamLogStore := {|
  sb_append_row s t _ id row := mem_append_row s t id row;
  sb_append_puts s t _ rows := mem_append_puts s t rows;
  sb_append_delete s t _ id ts := mem_append_delete s t id ts;
  sb_read_in_time_range s t u a b limit := let? rows := mem_read_in_time_range s t u a b limit in Ok (s, rows);
  sb_delete_old_logs_with_count s before_time := Ok (mem_delete_old_logs_with_count s before_time);
  sb_has_logs_before s before_time := Ok (mem_has_logs_before s before_time);
  sb_list_user_ids s := Ok (mem_list_user_ids s)
|}.

Definition record_user (r : StreamLogRecord) : UserId := ri_user_id (record_id r).

Definition user_history (u : UserId) (h : list StreamLogRecord) : list StreamLogRecord := filter (fun r => record_user r = u) h.

(** Every user stays within the limit, deletes included. *)
Definition within (max_rows : nat) (h : list StreamLogRecord) : Prop :=
  forall u, (length (user_history u h) <= max_rows)%nat.

Definition put_entry (u : UserId) (e : Entry) : bool := is_put_of u e.2.

Record mem_holds (max_rows : nat) (s : MemoryStreamLogStore) (t : TableId) (h : list StreamLogRecord) : Prop := {
  mh_table : ms_table_id s = t;
  mh_max : ms_max_rows_per_user s = max_rows;
  mh_core : mem_core (ms_state s);
  mh_puts : forall k id row, (k, LogPut id row) ∈ mem_data (ms_state s) <->
    live_rows h !! id = Some row /\ k = record_key (LogPut id row);
  mh_deletes : forall k id ts, (k, LogDelete id ts) ∈ mem_data (ms_state s) ->
    live_rows h !! id = None /\ id ∈ record_id <$> h;
  mh_count : forall u, (length (user_rows u (mem_data (ms_state s))) <= length (user_history u h))%nat;
  mh_put_count : forall u, (length (filter (fun e => put_entry u e) (mem_data (ms_state s))) <= put_count u h)%nat
}.

Lemma record_key_inj r1 r2 : record_ok r1 -> record_ok r2 -> record_key r1 = record_key r2 -> record_id r1 = record_id r2.
Proof.
  intros [H1 _] [H2 _] Hk. pose proof (f_equal (fun k : RowKey => BigEndian.from_be k.2) Hk) as Hv.
  apply (f_equal key_user) in Hk. unfold record_key, make_key_with_timestamp, key_user in Hk, Hv. cbn [fst snd] in Hk, Hv.
  rewrite !version_key_bytes in Hv by done. destruct (record_id r1), (record_id r2). cbn in *. congruence.
Qed.

Lemma insert_count (Q : Entry -> Prop) `{forall e, Decision (Q e)} k r data :
  StronglySorted by_row_key data ->
  (length (filter Q (bt_insert key_compare k r data)) <= (if decide (Q (k, r)) then 1 else 0) + length (filter Q data))%nat.
Proof.
  intros Hs. rewrite (bt_insert_perm k r data Hs), filter_cons.
  assert (length (filter Q (bt_remove key_compare k data)) <= length (filter Q data))%nat by apply filter_length_mono.
  case_decide; cbn [length]; lia.
Qed.

Lemma user_history_snoc u h r :
  length (user_history u (h ++ [r])) = (length (user_history u h) + if decide (record_user r = u) then 1 else 0)%nat.
Proof. unfold user_history. rewrite filter_app, length_app, filter_cons. by case_decide. Qed.

Lemma put_count_snoc u h r : put_count u (h ++ [r]) = (put_count u h + if is_put_of u r then 1 else 0)%nat.
Proof. unfold put_count. rewrite filter_app, length_app, filter_cons. by destruct (is_put_of u r). Qed.

(** Within the limit nothing is evicted. *)
Lemma evict_noop max_rows st u :
  mem_core st -> (length (user_rows u (mem_data st)) <= max_rows)%nat -> evict_excess_user_rows max_rows st u = st.
Proof.
  intros Hc Hle. unfold evict_excess_user_rows. rewrite (mc_counts _ Hc), nonzero_default.
  by rewrite (proj2 (Nat.sub_0_le _ _)) by done.
Qed.

Lemma mem_append_holds max_rows s t h r :
  mem_holds max_rows s t h -> history_ok h -> history_ok (h ++ [r]) -> within max_rows (h ++ [r]) ->
  record_ok r ->
  (forall k id row, (k, LogPut id row) ∈ bt_insert key_compare (record_key r) r (mem_data (ms_state s)) <->
     live_rows (h ++ [r]) !! id = Some row /\ k = record_key (LogPut id row)) ->
  (forall k id ts, (k, LogDelete id ts) ∈ bt_insert key_compare (record_key r) r (mem_data (ms_state s)) ->
     live_rows (h ++ [r]) !! id = None /\ id ∈ record_id <$> (h ++ [r])) ->
  mem_holds max_rows
    (set_state s (evict_excess_user_rows max_rows (insert_record (ms_state s) (record_key r) (record_user r) r) (record_user r)))
    t (h ++ [r]).
Proof.
  intros Hh Hok Hok' Hw Hr Hp Hd. destruct Hh as [Ht Hm Hc _ _ Hn Hpn].
  pose proof (insert_record_core _ r Hc Hr) as Hc'.
  assert (forall u, (length (user_rows u (bt_insert key_compare (record_key r) r (mem_data (ms_state s)))) <=
    length (user_history u (h ++ [r])))%nat) as Hn'.
  { intros u. unfold user_rows. etransitivity; [apply insert_count, Hc|]. rewrite user_history_snoc.
    specialize (Hn u). unfold user_rows in Hn. unfold of_user at 1, key_user. cbn [fst].
    fold (record_user r). destruct (decide (record_user r = u)) as [Hu|Hu]; case_decide as Hb; try lia.
    by apply bool_decide_spec in Hb. }
  rewrite evict_noop; [|done|etransitivity; [apply Hn'|apply Hw]].
  split; cbn [set_state ms_table_id ms_max_rows_per_user ms_state insert_record mem_data]; [done..|].
  intros u. etransitivity; [apply insert_count, Hc|]. rewrite put_count_snoc. specialize (Hpn u).
  change (is_put_of u r) with (put_entry u (record_key r, r)).
  case_decide as Hb; destruct (put_entry u (record_key r, r)); (lia || done).
Qed.

Lemma mem_data_id k r max_rows s t h : mem_holds max_rows s t h -> history_ok h -> (k, r) ∈ mem_data (ms_state s) ->
  k = record_key r /\ record_ok r /\ record_id r ∈ record_id <$> h.
Proof.
  intros Hh Hok Hin. pose proof (mc_entries _ (mh_core _ _ _ _ Hh)) as He. rewrite Forall_forall in He.
  destruct (He _ Hin) as [Hr Hk]. split; [done|]. split; [done|]. destruct r as [id row|id ts]; cbn [record_id].
  - apply (mh_puts _ _ _ _ Hh) in Hin as [Hl _]. apply live_rows_ok in Hl as (Hl & _); [|done].
    apply list_elem_of_fmap. by exists (LogPut id row).
  - by apply (mh_deletes _ _ _ _ Hh) in Hin as [_ ?].
Qed.

Lemma mem_put_holds max_rows s t h id row :
  mem_holds max_rows s t h -> history_ok (h ++ [LogPut id row]) -> within max_rows (h ++ [LogPut id row]) ->
  exists s', mem_append_row s t id row = Ok s' /\ mem_holds max_rows s' t (h ++ [LogPut id row]).
Proof.
  intros Hh Hok' Hw. inversion Hok' as [Hnil|h0 id0 row0 Hok Hr Ho Hid Heq|h0 id0 ts0 ? ? ? Heq];
    [by destruct h| |by apply app_inj_tail in Heq as [_ Heq]].
  apply app_inj_tail in Heq as [-> [= -> ->]].
  unfold mem_append_row, ensure_table. rewrite (mh_table _ _ _ _ Hh), decide_True, (mh_max _ _ _ _ Hh) by done.
  cbn [result_bind]. eexists. split; [done|].
  pose proof (mc_sorted _ (mh_core _ _ _ _ Hh)) as Hs.
  apply (mem_append_holds max_rows s t h (LogPut id row) Hh Hok Hok' Hw Hr).
  - intros k id' row'. rewrite bt_insert_elem, live_rows_snoc by done. cbn [fst]. split.
    + intros [[= -> -> ->]|[Hne Hin]]; [by rewrite lookup_insert_eq|].
      destruct (mem_data_id _ _ _ _ _ _ Hh Hok Hin) as (_ & _ & Hin'). cbn in Hin'.
      apply (mh_puts _ _ _ _ Hh) in Hin as [Hl Hk]. rewrite lookup_insert_ne by (by intros ->). done.
    + intros [[[<- <-]|[Hne Hl]]%lookup_insert_Some ->]; [by left|]. right. split.
      * intros Hk%record_key_inj; [|by apply live_rows_ok in Hl as (_ & ? & _)|done]. by destruct Hne.
      * by apply (mh_puts _ _ _ _ Hh).
  - intros k id' ts'. rewrite bt_insert_elem, live_rows_snoc by done.
    intros [[= ? ?]|[Hne Hin]]. apply (mh_deletes _ _ _ _ Hh) in Hin as [Hl Hin].
    rewrite lookup_insert_ne by (by intros ->). split; [done|]. rewrite fmap_app. set_solver.
Qed.

Lemma mem_delete_holds max_rows s t h id ts :
  mem_holds max_rows s t h -> history_ok (h ++ [LogDelete id ts]) -> within max_rows (h ++ [LogDelete id ts]) ->
  exists s', mem_append_delete s t id ts = Ok s' /\ mem_holds max_rows s' t (h ++ [LogDelete id ts]).
Proof.
  intros Hh Hok' Hw. inversion Hok' as [Hnil|h0 id0 row0 ? ? ? ? Heq|h0 id0 ts0 Hok Hr Hts Heq];
    [by destruct h|by apply app_inj_tail in Heq as [_ Heq]|].
  apply app_inj_tail in Heq as [-> [= -> ->]].
  unfold mem_append_delete, ensure_table. rewrite (mh_table _ _ _ _ Hh), decide_True, (mh_max _ _ _ _ Hh) by done.
  cbn [result_bind]. eexists. split; [done|].
  pose proof (mc_sorted _ (mh_core _ _ _ _ Hh)) as Hs.
  apply (mem_append_holds max_rows s t h (LogDelete id ts) Hh Hok Hok' Hw Hr).
  - intros k id' row'. rewrite bt_insert_elem, live_rows_snoc by done. cbn [fst]. split.
    + intros [[= ? ?]|[Hne Hin]]. apply (mh_puts _ _ _ _ Hh) in Hin as [Hl ->]. split; [|done].
      apply lookup_delete_Some. split; [|done]. intros <-. destruct Hne. unfold record_key. cbn.
      by rewrite (Hts _ Hl).
    + intros [[Hne Hl]%lookup_delete_Some ->]. right. split.
      * intros Hk%record_key_inj; [|by apply live_rows_ok in Hl as (_ & ? & _)|done]. by destruct Hne.
      * by apply (mh_puts _ _ _ _ Hh).
  - intros k id' ts'. rewrite bt_insert_elem, live_rows_snoc by done. rewrite fmap_app.
    intros [[= -> -> ->]|[Hne Hin]]; [rewrite lookup_delete_eq; set_solver|].
    apply (mh_deletes _ _ _ _ Hh) in Hin as [Hl Hin]. split; [|set_solver]. apply lookup_delete_None. by right.
Qed.

Lemma user_range_entries u s :
  mem_core (ms_state s) ->
  filter (fun e => in_time_range u 0 u64_max e) (mem_data (ms_state s)) = user_rows u (mem_data (ms_state s)).
Proof.
  intros Hc. pose proof (mc_entries _ Hc) as He. rewrite Forall_forall in He.
  unfold user_rows. apply filter_ext_in. intros [k r] Hin. destruct (He _ Hin) as [[_ Ht] Hk]. cbn in Hk. subst k.
  unfold in_time_range, of_user, key_ts. cbn [fst snd record_key make_key_with_timestamp]. cbn [snd] in Ht. unfold is_i64, i64_max in Ht.
  rewrite (proj2 (Z.leb_le 0 _)), (proj2 (Z.leb_le _ u64_max)) by (unfold u64_max; lia). by rewrite !andb_true_r.
Qed.

Lemma log_puts_elem id row (es : list Entry) :
  (id, row) ∈ log_puts (versioned_entry <$> es) <-> exists k, (k, LogPut id row) ∈ es.
Proof.
  unfold log_puts. rewrite list_elem_of_omap. split.
  - intros ([v r] & ([k r'] & [= -> ->] & Hin)%list_elem_of_fmap & Hr). cbn in Hr.
    destruct r' as [id' row'|]; [|done]. injection Hr as -> ->. by exists k.
  - intros [k Hin]. exists (versioned_entry (k, LogPut id row)). split; [|done].
    apply list_elem_of_fmap. by exists (k, LogPut id row).
Qed.

Definition is_put (r : StreamLogRecord) : bool := match r with LogPut _ _ => true | LogDelete _ _ => false end.

Lemma log_puts_length u (es : list Entry) :
  length (log_puts (versioned_entry <$> user_rows u es)) = length (filter (fun e => of_user u e && is_put e.2) es).
Proof.
  unfold log_puts, user_rows. induction es as [|e es IH]; [done|]. rewrite !filter_cons.
  destruct (of_user u e); cbn [andb]; [|exact IH].
  rewrite decide_True by done. destruct e as [k [id row|id ts]]; cbn [snd is_put].
  - rewrite decide_True by done. cbn. f_equal. exact IH.
  - rewrite decide_False by (by intros []). exact IH.
Qed.

Lemma mem_read_live max_rows s t h u limit :
  mem_holds max_rows s t h -> history_ok h -> (put_count u h < limit)%nat ->
  mem_read_in_time_range s t u 0 u64_max limit = Ok (live_of u h).
Proof.
  intros Hh Hok Hn. unfold mem_read_in_time_range, ensure_table, mem_read_range_internal.
  rewrite (mh_table _ _ _ _ Hh), decide_True by done. cbn [result_bind]. f_equal.
  pose proof (mh_core _ _ _ _ Hh) as Hc. rewrite user_range_entries by done.
  set (es := user_rows u (mem_data (ms_state s))).
  assert (forall k r, (k, r) ∈ es <-> ri_user_id (record_id r) = u /\ (k, r) ∈ mem_data (ms_state s)) as Hes.
  { intros k r. unfold es, user_rows. rewrite list_elem_of_filter, Is_true_true, of_user_spec. cbn [fst].
    split; (intros [Hu Hin]; split; [|done]); destruct (mem_data_id _ _ _ _ _ _ Hh Hok Hin) as (-> & _); done. }
  assert (Forall (fun vr => vr.1 = ri_version (record_id vr.2)) (versioned_entry <$> es)) as Hver.
  { apply Forall_fmap, Forall_forall. intros [k r] [_ Hin]%Hes.
    destruct (mem_data_id _ _ _ _ _ _ Hh Hok Hin) as (-> & [Hv _] & _). cbn. by apply version_key_bytes. }
  rewrite read_range_all; [|done|].
  2: { cbn [length]. rewrite Nat.add_0_l. unfold es. rewrite log_puts_length. eapply Nat.le_lt_trans; [|exact Hn].
    etransitivity; [|apply (mh_put_count _ _ _ _ Hh u)]. rewrite (filter_ext_in _ (fun e => put_entry u e)); [done|].
    intros [k r] Hin. destruct (mem_data_id _ _ _ _ _ _ Hh Hok Hin) as (-> & _).
    unfold put_entry, is_put_of, of_user. destruct r; cbn; [by rewrite andb_true_r|by rewrite andb_false_r]. }
  rewrite filter_nil, app_nil_l, union_empty_l_L. apply map_eq. intros id. apply option_eq. intros row.
  rewrite collect_rows_spec.
  - rewrite list_elem_of_filter, log_puts_elem. unfold live_of. rewrite map_lookup_filter_Some. cbn [fst].
    setoid_rewrite Hes. setoid_rewrite (mh_puts _ _ _ _ Hh). split; [naive_solver|]. intros [Hl Hu]. split; [|naive_solver].
    unfold version_in, log_deletes. cbn [fst]. rewrite elem_of_list_to_set, list_elem_of_omap.
    intros ([v r] & ([k r'] & [= -> ->] & [Hu' Hin]%Hes)%list_elem_of_fmap & Hr).
    destruct r' as [|id' ts']; [done|].
    destruct (mem_data_id _ _ _ _ _ _ Hh Hok Hin) as (-> & [Hv' _] & _).
    change (Some (BigEndian.from_be (BigEndian.be_bytes 8 (ri_version id'))) = Some (ri_version id)) in Hr.
    rewrite version_key_bytes in Hr by done. injection Hr as Hr. cbn [record_id] in Hu'.
    assert (id' = id) as -> by (destruct id, id'; cbn in *; congruence).
    apply (mh_deletes _ _ _ _ Hh) in Hin as [Hl' _]. congruence.
  - intros i r1 r2 [_ [k1 [_ H1]%Hes]%log_puts_elem]%list_elem_of_filter [_ [k2 [_ H2]%Hes]%log_puts_elem]%list_elem_of_filter.
    apply (mh_puts _ _ _ _ Hh) in H1 as [H1 _], H2 as [H2 _]. congruence.
Qed.

Lemma within_prefix max_rows h r : within max_rows (h ++ [r]) -> within max_rows h.
Proof. intros Hw u. specialize (Hw u). rewrite user_history_snoc in Hw. lia. Qed.

#[export] Instance memory_laws max_rows : StreamBackendLaws MemoryStreamLogStore (mem_holds max_rows) (within max_rows).
Proof.
  split.
  - apply within_prefix.
  - intros s t h id row. apply mem_put_holds.
  - intros s t h id ts. apply mem_delete_holds.
  - intros s t h u limit Hh Hok Hn. exists s. cbn. by rewrite (mem_read_live _ _ _ _ _ _ Hh Hok Hn).
Qed.

Lemma memory_starts_empty t max_rows : mem_holds max_rows (with_table_id_and_limit t max_rows) t [].
Proof.
  split; [done|done|apply (mem_init_ok t max_rows)|..].
  - intros k id row. split; [by intros ?%not_elem_of_nil|by intros [? _]].
  - by intros k id ts ?%not_elem_of_nil.
  - intros u. cbn. lia.
  - intros u. cbn. lia.
Qed.

(** C20. A stream table over the in-memory log is a map.  Take any sequence of puts of new row ids and
    deletes in which no user exceeds the row limit of the log (deletes included) and every user has
    fewer than 100,000 puts.  All of them succeed, and afterwards [get] of every key, and the scan of
    every user from the start with a limit of at least the number of rows, give what the map of the
    operations holds. *)
Theorem stream_table_is_a_map t max_rows ops :
  ops_ok ops -> within max_rows (table_history ops) ->
  (forall u, (put_count u (table_history ops) < MAX_SCAN_LIMIT)%nat) ->
  exists s', table_run (mkTable t (with_table_id_and_limit t max_rows)) ops = Ok s' /\
    (forall key, exists s'', TableStore.get s' key = Ok (s'', foldl spec_step ∅ ops !! key)) /\
    (forall u limit, (0 < limit)%nat -> (size (foldl spec_step ∅ ops) <= limit)%nat ->
       exists s'' rows, TableStore.scan_user s' u None limit = Ok (s'', rows) /\
         rows ≡ₚ map_to_list (filter (fun p => ri_user_id p.1 = u) (foldl spec_step ∅ ops))).
Proof.
  intros Hops Hw Hn.
  apply (table_is_a_map (holds := mem_holds max_rows) (fits := within max_rows)
           (mkTable t (with_table_id_and_limit t max_rows)) ops); [apply memory_starts_empty|done..].
Qed.

Module StreamTableWitness.

Definition table : TableId := mkTableId "app" "events".
Definition id1 : StreamTableRowId := mkRowId "alice" 1.
Definition id2 : StreamTableRowId := mkRowId "bob" 2.
Definition row1 : StreamTableRow := mkStreamRow "alice" 1 1000 {[ "v" := Int64 (Some 7) ]}.
Definition row2 : StreamTableRow := mkStreamRow "bob" 2 1000 {[ "v" := Int64 (Some 8) ]}.
Definition ops : list TableOp := [TPut id1 row1; TPut id2 row2; TDelete id1].

Definition store : StreamTableStore MemoryStreamLogStore := mkTable table (with_table_id_and_limit table 4).

Lemma ops_fine : ops_ok ops.
Proof.
  apply (oo_delete [TPut id1 row1; TPut id2 row2]); [|by split].
  apply (oo_put [TPut id1 row1]); [|by split|by split|set_solver].
  apply (oo_put []); [constructor|by split|by split|set_solver].
Qed.

Lemma stream_table_is_a_map_witness :
  exists s', table_run store ops = Ok s' /\
    (exists s'', TableStore.get s' id1 = Ok (s'', None)) /\ (exists s'', TableStore.get s' id2 = Ok (s'', Some row2)).
Proof.
  destruct (stream_table_is_a_map table 4 ops) as (s' & Hrun & Hget & _).
  - apply ops_fine.
  - intros u. unfold user_history. etransitivity; [apply length_filter|]. vm_compute. lia.
  - intros u. unfold put_count. eapply Nat.le_lt_trans; [apply length_filter|].
    apply Nat2Z.inj_lt. unfold MAX_SCAN_LIMIT. rewrite Z2Nat.id by lia. vm_compute. reflexivity.
  - exists s'. split; [exact Hrun|]. split.
    + destruct (Hget id1) as [s'' Hg]. exists s''. rewrite Hg. vm_compute. reflexivity.
    + destruct (Hget id2) as [s'' Hg]. exists s''. rewrite Hg. vm_compute. reflexivity.
Defined.

End StreamTableWitness.
