(* ===== verification/StreamFile.v ===== *)
(** * StreamFile: the log of a stream table in files

    kalamdb-streams/src/file_store.rs and time_bucket.rs.  Each user has one file per time window;
    a file is a sequence of length-prefixed frames and is written through a buffer of a bounded
    cache of open writers, whose content reaches the file when it is flushed.

    The file system succeeds: an operation fails only where the code itself refuses.  The clock of
    the writers is an argument of the appends.  [chrono] is the parameter [Calendar]: the range it
    represents, the weekday and the first day of the month of a day. *)

From Stdlib Require Import ZArith Lia Sorted.
From stdpp Require Import base strings gmap list sets.
From S2P Require Import Prelude Commons Sharding TxnState Ids Scalars BTree Protocol StreamMemory StreamTable.
Import Version.

Open Scope Z_scope.
Open Scope kalam_scope.

(** ** Time windows *)

Inductive StreamTimeBucket := BMinute | BHour | BDay | BWeek | BMonth.

Definition day_ms : Z := 24 * 60 * 60 * 1000.

Definition duration_ms (b : StreamTimeBucket) : Z :=
  match b with
  | BMinute => 60 * 1000
  | BHour => 60 * 60 * 1000
  | BDay => day_ms
  | BWeek => 7 * day_ms
  | BMonth => 31 * day_ms
  end.

Definition bucket_for_ttl (ttl_seconds : Z) : StreamTimeBucket :=
  let minute := 60 in
  let day := 24 * (60 * 60) in
  if ttl_seconds <=? 15 * minute then BMinute
  else if ttl_seconds <=? day then BHour
  else if ttl_seconds <=? 7 * day then BDay
  else if ttl_seconds <=? 30 * day then BWeek
  else BMonth.

(** Days are counted from the epoch. *)
Class Calendar := {
  in_chrono_range : Z -> bool;
  num_days_from_monday : Z -> Z;
  first_of_month : Z -> Z
}.

Class CalendarLaws `{Calendar} : Prop := {
  weekday_range : forall d, 0 <= num_days_from_monday d <= 6;
  month_range : forall d, first_of_month d <= d <= first_of_month d + 30
}.

Definition window_start_ms `{Calendar} (b : StreamTimeBucket) (ts_ms : Z) : Z :=
  if in_chrono_range (u64_as_i64 ts_ms) then
    let t := u64_as_i64 ts_ms in
    let d := t / day_ms in
    match b with
    | BMinute => wrap64 (t - t mod (60 * 1000))
    | BHour => wrap64 (t - t mod (60 * 60 * 1000))
    | BDay => wrap64 (d * day_ms)
    | BWeek => wrap64 ((d - num_days_from_monday d) * day_ms)
    | BMonth => wrap64 (first_of_month d * day_ms)
    end
  else ts_ms.

(** ** Paths *)

(** The three components below the base directory. *)
Record LogPath := mkPath { lp_window : list Z; lp_shard : string; lp_file : list Z }.

#[export] Instance LogPath_eq_dec : EqDecision LogPath.
Proof. solve_decision. Defined.
#[export] Instance LogPath_countable : Countable LogPath.
Proof.
  apply (inj_countable' (fun p => (lp_window p, lp_shard p, lp_file p)) (fun p => mkPath p.1.1 p.1.2 p.2)). by intros [].
Defined.

Definition window_dir (b : StreamTimeBucket) (window_start : Z) : list Z :=
  [119] ++ decimal window_start ++ [45] ++ decimal (duration_ms b).

Definition is_dash (c : Z) : bool := c =? 45.

Definition parse_window_dir (name : list Z) : option (Z * Z) :=
  body ← strip_prefix [119] name;
  i ← position is_dash body;
  window_start ← parse_unsigned u64_max (take i body);
  duration ← parse_unsigned u64_max (drop (S i) body);
  Some (window_start, saturating_add window_start duration).

Definition USER_LOG_FILE_SUFFIX : list Z := bytes_of_string ".log".

Definition user_log_file_name (u : UserId) : list Z := bytes_of_string u ++ USER_LOG_FILE_SUFFIX.

Definition strip_suffix (suffix l : list Z) : option (list Z) := reverse <$> strip_prefix (reverse suffix) (reverse l).

Definition parse_user_id_from_log_path (p : LogPath) : option UserId :=
  user_id ← strip_suffix USER_LOG_FILE_SUFFIX (lp_file p);
  if user_id_valid user_id then Some (string_of_bytes user_id) else None.

(** ** State *)

(** [BufWriter] with its bookkeeping; the bytes it has not written yet. *)
Record SegmentWriter := mkWriter { sw_buffer : list Z; sw_record_count : Z; sw_last_write : Z }.

Record FileStreamLogStore := mkFileStore {
  fs_table_id : TableId;
  fs_bucket : StreamTimeBucket;
  fs_router : ShardRouter;
  fs_files : gmap LogPath (list Z);
  fs_segments : gmap LogPath SegmentWriter
}.

Definition SEGMENT_BUF_CAPACITY : Z := 128 * 1024.
Definition MAX_OPEN_SEGMENTS : nat := 256.
Definition SEGMENT_EVICT_BATCH : nat := 32.

Definition file_store_new (t : TableId) (b : StreamTimeBucket) (r : ShardRouter) : FileStreamLogStore :=
  mkFileStore t b r ∅ ∅.

Definition set_files (s : FileStreamLogStore) (files : gmap LogPath (list Z)) (segments : gmap LogPath SegmentWriter) :
    FileStreamLogStore :=
  mkFileStore (fs_table_id s) (fs_bucket s) (fs_router s) files segments.

(** The hash the shard router uses. *)
Class UserHash := user_hash : string -> Z.

Definition log_path `{UserHash} (s : FileStreamLogStore) (u : UserId) (window_start : Z) : LogPath :=
  mkPath (window_dir (fs_bucket s) window_start) (folder_name (route_stream_user user_hash (fs_router s) u))
    (user_log_file_name u).

(** ** Writers *)

(** The bytes of a writer appended to its file; a file that is gone takes them with it. *)
Definition append_to_file (files : gmap LogPath (list Z)) (p : LogPath) (bytes : list Z) : gmap LogPath (list Z) :=
  match files !! p with Some content => <[p := content ++ bytes]> files | None => files end.

Definition flush_segment (s : FileStreamLogStore) (p : LogPath) : FileStreamLogStore :=
  match fs_segments s !! p with
  | Some w => set_files s (append_to_file (fs_files s) p (sw_buffer w))
                (<[p := mkWriter [] (sw_record_count w) (sw_last_write w)]> (fs_segments s))
  | None => s
  end.

Definition flush_all (s : FileStreamLogStore) : FileStreamLogStore :=
  foldl flush_segment s (map_to_list (fs_segments s)).*1.

Definition close_segment (s : FileStreamLogStore) (p : LogPath) : FileStreamLogStore :=
  match fs_segments s !! p with
  | Some w => set_files s (append_to_file (fs_files s) p (sw_buffer w)) (delete p (fs_segments s))
  | None => s
  end.

Definition close_segments (s : FileStreamLogStore) (ps : list LogPath) : FileStreamLogStore := foldl close_segment s ps.

Definition idle_segment (now max_idle : Z) (e : LogPath * SegmentWriter) : bool := max_idle <? now - sw_last_write e.2.

Definition close_idle_segments (s : FileStreamLogStore) (now max_idle : Z) : FileStreamLogStore :=
  close_segments s (filter (fun e => idle_segment now max_idle e) (map_to_list (fs_segments s))).*1.

Definition in_window (w : list Z) (p : LogPath) : bool := bool_decide (lp_window p = w).

Definition close_segments_under (s : FileStreamLogStore) (w : list Z) : FileStreamLogStore :=
  close_segments s (filter (fun p => in_window w p) (map_to_list (fs_segments s)).*1).

Definition older_writer (a b : LogPath * SegmentWriter) : bool := sw_last_write a.2 <=? sw_last_write b.2.

Definition prune_open_segments_if_needed (s : FileStreamLogStore) : FileStreamLogStore :=
  let current_len := size (fs_segments s) in
  if (current_len <=? MAX_OPEN_SEGMENTS)%nat then s
  else
    let remove_count := Nat.min (current_len - MAX_OPEN_SEGMENTS + SEGMENT_EVICT_BATCH) current_len in
    close_segments s (take remove_count (sort_by older_writer (map_to_list (fs_segments s)))).*1.

(** The writer of a path is opened, and its file created, on first access. *)
Definition get_or_create_writer (s : FileStreamLogStore) (p : LogPath) (now : Z) : FileStreamLogStore :=
  match fs_segments s !! p with
  | Some _ => s
  | None =>
      prune_open_segments_if_needed
        (set_files s (<[p := default [] (fs_files s !! p)]> (fs_files s)) (<[p := mkWriter [] 0 now]> (fs_segments s)))
  end.

(** [BufWriter::write_all]: what goes to the file and what stays in the buffer. *)
Definition buf_write (buffer bytes : list Z) : list Z * list Z :=
  let '(written, kept) :=
    if SEGMENT_BUF_CAPACITY <? Z.of_nat (length buffer) + Z.of_nat (length bytes) then (buffer, []) else ([], buffer) in
  if SEGMENT_BUF_CAPACITY <=? Z.of_nat (length bytes) then (written ++ bytes, kept) else (written, kept ++ bytes).

(** A writer that the cache dropped meanwhile is dropped with its last handle, which flushes it. *)
Definition append_encoded_bytes (s : FileStreamLogStore) (p : LogPath) (encoded : list Z) (record_count now : Z) :
    FileStreamLogStore :=
  match encoded with
  | [] => s
  | _ =>
      if record_count =? 0 then s
      else
        let s := get_or_create_writer s p now in
        match fs_segments s !! p with
        | Some w =>
            let '(written, kept) := buf_write (sw_buffer w) encoded in
            set_files s (append_to_file (fs_files s) p written)
              (<[p := mkWriter kept (sw_record_count w + record_count) now]> (fs_segments s))
        | None => set_files s (append_to_file (fs_files s) p encoded) (fs_segments s)
        end
  end.

(** ** Frames *)

(** The row payload: the fields of a row under the schema of the table. *)
Class StreamRowCodec := {
  encode_stream_row : gmap string ScalarValue -> SerResult (list Z);
  decode_stream_row : list Z -> SerResult (gmap string ScalarValue)
}.

Definition serialization {A} (r : SerResult A) : StreamResult A := map_err (fun _ => StreamSerialization "codec") r.

Section FileStore.
Context `{UserHash} `{Calendar} `{StreamRowCodec}.
Implicit Types s : FileStreamLogStore.

Definition append_put_frame (out : list Z) (row_id : StreamTableRowId) (row : StreamTableRow) : StreamResult (list Z) :=
  let? payload := serialization (encode_stream_row (sr_fields row)) in
  serialization (append_stream_put_frame out (ri_user_id row_id) (ri_version row_id) (sr_timestamp row) payload).

Definition encode_delete_frame (row_id : StreamTableRowId) (timestamp_millis : Z) : StreamResult (list Z) :=
  serialization (append_stream_delete_frame [] (ri_user_id row_id) (ri_version row_id) timestamp_millis).

(** The row of a raw put record. *)
Definition decode_put (user_id : string) (version timestamp : Z) (row_payload : list Z) :
    StreamResult (StreamTableRowId * StreamTableRow) :=
  let? uid := serialization (user_id_new user_id) in
  let? ver := map_err (fun _ => StreamSerialization "version") (try_from_i64 version) in
  let? fields := serialization (decode_stream_row row_payload) in
  Ok (mkRowId uid ver, mkStreamRow uid ver timestamp fields).

Definition decode_frame_payload (payload : list Z) : StreamResult StreamLogRecord :=
  let? raw := serialization (decode_raw_stream_record payload) in
  match raw with
  | StreamPut user_id version timestamp row_payload =>
      let? (id, row) := decode_put user_id version timestamp row_payload in
      Ok (LogPut id row)
  | StreamDelete user_id version timestamp =>
      let? ver := map_err (fun _ => StreamSerialization "version") (try_from_i64 version) in
      let? uid := serialization (user_id_new user_id) in
      Ok (LogDelete (mkRowId uid ver) timestamp)
  end.

(** ** Writing *)

Definition segment_of s (u : UserId) (timestamp_millis : Z) : LogPath :=
  log_path s u (window_start_ms (fs_bucket s) (Z.max timestamp_millis 0)).

Definition file_append_delete s (t : TableId) (u : UserId) (row_id : StreamTableRowId) (timestamp_millis now : Z) :
    StreamResult FileStreamLogStore :=
  let? _ := ensure_table (fs_table_id s) t in
  let path := segment_of s u timestamp_millis in
  let? encoded := encode_delete_frame row_id timestamp_millis in
  Ok (append_encoded_bytes s path encoded 1 now).

Definition file_append_row s (t : TableId) (u : UserId) (row_id : StreamTableRowId) (row : StreamTableRow) (now : Z) :
    StreamResult FileStreamLogStore :=
  let? _ := ensure_table (fs_table_id s) t in
  let path := segment_of s u (sr_timestamp row) in
  let? encoded := append_put_frame [] row_id row in
  Ok (append_encoded_bytes s path encoded 1 now).

Definition version_leb (a b : StreamTableRowId * StreamTableRow) : bool := ri_version a.1 <=? ri_version b.1.

Fixpoint encode_rows (out : list Z) (rows : Rows) : StreamResult (list Z) :=
  match rows with
  | [] => Ok out
  | (id, row) :: rows' => let? out := append_put_frame out id row in encode_rows out rows'
  end.

(** The rows by segment, each segment in version order; a segment whose rows do not encode stops
    the batch after the segments before it were written. *)
Fixpoint append_segments s (rows : Rows) (u : UserId) (paths : list LogPath) (now : Z) :
    FileStreamLogStore * StreamResult unit :=
  match paths with
  | [] => (s, Ok tt)
  | p :: paths' =>
      let segment := sort_by version_leb (filter (fun r => segment_of s u (sr_timestamp r.2) = p) rows) in
      match encode_rows [] segment with
      | Ok encoded => append_segments (append_encoded_bytes s p encoded (Z.of_nat (length segment)) now) rows u paths' now
      | Err e => (s, Err e)
      end
  end.

Definition file_append_puts s (t : TableId) (u : UserId) (rows : Rows) (now : Z) : FileStreamLogStore * StreamResult unit :=
  match ensure_table (fs_table_id s) t with
  | Err e => (s, Err e)
  | Ok _ =>
      append_segments s rows u
        (elements (list_to_set ((fun r => segment_of s u (sr_timestamp r.2)) <$> rows) : gset LogPath)) now
  end.

(** ** Expiry *)

(** The window directories that exist. *)
Definition window_dirs s : list (list Z) :=
  elements (list_to_set (lp_window <$> (map_to_list (fs_files s)).*1) : gset (list Z)).

Definition expired_window (before_time : Z) (w : list Z) : bool :=
  match parse_window_dir w with Some (_, window_end) => window_end <=? before_time | None => false end.

(** [remove_dir_all] between two rounds of closing writers. *)
Definition delete_window s (w : list Z) : FileStreamLogStore :=
  let s := close_segments_under s w in
  close_segments_under (set_files s (filter (fun e => lp_window e.1 <> w) (fs_files s)) (fs_segments s)) w.

Definition file_delete_old_logs_with_count s (before_time : Z) : FileStreamLogStore * nat :=
  let dirs := filter (fun w => expired_window before_time w) (window_dirs s) in
  (foldl delete_window s dirs, length dirs).

Definition file_has_logs_before s (before_time : Z) : bool := existsb (expired_window before_time) (window_dirs s).

Definition file_list_user_ids s : list UserId :=
  elements (list_to_set (omap (fun p => match parse_window_dir (lp_window p) with
                                        | Some _ => parse_user_id_from_log_path p
                                        | None => None
                                        end) (map_to_list (fs_files s)).*1) : gset UserId).

(** ** Reading *)

(** The complete frames of a file; a torn frame at the end is not read. *)
Fixpoint split_frames (fuel : nat) (bytes : list Z) : list (list Z) :=
  match fuel with
  | O => []
  | S fuel' =>
      if (length bytes <? 4)%nat then []
      else
        let len := Z.to_nat (from_le (take 4 bytes)) in
        let rest := drop 4 bytes in
        if (length rest <? len)%nat then []
        else take len rest :: split_frames fuel' (drop len rest)
  end.

Definition frames_of (bytes : list Z) : list (list Z) := split_frames (length bytes) bytes.

(** The visitor of [collect_range_from_entries]: the new state, and whether to go on. *)
Definition visit_range (limit : nat) (st : gset Z * Rows) (r : StreamLogRecord) : (gset Z * Rows) * bool :=
  match r with
  | LogPut row_id row =>
      if decide (ri_version row_id ∈ st.1) then (st, true)
      else
        let results := st.2 ++ [(row_id, row)] in
        ((st.1, results), (length results <? limit)%nat)
  | LogDelete row_id _ =>
      (({[ri_version row_id]} ∪ st.1, filter (fun p => ri_version p.1 <> ri_version row_id) st.2), true)
  end.

Fixpoint visit_records (limit : nat) (st : gset Z * Rows) (frames : list (list Z)) : StreamResult ((gset Z * Rows) * bool) :=
  match frames with
  | [] => Ok (st, true)
  | f :: frames' =>
      let? record := decode_frame_payload f in
      let '(st, continue) := visit_range limit st record in
      if continue then visit_records limit st frames' else Ok (st, false)
  end.

Definition file_content s (p : LogPath) : list Z := default [] (fs_files s !! p).

Fixpoint collect_range_from_entries s (limit : nat) (st : gset Z * Rows) (entries : list LogPath) :
    StreamResult (FileStreamLogStore * Rows) :=
  match entries with
  | [] => Ok (s, st.2)
  | p :: entries' =>
      let s := flush_segment s p in
      let? (st, continue) := visit_records limit st (frames_of (file_content s p)) in
      if continue then collect_range_from_entries s limit st entries' else Ok (s, st.2)
  end.

(** The log files of a user with their windows. *)
Definition list_log_files_for_user s (u : UserId) : list (Z * Z * LogPath) :=
  omap (fun w =>
    match parse_window_dir w with
    | Some (window_start, window_end) =>
        let p := mkPath w (folder_name (route_stream_user user_hash (fs_router s) u)) (user_log_file_name u) in
        match fs_files s !! p with Some _ => Some (window_start, window_end, p) | None => None end
    | None => None
    end) (window_dirs s).

Definition earlier_window (a b : Z * Z * LogPath) : bool := a.1.1 <=? b.1.1.
Definition later_window (a b : Z * Z * LogPath) : bool := b.1.1 <=? a.1.1.

Definition overlaps (start_time end_time : Z) (e : Z * Z * LogPath) : bool :=
  (e.1.1 <=? end_time) && (start_time <? e.1.2).

Definition list_log_files_for_user_in_range s (u : UserId) (start_time end_time : Z) : list LogPath :=
  (sort_by earlier_window (filter (fun e => overlaps start_time end_time e) (list_log_files_for_user s u))).*2.

Definition file_read_range_internal s (u : UserId) (start_time end_time : Z) (limit : nat) :
    StreamResult (FileStreamLogStore * Rows) :=
  if (limit =? 0)%nat then Ok (s, [])
  else collect_range_from_entries s limit (∅, []) (list_log_files_for_user_in_range s u start_time end_time).

(** One file of [read_latest_internal], newest frame first.  Rows are decoded only when kept. *)
Fixpoint visit_latest (limit : nat) (st : gset Z * Rows) (frames : list (list Z)) : StreamResult ((gset Z * Rows) * bool) :=
  match frames with
  | [] => Ok (st, true)
  | f :: frames' =>
      let? raw := serialization (decode_raw_stream_record f) in
      match raw with
      | StreamPut user_id version timestamp row_payload =>
          if decide (version ∈ st.1) then visit_latest limit st frames'
          else
            let? p := decode_put user_id version timestamp row_payload in
            let results := st.2 ++ [p] in
            if (limit <=? length results)%nat then Ok ((st.1, results), false)
            else visit_latest limit (st.1, results) frames'
      | StreamDelete _ version _ => visit_latest limit ({[version]} ∪ st.1, st.2) frames'
      end
  end.

Fixpoint latest_from_entries s (limit : nat) (st : gset Z * Rows) (entries : list LogPath) :
    StreamResult (FileStreamLogStore * Rows) :=
  match entries with
  | [] => Ok (s, st.2)
  | p :: entries' =>
      let s := flush_segment s p in
      let? (st, continue) := visit_latest limit st (reverse (frames_of (file_content s p))) in
      if continue then latest_from_entries s limit st entries' else Ok (s, st.2)
  end.

Definition file_read_latest_internal s (u : UserId) (limit : nat) : StreamResult (FileStreamLogStore * Rows) :=
  if (limit =? 0)%nat then Ok (s, [])
  else latest_from_entries s limit (∅, []) (sort_by later_window (list_log_files_for_user s u)).*2.

Definition file_read_in_time_range s (t : TableId) (u : UserId) (start_time end_time : Z) (limit : nat) :
    StreamResult (FileStreamLogStore * RowMap) :=
  let? _ := ensure_table (fs_table_id s) t in
  let? (s, rows) := file_read_range_internal s u start_time end_time limit in
  Ok (s, collect_rows rows).

Definition file_read_with_limit s (t : TableId) (u : UserId) (limit : nat) : StreamResult (FileStreamLogStore * RowMap) :=
  let? _ := ensure_table (fs_table_id s) t in
  let? (s, rows) := file_read_latest_internal s u limit in
  Ok (s, collect_rows rows).

End FileStore.

(** ** What a file holds

    The content of a path is its file and the bytes still in the buffer of its writer. *)

Definition buffered (s : FileStreamLogStore) (p : LogPath) : list Z := default [] (sw_buffer <$> fs_segments s !! p).

Definition content (s : FileStreamLogStore) (p : LogPath) : option (list Z) :=
  (fun bytes => bytes ++ buffered s p) <$> fs_files s !! p.

(** Open writers have their file. *)
Definition segments_ok (s : FileStreamLogStore) : Prop :=
  forall p, is_Some (fs_segments s !! p) -> is_Some (fs_files s !! p).

Definition same_config (s s' : FileStreamLogStore) : Prop :=
  fs_table_id s' = fs_table_id s /\ fs_bucket s' = fs_bucket s /\ fs_router s' = fs_router s.

Record preserves (s s' : FileStreamLogStore) : Prop := {
  pr_segments : segments_ok s';
  pr_content : forall p, content s' p = content s p;
  pr_config : same_config s s'
}.

Lemma preserves_refl s : segments_ok s -> preserves s s.
Proof. by split. Qed.

Lemma preserves_trans s1 s2 s3 : preserves s1 s2 -> preserves s2 s3 -> preserves s1 s3.
Proof.
  intros [H1 H2 (H3 & H4 & H5)] [H6 H7 (H8 & H9 & H10)]. split; [done|by intros p; rewrite H7|].
  split_and!; congruence.
Qed.

Lemma append_to_file_lookup files p q bytes :
  append_to_file files p bytes !! q = (fun c => if decide (p = q) then c ++ bytes else c) <$> files !! q.
Proof.
  unfold append_to_file. destruct (files !! p) as [c|] eqn:E.
  - destruct (decide (p = q)) as [->|Hne].
    + by rewrite lookup_insert_eq, E.
    + rewrite lookup_insert_ne by done. by destruct (files !! q).
  - destruct (files !! q) eqn:E'; [|done]. cbn. rewrite decide_False; [done|]. by intros ->; congruence.
Qed.

(** Writing out the buffer of a path and giving it another writer state with an empty buffer, or
    none, changes no content. *)
Lemma spill_preserves s p w segments :
  segments_ok s -> fs_segments s !! p = Some w -> (forall q, q <> p -> segments !! q = fs_segments s !! q) ->
  default [] (sw_buffer <$> segments !! p) = [] ->
  preserves s (set_files s (append_to_file (fs_files s) p (sw_buffer w)) segments).
Proof.
  intros Hok Hw Hother Hp. split; [| |done].
  - intros q Hq. cbn in *. rewrite append_to_file_lookup. destruct (decide (q = p)) as [->|Hne].
    + destruct (Hok p) as [c ->]; [by rewrite Hw|]. by eexists.
    + rewrite Hother in Hq by done. destruct (Hok q Hq) as [c ->]. by eexists.
  - intros q. unfold content, buffered. cbn. rewrite append_to_file_lookup, <-option_fmap_compose.
    destruct (fs_files s !! q) as [c|]; [|done]. cbn. f_equal. destruct (decide (p = q)) as [->|Hne].
    + by rewrite Hp, app_nil_r, Hw.
    + by rewrite Hother by done.
Qed.

Lemma flush_segment_preserves s p : segments_ok s -> preserves s (flush_segment s p).
Proof.
  intros Hok. unfold flush_segment. destruct (fs_segments s !! p) as [w|] eqn:E; [|by apply preserves_refl].
  apply spill_preserves; [done..| |by rewrite lookup_insert_eq]. intros q Hq. by rewrite lookup_insert_ne.
Qed.

Lemma flush_segment_buffered s p : buffered (flush_segment s p) p = [].
Proof.
  unfold flush_segment, buffered. destruct (fs_segments s !! p) as [w|] eqn:E; [|by rewrite E].
  cbn. by rewrite lookup_insert_eq.
Qed.

Lemma close_segment_preserves s p : segments_ok s -> preserves s (close_segment s p).
Proof.
  intros Hok. unfold close_segment. destruct (fs_segments s !! p) as [w|] eqn:E; [|by apply preserves_refl].
  apply spill_preserves; [done..| |by rewrite lookup_delete_eq]. intros q Hq. by rewrite lookup_delete_ne.
Qed.

Lemma close_segments_preserves ps s : segments_ok s -> preserves s (close_segments s ps).
Proof.
  unfold close_segments. revert s. induction ps as [|p ps IH]; intros s Hok; [by apply preserves_refl|].
  cbn [foldl]. pose proof (close_segment_preserves s p Hok) as Hp.
  eapply preserves_trans; [exact Hp|]. apply IH, Hp.
Qed.

Lemma close_segments_map ps s : fs_segments (close_segments s ps) = foldl (fun m p => delete p m) (fs_segments s) ps.
Proof.
  unfold close_segments. revert s. induction ps as [|p ps IH]; intros s; [done|]. cbn [foldl]. rewrite IH. f_equal.
  unfold close_segment. destruct (fs_segments s !! p) as [w|] eqn:E; [done|]. by rewrite delete_id.
Qed.

Lemma size_delete_keys (ps : list LogPath) (m : gmap LogPath SegmentWriter) :
  NoDup ps -> (forall p, p ∈ ps -> is_Some (m !! p)) -> (size (foldl (fun m p => delete p m) m ps) + length ps = size m)%nat.
Proof.
  intros Hnd. revert m. induction Hnd as [|p ps Hp Hnd IH]; intros m Hin; cbn [foldl length]; [lia|].
  destruct (Hin p ltac:(by left)) as [w Hw].
  assert (size m = S (size (delete p m))) as ->.
  { rewrite <-(insert_delete_id m p w Hw) at 1. by rewrite map_size_insert_None by apply lookup_delete_eq. }
  rewrite <-(IH (delete p m)); [lia|]. intros q Hq. rewrite lookup_delete_ne by (by intros ->).
  apply Hin. by right.
Qed.

Lemma prune_preserves s : segments_ok s -> preserves s (prune_open_segments_if_needed s).
Proof.
  intros Hok. unfold prune_open_segments_if_needed. case_match; [by apply preserves_refl|by apply close_segments_preserves].
Qed.

Lemma prune_bound s : (size (fs_segments (prune_open_segments_if_needed s)) <= MAX_OPEN_SEGMENTS)%nat.
Proof.
  unfold prune_open_segments_if_needed. destruct (Nat.leb_spec (size (fs_segments s)) MAX_OPEN_SEGMENTS) as [|Hgt]; [done|].
  rewrite close_segments_map. set (n := Nat.min _ _). set (l := sort_by older_writer (map_to_list (fs_segments s))).
  assert (l ≡ₚ map_to_list (fs_segments s)) as Hperm by apply sort_by_perm.
  assert (NoDup l.*1) as Hnd by (rewrite Hperm; apply NoDup_fst_map_to_list).
  assert (length (take n l).*1 = n) as Hlen.
  { rewrite length_fmap, length_take, Hperm, length_map_to_list. unfold n. lia. }
  pose proof (size_delete_keys (take n l).*1 (fs_segments s)) as Hsize. rewrite Hlen in Hsize.
  assert (size (foldl (fun m p => delete p m) (fs_segments s) (take n l).*1) + n = size (fs_segments s))%nat as Heq;
    [apply Hsize|unfold n, SEGMENT_EVICT_BATCH, MAX_OPEN_SEGMENTS in *; lia].
  - rewrite <-(take_drop n l), fmap_app in Hnd. by apply NoDup_app in Hnd as (? & _).
  - intros p ([q w] & -> & Hin)%list_elem_of_fmap. apply elem_of_take in Hin as (i & Hi%list_elem_of_lookup_2 & _).
    rewrite Hperm in Hi. apply elem_of_map_to_list in Hi. by eexists.
Qed.

(** The writer of a path: nothing changes but that the file exists. *)
Lemma get_or_create_spec s p now :
  segments_ok s ->
  let s' := get_or_create_writer s p now in
  segments_ok s' /\ same_config s s' /\
  (forall q, content s' q = if decide (q = p) then Some (default [] (content s p)) else content s q) /\
  ((size (fs_segments s) <= MAX_OPEN_SEGMENTS)%nat -> (size (fs_segments s') <= MAX_OPEN_SEGMENTS)%nat).
Proof.
  intros Hok. cbn zeta. unfold get_or_create_writer. destruct (fs_segments s !! p) as [w|] eqn:E.
  - split; [done|]. split; [done|]. split; [|done]. intros q. case_decide as Hq; [subst q|done].
    unfold content. destruct (Hok p) as [c ->]; [by rewrite E|]. done.
  - set (s1 := set_files s _ _).
    assert (segments_ok s1) as Hok1.
    { intros q Hq. cbn in *. destruct (decide (p = q)) as [->|Hne]; [by rewrite lookup_insert_eq|].
      rewrite lookup_insert_ne in Hq by done. rewrite lookup_insert_ne by done. by apply Hok. }
    destruct (prune_preserves s1 Hok1) as [Hok2 Hc Hcfg]. split; [done|]. split; [done|].
    split; [|intros _; apply prune_bound]. intros q. rewrite Hc. unfold content, buffered. cbn.
    case_decide as Hq; [subst q|].
    + rewrite !lookup_insert_eq, E. cbn. rewrite app_nil_r. destruct (fs_files s !! p); cbn; by rewrite ?app_nil_r.
    + by rewrite !lookup_insert_ne by done.
Qed.

Lemma buf_write_content buffer bytes :
  let '(written, kept) := buf_write buffer bytes in written ++ kept = buffer ++ bytes.
Proof.
  unfold buf_write. destruct (_ <? _) eqn:E1; destruct (_ <=? _) eqn:E2; cbn; rewrite ?app_nil_r; try done. zbool.
  unfold SEGMENT_BUF_CAPACITY in *. by destruct buffer; [rewrite app_nil_r|cbn in *; lia].
Qed.

(** Appending adds the bytes to the content of the path, wherever they are kept. *)
Lemma append_encoded_spec s p encoded n now :
  segments_ok s -> encoded <> [] -> n <> 0 ->
  let s' := append_encoded_bytes s p encoded n now in
  segments_ok s' /\ same_config s s' /\
  (forall q, content s' q = if decide (q = p) then Some (default [] (content s p) ++ encoded) else content s q) /\
  ((size (fs_segments s) <= MAX_OPEN_SEGMENTS)%nat -> (size (fs_segments s') <= MAX_OPEN_SEGMENTS)%nat).
Proof.
  intros Hok He Hn. cbn zeta. unfold append_encoded_bytes. destruct encoded as [|b encoded']; [done|].
  set (encoded := b :: encoded') in *. rewrite (proj2 (Z.eqb_neq n 0)) by done.
  destruct (get_or_create_spec s p now Hok) as (Hok1 & Hcfg & Hc & Hsz).
  set (s1 := get_or_create_writer s p now) in *.
  assert (is_Some (fs_files s1 !! p)) as [c Hf].
  { specialize (Hc p). rewrite decide_True in Hc by done. unfold content at 1 in Hc.
    destruct (fs_files s1 !! p); [by eexists|done]. }
  assert (c ++ buffered s1 p = default [] (content s p)) as Hcp.
  { specialize (Hc p). rewrite decide_True in Hc by done. unfold content at 1 in Hc. rewrite Hf in Hc. by injection Hc. }
  destruct (fs_segments s1 !! p) as [w|] eqn:Ew.
  - pose proof (buf_write_content (sw_buffer w) encoded) as Hbw.
    destruct (buf_write (sw_buffer w) encoded) as [written kept].
    split; [|split; [done|split]].
    + intros q Hq. cbn in *. rewrite append_to_file_lookup. destruct (decide (q = p)) as [->|Hne].
      * rewrite Hf. by eexists.
      * rewrite lookup_insert_ne in Hq by done. destruct (Hok1 q Hq) as [c' ->]. by eexists.
    + intros q. unfold content at 1, buffered. cbn. rewrite append_to_file_lookup. destruct (decide (q = p)) as [->|Hq].
      * rewrite Hf. cbn. rewrite decide_True, lookup_insert_eq by done. cbn.
        rewrite <-app_assoc, Hbw, <-Hcp. unfold buffered. by rewrite Ew, <-app_assoc.
      * rewrite lookup_insert_ne by done. specialize (Hc q). rewrite decide_False in Hc by done.
        rewrite <-Hc. unfold content, buffered. destruct (fs_files s1 !! q); [|done]. cbn. by rewrite decide_False by congruence.
    + intros Hle. cbn. rewrite map_size_insert_Some by (by eexists). by apply Hsz.
  - split; [|split; [done|split]].
    + intros q Hq. cbn in *. rewrite append_to_file_lookup. destruct (Hok1 q Hq) as [c' ->]. by eexists.
    + intros q. unfold content at 1, buffered. cbn. rewrite append_to_file_lookup. destruct (decide (q = p)) as [->|Hq].
      * rewrite Hf. cbn. rewrite decide_True by done. rewrite Ew. cbn. rewrite app_nil_r, <-Hcp.
        unfold buffered. rewrite Ew. cbn. by rewrite app_nil_r.
      * specialize (Hc q). rewrite decide_False in Hc by done. rewrite <-Hc. unfold content, buffered.
        destruct (fs_files s1 !! q); [|done]. cbn. by rewrite decide_False by congruence.
    + done.
Qed.

(** ** Frames and records *)

Definition framed (f : list Z) : list Z := le_bytes 4 (Z.of_nat (length f)) ++ f.

Definition frame_fits (f : list Z) : Prop := Z.of_nat (length f) <= u32_max.

Lemma framed_length f : length (framed f) = (4 + length f)%nat.
Proof. unfold framed. by rewrite length_app, le_bytes_length. Qed.

Lemma split_framed fuel f rest :
  frame_fits f -> split_frames (S fuel) (framed f ++ rest) = f :: split_frames fuel rest.
Proof.
  intros Hf. cbn [split_frames]. rewrite length_app, framed_length. rewrite (proj2 (Nat.ltb_ge _ 4)) by lia.
  unfold framed. rewrite <-app_assoc.
  rewrite (take_app_length' (le_bytes 4 _) _ 4), (drop_app_length' (le_bytes 4 _) _ 4) by (by rewrite le_bytes_length).
  unfold frame_fits, u32_max in Hf. rewrite from_le_bytes by lia. rewrite Nat2Z.id, length_app.
  rewrite (proj2 (Nat.ltb_ge _ _)) by lia. by rewrite take_app_length, drop_app_length.
Qed.

(** The frames of a file are those that were written. *)
Lemma split_frames_all fuel fs :
  Forall frame_fits fs -> (length fs <= fuel)%nat -> split_frames fuel (concat (framed <$> fs)) = fs.
Proof.
  intros Hfs. revert fuel. induction Hfs as [|f fs Hf Hfs IH]; intros fuel Hfuel.
  - by destruct fuel.
  - destruct fuel as [|fuel]; [cbn in Hfuel; lia|]. rewrite fmap_cons. cbn [concat]. rewrite split_framed by done.
    rewrite IH; [done|]. cbn in Hfuel. lia.
Qed.

Lemma concat_framed_length fs : (length fs <= length (concat (framed <$> fs)))%nat.
Proof.
  induction fs as [|f fs IH]; [done|]. rewrite fmap_cons. cbn [concat length]. rewrite length_app, framed_length. lia.
Qed.

Lemma frames_of_framed fs : Forall frame_fits fs -> frames_of (concat (framed <$> fs)) = fs.
Proof. intros Hfs. apply split_frames_all; [done|apply concat_framed_length]. Qed.

(** A file cut anywhere yields the complete frames before the cut. *)
Lemma split_frames_torn fuel fs n :
  Forall frame_fits fs -> (length fs <= fuel)%nat ->
  exists k, split_frames fuel (take n (concat (framed <$> fs))) = take k fs /\
    (forall j, (length (concat (framed <$> take j fs)) <= n)%nat -> take j fs = take (Nat.min j k) fs).
Proof.
  intros Hfs. revert fuel n. induction Hfs as [|f fs Hf Hfs IH]; intros fuel n Hfuel.
  - exists 0%nat. cbn. rewrite take_nil. split; [by destruct fuel|]. intros j _. by rewrite !take_nil.
  - destruct fuel as [|fuel]; [cbn in Hfuel; lia|]. cbn [length] in Hfuel.
    change (concat (framed <$> f :: fs)) with (framed f ++ concat (framed <$> fs)).
    destruct (Nat.le_gt_cases (length (framed f)) n) as [Hle|Hgt].
    + rewrite take_app_ge by done. destruct (IH fuel (n - length (framed f))%nat) as (k & Hk & Hall); [lia|].
      exists (S k). rewrite split_framed by done. rewrite Hk. split; [done|]. intros [|j] Hj; [done|].
      cbn [take] in Hj |- *. cbn [Nat.min take]. f_equal. apply Hall.
      change (concat (framed <$> f :: take j fs)) with (framed f ++ concat (framed <$> take j fs)) in Hj.
      rewrite length_app in Hj. lia.
    + exists 0%nat. split.
      * rewrite take_app_le by lia. rewrite framed_length in Hgt. cbn [split_frames].
        rewrite length_take, framed_length. destruct (Nat.ltb_spec (Nat.min n (4 + length f)) 4) as [|H4]; [done|].
        rewrite take_take, Nat.min_l by lia. unfold framed.
        rewrite (take_app_length' (le_bytes 4 _) _ 4) by (by rewrite le_bytes_length).
        unfold frame_fits, u32_max in Hf. rewrite from_le_bytes by lia. rewrite Nat2Z.id.
        rewrite length_drop, length_take, length_app, le_bytes_length.
        by rewrite (proj2 (Nat.ltb_lt _ _)) by lia.
      * intros [|j] Hj; [done|]. exfalso. cbn [take] in Hj.
        change (concat (framed <$> f :: take j fs)) with (framed f ++ concat (framed <$> take j fs)) in Hj.
        rewrite length_app in Hj. lia.
Qed.

(** ** Records in their segments *)

(** The codec gives back the rows that are in the form of the schema. *)
Class StreamRowCodecLaws `{StreamRowCodec} (normal : gmap string ScalarValue -> Prop) : Prop :=
  codec_roundtrip : forall fields payload, normal fields -> encode_stream_row fields = Ok payload ->
    all_bytes payload /\ decode_stream_row payload = Ok fields.

Section Records.
Context `{UserHash} `{Calendar} `{StreamRowCodec} {normal : gmap string ScalarValue -> Prop} `{!StreamRowCodecLaws normal}.

Definition record_frame (r : StreamLogRecord) : StreamResult (list Z) :=
  match r with
  | LogPut id row => append_put_frame [] id row
  | LogDelete id ts => encode_delete_frame id ts
  end.

Definition payload_of (r : StreamLogRecord) : SerResult (list Z) :=
  match r with LogPut _ row => encode_stream_row (sr_fields row) | LogDelete _ _ => Ok [] end.

(** A record the file log can hold: a valid user id and a version that is not the empty one, a row in
    the form of the schema, and a frame whose length fits its prefix. *)
Record storable (r : StreamLogRecord) : Prop := {
  so_user : user_id_ok (record_user r);
  so_version : 1 <= ri_version (record_id r) <= i64_max;
  so_ts : is_i64 (record_ts r);
  so_row : forall id row, r = LogPut id row -> of_row id row /\ normal (sr_fields row);
  so_payload : exists payload, payload_of r = Ok payload /\
    Z.of_nat (HEADER_LEN + 21 + length (bytes_of_string (record_user r)) + length payload) <= u32_max
}.

(** The frame [f] of a record. *)
Record frame_for (r : StreamLogRecord) (f : list Z) : Prop := {
  ff_encoded : record_frame r = Ok (framed f);
  ff_fits : frame_fits f;
  ff_decoded : decode_frame_payload f = Ok r
}.

Definition raw_record (r : StreamLogRecord) (payload : list Z) : RawStreamRecord :=
  match r with
  | LogPut id row => StreamPut (ri_user_id id) (ri_version id) (sr_timestamp row) payload
  | LogDelete id ts => StreamDelete (ri_user_id id) (ri_version id) ts
  end.

Lemma envelope_length kind v flags payload : length (envelope kind v flags payload) = (HEADER_LEN + length payload)%nat.
Proof. unfold envelope. rewrite !length_app, !le_bytes_length. cbn [length MAGIC]. unfold HEADER_LEN. lia. Qed.

Lemma storable_frame r : storable r -> exists f, frame_for r f.
Proof.
  intros [[Hut Huv] Hv Hts Hrow (payload & Hp & Hsize)].
  set (raw := raw_record r payload). set (f := envelope StreamObject STREAM_BINARY_SCHEMA_VERSION 0 (stream_parts raw)).
  assert (Z.of_nat (HEADER_LEN + length (stream_parts raw)) <= u32_max) as Hlen.
  { unfold raw, record_user in *. destruct r; cbn [raw_record stream_parts record_id] in *; rewrite stream_inner_length;
      cbn [length] in *; lia. }
  assert (frame_fits f) as Hfit by (unfold frame_fits, f; by rewrite envelope_length).
  assert (append_stream_record [] raw = Ok (framed f)) as Henc by (by apply append_stream_record_bytes).
  assert (is_i64 (ri_version (record_id r))) as Hvi by (unfold is_i64; lia).
  assert (stream_record_ok raw) as Hraw.
  { unfold raw. destruct r as [id row|id ts]; cbn in *; [|done]. destruct (Hrow _ _ eq_refl) as [_ Hn].
    by destruct (codec_roundtrip _ _ Hn Hp). }
  assert (decode_raw_stream_record f = Ok raw) as Hdec by (apply decode_stream_parts; [done|lia]).
  assert (try_from_i64 (ri_version (record_id r)) = Ok (ri_version (record_id r))) as Hver.
  { unfold try_from_i64, try_from_raw. rewrite (proj2 (Z.ltb_ge _ 0)), (proj2 (Z.eqb_neq _ 0)), (proj2 (Z.ltb_ge i64_max _)) by lia.
    done. }
  assert (user_id_new (record_user r) = Ok (record_user r)) as Huid by (unfold user_id_new; by rewrite Huv).
  exists f. unfold raw, record_user in *. split; [|done|].
  - destruct r as [id row|id ts]; cbn [record_frame raw_record append_stream_record payload_of] in *.
    + unfold append_put_frame. rewrite Hp. cbn. by rewrite Henc.
    + unfold encode_delete_frame. by rewrite Henc.
  - unfold decode_frame_payload. rewrite Hdec. cbn [serialization map_err result_bind].
    destruct r as [id row|id ts]; cbn [raw_record record_id payload_of] in *.
    + unfold decode_put. rewrite Huid, Hver. destruct (Hrow _ _ eq_refl) as [[Ho1 Ho2] Hn].
      destruct (codec_roundtrip _ _ Hn Hp) as [_ Hd]. cbn. rewrite Hd. cbn.
      destruct id, row. cbn in *. by subst.
    + rewrite Hver, Huid. cbn. by destruct id.
Qed.

(** ** Window directories *)

Lemma decimal_parse n : 0 <= n <= u64_max -> parse_unsigned u64_max (decimal n) = Some n.
Proof. intros Hn. apply (parse_zero_padded u64_max 0 n); lia. Qed.

Lemma duration_bound b : 0 < duration_ms b <= u64_max.
Proof. destruct b; vm_compute; (split; [done|discriminate]). Qed.

(** Printing the directory of a window and parsing it back. *)
Lemma window_dir_parse b ws :
  0 <= ws <= u64_max -> parse_window_dir (window_dir b ws) = Some (ws, saturating_add ws (duration_ms b)).
Proof.
  intros Hws. unfold parse_window_dir, window_dir. rewrite strip_prefix_app. cbn [mbind option_bind].
  destruct (decimal_digits ws Hws) as (Hd & _ & _).
  change ([45] ++ decimal (duration_ms b)) with (45 :: decimal (duration_ms b)).
  rewrite position_app_none; [|eapply Forall_impl; [exact Hd|]|done].
  2: { intros c Hc. unfold is_ascii_digit, is_dash in *. zbool. lia. }
  cbn [mbind option_bind]. rewrite take_app_length.
  replace (drop (S (length (decimal ws))) (decimal ws ++ 45 :: decimal (duration_ms b))) with (decimal (duration_ms b)).
  2: { symmetry. rewrite <-Nat.add_1_r. rewrite <-drop_drop. by rewrite drop_app_length. }
  pose proof (duration_bound b). rewrite !decimal_parse by lia. done.
Qed.

Lemma window_start_range b ts : 0 <= ts <= u64_max -> 0 <= window_start_ms b ts <= u64_max.
Proof.
  intros Hts. unfold window_start_ms. case_match; [|done].
  destruct b; cbn zeta; match goal with |- context [wrap64 ?x] => pose proof (wrap64_range x) end;
    unfold u64_modulus, u64_max in *; lia.
Qed.

(** The window a record is written to ends after its timestamp. *)
Lemma window_covers `{!CalendarLaws} b ts : 0 <= ts <= i64_max -> ts < window_start_ms b ts + duration_ms b.
Proof.
  intros Hts. unfold window_start_ms. pose proof (duration_bound b) as Hd. case_match; [|lia].
  rewrite u64_as_i64_small by lia. unfold wrap64.
  assert (forall x, x <= ts -> ts < x + duration_ms b -> ts < x mod u64_modulus + duration_ms b) as Hwrap.
  { intros x Hx1 Hx2. unfold i64_max, u64_modulus in *. destruct (Z.le_gt_cases 0 x).
    - rewrite Z.mod_small by lia. done.
    - assert (duration_ms b < 2 ^ 62) by (destruct b; reflexivity).
      rewrite <-(Z_mod_plus_full x 1), Z.mod_small by lia. lia. }
  cbn zeta. pose proof (Z.div_mod ts day_ms ltac:(done)). pose proof (Z.mod_pos_bound ts day_ms ltac:(done)).
  destruct b; apply Hwrap; cbn [duration_ms] in *; unfold day_ms in *.
  - pose proof (Z.mod_pos_bound ts (60 * 1000) ltac:(done)). lia.
  - pose proof (Z.mod_pos_bound ts (60 * 1000) ltac:(done)). lia.
  - pose proof (Z.mod_pos_bound ts (60 * 60 * 1000) ltac:(done)). lia.
  - pose proof (Z.mod_pos_bound ts (60 * 60 * 1000) ltac:(done)). lia.
  - lia.
  - lia.
  - pose proof (weekday_range (ts / (24 * 60 * 60 * 1000))). lia.
  - pose proof (weekday_range (ts / (24 * 60 * 60 * 1000))). lia.
  - pose proof (month_range (ts / (24 * 60 * 60 * 1000))). lia.
  - pose proof (month_range (ts / (24 * 60 * 60 * 1000))). lia.
Qed.

End Records.

(** ** Reading what was written *)

Lemma partition_perm {A B} `{!EqDecision B} (f : A -> B) (ps : list B) (l : list A) :
  NoDup ps -> concat ((fun p => filter (fun a => f a = p) l) <$> ps) ≡ₚ filter (fun a => f a ∈ ps) l.
Proof.
  induction 1 as [|p ps Hp Hnd IH]; cbn [fmap list_fmap concat].
  - rewrite (filter_none (fun a => f a ∈ [])); [done|]. set_solver.
  - unfold fmap in IH. rewrite IH. clear IH. induction l as [|a l IH]; [done|]. rewrite !filter_cons.
    destruct (decide (f a = p)) as [<-|Hne].
    + rewrite decide_False by done. rewrite decide_True by set_solver. cbn. by f_equiv.
    + destruct (decide (f a ∈ ps)) as [Hin|Hin].
      * rewrite decide_True by set_solver. rewrite <-Permutation_middle. by f_equiv.
      * rewrite decide_False by set_solver. done.
Qed.

Lemma live_rows_iff h : history_ok h -> forall id row,
  live_rows h !! id = Some row <-> LogPut id row ∈ h /\ forall ts, LogDelete id ts ∉ h.
Proof.
  induction 1 as [|h id0 row0 Hh IH Hr Ho Hid|h id0 ts0 Hh IH Hr Hts]; intros id row.
  - split; [done|]. by intros [?%not_elem_of_nil _].
  - rewrite live_rows_snoc, lookup_insert_Some, IH. setoid_rewrite elem_of_app. setoid_rewrite list_elem_of_singleton.
    split.
    + intros [[-> ->]|[Hne [Hin Hd]]].
      * split; [by right|]. intros ts [Hin|?]; [|done]. destruct Hid. apply list_elem_of_fmap. by exists (LogDelete id ts).
      * split; [by left|]. intros ts [?|?]; [by eapply Hd|done].
    + intros [[Hin|[= -> ->]] Hd]; [|by left]. right. split.
      * intros ->. destruct Hid. apply list_elem_of_fmap. by exists (LogPut id row).
      * split; [done|]. intros ts Hin'. apply (Hd ts). by left.
  - rewrite live_rows_snoc, lookup_delete_Some, IH. setoid_rewrite elem_of_app. setoid_rewrite list_elem_of_singleton.
    split.
    + intros [Hne [Hin Hd]]. split; [by left|]. intros ts [?|[= -> ->]]; [by eapply Hd|done].
    + intros [[Hin|?] Hd]; [|done]. split; [intros ->; apply (Hd ts0); by right|]. split; [done|].
      intros ts Hin'. apply (Hd ts). by left.
Qed.

Lemma history_put_unique h : history_ok h -> forall id r1 r2, LogPut id r1 ∈ h -> LogPut id r2 ∈ h -> r1 = r2.
Proof.
  induction 1 as [|h id0 row0 Hh IH Hr Ho Hid|h id0 ts0 Hh IH Hr Hts]; intros id r1 r2.
  - by intros ?%not_elem_of_nil.
  - assert (forall r, LogPut id0 r ∉ h) as Hfresh.
    { intros r Hin. destruct Hid. apply list_elem_of_fmap. by exists (LogPut id0 r). }
    rewrite !elem_of_app, !list_elem_of_singleton. intros [H1|[= -> ->]] [H2|[= ]]; subst; naive_solver.
  - rewrite !elem_of_app, !list_elem_of_singleton. intros [H1|?] [H2|?]; naive_solver.
Qed.

Lemma history_records h : history_ok h -> Forall record_ok h.
Proof. induction 1; [constructor|apply Forall_app_2; [done|by apply Forall_singleton]..]. Qed.

(** The visitor is the loop of the in-memory log. *)
Fixpoint run_range (limit : nat) (st : gset Z * Rows) (rs : list StreamLogRecord) : (gset Z * Rows) * bool :=
  match rs with
  | [] => (st, true)
  | r :: rs' => let '(st, continue) := visit_range limit st r in if continue then run_range limit st rs' else (st, false)
  end.

Definition with_version (r : StreamLogRecord) : Z * StreamLogRecord := (ri_version (record_id r), r).

Lemma run_range_loop limit rs D R : (run_range limit (D, R) rs).1.2 = read_range_loop limit D R (with_version <$> rs).
Proof.
  revert D R. induction rs as [|r rs IH]; intros D R; [done|].
  destruct r as [id row|id ts]; cbn [run_range visit_range fmap list_fmap with_version record_id read_range_loop fst snd].
  - case_decide; [apply IH|]. cbn zeta.
    destruct (Nat.ltb_spec (length (R ++ [(id, row)])) limit), (Nat.leb_spec limit (length (R ++ [(id, row)]))); (lia || done || apply IH).
  - apply IH.
Qed.

Lemma run_range_app limit rs1 rs2 st :
  run_range limit st (rs1 ++ rs2) =
    let '(st', continue) := run_range limit st rs1 in if continue then run_range limit st' rs2 else (st', false).
Proof.
  revert st. induction rs1 as [|r rs1 IH]; intros st; cbn [app run_range]; [done|].
  destruct (visit_range limit st r) as [st' []]; [apply IH|done].
Qed.

Section Reading.
Context `{UserHash} `{Calendar} `{StreamRowCodec} {normal : gmap string ScalarValue -> Prop} `{!StreamRowCodecLaws normal}.

Lemma visit_records_spec limit st rs fs :
  Forall2 frame_for rs fs -> visit_records limit st fs = Ok (run_range limit st rs).
Proof.
  intros Hrs. revert st. induction Hrs as [|r f rs fs Hrf Hrs IH]; intros st; [done|].
  cbn [visit_records run_range]. rewrite (ff_decoded _ _ Hrf). cbn [result_bind].
  destruct (visit_range limit st r) as [st' []]; [apply IH|done].
Qed.

Definition record_path (s : FileStreamLogStore) (r : StreamLogRecord) : LogPath := segment_of s (record_user r) (record_ts r).

Definition records_at (s : FileStreamLogStore) (p : LogPath) (h : list StreamLogRecord) : list StreamLogRecord :=
  filter (fun r => record_path s r = p) h.

(** The bytes of a list of records. *)
Definition bytes_of (rs : list StreamLogRecord) (bytes : list Z) : Prop :=
  exists fs, Forall2 frame_for rs fs /\ bytes = concat (framed <$> fs).

(** Every path holds the frames of its records, in the order they were appended. *)
Record file_holds (s : FileStreamLogStore) (t : TableId) (h : list StreamLogRecord) : Prop := {
  fh_table : fs_table_id s = t;
  fh_segments : segments_ok s;
  fh_open : (size (fs_segments s) <= MAX_OPEN_SEGMENTS)%nat;
  fh_content : forall p, match content s p with
                         | Some bytes => bytes_of (records_at s p h) bytes
                         | None => records_at s p h = []
                         end
}.

Lemma record_path_config s s' r : same_config s s' -> record_path s' r = record_path s r.
Proof. intros (_ & Hb & Hr). unfold record_path, segment_of, log_path. by rewrite Hb, Hr. Qed.

Lemma records_at_config s s' p h : same_config s s' -> records_at s' p h = records_at s p h.
Proof. intros Hc. apply list_filter_iff. intros r. by rewrite (record_path_config s s'). Qed.

Lemma holds_preserved s s' t h :
  file_holds s t h -> preserves s s' -> (size (fs_segments s') <= MAX_OPEN_SEGMENTS)%nat -> file_holds s' t h.
Proof.
  intros [Ht Hs Ho Hc] [Hs' Hc' Hcfg] Ho'. split; [|done|done|].
  - by destruct Hcfg as (-> & _).
  - intros p. rewrite Hc', (records_at_config s s') by done. apply Hc.
Qed.

Lemma append_holds s t h r encoded now :
  file_holds s t h -> storable (normal := normal) r -> record_frame r = Ok encoded ->
  file_holds (append_encoded_bytes s (record_path s r) encoded 1 now) t (h ++ [r]).
Proof.
  intros [Ht Hs Ho Hc] Hst Henc. destruct (storable_frame r Hst) as [f Hf]. rewrite (ff_encoded _ _ Hf) in Henc.
  apply Ok_inj in Henc as <-.
  destruct (append_encoded_spec s (record_path s r) (framed f) 1 now Hs) as (Hs' & Hcfg & Hc' & Ho'); [|done|].
  { intros Hnil%(f_equal length). rewrite framed_length in Hnil. done. }
  set (s' := append_encoded_bytes _ _ _ _ _) in *. split; [by destruct Hcfg as (-> & _)|done|by apply Ho'|].
  intros p. rewrite Hc', (records_at_config s s') by done. unfold records_at. rewrite filter_app, filter_cons, filter_nil.
  specialize (Hc p). unfold records_at in Hc. destruct (decide (p = record_path s r)) as [->|Hne].
  - rewrite decide_True by done. cbn.
    assert (exists fs, Forall2 frame_for (filter (fun r0 => record_path s r0 = record_path s r) h) fs /\
      default [] (content s (record_path s r)) = concat (framed <$> fs)) as (fs & Hfs & ->).
    { destruct (content s (record_path s r)) as [bytes|]; [by destruct Hc as (fs & ? & ->); exists fs|].
      rewrite Hc. by exists []. }
    exists (fs ++ [f]). split; [apply Forall2_app; [done|by constructor]|].
    rewrite fmap_app, concat_app. cbn. by rewrite app_nil_r.
  - rewrite decide_False, app_nil_r by congruence. exact Hc.
Qed.

(** ** The files of a user *)

Definition path_of_user (s : FileStreamLogStore) (u : UserId) (p : LogPath) : Prop :=
  lp_shard p = folder_name (route_stream_user user_hash (fs_router s) u) /\ lp_file p = user_log_file_name u.

Lemma file_name_inj u1 u2 : user_log_file_name u1 = user_log_file_name u2 -> u1 = u2.
Proof. intros Hu. unfold user_log_file_name in Hu. apply app_inj_2 in Hu as [Hu _]; [|done]. by apply bytes_of_string_inj. Qed.

Lemma path_of_record s r : path_of_user s (record_user r) (record_path s r).
Proof. done. Qed.

Lemma record_path_user s r u : path_of_user s u (record_path s r) -> record_user r = u.
Proof. intros [_ Hf]. by apply file_name_inj in Hf. Qed.

Lemma window_dirs_elem s w : w ∈ window_dirs s <-> exists p, is_Some (fs_files s !! p) /\ lp_window p = w.
Proof.
  unfold window_dirs. rewrite elem_of_elements, elem_of_list_to_set, list_elem_of_fmap.
  setoid_rewrite list_elem_of_fmap. split.
  - intros (p & -> & [q c] & -> & Hin%elem_of_map_to_list). exists q. split; [by eexists|done].
  - intros (p & [c Hc] & <-). exists p. split; [done|]. exists (p, c). split; [done|]. by apply elem_of_map_to_list.
Qed.

Lemma log_files_elem s u ws we p :
  (ws, we, p) ∈ list_log_files_for_user s u <->
  is_Some (fs_files s !! p) /\ path_of_user s u p /\ parse_window_dir (lp_window p) = Some (ws, we).
Proof.
  unfold list_log_files_for_user. rewrite list_elem_of_omap. split.
  - intros (w & Hw & Hp). destruct (parse_window_dir w) as [[ws' we']|] eqn:Ew; [|done].
    destruct (fs_files s !! _) eqn:Ef; [|done]. injection Hp as -> -> <-. split; [by rewrite Ef|]. by split.
  - intros ([c Hc] & [Hs Hf] & Hw). exists (lp_window p). split; [apply window_dirs_elem; by exists p|].
    rewrite Hw. destruct p as [w sh fl]. cbn in *. subst. by rewrite Hc.
Qed.

Lemma log_files_nodup s u : NoDup (list_log_files_for_user s u).*2.
Proof.
  unfold list_log_files_for_user. pose proof (NoDup_elements (list_to_set (lp_window <$> (map_to_list (fs_files s)).*1) : gset (list Z))) as Hnd.
  change (elements _) with (window_dirs s) in Hnd. induction Hnd as [|w ws Hw Hnd IH]; [constructor|]. cbn [omap list_omap].
  destruct (parse_window_dir w) as [[a b]|]; [|done]. destruct (fs_files s !! _); [|done].
  rewrite fmap_cons. constructor; [|done]. intros ([[a' b'] p] & Hp & Hin)%list_elem_of_fmap. cbn in Hp. subst p.
  apply list_elem_of_omap in Hin as (w' & Hw' & Heq). cbn beta in Heq.
  destruct (parse_window_dir w') as [[a2 b2]|]; [|done]. destruct (fs_files s !! _); [|done]. by simplify_eq.
Qed.

End Reading.

Section FileBackend.
Context `{UserHash} `{Calendar} `{StreamRowCodec} {normal : gmap string ScalarValue -> Prop} `{!StreamRowCodecLaws normal}.

Lemma segment_size_flush s p : size (fs_segments (flush_segment s p)) = size (fs_segments s).
Proof.
  unfold flush_segment. destruct (fs_segments s !! p) eqn:E; [|done]. cbn. by rewrite map_size_insert_Some.
Qed.

(** Reading a list of files: their records one after the other. *)
Lemma collect_range_spec s t h limit st ps :
  file_holds s t h -> (forall p, p ∈ ps -> is_Some (fs_files s !! p)) ->
  exists s', collect_range_from_entries s limit st ps =
      Ok (s', (run_range limit st (concat ((fun p => records_at s p h) <$> ps))).1.2) /\
    preserves s s' /\ file_holds s' t h.
Proof.
  intros Hh Hps. revert s st Hh Hps. induction ps as [|p ps IH]; intros s st Hh Hps.
  - exists s. split; [done|]. split; [apply preserves_refl, (fh_segments _ _ _ Hh)|done].
  - cbn [collect_range_from_entries]. pose proof (flush_segment_preserves s p (fh_segments _ _ _ Hh)) as Hp.
    pose proof (segment_size_flush s p) as Hsz. pose proof (fh_open _ _ _ Hh) as Hopen.
    assert (file_holds (flush_segment s p) t h) as Hh1 by (eapply holds_preserved; [done..|lia]).
    set (s1 := flush_segment s p) in *. rewrite fmap_cons. cbn [concat]. rewrite run_range_app.
    assert (forall q, is_Some (fs_files s1 !! q) <-> is_Some (fs_files s !! q)) as Hfiles.
    { intros q. pose proof (pr_content _ _ Hp q) as Hq. unfold content in Hq.
      destruct (fs_files s1 !! q), (fs_files s !! q); cbn in Hq; split; intros []; try done; by eexists. }
    assert (visit_records limit st (frames_of (file_content s1 p)) = Ok (run_range limit st (records_at s p h))) as ->.
    { pose proof (fh_content _ _ _ Hh1 p) as Hc. rewrite (records_at_config s s1) in Hc by apply Hp.
      unfold content in Hc. destruct (proj2 (Hfiles p) (Hps p ltac:(by left))) as [c Hf].
      unfold file_content. rewrite Hf in Hc |- *. cbn [default fmap option_fmap option_map] in Hc |- *. unfold s1 in Hc. rewrite flush_segment_buffered, app_nil_r in Hc.
      destruct Hc as (fs & Hfs & ->). unfold id. rewrite frames_of_framed; [by apply visit_records_spec|].
      eapply Forall2_Forall_r; [exact Hfs|]. apply Forall_true. intros r f Hf'. apply Hf'. }
    cbn [result_bind]. destruct (run_range limit st (records_at s p h)) as [st' []].
    + destruct (IH s1 st' Hh1) as (s' & Hr & Hp' & Hh'); [intros q Hq; apply Hfiles, Hps; by right|].
      exists s'. rewrite Hr. split; [|split; [by eapply preserves_trans|done]].
      rewrite (list_fmap_ext (fun q => records_at s1 q h) (fun q => records_at s q h)); [done|].
      intros _ q _. apply records_at_config, Hp.
    + exists s1. done.
Qed.

Lemma range_entry_elem s u p :
  p ∈ list_log_files_for_user_in_range s u 0 u64_max <->
  exists ws we, is_Some (fs_files s !! p) /\ path_of_user s u p /\ parse_window_dir (lp_window p) = Some (ws, we) /\
    overlaps 0 u64_max (ws, we, p) = true.
Proof.
  unfold list_log_files_for_user_in_range. rewrite list_elem_of_fmap. split.
  - intros ([[ws we] q] & -> & Hin). rewrite sort_by_perm in Hin.
    apply list_elem_of_filter in Hin as [Ho%Is_true_true (Hf & Hp & Hw)%log_files_elem]. by exists ws, we.
  - intros (ws & we & Hf & Hp & Hw & Ho). exists (ws, we, p). split; [done|]. rewrite sort_by_perm.
    apply list_elem_of_filter. split; [by apply Is_true_true|]. by apply log_files_elem.
Qed.

Lemma nodup_fmap_filter {A B} (g : A -> B) (P : A -> Prop) `{forall x, Decision (P x)} (l : list A) :
  NoDup (g <$> l) -> NoDup (g <$> filter P l).
Proof.
  induction l as [|x l IH]; [done|]. rewrite fmap_cons, NoDup_cons, filter_cons. intros [Hx Hl].
  case_decide; [|by apply IH]. rewrite fmap_cons. constructor; [|by apply IH].
  intros (y & Hy & [_ Hin]%list_elem_of_filter)%list_elem_of_fmap. destruct Hx. rewrite Hy. by apply list_elem_of_fmap_2.
Qed.

Lemma range_entries_nodup s u : NoDup (list_log_files_for_user_in_range s u 0 u64_max).
Proof.
  unfold list_log_files_for_user_in_range. rewrite sort_by_perm.
  apply nodup_fmap_filter, log_files_nodup.
Qed.

(** The files of a user hold the history of the user. *)
Lemma user_files_history s t h u :
  file_holds s t h -> history_ok h ->
  concat ((fun p => records_at s p h) <$> list_log_files_for_user_in_range s u 0 u64_max) ≡ₚ user_history u h.
Proof.
  intros Hh Hok. unfold records_at. rewrite partition_perm by apply range_entries_nodup.
  unfold user_history. rewrite (filter_ext_in _ (fun r => record_user r = u)); [done|].
  intros r Hr. rewrite range_entry_elem. split.
  - intros (ws & we & _ & Hp & _). by eapply record_path_user.
  - intros <-. pose proof (history_records _ Hok) as Hrec. rewrite Forall_forall in Hrec. destruct (Hrec _ Hr) as [_ Hts].
    unfold is_i64, i64_max in Hts. set (ws := window_start_ms (fs_bucket s) (Z.max (record_ts r) 0)).
    assert (0 <= ws <= u64_max) as Hws by (apply window_start_range; unfold u64_max; lia).
    exists ws, (saturating_add ws (duration_ms (fs_bucket s))). split; [|split; [done|split]].
    + pose proof (fh_content _ _ _ Hh (record_path s r)) as Hc. unfold content in Hc.
      destruct (fs_files s !! record_path s r); [by eexists|]. cbn in Hc.
      assert (r ∈ records_at s (record_path s r) h) as Hin by (by apply list_elem_of_filter). rewrite Hc in Hin.
      by apply not_elem_of_nil in Hin.
    + by apply window_dir_parse.
    + unfold overlaps, saturating_add. cbn. pose proof (duration_bound (fs_bucket s)). unfold u64_max in *.
      apply andb_true_iff. split; [apply Z.leb_le|apply Z.ltb_lt]; lia.
Qed.

Lemma with_version_puts id row rs : (id, row) ∈ log_puts (with_version <$> rs) <-> LogPut id row ∈ rs.
Proof.
  unfold log_puts. rewrite list_elem_of_omap. split.
  - intros ([v r] & (r' & [= -> ->] & Hin)%list_elem_of_fmap & Hr). cbn in Hr. destruct r'; [|done]. by simplify_eq.
  - intros Hin. exists (with_version (LogPut id row)). split; [|done]. apply list_elem_of_fmap. by exists (LogPut id row).
Qed.

Lemma with_version_deletes v rs : v ∈ log_deletes (with_version <$> rs) <-> exists id ts, LogDelete id ts ∈ rs /\ ri_version id = v.
Proof.
  unfold log_deletes. rewrite elem_of_list_to_set, list_elem_of_omap. split.
  - intros ([v' r] & (r' & [= -> ->] & Hin)%list_elem_of_fmap & Hr). destruct r' as [|id ts]; [done|].
    injection Hr as <-. by exists id, ts.
  - intros (id & ts & Hin & <-). exists (with_version (LogDelete id ts)). split; [|done].
    apply list_elem_of_fmap. by exists (LogDelete id ts).
Qed.

Lemma with_version_puts_length u rs :
  Forall (fun r => record_user r = u) rs -> length (log_puts (with_version <$> rs)) = put_count u rs.
Proof.
  unfold log_puts, put_count. induction 1 as [|r rs Hr Hrs IH]; [done|]. rewrite filter_cons.
  destruct r as [id row|id ts]; cbn [is_put_of].
  - rewrite decide_True by (by apply bool_decide_spec). cbn. f_equal. exact IH.
  - rewrite decide_False by (by intros []). exact IH.
Qed.

Lemma put_count_user u h : put_count u (user_history u h) = put_count u h.
Proof.
  unfold put_count, user_history. rewrite list_filter_filter. f_equal. apply list_filter_iff. intros r.
  destruct r; cbn; [|naive_solver]. rewrite bool_decide_spec. naive_solver.
Qed.

(** Reading all of a user gives its live rows. *)
Lemma file_read_live s t h u limit :
  file_holds s t h -> history_ok h -> (put_count u h < limit)%nat ->
  exists s', file_read_in_time_range s t u 0 u64_max limit = Ok (s', live_of u h) /\ file_holds s' t h.
Proof.
  intros Hh Hok Hn. unfold file_read_in_time_range, ensure_table, file_read_range_internal.
  rewrite (fh_table _ _ _ Hh), decide_True, (proj2 (Nat.eqb_neq _ _)) by (done || lia). cbn [result_bind].
  set (ps := list_log_files_for_user_in_range s u 0 u64_max).
  destruct (collect_range_spec s t h limit (∅, []) ps Hh) as (s' & -> & _ & Hh').
  { intros p (ws & we & Hf & _)%range_entry_elem. done. }
  cbn [result_bind]. exists s'. split; [|done]. do 2 f_equal. rewrite run_range_loop.
  set (rs := concat _). assert (rs ≡ₚ user_history u h) as Hperm by (by eapply user_files_history).
  rewrite read_range_all.
  2: { apply Forall_fmap, Forall_forall. done. }
  2: { cbn [length]. rewrite with_version_puts_length with (u := u).
    - rewrite <-put_count_user in Hn. unfold put_count in *. by rewrite Hperm.
    - rewrite Hperm. apply Forall_forall. by intros r [? _]%list_elem_of_filter. }
  rewrite filter_nil, app_nil_l, union_empty_l_L. apply map_eq. intros id. apply option_eq. intros row.
  assert (forall r, r ∈ rs <-> record_user r = u /\ r ∈ h) as Hrs.
  { intros r. rewrite Hperm. unfold user_history. by rewrite list_elem_of_filter. }
  rewrite collect_rows_spec.
  - rewrite list_elem_of_filter, with_version_puts, Hrs. unfold live_of, version_in. cbn [fst].
    rewrite map_lookup_filter_Some, (live_rows_iff h Hok), with_version_deletes. cbn [record_user record_id fst]. split.
    + intros [Hd [Hu Hin]]. split; [|done]. split; [done|]. intros ts Hdel. destruct Hd. exists id, ts.
      split; [|done]. by apply Hrs.
    + intros [[Hin Hd] Hu]. split; [|done]. intros (id' & ts & [Hu' Hin']%Hrs & Hv). apply (Hd ts).
      assert (id' = id) as <- by (destruct id, id'; unfold record_user in Hu'; cbn in *; congruence). done.
  - intros i r1 r2 [_ Hr1]%list_elem_of_filter [_ Hr2]%list_elem_of_filter.
    apply with_version_puts, Hrs in Hr1 as [_ Hr1], Hr2 as [_ Hr2]. by eapply history_put_unique.
Qed.

(** The clock of the writers is a function of the state. *)
Definition file_backend (clock : FileStreamLogStore -> Z) : StreamBackend FileStreamLogStore := {|
  sb_append_row s t u id row := file_append_row s t u id row (clock s);
  sb_append_puts s t u rows :=
    let '(s', r) := file_append_puts s t u rows (clock s) in let? _ := r in Ok s';
  sb_append_delete s t u id ts := file_append_delete s t u id ts (clock s);
  sb_read_in_time_range s t u a b limit := file_read_in_time_range s t u a b limit;
  sb_delete_old_logs_with_count s before_time := Ok (file_delete_old_logs_with_count s before_time);
  sb_has_logs_before s before_time := Ok (file_has_logs_before s before_time);
  sb_list_user_ids s := Ok (file_list_user_ids s)
|}.

Definition all_storable (h : list StreamLogRecord) : Prop := Forall (storable (normal := normal)) h.

Lemma file_laws clock :
  StreamBackendLaws (H := file_backend clock) FileStreamLogStore file_holds all_storable.
Proof.
  split.
  - intros h r. unfold all_storable. rewrite Forall_app. tauto.
  - intros s t h id row Hh _ [Hfit [Hr _]%Forall_cons]%Forall_app. cbn. unfold file_append_row, ensure_table.
    rewrite (fh_table _ _ _ Hh), decide_True by done. cbn [result_bind].
    destruct (storable_frame _ Hr) as [f Hf]. pose proof (ff_encoded _ _ Hf) as He. cbn [record_frame] in He.
    rewrite He. cbn [result_bind]. eexists. split; [done|]. by apply (append_holds s t h (LogPut id row)).
  - intros s t h id ts Hh _ [Hfit [Hr _]%Forall_cons]%Forall_app. cbn. unfold file_append_delete, ensure_table.
    rewrite (fh_table _ _ _ Hh), decide_True by done. cbn [result_bind].
    destruct (storable_frame _ Hr) as [f Hf]. pose proof (ff_encoded _ _ Hf) as He. cbn [record_frame] in He.
    rewrite He. cbn [result_bind]. eexists. split; [done|]. by apply (append_holds s t h (LogDelete id ts)).
  - intros s t h u limit Hh Hok Hn. by apply file_read_live.
Qed.

Lemma file_starts_empty t b r : file_holds (file_store_new t b r) t [].
Proof.
  split; [done|by intros p []|vm_compute; lia|]. intros p. done.
Qed.

End FileBackend.

(** ** Torn files *)

Section Torn.
Context `{UserHash} `{Calendar} `{StreamRowCodec} {normal : gmap string ScalarValue -> Prop} `{!StreamRowCodecLaws normal}.

(** The bytes the log writes for a list of records. *)
Fixpoint log_bytes (rs : list StreamLogRecord) : StreamResult (list Z) :=
  match rs with
  | [] => Ok []
  | r :: rs' => let? frame := record_frame r in let? rest := log_bytes rs' in Ok (frame ++ rest)
  end.

(** The records a reader finds in a file. *)
Fixpoint read_records (frames : list (list Z)) : StreamResult (list StreamLogRecord) :=
  match frames with
  | [] => Ok []
  | f :: frames' => let? r := decode_frame_payload f in let? rest := read_records frames' in Ok (r :: rest)
  end.

Lemma log_bytes_frames rs fs : Forall2 frame_for rs fs -> log_bytes rs = Ok (concat (framed <$> fs)).
Proof.
  induction 1 as [|r f rs fs Hr Hrs IH]; [done|]. cbn [log_bytes]. rewrite (ff_encoded _ _ Hr). cbn [result_bind].
  by rewrite IH.
Qed.

Lemma storable_frames rs : Forall (storable (normal := normal)) rs -> exists fs, Forall2 frame_for rs fs.
Proof.
  induction 1 as [|r rs Hr Hrs [fs Hfs]]; [by exists []|].
  destruct (storable_frame r Hr) as [f Hf]. exists (f :: fs). by constructor.
Qed.

Lemma split_frames_fuel n1 n2 bytes :
  (length bytes <= n1)%nat -> (length bytes <= n2)%nat -> split_frames n1 bytes = split_frames n2 bytes.
Proof.
  revert n2 bytes. induction n1 as [|n1 IH]; intros n2 bytes Hn1 Hn2.
  - destruct bytes; [|cbn in Hn1; lia]. by destruct n2.
  - destruct n2 as [|n2]; [destruct bytes; [done|cbn in Hn2; lia]|]. cbn [split_frames].
    destruct (Nat.ltb_spec (length bytes) 4) as [|H4]; [done|]. cbn zeta. case_match; [done|]. f_equal.
    apply IH; rewrite !length_drop; lia.
Qed.

Lemma read_records_spec rs fs : Forall2 frame_for rs fs -> read_records fs = Ok rs.
Proof.
  induction 1 as [|r f rs fs Hr Hrs IH]; [done|]. cbn [read_records]. rewrite (ff_decoded _ _ Hr). cbn [result_bind].
  by rewrite IH.
Qed.

(** C22. A log file cut at any byte, as after a crash, still reads: the reader returns the records whose
    frames lie before the cut, in order, and never fails or invents a record. *)
Theorem torn_file_reads_prefix rs n :
  Forall (storable (normal := normal)) rs ->
  exists bytes k, log_bytes rs = Ok bytes /\ read_records (frames_of (take n bytes)) = Ok (take k rs) /\
    (forall j front, log_bytes (take j rs) = Ok front -> (length front <= n)%nat -> (Nat.min j (length rs) <= k)%nat).
Proof.
  intros Hrs. destruct (storable_frames rs Hrs) as [fs Hfs]. exists (concat (framed <$> fs)).
  assert (Forall frame_fits fs) as Hfit.
  { eapply Forall2_Forall_r; [exact Hfs|]. apply Forall_true. intros r f Hf. apply Hf. }
  pose proof (Forall2_length _ _ _ Hfs) as Hlen.
  destruct (split_frames_torn (length (take n (concat (framed <$> fs))) + length fs) fs n Hfit) as (k & Hk & Hall); [lia|].
  exists k. split; [by apply log_bytes_frames|]. split.
  - unfold frames_of. rewrite (split_frames_fuel _ (length (take n (concat (framed <$> fs))) + length fs)) by lia.
    rewrite Hk. by apply read_records_spec, Forall2_take.
  - intros j front Hfront Hle. assert (Forall2 frame_for (take j rs) (take j fs)) as Hj by (by apply Forall2_take).
    rewrite (log_bytes_frames _ _ Hj) in Hfront. apply Ok_inj in Hfront as <-.
    apply Hall, (f_equal length) in Hle. rewrite !length_take in Hle. lia.
Qed.

End Torn.

(** ** The cache of writers *)

Inductive FileOp :=
| FoAppend (p : LogPath) (bytes : list Z) (record_count now : Z)
| FoFlush (p : LogPath)
| FoFlushAll
| FoCloseIdle (now max_idle : Z).

Definition file_step (s : FileStreamLogStore) (op : FileOp) : FileStreamLogStore :=
  match op with
  | FoAppend p bytes n now => append_encoded_bytes s p bytes n now
  | FoFlush p => flush_segment s p
  | FoFlushAll => flush_all s
  | FoCloseIdle now max_idle => close_idle_segments s now max_idle
  end.

(** The bytes appended to a path. *)
Definition appended (p : LogPath) (ops : list FileOp) : list Z :=
  concat ((fun op => match op with
                     | FoAppend q bytes n _ => if decide (q = p /\ n <> 0) then bytes else []
                     | _ => []
                     end) <$> ops).

Lemma flush_list_preserves ps s :
  segments_ok s -> preserves s (foldl flush_segment s ps) /\ size (fs_segments (foldl flush_segment s ps)) = size (fs_segments s).
Proof.
  revert s. induction ps as [|p ps IH]; intros s Hok; [split; [by apply preserves_refl|done]|].
  cbn [foldl]. pose proof (flush_segment_preserves s p Hok) as Hp. destruct (IH _ (pr_segments _ _ Hp)) as [Hp' Hs].
  split; [by eapply preserves_trans|]. rewrite Hs. unfold flush_segment.
  destruct (fs_segments s !! p) eqn:E; [|done]. cbn. by rewrite map_size_insert_Some.
Qed.

Lemma delete_keys_lookup {A} (ps : list LogPath) (m : gmap LogPath A) p :
  foldl (fun m p => delete p m) m ps !! p = if decide (p ∈ ps) then None else m !! p.
Proof.
  revert m. induction ps as [|q ps IH]; intros m; cbn [foldl]; [done|]. rewrite IH.
  destruct (decide (p = q)) as [->|Hne].
  - rewrite (decide_True (P := q ∈ q :: ps)) by (by left). case_decide; [done|apply lookup_delete_eq].
  - rewrite lookup_delete_ne by done. destruct (decide (p ∈ ps)), (decide (p ∈ q :: ps)); set_solver.
Qed.

Lemma delete_keys_size {A} (ps : list LogPath) (m : gmap LogPath A) :
  (size (foldl (fun m p => delete p m) m ps) <= size m)%nat.
Proof.
  apply map_subseteq_size, map_subseteq_spec. intros p x. rewrite delete_keys_lookup. by case_decide.
Qed.

Lemma close_segments_size ps s : (size (fs_segments (close_segments s ps)) <= size (fs_segments s))%nat.
Proof. rewrite close_segments_map. apply delete_keys_size. Qed.

Lemma file_step_spec s op :
  segments_ok s -> (size (fs_segments s) <= MAX_OPEN_SEGMENTS)%nat ->
  let s' := file_step s op in
  segments_ok s' /\ (size (fs_segments s') <= MAX_OPEN_SEGMENTS)%nat /\
  forall p, default [] (content s' p) = default [] (content s p) ++ appended p [op].
Proof.
  intros Hok Hsz. cbn zeta.
  assert (forall p, appended p [op] = match op with
                                      | FoAppend q bytes n _ => if decide (q = p /\ n <> 0) then bytes else []
                                      | _ => []
                                      end) as Happ by (intros p; unfold appended; cbn; apply app_nil_r).
  setoid_rewrite Happ. clear Happ.
  assert (forall s', preserves s s' -> (size (fs_segments s') <= size (fs_segments s))%nat ->
    segments_ok s' /\ (size (fs_segments s') <= MAX_OPEN_SEGMENTS)%nat /\
    forall p, default [] (content s' p) = default [] (content s p) ++ []) as Hpres.
  { intros s' [Hs' Hc _] Hle. split; [done|]. split; [lia|]. intros p. by rewrite Hc, app_nil_r. }
  destruct op as [p bytes n now|p| |now max_idle]; cbn [file_step].
  - destruct (decide (bytes = [] \/ n = 0)) as [Hno|Hyes].
    + assert (append_encoded_bytes s p bytes n now = s) as ->.
      { unfold append_encoded_bytes. destruct bytes; [done|]. destruct Hno as [?| ->]; done. }
      split; [done|]. split; [done|]. intros q. case_decide as Hd; [|by rewrite app_nil_r].
      destruct Hno as [->|?]; [by rewrite app_nil_r|tauto].
    + destruct (append_encoded_spec s p bytes n now Hok) as (Hok' & _ & Hc & Hs'); [tauto..|].
      split; [done|]. split; [by apply Hs'|]. intros q. rewrite Hc.
      destruct (decide (q = p)) as [->|Hne]; [by rewrite decide_True by tauto|].
      rewrite decide_False by naive_solver. by rewrite app_nil_r.
  - destruct (flush_list_preserves [p] s Hok) as [Hp Hs]. apply Hpres; [done|]. cbn [foldl] in Hs. lia.
  - destruct (flush_list_preserves (map_to_list (fs_segments s)).*1 s Hok) as [Hp Hs]. apply Hpres; [done|]. unfold flush_all. lia.
  - apply Hpres; [by apply close_segments_preserves|apply close_segments_size].
Qed.

(** However appends, flushes and closings of idle writers interleave, at most 256 writers stay open
    and no byte is lost or reordered: what a path holds, in its file and its buffer, is what was
    appended to it. *)
Theorem writer_cache_bounded_and_lossless t b r ops :
  let s := foldl file_step (file_store_new t b r) ops in
  (size (fs_segments s) <= MAX_OPEN_SEGMENTS)%nat /\ forall p, default [] (content s p) = appended p ops.
Proof.
  cbn zeta. assert (segments_ok (foldl file_step (file_store_new t b r) ops) /\
    (size (fs_segments (foldl file_step (file_store_new t b r) ops)) <= MAX_OPEN_SEGMENTS)%nat /\
    forall p, default [] (content (foldl file_step (file_store_new t b r) ops) p) = appended p ops) as (_ & ? & ?); [|done].
  induction ops as [|op ops (Hok & Hsz & Hc)] using rev_ind.
  - split; [by intros p []|]. split; [vm_compute; lia|done].
  - rewrite foldl_app. cbn [foldl]. destruct (file_step_spec _ op Hok Hsz) as (Hok' & Hsz' & Hc').
    split; [done|]. split; [done|]. intros p. rewrite Hc', Hc. unfold appended. by rewrite fmap_app, concat_app.
Qed.

(** ** Expiry of windows *)

Lemma close_under_segments s w p :
  fs_segments (close_segments_under s w) !! p = if decide (lp_window p = w) then None else fs_segments s !! p.
Proof.
  unfold close_segments_under. rewrite close_segments_map, delete_keys_lookup.
  destruct (decide (lp_window p = w)) as [Hw|Hw].
  - case_decide as Hin; [done|]. destruct (fs_segments s !! p) as [x|] eqn:E; [|done]. destruct Hin.
    apply list_elem_of_filter. split; [by apply Is_true_true, bool_decide_eq_true|].
    apply list_elem_of_fmap. exists (p, x). split; [done|]. by apply elem_of_map_to_list.
  - rewrite decide_False; [done|]. intros [Hin _]%list_elem_of_filter. by apply Is_true_true, bool_decide_eq_true in Hin.
Qed.

Lemma delete_window_spec s w :
  segments_ok s ->
  let s' := delete_window s w in
  segments_ok s' /\ same_config s s' /\ (size (fs_segments s') <= size (fs_segments s))%nat /\
  forall p, content s' p = if decide (lp_window p = w) then None else content s p.
Proof.
  intros Hok. cbn zeta. unfold delete_window.
  destruct (close_segments_preserves (filter (fun p => in_window w p) (map_to_list (fs_segments s)).*1) s Hok) as [Hok1 Hc1 Hcfg1].
  fold (close_segments_under s w) in Hok1, Hc1, Hcfg1. pose proof (close_under_segments s w) as Hseg.
  pose proof (close_segments_size (filter (fun p => in_window w p) (map_to_list (fs_segments s)).*1) s) as Hs1.
  fold (close_segments_under s w) in Hs1. set (s1 := close_segments_under s w) in *.
  set (s2 := set_files s1 _ _).
  assert (segments_ok s2) as Hok2.
  { intros p Hp. cbn in Hp |- *. destruct (Hok1 p Hp) as [c Hf]. exists c. apply map_lookup_filter_Some. split; [done|].
    cbn. intros Hw. rewrite Hseg, decide_True in Hp by done. by destruct Hp. }
  destruct (close_segments_preserves (filter (fun p => in_window w p) (map_to_list (fs_segments s2)).*1) s2 Hok2) as [Hok3 Hc3 Hcfg3].
  split; [done|]. split; [|split].
  - destruct Hcfg1 as (Ha & Hb & Hd), Hcfg3 as (Ha' & Hb' & Hd').
    split; [exact (eq_trans Ha' Ha)|]. split; [exact (eq_trans Hb' Hb)|exact (eq_trans Hd' Hd)].
  - etransitivity; [apply close_segments_size|done].
  - intros p. rewrite Hc3. case_decide as Hw.
    + unfold content, s2. cbn. rewrite (proj2 (map_lookup_filter_None _ _ _)); [done|]. right. intros c _ Hn. by apply Hn.
    + rewrite <-Hc1. unfold content, buffered, s2. cbn. destruct (fs_files s1 !! p) as [c|] eqn:E.
      * by rewrite (proj2 (map_lookup_filter_Some _ _ _ c)).
      * rewrite (proj2 (map_lookup_filter_None _ _ _)); [done|]. by left.
Qed.

Lemma delete_windows_spec ws s :
  segments_ok s ->
  let s' := foldl delete_window s ws in
  segments_ok s' /\ same_config s s' /\ (size (fs_segments s') <= size (fs_segments s))%nat /\
  forall p, content s' p = if decide (lp_window p ∈ ws) then None else content s p.
Proof.
  revert s. induction ws as [|w ws IH]; intros s Hok; [done|]. cbn [foldl].
  destruct (delete_window_spec s w Hok) as (Hok1 & Hcfg1 & Hs1 & Hc1). destruct (IH _ Hok1) as (Hok2 & Hcfg2 & Hs2 & Hc2).
  split; [done|]. split; [|split; [lia|]].
  - destruct Hcfg1 as (? & ? & ?), Hcfg2 as (? & ? & ?). split_and!; congruence.
  - intros p. rewrite Hc2, Hc1. destruct (decide (lp_window p ∈ ws)), (decide (lp_window p = w)), (decide (lp_window p ∈ w :: ws)); set_solver.
Qed.

Lemma filter_agree {A} (P Q : A -> Prop) `{!forall x, Decision (P x), !forall x, Decision (Q x)} (l : list A) :
  (forall x, x ∈ l -> P x <-> Q x) -> filter P l = filter Q l.
Proof.
  induction l as [|x l IH]; intros Hpq; [done|]. rewrite !filter_cons.
  rewrite IH by (intros y Hy; apply Hpq; by apply elem_of_cons; right).
  pose proof (Hpq x ltac:(by apply elem_of_cons; left)). destruct (decide (P x)), (decide (Q x)); (done || tauto).
Qed.

Section Expiry.
Context `{UserHash} `{Calendar} `{!CalendarLaws} `{StreamRowCodec}.

(** The period a time belongs to, by the clock and the calendar: its minute, hour, day, week from
    Monday, or month; a month counts as 31 days from its first. *)
Definition period_start (b : StreamTimeBucket) (t : Z) : Z :=
  match b with
  | BMinute => t / 60000 * 60000
  | BHour => t / 3600000 * 3600000
  | BDay => t / day_ms * day_ms
  | BWeek => (t / day_ms - num_days_from_monday (t / day_ms)) * day_ms
  | BMonth => first_of_month (t / day_ms) * day_ms
  end.

Definition period_end (b : StreamTimeBucket) (t : Z) : Z :=
  period_start b t +
  match b with BMinute => 60000 | BHour => 3600000 | BDay => day_ms | BWeek => 7 * day_ms | BMonth => 31 * day_ms end.

(** Times before the epoch count as the epoch. *)
Definition record_time (r : StreamLogRecord) : Z := Z.max (record_ts r) 0.

(** A time [chrono] can represent whose period does not start before the epoch. *)
Definition datable (b : StreamTimeBucket) (r : StreamLogRecord) : Prop :=
  in_chrono_range (record_time r) = true /\ 0 <= period_start b (record_time r).

Lemma window_start_period b t :
  0 <= t <= i64_max -> in_chrono_range t = true -> 0 <= period_start b t ->
  window_start_ms b t = period_start b t /\ period_start b t <= t.
Proof.
  intros Ht Hc Hp. unfold window_start_ms. rewrite u64_as_i64_small by lia. rewrite Hc. cbn zeta.
  assert (period_start b t <= t) as Hle.
  { pose proof (Z.div_mod t day_ms ltac:(done)). pose proof (Z.mod_pos_bound t day_ms ltac:(done)).
    pose proof (weekday_range (t / day_ms)). pose proof (month_range (t / day_ms)).
    destruct b; cbn [period_start]; try (rewrite Z.mul_comm; apply Z.mul_div_le; lia); unfold day_ms in *; lia. }
  split; [|done]. assert (wrap64 (period_start b t) = period_start b t) as Hw.
  { apply wrap64_small. unfold i64_max, u64_modulus in *. lia. }
  destruct b; cbn [period_start] in *; [| |done..]; change (60 * 1000) with 60000; change (60 * 60 * 1000) with 3600000;
    rewrite <-Hw; f_equal; rewrite Z.mod_eq by lia; lia.
Qed.

(** The code's test: the directory the record lies in is not expired. *)
Definition kept_record (s : FileStreamLogStore) (before_time : Z) (r : StreamLogRecord) : bool :=
  negb (expired_window before_time (lp_window (record_path s r))).

Lemma kept_period s before_time r :
  record_ok r -> datable (fs_bucket s) r ->
  kept_record s before_time r = (before_time <? period_end (fs_bucket s) (record_time r)).
Proof.
  intros [_ Hts] [Hc Hp]. unfold is_i64 in Hts. unfold kept_record, expired_window, record_path, segment_of, log_path.
  cbn [lp_window]. fold (record_time r). set (t := record_time r) in *.
  assert (0 <= t <= i64_max) as Ht by (unfold t, record_time, i64_max in *; lia).
  destruct (window_start_period (fs_bucket s) t Ht Hc Hp) as [-> Hle].
  rewrite window_dir_parse by (unfold i64_max, u64_max in *; lia).
  assert (saturating_add (period_start (fs_bucket s) t) (duration_ms (fs_bucket s)) = period_end (fs_bucket s) t) as ->.
  { rewrite saturating_add_small; [by destruct (fs_bucket s)|].
    assert (duration_ms (fs_bucket s) < 2 ^ 62) by (destruct (fs_bucket s); reflexivity).
    unfold i64_max, u64_max in *. lia. }
  by rewrite Z.leb_antisym, negb_involutive.
Qed.

Lemma period_covers b r : datable b r -> 0 <= record_time r <= i64_max -> record_time r < period_end b (record_time r).
Proof.
  intros [Hc Hp] Ht. pose proof (window_covers b (record_time r) Ht) as Hcov.
  destruct (window_start_period b (record_time r) Ht Hc Hp) as [E _]. rewrite E in Hcov.
  unfold period_end. by destruct b.
Qed.

(** C23. Expiry removes exactly the records whose period has ended.  After deleting the logs before a
    time, the log holds the records whose minute, hour, day, week or 31-day month (the granularity
    of the table) ends after that time, in order and nothing else; a record not older than the time
    is among them; and no directory that could be deleted for that time is left.  For records whose
    time the calendar can represent and whose period does not start before the epoch. *)
Theorem expiry_keeps_recent s t h before_time :
  file_holds s t h -> history_ok h -> Forall (datable (fs_bucket s)) h -> 0 <= before_time ->
  let remaining := filter (fun r => before_time < period_end (fs_bucket s) (record_time r)) h in
  file_holds (file_delete_old_logs_with_count s before_time).1 t remaining /\
  (forall r, r ∈ h -> before_time <= record_ts r -> r ∈ remaining) /\
  file_has_logs_before (file_delete_old_logs_with_count s before_time).1 before_time = false.
Proof.
  intros Hh Hok Hd Hb remaining. rewrite Forall_forall in Hd.
  pose proof (history_records _ Hok) as Hrec. rewrite Forall_forall in Hrec.
  assert (remaining = filter (fun r => kept_record s before_time r) h) as Hrem.
  { unfold remaining. apply filter_agree. intros r Hr. rewrite kept_period, Is_true_true, Z.ltb_lt by auto. done. }
  unfold file_delete_old_logs_with_count. cbn [fst].
  set (dirs := filter (fun w => expired_window before_time w) (window_dirs s)).
  destruct (delete_windows_spec dirs s (fh_segments _ _ _ Hh)) as (Hok' & Hcfg & Hsz & Hc).
  set (s' := foldl delete_window s dirs) in *.
  assert (forall p, content s' p = if expired_window before_time (lp_window p) then None else content s p) as Hc'.
  { intros p. rewrite Hc. destruct (expired_window before_time (lp_window p)) eqn:Ee.
    - case_decide as Hin; [done|]. unfold content. destruct (fs_files s !! p) as [c|] eqn:Ef; [|done]. destruct Hin.
      apply list_elem_of_filter. split; [by apply Is_true_true|]. apply window_dirs_elem. exists p. split; [by rewrite Ef|done].
    - rewrite decide_False; [done|]. intros [He _]%list_elem_of_filter. apply Is_true_true in He. congruence. }
  split; [rewrite Hrem; split|split].
  - destruct Hcfg as (-> & _). apply Hh.
  - done.
  - pose proof (fh_open _ _ _ Hh). lia.
  - intros p. rewrite Hc', (records_at_config s s') by done. pose proof (fh_content _ _ _ Hh p) as Hp.
    assert (records_at s p (filter (fun r => kept_record s before_time r) h) =
      if expired_window before_time (lp_window p) then [] else records_at s p h) as ->.
    { unfold records_at. rewrite list_filter_filter. destruct (expired_window before_time (lp_window p)) eqn:Ee.
      - apply filter_none. intros r _ [<- Hk]. unfold kept_record in Hk. by rewrite Ee in Hk.
      - apply list_filter_iff. intros r. split; [tauto|]. intros <-. split; [done|]. unfold kept_record. by rewrite Ee. }
    by destruct (expired_window before_time (lp_window p)).
  - intros r Hr Hle. apply list_elem_of_filter. split; [|done].
    destruct (Hrec r Hr) as [_ Hts]. unfold is_i64 in Hts.
    pose proof (period_covers _ r (Hd r Hr) ltac:(unfold record_time, i64_max in *; lia)). unfold record_time in *. lia.
  - unfold file_has_logs_before. apply not_true_iff_false. rewrite existsb_exists.
    intros (w & Hw%list_elem_of_In & He). apply window_dirs_elem in Hw as (p & [c Hf] & <-).
    specialize (Hc' p). rewrite He in Hc'. unfold content in Hc'. by rewrite Hf in Hc'.
Qed.

End Expiry.

(** ** The two logs behind a table *)

Section Agree.
Context `{UserHash} `{Calendar} `{StreamRowCodec} {normal : gmap string ScalarValue -> Prop} `{!StreamRowCodecLaws normal}.

(** C21. Behind a stream table the in-memory log and the file log answer alike.  For any sequence of
    puts of new row ids and deletes that both can hold (within the row limit of the one, storable in
    frames of the other, fewer than 100,000 puts per user) all operations succeed on both, [get]
    answers the same for every key, and the scan of a user from the start, with a limit of at least
    the number of rows in the table, returns the same rows. *)
Theorem stream_backends_agree clock t b r max_rows ops :
  ops_ok ops -> within max_rows (table_history ops) -> all_storable (normal := normal) (table_history ops) ->
  (forall u, (put_count u (table_history ops) < MAX_SCAN_LIMIT)%nat) ->
  exists m f, table_run (mkTable t (with_table_id_and_limit t max_rows)) ops = Ok m /\
    table_run (H := file_backend clock) (mkTable t (file_store_new t b r)) ops = Ok f /\
    (forall key, exists m' f' found,
      TableStore.get m key = Ok (m', found) /\ TableStore.get (H := file_backend clock) f key = Ok (f', found)) /\
    (forall u limit, (0 < limit)%nat -> (size (foldl spec_step ∅ ops) <= limit)%nat ->
      exists m' f' rows rows', TableStore.scan_user m u None limit = Ok (m', rows) /\
        TableStore.scan_user (H := file_backend clock) f u None limit = Ok (f', rows') /\ rows ≡ₚ rows').
Proof.
  intros Hops Hw Hst Hn. pose proof (file_laws clock) as Hlaws.
  destruct (table_is_a_map (holds := mem_holds max_rows) (fits := within max_rows)
    (mkTable t (with_table_id_and_limit t max_rows)) ops (memory_starts_empty t max_rows) Hops Hw Hn) as (m & Hm & Hgm & Hsm).
  destruct (table_is_a_map (H := file_backend clock) (holds := file_holds) (fits := all_storable)
    (mkTable t (file_store_new t b r)) ops (file_starts_empty t b r) Hops Hst Hn) as (f & Hf & Hgf & Hsf).
  exists m, f. split_and!; [done|done| |].
  - intros key. destruct (Hgm key) as [m' Hg]. destruct (Hgf key) as [f' Hg']. by exists m', f', (foldl spec_step ∅ ops !! key).
  - intros u limit Hl Hs. destruct (Hsm u limit Hl Hs) as (m' & rows & Hr & Hp).
    destruct (Hsf u limit Hl Hs) as (f' & rows' & Hr' & Hp'). exists m', f', rows, rows'.
    split_and!; [done..|]. by rewrite Hp, Hp'.
Qed.

End Agree.

Module StreamFileWitness.
Import StreamTableWitness.

Definition hash0 : UserHash := fun _ => 0.
Definition calendar0 : Calendar :=
  {| in_chrono_range _ := true; num_days_from_monday d := (d + 3) mod 7; first_of_month d := d - d mod 31 |}.
(** Rows of one small number, or none. *)
Definition small_row (z : Z) : gmap string ScalarValue := {[ "v" := Int64 (Some z) ]}.
Definition codec0 : StreamRowCodec := {|
  encode_stream_row fields :=
    match fields !! "v"%string with Some (Int64 (Some z)) => Ok [z] | _ => Ok [] end;
  decode_stream_row payload := match payload with [z] => Ok (small_row z) | _ => Ok ∅ end
|}.
#[local] Existing Instances hash0 calendar0 codec0.

Definition small_fields (fields : gmap string ScalarValue) : Prop :=
  fields = ∅ \/ exists z, 0 <= z < 256 /\ fields = small_row z.

Lemma codec0_laws : StreamRowCodecLaws small_fields.
Proof.
  intros fields payload [->|(z & Hz & ->)] Hp.
  - assert (payload = []) as -> by (vm_compute in Hp; by injection Hp). by split; [constructor|].
  - assert (payload = [z]) as -> by (unfold small_row in Hp; cbn in Hp; by injection Hp). by split; [constructor|].
Qed.

Lemma calendar0_laws : CalendarLaws.
Proof.
  split; intros d; cbn.
  - pose proof (Z.mod_pos_bound (d + 3) 7 ltac:(lia)). lia.
  - pose proof (Z.mod_pos_bound d 31 ltac:(lia)). lia.
Qed.

#[local] Existing Instances codec0_laws calendar0_laws.

Definition clock0 (_ : FileStreamLogStore) : Z := 0.
Definition backend0 : StreamBackend FileStreamLogStore := file_backend clock0.
Definition file_table (b : StreamTimeBucket) : StreamTableStore FileStreamLogStore :=
  mkTable table (file_store_new table b default_config).

Lemma storable0 id row : user_id_ok (ri_user_id id) -> 1 <= ri_version id <= i64_max -> is_i64 (sr_timestamp row) ->
  of_row id row -> small_fields (sr_fields row) -> (length (bytes_of_string (ri_user_id id)) < 100)%nat ->
  storable (normal := small_fields) (LogPut id row) /\ storable (normal := small_fields) (LogDelete id (sr_timestamp row)).
Proof.
  intros Hu Hv Ht Ho Hf Hlen. split; (split; [done|done|done| |]); cbn [payload_of].
  - by intros ? ? [= <- <-].
  - destruct Hf as [->|(z & Hz & ->)].
    + exists []. split; [reflexivity|]. cbn. unfold u32_max, HEADER_LEN, record_user. cbn. lia.
    + exists [z]. split; [reflexivity|]. cbn. unfold u32_max, HEADER_LEN, record_user. cbn. lia.
  - done.
  - exists []. split; [done|]. cbn. unfold u32_max, HEADER_LEN, record_user. cbn. lia.
Qed.

Lemma small_ok z : 0 <= z < 256 -> small_fields (small_row z).
Proof. intros Hz. right. by exists z. Qed.

Lemma history_storable : all_storable (normal := small_fields) (table_history ops).
Proof.
  destruct (storable0 id1 row1) as [H1 D1]; [split; vm_compute; reflexivity|unfold i64_max; cbn; lia|unfold is_i64, i64_max; cbn; lia|done|first [by left|by apply small_ok]|vm_compute; lia|].
  destruct (storable0 id2 row2) as [H2 _]; [split; vm_compute; reflexivity|unfold i64_max; cbn; lia|unfold is_i64, i64_max; cbn; lia|done|first [by left|by apply small_ok]|vm_compute; lia|].
  change (table_history ops) with [LogPut id1 row1; LogPut id2 row2; LogDelete id1 1000].
  unfold all_storable. apply Forall_cons_2; [done|]. apply Forall_cons_2; [done|]. by apply Forall_cons_2; [|constructor].
Qed.

Lemma history_small u : (put_count u (table_history ops) < MAX_SCAN_LIMIT)%nat.
Proof.
  unfold put_count. eapply Nat.le_lt_trans; [apply length_filter|].
  apply Nat2Z.inj_lt. unfold MAX_SCAN_LIMIT. rewrite Z2Nat.id by lia. vm_compute. reflexivity.
Qed.

Lemma history_within : within 4 (table_history ops).
Proof. intros u. unfold user_history. etransitivity; [apply length_filter|]. vm_compute. lia. Qed.

Lemma stream_backends_agree_witness :
  exists m f, table_run (mkTable table (with_table_id_and_limit table 4)) ops = Ok m /\
    table_run (H := backend0) (file_table BHour) ops = Ok f /\
    (exists m' f', TableStore.get m id2 = Ok (m', Some row2) /\ TableStore.get (H := backend0) f id2 = Ok (f', Some row2)) /\
    exists m' f' rows rows', TableStore.scan_user m "bob" None 1 = Ok (m', rows) /\
      TableStore.scan_user (H := backend0) f "bob" None 1 = Ok (f', rows') /\ rows ≡ₚ rows'.
Proof.
  destruct (stream_backends_agree (normal := small_fields) clock0 table BHour default_config 4 ops ops_fine history_within
    history_storable history_small) as (m & f & Hm & Hf & Hget & Hscan).
  exists m, f. split; [exact Hm|]. split; [exact Hf|]. split; [|apply Hscan; vm_compute; lia].
  destruct (Hget id2) as (m' & f' & found & Hg & Hg'). exists m', f'.
  assert (found = Some row2) as ->; [|by split].
  assert ((fun r => match r with Ok (_, x) => x | Err _ => None end) (TableStore.get m id2) = found) as Hx by by rewrite Hg.
  rewrite <-Hx. assert (Ok m = table_run (mkTable table (with_table_id_and_limit table 4)) ops) as Hm' by (symmetry; exact Hm).
  vm_compute in Hm'. injection Hm' as ->. vm_compute. reflexivity.
Defined.

Lemma torn_file_reads_prefix_witness :
  exists bytes k, log_bytes (table_history ops) = Ok bytes /\
    read_records (frames_of (take 60 bytes)) = Ok (take k (table_history ops)) /\
    (forall j front, log_bytes (take j (table_history ops)) = Ok front -> (length front <= 60)%nat ->
       (Nat.min j (length (table_history ops)) <= k)%nat).
Proof. apply (torn_file_reads_prefix (normal := small_fields) (table_history ops) 60 history_storable). Defined.

Definition rows_of {S} (r : StoreResult (StreamTableStore S * Rows)) : option Rows :=
  match r with Ok (_, rows) => Some rows | Err _ => None end.
Definition found_of {S} (r : StoreResult (StreamTableStore S * option StreamTableRow)) : option StreamTableRow :=
  match r with Ok (_, found) => found | Err _ => None end.
Definition after {S} `{StreamBackend S} (s : StreamTableStore S) (ops : list TableOp) : StreamTableStore S :=
  match table_run s ops with Ok s' => s' | Err _ => s end.

Definition id3 : StreamTableRowId := mkRowId "alice" 3.
Definition row3 : StreamTableRow := mkStreamRow "alice" 3 50000 ∅.

(** A limited scan of the file log counts rows toward the limit that it must not return.  A deleted
    row is returned by a scan with limit one, because the scan stops at the put and never reads the
    delete that follows it, while [get] and the in-memory log know it is deleted.  An expired row of
    the window takes the place of a live one, which the scan therefore misses. *)
Theorem limited_file_scan_is_wrong :
  let deleted := [TPut id1 row1; TDelete id1] in
  let expired := [TPut id1 row1; TPut id3 row3] in
  let file := file_table BMinute in
  let memory := mkTable table (with_table_id_and_limit table 4) in
  rows_of (TableStore.scan_user_streaming (H := backend0) (after (H := backend0) file deleted) "alice" None 1 None 2000) =
    Some [(id1, row1)] /\
  found_of (TableStore.get (H := backend0) (after (H := backend0) file deleted) id1) = None /\
  rows_of (TableStore.scan_user_streaming (after memory deleted) "alice" None 1 None 2000) = Some [] /\
  rows_of (TableStore.scan_user_streaming (H := backend0) (after (H := backend0) file expired) "alice" None 1 (Some 10000) 55000) =
    Some [] /\
  rows_of (TableStore.scan_user_streaming (after memory expired) "alice" None 1 (Some 10000) 55000) = Some [(id3, row3)].
Proof. cbn zeta. split_and!; vm_compute; reflexivity. Qed.

(** The window of a timestamp before the first Monday of 1970 starts before the epoch; the cast makes
    it a window near the end of time, which never expires. *)
Lemma first_week_never_expires :
  window_start_ms BWeek 0 = 2 ^ 64 - 3 * day_ms /\
  expired_window (2 ^ 64 - 2) (window_dir BWeek (window_start_ms BWeek 0)) = false.
Proof. split; vm_compute; reflexivity. Qed.

Definition id4 : StreamTableRowId := mkRowId "bob" 4.
Definition row4 : StreamTableRow := mkStreamRow "bob" 4 70000 ∅.
Definition two_windows : list StreamLogRecord := [LogPut id1 row1; LogPut id4 row4].

Lemma two_windows_ok : history_ok two_windows.
Proof.
  apply (ho_put [LogPut id1 row1]); [|by split|by split|set_solver].
  apply (ho_put []); [constructor|by split|by split|set_solver].
Qed.

Lemma append_bucket s p encoded now :
  segments_ok s -> fs_bucket (append_encoded_bytes s p encoded 1 now) = fs_bucket s.
Proof.
  intros Hok. destruct encoded as [|b encoded]; [done|].
  destruct (append_encoded_spec s p (b :: encoded) 1 now Hok) as (_ & (_ & Hb & _) & _); done.
Qed.

Lemma two_windows_held : exists s, fs_bucket s = BMinute /\ file_holds s table two_windows.
Proof.
  destruct (storable0 id1 row1) as [H1 _]; [split; vm_compute; reflexivity|unfold i64_max; cbn; lia|unfold is_i64, i64_max; cbn; lia|done|first [by left|by apply small_ok]|vm_compute; lia|].
  destruct (storable0 id4 row4) as [H4 _]; [split; vm_compute; reflexivity|unfold i64_max; cbn; lia|unfold is_i64, i64_max; cbn; lia|done|first [by left|by apply small_ok]|vm_compute; lia|].
  destruct (storable_frame _ H1) as [f1 F1]. destruct (storable_frame _ H4) as [f4 F4].
  pose proof (append_holds _ _ _ _ _ 0 (file_starts_empty table BMinute default_config) H1 (ff_encoded _ _ F1)) as Hh.
  pose proof (append_holds _ _ _ _ _ 0 Hh H4 (ff_encoded _ _ F4)) as Hh2. eexists. split; [|exact Hh2].
  pose proof (fh_segments _ _ _ (file_starts_empty table BMinute default_config)) as Hok.
  rewrite append_bucket by apply Hh. by rewrite append_bucket.
Qed.

Lemma expiry_keeps_recent_witness :
  exists s, file_holds (file_delete_old_logs_with_count s 60000).1 table [LogPut id4 row4] /\
    file_has_logs_before (file_delete_old_logs_with_count s 60000).1 60000 = false.
Proof.
  destruct two_windows_held as (s & Hb & Hs). exists s.
  destruct (expiry_keeps_recent s table two_windows 60000 Hs two_windows_ok) as (Hh & _ & Hn).
  - rewrite Hb. repeat constructor; vm_compute; discriminate.
  - lia.
  - rewrite Hb in Hh. split; [exact Hh|exact Hn].
Defined.

End StreamFileWitness.
