(* ===== verification/RowValue.v ===== *)
(** * RowValue: tagged values of stored rows

    kalamdb-serialization/src/row (schema.rs, scalar.rs, value.rs, array.rs): a column value is
    written as a tag and its content, nested values recursively, and read back against the type of
    the column, within budgets of work, bytes and nesting.

    [ScalarValue] has the variants the codec looks at; floats are their bits.  An Arrow array of one
    row inside a scalar is its cell: a struct cell is its named child cells, a list cell the cells of
    its values.  [arrow]'s [is_null] looks at the null buffer, which an array of type Null does not
    have. *)

From Stdlib Require Import ZArith Lia Ascii.
From stdpp Require Import base strings list gmap.
From S2P Require Import Prelude Protocol.

Open Scope Z_scope.
Open Scope kalam_scope.

(** ** Values and types *)

Inductive ScalarValue :=
| VNull
| VBoolean (v : option bool)
| VInt8 (v : option Z)
| VInt16 (v : option Z)
| VInt32 (v : option Z)
| VInt64 (v : option Z)
| VUInt8 (v : option Z)
| VUInt16 (v : option Z)
| VUInt32 (v : option Z)
| VUInt64 (v : option Z)
| VFloat32 (bits : option Z)
| VFloat64 (bits : option Z)
| VUtf8 (v : option string)
| VLargeUtf8 (v : option string)
| VUtf8View (v : option string)
| VBinary (v : option (list Z))
| VLargeBinary (v : option (list Z))
| VBinaryView (v : option (list Z))
| VFixedSizeBinary (size : Z) (v : option (list Z))
| VDate32 (v : option Z)
| VTime64Microsecond (v : option Z)
| VTimestampMillisecond (v : option Z) (tz : option string)
| VTimestampMicrosecond (v : option Z) (tz : option string)
| VTimestampNanosecond (v : option Z) (tz : option string)
| VDecimal128 (v : option Z) (precision scale : Z)
| VFixedSizeList (value_length : Z) (cell : option (option (list (bool * Z))))
| VStruct (cell : option (list (string * ScalarValue)))
| VList (cell : option (list ScalarValue))
| VOther (variant : string) (null : bool).

(** A fixed-size list cell is null, or the slots of a Float32 array (validity and bits), or an array
    of another type ([Some None]). *)

Inductive StorageDataType :=
| TBoolean
| TInt8
| TInt16
| TInt32
| TInt64
| TUInt8
| TUInt16
| TUInt32
| TUInt64
| TFloat32
| TFloat64
| TUtf8
| TBinary
| TDate32
| TTime64Microsecond
| TTimestampMillisecond
| TTimestampMicrosecond
| TTimestampNanosecond
| TDecimal (precision scale : Z)
| TEmbedding (dimension : Z)
| TStruct (fields : list StorageField)
| TList (inner : StorageDataType)
with StorageField :=
| mkField (name : string) (data_type : StorageDataType) (dropped : bool) (missing_default : option ScalarValue).

Definition sf_name (f : StorageField) : string := match f with mkField n _ _ _ => n end.
Definition sf_data_type (f : StorageField) : StorageDataType := match f with mkField _ t _ _ => t end.
Definition sf_dropped (f : StorageField) : bool := match f with mkField _ _ d _ => d end.
Definition sf_missing_default (f : StorageField) : option ScalarValue := match f with mkField _ _ _ m => m end.

Definition new_field (name : string) (t : StorageDataType) : StorageField := mkField name t false None.
Definition dropped_slot : StorageField := mkField "" TBoolean true None.

Definition fixed_byte_width (t : StorageDataType) : option nat :=
  match t with
  | TBoolean | TInt8 | TUInt8 => Some 1%nat
  | TInt16 | TUInt16 => Some 2%nat
  | TInt32 | TUInt32 | TFloat32 | TDate32 => Some 4%nat
  | TInt64 | TUInt64 | TFloat64 | TTime64Microsecond | TTimestampMillisecond | TTimestampMicrosecond
  | TTimestampNanosecond => Some 8%nat
  | TDecimal _ _ => Some 16%nat
  | TUtf8 | TBinary | TEmbedding _ | TStruct _ | TList _ => None
  end.

Definition none {A} (v : option A) : bool := match v with Some _ => false | None => true end.

(** [ScalarValue::is_null]. *)
Definition is_null (v : ScalarValue) : bool :=
  match v with
  | VNull => true
  | VBoolean v => none v
  | VInt8 v | VInt16 v | VInt32 v | VInt64 v | VUInt8 v | VUInt16 v | VUInt32 v | VUInt64 v
  | VFloat32 v | VFloat64 v | VDate32 v | VTime64Microsecond v => none v
  | VUtf8 v | VLargeUtf8 v | VUtf8View v => none v
  | VBinary v | VLargeBinary v | VBinaryView v | VFixedSizeBinary _ v => none v
  | VTimestampMillisecond v _ | VTimestampMicrosecond v _ | VTimestampNanosecond v _ => none v
  | VDecimal128 v _ _ => none v
  | VFixedSizeList _ c => none c
  | VStruct c => none c
  | VList c => none c
  | VOther _ null => null
  end.

(** [Array::is_null] of the cell of an array. *)
Definition cell_is_null (v : ScalarValue) : bool :=
  match v with VNull => false | _ => is_null v end.

(** ** Tags *)

Definition TAG_NULL : Z := 0.
Definition TAG_BOOL : Z := 1.
Definition TAG_I8 : Z := 2.
Definition TAG_I16 : Z := 3.
Definition TAG_I32 : Z := 4.
Definition TAG_I64 : Z := 5.
Definition TAG_U8 : Z := 6.
Definition TAG_U16 : Z := 7.
Definition TAG_U32 : Z := 8.
Definition TAG_U64 : Z := 9.
Definition TAG_F32 : Z := 10.
Definition TAG_F64 : Z := 11.
Definition TAG_UTF8 : Z := 12.
Definition TAG_BYTES : Z := 13.
Definition TAG_DATE32 : Z := 14.
Definition TAG_TIME64_US : Z := 15.
Definition TAG_TS_MS : Z := 16.
Definition TAG_TS_US : Z := 17.
Definition TAG_TS_NS : Z := 18.
Definition TAG_DECIMAL128 : Z := 19.
Definition TAG_EMBEDDING : Z := 20.
Definition TAG_STRUCT : Z := 21.
Definition TAG_LIST : Z := 22.

(** ** Integers of [n] bytes

    [to_le_bytes] of a signed or unsigned integer are the bytes of its residue; [as i8] and the
    like read a residue as two's complement. *)

Definition byte_modulus (n : nat) : Z := 256 ^ Z.of_nat n.
Definition to_le (n : nat) (x : Z) : list Z := le_bytes n (x mod byte_modulus n).
Definition as_signed (n : nat) (x : Z) : Z := if x <? byte_modulus n / 2 then x else x - byte_modulus n.
Definition signed_le (l : list Z) : Z := as_signed (length l) (from_le l).

(** [f64::from] on the bits of an [f32]: exact for numbers; a NaN becomes quiet and keeps its
    payload. *)
Definition f64_bits_of_f32 (b : Z) : Z :=
  let sign := Z.shiftl (Z.shiftr b 31) 63 in
  let exponent := Z.land (Z.shiftr b 23) 255 in
  let mantissa := Z.land b (2 ^ 23 - 1) in
  if exponent =? 255 then
    let quiet := if mantissa =? 0 then 0 else Z.lor (Z.shiftl mantissa 29) (2 ^ 51) in
    sign + Z.shiftl 2047 52 + quiet
  else if exponent =? 0 then
    if mantissa =? 0 then sign
    else let k := Z.log2 mantissa in
      sign + Z.shiftl (k - 149 + 1023) 52 + Z.shiftl (mantissa - 2 ^ k) (52 - k)
  else sign + Z.shiftl (exponent - 127 + 1023) 52 + Z.shiftl mantissa 29.

(** ** The encoder *)

Definition write_bytes (bytes : list Z) : SerResult (list Z) :=
  if Z.of_nat (length bytes) <=? u32_max then Ok (to_le 4 (Z.of_nat (length bytes)) ++ bytes)
  else Err (Encode "bytes length exceeds u32").

Definition tagged_bytes (tag : Z) (bytes : list Z) : SerResult (list Z) :=
  let? b := write_bytes bytes in Ok (tag :: b).

(** [StructArray::column_by_name]: the first column of that name. *)
Fixpoint column_by_name (cells : list (string * ScalarValue)) (name : string) : option ScalarValue :=
  match cells with
  | [] => None
  | (n, c) :: rest => if decide (n = name) then Some c else column_by_name rest name
  end.

Definition encode_embedding_at (value_length : Z) (cell : option (option (list (bool * Z)))) (dimension : Z) :
    SerResult (list Z) :=
  match cell with
  | None => Ok [TAG_NULL]
  | Some values =>
      if negb (value_length =? dimension) then Err (Encode "embedding dimension mismatch")
      else match values with
        | None => Err (Encode "embedding values must be float32")
        | Some floats =>
            if negb (Z.of_nat (length floats) =? dimension mod u64_modulus) then
              Err (Encode "embedding dimension mismatch")
            else Ok (TAG_EMBEDDING :: to_le 4 dimension ++ concat ((fun f => to_le 4 f.2) <$> floats))
        end
  end.

Fixpoint encode_array_value (c : ScalarValue) (expected : StorageDataType) {struct expected} : SerResult (list Z) :=
  if cell_is_null c then Ok [TAG_NULL]
  else match expected, c with
  | TBoolean, VBoolean (Some v) => Ok [TAG_BOOL; if v then 1 else 0]
  | TInt8, VInt8 (Some v) => Ok (TAG_I8 :: to_le 1 v)
  | TInt16, VInt16 (Some v) => Ok (TAG_I16 :: to_le 2 v)
  | TInt32, VInt32 (Some v) => Ok (TAG_I32 :: to_le 4 v)
  | TInt64, VInt64 (Some v) => Ok (TAG_I64 :: to_le 8 v)
  | TUInt8, VUInt8 (Some v) => Ok (TAG_U8 :: to_le 1 v)
  | TUInt16, VUInt16 (Some v) => Ok (TAG_U16 :: to_le 2 v)
  | TUInt32, VUInt32 (Some v) => Ok (TAG_U32 :: to_le 4 v)
  | TUInt64, VUInt64 (Some v) => Ok (TAG_U64 :: to_le 8 v)
  | TFloat32, VFloat32 (Some v) => Ok (TAG_F32 :: to_le 4 v)
  | TFloat64, VFloat64 (Some v) => Ok (TAG_F64 :: to_le 8 v)
  | TUtf8, (VUtf8 (Some v) | VLargeUtf8 (Some v)) => tagged_bytes TAG_UTF8 (bytes_of_string v)
  | TBinary, (VBinary (Some v) | VLargeBinary (Some v) | VFixedSizeBinary _ (Some v)) => tagged_bytes TAG_BYTES v
  | TDate32, VDate32 (Some v) => Ok (TAG_DATE32 :: to_le 4 v)
  | TTime64Microsecond, VTime64Microsecond (Some v) => Ok (TAG_TIME64_US :: to_le 8 v)
  | TTimestampMillisecond, VTimestampMillisecond (Some v) _ => Ok (TAG_TS_MS :: to_le 8 v)
  | TTimestampMicrosecond, VTimestampMicrosecond (Some v) _ => Ok (TAG_TS_US :: to_le 8 v)
  | TTimestampNanosecond, VTimestampNanosecond (Some v) _ => Ok (TAG_TS_NS :: to_le 8 v)
  | TDecimal precision scale, VDecimal128 (Some v) _ _ =>
      Ok (TAG_DECIMAL128 :: precision :: to_le 1 scale ++ to_le 16 v)
  | TEmbedding dimension, VFixedSizeList n cell => encode_embedding_at n cell dimension
  | TStruct fields, VStruct (Some cells) =>
      if Z.of_nat (length fields) <=? u16_max then
        let? children := write_each (fun f =>
          match column_by_name cells (sf_name f) with
          | Some child => encode_array_value child (sf_data_type f)
          | None => Ok [TAG_NULL]
          end) fields in
        Ok (TAG_STRUCT :: to_le 2 (Z.of_nat (length fields)) ++ children)
      else Err (Encode "too many struct fields")
  | TList inner, VList (Some items) =>
      if Z.of_nat (length items) <=? u32_max then
        let? children := write_each (fun item => encode_array_value item inner) items in
        Ok (TAG_LIST :: to_le 4 (Z.of_nat (length items)) ++ children)
      else Err (Encode "list length exceeds u32")
  | _, _ => Err (Encode "expected array type")
  end.

(** The scalar of a column.  It differs from a cell in that [ScalarValue::Null] is null, a decimal
    must have the precision and scale of the column, and a binary view is accepted. *)
Definition encode_value (value : ScalarValue) (expected : StorageDataType) : SerResult (list Z) :=
  if is_null value then Ok [TAG_NULL]
  else match value, expected with
  | VBoolean (Some v), TBoolean => Ok [TAG_BOOL; if v then 1 else 0]
  | VInt8 (Some v), TInt8 => Ok (TAG_I8 :: to_le 1 v)
  | VInt16 (Some v), TInt16 => Ok (TAG_I16 :: to_le 2 v)
  | VInt32 (Some v), TInt32 => Ok (TAG_I32 :: to_le 4 v)
  | VInt64 (Some v), TInt64 => Ok (TAG_I64 :: to_le 8 v)
  | VUInt8 (Some v), TUInt8 => Ok (TAG_U8 :: to_le 1 v)
  | VUInt16 (Some v), TUInt16 => Ok (TAG_U16 :: to_le 2 v)
  | VUInt32 (Some v), TUInt32 => Ok (TAG_U32 :: to_le 4 v)
  | VUInt64 (Some v), TUInt64 => Ok (TAG_U64 :: to_le 8 v)
  | VFloat32 (Some v), TFloat32 => Ok (TAG_F32 :: to_le 4 v)
  | VFloat64 (Some v), TFloat64 => Ok (TAG_F64 :: to_le 8 v)
  | (VUtf8 (Some v) | VLargeUtf8 (Some v)), TUtf8 => tagged_bytes TAG_UTF8 (bytes_of_string v)
  | (VBinary (Some v) | VLargeBinary (Some v) | VBinaryView (Some v) | VFixedSizeBinary _ (Some v)), TBinary =>
      tagged_bytes TAG_BYTES v
  | VDate32 (Some v), TDate32 => Ok (TAG_DATE32 :: to_le 4 v)
  | VTime64Microsecond (Some v), TTime64Microsecond => Ok (TAG_TIME64_US :: to_le 8 v)
  | VTimestampMillisecond (Some v) _, TTimestampMillisecond => Ok (TAG_TS_MS :: to_le 8 v)
  | VTimestampMicrosecond (Some v) _, TTimestampMicrosecond => Ok (TAG_TS_US :: to_le 8 v)
  | VTimestampNanosecond (Some v) _, TTimestampNanosecond => Ok (TAG_TS_NS :: to_le 8 v)
  | VDecimal128 (Some v) precision scale, TDecimal expected_p expected_s =>
      if (precision =? expected_p) && (scale =? expected_s) then
        Ok (TAG_DECIMAL128 :: precision :: to_le 1 scale ++ to_le 16 v)
      else Err (Encode "unsupported or mismatched value")
  | VFixedSizeList n cell, TEmbedding dimension => encode_embedding_at n cell dimension
  | VStruct _, TStruct _ => encode_array_value value expected
  | VList _, TList _ => encode_array_value value expected
  | _, _ => Err (Encode "unsupported or mismatched value")
  end.

(** ** The reader *)

Definition MAX_NESTING : Z := 32.
Definition MAX_LIST_LEN : Z := 1048576.
Definition MAX_EMBEDDING_DIM : Z := 65536.
Definition MAX_DECODE_WORK : Z := 2097152.
Definition MAX_DECODED_BYTES : Z := 64 * 1024 * 1024.

Record RowReader := mkReader {
  rd_origin : list Z;
  rd_rest : list Z;
  rd_depth : Z;
  rd_work : Z;
  rd_decoded_bytes : Z
}.

Definition new_reader (bytes : list Z) : RowReader := mkReader bytes bytes 0 0 0.

Definition charge_work (r : RowReader) (units : Z) : SerResult RowReader :=
  match checked_add (rd_work r) units with
  | None => Err (Decode "decode work budget overflow")
  | Some next =>
      if MAX_DECODE_WORK <? next then Err (Decode "decode work budget exceeded")
      else Ok (mkReader (rd_origin r) (rd_rest r) (rd_depth r) next (rd_decoded_bytes r))
  end.

Definition charge_bytes (r : RowReader) (bytes : Z) : SerResult RowReader :=
  match checked_add (rd_decoded_bytes r) bytes with
  | None => Err (Decode "decoded allocation budget overflow")
  | Some next =>
      if MAX_DECODED_BYTES <? next then Err (Decode "decoded allocation budget exceeded")
      else Ok (mkReader (rd_origin r) (rd_rest r) (rd_depth r) (rd_work r) next)
  end.

Definition enter_nested (r : RowReader) : SerResult RowReader :=
  match checked_add (rd_depth r) 1 with
  | None => Err (Decode "decoded value nesting depth overflow")
  | Some next =>
      if MAX_NESTING <? next then Err (Decode "decoded value exceeds max nesting depth")
      else Ok (mkReader (rd_origin r) (rd_rest r) next (rd_work r) (rd_decoded_bytes r))
  end.

Definition exit_nested (r : RowReader) : RowReader :=
  mkReader (rd_origin r) (rd_rest r) (saturating_sub (rd_depth r) 1) (rd_work r) (rd_decoded_bytes r).

Definition rd_is_empty (r : RowReader) : bool := (length (rd_rest r) =? 0)%nat.
Definition remaining (r : RowReader) : Z := Z.of_nat (length (rd_rest r)).

Definition at_rest (r : RowReader) (rest : list Z) : RowReader :=
  mkReader (rd_origin r) rest (rd_depth r) (rd_work r) (rd_decoded_bytes r).

Definition seek (r : RowReader) (offset : nat) : SerResult RowReader :=
  if (length (rd_origin r) <? offset)%nat then Err Truncated
  else Ok (at_rest r (drop offset (rd_origin r))).

Definition rd_take (r : RowReader) (n : nat) : SerResult (list Z * RowReader) :=
  if (length (rd_rest r) <? n)%nat then Err Truncated
  else Ok (take n (rd_rest r), at_rest r (drop n (rd_rest r))).

Definition rd_uint (r : RowReader) (n : nat) : SerResult (Z * RowReader) :=
  let? (b, r) := rd_take r n in Ok (from_le b, r).

Definition rd_bytes (r : RowReader) : SerResult (list Z * RowReader) :=
  let? (len, r) := rd_uint r 4 in
  if remaining r <? len then Err Truncated
  else let? r := charge_bytes r len in rd_take r (Z.to_nat len).

Definition rd_string (r : RowReader) : SerResult (string * RowReader) :=
  let? (b, r) := rd_bytes r in
  if utf8_valid b then Ok (string_of_bytes b, r) else Err (Decode "invalid utf8").

(** ** The decoder *)

Definition i64_checked_mul (a b : Z) : option Z :=
  if (- 2 ^ 63 <=? a * b) && (a * b <=? i64_max) then Some (a * b) else None.

Definition scale_timestamp (value factor : Z) : SerResult Z :=
  match i64_checked_mul value factor with
  | Some v => Ok v
  | None => Err (Decode "timestamp overflows when scaled")
  end.

Definition null_for_type (t : StorageDataType) : ScalarValue :=
  match t with
  | TBoolean => VBoolean None
  | TInt8 => VInt8 None
  | TInt16 => VInt16 None
  | TInt32 => VInt32 None
  | TInt64 => VInt64 None
  | TUInt8 => VUInt8 None
  | TUInt16 => VUInt16 None
  | TUInt32 => VUInt32 None
  | TUInt64 => VUInt64 None
  | TFloat32 => VFloat32 None
  | TFloat64 => VFloat64 None
  | TUtf8 => VUtf8 None
  | TBinary => VBinary None
  | TDate32 => VDate32 None
  | TTime64Microsecond => VTime64Microsecond None
  | TTimestampMillisecond => VTimestampMillisecond None None
  | TTimestampMicrosecond => VTimestampMicrosecond None None
  | TTimestampNanosecond => VTimestampNanosecond None None
  | TDecimal precision scale => VDecimal128 None precision scale
  | TEmbedding dimension => VFixedSizeList dimension None
  | TStruct _ => VStruct None
  | TList _ => VList None
  end.

(** The arms of [decode_value] that read a fixed number of bytes: how many, and what becomes of
    them. *)
Definition fixed_arm (tag : Z) (expected : StorageDataType) : option (nat * (list Z -> SerResult ScalarValue)) :=
  match expected with
  | TBoolean => if tag =? TAG_BOOL then Some (1%nat, fun b => Ok (VBoolean (Some (negb (from_le b =? 0))))) else None
  | TInt8 => if tag =? TAG_I8 then Some (1%nat, fun b => Ok (VInt8 (Some (signed_le b)))) else None
  | TInt16 =>
      if tag =? TAG_I8 then Some (1%nat, fun b => Ok (VInt16 (Some (signed_le b))))
      else if tag =? TAG_I16 then Some (2%nat, fun b => Ok (VInt16 (Some (signed_le b)))) else None
  | TInt32 =>
      if tag =? TAG_I8 then Some (1%nat, fun b => Ok (VInt32 (Some (signed_le b))))
      else if tag =? TAG_I16 then Some (2%nat, fun b => Ok (VInt32 (Some (signed_le b))))
      else if tag =? TAG_I32 then Some (4%nat, fun b => Ok (VInt32 (Some (signed_le b)))) else None
  | TInt64 =>
      if tag =? TAG_I8 then Some (1%nat, fun b => Ok (VInt64 (Some (signed_le b))))
      else if tag =? TAG_I16 then Some (2%nat, fun b => Ok (VInt64 (Some (signed_le b))))
      else if tag =? TAG_I32 then Some (4%nat, fun b => Ok (VInt64 (Some (signed_le b))))
      else if tag =? TAG_I64 then Some (8%nat, fun b => Ok (VInt64 (Some (signed_le b)))) else None
  | TUInt8 => if tag =? TAG_U8 then Some (1%nat, fun b => Ok (VUInt8 (Some (from_le b)))) else None
  | TUInt16 =>
      if tag =? TAG_U8 then Some (1%nat, fun b => Ok (VUInt16 (Some (from_le b))))
      else if tag =? TAG_U16 then Some (2%nat, fun b => Ok (VUInt16 (Some (from_le b)))) else None
  | TUInt32 =>
      if tag =? TAG_U8 then Some (1%nat, fun b => Ok (VUInt32 (Some (from_le b))))
      else if tag =? TAG_U16 then Some (2%nat, fun b => Ok (VUInt32 (Some (from_le b))))
      else if tag =? TAG_U32 then Some (4%nat, fun b => Ok (VUInt32 (Some (from_le b)))) else None
  | TUInt64 =>
      if tag =? TAG_U8 then Some (1%nat, fun b => Ok (VUInt64 (Some (from_le b))))
      else if tag =? TAG_U16 then Some (2%nat, fun b => Ok (VUInt64 (Some (from_le b))))
      else if tag =? TAG_U32 then Some (4%nat, fun b => Ok (VUInt64 (Some (from_le b))))
      else if tag =? TAG_U64 then Some (8%nat, fun b => Ok (VUInt64 (Some (from_le b)))) else None
  | TFloat32 => if tag =? TAG_F32 then Some (4%nat, fun b => Ok (VFloat32 (Some (from_le b)))) else None
  | TFloat64 =>
      if tag =? TAG_F32 then Some (4%nat, fun b => Ok (VFloat64 (Some (f64_bits_of_f32 (from_le b)))))
      else if tag =? TAG_F64 then Some (8%nat, fun b => Ok (VFloat64 (Some (from_le b)))) else None
  | TDate32 => if tag =? TAG_DATE32 then Some (4%nat, fun b => Ok (VDate32 (Some (signed_le b)))) else None
  | TTime64Microsecond =>
      if tag =? TAG_TIME64_US then Some (8%nat, fun b => Ok (VTime64Microsecond (Some (signed_le b)))) else None
  | TTimestampMillisecond =>
      if tag =? TAG_TS_MS then Some (8%nat, fun b => Ok (VTimestampMillisecond (Some (signed_le b)) None))
      else if tag =? TAG_TS_US then Some (8%nat, fun b => Ok (VTimestampMillisecond (Some (Z.quot (signed_le b) 1000)) None))
      else None
  | TTimestampMicrosecond =>
      if tag =? TAG_TS_MS then
        Some (8%nat, fun b => let? v := scale_timestamp (signed_le b) 1000 in Ok (VTimestampMicrosecond (Some v) None))
      else if tag =? TAG_TS_US then Some (8%nat, fun b => Ok (VTimestampMicrosecond (Some (signed_le b)) None))
      else None
  | TTimestampNanosecond =>
      if tag =? TAG_TS_MS then
        Some (8%nat, fun b => let? v := scale_timestamp (signed_le b) 1000000 in Ok (VTimestampNanosecond (Some v) None))
      else if tag =? TAG_TS_US then
        Some (8%nat, fun b => let? v := scale_timestamp (signed_le b) 1000 in Ok (VTimestampNanosecond (Some v) None))
      else if tag =? TAG_TS_NS then Some (8%nat, fun b => Ok (VTimestampNanosecond (Some (signed_le b)) None))
      else None
  | _ => None
  end.

Definition decode_decimal (r : RowReader) (precision scale : Z) : SerResult (ScalarValue * RowReader) :=
  let? (got_p, r) := rd_uint r 1 in
  let? (b, r) := rd_take r 1 in
  if (precision <? got_p) || negb (signed_le b =? scale) then Err (Decode "decimal metadata mismatch")
  else let? (bytes, r) := rd_take r 16 in
    Ok (VDecimal128 (Some (signed_le bytes)) precision scale, r).

(** [for _ in 0..n { values.push(Some(reader.f32()?)) }]. *)
Fixpoint read_floats (n : nat) (r : RowReader) : SerResult (list (bool * Z) * RowReader) :=
  match n with
  | O => Ok ([], r)
  | S n' =>
      let? (f, r) := rd_uint r 4 in
      let? (fs, r) := read_floats n' r in
      Ok ((true, f) :: fs, r)
  end.

Definition decode_embedding (r : RowReader) (dimension : Z) : SerResult (ScalarValue * RowReader) :=
  let? (b, r) := rd_take r 4 in
  let stored_dim := signed_le b in
  if (dimension <=? 0) || (stored_dim <=? 0) then Err (Decode "embedding dimension must be positive")
  else if negb (stored_dim =? dimension) then Err (Decode "embedding dimension mismatch")
  else if MAX_EMBEDDING_DIM <? dimension then Err (Decode "embedding dimension exceeds max")
  else if remaining r <? dimension * 4 then Err Truncated
  else
    let? r := charge_work r dimension in
    let? r := charge_bytes r (dimension * 4) in
    let? (values, r) := read_floats (Z.to_nat dimension) r in
    Ok (VFixedSizeList dimension (Some (Some values)), r).

(** [for _ in 0..n { f(reader)? }] *)
Fixpoint repeat_read (f : RowReader -> SerResult RowReader) (n : nat) (r : RowReader) : SerResult RowReader :=
  match n with
  | O => Ok r
  | S n' => let? r := f r in repeat_read f n' r
  end.

(** Bytes after the tag of a value of fixed size. *)
Definition tag_width (tag : Z) : option nat :=
  if tag =? TAG_NULL then Some 0%nat
  else if (tag =? TAG_BOOL) || (tag =? TAG_I8) || (tag =? TAG_U8) then Some 1%nat
  else if (tag =? TAG_I16) || (tag =? TAG_U16) then Some 2%nat
  else if (tag =? TAG_I32) || (tag =? TAG_U32) || (tag =? TAG_F32) || (tag =? TAG_DATE32) then Some 4%nat
  else if (tag =? TAG_I64) || (tag =? TAG_U64) || (tag =? TAG_F64) || (tag =? TAG_TIME64_US)
       || (tag =? TAG_TS_MS) || (tag =? TAG_TS_US) || (tag =? TAG_TS_NS) then Some 8%nat
  else if tag =? TAG_DECIMAL128 then Some 18%nat
  else None.

(** [skip_value], with the loop over the children of a nested value as an argument. *)
Definition skip_one (children : nat -> RowReader -> SerResult RowReader) (r : RowReader) : SerResult RowReader :=
  let? r := charge_work r 1 in
  let? (tag, r) := rd_uint r 1 in
  match tag_width tag with
  | Some n => let? (_, r) := rd_take r n in Ok r
  | None =>
    if (tag =? TAG_UTF8) || (tag =? TAG_BYTES) then let? (_, r) := rd_bytes r in Ok r
    else if tag =? TAG_EMBEDDING then
      let? (b, r) := rd_take r 4 in
      let dimension := signed_le b in
      if dimension <? 0 then Err (Decode "negative embedding dimension")
      else if MAX_EMBEDDING_DIM <? dimension then Err (Decode "skipped embedding dimension exceeds max")
      else
        let? r := charge_work r dimension in
        let? (_, r) := rd_take r (Z.to_nat (dimension * 4)) in Ok r
    else if tag =? TAG_STRUCT then
      let? r := enter_nested r in
      let? (count, r) := rd_uint r 2 in
      if remaining r <? count then Err Truncated
      else
        let? r := charge_work r count in
        let? r := children (Z.to_nat count) r in
        Ok (exit_nested r)
    else if tag =? TAG_LIST then
      let? r := enter_nested r in
      let? (len, r) := rd_uint r 4 in
      if MAX_LIST_LEN <? len then Err (Decode "skipped list length exceeds max")
      else if remaining r <? len then Err Truncated
      else
        let? r := charge_work r len in
        let? r := children (Z.to_nat len) r in
        Ok (exit_nested r)
    else Err (Decode "unknown value tag")
  end.

(** A nested value is entered at most [MAX_NESTING] deep, so that this many levels are all there
    can be: at level zero [enter_nested] has refused before the children are reached. *)
Fixpoint skip_value_at (levels : nat) (r : RowReader) : SerResult RowReader :=
  skip_one (fun n r => match levels with
    | O => Err (Decode "decoded value exceeds max nesting depth")
    | S levels' => repeat_read (skip_value_at levels') n r
    end) r.

Definition skip_value (r : RowReader) : SerResult RowReader := skip_value_at (Z.to_nat MAX_NESTING) r.

(** [for _ in 0..len { items.push(decode(reader)?) }] *)
Fixpoint read_values (f : RowReader -> SerResult (ScalarValue * RowReader)) (n : nat) (r : RowReader) :
    SerResult (list ScalarValue * RowReader) :=
  match n with
  | O => Ok ([], r)
  | S n' => let? (v, r) := f r in let? (vs, r) := read_values f n' r in Ok (v :: vs, r)
  end.

(** The loop over the fields of a struct, of which the first [live] are stored. *)
Fixpoint read_struct_fields (f : StorageDataType -> RowReader -> SerResult (ScalarValue * RowReader))
    (fields : list StorageField) (live : nat) (r : RowReader) : SerResult (list (string * ScalarValue) * RowReader) :=
  match fields with
  | [] => Ok ([], r)
  | field :: rest =>
      let? (v, r) := match live with
        | S _ => f (sf_data_type field) r
        | O => Ok (null_for_type (sf_data_type field), r)
        end in
      let? (vs, r) := read_struct_fields f rest (pred live) r in
      Ok ((sf_name field, v) :: vs, r)
  end.

Fixpoint decode_value (expected : StorageDataType) (r : RowReader) {struct expected} : SerResult (ScalarValue * RowReader) :=
  let? r := charge_work r 1 in
  let? (tag, r) := rd_uint r 1 in
  if tag =? TAG_NULL then Ok (null_for_type expected, r)
  else match fixed_arm tag expected with
  | Some (n, f) => let? (b, r) := rd_take r n in let? v := f b in Ok (v, r)
  | None =>
    match expected with
    | TUtf8 =>
        if tag =? TAG_UTF8 then let? (s, r) := rd_string r in Ok (VUtf8 (Some s), r)
        else Err (Decode "value tag does not match storage type")
    | TBinary =>
        if tag =? TAG_BYTES then let? (b, r) := rd_bytes r in Ok (VBinary (Some b), r)
        else Err (Decode "value tag does not match storage type")
    | TDecimal precision scale =>
        if tag =? TAG_DECIMAL128 then decode_decimal r precision scale
        else Err (Decode "value tag does not match storage type")
    | TEmbedding dimension =>
        if tag =? TAG_EMBEDDING then decode_embedding r dimension
        else Err (Decode "value tag does not match storage type")
    | TStruct fields =>
        if tag =? TAG_STRUCT then
          let? r := enter_nested r in
          let? (count, r) := rd_uint r 2 in
          let live_count := Z.min count (Z.of_nat (length fields)) in
          if (remaining r <? live_count) || (remaining r <? count) then Err Truncated
          else
            let? r := charge_work r (Z.max (Z.of_nat (length fields)) count) in
            let? (values, r) := read_struct_fields decode_value fields (Z.to_nat live_count) r in
            let? r := repeat_read skip_value (Z.to_nat (count - live_count)) r in
            Ok (VStruct (Some values), exit_nested r)
        else Err (Decode "value tag does not match storage type")
    | TList inner =>
        if tag =? TAG_LIST then
          let? r := enter_nested r in
          let? (len, r) := rd_uint r 4 in
          if MAX_LIST_LEN <? len then Err (Decode "decoded list length exceeds max")
          else if remaining r <? len then Err Truncated
          else
            let? r := charge_work r len in
            let? r := charge_bytes r (len * 16) in
            let? (items, r) := read_values (decode_value inner) (Z.to_nat len) r in
            Ok (VList (Some items), exit_nested r)
        else Err (Decode "value tag does not match storage type")
    | _ => Err (Decode "value tag does not match storage type")
    end
  end.

(** ** What is stored

    The canonical value of a column: the variant the decoder returns for the type. *)

Definition i_range (n : nat) (x : Z) : Prop := - (byte_modulus n / 2) <= x < byte_modulus n / 2.
Definition u_range (n : nat) (x : Z) : Prop := 0 <= x < byte_modulus n.

Fixpoint cells_typed (P : StorageDataType -> ScalarValue -> Prop) (fields : list StorageField)
    (cells : list (string * ScalarValue)) : Prop :=
  match fields, cells with
  | [], [] => True
  | f :: fs, c :: cs => c.1 = sf_name f /\ P (sf_data_type f) c.2 /\ cells_typed P fs cs
  | _, _ => False
  end.

Fixpoint typed (t : StorageDataType) (v : ScalarValue) {struct t} : Prop :=
  match t, v with
  | TBoolean, VBoolean _ => True
  | TInt8, VInt8 o => option_all (i_range 1) o
  | TInt16, VInt16 o => option_all (i_range 2) o
  | TInt32, VInt32 o => option_all (i_range 4) o
  | TInt64, VInt64 o => option_all (i_range 8) o
  | TUInt8, VUInt8 o => option_all (u_range 1) o
  | TUInt16, VUInt16 o => option_all (u_range 2) o
  | TUInt32, VUInt32 o => option_all (u_range 4) o
  | TUInt64, VUInt64 o => option_all (u_range 8) o
  | TFloat32, VFloat32 o => option_all (u_range 4) o
  | TFloat64, VFloat64 o => option_all (u_range 8) o
  | TUtf8, VUtf8 o => option_all text_ok o
  | TBinary, VBinary o => option_all all_bytes o
  | TDate32, VDate32 o => option_all (i_range 4) o
  | TTime64Microsecond, VTime64Microsecond o => option_all (i_range 8) o
  | TTimestampMillisecond, VTimestampMillisecond o tz => tz = None /\ option_all (i_range 8) o
  | TTimestampMicrosecond, VTimestampMicrosecond o tz => tz = None /\ option_all (i_range 8) o
  | TTimestampNanosecond, VTimestampNanosecond o tz => tz = None /\ option_all (i_range 8) o
  | TDecimal p s, VDecimal128 o p' s' => p' = p /\ s' = s /\ option_all (i_range 16) o
  | TEmbedding d, VFixedSizeList n cell =>
      n = d /\ match cell with
        | None => True
        | Some None => False
        | Some (Some floats) => Z.of_nat (length floats) = d /\ Forall (fun f => f.1 = true /\ u_range 4 f.2) floats
        end
  | TStruct fields, VStruct cell => option_all (cells_typed typed fields) cell
  | TList inner, VList cell => option_all (Forall (typed inner)) cell
  | _, _ => False
  end.

(** A type a column can have: embeddings of a dimension the decoder reads, structs with distinct
    field names. *)
Fixpoint all_fields (P : StorageDataType -> Prop) (fields : list StorageField) : Prop :=
  match fields with
  | [] => True
  | f :: fs => P (sf_data_type f) /\ all_fields P fs
  end.

Fixpoint type_ok (t : StorageDataType) : Prop :=
  match t with
  | TDecimal p s => u_range 1 p /\ i_range 1 s
  | TEmbedding d => 0 < d <= MAX_EMBEDDING_DIM
  | TStruct fields => NoDup (sf_name <$> fields) /\ Z.of_nat (length fields) <= u16_max /\ all_fields type_ok fields
  | TList inner => type_ok inner
  | _ => True
  end.

(** What Rust's types guarantee of a value: integers of their width, strings of valid UTF-8, the
    slots of a fixed-size list. *)
Fixpoint all_cells (P : ScalarValue -> Prop) (cells : list (string * ScalarValue)) : Prop :=
  match cells with
  | [] => True
  | c :: cs => P c.2 /\ all_cells P cs
  end.

Fixpoint all_items (P : ScalarValue -> Prop) (items : list ScalarValue) : Prop :=
  match items with
  | [] => True
  | c :: cs => P c /\ all_items P cs
  end.

Fixpoint well_formed (v : ScalarValue) : Prop :=
  match v with
  | VInt8 o => option_all (i_range 1) o
  | VInt16 o => option_all (i_range 2) o
  | VInt32 o | VDate32 o => option_all (i_range 4) o
  | VInt64 o | VTime64Microsecond o => option_all (i_range 8) o
  | VTimestampMillisecond o _ | VTimestampMicrosecond o _ | VTimestampNanosecond o _ => option_all (i_range 8) o
  | VUInt8 o => option_all (u_range 1) o
  | VUInt16 o => option_all (u_range 2) o
  | VUInt32 o | VFloat32 o => option_all (u_range 4) o
  | VUInt64 o | VFloat64 o => option_all (u_range 8) o
  | VUtf8 o | VLargeUtf8 o | VUtf8View o => option_all text_ok o
  | VBinary o | VLargeBinary o | VBinaryView o | VFixedSizeBinary _ o => option_all all_bytes o
  | VDecimal128 o _ _ => option_all (i_range 16) o
  | VFixedSizeList _ (Some (Some floats)) => Forall (fun f => u_range 4 f.2) floats
  | VStruct (Some cells) => all_cells well_formed cells
  | VList (Some items) => all_items well_formed items
  | _ => True
  end.

(** The canonical value the encoder stores for [v] in a column of type [t]: what the storage type
    does not distinguish is dropped, a struct has the fields of the type. *)
Fixpoint normalize (t : StorageDataType) (v : ScalarValue) {struct t} : ScalarValue :=
  if is_null v then null_for_type t
  else match t, v with
  | TUtf8, (VLargeUtf8 s | VUtf8View s) => VUtf8 s
  | TBinary, (VLargeBinary b | VBinaryView b | VFixedSizeBinary _ b) => VBinary b
  | TTimestampMillisecond, VTimestampMillisecond x _ => VTimestampMillisecond x None
  | TTimestampMicrosecond, VTimestampMicrosecond x _ => VTimestampMicrosecond x None
  | TTimestampNanosecond, VTimestampNanosecond x _ => VTimestampNanosecond x None
  | TDecimal p s, VDecimal128 x _ _ => VDecimal128 x p s
  | TEmbedding d, VFixedSizeList _ (Some (Some floats)) => VFixedSizeList d (Some (Some ((fun f => (true, f.2)) <$> floats)))
  | TStruct fields, VStruct (Some cells) =>
      VStruct (Some (map (fun f => (sf_name f,
        match column_by_name cells (sf_name f) with
        | Some child => normalize (sf_data_type f) child
        | None => null_for_type (sf_data_type f)
        end)) fields))
  | TList inner, VList (Some items) => VList (Some (map (normalize inner) items))
  | _, _ => v
  end.

(** The bytes of a canonical value. *)
Fixpoint wire (v : ScalarValue) : list Z :=
  match v with
  | VBoolean (Some b) => [TAG_BOOL; if b then 1 else 0]
  | VInt8 (Some x) => TAG_I8 :: to_le 1 x
  | VInt16 (Some x) => TAG_I16 :: to_le 2 x
  | VInt32 (Some x) => TAG_I32 :: to_le 4 x
  | VInt64 (Some x) => TAG_I64 :: to_le 8 x
  | VUInt8 (Some x) => TAG_U8 :: to_le 1 x
  | VUInt16 (Some x) => TAG_U16 :: to_le 2 x
  | VUInt32 (Some x) => TAG_U32 :: to_le 4 x
  | VUInt64 (Some x) => TAG_U64 :: to_le 8 x
  | VFloat32 (Some x) => TAG_F32 :: to_le 4 x
  | VFloat64 (Some x) => TAG_F64 :: to_le 8 x
  | VUtf8 (Some s) => TAG_UTF8 :: to_le 4 (Z.of_nat (length (bytes_of_string s))) ++ bytes_of_string s
  | VBinary (Some b) => TAG_BYTES :: to_le 4 (Z.of_nat (length b)) ++ b
  | VDate32 (Some x) => TAG_DATE32 :: to_le 4 x
  | VTime64Microsecond (Some x) => TAG_TIME64_US :: to_le 8 x
  | VTimestampMillisecond (Some x) _ => TAG_TS_MS :: to_le 8 x
  | VTimestampMicrosecond (Some x) _ => TAG_TS_US :: to_le 8 x
  | VTimestampNanosecond (Some x) _ => TAG_TS_NS :: to_le 8 x
  | VDecimal128 (Some x) p s => TAG_DECIMAL128 :: p :: to_le 1 s ++ to_le 16 x
  | VFixedSizeList d (Some (Some floats)) => TAG_EMBEDDING :: to_le 4 d ++ concat ((fun f => to_le 4 f.2) <$> floats)
  | VStruct (Some cells) => TAG_STRUCT :: to_le 2 (Z.of_nat (length cells)) ++ concat (map (fun c => wire c.2) cells)
  | VList (Some items) => TAG_LIST :: to_le 4 (Z.of_nat (length items)) ++ concat (map wire items)
  | _ => [TAG_NULL]
  end.

(** A stored value read as a column of a later type: integers and floats widen, timestamps change
    unit, structs gain and lose trailing fields. *)
Fixpoint migrate_cells (f : StorageDataType -> ScalarValue -> option ScalarValue) (fields : list StorageField)
    (cells : list (string * ScalarValue)) : option (list (string * ScalarValue)) :=
  match fields, cells with
  | [], _ => Some []
  | field :: fs, [] => vs ← migrate_cells f fs []; Some ((sf_name field, null_for_type (sf_data_type field)) :: vs)
  | field :: fs, c :: cs =>
      v ← f (sf_data_type field) c.2; vs ← migrate_cells f fs cs; Some ((sf_name field, v) :: vs)
  end.

Fixpoint migrate (t : StorageDataType) (v : ScalarValue) {struct t} : option ScalarValue :=
  if is_null v then Some (null_for_type t)
  else match t, v with
  | TBoolean, VBoolean x => Some (VBoolean x)
  | TInt8, VInt8 x => Some (VInt8 x)
  | TInt16, (VInt8 x | VInt16 x) => Some (VInt16 x)
  | TInt32, (VInt8 x | VInt16 x | VInt32 x) => Some (VInt32 x)
  | TInt64, (VInt8 x | VInt16 x | VInt32 x | VInt64 x) => Some (VInt64 x)
  | TUInt8, VUInt8 x => Some (VUInt8 x)
  | TUInt16, (VUInt8 x | VUInt16 x) => Some (VUInt16 x)
  | TUInt32, (VUInt8 x | VUInt16 x | VUInt32 x) => Some (VUInt32 x)
  | TUInt64, (VUInt8 x | VUInt16 x | VUInt32 x | VUInt64 x) => Some (VUInt64 x)
  | TFloat32, VFloat32 x => Some (VFloat32 x)
  | TFloat64, VFloat32 x => Some (VFloat64 (f64_bits_of_f32 <$> x))
  | TFloat64, VFloat64 x => Some (VFloat64 x)
  | TUtf8, VUtf8 s => Some (VUtf8 s)
  | TBinary, VBinary b => Some (VBinary b)
  | TDate32, VDate32 x => Some (VDate32 x)
  | TTime64Microsecond, VTime64Microsecond x => Some (VTime64Microsecond x)
  | TTimestampMillisecond, VTimestampMillisecond x _ => Some (VTimestampMillisecond x None)
  | TTimestampMillisecond, VTimestampMicrosecond x _ => Some (VTimestampMillisecond ((fun x => Z.quot x 1000) <$> x) None)
  | TTimestampMicrosecond, VTimestampMillisecond (Some x) _ =>
      y ← i64_checked_mul x 1000; Some (VTimestampMicrosecond (Some y) None)
  | TTimestampMicrosecond, VTimestampMicrosecond x _ => Some (VTimestampMicrosecond x None)
  | TTimestampNanosecond, VTimestampMillisecond (Some x) _ =>
      y ← i64_checked_mul x 1000000; Some (VTimestampNanosecond (Some y) None)
  | TTimestampNanosecond, VTimestampMicrosecond (Some x) _ =>
      y ← i64_checked_mul x 1000; Some (VTimestampNanosecond (Some y) None)
  | TTimestampNanosecond, VTimestampNanosecond x _ => Some (VTimestampNanosecond x None)
  | TDecimal p s, VDecimal128 x p' s' => if (p' <=? p) && (s' =? s) then Some (VDecimal128 x p s) else None
  | TEmbedding d, VFixedSizeList n cell => if n =? d then Some (VFixedSizeList n cell) else None
  | TStruct fields, VStruct (Some cells) => vs ← migrate_cells migrate fields cells; Some (VStruct (Some vs))
  | TList inner, VList (Some items) => vs ← mapM (migrate inner) items; Some (VList (Some vs))
  | _, _ => None
  end.

(** ** What reading costs *)

Definition sum_z (l : list Z) : Z := foldr Z.add 0 l.
Definition max_z (l : list Z) : Z := foldr Z.max 0 l.

(** Units of work and bytes [skip_value] charges for a value, and how deep it is nested. *)
Fixpoint skip_work (v : ScalarValue) : Z :=
  match v with
  | VFixedSizeList d (Some (Some _)) => 1 + d
  | VStruct (Some cells) => 1 + Z.of_nat (length cells) + sum_z (map (fun c => skip_work c.2) cells)
  | VList (Some items) => 1 + Z.of_nat (length items) + sum_z (map skip_work items)
  | _ => 1
  end.

Fixpoint skip_bytes (v : ScalarValue) : Z :=
  match v with
  | VUtf8 (Some s) => Z.of_nat (length (bytes_of_string s))
  | VBinary (Some b) => Z.of_nat (length b)
  | VStruct (Some cells) => sum_z (map (fun c => skip_bytes c.2) cells)
  | VList (Some items) => sum_z (map skip_bytes items)
  | _ => 0
  end.

Fixpoint nesting (v : ScalarValue) : Z :=
  match v with
  | VStruct (Some cells) => 1 + max_z (map (fun c => nesting c.2) cells)
  | VList (Some items) => 1 + max_z (map nesting items)
  | _ => 0
  end.

(** Reading the cells of a struct whose type has [fields]; further cells are skipped. *)
Fixpoint cells_cost (f : StorageDataType -> ScalarValue -> Z) (skip : ScalarValue -> Z) (fields : list StorageField)
    (cells : list (string * ScalarValue)) : Z :=
  match fields, cells with
  | [], cs => sum_z (map (fun c => skip c.2) cs)
  | _ :: _, [] => 0
  | field :: fs, c :: cs => f (sf_data_type field) c.2 + cells_cost f skip fs cs
  end.

(** Units of work and bytes for reading [v] as a column of type [t]. *)
Fixpoint read_work (t : StorageDataType) (v : ScalarValue) {struct t} : Z :=
  match t, v with
  | TStruct fields, VStruct (Some cells) =>
      1 + Z.max (Z.of_nat (length fields)) (Z.of_nat (length cells)) + cells_cost read_work skip_work fields cells
  | TList inner, VList (Some items) => 1 + Z.of_nat (length items) + sum_z (map (read_work inner) items)
  | _, VFixedSizeList d (Some (Some _)) => 1 + d
  | _, _ => 1
  end.

Fixpoint read_bytes (t : StorageDataType) (v : ScalarValue) {struct t} : Z :=
  match t, v with
  | TStruct fields, VStruct (Some cells) => cells_cost read_bytes skip_bytes fields cells
  | TList inner, VList (Some items) => Z.of_nat (length items) * 16 + sum_z (map (read_bytes inner) items)
  | _, VUtf8 (Some s) => Z.of_nat (length (bytes_of_string s))
  | _, VBinary (Some b) => Z.of_nat (length b)
  | _, VFixedSizeList d (Some (Some _)) => d * 4
  | _, _ => 0
  end.

(** ** Integers *)

Lemma byte_modulus_pos n : 0 < byte_modulus n.
Proof. apply Z.pow_pos_nonneg; lia. Qed.

Lemma to_le_length n x : length (to_le n x) = n.
Proof. apply le_bytes_length. Qed.

Lemma to_le_bytes n x : all_bytes (to_le n x).
Proof. apply le_bytes_bytes. Qed.

Lemma from_le_to_le n x : u_range n x -> from_le (to_le n x) = x.
Proof.
  intros Hx. unfold to_le. rewrite Z.mod_small by exact Hx. by apply from_le_bytes.
Qed.

Lemma byte_modulus_even n : n <> O -> byte_modulus n = 2 * (byte_modulus n / 2).
Proof.
  intros Hn. apply Z_div_exact_full_2; [lia|]. destruct n as [|n]; [done|]. unfold byte_modulus.
  rewrite Nat2Z.inj_succ, Z.pow_succ_r by lia. replace (256 * 256 ^ Z.of_nat n) with (128 * 256 ^ Z.of_nat n * 2) by lia.
  apply Z_mod_mult.
Qed.

Lemma signed_le_to_le n x : n <> O -> i_range n x -> signed_le (to_le n x) = x.
Proof.
  intros Hn Hx. unfold signed_le, as_signed. rewrite to_le_length. unfold to_le.
  pose proof (byte_modulus_pos n) as Hp. pose proof (Z.mod_pos_bound x _ Hp) as Hm.
  rewrite from_le_bytes by exact Hm. pose proof (byte_modulus_even n Hn) as He. unfold i_range in Hx.
  destruct (Z.leb_spec 0 x).
  - rewrite Z.mod_small by lia. destruct (Z.ltb_spec x (byte_modulus n / 2)); lia.
  - replace (x mod byte_modulus n) with (x + byte_modulus n).
    + destruct (Z.ltb_spec (x + byte_modulus n) (byte_modulus n / 2)); lia.
    + apply Z.mod_unique with (-1); lia.
Qed.

Lemma signed_le_range l : l <> [] -> all_bytes l -> i_range (length l) (signed_le l).
Proof.
  intros Hl Hb. pose proof (from_le_range l Hb) as Hr. fold (byte_modulus (length l)) in Hr.
  assert (length l <> O) as Hn by (destruct l; cbn; congruence). pose proof (byte_modulus_even _ Hn).
  unfold i_range, signed_le, as_signed. destruct (Z.ltb_spec (from_le l) (byte_modulus (length l) / 2)); lia.
Qed.

Lemma i_range_mono n m x : (n <= m)%nat -> i_range n x -> i_range m x.
Proof.
  intros Hnm Hx. unfold i_range in *. assert (byte_modulus n <= byte_modulus m) as Hle.
  { apply Z.pow_le_mono_r; lia. }
  pose proof (Z.div_le_mono _ _ 2 ltac:(lia) Hle). lia.
Qed.

Lemma u_range_mono n m x : (n <= m)%nat -> u_range n x -> u_range m x.
Proof.
  intros Hnm Hx. unfold u_range in *. assert (byte_modulus n <= byte_modulus m) as Hle.
  { apply Z.pow_le_mono_r; lia. }
  lia.
Qed.

(** ** Induction on types *)

Definition is_nested (t : StorageDataType) : bool := match t with TStruct _ | TList _ => true | _ => false end.

Lemma storage_type_ind (P : StorageDataType -> Prop) :
  (forall t, is_nested t = false -> P t) ->
  (forall fields, Forall (fun f => P (sf_data_type f)) fields -> P (TStruct fields)) ->
  (forall inner, P inner -> P (TList inner)) ->
  forall t, P t.
Proof.
  intros Hbase Hstruct Hlist. fix IH 1. intros []; try (by apply Hbase).
  - apply Hstruct. induction fields as [|[n t d m] fs IHf]; constructor; [apply IH|exact IHf].
  - apply Hlist, IH.
Qed.

Lemma cells_typed_Forall2 P fields cells :
  cells_typed P fields cells <-> Forall2 (fun f c => c.1 = sf_name f /\ P (sf_data_type f) c.2) fields cells.
Proof.
  revert cells. induction fields as [|f fs IH]; intros [|c cs]; cbn; rewrite ?Forall2_cons, ?IH; try naive_solver.
  - split; [done|]. by inversion 1.
  - split; [done|]. by inversion 1.
Qed.

Lemma all_fields_Forall P fields : all_fields P fields <-> Forall (fun f => P (sf_data_type f)) fields.
Proof. induction fields as [|f fs IH]; cbn; rewrite ?Forall_cons, ?IH; naive_solver. Qed.

Lemma all_cells_Forall P cells : all_cells P cells <-> Forall (fun c => P c.2) cells.
Proof. induction cells as [|c cs IH]; cbn; rewrite ?Forall_cons, ?IH; naive_solver. Qed.

Lemma all_items_Forall P items : all_items P items <-> Forall P items.
Proof. induction items as [|c cs IH]; cbn; rewrite ?Forall_cons, ?IH; naive_solver. Qed.

(** ** Nulls *)

Lemma null_is_null t : is_null (null_for_type t) = true.
Proof. by destruct t. Qed.

Lemma null_typed t : typed t (null_for_type t).
Proof. by destruct t; cbn. Qed.

Lemma null_wire t : wire (null_for_type t) = [TAG_NULL].
Proof. by destruct t. Qed.

Lemma typed_null t v : typed t v -> is_null v = true -> v = null_for_type t.
Proof.
  destruct t, v; cbn; try done; try (by destruct v); try (by destruct bits); try (by destruct cell);
    try (by intros [-> ?]; destruct v).
  - intros (-> & -> & _). by destruct v.
  - intros [-> _]. by destruct cell.
Qed.

Lemma cell_null_null c : cell_is_null c = true -> is_null c = true.
Proof. by destruct c. Qed.

(** ** The encoder writes the canonical value *)

Lemma write_bytes_inv bytes b : write_bytes bytes = Ok b -> b = to_le 4 (Z.of_nat (length bytes)) ++ bytes.
Proof. unfold write_bytes. by case_match; intros <-%Ok_inj || intros. Qed.

Lemma tagged_bytes_inv tag bytes b :
  tagged_bytes tag bytes = Ok b -> b = tag :: to_le 4 (Z.of_nat (length bytes)) ++ bytes.
Proof.
  unfold tagged_bytes. intros (x & ->%write_bytes_inv & [= <-])%result_bind_ok. done.
Qed.

Lemma column_by_name_well_formed cells name c :
  all_cells well_formed cells -> column_by_name cells name = Some c -> well_formed c.
Proof.
  induction cells as [|[n x] cs IH]; cbn; [done|]. intros [Hx Hcs]. case_decide; [congruence|]. by apply IH.
Qed.

Lemma write_each_concat {A} (w : A -> SerResult (list Z)) (g : A -> list Z) (P : A -> Prop) items b :
  (forall x e, x ∈ items -> w x = Ok e -> P x /\ e = g x) -> write_each w items = Ok b ->
  Forall P items /\ b = concat (map g items).
Proof.
  revert b. induction items as [|x xs IH]; intros b Hw; cbn; [intros [= <-]; done|].
  intros (e & He & (e' & He' & [= <-])%result_bind_ok)%result_bind_ok.
  apply Hw in He as [Hx ->]; [|set_solver]. apply IH in He' as [Hxs ->]; [by split; [constructor|]|].
  intros y ey Hy. apply Hw. set_solver.
Qed.

Lemma embedding_encoded n cell d b :
  type_ok (TEmbedding d) -> well_formed (VFixedSizeList n cell) -> encode_embedding_at n cell d = Ok b ->
  typed (TEmbedding d) (normalize (TEmbedding d) (VFixedSizeList n cell)) /\
  b = wire (normalize (TEmbedding d) (VFixedSizeList n cell)).
Proof.
  intros Hd Hwf. unfold encode_embedding_at. destruct cell as [[floats|]|]; [| |by intros [= <-]].
  - destruct (Z.eqb_spec n d) as [->|]; cbn [negb]; [|done].
    destruct (Z.eqb_spec (Z.of_nat (length floats)) (d mod u64_modulus)) as [Hlen|]; cbn [negb]; [|done].
    intros [= <-]. cbn in Hd, Hwf. unfold MAX_EMBEDDING_DIM in Hd.
    rewrite Z.mod_small in Hlen by (unfold u64_modulus; lia). cbn. rewrite length_fmap. split.
    + split; [done|]. split; [done|]. apply Forall_fmap. eapply Forall_impl; [exact Hwf|]. done.
    + do 2 f_equal. by rewrite <- list_fmap_compose.
  - destruct (n =? d); done.
Qed.

Ltac encoded_base :=
  repeat match goal with
  | H : Ok _ = Ok _ |- _ => apply Ok_inj in H; subst
  | H : Err _ = Ok _ |- _ => discriminate H
  | H : tagged_bytes _ _ = Ok _ |- _ => apply tagged_bytes_inv in H; subst
  | H : False |- _ => destruct H
  | o : option _ |- _ => destruct o; cbn in *
  | H : ?null = false |- _ => is_var null; subst null
  end; try done.

Lemma null_cell_encoded t c b :
  is_null c = true -> Ok [TAG_NULL] = (Ok b : SerResult (list Z)) ->
  typed t (normalize t c) /\ b = wire (normalize t c).
Proof.
  intros Hn [= <-]. assert (normalize t c = null_for_type t) as -> by (by destruct t; cbn; rewrite Hn).
  split; [apply null_typed|by rewrite null_wire].
Qed.

Lemma base_cell_encoded t c b :
  is_nested t = false -> type_ok t -> well_formed c -> encode_array_value c t = Ok b ->
  typed t (normalize t c) /\ b = wire (normalize t c).
Proof.
  intros Hbase Ht Hc He. destruct (cell_is_null c) eqn:Hn.
  - apply null_cell_encoded; [by apply cell_null_null|]. by rewrite <- He; destruct t; cbn; rewrite Hn.
  - destruct t; try discriminate Hbase; destruct c; cbn in He, Hn; try discriminate;
      try (apply embedding_encoded; [done..|]; by destruct cell as [[]|]);
      cbn in Hc |- *; encoded_base.
Qed.

Lemma struct_cells_encoded fields cells b :
  Forall (fun f => forall c b, type_ok (sf_data_type f) -> well_formed c ->
    encode_array_value c (sf_data_type f) = Ok b ->
    typed (sf_data_type f) (normalize (sf_data_type f) c) /\ b = wire (normalize (sf_data_type f) c)) fields ->
  type_ok (TStruct fields) -> all_cells well_formed cells ->
  encode_array_value (VStruct (Some cells)) (TStruct fields) = Ok b ->
  typed (TStruct fields) (normalize (TStruct fields) (VStruct (Some cells))) /\
  b = wire (normalize (TStruct fields) (VStruct (Some cells))).
Proof.
  intros IH (_ & Hlen & Hok%all_fields_Forall) Hc. cbn [encode_array_value cell_is_null is_null none].
  destruct (Z.leb_spec (Z.of_nat (length fields)) u16_max); [|lia].
  set (cell_of := fun f => match column_by_name cells (sf_name f) with
      | Some child => normalize (sf_data_type f) child | None => null_for_type (sf_data_type f) end).
  intros (children & He & [= <-])%result_bind_ok.
  apply (write_each_concat _ (fun f => wire (cell_of f)) (fun f => typed (sf_data_type f) (cell_of f))) in He
    as [Htyped ->].
  - cbn [normalize is_null none typed option_all wire]. split.
    + apply cells_typed_Forall2. clear -Htyped. induction Htyped; cbn; constructor; [done|]. done.
    + rewrite length_map, map_map. done.
  - intros f e Hf. unfold cell_of. rewrite Forall_forall in IH, Hok.
    destruct (column_by_name cells (sf_name f)) as [child|] eqn:E.
    + intros Hchild. apply IH; [done|by apply Hok|by eapply column_by_name_well_formed|done].
    + intros [= <-]. split; [apply null_typed|by rewrite null_wire].
Qed.

Lemma list_items_encoded inner items b :
  (forall c b, type_ok inner -> well_formed c -> encode_array_value c inner = Ok b ->
    typed inner (normalize inner c) /\ b = wire (normalize inner c)) ->
  type_ok inner -> all_items well_formed items -> encode_array_value (VList (Some items)) (TList inner) = Ok b ->
  typed (TList inner) (normalize (TList inner) (VList (Some items))) /\
  b = wire (normalize (TList inner) (VList (Some items))).
Proof.
  intros IH Hok Hc%all_items_Forall. cbn [encode_array_value cell_is_null is_null none].
  destruct (Z.leb_spec (Z.of_nat (length items)) u32_max); [|done].
  intros (children & He & [= <-])%result_bind_ok.
  apply (write_each_concat _ (fun c => wire (normalize inner c)) (fun c => typed inner (normalize inner c))) in He
    as [Htyped ->].
  - cbn [normalize is_null none typed option_all wire]. split; [by apply Forall_map|]. by rewrite length_map, map_map.
  - intros c e Hin Hitem. rewrite Forall_forall in Hc. by apply IH; [|apply Hc|].
Qed.

Lemma cell_encoded t c b :
  type_ok t -> well_formed c -> encode_array_value c t = Ok b ->
  typed t (normalize t c) /\ b = wire (normalize t c).
Proof.
  revert c b. induction t as [t Hbase|fields IH|inner IH] using storage_type_ind; intros c b Ht Hc He.
  - by apply base_cell_encoded.
  - destruct (cell_is_null c) eqn:Hn.
    + apply null_cell_encoded; [by apply cell_null_null|]. by rewrite <- He; cbn; rewrite Hn.
    + destruct c; cbn in He, Hn; try (rewrite ?Hn in He; discriminate). destruct cell as [cells|]; [|discriminate].
      by apply struct_cells_encoded.
  - destruct (cell_is_null c) eqn:Hn.
    + apply null_cell_encoded; [by apply cell_null_null|]. by rewrite <- He; cbn; rewrite Hn.
    + destruct c; cbn in He, Hn; try (rewrite ?Hn in He; discriminate). destruct cell as [items|]; [|discriminate].
      by apply list_items_encoded.
Qed.

(** What the encoder of a column accepts is stored as its canonical value. *)
Lemma value_encoded t v b :
  type_ok t -> well_formed v -> encode_value v t = Ok b ->
  typed t (normalize t v) /\ b = wire (normalize t v).
Proof.
  intros Ht Hv He. destruct (is_null v) eqn:Hn.
  - apply null_cell_encoded; [done|]. rewrite <- He. unfold encode_value. by rewrite Hn.
  - unfold encode_value in He. rewrite Hn in He.
    destruct v, t; cbn in Hn; try discriminate;
      try (by apply cell_encoded); try (by apply embedding_encoded; [..|destruct cell as [[]|]]);
      cbn in Hv |- *; encoded_base.
    case_match; [|done]. apply Ok_inj in He as <-.
    match goal with H : _ && _ = true |- _ => apply andb_true_iff in H as [->%Z.eqb_eq ->%Z.eqb_eq] end. done.
Qed.

(** A canonical value is its own. *)
Lemma column_by_name_skip n x cells name : n <> name -> column_by_name ((n, x) :: cells) name = column_by_name cells name.
Proof. intros Hn. cbn. by rewrite decide_False. Qed.

Lemma normal_cells (g : StorageDataType -> ScalarValue -> ScalarValue) fields cells all :
  NoDup (sf_name <$> fields) -> cells_typed (fun t v => g t v = v) fields cells ->
  (forall f, f ∈ fields -> column_by_name all (sf_name f) = column_by_name cells (sf_name f)) ->
  map (fun f => (sf_name f, match column_by_name all (sf_name f) with
    | Some child => g (sf_data_type f) child | None => null_for_type (sf_data_type f) end)) fields = cells.
Proof.
  intros Hnd Ht%cells_typed_Forall2. revert Hnd. induction Ht as [|f [n x] fs cs [Hn Hx] Ht IH]; intros Hnd Hall; [done|].
  cbn in Hn, Hx. subst n. rewrite fmap_cons, NoDup_cons in Hnd. destruct Hnd as [Hf Hnd]. cbn [map]. f_equal.
  - rewrite Hall by set_solver. cbn. rewrite decide_True by done. by rewrite Hx.
  - apply IH; [done|]. intros f' Hf'. rewrite Hall by set_solver. apply column_by_name_skip. intros E. apply Hf.
    rewrite E. by apply list_elem_of_fmap_2.
Qed.

Lemma cells_typed_impl (P Q : StorageDataType -> ScalarValue -> Prop) fields cells :
  Forall (fun f => forall v, P (sf_data_type f) v -> Q (sf_data_type f) v) fields ->
  cells_typed P fields cells -> cells_typed Q fields cells.
Proof.
  revert cells. induction fields as [|f fs IH]; intros [|c cs]; cbn; try done. rewrite Forall_cons. naive_solver.
Qed.

Lemma normalize_typed t v : type_ok t -> typed t v -> normalize t v = v.
Proof.
  revert v. induction t as [t Hbase|fields IH|inner IH] using storage_type_ind; intros v Ht Hv;
    (destruct (is_null v) eqn:Hn; [rewrite (typed_null _ _ Hv Hn); destruct t || idtac; cbn; by rewrite ?null_is_null|]).
  - destruct t; try discriminate; destruct v; cbn in Hv; try done; destruct Hv as [-> Hv] || idtac;
      try (by destruct v); try (by destruct bits).
    + destruct Hv as [-> _]. by destruct v.
    + destruct cell as [[floats|]|]; [|done|done]. destruct Hv as [_ Hf]. cbn. do 3 f_equal.
      clear -Hf. induction Hf as [|[b x] fs [Hb _] Hfs IHf]; [done|]. cbn in Hb |- *. by rewrite Hb, IHf.
  - destruct v; cbn in Hv; try done. destruct cell as [cells|]; [|done]. cbn in Hv |- *. do 2 f_equal.
    destruct Ht as (Hnd & _ & Hok%all_fields_Forall).
    apply normal_cells; [done| |done]. eapply cells_typed_impl; [|exact Hv].
    eapply Forall_impl; [apply Forall_and; split; [exact IH|exact Hok]|]. intros f [Hf Hfok] x Hx. by apply Hf.
  - destruct v; cbn in Hv; try done. destruct cell as [items|]; [|done]. cbn in Hv |- *. do 2 f_equal.
    clear Hn. induction Hv as [|x xs Hx Hxs IHx]; [done|]. cbn. by rewrite IH, IHx.
Qed.

(** ** Reading what was written *)

Ltac rd_fields := cbn [rd_origin rd_rest rd_depth rd_work rd_decoded_bytes].

Lemma rd_take_app o l tail d w b n :
  length l = n -> rd_take (mkReader o (l ++ tail) d w b) n = Ok (l, mkReader o tail d w b).
Proof.
  intros <-. unfold rd_take, at_rest. rd_fields. rewrite length_app.
  destruct (Nat.ltb_spec (length l + length tail) (length l)); [lia|]. by rewrite take_app_length, drop_app_length.
Qed.

Lemma rd_uint_app o n x tail d w b :
  u_range n x -> rd_uint (mkReader o (to_le n x ++ tail) d w b) n = Ok (x, mkReader o tail d w b).
Proof.
  intros Hx. unfold rd_uint. rewrite rd_take_app by apply to_le_length. cbn. by rewrite from_le_to_le.
Qed.

Lemma rd_tag_app o tag tail d w b : rd_uint (mkReader o (tag :: tail) d w b) 1 = Ok (tag, mkReader o tail d w b).
Proof.
  unfold rd_uint. change (tag :: tail) with ([tag] ++ tail). rewrite rd_take_app by done. cbn.
  do 3 f_equal. lia.
Qed.

Lemma charge_work_ok o l d w b u :
  0 <= u -> w + u <= MAX_DECODE_WORK -> charge_work (mkReader o l d w b) u = Ok (mkReader o l d (w + u) b).
Proof.
  intros Hu Hw. unfold charge_work, checked_add, MAX_DECODE_WORK, u64_max in *. rd_fields.
  destruct (Z.leb_spec (w + u) (2 ^ 64 - 1)); [|lia]. destruct (Z.ltb_spec 2097152 (w + u)); [lia|done].
Qed.

Lemma charge_bytes_ok o l d w b u :
  0 <= u -> b + u <= MAX_DECODED_BYTES -> charge_bytes (mkReader o l d w b) u = Ok (mkReader o l d w (b + u)).
Proof.
  intros Hu Hw. unfold charge_bytes, checked_add, MAX_DECODED_BYTES, u64_max in *. rd_fields.
  destruct (Z.leb_spec (b + u) (2 ^ 64 - 1)); [|lia]. destruct (Z.ltb_spec (64 * 1024 * 1024) (b + u)); [lia|done].
Qed.

Lemma enter_nested_ok o l d w b :
  d + 1 <= MAX_NESTING -> enter_nested (mkReader o l d w b) = Ok (mkReader o l (d + 1) w b).
Proof.
  intros Hd. unfold enter_nested, checked_add, MAX_NESTING, u64_max in *. rd_fields.
  destruct (Z.leb_spec (d + 1) (2 ^ 64 - 1)); [|lia]. destruct (Z.ltb_spec 32 (d + 1)); [lia|done].
Qed.

Lemma exit_nested_ok o l d w b : 0 <= d -> exit_nested (mkReader o l (d + 1) w b) = mkReader o l d w b.
Proof. intros Hd. unfold exit_nested, saturating_sub. rd_fields. f_equal. lia. Qed.

Lemma rd_bytes_app o l tail d w b :
  Z.of_nat (length l) <= u32_max -> b + Z.of_nat (length l) <= MAX_DECODED_BYTES ->
  rd_bytes (mkReader o (to_le 4 (Z.of_nat (length l)) ++ l ++ tail) d w b) =
  Ok (l, mkReader o tail d w (b + Z.of_nat (length l))).
Proof.
  intros Hl Hb. unfold rd_bytes. rewrite rd_uint_app by (unfold u_range, byte_modulus, u32_max in *; lia).
  cbn [result_bind]. unfold remaining. rd_fields. rewrite length_app.
  destruct (Z.ltb_spec (Z.of_nat (length l + length tail)) (Z.of_nat (length l))); [lia|].
  rewrite charge_bytes_ok by lia. cbn [result_bind]. by rewrite rd_take_app by lia.
Qed.

(** A reader has room for a value that costs this much. *)
Record room (d w b nest work bytes : Z) : Prop := {
  room_depth : 0 <= d /\ 0 <= nest /\ d + nest <= MAX_NESTING;
  room_work : 0 <= w /\ w + work <= MAX_DECODE_WORK;
  room_bytes : 0 <= b /\ b + bytes <= MAX_DECODED_BYTES
}.

Lemma sum_z_nonneg {A} (f : A -> Z) l : Forall (fun x => 0 <= f x) l -> 0 <= sum_z (map f l).
Proof. induction 1; cbn [map sum_z foldr]; [lia|]. unfold sum_z in *. lia. Qed.

Lemma max_z_nonneg l : 0 <= max_z l.
Proof. induction l; cbn [max_z foldr]; [lia|]. unfold max_z in *. lia. Qed.

Lemma wire_nonempty v : (1 <= length (wire v))%nat.
Proof.
  destruct v; cbn; try lia; repeat (case_match; cbn; try lia).
Qed.

Lemma concat_wire_length {A} (f : A -> ScalarValue) l :
  Z.of_nat (length l) <= Z.of_nat (length (concat (map (fun x => wire (f x)) l))).
Proof.
  induction l as [|x xs IH]; [done|]. cbn [map concat length]. rewrite length_app.
  pose proof (wire_nonempty (f x)). lia.
Qed.

Lemma typed_cells_length P fields cells : cells_typed P fields cells -> length cells = length fields.
Proof. intros H%cells_typed_Forall2. by eapply eq_sym, Forall2_length. Qed.

(** Values of any type, as far as skipping one depends on it. *)
Definition storable (v : ScalarValue) : Prop := exists t, type_ok t /\ typed t v.

Lemma storable_cells cells : storable (VStruct (Some cells)) ->
  Z.of_nat (length cells) <= u16_max /\ Forall (fun c => storable c.2) cells.
Proof.
  intros (t & Ht & Hv). destruct t; try done. cbn in Hv, Ht. destruct Ht as (_ & Hlen & Hok%all_fields_Forall).
  rewrite (typed_cells_length _ _ _ Hv). split; [done|]. apply cells_typed_Forall2 in Hv. clear Hlen.
  induction Hv as [|f c fs cs [_ Hc] Hv IH]; [constructor|]. apply Forall_cons in Hok as [Hf Hok]. constructor; [|by apply IH].
  by exists (sf_data_type f).
Qed.

Lemma storable_items items : storable (VList (Some items)) -> Forall storable items.
Proof.
  intros (t & Ht & Hv). destruct t; try done. cbn in Hv, Ht. eapply Forall_impl; [exact Hv|]. intros v Hx. by exists t.
Qed.

Lemma scalar_ind (P : ScalarValue -> Prop) :
  (forall v, (forall cells, v <> VStruct (Some cells)) -> (forall items, v <> VList (Some items)) -> P v) ->
  (forall cells, Forall (fun c => P c.2) cells -> P (VStruct (Some cells))) ->
  (forall items, Forall P items -> P (VList (Some items))) ->
  forall v, P v.
Proof.
  intros Hbase Hstruct Hlist. fix IH 1. intros v. destruct v; try (by apply Hbase).
  - destruct cell as [cells|]; [|by apply Hbase]. apply Hstruct. induction cells as [|[n c] cs IHc]; constructor; [apply IH|exact IHc].
  - destruct cell as [items|]; [|by apply Hbase]. apply Hlist. induction items as [|c cs IHc]; constructor; [apply IH|exact IHc].
Qed.

Lemma skip_costs v : storable v -> 1 <= skip_work v /\ 0 <= skip_bytes v /\ 0 <= nesting v.
Proof.
  induction v as [v Hs Hl|cells IH|items IH] using scalar_ind; intros Hv.
  - destruct v; cbn; repeat case_match; try lia; try naive_solver.
    destruct Hv as (t & Ht & Hv). destruct t; try done. cbn in Ht, Hv. lia.
  - apply storable_cells in Hv as [_ Hc]. cbn. pose proof (max_z_nonneg (map (fun c => nesting c.2) cells)).
    assert (0 <= sum_z (map (fun c => skip_work c.2) cells) /\ 0 <= sum_z (map (fun c => skip_bytes c.2) cells)) as []; [|lia].
    split; apply sum_z_nonneg; (eapply Forall_impl; [apply Forall_and; split; [exact IH|exact Hc]|]);
      intros c [Hx Hy]; specialize (Hx Hy); lia.
  - apply storable_items in Hv. cbn. pose proof (max_z_nonneg (map nesting items)).
    assert (0 <= sum_z (map skip_work items) /\ 0 <= sum_z (map skip_bytes items)) as []; [|lia].
    split; apply sum_z_nonneg; (eapply Forall_impl; [apply Forall_and; split; [exact IH|exact Hv]|]);
      intros c [Hx Hy]; specialize (Hx Hy); lia.
Qed.

Lemma Forall_mp {A} (P Q : A -> Prop) l : Forall (fun x => P x -> Q x) l -> Forall P l -> Forall (fun x => P x /\ Q x) l.
Proof. intros HQ HP. eapply Forall_impl; [apply Forall_and; split; [exact HP|exact HQ]|]. naive_solver. Qed.

Lemma sum_z_ge_length {A} (f : A -> Z) l : Forall (fun x => 1 <= f x) l -> Z.of_nat (length l) <= sum_z (map f l).
Proof.
  induction 1 as [|x xs Hx Hxs IH]; [done|]. cbn [map sum_z foldr length]. unfold sum_z in IH. lia.
Qed.

Lemma concat_floats_length (floats : list (bool * Z)) :
  length (concat ((fun f => to_le 4 f.2) <$> floats)) = (4 * length floats)%nat.
Proof. induction floats as [|f fs IH]; [done|]. cbn [fmap list_fmap concat length]. rewrite length_app, to_le_length. cbn in IH |- *. lia. Qed.

(** Children one after the other. *)
Lemma repeat_read_wire {A} (f : RowReader -> SerResult RowReader) (val : A -> ScalarValue) (work bytes nest : A -> Z) xs o tail d w b :
  Forall (fun x => 0 <= work x /\ 0 <= bytes x /\ 0 <= nest x /\ forall tail w b, room d w b (nest x) (work x) (bytes x) ->
    f (mkReader o (wire (val x) ++ tail) d w b) = Ok (mkReader o tail d (w + work x) (b + bytes x))) xs ->
  room d w b (max_z (map nest xs)) (sum_z (map work xs)) (sum_z (map bytes xs)) ->
  repeat_read f (length xs) (mkReader o (concat (map (fun x => wire (val x)) xs) ++ tail) d w b) =
  Ok (mkReader o tail d (w + sum_z (map work xs)) (b + sum_z (map bytes xs))).
Proof.
  revert w b. induction xs as [|x xs IH]; intros w b Hf Hr; [cbn; by rewrite !Z.add_0_r|].
  apply Forall_cons in Hf as [(Hw & Hb & Hn & Hx) Hf]. cbn [map concat length repeat_read]. rewrite <- app_assoc.
  assert (0 <= sum_z (map work xs) /\ 0 <= sum_z (map bytes xs)) as [].
  { split; apply sum_z_nonneg; (eapply Forall_impl; [exact Hf|]); naive_solver. }
  destruct Hr as [Hd Hrw Hrb]. cbn [map max_z sum_z foldr] in Hd, Hrw, Hrb. fold (max_z (map nest xs)) in Hd.
  fold (sum_z (map work xs)) in Hrw. fold (sum_z (map bytes xs)) in Hrb. pose proof (max_z_nonneg (map nest xs)).
  rewrite Hx by (constructor; lia).
  cbn [result_bind]. rewrite IH; [|done|constructor; lia]. cbn [map sum_z foldr]. do 2 f_equal; unfold sum_z; lia.
Qed.

Ltac skip_head :=
  unfold skip_one; cbn [wire app]; rewrite charge_work_ok by lia; cbn [result_bind]; rewrite rd_tag_app; cbn [result_bind].

(** [tag_width] and the tests of [skip_one] on a tag that is known. *)
Ltac known_tag :=
  cbn [tag_width TAG_NULL TAG_BOOL TAG_I8 TAG_I16 TAG_I32 TAG_I64 TAG_U8 TAG_U16 TAG_U32 TAG_U64 TAG_F32 TAG_F64 TAG_UTF8
    TAG_BYTES TAG_DATE32 TAG_TIME64_US TAG_TS_MS TAG_TS_US TAG_TS_NS TAG_DECIMAL128 TAG_EMBEDDING TAG_STRUCT TAG_LIST
    Z.eqb Pos.eqb orb].

Lemma skip_tag_width children tag n bytes o tail d w b :
  tag_width tag = Some n -> length bytes = n -> w + 1 <= MAX_DECODE_WORK ->
  skip_one children (mkReader o (tag :: bytes ++ tail) d w b) = Ok (mkReader o tail d (w + 1) b).
Proof. intros Ht Hn Hw. skip_head. rewrite Ht, rd_take_app by done. done. Qed.

Lemma skip_tag_bytes children tag bytes o tail d w b :
  (tag = TAG_UTF8 \/ tag = TAG_BYTES) -> w + 1 <= MAX_DECODE_WORK -> 0 <= b -> b + Z.of_nat (length bytes) <= MAX_DECODED_BYTES ->
  skip_one children (mkReader o (tag :: (to_le 4 (Z.of_nat (length bytes)) ++ bytes) ++ tail) d w b) =
  Ok (mkReader o tail d (w + 1) (b + Z.of_nat (length bytes))).
Proof.
  intros Ht Hw Hb Hmax. skip_head. assert (tag_width tag = None /\ (tag =? TAG_UTF8) || (tag =? TAG_BYTES) = true) as [-> ->].
  { by destruct Ht as [->| ->]. }
  rewrite <- app_assoc, rd_bytes_app by (unfold u32_max, MAX_DECODED_BYTES in *; lia). done.
Qed.

Lemma skip_base children v o tail d w b :
  (forall cells, v <> VStruct (Some cells)) -> (forall items, v <> VList (Some items)) ->
  storable v -> room d w b (nesting v) (skip_work v) (skip_bytes v) ->
  skip_one children (mkReader o (wire v ++ tail) d w b) = Ok (mkReader o tail d (w + skip_work v) (b + skip_bytes v)).
Proof.
  intros Hs Hl Hv Hr. pose proof (skip_costs v Hv) as (Hw & Hb & _).
  destruct Hr as [_ [Hw0 Hw1] [Hb0 Hb1]].
  destruct v as [ |v|v|v|v|v|v|v|v|v|v|v|v|v|v|v|v|v|n v|v|v|v tz|v tz|v tz|v p sc|n [[floats|]|]|[cells|]|[items|]|variant null];
    try (by destruct Hv as (t & _ & Hv); destruct t; naive_solver); try (by edestruct Hs); try (by edestruct Hl);
    try (destruct v as [x|]); cbn [wire skip_work skip_bytes] in *; rewrite ?Z.add_0_r;
    try (by apply (skip_tag_width _ TAG_NULL 0 []));
    try (by eapply skip_tag_width; [reflexivity|apply to_le_length|lia]);
    try (by apply skip_tag_bytes; [auto|lia..]).
  - by apply (skip_tag_width _ TAG_BOOL 1 [if x then 1 else 0]).
  - apply (skip_tag_width _ TAG_DECIMAL128 18 (p :: to_le 1 sc ++ to_le 16 x)); [done| |lia].
    cbn [length]. by rewrite length_app, !to_le_length.
  - destruct Hv as (t & Ht & Hv). destruct t; try done. cbn in Ht, Hv. destruct Hv as (-> & Hlen & _).
    unfold MAX_EMBEDDING_DIM in Ht. skip_head. known_tag. rewrite <- app_assoc, rd_take_app by apply to_le_length.
    cbn [result_bind]. rewrite signed_le_to_le by (done || (unfold i_range; change (byte_modulus 4 / 2) with 2147483648; lia)). unfold MAX_EMBEDDING_DIM.
    destruct (Z.ltb_spec dimension 0); [lia|]. destruct (Z.ltb_spec 65536 dimension); [lia|].
    rewrite charge_work_ok by lia. cbn [result_bind]. rewrite rd_take_app by (rewrite concat_floats_length; lia).
    cbn [result_bind]. do 2 f_equal. lia.
Qed.

Definition skips (v : ScalarValue) : Prop := forall levels o tail d w b,
  nesting v <= Z.of_nat levels -> room d w b (nesting v) (skip_work v) (skip_bytes v) ->
  skip_value_at levels (mkReader o (wire v ++ tail) d w b) = Ok (mkReader o tail d (w + skip_work v) (b + skip_bytes v)).

Lemma max_z_le {A} (f : A -> Z) l m : max_z (map f l) <= m -> Forall (fun x => f x <= m) l.
Proof.
  induction l as [|x xs IH]; [done|]. cbn [map max_z foldr]. fold (max_z (map f xs)). intros Hm.
  constructor; [lia|]. apply IH. lia.
Qed.

Lemma skip_children {A} (val : A -> ScalarValue) xs levels o tail d w b :
  Forall (fun x => storable (val x) /\ skips (val x)) xs -> max_z (map (fun x => nesting (val x)) xs) <= Z.of_nat levels ->
  room d w b (max_z (map (fun x => nesting (val x)) xs)) (sum_z (map (fun x => skip_work (val x)) xs))
    (sum_z (map (fun x => skip_bytes (val x)) xs)) ->
  repeat_read (skip_value_at levels) (length xs) (mkReader o (concat (map (fun x => wire (val x)) xs) ++ tail) d w b) =
  Ok (mkReader o tail d (w + sum_z (map (fun x => skip_work (val x)) xs)) (b + sum_z (map (fun x => skip_bytes (val x)) xs))).
Proof.
  intros Hxs Hm%max_z_le Hr. apply (repeat_read_wire _ val _ _ (fun x => nesting (val x))); [|exact Hr].
  eapply Forall_impl; [apply Forall_and; split; [exact Hxs|exact Hm]|]. intros x [[Hs Hx] Hn].
  pose proof (skip_costs _ Hs). split_and!; try lia. intros tl w' b' Hr'. by apply Hx.
Qed.

Lemma skip_items items levels o tail d w b :
  Forall (fun v => storable v /\ skips v) items -> max_z (map nesting items) <= Z.of_nat levels ->
  room d w b (max_z (map nesting items)) (sum_z (map skip_work items)) (sum_z (map skip_bytes items)) ->
  repeat_read (skip_value_at levels) (length items) (mkReader o (concat (map wire items) ++ tail) d w b) =
  Ok (mkReader o tail d (w + sum_z (map skip_work items)) (b + sum_z (map skip_bytes items))).
Proof. exact (skip_children (fun v => v) items levels o tail d w b). Qed.

Lemma children_work {A} (val : A -> ScalarValue) xs :
  Forall (fun x => storable (val x)) xs -> Z.of_nat (length xs) <= sum_z (map (fun x => skip_work (val x)) xs).
Proof. intros Hxs. apply sum_z_ge_length. eapply Forall_impl; [exact Hxs|]. intros x Hx. by apply skip_costs. Qed.

Lemma remaining_children {A} (val : A -> ScalarValue) xs o tail d w b :
  (remaining (mkReader o (concat (map (fun x => wire (val x)) xs) ++ tail) d w b) <? Z.of_nat (length xs)) = false.
Proof.
  unfold remaining. rd_fields. rewrite length_app. pose proof (concat_wire_length val xs). apply Z.ltb_ge. lia.
Qed.

Lemma skip_wire v : storable v -> skips v.
Proof.
  induction v as [v Hs Hl|cells IH|items IH] using scalar_ind; intros Hv levels o tail d w b Hlev Hr.
  - destruct levels; by apply skip_base.
  - pose proof (storable_cells _ Hv) as [Hlen Hc]. cbn [nesting skip_work skip_bytes] in *. destruct Hr as [Hd Hw Hb].
    pose proof (children_work _ _ Hc) as Hcw. pose proof (max_z_nonneg (map (fun c => nesting c.2) cells)) as Hm.
    destruct levels as [|levels]; [lia|]. cbn [skip_value_at]. skip_head. known_tag.
    rewrite enter_nested_ok by lia. cbn [result_bind].
    rewrite <- app_assoc, rd_uint_app by (unfold u_range, byte_modulus, u16_max in *; lia). cbn [result_bind].
    rewrite (remaining_children (fun c => c.2)), charge_work_ok by lia. cbn [result_bind]. rewrite Nat2Z.id.
    rewrite (skip_children (fun c => c.2)); [|by apply Forall_mp|lia|constructor; lia].
    cbn [result_bind]. rewrite exit_nested_ok by lia. do 2 f_equal; lia.
  - pose proof (storable_items _ Hv) as Hc. cbn [nesting skip_work skip_bytes] in *. destruct Hr as [Hd Hw Hb].
    pose proof (children_work (fun x => x) items Hc : _ <= sum_z (map skip_work items)) as Hcw.
    pose proof (max_z_nonneg (map nesting items)) as Hm.
    destruct levels as [|levels]; [lia|]. cbn [skip_value_at]. skip_head. known_tag.
    rewrite enter_nested_ok by lia. cbn [result_bind].
    rewrite <- app_assoc, rd_uint_app by (unfold u_range, byte_modulus, MAX_DECODE_WORK in *; lia). cbn [result_bind].
    unfold MAX_LIST_LEN, MAX_DECODE_WORK in *. destruct (Z.ltb_spec 1048576 (Z.of_nat (length items))); [lia|].
    rewrite (remaining_children (fun c => c) items), charge_work_ok by (unfold MAX_DECODE_WORK; lia). cbn [result_bind]. rewrite Nat2Z.id.
    rewrite skip_items; [|by apply Forall_mp|lia|constructor; unfold MAX_DECODE_WORK; lia].
    cbn [result_bind]. rewrite exit_nested_ok by lia. do 2 f_equal; lia.
Qed.

Lemma rd_take_one o x tail d w b : rd_take (mkReader o (x :: tail) d w b) 1 = Ok ([x], mkReader o tail d w b).
Proof. by apply (rd_take_app o [x]). Qed.

Definition decodes (t : StorageDataType) (v v' : ScalarValue) : Prop := forall o tail d w b,
  room d w b (nesting v) (read_work t v) (read_bytes t v) ->
  decode_value t (mkReader o (wire v ++ tail) d w b) =
  Ok (v', mkReader o tail d (w + read_work t v) (b + read_bytes t v)).

Ltac decode_head :=
  cbn [decode_value wire app]; rewrite charge_work_ok by lia; cbn [result_bind]; rewrite rd_tag_app; cbn [result_bind].

Ltac known_arm :=
  cbn [fixed_arm TAG_NULL TAG_BOOL TAG_I8 TAG_I16 TAG_I32 TAG_I64 TAG_U8 TAG_U16 TAG_U32 TAG_U64 TAG_F32 TAG_F64 TAG_UTF8
    TAG_BYTES TAG_DATE32 TAG_TIME64_US TAG_TS_MS TAG_TS_US TAG_TS_NS TAG_DECIMAL128 TAG_EMBEDDING TAG_STRUCT TAG_LIST
    Z.eqb Pos.eqb].

Lemma null_cost t v : is_null v = true -> storable v ->
  wire v = [TAG_NULL] /\ read_work t v = 1 /\ read_bytes t v = 0.
Proof.
  intros Hn (t0 & _ & Hv). rewrite (typed_null _ _ Hv Hn). split; [apply null_wire|]. by destruct t0, t.
Qed.

Lemma decode_null t v : is_null v = true -> storable v -> decodes t v (null_for_type t).
Proof.
  intros Hn Hv o tail d w b [_ Hw _]. destruct (null_cost t v Hn Hv) as (-> & Hrw & ->). rewrite Hrw in *. rewrite Z.add_0_r.
  destruct t; decode_head; known_arm; done.
Qed.

Lemma read_floats_app floats o tail d w b :
  Forall (fun f : bool * Z => f.1 = true /\ u_range 4 f.2) floats ->
  read_floats (length floats) (mkReader o (concat ((fun f => to_le 4 f.2) <$> floats) ++ tail) d w b) =
  Ok (floats, mkReader o tail d w b).
Proof.
  induction 1 as [|[v x] fs [Hv Hx] Hfs IH]; [done|]. cbn in Hv, Hx. subst v.
  rewrite fmap_cons. cbn [length read_floats concat snd]. rewrite <- app_assoc, rd_uint_app by done. cbn [result_bind].
  by rewrite IH.
Qed.

Lemma decode_embedding_wire dim cell v' : is_null (VFixedSizeList dim cell) = false -> storable (VFixedSizeList dim cell) ->
  migrate (TEmbedding dim) (VFixedSizeList dim cell) = Some v' -> decodes (TEmbedding dim) (VFixedSizeList dim cell) v'.
Proof.
  intros Hn (t & Ht & Hv) Hm o tail d w b Hr. destruct t; try done. cbn in Ht, Hv, Hm. destruct Hv as [<- Hv].
  destruct cell as [[floats|]|]; try done. destruct Hv as [Hlen Hf]. rewrite Z.eqb_refl in Hm. injection Hm as <-.
  destruct Hr as [_ Hw Hb]. cbn [read_work read_bytes] in *. decode_head. known_arm.
  unfold decode_embedding. rewrite <- app_assoc, rd_take_app by apply to_le_length. cbn [result_bind].
  unfold MAX_EMBEDDING_DIM in *. rewrite signed_le_to_le by (done || (unfold i_range; change (byte_modulus 4 / 2) with 2147483648; lia)).
  destruct (Z.leb_spec dim 0); [lia|]. rewrite Z.eqb_refl. cbn [orb negb].
  destruct (Z.ltb_spec 65536 dim); [lia|]. unfold remaining. rd_fields. rewrite length_app, concat_floats_length.
  destruct (Z.ltb_spec (Z.of_nat (4 * length floats + length tail)) (dim * 4)); [lia|].
  rewrite charge_work_ok by lia. cbn [result_bind]. rewrite charge_bytes_ok by lia. cbn [result_bind].
  replace (Z.to_nat dim) with (length floats) by lia. rewrite read_floats_app by done. cbn [result_bind].
  do 3 f_equal. lia.
Qed.

Ltac decode_arm :=
  decode_head; known_arm; rewrite ?rd_take_app by apply to_le_length; cbn [result_bind];
  rewrite ?signed_le_to_le, ?from_le_to_le by done; done.

(** Timestamps of a coarser unit. *)
Lemma decode_scaled t v v' :
  (exists x tz, v = VTimestampMillisecond (Some x) tz /\ (t = TTimestampMicrosecond \/ t = TTimestampNanosecond) \/
    v = VTimestampMicrosecond (Some x) tz /\ t = TTimestampNanosecond) ->
  storable v -> migrate t v = Some v' -> decodes t v v'.
Proof.
  intros (x & tz & Hcase) (t0 & _ & Hv) Hm o tail d w b [_ Hw _].
  destruct Hcase as [(-> & [->| ->])|(-> & ->)]; destruct t0; try done; cbn in Hv, Hm; destruct Hv as [_ Hv];
    cbn [read_work read_bytes] in *; rewrite Z.add_0_r; decode_head; known_arm; rewrite rd_take_app by apply to_le_length;
    cbn [result_bind]; rewrite signed_le_to_le by done; unfold scale_timestamp;
    destruct (i64_checked_mul _ _) as [y|]; try discriminate Hm; injection Hm as <-; done.
Qed.

Lemma migrate_null t v v' : is_null v = true -> migrate t v = Some v' -> v' = null_for_type t.
Proof. intros Hn Hm. destruct t; cbn in Hm; rewrite Hn in Hm; by injection Hm. Qed.

Lemma decode_base t v v' :
  is_nested t = false -> storable v -> migrate t v = Some v' -> decodes t v v'.
Proof.
  intros Hbase Hv Hm. destruct (is_null v) eqn:Hn.
  { rewrite (migrate_null _ _ _ Hn Hm). by apply decode_null. }
  destruct t; try discriminate Hbase; destruct v; cbn in Hn, Hm; try (rewrite ?Hn in Hm; discriminate);
    try (destruct v as [x|]; [|discriminate]); try (destruct bits as [x|]; [|discriminate]).
  all: try (intros o tail d w b [_ Hw Hb]; cbn [read_work read_bytes] in *; rewrite ?Z.add_0_r;
    destruct Hv as (t & Ht & Hv); destruct t; try done; cbn in Hv, Hm; injection Hm as <-;
    try (match type of Hv with _ = _ /\ _ => destruct Hv as [_ Hv] end); decode_arm).
  - intros o tail d w b [_ Hw _]. injection Hm as <-. cbn [read_work read_bytes] in *. rewrite Z.add_0_r.
    destruct x; decode_head; known_arm; rewrite rd_take_one; done.
  - intros o tail d w b [_ Hw Hb]. injection Hm as <-. cbn [read_work read_bytes] in *. decode_head. known_arm.
    unfold rd_string. rewrite <- app_assoc, rd_bytes_app by (unfold u32_max, MAX_DECODED_BYTES in *; lia). cbn [result_bind].
    destruct Hv as (t & _ & Hv). destruct t; try done. cbn in Hv. unfold text_ok in Hv. rewrite Hv. cbn [result_bind].
    by rewrite string_bytes_string.
  - intros o tail d w b [_ Hw Hb]. injection Hm as <-. cbn [read_work read_bytes] in *. decode_head. known_arm.
    by rewrite <- app_assoc, rd_bytes_app by (unfold u32_max, MAX_DECODED_BYTES in *; lia).
  - apply decode_scaled; [|done|done]. eauto 8.
  - apply decode_scaled; [|done|done]. eauto 8.
  - apply decode_scaled; [|done|done]. eauto 8.
  - intros o tail d w b [_ Hw _]. cbn [none read_work read_bytes] in *. rewrite Z.add_0_r.
    destruct Hv as (t & Ht & Hv). destruct t; try done. cbn in Hv, Ht. destruct Hv as (<- & <- & Hx). destruct Ht as [Hp Hs].
    destruct (Z.leb_spec precision0 precision); [|discriminate]. destruct (Z.eqb_spec scale0 scale) as [->|]; [|discriminate].
    injection Hm as <-. decode_head. known_arm. unfold decode_decimal. rewrite rd_tag_app. cbn [result_bind].
    rewrite <- app_assoc, rd_take_app by apply to_le_length. cbn [result_bind]. rewrite signed_le_to_le by done.
    destruct (Z.ltb_spec precision precision0); [lia|]. rewrite Z.eqb_refl. cbn [orb negb].
    rewrite rd_take_app by apply to_le_length. cbn [result_bind]. by rewrite signed_le_to_le.
  - destruct (Z.eqb_spec value_length dimension) as [->|]; [|by destruct cell as [[]|]].
    apply decode_embedding_wire; [done..|]. cbn. by rewrite Z.eqb_refl; destruct cell as [[]|].
Qed.

Lemma cells_cost_nonneg f skip fields cells :
  Forall (fun x => forall c, storable c -> 0 <= f (sf_data_type x) c) fields -> (forall c, storable c -> 0 <= skip c) ->
  Forall (fun c : string * ScalarValue => storable c.2) cells -> 0 <= cells_cost f skip fields cells.
Proof.
  intros Hf Hskip. revert cells. induction Hf as [|x xs Hx Hxs IH]; intros cells Hc.
  - cbn. apply sum_z_nonneg. eapply Forall_impl; [exact Hc|]. intros c. apply Hskip.
  - destruct cells as [|c cs]; [done|]. apply Forall_cons in Hc as [Hc Hcs]. cbn.
    specialize (Hx _ Hc). specialize (IH _ Hcs). lia.
Qed.

Lemma read_costs t v : storable v -> 1 <= read_work t v /\ 0 <= read_bytes t v.
Proof.
  revert v. induction t as [t Hbase|fields IH|inner IH] using storage_type_ind; intros v Hv.
  - assert (1 <= read_work t v /\ 0 <= read_bytes t v \/ exists d x, v = VFixedSizeList d x) as [?|(d & x & ->)]; [|done|].
    { destruct t, v; try discriminate; cbn; repeat case_match; naive_solver lia. }
    destruct Hv as (t' & Ht & Hv). destruct t'; try done. cbn in Ht, Hv. destruct Hv as [-> Hv].
    destruct t; try discriminate; cbn; repeat case_match; lia.
  - assert ((exists cells, v = VStruct (Some cells)) \/ read_work (TStruct fields) v = read_work TBoolean v /\
      read_bytes (TStruct fields) v = read_bytes TBoolean v) as [[cells ->]|[-> ->]].
    { destruct v; try (by right). destruct cell; [left; by eexists|by right]. }
    + pose proof (storable_cells _ Hv) as [_ Hc]. cbn [read_work read_bytes]. split.
      * assert (0 <= cells_cost read_work skip_work fields cells); [|lia]. apply cells_cost_nonneg; [| |done].
        -- eapply Forall_impl; [exact IH|]. intros f Hf c Hs. specialize (Hf _ Hs). lia.
        -- intros c Hs. pose proof (skip_costs _ Hs). lia.
      * apply cells_cost_nonneg; [| |done].
        -- eapply Forall_impl; [exact IH|]. intros f Hf c Hs. by apply Hf.
        -- intros c Hs. by apply skip_costs.
    + destruct v; cbn; repeat case_match; try lia; destruct Hv as (t' & Ht & Hv); destruct t'; try done; cbn in Ht, Hv; lia.
  - assert ((exists items, v = VList (Some items)) \/ read_work (TList inner) v = read_work TBoolean v /\
      read_bytes (TList inner) v = read_bytes TBoolean v) as [[items ->]|[-> ->]].
    { destruct v; try (by right). destruct cell; [left; by eexists|by right]. }
    + pose proof (storable_items _ Hv) as Hc. cbn [read_work read_bytes].
      assert (0 <= sum_z (map (read_work inner) items) /\ 0 <= sum_z (map (read_bytes inner) items)) as []; [|lia].
      split; apply sum_z_nonneg; (eapply Forall_impl; [exact Hc|]); intros c Hs; specialize (IH _ Hs); lia.
    + destruct v; cbn; repeat case_match; try lia; destruct Hv as (t' & Ht & Hv); destruct t'; try done; cbn in Ht, Hv; lia.
Qed.

Lemma read_values_wire inner items vs o tail d w b :
  (forall v v', storable v -> migrate inner v = Some v' -> decodes inner v v') ->
  Forall storable items -> mapM (migrate inner) items = Some vs ->
  room d w b (max_z (map nesting items)) (sum_z (map (read_work inner) items)) (sum_z (map (read_bytes inner) items)) ->
  read_values (decode_value inner) (length items) (mkReader o (concat (map wire items) ++ tail) d w b) =
  Ok (vs, mkReader o tail d (w + sum_z (map (read_work inner) items)) (b + sum_z (map (read_bytes inner) items))).
Proof.
  intros IH Hs. revert vs w b. induction Hs as [|x xs Hx Hxs IHx]; intros vs w b Hm Hr.
  { injection Hm as <-. cbn. by rewrite !Z.add_0_r. }
  cbn [mapM] in Hm. rewrite mapM_cons in Hm || idtac.
  apply bind_Some in Hm as (v' & Hv' & (vs' & Hvs' & [= <-])%bind_Some).
  pose proof (read_costs inner x Hx). pose proof (skip_costs x Hx). pose proof (max_z_nonneg (map nesting xs)).
  assert (0 <= sum_z (map (read_work inner) xs) /\ 0 <= sum_z (map (read_bytes inner) xs)) as [].
  { split; apply sum_z_nonneg; (eapply Forall_impl; [exact Hxs|]); intros c Hc; pose proof (read_costs inner c Hc); lia. }
  destruct Hr as [Hd Hw Hb]. cbn [map max_z sum_z foldr] in Hd, Hw, Hb. fold (max_z (map nesting xs)) in Hd.
  fold (sum_z (map (read_work inner) xs)) in Hw. fold (sum_z (map (read_bytes inner) xs)) in Hb.
  cbn [map concat length read_values]. rewrite <- app_assoc, (IH _ _ Hx Hv') by (constructor; lia). cbn [result_bind].
  rewrite (IHx vs') by (done || (constructor; lia)). cbn [result_bind map sum_z foldr]. do 3 f_equal; unfold sum_z; lia.
Qed.

Lemma read_cells_wire fields cells cells' o tail d w b :
  Forall (fun f => forall v v', storable v -> migrate (sf_data_type f) v = Some v' -> decodes (sf_data_type f) v v') fields ->
  Forall (fun c => storable c.2) cells -> migrate_cells migrate fields cells = Some cells' ->
  room d w b (max_z (map (fun c => nesting c.2) cells)) (cells_cost read_work skip_work fields cells)
    (cells_cost read_bytes skip_bytes fields cells) ->
  exists r1,
    read_struct_fields decode_value fields (length cells `min` length fields)
      (mkReader o (concat (map (fun c => wire c.2) cells) ++ tail) d w b) = Ok (cells', r1) /\
    repeat_read skip_value (length cells - length fields) r1 =
      Ok (mkReader o tail d (w + cells_cost read_work skip_work fields cells) (b + cells_cost read_bytes skip_bytes fields cells)).
Proof.
  intros IH. revert cells cells' w b. induction IH as [|f fs Hf Hfs IHf]; intros cells cells' w b Hc Hm Hr.
  - injection Hm as <-. cbn [cells_cost] in *. eexists. split; [by rewrite Nat.min_0_r|]. rewrite Nat.sub_0_r.
    apply (skip_children (fun c => c.2)); [|destruct Hr as [Hd _ _]; unfold MAX_NESTING in *; lia|done].
    eapply Forall_impl; [exact Hc|]. intros c Hs. split; [done|by apply skip_wire].
  - destruct cells as [|c cs].
    + cbn [migrate_cells] in Hm. apply bind_Some in Hm as (vs & Hvs & [= <-]). cbn [cells_cost] in *.
      destruct (IHf [] vs w b) as (r1 & Hread & Hskip); [constructor|done|by destruct fs|].
      exists r1. cbn [length Nat.min read_struct_fields result_bind pred]. cbn [length Nat.min] in Hread. rewrite Hread. split; [done|].
      cbn in Hskip |- *. by destruct fs.
    + apply Forall_cons in Hc as [Hs Hcs]. cbn [migrate_cells] in Hm.
      apply bind_Some in Hm as (v & Hv & (vs & Hvs & [= <-])%bind_Some).
      pose proof (read_costs (sf_data_type f) c.2 Hs). pose proof (skip_costs _ Hs).
      pose proof (max_z_nonneg (map (fun c => nesting c.2) cs)).
      assert (0 <= cells_cost read_work skip_work fs cs) by (apply cells_cost_nonneg; [|intros x Hx; pose proof (skip_costs _ Hx); lia|done];
        apply Forall_true; intros g x Hx; pose proof (read_costs (sf_data_type g) _ Hx); lia).
      assert (0 <= cells_cost read_bytes skip_bytes fs cs) by (apply cells_cost_nonneg; [|intros x Hx; by apply skip_costs|done];
        apply Forall_true; intros g x Hx; by apply read_costs).
      destruct Hr as [Hd Hw Hb]. cbn [map max_z foldr cells_cost] in Hd, Hw, Hb. fold (max_z (map (fun c : string * ScalarValue => nesting c.2) cs)) in Hd.
      destruct (IHf cs vs (w + read_work (sf_data_type f) c.2) (b + read_bytes (sf_data_type f) c.2)) as (r1 & Hread & Hskip);
        [done..|constructor; lia|].
      exists r1. cbn [map concat length Nat.min read_struct_fields pred Nat.sub cells_cost]. rewrite <- app_assoc.
      rewrite (Hf _ _ Hs Hv) by (constructor; lia). cbn [result_bind]. rewrite Hread. cbn [result_bind]. split; [done|].
      rewrite Hskip. do 2 f_equal; lia.
Qed.

Lemma migrate_nonnull_struct fields v v' : is_null v = false -> migrate (TStruct fields) v = Some v' ->
  exists cells cells', v = VStruct (Some cells) /\ v' = VStruct (Some cells') /\ migrate_cells migrate fields cells = Some cells'.
Proof.
  intros Hn Hm. destruct v; cbn in Hn, Hm; try (rewrite ?Hn in Hm; discriminate). destruct cell as [cells|]; [|discriminate].
  apply bind_Some in Hm as (cells' & Hc & [= <-]). by exists cells, cells'.
Qed.

Lemma migrate_nonnull_list inner v v' : is_null v = false -> migrate (TList inner) v = Some v' ->
  exists items items', v = VList (Some items) /\ v' = VList (Some items') /\ mapM (migrate inner) items = Some items'.
Proof.
  intros Hn Hm. destruct v; cbn in Hn, Hm; try (rewrite ?Hn in Hm; discriminate). destruct cell as [items|]; [|discriminate].
  apply bind_Some in Hm as (items' & Hc & [= <-]). by exists items, items'.
Qed.

(** A stored value is read back as the value its column has become. *)
Lemma decode_wire t v v' : storable v -> migrate t v = Some v' -> decodes t v v'.
Proof.
  revert v v'. induction t as [t Hbase|fields IH|inner IH] using storage_type_ind; intros v v' Hv Hm; [by apply decode_base|..];
    (destruct (is_null v) eqn:Hn; [rewrite (migrate_null _ _ _ Hn Hm); by apply decode_null|]).
  - destruct (migrate_nonnull_struct _ _ _ Hn Hm) as (cells & cells' & -> & -> & Hc).
    pose proof (storable_cells _ Hv) as [Hlen Hs]. intros o tail d w b [Hd Hw Hb]. cbn [read_work read_bytes nesting] in *.
    pose proof (max_z_nonneg (map (fun c => nesting c.2) cells)).
    assert (0 <= cells_cost read_work skip_work fields cells) by (apply cells_cost_nonneg; [|intros x Hx; pose proof (skip_costs _ Hx); lia|done];
        apply Forall_true; intros g x Hx; pose proof (read_costs (sf_data_type g) _ Hx); lia).
    decode_head. known_arm. rewrite enter_nested_ok by lia. cbn [result_bind].
    rewrite <- app_assoc, rd_uint_app by (unfold u_range, byte_modulus, u16_max in *; lia). cbn [result_bind].
    pose proof (remaining_children (fun c => c.2) cells o tail (d + 1) (w + 1) b) as Hrem.
    rewrite Hrem. apply Z.ltb_ge in Hrem.
    destruct (Z.ltb_spec (remaining (mkReader o (concat (map (fun c => wire c.2) cells) ++ tail) (d + 1) (w + 1) b))
      (Z.min (Z.of_nat (length cells)) (Z.of_nat (length fields)))); [lia|]. cbn [orb].
    rewrite charge_work_ok by lia. cbn [result_bind].
    replace (Z.to_nat (Z.min (Z.of_nat (length cells)) (Z.of_nat (length fields)))) with (length cells `min` length fields)%nat by lia.
    replace (Z.to_nat (Z.of_nat (length cells) - Z.min (Z.of_nat (length cells)) (Z.of_nat (length fields)))) with (length cells - length fields)%nat by lia.
    edestruct (read_cells_wire fields cells cells' o tail (d + 1)) as (r1 & Hread & Hskip); [exact IH|done|done| |rewrite Hread; cbn [result_bind]; rewrite Hskip].
    { constructor; lia. }
    cbn [result_bind]. rewrite exit_nested_ok by lia. do 3 f_equal. lia.
  - destruct (migrate_nonnull_list _ _ _ Hn Hm) as (items & items' & -> & -> & Hi).
    pose proof (storable_items _ Hv) as Hs. intros o tail d w b [Hd Hw Hb]. cbn [read_work read_bytes nesting] in *.
    pose proof (max_z_nonneg (map nesting items)).
    assert (Z.of_nat (length items) <= sum_z (map (read_work inner) items)).
    { apply sum_z_ge_length. eapply Forall_impl; [exact Hs|]. intros x Hx. by apply read_costs. }
    assert (0 <= sum_z (map (read_bytes inner) items)).
    { apply sum_z_nonneg. eapply Forall_impl; [exact Hs|]. intros x Hx. by apply read_costs. }
    decode_head. known_arm. rewrite enter_nested_ok by lia. cbn [result_bind]. unfold MAX_DECODE_WORK in Hw.
    rewrite <- app_assoc, rd_uint_app by (unfold u_range, byte_modulus; lia). cbn [result_bind].
    unfold MAX_LIST_LEN. destruct (Z.ltb_spec 1048576 (Z.of_nat (length items))); [lia|].
    rewrite (remaining_children (fun c => c) items), charge_work_ok by (unfold MAX_DECODE_WORK; lia). cbn [result_bind].
    rewrite charge_bytes_ok by lia. cbn [result_bind]. rewrite Nat2Z.id.
    rewrite (read_values_wire inner items items') by (done || (constructor; unfold MAX_DECODE_WORK; lia)).
    cbn [result_bind]. rewrite exit_nested_ok by lia. do 3 f_equal; lia.
Qed.
