(* ===== verification/RowCodec.v ===== *)
(** * RowCodec: rows of tables as stored objects

    kalamdb-serialization/src/row (schema.rs, encode.rs, decode.rs, fixed_value_encoding.rs,
    metadata.rs): a row is an object envelope around its columns in the order of the schema, in one
    of two bodies: tagged values behind a table of offsets (v1), or a null bitmap, a packed region
    of the fixed-width columns and the variable ones behind end offsets (v2).  A row is read with the
    schema of today, which may have other columns and wider types than the one it was written with.

    The thread-local scratch buffers of the v2 encoder are cleared before use and are the values they
    hold here.  A callback that receives columns is a function on a state of the caller. *)

From Stdlib Require Import ZArith Lia Ascii.
From stdpp Require Import base strings list gmap.
From S2P Require Import Prelude Protocol RowValue.

Open Scope Z_scope.
Open Scope kalam_scope.

(** ** Schemas and layouts *)

Record FixedValueEncoding := mkFixed {
  fe_tag : Z;
  fe_precision : Z;
  fe_scale : Z
}.

#[export] Instance FixedValueEncoding_eq_dec : EqDecision FixedValueEncoding.
Proof. solve_decision. Defined.

Definition for_type (t : StorageDataType) : option FixedValueEncoding :=
  match t with
  | TBoolean => Some (mkFixed TAG_BOOL 0 0)
  | TInt8 => Some (mkFixed TAG_I8 0 0)
  | TInt16 => Some (mkFixed TAG_I16 0 0)
  | TInt32 => Some (mkFixed TAG_I32 0 0)
  | TInt64 => Some (mkFixed TAG_I64 0 0)
  | TUInt8 => Some (mkFixed TAG_U8 0 0)
  | TUInt16 => Some (mkFixed TAG_U16 0 0)
  | TUInt32 => Some (mkFixed TAG_U32 0 0)
  | TUInt64 => Some (mkFixed TAG_U64 0 0)
  | TFloat32 => Some (mkFixed TAG_F32 0 0)
  | TFloat64 => Some (mkFixed TAG_F64 0 0)
  | TDate32 => Some (mkFixed TAG_DATE32 0 0)
  | TTime64Microsecond => Some (mkFixed TAG_TIME64_US 0 0)
  | TTimestampMillisecond => Some (mkFixed TAG_TS_MS 0 0)
  | TTimestampMicrosecond => Some (mkFixed TAG_TS_US 0 0)
  | TTimestampNanosecond => Some (mkFixed TAG_TS_NS 0 0)
  | TDecimal precision scale => Some (mkFixed TAG_DECIMAL128 precision scale)
  | _ => None
  end.

Definition patch (buf : list Z) (at_ : nat) (bytes : list Z) : list Z :=
  take at_ buf ++ bytes ++ drop (at_ + length bytes) buf.

(** [decode_as]: the stored bytes behind the tag of the stored type, read as the expected type. *)
Definition decode_as (e : FixedValueEncoding) (bytes : list Z) (expected : StorageDataType) : SerResult ScalarValue :=
  let head := if fe_tag e =? TAG_DECIMAL128 then [fe_tag e; fe_precision e; fe_scale e mod 256] else [fe_tag e] in
  let start := length head in
  let end_ := (start + length bytes)%nat in
  if (19 <? end_)%nat then Err Truncated
  else
    let? (value, reader) := decode_value expected (new_reader (head ++ bytes)) in
    if rd_is_empty reader then Ok value else Err (Decode "invalid v2 fixed value width").

Record StorageVersionLayout := mkLayout {
  slot_span : nat;
  fixed_permutation : list nat;
  fixed_offsets : list (option (nat * nat));
  fixed_encodings : list (option FixedValueEncoding);
  fixed_region_len : nat;
  variable_ordinals : list nat;
  variable_slot_for_ordinal : list (option nat)
}.

(** The pass over the fields: candidates for the fixed region, and the variable columns. *)
Record LayoutPass := mkPass {
  lp_fixed_candidates : list (nat * nat);
  lp_variable_ordinals : list nat;
  lp_variable_slots : list (option nat);
  lp_fixed_encodings : list (option FixedValueEncoding)
}.

Definition layout_field (p : LayoutPass) (ordinal : nat) (field : StorageField) : LayoutPass :=
  if sf_dropped field then p
  else match fixed_byte_width (sf_data_type field) with
  | Some width =>
      mkPass (lp_fixed_candidates p ++ [(ordinal, width)]) (lp_variable_ordinals p) (lp_variable_slots p)
        (<[ordinal := for_type (sf_data_type field)]> (lp_fixed_encodings p))
  | None =>
      mkPass (lp_fixed_candidates p) (lp_variable_ordinals p ++ [ordinal])
        (<[ordinal := Some (length (lp_variable_ordinals p))]> (lp_variable_slots p)) (lp_fixed_encodings p)
  end.

Fixpoint layout_fields (p : LayoutPass) (ordinal : nat) (fields : list StorageField) : LayoutPass :=
  match fields with
  | [] => p
  | field :: rest => layout_fields (layout_field p ordinal field) (S ordinal) rest
  end.

(** Widest first, ties by ordinal. *)
Definition widest_first (a b : nat * nat) : bool :=
  (b.2 <? a.2)%nat || ((b.2 =? a.2)%nat && (a.1 <=? b.1)%nat).

Definition place_fixed (st : list (option (nat * nat)) * nat) (candidate : nat * nat) : list (option (nat * nat)) * nat :=
  (<[candidate.1 := Some (st.2, candidate.2)]> st.1, (st.2 + candidate.2)%nat).

Definition compute (fields : list StorageField) : StorageVersionLayout :=
  let span := length fields in
  let p := layout_fields (mkPass [] [] (replicate span None) (replicate span None)) 0 fields in
  let candidates := sort_by widest_first (lp_fixed_candidates p) in
  let '(offsets, region) := foldl place_fixed (replicate span None, 0%nat) candidates in
  mkLayout span (candidates.*1) offsets (lp_fixed_encodings p) region (lp_variable_ordinals p) (lp_variable_slots p).

Record StorageSchema := mkSchema {
  ss_version : Z;
  ss_fields : list StorageField;
  ss_layout : StorageVersionLayout;
  ss_historical_layouts : gmap Z StorageVersionLayout
}.

Definition new_schema (version : Z) (fields : list StorageField) : StorageSchema :=
  mkSchema version fields (compute fields) {[ version := compute fields ]}.

Definition register_historical_version (s : StorageSchema) (version : Z) (fields : list StorageField) : StorageSchema :=
  mkSchema (ss_version s) (ss_fields s) (ss_layout s) (<[version := compute fields]> (ss_historical_layouts s)).

Definition layout_for_version (s : StorageSchema) (version : Z) : option StorageVersionLayout :=
  if version =? ss_version s then Some (ss_layout s) else ss_historical_layouts s !! version.

(** ** The encoder *)

Definition FLAG_COLUMN_OFFSETS : Z := 1.
Definition FLAG_VERSION_IN_KEY : Z := 2.
Definition FLAG_ROW_BODY_V2 : Z := 4.
Definition FLAG_TOMBSTONE_ONLY : Z := 8.

Definition V2_ROW_FLAG_DELETED : Z := 1.
Definition V2_ROW_FLAG_NULL_BITMAP : Z := 2.
Definition V2_ROW_FLAG_OFFSET_WIDTH_SHIFT : Z := 2.
Definition V2_ROW_FLAG_OFFSET_WIDTH_MASK : Z := 12.
Definition V2_ROW_FLAG_SUPPORTED_MASK : Z := 15.

Abbreviation Row := (gmap string ScalarValue).

Inductive RowValues :=
| RowMap (row : Row)
| RowColumns (columns : list ScalarValue).

Definition field_value (fields : RowValues) (field : StorageField) (index : nat) : option ScalarValue :=
  match fields with
  | RowMap row => row !! sf_name field
  | RowColumns columns => columns !! index
  end.

Definition field_count (s : StorageSchema) : SerResult Z :=
  if Z.of_nat (length (ss_fields s)) <=? u16_max then Ok (Z.of_nat (length (ss_fields s)))
  else Err (Encode "too many row fields").

Definition encode_one_field (field : StorageField) (index : nat) (fields : RowValues) : SerResult (list Z) :=
  if sf_dropped field then Ok [TAG_NULL]
  else match field_value fields field index with
    | Some value => encode_value value (sf_data_type field)
    | None => Ok [TAG_NULL]
    end.

(** [for (index, field) in schema.fields.iter().enumerate()] *)
Fixpoint each_field {A} (f : A -> nat -> StorageField -> SerResult A) (st : A) (index : nat) (fields : list StorageField) :
    SerResult A :=
  match fields with
  | [] => Ok st
  | field :: rest => let? st := f st index field in each_field f st (S index) rest
  end.

Definition encode_fields_sequential (buf : list Z) (fields : RowValues) (s : StorageSchema) : SerResult (list Z) :=
  let? count := field_count s in
  each_field (fun buf index field => let? b := encode_one_field field index fields in Ok (buf ++ b))
    (buf ++ to_le 2 count) 0 (ss_fields s).

Definition encode_fields_indexed (buf : list Z) (payload_start : nat) (fields : RowValues) (s : StorageSchema) :
    SerResult (list Z) :=
  let? count := field_count s in
  let buf := buf ++ to_le 2 count in
  let offset_slot := length buf in
  each_field (fun buf index field =>
      let offset := Z.of_nat (length buf - payload_start) in
      if offset <=? u32_max then
        let buf := patch buf (offset_slot + index * 4) (to_le 4 offset) in
        let? b := encode_one_field field index fields in
        Ok (buf ++ b)
      else Err (Encode "row payload exceeds u32 offset"))
    (buf ++ replicate (Z.to_nat count * 4) 0) 0 (ss_fields s).

Definition encode_tombstone_row_v2 (schema_version : Z) : SerResult (list Z) :=
  finish_envelope (begin_envelope RowObject schema_version (Z.lor FLAG_VERSION_IN_KEY (Z.lor FLAG_ROW_BODY_V2 FLAG_TOMBSTONE_ONLY))
    ++ to_le 2 schema_version ++ [V2_ROW_FLAG_DELETED]).

Definition encode_fixed_value (value : ScalarValue) (expected : StorageDataType) : SerResult (list Z) :=
  match expected, value with
  | TBoolean, VBoolean (Some v) => Ok [if v then 1 else 0]
  | TInt8, VInt8 (Some v) => Ok (to_le 1 v)
  | TUInt8, VUInt8 (Some v) => Ok (to_le 1 v)
  | TInt16, VInt16 (Some v) => Ok (to_le 2 v)
  | TUInt16, VUInt16 (Some v) => Ok (to_le 2 v)
  | TInt32, VInt32 (Some v) => Ok (to_le 4 v)
  | TDate32, VDate32 (Some v) => Ok (to_le 4 v)
  | TUInt32, VUInt32 (Some v) => Ok (to_le 4 v)
  | TFloat32, VFloat32 (Some v) => Ok (to_le 4 v)
  | TInt64, VInt64 (Some v) => Ok (to_le 8 v)
  | TTime64Microsecond, VTime64Microsecond (Some v) => Ok (to_le 8 v)
  | TTimestampMillisecond, VTimestampMillisecond (Some v) _ => Ok (to_le 8 v)
  | TTimestampMicrosecond, VTimestampMicrosecond (Some v) _ => Ok (to_le 8 v)
  | TTimestampNanosecond, VTimestampNanosecond (Some v) _ => Ok (to_le 8 v)
  | TUInt64, VUInt64 (Some v) => Ok (to_le 8 v)
  | TFloat64, VFloat64 (Some v) => Ok (to_le 8 v)
  | TDecimal precision scale, VDecimal128 (Some v) p s =>
      if (p =? precision) && (s =? scale) then Ok (to_le 16 v)
      else Err (Encode "v2 fixed value does not match storage type")
  | _, _ => Err (Encode "v2 fixed value does not match storage type")
  end.

Definition encode_variable_value_v2 (value : ScalarValue) (expected : StorageDataType) : SerResult (list Z) :=
  match expected, value with
  | TUtf8, (VUtf8 (Some s) | VLargeUtf8 (Some s) | VUtf8View (Some s)) => Ok (bytes_of_string s)
  | TBinary, (VBinary (Some b) | VLargeBinary (Some b) | VBinaryView (Some b) | VFixedSizeBinary _ (Some b)) => Ok b
  | (TEmbedding _ | TStruct _ | TList _), _ => encode_value value expected
  | _, _ => Err (Encode "v2 variable value does not match storage type")
  end.

Record V2Scratch := mkScratch {
  sc_bitmap : list Z;
  sc_fixed : list Z;
  sc_var_data : list Z;
  sc_var_ends : list Z
}.

Definition take_v2_scratch (bitmap_len fixed_len : nat) : V2Scratch :=
  mkScratch (replicate bitmap_len 0) (replicate fixed_len 0) [] [].

(** [bitmap[ordinal / 8] |= 1 << (ordinal % 8)] and the test of that bit. *)
Definition set_bit (bitmap : list Z) (ordinal : nat) : list Z :=
  alter (fun byte => Z.lor byte (Z.shiftl 1 (Z.of_nat (ordinal mod 8)))) (ordinal / 8)%nat bitmap.

Definition bit_set (bitmap : list Z) (ordinal : nat) : bool :=
  match bitmap !! (ordinal / 8)%nat with
  | Some byte => negb (Z.land byte (Z.shiftl 1 (Z.of_nat (ordinal mod 8))) =? 0)
  | None => false
  end.

Definition value_is_null (v : option ScalarValue) : bool :=
  match v with None => true | Some v => is_null v end.

(** One field of the first pass: its null bit or its slot of the fixed region. *)
Definition first_pass (layout : StorageVersionLayout) (fields : RowValues) (st : V2Scratch * bool) (ordinal : nat)
    (field : StorageField) : SerResult (V2Scratch * bool) :=
  let '(sc, has_any_null) := st in
  let value := field_value fields field ordinal in
  if sf_dropped field || value_is_null value then
    Ok (mkScratch (set_bit (sc_bitmap sc) ordinal) (sc_fixed sc) (sc_var_data sc) (sc_var_ends sc), true)
  else match value, fixed_offsets layout !! ordinal with
  | Some v, Some (Some (offset, _)) =>
      let? b := encode_fixed_value v (sf_data_type field) in
      Ok (mkScratch (sc_bitmap sc) (patch (sc_fixed sc) offset b) (sc_var_data sc) (sc_var_ends sc), has_any_null)
  | _, _ => Ok (sc, has_any_null)
  end.

(** One variable column of the second pass. *)
Definition second_pass (s : StorageSchema) (fields : RowValues) (sc : V2Scratch) (ordinal : nat) : SerResult V2Scratch :=
  match ss_fields s !! ordinal with
  | None => Err (Panicked "index out of bounds")
  | Some field =>
      let? data :=
        if bit_set (sc_bitmap sc) ordinal then Ok (sc_var_data sc)
        else match field_value fields field ordinal with
          | Some v => let? b := encode_variable_value_v2 v (sf_data_type field) in Ok (sc_var_data sc ++ b)
          | None => Err (Panicked "unwrap on None")
          end in
      let end_ := Z.of_nat (length data) in
      if end_ <=? u32_max then Ok (mkScratch (sc_bitmap sc) (sc_fixed sc) data (sc_var_ends sc ++ [end_]))
      else Err (Encode "v2 variable data exceeds u32 length")
  end.

Fixpoint second_passes (s : StorageSchema) (fields : RowValues) (sc : V2Scratch) (ordinals : list nat) : SerResult V2Scratch :=
  match ordinals with
  | [] => Ok sc
  | ordinal :: rest => let? sc := second_pass s fields sc ordinal in second_passes s fields sc rest
  end.

(** The code of the offset width in the row flags, and the width in bytes. *)
Definition offset_width (var_ends : list Z) : Z * nat :=
  match last var_ends with
  | None => (0, 0%nat)
  | Some final_end => if final_end <=? 255 then (1, 1%nat) else if final_end <=? u16_max then (2, 2%nat) else (3, 4%nat)
  end.

Definition encode_row_body_v2 (deleted : bool) (fields : RowValues) (s : StorageSchema) : SerResult (list Z) :=
  if deleted then encode_tombstone_row_v2 (ss_version s)
  else
    let layout := ss_layout s in
    let? span := field_count s in
    let bitmap_len := ((Z.to_nat span + 7) / 8)%nat in
    let? (sc, has_any_null) :=
      each_field (first_pass layout fields) (take_v2_scratch bitmap_len (fixed_region_len layout), false) 0 (ss_fields s) in
    let? sc := second_passes s fields sc (variable_ordinals layout) in
    let '(code, width) := offset_width (sc_var_ends sc) in
    let row_flags := Z.lor (Z.land (Z.shiftl code V2_ROW_FLAG_OFFSET_WIDTH_SHIFT) V2_ROW_FLAG_OFFSET_WIDTH_MASK)
      (if has_any_null then V2_ROW_FLAG_NULL_BITMAP else 0) in
    finish_envelope (begin_envelope RowObject (ss_version s) (Z.lor FLAG_VERSION_IN_KEY FLAG_ROW_BODY_V2)
      ++ to_le 2 (ss_version s) ++ [row_flags] ++ to_le 2 span ++ (if has_any_null then sc_bitmap sc else [])
      ++ sc_fixed sc ++ concat (to_le width <$> sc_var_ends sc) ++ sc_var_data sc).

(** [v2] is [is_row_v2_writer_enabled()], a switch of the process. *)
Definition encode_row_body (v2 deleted : bool) (fields : RowValues) (s : StorageSchema) : SerResult (list Z) :=
  if v2 then encode_row_body_v2 deleted fields s
  else
    let buf := begin_envelope RowObject (ss_version s) (Z.lor FLAG_COLUMN_OFFSETS FLAG_VERSION_IN_KEY)
      ++ to_le 2 (ss_version s) ++ [if deleted then 1 else 0] in
    let? buf := encode_fields_indexed buf HEADER_LEN fields s in
    finish_envelope buf.

(** [encode_row_fields] and [encode_row_fields_from_columns]: the columns without an envelope. *)
Definition encode_row_fields (fields : RowValues) (s : StorageSchema) : SerResult (list Z) :=
  encode_fields_sequential [] fields s.

(** ** The decoder *)

Definition missing_value (field : StorageField) : ScalarValue :=
  match sf_missing_default field with Some v => v | None => null_for_type (sf_data_type field) end.

Definition skip_offset_table (r : RowReader) (count : nat) : SerResult RowReader :=
  let? (_, r) := rd_take r (count * 4) in Ok r.

Definition read_row_header (r : RowReader) (s : StorageSchema) (flags : Z) : SerResult (bool * RowReader) :=
  if negb (has_flag flags FLAG_VERSION_IN_KEY) then Err (Decode "unsupported row format: legacy commit sequence header")
  else if negb (has_flag flags FLAG_COLUMN_OFFSETS) then Err (Decode "unsupported row format: missing column offset table")
  else
    let? (stored_version, r) := rd_uint r 2 in
    if ss_version s <? stored_version then Err (Decode "row schema version is newer")
    else let? (b, r) := rd_uint r 1 in Ok (negb (b =? 0), r).

(** The loop over the fields of the schema, of which the first [live_count] are stored; [emit]
    receives each live column. *)
Fixpoint decode_columns {A} (emit : A -> StorageField -> nat -> ScalarValue -> SerResult A) (acc : A) (index live_count : nat)
    (fields : list StorageField) (r : RowReader) : SerResult (A * RowReader) :=
  match fields with
  | [] => Ok (acc, r)
  | field :: rest =>
      let? (acc, r) :=
        if (index <? live_count)%nat then
          if sf_dropped field then let? r := skip_value r in Ok (acc, r)
          else
            let? (v, r) := decode_value (sf_data_type field) r in
            let? acc := emit acc field index v in Ok (acc, r)
        else if sf_dropped field then Ok (acc, r)
        else let? acc := emit acc field index (missing_value field) in Ok (acc, r) in
      decode_columns emit acc (S index) live_count rest r
  end.

(** [values.insert(field.name.clone(), value)] *)
Definition insert_column (row : Row) (field : StorageField) (_ : nat) (v : ScalarValue) : SerResult Row :=
  Ok (<[sf_name field := v]> row).

Definition decode_named_fields (r : RowReader) (s : StorageSchema) (stored_field_count : nat) : SerResult (Row * RowReader) :=
  let live_count := (stored_field_count `min` length (ss_fields s))%nat in
  let? (values, r) := decode_columns insert_column ∅ 0 live_count (ss_fields s) r in
  let? r := repeat_read skip_value (stored_field_count - live_count) r in
  Ok (values, r).

Definition decode_fields (r : RowReader) (s : StorageSchema) (indexed : bool) : SerResult (Row * RowReader) :=
  let? (stored_field_count, r) := rd_uint r 2 in
  let? r := if indexed then skip_offset_table r (Z.to_nat stored_field_count) else Ok r in
  decode_named_fields r s (Z.to_nat stored_field_count).

Definition decode_row_fields (bytes : list Z) (s : StorageSchema) : SerResult Row :=
  let? (fields, r) := decode_fields (new_reader bytes) s false in
  if rd_is_empty r then Ok fields else Err (Decode "trailing bytes after row fields").

(** [columns[index] = value] *)
Definition set_column (columns : list ScalarValue) (_ : StorageField) (index : nat) (v : ScalarValue) :
    SerResult (list ScalarValue) :=
  Ok (<[index := v]> columns).

Definition decode_row_fields_columns (bytes : list Z) (s : StorageSchema) : SerResult (list ScalarValue) :=
  let? (stored_field_count, r) := rd_uint (new_reader bytes) 2 in
  let stored_field_count := Z.to_nat stored_field_count in
  let live_count := (stored_field_count `min` length (ss_fields s))%nat in
  let? (columns, r) :=
    decode_columns set_column (replicate (length (ss_fields s)) VNull) 0 live_count (ss_fields s) r in
  let? r := repeat_read skip_value (stored_field_count - live_count) r in
  if rd_is_empty r then Ok columns else Err (Decode "trailing bytes after row fields").

(** A v2 body *)

Record RowView := mkView {
  rv_stored_version : Z;
  rv_deleted : bool;
  rv_slot_span : nat;
  rv_bitmap : option (list Z);
  rv_fixed_region : list Z;
  rv_var_offsets_bytes : list Z;
  rv_offset_byte_width : nat;
  rv_var_data : list Z
}.

Definition read_var_end_offset (bytes : list Z) (width index : nat) : nat :=
  match width with
  | 1%nat | 2%nat | 4%nat => Z.to_nat (from_le (slice (index * width) (index * width + width) bytes))
  | _ => 0%nat
  end.

(** The check of the end offsets: monotone, and the last one the end of the data. *)
Fixpoint check_ends (offsets : list Z) (width data_len : nat) (idx remaining_ prev_end : nat) : SerResult nat :=
  match remaining_ with
  | O => Ok prev_end
  | S n =>
      let end_ := read_var_end_offset offsets width idx in
      if (end_ <? prev_end)%nat || (data_len <? end_)%nat then Err (Decode "invalid v2 variable offset")
      else check_ends offsets width data_len (S idx) n end_
  end.

Definition width_of_code (code : Z) : nat :=
  if code =? 0 then 0%nat else if code =? 1 then 1%nat else if code =? 2 then 2%nat else 4%nat.

Definition row_view_parse (payload : list Z) (s : StorageSchema) (envelope_flags : Z) : SerResult RowView :=
  let? (stored_version, r) := rd_uint (new_reader payload) 2 in
  if ss_version s <? stored_version then Err (Decode "row schema version is newer")
  else
  let? (row_flags, r) := rd_uint r 1 in
  if unsupported row_flags V2_ROW_FLAG_SUPPORTED_MASK then Err (Decode "unsupported v2 row flags")
  else
  let tombstone := has_flag envelope_flags FLAG_TOMBSTONE_ONLY in
  let deleted := has_flag row_flags V2_ROW_FLAG_DELETED || tombstone in
  if tombstone then
    if rd_is_empty r then Ok (mkView stored_version true 0 None [] [] 0 [])
    else Err (Decode "trailing bytes after tombstone-only v2 row")
  else
  let? (slot_span_, r) := rd_uint r 2 in
  match layout_for_version s stored_version with
  | None => Err (Decode "missing v2 row schema layout")
  | Some layout =>
      if negb (Z.to_nat slot_span_ =? slot_span layout)%nat then Err (Decode "v2 row slot span does not match")
      else
      let? (bitmap, r) :=
        if has_flag row_flags V2_ROW_FLAG_NULL_BITMAP then
          let? (b, r) := rd_take r ((slot_span layout + 7) / 8) in Ok (Some b, r)
        else Ok (None, r) in
      let? (fixed_region, r) := rd_take r (fixed_region_len layout) in
      let width := width_of_code (Z.shiftr (Z.land row_flags V2_ROW_FLAG_OFFSET_WIDTH_MASK) V2_ROW_FLAG_OFFSET_WIDTH_SHIFT) in
      let var_count := length (variable_ordinals layout) in
      if (0 <? var_count)%nat && (width =? 0)%nat then Err (Decode "v2 row has variable columns but offset width is 0")
      else
      let? (offsets, r) := rd_take r (var_count * width) in
      let? (var_data, r) := rd_take r (length (rd_rest r)) in
      let? prev_end := check_ends offsets width (length var_data) 0 var_count 0 in
      if negb (prev_end =? length var_data)%nat then Err (Decode "trailing bytes after v2 variable data")
      else Ok (mkView stored_version deleted (slot_span layout) bitmap fixed_region offsets width var_data)
  end.

Definition view_is_null (v : RowView) (ordinal : nat) : bool :=
  if (rv_slot_span v <=? ordinal)%nat then true
  else match rv_bitmap v with Some bm => bit_set bm ordinal | None => false end.

Definition view_layout (v : RowView) (s : StorageSchema) : StorageVersionLayout :=
  match layout_for_version s (rv_stored_version v) with Some l => l | None => ss_layout s end.

Definition fixed_bytes (v : RowView) (ordinal : nat) (s : StorageSchema) : SerResult (option (list Z)) :=
  if view_is_null v ordinal then Ok None
  else match fixed_offsets (view_layout v s) !! ordinal with
    | Some (Some (offset, width)) => Ok (Some (slice offset (offset + width) (rv_fixed_region v)))
    | _ => Err (Decode "ordinal is not a fixed slot")
    end.

Definition variable_slice (v : RowView) (ordinal : nat) (s : StorageSchema) : SerResult (option (list Z)) :=
  if view_is_null v ordinal then Ok None
  else match variable_slot_for_ordinal (view_layout v s) !! ordinal with
    | Some (Some var_idx) =>
        let start := match var_idx with
          | O => 0%nat
          | S i => read_var_end_offset (rv_var_offsets_bytes v) (rv_offset_byte_width v) i
          end in
        let end_ := read_var_end_offset (rv_var_offsets_bytes v) (rv_offset_byte_width v) var_idx in
        Ok (Some (slice start end_ (rv_var_data v)))
    | _ => Err (Decode "ordinal is not a variable slot")
    end.

(** A slice of the width of the type. *)
Definition decode_fixed_value (b : list Z) (expected : StorageDataType) : SerResult ScalarValue :=
  match expected with
  | TBoolean => Ok (VBoolean (Some (negb (from_le b =? 0))))
  | TInt8 => Ok (VInt8 (Some (signed_le b)))
  | TUInt8 => Ok (VUInt8 (Some (from_le b)))
  | TInt16 => Ok (VInt16 (Some (signed_le b)))
  | TUInt16 => Ok (VUInt16 (Some (from_le b)))
  | TInt32 => Ok (VInt32 (Some (signed_le b)))
  | TUInt32 => Ok (VUInt32 (Some (from_le b)))
  | TFloat32 => Ok (VFloat32 (Some (from_le b)))
  | TDate32 => Ok (VDate32 (Some (signed_le b)))
  | TInt64 => Ok (VInt64 (Some (signed_le b)))
  | TUInt64 => Ok (VUInt64 (Some (from_le b)))
  | TFloat64 => Ok (VFloat64 (Some (from_le b)))
  | TTime64Microsecond => Ok (VTime64Microsecond (Some (signed_le b)))
  | TTimestampMillisecond => Ok (VTimestampMillisecond (Some (signed_le b)) None)
  | TTimestampMicrosecond => Ok (VTimestampMicrosecond (Some (signed_le b)) None)
  | TTimestampNanosecond => Ok (VTimestampNanosecond (Some (signed_le b)) None)
  | TDecimal precision scale => Ok (VDecimal128 (Some (signed_le b)) precision scale)
  | _ => Err (Decode "unexpected non-fixed type in fixed region")
  end.

Definition decode_variable_value_v2 (b : list Z) (expected : StorageDataType) : SerResult ScalarValue :=
  match expected with
  | TUtf8 => if utf8_valid b then Ok (VUtf8 (Some (string_of_bytes b))) else Err (Decode "invalid UTF-8 in v2 row")
  | TBinary => Ok (VBinary (Some b))
  | TEmbedding _ | TStruct _ | TList _ =>
      let? (v, r) := decode_value expected (new_reader b) in
      if rd_is_empty r then Ok v else Err (Decode "trailing bytes in v2 nested variable value")
  | _ => Err (Decode "unexpected type in variable region")
  end.

Definition decode_field (view : RowView) (ordinal : nat) (s : StorageSchema) : SerResult ScalarValue :=
  match ss_fields s !! ordinal with
  | None => Err (Decode "ordinal out of schema range")
  | Some field =>
      if (rv_slot_span view <=? ordinal)%nat then Ok (missing_value field)
      else if view_is_null view ordinal then Ok (null_for_type (sf_data_type field))
      else
        let layout := view_layout view s in
        match fixed_offsets layout !! ordinal with
        | Some (Some (offset, width)) =>
            if (length (rv_fixed_region view) <? offset + width)%nat then Err Truncated
            else
              let b := slice offset (offset + width) (rv_fixed_region view) in
              match fixed_encodings layout !! ordinal with
              | Some (Some stored) =>
                  if decide (Some stored = for_type (sf_data_type field)) then decode_fixed_value b (sf_data_type field)
                  else decode_as stored b (sf_data_type field)
              | _ => Err (Decode "missing fixed encoding for ordinal")
              end
        | _ =>
            let? b := variable_slice view ordinal s in
            match b with
            | Some b => decode_variable_value_v2 b (sf_data_type field)
            | None => Err Truncated
            end
        end
  end.

(** A column of a v2 row: of a row that is only a tombstone, null. *)
Definition v2_column (view : RowView) (flags : Z) (s : StorageSchema) (ordinal : nat) (field : StorageField) :
    SerResult ScalarValue :=
  if rv_deleted view && has_flag flags FLAG_TOMBSTONE_ONLY then Ok (null_for_type (sf_data_type field))
  else decode_field view ordinal s.

(** The loop over the live columns of a v2 row. *)
Definition v2_columns {A} (emit : A -> StorageField -> nat -> ScalarValue -> SerResult A) (view : RowView) (flags : Z)
    (s : StorageSchema) (acc : A) : SerResult A :=
  each_field (fun acc index field =>
    if sf_dropped field then Ok acc
    else let? v := v2_column view flags s index field in emit acc field index v) acc 0 (ss_fields s).

Record DecodedRow := mkDecoded {
  dr_deleted : bool;
  dr_fields : Row
}.

Definition decode_row_body (bytes : list Z) (s : StorageSchema) : SerResult DecodedRow :=
  let? (header, payload) := decode_envelope bytes RowObject in
  if has_flag (eh_flags header) FLAG_ROW_BODY_V2 then
    let? view := row_view_parse payload s (eh_flags header) in
    let? values := v2_columns insert_column view (eh_flags header) s ∅ in
    Ok (mkDecoded (rv_deleted view) values)
  else
    let? (deleted, r) := read_row_header (new_reader payload) s (eh_flags header) in
    let? (fields, r) := decode_fields r s true in
    if rd_is_empty r then Ok (mkDecoded deleted fields) else Err (Decode "trailing bytes after row payload").

(** [decode_row_body_into_columns]: the live columns in order, each with its output index. *)
Definition push_column {A} (push : A -> nat -> ScalarValue -> SerResult A) (acc : A * nat) (_ : StorageField) (_ : nat)
    (v : ScalarValue) : SerResult (A * nat) :=
  let? a := push acc.1 acc.2 v in Ok (a, S acc.2).

Definition decode_row_body_into_columns {A} (push : A -> nat -> ScalarValue -> SerResult A) (acc : A) (bytes : list Z)
    (s : StorageSchema) : SerResult (A * bool) :=
  let? (header, payload) := decode_envelope bytes RowObject in
  if has_flag (eh_flags header) FLAG_ROW_BODY_V2 then
    let? view := row_view_parse payload s (eh_flags header) in
    let? (acc, _) := v2_columns (push_column push) view (eh_flags header) s (acc, 0%nat) in
    Ok (acc, rv_deleted view)
  else
    let? (deleted, r) := read_row_header (new_reader payload) s (eh_flags header) in
    let? (stored_field_count, r) := rd_uint r 2 in
    let stored_field_count := Z.to_nat stored_field_count in
    let? r := skip_offset_table r stored_field_count in
    let live_count := (stored_field_count `min` length (ss_fields s))%nat in
    let? (acc, r) := decode_columns (push_column push) (acc, 0%nat) 0 live_count (ss_fields s) r in
    let? r := repeat_read skip_value (stored_field_count - live_count) r in
    if rd_is_empty r then Ok (acc.1, deleted) else Err (Decode "trailing bytes after row payload").

(** Selected columns *)

Definition read_indexed_value (r : RowReader) (s : StorageSchema) (stored_field_count : nat) (offset_table : list Z)
    (ordinal : nat) : SerResult (ScalarValue * RowReader) :=
  match ss_fields s !! ordinal with
  | None => Err (Decode "column ordinal is out of schema range")
  | Some field =>
      if (stored_field_count <=? ordinal)%nat then Ok (missing_value field, r)
      else
        let slot := (ordinal * 4)%nat in
        if (length offset_table <? slot + 4)%nat then Err Truncated
        else
          let offset := Z.to_nat (from_le (slice slot (slot + 4) offset_table)) in
          let? r := seek r offset in
          decode_value (sf_data_type field) r
  end.

Fixpoint decode_selected_indexed (r : RowReader) (s : StorageSchema) (stored_field_count : nat) (offset_table : list Z)
    (values : Row) (ordinals : list nat) : SerResult Row :=
  match ordinals with
  | [] => Ok values
  | ordinal :: rest =>
      match ss_fields s !! ordinal with
      | None => Err (Decode "column ordinal is out of schema range")
      | Some field =>
          if sf_dropped field || bool_decide (is_Some (values !! sf_name field)) then
            decode_selected_indexed r s stored_field_count offset_table values rest
          else if (stored_field_count <=? ordinal)%nat then
            decode_selected_indexed r s stored_field_count offset_table (<[sf_name field := missing_value field]> values) rest
          else
            let? (v, r) := read_indexed_value r s stored_field_count offset_table ordinal in
            decode_selected_indexed r s stored_field_count offset_table (<[sf_name field := v]> values) rest
      end
  end.

Definition decode_selected_fields (r : RowReader) (s : StorageSchema) (ordinals : list nat) : SerResult Row :=
  let? (stored_field_count, r) := rd_uint r 2 in
  let? (offset_table, r) := rd_take r (Z.to_nat stored_field_count * 4) in
  decode_selected_indexed r s (Z.to_nat stored_field_count) offset_table ∅ ordinals.

Fixpoint v2_selected (view : RowView) (flags : Z) (s : StorageSchema) (values : Row) (ordinals : list nat) : SerResult Row :=
  match ordinals with
  | [] => Ok values
  | ordinal :: rest =>
      match ss_fields s !! ordinal with
      | None => Err (Decode "column ordinal is out of schema range")
      | Some field =>
          if sf_dropped field || bool_decide (is_Some (values !! sf_name field)) then v2_selected view flags s values rest
          else
            let? v := v2_column view flags s ordinal field in
            v2_selected view flags s (<[sf_name field := v]> values) rest
      end
  end.

Definition decode_row_body_selected (bytes : list Z) (s : StorageSchema) (ordinals : list nat) : SerResult DecodedRow :=
  let? (header, payload) := decode_envelope bytes RowObject in
  if has_flag (eh_flags header) FLAG_ROW_BODY_V2 then
    let? view := row_view_parse payload s (eh_flags header) in
    let? values := v2_selected view (eh_flags header) s ∅ ordinals in
    Ok (mkDecoded (rv_deleted view) values)
  else
    let? (deleted, r) := read_row_header (new_reader payload) s (eh_flags header) in
    let? fields := decode_selected_fields r s ordinals in
    Ok (mkDecoded deleted fields).

(** [project_row_fields]: [push] receives the position in [ordinals] and the value. *)
Fixpoint project_v2 {A} (push : A -> nat -> ScalarValue -> SerResult A) (acc : A) (view : RowView) (flags : Z)
    (s : StorageSchema) (index : nat) (ordinals : list nat) : SerResult A :=
  match ordinals with
  | [] => Ok acc
  | ordinal :: rest =>
      let? v := if rv_deleted view && has_flag flags FLAG_TOMBSTONE_ONLY then
          match ss_fields s !! ordinal with
          | None => Err (Decode "column ordinal is out of schema range")
          | Some field => Ok (null_for_type (sf_data_type field))
          end
        else decode_field view ordinal s in
      let? acc := push acc index v in
      project_v2 push acc view flags s (S index) rest
  end.

Fixpoint project_v1 {A} (push : A -> nat -> ScalarValue -> SerResult A) (acc : A) (r : RowReader) (s : StorageSchema)
    (stored_field_count : nat) (offset_table : list Z) (index : nat) (ordinals : list nat) : SerResult A :=
  match ordinals with
  | [] => Ok acc
  | ordinal :: rest =>
      let? (v, r) := read_indexed_value r s stored_field_count offset_table ordinal in
      let? acc := push acc index v in
      project_v1 push acc r s stored_field_count offset_table (S index) rest
  end.

Definition project_row_fields {A} (push : A -> nat -> ScalarValue -> SerResult A) (acc : A) (bytes : list Z)
    (s : StorageSchema) (ordinals : list nat) : SerResult (A * bool) :=
  let? (header, payload) := decode_envelope bytes RowObject in
  if has_flag (eh_flags header) FLAG_ROW_BODY_V2 then
    let? view := row_view_parse payload s (eh_flags header) in
    let? acc := project_v2 push acc view (eh_flags header) s 0 ordinals in
    Ok (acc, rv_deleted view)
  else
    let? (deleted, r) := read_row_header (new_reader payload) s (eh_flags header) in
    let? (stored_field_count, r) := rd_uint r 2 in
    let? (offset_table, r) := rd_take r (Z.to_nat stored_field_count * 4) in
    let? acc := project_v1 push acc r s (Z.to_nat stored_field_count) offset_table 0 ordinals in
    Ok (acc, deleted).

(** [decode_row_metadata]: the tombstone flag of a row. *)
Definition decode_row_metadata (bytes : list Z) : SerResult bool :=
  let? (header, payload) := decode_envelope bytes RowObject in
  if negb (has_flag (eh_flags header) FLAG_VERSION_IN_KEY) then
    Err (Decode "unsupported row format: legacy commit sequence header")
  else if negb (has_flag (eh_flags header) (Z.lor FLAG_COLUMN_OFFSETS FLAG_ROW_BODY_V2)) then
    Err (Decode "unsupported row format: missing column offset table")
  else
    let? (_, r) := rd_uint (new_reader payload) 2 in
    let? (b, r) := rd_uint r 1 in
    Ok (negb (b =? 0)).

(** ** What a row holds

    The canonical values of the columns, in the order of the schema. *)

Definition stored_value (values : RowValues) (index : nat) (field : StorageField) : ScalarValue :=
  if sf_dropped field then null_for_type (sf_data_type field)
  else match field_value values field index with
    | Some v => normalize (sf_data_type field) v
    | None => null_for_type (sf_data_type field)
    end.

Fixpoint stored_values (values : RowValues) (index : nat) (fields : list StorageField) : list ScalarValue :=
  match fields with
  | [] => []
  | field :: rest => stored_value values index field :: stored_values values (S index) rest
  end.

Definition fields_ok (fields : list StorageField) : Prop := Forall (fun f => type_ok (sf_data_type f)) fields.

Definition values_ok (values : RowValues) : Prop :=
  match values with
  | RowMap row => map_Forall (fun _ v => well_formed v) row
  | RowColumns columns => Forall well_formed columns
  end.

(** The columns a later schema sees: the live fields with their ordinals, a stored value as the
    column has become, a column that was added later with its default. *)
Fixpoint read_columns (index : nat) (fields : list StorageField) (stored : list ScalarValue) :
    option (list (nat * StorageField * ScalarValue)) :=
  match fields, stored with
  | [], _ => Some []
  | field :: rest, [] =>
      cols ← read_columns (S index) rest [];
      Some (if sf_dropped field then cols else (index, field, missing_value field) :: cols)
  | field :: rest, v :: vs =>
      cols ← read_columns (S index) rest vs;
      if sf_dropped field then Some cols
      else v' ← migrate (sf_data_type field) v; Some ((index, field, v') :: cols)
  end.

Fixpoint emit_columns {A} (emit : A -> StorageField -> nat -> ScalarValue -> SerResult A) (acc : A)
    (cols : list (nat * StorageField * ScalarValue)) : SerResult A :=
  match cols with
  | [] => Ok acc
  | (index, field, v) :: rest => let? acc := emit acc field index v in emit_columns emit acc rest
  end.

Definition row_of (cols : list (nat * StorageField * ScalarValue)) : Row :=
  foldl (fun row col => <[sf_name col.1.2 := col.2]> row) ∅ cols.

(** The budget a v1 row needs. *)
Fixpoint columns_cost (f : StorageDataType -> ScalarValue -> Z) (skip : ScalarValue -> Z) (fields : list StorageField)
    (stored : list ScalarValue) : Z :=
  match fields, stored with
  | [], vs => sum_z (map skip vs)
  | _ :: _, [] => 0
  | field :: rest, v :: vs => (if sf_dropped field then skip v else f (sf_data_type field) v) + columns_cost f skip rest vs
  end.

Record row_fits (fields : list StorageField) (stored : list ScalarValue) : Prop := {
  fits_nesting : max_z (map nesting stored) <= MAX_NESTING;
  fits_work : columns_cost read_work skip_work fields stored <= MAX_DECODE_WORK;
  fits_bytes : columns_cost read_bytes skip_bytes fields stored <= MAX_DECODED_BYTES
}.

(** ** Writing the columns *)

Lemma field_value_ok values field index v : values_ok values -> field_value values field index = Some v -> well_formed v.
Proof.
  destruct values; cbn; [|rewrite Forall_forall; intros H Hv; by eapply H, list_elem_of_lookup_2].
  intros H Hv. by eapply H.
Qed.

Lemma one_field_encoded values index field b :
  type_ok (sf_data_type field) -> values_ok values -> encode_one_field field index values = Ok b ->
  typed (sf_data_type field) (stored_value values index field) /\ b = wire (stored_value values index field).
Proof.
  intros Ht Hv. unfold encode_one_field, stored_value. destruct (sf_dropped field).
  { intros [= <-]. split; [apply null_typed|by rewrite null_wire]. }
  destruct (field_value values field index) as [v|] eqn:E.
  - apply value_encoded; [done|]. by eapply field_value_ok.
  - intros [= <-]. split; [apply null_typed|by rewrite null_wire].
Qed.

Lemma stored_values_length values index fields : length (stored_values values index fields) = length fields.
Proof. revert index. induction fields as [|f fs IH]; intros index; [done|]. cbn. by rewrite IH. Qed.

Lemma stored_values_lookup values index fields i field :
  fields !! i = Some field -> stored_values values index fields !! i = Some (stored_value values (index + i) field).
Proof.
  revert index i. induction fields as [|f fs IH]; intros index [|i]; cbn; try done.
  - intros [= ->]. by rewrite Nat.add_0_r.
  - intros H. rewrite IH by done. by rewrite Nat.add_succ_r.
Qed.

Lemma patch_app pre old new post : length old = length new -> patch (pre ++ old ++ post) (length pre) new = pre ++ new ++ post.
Proof.
  intros Hl. unfold patch. rewrite take_app_length. do 2 f_equal. by rewrite <- Hl, app_assoc, <- length_app, drop_app_length.
Qed.

(** Where each column starts. *)
Fixpoint offsets_from (base : nat) (stored : list ScalarValue) : list Z :=
  match stored with
  | [] => []
  | v :: vs => Z.of_nat base :: offsets_from (base + length (wire v)) vs
  end.

Lemma indexed_loop values offset_slot payload_start fields : forall index pre tab data out,
  fields_ok fields -> values_ok values -> length pre = offset_slot -> length tab = (index * 4)%nat ->
  each_field (fun buf index field =>
      let offset := Z.of_nat (length buf - payload_start) in
      if offset <=? u32_max then
        let buf := patch buf (offset_slot + index * 4) (to_le 4 offset) in
        let? b := encode_one_field field index values in Ok (buf ++ b)
      else Err (Encode "row payload exceeds u32 offset"))
    (pre ++ tab ++ replicate (length fields * 4) 0 ++ data) index fields = Ok out ->
  let vs := stored_values values index fields in
  let offsets := offsets_from (length (pre ++ tab) + length fields * 4 + length data - payload_start) vs in
  (payload_start <= length pre)%nat ->
  Forall storable vs /\ Forall (fun x => 0 <= x <= u32_max) offsets /\
  out = pre ++ (tab ++ concat (to_le 4 <$> offsets)) ++ data ++ concat (map wire vs).
Proof.
  induction fields as [|f fs IH]; intros index pre tab data out Hok Hv Hpre Htab Hrun vs offsets Hps.
  - injection Hrun as <-. subst vs offsets. cbn. rewrite !app_nil_r. split_and!; [constructor..|done].
  - apply Forall_cons in Hok as [Hf Hok]. cbn [each_field] in Hrun. apply result_bind_ok in Hrun as (buf & Hstep & Hrun).
    set (offset := Z.of_nat _) in Hstep. destruct (Z.leb_spec offset u32_max) as [Hoff|]; [|done].
    apply result_bind_ok in Hstep as (b & Hb & [= <-]). apply one_field_encoded in Hb as [Hty ->]; [|done..].
    set (v := stored_value values index f) in *.
    assert (offset_slot + index * 4 = length (pre ++ tab))%nat as Hslot by (rewrite length_app; lia).
    pose proof (patch_app (pre ++ tab) [0; 0; 0; 0] (to_le 4 offset) (replicate (length fs * 4) 0 ++ data)) as Hp.
    cbn [app] in Hp. rewrite Hslot, (app_assoc pre tab), Hp in Hrun by (by rewrite to_le_length). clear Hp.
    destruct (IH (S index) pre (tab ++ to_le 4 offset) (data ++ wire v) out) as (Hst & Hoffs & ->);
      [done..|rewrite length_app, to_le_length; lia|rewrite <- !app_assoc in Hrun; rewrite <- !app_assoc; exact Hrun|done|].
    subst vs offsets. cbn [stored_values offsets_from map concat].
    fold v. rewrite fmap_cons. cbn [concat].
    assert (Z.of_nat (length (pre ++ tab) + length (f :: fs) * 4 + length data - payload_start) = offset) as ->.
    { subst offset. rewrite !length_app, length_replicate. f_equal. lia. }
    match goal with H : Forall _ (offsets_from ?a _) |- context [offsets_from ?b _] =>
      assert (b = a) as -> by (cbn [length]; rewrite !length_app, to_le_length; lia) end.
    split_and!.
    + constructor; [|done]. by exists (sf_data_type f).
    + constructor; [lia|done].
    + by rewrite <- !app_assoc.
Qed.

(** ** Reading the columns of a v1 body *)

Lemma columns_cost_nonneg f skip fields stored :
  (forall t v, storable v -> 0 <= f t v) -> (forall v, storable v -> 0 <= skip v) ->
  Forall storable stored -> 0 <= columns_cost f skip fields stored.
Proof.
  intros Hf Hskip. revert stored. induction fields as [|x xs IH]; intros stored Hs.
  - cbn. apply sum_z_nonneg. eapply Forall_impl; [exact Hs|]. apply Hskip.
  - destruct stored as [|v vs]; [done|]. apply Forall_cons in Hs as [Hv Hvs]. cbn. specialize (IH _ Hvs).
    specialize (Hf (sf_data_type x) _ Hv). specialize (Hskip _ Hv). destruct (sf_dropped x); lia.
Qed.

Lemma work_nonneg fields stored : Forall storable stored -> 0 <= columns_cost read_work skip_work fields stored.
Proof.
  apply columns_cost_nonneg; intros; [pose proof (read_costs t v); naive_solver lia|pose proof (skip_costs v); naive_solver lia].
Qed.

Lemma bytes_nonneg fields stored : Forall storable stored -> 0 <= columns_cost read_bytes skip_bytes fields stored.
Proof. apply columns_cost_nonneg; intros; [by apply read_costs|by apply skip_costs]. Qed.

Lemma decode_columns_none {A} (emit : A -> StorageField -> nat -> ScalarValue -> SerResult A) fields : forall acc index live cols r,
  (live <= index)%nat -> read_columns index fields [] = Some cols ->
  decode_columns emit acc index live fields r = (let? a := emit_columns emit acc cols in Ok (a, r)).
Proof.
  induction fields as [|f fs IH]; intros acc index live cols r Hl Hc; [by injection Hc as <-|].
  cbn [read_columns] in Hc. apply bind_Some in Hc as (cols' & Hc' & [= <-]). cbn [decode_columns].
  destruct (Nat.ltb_spec index live); [lia|]. destruct (sf_dropped f); cbn [result_bind emit_columns].
  - apply IH; [lia|done].
  - destruct (emit acc f index (missing_value f)) as [a|e]; [|done]. cbn [result_bind]. apply IH; [lia|done].
Qed.

Lemma decode_columns_wire {A} (emit : A -> StorageField -> nat -> ScalarValue -> SerResult A) fields :
  forall index live stored cols o tail d w b,
  live = (index + length stored `min` length fields)%nat -> Forall storable stored ->
  read_columns index fields stored = Some cols ->
  room d w b (max_z (map nesting stored)) (columns_cost read_work skip_work fields stored) (columns_cost read_bytes skip_bytes fields stored) ->
  exists r1,
    (forall acc, decode_columns emit acc index live fields (mkReader o (concat (map wire stored) ++ tail) d w b) =
      (let? a := emit_columns emit acc cols in Ok (a, r1))) /\
    repeat_read skip_value (length stored - length fields) r1 =
      Ok (mkReader o tail d (w + columns_cost read_work skip_work fields stored) (b + columns_cost read_bytes skip_bytes fields stored)).
Proof.
  induction fields as [|f fs IH]; intros index live stored cols o tail d w b Hl Hs Hc Hr.
  - injection Hc as <-. cbn [columns_cost] in *. eexists. split; [done|]. rewrite Nat.sub_0_r.
    apply skip_items; [|destruct Hr as [Hd _ _]; unfold MAX_NESTING in *; lia|done].
    eapply Forall_impl; [exact Hs|]. intros v Hv. split; [done|by apply skip_wire].
  - destruct stored as [|v vs].
    + exists (mkReader o tail d w b). split.
      * intros acc. apply decode_columns_none; [cbn in Hl; lia|done].
      * cbn. by rewrite !Z.add_0_r.
    + apply Forall_cons in Hs as [Hv Hvs]. cbn [read_columns] in Hc. apply bind_Some in Hc as (cols' & Hc' & Hc).
      pose proof (read_costs (sf_data_type f) v Hv). pose proof (skip_costs v Hv). pose proof (max_z_nonneg (map nesting vs)).
      pose proof (work_nonneg fs vs Hvs). pose proof (bytes_nonneg fs vs Hvs).
      destruct Hr as [Hd Hw Hb]. cbn [map max_z foldr columns_cost] in Hd, Hw, Hb. fold (max_z (map nesting vs)) in Hd.
      cbn [decode_columns map concat columns_cost length Nat.sub]. rewrite <- app_assoc.
      cbn [length] in Hl. destruct (Nat.ltb_spec index live); [|lia].
      destruct (sf_dropped f) eqn:Hdrop.
      * injection Hc as <-. destruct (IH (S index) live vs cols' o tail d (w + skip_work v) (b + skip_bytes v)) as (r1 & Hdec & Hskip);
          [lia|done|done|constructor; lia|].
        exists r1. unfold skip_value at 1. rewrite skip_wire by (done || (constructor; lia) || (unfold MAX_NESTING in *; lia)).
        cbn [result_bind]. rewrite Hskip. split; [apply Hdec|]. do 2 f_equal; lia.
      * apply bind_Some in Hc as (v' & Hm & [= <-]).
        pose proof (decode_wire _ _ _ Hv Hm o (concat (map wire vs) ++ tail) d w b) as Hdv.
        rewrite Hdv by (constructor; lia). cbn [result_bind emit_columns].
        destruct (IH (S index) live vs cols' o tail d (w + read_work (sf_data_type f) v) (b + read_bytes (sf_data_type f) v)) as (r1 & Hdec & Hskip);
          [lia|done|done|constructor; lia|].
        exists r1. rewrite Hskip. split; [|do 2 f_equal; lia]. intros acc.
        destruct (emit acc f index v') as [a|e]; [|done]. apply Hdec.
Qed.

(** A schema rows are written with. *)
Record schema_ok (s : StorageSchema) : Prop := {
  so_version : 0 <= ss_version s <= u16_max;
  so_fields : fields_ok (ss_fields s);
  so_layout : ss_layout s = compute (ss_fields s)
}.

Definition v1_payload (version : Z) (deleted : bool) (stored : list ScalarValue) : list Z :=
  to_le 2 version ++ [if deleted then 1 else 0] ++ to_le 2 (Z.of_nat (length stored)) ++
  concat (to_le 4 <$> offsets_from (5 + length stored * 4) stored) ++ concat (map wire stored).

Lemma field_count_ok s n : field_count s = Ok n -> n = Z.of_nat (length (ss_fields s)) /\ n <= u16_max.
Proof. unfold field_count. destruct (Z.leb_spec (Z.of_nat (length (ss_fields s))) u16_max); [|done]. by intros [= <-]. Qed.

Lemma begin_envelope_length kind v flags : length (begin_envelope kind v flags) = HEADER_LEN.
Proof. unfold begin_envelope. by rewrite !length_app, !le_bytes_length. Qed.

Lemma v1_encoded values s deleted bytes :
  schema_ok s -> values_ok values -> encode_row_body false deleted values s = Ok bytes ->
  let vs := stored_values values 0 (ss_fields s) in
  Forall storable vs /\ Forall (fun x => 0 <= x <= u32_max) (offsets_from (5 + length vs * 4) vs) /\
  Z.of_nat (length vs) <= u16_max /\ Z.of_nat (length (v1_payload (ss_version s) deleted vs)) <= u32_max /\
  bytes = envelope RowObject (ss_version s) 3 (v1_payload (ss_version s) deleted vs).
Proof.
  intros [Hver Hok _] Hv Henc vs. unfold encode_row_body in Henc. apply result_bind_ok in Henc as (buf & Hloop & Hfin).
  unfold encode_fields_indexed in Hloop. apply result_bind_ok in Hloop as (n & (-> & Hn)%field_count_ok & Hloop).
  rewrite Nat2Z.id in Hloop.
  assert (length vs = length (ss_fields s)) as Hlen by apply stored_values_length.
  set (head := begin_envelope RowObject (ss_version s) _ ++ _) in *.
  assert (length head = HEADER_LEN + 3)%nat as Hhead.
  { subst head. by rewrite length_app, begin_envelope_length, length_app, to_le_length. }
  pose proof (indexed_loop values _ HEADER_LEN (ss_fields s) 0 (head ++ to_le 2 (Z.of_nat (length (ss_fields s)))) [] [] buf Hok Hv eq_refl eq_refl) as Hl.
  cbn [app] in Hl. rewrite app_nil_r in Hl. specialize (Hl Hloop). cbn zeta in Hl. fold vs in Hl.
  destruct Hl as (Hs & Hoffs & ->). { rewrite length_app, Hhead. lia. }
  match type of Hoffs with Forall _ (offsets_from ?b _) => assert (b = 5 + length vs * 4)%nat as Hbase
    by (rewrite app_nil_r, length_app, Hhead, to_le_length; cbn [length]; lia) end.
  rewrite Hbase in *.
  split; [done|]. split; [done|]. split; [lia|].
  assert ((head ++ to_le 2 (Z.of_nat (length (ss_fields s)))) ++ concat (to_le 4 <$> offsets_from (5 + length vs * 4) vs) ++ concat (map wire vs) =
    begin_envelope RowObject (ss_version s) 3 ++ v1_payload (ss_version s) deleted vs) as Heq.
  { subst head. unfold v1_payload. rewrite <- !app_assoc, Hlen. done. }
  rewrite Heq in Hfin. by apply encode_envelope_bytes in Hfin.
Qed.

Lemma insert_columns acc cols :
  emit_columns insert_column acc cols = Ok (foldl (fun row col => <[sf_name col.1.2 := col.2]> row) acc cols).
Proof. revert acc. induction cols as [|[[i f] v] cols IH]; intros acc; [done|]. apply IH. Qed.

Lemma insert_columns_row cols : emit_columns insert_column (∅ : Row) cols = Ok (row_of cols).
Proof. apply insert_columns. Qed.

Lemma offsets_length base vs : length (offsets_from base vs) = length vs.
Proof. revert base. induction vs as [|v vs IH]; intros base; [done|]. cbn. by rewrite IH. Qed.

Lemma concat_le_length n l : length (concat (to_le n <$> l)) = (length l * n)%nat.
Proof. induction l as [|x l IH]; [done|]. rewrite fmap_cons. cbn [concat length]. rewrite length_app, to_le_length, IH. lia. Qed.

Lemma row_header_wire s' version (deleted : bool) rest o :
  0 <= version <= u16_max -> version <= ss_version s' ->
  read_row_header (mkReader o (to_le 2 version ++ [if deleted then 1 else 0] ++ rest) 0 0 0) s' 3 = Ok (deleted, mkReader o rest 0 0 0).
Proof.
  intros Hv Hle. unfold read_row_header. cbn [has_flag FLAG_VERSION_IN_KEY FLAG_COLUMN_OFFSETS]. change (negb (has_flag 3 2)) with false.
  change (negb (has_flag 3 1)) with false. cbv iota. rewrite rd_uint_app by (unfold u_range, byte_modulus, u16_max in *; lia).
  cbn [result_bind]. destruct (Z.ltb_spec (ss_version s') version); [lia|]. cbn [app]. rewrite rd_tag_app. by destruct deleted.
Qed.

Lemma header_ok_row v flags : 0 <= v <= u16_max -> flags ∈ [3; 6; 14] -> header_ok RowObject v flags.
Proof.
  intros Hv Hf. split; [done|]. repeat (apply elem_of_cons in Hf as [->|Hf]; [split; [unfold u16_max; lia|done]|]).
  by apply elem_of_nil in Hf.
Qed.

Lemma fits_room fields stored : Forall storable stored -> row_fits fields stored ->
  room 0 0 0 (max_z (map nesting stored)) (columns_cost read_work skip_work fields stored) (columns_cost read_bytes skip_bytes fields stored).
Proof. intros Hs [Hn Hw Hb]. pose proof (max_z_nonneg (map nesting stored)). constructor; lia. Qed.

Lemma v1_fields_read {A} (emit : A -> StorageField -> nat -> ScalarValue -> SerResult A) s' stored cols o :
  Forall storable stored -> read_columns 0 (ss_fields s') stored = Some cols -> row_fits (ss_fields s') stored ->
  exists r1 r2, (forall acc, decode_columns emit acc 0 (length stored `min` length (ss_fields s')) (ss_fields s')
      (mkReader o (concat (map wire stored)) 0 0 0) = (let? a := emit_columns emit acc cols in Ok (a, r1))) /\
    repeat_read skip_value (length stored - length stored `min` length (ss_fields s')) r1 = Ok r2 /\ rd_is_empty r2 = true.
Proof.
  intros Hs Hc Hfit.
  destruct (decode_columns_wire emit (ss_fields s') 0 (length stored `min` length (ss_fields s')) stored cols o [] 0 0 0) as (r1 & Hdec & Hskip);
    [done|done|done|by apply fits_room|].
  rewrite app_nil_r in Hdec. eexists r1, _. split; [exact Hdec|].
  replace (length stored - length stored `min` length (ss_fields s'))%nat with (length stored - length (ss_fields s'))%nat by lia.
  by split; [exact Hskip|].
Qed.

Lemma v1_decoded s' version deleted stored cols :
  0 <= version <= u16_max -> version <= ss_version s' -> Z.of_nat (length stored) <= u16_max ->
  Z.of_nat (length (v1_payload version deleted stored)) <= u32_max ->
  Forall storable stored -> read_columns 0 (ss_fields s') stored = Some cols -> row_fits (ss_fields s') stored ->
  decode_row_body (envelope RowObject version 3 (v1_payload version deleted stored)) s' = Ok (mkDecoded deleted (row_of cols)).
Proof.
  intros Hv Hle Hn Hp Hs Hc Hfit. unfold decode_row_body. rewrite decode_envelope_of by (done || (apply header_ok_row; [done|set_solver])).
  cbn [result_bind eh_flags]. change (has_flag 3 FLAG_ROW_BODY_V2) with false. cbv iota.
  unfold new_reader. unfold v1_payload at 2. rewrite row_header_wire by done. cbn [result_bind]. unfold decode_fields.
  rewrite rd_uint_app by (unfold u_range, byte_modulus, u16_max in *; lia). cbn [result_bind]. rewrite Nat2Z.id.
  unfold skip_offset_table. rewrite rd_take_app by (rewrite concat_le_length, offsets_length; lia). cbn [result_bind].
  unfold decode_named_fields.
  edestruct (v1_fields_read insert_column s' stored cols) as (r1 & r2 & Hdec & Hskip & Hempty); [done..|].
  rewrite Hdec, insert_columns_row. cbn [result_bind]. rewrite Hskip. cbn [result_bind]. by rewrite Hempty.
Qed.

(** ** The layout of the fixed region *)

Fixpoint fixed_list (index : nat) (fields : list StorageField) : list (nat * nat) :=
  match fields with
  | [] => []
  | f :: fs =>
      (if sf_dropped f then [] else match fixed_byte_width (sf_data_type f) with Some w => [(index, w)] | None => [] end)
      ++ fixed_list (S index) fs
  end.

Fixpoint variable_list (index : nat) (fields : list StorageField) : list nat :=
  match fields with
  | [] => []
  | f :: fs =>
      (if sf_dropped f then [] else match fixed_byte_width (sf_data_type f) with Some _ => [] | None => [index] end)
      ++ variable_list (S index) fs
  end.

Definition fixed_field (f : StorageField) (w : nat) : Prop := sf_dropped f = false /\ fixed_byte_width (sf_data_type f) = Some w.
Definition variable_field (f : StorageField) : Prop := sf_dropped f = false /\ fixed_byte_width (sf_data_type f) = None.

Lemma elem_fixed_list index fields i w :
  (i, w) ∈ fixed_list index fields <-> exists j f, i = (index + j)%nat /\ fields !! j = Some f /\ fixed_field f w.
Proof.
  revert index. induction fields as [|f fs IH]; intros index; cbn.
  - rewrite elem_of_nil. split; [done|]. intros (j & f & _ & H & _). done.
  - rewrite elem_of_app, IH. split.
    + intros [Hin|(j & g & -> & Hj & Hg)]; [|exists (S j), g; split; [lia|done]].
      exists 0%nat, f. unfold fixed_field. destruct (sf_dropped f); [by apply elem_of_nil in Hin|].
      destruct (fixed_byte_width _); [|by apply elem_of_nil in Hin]. apply list_elem_of_singleton in Hin as [= -> ->].
      split; [lia|done].
    + intros ([|j] & g & -> & Hj & Hg); [|right; exists j, g; split; [lia|done]].
      left. cbn in Hj. injection Hj as ->. destruct Hg as [-> ->]. rewrite Nat.add_0_r. set_solver.
Qed.

Lemma elem_variable_list index fields i :
  i ∈ variable_list index fields <-> exists j f, i = (index + j)%nat /\ fields !! j = Some f /\ variable_field f.
Proof.
  revert index. induction fields as [|f fs IH]; intros index; cbn.
  - rewrite elem_of_nil. split; [done|]. intros (j & f & _ & H & _). done.
  - rewrite elem_of_app, IH. split.
    + intros [Hin|(j & g & -> & Hj & Hg)]; [|exists (S j), g; split; [lia|done]].
      exists 0%nat, f. unfold variable_field. destruct (sf_dropped f); [by apply elem_of_nil in Hin|].
      destruct (fixed_byte_width _); [by apply elem_of_nil in Hin|]. apply list_elem_of_singleton in Hin as ->.
      split; [lia|done].
    + intros ([|j] & g & -> & Hj & Hg); [|right; exists j, g; split; [lia|done]].
      left. cbn in Hj. injection Hj as ->. destruct Hg as [-> ->]. rewrite Nat.add_0_r. set_solver.
Qed.

Lemma fixed_list_NoDup index fields : NoDup (fixed_list index fields).*1.
Proof.
  revert index. induction fields as [|f fs IH]; intros index; [constructor|]. cbn. rewrite fmap_app, NoDup_app.
  split; [|split; [|apply IH]].
  - destruct (sf_dropped f); [constructor|]. destruct (fixed_byte_width _); [apply NoDup_singleton|constructor].
  - intros i Hi ([j w] & -> & Hj)%list_elem_of_fmap. cbn in Hi.
    apply elem_fixed_list in Hj as (k & g & -> & _). destruct (sf_dropped f); [by apply elem_of_nil in Hi|].
    destruct (fixed_byte_width _); [|by apply elem_of_nil in Hi]. apply list_elem_of_singleton in Hi. cbn in Hi. lia.
Qed.

Lemma variable_list_NoDup index fields : NoDup (variable_list index fields).
Proof.
  revert index. induction fields as [|f fs IH]; intros index; [constructor|]. cbn. rewrite NoDup_app.
  split; [|split; [|apply IH]].
  - destruct (sf_dropped f); [constructor|]. destruct (fixed_byte_width _); [constructor|apply NoDup_singleton].
  - intros i Hi (k & g & -> & _)%elem_variable_list. destruct (sf_dropped f); [by apply elem_of_nil in Hi|].
    destruct (fixed_byte_width _); [by apply elem_of_nil in Hi|]. apply list_elem_of_singleton in Hi. lia.
Qed.

(** What the pass over the fields collects. *)
Record pass_inv (n index : nat) (p : LayoutPass) : Prop := {
  pi_slots_length : length (lp_variable_slots p) = n;
  pi_encodings_length : length (lp_fixed_encodings p) = n;
  pi_below : Forall (fun i => i < index)%nat (lp_variable_ordinals p);
  pi_slots : forall k i, lp_variable_ordinals p !! k = Some i -> lp_variable_slots p !! i = Some (Some k)
}.

Lemma layout_fields_spec n : forall fields index p,
  pass_inv n index p -> (index + length fields = n)%nat ->
  let q := layout_fields p index fields in
  pass_inv n n q /\
  lp_fixed_candidates q = lp_fixed_candidates p ++ fixed_list index fields /\
  lp_variable_ordinals q = lp_variable_ordinals p ++ variable_list index fields /\
  (forall j f w, fields !! j = Some f -> fixed_field f w -> lp_fixed_encodings q !! (index + j)%nat = Some (for_type (sf_data_type f))) /\
  (forall i, (i < index)%nat -> lp_fixed_encodings q !! i = lp_fixed_encodings p !! i).
Proof.
  induction fields as [|f fs IH]; intros index p Hp Hn q.
  { subst q. cbn in Hn |- *. rewrite !app_nil_r. split; [|done]. replace n with index by lia. destruct Hp as [H1 H2 H3 H4].
    constructor; try done. all: lia. }
  cbn [length] in Hn. assert (pass_inv n (S index) (layout_field p index f)) as Hstep.
  { destruct Hp as [H1 H2 H3 H4]. unfold layout_field. destruct (sf_dropped f); [|destruct (fixed_byte_width _)].
    - constructor; try done. eapply Forall_impl; [exact H3|]. cbn. lia.
    - constructor; cbn; try done; [by rewrite length_insert|]. eapply Forall_impl; [exact H3|]. cbn. lia.
    - constructor; cbn; try done; [by rewrite length_insert| |].
      + apply Forall_app. split; [|by constructor; [lia|]]. eapply Forall_impl; [exact H3|]. cbn. lia.
      + intros k i Hk. apply lookup_app_Some in Hk as [Hk|[Hk1 Hk2]].
        * rewrite list_lookup_insert_ne; [by apply H4|]. rewrite Forall_forall in H3. apply list_elem_of_lookup_2, H3 in Hk. lia.
        * apply list_lookup_singleton_Some in Hk2 as [Hk <-]. replace k with (length (lp_variable_ordinals p)) by lia.
          apply list_lookup_insert_eq. lia. }
  destruct (IH (S index) _ Hstep ltac:(lia)) as (Hq & Hc & Hv & Henc & Hbelow).
  change (layout_fields (layout_field p index f) (S index) fs) with q in *.
  split; [done|]. rewrite Hc, Hv. cbn [fixed_list variable_list]. split; [|split; [|split]].
  - unfold layout_field. destruct (sf_dropped f); [done|]. destruct (fixed_byte_width _); [|done]. cbn. by rewrite <- app_assoc.
  - unfold layout_field. destruct (sf_dropped f); [done|]. destruct (fixed_byte_width _); [done|]. cbn. by rewrite <- app_assoc.
  - intros [|j] g w Hj Hg; [|rewrite <- Nat.add_succ_comm; by eapply Henc]. cbn in Hj. injection Hj as ->. rewrite Nat.add_0_r.
    rewrite Hbelow by lia. unfold layout_field. destruct Hg as [-> ->]. cbn. apply list_lookup_insert_eq.
    rewrite (pi_encodings_length _ _ _ Hp). lia.
  - intros i Hi. rewrite Hbelow by lia. unfold layout_field. destruct (sf_dropped f); [done|]. destruct (fixed_byte_width _); [|done].
    cbn. by rewrite list_lookup_insert_ne by lia.
Qed.

Fixpoint total_width (cands : list (nat * nat)) : nat :=
  match cands with [] => 0%nat | c :: cs => (c.2 + total_width cs)%nat end.

Lemma place_fixed_spec cands : forall offs off,
  NoDup cands.*1 ->
  (foldl place_fixed (offs, off) cands).2 = (off + total_width cands)%nat /\
  length (foldl place_fixed (offs, off) cands).1 = length offs /\
  (forall i, i ∉ cands.*1 -> (foldl place_fixed (offs, off) cands).1 !! i = offs !! i) /\
  (forall l1 i w l2, cands = l1 ++ (i, w) :: l2 -> (i < length offs)%nat ->
    (foldl place_fixed (offs, off) cands).1 !! i = Some (Some ((off + total_width l1)%nat, w))).
Proof.
  induction cands as [|[i w] cs IH]; intros offs off Hnd.
  { cbn. split_and!; [lia|done|done|]. by intros [] ? ? ?. }
  cbn in Hnd. apply NoDup_cons in Hnd as [Hi Hnd].
  change (foldl place_fixed (offs, off) ((i, w) :: cs)) with (foldl place_fixed (<[i:=Some (off, w)]> offs, (off + w)%nat) cs).
  destruct (IH (<[i:=Some (off, w)]> offs) (off + w)%nat Hnd) as (Htot & Hlen & Hother & Hplace).
  rewrite Htot, Hlen, length_insert. split_and!; [cbn; lia|done| |].
  - intros j Hj. cbn in Hj. rewrite Hother by set_solver. apply list_lookup_insert_ne. set_solver.
  - intros [|[i' w'] l1] j v l2 Heq Hj; cbn in Heq; injection Heq as -> -> Heq.
    + rewrite Hother by done. cbn. rewrite Nat.add_0_r. by apply list_lookup_insert_eq.
    + rewrite (Hplace l1 j v l2 Heq) by (by rewrite length_insert). cbn. do 3 f_equal. lia.
Qed.

Definition candidates (fields : list StorageField) : list (nat * nat) := sort_by widest_first (fixed_list 0 fields).

Record layout_spec (fields : list StorageField) (l : StorageVersionLayout) : Prop := {
  ls_span : slot_span l = length fields;
  ls_region : fixed_region_len l = total_width (candidates fields);
  ls_variable : variable_ordinals l = variable_list 0 fields;
  ls_offset : forall l1 i w l2, candidates fields = l1 ++ (i, w) :: l2 -> fixed_offsets l !! i = Some (Some (total_width l1, w));
  ls_no_offset : forall i f, fields !! i = Some f -> (forall w, ~ fixed_field f w) -> fixed_offsets l !! i = Some None;
  ls_encoding : forall i f w, fields !! i = Some f -> fixed_field f w -> fixed_encodings l !! i = Some (for_type (sf_data_type f));
  ls_slot : forall k i, variable_list 0 fields !! k = Some i -> variable_slot_for_ordinal l !! i = Some (Some k)
}.

Lemma elem_candidates fields i w :
  (i, w) ∈ candidates fields <-> exists f, fields !! i = Some f /\ fixed_field f w.
Proof.
  unfold candidates. rewrite sort_by_perm, elem_fixed_list. split.
  - intros (j & f & -> & Hj & Hf). by exists f.
  - intros (f & Hi & Hf). by exists i, f.
Qed.

Lemma candidates_NoDup fields : NoDup (candidates fields).*1.
Proof. unfold candidates. rewrite sort_by_perm. apply fixed_list_NoDup. Qed.

Lemma compute_spec fields : layout_spec fields (compute fields).
Proof.
  destruct (layout_fields_spec (length fields) fields 0 (mkPass [] [] (replicate (length fields) None) (replicate (length fields) None)))
    as (Hinv & Hc & Hv & Henc & _); [|done|].
  { by constructor; cbn; rewrite ?length_replicate. }
  cbn in Hc, Hv. unfold compute. set (p := layout_fields _ 0 fields) in *. rewrite Hc. fold (candidates fields).
  destruct (place_fixed_spec (candidates fields) (replicate (length fields) None) 0 (candidates_NoDup fields)) as (Htot & Hlen & Hother & Hplace).
  destruct (foldl place_fixed _ _) as [offsets region]. cbn in Htot, Hlen, Hother, Hplace. rewrite length_replicate in *.
  constructor; cbn [slot_span fixed_region_len variable_ordinals fixed_offsets fixed_encodings variable_slot_for_ordinal].
  - done.
  - lia.
  - done.
  - intros l1 i w l2 Heq. rewrite (Hplace l1 i w l2 Heq); [done|].
    assert ((i, w) ∈ candidates fields) as (f & Hi & _)%elem_candidates by (rewrite Heq; set_solver).
    by apply lookup_lt_Some in Hi.
  - intros i f Hi Hf. rewrite Hother.
    + apply lookup_replicate_2. by apply lookup_lt_Some in Hi.
    + intros ([j w] & -> & (g & Hg & Hw)%elem_candidates)%list_elem_of_fmap. cbn in Hi. apply (Hf w). congruence.
  - intros i f w Hi Hf. by apply (Henc i f w).
  - intros k i Hk. apply (pi_slots _ _ _ Hinv). by rewrite Hv.
Qed.

(** The region holds one chunk per candidate. *)
Definition region (chunk : nat -> nat -> list Z) (cands : list (nat * nat)) : list Z :=
  concat (map (fun c => chunk c.1 c.2) cands).

Lemma region_app chunk l1 l2 : region chunk (l1 ++ l2) = region chunk l1 ++ region chunk l2.
Proof. unfold region. by rewrite map_app, concat_app. Qed.

Lemma region_middle chunk l1 i w l2 : region chunk (l1 ++ (i, w) :: l2) = region chunk l1 ++ chunk i w ++ region chunk l2.
Proof. by rewrite region_app. Qed.

Lemma region_length chunk cands :
  (forall i w, (i, w) ∈ cands -> length (chunk i w) = w) -> length (region chunk cands) = total_width cands.
Proof.
  unfold region. induction cands as [|[i w] cs IH]; intros H; [done|]. cbn [map concat total_width fst snd].
  rewrite length_app, IH, H by set_solver. done.
Qed.

Lemma region_ext chunk chunk' cands :
  (forall i w, (i, w) ∈ cands -> chunk i w = chunk' i w) -> region chunk cands = region chunk' cands.
Proof.
  unfold region. induction cands as [|[i w] cs IH]; intros H; [done|]. cbn [map concat fst snd]. rewrite H by set_solver.
  rewrite IH; [done|]. set_solver.
Qed.

Lemma candidate_split (cands : list (nat * nat)) i w : (i, w) ∈ cands -> exists l1 l2, cands = l1 ++ (i, w) :: l2.
Proof. apply list_elem_of_split. Qed.

Lemma region_patch chunk chunk' cands l1 i w l2 b :
  cands = l1 ++ (i, w) :: l2 -> NoDup cands.*1 -> (forall j u, (j, u) ∈ cands -> length (chunk j u) = u) ->
  length b = w -> chunk' i w = b -> (forall j u, j <> i -> chunk' j u = chunk j u) ->
  patch (region chunk cands) (total_width l1) b = region chunk' cands.
Proof.
  intros -> Hnd Hlen Hb Hi Hother. rewrite !region_middle, Hi.
  assert (region chunk' l1 = region chunk l1 /\ region chunk' l2 = region chunk l2) as [-> ->].
  { rewrite fmap_app, fmap_cons in Hnd. apply NoDup_app in Hnd as (_ & Hd & [Hn _]%NoDup_cons).
    split; apply region_ext; intros j u Hj; apply Hother; intros ->.
    - apply (Hd i); [by apply (list_elem_of_fmap_2 fst _ (i, u))|set_solver].
    - apply Hn. by apply (list_elem_of_fmap_2 fst _ (i, u)). }
  rewrite <- (region_length chunk l1); [|intros j u Hj; apply Hlen; set_solver]. apply patch_app.
  rewrite Hlen; [done|]. set_solver.
Qed.

Lemma region_slice chunk cands l1 i w l2 :
  cands = l1 ++ (i, w) :: l2 -> (forall j u, (j, u) ∈ cands -> length (chunk j u) = u) ->
  slice (total_width l1) (total_width l1 + w) (region chunk cands) = chunk i w /\
  (total_width l1 + w <= length (region chunk cands))%nat.
Proof.
  intros -> Hlen. rewrite <- (region_length chunk l1); [|intros j u Hj; apply Hlen; set_solver].
  rewrite region_middle.
  assert (length (chunk i w) = w) as Hw by (apply Hlen; set_solver). split.
  - apply slice_app; lia.
  - rewrite !length_app. lia.
Qed.

(** ** The null bitmap *)

Lemma land_bit x c : 0 <= c -> negb (Z.land x (Z.shiftl 1 c) =? 0) = Z.testbit x c.
Proof.
  intros Hc. rewrite Z.shiftl_1_l. destruct (Z.testbit x c) eqn:E.
  - destruct (Z.eqb_spec (Z.land x (2 ^ c)) 0) as [H|]; [|done].
    assert (Z.testbit (Z.land x (2 ^ c)) c = false) as H' by (rewrite H; apply Z.bits_0).
    rewrite Z.land_spec, E, Z.pow2_bits_true in H' by done. done.
  - replace (Z.land x (2 ^ c)) with 0; [done|]. apply Z.bits_inj'. intros k Hk. rewrite Z.bits_0, Z.land_spec.
    destruct (Z.eq_dec k c) as [->|Hne]; [by rewrite E|]. by rewrite Z.pow2_bits_false, andb_false_r by lia.
Qed.

Lemma bit_set_set bm i j :
  (i / 8 < length bm)%nat -> bit_set (set_bit bm i) j = (i =? j)%nat || bit_set bm j.
Proof.
  intros Hi. unfold bit_set, set_bit. destruct (decide (j / 8 = i / 8)%nat) as [Hd|Hd].
  - rewrite Hd, list_lookup_alter_eq. destruct (lookup_lt_is_Some_2 bm (i / 8)%nat Hi) as [byte ->].
    cbn [fmap option_fmap option_map].
    rewrite !land_bit by lia. rewrite Z.lor_spec, Z.shiftl_1_l.
    pose proof (Nat.div_mod_eq i 8). pose proof (Nat.div_mod_eq j 8).
    destruct (Nat.eqb_spec i j) as [->|Hne].
    + rewrite Z.pow2_bits_true by lia. by rewrite orb_true_r.
    + rewrite Z.pow2_bits_false; [by rewrite orb_false_r|]. intros E%Nat2Z.inj. lia.
  - rewrite list_lookup_alter_ne by done. destruct (Nat.eqb_spec i j) as [->|]; done.
Qed.

Lemma bit_set_zero n j : bit_set (replicate n 0) j = false.
Proof.
  unfold bit_set. destruct (replicate n 0 !! (j / 8)%nat) as [x|] eqn:E; [|done].
  apply lookup_replicate in E as [-> _]. by rewrite Z.land_0_l.
Qed.

(** ** Writing a v2 body *)

Lemma normalize_null t v : is_null (normalize t v) = is_null v.
Proof.
  destruct (is_null v) eqn:Hn.
  - assert (normalize t v = null_for_type t) as -> by (by destruct t; cbn; rewrite Hn). apply null_is_null.
  - destruct t, v; cbn in Hn |- *; rewrite ?Hn; cbn; try done; destruct v || destruct cell as [[]|] || destruct cell; try done.
Qed.

Definition column_null (values : RowValues) (index : nat) (field : StorageField) : bool :=
  sf_dropped field || value_is_null (field_value values field index).

Lemma stored_null values index field : is_null (stored_value values index field) = column_null values index field.
Proof.
  unfold stored_value, column_null. destruct (sf_dropped field); [apply null_is_null|].
  destruct (field_value values field index); cbn; [apply normalize_null|apply null_is_null].
Qed.

Lemma stored_null_typed values index field :
  column_null values index field = true -> typed (sf_data_type field) (stored_value values index field).
Proof.
  unfold stored_value, column_null. destruct (sf_dropped field); [intros _; apply null_typed|]. cbn.
  destruct (field_value values field index) as [v|]; cbn; [|intros _; apply null_typed]. intros Hn.
  assert (normalize (sf_data_type field) v = null_for_type (sf_data_type field)) as ->; [|apply null_typed].
  by destruct (sf_data_type field); cbn; rewrite Hn.
Qed.

(** The bytes before the content of a fixed-width value. *)
Definition fixed_head (e : FixedValueEncoding) : list Z :=
  if fe_tag e =? TAG_DECIMAL128 then [fe_tag e; fe_precision e; fe_scale e mod 256] else [fe_tag e].

Definition fixed_chunk (v : ScalarValue) (w : nat) : list Z := drop (length (wire v) - w) (wire v).

Definition variable_bytes (v : ScalarValue) : list Z :=
  match v with
  | VUtf8 (Some s) => bytes_of_string s
  | VBinary (Some b) => b
  | _ => wire v
  end.

Lemma fixed_encoded t v w b :
  type_ok t -> well_formed v -> fixed_byte_width t = Some w -> encode_fixed_value v t = Ok b ->
  typed t (normalize t v) /\ b = fixed_chunk (normalize t v) w.
Proof.
  intros Ht Hv Hw He. unfold fixed_chunk.
  destruct t; try discriminate Hw; injection Hw as <-; destruct v; try discriminate He;
    try (destruct v as [x|]; [|discriminate He]); try (destruct bits as [x|]; [|discriminate He]); cbn in Hv.
  all: try (apply Ok_inj in He; subst b; split; [done|]; cbn [normalize is_null none wire];
    cbn [length]; rewrite ?to_le_length; try done).
  cbn in He. destruct (Z.eqb_spec precision0 precision) as [->|]; [|done]. destruct (Z.eqb_spec scale0 scale) as [->|]; [|done].
  apply Ok_inj in He as <-. split; [done|]. cbn [normalize is_null none wire length].
  rewrite length_app, !to_le_length. change (S (S (1 + 16)) - 16)%nat with 3%nat. cbn [drop]. symmetry. by apply drop_app_n.
Qed.

Lemma fixed_wire t v w :
  type_ok t -> typed t v -> is_null v = false -> fixed_byte_width t = Some w ->
  exists e, for_type t = Some e /\ wire v = fixed_head e ++ fixed_chunk v w /\ length (fixed_chunk v w) = w /\
    decode_fixed_value (fixed_chunk v w) t = Ok v.
Proof.
  intros Ht Hv Hn Hw. unfold fixed_chunk, fixed_head.
  destruct t; try discriminate Hw; injection Hw as <-; destruct v; try done;
    try (destruct v as [x|]; [|discriminate Hn]); try (destruct bits as [x|]; [|discriminate Hn]); cbn in Hv;
    try (match type of Hv with _ = None /\ _ => destruct Hv as [-> Hv] end);
    (eexists; split; [reflexivity|]); cbn [wire]; cbn [length]; rewrite ?to_le_length.
  all: try (split; [done|]; split; [by rewrite length_drop; cbn [length]; rewrite ?to_le_length|];
    unfold decode_fixed_value; change (drop _ (_ :: ?l)) with l; rewrite ?signed_le_to_le, ?from_le_to_le by done; done).
  - by destruct x.
  - destruct Hv as (-> & -> & Hx). rewrite length_app, !to_le_length. change (S (S (1 + 16)) - 16)%nat with 3%nat.
    cbn [drop fe_tag fe_precision fe_scale]. change (TAG_DECIMAL128 =? TAG_DECIMAL128) with true. cbv iota.
    rewrite (drop_app_n 1) by apply to_le_length. split; [|split; [apply to_le_length|]].
    + unfold to_le at 1. cbn [le_bytes byte_modulus app]. change (byte_modulus 1) with 256. by rewrite Z.mod_mod.
    + unfold decode_fixed_value. by rewrite signed_le_to_le.
Qed.

Lemma variable_encoded t v b :
  type_ok t -> well_formed v -> fixed_byte_width t = None -> is_null v = false -> encode_variable_value_v2 v t = Ok b ->
  typed t (normalize t v) /\ b = variable_bytes (normalize t v).
Proof.
  intros Ht Hv Hw Hn He. destruct t; try discriminate Hw.
  - destruct v; try discriminate He; destruct v as [x|]; try discriminate Hn; by apply Ok_inj in He as <-.
  - destruct v; try discriminate He; destruct v as [x|]; try discriminate Hn; by apply Ok_inj in He as <-.
  - cbn in He. apply value_encoded in He as [Hty ->]; [|done..]. split; [done|].
    destruct (normalize _ v); try done; destruct v0; done.
  - cbn in He. apply value_encoded in He as [Hty ->]; [|done..]. split; [done|].
    destruct (normalize _ v); try done; destruct v0; done.
  - cbn in He. apply value_encoded in He as [Hty ->]; [|done..]. split; [done|].
    destruct (normalize _ v); try done; destruct v0; done.
Qed.

Definition stored_at (values : RowValues) (fields : list StorageField) (i : nat) : ScalarValue :=
  default VNull (stored_values values 0 fields !! i).

Lemma stored_at_field values fields i f : fields !! i = Some f -> stored_at values fields i = stored_value values i f.
Proof. intros Hi. unfold stored_at. by rewrite (stored_values_lookup _ _ _ _ _ Hi). Qed.

(** The chunk of a candidate once the fields below [k] are written. *)
Definition chunk_below (values : RowValues) (fields : list StorageField) (k i w : nat) : list Z :=
  if (i <? k)%nat && negb (is_null (stored_at values fields i)) then fixed_chunk (stored_at values fields i) w else replicate w 0.

Record pass1 (values : RowValues) (fields : list StorageField) (k : nat) (sc : V2Scratch) (has : bool) : Prop := {
  p1_bits : forall i f, fields !! i = Some f -> bit_set (sc_bitmap sc) i = (i <? k)%nat && is_null (stored_at values fields i);
  p1_bitmap : length (sc_bitmap sc) = ((length fields + 7) / 8)%nat;
  p1_fixed : sc_fixed sc = region (chunk_below values fields k) (candidates fields);
  p1_var : sc_var_data sc = [] /\ sc_var_ends sc = [];
  p1_has : has = false -> forall i f, (i < k)%nat -> fields !! i = Some f -> is_null (stored_at values fields i) = false;
  p1_typed : forall i f w, (i < k)%nat -> fields !! i = Some f -> fixed_field f w -> typed (sf_data_type f) (stored_at values fields i)
}.

Lemma chunk_length values fields k :
  fields_ok fields ->
  (forall i f w, (i < k)%nat -> fields !! i = Some f -> fixed_field f w -> typed (sf_data_type f) (stored_at values fields i)) ->
  forall i w, (i, w) ∈ candidates fields -> length (chunk_below values fields k i w) = w.
Proof.
  intros Hok Hty i w (f & Hf & Hfix)%elem_candidates. unfold chunk_below. destruct (Nat.ltb_spec i k) as [Hi|]; cbn [andb].
  - destruct (is_null (stored_at values fields i)) eqn:Hn; cbn [negb]; [apply length_replicate|].
    destruct (fixed_wire (sf_data_type f) (stored_at values fields i) w) as (e & _ & _ & Hlen & _); [| |done|by destruct Hfix|done].
    + unfold fields_ok in Hok. rewrite Forall_forall in Hok. by eapply Hok, list_elem_of_lookup_2.
    + by eapply Hty.
  - apply length_replicate.
Qed.

Lemma div8_below i n : (i < n)%nat -> (i / 8 < (n + 7) / 8)%nat.
Proof.
  intros H. pose proof (Nat.div_mod_eq i 8). pose proof (Nat.mod_upper_bound i 8). pose proof (Nat.div_mod_eq (n + 7) 8).
  pose proof (Nat.mod_upper_bound (n + 7) 8). lia.
Qed.

Lemma first_pass_null values fields k f sc has :
  fields !! k = Some f -> column_null values k f = true -> pass1 values fields k sc has ->
  pass1 values fields (S k) (mkScratch (set_bit (sc_bitmap sc) k) (sc_fixed sc) (sc_var_data sc) (sc_var_ends sc)) true.
Proof.
  intros Hf Hn [Hbits Hlen Hfix Hvar Hhas Hty]. pose proof (lookup_lt_Some _ _ _ Hf) as Hk.
  assert (is_null (stored_at values fields k) = true) as Hnull by (rewrite (stored_at_field _ _ _ _ Hf), stored_null; done).
  constructor; cbn [sc_bitmap sc_fixed sc_var_data sc_var_ends]; try done.
  - intros i g Hi. rewrite bit_set_set, (Hbits i g Hi) by (rewrite Hlen; by apply div8_below).
    destruct (Nat.eqb_spec k i) as [<-|Hne].
    + destruct (Nat.ltb_spec k (S k)); [|lia]. by rewrite Hnull.
    + cbn [orb]. destruct (Nat.ltb_spec i k), (Nat.ltb_spec i (S k)); try lia; done.
  - unfold set_bit. by rewrite length_alter.
  - rewrite Hfix. apply region_ext. intros i w Hi. unfold chunk_below. destruct (Nat.eq_dec i k) as [->|Hne].
    + rewrite Hnull. cbn [negb]. by rewrite !andb_false_r.
    + destruct (Nat.ltb_spec i k), (Nat.ltb_spec i (S k)); try lia; done.
  - intros i g w Hi Hg Hfixed. destruct (Nat.eq_dec i k) as [->|Hne]; [|apply (Hty i g w); [lia|done..]].
    rewrite (stored_at_field _ _ _ _ Hg). apply stored_null_typed. congruence.
Qed.

Lemma pass1_skip values fields k f sc has :
  fields !! k = Some f -> column_null values k f = false -> (forall w, ~ fixed_field f w) ->
  pass1 values fields k sc has -> pass1 values fields (S k) sc has.
Proof.
  intros Hf Hn Hnf [Hbits Hlen Hfix Hvar Hhas Hty].
  assert (is_null (stored_at values fields k) = false) as Hnull by (rewrite (stored_at_field _ _ _ _ Hf), stored_null; done).
  constructor; try done.
  - intros i g Hi. rewrite (Hbits i g Hi). destruct (Nat.eq_dec i k) as [->|Hne]; [by rewrite Hnull, !andb_false_r|].
    destruct (Nat.ltb_spec i k), (Nat.ltb_spec i (S k)); try lia; done.
  - rewrite Hfix. apply region_ext. intros i w (g & Hg & Hw)%elem_candidates. unfold chunk_below.
    destruct (Nat.eq_dec i k) as [->|Hne]; [exfalso; apply (Hnf w); congruence|].
    destruct (Nat.ltb_spec i k), (Nat.ltb_spec i (S k)); try lia; done.
  - intros Hh i g Hi Hg. destruct (Nat.eq_dec i k) as [->|Hne]; [done|]. apply (Hhas Hh i g); [lia|done].
  - intros i g w Hi Hg Hw. destruct (Nat.eq_dec i k) as [->|Hne]; [exfalso; apply (Hnf w); congruence|].
    apply (Hty i g w); [lia|done..].
Qed.

Lemma pass1_fixed values fields k f w v b sc has l1 l2 :
  fields_ok fields -> values_ok values -> fields !! k = Some f -> fixed_field f w -> field_value values f k = Some v ->
  is_null v = false -> encode_fixed_value v (sf_data_type f) = Ok b -> candidates fields = l1 ++ (k, w) :: l2 ->
  pass1 values fields k sc has ->
  pass1 values fields (S k) (mkScratch (sc_bitmap sc) (patch (sc_fixed sc) (total_width l1) b) (sc_var_data sc) (sc_var_ends sc)) has.
Proof.
  intros Hok Hvok Hf Hfix Hv Hn He Hsplit [Hbits Hlen Hreg Hvar Hhas Hty].
  pose proof Hok as Hok'. unfold fields_ok in Hok'. rewrite Forall_forall in Hok'.
  apply (fixed_encoded _ _ w) in He as [Htyped ->];
    [|by eapply Hok', list_elem_of_lookup_2|by eapply field_value_ok|by destruct Hfix].
  assert (stored_at values fields k = normalize (sf_data_type f) v) as Hst.
  { rewrite (stored_at_field _ _ _ _ Hf). unfold stored_value. destruct Hfix as [-> _]. by rewrite Hv. }
  assert (is_null (stored_at values fields k) = false) as Hnull by (by rewrite Hst, normalize_null).
  assert (forall i g u, (i < S k)%nat -> fields !! i = Some g -> fixed_field g u -> typed (sf_data_type g) (stored_at values fields i)) as Hty'.
  { intros i g u Hi Hg Hu. destruct (Nat.eq_dec i k) as [->|Hne]; [|apply (Hty i g u); [lia|done..]].
    rewrite Hst. replace g with f by congruence. done. }
  constructor; cbn [sc_bitmap sc_fixed sc_var_data sc_var_ends]; try done.
  - intros i g Hi. rewrite (Hbits i g Hi). destruct (Nat.eq_dec i k) as [->|Hne]; [by rewrite Hnull, !andb_false_r|].
    destruct (Nat.ltb_spec i k), (Nat.ltb_spec i (S k)); try lia; done.
  - rewrite Hreg. apply (region_patch _ _ _ _ k w l2); [done|apply candidates_NoDup|by apply chunk_length| | |].
    + destruct (fixed_wire (sf_data_type f) (normalize (sf_data_type f) v) w) as (e & _ & _ & Hl & _); [| |by rewrite normalize_null|by destruct Hfix|done].
      * by eapply Hok', list_elem_of_lookup_2.
      * done.
    + unfold chunk_below. destruct (Nat.ltb_spec k (S k)); [|lia]. by rewrite Hnull, Hst.
    + intros j u Hj. unfold chunk_below. destruct (Nat.ltb_spec j k), (Nat.ltb_spec j (S k)); try lia; done.
  - intros Hh i g Hi Hg. destruct (Nat.eq_dec i k) as [->|Hne]; [done|]. apply (Hhas Hh i g); [lia|done].
Qed.

Lemma first_pass_loop values fields layout sc has : forall rest k sc0 has0,
  fields_ok fields -> values_ok values -> layout_spec fields layout -> drop k fields = rest -> (k <= length fields)%nat ->
  pass1 values fields k sc0 has0 -> each_field (first_pass layout values) (sc0, has0) k rest = Ok (sc, has) ->
  pass1 values fields (length fields) sc has.
Proof.
  induction rest as [|f rest IH]; intros k sc0 has0 Hok Hv Hl Hdrop Hk Hp Hrun.
  - injection Hrun as <- <-. apply (f_equal length) in Hdrop. rewrite length_drop in Hdrop. cbn in Hdrop.
    by replace (length fields) with k by lia.
  - assert (fields !! k = Some f) as Hf by (rewrite <- (Nat.add_0_r k), <- lookup_drop, Hdrop; done).
    assert (drop (S k) fields = rest) as Hdrop'. { rewrite <- Nat.add_1_r, <- drop_drop, Hdrop. done. }
    cbn [each_field] in Hrun. apply result_bind_ok in Hrun as ([sc1 has1] & Hstep & Hrun).
    eapply (IH (S k)); [done..|by apply lookup_lt_Some in Hf| |exact Hrun]. unfold first_pass in Hstep. fold (column_null values k f) in Hstep.
    destruct (column_null values k f) eqn:Hn.
    { injection Hstep as <- <-. by eapply first_pass_null. }
    pose proof Hn as Hn'. unfold column_null in Hn'. apply orb_false_iff in Hn' as [Hdr Hnull].
    destruct (field_value values f k) as [v|] eqn:Hfv; [|done]. cbn in Hnull.
    destruct (fixed_byte_width (sf_data_type f)) as [w|] eqn:Hw.
    + destruct (candidate_split (candidates fields) k w) as (l1 & l2 & Hsplit); [apply elem_candidates; by exists f|].
      rewrite (ls_offset _ _ Hl _ _ _ _ Hsplit) in Hstep. apply result_bind_ok in Hstep as (b & Hb & [= <- <-]).
      by eapply pass1_fixed.
    + rewrite (ls_no_offset _ _ Hl k f Hf) in Hstep by (intros u [_ Hu]; congruence). injection Hstep as <- <-.
      eapply pass1_skip; [done..| |done]. intros u [_ Hu]. congruence.
Qed.

Definition piece (values : RowValues) (fields : list StorageField) (i : nat) : list Z :=
  if is_null (stored_at values fields i) then [] else variable_bytes (stored_at values fields i).

(** Where each piece ends. *)
Fixpoint ends_from (base : nat) (pieces : list (list Z)) : list Z :=
  match pieces with
  | [] => []
  | p :: ps => Z.of_nat (base + length p) :: ends_from (base + length p) ps
  end.

Lemma second_passes_spec s values : forall os sc sc',
  fields_ok (ss_fields s) -> values_ok values ->
  (forall i f, ss_fields s !! i = Some f -> bit_set (sc_bitmap sc) i = is_null (stored_at values (ss_fields s) i)) ->
  (forall i, i ∈ os -> exists f, ss_fields s !! i = Some f /\ variable_field f) ->
  second_passes s values sc os = Ok sc' ->
  let ps := map (piece values (ss_fields s)) os in
  sc' = mkScratch (sc_bitmap sc) (sc_fixed sc) (sc_var_data sc ++ concat ps) (sc_var_ends sc ++ ends_from (length (sc_var_data sc)) ps) /\
  (os <> [] -> Z.of_nat (length (sc_var_data sc ++ concat ps)) <= u32_max) /\
  (forall i f, i ∈ os -> ss_fields s !! i = Some f -> typed (sf_data_type f) (stored_at values (ss_fields s) i)).
Proof.
  induction os as [|o os IH]; intros sc sc' Hok Hv Hbits Hos Hrun ps.
  { injection Hrun as <-. subst ps. cbn. rewrite !app_nil_r. split; [by destruct sc|]. split; [done|]. intros i f Hi. by apply elem_of_nil in Hi. }
  cbn [second_passes] in Hrun. apply result_bind_ok in Hrun as (sc1 & Hstep & Hrun).
  destruct (Hos o ltac:(set_solver)) as (f & Hf & Hvar). unfold second_pass in Hstep. rewrite Hf, (Hbits o f Hf) in Hstep.
  assert (type_ok (sf_data_type f)) as Htok.
  { unfold fields_ok in Hok. rewrite Forall_forall in Hok. by eapply Hok, list_elem_of_lookup_2. }
  assert (typed (sf_data_type f) (stored_at values (ss_fields s) o) /\ Z.of_nat (length (sc_var_data sc ++ piece values (ss_fields s) o)) <= u32_max /\
    sc1 = mkScratch (sc_bitmap sc) (sc_fixed sc) (sc_var_data sc ++ piece values (ss_fields s) o)
      (sc_var_ends sc ++ [Z.of_nat (length (sc_var_data sc) + length (piece values (ss_fields s) o))])) as (Hty & Hmax & ->).
  { unfold piece. destruct (is_null (stored_at values (ss_fields s) o)) eqn:Hn.
    - cbn [result_bind] in Hstep. destruct (Z.leb_spec (Z.of_nat (length (sc_var_data sc))) u32_max) as [Hle|]; [|done].
      injection Hstep as <-. cbn [length]. rewrite app_nil_r, Nat.add_0_r. split; [|done].
      rewrite (stored_at_field _ _ _ _ Hf) in Hn |- *. apply stored_null_typed. by rewrite <- stored_null.
    - destruct (field_value values f o) as [v|] eqn:Hfv; [|done].
      apply result_bind_ok in Hstep as (data & (b & Hb & [= <-])%result_bind_ok & Hstep).
      assert (stored_at values (ss_fields s) o = normalize (sf_data_type f) v) as Hst.
      { rewrite (stored_at_field _ _ _ _ Hf). unfold stored_value. destruct Hvar as [-> _]. by rewrite Hfv. }
      apply variable_encoded in Hb as [Hty ->]; [|done|by eapply field_value_ok|by destruct Hvar|by rewrite <- (normalize_null (sf_data_type f)), <- Hst].
      rewrite Hst in *. rewrite length_app in *.
      destruct (Z.leb_spec (Z.of_nat (length (sc_var_data sc) + length (variable_bytes (normalize (sf_data_type f) v)))) u32_max) as [Hle|]; [|done].
      by injection Hstep as <-. }
  apply IH in Hrun as (-> & Hdata & Htys); [|done..|intros i Hi; apply Hos; set_solver].
  cbn [sc_bitmap sc_fixed sc_var_data sc_var_ends] in *. subst ps. cbn [map concat ends_from]. split; [|split].
  - f_equal; [by rewrite app_assoc|]. rewrite <- app_assoc, length_app. done.
  - intros _. rewrite app_assoc. destruct os as [|o' os']; [cbn; by rewrite app_nil_r|]. by apply Hdata.
  - intros i g [->|Hi]%elem_of_cons Hg; [by replace g with f by congruence|]. by apply Htys.
Qed.

(** ** Reading a v2 body *)

Lemma ends_lookup base ps k e : ends_from base ps !! k = Some e ->
  exists p, ps !! k = Some p /\ e = Z.of_nat (base + length (concat (take k ps)) + length p).
Proof.
  revert base k. induction ps as [|p ps IH]; intros base [|k]; cbn; try done.
  - intros [= <-]. exists p. split; [done|]. lia.
  - intros (q & Hq & ->)%IH. exists q. split; [done|]. rewrite length_app. lia.
Qed.

Lemma ends_length base ps : length (ends_from base ps) = length ps.
Proof. revert base. induction ps as [|p ps IH]; intros base; [done|]. cbn. by rewrite IH. Qed.

Lemma ends_bound base ps : Forall (fun e => Z.of_nat base <= e <= Z.of_nat (base + length (concat ps))) (ends_from base ps).
Proof.
  revert base. induction ps as [|p ps IH]; intros base; cbn; [constructor|]. rewrite length_app. constructor; [lia|].
  eapply Forall_impl; [apply IH|]. cbn. lia.
Qed.

Lemma ends_last base ps : ps <> [] -> last (ends_from base ps) = Some (Z.of_nat (base + length (concat ps))).
Proof.
  revert base. induction ps as [|p ps IH]; intros base Hne; [done|]. cbn [ends_from concat]. destruct ps as [|q ps].
  - cbn. by rewrite app_nil_r.
  - rewrite last_cons, IH by done. rewrite length_app. do 2 f_equal. lia.
Qed.

Lemma var_end_read w ends k e :
  (w = 1 \/ w = 2 \/ w = 4)%nat -> Forall (u_range w) ends -> ends !! k = Some e ->
  read_var_end_offset (concat (to_le w <$> ends)) w k = Z.to_nat e.
Proof.
  intros Hw Hr Hk. assert (slice (k * w) (k * w + w) (concat (to_le w <$> ends)) = to_le w e) as Hs.
  { pose proof (take_drop_middle _ _ _ Hk) as Hsplit. rewrite <- Hsplit, fmap_app, concat_app, fmap_cons. cbn [concat].
    apply slice_app; [|by rewrite to_le_length; lia]. rewrite concat_le_length, length_take.
    apply lookup_lt_Some in Hk. lia. }
  unfold read_var_end_offset. rewrite Hs, from_le_to_le; [by destruct Hw as [->|[->| ->]]|].
  rewrite Forall_forall in Hr. by eapply Hr, list_elem_of_lookup_2.
Qed.

Lemma check_ends_ok w ps data_len : forall done_ base,
  (w = 1 \/ w = 2 \/ w = 4)%nat -> base = length (concat done_) -> (length (concat (done_ ++ ps)) = data_len)%nat ->
  Forall (u_range w) (ends_from 0 (done_ ++ ps)) ->
  check_ends (concat (to_le w <$> ends_from 0 (done_ ++ ps))) w data_len (length done_) (length ps) base = Ok data_len.
Proof.
  induction ps as [|p ps IH]; intros done_ base Hw -> Hlen Hr.
  { rewrite app_nil_r in Hlen. cbn. by rewrite Hlen. }
  cbn [length check_ends]. assert (ends_from 0 (done_ ++ p :: ps) !! length done_ = Some (Z.of_nat (length (concat (done_ ++ [p]))))) as Hk.
  { destruct (lookup_lt_is_Some_2 (ends_from 0 (done_ ++ p :: ps)) (length done_)) as [e He];
      [rewrite ends_length, length_app; cbn; lia|]. rewrite He. apply ends_lookup in He as (q & Hq & ->).
    rewrite lookup_app_r, Nat.sub_diag in Hq by lia. injection Hq as <-. rewrite take_app_length, concat_app, length_app. cbn.
    rewrite app_nil_r. done. }
  rewrite (var_end_read _ _ _ _ Hw Hr Hk), Nat2Z.id. rewrite concat_app, length_app in Hlen. rewrite concat_app, length_app.
  cbn [concat] in *. rewrite app_nil_r. rewrite length_app in Hlen.
  destruct (Nat.ltb_spec (length (concat done_) + length p) (length (concat done_))); [lia|].
  destruct (Nat.ltb_spec data_len (length (concat done_) + length p)); [lia|]. cbn [orb].
  replace (done_ ++ p :: ps) with ((done_ ++ [p]) ++ ps) in * by (by rewrite <- app_assoc).
  replace (S (length done_)) with (length (done_ ++ [p])) by (rewrite length_app; cbn; lia).
  apply IH; [done| | |done]; rewrite !concat_app, !length_app; cbn; rewrite ?app_nil_r; lia.
Qed.

Lemma offset_width_ok ps :
  Z.of_nat (length (concat ps)) <= u32_max ->
  let '(code, w) := offset_width (ends_from 0 ps) in
  code ∈ [0; 1; 2; 3] /\ width_of_code code = w /\
  (ps = [] /\ w = 0%nat \/ ps <> [] /\ (w = 1 \/ w = 2 \/ w = 4)%nat /\ Forall (u_range w) (ends_from 0 ps)).
Proof.
  intros Hmax. unfold offset_width. destruct ps as [|p ps]; [split_and!; [set_solver|done|by left]|].
  rewrite ends_last by done. cbn [Nat.add]. set (n := length (concat (p :: ps))) in *.
  pose proof (ends_bound 0 (p :: ps)) as Hb. cbn [Nat.add] in Hb. fold n in Hb.
  assert (forall w, Z.of_nat n < byte_modulus w -> Forall (u_range w) (ends_from 0 (p :: ps))) as Hr.
  { intros w Hw. eapply Forall_impl; [exact Hb|]. unfold u_range. intros e He. cbn beta in He. lia. }
  unfold u16_max, u32_max in *.
  destruct (Z.leb_spec (Z.of_nat n) 255); [|destruct (Z.leb_spec (Z.of_nat n) (2 ^ 16 - 1))];
    (split; [set_solver|split; [done|right; split; [done|split; [lia|apply Hr]]]]).
  - change (byte_modulus 1) with 256. lia.
  - change (byte_modulus 2) with 65536. lia.
  - change (byte_modulus 4) with 4294967296. lia.
Qed.

Definition v2_flags (code : Z) (has_null : bool) : Z :=
  Z.lor (Z.land (Z.shiftl code V2_ROW_FLAG_OFFSET_WIDTH_SHIFT) V2_ROW_FLAG_OFFSET_WIDTH_MASK)
    (if has_null then V2_ROW_FLAG_NULL_BITMAP else 0).

Lemma v2_flags_read code has_null : code ∈ [0; 1; 2; 3] ->
  0 <= v2_flags code has_null < 256 /\ unsupported (v2_flags code has_null) V2_ROW_FLAG_SUPPORTED_MASK = false /\
  has_flag (v2_flags code has_null) V2_ROW_FLAG_DELETED = false /\
  has_flag (v2_flags code has_null) V2_ROW_FLAG_NULL_BITMAP = has_null /\
  Z.shiftr (Z.land (v2_flags code has_null) V2_ROW_FLAG_OFFSET_WIDTH_MASK) V2_ROW_FLAG_OFFSET_WIDTH_SHIFT = code.
Proof.
  intros Hc. repeat (apply elem_of_cons in Hc as [->|Hc]; [by destruct has_null|]). by apply elem_of_nil in Hc.
Qed.

(** What a v2 body of live columns holds. *)
Record v2_row (s : StorageSchema) (values : RowValues) (bitmap : list Z) (has_null : bool) : Prop := {
  v2_bits : forall i f, ss_fields s !! i = Some f -> bit_set bitmap i = is_null (stored_at values (ss_fields s) i);
  v2_bitmap : length bitmap = ((length (ss_fields s) + 7) / 8)%nat;
  v2_no_null : has_null = false -> forall i f, ss_fields s !! i = Some f -> is_null (stored_at values (ss_fields s) i) = false;
  v2_typed : forall i f, ss_fields s !! i = Some f -> typed (sf_data_type f) (stored_at values (ss_fields s) i);
  v2_span : Z.of_nat (length (ss_fields s)) <= u16_max;
  v2_data : Z.of_nat (length (concat (map (piece values (ss_fields s)) (variable_list 0 (ss_fields s))))) <= u32_max
}.

Definition v2_region (s : StorageSchema) (values : RowValues) : list Z :=
  region (chunk_below values (ss_fields s) (length (ss_fields s))) (candidates (ss_fields s)).

Definition v2_pieces (s : StorageSchema) (values : RowValues) : list (list Z) :=
  map (piece values (ss_fields s)) (variable_list 0 (ss_fields s)).

Definition v2_payload (s : StorageSchema) (values : RowValues) (bitmap : list Z) (has_null : bool) : list Z :=
  let ends := ends_from 0 (v2_pieces s values) in
  let '(code, w) := offset_width ends in
  to_le 2 (ss_version s) ++ [v2_flags code has_null] ++ to_le 2 (Z.of_nat (length (ss_fields s))) ++
  (if has_null then bitmap else []) ++ v2_region s values ++ concat (to_le w <$> ends) ++ concat (v2_pieces s values).

Lemma pass1_start values fields :
  pass1 values fields 0 (take_v2_scratch ((length fields + 7) / 8) (total_width (candidates fields))) false.
Proof.
  constructor; cbn [take_v2_scratch sc_bitmap sc_fixed sc_var_data sc_var_ends]; try done.
  - intros i f _. apply bit_set_zero.
  - apply length_replicate.
  - unfold region, chunk_below. generalize (candidates fields) as l. induction l as [|c cs IH]; [done|].
    cbn [total_width map concat]. rewrite replicate_add, IH. done.
  - intros _ i f Hi. lia.
  - intros i f w Hi. lia.
Qed.

Lemma v2_encoded s values bytes :
  schema_ok s -> values_ok values -> encode_row_body true false values s = Ok bytes ->
  exists bitmap has_null, v2_row s values bitmap has_null /\
    Z.of_nat (length (v2_payload s values bitmap has_null)) <= u32_max /\
    bytes = envelope RowObject (ss_version s) 6 (v2_payload s values bitmap has_null).
Proof.
  intros [Hver Hok Hlay] Hv Henc. unfold encode_row_body, encode_row_body_v2 in Henc.
  apply result_bind_ok in Henc as (span & (-> & Hspan)%field_count_ok & Henc). rewrite Nat2Z.id, Hlay in Henc.
  pose proof (compute_spec (ss_fields s)) as Hspec. set (layout := compute (ss_fields s)) in *.
  apply result_bind_ok in Henc as ([sc has] & H1 & Henc). rewrite (ls_region _ _ Hspec) in H1.
  apply (first_pass_loop _ (ss_fields s)) in H1; [|done..|lia|apply pass1_start].
  apply result_bind_ok in Henc as (sc2 & H2 & Henc). rewrite (ls_variable _ _ Hspec) in H2.
  destruct H1 as [Hbits Hbm Hfix [Hvd Hve] Hhas Hty].
  assert (forall i f, ss_fields s !! i = Some f -> bit_set (sc_bitmap sc) i = is_null (stored_at values (ss_fields s) i)) as Hbits'.
  { intros i f Hi. rewrite (Hbits i f Hi). apply lookup_lt_Some in Hi. by destruct (Nat.ltb_spec i (length (ss_fields s))); [|lia]. }
  apply second_passes_spec in H2 as (-> & Hdata & Hvar); [|done..|].
  2: { intros i (j & f & -> & Hj & Hf)%elem_variable_list. by exists f. }
  rewrite Hvd, Hve in *. cbn [app length sc_var_ends sc_var_data sc_bitmap sc_fixed] in *.
  exists (sc_bitmap sc), has. split.
  - constructor; try done.
    + intros Hh i f Hi. eapply Hhas; [done| |done]. by apply lookup_lt_Some in Hi.
    + intros i f Hi. pose proof (lookup_lt_Some _ _ _ Hi) as Hlt. destruct (sf_dropped f) eqn:Hd.
      * rewrite (stored_at_field _ _ _ _ Hi). apply stored_null_typed. unfold column_null. by rewrite Hd.
      * destruct (fixed_byte_width (sf_data_type f)) as [w|] eqn:Hw; [by eapply Hty|].
        apply Hvar; [|done]. apply elem_variable_list. by exists i, f.
    + destruct (variable_list 0 (ss_fields s)) as [|o os]; [done|]. by apply Hdata.
  - unfold v2_payload, v2_pieces, v2_region. destruct (offset_width (ends_from 0 _)) as [code w] eqn:Hw.
    rewrite Hfix in Henc. fold (v2_flags code has) in Henc. by apply encode_envelope_bytes in Henc.
Qed.

Definition v2_view (s : StorageSchema) (values : RowValues) (bitmap : list Z) (has_null : bool) : RowView :=
  let ends := ends_from 0 (v2_pieces s values) in
  let '(_, w) := offset_width ends in
  mkView (ss_version s) false (length (ss_fields s)) (if has_null then Some bitmap else None) (v2_region s values)
    (concat (to_le w <$> ends)) w (concat (v2_pieces s values)).

Lemma v2_parsed s s' values bitmap has_null :
  schema_ok s -> v2_row s values bitmap has_null -> ss_version s <= ss_version s' ->
  layout_for_version s' (ss_version s) = Some (compute (ss_fields s)) ->
  row_view_parse (v2_payload s values bitmap has_null) s' 6 = Ok (v2_view s values bitmap has_null).
Proof.
  intros [Hver Hok Hlay] Hrow Hle Hl. unfold row_view_parse, v2_view. pose proof (offset_width_ok (v2_pieces s values) (v2_data _ _ _ _ Hrow)) as Hw.
  set (o := v2_payload s values bitmap has_null) at 1. unfold new_reader. set (origin := o) at 1. unfold o, v2_payload.
  destruct (offset_width (ends_from 0 (v2_pieces s values))) as [code w].
  destruct Hw as (Hcode & Hwidth & Hends). destruct (v2_flags_read code has_null Hcode) as (Hfr & Hsup & Hdel & Hnb & Hsh).
  rewrite rd_uint_app by (unfold u_range, byte_modulus, u16_max in *; lia). cbn [result_bind].
  destruct (Z.ltb_spec (ss_version s') (ss_version s)); [lia|]. cbn [app]. rewrite rd_tag_app. cbn [result_bind].
  rewrite Hsup, Hdel. change (has_flag 6 FLAG_TOMBSTONE_ONLY) with false. cbn [orb]. cbv iota.
  rewrite rd_uint_app by (pose proof (v2_span _ _ _ _ Hrow); unfold u_range, byte_modulus, u16_max in *; lia). cbn [result_bind].
  rewrite Hl. pose proof (compute_spec (ss_fields s)) as Hspec. rewrite Nat2Z.id, (ls_span _ _ Hspec), Nat.eqb_refl. cbn [negb]. cbv iota.
  rewrite Hnb, Hsh, Hwidth, (ls_region _ _ Hspec), (ls_variable _ _ Hspec).
  assert (length (v2_region s values) = total_width (candidates (ss_fields s))) as Hreg.
  { apply region_length, chunk_length; [done|]. intros i f u _ Hi _. by apply (v2_typed _ _ _ _ Hrow). }
  assert (length (v2_pieces s values) = length (variable_list 0 (ss_fields s))) as Hpl by apply length_map.
  set (tail := v2_region s values ++ _).
  match goal with |- context [if has_null then ?a else ?b] => replace (if has_null then a else b)
    with (Ok (if has_null then Some bitmap else None, mkReader origin tail 0 0 0) : SerResult (option (list Z) * RowReader)) end.
  2: { destruct has_null; [|done]. by rewrite rd_take_app by apply (v2_bitmap _ _ _ _ Hrow). }
  cbn [result_bind]. subst tail. rewrite rd_take_app by done. cbn [result_bind].
  destruct Hends as [[Hnil ->]|(Hne & Hw124 & Hrange)].
  - rewrite Hnil in *. cbn [length] in Hpl. rewrite <- Hpl. done.
  - rewrite <- Hpl. destruct (Nat.eqb_spec w 0); [lia|]. rewrite andb_false_r.
    rewrite rd_take_app by (rewrite concat_le_length, ends_length; lia). cbn [result_bind]. rd_fields.
    replace (mkReader origin (concat (v2_pieces s values)) 0 0 0) with (mkReader origin (concat (v2_pieces s values) ++ []) 0 0 0)
      by (by rewrite app_nil_r). rewrite rd_take_app by done. cbn [result_bind].
    rewrite (check_ends_ok w (v2_pieces s values) (length (concat (v2_pieces s values))) []) by done. cbn [result_bind].
    by rewrite Nat.eqb_refl.
Qed.

Lemma for_type_inj t t' e : for_type t = Some e -> for_type t' = Some e -> t = t'.
Proof. destruct t, t'; vm_compute; congruence. Qed.

(** A column whose type has not changed keeps its value. *)
Lemma migrate_cells_typed fields cells :
  Forall (fun f => forall v, type_ok (sf_data_type f) -> typed (sf_data_type f) v -> migrate (sf_data_type f) v = Some v) fields ->
  all_fields type_ok fields -> cells_typed typed fields cells -> migrate_cells migrate fields cells = Some cells.
Proof.
  intros IH. revert cells. induction IH as [|f fs Hf Hfs IHf]; intros [|[n c] cs] Hok Ht; try done.
  destruct Hok as [Hof Hok], Ht as (Hn & Hc & Ht). cbn in Hn, Hc. subst n. cbn [migrate_cells snd].
  rewrite (Hf _ Hof Hc). cbn [mbind option_bind]. rewrite (IHf _ Hok Ht). done.
Qed.

Lemma migrate_typed t v : type_ok t -> typed t v -> migrate t v = Some v.
Proof.
  revert v. induction t as [t Hbase|fields IH|inner IH] using storage_type_ind; intros v Ht Hv;
    (destruct (is_null v) eqn:Hn;
      [rewrite (typed_null _ _ Hv Hn); match goal with |- migrate ?t _ = _ => destruct t end; cbn; by rewrite ?null_is_null|]).
  - destruct t; try discriminate Hbase; destruct v; try done; cbn in Hv;
      try (match type of Hv with _ = None /\ _ => destruct Hv as [-> Hv] end);
      try (destruct v as [x|]; [|discriminate Hn]); try (destruct bits as [x|]; [|discriminate Hn]); try done.
    + destruct Hv as (-> & -> & _). cbn. by rewrite Z.leb_refl, Z.eqb_refl.
    + destruct Hv as [-> Hv]. destruct cell as [[floats|]|]; [|done|done]. cbn. by rewrite Z.eqb_refl.
  - destruct v; try done. destruct cell as [cells|]; [|done]. cbn [migrate is_null none].
    destruct Ht as (_ & _ & Hok). by rewrite (migrate_cells_typed _ _ IH Hok Hv).
  - destruct v; try done. destruct cell as [items|]; [|done]. cbn in Hv. cbn [migrate is_null none].
    assert (mapM (migrate inner) items = Some items) as ->; [|done]. clear Hn.
    induction Hv as [|x xs Hx Hxs IHx]; [done|]. cbn [mapM]. rewrite (IH _ Ht Hx). cbn. by rewrite IHx.
Qed.

Definition value_fits (t : StorageDataType) (v : ScalarValue) : Prop :=
  nesting v <= MAX_NESTING /\ read_work t v <= MAX_DECODE_WORK /\ read_bytes t v <= MAX_DECODED_BYTES.

Lemma decode_alone t v v' : storable v -> migrate t v = Some v' -> value_fits t v ->
  exists r, decode_value t (new_reader (wire v)) = Ok (v', r) /\ rd_is_empty r = true.
Proof.
  intros Hs Hm (Hn & Hw & Hb). pose proof (decode_wire t v v' Hs Hm (wire v) [] 0 0 0) as Hd.
  rewrite app_nil_r in Hd. eexists. split; [apply Hd|done]. pose proof (skip_costs v Hs). constructor; lia.
Qed.

Lemma variable_value_read t v v' :
  storable v -> is_null v = false -> migrate t v = Some v' -> value_fits t v -> (forall w, fixed_byte_width t <> Some w) ->
  decode_variable_value_v2 (variable_bytes v) t = Ok v'.
Proof.
  intros Hs Hn Hm Hfit Hw. destruct t; try (by edestruct Hw).
  1: { destruct v; try (cbn in Hn, Hm; rewrite ?Hn in Hm; discriminate). destruct v as [x|]; [|discriminate]. injection Hm as <-.
    destruct Hs as (t & _ & Ht). destruct t; try done. cbn in Ht. unfold text_ok in Ht. cbn [variable_bytes decode_variable_value_v2]. by rewrite Ht, string_bytes_string. }
  1: { destruct v; try (cbn in Hn, Hm; rewrite ?Hn in Hm; discriminate). destruct v as [x|]; [|discriminate]. by injection Hm as <-. }
  all: destruct (decode_alone _ _ _ Hs Hm Hfit) as (r & Hd & He);
    assert (variable_bytes v = wire v) as -> by (destruct v; try done; cbn in Hn, Hm; rewrite ?Hn in Hm; discriminate);
    cbn [decode_variable_value_v2]; rewrite Hd; cbn [result_bind]; by rewrite He.
Qed.

Lemma fixed_value_read t t' e v v' w :
  type_ok t -> typed t v -> is_null v = false -> fixed_byte_width t = Some w -> for_type t = Some e ->
  migrate t' v = Some v' -> value_fits t' v ->
  (if decide (Some e = for_type t') then decode_fixed_value (fixed_chunk v w) t' else decode_as e (fixed_chunk v w) t') = Ok v'.
Proof.
  intros Ht Hv Hn Hw He Hm Hfit. destruct (fixed_wire t v w Ht Hv Hn Hw) as (e' & He' & Hwire & Hlen & Hdec).
  assert (e' = e) as -> by congruence. destruct (decide (Some e = for_type t')) as [Heq|Hne].
  - rewrite (for_type_inj _ _ _ He (eq_sym Heq)) in *. rewrite (migrate_typed _ _ Ht Hv) in Hm. injection Hm as <-. exact Hdec.
  - unfold decode_as. fold (fixed_head e). rewrite <- Hwire.
    destruct (Nat.ltb_spec 19 (length (fixed_head e) + length (fixed_chunk v w))) as [Hlt|].
    + exfalso. rewrite Hlen in Hlt. unfold fixed_head in Hlt. destruct t; try discriminate Hw; injection Hw as <-; injection He as <-; cbn in Hlt; lia.
    + destruct (decode_alone t' v v') as (r & Hd & Hempty); [by exists t|done|done|]. rewrite Hd. cbn [result_bind]. by rewrite Hempty.
Qed.

Lemma pieces_slice (ps : list (list Z)) k p w :
  ps !! k = Some p -> (w = 1 \/ w = 2 \/ w = 4)%nat -> Forall (u_range w) (ends_from 0 ps) ->
  let ends := concat (to_le w <$> ends_from 0 ps) in
  slice (match k with O => 0%nat | S j => read_var_end_offset ends w j end) (read_var_end_offset ends w k) (concat ps) = p.
Proof.
  intros Hk Hw Hr ends. assert (forall j, (j < length ps)%nat -> read_var_end_offset ends w j = length (concat (take (S j) ps))) as Hend.
  { intros j Hj. destruct (lookup_lt_is_Some_2 (ends_from 0 ps) j) as [e He]; [by rewrite ends_length|].
    unfold ends. rewrite (var_end_read _ _ _ _ Hw Hr He). apply ends_lookup in He as (q & Hq & ->).
    rewrite Nat2Z.id, (take_S_r _ _ _ Hq), concat_app, length_app. cbn. by rewrite app_nil_r. }
  pose proof (lookup_lt_Some _ _ _ Hk) as Hlt. rewrite Hend by done.
  replace (match k with O => 0%nat | S j => read_var_end_offset ends w j end) with (length (concat (take k ps))).
  2: { destruct k as [|j]; [done|]. rewrite Hend by lia. done. }
  rewrite <- (take_drop_middle _ _ _ Hk) at 3. rewrite concat_app. cbn [concat]. apply slice_app; [done|].
  rewrite (take_S_r _ _ _ Hk), concat_app, length_app. cbn. rewrite app_nil_r. lia.
Qed.

Lemma v2_field_read s s' values bitmap has_null i f f' v' :
  schema_ok s -> v2_row s values bitmap has_null -> layout_for_version s' (ss_version s) = Some (compute (ss_fields s)) ->
  ss_fields s !! i = Some f -> ss_fields s' !! i = Some f' -> migrate (sf_data_type f') (stored_at values (ss_fields s) i) = Some v' ->
  value_fits (sf_data_type f') (stored_at values (ss_fields s) i) ->
  decode_field (v2_view s values bitmap has_null) i s' = Ok v'.
Proof.
  intros [Hver Hok _] Hrow Hl Hf Hf' Hm Hfit. set (v := stored_at values (ss_fields s) i) in *.
  pose proof (v2_typed _ _ _ _ Hrow i f Hf) as Hty. fold v in Hty. pose proof (lookup_lt_Some _ _ _ Hf) as Hlt.
  assert (type_ok (sf_data_type f)) as Htok by (unfold fields_ok in Hok; rewrite Forall_forall in Hok; by eapply Hok, list_elem_of_lookup_2).
  pose proof (offset_width_ok (v2_pieces s values) (v2_data _ _ _ _ Hrow)) as Hw.
  unfold decode_field. rewrite Hf'. unfold view_is_null, variable_slice, view_is_null, view_layout, v2_view.
  destruct (offset_width (ends_from 0 (v2_pieces s values))) as [code w] eqn:Ew. destruct Hw as (_ & _ & Hends).
  cbn [rv_slot_span rv_bitmap rv_fixed_region rv_stored_version rv_var_offsets_bytes rv_offset_byte_width rv_var_data].
  rewrite Hl. destruct (Nat.leb_spec (length (ss_fields s)) i); [lia|].
  replace (match (if has_null then Some bitmap else None) with Some bm => bit_set bm i | None => false end) with (is_null v).
  2: { destruct has_null; [symmetry; by apply (v2_bits _ _ _ _ Hrow i f)|by apply (v2_no_null _ _ _ _ Hrow eq_refl i f)]. }
  destruct (is_null v) eqn:Hn; [by rewrite (migrate_null _ _ _ Hn Hm)|].
  assert (sf_dropped f = false) as Hd.
  { destruct (sf_dropped f) eqn:Hd; [|done]. exfalso. unfold v in Hn. rewrite (stored_at_field _ _ _ _ Hf), stored_null in Hn.
    unfold column_null in Hn. by rewrite Hd in Hn. }
  pose proof (compute_spec (ss_fields s)) as Hspec. destruct (fixed_byte_width (sf_data_type f)) as [u|] eqn:Hu.
  - destruct (candidate_split (candidates (ss_fields s)) i u) as (l1 & l2 & Hsplit); [apply elem_candidates; by exists f|].
    rewrite (ls_offset _ _ Hspec _ _ _ _ Hsplit), (ls_encoding _ _ Hspec i f u Hf) by done.
    destruct (region_slice (chunk_below values (ss_fields s) (length (ss_fields s))) (candidates (ss_fields s)) l1 i u l2 Hsplit) as [Hslice Hreg].
    { apply chunk_length; [done|]. intros j g x _ Hg _. by apply (v2_typed _ _ _ _ Hrow). }
    fold (v2_region s values) in Hslice, Hreg. destruct (Nat.ltb_spec (length (v2_region s values)) (total_width l1 + u)); [lia|].
    rewrite Hslice. unfold chunk_below. destruct (Nat.ltb_spec i (length (ss_fields s))); [|lia]. fold v. rewrite Hn. cbn [negb andb].
    destruct (fixed_wire _ _ _ Htok Hty Hn Hu) as (e & He & _). rewrite He. by eapply fixed_value_read.
  - rewrite (ls_no_offset _ _ Hspec i f Hf) by (intros x [_ Hx]; congruence).
    assert (i ∈ variable_list 0 (ss_fields s)) as Hin by (apply elem_variable_list; by exists i, f).
    apply list_elem_of_lookup_1 in Hin as [k Hk]. rewrite (ls_slot _ _ Hspec k i Hk). cbn [result_bind].
    assert (v2_pieces s values !! k = Some (piece values (ss_fields s) i)) as Hp.
    { unfold v2_pieces. change (map ?g ?l) with (g <$> l). rewrite list_lookup_fmap, Hk. done. }
    destruct Hends as [[Hnil _]|(_ & Hw & Hr)]; [by rewrite Hnil in Hp|].
    rewrite (pieces_slice _ _ _ _ Hp Hw Hr). unfold piece. fold v. rewrite Hn.
    apply variable_value_read; [by exists (sf_data_type f)|done..|]. intros x Hx.
    destruct (sf_data_type f); try discriminate Hu; destruct (sf_data_type f'); try discriminate Hx; destruct v; try done;
      cbn in Hm, Hn; rewrite ?Hn in Hm; try done; repeat case_match; done.
Qed.

(** ** Whole rows *)

Lemma elem_read_columns fields : forall index stored cols i f v,
  read_columns index fields stored = Some cols -> (i, f, v) ∈ cols ->
  exists j, i = (index + j)%nat /\ fields !! j = Some f /\ sf_dropped f = false /\
    match stored !! j with Some x => migrate (sf_data_type f) x = Some v | None => v = missing_value f end.
Proof.
  induction fields as [|g fs IH]; intros index stored cols i f v Hc Hin; cbn in Hc.
  { injection Hc as <-. by apply elem_of_nil in Hin. }
  assert (forall cols' vs, read_columns (S index) fs vs = Some cols' -> (i, f, v) ∈ cols' -> vs = tail stored ->
    exists j, i = (index + j)%nat /\ (g :: fs) !! j = Some f /\ sf_dropped f = false /\
    match stored !! j with Some x => migrate (sf_data_type f) x = Some v | None => v = missing_value f end) as Hrest.
  { intros cols' vs Hc' Hin' ->. destruct (IH _ _ _ _ _ _ Hc' Hin') as (j & -> & Hj & Hd & Hv). exists (S j).
    split; [lia|]. split; [done|]. split; [done|]. by destruct stored. }
  destruct stored as [|x xs]; apply bind_Some in Hc as (cols' & Hc' & Hc).
  - injection Hc as <-. destruct (sf_dropped g) eqn:Hd; [by eapply Hrest|].
    apply elem_of_cons in Hin as [[= -> -> ->]|Hin]; [|by eapply Hrest]. exists 0%nat. split; [lia|done].
  - destruct (sf_dropped g) eqn:Hd; [injection Hc as <-; by eapply Hrest|].
    apply bind_Some in Hc as (v' & Hm & [= <-]). apply elem_of_cons in Hin as [[= -> -> ->]|Hin]; [|by eapply Hrest].
    exists 0%nat. split; [lia|done].
Qed.

Lemma each_read_columns {A} (access : nat -> StorageField -> SerResult ScalarValue)
    (emit : A -> StorageField -> nat -> ScalarValue -> SerResult A) fields : forall index stored cols acc,
  read_columns index fields stored = Some cols -> (forall i f v, (i, f, v) ∈ cols -> access i f = Ok v) ->
  each_field (fun acc index field => if sf_dropped field then Ok acc else let? v := access index field in emit acc field index v)
    acc index fields = emit_columns emit acc cols.
Proof.
  induction fields as [|f fs IH]; intros index stored cols acc Hc Hacc; cbn in Hc; [by injection Hc as <-|].
  assert (exists cols', read_columns (S index) fs (tail stored) = Some cols' /\
    (if sf_dropped f then cols = cols' else exists v, cols = (index, f, v) :: cols')) as (cols' & Hc' & Hcols).
  { destruct stored as [|x xs]; apply bind_Some in Hc as (cols' & Hc' & Hc); exists cols'; (split; [done|]).
    - injection Hc as <-. destruct (sf_dropped f); [done|by eexists].
    - destruct (sf_dropped f); [by injection Hc|]. apply bind_Some in Hc as (v & _ & [= <-]). by eexists. }
  cbn [each_field]. destruct (sf_dropped f).
  - subst cols'. cbn [result_bind]. by eapply IH.
  - destruct Hcols as [v ->]. rewrite (Hacc index f v) by set_solver. cbn [result_bind emit_columns].
    destruct (emit acc f index v) as [a|e]; [|done]. cbn [result_bind]. eapply IH; [done|]. intros i g x Hx. apply Hacc. set_solver.
Qed.

Lemma column_fits fields : forall stored i f v,
  Forall storable stored -> row_fits fields stored -> fields !! i = Some f -> sf_dropped f = false -> stored !! i = Some v ->
  value_fits (sf_data_type f) v.
Proof.
  intros stored i f v Hs [Hn Hw Hb] Hf Hd Hv. split.
  { apply (max_z_le nesting) in Hn. rewrite Forall_forall in Hn. by eapply Hn, list_elem_of_lookup_2. }
  assert (forall (c : StorageDataType -> ScalarValue -> Z) skip,
    (forall t x, storable x -> 0 <= c t x) -> (forall x, storable x -> 0 <= skip x) ->
    c (sf_data_type f) v <= columns_cost c skip fields stored) as Hle.
  { intros c skip Hc Hskip. clear Hn Hw Hb. revert stored i Hs Hf Hv. induction fields as [|g fs IH]; intros [|x xs] [|i] Hs Hf Hv; try done;
      apply Forall_cons in Hs as [Hx Hxs]; cbn [columns_cost].
    - injection Hf as ->. injection Hv as ->. rewrite Hd. pose proof (columns_cost_nonneg c skip fs xs Hc Hskip Hxs). lia.
    - specialize (IH xs i Hxs Hf Hv). specialize (Hc (sf_data_type g) x Hx). specialize (Hskip x Hx). destruct (sf_dropped g); lia. }
  split.
  - etrans; [apply (Hle read_work skip_work)|done]; intros; [pose proof (read_costs t x); naive_solver lia|pose proof (skip_costs x); naive_solver lia].
  - etrans; [apply (Hle read_bytes skip_bytes)|done]; intros; [by apply read_costs|by apply skip_costs].
Qed.

(** The columns of a v2 row, read one by one. *)
Lemma v2_column_read s s' values bitmap has_null cols i f v :
  schema_ok s -> v2_row s values bitmap has_null -> layout_for_version s' (ss_version s) = Some (compute (ss_fields s)) ->
  let stored := stored_values values 0 (ss_fields s) in
  Forall storable stored -> row_fits (ss_fields s') stored ->
  read_columns 0 (ss_fields s') stored = Some cols -> (i, f, v) ∈ cols ->
  decode_field (v2_view s values bitmap has_null) i s' = Ok v.
Proof.
  intros Hok Hrow Hl stored Hs Hfit Hc Hin. destruct (elem_read_columns _ _ _ _ _ _ _ Hc Hin) as (j & -> & Hf & Hd & Hv). cbn [Nat.add].
  destruct (stored !! j) as [x|] eqn:Hj.
  - assert (exists g, ss_fields s !! j = Some g) as [g Hg].
    { apply lookup_lt_is_Some_2. rewrite <- (stored_values_length values 0). by apply lookup_lt_Some in Hj. }
    assert (stored_at values (ss_fields s) j = x) as Hx by (unfold stored_at; fold stored; by rewrite Hj).
    eapply v2_field_read; [done..| |]; rewrite Hx; [done|]. by eapply column_fits.
  - subst v. unfold decode_field. rewrite Hf. unfold v2_view. destruct (offset_width _). cbn [rv_slot_span].
    apply lookup_ge_None in Hj. subst stored. rewrite stored_values_length in Hj. by destruct (Nat.leb_spec (length (ss_fields s)) j); [|lia].
Qed.

Lemma v2_row_storable s values bitmap has_null :
  schema_ok s -> v2_row s values bitmap has_null -> Forall storable (stored_values values 0 (ss_fields s)).
Proof.
  intros [_ Hok _] Hrow. apply Forall_lookup. intros i v Hi.
  destruct (lookup_lt_is_Some_2 (ss_fields s) i) as [f Hf].
  { rewrite <- (stored_values_length values 0). by apply lookup_lt_Some in Hi. }
  exists (sf_data_type f). split.
  - unfold fields_ok in Hok. rewrite Forall_forall in Hok. by eapply Hok, list_elem_of_lookup_2.
  - pose proof (v2_typed _ _ _ _ Hrow i f Hf) as Ht. unfold stored_at in Ht. by rewrite Hi in Ht.
Qed.

(** The columns of a v2 tombstone: all null. *)
Fixpoint null_columns (index : nat) (fields : list StorageField) : list (nat * StorageField * ScalarValue) :=
  match fields with
  | [] => []
  | f :: fs => (if sf_dropped f then [] else [(index, f, null_for_type (sf_data_type f))]) ++ null_columns (S index) fs
  end.

(** What reading a row gives. *)
Definition columns_of (v2 deleted : bool) (fields : list StorageField) (cols : list (nat * StorageField * ScalarValue)) :=
  if v2 && deleted then null_columns 0 fields else cols.

Lemma tombstone_columns {A} (emit : A -> StorageField -> nat -> ScalarValue -> SerResult A) (access : nat -> StorageField -> SerResult ScalarValue) fields :
  (forall i f, access i f = Ok (null_for_type (sf_data_type f))) -> forall index acc,
  each_field (fun acc index field => if sf_dropped field then Ok acc else let? v := access index field in emit acc field index v)
    acc index fields = emit_columns emit acc (null_columns index fields).
Proof.
  intros Hacc. induction fields as [|f fs IH]; intros index acc; [done|]. cbn [each_field null_columns].
  destruct (sf_dropped f); [apply IH|]. rewrite Hacc. cbn [result_bind app emit_columns].
  destruct (emit acc f index _) as [a|e]; [|done]. apply IH.
Qed.

Definition tombstone_view (version : Z) : RowView := mkView version true 0 None [] [] 0 [].

Lemma tombstone_encoded s values bytes :
  schema_ok s -> encode_row_body true true values s = Ok bytes ->
  bytes = envelope RowObject (ss_version s) 14 (to_le 2 (ss_version s) ++ [V2_ROW_FLAG_DELETED]).
Proof. intros _ Henc. cbn in Henc. unfold encode_tombstone_row_v2 in Henc. by apply encode_envelope_bytes in Henc as [_ ->]. Qed.

Lemma tombstone_parsed s s' :
  schema_ok s -> ss_version s <= ss_version s' ->
  row_view_parse (to_le 2 (ss_version s) ++ [V2_ROW_FLAG_DELETED]) s' 14 = Ok (tombstone_view (ss_version s)).
Proof.
  intros [Hver _ _] Hle. unfold row_view_parse, new_reader. rewrite rd_uint_app by (unfold u_range, byte_modulus, u16_max in *; lia).
  cbn [result_bind]. destruct (Z.ltb_spec (ss_version s') (ss_version s)); [lia|]. by rewrite rd_tag_app.
Qed.

(** Either body read with a later schema: the header, and the columns in order. *)
Lemma row_read s s' values v2 deleted bytes cols :
  schema_ok s -> values_ok values -> ss_version s <= ss_version s' ->
  layout_for_version s' (ss_version s) = Some (compute (ss_fields s)) ->
  encode_row_body v2 deleted values s = Ok bytes ->
  let stored := stored_values values 0 (ss_fields s) in
  read_columns 0 (ss_fields s') stored = Some cols -> row_fits (ss_fields s') stored ->
  decode_row_body bytes s' = Ok (mkDecoded deleted (row_of (columns_of v2 deleted (ss_fields s') cols))).
Proof.
  intros Hok Hv Hle Hl Henc stored Hc Hfit. destruct v2; [destruct deleted|].
  - rewrite (tombstone_encoded _ _ _ Hok Henc). unfold decode_row_body.
    rewrite decode_envelope_of; [|apply header_ok_row; [by destruct Hok|set_solver]|rewrite length_app, to_le_length; done].
    cbn [result_bind eh_flags]. change (has_flag 14 FLAG_ROW_BODY_V2) with true. cbv iota. rewrite (tombstone_parsed s s' Hok Hle). cbn [result_bind].
    unfold v2_columns. rewrite tombstone_columns by done. rewrite insert_columns_row. done.
  - destruct (v2_encoded s values bytes Hok Hv Henc) as (bitmap & has_null & Hrow & Hp & ->). unfold decode_row_body.
    rewrite decode_envelope_of; [|apply header_ok_row; [by destruct Hok|set_solver]|done].
    cbn [result_bind eh_flags]. change (has_flag 6 FLAG_ROW_BODY_V2) with true. cbv iota. rewrite (v2_parsed s s') by done. cbn [result_bind].
    unfold v2_columns. erewrite each_read_columns; [|exact Hc|].
    + rewrite insert_columns_row. cbn [result_bind]. unfold v2_view. by destruct (offset_width _).
    + intros i f v Hin. unfold v2_column. rewrite andb_false_r.
      by eapply v2_column_read; [..|by eapply v2_row_storable| | |].
  - destruct (v1_encoded values s deleted bytes Hok Hv Henc) as (Hs & Hoffs & Hn & Hp & ->).
    rewrite (v1_decoded s' _ _ _ cols); [done|by destruct Hok|done..].
Qed.

(** ** Reading selected columns *)

Definition live_name (fields : list StorageField) (i : nat) : option string :=
  match fields !! i with
  | Some f => if sf_dropped f then None else Some (sf_name f)
  | None => None
  end.

Definition selected_names (fields : list StorageField) (ordinals : list nat) : list string := omap (live_name fields) ordinals.

(** [values] extended by the selected columns of [full]. *)
Definition selects (fields : list StorageField) (full values values' : Row) (ordinals : list nat) : Prop :=
  forall name, values' !! name =
    match values !! name with
    | Some x => Some x
    | None => if decide (name ∈ selected_names fields ordinals) then full !! name else None
    end.

Definition names_distinct (fields : list StorageField) : Prop :=
  forall i j f g, fields !! i = Some f -> fields !! j = Some g -> sf_dropped f = false -> sf_dropped g = false ->
  sf_name f = sf_name g -> i = j.

Lemma row_of_app cols1 cols2 : row_of (cols1 ++ cols2) = foldl (fun row col => <[sf_name col.1.2 := col.2]> row) (row_of cols1) cols2.
Proof. unfold row_of. apply foldl_app. Qed.

(** Every column of the row is found under its name. *)
Lemma row_of_lookup cols i f v :
  (forall j g x, (j, g, x) ∈ cols -> sf_name g = sf_name f -> x = v) -> (i, f, v) ∈ cols -> row_of cols !! sf_name f = Some v.
Proof.
  revert i. induction cols as [|[[j g] x] cols IH] using rev_ind; intros i Huniq Hin; [by apply elem_of_nil in Hin|].
  rewrite row_of_app. cbn. destruct (decide (sf_name g = sf_name f)) as [Heq|Hne].
  - rewrite Heq, lookup_insert_eq. f_equal. apply (Huniq j g x); [set_solver|done].
  - rewrite lookup_insert_ne by done. apply elem_of_app in Hin as [Hin|Hin].
    + eapply IH; [|done]. intros k h y Hk. apply Huniq with k. set_solver.
    + apply list_elem_of_singleton in Hin as [= -> -> ->]. done.
Qed.

Definition column_at (fields : list StorageField) (cols : list (nat * StorageField * ScalarValue)) : Prop :=
  (forall i f v, (i, f, v) ∈ cols -> fields !! i = Some f /\ sf_dropped f = false) /\
  (forall i f v w, (i, f, v) ∈ cols -> (i, f, w) ∈ cols -> v = w) /\
  (forall i f, fields !! i = Some f -> sf_dropped f = false -> exists v, (i, f, v) ∈ cols).

Lemma column_lookup fields cols i f v :
  names_distinct fields -> column_at fields cols -> (i, f, v) ∈ cols -> row_of cols !! sf_name f = Some v.
Proof.
  intros Hd (Hcols & Hfun & _) Hin. apply row_of_lookup with i; [|done]. intros j g x Hj Hname.
  destruct (Hcols _ _ _ Hin) as [Hi Hdi], (Hcols _ _ _ Hj) as [Hgj Hdj].
  assert (j = i) as -> by (by eapply Hd). replace g with f in Hj by congruence. by eapply Hfun.
Qed.

Lemma column_at_read fields stored cols : read_columns 0 fields stored = Some cols -> column_at fields cols.
Proof.
  intros Hc. split; [|split].
  - intros i f v Hin. destruct (elem_read_columns _ _ _ _ _ _ _ Hc Hin) as (j & -> & Hf & Hd & _). done.
  - intros i f v w Hv Hw. destruct (elem_read_columns _ _ _ _ _ _ _ Hc Hv) as (j & -> & _ & _ & Hx).
    destruct (elem_read_columns _ _ _ _ _ _ _ Hc Hw) as (k & Hk & _ & _ & Hy). cbn in Hk. subst k.
    destruct (stored !! j); congruence.
  - assert (forall index stored cols, read_columns index fields stored = Some cols -> forall j f, fields !! j = Some f -> sf_dropped f = false ->
      exists v, ((index + j)%nat, f, v) ∈ cols) as Hall; [|by apply (Hall 0%nat stored)].
    clear. induction fields as [|g fs IH]; intros index stored cols Hc [|j] f Hf Hd; try done; cbn in Hc.
    + injection Hf as ->. rewrite Hd, Nat.add_0_r in *. destruct stored as [|x xs]; apply bind_Some in Hc as (cols' & _ & Hc).
      * injection Hc as <-. eexists. apply list_elem_of_here.
      * apply bind_Some in Hc as (v & _ & [= <-]). eexists. apply list_elem_of_here.
    + rewrite Nat.add_succ_r. destruct stored as [|x xs]; apply bind_Some in Hc as (cols' & Hc' & Hc);
        destruct (IH _ _ _ Hc' j f Hf Hd) as [v Hv]; cbn in Hv; exists v.
      * injection Hc as <-. destruct (sf_dropped g); set_solver.
      * destruct (sf_dropped g); [injection Hc as <-; done|]. apply bind_Some in Hc as (u & _ & [= <-]). set_solver.
Qed.

Lemma column_at_null fields : column_at fields (null_columns 0 fields).
Proof.
  assert (forall index i f v, (i, f, v) ∈ null_columns index fields <->
    exists j, i = (index + j)%nat /\ fields !! j = Some f /\ sf_dropped f = false /\ v = null_for_type (sf_data_type f)) as Hel.
  { induction fields as [|g fs IH]; intros index i f v; cbn.
    - rewrite elem_of_nil. split; [done|]. by intros (j & _ & Hj & _).
    - rewrite elem_of_app, IH. split.
      + intros [Hin|(j & -> & Hj)]; [|exists (S j); split; [lia|done]]. exists 0%nat.
        destruct (sf_dropped g) eqn:Hd; [by apply elem_of_nil in Hin|]. apply list_elem_of_singleton in Hin as [= -> -> ->].
        split; [lia|done].
      + intros ([|j] & -> & Hj & Hd & ->); [|right; exists j; split; [lia|done]]. left. cbn in Hj. injection Hj as ->.
        rewrite Hd, Nat.add_0_r. set_solver. }
  split; [|split].
  - intros i f v (j & -> & Hj & Hd & _)%Hel. done.
  - intros i f v w (j & -> & _ & _ & ->)%Hel (k & _ & _ & _ & ->)%Hel. done.
  - intros i f Hf Hd. exists (null_for_type (sf_data_type f)). apply Hel. by exists i.
Qed.

Lemma selects_skip fields full values values' i ordinals :
  (live_name fields i = None \/ exists name, live_name fields i = Some name /\ is_Some (values !! name)) ->
  selects fields full values values' ordinals -> selects fields full values values' (i :: ordinals).
Proof.
  intros Hi Hsel name. rewrite Hsel. destruct (values !! name) as [x|] eqn:E; [done|].
  unfold selected_names. cbn [omap list_omap]. destruct Hi as [->|(n & -> & [y Hy])]; [done|].
  destruct (decide (name ∈ n :: omap (live_name fields) ordinals)) as [Hin|Hin].
  - apply elem_of_cons in Hin as [->|Hin]; [congruence|]. by rewrite decide_True.
  - rewrite decide_False; [done|]. set_solver.
Qed.

Lemma selects_insert fields full values values' i name v ordinals :
  live_name fields i = Some name -> values !! name = None -> full !! name = Some v ->
  selects fields full (<[name := v]> values) values' ordinals -> selects fields full values values' (i :: ordinals).
Proof.
  intros Hi Hnone Hfull Hsel n. rewrite Hsel. unfold selected_names. cbn [omap list_omap]. rewrite Hi.
  destruct (decide (n = name)) as [->|Hne].
  - rewrite lookup_insert_eq, Hnone. by rewrite decide_True by set_solver.
  - rewrite lookup_insert_ne by done. destruct (values !! n); [done|].
    destruct (decide (n ∈ omap (live_name fields) ordinals)) as [Hin|Hin].
    + by rewrite decide_True by set_solver.
    + by rewrite decide_False by set_solver.
Qed.

Lemma v2_selected_spec view flags s cols : forall ordinals values,
  names_distinct (ss_fields s) -> column_at (ss_fields s) cols ->
  (forall i f v, (i, f, v) ∈ cols -> v2_column view flags s i f = Ok v) ->
  Forall (fun i => i < length (ss_fields s))%nat ordinals ->
  exists values', v2_selected view flags s values ordinals = Ok values' /\ selects (ss_fields s) (row_of cols) values values' ordinals.
Proof.
  induction ordinals as [|i ordinals IH]; intros values Hd Hcol Hacc Hlt.
  { exists values. split; [done|]. intros name. cbn. by destruct (values !! name). }
  apply Forall_cons in Hlt as [Hi Hlt]. destruct (lookup_lt_is_Some_2 _ _ Hi) as [f Hf]. cbn [v2_selected]. rewrite Hf.
  destruct (sf_dropped f || bool_decide (is_Some (values !! sf_name f))) eqn:Hskip.
  - destruct (IH values Hd Hcol Hacc Hlt) as (values' & Hrun & Hsel). exists values'. split; [done|]. apply selects_skip; [|done].
    unfold live_name. rewrite Hf. destruct (sf_dropped f); [by left|]. right. cbn in Hskip. apply bool_decide_eq_true in Hskip. eauto.
  - apply orb_false_iff in Hskip as [Hdr Hnone%bool_decide_eq_false]. destruct Hcol as (Hcols & Hfun & Hex) eqn:Ecol.
    destruct (Hex i f Hf Hdr) as [v Hv]. rewrite (Hacc i f v Hv). cbn [result_bind].
    destruct (IH (<[sf_name f := v]> values) Hd Hcol Hacc Hlt) as (values' & Hrun & Hsel). exists values'. split; [done|].
    eapply selects_insert; [| | |exact Hsel].
    + unfold live_name. by rewrite Hf, Hdr.
    + by destruct (values !! sf_name f); [edestruct Hnone|].
    + by eapply column_lookup.
Qed.

(** The budget of selected columns: each is read once. *)
Lemma sum_z_insert l i x : l !! i = Some x -> sum_z l = x + sum_z (<[i := 0]> l).
Proof.
  revert i. induction l as [|y l IH]; intros [|i] Hi; try done.
  - injection Hi as ->. done.
  - change (y + sum_z l = x + (y + sum_z (<[i := 0]> l))). rewrite (IH i Hi). lia.
Qed.

Lemma sum_z_subset (l : list Z) ordinals :
  Forall (fun x => 0 <= x) l -> NoDup ordinals -> sum_z (map (fun i => default 0 (l !! i)) ordinals) <= sum_z l.
Proof.
  intros Hl Hnd. revert l Hl. induction Hnd as [|i is_ Hi Hnd IH]; intros l Hl.
  { cbn. rewrite <- (map_id l). by apply (sum_z_nonneg (fun x => x)). }
  cbn [map sum_z foldr]. destruct (l !! i) as [x|] eqn:E.
  - rewrite (sum_z_insert l i x E). cbn [default]. apply Zplus_le_compat_l. etrans; [|apply (IH (<[i:=0]> l))].
    + apply Z.eq_le_incl. f_equal. apply map_ext_in. intros j Hj. rewrite list_lookup_insert_ne; [done|]. intros ->. apply Hi. by apply list_elem_of_In.
    + by apply Forall_insert.
  - apply (IH l Hl).
Qed.

(** What each stored column costs when it is read. *)
Definition column_costs (c : StorageDataType -> ScalarValue -> Z) (skip : ScalarValue -> Z) (fields : list StorageField) (stored : list ScalarValue) : list Z :=
  zip_with (fun f v => if sf_dropped f then skip v else c (sf_data_type f) v) fields stored.

Lemma column_costs_sum c skip fields stored :
  (forall v, storable v -> 0 <= skip v) -> Forall storable stored ->
  sum_z (column_costs c skip fields stored) <= columns_cost c skip fields stored.
Proof.
  intros Hskip. revert stored. induction fields as [|f fs IH]; intros [|v vs] Hs; try done.
  - apply (sum_z_nonneg skip (v :: vs)). eapply Forall_impl; [exact Hs|apply Hskip].
  - apply Forall_cons in Hs as [_ Hs]. apply Zplus_le_compat_l. by apply IH.
Qed.

Lemma column_costs_nonneg c skip fields stored :
  (forall t v, storable v -> 0 <= c t v) -> (forall v, storable v -> 0 <= skip v) -> Forall storable stored ->
  Forall (fun x => 0 <= x) (column_costs c skip fields stored).
Proof.
  intros Hc Hskip. revert stored. induction fields as [|f fs IH]; intros [|v vs] Hs; cbn; try constructor.
  - apply Forall_cons in Hs as [Hv _]. destruct (sf_dropped f); auto.
  - apply Forall_cons in Hs as [_ Hs]. by apply IH.
Qed.

Definition work_at (fields : list StorageField) (stored : list ScalarValue) (i : nat) : Z :=
  default 0 (column_costs read_work skip_work fields stored !! i).
Definition bytes_at (fields : list StorageField) (stored : list ScalarValue) (i : nat) : Z :=
  default 0 (column_costs read_bytes skip_bytes fields stored !! i).

Lemma selected_budget fields stored ordinals :
  Forall storable stored -> row_fits fields stored -> NoDup ordinals ->
  sum_z (map (work_at fields stored) ordinals) <= MAX_DECODE_WORK /\ sum_z (map (bytes_at fields stored) ordinals) <= MAX_DECODED_BYTES.
Proof.
  intros Hs [_ Hw Hb] Hnd.
  assert (forall v, storable v -> 0 <= skip_work v) as Hsw by (intros v Hv; pose proof (skip_costs v Hv); lia).
  assert (forall v, storable v -> 0 <= skip_bytes v) as Hsb by (intros v Hv; by apply skip_costs).
  assert (forall t v, storable v -> 0 <= read_work t v) as Hrw by (intros t v Hv; pose proof (read_costs t v Hv); lia).
  assert (forall t v, storable v -> 0 <= read_bytes t v) as Hrb by (intros t v Hv; by apply read_costs).
  split; (etrans; [apply sum_z_subset; [by apply column_costs_nonneg|done]|]); (etrans; [by apply column_costs_sum|done]).
Qed.

Lemma offsets_lookup base vs i v : vs !! i = Some v ->
  offsets_from base vs !! i = Some (Z.of_nat (base + length (concat (map wire (take i vs))))).
Proof.
  revert base i. induction vs as [|x xs IH]; intros base [|i] Hi; try done.
  - cbn. by rewrite Nat.add_0_r.
  - cbn. rewrite (IH _ i Hi), length_app. do 2 f_equal. lia.
Qed.

(** One column by its offset. *)
Lemma indexed_value_read s' version deleted stored cols i f v rest w b :
  let payload := v1_payload version deleted stored in
  let table := concat (to_le 4 <$> offsets_from (5 + length stored * 4) stored) in
  Forall (fun x => 0 <= x <= u32_max) (offsets_from (5 + length stored * 4) stored) ->
  Forall storable stored -> row_fits (ss_fields s') stored -> read_columns 0 (ss_fields s') stored = Some cols -> (i, f, v) ∈ cols ->
  0 <= w -> 0 <= b -> w + work_at (ss_fields s') stored i <= MAX_DECODE_WORK -> b + bytes_at (ss_fields s') stored i <= MAX_DECODED_BYTES ->
  exists rest', read_indexed_value (mkReader payload rest 0 w b) s' (length stored) table i =
    Ok (v, mkReader payload rest' 0 (w + work_at (ss_fields s') stored i) (b + bytes_at (ss_fields s') stored i)).
Proof.
  intros payload table Hoffs Hs Hfit Hc Hin Hw Hb Hwork Hbytes.
  destruct (elem_read_columns _ _ _ _ _ _ _ Hc Hin) as (j & -> & Hf & Hd & Hv). change (0 + j)%nat with j in *.
  unfold read_indexed_value. rewrite Hf. unfold work_at, bytes_at, column_costs in *. rewrite !lookup_zip_with, Hf in *.
  destruct (stored !! j) as [x|] eqn:Hj; cbn [mbind option_bind from_option id] in Hwork, Hbytes |- *.
  2: { apply lookup_ge_None in Hj. destruct (Nat.leb_spec (length stored) j); [|lia]. exists rest. subst v. by rewrite !Z.add_0_r. }
  pose proof (lookup_lt_Some _ _ _ Hj) as Hlt. destruct (Nat.leb_spec (length stored) j); [lia|]. rewrite Hd in *.
  assert (length table = length stored * 4)%nat as Htl by (unfold table; by rewrite concat_le_length, offsets_length).
  destruct (Nat.ltb_spec (length table) (j * 4 + 4)); [lia|].
  pose proof (offsets_lookup (5 + length stored * 4) stored j x Hj) as Ho. set (off := (5 + length stored * 4 + length (concat (map wire (take j stored))))%nat) in *.
  assert (slice (j * 4) (j * 4 + 4) table = to_le 4 (Z.of_nat off)) as Hslice.
  { unfold table. match goal with |- context [offsets_from ?b stored] => change b with (5 + length stored * 4)%nat end.
    rewrite <- (take_drop_middle _ _ _ Ho), fmap_app, concat_app, fmap_cons. cbn [concat].
    apply slice_app; [|by rewrite to_le_length; lia]. rewrite concat_le_length, length_take, offsets_length. lia. }
  rewrite Hslice, from_le_to_le, Nat2Z.id.
  2: { rewrite Forall_forall in Hoffs. pose proof (Hoffs _ (list_elem_of_lookup_2 _ _ _ Ho)). unfold u_range, u32_max in *.
    change (byte_modulus 4) with 4294967296. lia. }
  assert (drop off payload = wire x ++ concat (map wire (drop (S j) stored)) /\ (off <= length payload)%nat) as [Hdrop Hlen].
  { assert (payload = (to_le 2 version ++ [if deleted then 1 else 0] ++ to_le 2 (Z.of_nat (length stored)) ++ table ++ concat (map wire (take j stored)))
      ++ wire x ++ concat (map wire (drop (S j) stored))) as Hp.
    { unfold payload, v1_payload. fold table. rewrite <- !app_assoc. do 4 f_equal.
      rewrite <- (take_drop_middle _ _ _ Hj) at 1. by rewrite map_app, concat_app. }
    assert (length (to_le 2 version ++ [if deleted then 1 else 0] ++ to_le 2 (Z.of_nat (length stored)) ++ table ++ concat (map wire (take j stored))) = off) as Hpl.
    { rewrite !length_app, !to_le_length, Htl. cbn [length]. unfold off. lia. }
    rewrite Hp. split; [by apply drop_app_n|]. rewrite length_app, Hpl. lia. }
  unfold seek, at_rest. rd_fields. destruct (Nat.ltb_spec (length payload) off); [lia|]. cbn [result_bind]. rewrite Hdrop.
  destruct (column_fits _ _ _ _ _ Hs Hfit Hf Hd Hj) as (Hn & _ & _).
  assert (storable x) as Hx by (rewrite Forall_forall in Hs; by eapply Hs, list_elem_of_lookup_2).
  rewrite (decode_wire _ _ _ Hx Hv) by (pose proof (skip_costs x Hx); constructor; lia). by eexists.
Qed.

Definition v1_table (stored : list ScalarValue) : list Z := concat (to_le 4 <$> offsets_from (5 + length stored * 4) stored).

Section Indexed.
Context (s' : StorageSchema) (version : Z) (deleted : bool) (stored : list ScalarValue) (cols : list (nat * StorageField * ScalarValue)).
Context (Hoffs : Forall (fun x => 0 <= x <= u32_max) (offsets_from (5 + length stored * 4) stored)).
Context (Hs : Forall storable stored) (Hfit : row_fits (ss_fields s') stored).
Context (Hc : read_columns 0 (ss_fields s') stored = Some cols).

Let payload := v1_payload version deleted stored.

(** The columns [done_] have been read, at no more than their cost. *)
Record spent (done_ : list nat) (w b : Z) : Prop := {
  sp_nodup : NoDup done_;
  sp_work : 0 <= w <= sum_z (map (work_at (ss_fields s') stored) done_);
  sp_bytes : 0 <= b <= sum_z (map (bytes_at (ss_fields s') stored) done_)
}.

Lemma costs_at_nonneg i : 0 <= work_at (ss_fields s') stored i /\ 0 <= bytes_at (ss_fields s') stored i.
Proof.
  unfold work_at, bytes_at, column_costs. rewrite !lookup_zip_with.
  destruct (ss_fields s' !! i) as [f|]; cbn; [|lia]. destruct (stored !! i) as [v|] eqn:Hi; cbn; [|lia].
  assert (storable v) as Hv by (rewrite Forall_forall in Hs; by eapply Hs, list_elem_of_lookup_2).
  pose proof (read_costs (sf_data_type f) v Hv). pose proof (skip_costs v Hv). destruct (sf_dropped f); lia.
Qed.

Lemma spend done_ w b i f v rest :
  spent done_ w b -> i ∉ done_ -> (i, f, v) ∈ cols ->
  exists rest' w' b', read_indexed_value (mkReader payload rest 0 w b) s' (length stored) (v1_table stored) i = Ok (v, mkReader payload rest' 0 w' b') /\
    spent (i :: done_) w' b'.
Proof.
  intros [Hnd Hw Hb] Hi Hin. assert (NoDup (i :: done_)) as Hnd' by (by constructor).
  destruct (selected_budget _ _ _ Hs Hfit Hnd') as [Hbw Hbb]. cbn [map sum_z foldr] in Hbw, Hbb.
  fold (sum_z (map (work_at (ss_fields s') stored) done_)) in Hbw. fold (sum_z (map (bytes_at (ss_fields s') stored) done_)) in Hbb.
  destruct (indexed_value_read s' version deleted stored cols i f v rest w b Hoffs Hs Hfit Hc Hin) as [rest' Hr]; [lia..|].
  eexists rest', _, _. split; [exact Hr|]. pose proof (costs_at_nonneg i). constructor; [done| |]; cbn [map sum_z foldr]; unfold sum_z in *; lia.
Qed.

Lemma v1_selected_spec : forall ordinals values done_ rest w b,
  names_distinct (ss_fields s') -> spent done_ w b ->
  (forall i f, ss_fields s' !! i = Some f -> sf_dropped f = false -> i ∈ done_ -> is_Some (values !! sf_name f)) ->
  Forall (fun i => i < length (ss_fields s'))%nat ordinals ->
  exists values', decode_selected_indexed (mkReader payload rest 0 w b) s' (length stored) (v1_table stored) values ordinals = Ok values' /\
    selects (ss_fields s') (row_of cols) values values' ordinals.
Proof.
  pose proof (column_at_read _ _ _ Hc) as Hcol. pose proof Hcol as (Hcols & Hfun & Hex).
  induction ordinals as [|i ordinals IH]; intros values done_ rest w b Hd Hsp Hdone Hlt.
  { exists values. split; [done|]. intros name. cbn. by destruct (values !! name). }
  apply Forall_cons in Hlt as [Hi Hlt]. destruct (lookup_lt_is_Some_2 _ _ Hi) as [f Hf]. cbn [decode_selected_indexed]. rewrite Hf.
  destruct (sf_dropped f || bool_decide (is_Some (values !! sf_name f))) eqn:Hskip.
  - destruct (IH values done_ rest w b Hd Hsp Hdone Hlt) as (values' & Hrun & Hsel). exists values'. split; [done|]. apply selects_skip; [|done].
    unfold live_name. rewrite Hf. destruct (sf_dropped f); [by left|]. right. cbn in Hskip. apply bool_decide_eq_true in Hskip. eauto.
  - apply orb_false_iff in Hskip as [Hdr Hnone%bool_decide_eq_false]. destruct (Hex i f Hf Hdr) as [v Hv].
    assert (i ∉ done_) as Hnd by (intros Hin; by apply Hnone, (Hdone i)).
    destruct (spend done_ w b i f v rest Hsp Hnd Hv) as (rest' & w' & b' & Hr & Hsp').
    assert (forall rest w b done_, spent done_ w b ->
      (forall j g, ss_fields s' !! j = Some g -> sf_dropped g = false -> j ∈ done_ -> is_Some ((<[sf_name f := v]> values) !! sf_name g)) ->
      exists values', decode_selected_indexed (mkReader payload rest 0 w b) s' (length stored) (v1_table stored) (<[sf_name f := v]> values) ordinals = Ok values' /\
        selects (ss_fields s') (row_of cols) values values' (i :: ordinals)) as Hnext.
    { intros rest0 w0 b0 d0 Hsp0 Hd0. destruct (IH _ d0 rest0 w0 b0 Hd Hsp0 Hd0 Hlt) as (values' & Hrun & Hsel).
      exists values'. split; [done|]. eapply selects_insert; [| | |exact Hsel].
      - unfold live_name. by rewrite Hf, Hdr.
      - by destruct (values !! sf_name f); [edestruct Hnone|].
      - by eapply column_lookup. }
    assert (forall j g, ss_fields s' !! j = Some g -> sf_dropped g = false -> j ∈ i :: done_ -> is_Some ((<[sf_name f := v]> values) !! sf_name g)) as Hd'.
    { intros j g Hj Hdg Hin. destruct (decide (sf_name f = sf_name g)) as [->|Hne]; [by rewrite lookup_insert_eq|].
      rewrite lookup_insert_ne by done. apply elem_of_cons in Hin as [->|Hin]; [congruence|]. by eapply Hdone. }
    destruct (Nat.leb_spec (length stored) i) as [Hge|].
    + assert (v = missing_value f) as <-.
      { destruct (elem_read_columns _ _ _ _ _ _ _ Hc Hv) as (j & Hj & _ & _ & Hx). cbn in Hj. subst j.
        by rewrite (proj2 (lookup_ge_None _ _) Hge) in Hx. }
      apply (Hnext rest w b done_ Hsp). intros j g Hj Hdg Hin. apply (Hd' j g); [done..|set_solver].
    + rewrite Hr. cbn [result_bind]. by apply (Hnext rest' w' b' (i :: done_) Hsp').
Qed.

(** [push] on each of the values in turn. *)
Fixpoint push_all {A} (push : A -> nat -> ScalarValue -> SerResult A) (acc : A) (index : nat) (vals : list ScalarValue) : SerResult A :=
  match vals with
  | [] => Ok acc
  | v :: vs => let? acc := push acc index v in push_all push acc (S index) vs
  end.

Lemma project_v1_spec {A} (push : A -> nat -> ScalarValue -> SerResult A) ordinals vals : forall acc index done_ rest w b,
  spent done_ w b -> NoDup (done_ ++ ordinals) -> Forall2 (fun i v => exists f, (i, f, v) ∈ cols) ordinals vals ->
  project_v1 push acc (mkReader payload rest 0 w b) s' (length stored) (v1_table stored) index ordinals = push_all push acc index vals.
Proof.
  intros acc index done_ rest w b Hsp Hnd Hvals. revert acc index done_ rest w b Hsp Hnd.
  induction Hvals as [|i v ordinals vals [f Hf] Hvals IH]; intros acc index done_ rest w b Hsp Hnd; [done|].
  apply NoDup_app in Hnd as Hnd'. destruct Hnd' as (_ & Hdisj & Hnd2). apply NoDup_cons in Hnd2 as [Hi _].
  assert (i ∉ done_) as Hni by (intros Hin; apply (Hdisj i Hin); set_solver).
  destruct (spend done_ w b i f v rest Hsp Hni Hf) as (rest' & w' & b' & Hr & Hsp').
  cbn [project_v1 push_all]. rewrite Hr. cbn [result_bind]. destruct (push acc index v) as [a|e]; [|done]. cbn [result_bind].
  apply (IH a (S index) (i :: done_)); [done|]. by rewrite <- Permutation_middle in Hnd.
Qed.
End Indexed.

(** ** Rows read with a later schema *)

(** A row of [values] written with [s], as [s'] sees it: [s'] knows the layout of [s], every live column
    of [s'] can take what is stored for it, and reading the row stays within the decoder's budgets. *)
Record readable (s s' : StorageSchema) (values : RowValues) (cols : list (nat * StorageField * ScalarValue)) : Prop := {
  re_schema : schema_ok s;
  re_values : values_ok values;
  re_version : ss_version s <= ss_version s';
  re_layout : layout_for_version s' (ss_version s) = Some (compute (ss_fields s));
  re_columns : read_columns 0 (ss_fields s') (stored_values values 0 (ss_fields s)) = Some cols;
  re_fits : row_fits (ss_fields s') (stored_values values 0 (ss_fields s))
}.

Lemma columns_of_at fields stored cols v2 deleted :
  read_columns 0 fields stored = Some cols -> column_at fields (columns_of v2 deleted fields cols).
Proof. intros Hc. unfold columns_of. destruct (v2 && deleted); [apply column_at_null|by eapply column_at_read]. Qed.

(** A v2 row opened: its view, and every column of the row read from it. *)
Lemma v2_opened s s' values deleted bytes cols :
  readable s s' values cols -> encode_row_body true deleted values s = Ok bytes ->
  exists flags view,
    decode_envelope bytes RowObject = Ok (mkHeader PROTOCOL_VERSION RowObject (ss_version s) flags,
      drop HEADER_LEN bytes) /\
    has_flag flags FLAG_ROW_BODY_V2 = true /\ row_view_parse (drop HEADER_LEN bytes) s' flags = Ok view /\
    rv_deleted view = deleted /\ (has_flag flags FLAG_TOMBSTONE_ONLY = deleted) /\
    forall i f v, (i, f, v) ∈ columns_of true deleted (ss_fields s') cols -> v2_column view flags s' i f = Ok v.
Proof.
  intros [Hok Hv Hle Hl Hc Hfit] Henc. assert (forall flags payload, drop HEADER_LEN (envelope RowObject (ss_version s) flags payload) = payload) as Hdrop.
  { intros flags payload. unfold envelope. rewrite !app_assoc. apply drop_app_n. by rewrite !length_app, !le_bytes_length. }
  destruct deleted.
  - rewrite (tombstone_encoded _ _ _ Hok Henc). exists 14, (tombstone_view (ss_version s)). rewrite Hdrop.
    rewrite decode_envelope_of; [|apply header_ok_row; [by destruct Hok|set_solver]|rewrite length_app, to_le_length; done].
    split_and!; try done; [by apply tombstone_parsed|]. intros i f v Hin. unfold v2_column. cbn.
    assert (forall index fields, (i, f, v) ∈ null_columns index fields -> v = null_for_type (sf_data_type f)) as Hnull; [|by rewrite (Hnull _ _ Hin)].
    clear. intros index fields. revert index. induction fields as [|g fs IH]; intros index Hin; [by apply elem_of_nil in Hin|].
    cbn in Hin. apply elem_of_app in Hin as [Hin|Hin]; [|by eapply IH]. destruct (sf_dropped g); [by apply elem_of_nil in Hin|].
    by apply list_elem_of_singleton in Hin as [= -> -> ->].
  - destruct (v2_encoded s values bytes Hok Hv Henc) as (bitmap & has_null & Hrow & Hp & ->). exists 6, (v2_view s values bitmap has_null). rewrite Hdrop.
    rewrite decode_envelope_of; [|apply header_ok_row; [by destruct Hok|set_solver]|done].
    split_and!; try done; [by apply v2_parsed|unfold v2_view; by destruct (offset_width _)|].
    intros i f v Hin. unfold v2_column. rewrite andb_false_r. by eapply v2_column_read; [..|by eapply v2_row_storable| | |].
Qed.

Lemma v1_opened s s' values deleted bytes cols :
  readable s s' values cols -> encode_row_body false deleted values s = Ok bytes ->
  let stored := stored_values values 0 (ss_fields s) in
  let payload := v1_payload (ss_version s) deleted stored in
  decode_envelope bytes RowObject = Ok (mkHeader PROTOCOL_VERSION RowObject (ss_version s) 3, payload) /\
  exists r0 r1 r2,
    read_row_header (new_reader payload) s' 3 = Ok (deleted, r0) /\ rd_uint r0 2 = Ok (Z.of_nat (length stored), r1) /\
    rd_take r1 (length stored * 4) = Ok (v1_table stored, r2) /\
    r2 = mkReader payload (concat (map wire stored)) 0 0 0 /\
    Forall storable stored /\ Forall (fun x => 0 <= x <= u32_max) (offsets_from (5 + length stored * 4) stored).
Proof.
  intros [Hok Hv Hle Hl Hc Hfit] Henc stored payload.
  destruct (v1_encoded values s deleted bytes Hok Hv Henc) as (Hs & Hoffs & Hn & Hp & ->). fold stored in Hs, Hoffs, Hn, Hp |- *. fold payload in Hp |- *.
  rewrite decode_envelope_of; [|apply header_ok_row; [by destruct Hok|set_solver]|done]. split; [done|].
  eexists _, _, _. split; [unfold new_reader; set (o := payload) at 1; unfold payload, v1_payload; apply row_header_wire; [by destruct Hok|done]|].
  split; [apply rd_uint_app; unfold u_range, byte_modulus, u16_max in *; lia|].
  split; [apply rd_take_app; unfold v1_table; by rewrite concat_le_length, offsets_length|]. done.
Qed.

(** C14. A stored row survives changes of its table's schema, in either of the two row formats,
    provided reading it stays within the budgets of the decoder ([row_fits]: nesting, work and bytes; the encoder
    accepts rows beyond them): read with a later schema, every live column
    gives the value that was written (widened to the new type of the column), columns added since
    give their default, dropped columns are skipped, and the tombstone flag is kept.  Only the columns
    of a deleted row of the v2 format are not kept: they read as null. *)
Theorem row_roundtrip s s' values v2 deleted bytes cols :
  readable s s' values cols -> encode_row_body v2 deleted values s = Ok bytes ->
  decode_row_body bytes s' = Ok (mkDecoded deleted (row_of (columns_of v2 deleted (ss_fields s') cols))).
Proof. intros [Hok Hv Hle Hl Hc Hfit] Henc. by eapply row_read. Qed.

(** Reading selected columns and projecting, in either format. *)
Section Selected.
Context (s s' : StorageSchema) (values : RowValues) (deleted : bool) (bytes : list Z) (cols : list (nat * StorageField * ScalarValue)).
Context (Hre : readable s s' values cols) (Hd : names_distinct (ss_fields s')).

Lemma v2_selection ordinals :
  encode_row_body true deleted values s = Ok bytes -> Forall (fun i => i < length (ss_fields s'))%nat ordinals ->
  exists selected, decode_row_body_selected bytes s' ordinals = Ok (mkDecoded deleted selected) /\
    selects (ss_fields s') (row_of (columns_of true deleted (ss_fields s') cols)) ∅ selected ordinals.
Proof.
  intros Henc Hlt. destruct (v2_opened s s' values deleted bytes cols Hre Henc) as (flags & view & Henv & Hf2 & Hparse & Hdel & _ & Hacc).
  destruct (v2_selected_spec view flags s' _ ordinals ∅ Hd (columns_of_at _ _ _ true deleted (re_columns _ _ _ _ Hre)) Hacc Hlt) as (values' & Hrun & Hsel).
  exists values'. unfold decode_row_body_selected. rewrite Henv. cbn [result_bind eh_flags]. rewrite Hf2, Hparse. cbn [result_bind].
  rewrite Hrun. cbn [result_bind]. by rewrite Hdel.
Qed.

Lemma v1_selection ordinals :
  encode_row_body false deleted values s = Ok bytes -> Forall (fun i => i < length (ss_fields s'))%nat ordinals ->
  exists selected, decode_row_body_selected bytes s' ordinals = Ok (mkDecoded deleted selected) /\
    selects (ss_fields s') (row_of (columns_of false deleted (ss_fields s') cols)) ∅ selected ordinals.
Proof.
  intros Henc Hlt. destruct (v1_opened s s' values deleted bytes cols Hre Henc) as (Henv & r0 & r1 & r2 & Hhead & Hcount & Htab & -> & Hs & Hoffs).
  destruct (v1_selected_spec s' (ss_version s) deleted _ cols Hoffs Hs (re_fits _ _ _ _ Hre) (re_columns _ _ _ _ Hre) ordinals ∅ []
    (concat (map wire (stored_values values 0 (ss_fields s)))) 0 0) as (values' & Hrun & Hsel); [done|by constructor; [constructor|cbn; lia..]| |done|].
  { intros i f _ _ Hi. by apply elem_of_nil in Hi. }
  exists values'. unfold decode_row_body_selected. rewrite Henv. cbn [result_bind eh_flags]. change (has_flag 3 FLAG_ROW_BODY_V2) with false. cbv iota.
  rewrite Hhead. cbn [result_bind]. unfold decode_selected_fields. rewrite Hcount. cbn [result_bind]. rewrite Nat2Z.id, Htab. cbn [result_bind].
  by rewrite Hrun.
Qed.

(** The values of live columns, by name and by ordinal. *)
Lemma columns_named v2 ordinals names :
  let all := columns_of v2 deleted (ss_fields s') cols in
  mapM (live_name (ss_fields s')) ordinals = Some names ->
  exists vals, mapM (fun name => row_of all !! name) names = Some vals /\ Forall2 (fun i v => exists f, (i, f, v) ∈ all) ordinals vals.
Proof.
  intros all. pose proof (columns_of_at _ _ _ v2 deleted (re_columns _ _ _ _ Hre)) as Hcol. fold all in Hcol. revert names.
  induction ordinals as [|i is_ IH]; intros names Hnames; [injection Hnames as <-; by exists []|].
  cbn in Hnames. apply bind_Some in Hnames as (name & Hi & (names' & Hns & [= <-])%bind_Some).
  destruct (IH names' Hns) as (vals & Hvs & Hall). unfold live_name in Hi. destruct (ss_fields s' !! i) as [f|] eqn:Hf; [|done].
  destruct (sf_dropped f) eqn:Hdr; [done|]. injection Hi as <-. destruct (proj2 (proj2 Hcol) i f Hf Hdr) as [v Hin].
  exists (v :: vals). split; [|constructor; [by exists f|done]]. cbn. rewrite (column_lookup _ _ _ _ _ Hd Hcol Hin). cbn. by rewrite Hvs.
Qed.

Lemma v2_projection {A} (push : A -> nat -> ScalarValue -> SerResult A) acc ordinals vals :
  encode_row_body true deleted values s = Ok bytes ->
  Forall2 (fun i v => exists f, (i, f, v) ∈ columns_of true deleted (ss_fields s') cols) ordinals vals ->
  project_row_fields push acc bytes s' ordinals = (let? a := push_all push acc 0 vals in Ok (a, deleted)).
Proof.
  intros Henc Hall. destruct (v2_opened s s' values deleted bytes cols Hre Henc) as (flags & view & Henv & Hf2 & Hparse & Hdel & _ & Hacc).
  unfold project_row_fields. rewrite Henv. cbn [result_bind eh_flags]. rewrite Hf2, Hparse. cbn [result_bind]. rewrite Hdel.
  assert (forall index, project_v2 push acc view flags s' index ordinals = push_all push acc index vals) as Hp; [|by rewrite Hp].
  pose proof (columns_of_at _ _ _ true deleted (re_columns _ _ _ _ Hre)) as Hcol.
  revert acc. induction Hall as [|i v is_ vs [f Hin] Hall IH]; intros acc index; [done|].
  cbn [project_v2 push_all]. destruct (proj1 Hcol _ _ _ Hin) as [Hf Hdr]. pose proof (Hacc _ _ _ Hin) as Hx. unfold v2_column in Hx.
  rewrite Hf, Hx. cbn [result_bind]. destruct (push acc index v) as [a|e]; [|done]. apply IH.
Qed.

Lemma v1_projection {A} (push : A -> nat -> ScalarValue -> SerResult A) acc ordinals vals :
  encode_row_body false deleted values s = Ok bytes -> NoDup ordinals ->
  Forall2 (fun i v => exists f, (i, f, v) ∈ columns_of false deleted (ss_fields s') cols) ordinals vals ->
  project_row_fields push acc bytes s' ordinals = (let? a := push_all push acc 0 vals in Ok (a, deleted)).
Proof.
  intros Henc Hnd Hall. destruct (v1_opened s s' values deleted bytes cols Hre Henc) as (Henv & r0 & r1 & r2 & Hhead & Hcount & Htab & -> & Hs & Hoffs).
  unfold project_row_fields. rewrite Henv. cbn [result_bind eh_flags]. change (has_flag 3 FLAG_ROW_BODY_V2) with false. cbv iota.
  rewrite Hhead. cbn [result_bind]. rewrite Hcount. cbn [result_bind]. rewrite Nat2Z.id, Htab. cbn [result_bind].
  rewrite (project_v1_spec s' (ss_version s) deleted _ cols Hoffs Hs (re_fits _ _ _ _ Hre) (re_columns _ _ _ _ Hre) push ordinals vals acc 0 []);
    [done|by constructor; [constructor|cbn; lia..]|done|done].
Qed.
End Selected.

(** C15. Reading only some columns of a stored row gives exactly what reading the whole row gives for them:
    the selected columns by name, and the values a projection passes on, in its order.  The v1 format
    seeks them through its offset table, the v2 format through the layout. *)
Theorem selected_columns_agree s s' values v2 deleted bytes cols ordinals :
  readable s s' values cols -> encode_row_body v2 deleted values s = Ok bytes -> names_distinct (ss_fields s') ->
  Forall (fun i => i < length (ss_fields s'))%nat ordinals ->
  exists full, decode_row_body bytes s' = Ok (mkDecoded deleted full) /\
    (exists selected, decode_row_body_selected bytes s' ordinals = Ok (mkDecoded deleted selected) /\
      forall name, selected !! name = if decide (name ∈ selected_names (ss_fields s') ordinals) then full !! name else None) /\
    (NoDup ordinals -> forall names, mapM (live_name (ss_fields s')) ordinals = Some names ->
      exists vals, mapM (fun name => full !! name) names = Some vals /\
        forall A (push : A -> nat -> ScalarValue -> SerResult A) acc,
          project_row_fields push acc bytes s' ordinals = (let? a := push_all push acc 0 vals in Ok (a, deleted))).
Proof.
  intros Hre Henc Hd Hlt. exists (row_of (columns_of v2 deleted (ss_fields s') cols)). split.
  { destruct Hre as [Hok Hv Hle Hl Hc Hfit]. by eapply row_read. }
  split.
  - assert (exists selected, decode_row_body_selected bytes s' ordinals = Ok (mkDecoded deleted selected) /\
      selects (ss_fields s') (row_of (columns_of v2 deleted (ss_fields s') cols)) ∅ selected ordinals) as (selected & Hrun & Hsel)
      by (destruct v2; [by eapply v2_selection|by eapply v1_selection]).
    exists selected. split; [done|]. intros name. by rewrite Hsel, lookup_empty.
  - intros Hnd names Hnames. destruct (columns_named s s' values deleted cols Hre Hd v2 ordinals names Hnames) as (vals & Hvs & Hall).
    exists vals. split; [done|]. intros A push acc. destruct v2; [by eapply v2_projection|by eapply v1_projection].
Qed.

(** ** The tombstone flag alone *)

(** A column that is stored behind an end offset, or is null. *)
Definition flagged_column (s : StorageSchema) (values : RowValues) (i : nat) : Prop :=
  exists f, ss_fields s !! i = Some f /\ (variable_field f \/ is_null (stored_at values (ss_fields s) i) = true).

Lemma v2_flags_nonzero s values bitmap has_null i :
  v2_row s values bitmap has_null -> flagged_column s values i ->
  (let '(code, _) := offset_width (ends_from 0 (v2_pieces s values)) in v2_flags code has_null =? 0) = false.
Proof.
  intros Hrow (f & Hi & Hf). pose proof (offset_width_ok (v2_pieces s values) (v2_data _ _ _ _ Hrow)) as Hw.
  assert (has_null = true \/ v2_pieces s values <> []) as Hor.
  { destruct Hf as [Hvar|Hnull].
    - right. unfold v2_pieces. intros Hnil%map_eq_nil. assert (i ∈ variable_list 0 (ss_fields s)) as Hin by (apply elem_variable_list; by exists i, f).
      rewrite Hnil in Hin. by apply elem_of_nil in Hin.
    - left. destruct has_null; [done|]. by rewrite (v2_no_null _ _ _ _ Hrow eq_refl i f Hi) in Hnull. }
  destruct (offset_width (ends_from 0 (v2_pieces s values))) as [code w]. destruct Hw as (Hcode & Hwidth & Hends).
  assert (has_null = true \/ code <> 0) as Hor'.
  { destruct Hor as [?|Hne]; [by left|right]. intros ->. cbn in Hwidth. destruct Hends as [[? _]|(_ & Hw124 & _)]; [done|lia]. }
  clear -Hcode Hor'. repeat (apply elem_of_cons in Hcode as [->|Hcode]; [destruct has_null; try done; by destruct Hor'|]). by apply elem_of_nil in Hcode.
Qed.

(** What [decode_row_metadata] reads: a version, then a byte. *)
Lemma metadata_byte version flags b rest :
  0 <= version <= u16_max -> flags ∈ [3; 6; 14] ->
  Z.of_nat (length (to_le 2 version ++ b :: rest)) <= u32_max ->
  decode_row_metadata (envelope RowObject version flags (to_le 2 version ++ b :: rest)) = Ok (negb (b =? 0)).
Proof.
  intros Hv Hf Hlen. unfold decode_row_metadata. rewrite decode_envelope_of; [|by apply header_ok_row|done]. cbn [result_bind eh_flags].
  assert (has_flag flags FLAG_VERSION_IN_KEY = true /\ has_flag flags (Z.lor FLAG_COLUMN_OFFSETS FLAG_ROW_BODY_V2) = true) as [-> ->].
  { repeat (apply elem_of_cons in Hf as [->|Hf]; [done|]). by apply elem_of_nil in Hf. }
  cbn [negb]. cbv iota. unfold new_reader. rewrite rd_uint_app by (unfold u_range, byte_modulus, u16_max in *; lia). cbn [result_bind].
  by rewrite rd_tag_app.
Qed.

(** C19. The tombstone flag that count and version-resolution scans read without decoding a row.  It is right
    for every row of the v1 format and for every deleted row; but a live row of the v2 format with a
    null or a variable-width column reads as deleted, though decoding the row says it is not: the
    byte that v1 rows keep the flag in holds all the row flags of a v2 row. *)
Theorem row_metadata_flag s values v2 deleted bytes :
  schema_ok s -> values_ok values -> encode_row_body v2 deleted values s = Ok bytes ->
  (v2 = false \/ deleted = true -> decode_row_metadata bytes = Ok deleted) /\
  (forall i, v2 = true -> deleted = false -> flagged_column s values i ->
    decode_row_metadata bytes = Ok true /\
    forall cols, readable s s values cols -> exists row, decode_row_body bytes s = Ok (mkDecoded false row)).
Proof.
  intros Hok Hv Henc. pose proof Hok as [Hver _ _]. split.
  - destruct v2; [intros [|Hd]; [done|]; subst deleted|intros _].
    + rewrite (tombstone_encoded _ _ _ Hok Henc). apply metadata_byte; [done|set_solver|]. rewrite length_app, to_le_length. done.
    + destruct (v1_encoded _ _ _ _ Hok Hv Henc) as (_ & _ & _ & Hp & ->). unfold v1_payload. cbn [app].
      rewrite metadata_byte; [by destruct deleted|done|set_solver|exact Hp].
  - intros i -> -> Hi. split.
    + destruct (v2_encoded _ _ _ Hok Hv Henc) as (bitmap & has_null & Hrow & Hp & ->).
      pose proof (v2_flags_nonzero _ _ _ _ _ Hrow Hi) as Hnz. unfold v2_payload in *.
      destruct (offset_width _) as [code w]. cbn [app] in *. rewrite metadata_byte; [by rewrite Hnz|done|set_solver|done].
    + intros cols [_ _ Hle Hl Hc Hfit]. eexists. by eapply row_read.
Qed.

(** ** Columns without an envelope, and columns passed on in order *)

Lemma sequential_loop values fields : forall index buf out,
  fields_ok fields -> values_ok values ->
  each_field (fun buf index field => let? b := encode_one_field field index values in Ok (buf ++ b)) buf index fields = Ok out ->
  let vs := stored_values values index fields in Forall storable vs /\ out = buf ++ concat (map wire vs).
Proof.
  induction fields as [|f fs IH]; intros index buf out Hok Hv Hrun vs.
  { injection Hrun as <-. subst vs. cbn. by rewrite app_nil_r. }
  apply Forall_cons in Hok as [Hf Hok]. cbn [each_field] in Hrun.
  apply result_bind_ok in Hrun as (buf1 & (b & Hb & <-%Ok_inj)%result_bind_ok & Hrun). apply one_field_encoded in Hb as [Hty ->]; [|done..].
  destruct (IH _ _ _ Hok Hv Hrun) as [Hs ->]. subst vs. cbn [stored_values map concat]. rewrite <- app_assoc. split; [|done].
  constructor; [by exists (sf_data_type f)|done].
Qed.

(** [columns[index] = value] for the columns in turn. *)
Definition set_columns (columns : list ScalarValue) (cols : list (nat * StorageField * ScalarValue)) : list ScalarValue :=
  foldl (fun columns col => <[col.1.1 := col.2]> columns) columns cols.

Lemma emit_set_columns columns cols : emit_columns set_column columns cols = Ok (set_columns columns cols).
Proof. revert columns. induction cols as [|[[i f] v] cols IH]; intros columns; [done|]. cbn. apply IH. Qed.

(** The columns of a row without an envelope, as they travel in commands, survive changes of the schema
    too: by name, and by ordinal with null in the dropped slots. *)
Theorem row_fields_roundtrip s s' values bytes cols :
  readable s s' values cols -> encode_row_fields values s = Ok bytes ->
  decode_row_fields bytes s' = Ok (row_of cols) /\
  decode_row_fields_columns bytes s' = Ok (set_columns (replicate (length (ss_fields s')) VNull) cols).
Proof.
  intros [Hok Hv _ _ Hc Hfit] Henc. unfold encode_row_fields, encode_fields_sequential in Henc.
  apply result_bind_ok in Henc as (n & (-> & Hn)%field_count_ok & Henc).
  apply sequential_loop in Henc as [Hs ->]; [|by destruct Hok|done]. rewrite <- (stored_values_length values 0) in Hn |- *.
  set (stored := stored_values values 0 (ss_fields s)) in *. cbn [app].
  assert (u_range 2 (Z.of_nat (length stored))) as Hr by (unfold u_range, byte_modulus, u16_max in *; lia). split.
  - unfold decode_row_fields, decode_fields, new_reader. set (o := to_le 2 _ ++ _) at 1. rewrite rd_uint_app by done. cbn [result_bind]. rewrite Nat2Z.id.
    unfold decode_named_fields. edestruct (v1_fields_read insert_column s' stored cols) as (r1 & r2 & Hdec & Hskip & Hempty); [done..|].
    rewrite Hdec, insert_columns_row. cbn [result_bind]. rewrite Hskip. cbn [result_bind]. by rewrite Hempty.
  - unfold decode_row_fields_columns, new_reader. set (o := to_le 2 _ ++ _) at 1. rewrite rd_uint_app by done. cbn [result_bind]. rewrite Nat2Z.id.
    edestruct (v1_fields_read set_column s' stored cols) as (r1 & r2 & Hdec & Hskip & Hempty); [done..|].
    rewrite Hdec, emit_set_columns. cbn [result_bind]. rewrite Hskip. cbn [result_bind]. by rewrite Hempty.
Qed.

Lemma emit_push {A} (push : A -> nat -> ScalarValue -> SerResult A) cols : forall acc n,
  (let? st := emit_columns (push_column push) (acc, n) cols in Ok st.1) = push_all push acc n cols.*2.
Proof.
  induction cols as [|[[i f] v] cols IH]; intros acc n; [done|]. cbn [emit_columns push_column fst snd]. rewrite fmap_cons. cbn [push_all snd].
  unfold push_column at 1. cbn [fst snd]. destruct (push acc n v) as [a|e]; [|done]. cbn [result_bind]. apply IH.
Qed.

(** A scan that passes the columns of each row on to builders hands over every live column once, in the
    order of the schema and numbered from zero, with the values that decoding the row gives, or stops
    at the first error of a builder. *)
Theorem columns_passed_in_order {A} (push : A -> nat -> ScalarValue -> SerResult A) acc s s' values v2 deleted bytes cols :
  readable s s' values cols -> encode_row_body v2 deleted values s = Ok bytes ->
  decode_row_body_into_columns push acc bytes s' =
    (let? a := push_all push acc 0 (columns_of v2 deleted (ss_fields s') cols).*2 in Ok (a, deleted)) /\
  decode_row_body bytes s' = Ok (mkDecoded deleted (row_of (columns_of v2 deleted (ss_fields s') cols))).
Proof.
  intros Hre Henc. split; [|destruct Hre; by eapply row_read]. unfold decode_row_body_into_columns. destruct v2.
  - destruct (v2_opened s s' values deleted bytes cols Hre Henc) as (flags & view & Henv & Hf2 & Hparse & Hdel & Htomb & Hacc).
    rewrite Henv. cbn [result_bind eh_flags]. rewrite Hf2, Hparse. cbn [result_bind]. rewrite Hdel.
    assert (v2_columns (push_column push) view flags s' (acc, 0%nat) =
      emit_columns (push_column push) (acc, 0%nat) (columns_of true deleted (ss_fields s') cols)) as ->.
    { unfold v2_columns, columns_of in *. destruct deleted; cbn [andb] in *.
      - apply tombstone_columns. intros i f. unfold v2_column. by rewrite Hdel, Htomb.
      - eapply each_read_columns; [apply Hre|]. exact Hacc. }
    rewrite <- emit_push. by destruct (emit_columns _ _ _) as [[a n]|e].
  - destruct (v1_opened s s' values deleted bytes cols Hre Henc) as (Henv & r0 & r1 & r2 & Hhead & Hcount & Htab & -> & Hs & _).
    rewrite Henv. cbn [result_bind eh_flags]. change (has_flag 3 FLAG_ROW_BODY_V2) with false. cbv iota. rewrite Hhead. cbn [result_bind].
    rewrite Hcount. cbn [result_bind]. rewrite Nat2Z.id. unfold skip_offset_table. rewrite Htab. cbn [result_bind].
    edestruct (v1_fields_read (push_column push) s' (stored_values values 0 (ss_fields s)) cols) as (r3 & r4 & Hdec & Hskip & Hempty); [done|apply Hre|apply Hre|].
    rewrite Hdec, <- emit_push. unfold columns_of. cbn [andb]. destruct (emit_columns _ _ _) as [[a n]|e]; [|done]. cbn [result_bind].
    rewrite Hskip. cbn [result_bind]. by rewrite Hempty.
Qed.

(** ** A table that changed *)

Module RowCodecWitness.

(** Version 1 of a table, and version 3: [id] and the tags are wider, [old] was dropped, [note] was
    added with a default. *)
Definition fields_v1 : list StorageField :=
  [new_field "id" TInt32; new_field "name" TUtf8; new_field "old" TBoolean; new_field "tags" (TList TInt16)].

Definition fields_v3 : list StorageField :=
  [new_field "id" TInt64; new_field "name" TUtf8; dropped_slot; new_field "tags" (TList TInt32);
   mkField "note" TUtf8 false (Some (VUtf8 (Some "none"%string)))].

Definition schema_v1 : StorageSchema := new_schema 1 fields_v1.
Definition schema_v3 : StorageSchema := register_historical_version (new_schema 3 fields_v3) 1 fields_v1.

Definition row_values : RowValues :=
  RowColumns [VInt32 (Some (-7)); VLargeUtf8 (Some "ann"%string); VBoolean (Some true); VList (Some [VInt16 (Some 300); VInt16 None])].

Definition encoded (v2 : bool) : list Z :=
  match encode_row_body v2 false row_values schema_v1 with Ok b => b | Err _ => [] end.

Definition seen : list (nat * StorageField * ScalarValue) :=
  [(0%nat, new_field "id" TInt64, VInt64 (Some (-7)));
   (1%nat, new_field "name" TUtf8, VUtf8 (Some "ann"%string));
   (3%nat, new_field "tags" (TList TInt32), VList (Some [VInt32 (Some 300); VInt32 None]));
   (4%nat, mkField "note" TUtf8 false (Some (VUtf8 (Some "none"%string))), VUtf8 (Some "none"%string))].

Lemma schema_v1_ok : schema_ok schema_v1.
Proof.
  constructor; [vm_compute; by split| |done]. repeat constructor.
Qed.

Lemma row_values_ok : values_ok row_values.
Proof. cbn. repeat constructor; cbn; try done. Qed.

Lemma row_readable : readable schema_v1 schema_v3 row_values seen.
Proof.
  constructor; [apply schema_v1_ok|apply row_values_ok|done|vm_compute; reflexivity|vm_compute; reflexivity|].
  constructor; vm_compute; discriminate.
Qed.

Lemma names_v3_distinct : names_distinct fields_v3.
Proof.
  intros i j f g Hi Hj Hf Hg Hn. do 5 (destruct i as [|i]; [do 5 (destruct j as [|j]; [by simplify_eq/=|]); done|]). done.
Qed.

Lemma row_roundtrip_witness :
  decode_row_body (encoded false) schema_v3 = Ok (mkDecoded false (row_of seen)) /\
  decode_row_body (encoded true) schema_v3 = Ok (mkDecoded false (row_of seen)) /\
  row_of seen !! "tags"%string = Some (VList (Some [VInt32 (Some 300); VInt32 None])).
Proof.
  split; [|split].
  - apply (row_roundtrip schema_v1 schema_v3 row_values false false (encoded false) seen row_readable). vm_compute. reflexivity.
  - apply (row_roundtrip schema_v1 schema_v3 row_values true false (encoded true) seen row_readable). vm_compute. reflexivity.
  - vm_compute. reflexivity.
Defined.

Lemma selected_columns_agree_witness :
  exists full, decode_row_body (encoded true) schema_v3 = Ok (mkDecoded false full) /\
    (exists selected, decode_row_body_selected (encoded true) schema_v3 [4%nat; 0%nat] = Ok (mkDecoded false selected) /\
      selected !! "id"%string = full !! "id"%string /\ selected !! "name"%string = None).
Proof.
  destruct (selected_columns_agree schema_v1 schema_v3 row_values true false (encoded true) seen [4%nat; 0%nat] row_readable) as (full & Hfull & (selected & Hsel & Hagree) & _).
  - vm_compute. reflexivity.
  - exact names_v3_distinct.
  - repeat constructor; cbn; lia.
  - exists full. split; [exact Hfull|]. exists selected. split; [exact Hsel|]. rewrite !Hagree. split; [|reflexivity]. reflexivity.
Defined.

Lemma row_metadata_flag_witness :
  decode_row_metadata (encoded false) = Ok false /\ decode_row_metadata (encoded true) = Ok true /\
  exists row, decode_row_body (encoded true) schema_v1 = Ok (mkDecoded false row).
Proof.
  assert (exists cols, readable schema_v1 schema_v1 row_values cols) as [cols Hcols].
  { eexists. constructor; [apply schema_v1_ok|apply row_values_ok|done|vm_compute; reflexivity|vm_compute; reflexivity|].
    constructor; vm_compute; discriminate. }
  split; [|].
  - apply (row_metadata_flag schema_v1 row_values false false (encoded false) schema_v1_ok row_values_ok); [vm_compute; reflexivity|by left].
  - destruct (row_metadata_flag schema_v1 row_values true false (encoded true) schema_v1_ok row_values_ok) as [_ Hlive]; [vm_compute; reflexivity|].
    destruct (Hlive 1%nat) as [Hflag Hbody]; [done|done|exists (new_field "name" TUtf8); split; [done|by left]|].
    split; [exact Hflag|]. exact (Hbody cols Hcols).
Defined.

Definition bare_fields : list Z :=
  match encode_row_fields row_values schema_v1 with Ok b => b | Err _ => [] end.

Lemma row_fields_roundtrip_witness :
  decode_row_fields bare_fields schema_v3 = Ok (row_of seen) /\
  decode_row_fields_columns bare_fields schema_v3 = Ok (set_columns (replicate 5 VNull) seen).
Proof. apply (row_fields_roundtrip schema_v1 schema_v3 row_values bare_fields seen row_readable). vm_compute. reflexivity. Defined.

Lemma columns_passed_in_order_witness :
  decode_row_body_into_columns (fun acc n v => Ok (acc ++ [(n, v)])) [] (encoded true) schema_v3 =
    Ok ([(0%nat, VInt64 (Some (-7))); (1%nat, VUtf8 (Some "ann"%string)); (2%nat, VList (Some [VInt32 (Some 300); VInt32 None]));
         (3%nat, VUtf8 (Some "none"%string))], false).
Proof.
  apply (columns_passed_in_order (fun acc n v => Ok (acc ++ [(n, v)])) [] schema_v1 schema_v3 row_values true false (encoded true) seen row_readable).
  vm_compute. reflexivity.
Defined.

End RowCodecWitness.
