(* ===== verification/RowSafety.v ===== *)
(** * RowSafety: stored rows of any bytes

    The decoders of RowValue.v and RowCodec.v (kalamdb-serialization/src/row/value.rs, decode.rs) on
    bytes that need not come from the encoder: what they return has the type of the column, and is
    bounded by the reader's budgets whatever the bytes claim.  Rows of moderate size stay within
    those budgets. *)

From Stdlib Require Import ZArith Lia Ascii.
From stdpp Require Import base strings list gmap.
From S2P Require Import Prelude Protocol RowValue RowCodec.

Open Scope Z_scope.
Open Scope kalam_scope.

(** ** The size of a value *)

(** Values in a value, itself included; a slot of an embedding counts as one. *)
Fixpoint nodes (v : ScalarValue) : Z :=
  match v with
  | VFixedSizeList _ (Some (Some floats)) => 1 + Z.of_nat (length floats)
  | VStruct (Some cells) => 1 + sum_z (map (fun c => nodes c.2) cells)
  | VList (Some items) => 1 + sum_z (map nodes items)
  | _ => 1
  end.

(** Bytes of text, binary and embeddings, and the slots of lists. *)
Fixpoint content (v : ScalarValue) : Z :=
  match v with
  | VUtf8 (Some s) => Z.of_nat (length (bytes_of_string s))
  | VBinary (Some b) => Z.of_nat (length b)
  | VFixedSizeList _ (Some (Some floats)) => 4 * Z.of_nat (length floats)
  | VStruct (Some cells) => sum_z (map (fun c => content c.2) cells)
  | VList (Some items) => 16 * Z.of_nat (length items) + sum_z (map content items)
  | _ => 0
  end.

Lemma null_size t : nodes (null_for_type t) = 1 /\ content (null_for_type t) = 0 /\ nesting (null_for_type t) = 0.
Proof. by destruct t. Qed.

(** ** Readers within their budgets *)

Record within (r : RowReader) : Prop := {
  wi_bytes : all_bytes (rd_rest r);
  wi_depth : 0 <= rd_depth r <= MAX_NESTING;
  wi_work : 0 <= rd_work r <= MAX_DECODE_WORK;
  wi_decoded : 0 <= rd_decoded_bytes r <= MAX_DECODED_BYTES
}.

(** [r'] is [r] after reading, at the same depth, with at least so much work and so many bytes
    charged. *)
Record reads (work bytes : Z) (r r' : RowReader) : Prop := {
  re_within : within r';
  re_depth : rd_depth r' = rd_depth r;
  re_work : rd_work r + work <= rd_work r';
  re_bytes : rd_decoded_bytes r + bytes <= rd_decoded_bytes r'
}.

Lemma reads_refl r : within r -> reads 0 0 r r.
Proof. intros H. constructor; [done|done|lia..]. Qed.

Lemma reads_trans w1 b1 w2 b2 r1 r2 r3 : reads w1 b1 r1 r2 -> reads w2 b2 r2 r3 -> reads (w1 + w2) (b1 + b2) r1 r3.
Proof. intros [H1 H2 H3 H4] [H5 H6 H7 H8]. constructor; [done|congruence|lia..]. Qed.

Lemma reads_weaken w b w' b' r r' : reads w b r r' -> w' <= w -> b' <= b -> reads w' b' r r'.
Proof. intros [H1 H2 H3 H4] Hw Hb. constructor; [done|done|lia..]. Qed.

Lemma charge_work_reads r n r' : within r -> 0 <= n -> charge_work r n = Ok r' -> reads n 0 r r'.
Proof.
  intros [Hb Hd Hw Hy] Hn. unfold charge_work. destruct (checked_add _ _) as [next|] eqn:E; [|done].
  assert (next = rd_work r + n) as -> by (unfold checked_add in E; by case_match; simplify_eq).
  destruct (Z.ltb_spec MAX_DECODE_WORK (rd_work r + n)); [done|]. intros <-%Ok_inj. constructor; [constructor|..]; cbn; (done || lia).
Qed.

Lemma charge_bytes_reads r n r' : within r -> 0 <= n -> charge_bytes r n = Ok r' -> reads 0 n r r'.
Proof.
  intros [Hb Hd Hw Hy] Hn. unfold charge_bytes. destruct (checked_add _ _) as [next|] eqn:E; [|done].
  assert (next = rd_decoded_bytes r + n) as -> by (unfold checked_add in E; by case_match; simplify_eq).
  destruct (Z.ltb_spec MAX_DECODED_BYTES (rd_decoded_bytes r + n)); [done|]. intros <-%Ok_inj. constructor; [constructor|..]; cbn; (done || lia).
Qed.

Lemma rd_take_reads r n b r' : within r -> rd_take r n = Ok (b, r') -> reads 0 0 r r' /\ all_bytes b /\ length b = n.
Proof.
  intros [Hb Hd Hw Hy]. unfold rd_take. destruct (Nat.ltb_spec (length (rd_rest r)) n); [done|]. intros [<- <-]%Ok_inj%pair_eq.
  split; [constructor; [constructor|..]; cbn; try (done || lia); by apply all_bytes_drop|]. split; [by apply all_bytes_take|]. rewrite length_take. lia.
Qed.

Lemma rd_uint_reads r n x r' : within r -> rd_uint r n = Ok (x, r') -> reads 0 0 r r' /\ u_range n x.
Proof.
  intros Hr. unfold rd_uint. intros ([b r1] & (Hread & Hb & <-)%rd_take_reads & [<- <-]%Ok_inj%pair_eq)%result_bind_ok; [|done].
  split; [done|]. by apply from_le_range.
Qed.

Lemma rd_bytes_reads r b r' : within r -> rd_bytes r = Ok (b, r') -> reads 0 (Z.of_nat (length b)) r r' /\ all_bytes b.
Proof.
  intros Hr. unfold rd_bytes. intros ([len r1] & (H1 & Hlen)%rd_uint_reads & H)%result_bind_ok; [|done].
  destruct (remaining r1 <? len); [done|]. apply result_bind_ok in H as (r2 & H2 & H3).
  apply charge_bytes_reads in H2; [|apply H1|apply Hlen]. apply rd_take_reads in H3 as (H3 & Hb & Hl); [|apply H2]. split; [|done].
  rewrite Hl, Z2Nat.id by apply Hlen. eapply reads_weaken; [exact (reads_trans _ _ _ _ _ _ _ (reads_trans _ _ _ _ _ _ _ H1 H2) H3)|lia..].
Qed.

Lemma rd_string_reads r s r' : within r -> rd_string r = Ok (s, r') ->
  reads 0 (Z.of_nat (length (bytes_of_string s))) r r' /\ text_ok s.
Proof.
  intros Hr. unfold rd_string. intros ([b r1] & (H1 & Hb)%rd_bytes_reads & H)%result_bind_ok; [|done].
  destruct (utf8_valid b) eqn:Hu; [|done]. injection H as <- <-. unfold text_ok. by rewrite bytes_string_bytes.
Qed.

(** A nested value: its children are read one level deeper. *)
Lemma enter_reads r r' : within r -> enter_nested r = Ok r' ->
  within r' /\ rd_depth r' = rd_depth r + 1 /\ rd_work r' = rd_work r /\ rd_decoded_bytes r' = rd_decoded_bytes r.
Proof.
  intros [Hb Hd Hw Hy]. unfold enter_nested. destruct (checked_add _ _) as [next|] eqn:E; [|done].
  assert (next = rd_depth r + 1) as -> by (unfold checked_add in E; by case_match; simplify_eq).
  destruct (Z.ltb_spec MAX_NESTING (rd_depth r + 1)); [done|]. intros <-%Ok_inj. split; [constructor|]; cbn; (done || lia).
Qed.

Lemma nested_reads w b r r1 r2 : within r -> enter_nested r = Ok r1 -> reads w b r1 r2 -> reads w b r (exit_nested r2).
Proof.
  intros Hr (H1 & Hd & Hw & Hb)%enter_reads [[Hy Hd2 Hw2 Hb2] Hdep Hwork Hbytes]; [|done]. pose proof (wi_depth _ Hr).
  assert (rd_depth (exit_nested r2) = rd_depth r) as E by (cbn; unfold saturating_sub; lia).
  constructor; [constructor|..]; rewrite ?E; cbn; (done || lia).
Qed.

(** ** Skipping *)

Lemma repeat_reads f n r r' :
  (forall r r', within r -> f r = Ok r' -> reads 0 0 r r') -> within r -> repeat_read f n r = Ok r' -> reads 0 0 r r'.
Proof.
  intros Hf. revert r. induction n as [|n IH]; intros r Hr; [intros <-%Ok_inj; by apply reads_refl|].
  cbn. intros (r1 & H1%Hf & H2)%result_bind_ok; [|done]. apply IH in H2; [|apply H1]. exact (reads_trans _ _ _ _ _ _ _ H1 H2).
Qed.

Lemma skip_one_reads children r r' :
  (forall n r r', within r -> children n r = Ok r' -> reads 0 0 r r') -> within r -> skip_one children r = Ok r' -> reads 0 0 r r'.
Proof.
  intros Hc Hr. unfold skip_one. intros (r1 & H1 & H)%result_bind_ok. apply charge_work_reads in H1; [|done|lia].
  apply result_bind_ok in H as ([tag r2] & [H2 _]%rd_uint_reads & H); [|apply H1].
  assert (reads 1 0 r r2) as H12 by exact (reads_trans _ _ _ _ _ _ _ H1 H2). clear H1 H2.
  enough (reads 0 0 r2 r') as H3 by (eapply reads_weaken; [exact (reads_trans _ _ _ _ _ _ _ H12 H3)|lia..]).
  destruct H12 as [Hr2 _ _ _]. clear r1 r Hr. destruct (tag_width tag) as [n|].
  { apply result_bind_ok in H as ([b r3] & (H3 & _)%rd_take_reads & <-%Ok_inj); [|done]. done. }
  destruct (_ || _).
  { apply result_bind_ok in H as ([b r3] & (H3 & _)%rd_bytes_reads & <-%Ok_inj); [|done]. eapply reads_weaken; [done|lia..]. }
  destruct (tag =? TAG_EMBEDDING).
  { apply result_bind_ok in H as ([b r3] & (H3 & _)%rd_take_reads & H); [|done].
    destruct (Z.ltb_spec (signed_le b) 0); [done|]. destruct (_ <? _); [done|].
    apply result_bind_ok in H as (r4 & H4 & H). apply charge_work_reads in H4; [|apply H3|done].
    apply result_bind_ok in H as ([b' r5] & (H5 & _)%rd_take_reads & <-%Ok_inj); [|apply H4].
    eapply reads_weaken; [exact (reads_trans _ _ _ _ _ _ _ H3 (reads_trans _ _ _ _ _ _ _ H4 H5))|lia..]. }
  assert (forall count n r3 r4 r5 r6, enter_nested r2 = Ok r3 -> reads 0 0 r3 r4 -> 0 <= count -> charge_work r4 count = Ok r5 ->
    children n r5 = Ok r6 -> reads 0 0 r2 (exit_nested r6)) as Hnest.
  { intros count n r3 r4 r5 r6 H3 H4 Hn H5 H6. apply charge_work_reads in H5; [|apply H4|done]. apply Hc in H6; [|apply H5].
    eapply nested_reads; [done..|]. eapply reads_weaken; [exact (reads_trans _ _ _ _ _ _ _ H4 (reads_trans _ _ _ _ _ _ _ H5 H6))|lia..]. }
  destruct (tag =? TAG_STRUCT); [|destruct (tag =? TAG_LIST); [|done]].
  - apply result_bind_ok in H as (r3 & H3 & H). apply result_bind_ok in H as ([count r4] & [H4 Hn]%rd_uint_reads & H); [|by eapply enter_reads].
    destruct (_ <? _); [done|]. apply result_bind_ok in H as (r5 & H5 & (r6 & H6 & <-%Ok_inj)%result_bind_ok).
    eapply Hnest; [done..| |done|done]. apply Hn.
  - apply result_bind_ok in H as (r3 & H3 & H). apply result_bind_ok in H as ([count r4] & [H4 Hn]%rd_uint_reads & H); [|by eapply enter_reads].
    destruct (_ <? _); [done|]. destruct (_ <? _); [done|]. apply result_bind_ok in H as (r5 & H5 & (r6 & H6 & <-%Ok_inj)%result_bind_ok).
    eapply Hnest; [done..| |done|done]. apply Hn.
Qed.

Lemma skip_value_reads r r' : within r -> skip_value r = Ok r' -> reads 0 0 r r'.
Proof.
  unfold skip_value. generalize (Z.to_nat MAX_NESTING) as levels. intros levels. revert r r'.
  induction levels as [|levels IH]; intros r r' Hr; cbn [skip_value_at]; apply skip_one_reads; try done. intros n r1 r1' Hr1 Hrun. by eapply repeat_reads.
Qed.

(** ** Values of fixed width *)

Lemma lor_below n a b : 0 <= n -> 0 <= a < 2 ^ n -> 0 <= b < 2 ^ n -> 0 <= Z.lor a b < 2 ^ n.
Proof.
  intros Hn Ha Hb. assert (0 <= Z.lor a b) as H0 by (apply Z.lor_nonneg; lia). split; [done|].
  destruct (Z.eq_dec (Z.lor a b) 0) as [->|]; [lia|]. apply Z.log2_lt_pow2; [lia|]. rewrite Z.log2_lor by lia.
  assert (forall x, 0 <= x < 2 ^ n -> Z.log2 x < n \/ x = 0) as Hlog.
  { intros x Hx. destruct (Z.eq_dec x 0); [by right|left]. apply Z.log2_lt_pow2; lia. }
  pose proof (Z.log2_nonneg a). pose proof (Z.log2_nonneg b).
  destruct (Hlog a Ha) as [?| ->], (Hlog b Hb) as [?| ->]; change (Z.log2 0) with 0 in *; lia || done.
Qed.

Lemma f64_bits_range b : u_range 4 b -> u_range 8 (f64_bits_of_f32 b).
Proof.
  unfold u_range. change (byte_modulus 4) with (2 ^ 32). change (byte_modulus 8) with (2 ^ 64). intros Hb. unfold f64_bits_of_f32.
  rewrite !Z.shiftr_div_pow2, !Z.shiftl_mul_pow2 by lia. set (sign := b / 2 ^ 31).
  assert (0 <= sign <= 1) as Hs by (subst sign; pose proof (Z.div_le_lower_bound b (2 ^ 31)); split; [apply Z.div_pos; lia|];
    apply Z.lt_succ_r, Z.div_lt_upper_bound; lia).
  change 255 with (Z.ones 8). change (2 ^ 23 - 1) with (Z.ones 23). rewrite !Z.land_ones by lia. change (Z.ones 8) with 255.
  set (exponent := (b / 2 ^ 23) mod 2 ^ 8). set (mantissa := b mod 2 ^ 23).
  assert (0 <= exponent <= 255) as He by (pose proof (Z.mod_pos_bound (b / 2 ^ 23) (2 ^ 8)); lia).
  assert (0 <= mantissa < 2 ^ 23) as Hm by (apply Z.mod_pos_bound; lia). clearbody sign exponent mantissa. clear b Hb.
  change (2 ^ 63) with (2048 * 2 ^ 52). change (2 ^ 64) with (4096 * 2 ^ 52).
  assert (2 ^ 52 = 4503599627370496) as H52 by done. assert (2 ^ 29 = 536870912) as H29 by done. assert (2 ^ 23 = 8388608) as H23 by done.
  rewrite H52 in *. rewrite H23 in *. rewrite H29 in *.
  destruct (Z.eqb_spec exponent 255).
  { destruct (mantissa =? 0); [lia|]. pose proof (lor_below 52 (mantissa * 536870912) (2 ^ 51)) as Hl. rewrite H52 in Hl. change (2 ^ 51) with 2251799813685248 in *. lia. }
  destruct (exponent =? 0); [|rewrite Z.shiftl_mul_pow2 by lia; lia]. destruct (Z.eqb_spec mantissa 0); [lia|].
  pose proof (Z.log2_spec mantissa ltac:(lia)) as Hlog. assert (Z.log2 mantissa < 23) as Hk by (apply Z.log2_lt_pow2; lia).
  pose proof (Z.log2_nonneg mantissa) as Hk0. set (k := Z.log2 mantissa) in *. rewrite Z.pow_succ_r in Hlog by done.
  rewrite !Z.shiftl_mul_pow2 by lia. assert (2 ^ k * 2 ^ (52 - k) = 2 ^ 52) as Hp by (rewrite <- Z.pow_add_r by lia; f_equal; lia).
  assert (0 < 2 ^ (52 - k)) by (apply Z.pow_pos_nonneg; lia). nia.
Qed.

Lemma quot_1000_range x : i_range 8 x -> i_range 8 (Z.quot x 1000).
Proof.
  unfold i_range. change (byte_modulus 8 / 2) with 9223372036854775808. intros Hx. pose proof (Z.quot_rem x 1000 ltac:(lia)) as Hq.
  pose proof (Z.rem_bound_abs x 1000 ltac:(lia)) as Hr. lia.
Qed.

Lemma scaled_range x k v : scale_timestamp x k = Ok v -> i_range 8 v.
Proof.
  unfold scale_timestamp, i64_checked_mul, i_range. change (byte_modulus 8 / 2) with (2 ^ 63).
  destruct (Z.leb_spec (- 2 ^ 63) (x * k)), (Z.leb_spec (x * k) i64_max); cbn [andb]; try done. intros <-%Ok_inj. unfold i64_max in *. lia.
Qed.

Lemma fixed_bytes_typed n b : length b = n -> (0 < n)%nat -> all_bytes b -> i_range n (signed_le b) /\ u_range n (from_le b).
Proof.
  intros Hl Hn Hb. split; [|rewrite <- Hl; by apply from_le_range]. rewrite <- Hl. apply signed_le_range; [|done]. intros ->. cbn in Hl. lia.
Qed.

Lemma fixed_arm_typed tag t n f b v :
  fixed_arm tag t = Some (n, f) -> length b = n -> all_bytes b -> f b = Ok v ->
  typed t v /\ nodes v = 1 /\ content v = 0 /\ nesting v = 0.
Proof.
  intros Hf Hl Hb Hv. assert (n <> O -> i_range n (signed_le b) /\ u_range n (from_le b)) as Hr by (intros; apply fixed_bytes_typed; [done|lia|done]).
  destruct t; cbn in Hf; try discriminate Hf;
    repeat (case_match; [injection Hf as <- <-|]); try discriminate Hf;
    (destruct Hr as [Hi Hu]; [done|]);
    try (apply result_bind_ok in Hv as (x & Hx%scaled_range & Hv));
    injection Hv as <-; cbn; (split; [|done]);
    eauto using i_range_mono, u_range_mono, f64_bits_range, quot_1000_range, u_range_mono;
    first [apply f64_bits_range; done | split; [done|]; (done || by apply quot_1000_range)
          | eapply i_range_mono; [|exact Hi]; lia | eapply u_range_mono; [|exact Hu]; lia | done].
Qed.

(** ** Any bytes, read as a type *)

(** [v], read between [r] and [r'], has the type, and was charged for. *)
Record decoded (t : StorageDataType) (v : ScalarValue) (r r' : RowReader) : Prop := {
  de_typed : typed t v;
  de_reads : reads (nodes v) (content v) r r';
  de_nesting : rd_depth r + nesting v <= MAX_NESTING
}.

Lemma read_floats_reads n : forall r fs r', within r -> read_floats n r = Ok (fs, r') ->
  reads 0 0 r r' /\ length fs = n /\ Forall (fun f => f.1 = true /\ u_range 4 f.2) fs.
Proof.
  induction n as [|n IH]; intros r fs r' Hr; cbn.
  - intros [<- <-]%Ok_inj%pair_eq. split; [by apply reads_refl|done].
  - intros ([f r1] & [H1 Hf]%rd_uint_reads & H)%result_bind_ok; [|done].
    apply result_bind_ok in H as ([gs r2] & (H2 & <- & Hgs)%IH & [<- <-]%Ok_inj%pair_eq); [|apply H1].
    split; [exact (reads_trans _ _ _ _ _ _ _ H1 H2)|]. split; [done|by constructor].
Qed.

Lemma decimal_decoded r p s v r' : within r -> decode_decimal r p s = Ok (v, r') ->
  typed (TDecimal p s) v /\ reads 0 0 r r' /\ nodes v = 1 /\ content v = 0 /\ nesting v = 0.
Proof.
  intros Hr. unfold decode_decimal. intros ([got_p r1] & [H1 _]%rd_uint_reads & H)%result_bind_ok; [|done].
  apply result_bind_ok in H as ([b r2] & (H2 & _)%rd_take_reads & H); [|apply H1].
  destruct (_ || _); [done|]. apply result_bind_ok in H as ([bytes r3] & (H3 & Hb & Hl)%rd_take_reads & [<- <-]%Ok_inj%pair_eq); [|apply H2].
  split; [|split; [exact (reads_trans _ _ _ _ _ _ _ H1 (reads_trans _ _ _ _ _ _ _ H2 H3))|done]].
  cbn. split; [done|]. split; [done|]. by apply (fixed_bytes_typed 16); [|lia|].
Qed.

Lemma embedding_decoded r d v r' : within r -> decode_embedding r d = Ok (v, r') ->
  typed (TEmbedding d) v /\ reads (nodes v - 1) (content v) r r' /\ nesting v = 0.
Proof.
  intros Hr. unfold decode_embedding. intros ([b r1] & (H1 & _)%rd_take_reads & H)%result_bind_ok; [|done].
  destruct (Z.leb_spec d 0); [done|]. destruct (_ <=? 0); [done|]. cbn [orb] in H. destruct (negb _); [done|].
  destruct (_ <? _); [done|]. destruct (_ <? _); [done|].
  apply result_bind_ok in H as (r2 & H2 & H). apply charge_work_reads in H2; [|apply H1|lia].
  apply result_bind_ok in H as (r3 & H3 & H). apply charge_bytes_reads in H3; [|apply H2|lia].
  apply result_bind_ok in H as ([fs r4] & (H4 & Hl & Hfs)%read_floats_reads & [<- <-]%Ok_inj%pair_eq); [|apply H3].
  cbn [typed nodes content nesting]. split; [split; [done|]; split; [lia|done]|]. split; [|done].
  eapply reads_weaken; [exact (reads_trans _ _ _ _ _ _ _ H1 (reads_trans _ _ _ _ _ _ _ H2 (reads_trans _ _ _ _ _ _ _ H3 H4)))|lia..].
Qed.

Definition sound_for (t : StorageDataType) : Prop :=
  forall r v r', within r -> decode_value t r = Ok (v, r') -> decoded t v r r'.

Lemma read_values_decoded t n : sound_for t -> forall r vs r', within r -> read_values (decode_value t) n r = Ok (vs, r') ->
  Forall (typed t) vs /\ length vs = n /\ reads (sum_z (map nodes vs)) (sum_z (map content vs)) r r' /\
  rd_depth r + max_z (map nesting vs) <= MAX_NESTING.
Proof.
  intros Ht. induction n as [|n IH]; intros r vs r' Hr; cbn.
  - intros [<- <-]%Ok_inj%pair_eq. split; [done|]. split; [done|]. split; [by apply reads_refl|]. pose proof (wi_depth _ Hr). cbn. lia.
  - intros ([v r1] & [Hv H1 Hn]%Ht & H)%result_bind_ok; [|done].
    apply result_bind_ok in H as ([ws r2] & (Hws & <- & H2 & Hns)%IH & [<- <-]%Ok_inj%pair_eq); [|apply H1].
    split; [by constructor|]. split; [done|]. split; [exact (reads_trans _ _ _ _ _ _ _ H1 H2)|].
    rewrite (re_depth _ _ _ _ H1) in Hns. cbn. fold (max_z (map nesting ws)). lia.
Qed.

Lemma read_struct_decoded fields : Forall (fun f => sound_for (sf_data_type f)) fields -> forall live r cells r',
  within r -> read_struct_fields decode_value fields live r = Ok (cells, r') ->
  cells_typed typed fields cells /\
  reads (sum_z (map (fun c => nodes c.2) cells) - Z.of_nat (length fields - live)) (sum_z (map (fun c => content c.2) cells)) r r' /\
  rd_depth r + max_z (map (fun c => nesting c.2) cells) <= MAX_NESTING.
Proof.
  induction 1 as [|f fs Hf _ IH]; intros live r cells r' Hr; cbn [read_struct_fields].
  - intros [<- <-]%Ok_inj%pair_eq. split; [done|]. split; [by apply reads_refl|]. pose proof (wi_depth _ Hr). cbn. lia.
  - intros ([v r1] & H1 & H)%result_bind_ok. apply result_bind_ok in H as ([cs r2] & H2 & [<- <-]%Ok_inj%pair_eq).
    assert (decoded (sf_data_type f) v r r1 /\ live <> O \/ v = null_for_type (sf_data_type f) /\ r1 = r /\ live = O) as Hcase.
    { destruct live; [right; by injection H1 as <- <-|left; split; [by apply Hf|done]]. }
    assert (within r1) as Hr1 by (destruct Hcase as [[[_ [? _ _ _] _] _]|(_ & -> & _)]; done).
    apply IH in H2 as (Hcs & H2 & Hns); [|done]. cbn [cells_typed map fst snd length]. cbn [sum_z max_z foldr].
    fold (sum_z (map (fun c : string * ScalarValue => nodes c.2) cs)). fold (sum_z (map (fun c : string * ScalarValue => content c.2) cs)).
    fold (max_z (map (fun c : string * ScalarValue => nesting c.2) cs)).
    destruct Hcase as [[[Hv Hre Hn] Hl]|(-> & -> & ->)].
    + split; [done|]. rewrite (re_depth _ _ _ _ Hre) in Hns. split; [|lia].
      eapply reads_weaken; [exact (reads_trans _ _ _ _ _ _ _ Hre H2)|lia..].
    + destruct (null_size (sf_data_type f)) as (-> & -> & ->). split; [split; [done|split; [apply null_typed|done]]|]. cbn [pred] in H2.
      pose proof (wi_depth _ Hr). split; [|lia]. eapply reads_weaken; [exact H2|lia..].
Qed.

(** The head of every value: one unit of work, and the tag. *)
Lemma decode_head t r v r' : within r -> decode_value t r = Ok (v, r') ->
  exists tag r1, reads 1 0 r r1 /\
    (tag = TAG_NULL /\ v = null_for_type t /\ r' = r1 \/
     tag <> TAG_NULL /\ exists r0, charge_work r 1 = Ok r0 /\ rd_uint r0 1 = Ok (tag, r1)).
Proof.
  intros Hr H. assert (exists r0 tag r1, charge_work r 1 = Ok r0 /\ rd_uint r0 1 = Ok (tag, r1)) as (r0 & tag & r1 & H0 & H1).
  { destruct t; cbn [decode_value] in H; apply result_bind_ok in H as (r0 & H0 & ([tag r1] & H1 & _)%result_bind_ok); by eexists _, _, _. }
  exists tag, r1. pose proof H0 as Hw. apply charge_work_reads in Hw; [|done|lia]. pose proof H1 as Hu.
  apply rd_uint_reads in Hu as [Hu _]; [|apply Hw]. split; [exact (reads_trans _ _ _ _ _ _ _ Hw Hu)|].
  destruct (Z.eq_dec tag TAG_NULL) as [->|Hne]; [left|right; split; [done|by exists r0]].
  destruct t; cbn [decode_value] in H; rewrite H0 in H; cbn [result_bind] in H; rewrite H1 in H; cbn [result_bind] in H; by injection H as <- <-.
Qed.

Lemma decoded_flat t v w b r r1 r' :
  reads 1 0 r r1 -> reads w b r1 r' -> typed t v -> nodes v <= 1 + w -> content v <= b -> nesting v = 0 -> decoded t v r r'.
Proof.
  intros H1 H2 Hv Hn Hc Hd. constructor; [done| |].
  - eapply reads_weaken; [exact (reads_trans _ _ _ _ _ _ _ H1 H2)|lia..].
  - pose proof (wi_depth _ (re_within _ _ _ _ H1)). rewrite (re_depth _ _ _ _ H1) in *. lia.
Qed.

Lemma base_decodes t : is_nested t = false -> sound_for t.
Proof.
  intros Hbase r v r' Hr H. destruct (decode_head t r v r' Hr H) as (tag & r1 & H1 & [(-> & -> & ->)|(Hne & r0 & Hw & Hu)]).
  { destruct (null_size t) as (Hn & Hc & Hd). eapply decoded_flat; [done|apply reads_refl, H1|apply null_typed|lia..]. }
  assert (within r1) as Hr1 by apply H1.
  assert (match fixed_arm tag t with
    | Some (n, f) => exists b r2, rd_take r1 n = Ok (b, r2) /\ f b = Ok v /\ r' = r2
    | None => decode_value t r = Ok (v, r')
    end) as Hcase.
  { destruct (fixed_arm tag t) as [[n f]|] eqn:Hf; [|done]. apply Z.eqb_neq in Hne.
    destruct t; cbn [decode_value] in H; rewrite Hw in H; cbn [result_bind] in H; rewrite Hu in H; cbn [result_bind] in H;
      rewrite Hne, Hf in H; apply result_bind_ok in H as ([b r2] & Hb & (x & Hx & [<- <-]%Ok_inj%pair_eq)%result_bind_ok); by exists b, r2. }
  destruct (fixed_arm tag t) as [[n f]|] eqn:Hf.
  { destruct Hcase as (b & r2 & (H2 & Hb & Hl)%rd_take_reads & Hv & ->); [|done].
    destruct (fixed_arm_typed _ _ _ _ _ _ Hf Hl Hb Hv) as (Ht & Hn & Hc & Hd). eapply decoded_flat; [done..|lia|lia|lia]. }
  clear H. apply Z.eqb_neq in Hne.
  destruct t; try discriminate Hbase; cbn [decode_value] in Hcase; rewrite Hw in Hcase; cbn [result_bind] in Hcase; rewrite Hu in Hcase;
    cbn [result_bind] in Hcase; rewrite Hne, Hf in Hcase; try discriminate Hcase; (case_match; [|discriminate Hcase]).
  - apply result_bind_ok in Hcase as ([s r2] & (H2 & Hs)%rd_string_reads & [<- <-]%Ok_inj%pair_eq); [|done]. eapply decoded_flat; [done..|cbn; lia|cbn; lia|done].
  - apply result_bind_ok in Hcase as ([s r2] & (H2 & Hs)%rd_bytes_reads & [<- <-]%Ok_inj%pair_eq); [|done]. eapply decoded_flat; [done..|cbn; lia|cbn; lia|done].
  - apply decimal_decoded in Hcase as (Ht & H2 & Hn & Hc & Hd); [|done]. eapply decoded_flat; [done..|lia|lia|lia].
  - apply embedding_decoded in Hcase as (Ht & H2 & Hd); [|done]. eapply decoded_flat; [done..|lia|lia|lia].
Qed.

(** A nested value: [inner] is what its children cost. *)
Lemma decoded_nested t v w b r r1 r2 r3 :
  reads 1 0 r r1 -> enter_nested r1 = Ok r2 -> reads w b r2 r3 -> typed t v -> nodes v <= 1 + w -> content v <= b ->
  rd_depth r2 + (nesting v - 1) <= MAX_NESTING -> decoded t v r (exit_nested r3).
Proof.
  intros H1 He H3 Hv Hn Hc Hd. pose proof (re_within _ _ _ _ H1) as Hr1. destruct (enter_reads _ _ Hr1 He) as (_ & Hdep & _).
  pose proof (nested_reads _ _ _ _ _ Hr1 He H3) as H2. constructor; [done| |].
  - eapply reads_weaken; [exact (reads_trans _ _ _ _ _ _ _ H1 H2)|lia..].
  - rewrite <- (re_depth _ _ _ _ H1). lia.
Qed.

Lemma struct_decodes fields : Forall (fun f => sound_for (sf_data_type f)) fields -> sound_for (TStruct fields).
Proof.
  intros Hfs r v r' Hr H. destruct (decode_head _ r v r' Hr H) as (tag & r1 & H1 & [(-> & -> & ->)|(Hne & r0 & Hw & Hu)]).
  { eapply decoded_flat; [done|apply reads_refl, H1|apply null_typed|done..]. }
  assert (within r1) as Hr1 by apply H1. apply Z.eqb_neq in Hne. cbn [decode_value] in H. rewrite Hw in H. cbn [result_bind] in H.
  rewrite Hu in H. cbn [result_bind] in H. rewrite Hne in H. cbn [fixed_arm] in H. case_match; [|discriminate H].
  apply result_bind_ok in H as (r2 & H2 & H). pose proof (proj1 (enter_reads _ _ Hr1 H2)) as Hr2.
  apply result_bind_ok in H as ([count r3] & [H3 Hcount]%rd_uint_reads & H); [|done]. destruct (_ || _); [done|].
  unfold u_range in Hcount. apply result_bind_ok in H as (r4 & H4 & H). apply charge_work_reads in H4; [|apply H3|lia].
  apply result_bind_ok in H as ([cells r5] & H5 & H). apply read_struct_decoded in H5 as (Hcells & H5 & Hnest); [|done|apply H4].
  apply result_bind_ok in H as (r6 & H6 & [<- <-]%Ok_inj%pair_eq). apply repeat_reads in H6; [|apply skip_value_reads|apply H5].
  pose proof (reads_trans _ _ _ _ _ _ _ H3 (reads_trans _ _ _ _ _ _ _ H4 (reads_trans _ _ _ _ _ _ _ H5 H6))) as Hall.
  eapply decoded_nested; [done..| | |]; cbn [nodes content nesting].
  - lia.
  - lia.
  - rewrite (re_depth _ _ _ _ H4), (re_depth _ _ _ _ H3) in Hnest. lia.
Qed.

Lemma list_decodes inner : sound_for inner -> sound_for (TList inner).
Proof.
  intros Hin r v r' Hr H. destruct (decode_head _ r v r' Hr H) as (tag & r1 & H1 & [(-> & -> & ->)|(Hne & r0 & Hw & Hu)]).
  { eapply decoded_flat; [done|apply reads_refl, H1|apply null_typed|done..]. }
  assert (within r1) as Hr1 by apply H1. apply Z.eqb_neq in Hne. cbn [decode_value] in H. rewrite Hw in H. cbn [result_bind] in H.
  rewrite Hu in H. cbn [result_bind] in H. rewrite Hne in H. cbn [fixed_arm] in H. case_match; [|discriminate H].
  apply result_bind_ok in H as (r2 & H2 & H). pose proof (proj1 (enter_reads _ _ Hr1 H2)) as Hr2.
  apply result_bind_ok in H as ([len r3] & [H3 Hlen]%rd_uint_reads & H); [|done]. destruct (_ <? _); [done|]. destruct (_ <? _); [done|].
  unfold u_range in Hlen. apply result_bind_ok in H as (r4 & H4 & H). apply charge_work_reads in H4; [|apply H3|lia].
  apply result_bind_ok in H as (r5 & H5 & H). apply charge_bytes_reads in H5; [|apply H4|lia].
  apply result_bind_ok in H as ([items r6] & H6 & [<- <-]%Ok_inj%pair_eq).
  apply read_values_decoded in H6 as (Hitems & Hl & H6 & Hnest); [|done|apply H5].
  pose proof (reads_trans _ _ _ _ _ _ _ H3 (reads_trans _ _ _ _ _ _ _ H4 (reads_trans _ _ _ _ _ _ _ H5 H6))) as Hall.
  eapply decoded_nested; [done..| | |]; cbn [nodes content nesting].
  - lia.
  - lia.
  - rewrite (re_depth _ _ _ _ H5), (re_depth _ _ _ _ H4), (re_depth _ _ _ _ H3) in Hnest. lia.
Qed.

Lemma all_decode t : sound_for t.
Proof. induction t using storage_type_ind; [by apply base_decodes|by apply struct_decodes|by apply list_decodes]. Qed.

(** C17. A column value decoded from any bytes at all, honest or not, has the type the schema asked for, and
    its size is bounded by the decoder's budgets and not by what the bytes claim: at most two million
    values in it, 64 MiB of text, binary and list slots, and 32 levels of nesting. *)
Theorem decoded_values_bounded t bytes v r :
  all_bytes bytes -> decode_value t (new_reader bytes) = Ok (v, r) ->
  typed t v /\ nodes v <= MAX_DECODE_WORK /\ content v <= MAX_DECODED_BYTES /\ nesting v <= MAX_NESTING.
Proof.
  intros Hb H. apply all_decode in H as [Ht [[_ _ Hw Hy] _ Hwork Hbytes] Hn]; [cbn in *; by split_and!; [|lia..]|].
  by constructor; cbn; [|unfold MAX_NESTING, MAX_DECODE_WORK, MAX_DECODED_BYTES; lia..].
Qed.

(** ** Rows of any bytes *)

(** A schema as [new_schema] and [register_historical_version] build it, with defaults of the types of
    their columns. *)
Record schema_built (s : StorageSchema) : Prop := {
  sb_fields : fields_ok (ss_fields s);
  sb_layout : ss_layout s = compute (ss_fields s);
  sb_historical : map_Forall (fun _ l => exists fields, fields_ok fields /\ l = compute fields) (ss_historical_layouts s);
  sb_defaults : Forall (fun f => option_all (typed (sf_data_type f)) (sf_missing_default f)) (ss_fields s)
}.

Lemma new_schema_built version fields :
  fields_ok fields -> Forall (fun f => option_all (typed (sf_data_type f)) (sf_missing_default f)) fields ->
  schema_built (new_schema version fields).
Proof.
  intros Hok Hd. constructor; cbn; try done. apply map_Forall_singleton. by exists fields.
Qed.

Lemma register_built s version fields : fields_ok fields -> schema_built s -> schema_built (register_historical_version s version fields).
Proof.
  intros Hok [H1 H2 H3 H4]. constructor; cbn; try done. apply map_Forall_insert_2; [by exists fields|done].
Qed.

Lemma missing_typed s f : schema_built s -> f ∈ ss_fields s -> typed (sf_data_type f) (missing_value f).
Proof.
  intros [_ _ _ Hd] Hf. rewrite Forall_forall in Hd. specialize (Hd f Hf). unfold missing_value.
  destruct (sf_missing_default f); [done|apply null_typed].
Qed.

Lemma layout_built s version l : schema_built s -> layout_for_version s version = Some l -> exists fields, fields_ok fields /\ l = compute fields.
Proof.
  intros [H1 H2 H3 _]. unfold layout_for_version. destruct (_ =? _); [|by apply H3]. intros [= <-]. by exists (ss_fields s).
Qed.

(** [row'] is [row] with live columns of [fields] filled in, each with a value of its type. *)
Record fills (fields : list StorageField) (row row' : Row) : Prop := {
  fi_typed : forall name v, row' !! name = Some v ->
    row !! name = Some v \/ exists f, f ∈ fields /\ sf_dropped f = false /\ sf_name f = name /\ typed (sf_data_type f) v;
  fi_keeps : forall name, is_Some (row !! name) -> is_Some (row' !! name);
  fi_all : forall f, f ∈ fields -> sf_dropped f = false -> is_Some (row' !! sf_name f)
}.

Lemma fills_nil row : fills [] row row.
Proof. constructor; [by left|done|]. by intros f ?%elem_of_nil. Qed.

Lemma fills_dropped f fs row row' : sf_dropped f = true -> fills fs row row' -> fills (f :: fs) row row'.
Proof.
  intros Hd [H1 H2 H3]. constructor; [|done|].
  - intros name v Hv. destruct (H1 name v Hv) as [?|(g & Hg & Hrest)]; [by left|right]. exists g. split; [set_solver|done].
  - intros g [->|Hg]%elem_of_cons Hdg; [congruence|by apply H3].
Qed.

Lemma fills_column f fs v row row' :
  sf_dropped f = false -> typed (sf_data_type f) v -> fills fs (<[sf_name f := v]> row) row' -> fills (f :: fs) row row'.
Proof.
  intros Hd Ht [H1 H2 H3]. constructor.
  - intros name x Hx. destruct (H1 name x Hx) as [Hr|(g & Hg & Hrest)]; [|right; exists g; split; [set_solver|done]].
    apply lookup_insert_Some in Hr as [[<- <-]|[_ Hr]]; [right; exists f; split; [set_solver|done]|by left].
  - intros name Hn. apply H2. apply lookup_insert_is_Some. destruct (decide (sf_name f = name)); [by left|by right].
  - intros g [->|Hg]%elem_of_cons Hdg; [|by apply H3]. apply H2. by rewrite lookup_insert_eq.
Qed.

Lemma decode_columns_fills s fields : schema_built s -> fields ⊆ ss_fields s -> forall row index live r row' r',
  within r -> decode_columns insert_column row index live fields r = Ok (row', r') -> fills fields row row' /\ within r'.
Proof.
  intros Hs. induction fields as [|f fs IH]; intros Hsub row index live r row' r' Hr; cbn [decode_columns].
  { intros [<- <-]%Ok_inj%pair_eq. split; [apply fills_nil|done]. }
  assert (f ∈ ss_fields s) as Hf by (apply Hsub; set_solver). specialize (IH ltac:(set_solver)).
  intros ([row1 r1] & H1 & H)%result_bind_ok. destruct (index <? live)%nat; destruct (sf_dropped f) eqn:Hd.
  - apply result_bind_ok in H1 as (r2 & H2%skip_value_reads & [<- <-]%Ok_inj%pair_eq); [|done].
    apply IH in H as [H ?]; [|apply H2]. split; [by apply fills_dropped|done].
  - apply result_bind_ok in H1 as ([v r2] & [Ht [Hr2 _ _ _] _]%all_decode & (row2 & <-%Ok_inj & [<- <-]%Ok_inj%pair_eq)%result_bind_ok); [|done].
    apply IH in H as [H ?]; [|done]. split; [by eapply fills_column|done].
  - injection H1 as <- <-. apply IH in H as [H ?]; [|done]. split; [by apply fills_dropped|done].
  - apply result_bind_ok in H1 as (row2 & <-%Ok_inj & [<- <-]%Ok_inj%pair_eq). apply IH in H as [H ?]; [|done].
    split; [eapply fills_column; [done| |done]; by eapply missing_typed|done].
Qed.

Lemma each_column_fills (access : nat -> StorageField -> SerResult ScalarValue) fields : forall index row row',
  (forall j f v, fields !! j = Some f -> sf_dropped f = false -> access (index + j)%nat f = Ok v -> typed (sf_data_type f) v) ->
  each_field (fun row index field => if sf_dropped field then Ok row
    else let? v := access index field in insert_column row field index v) row index fields = Ok row' -> fills fields row row'.
Proof.
  induction fields as [|f fs IH]; intros index row row' Hacc; cbn [each_field]; [intros <-%Ok_inj; apply fills_nil|].
  intros (row1 & H1 & H)%result_bind_ok.
  assert (forall j g v, fs !! j = Some g -> sf_dropped g = false -> access (S index + j)%nat g = Ok v -> typed (sf_data_type g) v) as Hacc'.
  { intros j g v Hj Hd Hv. apply (Hacc (S j) g v); [done..|]. by rewrite <- Nat.add_succ_comm. }
  apply IH in H; [|done]. destruct (sf_dropped f) eqn:Hd; [injection H1 as <-; by apply fills_dropped|].
  apply result_bind_ok in H1 as (v & Hv & <-%Ok_inj). eapply fills_column; [done| |done].
  apply (Hacc 0%nat f v); [done..|]. by rewrite Nat.add_0_r.
Qed.

(** A slot of the fixed region belongs to a field of its width, and has its encoding. *)
Lemma compute_slot fields i offset w :
  fixed_offsets (compute fields) !! i = Some (Some (offset, w)) ->
  exists f, fields !! i = Some f /\ fixed_field f w /\ fixed_encodings (compute fields) !! i = Some (for_type (sf_data_type f)).
Proof.
  pose proof (compute_spec fields) as Hspec. intros Hi. assert (i < length fields)%nat as Hlt.
  { apply lookup_lt_Some in Hi. unfold compute in Hi. set (p := layout_fields _ _ _) in Hi.
    pose proof (layout_fields_spec (length fields) fields 0 (mkPass [] [] (replicate (length fields) None) (replicate (length fields) None))) as Hp.
    destruct Hp as (_ & Hc & _); [by constructor; cbn; rewrite ?length_replicate|done|]. fold p in Hc. cbn in Hc. rewrite Hc in Hi.
    destruct (place_fixed_spec (candidates fields) (replicate (length fields) None) 0 (candidates_NoDup fields)) as (_ & Hlen & _).
    fold (candidates fields) in Hi. destruct (foldl place_fixed _ _) as [offsets reg]. cbn in Hi, Hlen. by rewrite Hlen, length_replicate in Hi. }
  destruct (lookup_lt_is_Some_2 _ _ Hlt) as [f Hf]. exists f. split; [done|].
  assert (fixed_field f w) as Hw; [|split; [done|by eapply ls_encoding]].
  destruct (sf_dropped f) eqn:Hd; [rewrite (ls_no_offset _ _ Hspec i f Hf) in Hi; [done|]; intros u [Hx _]; congruence|].
  destruct (fixed_byte_width (sf_data_type f)) as [u|] eqn:Hu; [|rewrite (ls_no_offset _ _ Hspec i f Hf) in Hi; [done|]; intros u [_ Hx]; congruence].
  assert (fixed_field f u) as Hfu by done. destruct (candidate_split (candidates fields) i u) as (l1 & l2 & Hsplit); [apply elem_candidates; by exists f|].
  rewrite (ls_offset _ _ Hspec _ _ _ _ Hsplit) in Hi. by injection Hi as _ <-.
Qed.

Lemma slice_bytes a b l : all_bytes l -> all_bytes (slice a b l).
Proof. intros. by apply all_bytes_take, all_bytes_drop. Qed.

Lemma decode_fixed_typed t w b v : fixed_byte_width t = Some w -> length b = w -> all_bytes b -> decode_fixed_value b t = Ok v -> typed t v.
Proof.
  intros Hw Hl Hb Hv. assert (0 < w)%nat as Hpos by (destruct t; cbn in Hw; simplify_eq; lia).
  destruct (fixed_bytes_typed w b Hl Hpos Hb) as [Hi Hu].
  destruct t; cbn in Hw; try discriminate Hw; injection Hw as <-; cbn in Hv; injection Hv as <-; cbn; auto.
Qed.

Lemma all_decode_new t bytes v r : all_bytes bytes -> decode_value t (new_reader bytes) = Ok (v, r) -> typed t v.
Proof.
  intros Hb H. apply all_decode in H; [apply H|]. by constructor; cbn; [|unfold MAX_NESTING, MAX_DECODE_WORK, MAX_DECODED_BYTES; lia..].
Qed.

Lemma for_type_head t e : type_ok t -> for_type t = Some e ->
  all_bytes (if fe_tag e =? TAG_DECIMAL128 then [fe_tag e; fe_precision e; fe_scale e mod 256] else [fe_tag e]).
Proof.
  intros Ht He. assert (is_byte (fe_tag e)) as Htag by (destruct t; cbn in He; try discriminate He; injection He as <-; done).
  assert (is_byte (fe_precision e)) as Hp by (destruct t; cbn in He; try discriminate He; injection He as <-; done || apply Ht).
  assert (is_byte (fe_scale e mod 256)) as Hsc by (apply Z.mod_pos_bound; lia).
  case_match; unfold all_bytes; rewrite !Forall_cons; split_and!; done || constructor.
Qed.

Lemma decode_as_typed t0 e b t v : type_ok t0 -> for_type t0 = Some e -> all_bytes b -> decode_as e b t = Ok v -> typed t v.
Proof.
  intros Ht He Hb. unfold decode_as. pose proof (for_type_head _ _ Ht He) as Hh. set (head := if fe_tag e =? _ then _ else _) in *.
  destruct (_ <? _)%nat; [done|]. intros ([x r] & Hx & H)%result_bind_ok. destruct (rd_is_empty r); [|done]. injection H as <-.
  eapply all_decode_new; [|done]. by apply all_bytes_app.
Qed.

Lemma decode_variable_typed b t v : all_bytes b -> decode_variable_value_v2 b t = Ok v -> typed t v.
Proof.
  intros Hb. destruct t; cbn [decode_variable_value_v2]; try done.
  - destruct (utf8_valid b) eqn:Hu; [|done]. intros <-%Ok_inj. cbn. unfold text_ok. by rewrite bytes_string_bytes.
  - by intros <-%Ok_inj.
  - intros ([x r] & Hx & H)%result_bind_ok. destruct (rd_is_empty r); [|done]. injection H as <-. by eapply all_decode_new.
  - intros ([x r] & Hx & H)%result_bind_ok. destruct (rd_is_empty r); [|done]. injection H as <-. by eapply all_decode_new.
  - intros ([x r] & Hx & H)%result_bind_ok. destruct (rd_is_empty r); [|done]. injection H as <-. by eapply all_decode_new.
Qed.

Lemma variable_typed s view i t v : all_bytes (rv_var_data view) ->
  (let? b := variable_slice view i s in match b with Some b => decode_variable_value_v2 b t | None => Err Truncated end) = Ok v -> typed t v.
Proof.
  intros Hvar (b & Hb & H)%result_bind_ok. destruct b as [b|]; [|done]. eapply decode_variable_typed; [|done].
  unfold variable_slice in Hb. destruct (view_is_null view i); [done|].
  destruct (variable_slot_for_ordinal _ !! i) as [[k|]|]; try done. apply Ok_inj in Hb. injection Hb as <-. by apply slice_bytes.
Qed.

Lemma decode_field_typed s view i f v :
  schema_built s -> all_bytes (rv_fixed_region view) -> all_bytes (rv_var_data view) ->
  ss_fields s !! i = Some f -> decode_field view i s = Ok v -> typed (sf_data_type f) v.
Proof.
  intros Hs Hfix Hvar Hi. unfold decode_field. rewrite Hi.
  destruct (_ <=? _)%nat; [intros <-%Ok_inj; eapply missing_typed; [done|by eapply list_elem_of_lookup_2]|].
  destruct (view_is_null view i); [intros <-%Ok_inj; apply null_typed|].
  assert (exists fields, fields_ok fields /\ view_layout view s = compute fields) as (fields & Hok & ->).
  { unfold view_layout. destruct (layout_for_version s _) eqn:E; [by eapply layout_built|]. exists (ss_fields s). by destruct Hs. }
  destruct (fixed_offsets (compute fields) !! i) as [[[offset w]|]|] eqn:Hoff.
  - destruct (compute_slot _ _ _ _ Hoff) as (g & Hg & [Hgd Hgw] & Henc). destruct (Nat.ltb_spec (length (rv_fixed_region view)) (offset + w)); [done|].
    rewrite Henc. destruct (for_type (sf_data_type g)) as [e|] eqn:He; [|done].
    assert (type_ok (sf_data_type g)) as Hgt by (unfold fields_ok in Hok; rewrite Forall_forall in Hok; by eapply Hok, list_elem_of_lookup_2).
    pose proof (slice_bytes offset (offset + w) _ Hfix) as Hb. case_decide as Heq.
    + rewrite (for_type_inj _ _ _ He (eq_sym Heq)) in Hgw. apply decode_fixed_typed with w; [done| |done].
      unfold slice. rewrite length_take, length_drop. lia.
    + by eapply decode_as_typed.
  - by apply variable_typed.
  - by apply variable_typed.
Qed.

Lemma new_within bytes : all_bytes bytes -> within (new_reader bytes).
Proof. intros Hb. by constructor; cbn; [|unfold MAX_NESTING, MAX_DECODE_WORK, MAX_DECODED_BYTES; lia..]. Qed.

Lemma view_bytes payload s flags view : all_bytes payload -> row_view_parse payload s flags = Ok view ->
  all_bytes (rv_fixed_region view) /\ all_bytes (rv_var_data view).
Proof.
  intros Hb. unfold row_view_parse. intros ([stored_version r1] & [H1 _]%rd_uint_reads & H)%result_bind_ok; [|by apply new_within].
  destruct (_ <? _); [done|]. apply result_bind_ok in H as ([row_flags r2] & [H2 _]%rd_uint_reads & H); [|apply H1].
  destruct (unsupported _ _); [done|]. destruct (has_flag flags FLAG_TOMBSTONE_ONLY).
  { destruct (rd_is_empty r2); [|done]. injection H as <-. cbn. split; constructor. }
  apply result_bind_ok in H as ([span r3] & [H3 _]%rd_uint_reads & H); [|apply H2].
  destruct (layout_for_version s stored_version) as [layout|]; [|done]. destruct (negb _); [done|].
  apply result_bind_ok in H as ([bitmap r4] & H4 & H). assert (within r4) as Hr4.
  { destruct (has_flag _ _); [|injection H4 as _ <-; apply H3].
    by apply result_bind_ok in H4 as ([b r5] & (H5 & _)%rd_take_reads & [_ <-]%Ok_inj%pair_eq); [apply H5|apply H3]. }
  apply result_bind_ok in H as ([fixed r5] & (H5 & Hfixed & _)%rd_take_reads & H); [|done]. destruct (_ && _); [done|].
  apply result_bind_ok in H as ([offsets r6] & (H6 & _)%rd_take_reads & H); [|apply H5].
  apply result_bind_ok in H as ([data r7] & (_ & Hdata & _)%rd_take_reads & H); [|apply H6].
  apply result_bind_ok in H as (prev_end & _ & H). destruct (negb _); [done|]. by injection H as <-.
Qed.

Lemma v2_row_fills payload s flags view row : schema_built s -> all_bytes payload -> row_view_parse payload s flags = Ok view ->
  v2_columns insert_column view flags s ∅ = Ok row -> fills (ss_fields s) ∅ row.
Proof.
  intros Hs Hb Hview H. destruct (view_bytes _ _ _ _ Hb Hview) as [Hfix Hvar].
  apply (each_column_fills (v2_column view flags s) _ 0); [|exact H]. intros j f v Hj _. unfold v2_column. cbn [Nat.add].
  destruct (_ && _); [intros <-%Ok_inj; apply null_typed|]. by eapply decode_field_typed.
Qed.

Lemma v1_row_fills payload s flags deleted r fields r' : schema_built s -> all_bytes payload ->
  read_row_header (new_reader payload) s flags = Ok (deleted, r) -> decode_fields r s true = Ok (fields, r') -> fills (ss_fields s) ∅ fields.
Proof.
  intros Hs Hb Hh H. assert (within r) as Hr.
  { unfold read_row_header in Hh. destruct (negb _); [done|]. destruct (negb _); [done|].
    apply result_bind_ok in Hh as ([v r1] & [H1 _]%rd_uint_reads & Hh); [|by apply new_within]. destruct (_ <? _); [done|].
    by apply result_bind_ok in Hh as ([b r2] & [H2 _]%rd_uint_reads & [_ <-]%Ok_inj%pair_eq); [apply H2|apply H1]. }
  unfold decode_fields in H. apply result_bind_ok in H as ([count r1] & [H1 _]%rd_uint_reads & H); [|done].
  apply result_bind_ok in H as (r2 & H2 & H). unfold skip_offset_table in H2.
  apply result_bind_ok in H2 as ([tab r3] & (H3 & _)%rd_take_reads & <-%Ok_inj); [|apply H1].
  unfold decode_named_fields in H. apply result_bind_ok in H as ([values r4] & H4 & (r5 & _ & [<- _]%Ok_inj%pair_eq)%result_bind_ok).
  eapply decode_columns_fills; [done|done| |exact H4]. apply H3.
Qed.

(** C16. Decoding a stored row of any bytes, in either format, is an error or a row that fits the table: it has
    a value for every live column and for nothing else, and each value has the type of its column,
    also when the layout of an older schema version, a default or a widened type was used. *)
Theorem decoded_rows_typed s bytes row :
  schema_built s -> all_bytes bytes -> decode_row_body bytes s = Ok row ->
  (forall name v, dr_fields row !! name = Some v ->
    exists f, f ∈ ss_fields s /\ sf_dropped f = false /\ sf_name f = name /\ typed (sf_data_type f) v) /\
  (forall f, f ∈ ss_fields s -> sf_dropped f = false -> is_Some (dr_fields row !! sf_name f)).
Proof.
  intros Hs Hb. unfold decode_row_body. intros ([header payload] & Henv & H)%result_bind_ok.
  assert (all_bytes payload) as Hp.
  { destruct (decode_envelope_inv _ _ _ _ Hb Henv) as (_ & _ & _ & ->). unfold envelope in Hb. rewrite !all_bytes_app in Hb. tauto. }
  enough (fills (ss_fields s) ∅ (dr_fields row)) as [H1 _ H3].
  { split; [|done]. intros name v Hv. destruct (H1 name v Hv) as [Hx|?]; [by rewrite lookup_empty in Hx|done]. }
  destruct (has_flag _ _).
  - apply result_bind_ok in H as (view & Hview & (values & Hv & <-%Ok_inj)%result_bind_ok). by eapply v2_row_fills.
  - apply result_bind_ok in H as ([deleted r] & Hh & ([fields r'] & Hf & H)%result_bind_ok). destruct (rd_is_empty r'); [|done].
    injection H as <-. by eapply v1_row_fills.
Qed.

(** ** Rows of moderate size *)

Fixpoint type_depth (t : StorageDataType) : Z :=
  match t with
  | TStruct fields => 1 + max_z (map (fun f => type_depth (sf_data_type f)) fields)
  | TList inner => 1 + type_depth inner
  | _ => 0
  end.

(** What a value costs, by the length of its bytes. *)
Record cheap (t : StorageDataType) (v : ScalarValue) : Prop := {
  ch_work : read_work t v <= 2 * Z.of_nat (length (wire v)) - 1;
  ch_bytes : read_bytes t v <= 16 * Z.of_nat (length (wire v)) - 16;
  ch_nesting : nesting v <= type_depth t
}.

Lemma cheap_cells fields cells :
  Forall2 (fun f c => cheap (sf_data_type f) c.2) fields cells ->
  let n := Z.of_nat (length (concat (map (fun c => wire c.2) cells))) in
  cells_cost read_work skip_work fields cells <= 2 * n - Z.of_nat (length cells) /\
  cells_cost read_bytes skip_bytes fields cells <= 16 * n /\
  max_z (map (fun c => nesting c.2) cells) <= max_z (map (fun f => type_depth (sf_data_type f)) fields).
Proof.
  induction 1 as [|f c fs cs [Hw Hb Hn] _ (IHw & IHb & IHn)]; cbn [cells_cost map concat length max_z foldr]; [done|].
  rewrite length_app. unfold max_z in *. split_and!; lia.
Qed.

Lemma cheap_items inner items :
  Forall (cheap inner) items ->
  let n := Z.of_nat (length (concat (map wire items))) in
  sum_z (map (read_work inner) items) <= 2 * n - Z.of_nat (length items) /\
  sum_z (map (read_bytes inner) items) <= 16 * n - 16 * Z.of_nat (length items) /\
  max_z (map nesting items) <= Z.max 0 (type_depth inner).
Proof.
  induction 1 as [|v vs [Hw Hb Hn] _ (IHw & IHb & IHn)]; cbn [map concat length sum_z max_z foldr]; [lia|].
  rewrite length_app. unfold sum_z, max_z in *. split_and!; lia.
Qed.

Lemma type_depth_nonneg t : 0 <= type_depth t.
Proof.
  induction t as [t Hb|fields IH|inner IH] using storage_type_ind; [by destruct t|..]; cbn [type_depth]; [|lia].
  pose proof (max_z_nonneg (map (fun f => type_depth (sf_data_type f)) fields)). lia.
Qed.

Lemma typed_cheap t v : typed t v -> cheap t v.
Proof.
  revert v. induction t as [t Hbase|fields IH|inner IH] using storage_type_ind; intros v Hv.
  - destruct t; try discriminate Hbase; destruct v; cbn in Hv; try done;
      repeat match goal with o : option _ |- _ => destruct o end; try done; constructor;
      cbn [read_work read_bytes wire nesting type_depth]; rewrite ?length_cons, ?length_app, ?to_le_length; cbn [length]; try lia.
    all: destruct Hv as (-> & Hl & _); rewrite concat_floats_length; lia.
  - destruct v; cbn in Hv; try done. destruct cell as [cells|]; [|constructor; cbn; try lia; pose proof (type_depth_nonneg (TStruct fields)); done].
    apply cells_typed_Forall2 in Hv. pose proof (Forall2_length _ _ _ Hv) as Hlen.
    destruct (cheap_cells fields cells) as (Hw & Hb & Hn).
    { clear Hlen. induction Hv as [|f c fs cs [_ Hc] _ IHv]; constructor; [by apply (Forall_inv IH)|apply IHv; by apply Forall_inv_tail in IH]. }
    constructor; cbn [read_work read_bytes wire nesting type_depth]; rewrite ?length_cons, ?length_app, ?to_le_length; lia.
  - destruct v; cbn in Hv; try done. destruct cell as [items|]; [|constructor; cbn; try lia; pose proof (type_depth_nonneg (TList inner)); done].
    destruct (cheap_items inner items) as (Hw & Hb & Hn); [eapply Forall_impl; [exact Hv|exact IH]|]. pose proof (type_depth_nonneg inner).
    constructor; cbn [read_work read_bytes wire nesting type_depth]; rewrite ?length_cons, ?length_app, ?to_le_length; lia.
Qed.

(** The columns of a row of [s] have their types. *)
Lemma each_field_step {A} (f : A -> nat -> StorageField -> SerResult A) fields : forall st index st' i field,
  each_field f st index fields = Ok st' -> fields !! i = Some field -> exists st0 st1, f st0 (index + i)%nat field = Ok st1.
Proof.
  induction fields as [|g fs IH]; intros st index st' [|i] field; cbn [each_field lookup list_lookup]; try done.
  - intros (st1 & H & _)%result_bind_ok [= ->]. exists st, st1. by rewrite Nat.add_0_r.
  - intros (st1 & _ & H)%result_bind_ok Hi. rewrite <- Nat.add_succ_comm. by eapply IH.
Qed.

Lemma stored_typed s values v2 bytes i f :
  schema_ok s -> values_ok values -> encode_row_body v2 false values s = Ok bytes ->
  ss_fields s !! i = Some f -> typed (sf_data_type f) (stored_value values i f).
Proof.
  intros Hok Hv Henc Hi. destruct v2.
  - destruct (v2_encoded _ _ _ Hok Hv Henc) as (bitmap & has_null & Hrow & _). rewrite <- (stored_at_field _ _ _ _ Hi). by eapply v2_typed.
  - unfold encode_row_body in Henc. apply result_bind_ok in Henc as (buf & Hloop & _). unfold encode_fields_indexed in Hloop.
    apply result_bind_ok in Hloop as (n & _ & Hloop). destruct (each_field_step _ _ _ _ _ _ _ Hloop Hi) as (st0 & st1 & Hstep). cbn [Nat.add] in Hstep.
    case_match; [|done]. apply result_bind_ok in Hstep as (b & Hb & _). eapply one_field_encoded in Hb as [Ht _]; [done| |done].
    pose proof (so_fields _ Hok) as Hf. unfold fields_ok in Hf. rewrite Forall_forall in Hf. by eapply Hf, list_elem_of_lookup_2.
Qed.

Definition fields_typed (fields : list StorageField) (stored : list ScalarValue) : Prop :=
  Forall2 (fun f v => type_ok (sf_data_type f) /\ typed (sf_data_type f) v /\ (sf_dropped f = true -> v = null_for_type (sf_data_type f)))
    fields stored.

Lemma read_own_columns fields stored : fields_typed fields stored -> forall index, exists cols, read_columns index fields stored = Some cols /\
  forall i f v, (fields !! i = Some f /\ stored !! i = Some v /\ sf_dropped f = false) -> ((index + i)%nat, f, v) ∈ cols.
Proof.
  induction 1 as [|f v fs vs (Hok & Ht & _) _ IH]; intros index; [exists []; split; [done|]; by intros i f v (H & _)|].
  destruct (IH (S index)) as (cols & Hc & Hin). cbn [read_columns]. rewrite Hc. cbn [mbind option_bind].
  destruct (sf_dropped f) eqn:Hd.
  - exists cols. split; [done|]. intros [|i] g w (Hg & Hw & Hdg); cbn in Hg, Hw; [congruence|]. rewrite <- Nat.add_succ_comm. by apply Hin.
  - rewrite (migrate_typed _ _ Hok Ht). cbn. eexists. split; [done|]. intros [|i] g w (Hg & Hw & Hdg); cbn in Hg, Hw.
    + simplify_eq. rewrite Nat.add_0_r. set_solver.
    + rewrite <- Nat.add_succ_comm. apply elem_of_cons. right. by apply Hin.
Qed.

Lemma own_fits fields stored : fields_typed fields stored ->
  let n := Z.of_nat (length (concat (map wire stored))) in
  max_z (map nesting stored) <= max_z (map (fun f => type_depth (sf_data_type f)) fields) /\
  columns_cost read_work skip_work fields stored <= 2 * n /\ columns_cost read_bytes skip_bytes fields stored <= 16 * n.
Proof.
  induction 1 as [|f v fs vs (Hok & Ht & Hnull) _ (IHn & IHw & IHb)]; cbn [columns_cost map concat max_z foldr]; [done|].
  destruct (typed_cheap _ _ Ht) as [Hw Hb Hn]. rewrite length_app. unfold max_z in *. destruct (sf_dropped f); [|split_and!; lia].
  rewrite (Hnull eq_refl) in *. rewrite null_wire in *. cbn [length].
  assert (skip_work (null_for_type (sf_data_type f)) = 1 /\ skip_bytes (null_for_type (sf_data_type f)) = 0) as [-> ->] by (by destruct (sf_data_type f)).
  split_and!; lia.
Qed.

Lemma own_typed s values v2 bytes :
  schema_ok s -> values_ok values -> encode_row_body v2 false values s = Ok bytes ->
  fields_typed (ss_fields s) (stored_values values 0 (ss_fields s)).
Proof.
  intros Hok Hv Henc. apply Forall2_same_length_lookup. split; [by rewrite stored_values_length|]. intros i f v Hi Hsv.
  rewrite (stored_values_lookup _ _ _ _ _ Hi) in Hsv. injection Hsv as <-. cbn [Nat.add]. split_and!.
  - pose proof (so_fields _ Hok) as Hf. unfold fields_ok in Hf. rewrite Forall_forall in Hf. by eapply Hf, list_elem_of_lookup_2.
  - by eapply stored_typed.
  - intros Hd. unfold stored_value. by rewrite Hd.
Qed.

(** C18. No live row of moderate size is lost to the decoder's budgets: a row that is not a tombstone, that the
    encoder accepts in either format, with at most 1 MiB of tagged column values and types nested at
    most 32 deep, is decoded again under the same schema, every live column with the value that was
    stored. *)
Theorem moderate_rows_read_back s values v2 bytes :
  schema_ok s -> values_ok values -> encode_row_body v2 false values s = Ok bytes -> names_distinct (ss_fields s) ->
  Z.of_nat (length (concat (map wire (stored_values values 0 (ss_fields s))))) <= 1048576 ->
  Forall (fun f => type_depth (sf_data_type f) <= MAX_NESTING) (ss_fields s) ->
  exists row, decode_row_body bytes s = Ok (mkDecoded false row) /\
    forall i f, ss_fields s !! i = Some f -> sf_dropped f = false -> row !! sf_name f = Some (stored_value values i f).
Proof.
  intros Hok Hv Henc Hd Hsize Hdepth. pose proof (own_typed _ _ _ _ Hok Hv Henc) as Hty.
  destruct (read_own_columns _ _ Hty 0) as (cols & Hc & Hin). destruct (own_fits _ _ Hty) as (Hn & Hw & Hb).
  assert (max_z (map (fun f => type_depth (sf_data_type f)) (ss_fields s)) <= MAX_NESTING) as Hm.
  { clear -Hdepth. induction Hdepth; cbn; [done|]. unfold max_z in *. lia. }
  eexists. split.
  - eapply row_read; [done..| | |done|exact Hc|].
    + lia.
    + unfold layout_for_version. by rewrite Z.eqb_refl, (so_layout _ Hok).
    + unfold MAX_DECODE_WORK, MAX_DECODED_BYTES. constructor; unfold MAX_DECODE_WORK, MAX_DECODED_BYTES; lia.
  - intros i f Hi Hdf. unfold columns_of. rewrite andb_false_r. eapply column_lookup; [done|by eapply column_at_read|].
    apply (Hin i f). split_and!; [done| |done]. by rewrite (stored_values_lookup _ _ _ _ _ Hi).
Qed.

(** ** Bytes of a concrete table *)

Module RowSafetyWitness.
Import RowCodecWitness.

Lemma decoded_values_bounded_witness :
  exists v r, decode_value (TList TInt32) (new_reader [22; 2; 0; 0; 0; 3; 44; 1; 0]) = Ok (v, r) /\ typed (TList TInt32) v /\ nodes v <= MAX_DECODE_WORK.
Proof.
  exists (VList (Some [VInt32 (Some 300); VInt32 None])), (mkReader [22; 2; 0; 0; 0; 3; 44; 1; 0] [] 0 5 32). split; [vm_compute; reflexivity|].
  destruct (decoded_values_bounded (TList TInt32) [22; 2; 0; 0; 0; 3; 44; 1; 0] (VList (Some [VInt32 (Some 300); VInt32 None]))
    (mkReader [22; 2; 0; 0; 0; 3; 44; 1; 0] [] 0 5 32)) as (Ht & Hn & _).
  - repeat constructor; vm_compute; discriminate || reflexivity.
  - vm_compute. reflexivity.
  - split; [exact Ht|exact Hn].
Defined.

Lemma schema_v3_built : schema_built schema_v3.
Proof. apply register_built; [repeat constructor|]. apply new_schema_built; repeat constructor. Qed.

Lemma encoded_bytes v2 : all_bytes (encoded v2).
Proof.
  assert (forallb (fun b => (0 <=? b) && (b <? 256)) (encoded v2) = true) as H by (destruct v2; vm_compute; reflexivity).
  apply Forall_forall. intros b Hb%list_elem_of_In. rewrite forallb_forall in H. specialize (H b Hb). apply andb_true_iff in H as [H1 H2].
  apply Z.leb_le in H1. apply Z.ltb_lt in H2. done.
Qed.

Lemma row_decoded : decode_row_body (encoded true) schema_v3 = Ok (mkDecoded false (row_of seen)).
Proof.
  destruct row_readable as [Hok Hv Hle Hl Hc Hfit].
  exact (row_read schema_v1 schema_v3 row_values true false (encoded true) seen Hok Hv Hle Hl ltac:(vm_compute; reflexivity) Hc Hfit).
Qed.

Lemma decoded_rows_typed_witness :
  (exists v, row_of seen !! "note"%string = Some v) /\
  (forall v, row_of seen !! "id"%string = Some v -> typed TInt64 v).
Proof.
  destruct (decoded_rows_typed schema_v3 (encoded true) (mkDecoded false (row_of seen)) schema_v3_built (encoded_bytes true) row_decoded) as [Htyped Hall]. split.
  - apply (Hall (mkField "note" TUtf8 false (Some (VUtf8 (Some "none"%string))))); [|reflexivity]. cbn. set_solver.
  - intros v Hv. destruct (Htyped _ _ Hv) as (f & Hf & Hd & Hn & Ht). cbn in Hf.
    repeat (apply elem_of_cons in Hf as [->|Hf]; [first [discriminate Hd | discriminate Hn | exact Ht]|]). by apply elem_of_nil in Hf.
Defined.

Lemma names_v1_distinct : names_distinct fields_v1.
Proof.
  intros i j f g Hi Hj Hf Hg Hn. do 4 (destruct i as [|i]; [do 4 (destruct j as [|j]; [by simplify_eq/=|]); done|]). done.
Qed.

Lemma moderate_rows_read_back_witness :
  exists row, decode_row_body (encoded true) schema_v1 = Ok (mkDecoded false row) /\ row !! "name"%string = Some (VUtf8 (Some "ann"%string)).
Proof.
  destruct (moderate_rows_read_back schema_v1 row_values true (encoded true) schema_v1_ok row_values_ok) as (row & Hrow & Hcols).
  - vm_compute. reflexivity.
  - exact names_v1_distinct.
  - vm_compute. discriminate.
  - repeat constructor; vm_compute; discriminate.
  - exists row. split; [exact Hrow|]. exact (Hcols 1%nat (new_field "name" TUtf8) eq_refl eq_refl).
Defined.

End RowSafetyWitness.
